(* ===== verification/_CoqProject ===== *)
-Q . S2P
Prelude.v
Order.v
RoomVersion.v
Event.v
PowerLevels.v
Sample.v
Levels.v
Membership.v
EventAuth.v
Sort.v
Store.v
PowerSort.v
Mainline.v
Subgraph.v
StateRes.v
Counter.v
Backoff.v
SetOps.v
PduId.v
Codec.v
Short.v
AuthChain.v
StateCompressor.v
MutexMap.v
Cursor.v
Watchers.v
Maps.v
SendingData.v
Sender.v
SenderFacts.v
SenderSample.v
RegTokens.v
Rendezvous.v
PduJson.v
FetchGraph.v
Timeline.v
Handler.v
HandlerFacts.v
HandlerSample.v
StateCache.v
StateCacheFacts.v
StateCacheSpec.v
StateCacheLaws.v
StateCacheSample.v
Peer.v
PeerFacts.v
Time.v
Pending.v
PendingFacts.v
Tokens.v
TokensFacts.v
Devices.v
Sessions.v
ToDevice.v
OneTimeKeys.v
Ratelimit.v
RatelimitFacts.v
Uiaa.v
UiaaFacts.v
UiaaSample.v
Register.v
RegisterFacts.v
RegisterSample.v
StateAccessor.v
StateAccessorFacts.v
ClientIp.v
ClientIpFacts.v
Typing.v
TypingFacts.v
Oauth.v
SessionsFacts.v
OauthFacts.v
OauthSample.v
ServerKeys.v
ServerKeysFacts.v
Spaces.v
SpacesFacts.v
SpacesSample.v
CrossSigning.v
CrossSigningFacts.v
