(* ===== verification/Prelude.v ===== *)
(** * Phantom: a verification of the core of a Matrix homeserver

    Phantom (crates [phantom-core], [phantom-database], [phantom-service],
    [phantom-api], [phantom-server]) keeps rooms as graphs of signed events. An
    event arrives from a client or another server, is authorized against the state
    of its room, and where the graph forks, the states of the branches are
    resolved into one. Rooms, events, states and accounts are stored in RocksDB, and
    what other servers are owed waits in a queue. This development models the parts
    that decide (authorization, state resolution, the handler of incoming events),
    the parts that remember (the database layer, short ids, auth chains, compressed
    states, memberships), the parts that deliver (the sending queue and the backoff
    of peers), the parts that admit users (tokens, devices, sessions, proofs of
    addresses, interactive authentication), and the concurrency primitives they rest on.

    ** Files, from the source they model

    Paths are below [crates/]; a definition has the name of the function, type or
    loop it translates. A component [X] whose proofs are long has them in [XFacts]
    or [XLaws], and its concrete runs in [XSample].

    - [Prelude.v]: results ([Result] as the monad [result]), machine integers at
      their width (checked, saturating and wrapping operations on [Z]), bytes and
      big-endian integers, [slice::binary_search_by], caches ([Evicts]), tactics.
    - [Order.v]: [Ord] as a class with laws, [BinaryHeap], stable sorting.
    - [RoomVersion.v], [Event.v], [PowerLevels.v]: [room_version.rs],
      [matrix/event.rs] and [power_levels.rs] of [phantom-core/src/matrix].
      [Event.v] also declares the classes [Identifiers], [Json] and [Signatures]:
      what the rules ask of [ruma], [serde_json] and ed25519. Theorems hold for all
      of their instances; [Sample.v] has the concrete one the witnesses run on.
    - [Levels.v], [Membership.v], [EventAuth.v]: [state_res/event_auth/levels.rs],
      [membership.rs] and [state_res/event_auth.rs], up to [auth_check].
    - [Store.v], [Sort.v], [PowerSort.v], [Mainline.v], [Subgraph.v],
      [StateRes.v]: [state_res/sort.rs], [mainline.rs], [auth_check.rs] and
      [mod.rs], up to [resolve].
    - [Counter.v], [MutexMap.v]: [phantom-core/src/sync/two_phase_counter.rs] and
      [mutex_map.rs]. [Backoff.v], [SetOps.v], [Time.v]:
      [time/exponential_backoff.rs], [set.rs] and [time/mod.rs].
    - [PduId.v]: [phantom-core/src/bytes.rs], [matrix/pdu/count.rs], [id.rs],
      [raw_id.rs]. [Codec.v]: [phantom-database/src/codec/serialize.rs] and
      [deserialize.rs].
    - [Cursor.v], [Watchers.v], [Maps.v]: [phantom-database/src/map] (cursors,
      streams, counts, writes, watchers), [store/txn.rs], [store/cork.rs] and the
      parts of [engine/mod.rs] they call. [Cursor.v] has the class of RocksDB's raw
      iterator with its laws.
    - [Short.v]: [phantom-service/src/ops/server_state/counter.rs] and
      [rooms/short.rs]. [AuthChain.v]: [rooms/auth_chain]. [StateCompressor.v]:
      [rooms/state_compressor/mod.rs] and [hash/sha256.rs].
    - [PduJson.v], [FetchGraph.v], [Timeline.v], [Handler.v]: [matrix/pdu],
      [rooms/event_handler], and what it calls of [rooms/timeline] and [rooms/state].
    - [StateCache.v], with [StateCacheSpec.v] and [StateCacheLaws.v]:
      [rooms/state_cache], on byte columns.
    - [SendingData.v], [Sender.v]: [net/sending]. [Peer.v]: [net/federation/peer.rs],
      [rank.rs] and [execute.rs].
    - [RegTokens.v], [Rendezvous.v], [Pending.v]: registration tokens, rendezvous
      sessions and [auth/threepid/pending.rs].
    - [Tokens.v], [Devices.v]: [accounts/users/token.rs], [device.rs] and the account
      half of [users/mod.rs]. [Sessions.v]: [phantom-api/src/router/auth],
      [client/auth/session] and the refresh and revocation endpoints of [oidc].
      [ToDevice.v]: [accounts/users/to_device.rs] and its delivery by the syncs of
      [client/sync]. [OneTimeKeys.v]: the one-time keys of [users/keys.rs],
      [fallback_keys.rs], and the requests that upload and claim them. [CrossSigning.v]:
      the rest of [users/keys.rs], device and cross-signing keys, their signatures, and
      who is told of changes.
    - [Ratelimit.v]: [phantom-service/src/ratelimit.rs] and [auth/attempts.rs], in
      binary64. [Uiaa.v]: [auth/uiaa.rs], [phantom-api/src/router/auth/uiaa.rs] and
      what [client/auth/register/register.rs] asks of it. [Register.v]: the rest of
      that file, and [client/auth/session/password.rs].
    - [Oauth.v]: the authorization server of next-generation sign-in,
      [auth/oauth/server] and its endpoints in [phantom-api/src/oidc]. [ClientIp.v]:
      [router/client_ip.rs], the address the limits count a request under.
    - [ServerKeys.v]: [net/server_keys], the signing keys of other servers, stored and
      acquired from them and from notaries.
    - [Typing.v]: [rooms/typing], its requests, and what both sync endpoints show of it.
    - [Spaces.v]: [rooms/spaces], the hierarchy of a space for clients and servers.
    - [StateAccessor.v]: [rooms/state_accessor], reads of stored states by key, who sees
      an event, who may redact.

    [resolve] calls the sorts, the sorts and the iterative check call
    [auth_check], and that calls the membership and power-level rules. The event
    handler fetches an event's graph, checks it with [auth_check], resolves its
    state with [resolve] and the state compressor, and appends to the timeline. The
    auth chains and the compressor draw short ids from [Short.v], which draws
    numbers from its counter; the codec and the PDU ids say how all of it is laid
    out as bytes, and the state cache and peer backoff are proved on those bytes.
    Sessions are requests over devices, devices over tokens; registering and logging
    in go through the rate limits, interactive authentication and its address proofs
    and registration tokens before they make a device.

    ** What is proved

    - Authorization. An accepted event is anchored in its room's create event and
      sent by right: by a joined user of enough power, apart from create, member and
      exempt aliases events, which have rules of their own; power levels never escalate; acting on
      another user takes the level of the action and more power than the target's;
      a banned user cannot return by their own event; and [auth_check] reads no
      more of the state than [auth_types_for_event] selects.
    - Sorting. Kahn's algorithm with its heap refines the specification
      [greedy] ("the least ready event comes next"), for every iteration order
      of its hash maps, and gives a linear extension of an acyclic graph. The power
      and mainline sorts produce the orders they promise, the latter against the mainline
      and the depths defined by following power-levels events; the subgraph walk finds
      exactly the events on a path between conflicted events.
    - Resolution. [resolve] is deterministic across hash orders and fetch orders,
      keeps what all state sets agree on, admits only agreed entries and events allowed
      at their turn, against what was resolved before them, and terminates over an acyclic store.
    - Event handler. Handling an event is a run of deeds, each checked in the state the
      run had reached: an event enters the timeline only if it passes the checks
      against its auth events, the state before it and the current state; a rejected
      event changes nothing that is read later; an event is handled once; the fetched
      graph is handled in an order in which parents come first; the tables stay well
      formed; and every refusal has its error.
    - Membership cache. Fourteen columns and a cache refine one map of memberships;
      counts, servers and application services are exact in every recounted room.
    - Database. Streams by prefix yield exactly the rows below it, in order, from any
      iterator with RocksDB's laws; a waiter on a prefix is woken by every write below
      it, however tasks interleave.
    - Storage. The state compressor refines a map from short hashes to states, for
      every eviction policy of its cache, in at most four layers and without
      overflow; a user is shown an event exactly when the history visibility and the
      memberships then and now allow it; [get_auth_chain] returns exactly the auth chain
      in a server that stores an event after its auth events, from whatever earlier requests kept;
      short ids stay unambiguous however their callers interleave; the counter
      never repeats a number, across failed writes and restarts.
    - Sending. What is queued stays queued until it is settled, over crashes and
      failing writes, and a destination has one transaction in flight. Whether a peer
      is tried depends on its failures since it last answered, within the limit.
    - Accounts. The token columns refine one session per device; an exchanged refresh
      token is never current again; nothing of a removed device stays, and no token of a
      deactivated account is accepted until it is reactivated or redeems an
      authorization of the OIDC server. An address proof is redeemed once, after the
      token sent to the address came back, in five guesses at most. Registration
      tokens admit as many uses as they allow; rendezvous sessions stay bounded. A
      device receives every message to it once and in order, and a message it has not
      acknowledged stays stored, but for those written after a sync had passed their
      number; a one-time key is handed out once per upload. A user's
      cross-signing keys change only with the user's consent, a signature is added by its
      signer only, and whoever shares a room is told exactly of key changes.
    - Admission. Rate limits in floating point count exactly at one instant, keep
      their tables bounded and still admit a new caller; whatever requests are in
      flight, account management takes the password of the account, every stage of an
      accepted session was proven in it, and a registration by address spends a proof
      of its own; a login by password is accepted exactly if it should be, and only a
      wrong password costs an attempt, whatever the table of attempts holds; a registration leaves other accounts alone.
      Over every history of the authorization server a code is redeemed once and a
      device grant collected once, each for the client, user and proof it was made for,
      and a request is completed once, through one branch. Behind a proxy that appends
      its peer, a client is counted under that address whatever it sends as text.
    - Keys of other servers. An event taken without a fetch is judged on stored keys
      alone; after a batch every key asked for is known or reported missing, whatever
      is answered and whichever writes fail.
    - Typing. A client that is shown no typing event missed none, and an event lists
      exactly the users typing then, less those it ignores.
    - Spaces. The paged walk is the recursive preorder of the rooms, each once: pages
      join to the whole of it, and a child is left out only if it may not be seen.
    - Concurrency. The two-phase counter publishes exactly the numbers below the
      oldest permit alive; the keyed locks exclude each other, and whoever
      waits for one gets it when its holder's guard is dropped, in every interleaving
      of locks, cancellations and drops.
    - Bytes and arithmetic. PDU ids round trip, and keys exactly if no optional
      record looks absent; they keep their order and scan by prefix exactly; counts stay within 64 bits; backoff is monotone.
    - Divergences. Where the code does not do what its comments say, a theorem shows
      the state and the steps: a token exchanged twice, a removed device that keeps a
      token, a membership written by halves, and others next to what they concern.

    ** How it is modelled

    Operations are executable functions; state is passed explicitly, errors are
    values of [result] with one constructor per way to fail (a failed [expect] or
    index is [Panic] or [Panicked]). Concurrent components are given as one function
    [exec] for the atomic steps of a task, and [reachable] closes it over all
    schedules; an operation that holds its lock throughout is one step. A
    [HashMap] is a [gmap] whose iteration order is a parameter ([iter],
    [unordered]) known only to enumerate it; a [BTreeMap] or [BTreeSet] is sorted.
    Fetching an event is lookup in a finite store. LRU caches may drop anything on
    insertion. Code outside the repository is a parameter, with what is assumed
    of it as hypotheses ([collision_free] for SHA-256, [membership_decoders] for
    two decoders of one field, [PduFormatLaws] for [serde]).

    The database is a map from column names to sorted rows ([Maps.Db]). A write is
    answered by a [Maps.io]: whether it happened, and whether an error came after.
    Where the code drops the error of a write ([.ok()]), the model drops it too, and the
    write may not have happened; the exceptions are [Timeline.v], [Short.v] and
    [StateCompressor.v], in which such writes are taken to succeed. The handler and
    the sender run in a state monad over an environment numbered by ticks, so that every
    call may be answered anew. Where the layout of rows matters ([StateCache], [Peer], [Sender])
    columns hold bytes, related to typed maps by a representation predicate; elsewhere
    rows are at the type of their keys and values. Clocks and random draws are
    arguments. Logging, tracing and metrics are left out.

    Loops with no structural measure take fuel, and the error [Diverges] says that
    it ran out; each has a theorem that it does not. The bounds: the
    topological sort, one round per node; the graph builder, [add_fuel], one per
    auth edge; the subgraph walk, [walk_fuel], one per event and per auth edge;
    the mainline loops, [chain_fuel], one per stored event (the store is acyclic);
    the auth chain walk, one per id that some event names; stored differences,
    their length; layers, four; a cursor, one poll per row and one for its end;
    evicting rendezvous sessions, one round per session; requests to a notary, one per
    server; the walk of a space, a number of steps that is shown to exist; fetching a graph, one visit
    per id, by the rank of the ids.

    ** What is not modelled

    Most of the HTTP APIs, federation transport, sync, media and admin services
    (I/O over the parts above), the RocksDB engine and its thread pool, the
    procedural macros, configuration and logging, and the Go command-line client.
    The next part to model is the building of local events. *)
From Stdlib Require Export ZArith Lia Strings.Byte.
From stdpp Require Export base tactics list gmap sets strings sorting.

Create HintDb phantom.
Open Scope Z_scope.

(** ** Results *)

(** Rust's [Result<A, E>]. *)
Inductive result (E A : Type) : Type :=
  | Ok (a : A)
  | Err (e : E).
Arguments Ok {E A} a.
Arguments Err {E A} e.

#[export] Instance result_ret {E} : MRet (result E) := fun A a => Ok a.
#[export] Instance result_bind {E} : MBind (result E) := fun A B f r =>
  match r with Ok a => f a | Err e => Err e end.
#[export] Instance result_fmap {E} : FMap (result E) := fun A B f r =>
  match r with Ok a => Ok (f a) | Err e => Err e end.

(** [Option::ok_or] *)
Definition ok_or {E A} (o : option A) (e : E) : result E A :=
  match o with Some a => Ok a | None => Err e end.

(** [Result::ok] *)
Definition ok {E A} (r : result E A) : option A :=
  match r with Ok a => Some a | Err _ => None end.

Definition is_ok {E A} (r : result E A) : bool :=
  match r with Ok _ => true | Err _ => false end.

Lemma bind_ok {E A B} (f : A -> result E B) (r : result E A) b :
  r ≫= f = Ok b <-> exists a, r = Ok a /\ f a = Ok b.
Proof.
  destruct r as [a|e]; cbn; (split; [intros H|intros (? & ? & ?)]);
    simplify_eq; eauto.
Qed.

Lemma ok_or_ok {E A} (o : option A) (e : E) a :
  ok_or o e = Ok a <-> o = Some a.
Proof. destruct o; cbn; split; intros; by simplify_eq. Qed.

(** Splits every successful bind of the context into its steps. *)
Ltac bind_inv :=
  repeat match goal with
  | H : _ ≫= _ = Ok _ |- _ =>
      apply bind_ok in H; let a := fresh "v" in let Ha := fresh "Hv" in
      destruct H as (a & Ha & H)
  | H : ok_or _ _ = Ok _ |- _ => apply ok_or_ok in H
  end; simplify_eq.

(** Identifies the results of computations that occur twice in the context. *)
Ltac merge_ok :=
  repeat match goal with
  | H : ?x = Ok ?a, H' : ?x = Ok ?b |- _ =>
      rewrite H in H'; injection H' as ?; subst
  end.

(** ** Machine integers *)

Definition u32_max : Z := 2 ^ 32 - 1.
Definition u64_max : Z := 2 ^ 64 - 1.
Definition i64_max : Z := 2 ^ 63 - 1.
Definition i64_min : Z := - 2 ^ 63.
(** The targets are 64-bit. *)
Definition usize_max : Z := u64_max.

Definition is_u32 (z : Z) : Prop := 0 <= z <= u32_max.
Definition is_u64 (z : Z) : Prop := 0 <= z <= u64_max.
Definition is_i64 (z : Z) : Prop := i64_min <= z <= i64_max.

(** [x as u64] and [x as i64]: two's-complement reinterpretation. *)
Definition as_u64 (z : Z) : Z := z mod 2 ^ 64.
Definition as_i64 (z : Z) : Z :=
  let u := z mod 2 ^ 64 in if u <=? i64_max then u else u - 2 ^ 64.

Definition in_range (lo hi z : Z) : option Z :=
  if (lo <=? z) && (z <=? hi) then Some z else None.
Definition clamp_range (lo hi z : Z) : Z := Z.max lo (Z.min hi z).

Definition u64_checked_add (a b : Z) := in_range 0 u64_max (a + b).
Definition u64_checked_sub (a b : Z) := in_range 0 u64_max (a - b).
Definition u64_checked_mul (a b : Z) := in_range 0 u64_max (a * b).
Definition i64_checked_add (a b : Z) := in_range i64_min i64_max (a + b).
Definition i64_checked_sub (a b : Z) := in_range i64_min i64_max (a - b).
Definition u64_saturating_add (a b : Z) := clamp_range 0 u64_max (a + b).
Definition u64_saturating_sub (a b : Z) := clamp_range 0 u64_max (a - b).
Definition u64_saturating_mul (a b : Z) := clamp_range 0 u64_max (a * b).
Definition i64_saturating_add (a b : Z) := clamp_range i64_min i64_max (a + b).
Definition i64_saturating_sub (a b : Z) := clamp_range i64_min i64_max (a - b).

Ltac unfold_ints :=
  unfold u64_checked_add, u64_checked_sub, u64_checked_mul, i64_checked_add,
    i64_checked_sub, u64_saturating_add, u64_saturating_sub,
    u64_saturating_mul, i64_saturating_add, i64_saturating_sub, in_range,
    clamp_range, is_u32, is_u64, is_i64, usize_max, u32_max, u64_max,
    i64_max, i64_min in *.

(** Decides goals about machine integers. *)
Ltac int_solve := unfold_ints; lia.

Lemma in_range_Some lo hi z x :
  in_range lo hi z = Some x <-> x = z /\ lo <= z <= hi.
Proof.
  unfold in_range. destruct (lo <=? z) eqn:?, (z <=? hi) eqn:?; cbn;
    (split; [intros [= <-]|intros [-> ?]]); try done; try (split; [done|]); lia.
Qed.

Lemma in_range_None lo hi z :
  in_range lo hi z = None <-> z < lo \/ hi < z.
Proof.
  unfold in_range. destruct (lo <=? z) eqn:?, (z <=? hi) eqn:?; cbn;
    (split; [intros [=]|intros ?]); try done; lia.
Qed.

Lemma as_i64_range z : is_i64 (as_i64 z).
Proof.
  unfold as_i64. pose proof (Z.mod_pos_bound z (2 ^ 64) ltac:(lia)).
  destruct (_ <=? _) eqn:?; int_solve.
Qed.

Lemma as_u64_range z : is_u64 (as_u64 z).
Proof. unfold as_u64. pose proof (Z.mod_pos_bound z (2 ^ 64)). int_solve. Qed.

Lemma as_u64_small z : is_u64 z -> as_u64 z = z.
Proof. intros. apply Z.mod_small. int_solve. Qed.

Lemma as_i64_of_i64 z : is_i64 z -> as_i64 (as_u64 z) = z.
Proof.
  intros H. unfold as_i64, as_u64. rewrite Z.mod_mod by lia.
  destruct (decide (0 <= z)).
  - rewrite Z.mod_small by int_solve. destruct (_ <=? _) eqn:?; int_solve.
  - replace (z mod 2 ^ 64) with (z + 2 ^ 64)
      by (apply (Z.mod_unique _ _ (-1)); int_solve).
    destruct (_ <=? _) eqn:?; int_solve.
Qed.

Lemma as_i64_small z : 0 <= z <= i64_max -> as_i64 z = z.
Proof.
  intros H. rewrite <-(as_u64_small z) at 1 by int_solve.
  apply as_i64_of_i64. int_solve.
Qed.

Lemma as_u64_as_i64 z : is_u64 z -> as_u64 (as_i64 z) = z.
Proof.
  intros H. unfold as_i64, as_u64. cbv zeta. rewrite (Z.mod_small z) by int_solve.
  destruct (_ <=? _) eqn:E; [apply Z.mod_small; int_solve|].
  symmetry; apply (Z.mod_unique _ _ (-1)); int_solve.
Qed.

(** ** Bytes *)

#[export] Instance byte_eq_dec : EqDecision byte := Byte.byte_eq_dec.

Definition b2z (b : byte) : Z := Z.of_N (Byte.to_N b).
Definition z2b (z : Z) : byte :=
  default Byte.x00 (Byte.of_N (Z.to_N (z mod 256))).

Lemma b2z_range b : 0 <= b2z b < 256.
Proof. unfold b2z. pose proof (Byte.to_N_bounded b). lia. Qed.

Lemma z2b_b2z b : z2b (b2z b) = b.
Proof.
  unfold z2b. rewrite Z.mod_small by apply b2z_range.
  unfold b2z. by rewrite N2Z.id, Byte.of_to_N.
Qed.

Lemma b2z_z2b z : b2z (z2b z) = z mod 256.
Proof.
  unfold z2b. pose proof (Z.mod_pos_bound z 256 ltac:(lia)).
  destruct (Byte.of_N _) as [b|] eqn:E; cbn.
  - apply Byte.to_of_N in E. unfold b2z. rewrite E. lia.
  - apply Byte.of_N_None_iff in E. lia.
Qed.

#[export] Instance byte_countable : Countable byte := inj_countable' b2z z2b z2b_b2z.

Lemma b2z_inj b c : b2z b = b2z c -> b = c.
Proof. intros H. rewrite <-(z2b_b2z b), <-(z2b_b2z c). by f_equal. Qed.

(** [to_be_bytes] of an [n]-byte integer; a negative number gives its two's
    complement. *)
Fixpoint be_bytes (n : nat) (z : Z) : list byte :=
  match n with
  | O => []
  | S n => z2b (z / 256 ^ Z.of_nat n) :: be_bytes n z
  end.

(** [from_be_bytes], unsigned. *)
Fixpoint from_be (l : list byte) : Z :=
  match l with
  | [] => 0
  | b :: l => b2z b * 256 ^ Z.of_nat (length l) + from_be l
  end.

Lemma length_be_bytes n z : length (be_bytes n z) = n.
Proof. induction n; cbn; by f_equal. Qed.

Lemma from_be_range l : 0 <= from_be l < 256 ^ Z.of_nat (length l).
Proof.
  induction l as [|b l IH]; [cbn; lia|].
  cbn [from_be length]. rewrite Nat2Z.inj_succ, Z.pow_succ_r by lia.
  pose proof (b2z_range b). nia.
Qed.

Lemma from_be_be_bytes n z : from_be (be_bytes n z) = z mod 256 ^ Z.of_nat n.
Proof.
  induction n as [|n IH]; [cbn; by rewrite Z.mod_1_r|].
  cbn [be_bytes from_be]. rewrite length_be_bytes, IH, b2z_z2b.
  rewrite Nat2Z.inj_succ, Z.pow_succ_r, (Z.mul_comm 256) by lia.
  rewrite Z.rem_mul_r by lia. lia.
Qed.

Lemma be_bytes_from_be l : be_bytes (length l) (from_be l) = l.
Proof.
  enough (forall l k, be_bytes (length l)
    (k * 256 ^ Z.of_nat (length l) + from_be l) = l) as H.
  { specialize (H l 0). by rewrite Z.mul_0_l, Z.add_0_l in H. }
  clear l. induction l as [|b l IH]; intros k; [done|].
  cbn [length be_bytes from_be]. pose proof (from_be_range l).
  rewrite Nat2Z.inj_succ, Z.pow_succ_r by lia. f_equal.
  - replace (k * (256 * 256 ^ Z.of_nat (length l)) + _) with
      ((k * 256 + b2z b) * 256 ^ Z.of_nat (length l) + from_be l) by ring.
    rewrite Z.div_add_l, Z.div_small, Z.add_0_r by lia.
    apply b2z_inj. rewrite b2z_z2b, Z.add_comm, Z.mod_add by lia.
    apply Z.mod_small, b2z_range.
  - etrans; [|apply (IH (k * 256 + b2z b))]. f_equal. ring.
Qed.

Lemma from_be_inj l k :
  length l = length k -> from_be l = from_be k -> l = k.
Proof.
  intros Hl H. rewrite <-(be_bytes_from_be l), <-(be_bytes_from_be k).
  by rewrite Hl, H.
Qed.

(** The order RocksDB keeps keys in: bytewise, a prefix first. *)
Fixpoint bytes_cmp (k l : list byte) : comparison :=
  match k, l with
  | [], [] => Eq
  | [], _ :: _ => Lt
  | _ :: _, [] => Gt
  | b :: k, c :: l =>
      match b2z b ?= b2z c with Eq => bytes_cmp k l | r => r end
  end.

Lemma bytes_cmp_refl l : bytes_cmp l l = Eq.
Proof. induction l; cbn; [done|]. by rewrite Z.compare_refl. Qed.

Lemma bytes_cmp_eq k l : bytes_cmp k l = Eq -> k = l.
Proof.
  revert l. induction k as [|b k IH]; intros [|c l]; cbn; try done.
  destruct (b2z b ?= b2z c) eqn:E; try done. intros H.
  apply Z.compare_eq in E. f_equal; [by apply b2z_inj|by apply IH].
Qed.

Lemma bytes_cmp_app p k l : bytes_cmp (p ++ k) (p ++ l) = bytes_cmp k l.
Proof. induction p; cbn; [done|]. by rewrite Z.compare_refl. Qed.

(** A common shape: two keys whose first parts have one length. *)
Lemma bytes_cmp_app_len p q k l :
  length p = length q ->
  bytes_cmp (p ++ k) (q ++ l) =
    match bytes_cmp p q with Eq => bytes_cmp k l | r => r end.
Proof.
  revert q. induction p as [|b p IH]; intros [|c q]; cbn; try done.
  intros [= H]. destruct (b2z b ?= b2z c); auto.
Qed.

(** Byte order of equally long keys is the order of the numbers they spell. *)
Lemma bytes_cmp_from_be k l :
  length k = length l -> bytes_cmp k l = (from_be k ?= from_be l).
Proof.
  revert l. induction k as [|b k IH]; intros [|c l]; cbn [length]; try done.
  intros [= Hl]. cbn [bytes_cmp from_be]. rewrite <-Hl.
  pose proof (from_be_range k). pose proof (from_be_range l).
  rewrite <-Hl in *. set (m := 256 ^ Z.of_nat (length k)) in *.
  destruct (Z.compare_spec (b2z b) (b2z c)) as [E|E|E].
  - rewrite IH by done. rewrite E. symmetry. apply Z.add_compare_mono_l.
  - symmetry. apply Z.compare_lt_iff. nia.
  - symmetry. apply Z.compare_gt_iff. nia.
Qed.

Lemma bytes_cmp_be_bytes n a b :
  bytes_cmp (be_bytes n a) (be_bytes n b) =
    (a mod 256 ^ Z.of_nat n ?= b mod 256 ^ Z.of_nat n).
Proof.
  by rewrite bytes_cmp_from_be, !from_be_be_bytes by by rewrite !length_be_bytes.
Qed.

(** ** Binary search *)

(** [slice::binary_search_by]: [f] compares an element with the target. The
    loop halves [size] while it exceeds one, so [length l] rounds suffice. *)
Fixpoint bs_loop {A} (f : A -> comparison) (l : list A)
    (fuel base size : nat) : nat :=
  match fuel with
  | O => base
  | S fuel =>
      if (size <=? 1)%nat then base else
      let half := (size / 2)%nat in
      let mid := (base + half)%nat in
      let base := match f <$> l !! mid with Some Gt => base | _ => mid end in
      bs_loop f l fuel base (size - half)
  end.

Definition binary_search_by {A} (f : A -> comparison) (l : list A) : option nat :=
  let base := bs_loop f l (length l) 0 (length l) in
  match f <$> l !! base with Some Eq => Some base | _ => None end.

Definition cmp_rank (c : comparison) : nat :=
  match c with Lt => 0 | Eq => 1 | Gt => 2 end.

(** [l] is sorted with respect to the target [f] compares with. *)
Definition bs_sorted {A} (f : A -> comparison) (l : list A) : Prop :=
  forall i j x y, (i <= j)%nat -> l !! i = Some x -> l !! j = Some y ->
    (cmp_rank (f x) <= cmp_rank (f y))%nat.

Section BinarySearch.
Context {A : Type} (f : A -> comparison) (l : list A).
Hypothesis Hsorted : bs_sorted f l.

#[local] Definition bs_inv (base size : nat) : Prop :=
  (1 <= size)%nat /\ (base + size <= length l)%nat /\
  (base = 0%nat \/ exists x, l !! base = Some x /\ f x <> Gt) /\
  (forall j x, (base + size <= j)%nat -> l !! j = Some x -> f x = Gt).

Lemma bs_loop_inv fuel base size :
  (size <= S fuel)%nat -> bs_inv base size ->
  bs_inv (bs_loop f l fuel base size) 1.
Proof.
  revert base size. induction fuel as [|fuel IH]; intros base size Hf Hi.
  { replace size with 1%nat in Hi by (destruct Hi; lia). done. }
  cbn [bs_loop]. destruct (Nat.leb_spec size 1).
  { replace size with 1%nat in Hi by (destruct Hi; lia). done. }
  pose proof (Nat.div_lt size 2 ltac:(lia) ltac:(lia)) as Hlt.
  assert (1 <= size / 2)%nat by (apply Nat.div_le_lower_bound; lia).
  pose proof (Nat.Div0.mul_div_le size 2) as Hhalf.
  cbv zeta. set (half := (size / 2)%nat) in *. clearbody half.
  apply IH; [lia|]. destruct Hi as (_ & Hlen & Hb & Hgt).
  destruct (lookup_lt_is_Some_2 l (base + half)) as [x Hx]; [lia|].
  rewrite Hx. cbn [fmap option_fmap option_map].
  destruct (f x) eqn:Efx; unfold bs_inv.
  1,2: split_and!; [lia|lia|right; exists x; split; [done|by rewrite Efx]|].
  1,2: intros j y Hj Hy; apply (Hgt j); [lia|done].
  split_and!; [lia|lia|done|]. intros j y Hj Hy.
  pose proof (Hsorted (base + half)%nat j x y) as Hs. rewrite Efx in Hs.
  specialize (Hs ltac:(lia) Hx Hy). destruct (f y); cbn in Hs; [lia|lia|done].
Qed.

Lemma binary_search_by_found i x :
  l !! i = Some x -> f x = Eq ->
  exists j y, binary_search_by f l = Some j /\ l !! j = Some y /\ f y = Eq.
Proof.
  intros Hx Hfx. unfold binary_search_by.
  pose proof (lookup_lt_Some _ _ _ Hx) as Hlen.
  destruct (bs_loop_inv (length l) 0 (length l)) as (_ & Hb & Hle & Hgt).
  { lia. }
  { split_and!; [lia|lia|by left|]. intros j y Hj Hy.
    apply lookup_lt_Some in Hy. lia. }
  set (b := bs_loop _ _ _ _ _) in *. clearbody b.
  destruct (lookup_lt_is_Some_2 l b) as [y Hy]; [lia|].
  assert (Hib : (i <= b)%nat).
  { destruct (decide (i <= b)%nat); [done|].
    rewrite (Hgt i x) in Hfx; [done|lia|done]. }
  pose proof (Hsorted i b x y Hib Hx Hy) as Hr. rewrite Hfx in Hr.
  rewrite Hy. cbn. exists b, y.
  destruct Hle as [->|(y' & Hy' & Hne)].
  - replace i with 0%nat in Hx by lia. rewrite Hx in Hy.
    injection Hy as <-. by rewrite Hfx.
  - rewrite Hy in Hy'. injection Hy' as <-.
    destruct (f y) eqn:?; cbn in Hr; [done|lia|done].
Qed.
End BinarySearch.

Lemma binary_search_by_sound {A} (f : A -> comparison) (l : list A) j :
  binary_search_by f l = Some j -> exists y, l !! j = Some y /\ f y = Eq.
Proof.
  unfold binary_search_by. destruct (l !! _) as [y|] eqn:E; cbn; [|done].
  destruct (f y) eqn:?; intros [= <-]. eauto.
Qed.

(** ** Lists *)

Lemma filter_ext_Forall {A} (P Q : A -> Prop) `{!forall x, Decision (P x)}
    `{!forall x, Decision (Q x)} (l : list A) :
  Forall (fun x => P x <-> Q x) l -> filter P l = filter Q l.
Proof.
  induction 1 as [|x l Hx Hl IH]; [done|]. rewrite !filter_cons.
  destruct (decide (P x)), (decide (Q x)); rewrite ?IH; tauto.
Qed.

Lemma filter_all {A} (P : A -> Prop) `{!forall x, Decision (P x)} (l : list A) :
  Forall P l -> filter P l = l.
Proof. induction 1 as [|x l Hx Hl IH]; [done|]. by rewrite filter_cons_True, IH. Qed.

Lemma filter_none {A} (P : A -> Prop) `{!forall x, Decision (P x)} (l : list A) :
  Forall (fun x => ~ P x) l -> filter P l = [].
Proof. induction 1 as [|x l Hx Hl IH]; [done|]. by rewrite filter_cons_False, IH. Qed.

(** ** Sorted lists *)

Lemma StronglySorted_sublist {A} (R : A -> A -> Prop) (k l : list A) :
  StronglySorted R l -> k `sublist_of` l -> StronglySorted R k.
Proof.
  intros Hl Hk. induction Hk as [|x k l Hk IH|x k l Hk IH]; [done| |];
    apply StronglySorted_inv in Hl as [Hl Hx].
  - constructor; [auto|]. rewrite Forall_forall in Hx |- *.
    intros y Hy. apply Hx. by eapply elem_of_sublist.
  - auto.
Qed.

Lemma StronglySorted_lookup {A} (R : A -> A -> Prop) (l : list A) i j x y :
  StronglySorted R l -> (i < j)%nat -> l !! i = Some x -> l !! j = Some y -> R x y.
Proof.
  intros Hl. revert i j. induction Hl as [|z l Hl IH Hz]; intros [|i] [|j] Hij;
    cbn; try done; try lia.
  - intros [= ->] Hy. rewrite Forall_forall in Hz. apply Hz.
    by eapply list_elem_of_lookup_2.
  - intros Hx Hy. apply (IH i j); [lia|done|done].
Qed.

Lemma StronglySorted_snoc {A} (R : A -> A -> Prop) (l : list A) x :
  StronglySorted R l -> Forall (fun y => R y x) l -> StronglySorted R (l ++ [x]).
Proof.
  induction 1 as [|y l Hl IH Hy]; cbn; intros Hx.
  - repeat constructor.
  - apply Forall_cons in Hx as [? ?]. constructor; [auto|].
    apply Forall_app; split; [done|]. by repeat constructor.
Qed.

Lemma StronglySorted_NoDup (l : list Z) : StronglySorted Z.lt l -> NoDup l.
Proof.
  induction 1 as [|x l Hl IH Hx]; constructor; [|done].
  intros Hin. rewrite Forall_forall in Hx. specialize (Hx _ Hin). lia.
Qed.

Lemma sorted_Z_bs (l : list Z) id :
  StronglySorted Z.lt l -> bs_sorted (fun x => x ?= id) l.
Proof.
  intros Hl i j x y Hij Hx Hy. destruct (decide (i = j)) as [->|].
  { by simplify_eq. }
  pose proof (StronglySorted_lookup _ _ i j x y Hl ltac:(lia) Hx Hy).
  destruct (Z.compare_spec x id), (Z.compare_spec y id); cbn; lia.
Qed.

(** The index a binary search of a strictly increasing list answers. *)
Lemma binary_search_Z (l : list Z) id i :
  StronglySorted Z.lt l ->
  binary_search_by (fun x => x ?= id) l = Some i <-> l !! i = Some id.
Proof.
  intros Hl. split.
  - intros (y & Hy & E)%binary_search_by_sound.
    apply Z.compare_eq in E. by subst.
  - intros Hi.
    destruct (binary_search_by_found _ l (sorted_Z_bs l id Hl) i id Hi
                (Z.compare_refl id)) as (j & y & -> & Hj & E).
    apply Z.compare_eq in E. subst y. f_equal.
    destruct (decide (i = j)); [done|exfalso].
    destruct (decide (i < j)%nat).
    + pose proof (StronglySorted_lookup _ _ i j _ _ Hl ltac:(lia) Hi Hj). lia.
    + pose proof (StronglySorted_lookup _ _ j i _ _ Hl ltac:(lia) Hj Hi). lia.
Qed.

(** ** Maps *)

Lemma insert_is_Some {K V} `{Countable K} (m : gmap K V) k v y :
  is_Some (<[k := v]> m !! y) <-> y = k \/ is_Some (m !! y).
Proof. rewrite lookup_insert_is_Some. destruct (decide (k = y)); naive_solver. Qed.

(** ** Caches *)

(** What an LRU cache ([lru_cache::LruCache]) promises its users: inserting may
    drop entries, but whatever it still answers was put there. *)
Class Evicts {K V} `{Countable K} (evict : gmap K V -> gmap K V) : Prop :=
  evict_drops m : evict m ⊆ m.

(** A cache with room for everything, and one that keeps nothing. *)
#[export] Instance evicts_nothing {K V} `{Countable K} : Evicts (id : gmap K V -> gmap K V).
Proof. intros m. done. Qed.
#[export] Instance evicts_everything {K V} `{Countable K} :
  Evicts (fun _ : gmap K V => ∅).
Proof. intros m. apply map_empty_subseteq. Qed.

Lemma evict_insert_Some {K V} `{Countable K} (evict : gmap K V -> gmap K V) `{!Evicts evict}
    (m : gmap K V) k v k' v' :
  evict (<[k := v]> m) !! k' = Some v' -> (k = k' /\ v = v') \/ m !! k' = Some v'.
Proof.
  intros Hl. eapply lookup_weaken in Hl; [|apply evict_drops].
  apply lookup_insert_Some in Hl as [?|[_ ?]]; auto.
Qed.

#[export] Hint Resolve as_i64_range as_u64_range b2z_range from_be_range : phantom.
