(* ===== verification/Order.v ===== *)
(** Total orders as Rust's [Ord] has them: a three-way comparison with its laws,
    the instances the components compare by (integers, identifiers, pairs),
    [BinaryHeap::pop] as extraction of the least element, and the stable sort. *)
From S2P Require Import Prelude.
From Stdlib Require Import OrdersEx.

(** ** The interface *)

Class Ord (A : Type) := cmp : A -> A -> comparison.
Arguments cmp : simpl never.

Class OrdLaws (A : Type) `{Ord A} := {
  cmp_eq (x y : A) : cmp x y = Eq <-> x = y;
  cmp_flip (x y : A) : cmp y x = CompOpp (cmp x y);
  cmp_trans (x y z : A) : cmp x y = Lt -> cmp y z = Lt -> cmp x z = Lt
}.

(** [Ordering::then] *)
Definition then_cmp (c d : comparison) : comparison :=
  match c with Eq => d | _ => c end.

(** [a < b] and [a >= b] of [PartialOrd], and the order as a relation. *)
Definition ltb {A} `{Ord A} (x y : A) : bool :=
  match cmp x y with Lt => true | _ => false end.
Definition geb {A} `{Ord A} (x y : A) : bool := negb (ltb x y).
Definition gtb {A} `{Ord A} (x y : A) : bool := ltb y x.
Definition ord_le {A} `{Ord A} (x y : A) : Prop := cmp x y <> Gt.

Section Laws.
Context {A : Type} `{OrdLaws A}.
Implicit Types x y z : A.

Lemma cmp_refl x : cmp x x = Eq.
Proof. by apply cmp_eq. Qed.

Lemma cmp_gt x y : cmp x y = Gt <-> cmp y x = Lt.
Proof. rewrite (cmp_flip x y). by destruct (cmp x y). Qed.

Lemma ord_le_cases x y : ord_le x y <-> cmp x y = Lt \/ x = y.
Proof.
  unfold ord_le. rewrite <-cmp_eq. destruct (cmp x y); naive_solver.
Qed.

Lemma ord_le_refl x : ord_le x x.
Proof. apply ord_le_cases. by right. Qed.

Lemma ord_le_trans x y z : ord_le x y -> ord_le y z -> ord_le x z.
Proof.
  rewrite !ord_le_cases. intros [Hx| ->] [Hy|<-]; eauto using cmp_trans.
Qed.

Lemma ord_le_antisym x y : ord_le x y -> ord_le y x -> x = y.
Proof.
  rewrite !ord_le_cases. intros [Hx|?] [Hy|?]; [|done..].
  exfalso. by rewrite cmp_flip, Hx in Hy.
Qed.

Lemma ord_le_total x y : ord_le x y \/ ord_le y x.
Proof. unfold ord_le. rewrite (cmp_flip x y). destruct (cmp x y); naive_solver. Qed.

Lemma ltb_lt x y : ltb x y = true <-> cmp x y = Lt.
Proof. unfold ltb. by destruct (cmp x y). Qed.

Lemma geb_le x y : geb x y = true <-> ord_le y x.
Proof.
  unfold geb, ltb, ord_le. rewrite (cmp_flip x y). by destruct (cmp x y).
Qed.

Lemma gtb_false x y : gtb x y = false <-> ord_le x y.
Proof.
  unfold gtb, ltb, ord_le. rewrite (cmp_flip x y). by destruct (cmp x y).
Qed.

Lemma ord_lt_le_trans x y z : cmp x y = Lt -> ord_le y z -> cmp x z = Lt.
Proof. rewrite ord_le_cases. intros ? [?| <-]; eauto using cmp_trans. Qed.

Lemma ord_le_lt_trans x y z : ord_le x y -> cmp y z = Lt -> cmp x z = Lt.
Proof. rewrite ord_le_cases. intros [?| ->]; eauto using cmp_trans. Qed.

End Laws.

(** ** Instances *)

#[export] Instance ord_Z : Ord Z := Z.compare.
#[export] Instance ord_Z_laws : OrdLaws Z.
Proof.
  split; unfold cmp, ord_Z; intros.
  - apply Z.compare_eq_iff.
  - by rewrite Z.compare_antisym.
  - rewrite Z.compare_lt_iff in *. lia.
Qed.

#[export] Instance ord_nat : Ord nat := Nat.compare.
#[export] Instance ord_nat_laws : OrdLaws nat.
Proof.
  split; unfold cmp, ord_nat; intros.
  - apply Nat.compare_eq_iff.
  - by rewrite Nat.compare_antisym.
  - rewrite Nat.compare_lt_iff in *. lia.
Qed.

(** [str] is ordered by its bytes. *)
#[export] Instance ord_string : Ord string := String.compare.

Lemma string_compare_OT s t : String.compare s t = String_as_OT.compare s t.
Proof. revert t. by induction s as [|a s IH]; intros [|b t]. Qed.

#[export] Instance ord_string_laws : OrdLaws string.
Proof.
  split; unfold cmp, ord_string; intros x y.
  - split; [apply String.compare_eq_iff|intros ->].
    pose proof (String.compare_antisym y y) as E. by destruct (String.compare y y).
  - apply String.compare_antisym.
  - intros z. rewrite !string_compare_OT. apply String_as_OT.lt_strorder.
Qed.

#[export] Instance ord_pair {A B} `{Ord A, Ord B} : Ord (A * B) := fun p q =>
  then_cmp (cmp p.1 q.1) (cmp p.2 q.2).

Lemma cmp_pair {A B} `{Ord A, Ord B} (a c : A) (b d : B) :
  cmp (a, b) (c, d) = then_cmp (cmp a c) (cmp b d).
Proof. done. Qed.

#[export] Instance ord_pair_laws {A B} `{OrdLaws A, OrdLaws B} : OrdLaws (A * B).
Proof.
  split.
  - intros [a b] [c d]. rewrite cmp_pair. destruct (cmp a c) eqn:E; cbn.
    + apply cmp_eq in E as ->. rewrite cmp_eq. naive_solver.
    + split; [done|intros [= -> ->]]. by rewrite cmp_refl in E.
    + split; [done|intros [= -> ->]]. by rewrite cmp_refl in E.
  - intros [a b] [c d]. rewrite !cmp_pair, (cmp_flip a c), (cmp_flip b d).
    by destruct (cmp a c), (cmp b d).
  - intros [a b] [c d] [e f]. rewrite !cmp_pair.
    destruct (cmp a c) eqn:E1; cbn; [apply cmp_eq in E1 as ->|intros _|done].
    + destruct (cmp c e) eqn:E2; cbn; [apply cmp_trans|done|done].
    + destruct (cmp c e) eqn:E2; cbn; [apply cmp_eq in E2 as ->; by rewrite E1| |done].
      by rewrite (cmp_trans a c e).
Qed.

(** [std::cmp::Reverse] *)
Inductive Reverse (A : Type) := MkReverse (a : A).
Arguments MkReverse {A} a.
Definition unreverse {A} (r : Reverse A) : A := let 'MkReverse a := r in a.

#[export] Instance ord_Reverse {A} `{Ord A} : Ord (Reverse A) := fun a b =>
  cmp (unreverse b) (unreverse a).
#[export] Instance ord_Reverse_laws {A} `{OrdLaws A} : OrdLaws (Reverse A).
Proof.
  split.
  - intros [x] [y]. unfold cmp, ord_Reverse. cbn. rewrite cmp_eq. naive_solver.
  - intros [x] [y]. unfold cmp, ord_Reverse. cbn. apply cmp_flip.
  - intros [x] [y] [z]. unfold cmp, ord_Reverse. cbn. eauto using cmp_trans.
Qed.

(** Laws carried back along an injection that keeps the comparison. *)
Lemma ord_laws_via {A B} `{Ord A, OrdLaws B} (f : A -> B) :
  (forall x y, f x = f y -> x = y) -> (forall x y : A, cmp x y = cmp (f x) (f y)) ->
  OrdLaws A.
Proof.
  intros Hinj Hf. split; intros x y.
  - rewrite Hf, cmp_eq. naive_solver.
  - by rewrite !Hf, cmp_flip.
  - intros z. rewrite !Hf. apply cmp_trans.
Qed.

(** ** The heap *)

(** [BinaryHeap<Reverse<T>>::pop]: a least element and the others. *)
Fixpoint pop_least {A} `{Ord A} (l : list A) : option (A * list A) :=
  match l with
  | [] => None
  | x :: l =>
      match pop_least l with
      | None => Some (x, [])
      | Some (y, l') => if ltb y x then Some (y, x :: l') else Some (x, y :: l')
      end
  end.

Section Heap.
Context {A : Type} `{OrdLaws A}.

Lemma pop_least_None (l : list A) : pop_least l = None <-> l = [].
Proof. destruct l as [|x l]; cbn; [done|]. repeat case_match; naive_solver. Qed.

Lemma pop_least_Some (l : list A) x l' :
  pop_least l = Some (x, l') -> l ≡ₚ x :: l' /\ Forall (ord_le x) l.
Proof.
  revert x l'. induction l as [|a l IH]; intros x l'; cbn; [done|].
  destruct (pop_least l) as [[y k]|] eqn:E.
  - destruct (IH _ _ eq_refl) as [Hp Hf]. destruct (ltb y a) eqn:Hlt; intros [= <- <-].
    + apply ltb_lt in Hlt. split; [rewrite Hp; constructor|].
      constructor; [apply ord_le_cases; by left|done].
    + assert (ord_le a y) by (by apply gtb_false). split; [by rewrite Hp|].
      constructor; [apply ord_le_refl|]. eapply Forall_impl; [done|].
      intros z ?. by eapply ord_le_trans.
  - apply pop_least_None in E as ->. intros [= <- <-].
    split; [done|]. repeat constructor. apply ord_le_refl.
Qed.

End Heap.

(** ** Sorting *)

Section Sort.
Context {A K : Type} `{OrdLaws K}.
Context (key : A -> K).

Fixpoint insert_by_key (x : A) (l : list A) : list A :=
  match l with
  | [] => [x]
  | y :: l => if ltb (key y) (key x) then y :: insert_by_key x l else x :: y :: l
  end.

(** [slice::sort_by_key]: the stable sort. *)
Definition sort_by_key (l : list A) : list A := foldr insert_by_key [] l.

Definition key_le (x y : A) : Prop := ord_le (key x) (key y).

Lemma insert_by_key_perm x l : insert_by_key x l ≡ₚ x :: l.
Proof.
  induction l as [|y l IH]; cbn; [done|]. case_match; [|done]. rewrite IH. constructor.
Qed.

Lemma sort_by_key_perm l : sort_by_key l ≡ₚ l.
Proof. induction l as [|x l IH]; cbn; [done|]. by rewrite insert_by_key_perm, IH. Qed.

Lemma insert_by_key_sorted x l :
  StronglySorted key_le l -> StronglySorted key_le (insert_by_key x l).
Proof.
  induction 1 as [|y l Hl IH Hy]; cbn; [repeat constructor|].
  destruct (ltb (key y) (key x)) eqn:E.
  - apply ltb_lt in E. constructor; [done|].
    rewrite insert_by_key_perm. constructor; [apply ord_le_cases; by left|done].
  - assert (Hxy : key_le x y) by (by apply (proj1 (gtb_false (key x) (key y)))).
    constructor; [by constructor|]. constructor; [done|].
    eapply Forall_impl; [done|]. intros z Hz. exact (ord_le_trans _ _ _ Hxy Hz).
Qed.

Lemma sort_by_key_sorted l : StronglySorted key_le (sort_by_key l).
Proof. induction l as [|x l IH]; cbn; [constructor|]. by apply insert_by_key_sorted. Qed.

(** Where insertion puts an element: past what is smaller, before the rest. *)
Lemma insert_by_key_app x l m :
  Forall (fun y => cmp (key y) (key x) = Lt) l ->
  insert_by_key x (l ++ m) = l ++ insert_by_key x m.
Proof. induction 1 as [|y l Hy Hl IH]; cbn; [done|]. unfold ltb. by rewrite Hy, IH. Qed.

Lemma insert_by_key_front x l :
  Forall (fun y => ord_le (key x) (key y)) l -> insert_by_key x l = x :: l.
Proof.
  destruct 1 as [|y l Hy Hl]; cbn; [done|]. unfold ltb.
  destruct (cmp (key y) (key x)) eqn:E; try done. destruct Hy. by apply cmp_gt.
Qed.

(** With distinct keys a sorted list is determined by its elements. *)
Lemma sorted_unique k l :
  (forall x y, x ∈ k -> y ∈ k -> key x = key y -> x = y) ->
  StronglySorted key_le k -> StronglySorted key_le l -> k ≡ₚ l -> k = l.
Proof.
  intros Hinj Hk Hl Hp. revert l Hl Hp. induction Hk as [|x k Hk IH Hx].
  - intros l _ Hp. by apply Permutation_nil_l in Hp as ->.
  - intros l Hl Hp. destruct Hl as [|y l Hl Hy].
    { symmetry in Hp. by apply Permutation_nil_l in Hp. }
    assert (x = y) as ->.
    { assert (Hxl : x ∈ y :: l) by (rewrite <-Hp; left).
      assert (Hyk : y ∈ x :: k) by (rewrite Hp; left).
      apply elem_of_cons in Hxl as [?|Hxl]; [done|].
      apply elem_of_cons in Hyk as [?|Hyk]; [done|].
      rewrite Forall_forall in Hx, Hy.
      apply Hinj; [by left|by right|]. apply ord_le_antisym; [apply Hx|apply Hy]; done. }
    f_equal. apply IH; [|done|by eapply Permutation_cons_inv].
    intros a b ? ?. apply Hinj; by right.
Qed.

Lemma sort_by_key_unique k l :
  (forall x y, x ∈ k -> y ∈ k -> key x = key y -> x = y) ->
  k ≡ₚ l -> sort_by_key k = sort_by_key l.
Proof.
  intros Hinj Hp. apply sorted_unique; try apply sort_by_key_sorted.
  - intros x y. rewrite !sort_by_key_perm. apply Hinj.
  - by rewrite !sort_by_key_perm.
Qed.

End Sort.

Lemma insert_by_key_ext {A K} `{Ord K} (f g : A -> K) x l :
  f x = g x -> Forall (fun y => f y = g y) l -> insert_by_key f x l = insert_by_key g x l.
Proof.
  intros Hx. induction 1 as [|y l Hy Hl IH]; cbn; [done|]. by rewrite Hx, Hy, IH.
Qed.

Lemma sort_by_key_ext {A K} `{OrdLaws K} (f g : A -> K) l :
  (forall x, x ∈ l -> f x = g x) -> sort_by_key f l = sort_by_key g l.
Proof.
  induction l as [|x l IH]; intros Hl; cbn; [done|].
  fold (sort_by_key f l) (sort_by_key g l). rewrite <-IH by (intros; apply Hl; by right).
  apply insert_by_key_ext; [apply Hl; left|].
  rewrite sort_by_key_perm. apply Forall_forall. intros y Hy. apply Hl. by right.
Qed.
