(* ===== verification/RoomVersion.v ===== *)
(** Room versions, [matrix/state_res/room_version.rs]: the rule flags of every
    version, built from its predecessor as the source's record updates do. *)
From S2P Require Import Prelude.

Module RoomVersion.

(** [ruma::RoomVersionId]: the stable versions, and every other identifier. *)
Inductive RoomVersionId :=
  | IdV1 | IdV2 | IdV3 | IdV4 | IdV5 | IdV6 | IdV7 | IdV8 | IdV9 | IdV10 | IdV11 | IdV12
  | IdCustom (name : string).

#[export] Instance RoomVersionId_eq_dec : EqDecision RoomVersionId.
Proof. solve_decision. Defined.

Inductive RoomDisposition := Stable | Unstable.
Inductive EventFormatVersion := FormatV1 | FormatV2 | FormatV3.
Inductive StateResolutionVersion := ResV1 | ResV2.

Record RoomVersion := mkRoomVersion {
  disposition : RoomDisposition;
  event_format : EventFormatVersion;
  state_res : StateResolutionVersion;
  enforce_key_validity : bool;
  special_case_aliases_auth : bool;
  strict_canonicaljson : bool;
  limit_notifications_power_levels : bool;
  extra_redaction_checks : bool;
  allow_knocking : bool;
  restricted_join_rules : bool;
  knock_restricted_join_rule : bool;
  integer_power_levels : bool;
  use_room_create_sender : bool;
  explicitly_privilege_room_creators : bool;
  additional_room_creators : bool;
  room_create_event_id_as_room_id : bool;
  state_res_v2_1 : bool
}.

Definition V1 : RoomVersion := {|
  disposition := Stable;
  event_format := FormatV1;
  state_res := ResV1;
  enforce_key_validity := false;
  special_case_aliases_auth := true;
  strict_canonicaljson := false;
  limit_notifications_power_levels := false;
  extra_redaction_checks := true;
  allow_knocking := false;
  restricted_join_rules := false;
  knock_restricted_join_rule := false;
  integer_power_levels := false;
  use_room_create_sender := false;
  explicitly_privilege_room_creators := false;
  additional_room_creators := false;
  room_create_event_id_as_room_id := false;
  state_res_v2_1 := false
|}.

(** The record updates [..Self::Vn]; one setter per group of fields changed. *)
Definition with_state_res (r : StateResolutionVersion) (v : RoomVersion) : RoomVersion :=
  mkRoomVersion (disposition v) (event_format v) r (enforce_key_validity v)
    (special_case_aliases_auth v) (strict_canonicaljson v)
    (limit_notifications_power_levels v) (extra_redaction_checks v) (allow_knocking v)
    (restricted_join_rules v) (knock_restricted_join_rule v) (integer_power_levels v)
    (use_room_create_sender v) (explicitly_privilege_room_creators v)
    (additional_room_creators v) (room_create_event_id_as_room_id v) (state_res_v2_1 v).

Definition with_format (f : EventFormatVersion) (redaction : bool) (v : RoomVersion) :
    RoomVersion :=
  mkRoomVersion (disposition v) f (state_res v) (enforce_key_validity v)
    (special_case_aliases_auth v) (strict_canonicaljson v)
    (limit_notifications_power_levels v) redaction (allow_knocking v)
    (restricted_join_rules v) (knock_restricted_join_rule v) (integer_power_levels v)
    (use_room_create_sender v) (explicitly_privilege_room_creators v)
    (additional_room_creators v) (room_create_event_id_as_room_id v) (state_res_v2_1 v).

Definition with_v6_checks (key_validity aliases canonical notifications : bool)
    (v : RoomVersion) : RoomVersion :=
  mkRoomVersion (disposition v) (event_format v) (state_res v) key_validity
    aliases canonical notifications (extra_redaction_checks v) (allow_knocking v)
    (restricted_join_rules v) (knock_restricted_join_rule v) (integer_power_levels v)
    (use_room_create_sender v) (explicitly_privilege_room_creators v)
    (additional_room_creators v) (room_create_event_id_as_room_id v) (state_res_v2_1 v).

Definition with_joins (knocking restricted knock_restricted integer create_sender : bool)
    (v : RoomVersion) : RoomVersion :=
  mkRoomVersion (disposition v) (event_format v) (state_res v) (enforce_key_validity v)
    (special_case_aliases_auth v) (strict_canonicaljson v)
    (limit_notifications_power_levels v) (extra_redaction_checks v) knocking restricted
    knock_restricted integer create_sender (explicitly_privilege_room_creators v)
    (additional_room_creators v) (room_create_event_id_as_room_id v) (state_res_v2_1 v).

Definition V2 : RoomVersion := with_state_res ResV2 V1.
Definition V3 : RoomVersion := with_format FormatV2 false V2.
Definition V4 : RoomVersion := with_format FormatV3 (extra_redaction_checks V3) V3.
Definition V5 : RoomVersion :=
  with_v6_checks true (special_case_aliases_auth V4) (strict_canonicaljson V4)
    (limit_notifications_power_levels V4) V4.
Definition V6 : RoomVersion :=
  with_v6_checks (enforce_key_validity V5) false true true V5.
Definition V7 : RoomVersion :=
  with_joins true (restricted_join_rules V6) (knock_restricted_join_rule V6)
    (integer_power_levels V6) (use_room_create_sender V6) V6.
Definition V8 : RoomVersion :=
  with_joins (allow_knocking V7) true (knock_restricted_join_rule V7)
    (integer_power_levels V7) (use_room_create_sender V7) V7.
Definition V9 : RoomVersion := V8.
Definition V10 : RoomVersion :=
  with_joins (allow_knocking V9) (restricted_join_rules V9) true true
    (use_room_create_sender V9) V9.
Definition V11 : RoomVersion :=
  with_joins (allow_knocking V10) (restricted_join_rules V10)
    (knock_restricted_join_rule V10) (integer_power_levels V10) true V10.
Definition V12 : RoomVersion :=
  mkRoomVersion (disposition V11) (event_format V11) (state_res V11)
    (enforce_key_validity V11) (special_case_aliases_auth V11) (strict_canonicaljson V11)
    (limit_notifications_power_levels V11) (extra_redaction_checks V11)
    (allow_knocking V11) (restricted_join_rules V11) (knock_restricted_join_rule V11)
    (integer_power_levels V11) (use_room_create_sender V11) true true true true.

(** [RoomVersion::new]; [None] is [Error::Unsupported]. *)
Definition new (version : RoomVersionId) : option RoomVersion :=
  match version with
  | IdV1 => Some V1 | IdV2 => Some V2 | IdV3 => Some V3 | IdV4 => Some V4
  | IdV5 => Some V5 | IdV6 => Some V6 | IdV7 => Some V7 | IdV8 => Some V8
  | IdV9 => Some V9 | IdV10 => Some V10 | IdV11 => Some V11 | IdV12 => Some V12
  | IdCustom _ => None
  end.

Definition supported : list RoomVersionId :=
  [IdV1; IdV2; IdV3; IdV4; IdV5; IdV6; IdV7; IdV8; IdV9; IdV10; IdV11; IdV12].

Definition is_supported (version : RoomVersionId) : bool :=
  match new version with Some _ => true | None => false end.

(** The list of supported versions and the constructor agree. *)
Lemma is_supported_spec v : is_supported v = true <-> v ∈ supported.
Proof.
  unfold supported. destruct v; split; intros H; first [done|set_solver].
Qed.

(** The rule a flag set stands for, once introduced, is kept by later versions. *)
Definition features (v : RoomVersion) : list bool :=
  [enforce_key_validity v; negb (special_case_aliases_auth v); strict_canonicaljson v;
   limit_notifications_power_levels v; negb (extra_redaction_checks v); allow_knocking v;
   restricted_join_rules v; knock_restricted_join_rule v; integer_power_levels v;
   use_room_create_sender v; explicitly_privilege_room_creators v;
   additional_room_creators v; room_create_event_id_as_room_id v; state_res_v2_1 v].

(** [a] has no feature that [b] lacks. *)
Definition extends (a b : RoomVersion) : bool :=
  forallb (fun p => implb p.1 p.2) (zip (features a) (features b)).

(** Exactly the listed room versions can be constructed, and each later
    version keeps every rule an earlier one introduced. *)
Theorem versions_extend v i j :
  (is_supported v = true <-> v ∈ supported) /\
  ((i <= j)%nat -> forall vi vj a b, supported !! i = Some vi -> supported !! j = Some vj ->
   new vi = Some a -> new vj = Some b -> extends a b = true).
Proof.
  split; [apply is_supported_spec|]. intros Hij vi vj a b Hi Hj Ha Hb.
  assert (Hi' := lookup_lt_Some _ _ _ Hi). assert (Hj' := lookup_lt_Some _ _ _ Hj).
  cbn [length supported] in *.
  assert (Hall : forallb (fun i => forallb (fun j => implb (i <=? j)%nat
    (match supported !! i ≫= new, supported !! j ≫= new with
     | Some a, Some b => extends a b | _, _ => true end)) (seq 0 12)) (seq 0 12) = true)
    by reflexivity.
  rewrite forallb_forall in Hall. specialize (Hall i). rewrite forallb_forall in Hall.
  specialize (Hall ltac:(apply in_seq; lia) j ltac:(apply in_seq; lia)).
  rewrite Hi, Hj in Hall. cbn in Hall. rewrite Ha, Hb in Hall.
  destruct (Nat.leb_spec i j); [done|lia].
Qed.

(** Version 6 and version 10. *)
Lemma versions_extend_witness : extends V6 V10 = true.
Proof.
  apply (proj2 (versions_extend IdV6 5 9) ltac:(lia) IdV6 IdV10); reflexivity.
Defined.

End RoomVersion.
