(* ===== verification/Event.v ===== *)
(** Matrix events as the trait [Event] of [matrix/event.rs] shows them, and the
    interfaces of the crates the authorization rules call: identifiers and
    their server names, the JSON decoders of [serde_json] and [ruma], and
    signature verification. Those are code outside the repository, so each is
    a field of a class and every theorem holds for all of them. *)
From S2P Require Import Prelude RoomVersion.
From Stdlib Require Import Ascii.
Export RoomVersion.

Module Event.

(** Identifiers, event types and state keys are compared, hashed and ordered as
    their text. *)
Abbreviation EventId := string (only parsing).
Abbreviation UserId := string (only parsing).
Abbreviation TypeStateKey := (string * string)%type (only parsing).

Definition RoomCreate : string := "m.room.create".
Definition RoomMember : string := "m.room.member".
Definition RoomPowerLevels : string := "m.room.power_levels".
Definition RoomJoinRules : string := "m.room.join_rules".
Definition RoomThirdPartyInvite : string := "m.room.third_party_invite".
Definition RoomRedaction : string := "m.room.redaction".
Definition ROOM_ALIASES_TYPE : string := "m.room.aliases".

(** [trait Event]; [content] is the raw JSON text. *)
Record Event := mkEvent {
  event_id : EventId;
  room_id : string;
  sender : UserId;
  origin_server_ts : Z;
  event_type : string;
  content : string;
  state_key : option string;
  prev_events : list EventId;
  auth_events : list EventId;
  redacts : option EventId
}.

#[export] Instance Event_eq_dec : EqDecision Event.
Proof. solve_decision. Defined.

(** [EventTypeExt::with_state_key] *)
Definition with_state_key (ty key : string) : TypeStateKey := (ty, key).

Definition is_type_and_key (ev : Event) (ev_type key : string) : bool :=
  bool_decide (event_type ev = ev_type) && bool_decide (state_key ev = Some key).

(** ** Data of [ruma] the rules match on *)

Inductive MembershipState :=
  | Ban | Invite | Join | Knock | Leave | CustomMembership (name : string).
#[export] Instance MembershipState_eq_dec : EqDecision MembershipState.
Proof. solve_decision. Defined.

Inductive JoinRule :=
  | JoinInvite | JoinKnock | JoinPrivate | JoinPublic
  | JoinRestricted (allow : list string) | JoinKnockRestricted (allow : list string)
  | JoinCustom (name : string).
#[export] Instance JoinRule_eq_dec : EqDecision JoinRule.
Proof. solve_decision. Defined.

(** [Raw<T>]: JSON text that is decoded on demand. *)
Abbreviation Raw := string (only parsing).

(** [ThirdPartyInvite], its [signed] block, and the room's invite event. *)
Record SignedContent := mkSigned { mxid : UserId; token : string }.
Record RoomThirdPartyInviteContent := mkTpi {
  public_keys : option (list string);
  public_key : string
}.

(** The structs of [event_auth.rs] that name the fields a rule reads. *)
Record RoomMemberContentFields := mkMemberFields {
  membership : option Raw;
  third_party_invite : option Raw;
  join_authorised_via_users_server : option Raw
}.
Record RoomCreateContentFields := mkCreateFields {
  create_room_version : option Raw;
  create_creator : option Raw;
  create_additional_creators : option Raw
}.

(** [RoomPowerLevelsEventContent]; the maps are ordered by key. *)
Record PowerLevels := mkPowerLevels {
  pl_ban : Z;
  pl_events : gmap string Z;
  pl_events_default : Z;
  pl_invite : Z;
  pl_kick : Z;
  pl_redact : Z;
  pl_state_default : Z;
  pl_users : gmap UserId Z;
  pl_users_default : Z;
  pl_notifications_room : Z
}.

(** [IntRoomPowerLevelsEventContent], with its [IntNotificationPowerLevels]. *)
Record IntPowerLevels := mkIntPowerLevels {
  int_ban : Z;
  int_events : gmap string Z;
  int_events_default : Z;
  int_invite : Z;
  int_kick : Z;
  int_redact : Z;
  int_state_default : Z;
  int_users : gmap UserId Z;
  int_users_default : Z;
  int_notifications_room : Z
}.

(** [CanonicalJsonValue]; an object is its fields in key order. *)
Inductive CanonicalJsonValue :=
  | CNull | CBool (b : bool) | CInteger (z : Z) | CString (s : string)
  | CArray (l : list CanonicalJsonValue)
  | CObject (fields : list (string * CanonicalJsonValue)).

(** ** Interfaces *)

(** [server_name()] and the validation of identifiers. *)
Class Identifiers := {
  user_server_name : UserId -> string;
  room_server_name : string -> option string;
  event_server_name : EventId -> option string;
  valid_user_id : string -> bool;
  valid_event_id : string -> bool
}.

(** [serde_json::from_str::<T>] for the types the rules decode to, and
    [Raw::deserialize]. A map-valued field is handed over as the [BTreeMap] its
    decoder builds. *)
Class Json := {
  json_member_fields : string -> option RoomMemberContentFields;
  json_get_membership : string -> option MembershipState;
  json_get_third_party_invite : string -> option (option Raw);
  json_member_event : string -> option MembershipState;
  json_int_power_levels : string -> option IntPowerLevels;
  json_power_levels : string -> option PowerLevels;
  json_power_fields : string -> option (gmap UserId Z * Z);
  json_int_power_fields : string -> option (gmap UserId Z * Z);
  json_power_invite : string -> option Z;
  json_int_power_invite : string -> option Z;
  json_power_redact : string -> option Z;
  json_int_power_redact : string -> option Z;
  json_create_fields : string -> option RoomCreateContentFields;
  json_create_event_creator : string -> option (option UserId);
  json_creator : string -> option (option UserId);
  json_additional_creators : string -> option (list UserId);
  json_federate : string -> option bool;
  json_join_rule : string -> option JoinRule;
  json_third_party_invite_event : string -> option RoomThirdPartyInviteContent;
  raw_membership : Raw -> option MembershipState;
  raw_user_id : Raw -> option UserId;
  raw_user_ids : Raw -> option (list UserId);
  raw_room_version : Raw -> option RoomVersionId;
  (** The [signed] block of a decoded [ThirdPartyInvite], still raw. *)
  raw_third_party_invite : Raw -> option Raw;
  raw_signed : Raw -> option SignedContent
}.

(** Canonical JSON, base64 and ed25519. *)
Class Signatures := {
  json_canonical_object : string -> option (list (string * CanonicalJsonValue));
  canonical_for_signing : list (string * CanonicalJsonValue) -> option string;
  base64_decode : string -> option string;
  verify_ed25519 : string -> string -> string -> bool
}.

(** ** The create event a room is named after *)

Section CreateId.
Context `{Identifiers}.

Definition create_event_id_of (room : string) : option EventId :=
  match room_server_name room with
  | Some _ => None
  | None =>
      match room with
      | String "!"%char opaque =>
          let id := String "$"%char opaque in
          if valid_event_id id then Some id else None
      | _ => None
      end
  end.

Definition room_id_derives_from (room : string) (create_event : Event) : bool :=
  match create_event_id_of room with
  | Some id => bool_decide (id = event_id create_event)
  | None => false
  end.

(** At most one event can be the create event of a room. *)
Lemma room_id_derives_from_inj room a b :
  room_id_derives_from room a = true -> room_id_derives_from room b = true ->
  event_id a = event_id b.
Proof.
  unfold room_id_derives_from. destruct (create_event_id_of room); [|done].
  rewrite !bool_decide_eq_true. congruence.
Qed.

(** Distinct rooms have distinct create events. *)
Lemma create_event_id_of_inj r s id :
  create_event_id_of r = Some id -> create_event_id_of s = Some id -> r = s.
Proof.
  unfold create_event_id_of. intros Hr Hs. repeat case_match; simplify_eq; done.
Qed.

End CreateId.
End Event.
