(* ===== verification/PowerLevels.v ===== *)
(** Power levels, [matrix/state_res/power_levels.rs]: how the content of an
    [m.room.power_levels] event is decoded under a room version, a user's power
    and its order, and the creators a room version privileges. *)
From S2P Require Import Prelude Order Event.
Export Event.

Module PowerLevels.

(** [BTreeMap::into_iter]: the entries in key order. *)
Definition btree_entries (m : gmap UserId Z) : list (UserId * Z) :=
  sort_by_key fst (map_to_list m).

(** [PowerLevelsContentFields] *)
Record PowerLevelsContentFields := mkFields {
  users : list (UserId * Z);
  users_default : Z
}.

Definition get_user_power (c : PowerLevelsContentFields) (user_id : UserId) : option Z :=
  match binary_search_by (fun item => cmp (fst item) user_id) (users c) with
  | Some idx => snd <$> users c !! idx
  | None => None
  end.

(** [UserPower]: the creators' power is above every level. *)
Inductive UserPower := Level (z : Z) | Infinite.
#[export] Instance UserPower_eq_dec : EqDecision UserPower.
Proof. solve_decision. Defined.

#[export] Instance ord_UserPower : Ord UserPower := fun a b =>
  match a, b with
  | Level x, Level y => cmp x y
  | Level _, Infinite => Lt
  | Infinite, Level _ => Gt
  | Infinite, Infinite => Eq
  end.
#[export] Instance ord_UserPower_laws : OrdLaws UserPower.
Proof.
  split.
  - intros [x|] [y|]; unfold cmp, ord_UserPower; [rewrite cmp_eq|..]; naive_solver.
  - intros [x|] [y|]; unfold cmp, ord_UserPower; [apply cmp_flip|done..].
  - intros [x|] [y|] [z|]; unfold cmp, ord_UserPower; [apply cmp_trans|done..].
Qed.

(** [Option<UserPower>]: [None] is below every power. *)
#[export] Instance ord_option {A} `{Ord A} : Ord (option A) := fun a b =>
  match a, b with
  | None, None => Eq
  | None, Some _ => Lt
  | Some _, None => Gt
  | Some x, Some y => cmp x y
  end.
#[export] Instance ord_option_laws {A} `{OrdLaws A} : OrdLaws (option A).
Proof.
  split.
  - intros [x|] [y|]; unfold cmp, ord_option; [rewrite cmp_eq|..]; naive_solver.
  - intros [x|] [y|]; unfold cmp, ord_option; [apply cmp_flip|done..].
  - intros [x|] [y|] [z|]; unfold cmp, ord_option; first [apply cmp_trans|done].
Qed.

(** [From<IntRoomPowerLevelsEventContent> for RoomPowerLevelsEventContent]: every
    field of the fresh content is overwritten. *)
Definition from_int (int_pl : IntPowerLevels) : PowerLevels := {|
  pl_ban := int_ban int_pl;
  pl_events := int_events int_pl;
  pl_events_default := int_events_default int_pl;
  pl_invite := int_invite int_pl;
  pl_kick := int_kick int_pl;
  pl_redact := int_redact int_pl;
  pl_state_default := int_state_default int_pl;
  pl_users := int_users int_pl;
  pl_users_default := int_users_default int_pl;
  pl_notifications_room := int_notifications_room int_pl
|}.

Section Decode.
Context `{Json}.

Definition fields_of (c : gmap UserId Z * Z) : PowerLevelsContentFields :=
  mkFields (btree_entries c.1) c.2.

Definition deserialize_power_levels (c : string) (room_version : RoomVersion) :
    option PowerLevels :=
  if integer_power_levels room_version then from_int <$> json_int_power_levels c
  else json_power_levels c.

Definition deserialize_power_levels_content_fields (c : string)
    (room_version : RoomVersion) : option PowerLevelsContentFields :=
  if integer_power_levels room_version then fields_of <$> json_int_power_fields c
  else fields_of <$> json_power_fields c.

Definition deserialize_power_levels_content_invite (c : string)
    (room_version : RoomVersion) : option Z :=
  if integer_power_levels room_version then json_int_power_invite c
  else json_power_invite c.

Definition deserialize_power_levels_content_redact (c : string)
    (room_version : RoomVersion) : option Z :=
  if integer_power_levels room_version then json_int_power_redact c
  else json_power_redact c.

Definition privileged_creators (room_version : RoomVersion) (create_event : Event) :
    list UserId :=
  if negb (explicitly_privilege_room_creators room_version) then []
  else
    sender create_event ::
      (if additional_room_creators room_version
       then default [] (json_additional_creators (content create_event))
       else []).

End Decode.

(** ** Properties *)

Lemma btree_entries_sorted m :
  StronglySorted (fun x y => cmp (fst x) (fst y) = Lt) (btree_entries m).
Proof.
  assert (Hnd : NoDup (fst <$> btree_entries m)).
  { unfold btree_entries. rewrite sort_by_key_perm. apply NoDup_fst_map_to_list. }
  pose proof (sort_by_key_sorted fst (map_to_list m)) as Hs. fold (btree_entries m) in Hs.
  induction Hs as [|x l Hl IH Hx]; [constructor|].
  rewrite fmap_cons, NoDup_cons in Hnd. destruct Hnd as [Hx' Hnd].
  constructor; [by apply IH|]. rewrite Forall_forall in Hx |- *. intros y Hy.
  specialize (Hx y Hy). apply ord_le_cases in Hx as [?|E]; [done|].
  destruct Hx'. rewrite E. by apply list_elem_of_fmap_2.
Qed.

Lemma btree_entries_elem m u z : (u, z) ∈ btree_entries m <-> m !! u = Some z.
Proof. unfold btree_entries. by rewrite sort_by_key_perm, elem_of_map_to_list. Qed.

Lemma btree_entries_bs m u : bs_sorted (fun item => cmp (fst item) u) (btree_entries m).
Proof.
  intros i j x y Hij Hi Hj.
  destruct (decide (i = j)) as [->|]; [by simplify_eq|].
  assert (Hxy : cmp x.1 y.1 = Lt).
  { eapply (StronglySorted_lookup (fun x y => cmp x.1 y.1 = Lt) _ i j);
      [apply btree_entries_sorted|lia|done|done]. }
  destruct (cmp y.1 u) eqn:Ey; cbn; [| |destruct (cmp x.1 u); cbn; lia].
  - apply cmp_eq in Ey as <-. rewrite Hxy. cbn. lia.
  - by rewrite (cmp_trans _ _ _ Hxy Ey).
Qed.

(** The binary search for a user's level in the decoded content finds
    exactly the level the content gives that user. *)
Theorem get_user_power_lookup (m : gmap UserId Z) (dflt : Z) (u : UserId) :
  get_user_power (fields_of (m, dflt)) u = m !! u.
Proof.
  unfold get_user_power, fields_of. cbn [users fst].
  destruct (binary_search_by _ _) as [j|] eqn:E.
  - apply binary_search_by_sound in E as ([w z] & Hj & Hw).
    rewrite Hj. cbn in *. apply cmp_eq in Hw as ->.
    symmetry. apply btree_entries_elem. by eapply list_elem_of_lookup_2.
  - destruct (m !! u) as [z|] eqn:Hu; [|done].
    apply btree_entries_elem, list_elem_of_lookup_1 in Hu as [i Hi].
    destruct (binary_search_by_found _ _ (btree_entries_bs m u) i (u, z)) as (? & ? & Hb & _);
      [done|apply cmp_refl|]. congruence.
Qed.

(** The power of a user under decoded content: a listed level, or the default. *)
Definition level_of (c : PowerLevelsContentFields) (u : UserId) : UserPower :=
  Level (default (users_default c) (get_user_power c u)).

Lemma infinite_outranks z : cmp (Level z) Infinite = Lt.
Proof. done. Qed.

Lemma level_le x y : ord_le (Level x) (Level y) <-> x <= y.
Proof. unfold ord_le, cmp, ord_UserPower, cmp, ord_Z. by rewrite Z.compare_le_iff. Qed.

Lemma level_lt x y : cmp (Level x) (Level y) = Lt <-> x < y.
Proof. unfold cmp, ord_UserPower, cmp, ord_Z. by rewrite Z.compare_lt_iff. Qed.

End PowerLevels.
