(* ===== verification/Sample.v ===== *)
(** A small concrete instance of the interfaces of [Event.v], so that the rules
    can be evaluated: identifiers carry their server name after a colon, and
    each content is one of a few fixed texts with a fixed decoding. *)
From S2P Require Import Prelude Event.
Export Event.

Module Sample.

(** The text after the first colon. *)
Fixpoint server_of (id : string) : option string :=
  match id with
  | EmptyString => None
  | String c rest => if bool_decide (String c "" = ":") then Some rest else server_of rest
  end.

#[export] Instance sample_identifiers : Identifiers := {|
  user_server_name id := default "" (server_of id);
  room_server_name := server_of;
  event_server_name := server_of;
  valid_user_id id := String.prefix "@" id;
  valid_event_id id := String.prefix "$" id
|}.

Definition alice : UserId := "@alice:a".
Definition bob : UserId := "@bob:b".
Definition carol : UserId := "@carol:c".

Definition membership_named (c : string) : option MembershipState :=
  if bool_decide (c = "join") then Some Join
  else if bool_decide (c = "invite") then Some Invite
  else if bool_decide (c = "leave") then Some Leave
  else if bool_decide (c = "ban") then Some Ban
  else if bool_decide (c = "knock") then Some Knock
  else None.

(** Levels where [alice] holds 100 and the others the given default. *)
Definition levels (users : gmap UserId Z) (dflt : Z) : PowerLevels :=
  mkPowerLevels 50 ∅ 0 0 50 50 50 users dflt 50.

Definition levels_named (c : string) : option PowerLevels :=
  if bool_decide (c = "{}") then Some (levels ∅ 0)
  else if bool_decide (c = "alice=100") then Some (levels {[alice := 100]} 0)
  else if bool_decide (c = "alice=100,bob=50") then
    Some (levels {[alice := 100; bob := 50]} 0)
  else if bool_decide (c = "default=50") then Some (levels ∅ 50)
  else None.

Definition as_int (p : PowerLevels) : IntPowerLevels :=
  mkIntPowerLevels (pl_ban p) (pl_events p) (pl_events_default p) (pl_invite p)
    (pl_kick p) (pl_redact p) (pl_state_default p) (pl_users p) (pl_users_default p)
    (pl_notifications_room p).

Definition join_rule_named (c : string) : option JoinRule :=
  if bool_decide (c = "public") then Some JoinPublic
  else if bool_decide (c = "invite-only") then Some JoinInvite
  else None.

#[export] Instance sample_json : Json := {|
  json_member_fields c := Some (mkMemberFields (Some c) None None);
  json_get_membership := membership_named;
  json_get_third_party_invite c := Some None;
  json_member_event := membership_named;
  json_int_power_levels c := as_int <$> levels_named c;
  json_power_levels := levels_named;
  json_power_fields c := (fun p => (pl_users p, pl_users_default p)) <$> levels_named c;
  json_int_power_fields c := (fun p => (pl_users p, pl_users_default p)) <$> levels_named c;
  json_power_invite c := pl_invite <$> levels_named c;
  json_int_power_invite c := pl_invite <$> levels_named c;
  json_power_redact c := pl_redact <$> levels_named c;
  json_int_power_redact c := pl_redact <$> levels_named c;
  json_create_fields c := Some (mkCreateFields None (Some c) None);
  json_create_event_creator c := Some (Some c);
  json_creator c := Some (Some c);
  json_additional_creators c := Some [];
  json_federate c := Some true;
  json_join_rule := join_rule_named;
  json_third_party_invite_event c := None;
  raw_membership := membership_named;
  raw_user_id r := Some r;
  raw_user_ids r := Some [r];
  raw_room_version r := Some (IdCustom r);
  raw_third_party_invite r := None;
  raw_signed r := None
|}.

#[export] Instance sample_signatures : Signatures := {|
  json_canonical_object c := None;
  canonical_for_signing o := None;
  base64_decode s := Some s;
  verify_ed25519 k s m := false
|}.

Definition room : string := "!room:a".

(** The create event of [alice]'s room, in which the creator is named. *)
Definition create : Event :=
  mkEvent "$create:a" room alice 0 RoomCreate alice (Some "") [] [] None.

Definition member (id : string) (user : UserId) (how : string) (by_ : UserId) : Event :=
  mkEvent id room by_ 1 RoomMember how (Some user) ["$prev:a"]
    ["$create:a"] None.

Definition power (id : string) (c : string) : Event :=
  mkEvent id room alice 2 RoomPowerLevels c (Some "") ["$prev:a"] ["$create:a"] None.

(** The state of a room as an association of keys to events. *)
Definition state_of (l : list Event) (ty key : string) : option Event :=
  List.find (fun ev => bool_decide (event_type ev = ty)
                       && bool_decide (state_key ev = Some key)) l.

End Sample.
