(* ===== verification/Levels.v ===== *)
(** Power-level rules, [matrix/state_res/event_auth/levels.rs]: which events a
    sender's power admits, which changes to the power levels it may make, and
    when it may redact. *)
From S2P Require Import Prelude Order Event PowerLevels Sample.
Export PowerLevels.

Module Levels.

Section Levels.
Context `{Identifiers, Json}.

Definition get_send_level (e_type : string) (key : option string)
    (power_lvl : option Event) : Z :=
  match (ple ← power_lvl; json_power_levels (content ple)) with
  | Some c =>
      match pl_events c !! e_type with
      | Some level => level
      | None => if decide (is_Some key) then pl_state_default c else pl_events_default c
      end
  | None => if decide (is_Some key) then 50 else 0
  end.

(** [k.starts_with('@')] *)
Definition starts_with_at (k : string) : bool := String.prefix "@" k.

Definition can_send_event (event : Event) (ple : option Event) (user_level : UserPower) :
    bool :=
  let event_type_power_level := get_send_level (event_type event) (state_key event) ple in
  if ltb user_level (Level event_type_power_level) then false
  else if match state_key event with Some k => starts_with_at k | None => false end
          && negb (bool_decide (state_key event = Some (sender event)))
  then false
  else true.

(** [level(x) > user_level], on [Option<UserPower>]. *)
Definition too_big (user_level : UserPower) (l : option Z) : bool :=
  gtb (Level <$> l) (Some user_level).

(** One round of the loop over the users either content lists. *)
Definition check_user (self : UserId) (user_level : UserPower)
    (old_users new_users : gmap UserId Z) (user : UserId) : bool :=
  let old_level := old_users !! user in
  let new_level := new_users !! user in
  if bool_decide (is_Some old_level) && bool_decide (is_Some new_level)
     && bool_decide (old_level = new_level) then true
  else if negb (bool_decide (user = self))
          && bool_decide (Level <$> old_level = Some user_level) then false
  else negb (too_big user_level old_level || too_big user_level new_level).

(** One round of the loop over the event types either content lists. *)
Definition check_event_type (user_level : UserPower)
    (old_events new_events : gmap string Z) (ev_type : string) : bool :=
  let old_level := old_events !! ev_type in
  let new_level := new_events !! ev_type in
  if bool_decide (is_Some old_level) && bool_decide (is_Some new_level)
     && bool_decide (old_level = new_level) then true
  else negb (too_big user_level old_level || too_big user_level new_level).

(** One scalar level that may change only within the sender's power. *)
Definition check_scalar (user_level : UserPower) (p : Z * Z) : bool :=
  if bool_decide (p.1 = p.2) then true
  else negb (too_big user_level (Some p.1) || too_big user_level (Some p.2)).

(** The ordered keys of two maps, as the [BTreeSet] built from both. *)
Definition keys_of (a b : gmap string Z) : list string :=
  sort_by_key (fun k : string => k) (elements (dom a ∪ dom b)).

Definition scalar_levels (old new : PowerLevels) : list (Z * Z) :=
  [(pl_users_default old, pl_users_default new);
   (pl_events_default old, pl_events_default new);
   (pl_state_default old, pl_state_default new);
   (pl_ban old, pl_ban new);
   (pl_redact old, pl_redact new);
   (pl_kick old, pl_kick new);
   (pl_invite old, pl_invite new)].

Definition check_power_levels (room_version : RoomVersion) (power_event : Event)
    (previous_power_event : option Event) (user_level : UserPower)
    (creators : list UserId) : option bool :=
  match state_key power_event with
  | Some "" =>
      user_content ← deserialize_power_levels (content power_event) room_version;
      if existsb (fun c => bool_decide (is_Some (pl_users user_content !! c))) creators
      then Some false
      else
        match previous_power_event with
        | None => Some true
        | Some current_state =>
            current_content ← deserialize_power_levels (content current_state) room_version;
            Some (
              forallb (check_user (sender power_event) user_level
                         (pl_users current_content) (pl_users user_content))
                (keys_of (pl_users current_content) (pl_users user_content))
              && forallb (check_event_type user_level
                            (pl_events current_content) (pl_events user_content))
                (keys_of (pl_events current_content) (pl_events user_content))
              && implb (limit_notifications_power_levels room_version)
                   (check_scalar user_level
                      (pl_notifications_room current_content,
                       pl_notifications_room user_content))
              && forallb (check_scalar user_level)
                   (scalar_levels current_content user_content))
        end
  | _ => None
  end.

Definition check_redaction (redaction_event : Event) (user_level : UserPower)
    (redact_level : Z) : bool :=
  if geb user_level (Level redact_level) then true
  else bool_decide (event_server_name (event_id redaction_event)
                    = (redacts redaction_event ≫= event_server_name)).

End Levels.

(** ** Properties *)

Lemma too_big_false p l :
  too_big p l = false <-> forall z, l = Some z -> ord_le (Level z) p.
Proof.
  unfold too_big. rewrite gtb_false. destruct l as [z|]; cbn.
  - unfold ord_le at 1, cmp, ord_option. split; [intros Hz ? [= <-]; done|by intros Hz; apply Hz].
  - split; [done|]. intros _. done.
Qed.

Lemma check_scalar_spec p o n :
  check_scalar p (o, n) = true <-> o = n \/ (ord_le (Level o) p /\ ord_le (Level n) p).
Proof.
  unfold check_scalar. cbn. case_bool_decide; [naive_solver|].
  rewrite negb_true_iff, orb_false_iff, !too_big_false. naive_solver.
Qed.

Lemma check_event_type_spec p old new t :
  check_event_type p old new t = true ->
  old !! t = new !! t \/
  (forall z, old !! t = Some z -> ord_le (Level z) p) /\
  (forall z, new !! t = Some z -> ord_le (Level z) p).
Proof.
  unfold check_event_type. case_match eqn:E.
  - rewrite !andb_true_iff, !bool_decide_eq_true in E. naive_solver.
  - rewrite negb_true_iff, orb_false_iff, !too_big_false. auto.
Qed.

Lemma check_user_spec self p old new u :
  check_user self p old new u = true ->
  old !! u = new !! u \/
  (forall z, old !! u = Some z -> ord_le (Level z) p /\ (u <> self -> cmp (Level z) p = Lt)) /\
  (forall z, new !! u = Some z -> ord_le (Level z) p).
Proof.
  unfold check_user. case_match eqn:E.
  { rewrite !andb_true_iff, !bool_decide_eq_true in E. naive_solver. }
  case_match eqn:E2; [done|]. intros Hb. right.
  rewrite negb_true_iff, orb_false_iff, !too_big_false in Hb. destruct Hb as [Ho Hn].
  split; [|done]. intros z Hz. split; [by apply Ho|]. intros Hu.
  apply andb_false_iff in E2 as [E2|E2].
  - by rewrite negb_false_iff, bool_decide_eq_true in E2.
  - rewrite bool_decide_eq_false, Hz in E2. cbn in E2.
    destruct (proj1 (ord_le_cases _ _) (Ho z Hz)); naive_solver.
Qed.

Lemma keys_of_elem a b k : k ∈ keys_of a b <-> is_Some (a !! k) \/ is_Some (b !! k).
Proof.
  unfold keys_of. by rewrite sort_by_key_perm, elem_of_elements, elem_of_union, !elem_of_dom.
Qed.

Lemma keys_of_forallb f a b :
  forallb f (keys_of a b) = true ->
  forall k, a !! k = b !! k \/ f k = true.
Proof.
  intros Hf k. destruct (a !! k) as [x|] eqn:Ea, (b !! k) as [y|] eqn:Eb; [..|by left].
  all: right; rewrite forallb_forall in Hf; apply Hf, list_elem_of_In, keys_of_elem.
  all: rewrite Ea, Eb; eauto.
Qed.

(** A user's power under a content: the listed level or the default. *)
Definition effective (c : PowerLevels) (u : UserId) : Z :=
  default (pl_users_default c) (pl_users c !! u).

(** What an accepted change of power levels satisfies. *)
Record change_allowed (rv : RoomVersion) (self : UserId) (p : UserPower)
    (old new : PowerLevels) : Prop := {
  allowed_user u : pl_users old !! u = pl_users new !! u \/
    (forall z, pl_users old !! u = Some z ->
       ord_le (Level z) p /\ (u <> self -> cmp (Level z) p = Lt)) /\
    (forall z, pl_users new !! u = Some z -> ord_le (Level z) p);
  allowed_event t : pl_events old !! t = pl_events new !! t \/
    (forall z, pl_events old !! t = Some z -> ord_le (Level z) p) /\
    (forall z, pl_events new !! t = Some z -> ord_le (Level z) p);
  allowed_scalar o n : (o, n) ∈ scalar_levels old new ->
    o = n \/ (ord_le (Level o) p /\ ord_le (Level n) p);
  allowed_notifications : limit_notifications_power_levels rv = true ->
    pl_notifications_room old = pl_notifications_room new \/
    (ord_le (Level (pl_notifications_room old)) p /\
     ord_le (Level (pl_notifications_room new)) p)
}.

Section Checked.
Context `{Identifiers, Json}.

Lemma check_power_levels_true rv ev prev p creators :
  check_power_levels rv ev (Some prev) p creators = Some true ->
  exists old new,
    deserialize_power_levels (content prev) rv = Some old /\
    deserialize_power_levels (content ev) rv = Some new /\
    state_key ev = Some "" /\
    (forall c, c ∈ creators -> pl_users new !! c = None) /\
    change_allowed rv (sender ev) p old new.
Proof.
  unfold check_power_levels. destruct (state_key ev) as [[|]|] eqn:Ek; [|done|done].
  destruct (deserialize_power_levels (content ev) rv) as [new|] eqn:En; [|done]. cbn [mbind option_bind].
  destruct (existsb _ creators) eqn:Ec; [done|].
  destruct (deserialize_power_levels (content prev) rv) as [old|] eqn:Eo; [|done].
  cbn [mbind option_bind].
  intros Hb%(inj Some). apply andb_true_iff in Hb as [[[Hu He]%andb_true_iff Hn]%andb_true_iff Hs].
  exists old, new. split_and!; try done.
  - intros c Hc. apply not_true_iff_false in Ec. rewrite existsb_exists in Ec.
    destruct (pl_users new !! c) eqn:E; [|done]. destruct Ec.
    exists c. rewrite bool_decide_eq_true, E. split; [by apply list_elem_of_In|eauto].
  - split.
    + intros u. destruct (keys_of_forallb _ _ _ Hu u); [by left|]. by apply check_user_spec.
    + intros t. destruct (keys_of_forallb _ _ _ He t); [by left|].
      by apply check_event_type_spec.
    + intros o n Hin. rewrite forallb_forall in Hs.
      by apply check_scalar_spec, Hs, list_elem_of_In.
    + intros Hl. rewrite Hl in Hn. by apply check_scalar_spec.
Qed.

End Checked.

Lemma effective_bound rv self p old new u :
  change_allowed rv self p old new -> ord_le (Level (pl_users_default old)) p ->
  effective new u = effective old u \/ ord_le (Level (effective new u)) p.
Proof.
  intros Hc Hd. unfold effective.
  assert (Hdef : ord_le (Level (pl_users_default new)) p).
  { destruct (allowed_scalar _ _ _ _ _ Hc (pl_users_default old) (pl_users_default new))
      as [<-|[_ ?]]; [left|done..]. }
  destruct (allowed_user _ _ _ _ _ Hc u) as [E|[_ Hn]].
  - rewrite E. destruct (pl_users new !! u); [by left|by right].
  - right. destruct (pl_users new !! u); cbn; [by apply Hn|done].
Qed.

(** C6: a power-levels event that passes the check lists no creator and changes
    no level of a user, an event type, a notification or an action that is
    above the sender's power before or after; another user's level is changed
    only from strictly below. When the default level is within the sender's
    power, no user's effective power ends above it unless it is unchanged. *)
Theorem no_escalation `{Identifiers, Json} rv ev prev p creators :
  check_power_levels rv ev (Some prev) p creators = Some true ->
  exists old new,
    deserialize_power_levels (content prev) rv = Some old /\
    deserialize_power_levels (content ev) rv = Some new /\
    (forall c, c ∈ creators -> pl_users new !! c = None) /\
    change_allowed rv (sender ev) p old new /\
    (ord_le (Level (pl_users_default old)) p -> forall u,
       effective new u = effective old u \/ ord_le (Level (effective new u)) p).
Proof.
  intros (old & new & Ho & Hn & _ & Hc & Ha)%check_power_levels_true.
  exists old, new. split_and!; eauto using effective_bound.
Qed.

Import Sample.

(** [alice], at 100, gives [bob] 50. *)
Lemma no_escalation_witness :
  check_power_levels V6 (Sample.power "$p2:a" "alice=100,bob=50")
    (Some (Sample.power "$p1:a" "alice=100")) (Level 100) [] = Some true /\
  exists old new : PowerLevels,
    change_allowed V6 Sample.alice (Level 100) old new.
Proof.
  assert (Hc : check_power_levels V6 (Sample.power "$p2:a" "alice=100,bob=50")
    (Some (Sample.power "$p1:a" "alice=100")) (Level 100) [] = Some true)
    by (vm_compute; reflexivity).
  split; [exact Hc|].
  destruct (no_escalation _ _ _ _ _ Hc) as (old & new & _ & _ & _ & Ha & _).
  exists old, new. exact Ha.
Defined.

(** [bob], at 50, may not take [alice]'s entry away, nor raise himself. *)
Example demotion_refused :
  check_power_levels V6
    (mkEvent "$p2:a" Sample.room Sample.bob 2 RoomPowerLevels "{}" (Some "") [] [] None)
    (Some (Sample.power "$p1:a" "alice=100,bob=50")) (Level 50) [] = Some false.
Proof. vm_compute. reflexivity. Qed.

End Levels.
