(* ===== verification/Membership.v ===== *)
(** Membership rules, [matrix/state_res/event_auth/membership.rs]: whether an
    [m.room.member] event may take a user from the current to the wanted
    membership, third-party invites included. *)
From S2P Require Import Prelude Order Event PowerLevels Sample.
Export PowerLevels.

Module Membership.

(** [state_res::Error], the panics of the rules, and the exhausted fuel of a
    loop ([Diverges], which the termination theorems exclude). *)
Inductive Error := SerdeJson | Unsupported | NotFound | InvalidPdu | Panic | Diverges.
#[export] Instance Error_eq_dec : EqDecision Error.
Proof. solve_decision. Defined.

(** [from_json_str(..)?] *)
Definition decoded {A} (o : option A) : result Error A := ok_or o SerdeJson.

Section Signed.
Context `{Signatures}.

Definition signatures_of (fields : list (string * CanonicalJsonValue)) : list string :=
  concat ((fun f : string * CanonicalJsonValue =>
    match f.2 with
    | CObject keys =>
        omap (fun k : string * CanonicalJsonValue =>
          if String.prefix "ed25519:" k.1
          then match k.2 with CString s => base64_decode s | _ => None end
          else None) keys
    | _ => []
    end) <$> fields).

(** [object.get(key)] *)
Definition field (key : string) (object : list (string * CanonicalJsonValue)) :
    option CanonicalJsonValue :=
  snd <$> List.find (fun f => bool_decide (fst f = key)) object.

Definition signed_by_any (signed : string) (keys : list string) : bool :=
  match json_canonical_object signed with
  | None => false
  | Some object =>
      match canonical_for_signing object with
      | None => false
      | Some canonical =>
          match field "signatures" object with
          | Some (CObject by_entity) =>
              existsb (fun signature =>
                existsb (fun key => verify_ed25519 key signature canonical) keys)
                (signatures_of by_entity)
          | _ => false
          end
      end
  end.

Context `{Json}.

Definition verify_third_party_invite (target_user : option UserId) (sender_ : UserId)
    (signed_raw : Raw) (current_third_party_invite : option Event) : bool :=
  match raw_signed signed_raw with
  | None => false
  | Some signed =>
      if negb (bool_decide (target_user = Some (mxid signed))) then false else
      match current_third_party_invite with
      | None => false
      | Some current_tpid =>
          if negb (bool_decide (state_key current_tpid = Some (token signed))) then false
          else if negb (bool_decide (sender_ = sender current_tpid)) then false
          else
            match json_third_party_invite_event (content current_tpid) with
            | None => false
            | Some tpid_ev =>
                let keys := omap base64_decode
                  (default [] (public_keys tpid_ev) ++ [public_key tpid_ev]) in
                signed_by_any signed_raw keys
            end
      end
  end.

End Signed.

Section Change.
Context `{Identifiers, Json, Signatures}.

(** [from_json_str::<GetMembership>(pdu.content().get())?.membership], or
    [Leave] without an event. *)
Definition membership_of (ev : option Event) : result Error MembershipState :=
  match ev with
  | Some pdu => decoded (json_get_membership (content pdu))
  | None => Ok Leave
  end.

Definition is_creator_in (creators : list UserId) (user : UserId) : bool :=
  existsb (fun creator => bool_decide (creator = user)) creators.

(** The power of a user: infinite for a creator, the listed level, or the
    default where [counted] holds. *)
Definition power_in (pls : PowerLevels) (creators : list UserId) (counted : bool)
    (user : UserId) : option UserPower :=
  if is_creator_in creators user then Some Infinite
  else Level <$> match pl_users pls !! user with
                 | Some z => Some z
                 | None => if counted then Some (pl_users_default pls) else None
                 end.

(** [sender_power.filter(|p| p >= level).is_some()] *)
Definition at_least (p : option UserPower) (level : Z) : bool :=
  match p with Some p => geb p (Level level) | None => false end.
(** [sender_power.filter(|p| p < level).is_some()] *)
Definition below (p : option UserPower) (level : Z) : bool :=
  match p with Some p => ltb p (Level level) | None => false end.

(** Whether the user a restricted join names may vouch for it. *)
Definition join_auth_valid (room_version : RoomVersion) (power_levels_event : option Event)
    (creators : list UserId) (user_for_join_auth : option UserId)
    (user_for_join_auth_membership : MembershipState) : result Error bool :=
  match user_for_join_auth with
  | None => Ok false
  | Some user =>
      '(auth_user_pl, invite_level) ←
        match power_levels_event with
        | Some pl =>
            invite ← decoded (deserialize_power_levels_content_invite (content pl) room_version);
            c ← decoded (deserialize_power_levels_content_fields (content pl) room_version);
            let user_pl :=
              if is_creator_in creators user then Infinite else
              match get_user_power c user with
              | Some level => Level level
              | None => Level (users_default c)
              end in
            Ok (user_pl, Level invite)
        | None =>
            if is_creator_in creators user then Ok (Infinite, Level 0)
            else Ok (Level 0, Level 0)
        end;
      Ok (bool_decide (user_for_join_auth_membership = Join)
          && geb auth_user_pl invite_level)
  end.

(** The creator's own first join, right after the create event. *)
Definition is_first_join (room_version : RoomVersion) (current_event create_room : Event)
    (sender_ target_user : UserId) : result Error bool :=
  if match prev_events current_event with
     | [id] => bool_decide (id = event_id create_room)
     | _ => false
     end
  then
    creator ←
      (if use_room_create_sender room_version then Ok (sender create_room)
       else
         c ← decoded (json_create_event_creator (content create_room));
         decoded c);
    Ok (bool_decide (creator = sender_) && bool_decide (creator = target_user))
  else Ok false.

Definition is_restricted (j : JoinRule) : bool :=
  match j with JoinRestricted _ => true | _ => false end.
Definition is_knock_restricted (j : JoinRule) : bool :=
  match j with JoinKnockRestricted _ => true | _ => false end.

(** Everything the transition rules read. *)
Record Transition := mkTransition {
  t_version : RoomVersion;
  t_sender : UserId;
  t_target : UserId;
  t_sender_membership : MembershipState;
  t_current : MembershipState;
  t_levels : PowerLevels;
  t_sender_power : option UserPower;
  t_target_power : option UserPower;
  t_join_rule : JoinRule;
  t_join_auth : bool
}.

(** [MembershipState::Join], past the creator's first join. *)
Definition may_join (t : Transition) : bool :=
  if negb (bool_decide (t_sender t = t_target t)) then false
  else if bool_decide (t_current t = Ban) then false
  else if (bool_decide (t_join_rule t = JoinInvite)
           || allow_knocking (t_version t) && bool_decide (t_join_rule t = JoinKnock))
          && (bool_decide (t_current t = Join) || bool_decide (t_current t = Invite))
  then true
  else if restricted_join_rules (t_version t) && is_restricted (t_join_rule t)
          || knock_restricted_join_rule (t_version t) && is_knock_restricted (t_join_rule t)
  then
    if bool_decide (t_current t = Invite) || bool_decide (t_current t = Join) then true
    else t_join_auth t
  else bool_decide (t_join_rule t = JoinPublic).

(** [MembershipState::Invite] without a third-party block. *)
Definition may_invite (t : Transition) : bool :=
  if negb (bool_decide (t_sender_membership t = Join))
     || bool_decide (t_current t = Join) || bool_decide (t_current t = Ban)
  then false
  else at_least (t_sender_power t) (pl_invite (t_levels t)).

(** [MembershipState::Leave]: leaving, kicking and unbanning. *)
Definition may_leave (t : Transition) : bool :=
  if bool_decide (t_sender t = t_target t) then
    bool_decide (t_current t = Join) || bool_decide (t_current t = Invite)
    || bool_decide (t_current t = Knock)
  else if negb (bool_decide (t_sender_membership t = Join))
          || bool_decide (t_current t = Ban) && below (t_sender_power t) (pl_ban (t_levels t))
  then false
  else at_least (t_sender_power t) (pl_kick (t_levels t))
       && ltb (t_target_power t) (t_sender_power t).

Definition may_ban (t : Transition) : bool :=
  if negb (bool_decide (t_sender_membership t = Join)) then false
  else at_least (t_sender_power t) (pl_ban (t_levels t))
       && ltb (t_target_power t) (t_sender_power t).

(** [MembershipState::Knock] where the room version allows knocking. *)
Definition may_knock (t : Transition) : bool :=
  if negb (is_knock_restricted (t_join_rule t) || bool_decide (t_join_rule t = JoinKnock))
  then false
  else if is_knock_restricted (t_join_rule t)
          && negb (knock_restricted_join_rule (t_version t)) then false
  else if negb (bool_decide (t_sender t = t_target t)) then false
  else if bool_decide (t_sender_membership t = Ban)
          || bool_decide (t_sender_membership t = Invite)
          || bool_decide (t_sender_membership t = Join) then false
  else true.

(** The events and users [valid_membership_change] is handed. *)
Record MembershipChange := mkChange {
  c_target_user : UserId;
  c_target_event : option Event;
  c_sender : UserId;
  c_sender_event : option Event;
  c_event : Event;
  c_third_party : option Event;
  c_power_levels : option Event;
  c_join_rules : option Event;
  c_join_auth_user : option UserId;
  c_join_auth_membership : MembershipState;
  c_create : Event;
  c_creators : list UserId
}.

(** The values decoded before the rules, each decoding failure an error. *)
Definition transition_of (room_version : RoomVersion) (c : MembershipChange) :
    result Error (MembershipState * option Raw * Transition) :=
  target_membership ← decoded (json_get_membership (content (c_event c)));
  tpi ← decoded (json_get_third_party_invite (content (c_event c)));
  sender_membership ← membership_of (c_sender_event c);
  let sender_is_joined := bool_decide (sender_membership = Join) in
  target_current ← membership_of (c_target_event c);
  power_levels ← decoded (json_power_levels
    (match c_power_levels c with Some ev => content ev | None => "{}" end));
  let sender_power :=
    power_in power_levels (c_creators c) sender_is_joined (c_sender c) in
  let target_power :=
    power_in power_levels (c_creators c) (bool_decide (target_membership = Join))
      (c_target_user c) in
  join_rule ← match c_join_rules c with
              | Some jr => decoded (json_join_rule (content jr))
              | None => Ok JoinInvite
              end;
  join_auth ← join_auth_valid room_version (c_power_levels c) (c_creators c)
                (c_join_auth_user c) (c_join_auth_membership c);
  Ok (target_membership, tpi,
      mkTransition room_version (c_sender c) (c_target_user c) sender_membership
        target_current power_levels sender_power target_power join_rule join_auth).

Definition valid_membership_change (room_version : RoomVersion) (c : MembershipChange) :
    result Error bool :=
  '(target_membership, tpi, t) ← transition_of room_version c;
  match target_membership with
  | Join =>
      first ← is_first_join room_version (c_event c) (c_create c) (c_sender c)
                (c_target_user c);
      if (first : bool) then Ok true else Ok (may_join t)
  | Invite =>
      match tpi ≫= raw_third_party_invite with
      | Some signed =>
          Ok (if bool_decide (t_current t = Ban) then false
              else verify_third_party_invite (Some (c_target_user c)) (c_sender c)
                     signed (c_third_party c))
      | None => Ok (may_invite t)
      end
  | Leave => Ok (may_leave t)
  | Ban => Ok (may_ban t)
  | Knock => if allow_knocking room_version then Ok (may_knock t) else Ok false
  | CustomMembership _ => Ok false
  end.

End Change.

(** ** Properties *)

(** Turns the boolean tests of the rules into propositions. *)
Ltac rule_inv :=
  repeat match goal with
  | H : (if ?b then _ else _) = true |- _ => destruct b eqn:?; try discriminate H
  | H : _ && _ = true |- _ => apply andb_true_iff in H as [? ?]
  | H : _ || _ = false |- _ => apply orb_false_iff in H as [? ?]
  | H : negb _ = false |- _ => apply negb_false_iff in H
  | H : negb _ = true |- _ => apply negb_true_iff in H
  | H : bool_decide _ = true |- _ => apply bool_decide_eq_true in H
  | H : bool_decide _ = false |- _ => apply bool_decide_eq_false in H
  end.

Lemma at_least_spec p z :
  at_least p z = true -> exists q, p = Some q /\ ord_le (Level z) q.
Proof. destruct p as [q|]; cbn; [|done]. rewrite geb_le. eauto. Qed.

Lemma below_spec q z : below (Some q) z = false -> ord_le (Level z) q.
Proof. cbn. by rewrite <-geb_le, <-negb_true_iff. Qed.

(** The power a kick, an unban or a ban takes. *)
Definition outranks (t : Transition) (level : Z) : Prop :=
  exists p, t_sender_power t = Some p /\ ord_le (Level level) p /\
    cmp (t_target_power t) (Some p) = Lt.

Lemma may_ban_spec t :
  may_ban t = true -> t_sender_membership t = Join /\ outranks t (pl_ban (t_levels t)).
Proof.
  unfold may_ban. intros ?. rule_inv. split; [done|].
  match goal with H : at_least _ _ = true |- _ =>
    apply at_least_spec in H as (p & Hp & Hl) end.
  exists p. split_and!; [done|done|]. rewrite <-Hp. by apply ltb_lt.
Qed.

Lemma may_leave_other t :
  may_leave t = true -> t_sender t <> t_target t ->
  t_sender_membership t = Join /\ outranks t (pl_kick (t_levels t)) /\
  (t_current t = Ban -> outranks t (pl_ban (t_levels t))).
Proof.
  unfold may_leave. intros Hm Hne. rewrite bool_decide_eq_false_2 in Hm by done. rule_inv.
  match goal with H : at_least _ _ = true |- _ =>
    apply at_least_spec in H as (p & Hp & Hl) end.
  assert (cmp (t_target_power t) (Some p) = Lt) by (rewrite <-Hp; by apply ltb_lt).
  split_and!; [done|by exists p|]. intros Hb. exists p. split_and!; [done| |done].
  match goal with H : _ && _ = false |- _ => apply andb_false_iff in H as [H|H] end.
  - rule_inv. done.
  - rewrite Hp in *. by apply below_spec.
Qed.

Lemma may_invite_spec t :
  may_invite t = true -> t_sender_membership t = Join /\
  t_current t <> Join /\ t_current t <> Ban /\
  exists p, t_sender_power t = Some p /\ ord_le (Level (pl_invite (t_levels t))) p.
Proof. unfold may_invite. intros ?. rule_inv. eauto using at_least_spec. Qed.

(** How a user may come into a room, past the creator's first join. *)
Definition join_admitted (t : Transition) : Prop :=
  let present := t_current t = Join \/ t_current t = Invite in
  match t_join_rule t with
  | JoinPublic => True
  | JoinInvite => present
  | JoinKnock => allow_knocking (t_version t) = true /\ present
  | JoinRestricted _ =>
      restricted_join_rules (t_version t) = true /\ (present \/ t_join_auth t = true)
  | JoinKnockRestricted _ =>
      knock_restricted_join_rule (t_version t) = true /\ (present \/ t_join_auth t = true)
  | JoinPrivate | JoinCustom _ => False
  end.

Lemma may_join_spec t :
  may_join t = true <->
  t_sender t = t_target t /\ t_current t <> Ban /\ join_admitted t.
Proof.
  unfold may_join, join_admitted.
  destruct (bool_decide (t_sender t = t_target t)) eqn:E1; cbn; rule_inv; [|naive_solver].
  destruct (bool_decide (t_current t = Ban)) eqn:E2; rule_inv; [naive_solver|].
  destruct (t_join_rule t), (t_current t), (allow_knocking (t_version t)),
    (restricted_join_rules (t_version t)), (knock_restricted_join_rule (t_version t)),
    (t_join_auth t); cbn; naive_solver.
Qed.

Section Safe.
Context `{Identifiers, Json, Signatures}.

Lemma transition_of_users rv c m tpi t :
  transition_of rv c = Ok (m, tpi, t) ->
  t_sender t = c_sender c /\ t_target t = c_target_user c /\ t_version t = rv /\
  membership_of (c_sender_event c) = Ok (t_sender_membership t) /\
  membership_of (c_target_event c) = Ok (t_current t).
Proof. unfold transition_of. intros. by bind_inv. Qed.

Lemma first_join_self rv ev create s u :
  is_first_join rv ev create s u = Ok true -> s = u.
Proof.
  unfold is_first_join. case_match; [|done]. intros. bind_inv. rule_inv. congruence.
Qed.

(** Whoever changes another user's membership invites, removes or bans them,
    and is joined unless it is a third-party invite. *)
Lemma other_changed rv c :
  valid_membership_change rv c = Ok true -> c_sender c <> c_target_user c ->
  exists m, json_get_membership (content (c_event c)) = Some m /\
    m ∈ [Invite; Leave; Ban] /\
    (membership_of (c_sender_event c) = Ok Join \/
     m = Invite /\ exists tpi, json_get_third_party_invite (content (c_event c)) = Some tpi /\
       is_Some (tpi ≫= raw_third_party_invite)).
Proof.
  unfold valid_membership_change. intros Hc Hne.
  destruct (transition_of rv c) as [[[m tpi] t]|] eqn:Ht; [|done].
  destruct (transition_of_users _ _ _ _ _ Ht) as (Hs & Hu & _ & Hj & _).
  unfold transition_of in Ht. bind_inv.
  repeat match goal with H : decoded _ = Ok _ |- _ => apply ok_or_ok in H end.
  cbn [mbind result_bind] in Hc. exists m. split; [done|]. destruct m.
  - injection Hc as [? _]%may_ban_spec. split; [set_solver|left; cbn in *; congruence].
  - split; [set_solver|]. destruct (tpi ≫= raw_third_party_invite) as [signed|] eqn:Es;
      injection Hc as Hc; [right; split; [done|]; exists tpi; rewrite Es; eauto|].
    apply may_invite_spec in Hc as [? _]. left. cbn in *. congruence.
  - bind_inv. match goal with H : is_first_join _ _ _ _ _ = Ok ?b |- _ => destruct b; [by apply first_join_self in H|] end.
    injection Hc as [? _]%may_join_spec. cbn in *. congruence.
  - destruct (allow_knocking rv); [|done]. injection Hc as Hk. unfold may_knock in Hk.
    rule_inv. cbn in *. congruence.
  - injection Hc as [? _]%may_leave_other; [|cbn; congruence].
    split; [set_solver|left; cbn in *; congruence].
  - done.
Qed.

End Safe.

(** C7: a member event that acts on another user passes only as an invite, a
    kick, an unban or a ban: never as that user's join or knock. Apart from a
    third-party invite of a user who is not banned, the sender must be joined
    and hold the level of the action; a kick, an unban or a ban also takes
    more power than the target's. *)
Theorem acting_on_others `{Identifiers, Json, Signatures} rv c m tpi t :
  transition_of rv c = Ok (m, tpi, t) -> c_sender c <> c_target_user c ->
  valid_membership_change rv c = Ok true ->
  match m with
  | Invite =>
      match tpi ≫= raw_third_party_invite with
      | Some signed => t_current t <> Ban /\
          verify_third_party_invite (Some (c_target_user c)) (c_sender c) signed
            (c_third_party c) = true
      | None => t_sender_membership t = Join /\ t_current t <> Join /\ t_current t <> Ban /\
          exists p, t_sender_power t = Some p /\ ord_le (Level (pl_invite (t_levels t))) p
      end
  | Leave => t_sender_membership t = Join /\ outranks t (pl_kick (t_levels t)) /\
      (t_current t = Ban -> outranks t (pl_ban (t_levels t)))
  | Ban => t_sender_membership t = Join /\ outranks t (pl_ban (t_levels t))
  | Join | Knock | CustomMembership _ => False
  end.
Proof.
  intros Ht Hne. destruct (transition_of_users _ _ _ _ _ Ht) as (Hs & Hu & _).
  unfold valid_membership_change. rewrite Ht. cbn [mbind result_bind].
  destruct m.
  - intros [= Hb]. by apply may_ban_spec.
  - destruct (tpi ≫= raw_third_party_invite) as [signed|]; intros [= Hb].
    + by rule_inv.
    + by apply may_invite_spec.
  - intros Hj. bind_inv. destruct v.
    + by apply first_join_self in Hv.
    + injection Hj as Hj. apply may_join_spec in Hj. naive_solver congruence.
  - destruct (allow_knocking rv); [|done]. intros [= Hk]. unfold may_knock in Hk.
    rule_inv. congruence.
  - intros [= Hl]. apply may_leave_other; [done|congruence].
  - done.
Qed.

(** A banned user gets out of the ban by no event of their own: whatever
    membership they send for themselves is refused, except where the event is
    the creator's first join. *)
Theorem banned_stays_out `{Identifiers, Json, Signatures} rv c :
  c_sender c = c_target_user c -> c_sender_event c = c_target_event c ->
  membership_of (c_target_event c) = Ok Ban ->
  is_first_join rv (c_event c) (c_create c) (c_sender c) (c_target_user c) <> Ok true ->
  valid_membership_change rv c <> Ok true.
Proof.
  intros Hself Hev Hban Hfirst. unfold valid_membership_change.
  destruct (transition_of rv c) as [[[m tpi] t]|] eqn:Ht; [|done].
  destruct (transition_of_users _ _ _ _ _ Ht) as (Hs & Hu & _ & Hsm & Hcur).
  rewrite Hev in Hsm. assert (t_current t = Ban) as Hb by congruence.
  assert (t_sender_membership t = Ban) as Hsb by congruence.
  cbn [mbind result_bind]. destruct m.
  - intros [= [? _]%may_ban_spec]. congruence.
  - destruct (tpi ≫= raw_third_party_invite) as [signed|]; intros [= Hi].
    + rule_inv. done.
    + apply may_invite_spec in Hi. naive_solver.
  - intros Hj. bind_inv. destruct v; [done|]. injection Hj as Hj%may_join_spec. naive_solver.
  - destruct (allow_knocking rv); [|done]. intros [= Hk]. unfold may_knock in Hk. rule_inv.
    congruence.
  - intros [= Hl]. unfold may_leave in Hl. rewrite Hs, Hu, Hself, bool_decide_eq_true_2 in Hl
      by done. rewrite Hb in Hl. done.
  - done.
Qed.

Import Sample.

(** [alice] kicks [bob]. *)
Definition kick : MembershipChange := {|
  c_target_user := bob;
  c_target_event := Some (member "$b1:b" bob "join" bob);
  c_sender := alice;
  c_sender_event := Some (member "$a1:a" alice "join" alice);
  c_event := member "$k:a" bob "leave" alice;
  c_third_party := None;
  c_power_levels := Some (power "$p:a" "alice=100,bob=50");
  c_join_rules := None;
  c_join_auth_user := None;
  c_join_auth_membership := Leave;
  c_create := create;
  c_creators := []
|}.

Lemma acting_on_others_witness :
  exists t, transition_of V6 kick = Ok (Leave, None, t) /\
    outranks t (pl_kick (t_levels t)).
Proof.
  eexists. split; [vm_compute; reflexivity|].
  refine (proj1 (proj2 (acting_on_others V6 kick Leave None _ _ _ _)));
    [vm_compute; reflexivity|discriminate|vm_compute; reflexivity].
Defined.

(** [bob], banned, joins a public room. *)
Definition banned_join : MembershipChange := {|
  c_target_user := bob;
  c_target_event := Some (member "$b1:b" bob "ban" alice);
  c_sender := bob;
  c_sender_event := Some (member "$b1:b" bob "ban" alice);
  c_event := member "$j:b" bob "join" bob;
  c_third_party := None;
  c_power_levels := Some (power "$p:a" "alice=100");
  c_join_rules := Some
    (mkEvent "$jr:a" room alice 3 RoomJoinRules "public" (Some "") [] [] None);
  c_join_auth_user := None;
  c_join_auth_membership := Leave;
  c_create := create;
  c_creators := []
|}.

Lemma banned_stays_out_witness : valid_membership_change V6 banned_join <> Ok true.
Proof.
  apply banned_stays_out; [reflexivity|reflexivity|vm_compute; reflexivity|].
  vm_compute. discriminate.
Defined.

(** A user without a listed level is kicked by one of the same default level:
    the default is not counted for a target who is not joining. *)
Example kick_among_equals :
  valid_membership_change V6 {|
    c_target_user := carol;
    c_target_event := Some (member "$c1:c" carol "join" carol);
    c_sender := bob;
    c_sender_event := Some (member "$b1:b" bob "join" bob);
    c_event := member "$k:b" carol "leave" bob;
    c_third_party := None;
    c_power_levels := Some (power "$p:a" "default=50");
    c_join_rules := None;
    c_join_auth_user := None;
    c_join_auth_membership := Leave;
    c_create := create;
    c_creators := []
  |} = Ok true.
Proof. vm_compute. reflexivity. Qed.

End Membership.
