(* ===== verification/EventAuth.v ===== *)
(** Event authorization, [matrix/state_res/event_auth.rs]: the state an event is
    checked against ([auth_types_for_event]) and the check itself
    ([auth_check]), which dispatches to the membership and power-level rules. *)
From S2P Require Import Prelude Order Event PowerLevels Levels Membership Sample.
Export Levels Membership.

Module EventAuth.

Section Auth.
Context `{Identifiers, Json, Signatures}.

(** [if !auth_types.contains(&key) { auth_types.push(key) }] *)
Definition push_new (key : TypeStateKey) (auth_types : list TypeStateKey) :
    list TypeStateKey :=
  if decide (key ∈ auth_types) then auth_types else auth_types ++ [key].

Definition is_join_invite_knock (m : MembershipState) : bool :=
  bool_decide (m = Join) || bool_decide (m = Invite) || bool_decide (m = Knock).

(** The keys a member event adds, from its decoded content. *)
Definition member_auth_types (key : string) (c : RoomMemberContentFields)
    (auth_types : list TypeStateKey) : list TypeStateKey :=
  match membership c ≫= raw_membership with
  | None => auth_types
  | Some m =>
      let l := auth_types in
      let l :=
        if is_join_invite_knock m then
          let l := push_new (RoomJoinRules, "") l in
          match join_authorised_via_users_server c ≫= raw_user_id with
          | Some u => push_new (RoomMember, u) l
          | None => l
          end
        else l in
      let l := push_new (RoomMember, key) l in
      if bool_decide (m = Invite) then
        match (third_party_invite c ≫= raw_third_party_invite) ≫= raw_signed with
        | Some signed => push_new (RoomThirdPartyInvite, token signed) l
        | None => l
        end
      else l
  end.

(** The keys every event but the create event selects. *)
Definition base_auth_types (room_version : RoomVersion) (sender_ : UserId) :
    list TypeStateKey :=
  [(RoomPowerLevels, ""); (RoomMember, sender_)]
  ++ (if room_create_event_id_as_room_id room_version then [] else [(RoomCreate, "")]).

Definition auth_types_for_event (room_version : RoomVersion) (kind : string)
    (sender_ : UserId) (key : option string) (c : string) :
    result Error (list TypeStateKey) :=
  if bool_decide (kind = RoomCreate) then Ok [] else
  let auth_types := base_auth_types room_version sender_ in
  if bool_decide (kind = RoomMember) then
    match key with
    | Some key =>
        fields ← decoded (json_member_fields c);
        Ok (member_auth_types key fields auth_types)
    | None => Ok auth_types
    end
  else Ok auth_types.

(** The rules of [m.room.create]. *)
Definition check_create (room_version : RoomVersion) (ev : Event) : result Error bool :=
  match prev_events ev with
  | _ :: _ => Ok false
  | [] =>
      if negb
        (if room_create_event_id_as_room_id room_version
         then room_id_derives_from (room_id ev) ev
         else match room_server_name (room_id ev) with
              | None => false
              | Some server => bool_decide (server = user_server_name (sender ev))
              end)
      then Ok false
      else
        c ← decoded (json_create_fields (content ev));
        if match create_room_version c with
           | Some v => bool_decide (raw_room_version v = None)
           | None => false
           end then Ok false
        else if additional_room_creators room_version
                && match create_additional_creators c with
                   | Some l => bool_decide (raw_user_ids l = None)
                   | None => false
                   end then Ok false
        else if negb (use_room_create_sender room_version)
                && bool_decide (create_creator c = None) then Ok false
        else Ok true
  end.

Section Fetch.
(** [fetch_state] *)
Context (fetch : string -> string -> option Event).

(** The checks on the room's create event, which [None] fails. *)
Definition check_room_create (room_version : RoomVersion) (ev : Event) : option Event :=
  room_create_event ← fetch RoomCreate "";
  let create_in_auth_events :=
    existsb (fun id => bool_decide (id = event_id room_create_event)) (auth_events ev) in
  if room_create_event_id_as_room_id room_version then
    if negb (room_id_derives_from (room_id ev) room_create_event) then None
    else if create_in_auth_events then None
    else Some room_create_event
  else if negb create_in_auth_events then None
  else Some room_create_event.

(** [user_for_join_auth_membership] *)
Definition join_auth_membership (user : option UserId) : MembershipState :=
  match user with
  | None => Leave
  | Some u =>
      default Leave (mem ← fetch RoomMember u; json_get_membership (content mem))
  end.

(** The [m.room.member] branch. *)
Definition check_member (room_version : RoomVersion) (ev room_create_event : Event)
    (creators : list UserId) : result Error bool :=
  match state_key ev with
  | None => Ok false
  | Some key =>
      c ← decoded (json_member_fields (content ev));
      match membership c ≫= raw_membership with
      | None => Ok false
      | Some _ =>
          if negb (valid_user_id key) then Err InvalidPdu else
          let user_for_join_auth := join_authorised_via_users_server c ≫= raw_user_id in
          let third_party_token :=
            token <$> ((third_party_invite c ≫= raw_third_party_invite) ≫= raw_signed) in
          valid_membership_change room_version {|
            c_target_user := key;
            c_target_event := fetch RoomMember key;
            c_sender := sender ev;
            c_sender_event := fetch RoomMember (sender ev);
            c_event := ev;
            c_third_party := third_party_token ≫= fetch RoomThirdPartyInvite;
            c_power_levels := fetch RoomPowerLevels "";
            c_join_rules := fetch RoomJoinRules "";
            c_join_auth_user := user_for_join_auth;
            c_join_auth_membership := join_auth_membership user_for_join_auth;
            c_create := room_create_event;
            c_creators := creators
          |}
      end
  end.

(** The membership a sender's own member event gives; [expect] panics without
    the field. *)
Definition sender_membership (member : Event) : result Error MembershipState :=
  c ← decoded (json_member_fields (content member));
  m ← ok_or (membership c) Panic;
  decoded (raw_membership m).

Definition sender_power_level (room_version : RoomVersion) (creators : list UserId)
    (room_create_event : Event) (sender_ : UserId) : result Error UserPower :=
  if is_creator_in creators sender_ then Ok Infinite else
  match fetch RoomPowerLevels "" with
  | Some pl =>
      c ← decoded (deserialize_power_levels_content_fields (content pl) room_version);
      Ok (match get_user_power c sender_ with
          | Some level => Level level
          | None => Level (users_default c)
          end)
  | None =>
      let is_creator :=
        if use_room_create_sender room_version
        then bool_decide (sender room_create_event = sender_)
        else bool_decide (json_create_event_creator (content room_create_event)
                          = Some (Some sender_)) in
      Ok (Level (if is_creator then 100 else 0))
  end.

(** The branches after the sender is known to be joined. *)
Definition check_powers (room_version : RoomVersion) (ev : Event)
    (creators : list UserId) (power : UserPower) : result Error bool :=
  let power_levels_event := fetch RoomPowerLevels "" in
  if bool_decide (event_type ev = RoomThirdPartyInvite) then
    invite_level ← match power_levels_event with
      | Some pl => decoded (deserialize_power_levels_content_invite (content pl) room_version)
      | None => Ok 0
      end;
    Ok (negb (ltb power (Level invite_level)))
  else if negb (can_send_event ev power_levels_event power) then Ok false
  else if bool_decide (event_type ev = RoomPowerLevels)
          && negb (bool_decide (check_power_levels room_version ev power_levels_event
                                  power creators = Some true)) then Ok false
  else if extra_redaction_checks room_version
          && bool_decide (event_type ev = RoomRedaction) then
    redact_level ← match power_levels_event with
      | Some pl => decoded (deserialize_power_levels_content_redact (content pl) room_version)
      | None => Ok 50
      end;
    Ok (check_redaction ev power redact_level)
  else Ok true.

Definition auth_check (room_version : RoomVersion) (ev : Event) : result Error bool :=
  if bool_decide (event_type ev = RoomCreate) then check_create room_version ev else
  match check_room_create room_version ev with
  | None => Ok false
  | Some room_create_event =>
      let creators := privileged_creators room_version room_create_event in
      federate ← decoded (json_federate (content room_create_event));
      if negb (federate : bool)
         && negb (bool_decide (user_server_name (sender room_create_event)
                               = user_server_name (sender ev))) then Ok false
      else if special_case_aliases_auth room_version
              && bool_decide (event_type ev = ROOM_ALIASES_TYPE) then
        Ok (bool_decide (state_key ev = Some (user_server_name (sender ev))))
      else if bool_decide (event_type ev = RoomMember) then
        check_member room_version ev room_create_event creators
      else
        match fetch RoomMember (sender ev) with
        | None => Ok false
        | Some member =>
            m ← sender_membership member;
            if negb (bool_decide (m = Join)) then Ok false else
            power ← sender_power_level room_version creators room_create_event (sender ev);
            check_powers room_version ev creators power
        end
  end.

End Fetch.
End Auth.

(** ** The create event and the sender's power *)

Section Accepted.
Context `{Identifiers, Json, Signatures}.
Context (fetch : string -> string -> option Event).

Lemma check_room_create_spec rv ev create :
  check_room_create fetch rv ev = Some create ->
  fetch RoomCreate "" = Some create /\
  if room_create_event_id_as_room_id rv
  then create_event_id_of (room_id ev) = Some (event_id create) /\
       event_id create ∉ auth_events ev
  else event_id create ∈ auth_events ev.
Proof.
  unfold check_room_create. destruct (fetch RoomCreate "") as [c|]; [|done].
  cbn [mbind option_bind].
  assert (Hin : forall b, existsb (fun id => bool_decide (id = event_id c)) (auth_events ev) = b
    -> if b then event_id c ∈ auth_events ev else event_id c ∉ auth_events ev).
  { intros [] Hb.
    - apply existsb_exists in Hb as (x & Hx & Hb). rule_inv. subst. by apply list_elem_of_In.
    - intros Hc. apply not_true_iff_false in Hb. apply Hb, existsb_exists.
      exists (event_id c). rewrite bool_decide_eq_true. by split; [apply list_elem_of_In|]. }
  destruct (existsb _ _) eqn:Eb; specialize (Hin _ eq_refl); cbn in Hin;
    destruct (room_create_event_id_as_room_id rv); cbn.
  - case_match; done.
  - by intros [= <-].
  - destruct (room_id_derives_from (room_id ev) c) eqn:Ed; [|done]. intros [= <-].
    unfold room_id_derives_from in Ed. case_match; [|done]. rule_inv. naive_solver.
  - done.
Qed.

Lemma auth_check_create_event rv ev :
  event_type ev <> RoomCreate -> auth_check fetch rv ev = Ok true ->
  exists create, check_room_create fetch rv ev = Some create.
Proof.
  unfold auth_check. intros Hty. rewrite bool_decide_eq_false_2 by done.
  destruct (check_room_create fetch rv ev); eauto; done.
Qed.

Lemma can_send_event_spec ev ple p :
  can_send_event ev ple p = true ->
  ord_le (Level (get_send_level (event_type ev) (state_key ev) ple)) p /\
  (forall k, state_key ev = Some k -> starts_with_at k = true -> k = sender ev).
Proof.
  unfold can_send_event. destruct (ltb p _) eqn:El; [done|]. intros Hs. split.
  { apply geb_le. unfold geb. by rewrite El. }
  intros k Hk Hat. rewrite Hk, Hat in Hs.
  destruct (bool_decide (Some k = Some (sender ev))) eqn:E; [|done]. rule_inv. by simplify_eq.
Qed.

(** The create event lets the sender's server take part. *)
Definition federates (create ev : Event) : Prop :=
  json_federate (content create) = Some true \/
  user_server_name (sender create) = user_server_name (sender ev).

(** [user] is joined with power [p]. *)
Definition joined_with (rv : RoomVersion) (create : Event) (user : UserId)
    (p : UserPower) : Prop :=
  exists member, fetch RoomMember user = Some member /\ sender_membership member = Ok Join /\
    sender_power_level fetch rv (privileged_creators rv create) create user = Ok p.

(** The level a field of the power-levels event sets, [d] in a room without one. *)
Definition level_set (decode : string -> option Z) (d l : Z) : Prop :=
  match fetch RoomPowerLevels "" with
  | Some pl => decode (content pl) = Some l
  | None => l = d
  end.

(** By what right the sender of [ev] sends it, kind by kind. *)
Inductive entitled (rv : RoomVersion) (ev : Event) : Prop :=
  | entitled_create :
      event_type ev = RoomCreate -> prev_events ev = [] ->
      (if room_create_event_id_as_room_id rv
       then create_event_id_of (room_id ev) = Some (event_id ev)
       else room_server_name (room_id ev) = Some (user_server_name (sender ev))) ->
      entitled rv ev
  | entitled_aliases create :
      check_room_create fetch rv ev = Some create -> federates create ev ->
      event_type ev = ROOM_ALIASES_TYPE -> special_case_aliases_auth rv = true ->
      state_key ev = Some (user_server_name (sender ev)) -> entitled rv ev
  | entitled_member create user :
      check_room_create fetch rv ev = Some create -> federates create ev ->
      event_type ev = RoomMember -> state_key ev = Some user -> valid_user_id user = true ->
      (sender ev <> user ->
       exists m, json_get_membership (content ev) = Some m /\ m ∈ [Invite; Leave; Ban] /\
         (membership_of (fetch RoomMember (sender ev)) = Ok Join \/
          m = Invite /\ exists tpi, json_get_third_party_invite (content ev) = Some tpi /\
            is_Some (tpi ≫= raw_third_party_invite))) ->
      entitled rv ev
  | entitled_third_party create p level :
      check_room_create fetch rv ev = Some create -> federates create ev ->
      event_type ev = RoomThirdPartyInvite -> joined_with rv create (sender ev) p ->
      level_set (fun c => deserialize_power_levels_content_invite c rv) 0 level ->
      ord_le (Level level) p -> entitled rv ev
  | entitled_other create p :
      check_room_create fetch rv ev = Some create -> federates create ev ->
      event_type ev ∉ [RoomCreate; RoomMember; RoomThirdPartyInvite] ->
      joined_with rv create (sender ev) p ->
      ord_le (Level (get_send_level (event_type ev) (state_key ev)
                       (fetch RoomPowerLevels ""))) p ->
      (forall k, state_key ev = Some k -> starts_with_at k = true -> k = sender ev) ->
      (event_type ev = RoomPowerLevels ->
       check_power_levels rv ev (fetch RoomPowerLevels "") p
         (privileged_creators rv create) = Some true) ->
      (event_type ev = RoomRedaction -> extra_redaction_checks rv = true ->
       exists level,
         level_set (fun c => deserialize_power_levels_content_redact c rv) 50 level /\
         (ord_le (Level level) p \/
          event_server_name (event_id ev) = (redacts ev ≫= event_server_name))) ->
      entitled rv ev.

Lemma check_create_spec rv ev :
  event_type ev = RoomCreate -> check_create rv ev = Ok true -> entitled rv ev.
Proof.
  unfold check_create. intros Hty Hc. destruct (prev_events ev) eqn:Ep; [|done].
  match type of Hc with (if negb ?b then _ else _) = _ => destruct b eqn:Er; [|done] end.
  apply entitled_create; [done..|]. destruct (room_create_event_id_as_room_id rv).
  - unfold room_id_derives_from in Er. destruct (create_event_id_of (room_id ev)); [|done].
    rule_inv. congruence.
  - destruct (room_server_name (room_id ev)); [|done]. rule_inv. congruence.
Qed.

Lemma level_set_spec (decode : string -> option Z) d v :
  match fetch RoomPowerLevels "" with
  | Some pl => decoded (decode (content pl)) | None => Ok d end = Ok v -> level_set decode d v.
Proof.
  unfold level_set. destruct (fetch RoomPowerLevels "").
  - apply ok_or_ok.
  - by intros [= ->].
Qed.

(** The rules of a sender known to be joined with power [p]. *)
Lemma check_powers_spec rv ev create p :
  check_room_create fetch rv ev = Some create -> federates create ev ->
  event_type ev ∉ [RoomCreate; RoomMember] -> joined_with rv create (sender ev) p ->
  check_powers fetch rv ev (privileged_creators rv create) p = Ok true -> entitled rv ev.
Proof.
  unfold check_powers. intros Hcr Hf Hty Hj. case_bool_decide as Ht.
  { intros Hc. bind_inv. apply negb_true_iff in Hc.
    eapply entitled_third_party; [done..|exact (level_set_spec _ _ _ Hv)|].
    apply geb_le. unfold geb. by rewrite Hc. }
  destruct (can_send_event _ _ _) eqn:Es; [|done]. cbn [negb].
  apply can_send_event_spec in Es as [? ?]. intros Hc.
  destruct (bool_decide (event_type ev = RoomPowerLevels)
    && negb (bool_decide (check_power_levels rv ev (fetch RoomPowerLevels "") p
              (privileged_creators rv create) = Some true))) eqn:El; [done|].
  eapply entitled_other; [done..|set_solver|done|done|done| |].
  - intros Hp. rewrite (bool_decide_eq_true_2 _ Hp) in El. cbn in El. by rule_inv.
  - intros Hr Hx. rewrite Hx, (bool_decide_eq_true_2 _ Hr) in Hc. cbn [andb] in Hc. bind_inv.
    exists v. split; [exact (level_set_spec _ _ _ Hv)|]. unfold check_redaction in Hc.
    destruct (geb p (Level v)) eqn:Eg; [left; by apply geb_le|right; by rule_inv].
Qed.

Lemma check_member_spec rv ev create :
  check_room_create fetch rv ev = Some create -> federates create ev ->
  event_type ev = RoomMember ->
  check_member fetch rv ev create (privileged_creators rv create) = Ok true -> entitled rv ev.
Proof.
  unfold check_member. intros Hcr Hf Hty. destruct (state_key ev) as [user|] eqn:Ek; [|done].
  intros Hc. bind_inv. case_match; [|done]. destruct (valid_user_id user) eqn:Eu; [|done].
  cbn [negb] in Hc. eapply entitled_member; [done..|]. intros Hne.
  by apply other_changed in Hc.
Qed.

Lemma auth_check_entitled rv ev : auth_check fetch rv ev = Ok true -> entitled rv ev.
Proof.
  unfold auth_check. case_bool_decide as Hc; [by apply check_create_spec|].
  destruct (check_room_create fetch rv ev) as [create|] eqn:Hcr; [|done]. intros Hb. bind_inv.
  apply ok_or_ok in Hv.
  destruct (negb v && negb _) eqn:Ef; [done|].
  assert (Hf : federates create ev).
  { apply andb_false_iff in Ef as [Ef|Ef]; rule_inv; [left; by subst v|by right]. }
  destruct (special_case_aliases_auth rv && _) eqn:Ea; [rule_inv; simplify_eq; rule_inv|].
  { by eapply entitled_aliases. }
  case_bool_decide as Hm; [by eapply check_member_spec|].
  destruct (fetch RoomMember (sender ev)) as [member|] eqn:Em; [|done]. bind_inv.
  destruct (bool_decide (v0 = Join)) eqn:Ej; [|done]. rule_inv. subst.
  cbn [negb] in Hb. bind_inv. eapply check_powers_spec; [done|done|set_solver| |done].
  by exists member.
Qed.

End Accepted.

(** The verdict depends on the state only through its entries. *)
Lemma auth_check_ext `{Identifiers, Json, Signatures} f g rv ev :
  (forall ty k, f ty k = g ty k) -> auth_check f rv ev = auth_check g rv ev.
Proof.
  intros Hfg.
  assert (Hj : forall u, join_auth_membership f u = join_auth_membership g u).
  { intros [u|]; [|done]. unfold join_auth_membership. by rewrite Hfg. }
  assert (Ht : forall o : option string,
    o ≫= f RoomThirdPartyInvite = o ≫= g RoomThirdPartyInvite)
    by (intros [?|]; [apply Hfg|done]).
  assert (Hm : forall create cs, check_member f rv ev create cs = check_member g rv ev create cs).
  { intros create cs. unfold check_member. destruct (state_key ev) as [key|]; [|done].
    destruct (decoded _) as [c|]; [|done]. cbn. rewrite Hj, Ht, !Hfg. done. }
  unfold auth_check, check_room_create. rewrite Hfg.
  case_bool_decide; [done|]. destruct (g RoomCreate "" ≫= _) as [create|]; [|done].
  destruct (decoded _) as [federate|]; [|done]. cbn. rewrite Hm, Hfg.
  unfold check_powers, sender_power_level. by rewrite !Hfg.
Qed.

(** ** What the check reads *)

(** Two states that agree on a list of keys. *)
Definition agree (f g : string -> string -> option Event) (l : list TypeStateKey) : Prop :=
  forall ty k, (ty, k) ∈ l -> f ty k = g ty k.

Lemma push_new_elem key k l : k ∈ push_new key l <-> k = key \/ k ∈ l.
Proof. unfold push_new. case_decide; set_solver. Qed.

Section Local.
Context `{Identifiers, Json, Signatures}.

(** [GetMembership] and the raw membership field decode the same field. *)
Hypothesis membership_decoders : forall c f,
  json_member_fields c = Some f -> json_get_membership c = membership f ≫= raw_membership.

(** The verdict on a leave or a ban needs no join rule. *)
Lemma change_no_join_rules rv c c' m b b' :
  json_get_membership (content (c_event c)) = Some m ->
  is_join_invite_knock m = false ->
  c_target_user c = c_target_user c' -> c_target_event c = c_target_event c' ->
  c_sender c = c_sender c' -> c_sender_event c = c_sender_event c' ->
  c_event c = c_event c' -> c_power_levels c = c_power_levels c' ->
  c_creators c = c_creators c' ->
  valid_membership_change rv c = Ok b -> valid_membership_change rv c' = Ok b' -> b = b'.
Proof.
  intros Hm Hjik Ht Hte Hs Hse He Hp Hc. unfold valid_membership_change, transition_of.
  rewrite <-He, Hm, <-Hte, <-Hse, <-Hp, <-Hs, <-Ht, <-Hc. cbn [decoded ok_or].
  destruct m; try done; intros Hb Hb'; bind_inv; merge_ok; cbn in *; by simplify_eq.
Qed.

Lemma member_types_spec key f m l0 k :
  membership f ≫= raw_membership = Some m ->
  k ∈ member_auth_types key f l0 <->
  k ∈ l0 \/ k = (RoomMember, key) \/
  (is_join_invite_knock m = true /\
   (k = (RoomJoinRules, "") \/
    exists u, join_authorised_via_users_server f ≫= raw_user_id = Some u /\
      k = (RoomMember, u))) \/
  (m = Invite /\ exists s,
    (third_party_invite f ≫= raw_third_party_invite) ≫= raw_signed = Some s /\
    k = (RoomThirdPartyInvite, token s)).
Proof.
  intros Hm. unfold member_auth_types. rewrite Hm.
  destruct (join_authorised_via_users_server f ≫= raw_user_id) as [u|],
    ((third_party_invite f ≫= raw_third_party_invite) ≫= raw_signed) as [s|],
    (is_join_invite_knock m), (bool_decide (m = Invite)) eqn:?; rule_inv;
    rewrite ?push_new_elem; naive_solver.
Qed.

Lemma check_member_local f g rv ev create creators l b b' :
  auth_types_for_event rv (event_type ev) (sender ev) (state_key ev) (content ev) = Ok l ->
  event_type ev = RoomMember -> agree f g l ->
  check_member f rv ev create creators = Ok b ->
  check_member g rv ev create creators = Ok b' -> b = b'.
Proof.
  unfold auth_types_for_event, check_member. intros Hl Hty Ha.
  rewrite Hty, bool_decide_eq_false_2, bool_decide_eq_true_2 in Hl by done.
  destruct (state_key ev) as [key|]; [|congruence]. intros Hb Hb'. bind_inv. merge_ok.
  match goal with H : decoded _ = Ok ?f |- _ =>
    rename f into v; apply ok_or_ok in H; rename H into Hv end.
  destruct (membership v ≫= raw_membership) as [m|] eqn:Em; [|congruence].
  destruct (valid_user_id key); [|done]. cbn [negb] in *.
  set (l0 := base_auth_types rv (sender ev)) in *.
  pose proof (fun k => member_types_spec key v m l0 k Em) as Hk.
  assert (Hall : forall ty k, (ty, k) ∈ member_auth_types key v l0 -> f ty k = g ty k)
    by (intros; by apply Ha).
  assert (Hpl : f RoomPowerLevels "" = g RoomPowerLevels "").
  { apply Hall, Hk. left. unfold l0, base_auth_types. set_solver. }
  assert (Hse : f RoomMember (sender ev) = g RoomMember (sender ev)).
  { apply Hall, Hk. left. unfold l0, base_auth_types. set_solver. }
  assert (Hta : f RoomMember key = g RoomMember key) by (apply Hall, Hk; auto).
  destruct (is_join_invite_knock m) eqn:Ejik.
  - assert (Hjr : f RoomJoinRules "" = g RoomJoinRules "") by (apply Hall, Hk; auto 10).
    assert (Hja : join_auth_membership f (join_authorised_via_users_server v ≫= raw_user_id)
      = join_auth_membership g (join_authorised_via_users_server v ≫= raw_user_id)).
    { unfold join_auth_membership.
      destruct (join_authorised_via_users_server v ≫= raw_user_id) as [u|] eqn:Eu; [|done].
      rewrite (Hall RoomMember u); [done|]. apply Hk. eauto 10. }
    rewrite Hpl, Hse, Hta, Hjr, Hja in Hb.
    destruct (decide (m = Invite)) as [->|Hne].
    + assert (Htp : (token <$> ((third_party_invite v ≫= raw_third_party_invite)
          ≫= raw_signed)) ≫= f RoomThirdPartyInvite
        = (token <$> ((third_party_invite v ≫= raw_third_party_invite)
          ≫= raw_signed)) ≫= g RoomThirdPartyInvite).
      { destruct ((third_party_invite v ≫= raw_third_party_invite) ≫= raw_signed)
          as [s|] eqn:Es; [|done]. cbn. apply Hall, Hk. eauto 10. }
      rewrite Htp in Hb. congruence.
    + revert Hb Hb'. unfold valid_membership_change, transition_of. cbn.
      rewrite (membership_decoders _ _ Hv), Em. cbn [decoded ok_or].
      destruct m; try done; intros Hb Hb'; bind_inv; merge_ok; congruence.
  - refine (change_no_join_rules rv _ _ m b b' _ Ejik _ _ _ _ _ _ _ Hb Hb'); cbn; try done.
    by rewrite (membership_decoders _ _ Hv), Em.
Qed.

Lemma auth_check_local f g rv ev l b b' :
  auth_types_for_event rv (event_type ev) (sender ev) (state_key ev) (content ev) = Ok l ->
  agree f g ((RoomCreate, "") :: l) ->
  auth_check f rv ev = Ok b -> auth_check g rv ev = Ok b' -> b = b'.
Proof.
  intros Hl Ha. unfold auth_check. case_bool_decide as Hc; [congruence|].
  assert (Hcreate : check_room_create f rv ev = check_room_create g rv ev).
  { unfold check_room_create. by rewrite (Ha RoomCreate "") by left. }
  rewrite Hcreate. destruct (check_room_create g rv ev) as [create|]; [|congruence].
  intros Hb Hb'. bind_inv. merge_ok. case_match; [congruence|]. case_match; [congruence|].
  assert (Ha' : agree f g l) by (intros ? ? ?; apply Ha; by right).
  destruct (bool_decide (event_type ev = RoomMember)) eqn:Em; rule_inv.
  { by eapply check_member_local. }
  assert (Hl' : (RoomPowerLevels, "") ∈ l /\ (RoomMember, sender ev) ∈ l).
  { unfold auth_types_for_event in Hl. rewrite !bool_decide_eq_false_2 in Hl by done.
    simplify_eq. unfold base_auth_types. split; set_solver. }
  unfold sender_power_level, check_powers in *.
  rewrite !(Ha' RoomPowerLevels ""), (Ha' RoomMember (sender ev)) in Hb by apply Hl'.
  congruence.
Qed.

End Local.

(** An accepted event other than the create event is anchored in the room's
    create event: before version 12 it lists it among its auth events, from
    version 12 on its room id is derived from it and it must not list it. *)
Theorem create_anchored `{Identifiers, Json, Signatures} fetch rv ev :
  event_type ev <> RoomCreate -> auth_check fetch rv ev = Ok true ->
  exists create, fetch RoomCreate "" = Some create /\
    if room_create_event_id_as_room_id rv
    then create_event_id_of (room_id ev) = Some (event_id create) /\
         event_id create ∉ auth_events ev
    else event_id create ∈ auth_events ev.
Proof.
  intros Hty [create Hc]%auth_check_create_event; [|done].
  exists create. by apply check_room_create_spec.
Qed.

(** C5: an accepted event was sent by right. A create event opens its own
    room; an exempt aliases event is the sender's server's own; a member event
    names a user, and one about another user invites, removes or bans them and
    comes from a joined user unless it is a third-party invite; every other
    event comes from a joined user with at least the level its type asks for,
    who owns the state key if that is a user id; a power-levels event passed
    the power-levels check, a redaction (where the room version still checks
    it) has the redact level or the same server. All but the create event name
    the room's create event and come from a server it lets in. *)
Theorem accepted_sender `{Identifiers, Json, Signatures} fetch rv ev :
  auth_check fetch rv ev = Ok true -> entitled fetch rv ev.
Proof. apply auth_check_entitled. Qed.

(** C8: the verdict depends only on the state the auth rules select: two states
    that agree on the keys of [auth_types_for_event] and on the create event
    never lead to different verdicts. *)
Theorem auth_check_reads_auth_types `{Identifiers, Json, Signatures} f g rv ev l b b' :
  (forall c fs, json_member_fields c = Some fs ->
     json_get_membership c = membership fs ≫= raw_membership) ->
  auth_types_for_event rv (event_type ev) (sender ev) (state_key ev) (content ev) = Ok l ->
  agree f g ((RoomCreate, "") :: l) ->
  auth_check f rv ev = Ok b -> auth_check g rv ev = Ok b' -> b = b'.
Proof. exact (fun Hd => auth_check_local Hd f g rv ev l b b'). Qed.

Import Sample.

Definition topic : Event :=
  mkEvent "$t:b" room bob 5 "m.room.topic" "{}" (Some "") ["$p:a"]
    ["$create:a"; "$p:a"; "$b:b"] None.

Definition room_state : list Event :=
  [create; power "$p:a" "alice=100,bob=50"; member "$b:b" bob "join" bob].

Lemma create_anchored_witness :
  exists create, state_of room_state RoomCreate "" = Some create /\
    event_id create ∈ auth_events topic.
Proof.
  apply (create_anchored (state_of room_state) V6 topic);
    [discriminate|vm_compute; reflexivity].
Defined.

Lemma accepted_sender_witness :
  exists create p, joined_with (state_of room_state) V6 create bob p /\ ord_le (Level 50) p.
Proof.
  destruct (accepted_sender (state_of room_state) V6 topic) as
    [Ht|c _ _ Ht|c u _ _ Ht|c p l _ _ Ht|c p _ _ _ Hj Hp];
    [vm_compute; reflexivity|discriminate Ht..|].
  exists c, p. split; [exact Hj|exact Hp].
Defined.

(** An unrelated member of the room does not matter to [topic]. *)
Lemma auth_check_reads_auth_types_witness :
  auth_check (state_of (member "$c:c" carol "ban" alice :: room_state)) V6 topic = Ok true.
Proof.
  destruct (auth_check (state_of (member "$c:c" carol "ban" alice :: room_state)) V6 topic)
    as [b|] eqn:E; [|vm_compute in E; discriminate].
  f_equal. refine (auth_check_reads_auth_types _ (state_of room_state) V6 topic
    [(RoomPowerLevels, ""); (RoomMember, bob); (RoomCreate, "")] _ _ _ _ _ E _).
  - intros c fs [= <-]. reflexivity.
  - vm_compute. reflexivity.
  - intros ty k Hk. unfold state_of. cbn. rewrite !elem_of_cons in Hk.
    repeat destruct Hk as [[= -> ->]|Hk]; [vm_compute; reflexivity..|].
    inversion Hk.
  - vm_compute. reflexivity.
Defined.

End EventAuth.
