(* ===== verification/Sort.v ===== *)
(** The lexicographical topological sort of [matrix/state_res/sort.rs]: Kahn's
    algorithm over the auth graph with a heap of ready events. Its abstract
    specification is [greedy]: at every step the least ready event comes next.
    Hash maps and sets are iterated in an order [iter] about which nothing is
    known but that it enumerates the set. *)
From S2P Require Import Prelude Order Membership.
Export Order Membership.

Module Sort.

(** The order [HashMap] and [HashSet] iterate in. *)
Definition enumerates (iter : gset string -> list string) : Prop :=
  forall X, iter X ≡ₚ elements X.

Section Sort.
Context {P : Type} `{OrdLaws P}.

(** [TieBreaker], with the order of its [Ord]: more power first, then the
    earlier event, then the smaller id. *)
Record TieBreaker := mkTie {
  power_level : P;
  tie_origin_server_ts : Z;
  tie_event_id : string
}.

#[export] Instance ord_TieBreaker : Ord TieBreaker := fun self other =>
  then_cmp (cmp (power_level other) (power_level self))
    (then_cmp (cmp (tie_origin_server_ts self) (tie_origin_server_ts other))
       (cmp (tie_event_id self) (tie_event_id other))).

#[export] Instance ord_TieBreaker_laws : OrdLaws TieBreaker.
Proof.
  apply (ord_laws_via (fun t =>
    (MkReverse (power_level t), (tie_origin_server_ts t, tie_event_id t)))).
  - intros [] []. naive_solver.
  - done.
Qed.

Section Run.
Context (iter : gset string -> list string).
Context (key_fn : string -> result Error (P * Z)).

Abbreviation graph_t := (gmap string (gset string)) (only parsing).

Definition tie_of (node : string) : result Error TieBreaker :=
  k ← key_fn node; Ok (mkTie k.1 k.2 node).

(** [reverse_graph.entry(edge).or_default().insert(node)] for every edge. *)
Definition add_reverse_edges (node : string) (edges : list string) (rev : graph_t) : graph_t :=
  foldl (fun rev edge => <[edge := {[node]} ∪ default ∅ (rev !! edge)]> rev) rev edges.

(** The first loop: nodes without edges, and the reversed graph. *)
Fixpoint init_loop (graph : graph_t) (nodes : list string) (zero_outdegree : list TieBreaker)
    (rev : graph_t) : result Error (list TieBreaker * graph_t) :=
  match nodes with
  | [] => Ok (zero_outdegree, rev)
  | node :: nodes =>
      let edges := default ∅ (graph !! node) in
      zero ← (if decide (edges = ∅)
              then t ← tie_of node; Ok (zero_outdegree ++ [t])
              else Ok zero_outdegree);
      let rev := <[node := default ∅ (rev !! node)]> rev in
      init_loop graph nodes zero (add_reverse_edges node (iter edges) rev)
  end.

(** The inner loop of a pop: the node is taken off its parents' edges. *)
Fixpoint visit_parents (node : string) (parents : list string) (out : graph_t)
    (heap : list TieBreaker) : result Error (graph_t * list TieBreaker) :=
  match parents with
  | [] => Ok (out, heap)
  | parent :: parents =>
      o ← ok_or (out !! parent) Panic;
      let o := o ∖ {[node]} in
      let out := <[parent := o]> out in
      heap ← (if decide (o = ∅) then t ← tie_of parent; Ok (t :: heap) else Ok heap);
      visit_parents node parents out heap
  end.

(** The pop loop; every node is popped at most once. *)
Fixpoint sort_loop (fuel : nat) (rev : graph_t) (out : graph_t) (heap : list TieBreaker)
    (sorted : list string) : result Error (list string) :=
  match pop_least heap with
  | None => Ok sorted
  | Some (item, heap) =>
      match fuel with
      | O => Err Diverges
      | S fuel =>
          let node := tie_event_id item in
          parents ← ok_or (rev !! node) Panic;
          '(out, heap) ← visit_parents node (iter parents) out heap;
          sort_loop fuel rev out heap (sorted ++ [node])
      end
  end.

Definition lexicographical_topological_sort (graph : graph_t) : result Error (list string) :=
  '(zero_outdegree, rev) ← init_loop graph (iter (dom graph)) [] ∅;
  sort_loop (size graph) rev graph zero_outdegree [].

End Run.

(** ** Specification *)

Section Spec.
Context (graph : gmap string (gset string)) (key : string -> P * Z).

Definition tie (x : string) : TieBreaker := mkTie (key x).1 (key x).2 x.

(** [x] may come next: it is a node, not yet placed, and its edges are. *)
Definition ready (done : list string) (x : string) : Prop :=
  (x ∉ done) /\ exists E, graph !! x = Some E /\ forall y, y ∈ E -> y ∈ done.

(** The least ready node comes next, until none is ready. *)
Inductive greedy : list string -> list string -> Prop :=
  | greedy_nil done : (forall x, ~ ready done x) -> greedy done []
  | greedy_cons done x l :
      ready done x -> (forall y, ready done y -> ord_le (tie x) (tie y)) ->
      greedy (done ++ [x]) l -> greedy done (x :: l).

Lemma greedy_unique done l l' : greedy done l -> greedy done l' -> l = l'.
Proof.
  intros Hl. revert l'. induction Hl as [done Hn|done x l Hr Hmin Hl IH]; intros l' Hl';
    inversion Hl' as [? Hn'|? y k Hr' Hmin' Hk]; subst.
  - done.
  - by destruct (Hn y).
  - by destruct (Hn' x).
  - assert (E : tie x = tie y) by (apply ord_le_antisym; auto).
    injection E as _ _ ->. f_equal. by apply IH.
Qed.

Lemma greedy_sound done l :
  greedy done l -> NoDup done -> NoDup (done ++ l) /\
  (forall i x, l !! i = Some x -> exists E, graph !! x = Some E /\
     forall y, y ∈ E -> y ∈ done ++ take i l).
Proof.
  induction 1 as [done Hn|done x l Hr Hmin Hl IH]; intros Hnd.
  { rewrite app_nil_r. done. }
  destruct Hr as (Hx & E & HE & Hsub).
  destruct IH as [Hnd' Hpos].
  { apply NoDup_app. split_and!; [done|set_solver|apply NoDup_singleton]. }
  rewrite <-app_assoc in Hnd'. split; [done|].
  intros [|i] y Hy; cbn in Hy.
  - simplify_eq. exists E. split; [done|]. intros. apply elem_of_app. auto.
  - destruct (Hpos i y Hy) as (E' & ? & Hs). exists E'. split; [done|].
    intros z Hz. specialize (Hs z Hz). rewrite <-app_assoc in Hs. done.
Qed.

Lemma greedy_stuck done l : greedy done l -> forall x, ~ ready (done ++ l) x.
Proof.
  induction 1 as [done Hn|done x l Hr Hmin Hl IH]; [by rewrite app_nil_r|].
  intros y. specialize (IH y). by rewrite <-app_assoc in IH.
Qed.

(** Whatever is ready when [x] is placed is no less than [x]. *)
Lemma greedy_least done l i x y :
  greedy done l -> l !! i = Some x -> ready (done ++ take i l) y -> ord_le (tie x) (tie y).
Proof.
  intros Hg. revert i. induction Hg as [done Hn|done z l Hr Hmin Hl IH]; intros [|i] Hx Hy;
    cbn in *; simplify_eq; try done.
  - rewrite app_nil_r in Hy. auto.
  - apply (IH i Hx). by rewrite <-app_assoc.
Qed.

(** The edge relation: [y] must come before [x]. *)
Definition edge (y x : string) : Prop := exists E, graph !! x = Some E /\ y ∈ E.

Lemma greedy_complete l :
  (forall x y, edge y x -> is_Some (graph !! y)) -> well_founded edge ->
  greedy [] l -> forall x, is_Some (graph !! x) -> x ∈ l.
Proof.
  intros Hclosed Hwf Hg. induction x as [x IH] using (well_founded_ind Hwf). intros [E HE].
  destruct (decide (x ∈ l)) as [|Hx]; [done|]. exfalso.
  apply (greedy_stuck _ _ Hg x). split; [done|]. exists E. split; [done|].
  intros y Hy. assert (edge y x) by (exists E; done). eauto.
Qed.

End Spec.

Lemma NoDup_pop (l : list string) x : NoDup l -> x ∈ l -> l ≡ₚ x :: filter (.≠ x) l.
Proof.
  intros Hnd Hx. apply NoDup_Permutation; [done| |].
  - apply NoDup_cons. split; [|by apply NoDup_filter].
    rewrite list_elem_of_filter. by intros [? _].
  - intros y. rewrite elem_of_cons, list_elem_of_filter.
    destruct (decide (y = x)) as [->|]; naive_solver.
Qed.

(** ** Refinement *)

Section Refine.
Context (iter : gset string -> list string) (Hiter : enumerates iter).
Context (graph : gmap string (gset string)) (key : string -> P * Z).
Context (key_fn : string -> result Error (P * Z)).
Hypothesis Hkey : forall x, is_Some (graph !! x) -> key_fn x = Ok (key x).

#[local] Abbreviation tie := (tie key).
#[local] Abbreviation ready := (ready graph).
#[local] Abbreviation edge := (edge graph).
#[local] Abbreviation edges_of x := (default ∅ (graph !! x)).

Lemma iter_elem X x : x ∈ iter X <-> x ∈ X.
Proof. by rewrite (Hiter X), elem_of_elements. Qed.

Lemma tie_of_ok x : is_Some (graph !! x) -> tie_of key_fn x = Ok (tie x).
Proof. intros Hx. unfold tie_of. by rewrite Hkey. Qed.

Lemma tie_inj : Inj eq eq tie.
Proof. by intros x y [= _ _ ?]. Qed.

Lemma add_reverse_edges_lookup node es rev x p :
  (p ∈ default ∅ (add_reverse_edges node es rev !! x) <->
   p ∈ default ∅ (rev !! x) \/ (x ∈ es /\ p = node)) /\
  (is_Some (rev !! x) -> is_Some (add_reverse_edges node es rev !! x)).
Proof.
  revert rev. induction es as [|e es IH]; intros rev; cbn.
  { split; [|done]. set_solver. }
  destruct (IH (<[e:={[node]} ∪ default ∅ (rev !! e)]> rev)) as [IH1 IH2].
  destruct (decide (e = x)) as [->|Hne].
  - rewrite lookup_insert_eq in IH1, IH2. cbn in IH1. split; [|eauto].
    rewrite IH1. set_solver.
  - rewrite lookup_insert_ne in IH1, IH2 by done. split; [|done]. rewrite IH1. set_solver.
Qed.

(** The reversed graph of the nodes processed so far. *)
Definition rev_ok (processed : list string) (rev : gmap string (gset string)) : Prop :=
  forall x, (x ∈ processed -> is_Some (rev !! x)) /\
    forall p, p ∈ default ∅ (rev !! x) <-> p ∈ processed /\ edge x p.

Lemma init_loop_spec nodes processed zero rev :
  (forall x, x ∈ nodes -> is_Some (graph !! x)) -> rev_ok processed rev ->
  zero = tie <$> filter (fun x => edges_of x = ∅) processed ->
  exists rev', rev_ok (processed ++ nodes) rev' /\
    init_loop iter key_fn graph nodes zero rev =
      Ok (tie <$> filter (fun x => edges_of x = ∅) (processed ++ nodes), rev').
Proof.
  revert processed zero rev. induction nodes as [|n nodes IH]; intros processed zero rev Hn Hr ->.
  { rewrite app_nil_r. cbn. eauto. }
  cbn [init_loop].
  assert (Hz : (if decide (edges_of n = ∅)
     then t ← tie_of key_fn n;
          Ok ((tie <$> filter (fun x => edges_of x = ∅) processed) ++ [t])
     else Ok (tie <$> filter (fun x => edges_of x = ∅) processed))
     = Ok (tie <$> filter (fun x => edges_of x = ∅) (processed ++ [n]))).
  { rewrite filter_app, fmap_app, filter_cons. case_decide.
    - rewrite tie_of_ok by (apply Hn; left). done.
    - cbn. by rewrite app_nil_r. }
  rewrite Hz. cbn [mbind result_bind].
  destruct (IH (processed ++ [n])
    (tie <$> filter (fun x => edges_of x = ∅) (processed ++ [n])) (add_reverse_edges n (iter (edges_of n))
    (<[n := default ∅ (rev !! n)]> rev))) as (rev' & Hr' & Hl);
    [set_solver| |done|].
  - intros x. destruct (Hr x) as [Hr1 Hr2].
    destruct (add_reverse_edges_lookup n (iter (edges_of n))
      (<[n := default ∅ (rev !! n)]> rev) x n) as [_ Hsome].
    split.
    + intros Hx. apply Hsome. destruct (decide (x = n)) as [->|].
      * rewrite lookup_insert_eq. eauto.
      * rewrite lookup_insert_ne by done. apply Hr1. set_solver.
    + intros p. rewrite (proj1 (add_reverse_edges_lookup _ _ _ x p)).
      replace (default ∅ (<[n:=default ∅ (rev !! n)]> rev !! x)) with (default ∅ (rev !! x))
        by (destruct (decide (x = n)) as [->|];
            [by rewrite lookup_insert_eq|by rewrite lookup_insert_ne]).
      rewrite Hr2, iter_elem, elem_of_app, list_elem_of_singleton.
      assert (Hex : forall z, z ∈ edges_of n <-> edge z n).
      { intros z. destruct (Hn n) as [E HE]; [left|]. unfold edge. rewrite HE. cbn.
        naive_solver. }
      rewrite Hex. naive_solver.
  - rewrite <-app_assoc in Hr', Hl. exists rev'. done.
Qed.

(** The effect of a pop on the parents of the popped node. *)
Lemma visit_parents_spec n S ps out heap :
  NoDup ps ->
  (forall p, p ∈ ps -> exists E, graph !! p = Some E /\ out !! p = Some (E ∖ S)) ->
  exists out' heap',
    visit_parents key_fn n ps out heap = Ok (out', heap') /\
    (forall x, x ∉ ps -> out' !! x = out !! x) /\
    (forall p, p ∈ ps -> out' !! p = Some (edges_of p ∖ S ∖ {[n]})) /\
    heap' ≡ₚ (tie <$> filter (fun p => edges_of p ∖ S ∖ {[n]} = ∅) ps) ++ heap.
Proof.
  revert out heap. induction ps as [|p ps IH]; intros out heap Hnd Hp.
  { exists out, heap. set_solver. }
  apply NoDup_cons in Hnd as [Hnp Hnd]. cbn [visit_parents].
  destruct (Hp p) as (E & HE & Ho); [left|]. rewrite Ho. cbn [ok_or mbind result_bind].
  set (heap1 := if decide (E ∖ S ∖ {[n]} = ∅) then tie p :: heap else heap).
  assert (Hh : (if decide (E ∖ S ∖ {[n]} = ∅) then t ← tie_of key_fn p; Ok (t :: heap)
                else Ok heap) = Ok heap1).
  { unfold heap1. case_decide; [|done]. by rewrite tie_of_ok by eauto. }
  rewrite Hh. cbn [mbind result_bind].
  destruct (IH (<[p:=E ∖ S ∖ {[n]}]> out) heap1 Hnd) as (out' & heap' & Hv & Hn & Hy & Hheap).
  { intros q Hq. destruct (Hp q) as (E' & ? & ?); [by right|]. exists E'.
    rewrite lookup_insert_ne by set_solver. done. }
  exists out', heap'. split_and!; [done|..].
  - intros x Hx. rewrite Hn by set_solver. apply lookup_insert_ne. set_solver.
  - intros q [->|Hq]%elem_of_cons; [|by apply Hy].
    rewrite Hn, lookup_insert_eq by done. by rewrite HE.
  - rewrite Hheap, filter_cons, HE. unfold heap1. cbn. case_decide; [|done].
    cbn. by rewrite Permutation_middle.
Qed.

(** The state between two pops. *)
Record sort_inv (out : gmap string (gset string)) (heap : list TieBreaker)
    (sorted : list string) : Prop := {
  inv_out x E : graph !! x = Some E -> out !! x = Some (E ∖ list_to_set sorted);
  inv_heap : heap ≡ₚ tie <$> filter (fun x => edges_of x ⊆ list_to_set sorted /\ x ∉ sorted)
                (elements (dom graph));
  inv_closed x : x ∈ sorted -> exists E, graph !! x = Some E /\ E ⊆ list_to_set sorted;
  inv_nodup : NoDup sorted
}.

Lemma ready_filter sorted x :
  ready sorted x <-> x ∈ filter (fun x => edges_of x ⊆ list_to_set sorted /\ x ∉ sorted)
    (elements (dom graph)).
Proof.
  rewrite list_elem_of_filter, elem_of_elements, elem_of_dom. unfold Sort.ready. split.
  - intros (Hx & E & HE & Hs). rewrite HE. cbn. set_solver.
  - intros ([Hs Hx] & [E HE]). rewrite HE in Hs. cbn in Hs. set_solver.
Qed.

(** The ready nodes, in the order of the nodes. *)
#[local] Abbreviation ready_nodes sorted :=
  (filter (fun x => edges_of x ⊆ list_to_set sorted%list /\ x ∉ sorted%list)
     (elements (dom graph))).

Lemma ready_nodes_NoDup sorted : NoDup (ready_nodes sorted).
Proof. apply NoDup_filter, NoDup_elements. Qed.

Lemma ready_nodes_pop sorted x :
  ready sorted x -> ready_nodes sorted ≡ₚ x :: filter (.≠ x) (ready_nodes sorted).
Proof. intros ?%ready_filter. apply NoDup_pop; [apply ready_nodes_NoDup|done]. Qed.

(** Popping [x] makes exactly its satisfied parents ready. *)
Lemma ready_nodes_step sorted x ps :
  (forall y, y ∈ sorted -> exists E, graph !! y = Some E /\ E ⊆ list_to_set sorted) ->
  ready sorted x -> NoDup ps -> (forall p, p ∈ ps <-> edge x p) ->
  filter (fun p => edges_of p ∖ list_to_set sorted ∖ {[x]} = ∅) ps
    ++ filter (.≠ x) (ready_nodes sorted) ≡ₚ ready_nodes (sorted ++ [x]).
Proof.
  intros Hcl Hx Hnd Hps. destruct Hx as (Hxs & Ex & HEx & Hsub).
  assert (Hp : forall p, p ∈ ps -> exists E, graph !! p = Some E /\ x ∈ E)
    by (intros p Hp; by apply Hps).
  apply NoDup_Permutation.
  - apply NoDup_app. split_and!; [by apply NoDup_filter| |apply NoDup_filter, ready_nodes_NoDup].
    intros p [_ Hpp]%list_elem_of_filter [_ Hr]%list_elem_of_filter.
    apply ready_filter in Hr as (_ & E & HE & HsE).
    destruct (Hp p Hpp) as (E' & ? & Hin). simplify_eq. by apply Hxs, HsE.
  - apply ready_nodes_NoDup.
  - intros y. rewrite elem_of_app, !list_elem_of_filter.
    rewrite elem_of_elements, elem_of_dom, list_to_set_app_L, elem_of_app,
      list_elem_of_singleton. cbn [list_to_set]. split.
    + intros [[He Hy]|[Hne [[Hs Hy] Hd]]]; [|set_solver].
      destruct (Hp y Hy) as (E & HE & Hin). rewrite HE in *. cbn in *.
      assert (y ∉ sorted).
      { intros Hys. destruct (Hcl y Hys) as (E' & ? & HsE). simplify_eq. set_solver. }
      assert (y <> x) by (intros ->; simplify_eq; by apply Hxs, Hsub).
      split_and!; [|set_solver|eauto].
      intros z Hz. destruct (decide (z ∈ sorted)); [set_solver|].
      destruct (decide (z = x)); set_solver.
    + intros ([Hs Hy] & [E HE]). rewrite HE in *. cbn in *.
      destruct (decide (x ∈ E)) as [Hin|Hin].
      * left. split; [set_solver|]. apply Hps. by exists E.
      * right. split_and!; [set_solver..|eauto].
Qed.

Lemma sort_step rev out heap sorted item heap1 :
  rev_ok (iter (dom graph)) rev -> sort_inv out heap sorted ->
  pop_least heap = Some (item, heap1) ->
  exists x parents out' heap',
    item = tie x /\ ready sorted x /\
    (forall y, ready sorted y -> ord_le (tie x) (tie y)) /\
    rev !! x = Some parents /\
    visit_parents key_fn x (iter parents) out heap1 = Ok (out', heap') /\
    sort_inv out' heap' (sorted ++ [x]).
Proof.
  intros Hrev [Hout Hheap Hcl Hnd] [Hperm Hmin]%pop_least_Some.
  assert (Hit : item ∈ tie <$> ready_nodes sorted) by (rewrite <-Hheap, Hperm; left).
  apply list_elem_of_fmap in Hit as (x & -> & Hx). apply ready_filter in Hx.
  pose proof Hx as (Hxs & Ex & HEx & Hsub).
  destruct (Hrev x) as [Hsome Hpar].
  destruct Hsome as [parents Hparents]; [apply iter_elem, elem_of_dom; eauto|].
  rewrite Hparents in Hpar. cbn in Hpar.
  assert (Hps : forall p, p ∈ iter parents <-> edge x p).
  { intros p. rewrite iter_elem, Hpar, iter_elem, elem_of_dom. unfold Sort.edge. naive_solver. }
  assert (Hndp : NoDup (iter parents)) by (rewrite (Hiter parents); apply NoDup_elements).
  destruct (visit_parents_spec x (list_to_set sorted) (iter parents) out heap1 Hndp)
    as (out' & heap' & Hv & Hn & Hy & Hh).
  { intros p (E & HE & _)%Hps. eauto. }
  exists x, parents, out', heap'. split_and!; [done|done| |done|done|].
  { intros y Hy'%ready_filter. rewrite Forall_forall in Hmin. apply Hmin.
    rewrite Hheap. by apply list_elem_of_fmap_2. }
  split.
  - intros y E HE. rewrite list_to_set_app_L. cbn [list_to_set].
    replace (E ∖ (list_to_set sorted ∪ ({[x]} ∪ ∅))) with (E ∖ list_to_set sorted ∖ {[x]})
      by set_solver.
    destruct (decide (y ∈ iter parents)) as [Hin|Hnin].
    + rewrite Hy by done. by rewrite HE.
    + rewrite Hn by done. rewrite (Hout y E HE). f_equal.
      assert (x ∉ E) by (intros ?; apply Hnin, Hps; by exists E). set_solver.
  - rewrite Hh, <-(ready_nodes_step sorted x (iter parents)) by done.
    rewrite fmap_app. apply Permutation_app; [done|].
    apply (Permutation_cons_inv (a := tie x)).
    by rewrite <-Hperm, Hheap, (ready_nodes_pop sorted x Hx) at 1.
  - intros y [Hin| ->%list_elem_of_singleton]%elem_of_app.
    + destruct (Hcl y Hin) as (E & ? & ?). exists E. set_solver.
    + exists Ex. set_solver.
  - apply NoDup_app. split_and!; [done|set_solver|apply NoDup_singleton].
Qed.

Lemma sorted_size sorted out heap :
  sort_inv out heap sorted -> (length sorted <= size graph)%nat.
Proof.
  intros [_ _ Hcl Hnd].
  rewrite <-size_dom, <-(size_list_to_set (C := gset string) sorted Hnd).
  apply subseteq_size. intros x Hx%elem_of_list_to_set.
  destruct (Hcl x Hx) as (E & HE & _). apply elem_of_dom. eauto.
Qed.

Lemma sort_loop_spec fuel rev out heap sorted :
  rev_ok (iter (dom graph)) rev -> sort_inv out heap sorted ->
  (size graph <= fuel + length sorted)%nat ->
  exists l, sort_loop iter key_fn fuel rev out heap sorted = Ok (sorted ++ l) /\
    greedy graph key sorted l.
Proof.
  intros Hrev. revert out heap sorted. induction fuel as [|fuel IH]; intros out heap sorted Hinv Hf;
    cbn [sort_loop]; destruct (pop_least heap) as [[item heap1]|] eqn:Epop.
  - destruct (sort_step _ _ _ _ _ _ Hrev Hinv Epop) as (x & ? & ? & ? & _ & _ & _ & _ & _ & Hi).
    apply sorted_size in Hi. rewrite length_app in Hi. cbn in Hi. lia.
  - exists []. rewrite app_nil_r. split; [done|]. constructor. intros x Hx%ready_filter.
    apply pop_least_None in Epop as ->. pose proof (inv_heap _ _ _ Hinv) as Hp.
    apply Permutation_nil_l, symmetry, fmap_nil_inv in Hp. rewrite Hp in Hx. set_solver.
  - destruct (sort_step _ _ _ _ _ _ Hrev Hinv Epop)
      as (x & parents & out' & heap' & -> & Hr & Hmin & Hpar & Hv & Hi).
    cbn [tie_event_id Sort.tie]. rewrite Hpar. cbn [ok_or mbind result_bind].
    rewrite Hv. cbn [mbind result_bind].
    destruct (IH _ _ _ Hi) as (l & Hl & Hg); [rewrite length_app; cbn; lia|].
    exists (x :: l). rewrite Hl, <-app_assoc. split; [done|]. by constructor.
  - exists []. rewrite app_nil_r. split; [done|]. constructor. intros x Hx%ready_filter.
    apply pop_least_None in Epop as ->. pose proof (inv_heap _ _ _ Hinv) as Hp.
    apply Permutation_nil_l, symmetry, fmap_nil_inv in Hp. rewrite Hp in Hx. set_solver.
Qed.

Lemma sort_refines :
  exists l, lexicographical_topological_sort iter key_fn graph = Ok l /\
    greedy graph key [] l.
Proof.
  unfold lexicographical_topological_sort.
  destruct (init_loop_spec (iter (dom graph)) [] [] ∅) as (rev & Hrev & Hinit).
  { intros x Hx%iter_elem. by apply elem_of_dom. }
  { intros x. rewrite lookup_empty. set_solver. }
  { done. }
  rewrite Hinit. cbn [mbind result_bind]. cbn [app].
  apply sort_loop_spec; [done| |cbn; lia]. split.
  - intros x E HE. rewrite HE. f_equal. set_solver.
  - apply fmap_Permutation. rewrite (Hiter (dom graph)).
    erewrite list_filter_iff; [done|]. intros x. set_solver.
  - set_solver.
  - constructor.
Qed.

End Refine.
End Sort.

(** ** Properties *)

(** C9: the sort terminates without error whenever every event's key can be
    read, in whatever order the hash maps are iterated, and its result is the
    greedy one: each event is the least, by power, time and id, of those whose
    edges have all been placed. *)
Theorem topo_sort_refines {P} `{OrdLaws P} iter graph (key : string -> P * Z) key_fn :
  enumerates iter -> (forall x, is_Some (graph !! x) -> key_fn x = Ok (key x)) ->
  exists l, lexicographical_topological_sort iter key_fn graph = Ok l /\
    greedy graph key [] l.
Proof. intros Hi Hk. by apply sort_refines. Qed.

(** On a graph that is acyclic and closed under its edges the sort returns
    every node exactly once, each after all its edges, and the result does not
    depend on the order the hash maps are iterated in. *)
Theorem topo_sort_dag {P} `{OrdLaws P} iter iter' graph (key : string -> P * Z) key_fn :
  enumerates iter -> enumerates iter' ->
  (forall x, is_Some (graph !! x) -> key_fn x = Ok (key x)) ->
  (forall x y, edge graph y x -> is_Some (graph !! y)) -> well_founded (edge graph) ->
  exists l, lexicographical_topological_sort iter key_fn graph = Ok l /\
    lexicographical_topological_sort iter' key_fn graph = Ok l /\
    l ≡ₚ elements (dom graph) /\
    (forall i x y, l !! i = Some x -> edge graph y x -> y ∈ take i l).
Proof.
  intros Hi Hi' Hk Hcl Hwf.
  destruct (sort_refines iter Hi graph key key_fn Hk) as (l & Hl & Hg).
  destruct (sort_refines iter' Hi' graph key key_fn Hk) as (l' & Hl' & Hg').
  rewrite <-(greedy_unique _ _ _ _ _ Hg Hg') in Hl'.
  destruct (greedy_sound _ _ _ _ Hg) as [Hnd Hpos]; [constructor|].
  exists l. split_and!; [done|done| |].
  - apply NoDup_Permutation; [done|apply NoDup_elements|]. intros x.
    rewrite elem_of_elements, elem_of_dom. split.
    + intros [j Hj]%list_elem_of_lookup. destruct (Hpos j x Hj) as (E & HE & _). eauto.
    + by apply greedy_complete with (key := key).
  - intros j x y Hj (E & HE & Hy). destruct (Hpos j x Hj) as (E' & HE' & Hs).
    simplify_eq. by apply Hs.
Qed.

(** Three events: [c] refers to [a] and [b], of which [b]'s sender has more
    power. *)
Definition sample_graph : gmap string (gset string) :=
  <["a" := ∅]> (<["b" := ∅]> (<["c" := {["a"; "b"]}]> ∅)).
Definition sample_key (x : string) : Z * Z :=
  (if bool_decide (x = "b") then 100 else 0, 7).

Example sample_sorted :
  lexicographical_topological_sort elements (fun x => Ok (sample_key x)) sample_graph
  = Ok ["b"; "a"; "c"].
Proof. vm_compute. reflexivity. Qed.

Lemma topo_sort_refines_witness :
  exists l, lexicographical_topological_sort elements (fun x => Ok (sample_key x))
    sample_graph = Ok l /\ greedy sample_graph sample_key [] l.
Proof.
  apply (topo_sort_refines elements sample_graph sample_key); [intros X; reflexivity|].
  intros x _. reflexivity.
Defined.

Lemma topo_sort_dag_witness :
  exists l, lexicographical_topological_sort (fun X => reverse (elements X))
    (fun x => Ok (sample_key x)) sample_graph = Ok l /\ l ≡ₚ elements (dom sample_graph).
Proof.
  assert (He : forall y x, edge sample_graph y x -> x = "c" /\ (y = "a" \/ y = "b")).
  { intros y x (E & HE & Hy). unfold sample_graph in HE.
    apply lookup_insert_Some in HE as [[<- <-]|[? HE]]; [set_solver|].
    apply lookup_insert_Some in HE as [[<- <-]|[? HE]]; [set_solver|].
    apply lookup_insert_Some in HE as [[<- <-]|[? HE]]; [|done].
    split; [done|set_solver]. }
  destruct (topo_sort_dag elements (fun X => reverse (elements X)) sample_graph sample_key
    (fun x => Ok (sample_key x))) as (l & _ & Hl & Hp & _).
  - intros X. reflexivity.
  - intros X. apply reverse_Permutation.
  - reflexivity.
  - intros x y [_ [->| ->]]%He; vm_compute; eauto.
  - intros x. constructor. intros y [-> [->| ->]]%He;
      constructor; intros z [[=] _]%He.
  - exists l. split; [exact Hl|exact Hp].
Defined.

End Sort.
