(* ===== verification/Store.v ===== *)
(** The events state resolution can fetch ([event_fetch], [fetch_event] of
    [matrix/state_res]): a finite map from ids to events, the graph its
    [auth_events] form, and the sums the loops over it are measured by. *)
From S2P Require Import Prelude Event.
Export Event.

Module Store.

Abbreviation EventStore := (gmap string Event) (only parsing).

(** The ids an event names as its auth events; none when it is not there. *)
Definition auth_of (store : EventStore) (id : string) : list string :=
  match store !! id with Some ev => auth_events ev | None => [] end.

(** Events are stored under their own id. *)
Definition keyed (store : EventStore) : Prop :=
  forall id ev, store !! id = Some ev -> event_id ev = id.

(** No event is among its own ancestors: ids are hashes over the auth events, so
    every event is of a higher rank than those it names. *)
Definition ranked (store : EventStore) (rank : string -> nat) : Prop :=
  forall id a, a ∈ auth_of store id -> (rank a < rank id)%nat.

(** The two conditions, decided on a concrete store. *)
Definition ranked_check (store : EventStore) (rank : string -> nat) : bool :=
  forallb (fun p : string * Event =>
    forallb (fun a => rank a <? rank p.1)%nat (auth_events p.2)) (map_to_list store).

Lemma ranked_checked store rank : ranked_check store rank = true -> ranked store rank.
Proof.
  unfold ranked_check, ranked, auth_of. rewrite forallb_forall. intros Hc id a Ha.
  destruct (store !! id) as [ev|] eqn:E; [|by apply elem_of_nil in Ha].
  apply elem_of_map_to_list, list_elem_of_In, Hc in E. rewrite forallb_forall in E.
  by apply list_elem_of_In, E, Nat.ltb_lt in Ha.
Qed.

Definition keyed_check (store : EventStore) : bool :=
  forallb (fun p : string * Event => bool_decide (event_id p.2 = p.1)) (map_to_list store).

Lemma keyed_checked store : keyed_check store = true -> keyed store.
Proof.
  unfold keyed_check, keyed. rewrite forallb_forall. intros Hc id ev E.
  apply elem_of_map_to_list, list_elem_of_In, Hc in E. by apply bool_decide_eq_true in E.
Qed.

(** ** Sums over sets *)

Definition weight (f : string -> nat) (X : gset string) : nat :=
  sum_list_with f (elements X).

Lemma sum_list_with_perm (f : string -> nat) k l :
  k ≡ₚ l -> sum_list_with f k = sum_list_with f l.
Proof. induction 1; cbn; lia. Qed.

Lemma weight_remove f X x :
  x ∈ X -> weight f X = (f x + weight f (X ∖ {[x]}))%nat.
Proof.
  intros Hx. unfold weight.
  rewrite (sum_list_with_perm f (elements X) (x :: elements (X ∖ {[x]}))); [done|].
  rewrite <-elements_union_singleton by set_solver.
  by rewrite <-(union_difference_singleton_L x X Hx).
Qed.

Lemma weight_mono f X Y : X ⊆ Y -> (weight f X <= weight f Y)%nat.
Proof.
  revert Y. induction X as [|x X Hx IH] using set_ind_L; intros Y HY.
  { unfold weight. rewrite elements_empty. cbn. lia. }
  rewrite (weight_remove f Y x) by set_solver.
  rewrite (weight_remove f ({[x]} ∪ X) x) by set_solver.
  replace (({[x]} ∪ X) ∖ {[x]}) with X by set_solver.
  pose proof (IH (Y ∖ {[x]}) ltac:(set_solver)). lia.
Qed.

End Store.
