(* ===== verification/PowerSort.v ===== *)
(** The power-event half of [matrix/state_res/sort.rs] and the power-event tests
    of [matrix/state_res/mod.rs]: which events are power events, the auth graph
    of the conflicted ones, their senders' power, and their sort. *)
From S2P Require Import Prelude Order Event PowerLevels EventAuth Store Sort Sample.
Export PowerLevels Levels Membership EventAuth Store Sort.

Module PowerSort.

Section Power.
Context `{Identifiers, Json, Signatures}.
Context (store : EventStore).
Context (iter : gset string -> list string).
(** The order in which [buffer_unordered] completes fetches. *)
Context (unordered : list Event -> list Event).

Definition is_power_event (event : Event) : bool :=
  if bool_decide (event_type event = RoomPowerLevels)
     || bool_decide (event_type event = RoomJoinRules)
     || bool_decide (event_type event = RoomCreate)
  then bool_decide (state_key event = Some "")
  else if bool_decide (event_type event = RoomMember) then
    match json_member_event (content event) with
    | Some m =>
        (bool_decide (m = Leave) || bool_decide (m = Ban))
        && negb (bool_decide (Some (sender event) = state_key event))
    | None => false
    end
  else false.

Definition is_power_event_id (id : string) : bool :=
  match store !! id with Some ev => is_power_event ev | None => false end.

Definition is_room_creator (room_version : RoomVersion) (create : Event) (sender_ : UserId) :
    bool :=
  if use_room_create_sender room_version then bool_decide (sender create = sender_)
  else bool_decide (json_creator (content create) = Some (Some sender_)).

(** The version-12 rule: the sender is a creator of the room its id names. *)
Definition is_privileged (room_version : RoomVersion) (event : option Event) : bool :=
  match event with
  | Some ev =>
      explicitly_privilege_room_creators room_version &&
      match create_event_id_of (room_id ev) ≫= (fun id => store !! id) with
      | Some create =>
          existsb (fun creator => bool_decide (creator = sender ev))
            (privileged_creators room_version create)
      | None => false
      end
  | None => false
  end.

Definition get_power_level_for_sender (room_version : RoomVersion) (id : string) :
    result Error UserPower :=
  let event := store !! id in
  let auths := unordered (omap (fun a => store !! a) (auth_of store id)) in
  if is_privileged room_version event then Ok Infinite else
  match List.find (fun aev => is_type_and_key aev RoomPowerLevels "") auths with
  | None =>
      let is_creator :=
        match List.find (fun aev => is_type_and_key aev RoomCreate "") auths, event with
        | Some create, Some ev => is_room_creator room_version create (sender ev)
        | _, _ => false
        end in
      Ok (Level (if is_creator then 100 else 0))
  | Some ev =>
      c ← decoded (json_power_fields (content ev));
      let c := fields_of c in
      Ok (match event ≫= (fun ev => get_user_power c (sender ev)) with
          | Some user_level => Level user_level
          | None => Level (users_default c)
          end)
  end.

(** ** The auth graph of the power events *)

Section Graph.
Context (auth_diff : gset string).

(** One auth event of [eid]. *)
Definition visit_auth (eid : string) (gs : gmap string (gset string) * list string)
    (aid : string) : gmap string (gset string) * list string :=
  let '(graph, state) := gs in
  if decide (aid ∈ auth_diff) then
    let state := if decide (is_Some (graph !! aid)) then state else aid :: state in
    (<[eid := {[aid]} ∪ default ∅ (graph !! eid)]> graph, state)
  else (graph, state).

(** The loop; the head of the list is the top of the stack. *)
Fixpoint add_loop (fuel : nat) (graph : gmap string (gset string)) (state : list string) :
    result Error (gmap string (gset string)) :=
  match state with
  | [] => Ok graph
  | eid :: state =>
      match fuel with
      | O => Err Diverges
      | S fuel =>
          let graph := <[eid := default ∅ (graph !! eid)]> graph in
          let '(graph, state) := foldl (visit_auth eid) (graph, state) (auth_of store eid) in
          add_loop fuel graph state
      end
  end.

(** A node is expanded once, and expanding it pushes at most its auth events. *)
Definition add_fuel (event_id_ : string) : nat :=
  S (weight (fun x => length (auth_of store x)) ({[event_id_]} ∪ auth_diff)).

Definition add_event_and_auth_chain_to_graph (graph : gmap string (gset string))
    (event_id_ : string) : result Error (gmap string (gset string)) :=
  add_loop (add_fuel event_id_) graph [event_id_].

Fixpoint build_graph (graph : gmap string (gset string)) (events_to_sort : list string) :
    result Error (gmap string (gset string)) :=
  match events_to_sort with
  | [] => Ok graph
  | e :: l => graph ← add_event_and_auth_chain_to_graph graph e; build_graph graph l
  end.

End Graph.

(** [event_to_pl]: the power of every event's sender, or the first error. *)
Fixpoint sender_powers (room_version : RoomVersion) (ids : list string) :
    result Error (gmap string UserPower) :=
  match ids with
  | [] => Ok ∅
  | id :: ids =>
      pl ← get_power_level_for_sender room_version id;
      m ← sender_powers room_version ids;
      Ok (<[id := pl]> m)
  end.

(** [fetcher] *)
Definition sort_key (event_to_pl : gmap string UserPower) (id : string) :
    result Error (UserPower * Z) :=
  pl ← ok_or (event_to_pl !! id) NotFound;
  ev ← ok_or (store !! id) NotFound;
  Ok (pl, origin_server_ts ev).

Definition reverse_topological_power_sort (room_version : RoomVersion)
    (events_to_sort : list string) (auth_diff : gset string) : result Error (list string) :=
  graph ← build_graph auth_diff ∅ events_to_sort;
  event_to_pl ← sender_powers room_version (iter (dom graph));
  lexicographical_topological_sort iter (sort_key event_to_pl) graph.

End Power.

(** ** The graph is the conflicted part of the auth chains *)

Section GraphSpec.
Context (store : EventStore) (auth_diff : gset string).

(** [c] is an auth event of [x] inside the full conflicted set. *)
Definition child (x c : string) : Prop := c ∈ auth_of store x /\ c ∈ auth_diff.
Definition children (x : string) : gset string :=
  list_to_set (filter (.∈ auth_diff) (auth_of store x)).

Lemma children_spec x c : c ∈ children x <-> child x c.
Proof. unfold children, child. rewrite elem_of_list_to_set, list_elem_of_filter. tauto. Qed.

(** The inner loop: the edges of [eid] grow, unseen auth events are pushed. *)
Lemma visit_auths_spec eid l graph state E :
  graph !! eid = Some E ->
  exists pushes,
    foldl (visit_auth auth_diff eid) (graph, state) l =
      (<[eid := E ∪ list_to_set (filter (.∈ auth_diff) l)]> graph, pushes ++ state) /\
    (length pushes <= length l)%nat /\
    (forall p, p ∈ pushes <-> p ∈ l /\ p ∈ auth_diff /\ graph !! p = None).
Proof.
  revert graph state E. induction l as [|a l IH]; intros graph state E HE; cbn [foldl].
  { exists []. rewrite filter_nil. cbn. rewrite union_empty_r_L, insert_id by done.
    set_solver. }
  unfold visit_auth at 2. destruct (decide (a ∈ auth_diff)) as [Ha|Ha].
  - destruct (IH (<[eid := {[a]} ∪ default ∅ (graph !! eid)]> graph)
      (if decide (is_Some (graph !! a)) then state else a :: state) ({[a]} ∪ E))
      as (pushes & Hf & Hlen & Hp).
    { rewrite lookup_insert_eq, HE. done. }
    rewrite Hf, filter_cons_True by done. rewrite insert_insert_eq.
    assert (Hnone : forall p, <[eid:={[a]} ∪ default ∅ (graph !! eid)]> graph !! p = None
      <-> graph !! p = None).
    { intros p. rewrite lookup_insert_None. split; [tauto|]. intros Hn. split; [done|].
      intros ->. congruence. }
    exists (if decide (is_Some (graph !! a)) then pushes else pushes ++ [a]).
    split_and!.
    + f_equal; [f_equal; set_solver|]. case_decide; [done|]. by rewrite <-app_assoc.
    + case_decide; [|rewrite length_app]; cbn; lia.
    + intros p. case_decide as Hd.
      * rewrite Hp, Hnone, elem_of_cons. split; [tauto|]. intros ([->|] & ? & Hn); [|done].
        rewrite Hn in Hd. by destruct Hd.
      * rewrite elem_of_app, list_elem_of_singleton, Hp, Hnone, elem_of_cons.
        apply eq_None_not_Some in Hd. naive_solver.
  - destruct (IH graph state E HE) as (pushes & Hf & Hlen & Hp).
    rewrite Hf, filter_cons_False by done. exists pushes. cbn.
    split_and!; [done|lia|]. intros p. rewrite Hp, elem_of_cons. naive_solver.
Qed.

Section Loop.
Context (U : gset string) (Q : string -> Prop).
Hypothesis HQ : forall x c, Q x -> child x c -> Q c.
Hypothesis HU : auth_diff ⊆ U.

#[local] Abbreviation deg := (fun x => length (auth_of store x)).

(** Every auth event of a seen node on the stack is seen, or above it. *)
Fixpoint above_ok (G : string -> Prop) (above state : list string) : Prop :=
  match state with
  | [] => True
  | x :: state =>
      (G x -> forall c, child x c -> G c \/ c ∈ above) /\ above_ok G (x :: above) state
  end.

Lemma above_ok_unseen (G : string -> Prop) above pushes state :
  (forall x, x ∈ pushes -> ~ G x) -> above_ok G (reverse pushes ++ above) state ->
  above_ok G above (pushes ++ state).
Proof.
  revert above. induction pushes as [|x pushes IH]; intros above Hx Ha; cbn; [done|].
  split.
  - intros Hg. by destruct (Hx x ltac:(left)).
  - apply IH; [set_solver|]. by rewrite reverse_cons, <-app_assoc in Ha.
Qed.

Lemma above_ok_mono (G G' : string -> Prop) above above' state :
  above_ok G above state ->
  (forall x, x ∈ above -> x ∈ above' \/ G' x) -> (forall x, G x -> G' x) ->
  (forall x, x ∈ state -> G' x -> ~ G x -> forall c, child x c -> G' c \/ c ∈ above') ->
  (forall x, G x \/ ~ G x) ->
  above_ok G' above' state.
Proof.
  revert above above'. induction state as [|x state IH]; intros above above' Ha Hab HG Hnew Hdec;
    cbn; [done|]. destruct Ha as [Hx Ha]. split.
  - intros Hg' c Hc. destruct (Hdec x) as [Hg|Hg].
    + destruct (Hx Hg c Hc) as [|Hin]; [auto|]. destruct (Hab c Hin); auto.
    + apply (Hnew x); [left|done..].
  - eapply IH; [done| |done| |done].
    + intros y [->|Hy]%elem_of_cons; [left; left|]. destruct (Hab y Hy); [left; by right|auto].
    + intros y Hy Hg Hn c Hc. destruct (Hnew y ltac:(by right) Hg Hn c Hc); [auto|].
      right. by right.
Qed.

Record add_inv (graph : gmap string (gset string)) (state : list string) : Prop := {
  ai_edges x E : graph !! x = Some E -> E = children x;
  ai_above : above_ok (fun x => is_Some (graph !! x)) [] state;
  ai_closed x c : is_Some (graph !! x) -> child x c -> is_Some (graph !! c) \/ c ∈ state;
  ai_univ x : x ∈ state -> x ∈ U /\ Q x
}.

(** Expanding a node pays for what it pushes. *)
Lemma add_measure (graph : gmap string (gset string)) eid E (pushes : list string) :
  eid ∈ U -> (length pushes <= deg eid)%nat -> (is_Some (graph !! eid) -> pushes = []) ->
  (length pushes + weight deg (U ∖ dom (<[eid := E]> graph)) < S (weight deg (U ∖ dom graph)))%nat.
Proof.
  intros Hu Hlen Hseen. rewrite dom_insert_L. destruct (decide (eid ∈ dom graph)) as [HE|HE].
  - replace ({[eid]} ∪ dom graph) with (dom graph) by set_solver.
    rewrite Hseen by (by apply elem_of_dom). cbn. lia.
  - rewrite (weight_remove deg (U ∖ dom graph) eid) by set_solver.
    replace (U ∖ ({[eid]} ∪ dom graph)) with (U ∖ dom graph ∖ {[eid]}) by set_solver. lia.
Qed.

(** A node seen before pushes nothing: its auth events are all in the graph. *)
Lemma add_step graph eid state :
  add_inv graph (eid :: state) ->
  exists pushes,
    let graph' := <[eid := children eid]> graph in
    foldl (visit_auth auth_diff eid) (<[eid := default ∅ (graph !! eid)]> graph, state)
      (auth_of store eid) = (graph', pushes ++ state) /\
    add_inv graph' (pushes ++ state) /\
    (length (pushes ++ state) + weight deg (U ∖ dom graph')
     < length (eid :: state) + weight deg (U ∖ dom graph))%nat.
Proof.
  intros [He Ha Hc Hu].
  destruct (visit_auths_spec eid (auth_of store eid)
    (<[eid := default ∅ (graph !! eid)]> graph) state (default ∅ (graph !! eid)))
    as (pushes & Hf & Hlen & Hp); [apply lookup_insert_eq|].
  exists pushes. cbv zeta.
  assert (Hedges : default ∅ (graph !! eid) ∪ list_to_set
      (filter (.∈ auth_diff) (auth_of store eid)) = children eid).
  { fold (children eid). destruct (graph !! eid) as [E|] eqn:HE; cbn; [|set_solver].
    apply He in HE. set_solver. }
  rewrite Hedges, insert_insert_eq in Hf. rewrite Hf. split; [done|].
  pose proof (insert_is_Some graph eid (children eid)) as Hsome.
  assert (Hpush : forall p, p ∈ pushes <-> child eid p /\ p <> eid /\ graph !! p = None).
  { intros p. rewrite Hp, lookup_insert_None. unfold child. naive_solver. }
  assert (Hin : forall c, child eid c ->
    is_Some (<[eid:=children eid]> graph !! c) \/ c ∈ pushes).
  { intros c Hch. rewrite Hsome, Hpush. destruct (graph !! c) eqn:?; eauto.
    destruct (decide (c = eid)); eauto. }
  destruct Ha as [Heid Ha]. split; [split|].
  - intros x E. rewrite lookup_insert_Some. naive_solver.
  - apply above_ok_unseen.
    { intros x (_ & Hne & Hn)%Hpush. rewrite Hsome, Hn. intros [?|[? [=]]]. done. }
    eapply above_ok_mono; [exact Ha|..].
    + intros x ->%list_elem_of_singleton. right. apply Hsome. by left.
    + intros x Hx. apply Hsome. by right.
    + intros x _ [->|Hx]%Hsome Hn c Hch; [|done].
      destruct (Hin c Hch) as [|Hcp]; [by left|]. right.
      rewrite app_nil_r. by apply elem_of_reverse.
    + intros x. cbn. destruct (graph !! x); [left; eauto|right; by intros [? [=]]].
  - intros x c [->|Hx]%Hsome Hch; [destruct (Hin c Hch); set_solver|].
    destruct (Hc x c Hx Hch) as [|[->|]%elem_of_cons]; rewrite ?Hsome; set_solver.
  - intros x [Hx%Hpush|Hx]%elem_of_app; [|apply Hu; by right].
    split; [apply HU, Hx|]. eapply HQ; [|apply Hx]. apply Hu. left.
  - rewrite length_app. cbn [length].
    enough (length pushes + weight deg (U ∖ dom (<[eid := children eid]> graph))
      < S (weight deg (U ∖ dom graph)))%nat by lia.
    apply add_measure; [apply Hu; left|done|]. intros HE.
    destruct pushes as [|p pushes]; [done|]. exfalso.
    destruct (proj1 (Hpush p) ltac:(left)) as (Hch & _ & Hn).
    destruct (Heid HE p Hch) as [[? ?]|]; [congruence|set_solver].
Qed.

Lemma add_loop_spec fuel graph state :
  add_inv graph state -> (length state + weight deg (U ∖ dom graph) <= fuel)%nat ->
  exists graph', add_loop store auth_diff fuel graph state = Ok graph' /\
    add_inv graph' [] /\
    (forall x, is_Some (graph !! x) \/ x ∈ state -> is_Some (graph' !! x)) /\
    (forall x, is_Some (graph' !! x) -> is_Some (graph !! x) \/ Q x).
Proof.
  revert graph state. induction fuel as [|fuel IH]; intros graph [|eid state] Hinv Hf;
    cbn [add_loop].
  1, 3: exists graph; split_and!; [done|done|set_solver|auto].
  { cbn in Hf. lia. }
  destruct (add_step _ _ _ Hinv) as (pushes & Hfold & Hinv' & Hm). rewrite Hfold.
  destruct (IH _ _ Hinv') as (graph' & Hl & Hi & Hk & Hr); [lia|].
  exists graph'. split_and!; [done|done|..].
  - intros x Hx. apply Hk. rewrite lookup_insert_is_Some.
    destruct (decide (eid = x)); set_solver.
  - intros x [Hx|Hx]%Hr; [|by right]. rewrite lookup_insert_is_Some in Hx.
    destruct Hx as [<-|[_ ?]]; [right; apply (ai_univ _ _ Hinv); left|by left].
Qed.

End Loop.
(** A finished graph: the edges are the conflicted auth events, all of them nodes. *)
Definition graph_ok (graph : gmap string (gset string)) : Prop :=
  (forall x E, graph !! x = Some E -> E = children x) /\
  (forall x c, is_Some (graph !! x) -> child x c -> is_Some (graph !! c)).

Lemma graph_ok_reach graph x y :
  graph_ok graph -> rtc child x y -> is_Some (graph !! x) -> is_Some (graph !! y).
Proof. intros [_ Hc]. induction 1; eauto. Qed.

Lemma add_chain_spec graph e :
  graph_ok graph ->
  exists graph', add_event_and_auth_chain_to_graph store auth_diff graph e = Ok graph' /\
    graph_ok graph' /\
    (forall x, is_Some (graph' !! x) <-> is_Some (graph !! x) \/ rtc child e x).
Proof.
  intros [He Hc]. unfold add_event_and_auth_chain_to_graph.
  destruct (add_loop_spec ({[e]} ∪ auth_diff) (rtc child e)) with
    (fuel := add_fuel store auth_diff e) (graph := graph) (state := [e])
    as (graph' & Hl & [He' _ Hc' _] & Hk & Hr).
  - intros x c Hx Hch. eapply rtc_r; done.
  - set_solver.
  - split; [done| |intros; left; by eapply Hc|].
    + cbn. split; [|done]. intros Hg c Hch. left. by eapply Hc.
    + intros x ->%list_elem_of_singleton. split; [set_solver|done].
  - unfold add_fuel. cbn [length]. apply le_n_S, weight_mono. set_solver.
  - exists graph'. assert (Hok : graph_ok graph').
    { split; [done|]. intros x c Hx Hch. destruct (Hc' x c Hx Hch); [done|set_solver]. }
    split_and!; [done|done|]. intros x. split; [apply Hr|].
    intros [Hx|Hx]; [apply Hk; by left|].
    apply (graph_ok_reach _ e); [done|done|]. apply Hk. right. left.
Qed.

Lemma build_graph_spec graph l :
  graph_ok graph ->
  exists graph', build_graph store auth_diff graph l = Ok graph' /\ graph_ok graph' /\
    (forall x, is_Some (graph' !! x) <->
       is_Some (graph !! x) \/ exists s, s ∈ l /\ rtc child s x).
Proof.
  revert graph. induction l as [|e l IH]; intros graph Hok; cbn [build_graph].
  { exists graph. set_solver. }
  destruct (add_chain_spec graph e Hok) as (g1 & Hg & Hok1 & Hk1). rewrite Hg.
  cbn [mbind result_bind]. destruct (IH g1 Hok1) as (g2 & Hg2 & Hok2 & Hk2).
  exists g2. split_and!; [done|done|]. intros x. rewrite Hk2, Hk1. set_solver.
Qed.

Lemma graph_edge graph y x : graph_ok graph -> edge graph y x <-> is_Some (graph !! x) /\ child x y.
Proof.
  intros [He _]. unfold edge. split.
  - intros (E & HE & Hy). split; [eauto|]. rewrite (He x E HE) in Hy. by apply children_spec.
  - intros [[E HE] Hch]. exists E. rewrite HE, (He x E HE). split; [done|].
    by apply children_spec.
Qed.

Lemma graph_edge_wf graph rank :
  ranked store rank -> graph_ok graph -> well_founded (edge graph).
Proof.
  intros Hr Hok. apply (wf_projected lt rank); [|apply lt_wf].
  intros y x [_ [Hch _]]%graph_edge; [|done]. by apply Hr.
Qed.

End GraphSpec.

Section SortSpec.
Context `{Identifiers, Json, Signatures}.
Context (store : EventStore) (unordered : list Event -> list Event).

Lemma sender_powers_spec rv (power : string -> UserPower) ids :
  (forall x, x ∈ ids -> get_power_level_for_sender store unordered rv x = Ok (power x)) ->
  exists m, sender_powers store unordered rv ids = Ok m /\
    forall x, x ∈ ids -> m !! x = Some (power x).
Proof.
  induction ids as [|id ids IH]; intros Hp; cbn [sender_powers].
  { exists ∅. set_solver. }
  rewrite Hp by left. cbn [mbind result_bind].
  destruct IH as (m & Hm & Hlook); [intros; apply Hp; by right|].
  rewrite Hm. cbn. eexists. split; [done|]. intros x Hx.
  destruct (decide (id = x)) as [->|]; [apply lookup_insert_eq|].
  rewrite lookup_insert_ne by done. apply Hlook. set_solver.
Qed.

(** The events the sort is about: the given ones and their conflicted ancestors. *)
Definition reached (auth_diff : gset string) (events : list string) (x : string) : Prop :=
  exists s, s ∈ events /\ rtc (child store auth_diff) s x.

(** The key an event is sorted by. *)
Definition power_key (power : string -> UserPower) (x : string) : UserPower * Z :=
  (power x, match store !! x with Some ev => origin_server_ts ev | None => 0 end).

Lemma power_sort_graph iter rv events diff power :
  enumerates iter ->
  (forall x, reached diff events x -> is_Some (store !! x) /\
     get_power_level_for_sender store unordered rv x = Ok (power x)) ->
  exists graph m,
    graph_ok store diff graph /\
    (forall x, is_Some (graph !! x) <-> reached diff events x) /\
    (forall x, is_Some (graph !! x) -> sort_key store m x = Ok (power_key power x)) /\
    reverse_topological_power_sort store iter unordered rv events diff =
      lexicographical_topological_sort iter (sort_key store m) graph.
Proof.
  intros Hi Hok. unfold reverse_topological_power_sort.
  destruct (build_graph_spec store diff ∅ events) as (graph & Hg & Hgok & Hk).
  { split; intros x; rewrite lookup_empty; [done|intros c [? [=]]]. }
  rewrite Hg. cbn [mbind result_bind].
  assert (Hk' : forall x, is_Some (graph !! x) <-> reached diff events x).
  { intros x. rewrite Hk, lookup_empty. unfold reached. split; [intros [[? [=]]|]; done|auto]. }
  destruct (sender_powers_spec rv power (iter (dom graph))) as (m & Hm & Hlook).
  { intros x Hx. apply Hok, Hk', elem_of_dom. by apply (iter_elem iter). }
  rewrite Hm. cbn [mbind result_bind]. exists graph, m. split_and!; [done|done| |done].
  intros x Hx. unfold sort_key, power_key.
  rewrite Hlook by (apply (iter_elem iter); [done|by apply elem_of_dom]).
  apply Hk' in Hx as [[ev Hev] _]%Hok. rewrite Hev. done.
Qed.

(** A successful run knows the power of every sender. *)
Lemma sender_powers_known rv ids m :
  sender_powers store unordered rv ids = Ok m -> forall x, x ∈ ids ->
  exists p, get_power_level_for_sender store unordered rv x = Ok p.
Proof.
  revert m. induction ids as [|id ids IH]; intros m; cbn; [set_solver|].
  intros Hm. bind_inv. intros x [->|Hx]%elem_of_cons; eauto.
Qed.

Lemma power_sort_known iter rv events diff l :
  enumerates iter -> reverse_topological_power_sort store iter unordered rv events diff = Ok l ->
  forall x, reached diff events x ->
  exists p, get_power_level_for_sender store unordered rv x = Ok p.
Proof.
  intros Hi. unfold reverse_topological_power_sort.
  destruct (build_graph_spec store diff ∅ events) as (graph & Hg & _ & Hk).
  { split; intros x; rewrite lookup_empty; [done|intros c [? [=]]]. }
  rewrite Hg. cbn [mbind result_bind]. intros Hl x Hx. bind_inv.
  eapply sender_powers_known; [done|]. apply (iter_elem iter Hi), elem_of_dom, Hk. by right.
Qed.

End SortSpec.

(** Two finished graphs over the same nodes are the same. *)
Lemma graph_ok_unique store diff g g' :
  graph_ok store diff g -> graph_ok store diff g' ->
  (forall x, is_Some (g !! x) <-> is_Some (g' !! x)) -> g = g'.
Proof.
  intros [He _] [He' _] Hk. apply map_eq. intros x. specialize (Hk x).
  destruct (g !! x) as [E|] eqn:Eg, (g' !! x) as [E'|] eqn:Eg'.
  - by rewrite (He x E), (He' x E').
  - destruct (proj1 Hk) as [? [=]]; eauto.
  - destruct (proj2 Hk) as [? [=]]; eauto.
  - done.
Qed.

(** The sort depends on no iteration order, nor on that of its input. *)
Lemma power_sort_order `{Identifiers, Json, Signatures} store iter iter' unordered unordered'
    rv events events' diff l :
  enumerates iter -> enumerates iter' -> events ≡ₚ events' ->
  (forall x, get_power_level_for_sender store unordered rv x =
             get_power_level_for_sender store unordered' rv x) ->
  (forall x, reached store diff events x -> is_Some (store !! x)) ->
  reverse_topological_power_sort store iter unordered rv events diff = Ok l ->
  reverse_topological_power_sort store iter' unordered' rv events' diff = Ok l /\
  (forall x, x ∈ l -> reached store diff events x).
Proof.
  intros Hi Hi' Hev Hpl Hst Hl.
  set (pw := fun x => match get_power_level_for_sender store unordered rv x with
                      | Ok p => p | Err _ => Infinite end).
  assert (Hpw : forall x, reached store diff events x ->
    get_power_level_for_sender store unordered rv x = Ok (pw x)).
  { intros x Hx. destruct (power_sort_known _ _ _ _ _ _ _ Hi Hl x Hx) as [p Hp].
    unfold pw. by rewrite Hp. }
  assert (Hreach : forall x, reached store diff events x <-> reached store diff events' x).
  { intros x. unfold reached. by setoid_rewrite Hev. }
  destruct (power_sort_graph store unordered iter rv events diff pw Hi)
    as (g & m & Hg & Hk & Hkey & Hs); [auto|].
  destruct (power_sort_graph store unordered' iter' rv events' diff pw Hi')
    as (g' & m' & Hg' & Hk' & Hkey' & Hs').
  { intros x Hx%Hreach. rewrite <-Hpl. auto. }
  assert (g = g') as <-.
  { eapply graph_ok_unique; [done|done|]. intros x. by rewrite Hk, Hk'. }
  destruct (sort_refines iter Hi g _ _ Hkey) as (k & Hsort & Hgr).
  destruct (sort_refines iter' Hi' g _ _ Hkey') as (k' & Hsort' & Hgr').
  rewrite Hs, Hsort in Hl. injection Hl as <-.
  rewrite Hs', Hsort'. rewrite (greedy_unique _ _ _ _ _ Hgr Hgr'). split; [done|].
  intros x Hx. rewrite <-(greedy_unique _ _ _ _ _ Hgr Hgr') in Hx.
  apply Hk. destruct (greedy_sound _ _ _ _ Hgr) as [_ Hpos]; [constructor|].
  apply list_elem_of_lookup in Hx as [i Hx]. destruct (Hpos i x Hx) as (E & HE & _). eauto.
Qed.

(** C10: the sort of the power events returns, without looping, exactly the given
    events and their ancestors inside the conflicted set, once each. Every event
    comes after its conflicted auth events, and when it is placed no event whose
    auth events are all placed has a sender of more power, nor one of the same
    power an earlier time. It holds for every order of hash iteration and of
    fetch completion. *)
Theorem power_sort_correct `{Identifiers, Json, Signatures}
    store iter unordered rank rv events diff (power : string -> UserPower) :
  enumerates iter -> ranked store rank ->
  (forall x, reached store diff events x -> is_Some (store !! x) /\
     get_power_level_for_sender store unordered rv x = Ok (power x)) ->
  exists l,
    reverse_topological_power_sort store iter unordered rv events diff = Ok l /\
    NoDup l /\ (forall x, x ∈ l <-> reached store diff events x) /\
    (forall i x y, l !! i = Some x -> child store diff x y -> y ∈ take i l) /\
    (forall i x y, l !! i = Some x -> reached store diff events y -> y ∉ take i l ->
       (forall c, child store diff y c -> c ∈ take i l) ->
       ord_le (tie (power_key store power) x) (tie (power_key store power) y)).
Proof.
  intros Hi Hr Hok.
  destruct (power_sort_graph store unordered iter rv events diff power Hi Hok)
    as (graph & m & Hg & Hk & Hkey & ->).
  destruct (sort_refines iter Hi graph _ _ Hkey) as (l & Hl & Hgr).
  destruct (greedy_sound _ _ _ _ Hgr) as [Hnd Hpos]; [constructor|]. cbn [app] in Hnd.
  exists l. split_and!; [done|done|..].
  - intros x. split.
    + intros [i Hx]%list_elem_of_lookup. destruct (Hpos i x Hx) as (E & HE & _).
      apply Hk. eauto.
    + intros Hx%Hk. eapply greedy_complete; [|by eapply graph_edge_wf|done|done].
      intros z y [Hz Hch]%(graph_edge store diff); [|done]. by eapply Hg.
  - intros i x y Hx Hch. destruct (Hpos i x Hx) as (E & HE & Hs). apply Hs.
    apply Hg in HE as ->. by apply children_spec.
  - intros i x y Hx [E HE]%Hk Hy Hc. eapply greedy_least; [done|done|].
    split; [done|]. exists E. split; [done|]. apply Hg in HE as ->.
    intros z Hz%children_spec. by apply Hc.
Qed.

Import Sample.

(** Two power events of a room, the second naming the first. *)
Definition sample_store : gmap string Event :=
  <["$p1:a" := power "$p1:a" "alice=100"]>
  (<["$p2:a" := mkEvent "$p2:a" room alice 3 RoomPowerLevels "alice=100,bob=50" (Some "")
                  ["$p1:a"] ["$p1:a"] None]> ∅).

Lemma power_sort_correct_witness :
  exists l, reverse_topological_power_sort sample_store elements id V6
    ["$p2:a"] {["$p1:a"; "$p2:a"]} = Ok l /\ NoDup l.
Proof.
  assert (Hch : forall x y, child sample_store {["$p1:a"; "$p2:a"]} x y ->
    x = "$p2:a" /\ y = "$p1:a").
  { intros x y [Hy Hin]. unfold auth_of, sample_store in Hy.
    destruct (decide (x = "$p1:a")) as [->|]; [exfalso; cbn in Hy; set_solver|].
    rewrite lookup_insert_ne in Hy by done.
    destruct (decide (x = "$p2:a")) as [->|]; [split; [done|cbn in Hy; set_solver]|].
    rewrite lookup_insert_ne, lookup_empty in Hy by done. set_solver. }
  destruct (power_sort_correct sample_store elements id
    (fun x => if bool_decide (x = "$p2:a") then 2%nat
              else if bool_decide (x = "$p1:a") then 1%nat else 0%nat) V6 ["$p2:a"]
    {["$p1:a"; "$p2:a"]} (fun x => Level (if bool_decide (x = "$p2:a") then 100 else 0)))
    as (l & Hl & Hnd & _).
  - intros X. reflexivity.
  - intros x a Ha. unfold auth_of, sample_store in Ha.
    destruct (decide (x = "$p1:a")) as [->|].
    { cbn in Ha. apply list_elem_of_singleton in Ha as ->. vm_compute. lia. }
    rewrite lookup_insert_ne in Ha by done.
    destruct (decide (x = "$p2:a")) as [->|].
    { cbn in Ha. apply list_elem_of_singleton in Ha as ->. vm_compute. lia. }
    rewrite lookup_insert_ne, lookup_empty in Ha by done. set_solver.
  - assert (Hreach : forall x, reached sample_store {["$p1:a"; "$p2:a"]} ["$p2:a"] x ->
      x = "$p2:a" \/ x = "$p1:a").
    { intros x (s & ->%list_elem_of_singleton & Hs).
      apply rtc_inv in Hs as [<-|(y & Hy & Hs)]; [by left|]. right.
      apply Hch in Hy as [_ ->]. apply rtc_inv in Hs as [<-|(z & Hz & _)]; [done|].
      apply Hch in Hz as [[=] _]. }
    intros x [->| ->]%Hreach; vm_compute; split; eauto.
  - exists l. split; [exact Hl|exact Hnd].
Defined.

End PowerSort.
