(* ===== verification/Mainline.v ===== *)
(** The mainline sort of [matrix/state_res/mainline.rs]: the chain of power-level
    events behind the resolved one, how far up that chain each other event is
    anchored, and the order by depth, time and id. *)
From S2P Require Import Prelude Order Event EventAuth Store Sort Sample.
Export Membership Store Sort.

Module Mainline.

Section Mainline.
Context (store : EventStore).
Context (iter : gset string -> list string).

(** The first auth event that is a power-levels event; a missing one before it
    is an error. *)
Fixpoint find_power (aids : list string) : result Error (option string) :=
  match aids with
  | [] => Ok None
  | aid :: aids =>
      ev ← ok_or (store !! aid) NotFound;
      if is_type_and_key ev RoomPowerLevels "" then Ok (Some aid) else find_power aids
  end.

(** The chain from [pl] back to the room's first power-levels event. *)
Fixpoint mainline_loop (fuel : nat) (pl : option string) : result Error (list string) :=
  match pl with
  | None => Ok []
  | Some p =>
      match fuel with
      | O => Err Diverges
      | S fuel =>
          event ← ok_or (store !! p) NotFound;
          next ← find_power (auth_events event);
          rest ← mainline_loop fuel next;
          Ok (p :: rest)
      end
  end.

(** [.iter().rev().enumerate()] collected: the oldest event has depth 0. *)
Definition mainline_map (mainline : list string) : gmap string nat :=
  list_to_map (reverse (imap (fun idx eid => (eid, idx)) (reverse mainline))).

Fixpoint depth_loop (fuel : nat) (depths : gmap string nat) (event : option Event) :
    result Error nat :=
  match event with
  | None => Ok 0%nat
  | Some sort_ev =>
      match depths !! event_id sort_ev with
      | Some depth => Ok depth
      | None =>
          match fuel with
          | O => Err Diverges
          | S fuel =>
              next ← find_power (auth_events sort_ev);
              depth_loop fuel depths (next ≫= fun aid => store !! aid)
          end
      end
  end.

(** Each step of either loop goes to another stored event. *)
Definition chain_fuel : nat := S (size store).

Definition get_mainline_depth (event : Event) (depths : gmap string nat) : result Error nat :=
  depth_loop chain_fuel depths (Some event).

(** The sort key of an event, where it and its depth can be found. *)
Definition order_key (depths : gmap string nat) (id : string) : option (nat * (Z * string)) :=
  event ← store !! id;
  depth ← ok (get_mainline_depth event depths);
  Some (depth, (origin_server_ts event, id)).

Definition mainline_sort (to_sort : list string) (resolved_power_level : option string) :
    result Error (list string) :=
  match to_sort with
  | [] => Ok []
  | _ =>
      mainline ← mainline_loop chain_fuel resolved_power_level;
      let depths := mainline_map mainline in
      let order_map : gmap string (nat * (Z * string)) :=
        list_to_map (omap (fun id => pair id <$> order_key depths id) to_sort) in
      Ok (sort_by_key (fun id => default (0%nat, (0, "")) (order_map !! id))
            (iter (dom order_map)))
  end.

End Mainline.

(** ** The loops end *)

Section Terminates.
Context (store : EventStore).

Lemma find_power_In aids a : find_power store aids = Ok (Some a) -> a ∈ aids /\ is_Some (store !! a).
Proof.
  induction aids as [|x aids IH]; cbn; [done|].
  destruct (store !! x) as [ev|] eqn:E; cbn; [|done].
  destruct (is_type_and_key ev RoomPowerLevels ""); [|intros ?%IH; set_solver].
  intros [= <-]. split; [left|eauto].
Qed.

Lemma find_power_total aids :
  (forall a, a ∈ aids -> is_Some (store !! a)) -> exists o, find_power store aids = Ok o.
Proof.
  induction aids as [|x aids IH]; intros Hin; cbn; [eauto|].
  destruct (Hin x) as [ev ->]; [left|]. cbn. case_match; [eauto|].
  apply IH. intros. apply Hin. by right.
Qed.

Context (rank : string -> nat).

(** Stored events of a rank below [n]. *)
Definition below_rank (n : nat) : gset string := filter (fun x => rank x < n)%nat (dom store).

Lemma below_rank_step x :
  is_Some (store !! x) -> (size (below_rank (rank x)) < size (below_rank (S (rank x))))%nat.
Proof.
  intros [ev Hx]. apply subset_size. split.
  - intros y. unfold below_rank. rewrite !elem_of_filter. intros [? ?]. split; [lia|done].
  - intros Hs. specialize (Hs x). unfold below_rank in Hs. rewrite !elem_of_filter in Hs.
    destruct Hs as [? _]; [|lia]. split; [lia|]. by eapply elem_of_dom_2.
Qed.

Lemma below_rank_mono m n : (m <= n)%nat -> (size (below_rank m) <= size (below_rank n))%nat.
Proof.
  intros Hmn. apply subseteq_size. intros y. unfold below_rank.
  rewrite !elem_of_filter. intros [? ?]. split; [lia|done].
Qed.

Lemma below_rank_bound n : (size (below_rank n) <= size store)%nat.
Proof. rewrite <-size_dom. apply subseteq_size. intros y. unfold below_rank. set_solver. Qed.

Hypothesis Hranked : ranked store rank.
Hypothesis Hkeyed : keyed store.

(** The auth events of a stored event, and their rank. *)
Lemma auth_events_rank x ev a :
  store !! x = Some ev -> a ∈ auth_events ev -> (rank a < rank x)%nat.
Proof. intros Hx Ha. apply Hranked. unfold auth_of. by rewrite Hx. Qed.

Lemma mainline_loop_ok fuel pl :
  (forall p, pl = Some p -> is_Some (store !! p) /\
     (size (below_rank (S (rank p))) <= fuel)%nat) ->
  (forall x ev a, store !! x = Some ev -> a ∈ auth_events ev -> is_Some (store !! a)) ->
  exists l, mainline_loop store fuel pl = Ok l.
Proof.
  intros Hpl Hin. revert pl Hpl. induction fuel as [|fuel IH]; intros [p|] Hp; cbn; eauto.
  - destruct (Hp p eq_refl) as [Hs Hf]. pose proof (below_rank_step p Hs). lia.
  - destruct (Hp p eq_refl) as [[ev Hev] Hf]. rewrite Hev. cbn.
    destruct (find_power_total (auth_events ev)) as [next Hnext]; [eauto|].
    rewrite Hnext. cbn. destruct (IH next) as [l ->]; [|cbn; eauto].
    intros q ->. apply find_power_In in Hnext as [Hq Hs]. split; [done|].
    pose proof (below_rank_step p ltac:(eauto)).
    pose proof (auth_events_rank p ev q Hev Hq).
    pose proof (below_rank_mono (S (rank q)) (rank p) ltac:(lia)). lia.
Qed.

Lemma depth_loop_ok fuel depths event :
  (forall ev, event = Some ev -> store !! event_id ev = Some ev /\
     (size (below_rank (S (rank (event_id ev)))) <= fuel)%nat) ->
  (forall x ev a, store !! x = Some ev -> a ∈ auth_events ev -> is_Some (store !! a)) ->
  exists d, depth_loop store fuel depths event = Ok d.
Proof.
  intros Hev Hin. revert event Hev. induction fuel as [|fuel IH]; intros [ev|] Hev; cbn; eauto;
    case_match; eauto.
  - destruct (Hev ev eq_refl) as [Hs Hf]. pose proof (below_rank_step (event_id ev) ltac:(eauto)).
    lia.
  - destruct (Hev ev eq_refl) as [Hs Hf].
    destruct (find_power_total (auth_events ev)) as [next Hnext]; [eauto|].
    rewrite Hnext. cbn. apply IH. intros ev' Hev'.
    destruct next as [q|]; [|done]. cbn in Hev'.
    apply find_power_In in Hnext as [Hq _]. rewrite (Hkeyed q ev') by done. split; [done|].
    pose proof (below_rank_step (event_id ev) ltac:(eauto)).
    pose proof (auth_events_rank _ ev q Hs Hq).
    pose proof (below_rank_mono (S (rank q)) (rank (event_id ev)) ltac:(lia)). lia.
Qed.

Lemma find_power_ends aids : find_power store aids <> Err Diverges.
Proof.
  induction aids as [|x aids IH]; cbn; [done|]. destruct (store !! x); cbn; [|done].
  by case_match.
Qed.

(** Neither loop runs out of fuel, whatever is missing from the store. *)
Lemma mainline_loop_ends fuel pl :
  (forall p, pl = Some p -> is_Some (store !! p) ->
     (size (below_rank (S (rank p))) <= fuel)%nat) -> (0 < fuel)%nat ->
  mainline_loop store fuel pl <> Err Diverges.
Proof.
  revert pl. induction fuel as [|fuel IH]; intros [p|] Hp Hpos; cbn; try done; [lia|].
  destruct (store !! p) as [ev|] eqn:Hev; cbn; [|done].
  destruct (find_power store (auth_events ev)) as [next|e] eqn:Hnext; cbn.
  2:{ intros [= ->]. by apply (find_power_ends (auth_events ev)). }
  destruct next as [q|].
  - assert (Hends : mainline_loop store fuel (Some q) <> Err Diverges).
    { apply find_power_In in Hnext as [Hq Hs].
      pose proof (below_rank_step p ltac:(eauto)).
      pose proof (below_rank_step q Hs).
      pose proof (auth_events_rank p ev q Hev Hq).
      pose proof (below_rank_mono (S (rank q)) (rank p) ltac:(lia)).
      pose proof (Hp p eq_refl ltac:(eauto)).
      apply IH; [intros r [= <-] _|]; lia. }
    destruct (mainline_loop store fuel (Some q)); cbn; congruence.
  - destruct fuel; done.
Qed.

Lemma depth_loop_ends fuel depths event :
  (forall ev, event = Some ev -> store !! event_id ev = Some ev /\
     (size (below_rank (S (rank (event_id ev)))) <= fuel)%nat) ->
  depth_loop store fuel depths event <> Err Diverges.
Proof.
  revert event. induction fuel as [|fuel IH]; intros [ev|] Hev; cbn; try done;
    case_match; try done; destruct (Hev ev eq_refl) as [Hs Hf];
    pose proof (below_rank_step (event_id ev) ltac:(eauto)); [lia|].
  destruct (find_power store (auth_events ev)) as [next|e] eqn:Hnext; cbn.
  2:{ intros [= ->]. by apply (find_power_ends (auth_events ev)). }
  apply IH. intros ev' Hev'. destruct next as [q|]; [|done]. cbn in Hev'.
  apply find_power_In in Hnext as [Hq _]. rewrite (Hkeyed q ev') by done. split; [done|].
  pose proof (auth_events_rank _ ev q Hs Hq).
  pose proof (below_rank_mono (S (rank q)) (rank (event_id ev)) ltac:(lia)). lia.
Qed.

End Terminates.

Lemma mainline_sort_ends store rank iter to_sort pl :
  ranked store rank -> mainline_sort store iter to_sort pl <> Err Diverges.
Proof.
  intros Hr. unfold mainline_sort. destruct to_sort as [|x l]; [done|].
  assert (Hends : mainline_loop store (chain_fuel store) pl <> Err Diverges).
  { eapply mainline_loop_ends; [done|intros p _ _|unfold chain_fuel; lia].
    pose proof (below_rank_bound store rank (S (rank p))). unfold chain_fuel. lia. }
  destruct (mainline_loop store (chain_fuel store) pl); cbn; congruence.
Qed.

(** ** The order *)

Section Order.
Context (store : EventStore).

Lemma order_map_lookup depths to_sort id :
  (list_to_map (omap (fun id => pair id <$> order_key store depths id) to_sort)
     : gmap string (nat * (Z * string))) !! id
  = if decide (id ∈ to_sort) then order_key store depths id else None.
Proof.
  induction to_sort as [|x l IH]; cbn; [done|].
  destruct (order_key store depths x) as [k|] eqn:Ek; cbn.
  - destruct (decide (x = id)) as [->|Hne].
    + rewrite lookup_insert_eq, decide_True by left. done.
    + rewrite lookup_insert_ne, IH by done.
      destruct (decide (id ∈ l)), (decide (id ∈ x :: l)); set_solver.
  - rewrite IH. destruct (decide (id = x)) as [->|Hne].
    + rewrite (decide_True (P := x ∈ x :: l)) by left. rewrite Ek. by case_decide.
    + destruct (decide (id ∈ l)), (decide (id ∈ x :: l)); set_solver.
Qed.

Lemma order_key_id depths id k : order_key store depths id = Some k -> k.2.2 = id.
Proof.
  unfold order_key. destruct (store !! id); cbn; [|done].
  destruct (ok _); cbn; [|done]. by intros [= <-].
Qed.

(** The key an event is sorted by. *)
Definition event_key (depths : gmap string nat) (id : string) : nat * (Z * string) :=
  default (0%nat, (0, "")) (order_key store depths id).

Lemma mainline_sort_keys iter to_sort pl mainline :
  enumerates iter -> NoDup to_sort ->
  mainline_loop store (chain_fuel store) pl = Ok mainline ->
  mainline_sort store iter to_sort pl =
    Ok (sort_by_key (event_key (mainline_map mainline))
          (filter (fun x => is_Some (order_key store (mainline_map mainline) x)) to_sort)).
Proof.
  intros Hi Hnd Hm. unfold mainline_sort. destruct to_sort as [|x0 l0] eqn:El; [done|].
  rewrite <-El in *. clear El. rewrite Hm. cbn [mbind result_bind]. f_equal.
  set (om := list_to_map _). pose proof (order_map_lookup (mainline_map mainline) to_sort) as Hom.
  fold om in Hom.
  assert (Hdom : iter (dom om) ≡ₚ
    filter (fun x => is_Some (order_key store (mainline_map mainline) x)) to_sort).
  { rewrite (Hi (dom om)). apply NoDup_Permutation; [apply NoDup_elements|by apply NoDup_filter|].
    intros x. rewrite elem_of_elements, elem_of_dom, Hom, list_elem_of_filter.
    case_decide; [naive_solver|]. split; [by intros [? [=]]|naive_solver]. }
  rewrite (sort_by_key_ext _ (event_key (mainline_map mainline))).
  - apply sort_by_key_unique; [|done]. intros x y Hx Hy Hxy. rewrite Hdom in Hx, Hy.
    apply list_elem_of_filter in Hx as [[kx Ekx] _], Hy as [[ky Eky] _].
    unfold event_key in Hxy. rewrite Ekx, Eky in Hxy. cbn in Hxy. subst.
    apply order_key_id in Ekx as <-, Eky as <-. done.
  - intros x Hx. rewrite Hdom in Hx. apply list_elem_of_filter in Hx as [_ Hx].
    unfold event_key. by rewrite Hom, decide_True.
Qed.

Lemma mainline_sort_elem iter to_sort pl l x :
  enumerates iter -> mainline_sort store iter to_sort pl = Ok l -> x ∈ l -> x ∈ to_sort.
Proof.
  intros Hi. unfold mainline_sort. destruct to_sort as [|x0 l0] eqn:El; [by intros [= <-]|].
  rewrite <-El in *. clear El. intros Hl. bind_inv.
  rewrite sort_by_key_perm, (Hi _), elem_of_elements,
    elem_of_dom, order_map_lookup. intros Hx. by case_decide; [|destruct Hx].
Qed.

(** The result depends neither on the iteration order nor on the input's. *)
Lemma mainline_sort_order iter iter' to_sort to_sort' pl :
  enumerates iter -> enumerates iter' -> NoDup to_sort -> to_sort ≡ₚ to_sort' ->
  mainline_sort store iter to_sort pl = mainline_sort store iter' to_sort' pl.
Proof.
  intros Hi Hi' Hnd Hp. destruct (mainline_loop store (chain_fuel store) pl) as [m|e] eqn:Hm.
  - assert (Hnd' : NoDup to_sort') by (by rewrite <-Hp).
    rewrite (mainline_sort_keys iter to_sort pl m), (mainline_sort_keys iter' to_sort' pl m)
      by done.
    f_equal. apply sort_by_key_unique; [|by rewrite Hp].
    intros x y Hx Hy Hxy. apply list_elem_of_filter in Hx as [[kx Ekx] _], Hy as [[ky Eky] _].
    unfold event_key in Hxy. rewrite Ekx, Eky in Hxy. cbn in Hxy. subst.
    apply order_key_id in Ekx as <-, Eky as <-. done.
  - unfold mainline_sort. rewrite Hm.
    destruct to_sort as [|x l]. { apply Permutation_nil_l in Hp. by subst. }
    destruct to_sort' as [|x' l']; [|done]. symmetry in Hp. by apply Permutation_nil_l in Hp.
Qed.

Lemma order_key_stored rank depths x :
  ranked store rank -> keyed store ->
  (forall y ev a, store !! y = Some ev -> a ∈ auth_events ev -> is_Some (store !! a)) ->
  is_Some (store !! x) -> is_Some (order_key store depths x).
Proof.
  intros Hr Hk Hin [ev Hev]. unfold order_key. rewrite Hev.
  cbn [mbind option_bind]. unfold get_mainline_depth.
  destruct (depth_loop_ok store rank Hr Hk (chain_fuel store) depths (Some ev)) as [d Hd];
    [|done|rewrite Hd; cbn; eauto].
  intros ev' [= <-]. rewrite (Hk x ev Hev). split; [done|].
  pose proof (below_rank_bound store rank (S (rank x))). unfold chain_fuel. lia.
Qed.

End Order.

(** ** What the mainline is *)

(** [o] is the first power-levels event among [aids]; what stands before it is
    stored. *)
Inductive first_power (store : EventStore) : list string -> option string -> Prop :=
  | first_power_none : first_power store [] None
  | first_power_here aid ev aids :
      store !! aid = Some ev -> event_type ev = RoomPowerLevels -> state_key ev = Some "" ->
      first_power store (aid :: aids) (Some aid)
  | first_power_later aid ev aids o :
      store !! aid = Some ev -> ~ (event_type ev = RoomPowerLevels /\ state_key ev = Some "") ->
      first_power store aids o -> first_power store (aid :: aids) o.

(** The mainline of [pl]: itself, then the power-levels event it was sent under,
    back to the room's first. *)
Inductive powers (store : EventStore) : option string -> list string -> Prop :=
  | powers_end : powers store None []
  | powers_step p ev next rest :
      store !! p = Some ev -> first_power store (auth_events ev) next ->
      powers store next rest -> powers store (Some p) (p :: rest).

(** How far up the mainline an event stands: the number of older events behind
    the one it is or was sent under, directly or through power-levels events off
    the mainline; nothing if it was sent under none. *)
Inductive stands (store : EventStore) (mainline : list string) : string -> nat -> Prop :=
  | stands_on x newer older :
      mainline = newer ++ x :: older -> stands store mainline x (length older)
  | stands_under x ev q d :
      x ∉ mainline -> store !! x = Some ev ->
      first_power store (auth_events ev) (Some q) ->
      stands store mainline q d -> stands store mainline x d
  | stands_nowhere x ev :
      x ∉ mainline -> store !! x = Some ev ->
      first_power store (auth_events ev) None -> stands store mainline x 0.

(** Depth, then time, then id. *)
Definition comes_before (store : EventStore) (mainline : list string) (x y : string) : Prop :=
  forall dx dy ex ey, stands store mainline x dx -> stands store mainline y dy ->
    store !! x = Some ex -> store !! y = Some ey ->
    (dx < dy)%nat \/ dx = dy /\
      (origin_server_ts ex < origin_server_ts ey \/
       origin_server_ts ex = origin_server_ts ey /\ ord_le x y).

Lemma StronglySorted_weaken {A} (R R' : A -> A -> Prop) l :
  (forall x y, R x y -> R' x y) -> StronglySorted R l -> StronglySorted R' l.
Proof. intros Himp. induction 1; constructor; [done|]. eapply Forall_impl; [done|auto]. Qed.

Section Spec.
Context (store : EventStore).

Lemma find_power_spec aids o : find_power store aids = Ok o <-> first_power store aids o.
Proof.
  split.
  - revert o. induction aids as [|a aids IH]; intros o; cbn; [intros [= <-]; constructor|].
    destruct (store !! a) as [ev|] eqn:E; cbn; [|done]. unfold is_type_and_key.
    destruct (bool_decide _) eqn:E1, (bool_decide (state_key _ = _)) eqn:E2; cbn; rule_inv;
      intros Ho; simplify_eq; [by eapply first_power_here|eapply first_power_later; [done|naive_solver|auto]..].
  - induction 1 as [|a ev aids Ha Ht Hk|a ev aids o Ha Hn _ IH]; cbn; [done|..];
      rewrite Ha; cbn; unfold is_type_and_key.
    + by rewrite !bool_decide_eq_true_2 by done.
    + destruct (bool_decide _) eqn:E1, (bool_decide (state_key _ = _)) eqn:E2; cbn; rule_inv;
        [naive_solver|done..].
Qed.

Lemma find_power_err aids e : find_power store aids = Err e -> e = NotFound.
Proof.
  induction aids as [|a aids IH]; cbn; [done|].
  destruct (store !! a); cbn; [|by intros [= <-]]. by case_match.
Qed.

Lemma first_power_stored aids q : first_power store aids (Some q) -> q ∈ aids /\ is_Some (store !! q).
Proof. intros Hf%find_power_spec. by apply find_power_In. Qed.

Lemma mainline_loop_powers fuel pl l : mainline_loop store fuel pl = Ok l -> powers store pl l.
Proof.
  revert pl l. induction fuel as [|fuel IH]; intros [p|] l; cbn; try done;
    try (intros [= <-]; constructor).
  intros Hl. bind_inv. econstructor; [done|by apply find_power_spec|auto].
Qed.

Lemma powers_mainline_loop fuel pl l :
  powers store pl l -> (length l <= fuel)%nat -> mainline_loop store fuel pl = Ok l.
Proof.
  intros Hp. revert fuel. induction Hp as [|p ev next rest Hs Hf _ IH]; intros fuel Hl; cbn in Hl.
  - by destruct fuel.
  - destruct fuel as [|fuel]; [lia|]. cbn. rewrite Hs. cbn.
    apply find_power_spec in Hf as ->. cbn. by rewrite IH by lia.
Qed.

Lemma mainline_loop_err fuel pl e :
  mainline_loop store fuel pl = Err e -> e = NotFound \/ e = Diverges.
Proof.
  revert pl. induction fuel as [|fuel IH]; intros [p|]; cbn; try done; [naive_solver|].
  destruct (store !! p) as [ev|]; cbn; [|naive_solver].
  destruct (find_power store (auth_events ev)) as [next|e'] eqn:E; cbn.
  - destruct (mainline_loop store fuel next) eqn:E'; cbn; [done|]. intros [= <-]. by eapply IH.
  - intros [= <-]. left. by eapply find_power_err.
Qed.

Lemma powers_below rank pl l :
  ranked store rank -> powers store pl l ->
  NoDup l /\ l ⊆ elements (dom store) /\
  forall p x, pl = Some p -> x ∈ l -> (rank x <= rank p)%nat.
Proof.
  intros Hr. induction 1 as [|p ev next rest Hs Hf Hp (Hnd & Hsub & Hle)].
  { split_and!; [constructor|set_solver|set_solver]. }
  assert (Hlt : forall x, x ∈ rest -> (rank x < rank p)%nat).
  { intros x Hx. destruct next as [q|].
    - apply first_power_stored in Hf as [Hq _].
      pose proof (auth_events_rank store rank Hr p ev q Hs Hq).
      pose proof (Hle q x eq_refl Hx). lia.
    - inversion Hp; subst. set_solver. }
  split_and!.
  - constructor; [|done]. intros Hin%Hlt. lia.
  - intros x [->|Hx]%elem_of_cons; [|by apply Hsub].
    apply elem_of_elements. by eapply elem_of_dom_2.
  - intros ? x [= <-] [->|Hx]%elem_of_cons; [done|]. apply Hlt in Hx. lia.
Qed.

Lemma powers_loop rank pl l :
  ranked store rank -> powers store pl l ->
  mainline_loop store (chain_fuel store) pl = Ok l.
Proof.
  intros Hr Hp. apply powers_mainline_loop; [done|].
  destruct (powers_below rank pl l Hr Hp) as (Hnd & Hsub & _). unfold chain_fuel.
  pose proof (submseteq_length _ _ (NoDup_submseteq _ _ Hnd Hsub)) as Hlen.
  rewrite <-size_dom. unfold size, set_size. cbn. lia.
Qed.

Lemma mainline_map_cons p l : mainline_map (p :: l) = <[p := length l]> (mainline_map l).
Proof.
  unfold mainline_map. rewrite reverse_cons, imap_app, reverse_app. cbn.
  by rewrite length_reverse, Nat.add_0_r.
Qed.

Lemma mainline_map_spec l x d :
  NoDup l ->
  mainline_map l !! x = Some d <-> exists newer older, l = newer ++ x :: older /\ d = length older.
Proof.
  induction l as [|p l IH]; intros Hnd.
  { split; [done|]. by intros ([|??] & ? & ? & _). }
  apply NoDup_cons in Hnd as [Hp Hnd]. rewrite mainline_map_cons, lookup_insert_Some, (IH Hnd).
  split.
  - intros [[-> <-]|[Hne (n & o & -> & ->)]]; [by exists [], l|by exists (p :: n), o].
  - intros ([|y n] & o & Heq & ->); simplify_list_eq; [by left|].
    right. split; [set_solver|eauto].
Qed.

Lemma mainline_map_none l x : mainline_map l !! x = None <-> x ∉ l.
Proof.
  induction l as [|p l IH]; [split; [set_solver|done]|].
  rewrite mainline_map_cons, lookup_insert_None, IH. set_solver.
Qed.

Section Depth.
Context (mainline : list string) (Hnd : NoDup mainline) (Hkeyed : keyed store).

Lemma depth_loop_stands fuel x ev d :
  store !! x = Some ev -> depth_loop store fuel (mainline_map mainline) (Some ev) = Ok d ->
  stands store mainline x d.
Proof.
  revert x ev. induction fuel as [|fuel IH]; intros x ev Hx; cbn; rewrite (Hkeyed x ev Hx);
    (destruct (mainline_map mainline !! x) as [d'|] eqn:E;
     [intros [= ->]; apply mainline_map_spec in E as (n & o & -> & ->); [by econstructor|done]|]);
    [done|].
  apply mainline_map_none in E. intros Hd. bind_inv. destruct v as [q|]; cbn in Hd.
  - apply find_power_spec in Hv. destruct (first_power_stored _ _ Hv) as [_ [eq Hq]].
    rewrite Hq in Hd. eapply stands_under; eauto.
  - apply find_power_spec in Hv. assert (d = 0%nat) as -> by (destruct fuel; cbn in Hd; congruence).
    by eapply stands_nowhere.
Qed.

Lemma stands_depth_loop fuel x ev d :
  stands store mainline x d -> store !! x = Some ev ->
  depth_loop store fuel (mainline_map mainline) (Some ev) <> Err Diverges ->
  depth_loop store fuel (mainline_map mainline) (Some ev) = Ok d.
Proof.
  intros Hs. revert fuel ev.
  induction Hs as [x n o Hm|x e q d Hx Hs Hf _ IH|x e Hx Hs Hf]; intros fuel ev Hev He.
  - assert (E : mainline_map mainline !! x = Some (length o)) by (apply mainline_map_spec; eauto).
    destruct fuel; cbn; by rewrite (Hkeyed x ev Hev), E.
  - rewrite Hs in Hev. injection Hev as <-. apply mainline_map_none in Hx. destruct (first_power_stored _ _ Hf) as [_ [eq Hq]].
    apply find_power_spec in Hf. revert He.
    destruct fuel; cbn; rewrite (Hkeyed x e Hs), Hx; [done|]. rewrite Hf. cbn. rewrite Hq. auto.
  - rewrite Hs in Hev. injection Hev as <-. apply mainline_map_none in Hx. apply find_power_spec in Hf. revert He.
    destruct fuel; cbn; rewrite (Hkeyed x e Hs), Hx; [done|]. rewrite Hf. cbn.
    by destruct fuel.
Qed.

Lemma order_key_spec rank x d :
  ranked store rank -> mainline ⊆ elements (dom store) ->
  stands store mainline x d <->
  exists ev, store !! x = Some ev /\
    order_key store (mainline_map mainline) x = Some (d, (origin_server_ts ev, x)).
Proof.
  intros Hr Hsub. split.
  - intros Hs. assert (Hev : is_Some (store !! x)).
    { destruct Hs as [x n o Hm| |]; [|eauto..]. apply elem_of_dom, elem_of_elements, Hsub.
      rewrite Hm. set_solver. }
    destruct Hev as [ev Hev]. exists ev. split; [done|]. unfold order_key. rewrite Hev.
    cbn [mbind option_bind]. unfold get_mainline_depth.
    rewrite (stands_depth_loop _ x ev d Hs Hev); [done|].
    eapply depth_loop_ends; [done|done|]. intros ev' [= <-]. rewrite (Hkeyed x ev Hev).
    split; [done|]. pose proof (below_rank_bound store rank (S (rank x))). unfold chain_fuel. lia.
  - intros (ev & Hev & Hk). unfold order_key in Hk. rewrite Hev in Hk.
    cbn [mbind option_bind] in Hk. unfold get_mainline_depth in Hk.
    destruct (depth_loop _ _ _ _) as [d'|] eqn:E; [|done]. cbn in Hk. simplify_eq.
    by eapply depth_loop_stands.
Qed.

End Depth.

(** Over a complete store nothing is lost. *)
Lemma complete_powers rank pl :
  ranked store rank ->
  (forall y ev a, store !! y = Some ev -> a ∈ auth_events ev -> is_Some (store !! a)) ->
  (forall p, pl = Some p -> is_Some (store !! p)) -> exists mainline, powers store pl mainline.
Proof.
  intros Hr Hin Hpl.
  destruct (mainline_loop_ok store rank Hr (chain_fuel store) pl) as [mainline Hm]; [|done|].
  - intros p ->. split; [auto|].
    pose proof (below_rank_bound store rank (S (rank p))). unfold chain_fuel. lia.
  - exists mainline. by eapply mainline_loop_powers.
Qed.

Lemma complete_stands rank pl mainline x :
  ranked store rank -> keyed store -> powers store pl mainline ->
  (forall y ev a, store !! y = Some ev -> a ∈ auth_events ev -> is_Some (store !! a)) ->
  is_Some (store !! x) -> exists d, stands store mainline x d.
Proof.
  intros Hr Hk Hp Hin Hx. destruct (powers_below rank _ _ Hr Hp) as (Hnd & Hsub & _).
  destruct (order_key_stored store rank (mainline_map mainline) x Hr Hk Hin Hx) as [k Ek].
  unfold order_key in Ek. destruct Hx as [ev Hx]. rewrite Hx in Ek.
  cbn [mbind option_bind] in Ek.
  destruct (ok _) as [d|] eqn:Ed; [|done]. clear Ek.
  exists d. unfold get_mainline_depth in Ed.
  eapply (depth_loop_stands mainline Hnd Hk (chain_fuel store) x ev); [done|].
  destruct (depth_loop _ _ _ _); [by injection Ed as ->|done].
Qed.

Lemma sort_spec rank iter to_sort pl mainline :
  enumerates iter -> ranked store rank -> keyed store -> NoDup to_sort ->
  powers store pl mainline ->
  exists l, mainline_sort store iter to_sort pl = Ok l /\ NoDup l /\
    (forall x, x ∈ l <-> x ∈ to_sort /\ exists d, stands store mainline x d) /\
    StronglySorted (comes_before store mainline) l.
Proof.
  intros Hi Hr Hk Hnd Hp. destruct (powers_below rank _ _ Hr Hp) as (Hndm & Hsub & _).
  pose proof (fun x d => order_key_spec mainline Hndm Hk rank x d Hr Hsub) as Hkey.
  eexists. split; [by apply mainline_sort_keys, powers_loop with rank|]. split_and!.
  - rewrite sort_by_key_perm. by apply NoDup_filter.
  - intros x. rewrite sort_by_key_perm, list_elem_of_filter. setoid_rewrite Hkey. split.
    + intros [[k Ek] Hx]. split; [done|]. unfold order_key in Ek.
      destruct (store !! x) as [ev|] eqn:E; [|done]. cbn in Ek.
      destruct (ok _) as [d|] eqn:Ed; [|done]. exists d, ev. split; [done|].
      unfold order_key. rewrite E. cbn. by rewrite Ed.
    + intros (Hx & d & ev & _ & Ek). eauto.
  - eapply StronglySorted_weaken; [|apply sort_by_key_sorted].
    intros x y Hle dx dy ex ey (ex' & Hx & Kx)%Hkey (ey' & Hy & Ky)%Hkey Hx' Hy'. simplify_eq.
    unfold key_le, event_key in Hle. rewrite Kx, Ky in Hle. cbn in Hle.
    unfold ord_le in Hle. rewrite !cmp_pair in Hle. unfold cmp at 1, ord_nat in Hle.
    destruct (Nat.compare_spec dx dy) as [->| |]; cbn in Hle; [|by left|done]. right. split; [done|].
    unfold cmp at 1, ord_Z in Hle.
    destruct (Z.compare_spec (origin_server_ts ex') (origin_server_ts ey')); cbn in Hle;
      [right|by left|done]. done.
Qed.

End Spec.

(** C11: the mainline sort, against the mainline and the depths as they are
    defined. Where the mainline of the power-levels event can be followed, the
    sort succeeds in whatever order hash maps are iterated and gives each event of
    the input once whose depth can be found, by depth, then time, then id, oldest
    part of the mainline first; where it cannot, a non-empty input is the error
    [NotFound]. When all auth events are stored both can always be found, so no
    event is dropped. *)
Theorem mainline_sort_correct store iter rank to_sort pl :
  enumerates iter -> ranked store rank -> keyed store -> NoDup to_sort ->
  (forall mainline, powers store pl mainline ->
     exists l, mainline_sort store iter to_sort pl = Ok l /\ NoDup l /\
       (forall iter', enumerates iter' -> mainline_sort store iter' to_sort pl = Ok l) /\
       (forall x, x ∈ l <-> x ∈ to_sort /\ exists d, stands store mainline x d) /\
       StronglySorted (comes_before store mainline) l) /\
  ((forall mainline, ~ powers store pl mainline) -> to_sort <> [] ->
     mainline_sort store iter to_sort pl = Err NotFound) /\
  ((forall y ev a, store !! y = Some ev -> a ∈ auth_events ev -> is_Some (store !! a)) ->
   (forall x, x ∈ to_sort \/ pl = Some x -> is_Some (store !! x)) ->
   exists mainline l, powers store pl mainline /\
     mainline_sort store iter to_sort pl = Ok l /\ l ≡ₚ to_sort).
Proof.
  intros Hi Hr Hk Hnd. split_and!.
  - intros mainline Hp. destruct (sort_spec store rank iter to_sort pl mainline)
      as (l & Hl & ? & ? & ?); [done..|].
    exists l. split_and!; [done|done| |done|done].
    intros iter' Hi'. rewrite <-Hl. by apply mainline_sort_order.
  - intros Hno Hne. unfold mainline_sort. destruct to_sort as [|x0 l0]; [done|].
    destruct (mainline_loop store (chain_fuel store) pl) as [m|e] eqn:E; cbn.
    + by destruct (Hno m (mainline_loop_powers _ _ _ _ E)).
    + apply mainline_loop_err in E as E'. destruct E' as [->| ->]; [done|].
      exfalso. eapply (mainline_sort_ends store rank iter (x0 :: l0) pl Hr).
      unfold mainline_sort. by rewrite E.
  - intros Hin Hst. destruct (complete_powers store rank pl Hr Hin) as [m Hm]; [auto|].
    destruct (sort_spec store rank iter to_sort pl m) as (l & Hl & Hndl & Hel & _); [done..|].
    exists m, l. split_and!; [done|done|]. apply NoDup_Permutation; [done..|].
    intros x. rewrite Hel. split; [naive_solver|]. intros Hx. split; [done|].
    eapply complete_stands; eauto.
Qed.


Import Sample.

(** A power event, and two topics of which the later one was sent under it. *)
Definition topic_at (id : string) (ts : Z) (auth : list string) : Event :=
  mkEvent id room alice ts "m.room.topic" "{}" (Some "") ["$create:a"] auth None.
Definition base : Event :=
  mkEvent "$p1:a" room alice 2 RoomPowerLevels "alice=100" (Some "") [] [] None.
Definition sample_store : gmap string Event :=
  <["$p1:a" := base]> (<["$t1:a" := topic_at "$t1:a" 9 ["$p1:a"]]>
    (<["$t0:a" := topic_at "$t0:a" 8 ["$p1:a"]]> ∅)).

(** The topics come in the order of their time: both stand under the only power
    event. *)
Lemma mainline_sort_correct_witness :
  exists l, mainline_sort sample_store elements ["$t1:a"; "$t0:a"] (Some "$p1:a") = Ok l /\
    "$t1:a" ∈ l /\ StronglySorted (comes_before sample_store ["$p1:a"]) l.
Proof.
  assert (Hp : powers sample_store (Some "$p1:a") ["$p1:a"]).
  { apply (mainline_loop_powers _ 2). vm_compute. reflexivity. }
  assert (Ht : first_power sample_store ["$p1:a"] (Some "$p1:a")).
  { apply find_power_spec. vm_compute. reflexivity. }
  destruct (mainline_sort_correct sample_store elements
    (fun x => if bool_decide (x = "$p1:a") then 0%nat else 1%nat)
    ["$t1:a"; "$t0:a"] (Some "$p1:a")) as (Hsort & _ & _).
  - intros X. reflexivity.
  - apply ranked_checked. vm_compute. reflexivity.
  - apply keyed_checked. vm_compute. reflexivity.
  - apply (bool_decide_unpack _). vm_compute. exact I.
  - destruct (Hsort _ Hp) as (l & Hl & _ & _ & Hel & Hs). exists l.
    split; [exact Hl|]. split; [|exact Hs]. apply Hel. split; [left|]. exists 0%nat.
    apply (stands_under _ _ _ (topic_at "$t1:a" 9 ["$p1:a"]) "$p1:a");
      [intros [=]%list_elem_of_singleton|reflexivity|exact Ht|].
    apply (stands_on _ _ _ [] []). reflexivity.
Defined.

End Mainline.
