(* ===== verification/Subgraph.v ===== *)
(** The conflicted state subgraph of [matrix/state_res/mod.rs]: the post-order
    walk [conflicted_state_subgraph] that finds every event on an auth path
    between two conflicted events. *)
From S2P Require Import Prelude Event EventAuth Store Sort Sample.
Export Membership Store Sort.

Module Subgraph.

Section Walk.
Context (store : EventStore) (conflicted : gset string).
Context (iter : gset string -> list string).

(** The locals of the walk; the head of [stack] is its top. *)
Record walk := mkWalk {
  reaches : gmap string bool;
  auths : gmap string (list string);
  stack : list (string * bool)
}.

(** The verdict on an event whose auth events have theirs. *)
Definition verdict (w : walk) (id : string) : bool :=
  bool_decide (id ∈ conflicted)
  || existsb (fun a => default false (reaches w !! a)) (default [] (auths w !! id)).

(** One round of the loop, on the popped entry. *)
Definition round (w : walk) (entry : string * bool) (rest : list (string * bool)) : walk :=
  let '(id, expanded) := entry in
  if expanded then
    mkWalk (<[id := verdict w id]> (reaches w)) (auths w) rest
  else if decide (is_Some (auths w !! id)) then
    mkWalk (reaches w) (auths w) rest
  else
    let auth_events := auth_of store id in
    let pushed := filter (fun a => auths w !! a = None) auth_events in
    mkWalk (reaches w) (<[id := auth_events]> (auths w))
      (reverse ((fun a => (a, false)) <$> pushed) ++ (id, true) :: rest).

Fixpoint walk_loop (fuel : nat) (w : walk) : result Error walk :=
  match stack w with
  | [] => Ok w
  | entry :: rest =>
      match fuel with
      | O => Err Diverges
      | S fuel => walk_loop fuel (round w entry rest)
      end
  end.

(** Everything the walk can meet. *)
Definition universe : gset string :=
  conflicted ∪ dom store ∪ list_to_set (mjoin ((fun p => auth_events p.2) <$> map_to_list store)).

(** Each event is expanded once, into a marker and at most its auth events. *)
Definition walk_fuel : nat :=
  size conflicted + weight (fun x => S (length (auth_of store x))) universe.

Definition conflicted_state_subgraph : result Error (gset string) :=
  w ← walk_loop walk_fuel
        (mkWalk ∅ ∅ (reverse ((fun id => (id, false)) <$> iter conflicted)));
  Ok (dom (filter (fun p : string * bool => p.2 = true) (reaches w))).

End Walk.

(** ** Correctness *)

Section Correct.
Context (store : EventStore) (conflicted : gset string) (rank : string -> nat).
Hypothesis Hranked : ranked store rank.

(** [a] is an auth event of [x]. *)
Definition names (x a : string) : Prop := a ∈ auth_of store x.

(** [x] is, or descends from, a conflicted event along [names]. *)
Definition below_conflicted (x : string) : Prop := exists c, c ∈ conflicted /\ rtc names c x.
Definition reaches_conflicted (x : string) : Prop := exists c, c ∈ conflicted /\ rtc names x c.

Definition correct_verdict (x : string) (b : bool) : Prop := b = true <-> reaches_conflicted x.

Lemma reaches_conflicted_step x :
  reaches_conflicted x <-> x ∈ conflicted \/ exists a, names x a /\ reaches_conflicted a.
Proof.
  split.
  - intros (c & Hc & Hr). apply rtc_inv in Hr as [->|(a & Ha & Hr)]; [by left|].
    right. exists a. split; [done|]. by exists c.
  - intros [Hx|(a & Ha & c & Hc & Hr)]; [exists x; split; [done|constructor]|].
    exists c. split; [done|]. by eapply rtc_l.
Qed.

(** Everything above the marker of an event is of lower rank. *)
Fixpoint ranks_ok (above stack : list (string * bool)) : Prop :=
  match stack with
  | [] => True
  | (x, b) :: stack =>
      (b = true -> forall e, e ∈ above -> (rank e.1 < rank x)%nat) /\
      ranks_ok ((x, b) :: above) stack
  end.

(** The auth events of a marked event have their verdict, or are above it. *)
Fixpoint kids_ok (R : string -> Prop) (above stack : list (string * bool)) : Prop :=
  match stack with
  | [] => True
  | (x, b) :: stack =>
      (b = true -> forall a, names x a -> R a \/ exists c, (a, c) ∈ above) /\
      kids_ok R ((x, b) :: above) stack
  end.

Lemma ranks_ok_elim above st z e :
  ranks_ok above st -> (z, true) ∈ st -> e ∈ above -> (rank e.1 < rank z)%nat.
Proof.
  revert above. induction st as [|[x b] st IH]; intros above Hr Hz He; [set_solver|].
  destruct Hr as [Hx Hr]. apply elem_of_cons in Hz as [[= -> <-]|Hz]; [by apply Hx|].
  eapply IH; [done|done|by right].
Qed.

Lemma ranks_ok_mono above above' st :
  ranks_ok above st ->
  (forall z e, (z, true) ∈ st -> e ∈ above' -> (rank e.1 < rank z)%nat) -> ranks_ok above' st.
Proof.
  revert above above'. induction st as [|[x b] st IH]; intros above above' Hr Hab; cbn; [done|].
  destruct Hr as [Hx Hr]. split; [intros -> e; apply Hab; left|].
  eapply IH; [done|]. intros z e Hz [->|He]%elem_of_cons.
  - eapply ranks_ok_elim; [done|done|left].
  - apply Hab; [by right|done].
Qed.

Lemma kids_ok_mono (R R' : string -> Prop) above above' st :
  kids_ok R above st -> (forall x, R x -> R' x) ->
  (forall x a c, (x, true) ∈ st -> names x a -> (a, c) ∈ above ->
     R' a \/ exists c', (a, c') ∈ above') ->
  kids_ok R' above' st.
Proof.
  revert above above'. induction st as [|[x b] st IH]; intros above above' Hk HR Hab; cbn; [done|].
  destruct Hk as [Hx Hk]. split.
  - intros -> a Ha. destruct (Hx eq_refl a Ha) as [|[c Hc]]; [auto|].
    eapply Hab; [left|done|done].
  - eapply IH; [done|done|]. intros z a c Hz Ha [Hc|Hc]%elem_of_cons.
    + right. exists c. rewrite Hc. left.
    + destruct (Hab z a c) as [|[c' ?]]; [by right|done|done|auto|]. right. exists c'. by right.
Qed.

(** Entries that are not markers may be put on top. *)
Lemma stack_push R (new : list string) above st :
  let entries := (fun a => (a, false)) <$> new in
  ranks_ok (reverse entries ++ above) st -> kids_ok R (reverse entries ++ above) st ->
  ranks_ok above (entries ++ st) /\ kids_ok R above (entries ++ st).
Proof.
  revert above. induction new as [|a new IH]; intros above; [done|]. cbv zeta.
  rewrite fmap_cons, reverse_cons, <-app_assoc. intros Hr Hk.
  destruct (IH ((a, false) :: above) Hr Hk). done.
Qed.

Record walk_inv (w : walk) : Prop := {
  wi_reaches x b : reaches w !! x = Some b -> correct_verdict x b;
  wi_auths x l : auths w !! x = Some l -> l = auth_of store x /\ below_conflicted x /\
    (is_Some (reaches w !! x) \/ (x, true) ∈ stack w);
  wi_ranks : ranks_ok [] (stack w);
  wi_kids : kids_ok (fun x => is_Some (reaches w !! x)) [] (stack w);
  wi_expanded x : (x, true) ∈ stack w \/ is_Some (reaches w !! x) -> is_Some (auths w !! x);
  wi_stack x b : (x, b) ∈ stack w -> below_conflicted x;
  wi_closed x a : is_Some (auths w !! x) -> names x a ->
    is_Some (auths w !! a) \/ (a, false) ∈ stack w;
  wi_start c : c ∈ conflicted -> is_Some (auths w !! c) \/ (c, false) ∈ stack w
}.

(** An event whose auth events all have verdicts gets its own. *)
Lemma verdict_correct w x rest :
  walk_inv w -> stack w = (x, true) :: rest -> correct_verdict x (verdict conflicted w x).
Proof.
  intros Hi Hst. pose proof (wi_kids _ Hi) as Hk. rewrite Hst in Hk. destruct Hk as [Hk _].
  destruct (wi_expanded _ Hi x) as [l Hl]; [left; rewrite Hst; left|].
  destruct (wi_auths _ Hi x l Hl) as (-> & _).
  unfold correct_verdict, verdict. rewrite Hl, orb_true_iff, bool_decide_eq_true,
    existsb_exists, reaches_conflicted_step. cbn [default].
  assert (Ha : forall a, names x a -> default false (reaches w !! a) = true
    <-> reaches_conflicted a).
  { intros a Ha. destruct (Hk eq_refl a Ha) as [[b Hb]|[c Hc]]; [|set_solver].
    rewrite Hb. apply (wi_reaches _ Hi a b Hb). }
  split; (intros [?|(a & Hin & Hr)]; [by left|right; exists a; split]).
  1, 3: by apply list_elem_of_In.
  1, 2: apply Ha; [|done]; first [done|by apply list_elem_of_In].
Qed.

Lemma round_mark w x rest :
  walk_inv w -> stack w = (x, true) :: rest -> walk_inv (round store conflicted w (x, true) rest).
Proof.
  intros Hi Hst. pose proof (verdict_correct _ _ _ Hi Hst) as Hv.
  pose proof (insert_is_Some (reaches w) x (verdict conflicted w x)) as HR.
  destruct Hi as [Hr Ha Hrk Hk He Hs Hc Hst0]. rewrite Hst in *. destruct Hrk as [_ Hrk], Hk as [_ Hk].
  split; cbn.
  - intros y b. rewrite lookup_insert_Some. intros [[<- <-]|[_ ?]]; eauto.
  - intros y l Hl. destruct (Ha y l Hl) as (? & ? & Hd). split_and!; [done|done|].
    rewrite HR. destruct Hd as [|[[=]|]%elem_of_cons]; auto.
  - eapply ranks_ok_mono; [done|]. set_solver.
  - eapply kids_ok_mono; [done|intros; apply HR; by right|].
    intros z a c _ _ [= -> _]%list_elem_of_singleton. left. apply HR. by left.
  - intros y. rewrite HR. intros [Hy|[->|Hy]]; apply He; [left; by right|left; left|by right].
  - intros y b Hy. eapply Hs. by right.
  - intros y a Hy Hn. destruct (Hc y a Hy Hn) as [|[[=]|]%elem_of_cons]; auto.
  - intros c Hcc. destruct (Hst0 c Hcc) as [|[[=]|]%elem_of_cons]; auto.
Qed.

Lemma round_skip w x rest :
  walk_inv w -> stack w = (x, false) :: rest -> is_Some (auths w !! x) ->
  walk_inv (round store conflicted w (x, false) rest).
Proof.
  intros [Hr Ha Hrk Hk He Hs Hc Hst0] Hst Hx. rewrite Hst in *.
  destruct Hrk as [_ Hrk], Hk as [_ Hk]. unfold round. rewrite decide_True by done.
  assert (Hdone : is_Some (reaches w !! x)).
  { destruct Hx as [l Hl]. destruct (Ha x l Hl) as (_ & _ & [|Hin]); [done|].
    apply elem_of_cons in Hin as [[=]|Hin].
    pose proof (ranks_ok_elim _ _ _ (x, false) Hrk Hin ltac:(left)). cbn in *. lia. }
  split; cbn.
  - done.
  - intros y l Hl. destruct (Ha y l Hl) as (? & ? & Hd). split_and!; [done|done|].
    destruct Hd as [|[[=]|]%elem_of_cons]; auto.
  - eapply ranks_ok_mono; [done|]. set_solver.
  - eapply kids_ok_mono; [done|done|].
    intros z a c _ _ [= -> _]%list_elem_of_singleton. by left.
  - intros y Hy. apply He. destruct Hy; [left; by right|by right].
  - intros y b Hy. eapply Hs. by right.
  - intros y a Hy Hn. destruct (Hc y a Hy Hn) as [|[[= ->]|]%elem_of_cons]; auto.
  - intros c Hcc. destruct (Hst0 c Hcc) as [|[[= ->]|]%elem_of_cons]; auto.
Qed.

Lemma names_rank x a : names x a -> (rank a < rank x)%nat.
Proof. apply Hranked. Qed.

(** An auth event of the next event that was expanded already has its verdict. *)
Lemma expanded_kid w x rest a :
  walk_inv w -> stack w = (x, false) :: rest ->
  names x a -> is_Some (auths w !! a) -> is_Some (reaches w !! a).
Proof.
  intros [_ Ha Hrk _ _ _ _ _] Hst Hn [l Hl]. rewrite Hst in *. destruct Hrk as [_ Hrk].
  destruct (Ha a l Hl) as (_ & _ & [|Hin]); [done|]. apply elem_of_cons in Hin as [[=]|Hin].
  pose proof (ranks_ok_elim _ _ _ (x, false) Hrk Hin ltac:(left)).
  pose proof (names_rank x a Hn). cbn in *. lia.
Qed.

Lemma round_expand w x rest :
  walk_inv w -> stack w = (x, false) :: rest -> auths w !! x = None ->
  walk_inv (round store conflicted w (x, false) rest).
Proof.
  intros Hi Hst Hx. pose proof (fun a => expanded_kid w x rest a Hi Hst) as Hkid.
  destruct Hi as [Hr Ha Hrk Hk He Hs Hc Hst0]. rewrite Hst in *.
  destruct Hrk as [_ Hrk], Hk as [_ Hk].
  assert (Hbx : below_conflicted x) by (eapply Hs; left).
  unfold round. rewrite decide_False by (rewrite Hx; by intros [? [=]]).
  set (pushed := filter (fun a => auths w !! a = None) (auth_of store x)).
  assert (Hpushed : forall a, a ∈ pushed <-> names x a /\ auths w !! a = None).
  { intros a. unfold pushed. rewrite list_elem_of_filter. unfold names. tauto. }
  rewrite <-fmap_reverse. set (new := reverse pushed).
  assert (Hnew : forall a b, (a, b) ∈ (fun a => (a, false)) <$> new <->
    b = false /\ names x a /\ auths w !! a = None).
  { intros a b. rewrite list_elem_of_fmap. unfold new. setoid_rewrite elem_of_reverse.
    rewrite <-Hpushed. naive_solver. }
  pose proof (insert_is_Some (auths w) x (auth_of store x)) as HA.
  assert (Hlow : forall z e, (z, true) ∈ rest ->
    e ∈ (x, true) :: reverse ((fun a => (a, false)) <$> new) ++ [] -> (rank e.1 < rank z)%nat).
  { intros z [a b] Hz Hin.
    pose proof (ranks_ok_elim _ _ _ (x, false) Hrk Hz ltac:(left)) as Hxz. cbn in Hxz |- *.
    rewrite app_nil_r in Hin. apply elem_of_cons in Hin as [[= -> _]|Hin]; [done|].
    apply elem_of_reverse, Hnew in Hin as (_ & Hn & _).
    pose proof (names_rank x a Hn). lia. }
  destruct (stack_push (fun y => is_Some (reaches w !! y)) new [] ((x, true) :: rest))
    as [Hrk' Hk'].
  - split; [|eapply ranks_ok_mono; eauto].
    intros _ [a b] Hin. rewrite app_nil_r in Hin. apply elem_of_reverse, Hnew in Hin as (_ & Hn & _).
    cbn. by apply names_rank.
  - split.
    + intros _ a Hn. destruct (auths w !! a) eqn:E; [left; apply Hkid; eauto|].
      right. exists false. rewrite app_nil_r. by apply elem_of_reverse, Hnew.
    + eapply kids_ok_mono; [done|done|]. intros z a c _ _ [= -> _]%list_elem_of_singleton.
      right. exists true. left.
  - split; cbn; try done.
    + intros y l. rewrite lookup_insert_Some. intros [[<- <-]|[Hne Hl]].
      * split_and!; [done|done|]. right. set_solver.
      * destruct (Ha y l Hl) as (? & ? & Hd). split_and!; [done|done|].
        destruct Hd as [|[[=]|]%elem_of_cons]; [by left|]. right. set_solver.
    + intros y. rewrite HA, elem_of_app, Hnew, elem_of_cons.
      intros [[[[=] _]|[[= ->]|Hy]]|Hy]; [by left|..]; right; apply He; [left; by right|by right].
    + intros y b. rewrite elem_of_app, Hnew, elem_of_cons.
      intros [(_ & Hn & _)|[[= -> _]|Hy]]; [|done|eapply Hs; by right].
      destruct Hbx as (c & ? & ?). exists c. split; [done|]. by eapply rtc_r.
    + intros y a. rewrite HA, HA, elem_of_app, Hnew, elem_of_cons. intros [->|Hy] Hn.
      * destruct (auths w !! a) eqn:E; eauto 6.
      * destruct (Hc y a Hy Hn) as [|[[= ->]|]%elem_of_cons]; auto.
    + intros c. rewrite HA, elem_of_app, Hnew, elem_of_cons. intros Hcc.
      destruct (Hst0 c Hcc) as [|[[= ->]|]%elem_of_cons]; auto.
Qed.

(** The measure of the walk. *)
Definition walk_measure (U : gset string) (w : walk) : nat :=
  length (stack w) + weight (fun x => S (length (auth_of store x))) (U ∖ dom (auths w)).

Lemma round_inv U w entry rest :
  walk_inv w -> stack w = entry :: rest -> (forall x, below_conflicted x -> x ∈ U) ->
  walk_inv (round store conflicted w entry rest) /\
  (walk_measure U (round store conflicted w entry rest) < walk_measure U w)%nat.
Proof.
  intros Hi Hst HU. destruct entry as [x []].
  - split; [by apply round_mark|]. unfold walk_measure. rewrite Hst. cbn. lia.
  - destruct (auths w !! x) as [l|] eqn:Hx.
    + assert (is_Some (auths w !! x)) by eauto. split; [by apply round_skip|].
      unfold walk_measure, round. rewrite Hst, decide_True by done. cbn. lia.
    + split; [by apply round_expand|]. unfold walk_measure, round.
      rewrite decide_False by (rewrite Hx; by intros [? [=]]). rewrite Hst. cbn.
      rewrite length_app, length_reverse, length_fmap. cbn. rewrite dom_insert_L.
      apply not_elem_of_dom in Hx.
      rewrite (weight_remove _ (U ∖ dom (auths w)) x).
      2:{ apply elem_of_difference. split; [apply HU|done].
          eapply (wi_stack _ Hi). rewrite Hst. left. }
      replace (U ∖ ({[x]} ∪ dom (auths w))) with (U ∖ dom (auths w) ∖ {[x]}) by set_solver.
      pose proof (length_filter (fun a => auths w !! a = None) (auth_of store x)). lia.
Qed.

Lemma walk_loop_spec U fuel w :
  walk_inv w -> (forall x, below_conflicted x -> x ∈ U) -> (walk_measure U w <= fuel)%nat ->
  exists w', walk_loop store conflicted fuel w = Ok w' /\ walk_inv w' /\ stack w' = [].
Proof.
  intros Hi HU. revert w Hi. induction fuel as [|fuel IH]; intros w Hi Hf; cbn [walk_loop];
    destruct (stack w) as [|entry rest] eqn:Hst; eauto.
  - unfold walk_measure in Hf. rewrite Hst in Hf. cbn in Hf. lia.
  - destruct (round_inv U w entry rest Hi Hst HU) as [Hi' Hm]. apply IH; [done|lia].
Qed.

(** A finished walk has the verdict of exactly the events below conflicted ones. *)
Lemma walk_done w x :
  walk_inv w -> stack w = [] ->
  (exists b, reaches w !! x = Some b) <-> below_conflicted x.
Proof.
  intros [Hr Ha Hrk Hk He Hs Hc Hst0] Hst. rewrite Hst in *. split.
  - intros Hx. destruct (He x (or_intror Hx)) as [l Hl]. by apply (Ha x l Hl).
  - intros (c & Hcc & Hreach).
    assert (Haux : is_Some (auths w !! x)).
    { apply (rtc_ind_r (R := names) (fun y => is_Some (auths w !! y)) c); [| |done].
      - destruct (Hst0 c Hcc); [done|set_solver].
      - intros y z _ Hyz IH. destruct (Hc y z IH Hyz); [done|set_solver]. }
    destruct Haux as [l Hl]. destruct (Ha x l Hl) as (_ & _ & [|]); [done|set_solver].
Qed.

Lemma walk_start iter :
  enumerates iter ->
  walk_inv (mkWalk ∅ ∅ (reverse ((fun id => (id, false)) <$> iter conflicted))).
Proof.
  intros Hi. rewrite <-fmap_reverse.
  assert (Hin : forall x b, (x, b) ∈ (fun id => (id, false)) <$> reverse (iter conflicted) <->
    b = false /\ x ∈ conflicted).
  { intros x b. rewrite list_elem_of_fmap. setoid_rewrite elem_of_reverse.
    setoid_rewrite (iter_elem iter Hi). naive_solver. }
  destruct (stack_push (fun y => is_Some ((∅ : gmap string bool) !! y))
    (reverse (iter conflicted)) [] []) as [Hrk Hk]; [done|done|].
  rewrite app_nil_r in Hrk, Hk.
  split; cbn; try done.
  - intros x. rewrite Hin. intros [[[=] _]|[? [=]]].
  - intros x b [_ Hx]%Hin. exists x. split; [done|constructor].
  - intros x a [? [=]].
  - intros c Hc. right. by apply Hin.
Qed.

Lemma universe_below x : below_conflicted x -> x ∈ universe store conflicted.
Proof.
  intros (c & Hc & Hr). unfold universe.
  revert x Hr. apply (rtc_ind_r (R := names) (fun x => x ∈ _)); [set_solver|]. intros y z _ Hyz _.
  apply elem_of_union. right. apply elem_of_list_to_set. unfold names, auth_of in Hyz.
  destruct (store !! y) as [ev|] eqn:E; [|set_solver].
  apply list_elem_of_join. exists (auth_events ev). split; [done|].
  apply list_elem_of_fmap. exists (y, ev). split; [done|]. by apply elem_of_map_to_list.
Qed.

End Correct.

Lemma subgraph_spec store conflicted rank iter :
  ranked store rank -> enumerates iter ->
  exists X, conflicted_state_subgraph store conflicted iter = Ok X /\
    forall x, x ∈ X <-> exists c d, c ∈ conflicted /\ d ∈ conflicted /\
      rtc (names store) c x /\ rtc (names store) x d.
Proof.
  intros Hr Hi. unfold conflicted_state_subgraph.
  destruct (walk_loop_spec store conflicted rank Hr (universe store conflicted)
    (walk_fuel store conflicted) _ (walk_start store conflicted rank iter Hi))
    as (w & Hw & Hinv & Hst).
  - eapply universe_below; done.
  - unfold walk_measure, walk_fuel. cbn. rewrite length_reverse, length_fmap, (Hi conflicted).
    apply Nat.add_le_mono_l, weight_mono. set_solver.
  - rewrite Hw. cbn. eexists. split; [done|]. intros x.
    rewrite elem_of_dom. unfold is_Some. setoid_rewrite map_lookup_filter_Some. cbn.
    pose proof (walk_done store conflicted rank Hr w x Hinv Hst) as Hdone.
    split.
    + intros (b & Hb & ->). destruct (proj1 Hdone) as (c & Hc & Hcx); [eauto|].
      apply (wi_reaches _ _ _ _ Hinv) in Hb. destruct (proj1 Hb eq_refl) as (d & Hd & Hxd).
      by exists c, d.
    + intros (c & d & Hc & Hd & Hcx & Hxd). destruct (proj2 Hdone) as [b Hb]; [by exists c|].
      exists b. split; [done|]. apply (wi_reaches _ _ _ _ Hinv x b Hb). by exists d.
Qed.

(** Over an acyclic auth graph the walk ends and returns exactly the events
    on an auth path between two conflicted events, endpoints included. *)
Theorem subgraph_correct store conflicted rank iter :
  ranked store rank -> enumerates iter ->
  exists X, conflicted_state_subgraph store conflicted iter = Ok X /\
    forall x, x ∈ X <-> exists c d, c ∈ conflicted /\ d ∈ conflicted /\
      rtc (names store) c x /\ rtc (names store) x d.
Proof. apply subgraph_spec. Qed.

Import Sample.

(** [$c] names [$b], which names [$a]; the two ends are conflicted. *)
Definition link (id : string) (auth : list string) : Event :=
  mkEvent id room alice 1 "m.room.topic" "{}" (Some "") [] auth None.
Definition sample_chain : gmap string Event :=
  <["$a" := link "$a" []]> (<["$b" := link "$b" ["$a"]]> (<["$c" := link "$c" ["$b"]]> ∅)).

Lemma sample_chain_ranked :
  ranked sample_chain (fun x => if bool_decide (x = "$a") then 0
    else if bool_decide (x = "$b") then 1 else 2)%nat.
Proof.
  intros y a Ha. unfold auth_of in Ha. destruct (sample_chain !! y) as [ev|] eqn:E;
    [|set_solver]. unfold sample_chain in E.
  rewrite !lookup_insert_Some, lookup_empty in E.
  destruct E as [[<- <-]|[_ [[<- <-]|[_ [[<- <-]|[_ [=]]]]]]]; cbn in Ha; [set_solver|..];
    apply list_elem_of_singleton in Ha as ->; vm_compute; lia.
Qed.

Lemma subgraph_correct_witness :
  exists X, conflicted_state_subgraph sample_chain {["$a"; "$c"]} elements = Ok X /\ "$b" ∈ X.
Proof.
  destruct (subgraph_correct sample_chain {["$a"; "$c"]} _ elements sample_chain_ranked)
    as (X & HX & Hin); [intros Y; reflexivity|].
  exists X. split; [exact HX|]. apply Hin. exists "$c", "$a". split_and!; [set_solver|set_solver|..].
  - apply rtc_once. vm_compute. left.
  - apply rtc_once. vm_compute. left.
Defined.

End Subgraph.
