(* ===== verification/StateRes.v ===== *)
(** State resolution, [matrix/state_res/mod.rs] and [auth_check.rs]: splitting the
    state sets into agreed and conflicted entries, the auth chain difference, the
    iterative auth checks, and [resolve], which composes them with the sorts. *)
From S2P Require Import Prelude Order Event PowerLevels EventAuth Store Sort.
From S2P Require Import PowerSort Mainline Subgraph Sample.
Export EventAuth Store Sort PowerSort Mainline Subgraph.

Module StateRes.

Abbreviation StateMap := (gmap TypeStateKey string) (only parsing).

(** ** Agreed and conflicted state *)

(** [*x = x.saturating_add(1)] or [1]. *)
Definition bump (count : option Z) : Z :=
  match count with Some x => u64_saturating_add x 1 | None => 1 end.

Definition count_entry (occ : gmap TypeStateKey (gmap string Z)) (e : TypeStateKey * string) :
    gmap TypeStateKey (gmap string Z) :=
  let v := default ∅ (occ !! e.1) in
  <[e.1 := <[e.2 := bump (v !! e.2)]> v]> occ.

(** The loop over the flattened state sets. *)
Definition occurrences (sets : list StateMap) : gmap TypeStateKey (gmap string Z) :=
  foldl count_entry ∅ (mjoin (map_to_list <$> sets)).

(** [state_set_count] *)
Definition set_count (sets : list StateMap) : Z :=
  foldl (fun n _ => u64_saturating_add n 1) 0 sets.

(** One id of one key: agreed when every set has it. *)
Definition separate_id (n : Z) (k : TypeStateKey)
    (acc : StateMap * gmap TypeStateKey (list string)) (e : string * Z) :
    StateMap * gmap TypeStateKey (list string) :=
  let '(unconflicted, conflicted) := acc in
  if bool_decide (e.2 = n) then (<[k := e.1]> unconflicted, conflicted)
  else (unconflicted, <[k := default [] (conflicted !! k) ++ [e.1]]> conflicted).

Definition separate (sets : list StateMap) : StateMap * gmap TypeStateKey (list string) :=
  foldl (fun acc kv => foldl (separate_id (set_count sets) kv.1) acc (map_to_list kv.2))
    (∅, ∅) (map_to_list (occurrences sets)).

(** ** Auth chain difference *)

(** [*id_counts.entry(id).or_default() += 1] *)
Definition count_id (counts : gmap string Z) (id : string) : gmap string Z :=
  <[id := default 0 (counts !! id) + 1]> counts.

Definition get_auth_chain_diff (auth_chain_sets : list (gset string)) : gset string :=
  let id_counts := foldl count_id ∅ (mjoin (elements <$> auth_chain_sets)) in
  dom (filter (fun p : string * Z => p.2 < Z.of_nat (length auth_chain_sets)) id_counts).

(** ** Iterative auth checks *)

Section Resolve.
Context `{Identifiers, Json, Signatures}.
Context (store : EventStore).

(** The events to check, or the first that is missing. *)
Fixpoint fetch_all (ids : list string) : result Error (list Event) :=
  match ids with
  | [] => Ok []
  | id :: ids =>
      ev ← ok_or (store !! id) NotFound;
      evs ← fetch_all ids;
      Ok (ev :: evs)
  end.

(** The auth events of all of them that can be fetched, by their own id. *)
Definition fetched_auth_events (events : list Event) : gmap string Event :=
  list_to_map ((fun ev => (event_id ev, ev)) <$>
    omap (fun id => store !! id)
      (elements (list_to_set (mjoin (auth_events <$> events)) : gset string))).

Section Check.
Context (room_version : RoomVersion) (auths : gmap string Event).

(** The state the event's own auth events give. *)
Fixpoint listed_state (aids : list string) (state : gmap TypeStateKey Event) :
    result Error (gmap TypeStateKey Event) :=
  match aids with
  | [] => Ok state
  | aid :: aids =>
      match auths !! aid with
      | Some ev =>
          key ← ok_or (state_key ev) InvalidPdu;
          listed_state aids (<[with_state_key (event_type ev) key := ev]> state)
      | None => listed_state aids state
      end
  end.

(** The resolved state so far takes precedence on the auth types. *)
Fixpoint override_state (keys : list TypeStateKey) (resolved : StateMap)
    (state : gmap TypeStateKey Event) : gmap TypeStateKey Event :=
  match keys with
  | [] => state
  | key :: keys =>
      let state :=
        match resolved !! key with
        | Some id =>
            match (match auths !! id with Some ev => Some ev | None => store !! id end) with
            | Some ev => <[key := ev]> state
            | None => state
            end
        | None => state
        end in
      override_state keys resolved state
  end.

(** Since room version 12 the room id names the create event. *)
Definition implied_create (event : Event) (state : gmap TypeStateKey Event) :
    gmap TypeStateKey Event :=
  if room_create_event_id_as_room_id room_version then
    match create_event_id_of (room_id event) with
    | Some create_id =>
        match state !! (RoomCreate, ""), store !! create_id with
        | None, Some create => <[(RoomCreate, "") := create]> state
        | _, _ => state
        end
    | None => state
    end
  else state.

(** The state an event is checked against. *)
Definition auth_state (event : Event) (key : string) (resolved : StateMap) :
    result Error (gmap TypeStateKey Event) :=
  auth_types ← auth_types_for_event room_version (event_type event) (sender event)
                 (Some key) (content event);
  state ← listed_state (auth_events event) ∅;
  Ok (implied_create event (override_state auth_types resolved state)).

Definition check_event (event : Event) (resolved : StateMap) : result Error StateMap :=
  key ← ok_or (state_key event) InvalidPdu;
  state ← auth_state event key resolved;
  allowed ← auth_check (fun ty k => state !! (ty, k)) room_version event;
  Ok (if (allowed : bool)
      then <[with_state_key (event_type event) key := event_id event]> resolved
      else resolved).

Fixpoint check_events (events : list Event) (resolved : StateMap) : result Error StateMap :=
  match events with
  | [] => Ok resolved
  | event :: events => resolved ← check_event event resolved; check_events events resolved
  end.

End Check.

Definition iterative_auth_check (room_version : RoomVersion) (events_to_check : list string)
    (unconflicted_state : StateMap) : result Error StateMap :=
  events ← fetch_all events_to_check;
  check_events room_version (fetched_auth_events events) events unconflicted_state.

(** ** Resolution *)

Context (event_exists : string -> bool).
Context (iter : gset string -> list string).
Context (unordered : list Event -> list Event).

(** The ids of [conflicting.into_values().flatten()]. *)
Definition conflicted_ids (conflicting : gmap TypeStateKey (list string)) : gset string :=
  list_to_set (mjoin (snd <$> map_to_list conflicting)).

(** The full conflicted set. *)
Definition full_conflicted (room_version : RoomVersion)
    (conflicting : gmap TypeStateKey (list string)) (auth_chain_sets : list (gset string)) :
    result Error (gset string) :=
  let conflicted_set := conflicted_ids conflicting in
  subgraph ← (if state_res_v2_1 room_version
              then conflicted_state_subgraph store conflicted_set iter
              else Ok ∅);
  Ok (filter (fun id => event_exists id = true)
        (get_auth_chain_diff auth_chain_sets ∪ conflicted_set ∪ subgraph)).

(** The part of [resolve] that runs when there is a conflict. *)
Definition resolve_conflicts (room_version : RoomVersion) (clean : StateMap)
    (all_conflicted : gset string) : result Error StateMap :=
  let control_events :=
    filter (fun id => is_power_event_id store id = true) (iter all_conflicted) in
  sorted_control_levels ←
    reverse_topological_power_sort store iter unordered room_version control_events
      all_conflicted;
  let initial_state := if state_res_v2_1 room_version then ∅ else clean in
  resolved_control ← iterative_auth_check room_version sorted_control_levels initial_state;
  let events_to_resolve :=
    filter (fun id => id ∉ sorted_control_levels) (iter all_conflicted) in
  let power_event := resolved_control !! (RoomPowerLevels, "") in
  sorted_left_events ← mainline_sort store iter events_to_resolve power_event;
  resolved_state ← iterative_auth_check room_version sorted_left_events resolved_control;
  Ok (clean ∪ resolved_state).

Definition resolve (version : RoomVersionId) (state_sets : list StateMap)
    (auth_chain_sets : list (gset string)) : result Error StateMap :=
  room_version ← ok_or (new version) Unsupported;
  let '(clean, conflicting) := separate state_sets in
  if decide (conflicting = ∅) then Ok clean
  else
    all_conflicted ← full_conflicted room_version conflicting auth_chain_sets;
    resolve_conflicts room_version clean all_conflicted.

End Resolve.

(** ** Counting *)

Lemma mjoin_cons {A} (k : list A) ls : mjoin (k :: ls) = k ++ mjoin ls.
Proof. done. Qed.

(** How often [x] occurs in [l]. *)
Definition occ {A} `{EqDecision A} (x : A) (l : list A) : nat := length (filter (x =.) l).

Lemma occ_app {A} `{EqDecision A} (x : A) k l : occ x (k ++ l) = (occ x k + occ x l)%nat.
Proof. unfold occ. by rewrite filter_app, length_app. Qed.

Lemma occ_pos {A} `{EqDecision A} (x : A) l : (0 < occ x l)%nat <-> x ∈ l.
Proof.
  induction l as [|y l IH]; [unfold occ; cbn; set_solver by lia|].
  unfold occ in *. rewrite filter_cons, elem_of_cons. case_decide; cbn; [split; [by left|lia]|].
  naive_solver.
Qed.

Lemma occ_NoDup {A} `{EqDecision A} (x : A) l :
  NoDup l -> occ x l = if decide (x ∈ l) then 1%nat else 0%nat.
Proof.
  induction 1 as [|y l Hy Hnd IH]; [by rewrite decide_False by set_solver|].
  unfold occ in *. rewrite filter_cons. destruct (decide (x = y)) as [->|E].
  - cbn [length]. rewrite IH. repeat case_decide; set_solver.
  - rewrite IH. destruct (decide (x ∈ l)), (decide (x ∈ y :: l)); set_solver.
Qed.

(** Over lists without duplicates, the number of lists that have the element. *)
Lemma occ_join {A B} `{EqDecision A} (x : A) (f : B -> list A) (P : B -> Prop)
    `{!forall b, Decision (P b)} (ls : list B) :
  (forall b, NoDup (f b)) -> (forall b, x ∈ f b <-> P b) ->
  occ x (mjoin (f <$> ls)) = length (filter P ls).
Proof.
  intros Hnd HP. induction ls as [|b ls IH]; [done|].
  rewrite fmap_cons, mjoin_cons, occ_app, IH, filter_cons, occ_NoDup by done.
  destruct (decide (x ∈ f b)) as [Hx|Hx], (decide (P b)) as [Hp|Hp]; rewrite ?HP in Hx;
    first [done|cbn; lia].
Qed.

(** Every list passes a filter exactly when the count is the length. *)
Lemma filter_full {A} (P : A -> Prop) `{!forall x, Decision (P x)} (l : list A) :
  length (filter P l) = length l <-> Forall P l.
Proof.
  induction l as [|x l IH]; [done|]. rewrite filter_cons, Forall_cons.
  pose proof (length_filter P l). case_decide; cbn; [rewrite <-IH; naive_solver lia|].
  split; [lia|tauto].
Qed.

Lemma occ_single {A} `{EqDecision A} (x y : A) :
  occ x [y] = if decide (x = y) then 1%nat else 0%nat.
Proof. unfold occ. rewrite filter_cons. by case_decide. Qed.

Lemma count_entry_spec l k id :
  default ∅ (foldl count_entry ∅ l !! k) !! id =
    if decide (occ (k, id) l = 0%nat) then None
    else Some (Z.min u64_max (Z.of_nat (occ (k, id) l))).
Proof.
  induction l as [|[k' id'] l IH] using rev_ind; [done|].
  rewrite foldl_app, occ_app, occ_single. cbn [foldl]. unfold count_entry at 1. cbn [fst snd].
  set (m := foldl count_entry ∅ l) in *. set (n := occ (k, id) l) in *.
  destruct (decide ((k, id) = (k', id'))) as [[= <- <-]|Hne].
  - rewrite lookup_insert_eq. simpl (default _ _). rewrite lookup_insert_eq, IH.
    clearbody n.
    destruct (decide (n = 0)%nat) as [Hn|Hn], (decide (n + 1 = 0)%nat); [lia| |lia|];
      f_equal; cbn; unfold u64_saturating_add, clamp_range, u64_max; lia.
  - rewrite Nat.add_0_r, <-IH. destruct (decide (k' = k)) as [->|Hk].
    + rewrite lookup_insert_eq. simpl (default _ _). by rewrite lookup_insert_ne by congruence.
    + by rewrite lookup_insert_ne.
Qed.

Lemma set_count_spec sets : set_count sets = Z.min u64_max (Z.of_nat (length sets)).
Proof.
  unfold set_count. induction sets as [|s sets IH] using rev_ind; [done|].
  rewrite foldl_app, length_app, IH. cbn. unfold u64_saturating_add, clamp_range, u64_max. lia.
Qed.

(** The number of sets that give [k] the event [id]. *)
Definition votes (sets : list StateMap) (k : TypeStateKey) (id : string) : nat :=
  length (filter (fun s : StateMap => s !! k = Some id) sets).

Lemma occurrences_spec sets k id :
  default ∅ (occurrences sets !! k) !! id =
    if decide (votes sets k id = 0%nat) then None
    else Some (Z.min u64_max (Z.of_nat (votes sets k id))).
Proof.
  unfold occurrences. rewrite count_entry_spec.
  rewrite (occ_join _ _ (fun s : StateMap => s !! k = Some id)); [done|..].
  - intros s. apply NoDup_map_to_list.
  - intros s. apply elem_of_map_to_list.
Qed.

(** ** The second loop *)

Lemma foldl_join {A C D} (f : D -> A -> D) (g : C -> list A) acc (l : list C) :
  foldl (fun acc c => foldl f acc (g c)) acc l = foldl f acc (mjoin (g <$> l)).
Proof.
  revert acc. induction l as [|c l IH]; intros acc; [done|].
  rewrite fmap_cons, mjoin_cons, foldl_app. cbn [foldl]. by rewrite <-IH.
Qed.

(** The entries of the count table, flattened. *)
Definition flat (m : gmap TypeStateKey (gmap string Z)) : list (TypeStateKey * (string * Z)) :=
  mjoin ((fun kv => pair kv.1 <$> map_to_list kv.2) <$> map_to_list m).

Lemma flat_elem m k id z :
  (k, (id, z)) ∈ flat m <-> default ∅ (m !! k) !! id = Some z.
Proof.
  unfold flat. rewrite list_elem_of_join. split.
  - intros (l & Hin & ([k' v] & -> & Hkv)%list_elem_of_fmap).
    apply list_elem_of_fmap in Hin as ([id' z'] & [= -> -> ->] & Hin).
    apply elem_of_map_to_list in Hkv, Hin. by rewrite Hkv.
  - destruct (m !! k) as [v|] eqn:E; cbn; [|done]. intros Hz.
    exists (pair k <$> map_to_list v). split.
    + apply list_elem_of_fmap. exists (id, z). split; [done|]. by apply elem_of_map_to_list.
    + apply list_elem_of_fmap. exists (k, v). split; [done|]. by apply elem_of_map_to_list.
Qed.

Definition separate_flat (n : Z) (l : list (TypeStateKey * (string * Z))) :
    StateMap * gmap TypeStateKey (list string) :=
  foldl (fun acc e => separate_id n e.1 acc e.2) (∅, ∅) l.

Lemma separate_is_flat sets :
  separate sets = separate_flat (set_count sets) (flat (occurrences sets)).
Proof.
  unfold separate, separate_flat, flat. rewrite <-foldl_join.
  generalize (∅ : StateMap, ∅ : gmap TypeStateKey (list string)).
  induction (map_to_list (occurrences sets)) as [|[k v] l IH]; intros acc; cbn [foldl]; [done|].
  rewrite IH. f_equal. cbn. clear IH. revert acc.
  induction (map_to_list v) as [|e l' IH]; intros acc; cbn; [done|]. apply IH.
Qed.

Lemma separate_flat_spec n l :
  (forall k id, (separate_flat n l).1 !! k = Some id -> (k, (id, n)) ∈ l) /\
  (forall k id, (k, (id, n)) ∈ l -> is_Some ((separate_flat n l).1 !! k)) /\
  (forall k id, id ∈ default [] ((separate_flat n l).2 !! k) <->
     exists z, z <> n /\ (k, (id, z)) ∈ l) /\
  (forall k, (separate_flat n l).2 !! k <> Some []).
Proof.
  induction l as [|[k' [id' z']] l IH] using rev_ind.
  { unfold separate_flat. cbn. setoid_rewrite lookup_empty. set_solver. }
  unfold separate_flat in *. rewrite foldl_app. cbn [foldl].
  destruct (foldl _ (∅, ∅) l) as [u c]. cbn [fst snd] in *.
  destruct IH as (IH1 & IH2 & IH3 & IH4). unfold separate_id. cbn [fst snd].
  case_bool_decide as E; cbn [fst snd]; [subst z'|]; split_and!.
  - intros k id. rewrite lookup_insert_Some. intros [[-> ->]|[? Hu]]; set_solver.
  - intros k id Hin. rewrite lookup_insert_is_Some.
    destruct (decide (k' = k)); [by left|]. right. split; [done|].
    apply (IH2 k id). set_solver.
  - intros k id. rewrite IH3. set_solver.
  - done.
  - intros k id Hu. set_solver.
  - intros k id Hin. apply (IH2 k id). set_solver.
  - intros k id. destruct (decide (k' = k)) as [->|Hk].
    + rewrite lookup_insert_eq. simpl (default _ (Some _)).
      rewrite elem_of_app, IH3, list_elem_of_singleton. split.
      * intros [(z & ? & ?)| ->]; [exists z|exists z']; set_solver.
      * intros (z & ? & [?|[= -> ->]%list_elem_of_singleton]%elem_of_app); eauto.
    + rewrite lookup_insert_ne, IH3 by done. set_solver.
  - intros k. rewrite lookup_insert_Some. intros [[-> Hnil]|[_ ?]]; [|by apply (IH4 k)].
    by apply app_nil in Hnil as [_ ?].
Qed.

Lemma votes_spec sets k id :
  (votes sets k id = length sets <-> forall s, s ∈ sets -> s !! k = Some id) /\
  (votes sets k id <> 0%nat <-> exists s, s ∈ sets /\ s !! k = Some id).
Proof.
  unfold votes. split; [rewrite filter_full, Forall_forall; done|]. split.
  - intros Hn. destruct (filter _ sets) as [|s l] eqn:E; [done|].
    assert (Hs : s ∈ filter (fun s : StateMap => s !! k = Some id) sets) by (rewrite E; left).
    apply list_elem_of_filter in Hs as [? ?]. eauto.
  - intros (s & Hs & Hk) Hn. apply nil_length_inv in Hn.
    assert (Hin : s ∈ filter (fun s : StateMap => s !! k = Some id) sets)
      by (by apply list_elem_of_filter). rewrite Hn in Hin. set_solver.
Qed.

Lemma separate_spec sets :
  Z.of_nat (length sets) <= u64_max ->
  (forall k id, (separate sets).1 !! k = Some id <->
     sets <> [] /\ forall s, s ∈ sets -> s !! k = Some id) /\
  (forall k id, id ∈ default [] ((separate sets).2 !! k) <->
     (exists s, s ∈ sets /\ s !! k = Some id) /\
     ~ (forall s, s ∈ sets -> s !! k = Some id)) /\
  (forall k, (separate sets).2 !! k <> Some []).
Proof.
  intros Hlen. rewrite separate_is_flat.
  destruct (separate_flat_spec (set_count sets) (flat (occurrences sets)))
    as (Hu1 & Hu2 & Hc & Hne).
  assert (Hn : set_count sets = Z.of_nat (length sets)) by (rewrite set_count_spec; lia).
  assert (Hflat : forall k id z, (k, (id, z)) ∈ flat (occurrences sets) <->
    votes sets k id <> 0%nat /\ z = Z.of_nat (votes sets k id)).
  { intros k id z. rewrite flat_elem, occurrences_spec.
    assert (votes sets k id <= length sets)%nat by apply length_filter.
    case_decide; [naive_solver lia|]. split; [intros [= <-]|intros [_ ->]; f_equal]; lia. }
  assert (Hagree : forall k id, (k, (id, set_count sets)) ∈ flat (occurrences sets) <->
    sets <> [] /\ forall s, s ∈ sets -> s !! k = Some id).
  { intros k id. rewrite Hflat, Hn, <-(proj1 (votes_spec sets k id)).
    destruct sets as [|s sets]; [cbn; naive_solver|]. cbn [length]. naive_solver lia. }
  split_and!; [|intros k id|done].
  - intros k id. split; [intros ?%Hu1; by apply Hagree|]. intros Ha.
    pose proof Ha as Hin%Hagree. destruct (Hu2 _ _ Hin) as [id' Hid'].
    rewrite Hid'. f_equal. apply Hu1, Hagree in Hid' as [_ Hs'].
    destruct Ha as [Hne' Hs]. destruct sets as [|s sets]; [done|].
    specialize (Hs s ltac:(left)). specialize (Hs' s ltac:(left)). congruence.
  - rewrite Hc. setoid_rewrite Hflat. rewrite Hn.
    rewrite <-(proj1 (votes_spec sets k id)), <-(proj2 (votes_spec sets k id)).
    split; [intros (z & Hz & Hv & ->); naive_solver lia|].
    intros [Hv Hl]. exists (Z.of_nat (votes sets k id)). naive_solver lia.
Qed.

(** ** The auth chain difference *)

Lemma count_id_spec l id :
  foldl count_id ∅ l !! id =
    if decide (occ id l = 0%nat) then None else Some (Z.of_nat (occ id l)).
Proof.
  induction l as [|x l IH] using rev_ind; [done|].
  rewrite foldl_app, occ_app, occ_single. cbn [foldl]. unfold count_id at 1.
  set (m := foldl count_id ∅ l) in *. set (n := occ id l) in *. clearbody n.
  destruct (decide (id = x)) as [<-|Hne].
  - rewrite lookup_insert_eq, IH.
    destruct (decide (n = 0)%nat), (decide (n + 1 = 0)%nat); [lia| |lia|];
      f_equal; cbn; lia.
  - by rewrite lookup_insert_ne, IH, Nat.add_0_r.
Qed.

Lemma auth_chain_diff_spec sets id :
  id ∈ get_auth_chain_diff sets <->
  (exists s, s ∈ sets /\ id ∈ s) /\ ~ (forall s, s ∈ sets -> id ∈ s).
Proof.
  unfold get_auth_chain_diff. rewrite elem_of_dom. unfold is_Some.
  setoid_rewrite map_lookup_filter_Some. setoid_rewrite count_id_spec.
  rewrite (occ_join id elements (fun s => id ∈ s)).
  2:{ intros. apply NoDup_elements. } 2:{ intros. apply elem_of_elements. }
  set (n := length (filter (fun s => id ∈ s) sets)).
  assert (Hall : n = length sets <-> forall s, s ∈ sets -> id ∈ s).
  { unfold n. by rewrite filter_full, Forall_forall. }
  assert (Hex : n <> 0%nat <-> exists s, s ∈ sets /\ id ∈ s).
  { unfold n. split.
    - intros Hn. destruct (filter _ sets) as [|s l] eqn:E; [done|].
      assert (Hs : s ∈ filter (fun s => id ∈ s) sets) by (rewrite E; left).
      apply list_elem_of_filter in Hs as [? ?]. eauto.
    - intros (s & Hs & Hk) Hn. apply nil_length_inv in Hn.
      assert (Hin : s ∈ filter (fun s => id ∈ s) sets) by (by apply list_elem_of_filter).
      rewrite Hn in Hin. set_solver. }
  assert (n <= length sets)%nat by apply length_filter.
  rewrite <-Hall, <-Hex. clearbody n. split.
  - intros (z & Hz & Hlt). case_decide; [done|]. simplify_eq. cbn in Hlt. lia.
  - intros [Hn Hl]. exists (Z.of_nat n). rewrite decide_False by done. cbn. split; [done|lia].
Qed.

(** ** What resolution lets through *)

(** The entry [k] of the state [ev] is judged against when [resolved] is the state
    resolved so far: on the keys [keys] of the auth rules the resolved entry, where
    it is stored; else the last of the event's own stored auth events for that key;
    else, from room version 12 on, the create event the room id names. *)
Definition entry_for `{Identifiers} (store : EventStore) (rv : RoomVersion) (ev : Event)
    (keys : list TypeStateKey) (resolved : StateMap) (k : TypeStateKey) : option Event :=
  match (if decide (k ∈ keys) then resolved !! k ≫= (store !!.) else None) with
  | Some e => Some e
  | None =>
      match last (filter (fun e => (event_type e, state_key e) = (k.1, Some k.2))
                    (omap (store !!.) (auth_events ev))) with
      | Some e => Some e
      | None =>
          if decide (room_create_event_id_as_room_id rv = true /\ k = (RoomCreate, ""))
          then create_event_id_of (room_id ev) ≫= (store !!.) else None
      end
  end.

(** The verdict on [ev] when [resolved] is the state resolved so far. *)
Definition verdict `{Identifiers, Json, Signatures} (store : EventStore) (rv : RoomVersion)
    (ev : Event) (resolved : StateMap) (allowed : bool) : Prop :=
  exists keys,
    auth_types_for_event rv (event_type ev) (sender ev) (state_key ev) (content ev) = Ok keys /\
    auth_check (fun ty k => entry_for store rv ev keys resolved (ty, k)) rv ev = Ok allowed.

(** The events are tried one after another: the allowed ones enter the state. *)
Inductive replay `{Identifiers, Json, Signatures} (store : EventStore) (rv : RoomVersion) :
    StateMap -> list string -> StateMap -> Prop :=
  | replay_nil r : replay store rv r [] r
  | replay_allow r x ev key l r' :
      store !! x = Some ev -> state_key ev = Some key -> verdict store rv ev r true ->
      replay store rv (<[(event_type ev, key) := x]> r) l r' ->
      replay store rv r (x :: l) r'
  | replay_refuse r x ev l r' :
      store !! x = Some ev -> verdict store rv ev r false ->
      replay store rv r l r' -> replay store rv r (x :: l) r'.

Section Sound.
Context `{Identifiers, Json, Signatures}.
Context (store : EventStore).
Hypothesis Hkeyed : keyed store.

Lemma fetched_stored evs id ev :
  fetched_auth_events store evs !! id = Some ev -> store !! id = Some ev.
Proof.
  unfold fetched_auth_events. intros Hl%elem_of_list_to_map_2.
  apply list_elem_of_fmap in Hl as (e & [= -> ->] & He).
  apply list_elem_of_omap in He as (x & _ & Hx). by rewrite (Hkeyed x e Hx).
Qed.

Lemma fetched_listed evs ev id :
  ev ∈ evs -> id ∈ auth_events ev -> fetched_auth_events store evs !! id = store !! id.
Proof.
  intros Hev Hid. destruct (store !! id) as [e|] eqn:E.
  - unfold fetched_auth_events. apply elem_of_list_to_map_1'.
    + intros e' He. apply list_elem_of_fmap in He as (e1 & [= -> ->] & He1).
      apply list_elem_of_omap in He1 as (x & _ & Hx). rewrite (Hkeyed x e1 Hx) in E. congruence.
    + apply list_elem_of_fmap. exists e. split; [by rewrite (Hkeyed id e E)|].
      apply list_elem_of_omap. exists id. split; [|done]. apply elem_of_elements, elem_of_list_to_set.
      apply list_elem_of_join. exists (auth_events ev). split; [done|].
      apply list_elem_of_fmap. eauto.
  - destruct (fetched_auth_events store evs !! id) as [e|] eqn:E'; [|done].
    apply fetched_stored in E'. congruence.
Qed.

Lemma listed_state_spec auths aids st st' k :
  listed_state auths aids st = Ok st' ->
  st' !! k = match last (filter (fun e => (event_type e, state_key e) = (k.1, Some k.2))
                           (omap (auths !!.) aids)) with
             | Some e => Some e
             | None => st !! k
             end.
Proof.
  revert st. induction aids as [|aid aids IH]; intros st; cbn; [by intros [= <-]|].
  destruct (auths !! aid) as [e|]; [|apply IH]. intros Hl. bind_inv. rewrite (IH _ Hl).
  rewrite filter_cons. destruct (decide _) as [He|He].
  - rewrite last_cons. case_match; [done|]. destruct k as [ty key]. cbn in He.
    apply lookup_insert_Some. left. split; [|done]. unfold with_state_key. congruence.
  - case_match; [done|]. apply lookup_insert_ne. intros <-. apply He. cbn. congruence.
Qed.

Lemma override_state_spec auths keys r st k :
  (forall id ev, auths !! id = Some ev -> store !! id = Some ev) ->
  override_state store auths keys r st !! k =
  match (if decide (k ∈ keys) then r !! k ≫= (store !!.) else None) with
  | Some e => Some e
  | None => st !! k
  end.
Proof.
  intros Ha. revert st. induction keys as [|key keys IH]; intros st; cbn.
  { by rewrite decide_False by set_solver. }
  rewrite IH. clear IH.
  assert (Hl : forall id, (match auths !! id with Some ev => Some ev | None => store !! id end)
    = store !! id).
  { intros id. destruct (auths !! id) eqn:E; [|done]. by apply Ha in E. }
  destruct (decide (k ∈ keys)) as [Hk|Hk].
  - rewrite (decide_True (P := k ∈ key :: keys)) by set_solver. case_match eqn:E; [done|].
    destruct (r !! key) as [id|] eqn:Er; [|done]. rewrite Hl.
    destruct (store !! id) eqn:Es; [|done]. apply lookup_insert_ne. intros <-.
    rewrite Er in E. cbn in E. congruence.
  - destruct (decide (k = key)) as [->|Hne].
    + rewrite decide_True by left. destruct (r !! key) as [id|] eqn:Er; cbn; [|done].
      rewrite Hl. destruct (store !! id); [|done]. by rewrite lookup_insert_eq.
    + rewrite decide_False by set_solver. destruct (r !! key) as [id|]; [|done]. rewrite Hl.
      destruct (store !! id); [|done]. by rewrite lookup_insert_ne.
Qed.

(** The state the code builds is [entry_for], entry by entry. *)
Lemma auth_state_spec rv evs ev key r st :
  ev ∈ evs -> state_key ev = Some key ->
  auth_state store rv (fetched_auth_events store evs) ev key r = Ok st ->
  exists keys,
    auth_types_for_event rv (event_type ev) (sender ev) (state_key ev) (content ev) = Ok keys /\
    forall k, st !! k = entry_for store rv ev keys r k.
Proof.
  unfold auth_state. intros Hev Hkey Hs. rewrite Hkey. bind_inv. exists v. split; [done|].
  intros k. set (o := override_state _ _ _ _ _).
  assert (Ho : forall k, o !! k =
    match (if decide (k ∈ v) then r !! k ≫= (store !!.) else None) with
    | Some e => Some e
    | None => last (filter (fun e => (event_type e, state_key e) = (k.1, Some k.2))
                (omap (store !!.) (auth_events ev)))
    end).
  { intros k'. unfold o. rewrite override_state_spec by apply fetched_stored.
    case_match; [done|]. rewrite (listed_state_spec _ _ _ _ k' Hv0), lookup_empty.
    rewrite (list_omap_ext (fetched_auth_events store evs !!.) (store !!.)
      (auth_events ev) (auth_events ev)).
    - by destruct (last _).
    - apply Forall_Forall2_diag, Forall_forall. intros x Hx. by eapply fetched_listed. }
  unfold entry_for, implied_create. specialize (Ho k) as Hok.
  destruct (room_create_event_id_as_room_id rv) eqn:Ev.
  2:{ rewrite (decide_False (P := false = true /\ _)) by naive_solver. rewrite Hok.
      case_match; [done|]. by destruct (last _). }
  destruct (decide (k = (RoomCreate, ""))) as [->|Hk].
  - rewrite (decide_True (P := true = true /\ _)) by done.
    destruct (create_event_id_of (room_id ev)) as [cid|]; cbn.
    + destruct (o !! (RoomCreate, "")) as [c|] eqn:Eo.
      * rewrite Eo, Hok. case_match; [done|]. by destruct (last _).
      * revert Hok. case_match; [done|]. intros Hok. cbn [fst snd] in Hok. rewrite <-Hok. destruct (store !! cid); [by rewrite lookup_insert_eq|done].
    + rewrite Hok. case_match; [done|]. by destruct (last _).
  - rewrite (decide_False (P := true = true /\ _)) by naive_solver.
    transitivity (o !! k).
    + destruct (create_event_id_of (room_id ev)) as [cid|]; [|done].
      destruct (o !! (RoomCreate, "")); [done|].
      destruct (store !! cid); [|done]. by rewrite lookup_insert_ne.
    + rewrite Hok. case_match; [done|]. by destruct (last _).
Qed.

Lemma check_event_spec rv evs x ev r r' l rf :
  ev ∈ evs -> store !! x = Some ev ->
  check_event store rv (fetched_auth_events store evs) ev r = Ok r' ->
  replay store rv r' l rf -> replay store rv r (x :: l) rf.
Proof.
  unfold check_event. intros Hev Hx Hc Hr. bind_inv.
  destruct (auth_state_spec _ _ _ _ _ _ Hev Hv Hv0) as (keys & Hk & Hst).
  assert (Hvd : verdict store rv ev r v1).
  { exists keys. split; [done|]. rewrite <-Hv1. apply auth_check_ext. intros. by rewrite Hst. }
  destruct v1; [|by eapply replay_refuse]. eapply replay_allow; [done..|].
  by rewrite <-(Hkeyed x ev Hx).
Qed.

Lemma check_events_spec rv evs ids evs' r r' :
  fetch_all store ids = Ok evs' -> evs' ⊆ evs ->
  check_events store rv (fetched_auth_events store evs) evs' r = Ok r' ->
  replay store rv r ids r'.
Proof.
  revert evs' r. induction ids as [|x ids IH]; intros evs' r; cbn.
  { intros [= <-] _ [= <-]. constructor. }
  intros Hf Hsub Hc. bind_inv. cbn in Hc. bind_inv.
  eapply check_event_spec; [|done|done|]; [set_solver|]. eapply IH; [done|set_solver|done].
Qed.

Lemma iterative_replay rv ids r r' :
  iterative_auth_check store rv ids r = Ok r' -> replay store rv r ids r'.
Proof.
  unfold iterative_auth_check. intros Hc. bind_inv. by eapply check_events_spec.
Qed.

Lemma replay_app rv r l r1 l' r' :
  replay store rv r l r1 -> replay store rv r1 l' r' -> replay store rv r (l ++ l') r'.
Proof.
  induction 1 as [| |]; intros Hr; cbn; [done|eapply replay_allow; eauto|
    eapply replay_refuse; eauto].
Qed.

(** An entry of the outcome was there from the start, or was the last to be allowed
    under its key. *)
Lemma replay_entry rv r l r' k id :
  replay store rv r l r' -> r' !! k = Some id ->
  r !! k = Some id \/
  exists before after s ev,
    l = before ++ id :: after /\ replay store rv r before s /\
    store !! id = Some ev /\ event_type ev = k.1 /\ state_key ev = Some k.2 /\
    verdict store rv ev s true /\ replay store rv (<[k := id]> s) after r'.
Proof.
  induction 1 as [r|r x ev key l r' Hx Hkey Hv Hr IH|r x ev l r' Hx Hv Hr IH]; intros Hk.
  - by left.
  - destruct (IH Hk) as [Hi|(b & a & s & ev' & -> & Hb & Hrest)].
    + apply lookup_insert_Some in Hi as [[<- <-]|[_ Hi]]; [|by left]. right.
      exists [], l, r, ev. split_and!; try done. constructor.
    + right. exists (x :: b), a, s, ev'. split; [done|]. split; [|done].
      by eapply replay_allow.
  - destruct (IH Hk) as [Hi|(b & a & s & ev' & -> & Hb & Hrest)]; [by left|].
    right. exists (x :: b), a, s, ev'. split; [done|]. split; [|done]. by eapply replay_refuse.
Qed.

End Sound.

(** ** Independence of iteration order *)

Lemma find_perm {A} (f : A -> bool) l l' :
  l ≡ₚ l' -> (forall x y, x ∈ l -> y ∈ l -> f x = true -> f y = true -> x = y) ->
  List.find f l = List.find f l'.
Proof.
  intros Hp Hu. destruct (List.find f l) as [x|] eqn:E, (List.find f l') as [y|] eqn:E'.
  - apply find_some in E as [Hx ?], E' as [Hy ?]. f_equal.
    apply Hu; [by apply list_elem_of_In|rewrite Hp; by apply list_elem_of_In|done|done].
  - apply find_some in E as [Hx Hf]. rewrite (find_none _ _ E' x) in Hf; [done|].
    apply list_elem_of_In. rewrite <-Hp. by apply list_elem_of_In.
  - apply find_some in E' as [Hy Hf]. rewrite (find_none _ _ E y) in Hf; [done|].
    apply list_elem_of_In. rewrite Hp. by apply list_elem_of_In.
  - done.
Qed.

(** Among the stored auth events of an event there is at most one with the given
    type and the empty state key. *)
Definition auth_unique (store : EventStore) (ty : string) : Prop :=
  forall id x y, x ∈ omap (fun a => store !! a) (auth_of store id) ->
    y ∈ omap (fun a => store !! a) (auth_of store id) ->
    is_type_and_key x ty "" = true -> is_type_and_key y ty "" = true -> x = y.

Section Order.
Context `{Identifiers, Json, Signatures}.
Context (store : EventStore).

Lemma power_level_unordered unordered rv id :
  (forall l, unordered l ≡ₚ l) -> auth_unique store RoomPowerLevels ->
  auth_unique store RoomCreate ->
  get_power_level_for_sender store unordered rv id =
  get_power_level_for_sender store (fun l => l) rv id.
Proof.
  intros Hun Hp Hc. unfold get_power_level_for_sender.
  assert (Hf : forall ty, auth_unique store ty ->
    List.find (fun aev => is_type_and_key aev ty "")
      (unordered (omap (fun a => store !! a) (auth_of store id))) =
    List.find (fun aev => is_type_and_key aev ty "")
      (omap (fun a => store !! a) (auth_of store id))).
  { intros ty Hu. symmetry. apply find_perm; [by rewrite Hun|]. intros x y. apply Hu. }
  by rewrite !Hf.
Qed.

Section Runs.
Context (rank : string -> nat) (event_exists : string -> bool).
Hypothesis Hranked : ranked store rank.
Hypothesis Hexists : forall x, event_exists x = true -> is_Some (store !! x).
Hypothesis Hpower : auth_unique store RoomPowerLevels.
Hypothesis Hcreate : auth_unique store RoomCreate.

(** What a run may choose: how hash tables are iterated, and in which order
    fetches complete. *)
Record choices := mkChoices {
  ch_iter : gset string -> list string;
  ch_unordered : list Event -> list Event;
  ch_iter_ok : enumerates ch_iter;
  ch_unordered_ok l : ch_unordered l ≡ₚ l
}.

Lemma full_conflicted_order rv conf acs (c c' : choices) :
  full_conflicted store event_exists (ch_iter c) rv conf acs =
  full_conflicted store event_exists (ch_iter c') rv conf acs.
Proof.
  unfold full_conflicted. destruct (state_res_v2_1 rv); [|done].
  destruct (subgraph_spec store (conflicted_ids conf) rank (ch_iter c) Hranked (ch_iter_ok c))
    as (X & -> & HX).
  destruct (subgraph_spec store (conflicted_ids conf) rank (ch_iter c') Hranked (ch_iter_ok c'))
    as (Y & -> & HY).
  assert (X = Y) as ->; [|done]. apply set_eq. intros x. by rewrite HX, HY.
Qed.

Lemma full_conflicted_stored rv conf acs iter X x :
  full_conflicted store event_exists iter rv conf acs = Ok X -> x ∈ X -> is_Some (store !! x).
Proof.
  unfold full_conflicted. intros HX. bind_inv. rewrite elem_of_filter. intros [? _]. auto.
Qed.

Lemma reached_in X events x :
  (forall s, s ∈ events -> s ∈ X) -> reached store X events x -> x ∈ X.
Proof.
  intros Hs (s & Hin & Hr). apply rtc_inv_r in Hr as [<-|(y & _ & [_ Hy])]; auto.
Qed.

Lemma resolve_conflicts_order rv clean X (c c' : choices) st :
  (forall x, x ∈ X -> is_Some (store !! x)) ->
  resolve_conflicts store (ch_iter c) (ch_unordered c) rv clean X = Ok st ->
  resolve_conflicts store (ch_iter c') (ch_unordered c') rv clean X = Ok st.
Proof.
  intros HX. unfold resolve_conflicts. intros Hr. bind_inv.
  assert (Hperm : ch_iter c X ≡ₚ ch_iter c' X)
    by (by rewrite (ch_iter_ok c X), (ch_iter_ok c' X)).
  assert (Hin : forall s, s ∈ filter (fun id => is_power_event_id store id = true) (ch_iter c X)
    -> s ∈ X).
  { intros s [_ Hs]%list_elem_of_filter. by apply (iter_elem _ (ch_iter_ok c)). }
  destruct (power_sort_order store (ch_iter c) (ch_iter c') (ch_unordered c) (ch_unordered c')
    rv (filter (fun id => is_power_event_id store id = true) (ch_iter c X))
    (filter (fun id => is_power_event_id store id = true) (ch_iter c' X)) X v)
    as [Hv' _]; [apply ch_iter_ok|apply ch_iter_ok|by rewrite Hperm| | |done|].
  { intros x. rewrite (power_level_unordered (ch_unordered c)) by (done || apply ch_unordered_ok).
    rewrite (power_level_unordered (ch_unordered c')) by (done || apply ch_unordered_ok). done. }
  { intros x Hx. apply HX. by eapply reached_in. }
  rewrite Hv'. cbn [mbind result_bind]. rewrite Hv0. cbn [mbind result_bind].
  rewrite <-(mainline_sort_order store (ch_iter c) (ch_iter c')
    (filter (fun id => id ∉ v) (ch_iter c X))).
  - rewrite Hv1. cbn [mbind result_bind]. by rewrite Hv2.
  - apply ch_iter_ok.
  - apply ch_iter_ok.
  - apply NoDup_filter. rewrite (ch_iter_ok c X). apply NoDup_elements.
  - by rewrite Hperm.
Qed.

Lemma resolve_order version sets acs (c c' : choices) st :
  resolve store event_exists (ch_iter c) (ch_unordered c) version sets acs = Ok st ->
  resolve store event_exists (ch_iter c') (ch_unordered c') version sets acs = Ok st.
Proof.
  unfold resolve. intros Hr. bind_inv. rewrite Hv. cbn [ok_or mbind result_bind].
  destruct (separate sets) as [clean conf]. case_decide; [done|]. bind_inv.
  rewrite (full_conflicted_order _ _ _ c' c), Hv0. cbn [mbind result_bind].
  eapply resolve_conflicts_order; [|done]. intros x. by eapply full_conflicted_stored.
Qed.

End Runs.
End Order.

(** ** Termination *)

(** The computation does not run out of fuel. *)
Definition ends {A} (r : result Error A) : Prop := r <> Err Diverges.

Lemma ends_bind {A B} (r : result Error A) (f : A -> result Error B) :
  ends r -> (forall a, r = Ok a -> ends (f a)) -> ends (r ≫= f).
Proof. unfold ends. destruct r as [a|e]; cbn; [|congruence]. intros _ Hf. by apply Hf. Qed.

Lemma ends_ok {A} (a : A) : ends (Ok a).
Proof. done. Qed.

Lemma ends_decoded {A} (o : option A) : ends (decoded o).
Proof. by destruct o. Qed.

Lemma ends_ok_or {A} (o : option A) e : e <> Diverges -> ends (ok_or o e).
Proof. unfold ends. destruct o; cbn; congruence. Qed.

(** Follows the binds and matches of a computation down to its errors. *)
Ltac ends_by t :=
  repeat first
    [ t | apply ends_ok | apply ends_decoded | apply ends_ok_or; discriminate
    | apply ends_bind; [|intros ? _] | case_match | discriminate ].
Ltac ends_tac := ends_by fail.

Section Ends.
Context `{Identifiers, Json, Signatures}.

Lemma auth_types_ends rv kind s key c : ends (auth_types_for_event rv kind s key c).
Proof. unfold auth_types_for_event. ends_tac. Qed.

Lemma membership_change_ends rv c : ends (valid_membership_change rv c).
Proof.
  assert (Ht : ends (transition_of rv c))
    by (unfold transition_of, membership_of, join_auth_valid; ends_tac).
  unfold valid_membership_change, is_first_join. apply ends_bind; [done|]. intros ? _. ends_tac.
Qed.

Lemma auth_check_ends fetch rv ev : ends (auth_check fetch rv ev).
Proof.
  unfold auth_check, check_create, check_member, sender_membership, sender_power_level,
    check_powers.
  ends_by ltac:(apply membership_change_ends).
Qed.

Lemma check_event_ends store rv auths ev r : ends (check_event store rv auths ev r).
Proof.
  unfold check_event, auth_state. apply ends_bind; [ends_tac|intros key _].
  apply ends_bind; [|intros; apply ends_bind; [apply auth_check_ends|intros; apply ends_ok]].
  apply ends_bind; [apply auth_types_ends|intros ? _].
  apply ends_bind; [|intros; apply ends_ok]. generalize (∅ : gmap TypeStateKey Event).
  induction (auth_events ev) as [|aid aids IH]; intros state; cbn; [done|].
  case_match; [|apply IH]. apply ends_bind; [ends_tac|intros; apply IH].
Qed.

Lemma iterative_ends store rv ids r : ends (iterative_auth_check store rv ids r).
Proof.
  unfold iterative_auth_check. apply ends_bind.
  - induction ids as [|id ids IH]; cbn; [done|]. apply ends_bind; [ends_tac|intros ? _].
    apply ends_bind; [done|intros; apply ends_ok].
  - intros evs _. generalize (fetched_auth_events store evs). intros auths. revert r.
    induction evs as [|ev evs IH]; intros r; cbn; [done|].
    apply ends_bind; [apply check_event_ends|intros; apply IH].
Qed.

Lemma sender_powers_ends store unordered rv ids : ends (sender_powers store unordered rv ids).
Proof.
  induction ids as [|id ids IH]; cbn; [done|]. apply ends_bind.
  - unfold get_power_level_for_sender. ends_tac.
  - intros ? _. apply ends_bind; [done|intros; apply ends_ok].
Qed.

Lemma power_sort_ends store iter unordered rv events diff :
  enumerates iter -> (forall x, reached store diff events x -> is_Some (store !! x)) ->
  ends (reverse_topological_power_sort store iter unordered rv events diff).
Proof.
  intros Hi Hst Hd. unfold reverse_topological_power_sort in Hd.
  destruct (build_graph_spec store diff ∅ events) as (graph & Hg & _ & Hk).
  { split; intros x; rewrite lookup_empty; [done|intros c [? [=]]]. }
  rewrite Hg in Hd. cbn [mbind result_bind] in Hd.
  destruct (sender_powers store unordered rv (iter (dom graph))) as [m|e] eqn:Em.
  2:{ cbn in Hd. simplify_eq. by apply (sender_powers_ends store unordered rv (iter (dom graph))). }
  set (pw := fun x => match get_power_level_for_sender store unordered rv x with
                      | Ok p => p | Err _ => Infinite end).
  destruct (power_sort_graph store unordered iter rv events diff pw Hi)
    as (g & m' & Hgok & Hk' & Hkey & Hs).
  { intros x Hx. split; [auto|]. unfold pw.
    destruct (sender_powers_known store unordered rv _ m Em x) as [p ->]; [|done].
    apply (iter_elem iter Hi), elem_of_dom, Hk. by right. }
  destruct (sort_refines iter Hi g _ _ Hkey) as (l & Hl & _).
  unfold reverse_topological_power_sort in Hs. rewrite Hg in Hs. cbn [mbind result_bind] in Hs.
  rewrite Em in Hs. cbn [mbind result_bind] in Hs, Hd. rewrite Hs, Hl in Hd. done.
Qed.

End Ends.

(** ** Properties *)

(** The split of the state sets. A key's event is agreed exactly when every
    set has it; it is conflicted exactly when some set has it and some does not;
    nothing is conflicted exactly when all sets are the same. *)
Theorem separate_correct (sets : list StateMap) :
  Z.of_nat (length sets) <= u64_max ->
  (forall k id, (separate sets).1 !! k = Some id <->
     sets <> [] /\ forall s, s ∈ sets -> s !! k = Some id) /\
  (forall k id, id ∈ default [] ((separate sets).2 !! k) <->
     (exists s, s ∈ sets /\ s !! k = Some id) /\
     ~ (forall s, s ∈ sets -> s !! k = Some id)) /\
  ((separate sets).2 = ∅ <-> forall s s', s ∈ sets -> s' ∈ sets -> s = s').
Proof.
  intros Hlen. destruct (separate_spec sets Hlen) as (Hu & Hc & Hne).
  split_and!; [done|done|]. split.
  - intros He s s' Hs Hs'. apply map_eq. intros k.
    assert (Hall : forall id t, t ∈ sets -> t !! k = Some id -> forall t', t' ∈ sets ->
      t' !! k = Some id).
    { intros id t Ht Htk t' Ht'. destruct (decide (t' !! k = Some id)) as [|Hn]; [done|].
      assert (Hin : id ∈ default [] ((separate sets).2 !! k))
        by (apply Hc; split; [by exists t|intros Ha; by apply Hn, Ha]).
      rewrite He, lookup_empty in Hin. by apply elem_of_nil in Hin. }
    destruct (s !! k) as [id|] eqn:E; [symmetry; exact (Hall id s Hs E s' Hs')|].
    destruct (s' !! k) as [id|] eqn:E'; [|done].
    by rewrite (Hall id s' Hs' E' s Hs) in E.
  - intros Heq. apply map_eq. intros k. rewrite lookup_empty.
    destruct ((separate sets).2 !! k) as [[|id l]|] eqn:E; [by destruct (Hne k)| |done].
    exfalso. destruct (Hc k id) as [Hin _]. rewrite E in Hin.
    destruct Hin as [(s & Hs & Hk) Hn]; [left|]. apply Hn.
    intros t Ht. by rewrite (Heq t s).
Qed.

(** The auth chain difference holds the ids of some auth chain that are not
    in all of them. *)
Theorem auth_chain_diff_correct (sets : list (gset string)) (id : string) :
  id ∈ get_auth_chain_diff sets <->
  (exists s, s ∈ sets /\ id ∈ s) /\ ~ (forall s, s ∈ sets -> id ∈ s).
Proof. apply auth_chain_diff_spec. Qed.

(** C3: resolution keeps what every state set agrees on; when the sets do not
    conflict it returns exactly their state. *)
Theorem resolve_keeps_agreement `{Identifiers, Json, Signatures}
    (store : EventStore) (exists_ : string -> bool)
    (iter : gset string -> list string) (unordered : list Event -> list Event)
    (version : RoomVersionId) (rv : RoomVersion) (sets : list StateMap)
    (acs : list (gset string)) (st : StateMap) :
  Z.of_nat (length sets) <= u64_max -> new version = Some rv ->
  resolve store exists_ iter unordered version sets acs = Ok st ->
  (forall k id, sets <> [] -> (forall s, s ∈ sets -> s !! k = Some id) -> st !! k = Some id) /\
  (forall s, s ∈ sets -> (forall s', s' ∈ sets -> s' = s) -> st = s).
Proof.
  intros Hlen Hrv. unfold resolve. rewrite Hrv. cbn [ok_or mbind result_bind].
  pose proof (separate_spec sets Hlen) as (Hu & Hc & Hne).
  destruct (separate sets) as [clean conf]. cbn [fst snd] in *. intros Hr.
  assert (Hkeep : forall k id, clean !! k = Some id -> st !! k = Some id).
  { intros k id Hk. case_decide; [by simplify_eq|]. unfold resolve_conflicts in Hr.
    bind_inv. by apply lookup_union_Some_l. }
  split.
  - intros k id Hn Ha. apply Hkeep, Hu. done.
  - intros s Hs Hall. assert (Hsets : sets <> []) by (intros ->; set_solver).
    assert (conf = ∅) as ->.
    { apply map_eq. intros k. rewrite lookup_empty.
      destruct (conf !! k) as [[|id l]|] eqn:E; [by destruct (Hne k)| |done]. exfalso.
      destruct (Hc k id) as [Hin _]. rewrite E in Hin.
      destruct Hin as [(t & Ht & Hk) Hn]; [left|]. apply Hn.
      intros t' Ht'. by rewrite (Hall t' Ht'), <-(Hall t Ht). }
    rewrite decide_True in Hr by done. injection Hr as <-. apply map_eq. intros k.
    destruct (s !! k) as [id|] eqn:E.
    + apply Hu. split; [done|]. intros t Ht. by rewrite (Hall t Ht).
    + destruct (clean !! k) as [id|] eqn:Ek; [|done]. apply Hu in Ek as [_ Ha].
      specialize (Ha s Hs). congruence.
Qed.

(** C2: a resolved state holds only authorised events. Under conflict, the
    sorted power events and then the mainline-sorted rest of the full conflicted
    set are tried one after another, each against the state [entry_for] gives for
    what was resolved up to it, starting from the agreed entries (from nothing in
    state resolution v2.1). Every entry of the result is agreed by all state sets,
    or is a stored event of the full conflicted set for that type and state key
    that was allowed at its turn, and the last so allowed. *)
Theorem resolve_authorised `{Identifiers, Json, Signatures}
    (store : EventStore) (exists_ : string -> bool)
    (iter : gset string -> list string) (unordered : list Event -> list Event)
    (version : RoomVersionId) (rv : RoomVersion) (sets : list StateMap)
    (acs : list (gset string)) (st : StateMap) (k : TypeStateKey) (id : string) :
  Z.of_nat (length sets) <= u64_max -> new version = Some rv -> enumerates iter ->
  keyed store -> (forall x, exists_ x = true -> is_Some (store !! x)) ->
  resolve store exists_ iter unordered version sets acs = Ok st -> st !! k = Some id ->
  (sets <> [] /\ forall s, s ∈ sets -> s !! k = Some id) \/
  exists X P r1 M r2 before after r ev,
    full_conflicted store exists_ iter rv (separate sets).2 acs = Ok X /\
    reverse_topological_power_sort store iter unordered rv
      (filter (fun x => is_power_event_id store x = true) (iter X)) X = Ok P /\
    let start := if state_res_v2_1 rv then ∅ else (separate sets).1 in
    replay store rv start P r1 /\
    mainline_sort store iter (filter (fun x => x ∉ P) (iter X)) (r1 !! (RoomPowerLevels, ""))
      = Ok M /\
    replay store rv r1 M r2 /\ st = (separate sets).1 ∪ r2 /\
    id ∈ X /\ P ++ M = before ++ id :: after /\ replay store rv start before r /\
    store !! id = Some ev /\ event_type ev = k.1 /\ state_key ev = Some k.2 /\
    verdict store rv ev r true /\ replay store rv (<[k := id]> r) after r2 /\
    r2 !! k = Some id.
Proof.
  intros Hlen Hrv Hi Hkd Hex. unfold resolve. rewrite Hrv. cbn [ok_or mbind result_bind].
  pose proof (separate_spec sets Hlen) as (Hu & _ & _).
  destruct (separate sets) as [clean conf]. cbn [fst snd] in *. intros Hr Hk.
  case_decide; [left; apply Hu; by simplify_eq|]. bind_inv. rename v into X.
  unfold resolve_conflicts in Hr. bind_inv. rename v into P, v0 into r1, v1 into M, v2 into r2.
  apply lookup_union_Some_raw in Hk as [Hk|[Hcl Hk]]; [left; by apply Hu|]. right.
  apply (iterative_replay _ Hkd) in Hv1, Hv3.
  pose proof (replay_app _ _ _ _ _ _ _ Hv1 Hv3) as Hall.
  destruct (replay_entry _ _ _ _ _ _ _ Hall Hk) as
    [Hs|(before & after & r & ev & Hl & Hb & Hst & Hty & Hkey & Hvd & Ha)].
  { case_match; [by rewrite lookup_empty in Hs|congruence]. }
  exists X, P, r1, M, r2, before, after, r, ev. split_and!; try done.
  assert (Hin : forall s, s ∈ filter (fun id => is_power_event_id store id = true) (iter X)
    -> s ∈ X) by (intros s [_ Hs]%list_elem_of_filter; by apply (iter_elem _ Hi)).
  assert (Hx : id ∈ P ++ M) by (rewrite Hl; set_solver).
  apply elem_of_app in Hx as [Hx|Hx].
  - eapply reached_in; [exact Hin|].
    eapply (power_sort_order store iter iter unordered unordered); try done.
    intros y Hy. eapply full_conflicted_stored; [done|done|]. by eapply reached_in.
  - eapply mainline_sort_elem, list_elem_of_filter in Hx as [_ Hx]; [|done|done].
    by apply (iter_elem _ Hi).
Qed.

(** C1: resolution is deterministic. Whatever order one run iterates its hash
    tables in and its fetches complete in, when it returns a state every other
    run returns the same: servers that hold the same events agree. *)
Theorem resolve_deterministic `{Identifiers, Json, Signatures}
    (store : EventStore) (rank : string -> nat) (exists_ : string -> bool)
    (version : RoomVersionId) (sets : list StateMap) (acs : list (gset string))
    (c c' : choices) (st : StateMap) :
  ranked store rank -> (forall x, exists_ x = true -> is_Some (store !! x)) ->
  auth_unique store RoomPowerLevels -> auth_unique store RoomCreate ->
  resolve store exists_ (ch_iter c) (ch_unordered c) version sets acs = Ok st ->
  resolve store exists_ (ch_iter c') (ch_unordered c') version sets acs = Ok st.
Proof. intros Hr Hex Hp Hc. by eapply resolve_order. Qed.

(** C4: over an acyclic auth graph resolution ends: none of its loops runs
    forever, in whatever order hash tables are iterated. *)
Theorem resolve_terminates `{Identifiers, Json, Signatures}
    (store : EventStore) (rank : string -> nat) (exists_ : string -> bool)
    (iter : gset string -> list string) (unordered : list Event -> list Event)
    (version : RoomVersionId) (sets : list StateMap) (acs : list (gset string)) :
  ranked store rank -> keyed store -> enumerates iter ->
  (forall x, exists_ x = true -> is_Some (store !! x)) ->
  resolve store exists_ iter unordered version sets acs <> Err Diverges /\
  (forall x ev depths, store !! x = Some ev ->
     get_mainline_depth store ev depths <> Err Diverges).
Proof.
  intros Hr Hk Hi Hex. split.
  - change (ends (resolve store exists_ iter unordered version sets acs)).
    unfold resolve. apply ends_bind; [ends_tac|intros rv _].
    destruct (separate sets) as [clean conf]. case_decide; [done|].
    apply ends_bind.
    { unfold full_conflicted. case_match; [|done].
      destruct (subgraph_spec store (conflicted_ids conf) rank iter Hr Hi) as (X & -> & _). done. }
    intros X HX. unfold resolve_conflicts. apply ends_bind.
    { apply power_sort_ends; [done|]. intros x Hx. eapply full_conflicted_stored; [done|done|].
      eapply reached_in; [|done]. intros s [_ Hs]%list_elem_of_filter.
      by apply (iter_elem _ Hi). }
    intros ids _. apply ends_bind; [apply iterative_ends|intros r _].
    apply ends_bind; [by eapply mainline_sort_ends|intros l _].
    apply ends_bind; [apply iterative_ends|intros; apply ends_ok].
  - intros x ev depths Hx. unfold get_mainline_depth.
    eapply depth_loop_ends; [done|done|]. intros ev' [= <-].
    rewrite (Hk x ev Hx). split; [done|].
    pose proof (below_rank_bound store rank (S (rank x))). unfold chain_fuel. lia.
Qed.

(** ** A conflict between two topics *)

Import Sample.

Definition alice_join : Event :=
  mkEvent "$a:a" room alice 1 RoomMember "join" (Some alice) ["$create:a"] ["$create:a"] None.
Definition powers : Event :=
  mkEvent "$p:a" room alice 2 RoomPowerLevels "alice=100" (Some "") ["$a:a"]
    ["$create:a"; "$a:a"] None.
Definition topic_event (id : string) (ts : Z) : Event :=
  mkEvent id room alice ts "m.room.topic" "{}" (Some "") ["$p:a"]
    ["$create:a"; "$a:a"; "$p:a"] None.

Definition sample_store : gmap string Event :=
  list_to_map ((fun ev => (event_id ev, ev)) <$>
    [create; alice_join; powers; topic_event "$t1:a" 10; topic_event "$t2:a" 20]).

Definition sample_rank (id : string) : nat :=
  if bool_decide (id = "$create:a") then 0
  else if bool_decide (id = "$a:a") then 1
  else if bool_decide (id = "$p:a") then 2 else 3.

Definition sample_set (topic : string) : StateMap :=
  list_to_map [((RoomCreate, ""), "$create:a"); ((RoomMember, alice), "$a:a");
    ((RoomPowerLevels, ""), "$p:a"); (("m.room.topic", ""), topic)].

Definition sample_sets : list StateMap := [sample_set "$t1:a"; sample_set "$t2:a"].
Definition sample_exists (id : string) : bool := bool_decide (is_Some (sample_store !! id)).

Definition forwards : choices :=
  mkChoices elements (fun l => l) (fun X => reflexivity _) (fun l => reflexivity _).
Definition backwards : choices :=
  mkChoices (fun X => reverse (elements X)) reverse
    (fun X => reverse_Permutation _) (fun l => reverse_Permutation _).

(** The later topic is applied last and wins. *)
Example sample_resolved :
  (st ← resolve sample_store sample_exists elements (fun l => l) IdV6 sample_sets [];
   Ok (st !! ("m.room.topic", ""), st !! (RoomPowerLevels, "")))
  = Ok (Some "$t2:a", Some "$p:a").
Proof. vm_compute. reflexivity. Qed.

Lemma topics_run :
  exists st, resolve sample_store sample_exists elements (fun l => l) IdV6 sample_sets []
    = Ok st /\ st !! ("m.room.topic", "") = Some "$t2:a".
Proof.
  pose proof sample_resolved as Hr. apply bind_ok in Hr as (st & Hst & Hv).
  exists st. split; [done|]. by injection Hv.
Qed.

Lemma sample_ranked : ranked sample_store sample_rank.
Proof. apply ranked_checked. vm_compute. reflexivity. Qed.

Lemma sample_keyed : keyed sample_store.
Proof. apply keyed_checked. vm_compute. reflexivity. Qed.

Lemma sample_exists_stored x : sample_exists x = true -> is_Some (sample_store !! x).
Proof. apply bool_decide_eq_true. Qed.

(** [auth_unique], decided on a concrete store. *)
Definition auth_unique_check (store : EventStore) (ty : string) : bool :=
  forallb (fun p : string * Event =>
    let evs := omap (fun a => store !! a) (auth_events p.2) in
    (length (filter (fun ev => is_type_and_key ev ty "" = true) evs) <=? 1)%nat)
    (map_to_list store).

Lemma auth_unique_checked store ty : auth_unique_check store ty = true -> auth_unique store ty.
Proof.
  unfold auth_unique_check, auth_unique, auth_of. rewrite forallb_forall. intros Hc id x y.
  destruct (store !! id) as [ev|] eqn:E; [|intros ?; cbn in *; set_solver].
  apply elem_of_map_to_list, list_elem_of_In, Hc in E. cbn in E.
  set (evs := omap _ _) in *. intros Hx Hy Hfx Hfy. apply Nat.leb_le in E.
  assert (Hx' : x ∈ filter (fun ev => is_type_and_key ev ty "" = true) evs)
    by (by apply list_elem_of_filter).
  assert (Hy' : y ∈ filter (fun ev => is_type_and_key ev ty "" = true) evs)
    by (by apply list_elem_of_filter).
  destruct (filter _ evs) as [|a [|b l]]; [set_solver| |cbn in E; lia].
  apply list_elem_of_singleton in Hx', Hy'. congruence.
Qed.

Lemma separate_correct_witness :
  (separate sample_sets).1 !! (RoomPowerLevels, "") = Some "$p:a" /\
  "$t1:a" ∈ default [] ((separate sample_sets).2 !! ("m.room.topic", "")).
Proof.
  destruct (separate_correct sample_sets) as (Hu & Hc & _); [vm_compute; discriminate|].
  split.
  - apply Hu. split; [discriminate|]. intros s Hs. unfold sample_sets in Hs.
    apply elem_of_cons in Hs as [->|Hs]; [|apply list_elem_of_singleton in Hs as ->];
      vm_compute; reflexivity.
  - apply Hc. split.
    + exists (sample_set "$t1:a"). split; [left|vm_compute; reflexivity].
    + intros Ha. specialize (Ha (sample_set "$t2:a") ltac:(right; left)).
      vm_compute in Ha. discriminate.
Defined.

Lemma resolve_keeps_agreement_witness :
  exists st, resolve sample_store sample_exists elements (fun l => l) IdV6 sample_sets []
    = Ok st /\ st !! (RoomMember, alice) = Some "$a:a".
Proof.
  destruct topics_run as (st & E & _). exists st. split; [exact E|].
  refine (proj1 (resolve_keeps_agreement sample_store sample_exists elements (fun l => l)
    IdV6 V6 sample_sets [] st _ _ E) (RoomMember, alice) "$a:a" _ _);
    [vm_compute; discriminate|reflexivity|discriminate|].
  intros s Hs. unfold sample_sets in Hs.
  apply elem_of_cons in Hs as [->|Hs]; [|apply list_elem_of_singleton in Hs as ->];
    vm_compute; reflexivity.
Defined.

Lemma resolve_authorised_witness :
  exists ev r, sample_store !! "$t2:a" = Some ev /\ verdict sample_store V6 ev r true.
Proof.
  destruct topics_run as (st & E & Hk).
  destruct (resolve_authorised sample_store sample_exists elements (fun l => l) IdV6 V6
    sample_sets [] st ("m.room.topic", "") "$t2:a") as
    [[_ Ha]|(X & P & r1 & M & r2 & b & a & r & ev & _ & _ & _ & _ & _ & _ & _ & _ & _ & Hx & _ & _ & Hv & _)];
    [vm_compute; discriminate|reflexivity|intros Y; reflexivity|exact sample_keyed
    |exact sample_exists_stored|exact E|exact Hk|..].
  - specialize (Ha (sample_set "$t1:a") ltac:(left)). vm_compute in Ha. discriminate.
  - exists ev, r. split; [exact Hx|exact Hv].
Defined.

Lemma resolve_deterministic_witness :
  exists st, resolve sample_store sample_exists (ch_iter backwards) (ch_unordered backwards)
    IdV6 sample_sets [] = Ok st /\ st !! ("m.room.topic", "") = Some "$t2:a".
Proof.
  destruct topics_run as (st & E & Hk). exists st. split; [|exact Hk].
  refine (resolve_deterministic sample_store sample_rank sample_exists IdV6 sample_sets []
    forwards backwards st sample_ranked sample_exists_stored _ _ E);
    apply auth_unique_checked; vm_compute; reflexivity.
Defined.

Lemma resolve_terminates_witness :
  resolve sample_store sample_exists elements (fun l => l) IdV6 sample_sets [] <> Err Diverges.
Proof.
  exact (proj1 (resolve_terminates sample_store sample_rank sample_exists elements (fun l => l)
    IdV6 sample_sets [] sample_ranked sample_keyed (fun X => reflexivity _)
    sample_exists_stored)).
Defined.

End StateRes.
