(* ===== verification/Counter.v ===== *)
(** The two-phase sequence counter of [phantom-core/src/sync/two_phase_counter.rs]:
    numbers are dispatched under a write lock, become visible ("retired") only
    once every older number has been retired, and a [Permit] retires its number
    when it is dropped. *)
From S2P Require Import Prelude.

Module Counter.

(** What a failing operation of the counter returns: [checked!]'s arithmetic
    error, or whatever the commit callback failed with. *)
Inductive error := Arithmetic | CommitFailed.

(** [State], less the two callbacks, which are arguments of the operations. *)
Record State := mkState {
  dispatched : Z;
  pending : list Z
}.

Record Permit := mkPermit {
  permit_retired : Z;
  permit_id : Z
}.

#[export] Instance permit_eq_dec : EqDecision Permit.
Proof. solve_decision. Defined.

(** [Counter::new] *)
Definition new (init : Z) : State := mkState init [].

(** [State::retired] *)
Definition retired (s : State) : Z :=
  match head (pending s) with
  | Some p => u64_saturating_sub p 1
  | None => dispatched s
  end.

(** [State::pending_index] *)
Definition pending_index (s : State) (id : Z) : option nat :=
  binary_search_by (fun x => x ?= id) (pending s).

(** [State::is_pending] *)
Definition is_pending (s : State) (id : Z) : bool :=
  existsb (fun x => x =? id) (pending s).

(** [State::dispatch]: [commit] is the counter's commit callback. *)
Definition dispatch (commit : Z -> result error unit) (s : State) :
    result error (State * (Z * Z)) :=
  let r := retired s in
  d ← ok_or (u64_checked_add (dispatched s) 1) Arithmetic;
  _ ← commit d;
  Ok (mkState d (pending s ++ [d]), (r, d)).

(** [State::retire]: the new state, and the number handed to the release
    callback, if it is called. The callback's own failure is only logged. *)
Definition retire (s : State) (id : Z) : State * option Z :=
  match pending_index s id with
  | None => (s, None)
  | Some index =>
      let s' := mkState (dispatched s) (delete index (pending s)) in
      if (index =? 0)%nat
      then (s', Some (if bool_decide (pending s' = []) then dispatched s' else id))
      else (s', None)
  end.

(** [Counter::next], [Counter::current] and [Counter::range]. *)
Definition next (commit : Z -> result error unit) (s : State) :
    result error (State * Permit) :=
  '(s', (r, id)) ← dispatch commit s;
  Ok (s', mkPermit r id).

Definition current (s : State) : Z := retired s.
Definition range (s : State) : Z * Z := (retired s, dispatched s).

(** ** The running system: a counter, the permits alive and what was released. *)
Record Sys := mkSys {
  sys_state : State;
  sys_permits : list Permit;
  sys_released : list Z
}.

Inductive step : Sys -> Sys -> Prop :=
  | step_next commit s s' p ps rel :
      next commit s = Ok (s', p) ->
      step (mkSys s ps rel) (mkSys s' (p :: ps) rel)
  | step_next_fails commit s e ps rel :
      next commit s = Err e ->
      step (mkSys s ps rel) (mkSys s ps rel)
  | step_drop s s' p ps1 ps2 rel r :
      retire s (permit_id p) = (s', r) ->
      step (mkSys s (ps1 ++ p :: ps2) rel)
           (mkSys s' (ps1 ++ ps2) (rel ++ option_list r)).

Definition start (init : Z) : Sys := mkSys (new init) [] [].

Inductive reachable (init : Z) : Sys -> Prop :=
  | reach_start : reachable init (start init)
  | reach_step s t : reachable init s -> step s t -> reachable init t.

(** ** Invariant *)

(** The queue is strictly increasing, holds numbers drawn since the start, and
    is exactly what the live permits hold. *)
Record wf (init : Z) (y : Sys) : Prop := {
  wf_sorted : StronglySorted Z.lt (pending (sys_state y));
  wf_bounds : Forall (fun x => init < x <= dispatched (sys_state y))
                (pending (sys_state y));
  wf_init : 0 <= init;
  wf_dispatched : init <= dispatched (sys_state y) <= u64_max;
  wf_permits : (permit_id <$> sys_permits y) ≡ₚ pending (sys_state y)
}.

Lemma wf_start init : is_u64 init -> wf init (start init).
Proof.
  intros Hi. split; cbn; [constructor|constructor|int_solve|int_solve|done].
Qed.

Lemma next_inv commit s s' p :
  next commit s = Ok (s', p) ->
  s' = mkState (dispatched s + 1) (pending s ++ [dispatched s + 1]) /\
  p = mkPermit (retired s) (dispatched s + 1) /\
  dispatched s + 1 <= u64_max /\ commit (dispatched s + 1) = Ok tt.
Proof.
  unfold next, dispatch. intros H. bind_inv.
  match goal with H : u64_checked_add _ _ = Some _ |- _ =>
    apply in_range_Some in H as [-> ?] end.
  repeat match goal with u : unit |- _ => destruct u end. split_and!; done || lia.
Qed.

Lemma retire_inv s id s' r :
  StronglySorted Z.lt (pending s) -> id ∈ pending s -> retire s id = (s', r) ->
  exists i, pending s !! i = Some id /\
    s' = mkState (dispatched s) (delete i (pending s)) /\
    r = (if (i =? 0)%nat
         then Some (if bool_decide (delete i (pending s) = [])
                    then dispatched s else id)
         else None).
Proof.
  intros Hs [i Hi]%list_elem_of_lookup. unfold retire, pending_index.
  rewrite (proj2 (binary_search_Z _ _ i Hs) Hi). intros H. exists i.
  destruct (i =? 0)%nat; simplify_eq; done.
Qed.

Lemma wf_next commit init s s' p ps rel rel' :
  wf init (mkSys s ps rel) -> next commit s = Ok (s', p) ->
  wf init (mkSys s' (p :: ps) rel').
Proof.
  intros [Hs Hb Hi Hd Hp] (-> & -> & Hmax & _)%next_inv; cbn in *.
  split; cbn; [| |int_solve|int_solve|].
  - apply StronglySorted_snoc; [done|].
    eapply Forall_impl; [done|]. cbn. lia.
  - apply Forall_app; split; [eapply Forall_impl; [done|]; cbn; lia|].
    repeat constructor; lia.
  - rewrite Hp. apply Permutation_cons_append.
Qed.

Lemma wf_drop init s s' p ps1 ps2 rel rel' r :
  wf init (mkSys s (ps1 ++ p :: ps2) rel) -> retire s (permit_id p) = (s', r) ->
  wf init (mkSys s' (ps1 ++ ps2) rel').
Proof.
  intros [Hs Hb Hi Hd Hp] H; cbn in *.
  rewrite fmap_app, fmap_cons in Hp.
  apply retire_inv in H as (i & Hix & -> & _); [|done|].
  2: { rewrite <-Hp. set_solver. }
  pose proof (sublist_delete (pending s) i) as Hsub.
  split; cbn; [by eapply StronglySorted_sublist| |done|done|].
  - rewrite Forall_forall in Hb |- *. intros x Hx. apply Hb.
    by eapply elem_of_sublist.
  - apply (Permutation_cons_inv (a := permit_id p)).
    rewrite <-(delete_Permutation _ _ _ Hix), <-Hp, fmap_app.
    apply Permutation_middle.
Qed.

Lemma wf_step init y z : wf init y -> step y z -> wf init z.
Proof.
  intros Hwf Hst. destruct Hst;
    [by eapply wf_next|done|by eapply wf_drop].
Qed.

Lemma wf_reachable init y : is_u64 init -> reachable init y -> wf init y.
Proof. intros Hi. induction 1; eauto using wf_start, wf_step. Qed.

(** The frontier, in terms of the queue. *)
Lemma retired_spec init y :
  wf init y ->
  (pending (sys_state y) = [] /\ current (sys_state y) = dispatched (sys_state y)) \/
  (exists p ps, pending (sys_state y) = p :: ps /\
     current (sys_state y) = p - 1 /\ init < p <= dispatched (sys_state y) /\
     Forall (fun q => p < q) ps).
Proof.
  intros [Hs Hb Hi Hd _]. unfold current, retired.
  destruct (pending (sys_state y)) as [|p ps]; cbn; [by left|right].
  apply Forall_cons in Hb as [Hp _]. apply StronglySorted_inv in Hs as [_ Hs].
  exists p, ps. split_and!; [done|int_solve|lia|lia|done].
Qed.

Lemma current_bounds init y :
  wf init y -> init <= current (sys_state y) <= dispatched (sys_state y).
Proof.
  intros Hwf. pose proof (wf_dispatched _ _ Hwf).
  destruct (retired_spec _ _ Hwf) as [[_ ->]|(p & ps & _ & -> & ? & _)]; lia.
Qed.

Lemma current_lt_pending init y id :
  wf init y -> id ∈ pending (sys_state y) -> current (sys_state y) < id.
Proof.
  intros Hwf Hid.
  destruct (retired_spec _ _ Hwf) as [[E _]|(p & ps & E & -> & _ & Hps)];
    rewrite E in Hid; [set_solver|].
  rewrite Forall_forall in Hps. apply elem_of_cons in Hid as [->|Hid]; [lia|].
  specialize (Hps _ Hid). lia.
Qed.

(** A bound below every pending number and at most the dispatched one is at
    most the frontier. *)
Lemma le_current init y c :
  wf init y -> c <= dispatched (sys_state y) ->
  Forall (fun q => c < q) (pending (sys_state y)) -> c <= current (sys_state y).
Proof.
  intros Hwf Hc Hp.
  destruct (retired_spec _ _ Hwf) as [[_ ->]|(p & ps & E & -> & _ & _)]; [done|].
  rewrite E in Hp. apply Forall_cons in Hp as [Hp _]. lia.
Qed.

Lemma pending_above init y :
  wf init y -> Forall (fun q => current (sys_state y) < q) (pending (sys_state y)).
Proof. intros Hwf. apply Forall_forall. eauto using current_lt_pending. Qed.

Lemma step_current init y z :
  wf init y -> step y z ->
  current (sys_state y) <= current (sys_state z) /\
  dispatched (sys_state y) <= dispatched (sys_state z).
Proof.
  intros Hwf Hst. pose proof (wf_step _ _ _ Hwf Hst) as Hwf'.
  pose proof (current_bounds _ _ Hwf) as Hcb. pose proof (pending_above _ _ Hwf) as Hpa.
  destruct Hst as [commit s s' p ps rel H|commit s e ps rel _|s s' p ps1 ps2 rel r H];
    [|done|]; cbn in *.
  - apply next_inv in H as (-> & -> & _ & _). cbn. split; [|lia].
    apply (le_current _ _ _ Hwf'); cbn; [lia|].
    apply Forall_app; split; [done|]. repeat constructor; lia.
  - destruct Hwf as [Hs Hb Hi Hd Hp]; cbn in *.
    apply retire_inv in H as (i & Hix & -> & _); [|done|].
    2: { rewrite <-Hp, fmap_app, fmap_cons. set_solver. }
    cbn. split; [|lia]. apply (le_current _ _ _ Hwf'); cbn; [lia|].
    rewrite Forall_forall in Hpa |- *. intros q Hq. apply Hpa.
    eapply elem_of_sublist; [done|apply sublist_delete].
Qed.

(** What the release callback was told so far. *)
Definition released_ok (y : Sys) : Prop :=
  StronglySorted Z.lt (sys_released y) /\
  Forall (fun r => r <= current (sys_state y)) (sys_released y).

Lemma retire_released init s s' p ps1 ps2 rel r rel' :
  wf init (mkSys s (ps1 ++ p :: ps2) rel) ->
  retire s (permit_id p) = (s', Some r) ->
  wf init (mkSys s' (ps1 ++ ps2) rel') ->
  current s < r <= current s'.
Proof.
  intros Hwf H Hwf'. destruct Hwf as [Hs Hb Hi Hd Hp] eqn:EW; cbn in *. clear EW.
  assert (Hin : permit_id p ∈ pending s).
  { rewrite <-Hp, fmap_app, fmap_cons. set_solver. }
  pose proof (current_lt_pending init _ _ Hwf Hin) as Hlt; cbn in Hlt.
  apply retire_inv in H as (i & Hix & -> & Hr); [|done|done].
  destruct (Nat.eqb_spec i 0) as [->|]; [|done].
  destruct (pending s) as [|q qs] eqn:E; [done|]. cbn in *. simplify_eq.
  apply Forall_cons in Hb as [Hb _]. apply StronglySorted_inv in Hs as [_ Hs].
  destruct (bool_decide_reflect (qs = [])) as [->|Hne].
  - unfold current at 2, retired. cbn. lia.
  - split; [done|]. apply (le_current _ _ _ Hwf'); cbn; [lia|done].
Qed.

Lemma released_reachable init y :
  is_u64 init -> reachable init y -> released_ok y.
Proof.
  intros Hi. induction 1 as [|y z Hr IH Hst]; [by split; constructor|].
  pose proof (wf_reachable _ _ Hi Hr) as Hwf.
  pose proof (wf_step _ _ _ Hwf Hst) as Hwf'.
  pose proof (step_current _ _ _ Hwf Hst) as [Hc _].
  destruct IH as [IHs IHb].
  assert (Hup : Forall (fun r => r <= current (sys_state z)) (sys_released y)).
  { eapply Forall_impl; [done|]. cbn. lia. }
  destruct Hst as [commit s s' p ps rel H|commit s e ps rel _|s s' p ps1 ps2 rel r H];
    [done|done|]; cbn in *.
  destruct r as [r|]; cbn [option_list]; [|by rewrite app_nil_r].
  pose proof (retire_released _ _ _ _ _ _ _ _ _ Hwf H Hwf') as Hr'.
  split; cbn.
  - apply StronglySorted_snoc; [done|].
    eapply Forall_impl; [exact IHb|]. cbn. lia.
  - apply Forall_app; split; [done|]. repeat constructor; lia.
Qed.

(** ** Properties *)

(** In every reachable state the frontier [current] is exact: no number at
    or below it is still held by a permit, and either everything dispatched is
    visible or the very next number is held by a live permit. The numbers the
    live permits hold are distinct, pending and above the initial value, so
    the counter's debug assertions never fire. *)
Theorem frontier_exact init y :
  is_u64 init -> reachable init y ->
  init <= current (sys_state y) <= dispatched (sys_state y) /\
  (forall p, p ∈ sys_permits y ->
     current (sys_state y) < permit_id p <= dispatched (sys_state y) /\
     is_pending (sys_state y) (permit_id p) = true) /\
  NoDup (permit_id <$> sys_permits y) /\
  (current (sys_state y) = dispatched (sys_state y) \/
   exists p, p ∈ sys_permits y /\ permit_id p = current (sys_state y) + 1).
Proof.
  intros Hi Hr. pose proof (wf_reachable _ _ Hi Hr) as Hwf.
  pose proof (wf_permits _ _ Hwf) as Hp.
  split_and!; [by eapply current_bounds..| | |].
  - intros p Hin. assert (Hin' : permit_id p ∈ pending (sys_state y)).
    { rewrite <-Hp. by apply list_elem_of_fmap_2. }
    pose proof (current_lt_pending _ _ _ Hwf Hin').
    pose proof (wf_bounds _ _ Hwf) as Hb. rewrite Forall_forall in Hb.
    split; [apply Hb in Hin'; lia|].
    apply existsb_exists. exists (permit_id p).
    split; [by apply list_elem_of_In|apply Z.eqb_refl].
  - rewrite Hp. apply StronglySorted_NoDup, (wf_sorted _ _ Hwf).
  - destruct (retired_spec _ _ Hwf) as [[_ ?]|(q & ps & E & Hc & _)]; [by left|right].
    assert (Hq : q ∈ permit_id <$> sys_permits y) by (rewrite Hp, E; set_solver).
    apply list_elem_of_fmap in Hq as (p & -> & ?). exists p. split; [done|lia].
Qed.

Definition commit_all : Z -> result error unit := fun _ => Ok tt.

Lemma sample_run : reachable 10 (mkSys (mkState 12 [12]) [mkPermit 10 12] [11]).
Proof.
  eapply (reach_step _ (mkSys (mkState 12 [11; 12]) [mkPermit 10 12; mkPermit 10 11] [])).
  - eapply (reach_step _ (mkSys (mkState 11 [11]) [mkPermit 10 11] [])).
    + eapply reach_step; [apply reach_start|].
      by eapply (step_next commit_all).
    + by eapply (step_next commit_all).
  - by apply (step_drop (mkState 12 [11; 12]) (mkState 12 [12]) (mkPermit 10 11)
      [mkPermit 10 12] [] [] (Some 11)).
Defined.

Lemma frontier_exact_witness :
  current (mkState 12 [12]) = 11 /\ 10 <= 11 <= 12.
Proof.
  split; [done|].
  exact (proj1 (frontier_exact 10 _ ltac:(unfold is_u64, u64_max; lia) sample_run)).
Defined.

(** The frontier and the dispatched count never move backwards, and every
    number drawn is new: one more than the largest drawn before it, and above
    everything visible. *)
Theorem step_monotone init y z :
  is_u64 init -> reachable init y -> step y z ->
  current (sys_state y) <= current (sys_state z) /\
  dispatched (sys_state y) <= dispatched (sys_state z) /\
  (forall p, p ∈ sys_permits z -> p ∈ sys_permits y \/
     permit_id p = dispatched (sys_state y) + 1 /\
     permit_retired p = current (sys_state y) /\
     dispatched (sys_state z) = permit_id p).
Proof.
  intros Hi Hr Hst. pose proof (wf_reachable _ _ Hi Hr) as Hwf.
  destruct (step_current _ _ _ Hwf Hst). split_and!; [done|done|].
  intros q Hq.
  destruct Hst as [commit s s' p ps rel H'|commit s e ps rel _|s s' p ps1 ps2 rel r _];
    cbn in *; [|by left|left; set_solver].
  apply next_inv in H' as (-> & -> & _). cbn.
  apply elem_of_cons in Hq as [->|Hq]; [by right|by left].
Qed.

Lemma step_monotone_witness :
  current (new 10) <= current (mkState 11 [11]).
Proof.
  refine (proj1 (step_monotone 10 (start 10)
    (mkSys (mkState 11 [11]) [mkPermit 10 11] []) _ (reach_start 10) _)).
  - unfold is_u64, u64_max; lia.
  - by apply (step_next commit_all).
Defined.

(** The numbers handed to the release callback are strictly increasing and
    never ahead of the frontier: nothing is announced before every write up to
    it is done. *)
Theorem release_safe init y :
  is_u64 init -> reachable init y ->
  StronglySorted Z.lt (sys_released y) /\
  Forall (fun r => r <= current (sys_state y)) (sys_released y).
Proof. apply released_reachable. Qed.

Lemma release_safe_witness : Forall (fun r => r <= 11) [11].
Proof.
  exact (proj2 (release_safe 10 _ ltac:(unfold is_u64, u64_max; lia) sample_run)).
Defined.

(** The released number may lag behind the frontier: with 1, 2 and 3 drawn and
    2 retired first, retiring 1 releases 1 although 2 is already visible. *)
Example release_lags :
  let s := mkState 3 [1; 3] in
  retire s 1 = (mkState 3 [3], Some 1) /\ current (mkState 3 [3]) = 2.
Proof. done. Qed.

(** A draw whose commit succeeds fails only when [u64::MAX] was already
    drawn; otherwise it queues the next number and samples the frontier. *)
Theorem next_total commit s :
  is_u64 (dispatched s) -> commit (dispatched s + 1) = Ok tt ->
  next commit s =
    if dispatched s =? u64_max then Err Arithmetic
    else Ok (mkState (dispatched s + 1) (pending s ++ [dispatched s + 1]),
             mkPermit (current s) (dispatched s + 1)).
Proof.
  intros Hd Hc. unfold next, dispatch.
  destruct (Z.eqb_spec (dispatched s) u64_max) as [E|E].
  - replace (u64_checked_add _ _) with (@None Z); [done|].
    symmetry. apply in_range_None. int_solve.
  - replace (u64_checked_add _ _) with (Some (dispatched s + 1)).
    + cbn. by rewrite Hc.
    + symmetry. apply in_range_Some. int_solve.
Qed.

Lemma next_total_witness :
  next commit_all (mkState 7 []) = Ok (mkState 8 [8], mkPermit 7 8).
Proof.
  exact (next_total commit_all (mkState 7 []) ltac:(unfold is_u64, u64_max; cbn; lia) eq_refl).
Defined.

End Counter.
