(* ===== verification/Backoff.v ===== *)
(** Retry backoff, [phantom-core/src/time/exponential_backoff.rs]: whether a
    retry must still wait, and the streak length past which waiting longer
    makes no difference. Durations are nanoseconds. *)
From S2P Require Import Prelude.

Module Backoff.

Definition nanos_per_sec : Z := 1000000000.
(** [Duration::MAX] *)
Definition duration_max : Z := u64_max * nanos_per_sec + 999999999.
Definition is_duration (d : Z) : Prop := 0 <= d <= duration_max.

(** [Duration::from_secs], [Duration::as_secs], [Duration::saturating_mul]. *)
Definition from_secs (s : Z) : Z := s * nanos_per_sec.
Definition as_secs (d : Z) : Z := d / nanos_per_sec.
Definition saturating_mul (d n : Z) : Z := clamp_range 0 duration_max (d * n).

Definition continue_exponential_backoff (min max elapsed tries : Z) : bool :=
  let min := saturating_mul (saturating_mul min tries) tries in
  let min := Z.min min max in
  elapsed <? min.

Definition continue_exponential_backoff_secs (min max elapsed tries : Z) : bool :=
  continue_exponential_backoff (from_secs min) (from_secs max) elapsed tries.

(** [u64::div_ceil] *)
Definition div_ceil (a b : Z) : Z := a / b + (if a mod b =? 0 then 0 else 1).

Definition exponential_backoff_streak_cap (window max : Z) : Z :=
  let window := as_secs window in
  let max := as_secs max in
  if window =? 0 then 1 else
  let ratio := div_ceil max window in
  let cap := u64_saturating_add (Z.sqrt ratio) 1 in
  if cap <=? u32_max then cap else u32_max.

(** ** Lemmas *)

Lemma div_ceil_spec a b : 0 < b -> a <= div_ceil a b * b.
Proof.
  intros Hb. unfold div_ceil. pose proof (Z.div_mod a b ltac:(lia)).
  pose proof (Z.mod_pos_bound a b Hb).
  destruct (Z.eqb_spec (a mod b) 0); nia.
Qed.

(** The wait before the cap is applied. *)
Lemma wait_spec d n :
  is_duration d -> 0 <= n ->
  saturating_mul (saturating_mul d n) n = Z.min duration_max (d * n * n).
Proof.
  intros Hd Hn. unfold saturating_mul, clamp_range.
  assert (0 < duration_max) by (unfold duration_max, nanos_per_sec; int_solve).
  unfold is_duration in Hd. destruct (decide (n = 0)) as [->|]; [nia|].
  destruct (Z.leb_spec duration_max (d * n)).
  - rewrite (Z.min_l duration_max (d * n)) by lia.
    rewrite (Z.max_r 0 duration_max) by lia. nia.
  - rewrite (Z.min_r duration_max (d * n)) by lia.
    rewrite (Z.max_r 0 (d * n)) by nia. nia.
Qed.

Lemma continue_spec min max elapsed tries :
  is_duration min -> is_duration max -> 0 <= tries ->
  continue_exponential_backoff min max elapsed tries =
    (elapsed <? Z.min (min * tries * tries) max).
Proof.
  intros Hmin Hmax Ht. unfold continue_exponential_backoff.
  rewrite wait_spec by done. unfold is_duration in *. f_equal. lia.
Qed.

Lemma cap_pos window max :
  is_duration window -> is_duration max ->
  1 <= exponential_backoff_streak_cap window max <= u32_max.
Proof.
  intros Hw Hm. unfold exponential_backoff_streak_cap.
  destruct (_ =? 0); [int_solve|].
  pose proof (Z.sqrt_nonneg (div_ceil (as_secs max) (as_secs window))).
  destruct (Z.leb_spec (u64_saturating_add
    (Z.sqrt (div_ceil (as_secs max) (as_secs window))) 1) u32_max); int_solve.
Qed.

(** From the cap on the wait is at least [max]. *)
Lemma cap_wait window max tries :
  is_duration window -> is_duration max -> nanos_per_sec <= window ->
  exponential_backoff_streak_cap window max < u32_max ->
  exponential_backoff_streak_cap window max <= tries ->
  max <= window * tries * tries.
Proof.
  intros Hw Hm Hsec Hcap Ht. unfold exponential_backoff_streak_cap in *.
  assert (Hw1 : 1 <= as_secs window).
  { unfold as_secs. apply Z.div_le_lower_bound; unfold nanos_per_sec in *; lia. }
  destruct (Z.eqb_spec (as_secs window) 0) as [E|_]; [lia|].
  set (r := div_ceil (as_secs max) (as_secs window)) in *.
  assert (Hr : as_secs max <= r * as_secs window) by (apply div_ceil_spec; lia).
  assert (0 <= as_secs max) by (apply Z.div_pos; unfold nanos_per_sec, is_duration in *; lia).
  pose proof (Z.sqrt_spec r ltac:(nia)) as [_ Hsq]. pose proof (Z.sqrt_nonneg r).
  assert (Hcap' : Z.sqrt r + 1 <= tries).
  { destruct (Z.leb_spec (u64_saturating_add (Z.sqrt r) 1) u32_max); int_solve. }
  assert (r + 1 <= tries * tries) by nia.
  assert (as_secs window * nanos_per_sec <= window).
  { unfold as_secs. rewrite Z.mul_comm. apply Z.mul_div_le. by unfold nanos_per_sec. }
  assert (max < (as_secs max + 1) * nanos_per_sec).
  { unfold as_secs. rewrite Z.mul_comm.
    apply (Z.mul_succ_div_gt max nanos_per_sec). by unfold nanos_per_sec. }
  assert ((as_secs max + 1) <= as_secs window * (tries * tries)) by nia.
  assert ((as_secs max + 1) * nanos_per_sec <=
    as_secs window * nanos_per_sec * (tries * tries)) by (unfold nanos_per_sec; nia).
  nia.
Qed.

(** ** Properties *)

(** With a window of at least one second, a streak at or past the cap no
    longer changes the decision: the retry waits exactly as it would at the
    cap, and, unless the cap was clipped to [u32::MAX], until [max] has
    elapsed. *)
Theorem streak_cap_saturates window max elapsed tries :
  is_duration window -> is_duration max -> nanos_per_sec <= window ->
  is_u32 tries -> exponential_backoff_streak_cap window max <= tries ->
  continue_exponential_backoff window max elapsed tries =
    continue_exponential_backoff window max elapsed
      (exponential_backoff_streak_cap window max) /\
  (exponential_backoff_streak_cap window max < u32_max ->
   continue_exponential_backoff window max elapsed tries = (elapsed <? max)).
Proof.
  intros Hw Hm Hsec Ht Hcap. pose proof (cap_pos window max Hw Hm).
  assert (Hsat : exponential_backoff_streak_cap window max < u32_max ->
    forall t, exponential_backoff_streak_cap window max <= t ->
    continue_exponential_backoff window max elapsed t = (elapsed <? max)).
  { intros Hlt t Htc. rewrite continue_spec by (done || lia).
    rewrite Z.min_r; [done|]. by apply cap_wait. }
  destruct (decide (exponential_backoff_streak_cap window max < u32_max)).
  - rewrite !Hsat by (done || lia). done.
  - replace tries with (exponential_backoff_streak_cap window max) by int_solve.
    done.
Qed.

Lemma streak_cap_saturates_witness :
  continue_exponential_backoff (from_secs 180) (from_secs 86400)
    (from_secs 86399) 220 = true.
Proof.
  refine (eq_trans (proj2 (streak_cap_saturates (from_secs 180)
    (from_secs 86400) (from_secs 86399) 220 _ _ _ _ _) _) _);
    try (vm_compute; split; congruence); vm_compute; congruence.
Defined.

(** Below one second the cap is 1 although the curve is still climbing. *)
Example sub_second_window :
  exponential_backoff_streak_cap 500000000 (from_secs 10) = 1 /\
  continue_exponential_backoff 500000000 (from_secs 10) (from_secs 1) 1 = false /\
  continue_exponential_backoff 500000000 (from_secs 10) (from_secs 1) 2 = true.
Proof. vm_compute. done. Qed.

(** A longer streak never shortens the wait, more elapsed time never
    lengthens it, a first attempt never waits, and no wait exceeds [max]. *)
Theorem backoff_monotone min max e e' t t' :
  is_duration min -> is_duration max -> 0 <= e' <= e -> 0 <= t <= t' ->
  (continue_exponential_backoff min max e t = true ->
   continue_exponential_backoff min max e' t' = true /\ e < max) /\
  continue_exponential_backoff min max e 0 = false.
Proof.
  intros Hmin Hmax He Ht. rewrite !continue_spec by (done || lia).
  unfold is_duration in *. split; [|apply Z.ltb_ge; lia].
  rewrite !Z.ltb_lt. assert (t * t <= t' * t') by nia.
  assert (min * (t * t) <= min * (t' * t')) by nia. lia.
Qed.

Lemma backoff_monotone_witness :
  continue_exponential_backoff (from_secs 1) (from_secs 60) (from_secs 3) 3 = true.
Proof.
  refine (proj1 (proj1 (backoff_monotone (from_secs 1) (from_secs 60)
    (from_secs 3) (from_secs 3) 2 3 _ _ _ _) _));
    try (vm_compute; split; congruence); vm_compute; congruence.
Defined.

End Backoff.
