(* ===== verification/SetOps.v ===== *)
(** Set intersection over iterators, [phantom-core/src/set.rs]: the quadratic
    reference [intersection], the one-pass [intersection_sorted] that keeps a
    cursor per input, and the two-stream variant. *)
From S2P Require Import Prelude.

Module SetOps.

Section Ops.
Context {A : Type} `{EqDecision A} (lt : A -> A -> Prop).
Context `{!RelDecision lt, !StrictOrder lt}.

Definition mem (x : A) (l : list A) : bool := bool_decide (x ∈ l).

(** [intersection]: every other input is searched from its start. *)
Definition intersection (input : list (list A)) : list A :=
  match input with
  | [] => []
  | first :: others => filter (fun targ => forallb (mem targ) others = true) first
  end.

(** The [while] loop of [intersection_sorted]: skip what is below the target. *)
Fixpoint advance (targ : A) (it : list A) : list A :=
  match it with
  | [] => []
  | x :: it' => if decide (lt x targ) then advance targ it' else it
  end.

(** [input.iter_mut().all(...)]: the cursors left behind, and whether every one
    of them stands on the target; [all] stops at the first that does not. *)
Fixpoint all_at (targ : A) (its : list (list A)) : list (list A) * bool :=
  match its with
  | [] => ([], true)
  | it :: rest =>
      let it := advance targ it in
      if decide (head it = Some targ)
      then let '(rest, b) := all_at targ rest in (it :: rest, b)
      else (it :: rest, false)
  end.

Fixpoint filter_sorted (first : list A) (its : list (list A)) : list A :=
  match first with
  | [] => []
  | targ :: first =>
      let '(its, b) := all_at targ its in
      if b then targ :: filter_sorted first its else filter_sorted first its
  end.

Definition intersection_sorted (input : list (list A)) : list A :=
  match input with
  | [] => []
  | first :: others => filter_sorted first others
  end.

(** The inner loop of [intersection_sorted_stream2]: consume from [b] while it
    is at most [ai], stopping at (and consuming) an equal element. *)
Fixpoint next_match (ai : A) (b : list A) : list A * bool :=
  match b with
  | [] => ([], false)
  | bi :: b' =>
      if decide (lt bi ai \/ bi = ai)
      then if decide (ai = bi) then (b', true) else next_match ai b'
      else (b, false)
  end.

Fixpoint intersection_sorted_stream2 (a b : list A) : list A :=
  match a with
  | [] => []
  | ai :: a =>
      let '(b, found) := next_match ai b in
      if found then ai :: intersection_sorted_stream2 a b
      else intersection_sorted_stream2 a b
  end.

Definition le (x y : A) : Prop := lt x y \/ x = y.

Lemma le_lt_irrefl x y : le x y -> ~ lt y x.
Proof.
  intros [H|<-] H'; [|by apply (irreflexivity lt x)].
  apply (irreflexivity lt x). by etrans.
Qed.

Lemma advance_mem targ x it : le targ x -> x ∈ advance targ it <-> x ∈ it.
Proof.
  intros Hle. induction it as [|y it IH]; cbn; [done|].
  destruct (decide (lt y targ)) as [Hy|]; [|done].
  rewrite IH, elem_of_cons. split; [auto|intros [->|?]; [|done]].
  by destruct (le_lt_irrefl _ _ Hle).
Qed.

Lemma advance_sorted targ it :
  StronglySorted le it -> StronglySorted le (advance targ it).
Proof.
  induction 1 as [|y it Hs IH Hy]; cbn; [constructor|].
  destruct (decide _); [done|by constructor].
Qed.

Lemma advance_head targ it :
  StronglySorted le it -> (head (advance targ it) = Some targ <-> targ ∈ it).
Proof.
  induction 1 as [|y it Hs IH Hy]; cbn; [split; [done|set_solver]|].
  destruct (decide (lt y targ)) as [Hlt|Hnlt]; cbn.
  - rewrite IH, elem_of_cons. split; [auto|intros [->|?]; [|done]].
    by destruct (irreflexivity lt y).
  - rewrite elem_of_cons. split; [intros [= ->]; by left|intros [->|Hin]; [done|]].
    rewrite Forall_forall in Hy. destruct (Hy _ Hin) as [?| ->]; [by destruct Hnlt|done].
Qed.

(** What one round of [all] does to the cursors. *)
Lemma all_at_spec targ its :
  Forall (StronglySorted le) its ->
  (all_at targ its).2 = forallb (mem targ) its /\
  Forall (StronglySorted le) (all_at targ its).1 /\
  forall x, le targ x ->
    forallb (mem x) (all_at targ its).1 = forallb (mem x) its.
Proof.
  induction 1 as [|it its Hit Hits IH]; cbn; [done|].
  destruct IH as (IHb & IHs & IHm).
  assert (Hadv : forall x, le targ x -> mem x (advance targ it) = mem x it).
  { intros x Hx. unfold mem. apply bool_decide_ext. by apply advance_mem. }
  pose proof (advance_head targ it Hit) as Hhd.
  destruct (decide (head (advance targ it) = Some targ)) as [E|E];
    [destruct (all_at targ its) as [its' b]|]; cbn in *.
  - split_and!.
    + rewrite IHb. unfold mem at 2. by rewrite bool_decide_eq_true_2 by tauto.
    + constructor; [by apply advance_sorted|done].
    + intros x Hx. by rewrite Hadv, IHm by done.
  - split_and!.
    + unfold mem. by rewrite bool_decide_eq_false_2 by tauto.
    + constructor; [by apply advance_sorted|done].
    + intros x Hx. by rewrite Hadv by done.
Qed.

Lemma filter_sorted_spec first its :
  StronglySorted le first -> Forall (StronglySorted le) its ->
  filter_sorted first its = filter (fun t => forallb (mem t) its = true) first.
Proof.
  intros Hf. revert its. induction Hf as [|t first Hs IH Ht]; intros its Hits; [done|].
  cbn [filter_sorted]. destruct (all_at_spec t its Hits) as (Hb & Hits' & Hm).
  destruct (all_at t its) as [its' b]; cbn [fst snd] in *. rewrite filter_cons.
  assert (Hrest : filter_sorted first its' =
    filter (fun t => forallb (mem t) its = true) first).
  { rewrite IH by done. apply filter_ext_Forall. rewrite Forall_forall in Ht |- *.
    intros x Hx. rewrite Hm; [done|by apply Ht]. }
  rewrite Hrest. destruct b; rewrite <-Hb; [by rewrite decide_True|by rewrite decide_False].
Qed.

Lemma next_match_spec ai b :
  StronglySorted lt b ->
  (next_match ai b).2 = mem ai b /\
  StronglySorted lt (next_match ai b).1 /\
  forall x, lt ai x -> mem x (next_match ai b).1 = mem x b.
Proof.
  assert (Hskip : forall x y l, lt y x -> mem x (y :: l) = mem x l).
  { intros x y l Hxy. unfold mem. apply bool_decide_ext. rewrite elem_of_cons.
    split; [intros [->|?]; [by destruct (irreflexivity lt y)|done]|auto]. }
  induction 1 as [|y b Hs IH Hy]; cbn; [split_and!; [done|constructor|done]|].
  destruct IH as (IHb & IHs & IHm).
  destruct (decide (lt y ai \/ y = ai)) as [Hle|Hgt].
  - destruct (decide (ai = y)) as [->|Hne]; cbn.
    + unfold mem at 1. rewrite bool_decide_eq_true_2 by set_solver.
      split_and!; [done|done|]. intros x Hx. by rewrite Hskip.
    + destruct Hle as [Hlt| ->]; [|done]. rewrite Hskip by done.
      split_and!; [done|done|]. intros x Hx. rewrite Hskip by by etrans. auto.
  - cbn. split_and!; [|by constructor|done].
    unfold mem. rewrite bool_decide_eq_false_2; [done|].
    rewrite elem_of_cons. intros [->|Hin]; [tauto|].
    rewrite Forall_forall in Hy. apply Hgt. left. by apply Hy.
Qed.

End Ops.

(** On sorted inputs (duplicates allowed) the one-pass intersection gives
    exactly what the reference gives, in the same order, although it never
    looks back at an element it skipped. *)
Theorem intersection_sorted_correct {A} `{EqDecision A} (lt : A -> A -> Prop)
    `{!RelDecision lt, !StrictOrder lt} (input : list (list A)) :
  Forall (StronglySorted (le lt)) input ->
  intersection_sorted lt input = intersection input.
Proof.
  intros H. destruct input as [|first others]; [done|].
  apply Forall_cons in H as [Hf Ho]. by apply filter_sorted_spec.
Qed.

Lemma intersection_sorted_correct_witness :
  intersection_sorted Z.lt [[1; 2; 2; 4]; [2; 4; 6]; [2; 4]] = [2; 2; 4].
Proof.
  refine (eq_trans (intersection_sorted_correct Z.lt [[1; 2; 2; 4]; [2; 4; 6]; [2; 4]] _) _).
  - repeat constructor; unfold le; lia.
  - by vm_compute.
Defined.

(** The two-stream variant agrees with the reference on strictly
    increasing streams. *)
Theorem intersection_sorted_stream2_correct {A} `{EqDecision A}
    (lt : A -> A -> Prop) `{!RelDecision lt, !StrictOrder lt} (a b : list A) :
  StronglySorted lt a -> StronglySorted lt b ->
  intersection_sorted_stream2 lt a b = intersection [a; b].
Proof.
  intros Ha. revert b. induction Ha as [|t a Hs IH Ht]; intros b Hb; [done|].
  cbn [intersection_sorted_stream2]. destruct (next_match_spec lt t b Hb) as (Hf & Hb' & Hm).
  destruct (next_match lt t b) as [b' f]; cbn [fst snd intersection] in *. rewrite filter_cons.
  assert (Hrest : intersection_sorted_stream2 lt a b' =
    filter (fun t => forallb (mem t) [b] = true) a).
  { rewrite IH by done. cbn [intersection]. apply filter_ext_Forall. rewrite Forall_forall in Ht |- *.
    intros x Hx. cbn. rewrite Hm; [done|by apply Ht]. }
  rewrite Hrest. destruct f; [rewrite decide_True|rewrite decide_False];
    try done; cbn; by rewrite <-Hf.
Qed.

Lemma intersection_sorted_stream2_correct_witness :
  intersection_sorted_stream2 Z.lt [1; 2; 3; 4; 7] [2; 4; 6; 7] = [2; 4; 7].
Proof.
  refine (eq_trans (intersection_sorted_stream2_correct Z.lt [1; 2; 3; 4; 7]
    [2; 4; 6; 7] _ _) _).
  - repeat constructor; lia.
  - repeat constructor; lia.
  - by vm_compute.
Defined.

(** A repeated element of the first stream is reported once: the match consumed
    it from the second. *)
Example stream2_duplicates :
  intersection_sorted_stream2 Z.lt [2; 2] [2] = [2] /\
  intersection [[2; 2]; [2]] = [2; 2].
Proof. by vm_compute. Qed.

End SetOps.
