(* ===== verification/PduId.v ===== *)
(** Event positions: the byte helpers of [phantom-core/src/bytes.rs], the
    timeline [Count] of [matrix/pdu/count.rs], and the database key of an event,
    [matrix/pdu/id.rs] and [matrix/pdu/raw_id.rs]. RocksDB iterates keys in byte
    order, so the order of the encoded keys is what orders a timeline. *)
From S2P Require Import Prelude.

Module Bytes.

(** [u8x8_from_bytes]: a slice converts to [&[u8; 8]] only when it has exactly
    eight bytes. *)
Definition u8x8_from_bytes (bytes : list byte) : option (list byte) :=
  if decide (length bytes = 8%nat) then Some bytes else None.

Definition u64_from_u8x8 (bytes : list byte) : Z := from_be bytes.

Definition u64_from_bytes (bytes : list byte) : option Z :=
  u64_from_u8x8 <$> u8x8_from_bytes bytes.

Definition u64_from_bytes_or_zero (bytes : list byte) : Z :=
  default 0 (u64_from_bytes bytes).

(** [u64_from_u8] panics where this is [None]. *)
Definition u64_from_u8 (bytes : list byte) : option Z := u64_from_bytes bytes.

(** [wrapping_add(1).to_be_bytes()] *)
Definition increment (old : option (list byte)) : list byte :=
  be_bytes 8 (as_u64 (match old with
                      | Some old => u64_from_bytes_or_zero old
                      | None => 0
                      end + 1)).

Lemma u64_from_be_bytes z : is_u64 z -> u64_from_bytes (be_bytes 8 z) = Some z.
Proof.
  intros Hz. unfold u64_from_bytes, u8x8_from_bytes.
  rewrite decide_True by apply length_be_bytes. cbn -[be_bytes].
  unfold u64_from_u8x8. rewrite from_be_be_bytes, Z.mod_small; [done|int_solve].
Qed.

(** A stored counter that was only ever written by [increment] holds the
    number of times it was incremented. *)
Theorem increment_counts (n : nat) :
  (Z.of_nat n < 2 ^ 64)%Z ->
  u64_from_bytes (Nat.iter n (fun v => increment (Some v)) (be_bytes 8 0)) =
    Some (Z.of_nat n).
Proof.
  intros Hn. rewrite <-u64_from_be_bytes by int_solve. f_equal.
  induction n as [|n IH]; [done|].
  rewrite Nat.iter_succ. unfold increment at 1, u64_from_bytes_or_zero.
  rewrite IH by lia. rewrite u64_from_be_bytes by int_solve. cbn -[be_bytes Z.of_nat].
  rewrite as_u64_small by int_solve. f_equal. lia.
Qed.

Lemma increment_counts_witness :
  u64_from_bytes (Nat.iter 3 (fun v => increment (Some v)) (be_bytes 8 0)) = Some 3.
Proof. apply (increment_counts 3). lia. Defined.

End Bytes.

Module Count.

Inductive Count := Normal (n : Z) | Backfilled (i : Z).

(** [ruma::api::Direction] *)
Inductive Direction := Forward | Backward.

(** The arithmetic errors of [checked_add] and [checked_sub]. *)
Inductive error := NormalOverflow | NormalUnderflow
  | BackfilledOverflow | BackfilledUnderflow.

Definition from_signed (signed : Z) : Count :=
  if signed <=? 0 then Backfilled signed else Normal (as_u64 signed).

Definition from_unsigned (unsigned : Z) : Count := from_signed (as_i64 unsigned).

Definition into_unsigned (c : Count) : Z :=
  match c with Normal i => i | Backfilled i => as_u64 i end.

Definition into_signed (c : Count) : Z :=
  match c with Normal i => as_i64 i | Backfilled i => i end.

Definition into_normal (c : Count) : Count :=
  match c with Normal i => Normal i | Backfilled _ => Normal 0 end.

Definition checked_add (c : Count) (add : Z) : result error Count :=
  match c with
  | Normal i => Normal <$> ok_or (u64_checked_add i add) NormalOverflow
  | Backfilled i =>
      Backfilled <$> ok_or (i64_checked_add i (as_i64 add)) BackfilledOverflow
  end.

Definition checked_sub (c : Count) (sub : Z) : result error Count :=
  match c with
  | Normal i => Normal <$> ok_or (u64_checked_sub i sub) NormalUnderflow
  | Backfilled i =>
      Backfilled <$> ok_or (i64_checked_sub i (as_i64 sub)) BackfilledUnderflow
  end.

Definition checked_inc (c : Count) (dir : Direction) : result error Count :=
  match dir with Forward => checked_add c 1 | Backward => checked_sub c 1 end.

Definition saturating_add (c : Count) (add : Z) : Count :=
  match c with
  | Normal i => Normal (u64_saturating_add i add)
  | Backfilled i => Backfilled (i64_saturating_add i (as_i64 add))
  end.

Definition saturating_sub (c : Count) (sub : Z) : Count :=
  match c with
  | Normal i => Normal (u64_saturating_sub i sub)
  | Backfilled i => Backfilled (i64_saturating_sub i (as_i64 sub))
  end.

Definition saturating_inc (c : Count) (dir : Direction) : Count :=
  match dir with Forward => saturating_add c 1 | Backward => saturating_sub c 1 end.

Definition min : Count := Backfilled i64_min.
Definition max : Count := Normal (as_u64 i64_max).
Definition default_count : Count := Normal 0.

(** [debug_assert_valid] *)
Definition valid (c : Count) : bool :=
  match c with Normal _ => true | Backfilled i => i <=? 0 end.

Definition cmp (a b : Count) : comparison := into_signed a ?= into_signed b.
Definition eqb (a b : Count) : bool := into_signed a =? into_signed b.

(** The values the machine types admit, within the signed range. *)
Definition wf (c : Count) : Prop :=
  match c with
  | Normal n => 0 <= n <= i64_max
  | Backfilled i => i64_min <= i <= 0
  end.

(** A count as the timeline stores it: a positive position or a backfilled
    one below zero. *)
Definition stored (c : Count) : Prop :=
  match c with
  | Normal n => 1 <= n <= i64_max
  | Backfilled i => i64_min <= i < 0
  end.

Lemma into_signed_wf c :
  wf c -> into_signed c = match c with Normal n => n | Backfilled i => i end.
Proof. destruct c; cbn; [apply as_i64_small|done]. Qed.

Lemma from_signed_into_signed c : stored c -> from_signed (into_signed c) = c.
Proof.
  intros H. rewrite into_signed_wf by (destruct c; cbn in *; int_solve).
  unfold from_signed. destruct c as [n|i]; cbn in H.
  - destruct (Z.leb_spec n 0); [lia|]. rewrite as_u64_small; [done|int_solve].
  - destruct (Z.leb_spec i 0); [done|lia].
Qed.

Lemma from_unsigned_into_unsigned c :
  stored c -> from_unsigned (into_unsigned c) = c.
Proof.
  intros H. rewrite <-(from_signed_into_signed c) at 2 by done.
  unfold from_unsigned. f_equal. destruct c; cbn in *; [done|].
  apply as_i64_of_i64. int_solve.
Qed.

(** A count survives being stored as a [u64] or printed as a signed number
    and read back; the order and the equality are those of the signed numbers,
    with [min] below and [max] above everything. *)
Theorem count_roundtrip_order c d :
  stored c -> wf d ->
  from_unsigned (into_unsigned c) = c /\ from_signed (into_signed c) = c /\
  (eqb c d = true <-> cmp c d = Eq) /\
  cmp min d <> Gt /\ cmp d max <> Gt.
Proof.
  intros Hc Hd.
  split_and!; [by apply from_unsigned_into_unsigned
              |by apply from_signed_into_signed|..].
  - unfold eqb, cmp. rewrite Z.eqb_eq, Z.compare_eq_iff. done.
  - unfold cmp. rewrite (into_signed_wf d Hd). cbn.
    apply Z.compare_le_iff. destruct d; cbn in Hd; int_solve.
  - unfold cmp. rewrite (into_signed_wf d Hd). cbn.
    change (as_i64 _) with i64_max. apply Z.compare_le_iff.
    destruct d; cbn in Hd; int_solve.
Qed.

Lemma count_roundtrip_order_witness :
  from_unsigned (into_unsigned (Backfilled (-5))) = Backfilled (-5).
Proof.
  refine (proj1 (count_roundtrip_order (Backfilled (-5)) (Normal 3) _ _));
    cbn; unfold i64_min, i64_max; lia.
Defined.

(** Stepping a count moves its signed position by exactly one, or fails at
    the end of its own half: forward from [i64::MAX] the position would wrap,
    backward from [Normal(0)] it underflows. The result stays valid except for
    the one step forward from [Backfilled(0)]. *)
Theorem checked_inc_spec c :
  wf c ->
  (into_signed c < i64_max ->
   exists c', checked_inc c Forward = Ok c' /\
     into_signed c' = into_signed c + 1 /\ saturating_inc c Forward = c' /\
     (valid c' = false <-> c = Backfilled 0)) /\
  (c <> Normal 0 -> c <> Backfilled i64_min ->
   exists c', checked_inc c Backward = Ok c' /\
     into_signed c' = into_signed c - 1 /\ saturating_inc c Backward = c' /\
     valid c' = true) /\
  checked_inc (Normal 0) Backward = Err NormalUnderflow /\
  checked_inc (Backfilled i64_min) Backward = Err BackfilledUnderflow.
Proof.
  intros Hc. rewrite (into_signed_wf c Hc).
  change (as_i64 1) with 1. split_and!; [| |done|done].
  - destruct c as [n|i]; cbn -[as_i64] in *; intros Hlt.
    + exists (Normal (n + 1)). unfold u64_checked_add.
      rewrite (proj2 (in_range_Some _ _ _ (n + 1))) by int_solve. cbn -[as_i64].
      split_and!; [done|apply as_i64_small; int_solve| |done].
      f_equal. int_solve.
    + exists (Backfilled (i + 1)). change (as_i64 1) with 1.
      unfold i64_checked_add.
      rewrite (proj2 (in_range_Some _ _ _ (i + 1))) by int_solve. cbn.
      split_and!; [done|done|f_equal; int_solve|].
      rewrite Z.leb_gt. split; [intros; f_equal; lia|intros [= ->]; lia].
  - destruct c as [n|i]; cbn -[as_i64] in *; intros H0 Hm.
    + assert (n <> 0) by congruence.
      exists (Normal (n - 1)). unfold u64_checked_sub.
      rewrite (proj2 (in_range_Some _ _ _ (n - 1))) by int_solve. cbn -[as_i64].
      split_and!; [done|apply as_i64_small; int_solve| |done].
      f_equal. int_solve.
    + assert (i <> i64_min) by congruence.
      exists (Backfilled (i - 1)). change (as_i64 1) with 1.
      unfold i64_checked_sub.
      rewrite (proj2 (in_range_Some _ _ _ (i - 1))) by int_solve. cbn.
      split_and!; [done|done|f_equal; int_solve|apply Z.leb_le; lia].
Qed.

Lemma checked_inc_spec_witness :
  exists c', checked_inc (Backfilled (-1)) Backward = Ok c' /\ into_signed c' = -2.
Proof.
  destruct (checked_inc_spec (Backfilled (-1))) as (_ & H & _);
    [cbn; unfold i64_min; lia|].
  destruct (H ltac:(done) ltac:(done)) as (c' & H1 & H2 & _).
  exists c'. split; [exact H1|exact H2].
Defined.

End Count.

Module RawId.
Import Count Bytes.

Record Id := mkId { shortroomid : Z; shorteventid : Count }.

(** [RawId]: sixteen bytes, or twenty-four for a backfilled event. *)
Inductive RawId := RawNormal (raw : list byte) | RawBackfilled (raw : list byte).

Definition NORMAL_LEN : nat := 16.
Definition BACKFILLED_LEN : nat := 24.
Definition INT_LEN : nat := 8.

Definition as_bytes (r : RawId) : list byte :=
  match r with RawNormal raw => raw | RawBackfilled raw => raw end.

Definition raw_shortroomid (r : RawId) : list byte := take INT_LEN (as_bytes r).

Definition raw_shorteventid (r : RawId) : list byte :=
  match r with
  | RawNormal raw => take INT_LEN (drop INT_LEN raw)
  | RawBackfilled raw => take INT_LEN (drop (INT_LEN * 2) raw)
  end.

(** [From<&[u8]> for RawId]; any other length is [unimplemented!]. *)
Definition from_slice (id : list byte) : option RawId :=
  if (length id =? NORMAL_LEN)%nat then Some (RawNormal id)
  else if (length id =? BACKFILLED_LEN)%nat then Some (RawBackfilled id)
  else None.

(** [From<Id> for RawId] *)
Definition from_id (id : Id) : RawId :=
  let vec := be_bytes 8 (shortroomid id) in
  match shorteventid id with
  | Normal e => RawNormal (vec ++ be_bytes 8 e)
  | Backfilled e => RawBackfilled (vec ++ be_bytes 8 0 ++ be_bytes 8 e)
  end.

(** [From<RawId> for Id] *)
Definition to_id (raw : RawId) : Id :=
  mkId (u64_from_u8x8 (raw_shortroomid raw))
       (from_unsigned (u64_from_u8x8 (raw_shorteventid raw))).

Definition pdu_count (raw : RawId) : Count := shorteventid (to_id raw).

Definition wf_id (id : Id) : Prop := is_u64 (shortroomid id) /\ stored (shorteventid id).

Lemma take_be n z l : take n (be_bytes n z ++ l) = be_bytes n z.
Proof. by rewrite take_app_length' by by rewrite length_be_bytes. Qed.

Lemma drop_be n z l : drop n (be_bytes n z ++ l) = l.
Proof. by rewrite drop_app_length' by by rewrite length_be_bytes. Qed.

Lemma length_from_id id :
  length (as_bytes (from_id id)) =
    match shorteventid id with Normal _ => NORMAL_LEN | Backfilled _ => BACKFILLED_LEN end.
Proof.
  unfold from_id. destruct (shorteventid id); cbn [as_bytes];
    by rewrite !length_app, !length_be_bytes.
Qed.

(** An event's database key decodes to the event's id, whether it is read
    back as a [RawId] or from the raw bytes of the key. *)
Theorem raw_id_roundtrip id :
  wf_id id ->
  to_id (from_id id) = id /\
  from_slice (as_bytes (from_id id)) = Some (from_id id) /\
  pdu_count (from_id id) = shorteventid id.
Proof.
  intros [Hr He].
  assert (Hid : to_id (from_id id) = id).
  { destruct id as [r e]. unfold to_id, from_id, raw_shortroomid, raw_shorteventid.
    cbn [shortroomid shorteventid] in *. unfold INT_LEN, u64_from_u8x8.
    replace (from_unsigned _) with e; [f_equal; destruct e; cbn [as_bytes];
      rewrite take_be, from_be_be_bytes, Z.mod_small; int_solve|].
    rewrite <-(from_unsigned_into_unsigned e He) at 1. f_equal.
    destruct e as [n|i]; cbn [into_unsigned stored] in *.
    - rewrite drop_be. rewrite <-(app_nil_r (be_bytes 8 n)), take_be.
      rewrite from_be_be_bytes, Z.mod_small; int_solve.
    - change (8 * 2)%nat with (8 + 8)%nat. rewrite <-drop_drop, !drop_be.
      rewrite <-(app_nil_r (be_bytes 8 i)), take_be. by rewrite from_be_be_bytes. }
  split_and!; [done| |unfold pdu_count; by rewrite Hid].
  unfold from_slice. rewrite length_from_id.
  unfold from_id. by destruct (shorteventid id).
Qed.

Lemma raw_id_roundtrip_witness :
  to_id (from_id (mkId 7 (Backfilled (-3)))) = mkId 7 (Backfilled (-3)).
Proof.
  refine (proj1 (raw_id_roundtrip (mkId 7 (Backfilled (-3))) _)).
  split; cbn; int_solve.
Defined.

(** Iterating the keys of events visits the rooms in order of their short
    id and, within a room, the events in timeline order: every backfilled event
    before every normal one, and each half by its count. *)
Theorem raw_id_order a b :
  wf_id a -> wf_id b ->
  bytes_cmp (as_bytes (from_id a)) (as_bytes (from_id b)) =
    match shortroomid a ?= shortroomid b with
    | Eq => cmp (shorteventid a) (shorteventid b)
    | r => r
    end.
Proof.
  intros [Hra Hea] [Hrb Heb]. destruct a as [ra ea], b as [rb eb].
  cbn [shortroomid shorteventid] in *.
  assert (Hw : forall z, is_u64 z -> z mod 256 ^ Z.of_nat 8 = z).
  { intros. apply Z.mod_small. int_solve. }
  assert (Hn : forall i, i64_min <= i < 0 -> i mod 256 ^ Z.of_nat 8 = i + 2 ^ 64).
  { intros. symmetry. apply (Z.mod_unique _ _ (-1)); int_solve. }
  assert (Hsa : cmp ea eb = (match ea with Normal n => n | Backfilled i => i end ?=
                             match eb with Normal n => n | Backfilled i => i end)).
  { unfold cmp. rewrite !into_signed_wf; [done|destruct eb|destruct ea];
      cbn in *; int_solve. }
  rewrite Hsa. unfold from_id. cbn [shortroomid shorteventid].
  destruct ea as [n|i], eb as [n'|i']; cbn [as_bytes stored] in *;
    rewrite bytes_cmp_app_len by (by rewrite !length_be_bytes);
    rewrite bytes_cmp_be_bytes, !Hw by done;
    destruct (ra ?= rb); try done.
  - rewrite bytes_cmp_be_bytes, !Hw by int_solve. done.
  - rewrite <-(app_nil_r (be_bytes 8 n)), bytes_cmp_app_len by (by rewrite !length_be_bytes).
    rewrite bytes_cmp_be_bytes, !Hw by int_solve.
    destruct (Z.compare_spec n 0); [lia|lia|]. symmetry. apply Z.compare_gt_iff. lia.
  - rewrite <-(app_nil_r (be_bytes 8 n')), bytes_cmp_app_len by (by rewrite !length_be_bytes).
    rewrite bytes_cmp_be_bytes, !Hw by int_solve.
    destruct (Z.compare_spec 0 n'); [lia| |lia]. symmetry. apply Z.compare_lt_iff. lia.
  - rewrite bytes_cmp_app, bytes_cmp_be_bytes, !Hn by lia.
    rewrite !(Z.add_comm _ (2 ^ 64)). apply Z.add_compare_mono_l.
Qed.

Lemma raw_id_order_witness :
  bytes_cmp (as_bytes (from_id (mkId 7 (Backfilled (-3)))))
            (as_bytes (from_id (mkId 7 (Normal 1)))) = Lt.
Proof.
  refine (eq_trans (raw_id_order (mkId 7 (Backfilled (-3))) (mkId 7 (Normal 1)) _ _) _);
    [split; cbn; int_solve..|reflexivity].
Defined.

End RawId.
