(* ===== verification/Codec.v ===== *)
(** The key codec of [phantom-database/src/codec]: [serialize.rs] writes tuples
    as records joined by the separator byte [0xFF], [deserialize.rs] reads them
    back by the shape the caller asks for. Both are modelled in release and in
    debug builds: [debug] says whether [debug_assert!] is checked, and a failed
    assertion or [unhandled!] is the error [Panic]. *)
From S2P Require Import Prelude.

(** ** UTF-8, as [std::str::from_utf8] validates it *)
Module Utf8.

Definition between (lo hi : Z) (b : byte) : bool := (lo <=? b2z b) && (b2z b <=? hi).
Definition cont (b : byte) : bool := between 128 191 b.

Fixpoint valid (l : list byte) : bool :=
  match l with
  | [] => true
  | a :: l1 =>
      if between 0 127 a then valid l1 else
      match l1 with
      | [] => false
      | b :: l2 =>
          if between 194 223 a then cont b && valid l2 else
          match l2 with
          | [] => false
          | c :: l3 =>
              if between 224 239 a then
                (if b2z a =? 224 then between 160 191 b
                 else if b2z a =? 237 then between 128 159 b
                 else cont b) && cont c && valid l3
              else
              match l3 with
              | [] => false
              | d :: l4 =>
                  between 240 244 a &&
                  (if b2z a =? 240 then between 144 191 b
                   else if b2z a =? 244 then between 128 143 b
                   else cont b) && cont c && cont d && valid l4
              end
          end
      end
  end.

Lemma valid_no_ff_aux (n : nat) l :
  (length l <= n)%nat -> valid l = true -> Byte.xff ∉ l.
Proof.
  assert (Hff : forall lo hi b, between lo hi b = true -> hi < 255 -> b <> Byte.xff).
  { unfold between. intros lo hi b Hb Hh ->. change (b2z Byte.xff) with 255 in Hb. lia. }
  revert l. induction n as [|n IH]; intros [|a l1] Hl; cbn [length] in Hl;
    [set_solver|lia|set_solver|]. cbn [valid].
  assert (Hcons : forall b l, b <> Byte.xff -> Byte.xff ∉ l -> Byte.xff ∉ b :: l).
  { intros b l Hb Hl' [?|?]%elem_of_cons; done. }
  destruct (between 0 127 a) eqn:Ea.
  { intros Hv. apply Hcons; [by eapply Hff|apply IH; [lia|done]]. }
  destruct l1 as [|b l2]; [done|]. cbn [length] in Hl.
  destruct (between 194 223 a) eqn:Ea2.
  { intros [Hb Hv]%andb_true_iff.
    repeat apply Hcons; [by eapply Hff|by eapply Hff|apply IH; [lia|done]]. }
  destruct l2 as [|c l3]; [done|]. cbn [length] in Hl.
  assert (Hpick : forall (t1 t2 : bool) x1 x2 x3 y1 y2 y3 z1 z2 z3,
    (if t1 then between x1 x2 b else if t2 then between y1 y2 b else between z1 z2 b)
      = true -> x2 < 255 -> y2 < 255 -> z2 < 255 -> (x3 + y3 + z3 = 0) ->
    b <> Byte.xff).
  { intros [] [] **; eauto. }
  destruct (between 224 239 a) eqn:Ea3.
  { intros [[Hb Hc]%andb_true_iff Hv]%andb_true_iff. unfold cont in *.
    repeat apply Hcons; [by eapply Hff| |by eapply Hff|apply IH; [lia|done]].
    by eapply (Hpick _ _ _ _ 0 _ _ 0 _ _ 0). }
  destruct l3 as [|d l4]; [done|]. cbn [length] in Hl.
  intros [[[[Ea4 Hb]%andb_true_iff Hc]%andb_true_iff Hd]%andb_true_iff Hv]%andb_true_iff.
  unfold cont in *.
  repeat apply Hcons; [by eapply Hff| |by eapply Hff|by eapply Hff|apply IH; [lia|done]].
  by eapply (Hpick _ _ _ _ 0 _ _ 0 _ _ 0).
Qed.

(** Valid UTF-8 never contains the separator byte. *)
Lemma valid_no_ff l : valid l = true -> Byte.xff ∉ l.
Proof. by apply (valid_no_ff_aux (length l)). Qed.

End Utf8.

Module Codec.

Definition SEP : byte := Byte.xff.

Inductive error :=
  | Panic            (** a failed [debug_assert!], or [unhandled!] *)
  | WriteFull        (** the output buffer has no room *)
  | Encode           (** [serde_json] or [minicbor] refused the value *)
  | Underflow        (** fewer bytes than the integer needs *)
  | NotUtf8
  | InvalidLength    (** the input ended before the tuple did *)
  | Decode.          (** [serde_json] or [minicbor] refused the input *)

Section Formats.

(** The two formats other crates implement: [serde_json] and [minicbor]. *)
Context {payload : Type}.
Context (json_encode cbor_encode : payload -> option (list byte)).
Context (json_decode cbor_decode : list byte -> option payload).

(** What [serde] may ask the serializer to write, and what it may be handed
    back. [VUnhandled] stands for every method that is [unhandled!]: maps,
    structs, enum variants, floats, [bool], [i8], [i16], [u16] and unit. *)
Inductive value :=
  | VU64 (z : Z) | VI64 (z : Z) | VU32 (z : Z) | VI32 (z : Z) | VU8 (z : Z)
  | VStr (s : list byte) | VChar (utf8 : list byte) | VBytes (s : list byte)
  | VNone | VSome (v : value)
  | VTuple (vs : list value) | VSeq (vs : list value)
  | VInterfix | VSeparator
  | VJson (p : payload) | VCbor (p : payload)
  | VIgnored
  | VUnhandled.

(** *** Serializer *)

Record Serializer := mkSer {
  out : list byte;
  cap : option nat;
  depth : Z;
  sep : bool;
  fin : bool
}.

Section Ser.
Context (debug : bool).

Definition debug_assert (b : bool) : result error unit :=
  if negb debug || b then Ok tt else Err Panic.

(** [write_all] into a [Vec] or into an [ArrayVec] of the given capacity. *)
Definition write_all (s : Serializer) (buf : list byte) : result error Serializer :=
  let o := out s ++ buf in
  if match cap s with Some n => (length o <=? n)%nat | None => true end
  then Ok (mkSer o (cap s) (depth s) (sep s) (fin s))
  else Err WriteFull.

Definition write (s : Serializer) (buf : list byte) : result error Serializer :=
  _ ← debug_assert (negb (fin s)); write_all s buf.

Definition separator (s : Serializer) : result error Serializer :=
  _ ← debug_assert (negb (fin s)); write_all s [SEP].

Definition sequence_start (s : Serializer) : result error Serializer :=
  _ ← debug_assert (negb (fin s));
  Ok (if debug
      then mkSer (out s) (cap s) (Z.min u32_max (depth s + 1)) (sep s) (fin s)
      else s).

Definition sequence_end (s : Serializer) : result error Serializer :=
  Ok (if debug
      then mkSer (out s) (cap s) (Z.max 0 (depth s - 1)) (sep s) (fin s)
      else s).

Definition tuple_start (s : Serializer) : result error Serializer :=
  _ ← debug_assert (negb (sep s)); sequence_start s.

Definition tuple_end (s : Serializer) : result error Serializer := sequence_end s.

(** [exchange(&mut self.sep, true)] *)
Definition record_start (s : Serializer) : result error Serializer :=
  _ ← debug_assert (negb (fin s));
  let s' := mkSer (out s) (cap s) (depth s) true (fin s) in
  if sep s then separator s' else Ok s'.

Definition set_finalized (s : Serializer) : result error Serializer :=
  _ ← debug_assert (negb (fin s));
  Ok (if debug then mkSer (out s) (cap s) (depth s) (sep s) true else s).

Definition serialize_bytes (s : Serializer) (v : list byte) : result error Serializer :=
  _ ← debug_assert (0 <? depth s); write s v.

Definition serialize_str (s : Serializer) (v : list byte) : result error Serializer :=
  _ ← debug_assert (0 <? depth s); serialize_bytes s v.

Definition serialize_newtype_struct (s : Serializer) (enc : option (list byte)) :
    result error Serializer :=
  b ← ok_or enc Encode; write_all s b.

(** [value.serialize(&mut serializer)] *)
Fixpoint serialize_value (v : value) (s : Serializer) : result error Serializer :=
  match v with
  | VU64 z | VI64 z => write s (be_bytes 8 z)
  | VU32 z | VI32 z => write s (be_bytes 4 z)
  | VU8 z => write s [z2b z]
  | VStr b | VChar b => serialize_str s b
  | VBytes b => serialize_bytes s b
  | VNone => Ok s
  | VSome v => serialize_value v s
  | VTuple vs =>
      s ← tuple_start s;
      s ← (fix elements vs s :=
             match vs with
             | [] => Ok s
             | v :: vs => s ← record_start s; s ← serialize_value v s; elements vs s
             end) vs s;
      tuple_end s
  | VSeq vs =>
      s ← sequence_start s;
      s ← (fix elements vs s :=
             match vs with
             | [] => Ok s
             | v :: vs => s ← serialize_value v s; elements vs s
             end) vs s;
      sequence_end s
  | VInterfix => set_finalized s
  | VSeparator => separator s
  | VJson p => serialize_newtype_struct s (json_encode p)
  | VCbor p => serialize_newtype_struct s (cbor_encode p)
  | VIgnored | VUnhandled => Err Panic
  end.

(** The element loop of [SerializeTuple], by name. *)
Fixpoint serialize_elements (vs : list value) (s : Serializer) : result error Serializer :=
  match vs with
  | [] => Ok s
  | v :: vs => s ← record_start s; s ← serialize_value v s; serialize_elements vs s
  end.

Definition new_serializer (cap : option nat) : Serializer :=
  mkSer [] cap 0 false false.

(** [serialize]; [serialize_to_vec] is the unbounded instance. *)
Definition serialize (cap : option nat) (v : value) : result error (list byte) :=
  s ← serialize_value v (new_serializer cap);
  _ ← debug_assert (depth s =? 0);
  Ok (out s).

Definition serialize_to_vec (v : value) : result error (list byte) :=
  serialize None v.

End Ser.

(** *** Deserializer *)

(** The type the caller deserializes to. *)
Inductive shape :=
  | SU64 | SI64 | SStr | SString | SBytes
  | SOption (sh : shape)
  | STuple (shs : list shape)
  | SSeq (sh : shape)
  | SIgnore | SIgnoreAll
  | SJson | SCbor
  | SNewtype (sh : shape)
  | SUnhandled.

Record Deserializer := mkDe {
  buf : list byte;
  pos : nat;
  rec : nat;
  seq : bool
}.

Section De.
Context (debug : bool).

Definition inc_pos (d : Deserializer) (n : nat) : result error Deserializer :=
  let p := (pos d + n)%nat in
  _ ← debug_assert debug (p <=? length (buf d))%nat;
  Ok (mkDe (buf d) p (rec d) (seq d)).

Definition inc_rec (d : Deserializer) (n : nat) : Deserializer :=
  mkDe (buf d) (pos d) (rec d + n) (seq d).

(** [&self.buf[self.pos..]], which panics when [pos] is out of range. *)
Definition rest (d : Deserializer) : result error (list byte) :=
  if (pos d <=? length (buf d))%nat then Ok (drop (pos d) (buf d)) else Err Panic.

(** The first piece of [split(|b| *b == SEP)]. *)
Fixpoint until_sep (l : list byte) : list byte :=
  match l with
  | [] => []
  | b :: l => if decide (b = SEP) then [] else b :: until_sep l
  end.

Definition record_next (d : Deserializer) : result error (Deserializer * list byte) :=
  l ← rest d;
  let r := until_sep l in
  d ← inc_pos d (length r);
  Ok (d, r).

Definition record_trail (d : Deserializer) : result error (Deserializer * list byte) :=
  l ← rest d;
  d ← inc_pos d (length l);
  Ok (d, l).

Definition started (d : Deserializer) : bool :=
  negb (pos d =? 0)%nat || negb (rec d =? 0)%nat.

Definition record_start_de (d : Deserializer) : result error Deserializer :=
  let st := started d in
  _ ← debug_assert debug (negb st || bool_decide (buf d !! pos d = Some SEP));
  d ← inc_pos d (if st then 1 else 0)%nat;
  Ok (inc_rec d 1).

Definition sequence_start_de (d : Deserializer) : result error Deserializer :=
  _ ← debug_assert debug (negb (seq d));
  Ok (mkDe (buf d) (pos d) (rec d) true).

(** [deserialize_i64] and [deserialize_u64], up to the reading of the bytes. *)
Definition take_int (d : Deserializer) : result error (Deserializer * list byte) :=
  l ← rest d;
  let bytes := take 8 l in
  if (length bytes =? 8)%nat
  then d ← inc_pos d 8; Ok (d, bytes)
  else Err Underflow.

Definition record_ignore (d : Deserializer) : result error (Deserializer * list byte) :=
  if seq d then record_next d else record_trail d.

(** [T::deserialize(&mut deserializer)]. The tuple loop is
    bounded by its shape; the loop of a sequence by [S (length buf)], which it
    never exhausts: each element after the first moves past a separator. *)
Fixpoint deserialize_value (sh : shape) (d : Deserializer) :
    result error (Deserializer * value) :=
  match sh with
  | SU64 => '(d, b) ← take_int d; Ok (d, VU64 (from_be b))
  | SI64 => '(d, b) ← take_int d; Ok (d, VI64 (as_i64 (from_be b)))
  | SStr | SString =>
      '(d, b) ← record_next d;
      if Utf8.valid b then Ok (d, VStr b) else Err NotUtf8
  | SBytes => '(d, b) ← record_trail d; Ok (d, VBytes b)
  | SOption sh =>
      if match buf d !! pos d with Some b => bool_decide (b = SEP) | None => true end
      then Ok (d, VNone)
      else '(d, v) ← deserialize_value sh d; Ok (d, VSome v)
  | STuple shs =>
      d ← sequence_start_de d;
      '(d, vs) ← (fix elements shs d :=
             match shs with
             | [] => Ok (d, [])
             | sh :: shs =>
                 if (length (buf d) <=? pos d)%nat then Err InvalidLength else
                 d ← record_start_de d;
                 '(d, v) ← deserialize_value sh d;
                 '(d, vs) ← elements shs d;
                 Ok (d, v :: vs)
             end) shs d;
      Ok (d, VTuple vs)
  | SSeq sh =>
      d ← sequence_start_de d;
      '(d, vs) ← (fix elements (fuel : nat) d :=
             if (length (buf d) <=? pos d)%nat then Ok (d, []) else
             match fuel with
             | O => Ok (d, [])
             | S fuel =>
                 d ← record_start_de d;
                 '(d, v) ← deserialize_value sh d;
                 '(d, vs) ← elements fuel d;
                 Ok (d, v :: vs)
             end) (S (length (buf d))) d;
      Ok (d, VSeq vs)
  | SIgnore => '(d, _) ← record_ignore d; Ok (d, VIgnored)
  | SIgnoreAll => '(d, _) ← record_trail d; Ok (d, VIgnored)
  | SJson => '(d, b) ← record_next d; p ← ok_or (json_decode b) Decode; Ok (d, VJson p)
  | SCbor => '(d, b) ← record_trail d; p ← ok_or (cbor_decode b) Decode; Ok (d, VCbor p)
  | SNewtype sh => deserialize_value sh d
  | SUnhandled => Err Panic
  end.

(** The element loop of a tuple's visitor, by name. *)
Fixpoint deserialize_elements (shs : list shape) (d : Deserializer) :
    result error (Deserializer * list value) :=
  match shs with
  | [] => Ok (d, [])
  | sh :: shs =>
      if (length (buf d) <=? pos d)%nat then Err InvalidLength else
      d ← record_start_de d;
      '(d, v) ← deserialize_value sh d;
      '(d, vs) ← deserialize_elements shs d;
      Ok (d, v :: vs)
  end.

(** [Deserializer::finished] *)
Definition finished (d : Deserializer) : bool :=
  let unparsed := drop (pos d) (buf d) in
  bool_decide (unparsed = []) || bool_decide (unparsed = [SEP]).

Definition from_slice (sh : shape) (b : list byte) : result error value :=
  '(d, v) ← deserialize_value sh (mkDe b 0 0 false);
  _ ← debug_assert debug (finished d);
  Ok v.

End De.
End Formats.

Arguments value : clear implicits.
Arguments debug_assert : simpl never.
Arguments be_bytes : simpl never.

(** ** What a key is made of *)
Section Keys.
Context {payload : Type}.
Context (json_encode cbor_encode : payload -> option (list byte)).
Context (json_decode cbor_decode : list byte -> option payload).
Context (debug : bool).

#[local] Abbreviation value := (value payload).
#[local] Abbreviation serialize_value := (serialize_value json_encode cbor_encode debug).
#[local] Abbreviation serialize_elements := (serialize_elements json_encode cbor_encode debug).
#[local] Abbreviation serialize_to_vec := (serialize_to_vec json_encode cbor_encode debug).
#[local] Abbreviation deserialize_value := (deserialize_value json_decode cbor_decode debug).
#[local] Abbreviation deserialize_elements := (deserialize_elements json_decode cbor_decode debug).
#[local] Abbreviation from_slice := (from_slice json_decode cbor_decode debug).

(** A record of a key: an integer, text, raw bytes, or an optional one. *)
Fixpoint flat (v : value) : Prop :=
  match v with
  | VU64 _ | VI64 _ | VU32 _ | VI32 _ | VU8 _ | VStr _ | VChar _ | VBytes _ | VNone => True
  | VSome v => flat v
  | _ => False
  end.

Fixpoint field_bytes (v : value) : list byte :=
  match v with
  | VU64 z | VI64 z => be_bytes 8 z
  | VU32 z | VI32 z => be_bytes 4 z
  | VU8 z => [z2b z]
  | VStr b | VChar b | VBytes b => b
  | VSome v => field_bytes v
  | _ => []
  end.

(** The bytes of the records after the first, and of a whole key. *)
Definition tail_bytes (vs : list value) : list byte :=
  concat ((fun v => SEP :: field_bytes v) <$> vs).

Definition key_bytes (vs : list value) : list byte :=
  match vs with [] => [] | v :: vs => field_bytes v ++ tail_bytes vs end.

#[local] Arguments tail_bytes : simpl never.
#[local] Arguments key_bytes : simpl never.

Lemma tail_cons v vs : tail_bytes (v :: vs) = SEP :: field_bytes v ++ tail_bytes vs.
Proof. done. Qed.

(** The states the serializer is in while it writes the records of a key. *)
Definition inside (o : list byte) (d : Z) (sp : bool) : Serializer :=
  mkSer o None d sp false.

Lemma debug_assert_true : debug_assert debug true = Ok tt.
Proof. unfold debug_assert. by rewrite orb_true_r. Qed.

(** Inside a tuple: a debug build has counted its depth. *)
Definition nested (d : Z) : Prop := debug = true -> 0 < d.

Lemma debug_assert_nested d : nested d -> debug_assert debug (0 <? d) = Ok tt.
Proof.
  unfold nested, debug_assert. destruct debug; [|done]. intros H.
  by rewrite (proj2 (Z.ltb_lt 0 d) (H eq_refl)).
Qed.

Lemma tuple_eq vs s :
  serialize_value (VTuple vs) s =
    (s ← tuple_start debug s; s ← serialize_elements vs s; tuple_end debug s).
Proof. reflexivity. Qed.

Lemma de_tuple_eq shs d :
  deserialize_value (STuple shs) d =
    (d ← sequence_start_de debug d;
     '(d, vs) ← deserialize_elements shs d; Ok (d, VTuple vs)).
Proof. reflexivity. Qed.

Lemma write_inside o d sp b :
  write debug (inside o d sp) b = Ok (inside (o ++ b) d sp).
Proof. unfold write. cbn. by rewrite debug_assert_true. Qed.

Lemma serialize_flat v o d sp :
  flat v -> nested d ->
  serialize_value v (inside o d sp) = Ok (inside (o ++ field_bytes v) d sp).
Proof.
  intros Hv Hd.
  assert (Hb : forall b, serialize_bytes debug (inside o d sp) b =
    Ok (inside (o ++ b) d sp)).
  { intros b. unfold serialize_bytes. cbn [depth inside].
    rewrite debug_assert_nested by done. apply write_inside. }
  assert (Hs : forall b, serialize_str debug (inside o d sp) b =
    Ok (inside (o ++ b) d sp)).
  { intros b. unfold serialize_str. cbn [depth inside].
    rewrite debug_assert_nested by done. apply Hb. }
  induction v; cbn -[be_bytes] in *; try done;
    rewrite ?write_inside; auto. by rewrite app_nil_r.
Qed.

Lemma record_start_inside o d sp :
  record_start debug (inside o d sp) =
    Ok (inside (o ++ (if sp then [SEP] else [])) d true).
Proof.
  unfold record_start, separator. cbn. rewrite debug_assert_true. cbn.
  destruct sp; [by rewrite ?debug_assert_true|by rewrite app_nil_r].
Qed.

Lemma serialize_elements_flat vs o d :
  Forall flat vs -> nested d ->
  serialize_elements vs (inside o d true) = Ok (inside (o ++ tail_bytes vs) d true).
Proof.
  intros Hvs Hd. revert o. induction Hvs as [|v vs Hv Hvs IH]; intros o.
  { cbn. by rewrite app_nil_r. }
  cbn [Codec.serialize_elements]. rewrite record_start_inside. cbn.
  rewrite serialize_flat by done. cbn. rewrite IH. rewrite tail_cons. by rewrite <-!app_assoc.
Qed.

Lemma serialize_elements_app vs ws s :
  serialize_elements (vs ++ ws) s =
    (s ← serialize_elements vs s; serialize_elements ws s).
Proof.
  revert s. induction vs as [|v vs IH]; intros s; [done|].
  cbn [app Codec.serialize_elements].
  destruct (record_start debug s); cbn; [|done].
  destruct (serialize_value v a); cbn; [|done]. apply IH.
Qed.

Lemma serialize_first v vs o d :
  Forall flat (v :: vs) -> nested d ->
  serialize_elements (v :: vs) (inside o d false) =
    Ok (inside (o ++ key_bytes (v :: vs)) d true).
Proof.
  intros [Hv Hvs]%Forall_cons Hd. cbn [Codec.serialize_elements].
  rewrite record_start_inside. cbn -[key_bytes]. rewrite app_nil_r.
  rewrite serialize_flat by done. cbn -[key_bytes].
  rewrite serialize_elements_flat by done. by rewrite <-app_assoc.
Qed.

(** Entering and leaving the tuple of a key. *)
Lemma tuple_wrap vs o (f : Serializer) :
  serialize_elements vs (inside [] (if debug then 1 else 0) false) = Ok f ->
  depth f = (if debug then 1 else 0) -> out f = o ->
  serialize_to_vec (VTuple vs) = Ok o.
Proof.
  intros H Hd Ho. unfold Codec.serialize_to_vec, serialize.
  rewrite tuple_eq. unfold tuple_start, sequence_start. cbn [sep fin new_serializer negb].
  rewrite !debug_assert_true. cbn [mbind result_bind].
  replace (if debug then _ else _) with (inside [] (if debug then 1 else 0) false)
    by (by destruct debug).
  rewrite H. cbn [mbind result_bind tuple_end sequence_end].
  rewrite Hd. unfold tuple_end, sequence_end. cbn [mbind result_bind].
  destruct debug; cbn [depth out] ; by rewrite ?Hd, Ho.
Qed.

Lemma serialize_key vs :
  vs <> [] -> Forall flat vs -> serialize_to_vec (VTuple vs) = Ok (key_bytes vs).
Proof.
  intros Hne Hvs. destruct vs as [|v vs]; [done|].
  eapply tuple_wrap; [apply serialize_first; [done|]|done|done].
  unfold nested. by intros ->.
Qed.

Lemma serialize_prefix vs :
  vs <> [] -> Forall flat vs ->
  serialize_to_vec (VTuple (vs ++ [VInterfix])) = Ok (key_bytes vs ++ [SEP]).
Proof.
  intros Hne Hvs. destruct vs as [|v vs]; [done|].
  eapply tuple_wrap.
  - rewrite serialize_elements_app, serialize_first;
      [|done|unfold nested; by intros ->].
    cbn [mbind result_bind Codec.serialize_elements].
    rewrite record_start_inside. cbn [mbind result_bind Codec.serialize_value].
    unfold set_finalized. cbn [fin inside negb]. rewrite debug_assert_true.
    reflexivity.
  - by destruct debug.
  - by destruct debug.
Qed.

(** A value that reads back as itself under the shape: text must be UTF-8, and
    an optional record must not look like an absent one, which is what an empty
    record and a record starting with the separator byte do. *)
Fixpoint field_ok (sh : shape) (v : value) : Prop :=
  match sh, v with
  | SU64, VU64 z => is_u64 z
  | SI64, VI64 z => is_i64 z
  | SStr, VStr b | SString, VStr b => Utf8.valid b = true
  | SOption _, VNone => True
  | SOption sh, VSome v =>
      field_ok sh v /\ exists b l, field_bytes v = b :: l /\ b <> SEP
  | SNewtype sh, v => field_ok sh v
  | _, _ => False
  end.

(** A value of the type the shape stands for: an integer of its width, text (which
    in Rust is UTF-8), or an optional one. *)
Fixpoint typed (sh : shape) (v : value) : Prop :=
  match sh, v with
  | SU64, VU64 z => is_u64 z
  | SI64, VI64 z => is_i64 z
  | SStr, VStr b | SString, VStr b => Utf8.valid b = true
  | SOption _, VNone => True
  | SOption sh, VSome v => typed sh v
  | SNewtype sh, v => typed sh v
  | _, _ => False
  end.

(** The optional records that are told from absent ones: not the empty text, not an
    absent one again, not an integer whose first byte is the separator's. *)
Fixpoint kept (v : value) : Prop :=
  match v with
  | VSome v =>
      match v with
      | VU64 z => z < 255 * 2 ^ 56
      | VI64 z => z < - 2 ^ 56 \/ 0 <= z
      | VStr b => b <> []
      | VNone => False
      | v => kept v
      end
  | _ => True
  end.

(** The first byte of an integer's record. *)
Lemma int_first z : - 2 ^ 63 <= z < 2 ^ 64 ->
  (exists b l, be_bytes 8 z = b :: l /\ b <> SEP) <-> z < - 2 ^ 56 \/ 0 <= z < 255 * 2 ^ 56.
Proof using Type.
  clear json_encode cbor_encode json_decode cbor_decode debug.
  intros Hz. assert (Hb : z2b (z / 2 ^ 56) = SEP <-> (z / 2 ^ 56) mod 256 = 255).
  { rewrite <-b2z_z2b. split; [by intros ->|]. intros E. apply b2z_inj. by rewrite E. }
  change (be_bytes 8 z) with (z2b (z / 2 ^ 56) :: be_bytes 7 z).
  transitivity (z2b (z / 2 ^ 56) <> SEP); [naive_solver|]. rewrite Hb.
  pose proof (Z.div_mod z (2 ^ 56) ltac:(lia)). pose proof (Z.mod_pos_bound z (2 ^ 56) ltac:(lia)).
  pose proof (Z.div_mod (z / 2 ^ 56) 256 ltac:(lia)).
  pose proof (Z.mod_pos_bound (z / 2 ^ 56) 256 ltac:(lia)). lia.
Qed.

(** An optional record is kept when its own record is not empty and does not start
    with the separator. *)
Lemma kept_some sh v : typed sh v ->
  kept (VSome v) <-> kept v /\ exists b l, field_bytes v = b :: l /\ b <> SEP.
Proof using Type.
  clear json_encode cbor_encode json_decode cbor_decode debug.
  revert v. induction sh; intros v Ht; try (by destruct v).
  - destruct v; try done. cbn in Ht |- *. rewrite int_first by int_solve. int_solve.
  - destruct v; try done. cbn in Ht |- *. rewrite int_first by int_solve. int_solve.
  - destruct v as [| | | | |b| | | | | | | | | | | |]; try done. cbn in Ht |- *.
    apply Utf8.valid_no_ff in Ht. destruct b as [|x b]; [naive_solver|].
    apply not_elem_of_cons in Ht as [? _]. naive_solver.
  - destruct v as [| | | | |b| | | | | | | | | | | |]; try done. cbn in Ht |- *.
    apply Utf8.valid_no_ff in Ht. destruct b as [|x b]; [naive_solver|].
    apply not_elem_of_cons in Ht as [? _]. naive_solver.
  - destruct v as [| | | | | | | | |v| | | | | | | |]; try done; [cbn; naive_solver|].
    cbn in Ht. change (kept (VSome (VSome v))) with (kept (VSome v)).
    change (field_bytes (VSome v)) with (field_bytes v). rewrite (IHsh v Ht). naive_solver.
  - by apply IHsh.
Qed.

Lemma field_ok_iff sh v : field_ok sh v <-> typed sh v /\ kept v.
Proof using Type.
  clear json_encode cbor_encode json_decode cbor_decode debug.
  revert v. induction sh; intros v; try (by destruct v; cbn; naive_solver).
  destruct v as [| | | | | | | | |v| | | | | | | |]; cbn [field_ok typed kept]; try naive_solver.
  split.
  - intros [[Ht Hk]%IHsh Hb]. split; [done|]. by apply (kept_some sh).
  - intros [Ht [Hk Hb]%(kept_some sh)]; [|done]. split; [by apply IHsh|done].
Qed.

Lemma field_ok_flat sh v : field_ok sh v -> flat v.
Proof.
  revert v. induction sh; intros v; try (by destruct v).
  - destruct v; cbn; try done. intros [? _]. auto.
  - apply IHsh.
Qed.

Lemma typed_flat sh v : typed sh v -> flat v.
Proof using Type.
  clear json_encode cbor_encode json_decode cbor_decode debug.
  revert v. induction sh; intros v; try (by destruct v).
  - destruct v; cbn; try done. auto.
  - apply IHsh.
Qed.

(** What follows a record in a key: nothing, or the separator. *)
Definition ends_record (suf : list byte) : Prop :=
  suf = [] \/ exists l, suf = SEP :: l.

Lemma ends_tail vs : ends_record (tail_bytes vs).
Proof. destruct vs; [by left|right; eexists; apply tail_cons]. Qed.

Lemma until_sep_app b suf : SEP ∉ b -> ends_record suf -> until_sep (b ++ suf) = b.
Proof.
  intros Hb Hs. induction b as [|x b IH]; cbn.
  - destruct Hs as [->|[l ->]]; [done|]. cbn. by destruct (decide _).
  - apply not_elem_of_cons in Hb as [Hx Hb]. destruct (decide (x = SEP)); [done|].
    by rewrite IH.
Qed.

Lemma rest_at pre l r sq :
  rest (mkDe (pre ++ l) (length pre) r sq) = Ok l.
Proof.
  unfold rest. cbn. rewrite length_app.
  destruct (Nat.leb_spec (length pre) (length pre + length l)); [|lia].
  by rewrite drop_app_length.
Qed.

Lemma inc_pos_at l p n r sq :
  (p + n <= length l)%nat ->
  inc_pos debug (mkDe l p r sq) n = Ok (mkDe l (p + n) r sq).
Proof.
  intros H. unfold inc_pos. cbn.
  rewrite (proj2 (Nat.leb_le _ _) H). by rewrite debug_assert_true.
Qed.

Lemma record_next_at pre b suf r sq :
  SEP ∉ b -> ends_record suf ->
  record_next debug (mkDe (pre ++ b ++ suf) (length pre) r sq) =
    Ok (mkDe (pre ++ b ++ suf) (length pre + length b) r sq, b).
Proof.
  intros Hb Hs. unfold record_next. rewrite rest_at. cbn [mbind result_bind].
  rewrite until_sep_app by done.
  rewrite inc_pos_at by (rewrite !length_app; lia). done.
Qed.

Lemma take_int_at pre z suf r sq :
  take_int debug (mkDe (pre ++ be_bytes 8 z ++ suf) (length pre) r sq) =
    Ok (mkDe (pre ++ be_bytes 8 z ++ suf) (length pre + 8) r sq, be_bytes 8 z).
Proof.
  unfold take_int. rewrite rest_at. cbn [mbind result_bind].
  rewrite take_app_length' by by rewrite length_be_bytes.
  rewrite length_be_bytes. cbn [Nat.eqb].
  rewrite inc_pos_at by (rewrite !length_app, length_be_bytes; lia). done.
Qed.

Lemma deserialize_field sh v pre suf r sq :
  field_ok sh v -> ends_record suf ->
  deserialize_value sh (mkDe (pre ++ field_bytes v ++ suf) (length pre) r sq) =
    Ok (mkDe (pre ++ field_bytes v ++ suf) (length pre + length (field_bytes v)) r sq, v).
Proof.
  intros Hok Hs. revert v Hok.
  induction sh; intros v Hok; try (by destruct v); cbn [Codec.deserialize_value].
  - destruct v; try done. cbn [field_bytes field_ok] in *.
    rewrite take_int_at. cbn [mbind result_bind]. rewrite length_be_bytes.
    rewrite from_be_be_bytes, Z.mod_small; [done|int_solve].
  - destruct v; try done. cbn [field_bytes field_ok] in *.
    rewrite take_int_at. cbn [mbind result_bind]. rewrite length_be_bytes.
    rewrite from_be_be_bytes. change (256 ^ Z.of_nat 8) with (2 ^ 64).
    fold (as_u64 z). by rewrite as_i64_of_i64.
  - destruct v; try done. cbn [field_bytes field_ok] in *.
    rewrite record_next_at by auto using Utf8.valid_no_ff.
    cbn [mbind result_bind]. by rewrite Hok.
  - destruct v; try done. cbn [field_bytes field_ok] in *.
    rewrite record_next_at by auto using Utf8.valid_no_ff.
    cbn [mbind result_bind]. by rewrite Hok.
  - destruct v as [| | | | | | | | |v| | | | | | | |]; try done; cbn [field_bytes field_ok] in *.
    + cbn [buf pos]. rewrite lookup_app_r, Nat.sub_diag by lia.
      rewrite Nat.add_0_r. destruct Hs as [->|[l ->]]; cbn; done.
    + destruct Hok as [Hok (b & l & Hb & Hne)]. cbn [buf pos].
      assert ((pre ++ field_bytes v ++ suf) !! length pre = Some b) as ->.
      { rewrite lookup_app_r, Nat.sub_diag, Hb by lia. done. }
      rewrite bool_decide_eq_false_2 by done.
      by rewrite (IHsh v Hok).
  - by apply IHsh.
Qed.

(** A record that is not kept does not come back. *)
Lemma deserialize_field_inv sh v pre suf r sq d :
  typed sh v -> ends_record suf ->
  deserialize_value sh (mkDe (pre ++ field_bytes v ++ suf) (length pre) r sq) = Ok (d, v) ->
  field_ok sh v.
Proof.
  intros Ht Hs. revert v Ht.
  induction sh; intros v Ht; try (by destruct v); cbn [Codec.deserialize_value].
  - destruct v as [| | | | | | | | |v| | | | | | | |]; try done; cbn [field_bytes field_ok typed buf pos] in *.
    rewrite lookup_app_r, Nat.sub_diag by lia.
    destruct (field_bytes v) as [|b l] eqn:Eb.
    { destruct Hs as [->|[l ->]]; cbn; done. }
    cbn [app lookup list_lookup]. case_bool_decide as Hb; [done|].
    intros Hd. bind_inv. destruct v0. simplify_eq. split; [|eauto].
    apply IHsh; [done|]. by rewrite Eb.
  - by apply IHsh.
Qed.

Lemma record_start_at pre l r sq :
  record_start_de debug (mkDe (pre ++ SEP :: l) (length pre) (S r) sq) =
    Ok (mkDe ((pre ++ [SEP]) ++ l) (length (pre ++ [SEP])) (S (S r)) sq).
Proof.
  unfold record_start_de, started. cbn [pos rec buf].
  rewrite orb_true_r. cbn [negb orb].
  rewrite lookup_app_r, Nat.sub_diag by lia.
  cbn [lookup list_lookup]. rewrite bool_decide_eq_true_2, debug_assert_true by done.
  cbn [mbind result_bind]. rewrite inc_pos_at by (rewrite length_app; cbn; lia).
  cbn [mbind result_bind inc_rec pos rec buf seq]. unfold inc_rec. cbn [pos rec buf seq].
  rewrite <-app_assoc, length_app, !Nat.add_1_r. done.
Qed.

Lemma deserialize_tail shs vs pre r sq :
  Forall2 field_ok shs vs ->
  deserialize_elements shs (mkDe (pre ++ tail_bytes vs) (length pre) (S r) sq) =
    Ok (mkDe (pre ++ tail_bytes vs) (length (pre ++ tail_bytes vs)) (S r + length vs) sq, vs).
Proof.
  intros H. revert pre r. induction H as [|sh v shs vs Hv Hvs IH]; intros pre r.
  { cbn. unfold tail_bytes. cbn. by rewrite app_nil_r, Nat.add_0_r. }
  rewrite tail_cons. cbn [Codec.deserialize_elements buf pos].
  destruct (Nat.leb_spec (length (pre ++ SEP :: field_bytes v ++ tail_bytes vs)) (length pre))
    as [Hle|_]; [rewrite length_app in Hle; cbn in Hle; lia|].
  rewrite record_start_at. cbn [mbind result_bind].
  rewrite deserialize_field by auto using ends_tail. cbn [mbind result_bind].
  rewrite app_assoc, <-length_app, IH. cbn [mbind result_bind].
  cbn [length]. rewrite <-!app_assoc. cbn [app].
  by replace (S (S r) + length vs)%nat with (S r + S (length vs))%nat by lia.
Qed.

Lemma deserialize_tail_inv shs vs pre r sq d :
  Forall2 typed shs vs ->
  deserialize_elements shs (mkDe (pre ++ tail_bytes vs) (length pre) (S r) sq) = Ok (d, vs) ->
  Forall2 field_ok shs vs.
Proof.
  intros H. revert pre r d. induction H as [|sh v shs vs Hv Hvs IH]; intros pre r d; [done|].
  rewrite tail_cons. cbn [Codec.deserialize_elements buf pos]. case_match; [done|].
  rewrite record_start_at. cbn [mbind result_bind]. intros Hd. bind_inv. destruct v0 as [d1 v1].
  bind_inv. destruct v0 as [d2 vs2]. simplify_eq.
  assert (Hok : field_ok sh v) by (eapply deserialize_field_inv; eauto using ends_tail).
  constructor; [done|]. rewrite deserialize_field in Hv0 by auto using ends_tail.
  injection Hv0 as <-. eapply (IH (pre ++ SEP :: field_bytes v) _ d).
  rewrite <-!app_assoc, length_app. cbn [app length]. 
  match goal with H : deserialize_elements _ _ = _ |- _ => rewrite <-H end. f_equal.
  rewrite <-!app_assoc, length_app. cbn [app length]. f_equal; lia.
Qed.

End Keys.

(** Text records as a scan prefix: each followed by the separator. *)
Definition frame (ps : list (list byte)) : list byte :=
  concat ((fun p => p ++ [SEP]) <$> ps).

Lemma frame_cons p ps : frame (p :: ps) = p ++ SEP :: frame ps.
Proof. unfold frame. cbn. by rewrite <-app_assoc. Qed.

Lemma key_bytes_tail {payload} (v : value payload) vs :
  tail_bytes (v :: vs) = SEP :: key_bytes (v :: vs).
Proof. done. Qed.

Lemma key_bytes_frame {payload} ps (vs : list (value payload)) :
  vs <> [] -> key_bytes ((VStr <$> ps) ++ vs) = frame ps ++ key_bytes vs.
Proof.
  intros Hvs. induction ps as [|p ps IH]; [done|].
  rewrite frame_cons, fmap_cons. cbn [app key_bytes field_bytes].
  rewrite <-app_assoc. cbn [app]. rewrite <-IH. f_equal.
  destruct ((VStr <$> ps) ++ vs) as [|w ws] eqn:E; [|done].
  apply app_nil in E as [_ ?]. done.
Qed.

Lemma key_bytes_frame_sep {payload} ps :
  ps <> [] -> key_bytes (VStr (payload := payload) <$> ps) ++ [SEP] = frame ps.
Proof.
  intros Hps. induction ps as [|p ps IH]; [done|]. rewrite frame_cons.
  destruct ps as [|q ps].
  { rewrite fmap_cons. cbn [fmap list_fmap key_bytes field_bytes tail_bytes]. unfold frame.
    cbn. by rewrite ?app_nil_r. }
  rewrite <-IH by done.
  rewrite fmap_cons. cbn [key_bytes field_bytes]. rewrite fmap_cons, key_bytes_tail.
  by rewrite <-app_assoc.
Qed.

Lemma sep_split p q k l :
  SEP ∉ p -> SEP ∉ q -> (p ++ SEP :: k) `prefix_of` (q ++ SEP :: l) ->
  p = q /\ k `prefix_of` l.
Proof.
  revert q. induction p as [|x p IH]; intros [|y q] Hp Hq; cbn.
  - intros H. split; [done|]. by eapply prefix_cons_inv_2.
  - intros H. apply prefix_cons_inv_1 in H. set_solver.
  - intros H. apply prefix_cons_inv_1 in H. set_solver.
  - intros H. pose proof (prefix_cons_inv_1 _ _ _ _ H) as ->.
    apply prefix_cons_inv_2 in H. destruct (IH q) as [-> ?]; [set_solver..|done|done].
Qed.

Lemma frame_prefix ps qs k :
  length ps = length qs -> Forall (fun p => SEP ∉ p) ps -> Forall (fun p => SEP ∉ p) qs ->
  frame ps `prefix_of` frame qs ++ k <-> ps = qs.
Proof.
  intros Hl Hps Hqs. split; [|intros ->; apply prefix_app_r; done].
  revert qs Hl Hqs. induction Hps as [|p ps Hp Hps IH]; intros [|q qs]; cbn [length]; try done.
  intros [= Hl] [Hq Hqs]%Forall_cons. rewrite !frame_cons, <-app_assoc. cbn [app].
  intros [-> H]%sep_split; [|done|done]. f_equal. auto.
Qed.

(** A key reads back under the shapes of its records. *)
Lemma from_slice_key {payload} jd cd debug shs (vs : list (value payload)) :
  Forall2 field_ok shs vs -> key_bytes vs <> [] ->
  from_slice jd cd debug (STuple shs) (key_bytes vs) = Ok (VTuple vs).
Proof.
  intros H Hne. destruct H as [|sh v shs vs Hv Hvs]; [done|].
  unfold from_slice. rewrite de_tuple_eq. unfold sequence_start_de. cbn [seq negb].
  rewrite debug_assert_true. cbn [mbind result_bind deserialize_elements buf pos].
  destruct (Nat.leb_spec (length (key_bytes (v :: vs))) 0) as [Hle|_].
  { destruct (key_bytes (v :: vs)); [done|cbn in Hle; lia]. }
  unfold record_start_de. cbn [started pos rec buf negb orb Nat.eqb].
  rewrite debug_assert_true. cbn [mbind result_bind].
  rewrite inc_pos_at by (cbn; lia). cbn [mbind result_bind].
  change (inc_rec _ 1) with (mkDe ([] ++ field_bytes v ++ tail_bytes vs)
    (length (@nil byte)) 1 true).
  rewrite deserialize_field by auto using ends_tail. cbn [mbind result_bind app length].
  rewrite Nat.add_0_l, deserialize_tail by done. cbn [mbind result_bind].
  unfold finished. cbn [pos buf]. rewrite drop_all.
  rewrite bool_decide_eq_true_2 by done. cbn [orb]. by rewrite debug_assert_true.
Qed.

Lemma from_slice_key_inv {payload} jd cd debug shs (vs : list (value payload)) :
  Forall2 typed shs vs -> vs <> [] ->
  from_slice jd cd debug (STuple shs) (key_bytes vs) = Ok (VTuple vs) ->
  key_bytes vs <> [] /\ Forall2 field_ok shs vs.
Proof.
  intros H Hne. destruct H as [|sh v shs vs Hv Hvs]; [done|]. clear Hne.
  unfold from_slice. rewrite de_tuple_eq. unfold sequence_start_de. cbn [seq negb].
  rewrite debug_assert_true. cbn [mbind result_bind deserialize_elements buf pos].
  destruct (Nat.leb_spec (length (key_bytes (v :: vs))) 0) as [_|Hlen]; [done|].
  unfold record_start_de. cbn [started pos rec buf negb orb Nat.eqb].
  rewrite debug_assert_true. cbn [mbind result_bind].
  rewrite inc_pos_at by (cbn; lia). cbn [mbind result_bind].
  change (inc_rec _ 1) with (mkDe ([] ++ field_bytes v ++ tail_bytes vs)
    (length (@nil byte)) 1 true).
  intros Hd. bind_inv. destruct v0 as [d vt]. bind_inv. destruct v1 as [d1 vs1]. bind_inv.
  match goal with H : deserialize_value _ _ _ _ _ = Ok ?p |- _ =>
    destruct p as [d2 v2]; rename H into Hf end.
  bind_inv. match goal with H : deserialize_elements _ _ _ _ _ = Ok ?p |- _ =>
    destruct p as [d3 vs3]; rename H into Ht end. simplify_eq.
  split; [intros E; rewrite E in Hlen; cbn in Hlen; lia|].
  assert (Hok : field_ok sh v) by (eapply deserialize_field_inv; eauto using ends_tail).
  constructor; [done|]. rewrite deserialize_field in Hf by auto using ends_tail.
  injection Hf as <-. by eapply (deserialize_tail_inv jd cd debug shs vs (field_bytes v)).
Qed.

(** ** Properties *)

(** C40: which keys read back. A tuple of 64-bit integers, text and optional ones
    is written as its records joined by the separator, and those bytes read back
    under the same shape as the same tuple, in release and in debug builds, exactly
    when they are not empty and no optional record looks absent: an optional text
    that is empty, an optional integer whose first byte is [0xFF] (from
    [255 * 2^56] on, or negative down to [- 2^56]), an absent record made optional
    again. *)
Theorem key_roundtrip {payload} je ce jd cd debug shs (vs : list (value payload)) :
  Forall2 typed shs vs -> vs <> [] ->
  serialize_to_vec je ce debug (VTuple vs) = Ok (key_bytes vs) /\
  (from_slice jd cd debug (STuple shs) (key_bytes vs) = Ok (VTuple vs) <->
   key_bytes vs <> [] /\ Forall kept vs).
Proof.
  intros H Hne. split.
  { apply serialize_key; [done|]. eapply Forall2_Forall_r; [exact H|].
    apply Forall_forall. eauto using typed_flat. }
  split.
  - intros Hs. assert (Hok : key_bytes vs <> [] /\ Forall2 field_ok shs vs)
      by (by eapply from_slice_key_inv).
    destruct Hok as [? Hok]. split; [done|]. eapply Forall2_Forall_r; [exact Hok|].
    apply Forall_forall. intros sh _ v [_ Hv]%field_ok_iff. done.
  - intros [Hb Hk]. apply from_slice_key; [|done]. clear Hb Hne.
    induction H; [done|]. apply Forall_cons in Hk as [? ?].
    constructor; [by apply field_ok_iff|auto].
Qed.

(** Read back, with an absent record in the middle. *)
Lemma key_roundtrip_witness :
  from_slice (payload := unit) (fun _ => None) (fun _ => None) true
    (STuple [SStr; SOption SU64; SU64])
    [Byte.x61; Byte.xff; Byte.xff; Byte.x00; Byte.x00; Byte.x00; Byte.x00;
     Byte.x00; Byte.x00; Byte.x01; Byte.xff] =
  Ok (VTuple [VStr [Byte.x61]; VNone; VU64 511]).
Proof.
  refine (proj2 (proj2 (key_roundtrip (fun _ => None) (fun _ => None) (fun _ => None)
    (fun _ => None) true [SStr; SOption SU64; SU64]
    [VStr [Byte.x61]; VNone; VU64 511] _ _)) _).
  - repeat constructor; cbn; int_solve.
  - discriminate.
  - split; [vm_compute; discriminate|repeat constructor].
Defined.

(** Scanning with the prefix of a tuple ending in [Interfix] finds exactly
    the keys whose leading text records are those of the prefix, whatever
    follows them; the prefix of one room or user never reaches the rows of
    another. *)
Theorem prefix_scan_exact {payload} je ce debug ps qs (vs : list (value payload)) :
  ps <> [] -> vs <> [] -> length ps = length qs ->
  Forall (fun p => Utf8.valid p = true) ps ->
  Forall (fun q => Utf8.valid q = true) qs -> Forall flat vs ->
  exists prefix key,
    serialize_to_vec je ce debug (VTuple ((VStr <$> ps) ++ [VInterfix])) = Ok prefix /\
    serialize_to_vec je ce debug (VTuple ((VStr <$> qs) ++ vs)) = Ok key /\
    (prefix `prefix_of` key <-> ps = qs).
Proof.
  intros Hps Hvs Hl Hp Hq Hf.
  assert (Hno : forall l, Forall (fun p => Utf8.valid p = true) l ->
    Forall (fun p => SEP ∉ p) l).
  { intros l Hl'. eapply Forall_impl; [exact Hl'|]. apply Utf8.valid_no_ff. }
  assert (Hstr : forall l, Forall flat (VStr (payload := payload) <$> l)).
  { intros l. apply Forall_fmap, Forall_true. done. }
  exists (frame ps), (frame qs ++ key_bytes vs). split_and!.
  - rewrite serialize_prefix; [by rewrite key_bytes_frame_sep| |done].
    by intros ->%fmap_nil_inv.
  - rewrite serialize_key; [by rewrite key_bytes_frame| |].
    + intros [_ ?]%app_nil. done.
    + by apply Forall_app.
  - apply frame_prefix; auto.
Qed.

Lemma prefix_scan_exact_witness :
  exists prefix key,
    serialize_to_vec (payload := unit) (fun _ => None) (fun _ => None) true
      (VTuple [VStr [Byte.x61]; VInterfix]) = Ok prefix /\
    serialize_to_vec (payload := unit) (fun _ => None) (fun _ => None) true
      (VTuple [VStr [Byte.x62]; VU64 7]) = Ok key /\
    (prefix `prefix_of` key <-> [[Byte.x61]] = [[Byte.x62]]).
Proof.
  apply (prefix_scan_exact (fun _ => None) (fun _ => None) true
    [[Byte.x61]] [[Byte.x62]] [VU64 7]); try done; repeat constructor.
Defined.

(** A sequence is written without separators but read as if it had them: a list
    of two integers does not come back. *)
Example seq_not_roundtrip :
  let b := [Byte.x00; Byte.x00; Byte.x00; Byte.x00; Byte.x00; Byte.x00; Byte.x00; Byte.x01;
            Byte.x00; Byte.x00; Byte.x00; Byte.x00; Byte.x00; Byte.x00; Byte.x00; Byte.x02] in
  serialize_to_vec (payload := unit) (fun _ => None) (fun _ => None) false
    (VSeq [VU64 1; VU64 2]) = Ok b /\
  from_slice (payload := unit) (fun _ => None) (fun _ => None) false (SSeq SU64) b =
    Err Underflow /\
  from_slice (payload := unit) (fun _ => None) (fun _ => None) true (SSeq SU64) b =
    Err Panic.
Proof. by vm_compute. Qed.

(** An optional negative number starts with the separator byte and reads back
    as absent. *)
Example option_negative_lost :
  exists b,
  serialize_to_vec (payload := unit) (fun _ => None) (fun _ => None) false
    (VTuple [VSome (VI64 (-1))]) = Ok b /\
  from_slice (payload := unit) (fun _ => None) (fun _ => None) false
    (STuple [SOption SI64]) b = Ok (VTuple [VNone]).
Proof. eexists. split; [by vm_compute|by vm_compute]. Qed.

End Codec.
