(* ===== verification/Short.v ===== *)
(** The persistent counter, [phantom-service/src/ops/server_state/counter.rs], and
    the short ids drawn from it, [phantom-service/src/rooms/short.rs]: numbers that
    stand for event ids, state keys, rooms and state hashes in the other tables.
    Columns are maps at the type of their keys and values; the byte form of those
    is the subject of [Codec]. The columns' writes, whose errors the code drops, are taken
    to succeed; the counter's may fail. *)
From S2P Require Import Prelude PduId.

Module ServerCounter.

(** [Stored]: the stored number does not decode. [Panic]: an [expect] failed.
    [Write]: the database refused a write. *)
Inductive error := Stored | Panic | Write.

(** The number in memory and the value of the column [global] at key [c]. *)
Record Counter := mkCounter {
  count : Z;
  global : option (list byte)
}.

Definition stored_count (g : option (list byte)) : result error Z :=
  match g with
  | Some b => ok_or (Bytes.u64_from_bytes b) Stored
  | None => Ok 0
  end.

Definition new (g : option (list byte)) : result error Counter :=
  match stored_count g with Ok n => Ok (mkCounter n g) | Err _ => Err Panic end.

(** [writes]: whether the database takes the write. The counter has moved on
    when it does not. *)
Definition next (writes : bool) (c : Counter) : Counter * result error Z :=
  match u64_checked_add (count c) 1 with
  | None => (c, Err Panic)
  | Some n =>
      if writes then (mkCounter n (Some (be_bytes 8 n)), Ok n)
      else (mkCounter n (global c), Err Write)
  end.

Definition current (c : Counter) : Z := count c.

(** A history of the counter: numbers asked for, and restarts of the server, which
    build it anew from what is stored. *)
Inductive event := Next (writes : bool) | Restart.

Definition handle (c : Counter) (e : event) : option (Counter * list Z) :=
  match e with
  | Next w =>
      match next w c with
      | (c, Ok n) => Some (c, [n])
      | (c, Err _) => Some (c, [])
      end
  | Restart => c ← ok (new (global c)); Some (c, [])
  end.

Fixpoint history (c : Counter) (es : list event) : option (Counter * list Z) :=
  match es with
  | [] => Some (c, [])
  | e :: es =>
      '(c, ns) ← handle c e;
      '(c, ms) ← history c es;
      Some (c, ns ++ ms)
  end.

(** What is stored is a number, not above the one in memory. *)
Definition wf (c : Counter) : Prop :=
  is_u64 (count c) /\ exists n, stored_count (global c) = Ok n /\ 0 <= n <= count c.

Definition stored (c : Counter) : Z := default 0 (ok (stored_count (global c))).

Lemma stored_be n : is_u64 n -> stored_count (Some (be_bytes 8 n)) = Ok n.
Proof. intros Hn. unfold stored_count. by rewrite Bytes.u64_from_be_bytes. Qed.

Lemma stored_range g n : stored_count g = Ok n -> is_u64 n.
Proof.
  destruct g as [b|]; cbn [stored_count]; [|intros [= <-]; int_solve].
  intros E%ok_or_ok. unfold Bytes.u64_from_bytes, Bytes.u8x8_from_bytes in E.
  case_decide as El; [|done]. cbn in E. injection E as <-. unfold Bytes.u64_from_u8x8.
  pose proof (from_be_range b) as Hr. rewrite El in Hr. int_solve.
Qed.

Lemma stored_eq m g n : stored_count g = Ok n -> stored (mkCounter m g) = n.
Proof. intros E. unfold stored. cbn [global]. by rewrite E. Qed.

Lemma wf_intro m g n : stored_count g = Ok n -> 0 <= n <= m -> m <= u64_max -> wf (mkCounter m g).
Proof. intros E Hn Hm. split; cbn [count]; [int_solve|]. by exists n. Qed.

(** One event: nothing at or below the stored number comes out, everything that
    comes out is stored, and the stored number does not fall. *)
Lemma handle_spec c e :
  wf c -> exists c' ns, handle c e = Some (c', ns) /\ wf c' /\ stored c <= stored c' /\
    StronglySorted Z.lt ns /\ Forall (fun n => stored c < n <= stored c') ns.
Proof.
  destruct c as [m g]. intros [Hc (n & Hn & Hle)]. cbn [count global] in *.
  rewrite (stored_eq m g n Hn). unfold is_u64 in Hc. destruct e as [w|]; cbn [handle].
  - unfold next. cbn [count global]. destruct (u64_checked_add m 1) as [k|] eqn:E.
    + apply in_range_Some in E as [-> Hm]. destruct w.
      * assert (Hs : stored_count (Some (be_bytes 8 (m + 1))) = Ok (m + 1))
          by (apply stored_be; int_solve).
        eexists _, _. split; [done|]. rewrite (stored_eq _ _ _ Hs).
        split_and!; [eapply wf_intro; eauto; lia|lia|repeat constructor|].
        apply Forall_singleton. lia.
      * eexists _, _. split; [done|]. rewrite (stored_eq _ _ _ Hn).
        split_and!; [eapply wf_intro; eauto; lia|lia|constructor..].
    + eexists _, _. split; [done|]. rewrite (stored_eq _ _ _ Hn).
      split_and!; [eapply wf_intro; eauto; lia|lia|constructor..].
  - unfold new. cbn [global]. rewrite Hn. eexists _, _. split; [done|].
    rewrite (stored_eq _ _ _ Hn). split_and!; [eapply wf_intro; eauto; lia|lia|constructor..].
Qed.

Lemma history_spec es c :
  wf c -> exists c' ns, history c es = Some (c', ns) /\ wf c' /\ stored c <= stored c' /\
    StronglySorted Z.lt ns /\ Forall (fun n => stored c < n <= stored c') ns.
Proof.
  revert c. induction es as [|e es IH]; intros c Hc; cbn [history].
  { eexists _, _. split; [done|]. split_and!; [done|lia|constructor..]. }
  destruct (handle_spec c e Hc) as (c1 & ns & -> & H1 & Hle1 & Hs1 & Hf1). cbn [mbind option_bind].
  destruct (IH c1 H1) as (c2 & ms & -> & H2 & Hle2 & Hs2 & Hf2). cbn [mbind option_bind].
  eexists _, _. split; [done|]. split_and!; [done|lia| |].
  - apply StronglySorted_app_2; try done. intros x y Hx Hy.
    rewrite Forall_forall in Hf1, Hf2. specialize (Hf1 x Hx). specialize (Hf2 y Hy). lia.
  - apply Forall_app. split; eapply Forall_impl; eauto; cbn; intros; lia.
Qed.

(** The persistent counter never hands out a number twice and never goes back:
    over any history of requests, failed database writes and restarts, the numbers
    it returns strictly increase, and none is at or below what was stored at the
    start. *)
Theorem counter_increasing (g : option (list byte)) (c : Counter) (es : list event) :
  new g = Ok c ->
  exists c' ns, history c es = Some (c', ns) /\ StronglySorted Z.lt ns /\
    Forall (fun n => count c < n <= u64_max) ns.
Proof.
  unfold new. destruct (stored_count g) as [n|] eqn:E; [|done]. intros [= <-].
  pose proof (stored_range _ _ E) as Hn.
  destruct (history_spec es (mkCounter n g)) as ([k g'] & ns & Hh & [Hc' (m & Hm & Hle)] & _ & Hs & Hf).
  { eapply wf_intro; [done|int_solve..]. }
  eexists _, ns. split; [done|]. split; [done|]. cbn [count global] in *.
  rewrite (stored_eq _ _ _ E), (stored_eq _ _ _ Hm) in Hf. eapply Forall_impl; [done|].
  cbn. int_solve.
Qed.

Lemma counter_increasing_witness :
  exists c' ns, history (mkCounter 4 (Some (be_bytes 8 4)))
      [Next true; Next false; Restart; Next true] = Some (c', ns) /\
    StronglySorted Z.lt ns /\ Forall (fun n => 4 < n <= u64_max) ns.
Proof. by apply (counter_increasing (Some (be_bytes 8 4))). Defined.

End ServerCounter.

Module Short.
Import ServerCounter.

Abbreviation StateKey := (string * string)%type (only parsing).

(** The columns of [short.rs] and the counter the numbers come from. *)
Record Service := mkService {
  counter : Counter;
  eventid_shorteventid : gmap string Z;
  shorteventid_eventid : gmap Z string;
  statekey_shortstatekey : gmap StateKey Z;
  shortstatekey_statekey : gmap Z StateKey;
  roomid_shortroomid : gmap string Z;
  statehash_shortstatehash : gmap (list byte) Z
}.

(** [self.services.server_state.next_count().expect(..)] *)
Definition next_count (s : Service) : result error (Service * Z) :=
  match next true (counter s) with
  | (c, Ok n) =>
      Ok (mkService c (eventid_shorteventid s) (shorteventid_eventid s)
            (statekey_shortstatekey s) (shortstatekey_statekey s) (roomid_shortroomid s)
            (statehash_shortstatehash s), n)
  | (_, Err _) => Err Panic
  end.

(** The writes of the columns. *)
Definition put_shorteventid (s : Service) (e : string) (n : Z) : Service :=
  mkService (counter s) (<[e := n]> (eventid_shorteventid s)) (shorteventid_eventid s)
    (statekey_shortstatekey s) (shortstatekey_statekey s) (roomid_shortroomid s)
    (statehash_shortstatehash s).
Definition put_eventid (s : Service) (n : Z) (e : string) : Service :=
  mkService (counter s) (eventid_shorteventid s) (<[n := e]> (shorteventid_eventid s))
    (statekey_shortstatekey s) (shortstatekey_statekey s) (roomid_shortroomid s)
    (statehash_shortstatehash s).
Definition put_shortstatekey (s : Service) (k : StateKey) (n : Z) : Service :=
  mkService (counter s) (eventid_shorteventid s) (shorteventid_eventid s)
    (<[k := n]> (statekey_shortstatekey s)) (shortstatekey_statekey s) (roomid_shortroomid s)
    (statehash_shortstatehash s).
Definition put_statekey (s : Service) (n : Z) (k : StateKey) : Service :=
  mkService (counter s) (eventid_shorteventid s) (shorteventid_eventid s)
    (statekey_shortstatekey s) (<[n := k]> (shortstatekey_statekey s)) (roomid_shortroomid s)
    (statehash_shortstatehash s).
Definition set_roomids (s : Service) (m : gmap string Z) : Service :=
  mkService (counter s) (eventid_shorteventid s) (shorteventid_eventid s)
    (statekey_shortstatekey s) (shortstatekey_statekey s) m (statehash_shortstatehash s).
Definition put_shortstatehash (s : Service) (h : list byte) (n : Z) : Service :=
  mkService (counter s) (eventid_shorteventid s) (shorteventid_eventid s)
    (statekey_shortstatekey s) (shortstatekey_statekey s) (roomid_shortroomid s)
    (<[h := n]> (statehash_shortstatehash s)).

Definition get_shorteventid (s : Service) (e : string) : option Z := eventid_shorteventid s !! e.
Definition get_eventid_from_short (s : Service) (n : Z) : option string :=
  shorteventid_eventid s !! n.
Definition get_shortstatekey (s : Service) (ty key : string) : option Z :=
  statekey_shortstatekey s !! (ty, key).
Definition get_statekey_from_short (s : Service) (n : Z) : option StateKey :=
  shortstatekey_statekey s !! n.
Definition get_shortroomid (s : Service) (r : string) : option Z := roomid_shortroomid s !! r.

Definition create_shorteventid (s : Service) (e : string) : result error (Service * Z) :=
  '(s, short) ← next_count s;
  let s := put_shorteventid s e short in
  let s := put_eventid s short e in
  Ok (s, short).

Definition get_or_create_shorteventid (s : Service) (e : string) : result error (Service * Z) :=
  match get_shorteventid s e with
  | Some short => Ok (s, short)
  | None => create_shorteventid s e
  end.

(** The stream of [multi_get_or_create_shorteventid]; [results] is what [get_batch]
    answered, which it may have looked up ahead of the ids made here. *)
Fixpoint multi_get_or_create_shorteventid (s : Service) (results : list (option Z))
    (event_ids : list string) : result error (Service * list Z) :=
  match results, event_ids with
  | r :: results, e :: event_ids =>
      '(s, short) ← match r with Some short => Ok (s, short) | None => create_shorteventid s e end;
      '(s, shorts) ← multi_get_or_create_shorteventid s results event_ids;
      Ok (s, short :: shorts)
  | _, _ => Ok (s, [])
  end.

Definition get_or_create_shortstatekey (s : Service) (ty key : string) :
    result error (Service * Z) :=
  match get_shortstatekey s ty key with
  | Some short => Ok (s, short)
  | None =>
      '(s, short) ← next_count s;
      let s := put_shortstatekey s (ty, key) short in
      let s := put_statekey s short (ty, key) in
      Ok (s, short)
  end.

Definition get_or_create_shortstatehash (s : Service) (state_hash : list byte) :
    result error (Service * (Z * bool)) :=
  match statehash_shortstatehash s !! state_hash with
  | Some short => Ok (s, (short, true))
  | None =>
      '(s, short) ← next_count s;
      Ok (put_shortstatehash s state_hash short, (short, false))
  end.

Definition get_or_create_shortroomid (s : Service) (room_id : string) :
    result error (Service * Z) :=
  match get_shortroomid s room_id with
  | Some short => Ok (s, short)
  | None =>
      '(s, short) ← next_count s;
      Ok (set_roomids s (<[room_id := short]> (roomid_shortroomid s)), short)
  end.

Definition delete_shortroomid (s : Service) (room_id : string) : Service :=
  set_roomids s (delete room_id (roomid_shortroomid s)).

(** ** Interleaved callers *)

(** What a number can stand for. *)
Inductive target :=
  | TEvent (e : string)
  | TKey (k : StateKey)
  | TRoom (r : string)
  | THash (h : list byte).

#[export] Instance target_eq_dec : EqDecision target.
Proof. solve_decision. Defined.

Definition find (s : Service) (x : target) : option Z :=
  match x with
  | TEvent e => eventid_shorteventid s !! e
  | TKey k => statekey_shortstatekey s !! k
  | TRoom r => roomid_shortroomid s !! r
  | THash h => statehash_shortstatehash s !! h
  end.

Definition find_rev (s : Service) (n : Z) (x : target) : Prop :=
  match x with
  | TEvent e => shorteventid_eventid s !! n = Some e
  | TKey k => shortstatekey_statekey s !! n = Some k
  | _ => False
  end.

Definition put (s : Service) (x : target) (n : Z) : Service :=
  match x with
  | TEvent e => put_shorteventid s e n
  | TKey k => put_shortstatekey s k n
  | TRoom r => set_roomids s (<[r := n]> (roomid_shortroomid s))
  | THash h => put_shortstatehash s h n
  end.

Definition put_rev (s : Service) (n : Z) (x : target) : Service :=
  match x with
  | TEvent e => put_eventid s n e
  | TKey k => put_statekey s n k
  | _ => s
  end.

(** Events and state keys have a second column, from the number back. *)
Definition two_way (x : target) : bool :=
  match x with TEvent _ | TKey _ => true | _ => false end.

(** Where a caller of one of the [get_or_create] operations is. *)
Inductive phase :=
  | Absent (x : target)          (* found nothing, before [next_count] *)
  | Drawn (x : target) (n : Z)   (* before the first write *)
  | Half (x : target) (n : Z)    (* between the two writes *)
  | Done (x : target) (n : Z).   (* returns [n] *)

Record Sys := mkSys {
  svc : Service;
  tasks : gmap nat phase
}.

Inductive op := Get (x : target) | Go | DeleteRoom (r : string).

(** One atomic step of caller [t]. *)
Definition exec (y : Sys) (t : nat) (o : op) : option Sys :=
  let s := svc y in
  let at_ p := mkSys s (<[t := p]> (tasks y)) in
  match o, tasks y !! t with
  | Get x, None => Some (at_ (match find s x with Some n => Done x n | None => Absent x end))
  | Go, Some (Absent x) =>
      Some (match next_count s with
            | Ok (s', n) => mkSys s' (<[t := Drawn x n]> (tasks y))
            | Err _ => mkSys s (delete t (tasks y))
            end)
  | Go, Some (Drawn x n) =>
      Some (mkSys (put s x n) (<[t := if two_way x then Half x n else Done x n]> (tasks y)))
  | Go, Some (Half x n) => Some (mkSys (put_rev s n x) (<[t := Done x n]> (tasks y)))
  | Go, Some (Done _ _) => Some (mkSys s (delete t (tasks y)))
  | DeleteRoom r, None => Some (mkSys (delete_shortroomid s r) (tasks y))
  | _, _ => None
  end.

Inductive reachable (s0 : Service) : Sys -> Prop :=
  | reach_start : reachable s0 (mkSys s0 ∅)
  | reach_step y t o y' : reachable s0 y -> exec y t o = Some y' -> reachable s0 y'.

Definition claims (p : phase) (n : Z) (x : target) : Prop :=
  p = Drawn x n \/ p = Half x n \/ p = Done x n.

(** [n] is in use for [x]: in a column, or on its way to one or to a caller. *)
Definition in_use (y : Sys) (n : Z) (x : target) : Prop :=
  find (svc y) x = Some n \/ find_rev (svc y) n x \/
  exists t p, tasks y !! t = Some p /\ claims p n x.

Record good (y : Sys) : Prop := {
  good_counter : ServerCounter.wf (counter (svc y));
  good_bound n x : in_use y n x -> 0 < n <= count (counter (svc y));
  good_unique n x x' : in_use y n x -> in_use y n x' -> x = x';
  good_resolves n x : two_way x = true -> find (svc y) x = Some n ->
    find_rev (svc y) n x \/ exists t, tasks y !! t = Some (Half x n)
}.

(** Steps that bring nothing new into use keep numbers unique. *)
Lemma good_shrink y y' :
  good y -> counter (svc y') = counter (svc y) ->
  (forall n x, in_use y' n x -> in_use y n x) ->
  (forall n x, two_way x = true -> find (svc y') x = Some n ->
    find_rev (svc y') n x \/ exists t, tasks y' !! t = Some (Half x n)) ->
  good y'.
Proof.
  intros [Hc Hb Hu Hr] Hcount Hin Hres. split; [by rewrite Hcount| |eauto|done].
  intros n x Hx. rewrite Hcount. eauto.
Qed.

Lemma find_put s x n x' :
  find (put s x n) x' = if decide (x' = x) then Some n else find s x'.
Proof.
  destruct x, x'; cbn; try done; case_decide; simplify_eq; try (by rewrite lookup_insert_eq);
    rewrite lookup_insert_ne; congruence.
Qed.

Lemma find_rev_put s x n n' x' : find_rev (put s x n) n' x' <-> find_rev s n' x'.
Proof. by destruct x, x'. Qed.

Lemma find_put_rev s x n x' : find (put_rev s n x) x' = find s x'.
Proof. by destruct x, x'. Qed.

Lemma counter_put s x n : counter (put s x n) = counter s.
Proof. by destruct x. Qed.
Lemma counter_put_rev s x n : counter (put_rev s n x) = counter s.
Proof. by destruct x. Qed.

Lemma find_rev_put_rev s x n n' x' :
  find_rev (put_rev s n x) n' x' -> (n' = n /\ x' = x) \/ find_rev s n' x'.
Proof.
  destruct x, x'; cbn; try by right.
  all: intros [[-> ->]|[_ ?]]%lookup_insert_Some; [by left|by right].
Qed.

Lemma find_rev_put_rev_eq s x n : two_way x = true -> find_rev (put_rev s n x) n x.
Proof. destruct x; cbn; try done; by rewrite lookup_insert_eq. Qed.

Lemma find_rev_put_rev_ne s x n n' x' :
  n' <> n -> find_rev s n' x' -> find_rev (put_rev s n x) n' x'.
Proof. intros Hn. destruct x, x'; cbn; try done; by rewrite lookup_insert_ne. Qed.

Lemma next_count_spec s s' n :
  ServerCounter.wf (counter s) -> next_count s = Ok (s', n) ->
  ServerCounter.wf (counter s') /\ n = count (counter s) + 1 /\ n = count (counter s') /\
  (forall x, find s' x = find s x) /\ (forall m x, find_rev s' m x <-> find_rev s m x).
Proof.
  intros Hwf. unfold next_count. destruct (next true (counter s)) as [c [m|]] eqn:E; [|done].
  intros [= <- <-]. destruct (ServerCounter.handle_spec (counter s) (Next true) Hwf)
    as (c' & ns & Hh & Hc' & _). cbn in Hh. rewrite E in Hh. simplify_eq.
  unfold next in E. destruct (u64_checked_add _ 1) as [k|] eqn:Ek; [|done].
  apply in_range_Some in Ek as [-> _]. simplify_eq.
  split_and!; try done; intros; by destruct x.
Qed.

(** The claims of the other callers when [t] moves to [p]. *)
Lemma claims_insert (ts : gmap nat phase) t p n x :
  (exists t' p', <[t := p]> ts !! t' = Some p' /\ claims p' n x) ->
  claims p n x \/ exists t' p', ts !! t' = Some p' /\ claims p' n x.
Proof. intros (t' & p' & [[<- <-]|[_ ?]]%lookup_insert_Some & ?); eauto. Qed.

Lemma half_insert (ts : gmap nat phase) t p n x :
  ts !! t <> Some (Half x n) -> (exists t', ts !! t' = Some (Half x n)) ->
  exists t', <[t := p]> ts !! t' = Some (Half x n).
Proof. intros Hne (t' & Ht'). exists t'. rewrite lookup_insert_ne by congruence. done. Qed.

Lemma good_get y t x :
  good y -> tasks y !! t = None ->
  good (mkSys (svc y) (<[t := match find (svc y) x with Some n => Done x n | None => Absent x end]>
    (tasks y))).
Proof.
  intros Hg Ht. apply (good_shrink y); [done|done| |].
  - intros n x'. unfold in_use. cbn [svc tasks]. intros [?|[?|[Hc|?]%claims_insert]]; auto.
    destruct (find (svc y) x) eqn:E; destruct Hc as [?|[?|?]]; simplify_eq. by left.
  - intros n x' Hx Hf. destruct (good_resolves y Hg n x' Hx Hf); [by left|right].
    apply half_insert; [congruence|done].
Qed.

Lemma good_draw y t x s' n :
  good y -> tasks y !! t = Some (Absent x) -> next_count (svc y) = Ok (s', n) ->
  good (mkSys s' (<[t := Drawn x n]> (tasks y))).
Proof.
  intros Hg Ht Hn. pose proof Hg as [Hc Hb Hu Hr].
  destruct (next_count_spec _ _ _ Hc Hn) as (Hc' & E & E' & Hf & Hrev).
  assert (Hin : forall m x', in_use (mkSys s' (<[t := Drawn x n]> (tasks y))) m x' ->
    (m = n /\ x' = x) \/ in_use y m x').
  { intros m x'. unfold in_use. cbn [svc tasks]. rewrite Hf, Hrev.
    intros [?|[?|[Hcl|?]%claims_insert]]; auto.
    destruct Hcl as [?|[?|?]]; simplify_eq. by left. }
  assert (Hpos : 0 <= count (counter (svc y))) by (destruct Hc as [? _]; int_solve).
  split; cbn [svc tasks]; [done|..].
  - intros m x' [[-> ->]|Hm%Hb]%Hin; lia.
  - intros m x1 x2 [[-> ->]|H1]%Hin [[E1 ->]|H2]%Hin; [done| | |by eapply Hu].
    + apply Hb in H2. lia.
    + apply Hb in H1. lia.
  - intros m x' Hx. rewrite Hf, Hrev. intros Hm. destruct (Hr m x' Hx Hm); [by left|right].
    apply half_insert; [congruence|done].
Qed.

Lemma good_put y t x n :
  good y -> tasks y !! t = Some (Drawn x n) ->
  good (mkSys (put (svc y) x n) (<[t := if two_way x then Half x n else Done x n]> (tasks y))).
Proof.
  intros Hg Ht. apply (good_shrink y); [done|apply counter_put| |].
  - intros m x'. unfold in_use. cbn [svc tasks]. rewrite find_put, find_rev_put.
    intros [Hf|[?|[Hc|?]%claims_insert]]; auto.
    + case_decide as E; [|by left]. right. right. exists t, (Drawn x n).
      split; [done|]. left. by simplify_eq.
    + right. right. exists t, (Drawn x n). split; [done|].
      destruct (two_way x), Hc as [?|[?|?]]; simplify_eq; by left.
  - intros m x' Hx. cbn [svc tasks]. rewrite find_put, find_rev_put.
    case_decide as E; [subst x'; intros [= <-]|intros Hf].
    + right. exists t. by rewrite lookup_insert_eq, Hx.
    + destruct (good_resolves y Hg m x' Hx Hf); [by left|right].
      apply half_insert; [congruence|done].
Qed.

Lemma good_put_rev y t x n :
  good y -> tasks y !! t = Some (Half x n) ->
  good (mkSys (put_rev (svc y) n x) (<[t := Done x n]> (tasks y))).
Proof.
  intros Hg Ht.
  assert (Hn : in_use y n x) by (right; right; exists t, (Half x n); split; [done|by right; left]).
  apply (good_shrink y); [done|apply counter_put_rev| |].
  - intros m x'. unfold in_use at 1. cbn [svc tasks]. rewrite find_put_rev.
    intros [?|[[[-> ->]|?]%find_rev_put_rev|[Hc|?]%claims_insert]]; try done.
    + by left.
    + by right; left.
    + by destruct Hc as [?|[?|?]]; simplify_eq.
    + by right; right.
  - intros m x' Hx. cbn [svc tasks]. rewrite find_put_rev. intros Hf.
    destruct (decide (m = n)) as [->|Hne].
    { left. assert (x' = x) as -> by (apply (good_unique y Hg n); [by left|done]).
      by apply find_rev_put_rev_eq. }
    destruct (good_resolves y Hg m x' Hx Hf) as [Hr|Hh]; [left; by apply find_rev_put_rev_ne|].
    right. apply half_insert; [|done]. rewrite Ht. congruence.
Qed.

Lemma good_delete_task y t :
  good y -> (forall x n, tasks y !! t <> Some (Half x n)) ->
  good (mkSys (svc y) (delete t (tasks y))).
Proof.
  intros Hg Ht. apply (good_shrink y); [done|done| |].
  - intros n x. unfold in_use. cbn [svc tasks].
    intros [?|[?|(t' & p & [_ ?]%lookup_delete_Some & ?)]]; eauto 6.
  - intros n x Hx Hf. destruct (good_resolves y Hg n x Hx Hf) as [|[t' Ht']]; [by left|right].
    exists t'. cbn [tasks]. rewrite lookup_delete_ne; [done|]. intros ->. by destruct (Ht x n).
Qed.

Lemma good_delete_room y r : good y -> good (mkSys (delete_shortroomid (svc y) r) (tasks y)).
Proof.
  intros Hg.
  assert (Hf : forall x n, find (delete_shortroomid (svc y) r) x = Some n -> find (svc y) x = Some n).
  { intros [] n; cbn; try done. by intros [_ ?]%lookup_delete_Some. }
  apply (good_shrink y); [done|done| |].
  - intros n x. unfold in_use. cbn [svc tasks]. intros [?%Hf|[?|?]]; [by left| |by right; right].
    right. left. by destruct x.
  - intros n x Hx Hn%Hf. cbn [svc tasks].
    destruct (good_resolves y Hg n x Hx Hn); [left|by right]. by destruct x.
Qed.

Lemma good_step y t o y' : good y -> exec y t o = Some y' -> good y'.
Proof.
  intros Hg. unfold exec. destruct o as [x| |r], (tasks y !! t) as [[x'|x' n|x' n|x' n]|] eqn:Ht;
    try done; intros [= <-].
  - by apply good_get.
  - destruct (next_count (svc y)) as [[s' n]|] eqn:E; [by eapply good_draw|].
    apply good_delete_task; [done|]. congruence.
  - by apply good_put.
  - by apply good_put_rev.
  - apply good_delete_task; [done|]. congruence.
  - by apply good_delete_room.
Qed.

(** A service with no caller at work. *)
Definition wf (s : Service) : Prop := good (mkSys s ∅).

Lemma reachable_good s0 y : wf s0 -> reachable s0 y -> good y.
Proof. induction 2; eauto using good_step. Qed.

Definition empty_service (c : Counter) : Service := mkService c ∅ ∅ ∅ ∅ ∅ ∅.

Lemma wf_empty c : ServerCounter.wf c -> wf (empty_service c).
Proof.
  intros Hc. split; cbn [svc]; [done|..].
  - intros n x [Hx|[Hx|(t & p & Hx & _)]]; [..|done]; destruct x; cbn in *; try done;
      by rewrite lookup_empty in Hx.
  - intros n x x' [Hx|[Hx|(t & p & Hx & _)]]; [..|done]; destruct x; cbn in *; try done;
      by rewrite lookup_empty in Hx.
  - intros n x _ Hx. destruct x; cbn in *; by rewrite lookup_empty in Hx.
Qed.

(** ** One caller after the other *)

(** A whole call, as the steps of a lone caller. *)
Definition get_or_create (s : Service) (x : target) : result error (Service * Z) :=
  match find s x with
  | Some n => Ok (s, n)
  | None =>
      '(s, n) ← next_count s;
      Ok (put_rev (put s x n) n x, n)
  end.

Lemma get_or_create_event s e :
  get_or_create_shorteventid s e = get_or_create s (TEvent e).
Proof. done. Qed.

Lemma get_or_create_statekey s ty key :
  get_or_create_shortstatekey s ty key = get_or_create s (TKey (ty, key)).
Proof. done. Qed.

Lemma get_or_create_room s r : get_or_create_shortroomid s r = get_or_create s (TRoom r).
Proof. done. Qed.

Lemma get_or_create_hash s h :
  (fun '(s', (n, _)) => (s', n)) <$> get_or_create_shortstatehash s h = get_or_create s (THash h).
Proof.
  unfold get_or_create_shortstatehash, get_or_create. cbn [find].
  destruct (statehash_shortstatehash s !! h); [done|].
  by destruct (next_count s) as [[? ?]|].
Qed.

Lemma get_or_create_wf s x s' n : wf s -> get_or_create s x = Ok (s', n) -> wf s'.
Proof.
  intros Hs. unfold get_or_create. destruct (find s x) as [m|] eqn:Ef; [by intros [= <- <-]|].
  intros Hb. apply bind_ok in Hb as ([s1 m] & Hn & [= <- <-]).
  assert (H0 : good (mkSys s {[0%nat := Absent x]})).
  { pose proof (good_get _ 0 x Hs eq_refl) as H0. cbn in H0. by rewrite Ef in H0. }
  assert (H1 : good (mkSys s1 {[0%nat := Drawn x m]})).
  { pose proof (good_draw _ 0 x s1 m H0 eq_refl Hn) as H1. cbn in H1.
    by rewrite insert_singleton_eq in H1. }
  pose proof (good_put _ 0 x m H1 eq_refl) as H2. cbn [svc tasks] in H2.
  rewrite insert_singleton_eq in H2.
  assert (H3 : good (mkSys (put_rev (put s1 x m) m x) {[0%nat := Done x m]})).
  { destruct (two_way x) eqn:Ew.
    - pose proof (good_put_rev _ 0 x m H2 eq_refl) as H3. cbn [svc tasks] in H3.
      by rewrite insert_singleton_eq in H3.
    - by destruct x. }
  pose proof (good_delete_task _ 0 H3) as H4. cbn [svc tasks] in H4.
  rewrite delete_singleton_eq in H4. apply H4. intros x' k. by rewrite lookup_singleton_eq.
Qed.

Lemma find_rev_two_way s n x : find_rev s n x -> two_way x = true.
Proof. by destruct x. Qed.

Lemma wf_resolves s x n : wf s -> two_way x = true -> find s x = Some n -> find_rev s n x.
Proof.
  intros Hs Hx Hf. destruct (good_resolves _ Hs n x Hx Hf) as [|[t Ht]]; [done|].
  cbn in Ht. by rewrite lookup_empty in Ht.
Qed.

(** The columns after one more number. *)
Record extends (s s' : Service) : Prop := {
  ext_find x m : find s x = Some m -> find s' x = Some m;
  ext_count : count (counter s) <= count (counter s') <= count (counter s) + 1
}.

Lemma get_or_create_spec s x :
  wf s -> count (counter s) < u64_max ->
  exists s' n, get_or_create s x = Ok (s', n) /\ wf s' /\ extends s s' /\
    find s' x = Some n /\ (forall x', x' <> x -> find s' x' = find s x').
Proof.
  intros Hs Hc. destruct (get_or_create s x) as [[s' n]|] eqn:E.
  - exists s', n. split; [done|]. split; [by eapply get_or_create_wf|].
    unfold get_or_create in E. destruct (find s x) as [m|] eqn:Ef.
    { simplify_eq. split; [split; [done|lia]|done]. }
    apply bind_ok in E as ([s1 m] & Hn & [= <- <-]).
    destruct (next_count_spec s s1 m (good_counter _ Hs) Hn) as (_ & E1 & E2 & Hf & _).
    assert (Hx : forall x', find (put_rev (put s1 x m) m x) x'
      = if decide (x' = x) then Some m else find s x')
      by (intros x'; by rewrite find_put_rev, find_put, Hf).
    split; [split|split].
    + intros x' k Hk. rewrite Hx. case_decide; [congruence|done].
    + rewrite counter_put_rev, counter_put. lia.
    + rewrite Hx. by rewrite decide_True.
    + intros x' Hne. rewrite Hx. by rewrite decide_False.
  - exfalso. unfold get_or_create in E. destruct (find s x); [done|].
    unfold next_count, next in E. pose proof (good_counter _ Hs) as [Hb _]. cbn [svc] in Hb.
    destruct (u64_checked_add (count (counter s)) 1) eqn:Ea; [done|].
    apply in_range_None in Ea. int_solve.
Qed.

(** The stream over distinct ids answers as one call after the other would, whenever
    each answer of the batch was looked up before the ids made here: the ids of
    others do not matter to it. *)
Fixpoint one_by_one (s : Service) (event_ids : list string) : result error (Service * list Z) :=
  match event_ids with
  | [] => Ok (s, [])
  | e :: event_ids =>
      '(s, short) ← get_or_create_shorteventid s e;
      '(s, shorts) ← one_by_one s event_ids;
      Ok (s, short :: shorts)
  end.

Lemma create_shorteventid_find s e s' n e' :
  create_shorteventid s e = Ok (s', n) -> e' <> e ->
  get_shorteventid s' e' = get_shorteventid s e'.
Proof.
  unfold create_shorteventid, next_count. intros Hb Hne. bind_inv.
  destruct (next true (counter s)) as [c [m|]]; [|done]. simplify_eq.
  unfold get_shorteventid. cbn. by rewrite lookup_insert_ne.
Qed.

Lemma multi_one_by_one ids s :
  NoDup ids ->
  multi_get_or_create_shorteventid s (get_shorteventid s <$> ids) ids = one_by_one s ids.
Proof.
  intros Hnd.
  enough (forall s0, (forall e, e ∈ ids -> get_shorteventid s0 e = get_shorteventid s e) ->
    multi_get_or_create_shorteventid s (get_shorteventid s0 <$> ids) ids = one_by_one s ids)
    by auto.
  intros s0. revert s. induction Hnd as [|e ids He Hnd IH]; intros s Hs; [done|].
  cbn. rewrite Hs by left. unfold get_or_create_shorteventid.
  destruct (get_shorteventid s e) as [n|] eqn:E; cbn.
  - rewrite IH; [done|]. intros e' He'. apply Hs. by right.
  - destruct (create_shorteventid s e) as [[s' n]|] eqn:Ec; [|done]. cbn.
    rewrite IH; [done|]. intros e' He'. rewrite Hs by (by right). symmetry.
    eapply create_shorteventid_find; [done|]. congruence.
Qed.

(** ** Properties *)

(** C37: However the callers interleave, short ids stay unambiguous: a number in a
    column, under way to one or returned to a caller stands for one event id, one
    state key, one room or one state hash, never for two; and whenever no caller
    is between its two writes, every number stored for an event id or a state key
    leads back to it. *)
Theorem short_ids_unambiguous (s0 : Service) (y : Sys) :
  wf s0 -> reachable s0 y ->
  (forall n x x', in_use y n x -> in_use y n x' -> x = x') /\
  ((forall t x n, tasks y !! t <> Some (Half x n)) ->
   (forall e n, eventid_shorteventid (svc y) !! e = Some n ->
      shorteventid_eventid (svc y) !! n = Some e) /\
   (forall k n, statekey_shortstatekey (svc y) !! k = Some n ->
      shortstatekey_statekey (svc y) !! n = Some k)).
Proof.
  intros Hs Hy. pose proof (reachable_good _ _ Hs Hy) as [_ _ Hu Hr]. split; [done|].
  intros Hno. split.
  - intros e n Hn. destruct (Hr n (TEvent e) eq_refl Hn) as [|[t Ht]]; [done|].
    by apply Hno in Ht.
  - intros k n Hn. destruct (Hr n (TKey k) eq_refl Hn) as [|[t Ht]]; [done|].
    by apply Hno in Ht.
Qed.

(** One call at a time, [get_or_create_shorteventid] interns: it succeeds while
    the counter has numbers left, the id resolves to the number and back, every
    id known before keeps its number, and asking again changes nothing. *)
Theorem shorteventid_interned (s : Service) (e : string) :
  wf s -> count (counter s) < u64_max ->
  exists s' n, get_or_create_shorteventid s e = Ok (s', n) /\ wf s' /\
    get_shorteventid s' e = Some n /\ get_eventid_from_short s' n = Some e /\
    (forall e' m, get_shorteventid s e' = Some m ->
       get_shorteventid s' e' = Some m /\ get_eventid_from_short s' m = Some e') /\
    get_or_create_shorteventid s' e = Ok (s', n).
Proof.
  intros Hs Hc. rewrite get_or_create_event.
  destruct (get_or_create_spec s (TEvent e) Hs Hc) as (s' & n & -> & Hw & [He _] & Hf & _).
  exists s', n. split_and!; try done.
  - by apply (wf_resolves s' (TEvent e)).
  - intros e' m Hm. pose proof (He (TEvent e') m Hm) as Hm'. split; [done|].
    by apply (wf_resolves s' (TEvent e')).
  - unfold get_or_create_shorteventid. cbn in Hf. unfold get_shorteventid. by rewrite Hf.
Qed.

(** Two callers that both find an event id missing give it two numbers. *)
Example racing_callers :
  (fun y => (tasks y !! 0%nat, tasks y !! 1%nat)) <$>
    foldl (fun y to => y ← y; exec y to.1 to.2)
      (Some (mkSys (empty_service (mkCounter 0 None)) ∅))
      [(0, Get (TEvent "$a")); (1, Get (TEvent "$a")); (0, Go); (1, Go); (0, Go); (0, Go);
       (1, Go); (1, Go)]%nat
  = Some (Some (Done (TEvent "$a") 1), Some (Done (TEvent "$a") 2)).
Proof. reflexivity. Qed.

(** An id twice in one batch is given two numbers as well. *)
Example batch_duplicate :
  snd <$> multi_get_or_create_shorteventid (empty_service (mkCounter 0 None))
    [None; None] ["$a"; "$a"] = Ok [1; 2].
Proof. reflexivity. Qed.

(** ** Witnesses *)

Definition fresh : Service := empty_service (mkCounter 0 None).

Lemma fresh_wf : wf fresh.
Proof. apply wf_empty. eapply ServerCounter.wf_intro; [done|lia|int_solve]. Qed.

Lemma shorteventid_interned_witness :
  exists s' n, get_or_create_shorteventid fresh "$a" = Ok (s', n) /\ wf s' /\
    get_shorteventid s' "$a" = Some n /\ get_eventid_from_short s' n = Some "$a" /\
    (forall e' m, get_shorteventid fresh e' = Some m ->
       get_shorteventid s' e' = Some m /\ get_eventid_from_short s' m = Some e') /\
    get_or_create_shorteventid s' "$a" = Ok (s', n).
Proof. apply (shorteventid_interned fresh "$a"); [apply fresh_wf|done]. Defined.

Definition half_way : Sys :=
  mkSys (put_shorteventid (mkService (mkCounter 1 (Some (be_bytes 8 1))) ∅ ∅ ∅ ∅ ∅ ∅) "$a" 1)
    {[0%nat := Half (TEvent "$a") 1]}.

Lemma half_way_reachable : reachable fresh half_way.
Proof.
  apply (reach_step _ (mkSys (mkService (mkCounter 1 (Some (be_bytes 8 1))) ∅ ∅ ∅ ∅ ∅ ∅)
    {[0%nat := Drawn (TEvent "$a") 1]}) 0 Go); [|reflexivity].
  apply (reach_step _ (mkSys fresh {[0%nat := Absent (TEvent "$a")]}) 0 Go); [|reflexivity].
  apply (reach_step _ (mkSys fresh ∅) 0 (Get (TEvent "$a"))); [constructor|reflexivity].
Qed.

Lemma short_ids_unambiguous_witness :
  (forall n x x', in_use half_way n x -> in_use half_way n x' -> x = x') /\
  ((forall t x n, tasks half_way !! t <> Some (Half x n)) ->
   (forall e n, eventid_shorteventid (svc half_way) !! e = Some n ->
      shorteventid_eventid (svc half_way) !! n = Some e) /\
   (forall k n, statekey_shortstatekey (svc half_way) !! k = Some n ->
      shortstatekey_statekey (svc half_way) !! n = Some k)).
Proof.
  apply (short_ids_unambiguous fresh half_way); [apply fresh_wf|apply half_way_reachable].
Defined.

End Short.
