(* ===== verification/AuthChain.v ===== *)
(** Auth chains, [phantom-service/src/rooms/auth_chain/mod.rs] and [data.rs]: the
    breadth-first walk over [auth_events], and the chains kept per event and per
    bucket of events, in memory and in the database. Buckets and events, which the
    code works on concurrently, are taken one after the other; of a failed call
    only the error is described. *)
From S2P Require Import Prelude Order Event Store PduId Short.
Export Store.

Module AuthChain.

Inductive error := Forbidden | ShortId (e : ServerCounter.error) | Diverges.

(** The short ids, the column of chains per event and the LRU cache. *)
Record State := mkState {
  short : Short.Service;
  shorteventid_authchain : gmap Z (list byte);
  auth_chain_cache : gmap (list Z) (list Z)
}.

(** [chunks_exact(8)]: a shorter rest is left out. *)
Fixpoint chunks8 (l : list byte) : list (list byte) :=
  match l with
  | a :: b :: c :: d :: e :: f :: g :: h :: l => [a; b; c; d; e; f; g; h] :: chunks8 l
  | _ => []
  end.

Definition decode_chain (v : list byte) : list Z :=
  (fun c => default 0 (Bytes.u64_from_u8 c)) <$> chunks8 v.

Definition encode_chain (chain : list Z) : list byte := mjoin (be_bytes 8 <$> chain).

(** [sort_unstable] then [dedup]. *)
Fixpoint dedup (l : list Z) : list Z :=
  match l with
  | [] => []
  | x :: l' =>
      match dedup l' with
      | y :: r => if decide (x = y) then y :: r else x :: y :: r
      | [] => [x]
      end
  end.
Definition sort_dedup (l : list Z) : list Z := dedup (sort_by_key (fun n : Z => n) l).

Definition NUM_BUCKETS : nat := 50.

Section Chains.
(** [timeline.get_pdu], the iteration order of a [HashSet], what the LRU cache drops
    when a chain is inserted, and which rows the database takes: the code drops the
    error of a row it does not. *)
Context (store : gmap string Event).
Context (iter : gset Z -> list Z).
Context (evict : gmap (list Z) (list Z) -> gmap (list Z) (list Z)).
Context (written : Z -> bool).

Definition cache_insert (s : State) (key chain : list Z) : State :=
  mkState (short s) (shorteventid_authchain s) (evict (<[key := chain]> (auth_chain_cache s))).

Definition cached_auth_chain (s : State) (key : list Z) : State * option (list Z) :=
  match auth_chain_cache s !! key with
  | Some result => (s, Some result)
  | None =>
      match key with
      | [k] =>
          match shorteventid_authchain s !! k with
          | Some v => let chain := decode_chain v in (cache_insert s [k] chain, Some chain)
          | None => (s, None)
          end
      | _ => (s, None)
      end
  end.

Definition cache_auth_chain (s : State) (key auth_chain : list Z) : State :=
  let s :=
    match key with
    | [k] =>
        if written k
        then mkState (short s) (<[k := encode_chain auth_chain]> (shorteventid_authchain s))
               (auth_chain_cache s)
        else s
    | _ => s
    end in
  cache_insert s key auth_chain.

Definition clear_cache (s : State) : State :=
  mkState (short s) (shorteventid_authchain s) ∅.

Definition lift {A} (r : result ServerCounter.error A) : result error A :=
  match r with Ok a => Ok a | Err e => Err (ShortId e) end.

(** The loop over one event's auth events. *)
Fixpoint visit (sh : Short.Service) (auths : list string) (todo : list string) (found : gset Z) :
    result error (Short.Service * list string * gset Z) :=
  match auths with
  | [] => Ok (sh, todo, found)
  | a :: auths =>
      '(sh, n) ← lift (Short.get_or_create_shorteventid sh a);
      if decide (n ∈ found) then visit sh auths todo found
      else visit sh auths (todo ++ [a]) ({[n]} ∪ found)
  end.

Fixpoint walk (fuel : nat) (sh : Short.Service) (room : string) (todo : list string)
    (found : gset Z) : result error (Short.Service * gset Z) :=
  match todo with
  | [] => Ok (sh, found)
  | e :: todo =>
      match fuel with
      | O => Err Diverges
      | S fuel =>
          match store !! e with
          | None => walk fuel sh room todo found
          | Some pdu =>
              if negb (bool_decide (room_id pdu = room)) then Err Forbidden
              else
                '(sh, todo, found) ← visit sh (auth_events pdu) todo found;
                walk fuel sh room todo found
          end
      end
  end.

(** Every id some stored event names: each enters the queue at most once. *)
Definition all_auth : gset string :=
  list_to_set (mjoin ((fun p : string * Event => auth_events p.2) <$> map_to_list store)).

Definition auth_chain_for_event (sh : Short.Service) (room e : string) :
    result error (Short.Service * list Z) :=
  '(sh, found) ← walk (S (size all_auth)) sh room [e] ∅;
  Ok (sh, iter found).

Definition set_short (s : State) (sh : Short.Service) : State :=
  mkState sh (shorteventid_authchain s) (auth_chain_cache s).

(** The chains of the events of one bucket, from the cache or walked. *)
Fixpoint event_chains (s : State) (room : string) (bucket : list (Z * string)) :
    result error (State * list Z) :=
  match bucket with
  | [] => Ok (s, [])
  | (shortid, event_id_) :: bucket =>
      '(s, chain) ←
        match cached_auth_chain s [shortid] with
        | (s, Some cached) => Ok (s, cached)
        | (s, None) =>
            '(sh, auth_chain) ← auth_chain_for_event (short s) room event_id_;
            Ok (cache_auth_chain (set_short s sh) [shortid] auth_chain, auth_chain)
        end;
      '(s, chains) ← event_chains s room bucket;
      Ok (s, chain ++ chains)
  end.

Definition auth_chain_for_bucket (s : State) (room : string) (bucket : list (Z * string)) :
    result error (State * list Z) :=
  let bucket_key := fst <$> bucket in
  match bucket_key with
  | [] => Ok (s, [])
  | _ =>
      match cached_auth_chain s bucket_key with
      | (s, Some cached) => Ok (s, cached)
      | (s, None) =>
          '(s, chains) ← event_chains s room bucket;
          let bucket_cache := sort_dedup chains in
          Ok (cache_auth_chain s bucket_key bucket_cache, bucket_cache)
      end
  end.

(** The [BTreeSet] of index [i]. *)
Definition bucket_of (starting : list (Z * string)) (i : nat) : list (Z * string) :=
  sort_by_key (fun p : Z * string => p)
    (elements (list_to_set
      (filter (fun p : Z * string => p.1 mod Z.of_nat NUM_BUCKETS = Z.of_nat i) starting)
      : gset (Z * string))).

Fixpoint bucket_chains (s : State) (room : string) (buckets : list (list (Z * string))) :
    result error (State * list Z) :=
  match buckets with
  | [] => Ok (s, [])
  | bucket :: buckets =>
      '(s, chain) ← auth_chain_for_bucket s room bucket;
      '(s, chains) ← bucket_chains s room buckets;
      Ok (s, chain ++ chains)
  end.

Definition get_auth_chain (s : State) (room : string) (starting_events : list string) :
    result error (State * list Z) :=
  '(sh, starting_ids) ← lift (Short.multi_get_or_create_shorteventid (short s)
      (Short.get_shorteventid (short s) <$> starting_events) starting_events);
  let starting := zip starting_ids starting_events in
  let buckets := bucket_of starting <$> seq 0 NUM_BUCKETS in
  '(s, auth_chain) ← bucket_chains (set_short s sh) room buckets;
  Ok (s, sort_dedup auth_chain).

End Chains.

(** ** Lists of numbers *)

Lemma dedup_elem l n : n ∈ dedup l <-> n ∈ l.
Proof.
  induction l as [|x l IH]; [done|]. cbn.
  destruct (dedup l) as [|y r] eqn:E.
  - set_solver.
  - case_decide; subst; set_solver.
Qed.

Lemma dedup_sorted l : StronglySorted Z.le l -> StronglySorted Z.lt (dedup l).
Proof.
  induction 1 as [|x l Hs IH Hx]; cbn; [constructor|].
  assert (Hall : Forall (Z.le x) (dedup l)).
  { apply Forall_forall. intros y Hy. rewrite dedup_elem in Hy. by rewrite Forall_forall in Hx; apply Hx. }
  destruct (dedup l) as [|y r]; [repeat constructor|].
  case_decide; [done|]. constructor; [done|].
  apply Forall_cons in Hall as [Hxy _]. inversion IH; subst.
  constructor; [lia|]. eapply Forall_impl; [done|]. cbn. lia.
Qed.

Lemma sort_dedup_elem l n : n ∈ sort_dedup l <-> n ∈ l.
Proof. unfold sort_dedup. by rewrite dedup_elem, sort_by_key_perm. Qed.

Lemma sort_dedup_sorted l : StronglySorted Z.lt (sort_dedup l).
Proof.
  apply dedup_sorted. pose proof (sort_by_key_sorted (fun n : Z => n) l) as Hs.
  induction Hs as [|x k Hs IH Hx]; constructor; [done|].
  eapply Forall_impl; [done|]. intros y Hy. exact Hy.
Qed.

Lemma chunks8_entry b l : length b = 8%nat -> chunks8 (b ++ l) = b :: chunks8 l.
Proof. intros H. do 9 (destruct b as [|? b]; try discriminate H). done. Qed.

Lemma decode_encode chain : Forall is_u64 chain -> decode_chain (encode_chain chain) = chain.
Proof.
  unfold decode_chain, encode_chain. induction 1 as [|n chain Hn Hc IH]; [done|].
  change (mjoin (be_bytes 8 <$> n :: chain)) with (be_bytes 8 n ++ mjoin (be_bytes 8 <$> chain)).
  rewrite chunks8_entry by apply length_be_bytes. rewrite fmap_cons, IH. f_equal.
  unfold Bytes.u64_from_u8. by rewrite Bytes.u64_from_be_bytes.
Qed.

(** ** The walk finds the auth chain *)

Abbreviation id_of := Short.get_shorteventid (only parsing).

Section Walk.
Context (store : gmap string Event).

(** [x] is in the auth chain of [e]. *)
Inductive authed (e : string) : string -> Prop :=
  | authed_direct x : x ∈ auth_of store e -> authed e x
  | authed_step y x : authed e y -> x ∈ auth_of store y -> authed e x.

Definition grows (sh sh' : Short.Service) : Prop :=
  forall e n, id_of sh e = Some n -> id_of sh' e = Some n.

#[export] Instance grows_preorder : PreOrder grows.
Proof. split; [by intros ? ? ?|intros ? ? ? Hab Hbc ? ? ?; by apply Hbc, Hab]. Qed.

(** The counter can still number every id of [U] that has no number. *)
Definition headroom (U : gset string) (sh : Short.Service) : Prop :=
  ServerCounter.count (Short.counter sh)
    + Z.of_nat (size (filter (fun e => id_of sh e = None) U)) <= u64_max.

Lemma intern (U : gset string) sh a :
  Short.wf sh -> headroom U sh -> a ∈ U ->
  exists sh' n, Short.get_or_create_shorteventid sh a = Ok (sh', n) /\ Short.wf sh' /\
    headroom U sh' /\ grows sh sh' /\ id_of sh' a = Some n.
Proof.
  intros Hw Hh Ha. destruct (id_of sh a) as [n|] eqn:E.
  { exists sh, n. unfold Short.get_or_create_shorteventid. rewrite E.
    by split_and!. }
  set (X := filter (fun e => id_of sh e = None) U) in *.
  assert (HaX : a ∈ X) by (by apply elem_of_filter).
  assert (size X = S (size (X ∖ {[a]}))) as HX
    by (rewrite size_difference, size_singleton by set_solver;
        pose proof (subseteq_size {[a]} X ltac:(set_solver)); rewrite size_singleton in *; lia).
  unfold headroom in Hh. fold X in Hh.
  rewrite Short.get_or_create_event.
  destruct (Short.get_or_create_spec sh (Short.TEvent a) Hw) as
    (sh' & n & -> & Hw' & [He Hc] & Hf & Hne); [lia|].
  exists sh', n. split_and!; try done.
  - unfold headroom.
    enough (size (filter (fun e => id_of sh' e = None) U) <= size (X ∖ {[a]}))%nat by lia.
    apply subseteq_size. intros e [Hn HU]%elem_of_filter.
    assert (e <> a) by (intros ->; unfold Short.get_shorteventid in Hn; cbn in Hf; congruence).
    apply elem_of_difference. split; [|set_solver]. apply elem_of_filter. split; [|done].
    pose proof (Hne (Short.TEvent e)) as Hq. cbn in Hq. unfold Short.get_shorteventid in *.
    rewrite <-Hq by congruence. done.
  - intros e m Hm. by apply (He (Short.TEvent e)).
Qed.

Section From.
Context (U : gset string) (e0 : string).
Hypothesis all_in : all_auth store ⊆ U.

Lemma auth_of_all e x : x ∈ auth_of store e -> x ∈ all_auth store.
Proof.
  unfold auth_of, all_auth. destruct (store !! e) as [p|] eqn:E; [|set_solver].
  intros Hx. apply elem_of_list_to_set, list_elem_of_join. exists (auth_events p).
  split; [done|]. apply list_elem_of_fmap. exists (e, p). split; [done|].
  by apply elem_of_map_to_list.
Qed.

(** Found, from the start event or one of the chain. *)
Definition seen (sh : Short.Service) (found : gset Z) (x : string) : Prop :=
  exists n, id_of sh x = Some n /\ n ∈ found.
Definition handled (sh : Short.Service) (found : gset Z) (y : string) : Prop :=
  forall x, x ∈ auth_of store y -> seen sh found x.

#[local] Instance seen_dec sh found x : Decision (seen sh found x).
Proof.
  destruct (id_of sh x) as [n|] eqn:E; [destruct (decide (n ∈ found)) as [Hn|Hn]|].
  - left. by exists n.
  - right. intros (m & Hm & ?). congruence.
  - right. intros (m & Hm & ?). congruence.
Defined.

(** Ids that are still to enter the queue. *)
Definition unseen (sh : Short.Service) (found : gset Z) : gset string :=
  filter (fun x => ~ seen sh found x) (all_auth store).

Record walk_inv (sh : Short.Service) (todo : list string) (found : gset Z) : Prop := {
  w_wf : Short.wf sh;
  w_room : headroom U sh;
  w_sound n : n ∈ found -> exists x, authed e0 x /\ id_of sh x = Some n;
  w_todo y : y ∈ todo -> y = e0 \/ authed e0 y;
  w_closed y : y = e0 \/ seen sh found y -> y ∈ todo \/ handled sh found y
}.

Lemma seen_grows sh sh' found found' x :
  grows sh sh' -> found ⊆ found' -> seen sh found x -> seen sh' found' x.
Proof. intros Hg Hf (n & Hn & Hin). exists n. split; [by apply Hg|set_solver]. Qed.

(** A number of [found] has one event. *)
Lemma seen_back sh sh' todo found x :
  walk_inv sh todo found -> grows sh sh' -> Short.wf sh' -> seen sh' found x -> seen sh found x.
Proof.
  intros Hi Hg Hw (n & Hn & Hin). destruct (w_sound _ _ _ Hi n Hin) as (z & _ & Hz).
  assert (Short.TEvent x = Short.TEvent z) as [= ->].
  { apply (Short.good_unique _ Hw n); left; [done|]. by apply Hg in Hz. }
  by exists n.
Qed.

(** New short ids of other events change nothing. *)
Lemma walk_inv_grows sh sh' todo found :
  walk_inv sh todo found -> Short.wf sh' -> headroom U sh' -> grows sh sh' ->
  walk_inv sh' todo found.
Proof.
  intros Hi Hw Hh Hg. pose proof Hi as [_ _ Hs Ht Hc]. split; try done.
  - intros n (x & ? & ?)%Hs. eauto.
  - intros z Hz. destruct (Hc z) as [|Hz']; [|by left|].
    + destruct Hz as [|Hz]; [by left|right]. by eapply seen_back.
    + right. intros x Hx. eapply seen_grows; [done|done|]. by apply Hz'.
Qed.

Lemma walk_inv_push sh y todo found a n :
  walk_inv sh (y :: todo) found -> authed e0 a -> id_of sh a = Some n ->
  walk_inv sh (y :: (todo ++ [a])) ({[n]} ∪ found).
Proof.
  intros [Hw Hh Hs Ht Hc] Ha Hn. rewrite app_comm_cons. split; try done.
  - intros m [->%elem_of_singleton|Hm]%elem_of_union; [by exists a|auto].
  - intros z [Hz|Hz]%elem_of_app; [by apply Ht|]. apply list_elem_of_singleton in Hz as ->. by right.
  - intros z Hz. rewrite elem_of_app.
    assert (z = a \/ (z = e0 \/ seen sh found z)) as [->|Hz'].
    { destruct Hz as [->|(m & Hm & [->%elem_of_singleton|Hmf]%elem_of_union)]; [by right; left| |].
      - left. enough (Short.TEvent z = Short.TEvent a) by congruence.
        by apply (Short.good_unique _ Hw n); left.
      - right. right. by exists m. }
    + left. right. by left.
    + destruct (Hc z Hz') as [Hl|Hd]; [by left; left|right].
      intros x Hx. eapply seen_grows; [done| |by apply Hd]. set_solver.
Qed.

Lemma unseen_grows sh sh' found found' :
  grows sh sh' -> found ⊆ found' -> unseen sh' found' ⊆ unseen sh found.
Proof.
  intros Hg Hf x [Hx ?]%elem_of_filter. apply elem_of_filter. split; [|done].
  intros Hx'. apply Hx. by eapply seen_grows.
Qed.

Lemma unseen_push sh sh' found a n :
  grows sh sh' -> a ∈ all_auth store -> id_of sh' a = Some n -> n ∉ found ->
  (S (size (unseen sh' ({[n]} ∪ found))) <= size (unseen sh found))%nat.
Proof.
  intros Hg Ha Hn Hin.
  assert (Hau : a ∈ unseen sh found).
  { apply elem_of_filter. split; [|done]. intros (m & Hm & ?). apply Hg in Hm. congruence. }
  assert (Hle : (size (unseen sh' ({[n]} ∪ found)) <= size (unseen sh found ∖ {[a]}))%nat).
  { apply subseteq_size. intros x Hx. apply elem_of_difference. split.
    - revert x Hx. apply unseen_grows; [done|set_solver].
    - intros ->%elem_of_singleton. apply elem_of_filter in Hx as [Hx _]. apply Hx.
      exists n. set_solver. }
  rewrite size_difference, size_singleton in Hle by set_solver.
  pose proof (subseteq_size {[a]} (unseen sh found) ltac:(set_solver)) as H1.
  rewrite size_singleton in H1. lia.
Qed.

Definition walk_measure (sh : Short.Service) (todo : list string) (found : gset Z) : nat :=
  (length todo + size (unseen sh found))%nat.

Lemma visit_spec auths y : forall sh todo found,
  walk_inv sh (y :: todo) found -> (forall a, a ∈ auths -> a ∈ auth_of store y) ->
  exists sh' todo' found', visit sh auths todo found = Ok (sh', todo', found') /\
    walk_inv sh' (y :: todo') found' /\ grows sh sh' /\ found ⊆ found' /\
    (forall a, a ∈ auths -> seen sh' found' a) /\
    (walk_measure sh' todo' found' <= walk_measure sh todo found)%nat.
Proof.
  induction auths as [|a auths IH]; intros sh todo found Hi Ha; cbn [visit].
  { exists sh, todo, found. split_and!; try done. intros a Hn. by apply elem_of_nil in Hn. }
  assert (Hay : a ∈ auth_of store y) by (apply Ha; left).
  assert (Haa : a ∈ all_auth store) by (by eapply auth_of_all).
  assert (Hrest : forall b, b ∈ auths -> b ∈ auth_of store y) by (intros; apply Ha; by right).
  destruct (intern U sh a (w_wf _ _ _ Hi) (w_room _ _ _ Hi) (all_in _ Haa))
    as (sh1 & n & -> & Hw1 & Hh1 & Hg1 & Hn). cbn [lift mbind result_bind].
  pose proof (walk_inv_grows _ _ _ _ Hi Hw1 Hh1 Hg1) as Hi1.
  destruct (decide (n ∈ found)) as [Hin|Hin].
  - destruct (IH _ _ _ Hi1 Hrest) as (sh2 & todo2 & found2 & -> & Hi2 & Hg2 & Hf2 & Hs2 & Hm2).
    exists sh2, todo2, found2. split_and!; try done; [by etrans| |].
    + intros b [->|Hb]%elem_of_cons; [|by apply Hs2]. eapply seen_grows; [done|done|]. by exists n.
    + etransitivity; [done|]. by apply Nat.add_le_mono_l, subseteq_size, unseen_grows.
  - assert (Hea : authed e0 a).
    { destruct (w_todo _ _ _ Hi y ltac:(left)) as [->|Hy];
        [by apply authed_direct|by eapply authed_step]. }
    destruct (IH _ _ _ (walk_inv_push _ _ _ _ _ _ Hi1 Hea Hn) Hrest) as
      (sh2 & todo2 & found2 & -> & Hi2 & Hg2 & Hf2 & Hs2 & Hm2).
    exists sh2, todo2, found2. split_and!; try done; [by etrans|set_solver| |].
    + intros b [->|Hb]%elem_of_cons; [|by apply Hs2]. eapply seen_grows; [done|done|].
      exists n. set_solver.
    + pose proof (unseen_push sh sh1 found a n Hg1 Haa Hn Hin).
      unfold walk_measure in *. rewrite length_app in Hm2. cbn in Hm2. lia.
Qed.

(** An event of another room among those the walk meets. *)
Definition foreign (room : string) : Prop :=
  exists x p, (x = e0 \/ authed e0 x) /\ store !! x = Some p /\ room_id p <> room.

Lemma walk_pop sh y todo found :
  walk_inv sh (y :: todo) found -> handled sh found y -> walk_inv sh todo found.
Proof.
  intros [Hw Hh Hs Ht Hc] Hy. split; try done.
  - intros z Hz. apply Ht. by right.
  - intros z Hz. destruct (Hc z Hz) as [[->|?]%elem_of_cons|?]; auto.
Qed.

Lemma walk_spec room fuel : forall sh todo found,
  walk_inv sh todo found -> (walk_measure sh todo found <= fuel)%nat ->
  (exists sh' found', walk store fuel sh room todo found = Ok (sh', found') /\
     walk_inv sh' [] found' /\ grows sh sh') \/
  walk store fuel sh room todo found = Err Forbidden /\ foreign room.
Proof.
  induction fuel as [|fuel IH]; intros sh [|y todo] found Hi Hm; cbn [walk];
    try (by left; exists sh, found; split_and!).
  { unfold walk_measure in Hm. cbn in Hm. lia. }
  destruct (store !! y) as [p|] eqn:Ey.
  - case_bool_decide as Hr; cbn [negb].
    + destruct (visit_spec (auth_events p) y sh todo found Hi) as
        (sh1 & todo1 & found1 & -> & Hi1 & Hg1 & _ & Hs1 & Hm1).
      { unfold auth_of. by rewrite Ey. }
      cbn [mbind result_bind]. apply walk_pop in Hi1; [|unfold handled, auth_of; by rewrite Ey].
      destruct (IH sh1 todo1 found1 Hi1) as [(sh2 & found2 & -> & ? & ?)|?]; [|left|by right].
      * unfold walk_measure in *. cbn in Hm. lia.
      * exists sh2, found2. split_and!; try done. by etrans.
    + right. split; [done|]. exists y, p. split_and!; try done. apply (w_todo _ _ _ Hi). left.
  - apply IH.
    + apply (walk_pop _ y); [done|]. intros x. unfold handled, auth_of. rewrite Ey. set_solver.
    + unfold walk_measure in *. cbn in Hm. lia.
Qed.

(** When nothing is left to do, the numbers found are those of the chain. *)
Lemma queue_done sh found :
  walk_inv sh [] found ->
  (forall x, authed e0 x -> is_Some (id_of sh x)) /\
  (forall n, n ∈ found <-> exists x, authed e0 x /\ id_of sh x = Some n).
Proof.
  intros [Hw Hh Hs _ Hc].
  assert (Hd : forall y, y = e0 \/ seen sh found y -> handled sh found y)
    by (intros y Hy; destruct (Hc y Hy) as [Hn|]; [by apply elem_of_nil in Hn|done]).
  assert (Hall : forall x, authed e0 x -> seen sh found x).
  { induction 1 as [x Hx|y x _ IH Hx]; (eapply Hd; [|done]); [by left|by right]. }
  split.
  - intros x (n & Hn & _)%Hall. by eexists.
  - intros n. split; [apply Hs|]. intros (x & (m & Hm & Hf)%Hall & Hx). congruence.
Qed.

Lemma queue_start sh :
  Short.wf sh -> headroom U sh -> walk_inv sh [e0] ∅.
Proof.
  intros Hw Hh. split; try done.
  - intros y ->%list_elem_of_singleton. by left.
  - intros y [->|(n & _ & Hn)]; [left; by left|]. by apply elem_of_empty in Hn.
Qed.

End From.
End Walk.

(** ** Kept chains *)

Section Kept.
Context (store : gmap string Event).

(** [chain] lists the numbers of the auth chains of [es], all of which have one. *)
Record chain_ok (sh : Short.Service) (es : list string) (chain : list Z) : Prop := {
  chain_numbered e x : e ∈ es -> authed store e x -> is_Some (id_of sh x);
  chain_exact n : n ∈ chain <->
    exists e x, e ∈ es /\ authed store e x /\ id_of sh x = Some n
}.

(** [key] numbers the stored events [es]. *)
Definition keys (sh : Short.Service) (es : list string) (key : list Z) : Prop :=
  Forall2 (fun e k => id_of sh e = Some k /\ is_Some (store !! e)) es key.

Lemma chain_ok_grows sh sh' es chain :
  grows sh sh' -> chain_ok sh es chain -> chain_ok sh' es chain.
Proof.
  intros Hg [Hn He]. split.
  - intros e x H1 H2. destruct (Hn e x H1 H2) as [n ?]. exists n. by apply Hg.
  - intros n. rewrite He. split; intros (e & x & ? & Ha & Hx); exists e, x; split_and!; auto.
    destruct (Hn e x) as [m Hm]; [done|done|]. pose proof (Hg _ _ Hm). congruence.
Qed.

Lemma chain_ok_app sh es es' c c' :
  chain_ok sh es c -> chain_ok sh es' c' -> chain_ok sh (es ++ es') (c ++ c').
Proof.
  intros [Hn He] [Hn' He']. split.
  - intros e x [?|?]%elem_of_app; eauto.
  - intros n. rewrite elem_of_app, He, He'. setoid_rewrite elem_of_app. naive_solver.
Qed.

Lemma chain_ok_nil sh : chain_ok sh [] [].
Proof. split; intros; set_solver. Qed.

Lemma chain_ok_ext sh es es' c c' :
  (forall e, e ∈ es <-> e ∈ es') -> (forall n, n ∈ c <-> n ∈ c') ->
  chain_ok sh es c -> chain_ok sh es' c'.
Proof.
  intros Hes Hc [Hn He]. split.
  - intros e x Hx. apply Hn. by apply Hes.
  - intros n. rewrite <-Hc, He. by setoid_rewrite Hes.
Qed.

Lemma keys_grows sh sh' es key : grows sh sh' -> keys sh es key -> keys sh' es key.
Proof. intros Hg Hk. eapply Forall2_impl; [done|]. intros ? ? [? ?]. split; [by apply Hg|done]. Qed.

Lemma keys_unique sh es es' key : Short.wf sh -> keys sh es key -> keys sh es' key -> es = es'.
Proof.
  intros Hw H. revert es'. induction H as [|e k es key [He _] Hes IH]; intros es' H'.
  - by inversion H'.
  - inversion H' as [|e' ? es1 ? [He' _] Hes']; subst. f_equal; [|by apply IH].
    enough (Short.TEvent e = Short.TEvent e') by congruence.
    by apply (Short.good_unique _ Hw k); left.
Qed.

Lemma chain_u64 sh es chain : Short.wf sh -> chain_ok sh es chain -> Forall is_u64 chain.
Proof.
  intros Hw [_ He]. apply Forall_forall. intros n (e & x & _ & _ & Hx)%He.
  pose proof (Short.good_bound _ Hw n (Short.TEvent x) ltac:(by left)) as Hb.
  destruct (Short.good_counter _ Hw) as [Hc _]. cbn in *. int_solve.
Qed.

Context (iter : gset Z -> list Z) (iter_elem : forall X n, n ∈ iter X <-> n ∈ X).
Context (evict : gmap (list Z) (list Z) -> gmap (list Z) (list Z)).
Context `{!Evicts evict}.
Context (written : Z -> bool).
Context (U : gset string) (all_in : all_auth store ⊆ U).

(** The numbers are in order and every kept chain is that of the events its key
    stands for. *)
Record inv (s : State) : Prop := {
  inv_short : Short.wf (short s);
  inv_room : headroom U (short s);
  inv_cache key chain : auth_chain_cache s !! key = Some chain ->
    exists es, keys (short s) es key /\ chain_ok (short s) es chain;
  inv_db k v : shorteventid_authchain s !! k = Some v ->
    exists e, keys (short s) [e] [k] /\ chain_ok (short s) [e] (decode_chain v)
}.

Lemma inv_set_short s sh :
  inv s -> Short.wf sh -> headroom U sh -> grows (short s) sh -> inv (set_short s sh).
Proof.
  intros [_ _ Hc Hd] Hw Hh Hg. split; cbn; try done.
  - intros key chain (es & ? & ?)%Hc. exists es. eauto using keys_grows, chain_ok_grows.
  - intros k v (e & ? & ?)%Hd. exists e. eauto using keys_grows, chain_ok_grows.
Qed.

Lemma inv_cache_insert s es key chain :
  inv s -> keys (short s) es key -> chain_ok (short s) es chain ->
  inv (cache_insert evict s key chain).
Proof.
  intros [Hw Hh Hc Hd] Hk Ho. split; cbn; try done.
  intros key' chain' [[<- <-]|H]%evict_insert_Some; eauto.
Qed.

Lemma keys_one sh e k : id_of sh e = Some k -> is_Some (store !! e) -> keys sh [e] [k].
Proof. intros. by repeat constructor. Qed.

Lemma cached_spec s es key :
  inv s -> keys (short s) es key ->
  exists s' r, cached_auth_chain evict s key = (s', r) /\ inv s' /\ short s' = short s /\
    forall chain, r = Some chain -> chain_ok (short s) es chain.
Proof.
  intros Hi Hk. pose proof Hi as [Hw _ Hc Hd]. unfold cached_auth_chain.
  destruct (auth_chain_cache s !! key) as [chain|] eqn:E.
  { eexists _, _. split_and!; try done. intros ? [= <-].
    destruct (Hc _ _ E) as (es' & Hk' & Ho). by rewrite (keys_unique _ _ _ _ Hw Hk Hk'). }
  assert (Hmiss : exists s' r, (s, None) = (s', r) /\ inv s' /\ short s' = short s /\
    forall chain : list Z, r = Some chain -> chain_ok (short s) es chain) by (by eexists _, None).
  destruct key as [|k [|k' key]]; try done.
  destruct (shorteventid_authchain s !! k) as [v|] eqn:Ev; [|done].
  destruct (Hd _ _ Ev) as (e & He & Ho).
  assert (es = [e]) as -> by (by apply (keys_unique _ _ _ _ Hw Hk)).
  eexists _, _. split_and!; try done; [by eapply inv_cache_insert|]. by intros ? [= <-].
Qed.

Lemma cache_spec s es key chain :
  inv s -> keys (short s) es key -> chain_ok (short s) es chain ->
  inv (cache_auth_chain evict written s key chain) /\
  short (cache_auth_chain evict written s key chain) = short s.
Proof.
  intros Hi Hk Ho. unfold cache_auth_chain.
  split; [|by destruct key as [|k []]; [|destruct (written k)|]].
  destruct key as [|k [|k' key]]; try by eapply inv_cache_insert.
  destruct (written k); [|by eapply inv_cache_insert].
  inversion Hk as [|e ? es' ? He Hes]; subst. inversion Hes; subst.
  apply (inv_cache_insert _ [e]); [|done..]. destruct Hi as [Hw Hh Hc Hd]. split; cbn; try done.
  intros k' v [[<- <-]|[_ ?]]%lookup_insert_Some; [|by apply Hd]. exists e. split; [done|].
  by rewrite decode_encode by (by eapply chain_u64).
Qed.

(** One of [es] has an event of another room among its auth events. *)
Definition some_foreign (es : list string) (room : string) : Prop :=
  exists e, e ∈ es /\ foreign store e room.

(** What each stage promises: the chains of [es], or the wrong room. *)
Definition stage (s : State) (room : string) (es : list string)
    (r : result error (State * list Z)) : Prop :=
  (exists s' chain, r = Ok (s', chain) /\ inv s' /\ grows (short s) (short s') /\
     chain_ok (short s') es chain) \/
  (r = Err Forbidden /\ some_foreign es room).

Lemma event_spec sh room e :
  Short.wf sh -> headroom U sh ->
  (exists sh' chain, auth_chain_for_event store iter sh room e = Ok (sh', chain) /\
     Short.wf sh' /\ headroom U sh' /\ grows sh sh' /\ chain_ok sh' [e] chain) \/
  (auth_chain_for_event store iter sh room e = Err Forbidden /\ foreign store e room).
Proof.
  intros Hw Hh. unfold auth_chain_for_event.
  destruct (walk_spec store U e all_in room (S (size (all_auth store))) sh [e] ∅
    (queue_start store U e sh Hw Hh)) as [(sh' & found & -> & Hi & Hg)|[-> Hf]]; [|left|by right].
  { unfold walk_measure. cbn. apply le_n_S, subseteq_size. unfold unseen. set_solver. }
  cbn [mbind result_bind]. destruct (queue_done store U e sh' found Hi) as [Hn He].
  exists sh', (iter found). split_and!; try done; [apply Hi..|]. split.
  - intros e' x ->%list_elem_of_singleton. apply Hn.
  - intros n. rewrite iter_elem, He. setoid_rewrite list_elem_of_singleton. naive_solver.
Qed.

Definition numbered (sh : Short.Service) (bucket : list (Z * string)) : Prop :=
  Forall (fun p => id_of sh p.2 = Some p.1 /\ is_Some (store !! p.2)) bucket.

Lemma numbered_keys sh bucket : numbered sh bucket -> keys sh (snd <$> bucket) (fst <$> bucket).
Proof. induction 1; by constructor. Qed.

Lemma numbered_grows sh sh' bucket : grows sh sh' -> numbered sh bucket -> numbered sh' bucket.
Proof. intros Hg Hb. eapply Forall_impl; [done|]. intros ? [? ?]. split; [by apply Hg|done]. Qed.

Lemma stage_cons s s1 room es es' (c : list Z) k :
  grows (short s) (short s1) -> chain_ok (short s1) es c -> stage s1 room es' k ->
  stage s room (es ++ es') ('(s', chains) ← k; Ok (s', c ++ chains)).
Proof.
  intros Hg Hc [(s2 & c2 & -> & Hi2 & Hg2 & Hc2)|[-> (e & He & Hf)]]; [left|right].
  - cbn. eexists _, _. split_and!; [done|done|by etrans|].
    apply chain_ok_app; [by eapply chain_ok_grows|done].
  - cbn. split; [done|]. exists e. split; [set_solver|done].
Qed.

Lemma event_chains_spec room bucket : forall s,
  inv s -> numbered (short s) bucket ->
  stage s room (snd <$> bucket) (event_chains store iter evict written s room bucket).
Proof.
  induction bucket as [|[k e] bucket IH]; intros s Hi Hb.
  { left. eexists _, _. split_and!; [done|done|done|apply chain_ok_nil]. }
  apply Forall_cons in Hb as [[Hk He] Hb]. cbn [fst snd] in Hk, He. apply keys_one in Hk as Hk1; [|done].
  change (snd <$> (k, e) :: bucket) with ([e] ++ (snd <$> bucket)). cbn [event_chains].
  destruct (cached_spec s [e] [k] Hi Hk1) as (s1 & r & -> & Hi1 & Es & Hr).
  destruct r as [chain|]; cbn [mbind result_bind].
  { apply (stage_cons s s1); [by rewrite Es; intros ? ?|rewrite Es; by apply Hr|].
    apply IH; [done|by rewrite Es]. }
  destruct (event_spec (short s1) room e (inv_short _ Hi1) (inv_room _ Hi1)) as
    [(sh' & chain & -> & Hw & Hh & Hg & Hc)|[-> Hf]]; cbn [mbind result_bind];
    [|right; split; [done|]; exists e; split; [set_solver|done]].
  pose proof (inv_set_short _ _ Hi1 Hw Hh Hg) as Hi2.
  destruct (cache_spec (set_short s1 sh') [e] [k] chain Hi2) as [Hi3 Es3]; [|done|].
  { eapply keys_grows; [exact Hg|]. by rewrite Es. }
  cbn [short set_short] in Es3. rewrite Es in Hg.
  apply (stage_cons s (cache_auth_chain evict written (set_short s1 sh') [k] chain));
    [by rewrite Es3|by rewrite Es3|]. apply IH; [done|]. rewrite Es3. by eapply numbered_grows.
Qed.

Lemma bucket_spec s room bucket :
  inv s -> numbered (short s) bucket ->
  stage s room (snd <$> bucket) (auth_chain_for_bucket store iter evict written s room bucket).
Proof.
  intros Hi Hb. unfold auth_chain_for_bucket.
  pose proof (numbered_keys _ _ Hb) as Hk.
  destruct bucket as [|p bucket].
  { left. eexists _, _. split_and!; [done|done|done|apply chain_ok_nil]. }
  destruct (cached_spec s _ _ Hi Hk) as (s1 & r & Hr & Hi1 & Es & Hc).
  change (fst <$> p :: bucket) with (p.1 :: (fst <$> bucket)) in *. cbv beta iota zeta.
  rewrite Hr. destruct r as [chain|].
  { left. exists s1, chain. rewrite Es. split_and!; [done|done|done|by apply Hc]. }
  destruct (event_chains_spec room (p :: bucket) s1 Hi1) as [(s2 & c & -> & Hi2 & Hg & Ho)|[-> Hf]];
    [by rewrite Es|left|by right]. cbn [mbind result_bind]. rewrite Es in Hg.
  assert (Ho' : chain_ok (short s2) (snd <$> p :: bucket) (sort_dedup c)).
  { eapply chain_ok_ext; [done| |done]. intros n. by rewrite sort_dedup_elem. }
  destruct (cache_spec s2 (snd <$> p :: bucket) (p.1 :: (fst <$> bucket)) (sort_dedup c) Hi2)
    as [Hi3 Es3]; [by eapply keys_grows|done|].
  eexists _, _. split_and!; [done|done|by rewrite Es3|by rewrite Es3].
Qed.

Lemma buckets_spec room buckets : forall s,
  inv s -> Forall (numbered (short s)) buckets ->
  stage s room (mjoin ((fun b => snd <$> b) <$> buckets))
    (bucket_chains store iter evict written s room buckets).
Proof.
  induction buckets as [|b buckets IH]; intros s Hi Hb.
  { left. eexists _, _. split_and!; [done|done|done|apply chain_ok_nil]. }
  apply Forall_cons in Hb as [Hb Hbs]. cbn [bucket_chains].
  change (mjoin ((fun b => snd <$> b) <$> b :: buckets)) with
    ((snd <$> b) ++ mjoin ((fun b => snd <$> b) <$> buckets)).
  destruct (bucket_spec s room b Hi Hb) as [(s1 & c & -> & Hi1 & Hg & Hc)|[-> (e & He & Hf)]];
    cbn [mbind result_bind]; [|right; split; [done|]; exists e; split; [set_solver|done]].
  apply (stage_cons s s1); [done|done|]. apply IH; [done|].
  eapply Forall_impl; [done|]. intros ?. by apply numbered_grows.
Qed.

(** ** The whole operation *)

Lemma one_by_one_spec ids : forall sh,
  Short.wf sh -> headroom U sh -> (forall e, e ∈ ids -> e ∈ U /\ is_Some (store !! e)) ->
  exists sh' ns, Short.one_by_one sh ids = Ok (sh', ns) /\ Short.wf sh' /\ headroom U sh' /\
    grows sh sh' /\ keys sh' ids ns.
Proof.
  induction ids as [|e ids IH]; intros sh Hw Hh Hin; cbn [Short.one_by_one].
  { eexists _, _. split_and!; [done|done|done|done|constructor]. }
  destruct (intern U sh e Hw Hh) as (sh1 & n & -> & Hw1 & Hh1 & Hg1 & Hn); [apply Hin; left|].
  cbn [mbind result_bind].
  destruct (IH sh1 Hw1 Hh1) as (sh2 & ns & -> & Hw2 & Hh2 & Hg2 & Hk); [intros; apply Hin; by right|].
  cbn [mbind result_bind]. eexists _, _. split_and!; [done|done|done|by etrans|].
  constructor; [split; [by apply Hg2|apply Hin; left]|done].
Qed.

Lemma keys_numbered sh ids ns : keys sh ids ns -> numbered sh (zip ns ids).
Proof. induction 1; by constructor. Qed.

Lemma bucket_of_elem starting i p :
  p ∈ bucket_of starting i <->
  p ∈ starting /\ p.1 mod Z.of_nat NUM_BUCKETS = Z.of_nat i.
Proof.
  unfold bucket_of. rewrite sort_by_key_perm, elem_of_elements, elem_of_list_to_set,
    list_elem_of_filter. naive_solver.
Qed.

Lemma buckets_events starting e :
  e ∈ mjoin ((fun b : list (Z * string) => snd <$> b) <$> (bucket_of starting <$> seq 0 NUM_BUCKETS))
  <-> e ∈ snd <$> starting.
Proof.
  rewrite list_elem_of_join, list_elem_of_fmap. split.
  - intros (l & Hl & (b & -> & (i & -> & _)%list_elem_of_fmap)%list_elem_of_fmap).
    apply list_elem_of_fmap in Hl as (p & -> & [Hp _]%bucket_of_elem). by exists p.
  - intros (p & -> & Hp).
    pose proof (Z.mod_pos_bound p.1 (Z.of_nat NUM_BUCKETS) ltac:(done)) as Hm.
    set (i := Z.to_nat (p.1 mod Z.of_nat NUM_BUCKETS)).
    exists (snd <$> bucket_of starting i). split.
    + apply list_elem_of_fmap_2, bucket_of_elem. split; [done|]. unfold i. lia.
    + apply list_elem_of_fmap_2, list_elem_of_fmap_2, elem_of_seq. unfold i, NUM_BUCKETS in *. lia.
Qed.

Lemma snd_zip_keys sh ids ns : keys sh ids ns -> snd <$> zip ns ids = ids.
Proof. intros H. apply snd_zip. apply Forall2_length in H. lia. Qed.

Lemma get_auth_chain_spec s room ids :
  inv s -> NoDup ids -> (forall e, e ∈ ids -> e ∈ U /\ is_Some (store !! e)) ->
  (exists s' chain, get_auth_chain store iter evict written s room ids = Ok (s', chain) /\ inv s' /\
     StronglySorted Z.lt chain /\ chain_ok (short s') ids chain) \/
  (get_auth_chain store iter evict written s room ids = Err Forbidden /\ some_foreign ids room).
Proof.
  intros Hi Hnd Hin. unfold get_auth_chain. rewrite Short.multi_one_by_one by done.
  destruct (one_by_one_spec ids (short s) (inv_short _ Hi) (inv_room _ Hi) Hin)
    as (sh & ns & -> & Hw & Hh & Hg & Hk). cbn [lift mbind result_bind].
  pose proof (inv_set_short s sh Hi Hw Hh Hg) as Hi1.
  set (bs := bucket_of (zip ns ids) <$> seq 0 NUM_BUCKETS).
  assert (Hes : forall e, e ∈ mjoin ((fun b : list (Z * string) => snd <$> b) <$> bs) <-> e ∈ ids).
  { intros e. unfold bs. by rewrite buckets_events, (snd_zip_keys _ _ _ Hk). }
  destruct (buckets_spec room bs (set_short s sh) Hi1) as
    [(s2 & c & -> & Hi2 & Hg2 & Hc)|[-> (e & He & Hf)]].
  - apply Forall_forall. intros b (i & -> & _)%list_elem_of_fmap. apply Forall_forall.
    intros p [Hp _]%bucket_of_elem. pose proof (keys_numbered _ _ _ Hk) as Hn.
    unfold numbered in Hn. rewrite Forall_forall in Hn. by apply Hn.
  - left. cbn [mbind result_bind]. eexists _, _. split_and!; [done|done|apply sort_dedup_sorted|].
    eapply chain_ok_ext; [exact Hes| |exact Hc]. intros n. by rewrite sort_dedup_elem.
  - right. split; [done|]. exists e. split; [by apply Hes|done].
Qed.

End Kept.

(** ** Over time *)

(** Every auth event of a stored event is stored, and all are among [U]. *)
Definition complete (U : gset string) (store : gmap string Event) : Prop :=
  dom store ⊆ U /\
  forall y ev a, store !! y = Some ev -> a ∈ auth_events ev -> is_Some (store !! a).

Lemma complete_all U store : complete U store -> all_auth store ⊆ U.
Proof.
  intros [Hd Hc] x Hx. apply Hd, elem_of_dom. unfold all_auth in Hx.
  apply elem_of_list_to_set, list_elem_of_join in Hx as (l & Hx & Hl).
  apply list_elem_of_fmap in Hl as ([y ev] & -> & Hy%elem_of_map_to_list). by eapply Hc.
Qed.

(** What becomes of the service. It starts with nothing kept. Events are stored
    once their auth events are; requests for stored events are answered, with any
    rows of the database refused and any entries of the cache dropped; a request
    that fails leaves what its buckets kept so far; other parts of the server take
    numbers; the cache is cleared, or lost in a restart. *)
Inductive history (iter : gset Z -> list Z) (U : gset string) :
    gmap string Event -> State -> Prop :=
  | history_start store :
      complete U store -> Z.of_nat (size U) <= u64_max ->
      history iter U store (mkState Short.fresh ∅ ∅)
  | history_stored store store' s :
      history iter U store s -> store ⊆ store' -> complete U store' -> history iter U store' s
  | history_asked store s evict written room ids s' chain :
      history iter U store s -> Evicts evict -> NoDup ids ->
      (forall e, e ∈ ids -> is_Some (store !! e)) ->
      get_auth_chain store iter evict written s room ids = Ok (s', chain) ->
      history iter U store s'
  | history_part store s evict written room bucket s' chain :
      history iter U store s -> Evicts evict -> numbered store (short s) bucket ->
      event_chains store iter evict written s room bucket = Ok (s', chain) ->
      history iter U store s'
  | history_others store s sh :
      history iter U store s -> Short.wf sh -> headroom U sh -> grows (short s) sh ->
      history iter U store (set_short s sh)
  | history_cleared store s :
      history iter U store s -> history iter U store (clear_cache s).

(** The chain of a stored event does not change when more is stored. *)
Lemma authed_stored U store store' e x :
  complete U store -> store ⊆ store' -> is_Some (store !! e) ->
  authed store' e x <-> authed store e x.
Proof.
  intros [_ Hc] Hsub He.
  assert (Hof : forall y, is_Some (store !! y) -> auth_of store' y = auth_of store y).
  { intros y [ev Hy]. unfold auth_of. by rewrite Hy, (lookup_weaken _ _ _ _ Hy Hsub). }
  assert (Hst : forall y, authed store e y -> is_Some (store !! y)).
  { assert (Hone : forall y z, z ∈ auth_of store y -> is_Some (store !! z)).
    { intros y z. unfold auth_of. destruct (store !! y) eqn:E; [|set_solver]. by apply (Hc y). }
    induction 1; eauto. }
  split.
  - induction 1 as [x Hx|y x _ IH Hx].
    + apply authed_direct. by rewrite <-Hof.
    + eapply authed_step; [done|]. rewrite <-Hof by auto. done.
  - induction 1 as [x Hx|y x Hy IH Hx].
    + apply authed_direct. by rewrite Hof.
    + eapply authed_step; [done|]. rewrite Hof by auto. done.
Qed.

Lemma inv_stored U store store' s :
  complete U store -> store ⊆ store' -> inv store U s -> inv store' U s.
Proof.
  intros Hc Hsub [Hw Hh Hcache Hdb].
  assert (Hk : forall sh es key, keys store sh es key -> keys store' sh es key).
  { intros sh es key Hk. eapply Forall2_impl; [done|]. intros e k [? [ev Hev]].
    split; [done|]. exists ev. by eapply lookup_weaken. }
  assert (Ho : forall sh es key chain, keys store sh es key -> chain_ok store sh es chain ->
    chain_ok store' sh es chain).
  { intros sh es key chain Hks [Hn He].
    assert (Hst : forall e, e ∈ es -> is_Some (store !! e)).
    { clear -Hks. induction Hks as [|e k es key [_ ?] _ IH]; intros x Hx; [set_solver|].
      apply elem_of_cons in Hx as [->|Hx]; auto. }
    assert (Ha : forall e x, e ∈ es -> authed store' e x <-> authed store e x)
      by (intros; eapply authed_stored; eauto).
    split.
    - intros e x Hin Hx. apply (Hn e x Hin). by apply Ha.
    - intros n. rewrite He. split; intros (e & x & Hin & Hx & ?); exists e, x;
        (split_and!; [done|by apply (Ha e x Hin)|done]). }
  split; [done|done| |].
  - intros key chain (es & ? & ?)%Hcache. exists es. eauto.
  - intros k v (e & ? & ?)%Hdb. exists e. eauto.
Qed.

Lemma history_inv iter U store s :
  (forall X n, n ∈ iter X <-> n ∈ X) -> history iter U store s ->
  complete U store /\ inv store U s.
Proof.
  intros Hit. induction 1 as [store Hc HU|store store' s _ [Hc Hi] Hsub Hc'
    |store s evict written room ids s' chain _ [Hc Hi] Hev Hnd Hst Hg
    |store s evict written room bucket s' chain _ [Hc Hi] Hev Hb Hg
    |store s sh _ [Hc Hi] Hw Hh Hgr|store s _ [Hc Hi]]; (split; [done|]).
  - split; cbn; [apply Short.fresh_wf| |intros ? ? Hn..]; try by rewrite lookup_empty in Hn.
    unfold headroom. change (ServerCounter.count (Short.counter Short.fresh)) with 0.
    match goal with |- context [size ?X] =>
      pose proof (subseteq_size X U ltac:(intros e [_ He]%elem_of_filter; exact He)) end.
    lia.
  - apply (inv_stored U store store'); [exact Hc|exact Hsub|exact Hi].
  - destruct (get_auth_chain_spec store iter Hit evict written U (complete_all _ _ Hc) s room ids)
      as [(s1 & c & E & ? & _)|[E _]]; [done|done| |congruence..].
    intros e He. split; [|auto]. apply Hc, elem_of_dom. auto.
  - destruct (event_chains_spec store iter Hit evict written U (complete_all _ _ Hc) room bucket s)
      as [(s1 & c & E & ? & _)|[E _]]; [done|done|congruence..].
  - by apply inv_set_short.
  - destruct Hi as [Hw Hh _ Hd]. split; cbn; [done|done| |done].
    intros key chain Hn. by rewrite lookup_empty in Hn.
Qed.

(** ** Properties *)

(** C34: [get_auth_chain] returns the auth chain, also from what earlier requests
    kept. In a server that stores an event only after its auth events, at every
    point of a history of requests, arriving events, refused database rows, dropped
    cache entries and restarts, the call for stored events ends, and returns in
    ascending order exactly the short ids of the events reachable from the given
    ones along their auth events, each of which has a number; or it reports an
    event of another room among those it walks. *)
Theorem get_auth_chain_correct (iter : gset Z -> list Z)
    (evict : gmap (list Z) (list Z) -> gmap (list Z) (list Z)) (written : Z -> bool)
    (U : gset string) (store : gmap string Event) (s : State) (room : string)
    (ids : list string) :
  (forall X n, n ∈ iter X <-> n ∈ X) -> Evicts evict ->
  history iter U store s -> NoDup ids -> (forall e, e ∈ ids -> is_Some (store !! e)) ->
  (exists s' chain, get_auth_chain store iter evict written s room ids = Ok (s', chain) /\
     history iter U store s' /\ StronglySorted Z.lt chain /\
     (forall e x, e ∈ ids -> authed store e x -> is_Some (Short.get_shorteventid (short s') x)) /\
     (forall n, n ∈ chain <-> exists e x, e ∈ ids /\ authed store e x /\
        Short.get_shorteventid (short s') x = Some n)) \/
  (get_auth_chain store iter evict written s room ids = Err Forbidden /\
   some_foreign store ids room).
Proof.
  intros Hit Hev Hh Hnd Hst. destruct (history_inv _ _ _ _ Hit Hh) as [Hc Hi].
  destruct (get_auth_chain_spec store iter Hit evict written U (complete_all _ _ Hc) s room ids)
    as [(s' & c & E & ? & ? & [? ?])|?]; [done|done| |left|by right].
  - intros e He. split; [|auto]. apply Hc, elem_of_dom. auto.
  - exists s', c. split_and!; try done. by eapply history_asked.
Qed.

(** ** Runs *)

Definition event (id : string) (auths : list string) : Event :=
  mkEvent id "!r" "@a:a" 0 "t" "" None [] auths None.

Definition full_store : gmap string Event :=
  list_to_map [("$m", event "$m" ["$p"; "$c"]); ("$p", event "$p" ["$j"; "$c"]);
    ("$j", event "$j" ["$c"]); ("$c", event "$c" [])].

Definition empty_state : State := mkState Short.fresh ∅ ∅.

Definition names (s : State) (chain : list Z) : list (option string) :=
  Short.get_eventid_from_short (short s) <$> chain.

(** The chain of ["$m"], cold and from the caches of the first call. *)
Example chain_twice :
  ('(s, c) ← get_auth_chain full_store elements id (fun _ => true) empty_state "!r" ["$m"];
   '(s', c') ← get_auth_chain full_store elements id (fun _ => true) s "!r" ["$m"];
   Ok (names s c, bool_decide (c = c')))
  = Ok ([Some "$p"; Some "$c"; Some "$j"], true).
Proof. vm_compute. reflexivity. Qed.

(** A chain walked while ["$p"] was missing is kept, in the database too, and
    served after ["$p"] has arrived. *)
Example incomplete_chain_kept :
  ('(s, c) ← get_auth_chain (delete "$p" full_store) elements id (fun _ => true) empty_state "!r" ["$m"];
   '(s', c') ← get_auth_chain full_store elements id (fun _ => true) (clear_cache s) "!r" ["$m"];
   Ok (names s' c'))
  = Ok [Some "$p"; Some "$c"].
Proof. vm_compute. reflexivity. Qed.

(** The room is compared only when the chain is walked, not when it is kept. *)
Example wrong_room_when_kept :
  is_ok (get_auth_chain full_store elements id (fun _ => true) empty_state "!other" ["$m"]) = false /\
  is_ok ('(s, _) ← get_auth_chain full_store elements id (fun _ => true) empty_state "!r" ["$m"];
         get_auth_chain full_store elements id (fun _ => true) s "!other" ["$m"]) = true.
Proof. split; vm_compute; reflexivity. Qed.

Lemma full_store_complete : complete (dom full_store) full_store.
Proof.
  split; [done|]. intros y ev a Hy Ha. apply elem_of_dom.
  assert (Hall : forallb (fun p : string * Event =>
    forallb (fun a => bool_decide (a ∈ dom full_store)) (auth_events p.2))
    (map_to_list full_store) = true) by (vm_compute; reflexivity).
  rewrite forallb_forall in Hall. apply elem_of_map_to_list, list_elem_of_In, Hall in Hy.
  cbn in Hy. rewrite forallb_forall in Hy. apply list_elem_of_In, Hy in Ha.
  by apply bool_decide_eq_true in Ha.
Qed.

Lemma sample_history : history elements (dom full_store) full_store empty_state.
Proof. apply history_start; [apply full_store_complete|vm_compute; discriminate]. Qed.

Lemma get_auth_chain_correct_witness :
  (exists s' chain, get_auth_chain full_store elements id (fun _ => false) empty_state "!r" ["$m"]
       = Ok (s', chain) /\
     history elements (dom full_store) full_store s' /\ StronglySorted Z.lt chain /\
     (forall e x, e ∈ ["$m"] -> authed full_store e x ->
        is_Some (Short.get_shorteventid (short s') x)) /\
     (forall n, n ∈ chain <-> exists e x, e ∈ ["$m"] /\ authed full_store e x /\
        Short.get_shorteventid (short s') x = Some n)) \/
  (get_auth_chain full_store elements id (fun _ => false) empty_state "!r" ["$m"]
     = Err Forbidden /\ some_foreign full_store ["$m"] "!r").
Proof.
  apply (get_auth_chain_correct elements id (fun _ => false) (dom full_store) full_store
    empty_state "!r" ["$m"]).
  - intros X n. apply elem_of_elements.
  - apply _.
  - apply sample_history.
  - apply NoDup_singleton.
  - intros e He. apply list_elem_of_singleton in He as ->. vm_compute. eauto.
Defined.

End AuthChain.
