(* ===== verification/StateCompressor.v ===== *)
(** The state compressor, [phantom-service/src/rooms/state_compressor/mod.rs]: room
    states kept as differences from earlier states, at most four layers deep.
    A state is a set of 16-byte entries; the database maps a state's short hash
    to the encoded difference, and the cache keeps loaded layers. The write of
    [save_statediff], whose error the code drops, is taken to succeed. *)
From S2P Require Import Prelude Order PduId Short.

Module StateCompressor.

#[export] Instance ord_bytes : Ord (list byte) := bytes_cmp.
#[export] Instance ord_bytes_laws : OrdLaws (list byte).
Proof.
  split; unfold cmp, ord_bytes.
  - intros k l. split; [apply bytes_cmp_eq|intros ->; apply bytes_cmp_refl].
  - intros k. induction k as [|b k IH]; intros [|c l]; cbn; try done.
    rewrite (Z.compare_antisym (b2z b) (b2z c)). destruct (b2z b ?= b2z c); cbn; auto.
  - intros k. induction k as [|b k IH]; intros [|c l] [|d m]; cbn; try done.
    destruct (Z.compare_spec (b2z b) (b2z c)), (Z.compare_spec (b2z c) (b2z d)),
      (Z.compare_spec (b2z b) (b2z d)); try done; try lia; eauto.
Qed.

(** [CompressedStateEvent] is [[u8; 16]]; [CompressedState] is a [BTreeSet]. *)
Abbreviation Entry := (list byte) (only parsing).
Abbreviation CompressedState := (gset (list byte)) (only parsing).

Inductive error := Arithmetic | Missing | Panic | Diverges.

(** Ascending iteration of a [BTreeSet]. *)
Definition btree_iter (X : CompressedState) : list Entry :=
  sort_by_key (fun e : Entry => e) (elements X).

Definition compress_state_event (shortstatekey shorteventid : Z) : Entry :=
  be_bytes 8 shortstatekey ++ be_bytes 8 shorteventid.

(** [u64_from_u8] panics unless it is given eight bytes. *)
Definition parse_compressed_state_event (e : Entry) : option (Z * Z) :=
  k ← Bytes.u64_from_u8 (take 8 e);
  v ← Bytes.u64_from_u8 (drop 8 e);
  Some (k, v).

Record StateDiff := mkDiff {
  parent : option Z;
  added : CompressedState;
  removed : CompressedState
}.

Record ShortStateInfo := mkInfo {
  shortstatehash : Z;
  full_state : CompressedState;
  info_added : CompressedState;
  info_removed : CompressedState
}.

(** ** The stored form of a difference *)

Definition ZERO : list byte := be_bytes 8 0.

Definition encode_statediff (diff : StateDiff) : list byte :=
  be_bytes 8 (default 0 (parent diff))
  ++ mjoin (btree_iter (added diff))
  ++ (if decide (removed diff = ∅) then []
      else ZERO ++ mjoin (btree_iter (removed diff))).

(** The loop of [get_statediff] over the bytes after the parent; each round takes
    at least eight bytes. *)
Fixpoint decode_entries (fuel : nat) (add_mode : bool) (l : list byte)
    (added_ removed_ : CompressedState) : result error (CompressedState * CompressedState) :=
  if (length l <? 16)%nat then Ok (added_, removed_) else
  match fuel with
  | O => Err Diverges
  | S fuel =>
      let v := take 16 l in
      if add_mode && bool_decide (ZERO `prefix_of` v) then
        decode_entries fuel false (drop 8 l) added_ removed_
      else if add_mode then
        decode_entries fuel true (drop 16 l) ({[v]} ∪ added_) removed_
      else
        decode_entries fuel false (drop 16 l) added_ ({[v]} ∪ removed_)
  end.

(** [value[0..8]] panics on a shorter value. *)
Definition decode_statediff (value : list byte) : result error StateDiff :=
  if (length value <? 8)%nat then Err Panic else
  let parent_ :=
    match Bytes.u64_from_bytes (take 8 value) with
    | Some p => if bool_decide (p = 0) then None else Some p
    | None => None
    end in
  '(a, r) ← decode_entries (length value) true (drop 8 value) ∅ ∅;
  Ok (mkDiff parent_ a r).

(** ** The service *)

(** The database column and the cache. *)
Record Service := mkService {
  db : gmap Z (list byte);
  stateinfo_cache : gmap Z (list ShortStateInfo)
}.

Definition get_statediff (s : Service) (h : Z) : result error StateDiff :=
  value ← ok_or (db s !! h) Missing;
  decode_statediff value.

Definition save_statediff (s : Service) (h : Z) (diff : StateDiff) : Service :=
  mkService (<[h := encode_statediff diff]> (db s)) (stateinfo_cache s).

Definition clear_cache (s : Service) : Service := mkService (db s) ∅.

(** The head of the list is the last frame of the vector. *)
Definition push_frame (h : Z) (diff : StateDiff) (stack : list ShortStateInfo) :
    result error (list ShortStateInfo) :=
  match stack with
  | [] => Err Panic
  | top :: _ =>
      let full := (full_state top ∪ added diff) ∖ removed diff in
      Ok (mkInfo h full (added diff) (removed diff) :: stack)
  end.

Section Cache.
(** What the LRU cache drops when a frame stack is inserted. *)
Context (evict : gmap Z (list ShortStateInfo) -> gmap Z (list ShortStateInfo)).

Definition cache_insert (s : Service) (h : Z) (stack : list ShortStateInfo) : Service :=
  mkService (db s) (evict (<[h := stack]> (stateinfo_cache s))).

(** [load_shortstatehash_info] and [new_shortstatehash_info], which call each
    other along the parents. *)
Fixpoint load_shortstatehash_info (fuel : nat) (s : Service) (h : Z) :
    result error (Service * list ShortStateInfo) :=
  match stateinfo_cache s !! h with
  | Some stack => Ok (s, stack)
  | None =>
      match fuel with
      | O => Err Diverges
      | S fuel =>
          diff ← get_statediff s h;
          '(s, stack) ←
            match parent diff with
            | None => Ok (s, [mkInfo h (added diff) (added diff) (removed diff)])
            | Some p =>
                '(s, stack) ← load_shortstatehash_info fuel s p;
                stack ← push_frame h diff stack;
                Ok (s, stack)
            end;
          Ok (cache_insert s h stack, stack)
      end
  end.

(** ** Saving *)

(** The two loops of [merge_into_parent]. *)
Definition merge_removed (acc : CompressedState * CompressedState) (r : Entry) :
    CompressedState * CompressedState :=
  let '(parent_new, parent_removed) := acc in
  if decide (r ∈ parent_new) then (parent_new ∖ {[r]}, parent_removed)
  else (parent_new, {[r]} ∪ parent_removed).

Definition merge_new (acc : CompressedState * CompressedState) (n : Entry) :
    CompressedState * CompressedState :=
  let '(parent_new, parent_removed) := acc in
  if decide (n ∈ parent_removed) then (parent_new, parent_removed ∖ {[n]})
  else ({[n]} ∪ parent_new, parent_removed).

Definition merge_into_parent (p : ShortStateInfo) (statediffnew statediffremoved : CompressedState) :
    CompressedState * CompressedState :=
  foldl merge_new
    (foldl merge_removed (info_added p, info_removed p) (btree_iter statediffremoved))
    (btree_iter statediffnew).

(** [BTreeSet::len] *)
Definition len (X : CompressedState) : Z := Z.of_nat (size X).

(** [checked!(a + b)?] *)
Definition checked_add (a b : Z) : result error Z := ok_or (u64_checked_add a b) Arithmetic.
Definition checked_mul (a b : Z) : result error Z := ok_or (u64_checked_mul a b) Arithmetic.

(** Pops one parent per recursive call. *)
Fixpoint save_state_from_diff (s : Service) (h : Z)
    (statediffnew statediffremoved : CompressedState) (diff_to_sibling : Z)
    (parent_states : list ShortStateInfo) : result error Service :=
  diffsum ← checked_add (len statediffnew) (len statediffremoved);
  match parent_states with
  | [] => Ok (save_statediff s h (mkDiff None statediffnew statediffremoved))
  | p :: rest =>
      let merge :=
        let '(parent_new, parent_removed) := merge_into_parent p statediffnew statediffremoved in
        save_state_from_diff s h parent_new parent_removed diffsum rest in
      if (3 <? length parent_states)%nat then merge
      else
        parent_diff ← checked_add (len (info_added p)) (len (info_removed p));
        lhs ← checked_mul diffsum diffsum;
        twice ← checked_mul 2 diff_to_sibling;
        rhs ← checked_mul twice parent_diff;
        if rhs <=? lhs then merge
        else Ok (save_statediff s h
                   (mkDiff (Some (shortstatehash p)) statediffnew statediffremoved))
  end.

(** [HashSetCompressStateEvent] *)
Record Saved := mkSaved {
  saved_hash : Z;
  saved_added : CompressedState;
  saved_removed : CompressedState
}.

(** [save_state]: the room's current short state hash and the answer of
    [get_or_create_shortstatehash] for the new state are given. *)
Definition save_state (fuel : nat) (s : Service) (previous_shortstatehash : option Z)
    (new_state : CompressedState) (new_shortstatehash : Z) (already_existed : bool) :
    result error (Service * Saved) :=
  if bool_decide (Some new_shortstatehash = previous_shortstatehash)
  then Ok (s, mkSaved new_shortstatehash ∅ ∅)
  else
    '(s, states_parents) ←
      match previous_shortstatehash with
      | Some p =>
          match load_shortstatehash_info fuel s p with
          | Err Missing | Err Arithmetic => Ok (s, [])
          | r => r
          end
      | None => Ok (s, [])
      end;
    let '(statediffnew, statediffremoved) :=
      match states_parents with
      | parent_stateinfo :: _ =>
          (new_state ∖ full_state parent_stateinfo, full_state parent_stateinfo ∖ new_state)
      | [] => (new_state, ∅)
      end in
    s ← (if already_existed : bool then Ok s
         else save_state_from_diff s new_shortstatehash statediffnew statediffremoved 2
                states_parents);
    Ok (s, mkSaved new_shortstatehash statediffnew statediffremoved).

(** [hash::sha256::delimited]: the inputs with a separator byte between them. *)
Definition delimited (sha256 : list byte -> list byte) (inputs : list (list byte)) : list byte :=
  sha256 (match inputs with
          | [] => []
          | input :: inputs => input ++ mjoin ((fun i => Byte.xff :: i) <$> inputs)
          end).

(** [save_state] with the short id of the new state drawn where the code draws it. *)
Definition save_room_state (sha256 : list byte -> list byte) (fuel : nat) (sh : Short.Service)
    (s : Service) (previous_shortstatehash : option Z) (new_state : CompressedState) :
    result error (Short.Service * Service * Saved) :=
  match Short.get_or_create_shortstatehash sh (delimited sha256 (btree_iter new_state)) with
  | Err _ => Err Panic
  | Ok (sh, (new_shortstatehash, already_existed)) =>
      '(s, saved) ← save_state fuel s previous_shortstatehash new_state new_shortstatehash
                      already_existed;
      Ok (sh, s, saved)
  end.

End Cache.

(** ** The stored form reads back *)

Lemma compress_parse k v :
  is_u64 k -> is_u64 v ->
  parse_compressed_state_event (compress_state_event k v) = Some (k, v).
Proof.
  intros Hk Hv. unfold parse_compressed_state_event, compress_state_event, Bytes.u64_from_u8.
  rewrite take_app_length', drop_app_length' by (by rewrite length_be_bytes).
  by rewrite !Bytes.u64_from_be_bytes.
Qed.

(** An entry as stored; its state key is never zero, since short ids count from
    one. *)
Definition entry (e : list byte) : Prop := length e = 16%nat.
Definition live (e : list byte) : Prop := entry e /\ take 8 e <> ZERO.

Record diff_ok (d : StateDiff) : Prop := {
  ok_added e : e ∈ added d -> live e;
  ok_removed e : e ∈ removed d -> entry e;
  ok_parent p : parent d = Some p -> is_u64 p /\ p <> 0
}.

Lemma btree_iter_elem X e : e ∈ btree_iter X <-> e ∈ X.
Proof. unfold btree_iter. by rewrite sort_by_key_perm, elem_of_elements. Qed.

Lemma btree_iter_set X : (list_to_set (btree_iter X) : gset (list byte)) = X.
Proof. apply set_eq. intros e. by rewrite elem_of_list_to_set, btree_iter_elem. Qed.

Lemma length_ZERO : length ZERO = 8%nat.
Proof. done. Qed.

Lemma live_not_prefix e : live e -> ~ ZERO `prefix_of` e.
Proof. intros [He Hz] [k ->]. apply Hz. by rewrite take_app_length'. Qed.

Lemma decode_added es fuel T A R :
  Forall live es ->
  decode_entries (length es + fuel) true (mjoin es ++ T) A R =
  decode_entries fuel true T (list_to_set es ∪ A) R.
Proof.
  intros Hes. revert A. induction Hes as [|e es [He Hz] Hes IH]; intros A.
  { cbn. by rewrite union_empty_l_L. }
  change (mjoin (e :: es)) with (e ++ mjoin es). rewrite <-app_assoc.
  cbn [length Nat.add decode_entries]. rewrite length_app, He.
  destruct (Nat.ltb_spec (16 + length (mjoin es ++ T)) 16); [lia|].
  rewrite (take_app_length' e _ 16), (drop_app_length' e _ 16) by (symmetry; apply He).
  rewrite bool_decide_eq_false_2 by (by apply live_not_prefix). cbn [andb].
  rewrite IH. f_equal. cbn. set_solver.
Qed.

Lemma decode_removed es fuel T A R :
  Forall entry es ->
  decode_entries (length es + fuel) false (mjoin es ++ T) A R =
  decode_entries fuel false T A (list_to_set es ∪ R).
Proof.
  intros Hes. revert R. induction Hes as [|e es He Hes IH]; intros R.
  { cbn. by rewrite union_empty_l_L. }
  change (mjoin (e :: es)) with (e ++ mjoin es). rewrite <-app_assoc.
  cbn [length Nat.add decode_entries]. rewrite length_app, He.
  destruct (Nat.ltb_spec (16 + length (mjoin es ++ T)) 16); [lia|].
  rewrite (take_app_length' e _ 16), (drop_app_length' e _ 16) by (symmetry; apply He). cbn [andb].
  rewrite IH. f_equal. cbn. set_solver.
Qed.

(** The switch to the removed entries, of which there is at least one. *)
Lemma decode_switch fuel e es A R :
  entry e ->
  decode_entries (S fuel) true (ZERO ++ mjoin (e :: es)) A R =
  decode_entries fuel false (mjoin (e :: es)) A R.
Proof.
  intros He. change (mjoin (e :: es)) with (e ++ mjoin es).
  cbn [decode_entries]. rewrite !length_app, length_ZERO, He.
  destruct (Nat.ltb_spec (8 + (16 + length (mjoin es))) 16); [lia|].
  rewrite bool_decide_eq_true_2.
  - cbn [andb]. by rewrite drop_app_length'.
  - rewrite take_app_ge by (rewrite length_ZERO; lia). by apply prefix_app_r.
Qed.

Lemma length_mjoin_entries es : Forall entry es -> length (mjoin es) = (16 * length es)%nat.
Proof.
  induction 1 as [|e es He Hes IH]; [done|].
  change (mjoin (e :: es)) with (e ++ mjoin es). rewrite length_app, IH, He. cbn. lia.
Qed.

Lemma decode_end fuel mode A R : decode_entries fuel mode [] A R = Ok (A, R).
Proof. by destruct fuel. Qed.

Lemma statediff_decodes d : diff_ok d -> decode_statediff (encode_statediff d) = Ok d.
Proof.
  intros [Ha Hr Hp]. unfold decode_statediff, encode_statediff.
  set (es := btree_iter (added d)). set (rs := btree_iter (removed d)).
  assert (Hes : Forall live es)
    by (apply Forall_forall; intros e He; apply Ha; by apply btree_iter_elem).
  assert (Hrs : Forall entry rs)
    by (apply Forall_forall; intros e He; apply Hr; by apply btree_iter_elem).
  assert (Hes' : Forall entry es) by (eapply Forall_impl; [done|by intros ? []]).
  pose proof (length_mjoin_entries es Hes') as Hles.
  pose proof (length_mjoin_entries rs Hrs) as Hlrs.
  rewrite length_app, length_be_bytes.
  destruct (Nat.ltb_spec (8 + length (mjoin es ++ (if decide (removed d = ∅) then []
    else ZERO ++ mjoin rs))) 8); [lia|].
  rewrite take_app_length', drop_app_length' by (by rewrite length_be_bytes).
  assert (Hparent : match Bytes.u64_from_bytes (be_bytes 8 (default 0 (parent d))) with
    | Some p => if bool_decide (p = 0) then None else Some p | None => None end = parent d).
  { destruct (parent d) as [p|] eqn:Ep; cbn [default].
    - destruct (Hp p eq_refl). rewrite Bytes.u64_from_be_bytes by done.
      by rewrite bool_decide_eq_false_2.
    - rewrite Bytes.u64_from_be_bytes by int_solve. done. }
  rewrite Hparent.
  assert (Hdec : decode_entries (8 + length (mjoin es ++ (if decide (removed d = ∅) then []
      else ZERO ++ mjoin rs))) true
      (mjoin es ++ (if decide (removed d = ∅) then [] else ZERO ++ mjoin rs)) ∅ ∅
    = Ok (added d, removed d)).
  { rewrite length_app, Hles. destruct (decide (removed d = ∅)) as [He|Hne].
    - replace (8 + (16 * length es + length []))%nat with
        (length es + (8 + 15 * length es))%nat by (cbn; lia).
      rewrite decode_added, decode_end by done. unfold es. rewrite btree_iter_set, He.
      by rewrite union_empty_r_L.
    - rewrite length_app, length_ZERO, Hlrs.
      replace (8 + (16 * length es + (8 + 16 * length rs)))%nat with
        (length es + S (length rs + (15 + 15 * length es + 15 * length rs)))%nat by lia.
      rewrite decode_added by done.
      destruct rs as [|e rs'] eqn:Er.
      { destruct Hne. rewrite <-(btree_iter_set (removed d)). fold rs. by rewrite Er. }
      rewrite decode_switch by (by apply Forall_cons in Hrs as [? _]).
      rewrite <-(app_nil_r (mjoin (e :: rs'))), decode_removed, decode_end by done.
      rewrite <-Er. unfold es, rs. rewrite !btree_iter_set. by rewrite !union_empty_r_L. }
  rewrite Hdec. cbn. by destruct d.
Qed.

(** ** Merging a difference into its parent's *)

Lemma NoDup_btree_iter X : NoDup (btree_iter X).
Proof. unfold btree_iter. rewrite sort_by_key_perm. apply NoDup_elements. Qed.

Lemma merge_removed_all l A D :
  NoDup l ->
  foldl merge_removed (A, D) l = (A ∖ list_to_set l, D ∪ (list_to_set l ∖ A)).
Proof.
  intros Hl. revert A D. induction Hl as [|r l Hr Hl IH]; intros A D; cbn [foldl].
  { f_equal; set_solver. }
  cbn [merge_removed]. destruct (decide (r ∈ A)); rewrite IH; f_equal; [set_solver| |set_solver..].
  apply set_eq. intros x. set_unfold. destruct (decide (x = r)); naive_solver.
Qed.

Lemma merge_new_all l A D :
  NoDup l ->
  foldl merge_new (A, D) l = (A ∪ (list_to_set l ∖ D), D ∖ list_to_set l).
Proof.
  intros Hl. revert A D. induction Hl as [|r l Hr Hl IH]; intros A D; cbn [foldl].
  { f_equal; set_solver. }
  cbn [merge_new]. destruct (decide (r ∈ D)); rewrite IH; f_equal; [|set_solver..].
  apply set_eq. intros x. set_unfold. destruct (decide (x = r)); naive_solver.
Qed.

Lemma merge_into_parent_sets p N R :
  merge_into_parent p N R =
  ((info_added p ∖ R) ∪ (N ∖ (info_removed p ∪ (R ∖ info_added p))),
   (info_removed p ∪ (R ∖ info_added p)) ∖ N).
Proof.
  unfold merge_into_parent.
  rewrite merge_removed_all, merge_new_all by apply NoDup_btree_iter.
  by rewrite !btree_iter_set.
Qed.

(** [A] and [D] lead from the state [B] to the state [S], without redundancy. *)
Record leads (B A D S : CompressedState) : Prop := {
  leads_added : A ## B;
  leads_removed : D ⊆ B;
  leads_to : (B ∪ A) ∖ D = S
}.

Lemma merge_leads B p N R F S :
  leads B (info_added p) (info_removed p) F ->
  leads F N R S ->
  let '(A', D') := merge_into_parent p N R in leads B A' D' S.
Proof.
  intros [Ha Hr HF] [Hn Hrem HS]. rewrite merge_into_parent_sets.
  assert (HF' : forall e, e ∈ F <-> (e ∈ B \/ e ∈ info_added p) /\ e ∉ info_removed p)
    by (intros e; rewrite <-HF; set_solver).
  split.
  - intros e. specialize (Hn e). specialize (Ha e). specialize (HF' e). set_unfold.
    destruct (decide (e ∈ info_removed p)); naive_solver.
  - intros e. specialize (Hrem e). specialize (Hr e). specialize (HF' e). set_unfold. naive_solver.
  - rewrite <-HS. apply set_eq. intros e.
    specialize (Hn e). specialize (Ha e). specialize (HF' e). specialize (Hrem e).
    specialize (Hr e). set_unfold.
    destruct (decide (e ∈ info_removed p)), (decide (e ∈ info_added p)), (decide (e ∈ B)),
      (decide (e ∈ N)), (decide (e ∈ R)); naive_solver.
Qed.

(** ** Layers *)

(** Room states have at most this many entries; below it no length computation
    of [save_state_from_diff] leaves 64 bits. *)
Definition STATE_MAX : nat := Z.to_nat (2 ^ 30).

Lemma STATE_MAX_Z : Z.of_nat STATE_MAX = 2 ^ 30.
Proof. unfold STATE_MAX. lia. Qed.
#[global] Opaque STATE_MAX.

Record state_ok (S : CompressedState) : Prop := {
  state_live e : e ∈ S -> live e;
  state_size : (size S <= STATE_MAX)%nat
}.

Definition hash_ok (h : Z) : Prop := is_u64 h /\ h <> 0.

(** The state below a stack of frames. *)
Definition base (stack : list ShortStateInfo) : CompressedState :=
  match stack with [] => ∅ | f :: _ => full_state f end.

Inductive wf_stack : list ShortStateInfo -> Prop :=
  | wf_nil : wf_stack []
  | wf_cons f rest :
      wf_stack rest -> hash_ok (shortstatehash f) -> state_ok (full_state f) ->
      leads (base rest) (info_added f) (info_removed f) (full_state f) ->
      wf_stack (f :: rest).

(** The frames the database holds for [h], the frame of [h] first. *)
Inductive chain (m : gmap Z (list byte)) : Z -> list ShortStateInfo -> Prop :=
  | chain_root h v a r :
      m !! h = Some v -> decode_statediff v = Ok (mkDiff None a r) ->
      chain m h [mkInfo h a a r]
  | chain_layer h v p a r top rest :
      m !! h = Some v -> decode_statediff v = Ok (mkDiff (Some p) a r) ->
      chain m p (top :: rest) ->
      chain m h (mkInfo h ((full_state top ∪ a) ∖ r) a r :: top :: rest).

Lemma chain_func m h st st' : chain m h st -> chain m h st' -> st = st'.
Proof.
  intros H. revert st'. induction H as [h v a r Hv Hd|h v p a r top rest Hv Hd H IH];
    intros st' H'; inversion H' as [? ? ? ? Hv' Hd'|? ? ? ? ? ? ? Hv' Hd' H'']; subst;
    rewrite Hv in Hv'; simplify_eq; rewrite Hd in Hd'; simplify_eq; [done|].
  specialize (IH _ H''). by simplify_eq.
Qed.

Lemma chain_head m h st : chain m h st -> exists f rest, st = f :: rest /\ shortstatehash f = h.
Proof. intros []; eauto. Qed.

Lemma chain_tail m h f g rest :
  chain m h (f :: g :: rest) -> chain m (shortstatehash g) (g :: rest).
Proof.
  intros H. inversion H as [|? ? p ? ? ? ? ? ? Hp]; subst.
  destruct (chain_head _ _ _ Hp) as (? & ? & ? & <-). by simplify_eq.
Qed.

Lemma chain_suffix m h st f rest :
  chain m h st -> (f :: rest) `suffix_of` st -> chain m (shortstatehash f) (f :: rest).
Proof.
  intros H. induction H; intros Hs.
  - apply suffix_cons_inv in Hs as [Hs|Hs].
    + simplify_eq. by econstructor.
    + apply suffix_nil_inv in Hs. done.
  - apply suffix_cons_inv in Hs as [Hs|Hs]; [|by apply IHchain].
    simplify_eq. by econstructor.
Qed.

Lemma chain_insert m h v h' st :
  m !! h = None -> chain m h' st -> chain (<[h := v]> m) h' st.
Proof.
  intros Hh. induction 1;
    (assert (h <> h0) by congruence); econstructor; eauto; by rewrite lookup_insert_ne.
Qed.

(** Putting a difference that leads from the base of a stored stack on top. *)
Lemma chain_extend m h d rest S :
  m !! h = None -> diff_ok d ->
  (forall f rest', rest = f :: rest' -> chain m (shortstatehash f) rest) ->
  parent d = shortstatehash <$> head rest ->
  leads (base rest) (added d) (removed d) S ->
  chain (<[h := encode_statediff d]> m) h (mkInfo h S (added d) (removed d) :: rest).
Proof.
  intros Hh Hd Hrest Hp [Ha Hr <-].
  pose proof (statediff_decodes d Hd) as Hdec. revert Hdec. generalize (encode_statediff d).
  intros v Hdec. clear Hd. destruct d as [q a r]. cbn [added removed parent] in *. subst q.
  destruct rest as [|f rest']; cbn [base] in *.
  - replace ((∅ ∪ a) ∖ r) with a
      by (assert (r = ∅) as -> by set_solver; by rewrite union_empty_l_L, difference_empty_L).
    econstructor; [by rewrite lookup_insert_eq|exact Hdec].
  - econstructor; [by rewrite lookup_insert_eq|exact Hdec|].
    apply chain_insert; [done|]. by apply (Hrest f rest').
Qed.

(** ** Saving a difference *)

Lemma leads_size B A D S :
  leads B A D S -> state_ok S -> (size B <= STATE_MAX)%nat -> 0 <= len A + len D <= 2 ^ 31.
Proof.
  intros [Ha Hd HS] [_ Hs] HB. unfold len.
  assert (size A <= size S)%nat by (apply subseteq_size; set_solver).
  assert (size D <= size B)%nat by (by apply subseteq_size).
  pose proof STATE_MAX_Z. lia.
Qed.

Lemma wf_base_size st : wf_stack st -> (size (base st) <= STATE_MAX)%nat.
Proof. intros []; cbn; [rewrite size_empty; lia|]. by apply state_size. Qed.

Lemma checked_add_ok a b : 0 <= a + b <= u64_max -> checked_add a b = Ok (a + b).
Proof. intros. unfold checked_add. apply ok_or_ok, in_range_Some. lia. Qed.

Lemma checked_mul_ok a b : 0 <= a * b <= u64_max -> checked_mul a b = Ok (a * b).
Proof. intros. unfold checked_mul. apply ok_or_ok, in_range_Some. lia. Qed.

Lemma leads_diff_ok st A D S :
  wf_stack st -> leads (base st) A D S -> state_ok S ->
  diff_ok (mkDiff (shortstatehash <$> head st) A D).
Proof.
  intros Hst [Ha Hd HS] [Hl _]. split; cbn [added removed parent].
  - intros e He. apply Hl. set_solver.
  - intros e He. apply Hd in He. destruct Hst as [|f rest ? ? [Hlive _]]; [set_solver|].
    by apply Hlive.
  - intros p Hp. destruct Hst; by simplify_eq/=.
Qed.

(** Where a difference against the top of a stack is finally stored: on some
    suffix of at most three frames, from which it leads to the same state. *)
Record stored_on (st rest : list ShortStateInfo) (d : StateDiff) (S : CompressedState) : Prop := {
  on_suffix : rest `suffix_of` st;
  on_depth : (length rest <= 3)%nat;
  on_parent : parent d = shortstatehash <$> head rest;
  on_leads : leads (base rest) (added d) (removed d) S
}.

Lemma save_stores (s : Service) (h : Z) (S : CompressedState) st N R sib :
  wf_stack st -> leads (base st) N R S -> state_ok S -> 0 <= sib <= 2 ^ 31 ->
  exists d rest, save_state_from_diff s h N R sib st = Ok (save_statediff s h d) /\
    stored_on st rest d S.
Proof.
  intros Hst. revert N R sib. induction Hst as [|f rest Hrest IH Hh Hf Hl]; intros N R sib HS Hok Hsib.
  - pose proof (leads_size _ _ _ _ HS Hok (wf_base_size [] wf_nil)).
    exists (mkDiff None N R), []. split; [|split; [apply suffix_nil|cbn; lia|done|done]].
    cbn [save_state_from_diff]. by rewrite checked_add_ok by int_solve.
  - cbn [base] in HS.
    pose proof (leads_size _ _ _ _ HS Hok (state_size _ Hf)) as Hsum.
    pose proof (leads_size _ _ _ _ Hl Hf (wf_base_size _ Hrest)) as Hpar.
    pose proof (merge_leads _ _ _ _ _ _ Hl HS) as Hm.
    destruct (merge_into_parent f N R) as [A' D'] eqn:Em.
    destruct (IH A' D' (len N + len R) Hm Hok Hsum) as (d & rest' & Hsave & [? ? ? ?]).
    cbn [save_state_from_diff]. rewrite (checked_add_ok (len N) (len R)) by int_solve.
    cbn [mbind result_bind]. rewrite Em. cbv beta iota zeta. rewrite Hsave.
    assert (stored_on (f :: rest) rest' d S) by (split; [by apply suffix_cons_r|done..]).
    destruct (Nat.ltb_spec 3 (length (f :: rest))); [by eauto|].
    rewrite checked_add_ok by int_solve. cbn [mbind result_bind].
    rewrite (checked_mul_ok (_ + _) (_ + _)) by (unfold u64_max; nia). cbn [mbind result_bind].
    rewrite (checked_mul_ok 2 sib) by int_solve. cbn [mbind result_bind].
    rewrite checked_mul_ok by (unfold u64_max; nia).
    cbn [mbind result_bind]. destruct (_ <=? _); [by eauto|].
    exists (mkDiff (Some (shortstatehash f)) N R), (f :: rest). split; [done|].
    split; [done|lia|done|done].
Qed.

(** ** The service represents a map from short hashes to states *)

(** Every state is stored in at most four layers, and the cache agrees with the
    database. *)
Record represents (s : Service) (M : gmap Z CompressedState) : Prop := {
  rep_dom h : is_Some (db s !! h) -> is_Some (M !! h);
  rep_chain h S : M !! h = Some S ->
    exists f rest, chain (db s) h (f :: rest) /\ wf_stack (f :: rest) /\
      (length (f :: rest) <= 4)%nat /\ full_state f = S;
  rep_cache h st : stateinfo_cache s !! h = Some st -> chain (db s) h st
}.

Lemma represents_empty : represents (mkService ∅ ∅) ∅.
Proof. split; cbn; intros ?; [intros [? ?]|intros ? ?..]; by simplify_map_eq. Qed.

Lemma chain_stored m h st : chain m h st -> is_Some (m !! h).
Proof. intros []; eauto. Qed.

Lemma represents_absent s M h :
  represents s M -> M !! h = None -> db s !! h = None /\ stateinfo_cache s !! h = None.
Proof.
  intros [Hd _ Hc] HM.
  assert (db s !! h = None).
  { destruct (db s !! h) eqn:E; [|done]. destruct (Hd h) as [? ?]; [by eauto|congruence]. }
  split; [done|]. destruct (stateinfo_cache s !! h) eqn:E; [|done].
  apply Hc, chain_stored in E as [? ?]. congruence.
Qed.

Section Refinement.
Context (evict : gmap Z (list ShortStateInfo) -> gmap Z (list ShortStateInfo)).
Context `{!Evicts evict}.

Abbreviation load := (load_shortstatehash_info evict) (only parsing).

Definition coherent (s : Service) : Prop :=
  forall h st, stateinfo_cache s !! h = Some st -> chain (db s) h st.

Lemma cache_insert_coherent s h st :
  coherent s -> chain (db s) h st -> coherent (cache_insert evict s h st).
Proof.
  intros Hs Hst h' st' [[<- <-]|H]%evict_insert_Some; auto.
Qed.

Lemma load_hit fuel s h st :
  coherent s -> chain (db s) h st -> is_Some (stateinfo_cache s !! h) ->
  load fuel s h = Ok (s, st).
Proof.
  intros Hs Hst [st' E]. pose proof (chain_func _ _ _ _ Hst (Hs _ _ E)) as ->.
  destruct fuel; cbn; by rewrite E.
Qed.

Lemma load_chain m h st :
  chain m h st -> forall fuel s, db s = m -> coherent s -> (length st <= fuel)%nat ->
  exists s', load fuel s h = Ok (s', st) /\ db s' = m /\ coherent s'.
Proof.
  intros Hst. pose proof Hst as Hall.
  induction Hst as [h v a r Hv Hd|h v p a r top rest Hv Hd Hst IH]; intros [|fuel] s Hm Hs Hlen;
    cbn [length] in Hlen; try lia;
    (destruct (stateinfo_cache s !! h) eqn:E;
      [exists s; rewrite <-Hm in Hall; by rewrite (load_hit _ s _ _ Hs Hall)|]);
    cbn [load_shortstatehash_info]; rewrite E; unfold get_statediff; rewrite Hm, Hv;
    cbn [ok_or mbind result_bind]; rewrite Hd; cbn [mbind result_bind parent added removed].
  - eexists. split; [done|]. split; [done|]. apply cache_insert_coherent; [done|by rewrite Hm].
  - destruct (IH Hst fuel s Hm Hs) as (s' & -> & Hm' & Hs'); [cbn; lia|].
    cbn [mbind result_bind push_frame]. eexists. split; [done|]. split; [done|].
    apply cache_insert_coherent; [done|by rewrite Hm'].
Qed.

Lemma load_represents fuel s M h S :
  represents s M -> M !! h = Some S -> (4 <= fuel)%nat ->
  exists s' f rest, load fuel s h = Ok (s', f :: rest) /\ full_state f = S /\
    chain (db s') h (f :: rest) /\ wf_stack (f :: rest) /\ represents s' M.
Proof.
  intros [Hd Hc Hcache] HM Hfuel. destruct (Hc h S HM) as (f & rest & Hst & Hwf & Hlen & HS).
  destruct (load_chain _ _ _ Hst fuel s eq_refl Hcache) as (s' & Hload & Hdb & Hs'); [lia|].
  exists s', f, rest. rewrite Hdb. split_and!; try done. split; rewrite ?Hdb; try done.
  intros h' st'. rewrite <-Hdb. apply Hs'.
Qed.

(** Storing a new state on top of a stored stack, or of nothing. *)
Lemma store_represents s M h S N R st :
  represents s M -> M !! h = None -> hash_ok h -> state_ok S ->
  wf_stack st -> (forall f rest, st = f :: rest -> chain (db s) (shortstatehash f) st) ->
  leads (base st) N R S ->
  exists s', save_state_from_diff s h N R 2 st = Ok s' /\ represents s' (<[h := S]> M).
Proof.
  intros Hrep HM Hh HS Hwf Hst Hleads.
  destruct (represents_absent _ _ _ Hrep HM) as [Hdb Hcache]. destruct Hrep as [Hd Hc Hca].
  destruct (save_stores s h S st N R 2) as (d & rest & Hsave & [Hsuf Hdepth Hpar Hl]); try done.
  exists (save_statediff s h d). split; [done|].
  assert (Hwf' : wf_stack rest).
  { destruct Hsuf as [k ->]. clear -Hwf. induction k; [done|]. apply IHk. by inversion Hwf. }
  assert (Hok : diff_ok d).
  { pose proof (leads_diff_ok _ _ _ _ Hwf' Hl HS) as Hok. by destruct d; cbn in *; subst. }
  assert (Hnew : chain (db (save_statediff s h d)) h (mkInfo h S (added d) (removed d) :: rest)).
  { apply chain_extend; try done. intros f rest' ->. destruct st as [|g st].
    - by apply suffix_nil_inv in Hsuf.
    - by apply (chain_suffix _ _ _ _ _ (Hst g st eq_refl)). }
  split.
  - intros h' [v Hv]. cbn in Hv. rewrite lookup_insert_is_Some'.
    apply lookup_insert_Some in Hv as [[-> _]|[_ Hv]]; [by left|right; by eauto].
  - intros h' S' H'. apply lookup_insert_Some in H' as [[<- <-]|[Hne H']].
    + eexists _, rest. split; [exact Hnew|]. split; [|cbn; split; [lia|done]].
      by constructor.
    + destruct (Hc h' S' H') as (f & r & Hch & ? & ? & ?). exists f, r.
      split; [by apply chain_insert|done].
  - intros h' st' H'. cbn in H'. by apply chain_insert, Hca.
Qed.

(** What [save_state] does, for each answer of the other services. *)
Lemma save_state_represents fuel s M prev S h existed :
  represents s M -> (4 <= fuel)%nat ->
  (forall p, prev = Some p -> is_Some (M !! p)) ->
  M !! h = (if existed : bool then Some S else None) ->
  hash_ok h -> state_ok S ->
  exists s' saved, save_state evict fuel s prev S h existed = Ok (s', saved) /\
    represents s' (<[h := S]> M) /\ saved_hash saved = h /\
    leads (default ∅ (prev ≫= fun p => M !! p)) (saved_added saved) (saved_removed saved) S.
Proof.
  intros Hrep Hfuel Hprev HM Hh HS.
  assert (Hsame : existed = true -> <[h := S]> M = M) by (intros ->; by apply insert_id).
  unfold save_state. case_bool_decide as Heq.
  { subst prev. destruct (Hprev h eq_refl) as [S' HS']. cbn [mbind option_bind].
    destruct existed; [|congruence]. rewrite Hsame, HM by done.
    eexists _, _. split; [done|]. split; [done|]. split; [done|]. cbn. split; set_solver. }
  assert (Hfin : forall s1 st, represents s1 M -> wf_stack st ->
    (forall f rest, st = f :: rest -> chain (db s1) (shortstatehash f) st) ->
    forall N R, leads (base st) N R S -> exists s' saved,
      (s' ← (if existed then Ok s1 else save_state_from_diff s1 h N R 2 st);
       Ok (s', mkSaved h N R)) = Ok (s', saved) /\
      represents s' (<[h := S]> M) /\ saved = mkSaved h N R).
  { intros s1 st Hs1 Hwf Hst N R Hl. destruct existed.
    - rewrite Hsame by done. cbn. eauto.
    - destruct (store_represents s1 M h S N R st) as (s' & -> & ?); try done. cbn. eauto. }
  destruct prev as [p|]; cbn [mbind option_bind result_bind].
  - destruct (Hprev p eq_refl) as [F HF].
    destruct (load_represents fuel s M p F) as (s1 & f & rest & -> & <- & Hch & Hwf & Hs1); try done.
    assert (Hl : leads (full_state f) (S ∖ full_state f) (full_state f ∖ S) S).
    { split; [set_solver..|]. apply set_eq. intros e. set_unfold.
      destruct (decide (e ∈ full_state f)), (decide (e ∈ S)); naive_solver. }
    destruct (Hfin s1 (f :: rest) Hs1 Hwf) with (2 := Hl) as (s' & saved & Hr & ? & ->).
    { intros ? ? [= <- <-]. by apply (chain_suffix _ _ _ _ _ Hch). }
    exists s', (mkSaved h (S ∖ full_state f) (full_state f ∖ S)).
    rewrite HF. split; [exact Hr|done].
  - assert (Hl : leads ∅ S ∅ S) by (split; set_solver).
    destruct (Hfin s [] Hrep wf_nil) with (2 := Hl) as (s' & saved & Hr & ? & ->); [done|].
    eexists _, _. split; [exact Hr|done].
Qed.

End Refinement.

(** ** With the short ids *)

Lemma delimited_entries_inj (k l : list (list byte)) :
  Forall entry k -> Forall entry l ->
  mjoin ((fun i => Byte.xff :: i) <$> k) = mjoin ((fun i => Byte.xff :: i) <$> l) -> k = l.
Proof.
  intros Hk. revert l. induction Hk as [|e k He Hk IH]; intros [|f l] Hl E; try done.
  apply Forall_cons in Hl as [Hf Hl]. unfold entry in *. cbn in E. injection E as E.
  apply app_inj_1 in E as [-> E]; [|congruence]. f_equal. by apply IH.
Qed.

Section Named.
Context (sha256 : list byte -> list byte).

(** The name of a state. *)
Definition state_hash (S : CompressedState) : list byte := delimited sha256 (btree_iter S).

(** No two inputs have the same digest. *)
Context (collision_free : forall x y, sha256 x = sha256 y -> x = y).

Lemma state_hash_inj S S' : state_ok S -> state_ok S' -> state_hash S = state_hash S' -> S = S'.
Proof.
  intros [HS _] [HS' _] E%collision_free. rewrite <-(btree_iter_set S), <-(btree_iter_set S').
  assert (Hk : Forall entry (btree_iter S))
    by (apply Forall_forall; intros e He; apply HS; by apply btree_iter_elem).
  assert (Hl : Forall entry (btree_iter S'))
    by (apply Forall_forall; intros e He; apply HS'; by apply btree_iter_elem).
  f_equal. destruct Hk as [|e k He Hk], Hl as [|f l Hf Hl]; [done|..]; unfold entry in *.
  - destruct f; [done|]. discriminate E.
  - destruct e; [done|]. discriminate E.
  - apply app_inj_1 in E as [-> E]; [|congruence]. f_equal. by apply delimited_entries_inj.
Qed.

(** The short ids of states are those of the states stored. *)
Record linked (sh : Short.Service) (M : gmap Z CompressedState) : Prop := {
  linked_short : Short.wf sh;
  linked_states h S : M !! h = Some S ->
    state_ok S /\ Short.statehash_shortstatehash sh !! state_hash S = Some h;
  linked_hashes x h : Short.statehash_shortstatehash sh !! x = Some h ->
    exists S, M !! h = Some S /\ x = state_hash S
}.

(** A number drawn for a state's hash. *)
Lemma linked_draw sh M S :
  linked sh M -> state_ok S -> ServerCounter.count (Short.counter sh) < u64_max ->
  exists sh' h existed, Short.get_or_create_shortstatehash sh (state_hash S) = Ok (sh', (h, existed)) /\
    hash_ok h /\ M !! h = (if existed : bool then Some S else None) /\
    linked sh' (<[h := S]> M).
Proof.
  intros Hl HS Hc. pose proof Hl as [Hw HM Hh].
  assert (Hbound : forall h x, Short.statehash_shortstatehash sh !! x = Some h -> hash_ok h).
  { intros h x Hx. pose proof (Short.good_bound _ Hw h (Short.THash x) ltac:(by left)).
    destruct (Short.good_counter _ Hw) as [Hq _]. cbn in *. split; int_solve. }
  unfold Short.get_or_create_shortstatehash.
  destruct (Short.statehash_shortstatehash sh !! state_hash S) as [h|] eqn:E.
  { exists sh, h, true. destruct (Hh _ _ E) as (S' & HS' & E').
    assert (S' = S) as -> by (symmetry; apply state_hash_inj; [done|by apply (HM h)|done]).
    split_and!; try done; [by eapply Hbound|]. by rewrite insert_id. }
  destruct (Short.get_or_create_spec sh (Short.THash (state_hash S)) Hw Hc)
    as (sh' & h & Hget & Hw' & [Hext Hcount] & Hfind & Hother).
  unfold Short.get_or_create in Hget. cbn [Short.find] in Hget. rewrite E in Hget.
  destruct (Short.next_count sh) as [[sh1 n]|] eqn:En; [|done]. cbn in Hget.
  injection Hget as <- <-. cbn [mbind result_bind].
  exists (Short.put_shortstatehash sh1 (state_hash S) n), n, false. split; [done|].
  destruct (Short.next_count_spec sh sh1 n (Short.good_counter _ Hw) En) as (Hw1 & En1 & En2 & Hf1 & _).
  assert (HMn : M !! n = None).
  { destruct (M !! n) as [S'|] eqn:Hn; [|done]. apply HM in Hn as [_ Hn].
    pose proof (Short.good_bound _ Hw n (Short.THash (state_hash S')) ltac:(by left)). cbn in *. lia. }
  split_and!; [|done|].
  { destruct (Short.good_counter _ Hw') as [Hq _]. destruct (Short.good_counter _ Hw) as [Hq' _].
    cbn in *. split; int_solve. }
  pose proof (Hf1 (Short.THash (state_hash S))) as Hsame.
  assert (Htab : Short.statehash_shortstatehash sh1 = Short.statehash_shortstatehash sh)
    by (apply map_eq; intros x; exact (Hf1 (Short.THash x))).
  split; [done|..]; cbn; rewrite Htab.
  - intros h S' [[<- <-]|[Hne HS']]%lookup_insert_Some.
    + split; [done|]. by rewrite lookup_insert_eq.
    + destruct (HM _ _ HS') as [Hok Hs']. split; [done|].
      rewrite lookup_insert_ne; [done|]. congruence.
  - intros x h [[<- <-]|[Hne Hx]]%lookup_insert_Some.
    + exists S. by rewrite lookup_insert_eq.
    + destruct (Hh _ _ Hx) as (S' & HS' & ->). exists S'. split; [|done].
      rewrite lookup_insert_ne; [done|]. congruence.
Qed.

End Named.

(** ** Properties *)

(** The stored form of a state difference reads back as the difference: the
    parent, the added and the removed entries, for differences whose added
    entries have a non-zero state key and whose parent, if any, is not zero. *)
Theorem statediff_roundtrip (d : StateDiff) :
  diff_ok d -> decode_statediff (encode_statediff d) = Ok d.
Proof. apply statediff_decodes. Qed.

(** Merging a difference into its parent's gives a difference from the
    grandparent that leads to the same state and again has nothing redundant: what it
    adds was not there, what it removes was. *)
Theorem merge_into_parent_composes (B F S N R : gset (list byte)) (p : ShortStateInfo) :
  leads B (info_added p) (info_removed p) F -> leads F N R S ->
  leads B (merge_into_parent p N R).1 (merge_into_parent p N R).2 S.
Proof.
  intros Hp HS. pose proof (merge_leads B p N R F S Hp HS) as H.
  by destruct (merge_into_parent p N R).
Qed.

(** Refinement of [load_shortstatehash_info]: on a service that represents the
    map [M] of short hashes to states it returns the frames of the state [M] has
    for the hash, the full state in the last one, for any eviction policy of the
    cache, and reports a missing difference for a hash outside [M]; the service
    still represents [M]. Recursion depth four is enough. *)
Theorem load_shortstatehash_refines
    (evict : gmap Z (list ShortStateInfo) -> gmap Z (list ShortStateInfo))
    (fuel : nat) (s : Service) (M : gmap Z (gset (list byte))) (h : Z) :
  Evicts evict -> represents s M -> (4 <= fuel)%nat ->
  match M !! h with
  | Some X => exists s' f rest, load_shortstatehash_info evict fuel s h = Ok (s', f :: rest) /\
      full_state f = X /\ represents s' M
  | None => load_shortstatehash_info evict fuel s h = Err Missing
  end.
Proof.
  intros Hev Hrep Hfuel. destruct (M !! h) as [X|] eqn:E.
  - destruct (load_represents evict fuel s M h X) as (s' & f & rest & ? & ? & ? & ? & ?);
      eauto 10.
  - destruct (represents_absent s M h Hrep E) as [Hdb Hc]. destruct fuel; [lia|].
    cbn [load_shortstatehash_info]. rewrite Hc. unfold get_statediff. by rewrite Hdb.
Qed.

(** C33: Refinement of [save_state]: on a service that represents the map [M] of
    short hashes to states, saving a state succeeds and leaves a service that
    represents [M] with the state at its short hash, the one it had or a new
    one, whatever layers it merged: every earlier state still loads unchanged, no
    state takes more than four layers and no length computation overflows. The
    difference returned leads from the room's previous state to the new one. *)
Theorem save_state_refines
    (sha256 : list byte -> list byte)
    (evict : gmap Z (list ShortStateInfo) -> gmap Z (list ShortStateInfo))
    (fuel : nat) (sh : Short.Service) (s : Service) (M : gmap Z (gset (list byte)))
    (prev : option Z) (S : gset (list byte)) :
  (forall x y, sha256 x = sha256 y -> x = y) -> Evicts evict ->
  represents s M -> linked sha256 sh M -> (4 <= fuel)%nat ->
  (forall p, prev = Some p -> is_Some (M !! p)) ->
  state_ok S -> ServerCounter.count (Short.counter sh) < u64_max ->
  exists sh' s' saved, save_room_state evict sha256 fuel sh s prev S = Ok (sh', s', saved) /\
    represents s' (<[saved_hash saved := S]> M) /\
    linked sha256 sh' (<[saved_hash saved := S]> M) /\
    leads (default ∅ (prev ≫= fun p => M !! p)) (saved_added saved) (saved_removed saved) S.
Proof.
  intros Hsha Hev Hrep Hlink Hfuel Hprev HS Hc.
  destruct (linked_draw sha256 Hsha sh M S Hlink HS Hc) as (sh' & h & existed & Hd & Hh & HM & Hl').
  unfold save_room_state. unfold state_hash in Hd. rewrite Hd.
  destruct (save_state_represents evict fuel s M prev S h existed) as
    (s' & saved & -> & Hr' & <- & Hleads); try done.
  cbn [mbind result_bind]. by eexists _, _, _.
Qed.

(** ** Witnesses *)

Lemma state_ok_list (l : list (list byte)) :
  Forall live l -> (length l <= 1000)%nat -> state_ok (list_to_set l).
Proof.
  intros Hl Hlen. split.
  - intros e He. rewrite elem_of_list_to_set in He. by eapply Forall_forall in He.
  - assert (size (list_to_set l : gset (list byte)) <= length l)%nat.
    { clear. induction l as [|e l IH]; [done|].
      change (list_to_set (e :: l)) with ({[e]} ∪ list_to_set l : gset (list byte)).
      cbn [length].
      rewrite size_union_alt, size_singleton.
      enough (size (list_to_set l ∖ {[e]} : gset (list byte))
        <= size (list_to_set l : gset (list byte)))%nat by lia.
      apply subseteq_size. set_solver. }
    pose proof STATE_MAX_Z. lia.
Qed.

Definition sample_state (v : Z) : gset (list byte) :=
  list_to_set [compress_state_event 1 v; compress_state_event 2 20].

Lemma sample_state_ok v : state_ok (sample_state v).
Proof. apply state_ok_list; [|cbn; lia]. repeat constructor; done. Qed.

Lemma statediff_roundtrip_witness :
  decode_statediff (encode_statediff (mkDiff (Some 7) (sample_state 10) ∅)) =
  Ok (mkDiff (Some 7) (sample_state 10) ∅).
Proof.
  apply statediff_roundtrip. split; cbn [added removed parent].
  - apply sample_state_ok.
  - set_solver.
  - intros p [= <-]. split; [int_solve|done].
Defined.

(** One key changed its event, then changed back: nothing is left to store. *)
Lemma merge_into_parent_composes_witness :
  leads {[ compress_state_event 1 10 ]}
    (merge_into_parent (mkInfo 2 {[ compress_state_event 1 11 ]} {[ compress_state_event 1 11 ]}
       {[ compress_state_event 1 10 ]})
       {[ compress_state_event 1 10 ]} {[ compress_state_event 1 11 ]}).1
    (merge_into_parent (mkInfo 2 {[ compress_state_event 1 11 ]} {[ compress_state_event 1 11 ]}
       {[ compress_state_event 1 10 ]})
       {[ compress_state_event 1 10 ]} {[ compress_state_event 1 11 ]}).2
    {[ compress_state_event 1 10 ]}.
Proof.
  assert (Hswap : forall a b : list byte, a <> b ->
    leads {[ a ]} {[ b ]} {[ a ]} {[ b ]}) by (intros a b Hab; split; set_solver).
  apply merge_into_parent_composes with (F := {[ compress_state_event 1 11 ]});
    by apply Hswap.
Defined.

(** The service after the first state was saved. *)
Definition sample_service : Service :=
  save_statediff (mkService ∅ ∅) 1 (mkDiff None (sample_state 10) ∅).

Lemma sample_represents : represents sample_service {[ 1 := sample_state 10 ]}.
Proof.
  assert (Hl : leads ∅ (sample_state 10) ∅ (sample_state 10)) by (split; set_solver).
  pose proof (leads_size _ _ _ _ Hl (sample_state_ok 10) (wf_base_size [] wf_nil)).
  destruct (store_represents (mkService ∅ ∅) ∅ 1 (sample_state 10) (sample_state 10) ∅ [])
    as (s' & Hs & Hrep).
  - apply represents_empty.
  - done.
  - split; [int_solve|done].
  - apply sample_state_ok.
  - constructor.
  - done.
  - exact Hl.
  - replace s' with sample_service in Hrep; [exact Hrep|].
    cbn [save_state_from_diff] in Hs. rewrite checked_add_ok in Hs by int_solve.
    injection Hs as <-. reflexivity.
Qed.

Lemma load_shortstatehash_refines_witness :
  exists s' f rest, load_shortstatehash_info id 4 sample_service 1 = Ok (s', f :: rest) /\
    full_state f = sample_state 10 /\ represents s' {[ 1 := sample_state 10 ]}.
Proof.
  exact (load_shortstatehash_refines id 4 sample_service {[ 1 := sample_state 10 ]} 1
    _ sample_represents ltac:(lia)).
Defined.

(** The short ids after the first state was saved. *)
Definition sample_short : Short.Service :=
  Short.put_shortstatehash
    (Short.mkService (ServerCounter.mkCounter 1 (Some (be_bytes 8 1))) ∅ ∅ ∅ ∅ ∅ ∅)
    (state_hash id (sample_state 10)) 1.

Lemma sample_linked : linked id sample_short {[ 1 := sample_state 10 ]}.
Proof.
  destruct (linked_draw id (fun _ _ E => E) Short.fresh ∅ (sample_state 10))
    as (sh' & h & existed & Hd & _ & _ & Hl).
  - split; [apply Short.fresh_wf|..]; intros ? ? Hx; [by rewrite lookup_empty in Hx|].
    cbn in Hx. by rewrite lookup_empty in Hx.
  - apply sample_state_ok.
  - done.
  - unfold Short.get_or_create_shortstatehash in Hd. cbn in Hd. rewrite lookup_empty in Hd.
    cbn in Hd. by injection Hd as <- <- <-.
Qed.

Lemma save_state_refines_witness :
  exists sh' s' saved,
    save_room_state id id 4 sample_short sample_service (Some 1) (sample_state 11)
      = Ok (sh', s', saved) /\
    represents s' (<[saved_hash saved := sample_state 11]> {[ 1 := sample_state 10 ]}) /\
    linked id sh' (<[saved_hash saved := sample_state 11]> {[ 1 := sample_state 10 ]}) /\
    leads (default ∅ (({[ 1 := sample_state 10 ]} : gmap Z (gset (list byte))) !! 1))
      (saved_added saved) (saved_removed saved) (sample_state 11).
Proof.
  apply (save_state_refines id id 4 sample_short sample_service {[ 1 := sample_state 10 ]} (Some 1)
    (sample_state 11)).
  - done.
  - apply _.
  - apply sample_represents.
  - apply sample_linked.
  - lia.
  - intros p [= <-]. by rewrite lookup_singleton_eq.
  - apply sample_state_ok.
  - done.
Defined.

End StateCompressor.
