(* ===== verification/MutexMap.v ===== *)
(** The keyed lock table, [phantom-core/src/sync/mutex_map.rs]: one mutex per key,
    made on first use and reaped by the guard that drops it last. The tasks that
    use the table are interleaved at every point where the code does not hold the
    table's own lock. *)
From S2P Require Import Prelude.

Module MutexMap.

(** Where a task is in [lock], [try_lock] or the drop of its [Guard]. In all of
    these it holds a clone of the mutex's [Arc]. *)
Inductive phase :=
  | Waiting    (* [lock]: awaiting [lock_owned] *)
  | Trying     (* [try_lock]: before [try_lock_owned] *)
  | Holding    (* has its [Guard] *)
  | Reaping    (* [drop]: saw no other user, before [retain] *)
  | Unlocking  (* [drop] has run, before the field [val] is dropped *)
  | Releasing. (* unlocked, before the [Arc] is dropped *)

#[export] Instance phase_eq_dec : EqDecision phase.
Proof. solve_decision. Defined.

Section Table.
Context {Key : Type} `{Countable Key}.

Record Task := mkTask {
  t_key : Key;
  t_mutex : nat;
  t_phase : phase
}.

(** [table] is the hash map; [owner] says which task has locked a mutex; mutexes
    are numbered as they are allocated. *)
Record State := mkState {
  table : gmap Key nat;
  owner : gmap nat nat;
  tasks : gmap nat Task;
  next_mutex : nat
}.

Definition new : State := mkState ∅ ∅ ∅ 0.

(** [Arc::strong_count]: the table's references and the tasks'. *)
Definition strong_count (s : State) (m : nat) : nat :=
  (size (filter (fun kv : Key * nat => kv.2 = m) (table s))
   + size (filter (fun kt : nat * Task => t_mutex kt.2 = m) (tasks s)))%nat.

Definition set_phase (s : State) (t : nat) (T : Task) (p : phase) : State :=
  mkState (table s) (owner s) (<[t := mkTask (t_key T) (t_mutex T) p]> (tasks s)) (next_mutex s).

Definition forget (s : State) (t : nat) : State :=
  mkState (table s) (owner s) (delete t (tasks s)) (next_mutex s).

(** [map.lock().entry(k).or_default().clone()], the first half of every lock. *)
Definition entry (s : State) (t : nat) (k : Key) (p : phase) : option State :=
  match tasks s !! t with
  | Some _ => None
  | None =>
      Some (match table s !! k with
            | Some m => mkState (table s) (owner s) (<[t := mkTask k m p]> (tasks s)) (next_mutex s)
            | None =>
                mkState (<[k := next_mutex s]> (table s)) (owner s)
                  (<[t := mkTask k (next_mutex s) p]> (tasks s)) (S (next_mutex s))
            end)
  end.

(** The mutex is handed to the task. *)
Definition grant (s : State) (t : nat) (T : Task) : State :=
  let s := set_phase s t T Holding in
  mkState (table s) (<[t_mutex T := t]> (owner s)) (tasks s) (next_mutex s).

(** The task of [t], when it is in phase [p]. *)
Definition in_phase (s : State) (t : nat) (p : phase) : option Task :=
  T ← tasks s !! t; if decide (t_phase T = p) then Some T else None.

(** [lock_owned] completes; it waits while the mutex is locked. *)
Definition acquire (s : State) (t : nat) : option State :=
  T ← in_phase s t Waiting;
  match owner s !! t_mutex T with None => Some (grant s t T) | Some _ => None end.

(** The future of [lock] is dropped before it completes. *)
Definition cancel (s : State) (t : nat) : option State :=
  _ ← in_phase s t Waiting; Some (forget s t).

(** [try_lock_owned]; on failure the clone is dropped and [try_lock] fails. *)
Definition try_acquire (s : State) (t : nat) : option State :=
  T ← in_phase s t Trying;
  Some (match owner s !! t_mutex T with None => grant s t T | Some _ => forget s t end).

(** [Guard::drop]: the test outside the table's lock, *)
Definition drop_check (s : State) (t : nat) : option State :=
  T ← in_phase s t Holding;
  Some (set_phase s t T
    (if decide (strong_count s (t_mutex T) <= 2)%nat then Reaping else Unlocking)).

(** the [retain] under it, *)
Definition drop_retain (s : State) (t : nat) : option State :=
  T ← in_phase s t Reaping;
  let s' := set_phase s t T Unlocking in
  Some (mkState
    (filter (fun kv : Key * nat => kv.2 <> t_mutex T \/ (2 < strong_count s kv.2)%nat) (table s))
    (owner s') (tasks s') (next_mutex s')).

(** and the drop of the field [val]: the mutex is unlocked, then the [Arc] goes. *)
Definition drop_unlock (s : State) (t : nat) : option State :=
  T ← in_phase s t Unlocking;
  let s' := set_phase s t T Releasing in
  Some (mkState (table s') (delete (t_mutex T) (owner s')) (tasks s') (next_mutex s')).

Definition drop_release (s : State) (t : nat) : option State :=
  _ ← in_phase s t Releasing; Some (forget s t).

Definition contains (s : State) (k : Key) : bool := bool_decide (is_Some (table s !! k)).
Definition len (s : State) : nat := size (table s).
Definition is_empty (s : State) : bool := bool_decide (table s = ∅).

(** One atomic step of one task. [try_try_lock] does nothing when it finds the
    table's own lock taken, and is [try_lock] otherwise. *)
Inductive op :=
  | Lock (k : Key)
  | TryLock (k : Key)
  | TryTryLock (k : Key) (blocked : bool)
  | Acquire
  | Cancel
  | TryAcquire
  | DropCheck
  | DropRetain
  | DropUnlock
  | DropRelease.

Definition exec (s : State) (t : nat) (o : op) : option State :=
  match o with
  | Lock k => entry s t k Waiting
  | TryLock k => entry s t k Trying
  | TryTryLock k blocked => if blocked then Some s else entry s t k Trying
  | Acquire => acquire s t
  | Cancel => cancel s t
  | TryAcquire => try_acquire s t
  | DropCheck => drop_check s t
  | DropRetain => drop_retain s t
  | DropUnlock => drop_unlock s t
  | DropRelease => drop_release s t
  end.

Fixpoint run (s : State) (l : list (nat * op)) : option State :=
  match l with
  | [] => Some s
  | (t, o) :: l => s ← exec s t o; run s l
  end.

Inductive reachable : State -> Prop :=
  | reach_new : reachable new
  | reach_step s t o s' : reachable s -> exec s t o = Some s' -> reachable s'.

(** ** Invariant *)

(** The phases in which the table must have the task's mutex under its key, and
    those in which the task has it locked. *)
Definition attached (p : phase) : Prop :=
  match p with Waiting | Trying | Holding | Reaping => True | _ => False end.
Definition locking (p : phase) : Prop :=
  match p with Holding | Reaping | Unlocking => True | _ => False end.

Record inv (s : State) : Prop := {
  inv_inj k k' m : table s !! k = Some m -> table s !! k' = Some m -> k = k';
  inv_table k m : table s !! k = Some m -> (m < next_mutex s)%nat;
  inv_task t T : tasks s !! t = Some T -> (t_mutex T < next_mutex s)%nat;
  inv_entry t T : tasks s !! t = Some T -> attached (t_phase T) ->
    table s !! t_key T = Some (t_mutex T);
  inv_owner m t : owner s !! m = Some t <->
    exists T, tasks s !! t = Some T /\ t_mutex T = m /\ locking (t_phase T)
}.

Lemma in_phase_Some s t p T :
  in_phase s t p = Some T <-> tasks s !! t = Some T /\ t_phase T = p.
Proof.
  unfold in_phase. destruct (tasks s !! t) as [T'|]; cbn; [|naive_solver].
  case_decide; naive_solver.
Qed.

Lemma inv_new : inv new.
Proof.
  split; cbn; intros; try (split; [|intros (? & ? & _)]); by simplify_map_eq.
Qed.

(** A step that changes no more than the phase of a task, within the same side of
    [locking], keeps the invariant. *)
Lemma inv_set_phase s t T p :
  inv s -> tasks s !! t = Some T -> (locking p <-> locking (t_phase T)) ->
  (attached p -> attached (t_phase T)) -> inv (set_phase s t T p).
Proof.
  intros [Hi Ht Hk He Ho] HT Hl Ha. split; cbn.
  - done.
  - done.
  - intros t' T' [[<- <-]|[_ ?]]%lookup_insert_Some; cbn; eauto.
  - intros t' T' [[<- <-]|[_ ?]]%lookup_insert_Some; cbn; eauto.
  - intros m t'. rewrite Ho. destruct (decide (t' = t)) as [->|Hne].
    + rewrite lookup_insert_eq, HT. naive_solver.
    + by rewrite lookup_insert_ne.
Qed.

Lemma inv_forget s t T :
  inv s -> tasks s !! t = Some T -> ~ locking (t_phase T) -> inv (forget s t).
Proof.
  intros [Hi Ht Hk He Ho] HT Hl. split; cbn; try done.
  - intros t' T' [_ ?]%lookup_delete_Some; eauto.
  - intros t' T' [_ ?]%lookup_delete_Some; eauto.
  - intros m t'. rewrite Ho. setoid_rewrite lookup_delete_Some. naive_solver.
Qed.

Lemma inv_grant s t T :
  inv s -> tasks s !! t = Some T -> attached (t_phase T) ->
  owner s !! t_mutex T = None -> inv (grant s t T).
Proof.
  intros [Hi Ht Hk He Ho] HT Ha Hn. split; cbn; try done.
  - intros t' T' [[<- <-]|[_ ?]]%lookup_insert_Some; cbn; eauto.
  - intros t' T' [[<- <-]|[_ ?]]%lookup_insert_Some; cbn; eauto.
  - intros m t'. destruct (decide (m = t_mutex T)) as [->|Hm].
    + rewrite lookup_insert_eq. destruct (decide (t' = t)) as [->|Hne].
      * rewrite lookup_insert_eq. split; [|done]. intros _. eexists. done.
      * rewrite lookup_insert_ne by done. rewrite <-Ho, Hn. naive_solver.
    + rewrite lookup_insert_ne, Ho by done. destruct (decide (t' = t)) as [->|Hne].
      * rewrite lookup_insert_eq, HT. naive_solver.
      * by rewrite lookup_insert_ne.
Qed.

Lemma inv_entry_step s t k p s' :
  inv s -> p = Waiting \/ p = Trying -> entry s t k p = Some s' -> inv s'.
Proof.
  intros [Hi Ht Hk He Ho] Hp. unfold entry.
  destruct (tasks s !! t) as [T|] eqn:HT; [done|]. intros [= <-].
  assert (Hl : ~ locking p) by (destruct Hp as [-> | ->]; cbn; tauto).
  assert (Howner : forall m k' n t', owner s !! m = Some t' <->
    exists T, <[t := mkTask k' n p]> (tasks s) !! t' = Some T /\ t_mutex T = m /\
      locking (t_phase T)).
  { intros m k' n t'. rewrite Ho. destruct (decide (t' = t)) as [->|Hne].
    - rewrite lookup_insert_eq, HT. naive_solver.
    - by rewrite lookup_insert_ne. }
  destruct (table s !! k) as [m|] eqn:Hm; split; cbn; try apply Howner; try done.
  - intros t' T' [[<- <-]|[_ ?]]%lookup_insert_Some; cbn; eauto.
  - intros t' T' [[<- <-]|[_ ?]]%lookup_insert_Some; cbn; eauto.
  - intros k1 k2 m [[<- <-]|[? H1]]%lookup_insert_Some [[<- E]|[? H2]]%lookup_insert_Some;
      [done| | |by eapply Hi].
    + apply Ht in H2. lia.
    + apply Ht in H1. lia.
  - intros k1 m [[<- <-]|[? H1]]%lookup_insert_Some; [lia|]. apply Ht in H1. lia.
  - intros t' T' [[<- <-]|[_ H1]]%lookup_insert_Some; cbn; [lia|]. apply Hk in H1. lia.
  - intros t' T' [[<- <-]|[_ H1]]%lookup_insert_Some Ha; cbn; [by rewrite lookup_insert_eq|].
    specialize (He _ _ H1 Ha). rewrite lookup_insert_ne; [done|]. congruence.
Qed.

(** Two tasks with the mutex and its entry make three references. *)
Lemma strong_count_shared s m k t T t' T' :
  table s !! k = Some m -> tasks s !! t = Some T -> tasks s !! t' = Some T' ->
  t_mutex T = m -> t_mutex T' = m -> t <> t' -> (2 < strong_count s m)%nat.
Proof.
  intros Hk HT HT' HmT HmT' Hne. unfold strong_count.
  assert (size ({[k := m]} : gmap Key nat)
    <= size (filter (fun kv : Key * nat => kv.2 = m) (table s)))%nat as H1.
  { apply map_subseteq_size, map_singleton_subseteq_l. by apply map_lookup_filter_Some_2. }
  assert (size (<[t := T]> {[t' := T']} : gmap nat Task)
    <= size (filter (fun kt : nat * Task => t_mutex kt.2 = m) (tasks s)))%nat as H2.
  { apply map_subseteq_size, insert_subseteq_l; [by apply map_lookup_filter_Some_2|].
    apply map_singleton_subseteq_l. by apply map_lookup_filter_Some_2. }
  rewrite map_size_singleton in H1.
  rewrite map_size_insert_None, map_size_singleton in H2 by by rewrite lookup_singleton_ne.
  lia.
Qed.

Lemma inv_retain_step s t s' : inv s -> drop_retain s t = Some s' -> inv s'.
Proof.
  intros Hs. pose proof Hs as [Hi Ht Hk He Ho]. unfold drop_retain.
  destruct (in_phase s t Reaping) as [T|] eqn:HT; [|done]. intros [= <-].
  apply in_phase_Some in HT as [HT Hp].
  destruct (inv_set_phase s t T Unlocking Hs HT) as [_ _ Hk' He' Ho'];
    [by rewrite Hp|done|]. cbn in *.
  split; cbn; try done.
  - intros k k' m [? _]%map_lookup_filter_Some [? _]%map_lookup_filter_Some. eauto.
  - intros k m [? _]%map_lookup_filter_Some. eauto.
  - intros t' T' HT' Ha. pose proof (He' _ _ HT' Ha) as Htab.
    apply map_lookup_filter_Some_2; [done|]. cbn.
    destruct (decide (t_mutex T' = t_mutex T)) as [Hm|]; [right|by left].
    apply lookup_insert_Some in HT' as [[<- <-]|[Hne HT']]; [done|].
    rewrite Hm. eapply (strong_count_shared s _ (t_key T) t T t' T'); eauto.
    apply (He _ _ HT). by rewrite Hp.
Qed.

Lemma inv_unlock_step s t s' : inv s -> drop_unlock s t = Some s' -> inv s'.
Proof.
  intros [Hi Ht Hk He Ho]. unfold drop_unlock.
  destruct (in_phase s t Unlocking) as [T|] eqn:HT; [|done]. intros [= <-].
  apply in_phase_Some in HT as [HT Hp]. split; cbn; try done.
  - intros t' T' [[<- <-]|[_ ?]]%lookup_insert_Some; cbn; eauto.
  - intros t' T' [[<- <-]|[_ ?]]%lookup_insert_Some; cbn; [done|]. eauto.
  - intros m t'. rewrite lookup_delete_Some, Ho.
    assert (Hown : owner s !! t_mutex T = Some t) by (apply Ho; exists T; by rewrite Hp).
    destruct (decide (t' = t)) as [->|Hne].
    + rewrite lookup_insert_eq, HT. naive_solver.
    + rewrite lookup_insert_ne by done. split; [naive_solver|].
      intros (T' & HT' & Hm & Hl). split; [|by exists T']. intros <-.
      assert (owner s !! t_mutex T = Some t') by (apply Ho; by exists T'). congruence.
Qed.

Lemma inv_step s t o s' : inv s -> exec s t o = Some s' -> inv s'.
Proof.
  intros Hs. destruct o; cbn [exec];
    [eapply inv_entry_step; eauto|eapply inv_entry_step; eauto
    |destruct blocked; [congruence|eapply inv_entry_step; eauto]|..|by apply inv_retain_step
    |by apply inv_unlock_step|];
    unfold acquire, cancel, try_acquire, drop_check, drop_release;
    (destruct (in_phase s t _) as [T|] eqn:E; [|done]); apply in_phase_Some in E as [HT Hp];
    cbn [mbind option_bind].
  - destruct (owner s !! t_mutex T) eqn:Eo; intros; simplify_eq. apply inv_grant; rewrite ?Hp; done.
  - intros [= <-]. eapply inv_forget; eauto. rewrite Hp. cbn. tauto.
  - destruct (owner s !! t_mutex T) eqn:Eo; intros [= <-].
    + eapply inv_forget; eauto. rewrite Hp. cbn. tauto.
    + apply inv_grant; rewrite ?Hp; done.
  - intros [= <-]. apply inv_set_phase; [done..| |]; case_decide; by rewrite Hp.
  - intros [= <-]. eapply inv_forget; eauto. rewrite Hp. cbn. tauto.
Qed.

Lemma reachable_inv s : reachable s -> inv s.
Proof. induction 1; eauto using inv_new, inv_step. Qed.

Lemma run_reachable s l s' : reachable s -> run s l = Some s' -> reachable s'.
Proof.
  revert s. induction l as [|[t o] l IH]; intros s Hs Hr; cbn in Hr; [by simplify_eq|].
  destruct (exec s t o) eqn:E; [|done]. eapply IH; [|done]. by eapply reach_step.
Qed.

(** The references to a mutex whose only user is [t]. *)
Lemma strong_count_alone s t T :
  inv s -> tasks s !! t = Some T -> table s !! t_key T = Some (t_mutex T) ->
  (forall t' T', tasks s !! t' = Some T' -> t_mutex T' = t_mutex T -> t' = t) ->
  strong_count s (t_mutex T) = 2%nat.
Proof.
  intros [Hi _ _ _ _] HT Hk Ho. unfold strong_count.
  replace (filter (fun kv : Key * nat => kv.2 = t_mutex T) (table s))
    with ({[t_key T := t_mutex T]} : gmap Key nat).
  - replace (filter (fun kt : nat * Task => t_mutex kt.2 = t_mutex T) (tasks s))
      with ({[t := T]} : gmap nat Task); [by rewrite !map_size_singleton|].
    symmetry. apply map_eq. intros t'. apply option_eq. intros T'.
    rewrite map_lookup_filter_Some, lookup_singleton_Some. cbn. naive_solver.
  - symmetry. apply map_eq. intros k. apply option_eq. intros m.
    rewrite map_lookup_filter_Some, lookup_singleton_Some. cbn. naive_solver.
Qed.

(** ** Who has a key *)







End Table.

(** ** Properties *)

(** C35: Mutual exclusion: in every interleaving of lock, try-lock, cancelled locks
    and guard drops, no two tasks hold the guard of the same key, although
    mutexes are reaped and made anew: while a guard is held or awaited, the
    table keeps its mutex under its key. *)
Theorem mutual_exclusion {Key : Type} `{Countable Key} (s : @State Key _ _)
    (t t' : nat) (T T' : @Task Key) :
  reachable s -> tasks s !! t = Some T -> tasks s !! t' = Some T' ->
  t_phase T = Holding -> t_phase T' = Holding -> t_key T = t_key T' ->
  t = t' /\ table s !! t_key T = Some (t_mutex T).
Proof.
  intros [Hi _ _ He Ho]%reachable_inv HT HT' Hp Hp' Hk.
  pose proof (He _ _ HT) as E. pose proof (He _ _ HT') as E'. rewrite Hp in E. rewrite Hp' in E'.
  specialize (E I). specialize (E' I). split; [|done]. rewrite Hk in E.
  assert (owner s !! t_mutex T = Some t) by (apply Ho; exists T; by rewrite Hp).
  assert (owner s !! t_mutex T' = Some t') by (apply Ho; exists T'; by rewrite Hp').
  congruence.
Qed.


(** A guard that reaches the reaping step of its drop removes the table's entry
    exactly when no other task has a reference to the mutex, and touches the
    entry of no other key. *)
Theorem drop_reaps {Key : Type} `{Countable Key} (s s' : @State Key _ _)
    (t : nat) (T : @Task Key) :
  reachable s -> tasks s !! t = Some T -> exec s t DropRetain = Some s' ->
  (table s' !! t_key T = None <->
     forall t' T', tasks s !! t' = Some T' -> t_mutex T' = t_mutex T -> t' = t) /\
  (forall k, k <> t_key T -> table s' !! k = table s !! k).
Proof.
  intros Hs%reachable_inv HT. cbn [exec]. unfold drop_retain.
  destruct (in_phase s t Reaping) as [T0|] eqn:E; [|done].
  apply in_phase_Some in E as [HT0 Hp]. simplify_eq. intros [= <-]. cbn.
  assert (Hk : table s !! t_key T = Some (t_mutex T))
    by (apply (inv_entry s Hs t T HT); by rewrite Hp).
  split.
  - rewrite map_lookup_filter_None. split.
    + intros [Hn|Hn] t' T' HT' Hm; [congruence|].
      destruct (decide (t' = t)) as [|Hne]; [done|]. destruct (Hn _ Hk). right. cbn.
      eapply (strong_count_shared s _ _ t T t' T'); eauto.
    + intros Ho. right. intros m Hm. simplify_eq. cbn.
      rewrite (strong_count_alone s t T Hs HT Hk Ho). lia.
  - intros k Hne. apply option_eq. intros m. rewrite map_lookup_filter_Some. cbn.
    split; [naive_solver|]. intros Hm. split; [done|]. left. intros ->.
    apply Hne. by eapply (inv_inj s Hs).
Qed.

(** ** Runs *)

(** One guard: the table is empty again afterwards. *)
Definition one_guard : list (nat * @op nat) :=
  [(0, Lock 7); (0, Acquire); (0, DropCheck); (0, DropRetain); (0, DropUnlock);
   (0, DropRelease)]%nat.

Example one_guard_reaped : table <$> run new one_guard = Some ∅.
Proof. reflexivity. Qed.

(** A held key cannot be locked twice, another key can. *)
Example held_key_refused :
  (fun s => (bool_decide (is_Some (in_phase s 1 Holding)),
             bool_decide (is_Some (in_phase s 2 Holding)))) <$>
  run new [(0, Lock 7); (0, Acquire); (1, TryLock 7); (1, TryAcquire);
           (2, TryLock 8); (2, TryAcquire)]%nat = Some (false, true).
Proof. reflexivity. Qed.

(** A waiter that is cancelled after the holder looked at the reference count
    leaves an entry behind that no guard reaps. *)
Example cancelled_waiter_leaks :
  (fun s => (len s, size (tasks s))) <$>
  run new [(0, Lock 7); (0, Acquire); (1, Lock 7); (0, DropCheck); (1, Cancel);
           (0, DropUnlock); (0, DropRelease)]%nat = Some (1, 0)%nat.
Proof. reflexivity. Qed.

Definition after (l : list (nat * @op nat)) : @State nat _ _ := default new (run new l).

Lemma after_reachable l : is_Some (run new l) -> reachable (after l).
Proof.
  unfold after. intros [s E]. rewrite E. cbn. eapply run_reachable; [constructor|done].
Qed.

Definition two_tasks : @State nat _ _ :=
  after [(0, Lock 7); (0, Acquire); (1, Lock 7)]%nat.

Lemma two_tasks_reachable : reachable two_tasks.
Proof. apply after_reachable. by eexists. Qed.

Lemma mutual_exclusion_witness : (0 = 0)%nat /\ table two_tasks !! 7%nat = Some 0%nat.
Proof.
  apply (mutual_exclusion two_tasks 0%nat 0%nat (mkTask 7%nat 0%nat Holding) (mkTask 7%nat 0%nat Holding));
    [apply two_tasks_reachable|reflexivity..].
Defined.


Definition reaping : @State nat _ _ :=
  after [(0, Lock 7); (0, Acquire); (0, DropCheck)]%nat.

Lemma drop_reaps_witness : exists s',
  (table s' !! 7%nat = None <->
     forall t' T', tasks reaping !! t' = Some T' -> t_mutex T' = 0%nat -> t' = 0%nat) /\
  (forall k, k <> 7%nat -> table s' !! k = table reaping !! k).
Proof.
  eexists. apply (drop_reaps reaping _ 0%nat (mkTask 7%nat 0%nat Reaping)).
  - apply after_reachable. by eexists.
  - reflexivity.
  - reflexivity.
Defined.

End MutexMap.
