(* ===== verification/Cursor.v ===== *)
(** Iteration over a column of the database: the cursor of
    [phantom-database/src/map/cursor.rs] and the streams built on it,
    [map/iter.rs], [map/stream.rs], [map/keys.rs] and [map/count.rs].

    RocksDB's own iterator is outside the repository: it is the class
    [RawIterator], with its documented behaviour as the laws [RawIteratorLaws].
    What the streams yield is then compared with [scan], [scan_from] and
    [scan_prefix], the rows of the column as a sorted list. *)
From S2P Require Import Prelude Order.

Abbreviation bytes := (list byte).
Abbreviation row := (bytes * bytes)%type.
Abbreviation column := (gmap bytes bytes).

(** ** Keys in byte order *)

#[export] Instance ord_bytes : Ord bytes := bytes_cmp.
#[export] Instance ord_bytes_laws : OrdLaws bytes.
Proof.
  split.
  - intros x y. split; [apply bytes_cmp_eq|intros ->; apply bytes_cmp_refl].
  - unfold cmp, ord_bytes. intros x. induction x as [|b x IH]; intros [|c y]; cbn; try done.
    rewrite (Z.compare_antisym (b2z b) (b2z c)). destruct (b2z b ?= b2z c); cbn; auto.
  - unfold cmp, ord_bytes. intros x. induction x as [|a x IH]; intros [|b y] [|c z]; cbn; try done.
    destruct (Z.compare_spec (b2z a) (b2z b)), (Z.compare_spec (b2z b) (b2z c)); try done.
    + replace (b2z a ?= b2z c) with Eq by (symmetry; apply Z.compare_eq_iff; lia). apply IH.
    + intros _ _. replace (b2z a ?= b2z c) with Lt by (symmetry; apply Z.compare_lt_iff; lia). done.
    + intros _ _. replace (b2z a ?= b2z c) with Lt by (symmetry; apply Z.compare_lt_iff; lia). done.
    + intros _ _. replace (b2z a ?= b2z c) with Lt by (symmetry; apply Z.compare_lt_iff; lia). done.
Qed.

(** [key.starts_with(prefix)] *)
Definition starts_with (prefix key : bytes) : bool := bool_decide (prefix `prefix_of` key).

(** Every row of a column, in the order RocksDB keeps them. *)
Definition scan (m : column) : list row := sort_by_key fst (map_to_list m).
Definition scan_from (from : bytes) (m : column) : list row :=
  filter (fun r => geb r.1 from = true) (scan m).
Definition scan_prefix (prefix : bytes) (m : column) : list row :=
  filter (fun r => starts_with prefix r.1 = true) (scan m).

(** The index of the last element in [P], as [Iterator::rposition] finds it. *)
Definition last_index {A} (P : A -> Prop) `{!forall x, Decision (P x)} (l : list A) : option nat :=
  match list_find P (reverse l) with
  | Some (i, _) => Some (length l - 1 - i)%nat
  | None => None
  end.

(** ** RocksDB's iterator *)

Module Rocks.

(** The operations of [DBRawIteratorWithThreadMode] that the cursor calls. [open]
    is [raw_iterator_cf_opt] with the [iterate_upper_bound] of its options. *)
Class RawIterator (It : Type) := {
  open : column -> option bytes -> It;
  seek : bytes -> It -> It;
  seek_for_prev : bytes -> It -> It;
  seek_to_first : It -> It;
  seek_to_last : It -> It;
  next : It -> It;
  prev : It -> It;
  item : It -> option row
}.

Definition below (upper : option bytes) (l : list row) : list row :=
  match upper with Some u => filter (fun r => ltb r.1 u = true) l | None => l end.

(** What RocksDB documents: an iterator walks the rows below its upper bound, as
    they were when it was opened, and stands on one of them or is invalid.
    [seek] finds the first key at or past the target, [seek_for_prev] the last
    key at or before it. *)
Class RawIteratorLaws (It : Type) `{RawIterator It} := {
  view : It -> list row * option nat;
  view_open m u : view (open m u) = (below u (scan m), None);
  view_seek k it :
    view (seek k it) = ((view it).1, fst <$> list_find (fun r => geb r.1 k = true) (view it).1);
  view_seek_for_prev k it :
    view (seek_for_prev k it) =
      ((view it).1, last_index (fun r => gtb r.1 k = false) (view it).1);
  view_seek_to_first it :
    view (seek_to_first it) = ((view it).1, fst <$> list_find (fun _ => True) (view it).1);
  view_seek_to_last it :
    view (seek_to_last it) = ((view it).1, last_index (fun _ => True) (view it).1);
  view_next it i : (view it).2 = Some i ->
    view (next it) = ((view it).1, if decide (S i < length (view it).1)%nat then Some (S i) else None);
  view_prev it i : (view it).2 = Some i ->
    view (prev it) = ((view it).1, match i with O => None | S i => Some i end);
  view_item it : item it = (i ← (view it).2; (view it).1 !! i)
}.

End Rocks.

(** ** The cursor *)

Module Cursor.
Import Rocks.
Section Cursor.
Context {It : Type} `{RawIterator It}.

(** [FORWARD] and [REVERSE]: the parameter [REV] is a boolean. *)
Definition FORWARD : bool := false.
Definition REVERSE : bool := true.

Record State := mkState { inner : It; seeked : bool; is_init : bool }.

Definition new (m : column) (upper : option bytes) : State := mkState (open m upper) false true.

Definition init (rev : bool) (from : option bytes) (s : State) : State :=
  let it := inner s in
  let it :=
    match from with
    | Some key => if rev then seek_for_prev key it else seek key it
    | None => if rev then seek_to_last it else seek_to_first it
    end in
  mkState it true (is_init s).

Definition step (rev : bool) (s : State) : State :=
  let it := inner s in
  let it :=
    if negb (is_init s) then (if rev then prev it else next it)
    else if negb (seeked s) then (if rev then seek_to_last it else seek_to_first it)
    else it in
  mkState it (seeked s) false.

(** [Cursor::get] without a read error: the iterator's status is [Ok]. *)
Definition get (s : State) : option row := item (inner s).

Definition poll_next (rev : bool) (s : State) : State * option row :=
  let s := step rev s in (s, get s).

(** Polling the stream to its end. [None]: it did not end within [fuel] polls. *)
Fixpoint collect (rev : bool) (fuel : nat) (s : State) : option (list row) :=
  match fuel with
  | O => None
  | S fuel =>
      match poll_next rev s with
      | (s, None) => Some []
      | (s, Some r) => cons r <$> collect rev fuel s
      end
  end.

(** ** Streams *)

(** [handle_iter] of the read pool: the seek of a stream whose first block is not
    cached runs on a worker thread. *)
Definition handle_iter (dir_reverse : bool) (key : option bytes) (s : State) : State :=
  if dir_reverse then init REVERSE key s else init FORWARD key s.

(** [cached]: whether the seek can be answered from the block cache. One poll per
    row and one for the end are enough. *)
Definition iter_bounded (cached rev : bool) (from upper : option bytes) (m : column) :
    option (list row) :=
  let state := new m upper in
  let state := if cached then init rev from state else handle_iter rev from state in
  collect rev (S (size m)) state.

Definition iter_from (cached rev : bool) (from : option bytes) (m : column) : option (list row) :=
  iter_bounded cached rev from None m.

Definition prefix_upper_bound (prefix : bytes) : option bytes :=
  match last_index (fun b => b2z b < 255) prefix with
  | None => None
  | Some len =>
      match prefix !! len with
      | Some b => Some (take len prefix ++ [z2b (b2z b + 1)])
      | None => None
      end
  end.

Fixpoint take_while {A} (f : A -> bool) (l : list A) : list A :=
  match l with
  | [] => []
  | x :: l => if f x then x :: take_while f l else []
  end.

Definition iter_prefix (cached rev : bool) (prefix : bytes) (m : column) : option (list row) :=
  let upper := prefix_upper_bound prefix in
  let from := if negb rev then Some prefix else None in
  take_while (fun r => starts_with prefix r.1) <$> iter_bounded cached rev from upper m.

Definition raw_stream (c : bool) (m : column) := iter_from c FORWARD None m.
Definition rev_raw_stream (c : bool) (m : column) := iter_from c REVERSE None m.
Definition raw_stream_from (c : bool) (from : bytes) (m : column) :=
  iter_from c FORWARD (Some from) m.
Definition rev_raw_stream_from (c : bool) (from : bytes) (m : column) :=
  iter_from c REVERSE (Some from) m.
Definition raw_stream_prefix (c : bool) (prefix : bytes) (m : column) :=
  iter_prefix c FORWARD prefix m.
Definition rev_raw_stream_prefix (c : bool) (prefix : bytes) (m : column) :=
  iter_prefix c REVERSE prefix m.

(** A stream of keys fetches the key of each row and nothing else. *)
Definition fetch_keys (l : list row) : list bytes := fst <$> l.

Definition raw_keys (c : bool) (m : column) := fetch_keys <$> iter_from c FORWARD None m.
Definition rev_raw_keys (c : bool) (m : column) := fetch_keys <$> iter_from c REVERSE None m.
Definition raw_keys_from (c : bool) (from : bytes) (m : column) :=
  fetch_keys <$> iter_from c FORWARD (Some from) m.
Definition rev_raw_keys_from (c : bool) (from : bytes) (m : column) :=
  fetch_keys <$> iter_from c REVERSE (Some from) m.
Definition raw_keys_prefix (c : bool) (prefix : bytes) (m : column) :=
  fetch_keys <$> iter_prefix c FORWARD prefix m.
Definition rev_raw_keys_prefix (c : bool) (prefix : bytes) (m : column) :=
  fetch_keys <$> iter_prefix c REVERSE prefix m.

Definition count (c : bool) (m : column) := length <$> raw_keys c m.
Definition raw_count_from (c : bool) (from : bytes) (m : column) :=
  length <$> raw_keys_from c from m.
Definition raw_count_prefix (c : bool) (prefix : bytes) (m : column) :=
  length <$> raw_keys_prefix c prefix m.

End Cursor.
End Cursor.

(** ** Lists sorted by key *)

Section Scan.
Implicit Types (l : list row) (m : column) (k : bytes).

#[local] Abbreviation sorted := (StronglySorted (key_le (fst : row -> bytes))).

Lemma scan_sorted m : sorted (scan m).
Proof. apply sort_by_key_sorted. Qed.

Lemma elem_of_scan m (r : row) : r ∈ scan m <-> m !! r.1 = Some r.2.
Proof. unfold scan. rewrite sort_by_key_perm. destruct r. by rewrite elem_of_map_to_list. Qed.

Lemma length_scan m : length (scan m) = size m.
Proof. unfold scan. rewrite sort_by_key_perm. apply length_map_to_list. Qed.

Lemma NoDup_scan m : NoDup (scan m).*1.
Proof. unfold scan. rewrite sort_by_key_perm. apply NoDup_fst_map_to_list. Qed.

Lemma scan_empty : scan ∅ = [].
Proof. unfold scan. by rewrite map_to_list_empty. Qed.

(** On a sorted list, a predicate that holds from some point on selects a suffix. *)
Lemma filter_upward {A} (R : A -> A -> Prop) (P : A -> Prop) `{!forall x, Decision (P x)} (l : list A) :
  StronglySorted R l -> (forall x y, R x y -> P x -> P y) ->
  filter P l = match list_find P l with Some (i, _) => drop i l | None => [] end.
Proof.
  intros Hl HP. induction Hl as [|x l Hl IH Hx]; [done|].
  rewrite filter_cons. cbn [list_find]. destruct (decide (P x)) as [Hp|Hp].
  - cbn. f_equal. apply filter_all. eapply Forall_impl; [done|]. intros y Hy. by eapply HP.
  - rewrite IH. by destruct (list_find P l) as [[i y]|].
Qed.

(** Walking down from the last element in [P] is walking the prefix it closes. *)
Lemma filter_downward {A} (R : A -> A -> Prop) (P : A -> Prop) `{!forall x, Decision (P x)} (l : list A) :
  StronglySorted R l -> (forall x y, R x y -> P y -> P x) ->
  reverse (filter P l) =
    match last_index P l with Some i => reverse (take (S i) l) | None => [] end.
Proof.
  intros Hl HP. rewrite <-filter_reverse.
  assert (Hr : StronglySorted (fun x y => R y x) (reverse l)).
  { clear -Hl. induction Hl as [|x l Hl IH Hx]; [constructor|].
    rewrite reverse_cons. apply StronglySorted_snoc; [done|].
    by rewrite Forall_reverse. }
  rewrite (filter_upward _ _ _ Hr) by (intros x y ?; by apply HP).
  unfold last_index. destruct (list_find P (reverse l)) as [[i x]|] eqn:E; [|done].
  apply list_find_Some in E as (Hi & _). apply lookup_lt_Some in Hi. rewrite length_reverse in Hi.
  rewrite drop_reverse. do 2 f_equal. lia.
Qed.

Lemma last_index_lt {A} (P : A -> Prop) `{!forall x, Decision (P x)} (l : list A) i :
  last_index P l = Some i -> (i < length l)%nat.
Proof.
  unfold last_index. destruct (list_find _ _) as [[j x]|] eqn:E; [|done]. intros [= <-].
  apply list_find_Some in E as (Hj & _). apply lookup_lt_Some in Hj. rewrite length_reverse in Hj. lia.
Qed.

Lemma geb_upward k (x y : row) :
  key_le fst x y -> geb x.1 k = true -> geb y.1 k = true.
Proof. intros Hxy. rewrite !geb_le. intros Hx. by eapply ord_le_trans. Qed.

Lemma leb_downward k (x y : row) :
  key_le fst x y -> gtb y.1 k = false -> gtb x.1 k = false.
Proof. intros Hxy. rewrite !gtb_false. intros Hy. by eapply ord_le_trans. Qed.

End Scan.

(** ** The cursor walks the rows *)

Module CursorFacts.
Import Rocks Cursor.
Section Facts.
Context {It : Type} `{RawIteratorLaws It}.
Implicit Types (s : @State It) (it : It) (i : nat).

#[local] Abbreviation stored it := (view it).1.
#[local] Abbreviation pos it := (view it).2.

Lemma below_filter u l : exists P (HP : forall x, Decision (P x)), below u l = filter P l.
Proof.
  destruct u as [u|]; [by exists (fun r => ltb r.1 u = true), _|].
  exists (fun _ => True), _. symmetry. apply filter_all. by apply Forall_true.
Qed.

Lemma below_sorted u l : StronglySorted (key_le fst) l -> StronglySorted (key_le fst) (below u l).
Proof.
  intros Hl. destruct (below_filter u l) as (P & HP & ->).
  eapply StronglySorted_sublist; [done|]. apply sublist_filter.
Qed.

Lemma length_below u l : (length (below u l) <= length l)%nat.
Proof. destruct (below_filter u l) as (P & HP & ->). apply length_filter. Qed.

(** What a cursor standing on a row has still to yield. *)
Definition ahead (rev : bool) (l : list row) (p : option nat) : list row :=
  match p with
  | None => []
  | Some i => if rev then reverse (take (S i) l) else drop i l
  end.

Lemma collect_S (rev : bool) fuel s :
  collect rev (S fuel) s =
    match get (step rev s) with None => Some [] | Some r => cons r <$> collect rev fuel (step rev s) end.
Proof. done. Qed.

Lemma collect_after (rev : bool) fuel s i :
  is_init s = false -> pos (inner s) = Some i -> (i < length (stored (inner s)))%nat ->
  ((if rev then i else length (stored (inner s)) - S i) <= fuel)%nat ->
  collect rev (S fuel) s =
    Some (if rev then reverse (take i (stored (inner s))) else drop (S i) (stored (inner s))).
Proof.
  revert s i. induction fuel as [|fuel IH]; intros s i Hinit Hpos Hi Hf;
    rewrite collect_S; unfold step, get; rewrite Hinit; cbn [negb inner];
    rewrite view_item; destruct rev.
  - rewrite (view_prev _ _ Hpos). cbn. destruct i; [done|lia].
  - rewrite (view_next _ _ Hpos). cbn. rewrite decide_False by lia. cbn.
    by rewrite drop_ge by lia.
  - rewrite (view_prev _ _ Hpos). cbn [fst snd]. destruct i as [|i]; [done|].
    destruct (lookup_lt_is_Some_2 (stored (inner s)) i) as [r Hr]; [lia|].
    cbn [mbind option_bind]. rewrite Hr. rewrite (IH _ i); cbn [inner];
      rewrite ?(view_prev _ _ Hpos); cbn; try done; try lia.
    by rewrite (take_S_r _ _ _ Hr), reverse_app.
  - rewrite (view_next _ _ Hpos). cbn [fst snd]. case_decide as Hlt.
    + destruct (lookup_lt_is_Some_2 (stored (inner s)) (S i)) as [r Hr]; [lia|].
      cbn [mbind option_bind]. rewrite Hr. rewrite (IH _ (S i)); cbn [inner];
        rewrite ?(view_next _ _ Hpos); cbn [fst snd]; rewrite ?decide_True by lia; cbn [is_init]; try done; try lia.
      by rewrite (drop_S _ r (S i)).
    + cbn. by rewrite drop_ge by lia.
Qed.

Lemma collect_seeked (rev : bool) fuel s :
  is_init s = true -> seeked s = true ->
  (forall i, pos (inner s) = Some i -> i < length (stored (inner s)))%nat ->
  (length (stored (inner s)) <= fuel)%nat ->
  collect rev (S fuel) s = Some (ahead rev (stored (inner s)) (pos (inner s))).
Proof.
  intros Hinit Hseek Hlt Hf. rewrite collect_S. unfold step, get.
  rewrite Hinit, Hseek. cbn [negb inner]. rewrite view_item.
  destruct (pos (inner s)) as [i|] eqn:Hpos; [|done]. specialize (Hlt _ eq_refl).
  destruct (lookup_lt_is_Some_2 (stored (inner s)) i) as [r Hr]; [lia|].
  cbn [mbind option_bind]. rewrite Hr. destruct fuel as [|fuel]; [lia|].
  rewrite (collect_after _ _ _ i); cbn [inner is_init]; try done; [|destruct rev; lia].
  destruct rev; cbn [ahead fmap option_fmap option_map]; f_equal.
  - by rewrite (take_S_r _ _ _ Hr), reverse_app.
  - by rewrite (drop_S _ r i).
Qed.

(** The rows a bounded iteration visits: those at or past [from] going forward,
    at or before it in reverse, below the upper bound. *)
Definition reach_from (rev : bool) (from : option bytes) (l : list row) : list row :=
  match from with
  | Some k =>
      if rev then reverse (filter (fun r => gtb r.1 k = false) l)
      else filter (fun r => geb r.1 k = true) l
  | None => if rev then reverse l else l
  end.

Lemma ahead_init (rev : bool) (from : option bytes) (m : column) (u : option bytes) :
  let s : @State It := init rev from (new m u) in
  stored (inner s) = below u (scan m) /\
  ahead rev (stored (inner s)) (pos (inner s)) = reach_from rev from (below u (scan m)) /\
  (forall i, pos (inner s) = Some i -> i < length (stored (inner s)))%nat.
Proof.
  pose proof (below_sorted u _ (scan_sorted m)) as Hs.
  assert (Hfind : forall P `{!forall x : row, Decision (P x)} l i,
    fst <$> list_find P l = Some i -> (i < length l)%nat).
  { intros P ? l i. destruct (list_find P l) as [[j x]|] eqn:E; [|done]. intros [= <-].
    apply list_find_Some in E as (Hj & _). by apply lookup_lt_Some in Hj. }
  assert (Hall : filter (fun _ : row => True) (below u (scan m)) = below u (scan m)).
  { apply filter_all. by apply Forall_true. }
  cbn zeta. destruct from as [k|], rev; cbn [init inner new];
    rewrite ?view_seek, ?view_seek_for_prev, ?view_seek_to_first, ?view_seek_to_last, view_open;
    cbn [fst snd]; (split_and!; [done| |try apply Hfind; apply last_index_lt]);
    unfold reach_from, ahead.
  - by rewrite (filter_downward _ _ _ Hs) by apply leb_downward.
  - rewrite (filter_upward _ _ _ Hs) by apply geb_upward. by destruct (list_find _ _) as [[??]|].
  - by rewrite <-(filter_downward _ _ _ Hs), Hall.
  - etrans; [|apply Hall]. rewrite (filter_upward _ _ _ Hs) by done.
    by destruct (list_find _ _) as [[??]|].
Qed.

Lemma iter_bounded_spec (cached rev : bool) (from u : option bytes) (m : column) :
  iter_bounded (It := It) cached rev from u m = Some (reach_from rev from (below u (scan m))).
Proof.
  unfold iter_bounded.
  replace (if cached then _ else _) with (init rev from (new (It := It) m u)) by (by destruct cached, rev).
  destruct (ahead_init rev from m u) as (Hst & <- & Hlt).
  apply collect_seeked; [done|done|done|]. rewrite Hst, <-length_scan. apply length_below.
Qed.

(** ** Prefixes *)

(** The bound cuts the prefix after its last byte below the maximum. *)
Lemma prefix_upper_bound_spec (prefix : bytes) :
  match prefix_upper_bound prefix with
  | Some u => exists p b f, prefix = p ++ b :: f /\ b2z b < 255 /\
      Forall (eq Byte.xff) f /\ u = p ++ [z2b (b2z b + 1)]
  | None => Forall (eq Byte.xff) prefix
  end.
Proof.
  assert (Hff : forall l, Forall (fun b => ~ b2z b < 255) l -> Forall (eq Byte.xff) l).
  { intros l Hl. eapply Forall_impl; [done|]. intros b Hb. cbv beta in Hb. apply b2z_inj.
    pose proof (b2z_range b). change (b2z Byte.xff) with 255. lia. }
  unfold prefix_upper_bound, last_index. destruct (list_find _ _) as [[i b]|] eqn:E.
  - apply list_find_Some in E as (Hi & Hb & Hbefore).
    pose proof (lookup_lt_Some _ _ _ Hi) as Hlt. rewrite length_reverse in Hlt.
    rewrite reverse_lookup in Hi by done.
    replace (length prefix - S i)%nat with (length prefix - 1 - i)%nat in Hi by lia.
    rewrite Hi. eexists _, b, _.
    split_and!; [by rewrite take_drop_middle|done| |done].
    apply Hff, Forall_lookup. intros j c Hc. rewrite lookup_drop in Hc.
    pose proof (lookup_lt_Some _ _ _ Hc).
    apply (Hbefore (i - S j)%nat c); [|lia].
    rewrite reverse_lookup by lia. rewrite <-Hc. f_equal. lia.
  - apply list_find_None in E. rewrite Forall_reverse in E. auto.
Qed.

Lemma prefix_max (f k : bytes) :
  Forall (eq Byte.xff) f -> ord_le f k -> f `prefix_of` k.
Proof.
  intros Hf. revert k. induction Hf as [|b f <- Hf IH]; intros k Hk; [apply prefix_nil|].
  unfold ord_le, cmp, ord_bytes in *. destruct k as [|c k]; cbn [bytes_cmp] in Hk; [done|].
  pose proof (b2z_range c). change (b2z Byte.xff) with 255 in Hk.
  destruct (Z.compare_spec 255 (b2z c)) as [Hc|Hc|Hc]; [|lia|done].
  assert (c = Byte.xff) as -> by (by apply b2z_inj). by apply prefix_cons, IH.
Qed.

(** Every key from the prefix up to the bound starts with the prefix. *)
Lemma prefix_between (prefix k : bytes) :
  ord_le prefix k ->
  match prefix_upper_bound prefix with Some u => cmp k u = Lt | None => True end ->
  prefix `prefix_of` k.
Proof.
  pose proof (prefix_upper_bound_spec prefix) as Hu.
  destruct (prefix_upper_bound prefix) as [u|]; [|intros; by apply prefix_max].
  destruct Hu as (p & b & f & -> & Hb & Hf & ->).
  unfold ord_le, cmp, ord_bytes in *. revert k.
  induction p as [|a p IH]; intros [|c k]; cbn; try done.
  - rewrite b2z_z2b, Z.mod_small by (pose proof (b2z_range b); lia).
    destruct (Z.compare_spec (b2z b) (b2z c)) as [E|E|E]; [| |done].
    + apply b2z_inj in E as ->. intros Hk _. by apply prefix_cons, prefix_max.
    + destruct (Z.compare_spec (b2z c) (b2z b + 1)); [by destruct k|lia|done].
  - rewrite (Z.compare_antisym (b2z a) (b2z c)).
    destruct (Z.compare_spec (b2z a) (b2z c)) as [E|E|E]; cbn; [|done|done].
    apply b2z_inj in E as ->. intros H1 H2. by apply prefix_cons, IH.
Qed.

Lemma bytes_cmp_prefix (p k : bytes) : p `prefix_of` k -> ord_le p k.
Proof.
  intros [l ->]. unfold ord_le, cmp, ord_bytes. rewrite <-(app_nil_r p) at 1.
  rewrite bytes_cmp_app. by destruct l.
Qed.

Lemma prefix_below (prefix k : bytes) :
  prefix `prefix_of` k ->
  match prefix_upper_bound prefix with Some u => cmp k u = Lt | None => True end.
Proof.
  intros [l ->]. pose proof (prefix_upper_bound_spec prefix) as Hu.
  destruct (prefix_upper_bound prefix) as [u|]; [|done].
  destruct Hu as (p & b & f & -> & Hb & Hf & ->).
  rewrite <-app_assoc. unfold cmp, ord_bytes. rewrite bytes_cmp_app. cbn.
  rewrite b2z_z2b, Z.mod_small by (pose proof (b2z_range b); lia).
  by replace (b2z b ?= b2z b + 1) with Lt by (symmetry; apply Z.compare_lt_iff; lia).
Qed.

(** ** Streams are scans *)

Lemma take_while_all {A} (f : A -> bool) (l : list A) :
  Forall (fun x => f x = true) l -> take_while f l = l.
Proof. induction 1 as [|x l Hx Hl IH]; cbn; [done|]. by rewrite Hx, IH. Qed.

Lemma take_while_app {A} (f : A -> bool) (k l : list A) :
  Forall (fun x => f x = true) k -> Forall (fun x => f x = false) l -> take_while f (k ++ l) = k.
Proof.
  intros Hk Hl. induction Hk as [|x k Hx Hk IH]; cbn.
  - destruct Hl as [|y l Hy Hl]; cbn; [done|]. by rewrite Hy.
  - by rewrite Hx, IH.
Qed.

Lemma below_prefix (prefix : bytes) (l : list row) :
  filter (fun r => starts_with prefix r.1 = true) (below (prefix_upper_bound prefix) l) =
  filter (fun r => starts_with prefix r.1 = true) l.
Proof.
  destruct (prefix_upper_bound prefix) as [u|] eqn:E; [|done]. cbn [below].
  rewrite list_filter_filter. apply filter_ext_Forall, Forall_true. intros r.
  unfold starts_with. rewrite bool_decide_eq_true. split; [tauto|]. intros Hr. split; [done|].
  apply ltb_lt. pose proof (prefix_below _ _ Hr) as Hb. by rewrite E in Hb.
Qed.

Lemma sorted_split {A} (R : A -> A -> Prop) (f : A -> bool) (l : list A) :
  StronglySorted R l -> (forall x y, R x y -> f x = true -> f y = true) ->
  l = filter (fun x => f x = false) l ++ filter (fun x => f x = true) l.
Proof.
  intros Hl Hf. induction Hl as [|x l Hl IH Hx]; [done|]. destruct (f x) eqn:E.
  - rewrite filter_cons_False, filter_cons_True by (by rewrite E).
    rewrite filter_none, filter_all; [done| |]; eapply Forall_impl; try exact Hx;
      intros y Hy; rewrite (Hf _ _ Hy E); done.
  - rewrite filter_cons_True, filter_cons_False by (by rewrite E).
    cbn [app]. by rewrite <-IH.
Qed.

Lemma iter_prefix_spec (cached rev : bool) (prefix : bytes) (m : column) :
  iter_prefix (It := It) cached rev prefix m =
    Some (if rev then reverse (scan_prefix prefix m) else scan_prefix prefix m).
Proof.
  unfold iter_prefix. rewrite iter_bounded_spec. cbn [fmap option_fmap option_map]. f_equal.
  unfold scan_prefix. rewrite <-below_prefix. set (l := below (prefix_upper_bound prefix) (scan m)).
  assert (Hl : forall r, r ∈ l -> starts_with prefix r.1 = geb r.1 prefix).
  { intros r Hr. apply eq_bool_prop_intro. rewrite !Is_true_true, geb_le.
    unfold starts_with. rewrite bool_decide_eq_true. split; [apply bytes_cmp_prefix|].
    intros Hp. apply prefix_between; [done|]. unfold l in Hr.
    destruct (prefix_upper_bound prefix) as [u|]; [|done].
    apply list_elem_of_filter in Hr as [Hr _]. by apply ltb_lt. }
  assert (Hf : filter (fun r => starts_with prefix r.1 = true) l = filter (fun r => geb r.1 prefix = true) l).
  { apply filter_ext_Forall, Forall_forall. intros r Hr. by rewrite Hl. }
  pose proof (below_sorted (prefix_upper_bound prefix) _ (scan_sorted m)) as Hs. fold l in Hs. clearbody l.
  rewrite Hf. destruct rev; cbn [negb reach_from].
  - rewrite (sorted_split _ (fun r => geb r.1 prefix) _ Hs) at 1 by apply geb_upward.
    rewrite reverse_app. apply take_while_app; apply Forall_reverse, Forall_forall;
      intros r [Hr Hin]%list_elem_of_filter; by rewrite Hl.
  - apply take_while_all, Forall_forall. intros r [Hr Hin]%list_elem_of_filter. by rewrite Hl.
Qed.

End Facts.

(** Taking rows from a prefix on while they start with it. *)
Lemma scan_from_take_while (prefix : bytes) (m : column) :
  take_while (fun r => starts_with prefix r.1) (scan_from prefix m) = scan_prefix prefix m.
Proof.
  unfold scan_prefix, scan_from.
  replace (filter (fun r => starts_with prefix r.1 = true) (scan m)) with
    (filter (fun r => starts_with prefix r.1 = true) (filter (fun r => geb r.1 prefix = true) (scan m))).
  2: { rewrite list_filter_filter. apply filter_ext_Forall, Forall_true. intros r.
       unfold starts_with. rewrite bool_decide_eq_true, geb_le.
       split; [tauto|]. eauto using bytes_cmp_prefix. }
  assert (Hs : StronglySorted (key_le fst) (filter (fun r => geb r.1 prefix = true) (scan m))).
  { eapply StronglySorted_sublist; [apply scan_sorted|apply sublist_filter]. }
  assert (Hge : Forall (fun r : row => geb r.1 prefix = true) (filter (fun r => geb r.1 prefix = true) (scan m))).
  { apply Forall_forall. by intros r [? _]%list_elem_of_filter. }
  induction Hs as [|r l Hs IH Hr]; [done|]. apply Forall_cons in Hge as [Hrp Hge].
  cbn [take_while]. destruct (starts_with prefix r.1) eqn:E.
  - rewrite filter_cons_True by done. by rewrite IH.
  - rewrite filter_cons_False by (by rewrite E). symmetry. apply filter_none.
    rewrite Forall_forall in Hr |- *. intros y Hy Hp. apply bool_decide_eq_true in Hp.
    apply bool_decide_eq_false in E. apply E, prefix_between; [by apply geb_le|].
    pose proof (prefix_below _ _ Hp) as Hb. destruct (prefix_upper_bound prefix); [|done].
    eapply ord_le_lt_trans; [by apply Hr|done].
Qed.

Lemma elem_of_scan_prefix (prefix : bytes) (m : column) (r : row) :
  r ∈ scan_prefix prefix m <-> m !! r.1 = Some r.2 /\ prefix `prefix_of` r.1.
Proof.
  unfold scan_prefix. rewrite list_elem_of_filter, elem_of_scan.
  unfold starts_with. rewrite bool_decide_eq_true. tauto.
Qed.

(** The keys below a prefix are strictly increasing. *)
Lemma scan_prefix_sorted (prefix : bytes) (m : column) :
  StronglySorted (fun a b => cmp a.1 b.1 = Lt) (scan_prefix prefix m).
Proof.
  eapply StronglySorted_sublist; [|apply sublist_filter].
  pose proof (scan_sorted m) as Hs. pose proof (NoDup_scan m) as Hn.
  induction Hs as [|r l Hs IH Hr]; [constructor|].
  rewrite fmap_cons in Hn. apply NoDup_cons in Hn as [Hr' Hn]. constructor; [auto|].
  rewrite Forall_forall in Hr |- *. intros y Hy.
  destruct (proj1 (ord_le_cases _ _) (Hr y Hy)) as [|E]; [done|].
  destruct Hr'. rewrite E. by apply list_elem_of_fmap_2.
Qed.

End CursorFacts.

(** ** An iterator *)

(** The laws have a model: the rows and a position. *)
Module ListIterator.
Import Rocks.

#[export] Instance list_iterator : RawIterator (list row * option nat) := {
  open m u := (below u (scan m), None);
  seek k it := (it.1, fst <$> list_find (fun r => geb r.1 k = true) it.1);
  seek_for_prev k it := (it.1, last_index (fun r => gtb r.1 k = false) it.1);
  seek_to_first it := (it.1, fst <$> list_find (fun _ => True) it.1);
  seek_to_last it := (it.1, last_index (fun _ => True) it.1);
  next it := (it.1, i ← it.2; if decide (S i < length it.1)%nat then Some (S i) else None);
  prev it := (it.1, i ← it.2; match i with O => None | S i => Some i end);
  item it := i ← it.2; it.1 !! i
}.

#[export] Instance list_iterator_laws : RawIteratorLaws (list row * option nat).
Proof.
  refine {| view := id |}; try done; intros [l p] i Hp; cbn in Hp; by subst.
Qed.

End ListIterator.

(** ** Properties *)

Section Properties.
Import Rocks Cursor CursorFacts.
Context {It : Type} `{RawIteratorLaws It}.

(** C39: a stream over a prefix yields exactly the rows whose key starts with it, in
    the order of their keys or in reverse, and a stream from a key exactly the rows
    at or past it, or at or before it; whether the first block was cached makes no
    difference, the stream always ends, and the key and count variants agree. *)
Theorem prefix_stream_exact (cached : bool) (prefix : bytes) (m : column) :
  raw_stream_prefix (It := It) cached prefix m = Some (scan_prefix prefix m) /\
  rev_raw_stream_prefix (It := It) cached prefix m = Some (reverse (scan_prefix prefix m)) /\
  raw_stream_from (It := It) cached prefix m = Some (scan_from prefix m) /\
  raw_count_prefix (It := It) cached prefix m = Some (length (scan_prefix prefix m)) /\
  StronglySorted (fun a b => cmp a.1 b.1 = Lt) (scan_prefix prefix m) /\
  (forall k v, (k, v) ∈ scan_prefix prefix m <-> m !! k = Some v /\ prefix `prefix_of` k).
Proof.
  split_and!.
  - apply (iter_prefix_spec cached false).
  - apply (iter_prefix_spec cached true).
  - unfold raw_stream_from, iter_from. by rewrite iter_bounded_spec.
  - unfold raw_count_prefix, raw_keys_prefix, FORWARD. rewrite iter_prefix_spec.
    cbn [fmap option_fmap option_map]. unfold fetch_keys. by rewrite length_fmap.
  - apply scan_prefix_sorted.
  - intros k v. apply (elem_of_scan_prefix prefix m (k, v)).
Qed.

End Properties.

Import ListIterator.

Lemma prefix_stream_exact_witness :
  let m : column := {[ [Byte.x61; Byte.xff; Byte.x01] := [Byte.x01]; [Byte.x61; Byte.xff; Byte.x00] := []; [Byte.x62] := [] ]} in
  Cursor.rev_raw_stream_prefix (It := list row * option nat) true [Byte.x61; Byte.xff] m =
    Some [([Byte.x61; Byte.xff; Byte.x01], [Byte.x01]); ([Byte.x61; Byte.xff; Byte.x00], [])].
Proof.
  intros m. destruct (prefix_stream_exact (It := list row * option nat) true [Byte.x61; Byte.xff] m)
    as (_ & -> & _).
  vm_compute. reflexivity.
Defined.
