(* ===== verification/Watchers.v ===== *)
(** The watchers of [phantom-database/src/map/watchers.rs]: for every watched prefix
    the waiters to notify, and [wake], which looks the triggered prefixes up under
    the read lock and fires them under the write lock. *)
From S2P Require Import Prelude Order Cursor.

Module Watchers.

(** For every watched prefix, the waiters subscribed to its channel. *)
Abbreviation t := (gmap bytes (gset nat)).

Definition watch (prefix : bytes) (waiter : nat) (ws : t) : t :=
  match ws !! prefix with
  | Some waiters => <[prefix := {[waiter]} ∪ waiters]> ws
  | None => <[prefix := {[waiter]}]> ws
  end.

(** The prefixes of a key, [&key[..len]] for each [len] up to its length. *)
Definition prefixes (key : bytes) : list bytes :=
  (fun len => take len key) <$> seq 0 (S (length key)).

(** The first half of [wake], under the read lock: the watched prefixes of [key],
    by whichever lookup is shorter. *)
Definition triggered (ws : t) (key : bytes) : list bytes :=
  if decide (ws = ∅) then [] else
  if (size ws <=? length key)%nat
  then filter (fun prefix => starts_with prefix key = true) (map_to_list ws).*1
  else filter (fun prefix => is_Some (ws !! prefix)) (prefixes key).

(** The second half, under the write lock: each sender is taken out and its
    waiters are notified. *)
Fixpoint fire (prefixes : list bytes) (ws : t) : t * gset nat :=
  match prefixes with
  | [] => (ws, ∅)
  | prefix :: prefixes =>
      match ws !! prefix with
      | Some waiters =>
          let '(ws, woken) := fire prefixes (delete prefix ws) in (ws, waiters ∪ woken)
      | None => fire prefixes ws
      end
  end.

Definition wake (key : bytes) (ws : t) : t * gset nat := fire (triggered ws key) ws.

(** ** Interleavings *)

(** Tasks that watch or write. A task between the two halves of [wake] holds the
    prefixes it has collected. *)
Record Sys := mkSys { watchers : t; woken : gset nat; waking : gmap nat (list bytes) }.

Inductive op := Watch (prefix : bytes) | Read (key : bytes) | Fire.

Definition exec (y : Sys) (task : nat) (o : op) : option Sys :=
  match o, waking y !! task with
  | Watch prefix, None => Some (mkSys (watch prefix task (watchers y)) (woken y) (waking y))
  | Read key, None =>
      Some (mkSys (watchers y) (woken y) (<[task := triggered (watchers y) key]> (waking y)))
  | Fire, Some ps =>
      let '(ws, woke) := fire ps (watchers y) in
      Some (mkSys ws (woke ∪ woken y) (delete task (waking y)))
  | _, _ => None
  end.

(** Zero or more steps of tasks other than [t]. *)
Inductive others (task : nat) : Sys -> Sys -> Prop :=
  | others_done y : others task y y
  | others_step y t o y' y'' :
      t <> task -> exec y t o = Some y' -> others task y' y'' -> others task y y''.

(** ** Lemmas *)

Lemma elem_of_prefixes p key : p ∈ prefixes key <-> p `prefix_of` key.
Proof.
  unfold prefixes. rewrite list_elem_of_fmap. setoid_rewrite elem_of_seq. split.
  - intros (n & -> & _). apply prefix_take.
  - intros [l ->]. exists (length p). rewrite take_app_length. split; [done|].
    rewrite length_app. lia.
Qed.

(** Both lookups find the watched prefixes of the key. *)
Lemma elem_of_triggered ws key p :
  p ∈ triggered ws key <-> is_Some (ws !! p) /\ p `prefix_of` key.
Proof.
  unfold triggered. case_decide as Hws.
  { subst. rewrite lookup_empty. split; [by intros ?%elem_of_nil|intros [[??] ?]; done]. }
  case_match; rewrite list_elem_of_filter.
  - unfold starts_with. rewrite bool_decide_eq_true.
    assert (p ∈ (map_to_list ws).*1 <-> is_Some (ws !! p)) as ->; [|tauto].
    rewrite list_elem_of_fmap. split.
    + intros ([q v] & -> & Hq%elem_of_map_to_list). by exists v.
    + intros [v Hv]. exists (p, v). split; [done|]. by apply elem_of_map_to_list.
  - by rewrite elem_of_prefixes.
Qed.

Lemma fire_spec ps ws :
  (forall q v, (fire ps ws).1 !! q = Some v <-> ws !! q = Some v /\ q ∉ ps) /\
  (forall w, w ∈ (fire ps ws).2 <-> exists p v, p ∈ ps /\ ws !! p = Some v /\ w ∈ v).
Proof.
  revert ws. induction ps as [|p ps IH]; intros ws; cbn [fire].
  { split; [intros q v; cbn; set_solver|intros w; cbn; set_solver]. }
  destruct (ws !! p) as [v|] eqn:E.
  - specialize (IH (delete p ws)). destruct (fire ps (delete p ws)) as [ws' woke].
    cbn in *. destruct IH as [IH1 IH2]. split.
    + intros q u. rewrite IH1, lookup_delete_Some. set_solver.
    + intros w. rewrite elem_of_union, IH2. setoid_rewrite lookup_delete_Some. split.
      * intros [Hw|(q & u & Hq & [_ Hu] & Hw)]; [exists p, v|exists q, u]; set_solver.
      * intros (q & u & Hq & Hu & Hw). destruct (decide (q = p)) as [->|]; [set_solver|].
        right. exists q, u. set_solver.
  - destruct (IH ws) as [IH1 IH2]. split.
    + intros q u. rewrite IH1. set_solver.
    + intros w. rewrite IH2. set_solver.
Qed.

Lemma watch_keeps q w ws p v :
  ws !! p = Some v -> exists v', watch q w ws !! p = Some v' /\ v ⊆ v'.
Proof.
  intros Hp. unfold watch. destruct (decide (q = p)) as [->|Hne].
  - rewrite Hp, lookup_insert_eq. eexists; split; [done|]. set_solver.
  - destruct (ws !! q); rewrite lookup_insert_ne by done; eauto.
Qed.

(** A waiter [w] on [p] is still registered, or has been woken. *)
Definition kept (w : nat) (p : bytes) (y : Sys) : Prop :=
  w ∈ woken y \/ exists v, watchers y !! p = Some v /\ w ∈ v.

Lemma exec_kept w p y t o y' : exec y t o = Some y' -> kept w p y -> kept w p y'.
Proof.
  unfold exec, kept. intros E [Hw|(v & Hv & Hw)];
    destruct o as [q|key|], (waking y !! t); try done;
    try (destruct (fire _ _) as [ws woke] eqn:F); injection E as <-; cbn.
  1-3: left; set_solver.
  - right. destruct (watch_keeps q t _ _ _ Hv) as (v' & ? & ?). exists v'. set_solver.
  - eauto.
  - destruct (fire_spec l (watchers y)) as [F1 F2]. rewrite F in F1, F2. cbn in F1, F2.
    destruct (decide (p ∈ l)).
    + left. apply elem_of_union_l, F2. eauto.
    + right. exists v. by rewrite F1.
Qed.

Lemma others_kept w p task y y' : others task y y' -> kept w p y -> kept w p y'.
Proof. induction 1; eauto using exec_kept. Qed.

Lemma others_waking task y y' : others task y y' -> waking y' !! task = waking y !! task.
Proof.
  induction 1 as [|y t o y' y'' Hne E _ IH]; [done|]. rewrite IH. clear IH.
  unfold exec in E. destruct o, (waking y !! t); try done.
  3: destruct (fire _ _). all: injection E as <-; cbn; try done.
  - by rewrite lookup_insert_ne.
  - by rewrite lookup_delete_ne.
Qed.

(** ** Properties *)

(** No wake-up is lost: a waiter registered on a prefix of a key before a write
    of the key starts to wake is woken once that wake has run, whatever other
    tasks watch and wake in between; and a wake that runs alone notifies exactly
    the waiters on a prefix of its key, and forgets their prefixes. *)
Theorem wake_not_lost (y y1 y2 y3 : Sys) (task w : nat) (p key : bytes) (v : gset nat) :
  watchers y !! p = Some v -> w ∈ v -> p `prefix_of` key ->
  exec y task (Read key) = Some y1 -> others task y1 y2 -> exec y2 task Fire = Some y3 ->
  w ∈ woken y3 /\
  (forall u, u ∈ (wake key (watchers y)).2 <->
     exists q vs, watchers y !! q = Some vs /\ q `prefix_of` key /\ u ∈ vs) /\
  (forall q, is_Some ((wake key (watchers y)).1 !! q) <->
     is_Some (watchers y !! q) /\ ~ q `prefix_of` key).
Proof.
  intros Hv Hw Hp E1 Ho E3. split_and!.
  - assert (Hk : kept w p y2).
    { eapply others_kept; [done|]. eapply exec_kept; [done|]. right. eauto. }
    assert (Hps : waking y2 !! task = Some (triggered (watchers y) key)).
    { rewrite (others_waking _ _ _ Ho). unfold exec in E1.
      destruct (waking y !! task); [done|]. injection E1 as <-. apply lookup_insert_eq. }
    unfold exec in E3. rewrite Hps in E3. destruct (fire _ _) as [ws woke] eqn:F.
    injection E3 as <-. cbn. destruct Hk as [?|(v' & Hv' & Hw')]; [set_solver|].
    apply elem_of_union_l.
    destruct (fire_spec (triggered (watchers y) key) (watchers y2)) as [_ F2].
    rewrite F in F2. apply F2. exists p, v'. rewrite elem_of_triggered. eauto.
  - intros u. unfold wake. rewrite (proj2 (fire_spec _ _)). setoid_rewrite elem_of_triggered.
    naive_solver.
  - intros q. unfold wake, is_Some. setoid_rewrite (proj1 (fire_spec _ _)).
    setoid_rewrite elem_of_triggered. unfold is_Some. naive_solver.
Qed.

Definition sample_watched : Sys := mkSys {[ [Byte.x61] := {[1%nat]} ]} ∅ ∅.

Lemma wake_not_lost_witness :
  exists y1 y2 y3, exec sample_watched 2 (Read [Byte.x61; Byte.x62]) = Some y1 /\
    exec y1 3 (Watch []) = Some y2 /\ exec y2 2 Fire = Some y3 /\ 1%nat ∈ woken y3.
Proof.
  eexists _, _, _. do 3 (split; [vm_compute; reflexivity|]).
  refine (proj1 (wake_not_lost sample_watched _ _ _ 2 1 [Byte.x61] [Byte.x61; Byte.x62] {[1%nat]}
    _ _ _ _ _ _)).
  - vm_compute; reflexivity.
  - by apply elem_of_singleton.
  - by exists [Byte.x62].
  - vm_compute; reflexivity.
  - eapply (others_step 2 _ 3 (Watch [])); [done|vm_compute; reflexivity|constructor].
  - vm_compute; reflexivity.
Defined.

End Watchers.
