(* ===== verification/Maps.v ===== *)
(** The column maps of the database: the write paths of
    [phantom-database/src/map/insert.rs], [del_prefix.rs] and [clear.rs], the
    transaction of [store/txn.rs] and the corks of [store/cork.rs] and
    [engine/mod.rs]; a committed write wakes the watchers of Watchers.v.

    RocksDB applies a write batch whole or not at all; whether it does, and whether
    the flush after it succeeds, is an argument of every write ([io]). *)
From S2P Require Import Prelude Order Cursor Watchers.

Module Maps.

Inductive error := WriteFailed | FlushFailed.

(** How RocksDB answers a write and the flush after it. *)
Record io := mkIo { writes : bool; flushes : bool }.
Definition io_ok : io := mkIo true true.

(** The columns by name, who watches them, who has been woken, and how many corks
    are held. *)
Record Db := mkDb {
  cfs : gmap string column;
  watching : gmap string Watchers.t;
  woken : gset nat;
  corks : nat
}.

Definition cf (name : string) (db : Db) : column := default ∅ (cfs db !! name).
Definition set_cfs (c : gmap string column) (db : Db) : Db :=
  mkDb c (watching db) (woken db) (corks db).

Definition cork (db : Db) : Db := mkDb (cfs db) (watching db) (woken db) (S (corks db)).
Definition uncork (db : Db) : Db := mkDb (cfs db) (watching db) (woken db) (pred (corks db)).
Definition corked (db : Db) : bool := (0 <? corks db)%nat.

(** One operation of a [WriteBatch]. *)
Inductive write := Put (name : string) (key val : bytes) | Del (name : string) (key : bytes).

Definition apply_write (w : write) (c : gmap string column) : gmap string column :=
  match w with
  | Put name key val => <[name := <[key := val]> (default ∅ (c !! name))]> c
  | Del name key => <[name := delete key (default ∅ (c !! name))]> c
  end.

Definition apply_batch (ws : list write) (c : gmap string column) : gmap string column :=
  foldl (fun c w => apply_write w c) c ws.

(** [write_opt], [put_cf_opt] and [delete_cf_opt]: a batch, or the one write of it. *)
Definition write_opt (i : io) (ws : list write) (db : Db) : result error Db :=
  if writes i then Ok (set_cfs (apply_batch ws (cfs db)) db) else Err WriteFailed.

Definition flush (i : io) : result error unit := if flushes i then Ok () else Err FlushFailed.

Definition flush_if_uncorked (i : io) (db : Db) : result error unit :=
  if corked db then Ok () else flush i.

Definition wake (name : string) (key : bytes) (db : Db) : Db :=
  let '(ws, woke) := Watchers.wake key (default ∅ (watching db !! name)) in
  mkDb (cfs db) (<[name := ws]> (watching db)) (woke ∪ woken db) (corks db).

(** A write, the flush, and the wake-ups: what every write path does in this order.
    A failed flush leaves the write in place and wakes nobody. *)
Definition insert (i : io) (name : string) (key val : bytes) (db : Db) : Db * result error unit :=
  match write_opt i [Put name key val] db with
  | Err e => (db, Err e)
  | Ok db =>
      match flush_if_uncorked i db with
      | Err e => (db, Err e)
      | Ok _ => (wake name key db, Ok ())
      end
  end.

Definition insert_batch (i : io) (name : string) (iter : list row) (db : Db) : Db * result error unit :=
  match write_opt i ((fun r => Put name r.1 r.2) <$> iter) db with
  | Err e => (db, Err e)
  | Ok db =>
      match flush_if_uncorked i db with
      | Err e => (db, Err e)
      | Ok _ => (foldl (fun db key => wake name key db) db iter.*1, Ok ())
      end
  end.

(** A removal wakes nobody. *)
Definition remove (i : io) (name : string) (key : bytes) (db : Db) : Db * result error unit :=
  match write_opt i [Del name key] db with
  | Err e => (db, Err e)
  | Ok db => (db, flush_if_uncorked i db)
  end.

(** [raw_del_prefix]: the keys are those of the column when the stream was opened;
    an error on one of them is ignored. *)
Definition raw_del_prefix (ios : bytes -> io) (name : string) (prefix : bytes) (db : Db) : Db :=
  uncork (foldl (fun db key => (remove (ios key) name key db).1) (cork db)
    (scan_prefix prefix (cf name db)).*1).

(** [clear]: the stream of keys, each removed, drained by [count]. *)
Definition clear (ios : bytes -> io) (name : string) (db : Db) : Db :=
  foldl (fun db key => (remove (ios key) name key db).1) db (scan (cf name db)).*1.

(** ** Transactions *)

Record Txn := mkTxn { batch : list write; written : list (string * bytes) }.

Definition txn_new : Txn := mkTxn [] [].
Definition txn_insert (name : string) (key val : bytes) (t : Txn) : Txn :=
  mkTxn (batch t ++ [Put name key val]) (written t ++ [(name, key)]).
Definition txn_remove (name : string) (key : bytes) (t : Txn) : Txn :=
  mkTxn (batch t ++ [Del name key]) (written t ++ [(name, key)]).

Definition txn_execute (i : io) (t : Txn) (db : Db) : Db * result error unit :=
  match batch t with
  | [] => (db, Ok ())
  | _ =>
      match write_opt i (batch t) db with
      | Err e => (db, Err e)
      | Ok db =>
          match flush_if_uncorked i db with
          | Err e => (db, Err e)
          | Ok _ => (foldl (fun db nk => wake nk.1 nk.2 db) db (written t), Ok ())
          end
      end
  end.

(** ** Lemmas *)

Lemma apply_write_lookup w c name :
  default ∅ (apply_write w c !! name) =
    match w with
    | Put n k v => if decide (n = name) then <[k := v]> (default ∅ (c !! name))
                   else default ∅ (c !! name)
    | Del n k => if decide (n = name) then delete k (default ∅ (c !! name))
                 else default ∅ (c !! name)
    end.
Proof.
  destruct w as [n k v|n k]; cbn [apply_write]; case_decide as E; subst;
    rewrite ?lookup_insert_eq, ?lookup_insert_ne by done; done.
Qed.

Lemma wake_cfs name key db : cfs (wake name key db) = cfs db.
Proof. unfold wake. by destruct (Watchers.wake _ _). Qed.

Lemma wake_corks name key db : corks (wake name key db) = corks db.
Proof. unfold wake. by destruct (Watchers.wake _ _). Qed.

Lemma wakes_cfs {A} (f : A -> string * bytes) (l : list A) db :
  cfs (foldl (fun db x => wake (f x).1 (f x).2 db) db l) = cfs db.
Proof. revert db. induction l as [|x l IH]; intros db; [done|]. cbn [foldl]. by rewrite IH, wake_cfs. Qed.

(** Whether a batch reached the columns depends on the write alone. *)
Lemma insert_batch_cfs i name iter db :
  cfs (insert_batch i name iter db).1 =
    if writes i then apply_batch ((fun r => Put name r.1 r.2) <$> iter) (cfs db) else cfs db.
Proof.
  unfold insert_batch, write_opt. destruct (writes i); [|done].
  destruct (flush_if_uncorked _ _); [|done]. cbn [fst].
  by rewrite (wakes_cfs (fun k => (name, k))).
Qed.

Lemma txn_execute_cfs i t db :
  cfs (txn_execute i t db).1 = if writes i then apply_batch (batch t) (cfs db) else cfs db.
Proof.
  unfold txn_execute. destruct (batch t) as [|w b] eqn:E; [by destruct (writes i)|].
  rewrite <-E. unfold write_opt. destruct (writes i); [|done].
  destruct (flush_if_uncorked _ _); [|done]. cbn [fst]. by rewrite (wakes_cfs id).
Qed.

(** An error of a transaction is the write's, and then nothing changed, or the flush's. *)
Lemma txn_execute_ok i t db :
  (txn_execute i t db).2 = Ok () -> batch t <> [] -> writes i = true.
Proof. unfold txn_execute, write_opt. destruct (batch t); [done|]. by destruct (writes i). Qed.

Lemma remove_cfs i name key db :
  cfs (remove i name key db).1 =
    if writes i then apply_write (Del name key) (cfs db) else cfs db.
Proof. unfold remove, write_opt. by destruct (writes i). Qed.

Lemma removes_cf (ios : bytes -> io) name keys db n k v :
  cf n (foldl (fun db key => (remove (ios key) name key db).1) db keys) !! k = Some v <->
  cf n db !! k = Some v /\ ~ (n = name /\ k ∈ keys /\ writes (ios k) = true).
Proof.
  revert db. induction keys as [|key keys IH]; intros db; cbn [foldl].
  { setoid_rewrite elem_of_nil. tauto. }
  setoid_rewrite elem_of_cons. rewrite IH. unfold cf at 1. rewrite remove_cfs. destruct (writes (ios key)) eqn:Ew.
  - rewrite apply_write_lookup. fold (cf n db). case_decide as E.
    + subst. rewrite lookup_delete_Some. destruct (decide (k = key)) as [->|]; naive_solver.
    + naive_solver.
  - fold (cf n db). destruct (decide (k = key)) as [->|]; [|naive_solver].
    rewrite Ew. naive_solver.
Qed.

(** Deleting by prefix removes the rows below it whose removal the database took,
    and no other row of any column. *)
Lemma raw_del_prefix_cf ios name prefix db n k v :
  cf n (raw_del_prefix ios name prefix db) !! k = Some v <->
  cf n db !! k = Some v /\ ~ (n = name /\ prefix `prefix_of` k /\ writes (ios k) = true).
Proof.
  unfold raw_del_prefix.
  change (cf n (uncork ?x)) with (cf n x).
  rewrite removes_cf. change (cf n (cork db)) with (cf n db).
  assert (Hk : forall u, cf name db !! k = Some u ->
    k ∈ (scan_prefix prefix (cf name db)).*1 <-> prefix `prefix_of` k).
  { intros u Hu. rewrite list_elem_of_fmap. unfold scan_prefix. split.
    - intros ([k' v'] & -> & [Hp _]%list_elem_of_filter). by apply bool_decide_eq_true in Hp.
    - intros Hp. exists (k, u). split; [done|]. apply list_elem_of_filter, conj; [|by apply elem_of_scan].
      by apply bool_decide_eq_true. }
  split; intros [H1 H2]; (split; [done|]); intros (-> & H3 & H4); apply H2; split_and!; try done;
    by apply (Hk v).
Qed.

End Maps.
