(* ===== verification/SendingData.v ===== *)
(** The outgoing queue on disk: destinations and the rows of their events,
    [phantom-service/src/net/sending/dest.rs] and [data.rs].

    An event waits in [servernameevent_data] under the prefix of its destination
    and moves to [servercurrentevent_data] when a transaction takes it. Strings
    are their bytes; which of them [ruma] accepts as a server name or a user id is
    the class [Names]. *)
From S2P Require Import Prelude Order PduId Codec Cursor Maps Short.

(** What the queue asks of [ruma]: [ServerName::parse] and [UserId::parse]. A server
    name is a host and an optional port, so it starts with neither sigil. *)
Class Names := {
  server_name_parse : bytes -> bool;
  user_id_parse : bytes -> bool
}.
Class NamesLaws `{Names} : Prop := {
  server_name_utf8 s : server_name_parse s = true -> Utf8.valid s = true;
  server_name_first s : server_name_parse s = true ->
    head s <> Some Byte.x2b /\ head s <> Some Byte.x24;
  user_id_utf8 u : user_id_parse u = true -> Utf8.valid u = true
}.

Module Sending.
Import PduId.RawId.

(** ** Destinations *)

Inductive Destination :=
  | Appservice (id : bytes)
  | Push (user pushkey : bytes)
  | Federation (server : bytes).

#[export] Instance Destination_eq_dec : EqDecision Destination.
Proof. solve_decision. Defined.

#[export] Instance Destination_countable : Countable Destination :=
  inj_countable' (A := bytes + (bytes * bytes) + bytes)
    (fun d => match d with Appservice i => inl (inl i) | Push u p => inl (inr (u, p))
              | Federation s => inr s end)
    (fun x => match x with inl (inl i) => Appservice i | inl (inr (u, p)) => Push u p
              | inr s => Federation s end)
    ltac:(by intros []).

(** [SendClass], numbered as [SendClass::ALL] orders it. *)
Inductive SendClass := ClassFederation | ClassAppservice | ClassPush.

Definition class (d : Destination) : SendClass :=
  match d with
  | Appservice _ => ClassAppservice
  | Push _ _ => ClassPush
  | Federation _ => ClassFederation
  end.

Definition SIGIL_APPSERVICE : byte := Byte.x2b.
Definition SIGIL_PUSH : byte := Byte.x24.
Abbreviation SEP := Codec.SEP.

Definition get_prefix (d : Destination) : bytes :=
  match d with
  | Federation server => server ++ [SEP]
  | Appservice server => [SIGIL_APPSERVICE] ++ server ++ [SEP]
  | Push user pushkey => [SIGIL_PUSH] ++ user ++ [SEP] ++ pushkey ++ [SEP]
  end.

Inductive SendingEvent :=
  | Pdu (id : RawId)
  | Edu (buf : bytes)
  | Flush.

(** ** Rows *)

Abbreviation Key := bytes.
Abbreviation QueueItem := (Key * SendingEvent)%type.

(** [BadDatabase]: a row that does not parse. [Panic]: an event id of an
    unrecognized length, or an [expect] that failed. *)
Inductive error := BadDatabase | Panic.

(** [splitn(n, |b| b == 0xFF)] *)
Fixpoint split_sep (l : bytes) : bytes * option bytes :=
  match l with
  | [] => ([], None)
  | b :: l =>
      if decide (b = SEP) then ([], Some l)
      else let '(p, r) := split_sep l in (b :: p, r)
  end.

Fixpoint splitn (n : nat) (l : bytes) : list bytes :=
  match n with
  | O => []
  | S O => [l]
  | S n =>
      match split_sep l with
      | (p, Some r) => p :: splitn n r
      | (p, None) => [p]
      end
  end.

Section Parse.
Context `{Names}.

(** [text::string_from_bytes] and [str_from_bytes]: the bytes are UTF-8. *)
Definition string_from_bytes (b : bytes) : result error bytes :=
  if Utf8.valid b then Ok b else Err BadDatabase.

(** An empty value says that the key ends in the id of a PDU. *)
Definition parse_event (event value : bytes) : result error SendingEvent :=
  match value with
  | [] => Pdu <$> ok_or (from_slice event) Panic
  | _ => Ok (Edu value)
  end.

(** The last branch: neither sigil. *)
Definition parse_federation (key value : bytes) : result error (Destination * SendingEvent) :=
  let parts := splitn 2 key in
  server ← ok_or (parts !! 0%nat) Panic;
  event ← ok_or (parts !! 1%nat) BadDatabase;
  server ← string_from_bytes server;
  _ ← (if server_name_parse server then Ok () else Err BadDatabase);
  event ← parse_event event value;
  Ok (Federation server, event).

Definition parse_servercurrentevent (key value : bytes) :
    result error (Destination * SendingEvent) :=
  match key with
  | b :: rest =>
      if decide (b = SIGIL_APPSERVICE) then
        let parts := splitn 2 rest in
        server ← ok_or (parts !! 0%nat) Panic;
        event ← ok_or (parts !! 1%nat) BadDatabase;
        server ← string_from_bytes server;
        event ← parse_event event value;
        Ok (Appservice server, event)
      else if decide (b = SIGIL_PUSH) then
        let parts := splitn 3 rest in
        user ← ok_or (parts !! 0%nat) Panic;
        user ← string_from_bytes user;
        _ ← (if user_id_parse user then Ok () else Err BadDatabase);
        pushkey ← ok_or (parts !! 1%nat) BadDatabase;
        pushkey ← string_from_bytes pushkey;
        event ← ok_or (parts !! 2%nat) BadDatabase;
        event ← parse_event event value;
        Ok (Push user pushkey, event)
      else parse_federation key value
  | [] => parse_federation key value
  end.

(** ** The tables *)

Definition CURRENT : string := "servercurrentevent_data".
Definition QUEUED : string := "servernameevent_data".
Definition EDUCOUNT : string := "servername_educount".

(** The value stored with an event. *)
Definition event_value (e : SendingEvent) : bytes :=
  match e with Edu val => val | Pdu _ | Flush => [] end.

Definition delete_active_request (i : Maps.io) (key : Key) (db : Maps.Db) : Maps.Db :=
  (Maps.remove i CURRENT key db).1.

Definition delete_all_active_requests_for (ios : Key -> Maps.io) (d : Destination) (db : Maps.Db) :
    Maps.Db :=
  Maps.raw_del_prefix ios CURRENT (get_prefix d) db.

Definition delete_all_requests_for (ios ios' : Key -> Maps.io) (d : Destination) (db : Maps.Db) :
    Maps.Db :=
  Maps.raw_del_prefix ios' QUEUED (get_prefix d) (Maps.raw_del_prefix ios CURRENT (get_prefix d) db).

Definition mark_as_active (i : Maps.io) (events : list QueueItem) (db : Maps.Db) :
    Maps.Db * result Maps.error unit :=
  let txn :=
    foldl (fun txn (ke : QueueItem) =>
        Maps.txn_remove QUEUED ke.1 (Maps.txn_insert CURRENT ke.1 (event_value ke.2) txn))
      Maps.txn_new (filter (fun ke => ke.1 <> []) events) in
  Maps.txn_execute i txn db.

(** Each row of a stream parses, or the [expect] on it panics. *)
Definition parse_row (r : row) : result error (Key * SendingEvent * Destination) :=
  match parse_servercurrentevent r.1 r.2 with
  | Ok (dest, event) => Ok (r.1, event, dest)
  | Err _ => Err Panic
  end.

Fixpoint parse_rows (rs : list row) : result error (list (Key * SendingEvent * Destination)) :=
  match rs with
  | [] => Ok []
  | r :: rs => x ← parse_row r; xs ← parse_rows rs; Ok (x :: xs)
  end.

Definition active_requests (db : Maps.Db) : result error (list (Key * SendingEvent * Destination)) :=
  parse_rows (scan (Maps.cf CURRENT db)).

(** [raw_stream_from(&prefix).ready_take_while(starts_with)] *)
Definition rows_for (name : string) (d : Destination) (db : Maps.Db) : list row :=
  Cursor.take_while (fun r => starts_with (get_prefix d) r.1) (scan_from (get_prefix d) (Maps.cf name db)).

Definition active_requests_for (d : Destination) (db : Maps.Db) : result error (list QueueItem) :=
  (fun xs => xs.*1) <$> parse_rows (rows_for CURRENT d db).

(** [queued_requests(dest).take(limit)]: the stream is lazy, so a row past the
    limit is never parsed. *)
Definition queued_requests (limit : nat) (d : Destination) (db : Maps.Db) :
    result error (list QueueItem) :=
  (fun xs => xs.*1) <$> parse_rows (take limit (rows_for QUEUED d db)).

(** The key of a request: a PDU is keyed by its id, anything else by a number drawn
    from the counter, whose write succeeds or not. *)
Definition request_key (ok : bool) (event : SendingEvent) (dest : Destination)
    (c : ServerCounter.Counter) : ServerCounter.Counter * result ServerCounter.error Key :=
  let key := get_prefix dest in
  match event with
  | Pdu value => (c, Ok (key ++ as_bytes value))
  | _ =>
      let '(c, count) := ServerCounter.next ok c in
      (c, (fun count => key ++ be_bytes 8 count) <$> count)
  end.

(** [collect::<Result<_>>]: the keys in order, up to the first error. [ok n] is for the
    counter's write at the [n]th request. *)
Fixpoint request_keys (ok : nat -> bool) (n : nat) (requests : list (SendingEvent * Destination))
    (c : ServerCounter.Counter) : ServerCounter.Counter * result ServerCounter.error (list Key) :=
  match requests with
  | [] => (c, Ok [])
  | (event, dest) :: requests =>
      match request_key (ok n) event dest c with
      | (c, Err e) => (c, Err e)
      | (c, Ok key) =>
          let '(c, keys) := request_keys ok (S n) requests c in
          (c, cons key <$> keys)
      end
  end.

(** Ways a queue write fails. *)
Inductive queue_error := CounterError (e : ServerCounter.error) | DbError (e : Maps.error).

Definition queue_requests (ok : nat -> bool) (i : Maps.io)
    (requests : list (SendingEvent * Destination)) (c : ServerCounter.Counter) (db : Maps.Db) :
    ServerCounter.Counter * Maps.Db * result queue_error (list Key) :=
  match request_keys ok 0 requests c with
  | (c, Err e) => (c, db, Err (CounterError e))
  | (c, Ok keys) =>
      match Maps.insert_batch i QUEUED (zip keys (event_value <$> requests.*1)) db with
      | (db, Err e) => (c, db, Err (DbError e))
      | (db, Ok _) => (c, db, Ok keys)
      end
  end.

(** Federation, appservice and push rows, counted by the first byte of the key. *)
Definition row_class (key : Key) : SendClass :=
  match key with
  | b :: _ =>
      if decide (b = SIGIL_APPSERVICE) then ClassAppservice
      else if decide (b = SIGIL_PUSH) then ClassPush else ClassFederation
  | [] => ClassFederation
  end.

#[export] Instance SendClass_eq_dec : EqDecision SendClass.
Proof. solve_decision. Defined.

Definition depth (name : string) (c : SendClass) (db : Maps.Db) : Z :=
  foldl (fun n (r : row) => if decide (row_class r.1 = c) then u64_saturating_add n 1 else n) 0
    (scan (Maps.cf name db)).

Record QueueDepths := mkDepths { queued : SendClass -> Z; active : SendClass -> Z }.

Definition queue_depths (db : Maps.Db) : QueueDepths :=
  mkDepths (fun c => depth QUEUED c db) (fun c => depth CURRENT c db).

Definition set_latest_educount (i : Maps.io) (server : bytes) (last_count : Z) (db : Maps.Db) :
    Maps.Db * result Maps.error unit :=
  Maps.insert i EDUCOUNT server (be_bytes 8 last_count) db.

(** [get_latest_educount]: a number that does not decode counts as none. *)
Definition get_latest_educount (server : bytes) (db : Maps.Db) : Z :=
  default 0 (b ← Maps.cf EDUCOUNT db !! server; Bytes.u64_from_bytes b).

End Parse.

(** ** Well-formed rows *)

Section Rows.
Context `{NamesLaws}.
Implicit Types (d : Destination) (e : SendingEvent) (k v suf : bytes).

(** What the types of the fields guarantee: text is UTF-8, ids have been parsed. *)
Definition valid_dest d : bool :=
  match d with
  | Appservice id => Utf8.valid id
  | Push user pushkey => user_id_parse user && Utf8.valid pushkey
  | Federation server => server_name_parse server
  end.

(** The row of an event that was queued for a destination: a PDU under its id, an
    EDU under eight bytes of the counter. *)
Definition event_row d e k v : Prop :=
  v = event_value e /\
  match e with
  | Pdu id => k = get_prefix d ++ as_bytes id /\ from_slice (as_bytes id) = Some id
  | Edu buf => buf <> [] /\ exists n, is_u64 n /\ k = get_prefix d ++ be_bytes 8 n
  | Flush => False
  end.

Lemma split_sep_app p r : SEP ∉ p -> split_sep (p ++ SEP :: r) = (p, Some r).
Proof.
  induction p as [|b p IH]; intros Hp; cbn [app split_sep].
  { by rewrite decide_True. }
  rewrite decide_False by set_solver. by rewrite IH by set_solver.
Qed.

Lemma splitn_app n p r : SEP ∉ p -> splitn (S (S n)) (p ++ SEP :: r) = p :: splitn (S n) r.
Proof. intros Hp. cbn [splitn]. by rewrite split_sep_app. Qed.

Lemma parse_event_row d e k v :
  event_row d e k v -> exists suf, k = get_prefix d ++ suf /\ parse_event suf v = Ok e.
Proof.
  intros [-> He]. destruct e as [id|buf|]; [| |done].
  - destruct He as [-> Hid]. eexists; split; [done|]. cbn. by rewrite Hid.
  - destruct He as (Hb & n & _ & ->). eexists; split; [done|]. by destruct buf.
Qed.

Lemma valid_sep b : Utf8.valid b = true -> SEP ∉ b.
Proof. apply Utf8.valid_no_ff. Qed.

Lemma federation_first server l :
  server_name_parse server = true ->
  exists b r, server ++ SEP :: l = b :: r /\ b <> SIGIL_APPSERVICE /\ b <> SIGIL_PUSH.
Proof.
  intros [H1 H2]%server_name_first. destruct server as [|b s]; cbn in *.
  - by exists SEP, l.
  - exists b, (s ++ SEP :: l). split_and!; [done| |]; intros ->; done.
Qed.

Lemma parse_row_ok d e k v :
  valid_dest d = true -> event_row d e k v -> parse_servercurrentevent k v = Ok (d, e).
Proof.
  intros Hd (suf & -> & He)%parse_event_row.
  destruct d as [id|user pushkey|server]; cbn [valid_dest get_prefix app] in *.
  - cbn [parse_servercurrentevent]. rewrite decide_True by done. rewrite <-app_assoc. cbn [app].
    rewrite splitn_app by (by apply valid_sep). cbn. unfold string_from_bytes. rewrite Hd. cbn.
    by rewrite He.
  - apply andb_true_iff in Hd as [Hu Hp]. cbn [parse_servercurrentevent].
    rewrite decide_False, decide_True by done. rewrite <-!app_assoc. cbn [app].
    rewrite <-app_assoc. cbn [app].
    rewrite splitn_app by (by apply valid_sep, user_id_utf8).
    rewrite splitn_app by (by apply valid_sep). cbn.
    unfold string_from_bytes. rewrite (user_id_utf8 _ Hu). cbn. rewrite Hu, Hp. cbn. by rewrite He.
  - rewrite <-app_assoc. cbn [app].
    assert (Hf : parse_federation (server ++ SEP :: suf) v = Ok (Federation server, e)).
    { unfold parse_federation. rewrite splitn_app by (by apply valid_sep, server_name_utf8). cbn.
      unfold string_from_bytes. rewrite (server_name_utf8 _ Hd). cbn. rewrite Hd. cbn. by rewrite He. }
    destruct (federation_first _ suf Hd) as (b & r & E & H1 & H2). rewrite E in Hf |- *.
    cbn [parse_servercurrentevent]. by rewrite !decide_False by done.
Qed.

(** The prefixes of different destinations are never prefixes of one another's keys. *)
Lemma prefix_isolated d d' k :
  valid_dest d = true -> valid_dest d' = true ->
  get_prefix d `prefix_of` get_prefix d' ++ k -> d = d'.
Proof.
  assert (Hne : forall b s r l, server_name_parse s = true -> (b = SIGIL_APPSERVICE \/ b = SIGIL_PUSH) ->
    (b :: r) `prefix_of` s ++ SEP :: l -> False).
  { intros b s r l Hs Hb Hp. destruct (federation_first s l Hs) as (c & t & E & H1 & H2).
    rewrite E in Hp. apply prefix_cons_inv_1 in Hp as ->. by destruct Hb. }
  assert (Hne' : forall b s l, server_name_parse s = true -> (b = SIGIL_APPSERVICE \/ b = SIGIL_PUSH) ->
    (s ++ [SEP]) `prefix_of` b :: l -> False).
  { intros b s l Hs Hb Hp. destruct (federation_first s [] Hs) as (c & t & E & H1 & H2).
    rewrite E in Hp. apply prefix_cons_inv_1 in Hp as ->. by destruct Hb. }
  destruct d as [i|u p|s], d' as [i'|u' p'|s']; cbn [valid_dest get_prefix app]; intros Hd Hd' Hp;
    rewrite <-?app_assoc in Hp; cbn [app] in Hp.
  - apply prefix_cons_inv_2 in Hp. apply Codec.sep_split in Hp as [-> _]; [done|by apply valid_sep..].
  - by apply prefix_cons_inv_1 in Hp.
  - exfalso. eauto.
  - by apply prefix_cons_inv_1 in Hp.
  - apply andb_true_iff in Hd as [Hu Hpk], Hd' as [Hu' Hpk']. apply prefix_cons_inv_2 in Hp.
    rewrite <-?app_assoc in Hp. cbn [app] in Hp.
    apply Codec.sep_split in Hp as [-> Hp]; [|by apply valid_sep, user_id_utf8..].
    apply Codec.sep_split in Hp as [-> _]; [done|by apply valid_sep..].
  - exfalso. eauto.
  - exfalso. eauto.
  - exfalso. eauto.
  - apply Codec.sep_split in Hp as [-> _]; [done|by apply valid_sep, server_name_utf8..].
Qed.

Lemma event_row_prefix d d' e k v :
  valid_dest d = true -> valid_dest d' = true -> event_row d e k v ->
  get_prefix d' `prefix_of` k <-> d' = d.
Proof.
  intros Hd Hd' (suf & -> & _)%parse_event_row. split; [by apply prefix_isolated|].
  intros ->. by exists suf.
Qed.

Lemma event_row_nonempty d e k v : event_row d e k v -> k <> [].
Proof. intros (suf & -> & _)%parse_event_row. by destruct d as [| |[]]. Qed.

(** A key names its destination and, for a PDU, its event. *)
Lemma event_row_inj d d' e e' k v :
  valid_dest d = true -> valid_dest d' = true ->
  event_row d e k v -> event_row d' e' k v -> d = d' /\ e = e'.
Proof.
  intros Hd Hd' H1%parse_row_ok H2%parse_row_ok; [|done..]. rewrite H1 in H2. by injection H2.
Qed.

(** ** Queueing *)

Definition good_row k v : Prop := exists d e, valid_dest d = true /\ event_row d e k v.

(** A request as the senders make them: for a valid destination, and neither a
    [Flush] nor an empty EDU. *)
Definition valid_request (r : SendingEvent * Destination) : Prop :=
  valid_dest r.2 = true /\
  match r.1 with
  | Pdu id => from_slice (as_bytes id) = Some id
  | Edu buf => buf <> []
  | Flush => False
  end.

(** The number in a key, if it ends in one, is at most [s]. *)
Definition numbered_upto (s : Z) k : Prop :=
  forall d n, valid_dest d = true -> is_u64 n -> k = get_prefix d ++ be_bytes 8 n -> n <= s.

Lemma numbered_upto_mono s s' k : s <= s' -> numbered_upto s k -> numbered_upto s' k.
Proof. intros Hs Hk d n Hd Hn E. specialize (Hk d n Hd Hn E). lia. Qed.

Lemma get_prefix_app_inj d d' k k' :
  valid_dest d = true -> valid_dest d' = true ->
  get_prefix d ++ k = get_prefix d' ++ k' -> d = d' /\ k = k'.
Proof.
  intros Hd Hd' E. assert (d = d') as ->.
  { apply (prefix_isolated d d' k'); [done..|]. rewrite <-E. by exists k. }
  by apply app_inv_head in E.
Qed.

Lemma be_bytes_inj n m : is_u64 n -> is_u64 m -> be_bytes 8 n = be_bytes 8 m -> n = m.
Proof.
  intros Hn Hm E%(f_equal from_be). rewrite !from_be_be_bytes, !Z.mod_small in E by int_solve. done.
Qed.

Lemma number_key_upto s d n :
  valid_dest d = true -> is_u64 n -> numbered_upto s (get_prefix d ++ be_bytes 8 n) <-> n <= s.
Proof.
  intros Hd Hn. split; [intros Hk; by apply (Hk d n)|].
  intros Hle d' m Hd' Hm [-> E]%get_prefix_app_inj; [|done..]. by apply be_bytes_inj in E as ->.
Qed.

Lemma pdu_key_upto s d id :
  valid_dest d = true -> from_slice (as_bytes id) = Some id -> numbered_upto s (get_prefix d ++ as_bytes id).
Proof.
  intros Hd Hid d' n Hd' Hn [-> E]%get_prefix_app_inj; [|done..].
  rewrite E in Hid. unfold from_slice in Hid. by rewrite length_be_bytes in Hid.
Qed.

(** Two rows under the key of a PDU are the same row. *)
Lemma pdu_row_unique d id k v v' :
  valid_dest d = true -> event_row d (Pdu id) k v -> good_row k v' -> v' = v.
Proof.
  intros Hd (-> & -> & Hid) (d' & e' & Hd' & -> & He'). destruct e' as [id'|buf|]; [done| |done].
  destruct He' as (Hb & n & Hn & [-> E]%get_prefix_app_inj); [|done..].
  rewrite E in Hid. unfold from_slice in Hid. by rewrite length_be_bytes in Hid.
Qed.

(** A row queued between the counter's marks [s] and [s']. *)
Definition new_row (s s' : Z) (r : row) : Prop :=
  exists d e, valid_dest d = true /\ event_row d e r.1 r.2 /\ numbered_upto s' r.1 /\
    match e with Edu _ => ~ numbered_upto s r.1 | _ => True end.

Definition consistent (l : list row) : Prop :=
  forall k v v', (k, v) ∈ l -> (k, v') ∈ l -> v = v'.

Lemma new_row_unique s s' k v v' :
  new_row s s' (k, v) -> good_row k v' -> numbered_upto s k -> v = v'.
Proof.
  intros (d & e & Hd & He & _ & Hn) Hg Hk. destruct e as [id|buf|]; [|done|by destruct He].
  symmetry. eauto using pdu_row_unique.
Qed.

Lemma new_row_good s s' r : new_row s s' r -> good_row r.1 r.2.
Proof. intros (d & e & ? & ? & _). by exists d, e. Qed.

Lemma next_number (ok : bool) (c c' : ServerCounter.Counter) r :
  ServerCounter.next ok c = (c', r) -> ServerCounter.wf c ->
  ServerCounter.wf c' /\ ServerCounter.stored c <= ServerCounter.stored c' /\
  forall n, r = Ok n -> is_u64 n /\ ServerCounter.stored c < n <= ServerCounter.stored c'.
Proof.
  intros E Hc. destruct (ServerCounter.handle_spec c (ServerCounter.Next ok) Hc)
    as (c1 & ns & Eh & Hc1 & Hle & _ & Hns). cbn [ServerCounter.handle] in Eh. rewrite E in Eh.
  destruct r as [n|e]; injection Eh as <- <-; split_and!; try done.
  intros m [= <-]. rewrite Forall_singleton in Hns. split; [|done].
  destruct Hc as [Hu (z & Hz & Hr)], Hc1 as [Hu1 (z1 & Hz1 & Hr1)].
  unfold ServerCounter.stored in Hns. rewrite Hz, Hz1 in Hns. cbn in Hns. int_solve.
Qed.

Lemma consistent_cons s s' k v l :
  good_row k v -> numbered_upto s k -> Forall (new_row s s') l -> consistent l -> consistent ((k, v) :: l).
Proof.
  intros Hg Hk Hl Hc k' v1 v2. rewrite Forall_forall in Hl.
  intros [E1|H1]%elem_of_cons [E2|H2]%elem_of_cons; simplify_eq; try done.
  - symmetry. eapply new_row_unique; [by apply Hl|done..].
  - eapply new_row_unique; [by apply Hl|done..].
  - by apply (Hc k').
Qed.

Lemma request_key_spec ok e d c c' r :
  request_key ok e d c = (c', r) -> valid_request (e, d) -> ServerCounter.wf c ->
  ServerCounter.wf c' /\ ServerCounter.stored c <= ServerCounter.stored c' /\
  forall key, r = Ok key -> event_row d e key (event_value e) /\
    new_row (ServerCounter.stored c) (ServerCounter.stored c') (key, event_value e).
Proof.
  intros E [Hd He] Hc. cbn [fst snd] in *. unfold request_key in E. destruct e as [id|buf|]; [| |done].
  - injection E as <- <-. split_and!; [done|done|]. intros key [= <-].
    assert (event_row d (Pdu id) (get_prefix d ++ as_bytes id) (event_value (Pdu id))) by done.
    split; [done|]. exists d, (Pdu id). split_and!; try done. by apply pdu_key_upto.
  - destruct (ServerCounter.next ok c) as [c0 r1] eqn:En. injection E as <- <-.
    destruct (next_number _ _ _ _ En Hc) as (Hc1 & Hle & Hn1).
    split_and!; [done|done|]. intros key Hkey.
    destruct r1 as [m|]; [|done]. injection Hkey as <-. destruct (Hn1 m eq_refl) as [Hm Hlt].
    assert (event_row d (Edu buf) (get_prefix d ++ be_bytes 8 m) (event_value (Edu buf)))
      by (split; [done|]; split; [done|]; eauto).
    split; [done|]. exists d, (Edu buf). split_and!; try done;
      cbn [fst]; rewrite number_key_upto by done; lia.
Qed.

Lemma new_row_weaken s1 s s' s2 r : s1 <= s -> s' <= s2 -> new_row s s' r -> new_row s1 s2 r.
Proof.
  intros H1 H2 (d & e & ? & ? & Hup & Hn). exists d, e. split_and!; try done.
  { by eapply numbered_upto_mono. }
  destruct e; try done. intros Hu. apply Hn. by eapply numbered_upto_mono.
Qed.

Lemma request_keys_spec ok n reqs c c' r :
  request_keys ok n reqs c = (c', r) -> Forall valid_request reqs -> ServerCounter.wf c ->
  ServerCounter.wf c' /\ ServerCounter.stored c <= ServerCounter.stored c' /\
  forall keys, r = Ok keys ->
    Forall2 (fun q k => event_row q.2 q.1 k (event_value q.1)) reqs keys /\
    Forall (new_row (ServerCounter.stored c) (ServerCounter.stored c')) (zip keys (event_value <$> reqs.*1)) /\
    consistent (zip keys (event_value <$> reqs.*1)).
Proof.
  revert n c c' r. induction reqs as [|[e d] reqs IH]; intros n c c' r E Hreqs Hc; cbn [request_keys] in E.
  { injection E as <- <-. split_and!; [done|done|]. intros keys [= <-].
    split_and!; [constructor..|]. by intros k v v' ?%elem_of_nil. }
  apply Forall_cons in Hreqs as [Hreq Hreqs].
  destruct (request_key (ok n) e d c) as [c1 k] eqn:Ek.
  destruct (request_key_spec _ _ _ _ _ _ Ek Hreq Hc) as (Hc1 & Hle1 & Hk).
  destruct k as [key|e1]; [|injection E as <- <-; by split_and!].
  destruct (request_keys ok (S n) reqs c1) as [c2 r2] eqn:E2.
  destruct (IH _ _ _ _ E2 Hreqs Hc1) as (Hc2 & Hle2 & Hr2). injection E as <- <-.
  split_and!; [done|lia|]. intros keys Hkeys. destruct r2 as [ks|]; [|done]. injection Hkeys as <-.
  destruct (Hr2 ks eq_refl) as (Hf & Hnew & Hcons). destruct (Hk key eq_refl) as [Hrow Hnr].
  cbn [zip zip_with fmap list_fmap]. split_and!; [by constructor| |].
  - constructor; [|eapply Forall_impl; [exact Hnew|]; intros]; (eapply new_row_weaken; [| |eassumption]; lia).
  - destruct Hnr as (d' & e' & ? & ? & Hup & ?). eapply consistent_cons; [by exists d', e'|done..].
Qed.

(** ** What the operations do to the tables *)

Lemma rows_for_scan name d (db : Maps.Db) : rows_for name d db = scan_prefix (get_prefix d) (Maps.cf name db).
Proof. apply CursorFacts.scan_from_take_while. Qed.

Lemma parse_rows_good (rs : list row) :
  Forall (fun r => good_row r.1 r.2) rs ->
  exists xs, parse_rows rs = Ok xs /\
    Forall2 (fun r x => x.1.1 = r.1 /\ valid_dest x.2 = true /\ event_row x.2 x.1.2 r.1 r.2) rs xs.
Proof.
  induction 1 as [|r rs (d & e & Hd & He) Hrs IH]; [by exists []|].
  destruct IH as (xs & E & Hxs). cbn [parse_rows]. unfold parse_row.
  rewrite (parse_row_ok _ _ _ _ Hd He), E. eexists; split; [done|]. by constructor.
Qed.

(** The batch of [mark_as_active] and what it does to a row. *)
#[local] Abbreviation moved := (filter (fun ke : QueueItem => ke.1 <> [])).

Lemma mark_batch (events : list QueueItem) (t : Maps.Txn) :
  Maps.batch (foldl (fun t (ke : QueueItem) =>
      Maps.txn_remove QUEUED ke.1 (Maps.txn_insert CURRENT ke.1 (event_value ke.2) t)) t events) =
  Maps.batch t ++ concat ((fun ke : QueueItem =>
      [Maps.Put CURRENT ke.1 (event_value ke.2); Maps.Del QUEUED ke.1]) <$> events).
Proof.
  revert t. induction events as [|ke events IH]; intros t; cbn [foldl fmap list_fmap concat].
  { by rewrite app_nil_r. }
  rewrite IH. cbn [Maps.txn_remove Maps.txn_insert Maps.batch]. by rewrite <-!app_assoc.
Qed.

Lemma apply_mark (events : list QueueItem) (c : gmap string column) :
  let c' := Maps.apply_batch (concat ((fun ke : QueueItem =>
      [Maps.Put CURRENT ke.1 (event_value ke.2); Maps.Del QUEUED ke.1]) <$> events)) c in
  (forall k, match default ∅ (c' !! CURRENT) !! k with
     | Some v => (exists e, (k, e) ∈ events /\ v = event_value e) \/
                 (k ∉ events.*1) /\ default ∅ (c !! CURRENT) !! k = Some v
     | None => (k ∉ events.*1) /\ default ∅ (c !! CURRENT) !! k = None
     end) /\
  (forall k v, default ∅ (c' !! QUEUED) !! k = Some v <->
     default ∅ (c !! QUEUED) !! k = Some v /\ k ∉ events.*1) /\
  (forall n, n <> CURRENT -> n <> QUEUED -> default ∅ (c' !! n) = default ∅ (c !! n)).
Proof.
  cbv zeta. revert c. induction events as [|[k0 e0] events IH]; intros c.
  { cbn. split_and!; [|set_solver|done]. intros k. case_match; set_solver. }
  cbn [fmap list_fmap concat app fst snd]. unfold Maps.apply_batch. cbn [foldl].
  fold (Maps.apply_batch). set (c1 := Maps.apply_write _ (Maps.apply_write _ c)).
  assert (HC : default ∅ (c1 !! CURRENT) = <[k0 := event_value e0]> (default ∅ (c !! CURRENT))).
  { unfold c1. rewrite !Maps.apply_write_lookup. by rewrite decide_False, decide_True. }
  assert (HQ : default ∅ (c1 !! QUEUED) = delete k0 (default ∅ (c !! QUEUED))).
  { unfold c1. rewrite !Maps.apply_write_lookup. by rewrite decide_True, decide_False. }
  assert (HN : forall n, n <> CURRENT -> n <> QUEUED -> default ∅ (c1 !! n) = default ∅ (c !! n)).
  { intros n H1 H2. unfold c1. rewrite !Maps.apply_write_lookup. by rewrite !decide_False by done. }
  clearbody c1. destruct (IH c1) as (I1 & I2 & I3).
  unfold Maps.apply_batch in I1, I2, I3. split_and!.
  - intros k. specialize (I1 k). rewrite HC in I1. case_match.
    + destruct I1 as [(e & ? & ->)|[Hk Hl]]; [left; exists e; set_solver|].
      apply lookup_insert_Some in Hl as [[<- <-]|[Hne Hl]]; [left; exists e0; set_solver|].
      right. set_solver.
    + destruct I1 as [Hk [Hl Hne]%lookup_insert_None]. set_solver.
  - intros k v. rewrite I2, HQ, lookup_delete_Some. set_solver.
  - intros n H1 H2. by rewrite I3, HN.
Qed.

(** A transaction that takes events moves their rows from one table to the other;
    when its write fails nothing moves. *)
Lemma mark_as_active_spec i (events : list QueueItem) (db db' : Maps.Db) r :
  mark_as_active i events db = (db', r) ->
  (if Maps.writes i then
    (forall k, match Maps.cf CURRENT db' !! k with
       | Some v => (exists e, (k, e) ∈ moved events /\ v = event_value e) \/
                   (k ∉ (moved events).*1) /\ Maps.cf CURRENT db !! k = Some v
       | None => (k ∉ (moved events).*1) /\ Maps.cf CURRENT db !! k = None
       end) /\
    (forall k v, Maps.cf QUEUED db' !! k = Some v <->
       Maps.cf QUEUED db !! k = Some v /\ k ∉ (moved events).*1)
   else Maps.cf CURRENT db' = Maps.cf CURRENT db /\ Maps.cf QUEUED db' = Maps.cf QUEUED db).
Proof.
  unfold mark_as_active. intros E.
  pose proof (Maps.txn_execute_cfs i (foldl (fun txn (ke : QueueItem) =>
    Maps.txn_remove QUEUED ke.1 (Maps.txn_insert CURRENT ke.1 (event_value ke.2) txn))
      Maps.txn_new (moved events)) db) as Hc.
  rewrite E, mark_batch in Hc. cbn [fst Maps.batch Maps.txn_new app] in Hc.
  unfold Maps.cf. rewrite Hc. destruct (Maps.writes i); [|done].
  destruct (apply_mark (moved events) (Maps.cfs db)) as (H1 & H2 & _). by split.
Qed.

End Rows.
End Sending.
