(* ===== verification/Sender.v ===== *)
(** The senders, [phantom-service/src/net/sending/mod.rs], [sender/mod.rs] and
    [sender/select.rs]: callers queue events and hand them to the worker their
    destination hashes to; a worker keeps a status and at most one transaction in
    flight per destination, retries with backoff, and takes the rest of the queue
    when a transaction is answered.

    A worker's loop is one step per message or response it takes. Sending a
    transaction ([send_events]) is the environment: what it answers, and when, is an
    argument of the step, like the time and the fate of each write. *)
From S2P Require Import Prelude PduId Backoff Cursor Maps Short SendingData.

Module Sender.
Import Sending.

(** [[network]] of the configuration. *)
Record Config := mkConfig {
  sender_timeout : Z;
  sender_retry_backoff_limit : Z;
  startup_netburst_on : bool;
  startup_netburst_keep : Z
}.

Record Msg := mkMsg { dest : Destination; event : SendingEvent; queue_id : Key; revive : bool }.

Inductive TransactionStatus :=
  | Running
  | Failed (tries : Z) (time : Z)
  | Retrying (tries : Z).

Abbreviation CurTransactionStatus := (gmap Destination TransactionStatus).

(** A transaction in flight: [send_events] of a destination's events. *)
Abbreviation SendingFuture := (Destination * list SendingEvent)%type.

(** One sender task with its channel. [started]: it has run [startup_netburst]. *)
Record Worker := mkWorker {
  channel : list Msg;
  closed : bool;
  started : bool;
  statuses : CurTransactionStatus;
  futures : list SendingFuture
}.

Definition set_channel (c : list Msg) (w : Worker) : Worker :=
  mkWorker c (closed w) (started w) (statuses w) (futures w).
Definition set_sending (s : CurTransactionStatus) (f : list SendingFuture) (w : Worker) : Worker :=
  mkWorker (channel w) (closed w) (started w) s f.

Record Sys := mkSys {
  db : Maps.Db;
  counter : ServerCounter.Counter;
  workers : list Worker
}.

(** Why a step does not happen: the task panics, or the step is not enabled. *)
Inductive fault := Panics | Disabled.

Definition DEQUEUE_LIMIT : nat := 48.

(** [expect] on a row that did not parse. *)
Definition expect {A} (r : result error A) : result fault A :=
  match r with Ok a => Ok a | Err _ => Err Panics end.

Section Sender.
Context `{Names} (cfg : Config) (hash : Destination -> Z).

(** ** Dispatch *)

Definition shard_id (d : Destination) (senders : nat) : nat :=
  if (senders <=? 1)%nat then 0%nat else Z.to_nat (as_u64 (hash d) mod Z.of_nat senders).

Definition num_senders (num_workers parallelism sender_workers : nat) : nat :=
  let max_senders := Nat.max (Nat.min num_workers parallelism) 1 in
  Nat.min (Nat.max sender_workers 1) max_senders.

(** [try_send] on an unbounded channel fails only when it is closed: [false]. Release
    builds; a debug build asserts that it is open. *)
Definition dispatch (m : Msg) (ws : list Worker) : result fault (list Worker * bool) :=
  let shard := shard_id (dest m) (length ws) in
  match ws !! shard with
  | None => Err Panics
  | Some w =>
      if closed w then Ok (ws, false)
      else Ok (<[shard := set_channel (channel w ++ [m]) w]> ws, true)
  end.

(** Dispatching in order, up to the first that fails. *)
Fixpoint dispatch_all (ms : list Msg) (ws : list Worker) : result fault (list Worker) :=
  match ms with
  | [] => Ok ws
  | m :: ms =>
      '(ws, ok) ← dispatch m ws;
      if ok : bool then dispatch_all ms ws else Ok ws
  end.

(** ** Queueing *)

(** [queue_each]: under a cork, queue the rows, then hand each to its sender. An
    error of the queue write leaves nothing dispatched. *)
Definition queue_each (okc : nat -> bool) (i : Maps.io) (requests : list (Destination * SendingEvent))
    (s : Sys) : result fault Sys :=
  match queue_requests okc i ((fun r => (r.2, r.1)) <$> requests) (counter s) (Maps.cork (db s)) with
  | (c, d, Err _) => Ok (mkSys (Maps.uncork d) c (workers s))
  | (c, d, Ok keys) =>
      ws ← dispatch_all
        (zip_with (fun r queue_id => mkMsg r.1 r.2 queue_id false) requests keys) (workers s);
      Ok (mkSys (Maps.uncork d) c ws)
  end.

Definition queue_one (okc : nat -> bool) (i : Maps.io) (d : Destination) (e : SendingEvent) (s : Sys) :
    result fault Sys :=
  queue_each okc i [(d, e)] s.

Definition send_pdu_push okc i (pdu_id : RawId.RawId) (user pushkey : bytes) : Sys -> result fault Sys :=
  queue_one okc i (Push user pushkey) (Pdu pdu_id).
Definition send_pdu_appservice okc i (appservice_id : bytes) (pdu_id : RawId.RawId) :
    Sys -> result fault Sys :=
  queue_one okc i (Appservice appservice_id) (Pdu pdu_id).
Definition send_edu_push okc i (user pushkey serialized : bytes) : Sys -> result fault Sys :=
  queue_one okc i (Push user pushkey) (Edu serialized).
Definition send_edu_appservice okc i (appservice_id serialized : bytes) : Sys -> result fault Sys :=
  queue_one okc i (Appservice appservice_id) (Edu serialized).
Definition send_pdu_servers okc i (servers : list bytes) (pdu_id : RawId.RawId) :
    Sys -> result fault Sys :=
  queue_each okc i ((fun server => (Federation server, Pdu pdu_id)) <$> servers).
Definition send_edu_servers okc i (servers : list bytes) (serialized : bytes) :
    Sys -> result fault Sys :=
  queue_each okc i ((fun server => (Federation server, Edu serialized)) <$> servers).

(** Errors of the dispatch are logged and dropped. *)
Fixpoint flush_servers (servers : list bytes) (s : Sys) : result fault Sys :=
  match servers with
  | [] => Ok s
  | server :: servers =>
      '(ws, _) ← dispatch (mkMsg (Federation server) Flush [] false) (workers s);
      flush_servers servers (mkSys (db s) (counter s) ws)
  end.

(** [recovered] is what [note_peer_alive] of the federation service answers. *)
Definition notify_peer_alive (recovered : bool) (server : bytes) (s : Sys) : result fault Sys :=
  if recovered then
    '(ws, _) ← dispatch (mkMsg (Federation server) Flush [] true) (workers s);
    Ok (mkSys (db s) (counter s) ws)
  else Ok s.

Definition cleanup_events (ios ios' : Key -> Maps.io) (appservice_id user_id push_key : option bytes)
    (s : Sys) : Sys :=
  match appservice_id, user_id, push_key with
  | None, Some user_id, Some push_key =>
      mkSys (delete_all_requests_for ios ios' (Push user_id push_key) (db s)) (counter s) (workers s)
  | Some appservice_id, None, None =>
      mkSys (delete_all_requests_for ios ios' (Appservice appservice_id) (db s)) (counter s) (workers s)
  | _, _, _ => s
  end.

(** ** Selecting events *)

(** [Instant::elapsed] *)
Definition elapsed (now time : Z) : Z := Z.max 0 (now - time).

Definition is_appservice (d : Destination) : bool :=
  match d with Appservice _ => true | _ => false end.

(** Answers [(statuses, allow, retry)]. *)
Definition select_events_current (now : Z) (d : Destination) (st : CurTransactionStatus)
    (revive : bool) : CurTransactionStatus * bool * bool :=
  match st !! d with
  | Some (Failed tries time) =>
      if negb revive
         && Backoff.continue_exponential_backoff_secs (sender_timeout cfg)
              (sender_retry_backoff_limit cfg) (elapsed now time) tries
         && negb (is_appservice d)
      then (st, false, false)
      else (<[d := Retrying tries]> st, true, true)
  | Some Running | Some (Retrying _) => (st, false, false)
  | None => (<[d := Running]> st, true, false)
  end.

(** [edus]: what [select_edus] answers for the destination's server. The result
    [Err _] of a failed write keeps the status already entered. The two cork guards
    the code holds are one here: only whether any is held matters. *)
Definition select_events (now : Z) (i i' : Maps.io) (edus : option (list bytes * Z))
    (d : Destination) (new_events : list QueueItem) (st : CurTransactionStatus) (revive : bool)
    (s : Maps.Db) : result fault
      (Maps.Db * CurTransactionStatus * result Maps.error (option (list SendingEvent))) :=
  let '(st, allow, retry) := select_events_current now d st revive in
  if negb allow then Ok (s, st, Ok None) else
  if retry then
    events ← expect (active_requests_for d s);
    Ok (s, st, Ok (Some events.*2))
  else
    let s := Maps.cork s in
    match (match new_events with
           | [] => (s, Ok ())
           | _ => mark_as_active i new_events s
           end) with
    | (s, Err e) => Ok (Maps.uncork s, st, Err e)
    | (s, Ok _) =>
        let events := new_events.*2 in
        match d, edus with
        | Federation server_name, Some (select_edus, last_count) =>
            match set_latest_educount i' server_name last_count s with
            | (s, Err e) => Ok (Maps.uncork s, st, Err e)
            | (s, Ok _) => Ok (Maps.uncork s, st, Ok (Some (events ++ (Edu <$> select_edus))))
            end
        | _, _ => Ok (Maps.uncork s, st, Ok (Some events))
        end
    end.

(** ** The worker's steps *)

(** What [handle_request] does with the selected events: nothing selected leaves the
    status as it is, an empty selection removes it. *)
Definition start_selected (d : Destination) (w : Worker) (s : Maps.Db) (st : CurTransactionStatus)
    (r : result Maps.error (option (list SendingEvent))) : Maps.Db * Worker :=
  match r with
  | Ok (Some []) => (s, set_sending (delete d st) (futures w) w)
  | Ok (Some events) => (s, set_sending st (futures w ++ [(d, events)]) w)
  | _ => (s, set_sending st (futures w) w)
  end.

Definition handle_request (now : Z) (i i' : Maps.io) (edus : option (list bytes * Z)) (m : Msg)
    (s : Maps.Db) (w : Worker) : result fault (Maps.Db * Worker) :=
  '(s, st, r) ← select_events now i i' edus (dest m) [(queue_id m, event m)] (statuses w) (revive m) s;
  Ok (start_selected (dest m) w s st r).

Definition handle_response_ok (ios : Key -> Maps.io) (i : Maps.io) (d : Destination)
    (s : Maps.Db) (w : Worker) : result fault (Maps.Db * Worker) :=
  let s := delete_all_active_requests_for ios d (Maps.cork s) in
  new_events ← expect (queued_requests DEQUEUE_LIMIT d s);
  match new_events with
  | [] => Ok (Maps.uncork s, set_sending (delete d (statuses w)) (futures w) w)
  | _ =>
      (* an error of the write is logged; the events are sent all the same *)
      let '(s, _) := mark_as_active i new_events s in
      Ok (Maps.uncork s,
          set_sending (<[d := Running]> (statuses w)) (futures w ++ [(d, new_events.*2)]) w)
  end.

Definition u32_saturating_add (a b : Z) : Z := clamp_range 0 u32_max (a + b).

Definition handle_response_err (now : Z) (d : Destination) (w : Worker) : result fault Worker :=
  match statuses w !! d with
  | None => Ok w
  | Some Running => Ok (set_sending (<[d := Failed 1 now]> (statuses w)) (futures w) w)
  | Some (Retrying n) =>
      Ok (set_sending (<[d := Failed (u32_saturating_add n 1) now]> (statuses w)) (futures w) w)
  | Some (Failed _ _) => Err Panics
  end.

(** [success]: whether the transaction was answered with [Ok]. *)
Definition handle_response (now : Z) (ios : Key -> Maps.io) (i : Maps.io) (success : bool)
    (d : Destination) (s : Maps.Db) (w : Worker) : result fault (Maps.Db * Worker) :=
  if success then handle_response_ok ios i d s w
  else w ← handle_response_err now d w; Ok (s, w).

(** One response during [finish_responses]: the statuses no longer matter. *)
Definition finish_response (ios : Key -> Maps.io) (success : bool) (d : Destination)
    (s : Maps.Db) : Maps.Db :=
  if success then delete_all_active_requests_for ios d s else s.

(** The loop of [startup_netburst] over the active rows: those of this worker's
    destinations are gathered, or dropped past the limit to keep. *)
Definition keep_limit : Z :=
  if startup_netburst_keep cfg <? 0 then usize_max else startup_netburst_keep cfg.

Fixpoint gather (ios : Key -> Maps.io) (id senders : nat)
    (active : list (Key * SendingEvent * Destination))
    (txns : gmap Destination (list SendingEvent)) (s : Maps.Db) :
    gmap Destination (list SendingEvent) * Maps.Db :=
  match active with
  | [] => (txns, s)
  | (key, event, d) :: active =>
      if negb (shard_id d senders =? id)%nat then gather ios id senders active txns s else
      let entry := default [] (txns !! d) in
      if (0 <=? startup_netburst_keep cfg) && (keep_limit <=? Z.of_nat (length entry))
      then gather ios id senders active (<[d := entry]> txns) (delete_active_request (ios key) key s)
      else gather ios id senders active (<[d := entry ++ [event]]> txns) s
  end.

Fixpoint start_all (txns : list SendingFuture) (st : CurTransactionStatus) (fs : list SendingFuture) :
    CurTransactionStatus * list SendingFuture :=
  match txns with
  | [] => (st, fs)
  | (d, events) :: txns =>
      if startup_netburst_on cfg && negb (bool_decide (events = []))
      then start_all txns (<[d := Running]> st) (fs ++ [(d, events)])
      else start_all txns st fs
  end.

Definition startup_netburst (ios : Key -> Maps.io) (id senders : nat) (s : Maps.Db) (w : Worker) :
    result fault (Maps.Db * Worker) :=
  active ← expect (active_requests s);
  let '(txns, s) := gather ios id senders active ∅ s in
  let '(st, fs) := start_all (map_to_list txns) (statuses w) (futures w) in
  Ok (s, mkWorker (channel w) (closed w) true st fs).

(** ** The system *)

(** What can happen next. [Request] and [Response] are a turn of a worker's loop (one
    that was waiting when its channel closed may still take one), [Finish] is a
    response after that, [Restart] the end of the process and a new one over the
    same database. *)
Inductive op :=
  | Queue (okc : nat -> bool) (i : Maps.io) (requests : list (Destination * SendingEvent))
  | FlushServers (servers : list bytes)
  | PeerAlive (recovered : bool) (server : bytes)
  | Cleanup (ios ios' : Key -> Maps.io) (appservice_id user_id push_key : option bytes)
  | Interrupt
  | Start (ios : Key -> Maps.io) (id : nat)
  | Request (now : Z) (i i' : Maps.io) (edus : option (list bytes * Z)) (id : nat)
  | Response (now : Z) (ios : Key -> Maps.io) (i : Maps.io) (id n : nat) (success : bool)
  | Finish (ios : Key -> Maps.io) (id n : nat) (success : bool)
  | Restart (senders : nat).

Definition new_worker : Worker := mkWorker [] false false ∅ [].

Definition at_worker (id : nat) (s : Sys) (f : Worker -> result fault (Maps.Db * Worker)) :
    result fault Sys :=
  w ← ok_or (workers s !! id) Disabled;
  '(d, w) ← f w;
  Ok (mkSys d (counter s) (<[id := w]> (workers s))).

(** Taking the [n]th transaction in flight out of the set. *)
Definition take_future (n : nat) (w : Worker) : option (SendingFuture * Worker) :=
  f ← futures w !! n;
  Some (f, set_sending (statuses w) (delete n (futures w)) w).

Definition exec (s : Sys) (o : op) : result fault Sys :=
  match o with
  | Queue okc i requests => queue_each okc i requests s
  | FlushServers servers => flush_servers servers s
  | PeerAlive recovered server => notify_peer_alive recovered server s
  | Cleanup ios ios' a u p => Ok (cleanup_events ios ios' a u p s)
  | Interrupt =>
      Ok (mkSys (db s) (counter s)
        ((fun w => mkWorker (channel w) true (started w) (statuses w) (futures w)) <$> workers s))
  | Start ios id => at_worker id s (fun w =>
      if started w then Err Disabled else startup_netburst ios id (length (workers s)) (db s) w)
  | Request now i i' edus id => at_worker id s (fun w =>
      if negb (started w) then Err Disabled else
      match channel w with
      | [] => Err Disabled
      | m :: ms => handle_request now i i' edus m (db s) (set_channel ms w)
      end)
  | Response now ios i id n success => at_worker id s (fun w =>
      if negb (started w) then Err Disabled else
      '((d, _), w) ← ok_or (take_future n w) Disabled;
      handle_response now ios i success d (db s) w)
  | Finish ios id n success => at_worker id s (fun w =>
      if negb (closed w) then Err Disabled else
      '((d, _), w) ← ok_or (take_future n w) Disabled;
      Ok (finish_response ios success d (db s), w))
  | Restart senders =>
      match senders, ServerCounter.new (ServerCounter.global (counter s)) with
      | S _, Ok c => Ok (mkSys (db s) c (replicate senders new_worker))
      | _, _ => Err Disabled
      end
  end.

End Sender.
End Sender.
