(* ===== verification/SenderFacts.v ===== *)
(** What the senders of [Sender] keep true in every interleaving: workers panic on
    nothing they stored themselves, a destination has one transaction in flight, and
    an event leaves the tables only when it was delivered or dropped on purpose. *)
From S2P Require Import Prelude PduId Codec Backoff Cursor Maps Short SendingData Sender.

Module SenderFacts.
Import Sending Sender.

Section Facts.
Context `{NamesLaws} (cfg : Config) (hash : Destination -> Z).
Implicit Types (d : Destination) (e : SendingEvent) (k v : bytes) (s : Sys) (w : Worker) (m : Msg).
Implicit Types P : Destination -> SendingEvent -> Prop.

#[local] Abbreviation shard := (shard_id hash).

(** ** Rows *)

Definition cur (b : Maps.Db) k v : Prop := Maps.cf CURRENT b !! k = Some v.
Definition que (b : Maps.Db) k v : Prop := Maps.cf QUEUED b !! k = Some v.
Definition pend (b : Maps.Db) k v : Prop := cur b k v \/ que b k v.

(** The key and value a message will put into the table, if it has any. *)
Definition names m k v : Prop := k = queue_id m /\ k <> [] /\ v = event_value (event m).

(** Every key and value the system holds, in a table or in a channel. *)
Definition fact s k v : Prop :=
  pend (db s) k v \/ exists w m, w ∈ workers s /\ m ∈ channel w /\ names m k v.

Record rows_ok s : Prop := {
  rows_counter : ServerCounter.wf (counter s);
  rows_good k v : fact s k v -> good_row k v;
  rows_numbered k v : fact s k v -> numbered_upto (ServerCounter.stored (counter s)) k;
  rows_unique k v v' : fact s k v -> fact s k v' -> v = v'
}.

(** ** Workers *)

Definition is_failed (t : TransactionStatus) : bool :=
  match t with Failed _ _ => true | _ => false end.

Definition msg_ok m : Prop :=
  valid_dest (dest m) = true /\
  (queue_id m = [] \/ event_row (dest m) (event m) (queue_id m) (event_value (event m))).

Record worker_ok (n id : nat) w : Prop := {
  in_flight d evs : (d, evs) ∈ futures w ->
    exists t, statuses w !! d = Some t /\ is_failed t = false;
  one_each : NoDup (futures w).*1;
  own_dests d t : statuses w !! d = Some t -> shard d n = id /\ valid_dest d = true;
  own_msgs m : m ∈ channel w -> shard (dest m) n = id /\ msg_ok m;
  not_started : started w = false -> statuses w = ∅ /\ futures w = []
}.

Record sys_ok s : Prop := {
  sys_workers : workers s <> [];
  sys_worker id w : workers s !! id = Some w -> worker_ok (length (workers s)) id w;
  sys_rows : rows_ok s
}.

(** ** Rows of an unchanged or shrinking system *)

Lemma rows_ok_shrink s s' :
  rows_ok s -> counter s' = counter s -> (forall k v, fact s' k v -> fact s k v) -> rows_ok s'.
Proof.
  intros [Hc Hg Hn Hu] Ec Hf. split; [by rewrite Ec|..].
  - eauto.
  - rewrite Ec. eauto.
  - intros k v v' H1 H2. eapply Hu; eauto.
Qed.

Lemma shard_lt d n : n <> 0%nat -> (shard d n < n)%nat.
Proof.
  intros Hn. unfold shard_id. destruct (Nat.leb_spec n 1); [lia|].
  pose proof (Z.mod_pos_bound (as_u64 (hash d)) (Z.of_nat n)). lia.
Qed.

(** [mark_as_active] loses no row, and what it activates was named. *)
Lemma mark_rows i (evs : list QueueItem) b b' r :
  mark_as_active i evs b = (b', r) ->
  (forall k e v, (k, e) ∈ evs -> pend b k v -> v = event_value e) ->
  (forall k e e', (k, e) ∈ evs -> (k, e') ∈ evs -> event_value e = event_value e') ->
  (forall k v, pend b k v -> pend b' k v) /\
  (forall k v, cur b k v -> cur b' k v) /\
  (forall k v, que b' k v -> que b k v) /\
  (forall k v, cur b' k v -> cur b k v \/ exists e, (k, e) ∈ evs /\ k <> [] /\ v = event_value e).
Proof.
  intros E%mark_as_active_spec Hev Hev'. unfold pend, cur, que in *.
  destruct (Maps.writes i); [|destruct E as [-> ->]; by eauto]. destruct E as [H1 H2].
  assert (Hmoved : forall k e, (k, e) ∈ filter (fun ke : QueueItem => ke.1 <> []) evs <->
    k <> [] /\ (k, e) ∈ evs) by (intros; by rewrite list_elem_of_filter).
  assert (Hin : forall k, k ∈ (filter (fun ke : QueueItem => ke.1 <> []) evs).*1 <->
    exists e, k <> [] /\ (k, e) ∈ evs).
  { intros k. rewrite list_elem_of_fmap. split.
    - intros ([k' e] & -> & ?). exists e. by apply Hmoved.
    - intros [e ?%Hmoved]. by exists (k, e). }
  assert (Hcur : forall k v, Maps.cf CURRENT b !! k = Some v -> Maps.cf CURRENT b' !! k = Some v).
  { intros k v Hk. specialize (H1 k). destruct (Maps.cf CURRENT b' !! k) as [v'|].
    - destruct H1 as [(e & [_ He]%Hmoved & ->)|[_ ?]]; [|congruence]. f_equal. symmetry. eauto.
    - by destruct H1 as [_ ?]; congruence. }
  split_and!; [|done| |].
  - intros k v [Hk|Hk]; [auto|].
    destruct (decide (k ∈ (filter (fun ke : QueueItem => ke.1 <> []) evs).*1)) as [Hm|Hm].
    + left. specialize (H1 k). destruct (Maps.cf CURRENT b' !! k) as [v'|]; [|by destruct H1].
      destruct H1 as [(e & [_ He]%Hmoved & ->)|[? _]]; [|done]. f_equal. symmetry. eauto.
    + right. by apply H2.
  - intros k v Hk. by apply H2 in Hk as [? _].
  - intros k v Hk. specialize (H1 k). rewrite Hk in H1.
    destruct H1 as [(e & [? He]%Hmoved & ->)|[_ ?]]; eauto.
Qed.

(** ** Reading the tables *)

Lemma parse_for d (rs : list row) :
  valid_dest d = true ->
  (forall r, r ∈ rs -> good_row r.1 r.2 /\ get_prefix d `prefix_of` r.1) ->
  exists items : list QueueItem,
    (fun xs => xs.*1) <$> parse_rows rs = Ok items /\
    (forall k e, (k, e) ∈ items -> exists v, (k, v) ∈ rs /\ event_row d e k v) /\
    (forall r, r ∈ rs -> exists e, (r.1, e) ∈ items /\ event_row d e r.1 r.2) /\
    length items = length rs.
Proof.
  intros Hd Hrs. destruct (parse_rows_good rs) as (xs & -> & Hxs).
  { apply Forall_forall. intros r Hr. by apply Hrs. }
  exists xs.*1. split; [done|].
  assert (Hd' : forall r (x : Key * SendingEvent * Destination), r ∈ rs -> valid_dest x.2 = true ->
    event_row x.2 x.1.2 r.1 r.2 -> x.2 = d).
  { intros r x Hr Hx Hrow. symmetry. by apply (event_row_prefix x.2 d x.1.2 r.1 r.2), Hrs. }
  split_and!.
  - intros k e Hin. apply list_elem_of_fmap in Hin as ([[k' e'] d'] & [= -> ->] & Hin).
    apply list_elem_of_lookup in Hin as [j Hj].
    destruct (Forall2_lookup_r _ _ _ _ _ Hxs Hj) as (r & Hr & Hk & Hv & Hrow). cbn in *. subst k'.
    apply list_elem_of_lookup_2 in Hr. exists r.2. split; [by destruct r|].
    rewrite <-(Hd' r (r.1, e', d')) by done. done.
  - intros r Hr. apply list_elem_of_lookup in Hr as [j Hj].
    destruct (Forall2_lookup_l _ _ _ _ _ Hxs Hj) as (x & Hx & Hk & Hv & Hrow).
    exists x.1.2. split.
    + rewrite <-Hk. apply list_elem_of_fmap. exists x. split; [by destruct x as [[??]?]|].
      by eapply list_elem_of_lookup_2.
    + rewrite <-(Hd' r x) by (done || by eapply list_elem_of_lookup_2). done.
  - rewrite length_fmap. symmetry. by eapply Forall2_length.
Qed.

Lemma active_for d b :
  valid_dest d = true -> (forall k v, cur b k v -> good_row k v) ->
  exists items, active_requests_for d b = Ok items /\
    (forall k e, (k, e) ∈ items -> exists v, cur b k v /\ event_row d e k v) /\
    (forall k v e, cur b k v -> event_row d e k v -> e ∈ items.*2).
Proof.
  intros Hd Hg. unfold active_requests_for. rewrite rows_for_scan.
  destruct (parse_for d (scan_prefix (get_prefix d) (Maps.cf CURRENT b)) Hd)
    as (items & E & H1 & H2 & _).
  { intros r [Hr Hp]%CursorFacts.elem_of_scan_prefix. split; [by apply Hg|done]. }
  exists items. split_and!; [done| |].
  - intros k e (v & [Hv _]%CursorFacts.elem_of_scan_prefix & ?)%H1. eauto.
  - intros k v e Hk He. destruct (H2 (k, v)) as (e' & Hin & He').
    { apply CursorFacts.elem_of_scan_prefix. split; [done|]. by apply (event_row_prefix d d e k v). }
    destruct (event_row_inj d d e e' k v Hd Hd He He') as [_ ->].
    by apply (list_elem_of_fmap_2 snd) in Hin.
Qed.

Lemma queued_for limit d b :
  valid_dest d = true -> (forall k v, que b k v -> good_row k v) ->
  exists items, queued_requests limit d b = Ok items /\
    (forall k e, (k, e) ∈ items -> exists v, que b k v /\ event_row d e k v) /\
    length items = Nat.min limit (length (scan_prefix (get_prefix d) (Maps.cf QUEUED b))).
Proof.
  intros Hd Hg. unfold queued_requests. rewrite rows_for_scan.
  assert (Htake : forall r (l : list row), r ∈ take limit l -> r ∈ l).
  { intros r l (j & ? & _)%elem_of_take. by eapply list_elem_of_lookup_2. }
  destruct (parse_for d (take limit (scan_prefix (get_prefix d) (Maps.cf QUEUED b))) Hd)
    as (items & E & H1 & _ & Hlen).
  { intros r [Hr Hp]%Htake%CursorFacts.elem_of_scan_prefix. split; [by apply Hg|done]. }
  exists items. split_and!; [done| |by rewrite Hlen, length_take].
  intros k e (v & Hv & ?)%H1. apply Htake, CursorFacts.elem_of_scan_prefix in Hv as [Hv _]. eauto.
Qed.

Lemma deleted_for ios d b k v :
  cur (delete_all_active_requests_for ios d b) k v <->
  cur b k v /\ ~ (get_prefix d `prefix_of` k /\ Maps.writes (ios k) = true).
Proof. unfold cur, delete_all_active_requests_for. rewrite Maps.raw_del_prefix_cf. naive_solver. Qed.

Lemma deleted_for_que ios d b k v : que (delete_all_active_requests_for ios d b) k v <-> que b k v.
Proof. unfold que, delete_all_active_requests_for. rewrite Maps.raw_del_prefix_cf. naive_solver. Qed.

(** ** One destination at a time *)

(** A worker's step touches one destination [d] of its own. *)
Lemma worker_update n id w d st fs :
  worker_ok n id w -> started w = true -> shard d n = id -> valid_dest d = true ->
  (forall d', d' <> d -> st !! d' = statuses w !! d') ->
  NoDup fs.*1 ->
  (forall d' evs, (d', evs) ∈ fs -> d' <> d -> (d', evs) ∈ futures w) ->
  (d ∈ fs.*1 -> exists t, st !! d = Some t /\ is_failed t = false) ->
  worker_ok n id (set_sending st fs w).
Proof.
  intros [Hf Ho Hs Hm Hn] Hstart Hd Hv Hst Hnd Hfs Hdd. split; cbn; [| | |done|].
  - intros d' evs Hin. destruct (decide (d' = d)) as [->|Hne].
    + apply Hdd. by apply (list_elem_of_fmap_2 fst) in Hin.
    + rewrite Hst by done. eauto.
  - done.
  - intros d' t Ht. destruct (decide (d' = d)) as [->|Hne]; [done|]. rewrite Hst in Ht by done. eauto.
  - by rewrite Hstart.
Qed.

Definition idle w d : Prop := forall t, statuses w !! d = Some t -> is_failed t = true.

Lemma idle_not_in_flight n id w d : worker_ok n id w -> idle w d -> d ∉ (futures w).*1.
Proof.
  intros Hw Hi Hin. apply list_elem_of_fmap in Hin as ([d' evs] & -> & Hin).
  destruct (in_flight _ _ _ Hw _ _ Hin) as (t & Ht & Hf). cbn in Ht. by rewrite (Hi _ Ht) in Hf.
Qed.

(** A status change of an idle destination, and the start of its transaction. *)
Lemma worker_status n id w d st :
  worker_ok n id w -> started w = true -> shard d n = id -> valid_dest d = true -> idle w d ->
  (forall d', d' <> d -> st !! d' = statuses w !! d') ->
  worker_ok n id (set_sending st (futures w) w).
Proof.
  intros Hw Hs Hd Hv Hi Hst. pose proof (idle_not_in_flight _ _ _ _ Hw Hi).
  eapply worker_update; eauto; [by apply Hw|done].
Qed.

Lemma worker_push n id w d t evs :
  worker_ok n id w -> started w = true -> shard d n = id -> valid_dest d = true ->
  d ∉ (futures w).*1 -> is_failed t = false ->
  worker_ok n id (set_sending (<[d := t]> (statuses w)) (futures w ++ [(d, evs)]) w).
Proof.
  intros Hw Hs Hd Hv Hi Ht. eapply (worker_update n id w d); eauto.
  - intros. by rewrite lookup_insert_ne.
  - rewrite fmap_app. apply NoDup_app. split_and!; [by apply Hw| |apply NoDup_singleton].
    set_solver.
  - intros d' evs' [?|[= -> ->]%list_elem_of_singleton]%elem_of_app ?; done.
  - intros _. rewrite lookup_insert_eq. eauto.
Qed.

(** A row that is active for [d] is carried by the transaction in flight or settled;
    a destination without a status has only settled rows. [P] is "settled". *)
Definition covered (P : Destination -> SendingEvent -> Prop) w d e : Prop :=
  match statuses w !! d with
  | None => P d e
  | Some _ => forall evs, (d, evs) ∈ futures w -> e ∈ evs \/ P d e
  end.

Definition covers (P : Destination -> SendingEvent -> Prop) (n id : nat) b w : Prop :=
  forall k v d e, cur b k v -> valid_dest d = true -> event_row d e k v -> shard d n = id ->
    covered P w d e.

Lemma covered_other P w st fs d d' e :
  d' <> d -> st !! d' = statuses w !! d' ->
  (forall evs, (d', evs) ∈ fs -> (d', evs) ∈ futures w) ->
  covered P w d' e -> covered P (set_sending st fs w) d' e.
Proof.
  unfold covered. cbn. intros Hne -> Hfs. destruct (statuses w !! d') as [t|]; [|done]. naive_solver.
Qed.

Lemma select_current_spec now d (st : CurTransactionStatus) rv st' allow retry :
  select_events_current cfg now d st rv = (st', allow, retry) ->
  if allow then
    exists t, st' = <[d := t]> st /\ is_failed t = false /\
      (if retry then exists tries time, st !! d = Some (Failed tries time) else st !! d = None)
  else st' = st.
Proof.
  unfold select_events_current. intros E.
  destruct (st !! d) as [[|tries time|tries]|] eqn:Hst.
  - by injection E as <- <- <-.
  - case_match; injection E as <- <- <-; [done|]. exists (Retrying tries). eauto.
  - by injection E as <- <- <-.
  - injection E as <- <- <-. by exists Running.
Qed.

Lemma educount_rows i server n b b' r :
  set_latest_educount i server n b = (b', r) ->
  Maps.cf CURRENT b' = Maps.cf CURRENT b /\ Maps.cf QUEUED b' = Maps.cf QUEUED b.
Proof.
  unfold set_latest_educount, Maps.insert, Maps.write_opt. intros E.
  destruct (Maps.writes i); [|by injection E as <- <-].
  destruct (Maps.flush_if_uncorked _ _); injection E as <- <-;
    unfold Maps.cf; rewrite ?Maps.wake_cfs; cbn [Maps.cfs Maps.set_cfs Maps.apply_batch foldl];
    by rewrite !lookup_insert_ne.
Qed.

(** ** Handling a request *)

(** What a step of a worker does to the tables: it loses no row, and what it makes
    active was queued or named by the message. *)
Definition tables_step (N : bytes -> bytes -> Prop) (b b' : Maps.Db) : Prop :=
  (forall k v, pend b k v -> pend b' k v) /\
  (forall k v, que b' k v -> que b k v) /\
  (forall k v, cur b' k v -> cur b k v \/ N k v).

Lemma tables_same N b b' :
  Maps.cf CURRENT b' = Maps.cf CURRENT b -> Maps.cf QUEUED b' = Maps.cf QUEUED b -> tables_step N b b'.
Proof. unfold tables_step, pend, cur, que. intros -> ->. naive_solver. Qed.

Section Request.
Context (n id : nat) (w : Worker) (m : Msg) (b : Maps.Db).
Hypothesis (Hw : worker_ok n id w) (Hstart : started w = true).
Hypothesis (Hshard : shard (dest m) n = id) (Hm : msg_ok m).
Hypothesis (Hgood : forall k v, cur b k v -> good_row k v).
Hypothesis (Huniq : forall k v v', names m k v -> pend b k v' -> v' = v).

(** Taking a message into a new transaction. *)
Lemma mark_message i b' r :
  mark_as_active i [(queue_id m, event m)] (Maps.cork b) = (b', r) -> tables_step (names m) b b'.
Proof.
  intros E. destruct (decide (queue_id m = [])) as [Hq|Hq].
  { unfold mark_as_active in E. rewrite filter_cons_False in E by (by intros ?).
    injection E as <- <-. by apply tables_same. }
  destruct (mark_rows i _ (Maps.cork b) _ _ E) as (H1 & H2 & H3 & H4).
  - intros k e v [= -> ->]%list_elem_of_singleton Hp. by apply (Huniq (queue_id m)).
  - intros k e e' [= -> ->]%list_elem_of_singleton [= ->]%list_elem_of_singleton. done.
  - split_and!; [exact H1|exact H3|]. intros k v Hk. destruct (H4 k v Hk) as [?|(e & He & Hk' & ->)]; [by left|].
    apply list_elem_of_singleton in He as [= -> ->]. by right.
Qed.

(** The event of a row the message named. *)
Lemma names_event k v d e :
  names m k v -> valid_dest d = true -> event_row d e k v -> d = dest m /\ e = event m.
Proof.
  intros (-> & Hk & ->) Hd He. destruct Hm as [Hv [?|Hrow]]; [done|].
  by apply (event_row_inj d (dest m) e (event m) (queue_id m) (event_value (event m))).
Qed.

(** The rows of other destinations, and those the transaction carries. *)
Lemma covers_request P b' st fs evs :
  covers P n id b w -> tables_step (names m) b b' ->
  (forall d', d' <> dest m -> st !! d' = statuses w !! d') -> is_Some (st !! dest m) ->
  fs = futures w ++ evs -> (evs = [] \/ exists l, evs = [(dest m, event m :: l)]) ->
  statuses w !! dest m = None -> covers P n id b' (set_sending st fs w).
Proof.
  intros Hc (_ & _ & Hcur) Hst Hsome -> Hevs Hnone k v d e Hk Hd He Hid.
  assert (Hidle : idle w (dest m)) by (intros t Ht; congruence).
  pose proof (idle_not_in_flight _ _ _ _ Hw Hidle) as Hnf.
  destruct (decide (d = dest m)) as [->|Hne].
  - unfold covered. cbn. destruct Hsome as [t ->]. intros evs' [Hin|Hin]%elem_of_app.
    { by apply (list_elem_of_fmap_2 fst) in Hin. }
    destruct Hevs as [->|[l ->]]; [by apply elem_of_nil in Hin|].
    apply list_elem_of_singleton in Hin as [= ->].
    destruct (Hcur _ _ Hk) as [Hold|Hnew].
    + right. specialize (Hc k v (dest m) e Hold Hd He Hid). unfold covered in Hc. by rewrite Hnone in Hc.
    + left. destruct (names_event _ _ _ _ Hnew Hd He) as [_ ->]. by left.
  - apply (covered_other P w st _ (dest m)); [done|by apply Hst| |].
    + intros evs' [Hin|Hin]%elem_of_app; [done|]. destruct Hevs as [->|[l ->]]; [by apply elem_of_nil in Hin|].
      by apply list_elem_of_singleton in Hin as [= -> ->].
    + destruct (Hcur _ _ Hk) as [Hold|Hnew]; [by eapply Hc|].
      by destruct (names_event _ _ _ _ Hnew Hd He) as [-> _].
Qed.

(** What a step of the worker keeps. *)
Definition kept P (b' : Maps.Db) (w' : Worker) : Prop :=
  worker_ok n id w' /\ channel w' = channel w /\ started w' = started w /\
  tables_step (names m) b b' /\ (covers P n id b w -> covers P n id b' w').

Lemma request_new P b' t fs evs :
  tables_step (names m) b b' -> statuses w !! dest m = None -> is_failed t = false ->
  fs = futures w ++ evs -> (evs = [] \/ exists l, evs = [(dest m, event m :: l)]) ->
  kept P b' (set_sending (<[dest m := t]> (statuses w)) fs w).
Proof.
  intros Ht Hnone Hft -> Hevs. destruct Hm as [Hv _].
  assert (Hidle : idle w (dest m)) by (intros t' Hst; congruence).
  unfold kept. split_and!; try done.
  - destruct Hevs as [->|[l ->]].
    + rewrite app_nil_r. eapply worker_status; eauto. intros. by rewrite lookup_insert_ne.
    + eapply worker_push; eauto. by eapply idle_not_in_flight.
  - intros Hc. eapply covers_request; eauto.
    + intros. by rewrite lookup_insert_ne.
    + by rewrite lookup_insert_eq.
Qed.

Lemma request_retry P t tries time (items : list QueueItem) :
  is_failed t = false -> statuses w !! dest m = Some (Failed tries time) ->
  (forall k v e, cur b k v -> event_row (dest m) e k v -> e ∈ items.*2) ->
  let '(b', w') := start_selected (dest m) w b (<[dest m := t]> (statuses w)) (Ok (Some items.*2)) in
  kept P b' w'.
Proof.
  intros Ht Hst Hall. destruct Hm as [Hv _].
  assert (Hidle : idle w (dest m)) by (intros t' Ht'; rewrite Hst in Ht'; by injection Ht' as <-).
  pose proof (idle_not_in_flight _ _ _ _ Hw Hidle) as Hnf.
  destruct items.*2 as [|e0 l]; cbn [start_selected]; unfold kept;
    (split_and!; [| done | done | by apply tables_same |]).
  - eapply worker_status; eauto. intros. by rewrite delete_insert_eq, lookup_delete_ne.
  - intros Hc k v d e Hk Hd He Hid. destruct (decide (d = dest m)) as [->|Hne].
    { specialize (Hall k v e Hk He). by apply elem_of_nil in Hall. }
    apply (covered_other P w _ _ (dest m)); [done| |done|by eapply Hc].
    by rewrite delete_insert_eq, lookup_delete_ne.
  - by eapply worker_push.
  - intros Hc k v d e Hk Hd He Hid. destruct (decide (d = dest m)) as [->|Hne].
    { unfold covered. cbn. rewrite lookup_insert_eq. intros evs [Hin|Hin]%elem_of_app.
      - by apply (list_elem_of_fmap_2 fst) in Hin.
      - apply list_elem_of_singleton in Hin as [= ->]. left. by eapply Hall. }
    apply (covered_other P w _ _ (dest m)); [done| | |by eapply Hc].
    + by rewrite lookup_insert_ne.
    + intros evs [?|[= -> ->]%list_elem_of_singleton]%elem_of_app; done.
Qed.

Lemma handle_request_kept P now i i' edus :
  exists b' w', handle_request cfg now i i' edus m b w = Ok (b', w') /\ kept P b' w'.
Proof.
  unfold handle_request, select_events.
  destruct (select_events_current cfg now (dest m) (statuses w) (revive m)) as [[st allow] retry] eqn:Es.
  apply select_current_spec in Es. destruct allow; cbn [negb].
  2: { subst st. exists b, w. split; [by destruct w|]. unfold kept. split_and!; try done. by apply tables_same. }
  destruct Es as (t & -> & Ht & Hst). destruct retry.
  { destruct Hst as (tries & time & Hst), (active_for (dest m) b (proj1 Hm) Hgood) as (items & -> & _ & Hall).
    pose proof (request_retry P t tries time items Ht Hst Hall) as Hk.
    cbn [expect mbind result_bind].
    destruct (start_selected _ _ _ _ _) as [b' w']. by exists b', w'. }
  destruct (mark_as_active i [(queue_id m, event m)] (Maps.cork b)) as [b1 r1] eqn:E1.
  apply mark_message in E1.
  assert (Hnew : forall b' l, Maps.cf CURRENT b' = Maps.cf CURRENT b1 -> Maps.cf QUEUED b' = Maps.cf QUEUED b1 ->
    kept P b' (set_sending (<[dest m := t]> (statuses w)) (futures w ++ [(dest m, event m :: l)]) w) /\
    kept P b' (set_sending (<[dest m := t]> (statuses w)) (futures w) w)).
  { intros b' l Hc Hq. assert (tables_step (names m) b b').
    { unfold tables_step, pend, cur, que in *. by rewrite Hc, Hq. }
    split; [eapply (request_new P b' t _ [(dest m, event m :: l)])|eapply (request_new P b' t _ [])]; eauto.
    by rewrite app_nil_r. }
  destruct r1 as [[]|er]; [|by eexists _, _; split; [done|]; apply (Hnew (Maps.uncork b1) [])].
  cbn [fmap list_fmap snd]. revert Hnew. clear -E1.
  destruct (dest m) as [a|u p|server], edus as [[sel last]|]; intros Hnew;
    try (by eexists _, _; split; [done|]; apply Hnew).
  destruct (set_latest_educount i' server last b1) as [b2 r2] eqn:E2.
  apply educount_rows in E2 as [Hc Hq].
  destruct r2; eexists _, _; (split; [done|]);
    [by apply (Hnew (Maps.uncork b2))|by apply (Hnew (Maps.uncork b2) [])].
Qed.

End Request.

(** ** Handling a response *)

Section Response.
Context (n id j : nat) (w0 : Worker) (d : Destination) (evs : list SendingEvent) (b : Maps.Db).
Hypothesis (Hw0 : worker_ok n id w0) (Hstart : started w0 = true).
Hypothesis (Hj : futures w0 !! j = Some (d, evs)).
Hypothesis (Hgood : forall k v, pend b k v -> good_row k v).
Hypothesis (Huniq : forall k v v', pend b k v -> pend b k v' -> v' = v).

(** The worker once the answered transaction is taken out. *)
Let w : Worker := set_sending (statuses w0) (delete j (futures w0)) w0.

Lemma taken_in : (d, evs) ∈ futures w0.
Proof. by eapply list_elem_of_lookup_2. Qed.

Lemma taken_dest : shard d n = id /\ valid_dest d = true.
Proof.
  destruct (in_flight _ _ _ Hw0 _ _ taken_in) as (t & Ht & _). by apply (own_dests _ _ _ Hw0 _ _ Ht).
Qed.

Lemma taken_nodup : NoDup (futures w).*1 /\ d ∉ (futures w).*1.
Proof.
  pose proof (one_each _ _ _ Hw0) as Hnd. cbn.
  rewrite (delete_take_drop (futures w0) j), fmap_app.
  rewrite <-(take_drop_middle (futures w0) j (d, evs) Hj), fmap_app, fmap_cons in Hnd. cbn in Hnd.
  apply NoDup_app in Hnd as (H1 & H2 & [H3 H4]%NoDup_cons). split.
  - apply NoDup_app. split_and!; [done| |done]. intros x Hx Hx'. apply (H2 x Hx). by right.
  - intros [Hx|Hx]%elem_of_app; [|done]. apply (H2 d Hx). by left.
Qed.

Lemma taken_sub d' evs' : (d', evs') ∈ futures w -> (d', evs') ∈ futures w0.
Proof.
  cbn. rewrite delete_take_drop. intros [Hx|Hx]%elem_of_app.
  - apply elem_of_take in Hx as (? & ? & _). by eapply list_elem_of_lookup_2.
  - apply list_elem_of_lookup in Hx as [i Hi]. rewrite lookup_drop in Hi. by eapply list_elem_of_lookup_2.
Qed.

(** A status of [d] and new transactions of [d] alone. *)
Lemma taken_update st fs :
  (forall d', d' <> d -> st !! d' = statuses w0 !! d') ->
  fs = futures w \/ (exists l, fs = futures w ++ [(d, l)] /\ st !! d = Some Running) ->
  worker_ok n id (set_sending st fs w).
Proof.
  intros Hst Hfs. destruct taken_dest as [Hd Hv], taken_nodup as [Hnd Hn].
  change (set_sending st fs w) with (set_sending st fs w0).
  eapply worker_update; eauto.
  - destruct Hfs as [->|(l & -> & _)]; [done|]. rewrite fmap_app. apply NoDup_app.
    split_and!; [done|set_solver|apply NoDup_singleton].
  - intros d' l' Hin Hne. destruct Hfs as [->|(l & -> & _)]; [by apply taken_sub|].
    apply elem_of_app in Hin as [?|[= -> ->]%list_elem_of_singleton]; [by apply taken_sub|done].
  - intros Hin. destruct Hfs as [->|(l & -> & ->)]; [done|]. eauto.
Qed.

(** The rows of other destinations stay covered. *)
Lemma taken_covers P (P' : Destination -> SendingEvent -> Prop) b' st fs :
  covers P n id b w0 -> (forall d' e, P d' e -> P' d' e) ->
  (forall d', d' <> d -> st !! d' = statuses w0 !! d') ->
  (forall d' l, (d', l) ∈ fs -> d' <> d -> (d', l) ∈ futures w) ->
  (forall k v d' e, cur b' k v -> valid_dest d' = true -> event_row d' e k v -> d' <> d -> cur b k v) ->
  (forall k v e, cur b' k v -> event_row d e k v -> covered P' (set_sending st fs w) d e) ->
  covers P' n id b' (set_sending st fs w).
Proof.
  intros Hc HP Hst Hfs Hcur Hd k v d' e Hk Hv He Hid.
  destruct (decide (d' = d)) as [->|Hne]; [by eapply Hd|].
  specialize (Hc k v d' e (Hcur _ _ _ _ Hk Hv He Hne) Hv He Hid). unfold covered in *. cbn.
  rewrite Hst by done. destruct (statuses w0 !! d'); [|by apply HP].
  intros l Hl. destruct (Hc l) as [?|?]; [by apply taken_sub, (Hfs d')|by left|right; by apply HP].
Qed.

(** A row of [d] that was active is settled once the transaction is answered. *)
Lemma taken_settled P (P' : Destination -> SendingEvent -> Prop) k v e :
  covers P n id b w0 -> (forall d' e, P d' e -> P' d' e) -> (forall e, e ∈ evs -> P' d e) ->
  cur b k v -> event_row d e k v -> P' d e.
Proof.
  intros Hc HP Hevs Hk He. destruct taken_dest as [Hd Hv].
  specialize (Hc k v d e Hk Hv He Hd). unfold covered in Hc.
  destruct (in_flight _ _ _ Hw0 _ _ taken_in) as (t & Ht & _). rewrite Ht in Hc.
  destruct (Hc evs taken_in); auto.
Qed.

(** What a response keeps: only active rows of its destination leave the tables, and
    only when the answer was a success. *)
Definition answered (success : bool) (b' : Maps.Db) (w' : Worker) : Prop :=
  worker_ok n id w' /\ channel w' = channel w0 /\ started w' = started w0 /\
  (forall k v, pend b k v ->
     pend b' k v \/ (success = true /\ cur b k v /\ get_prefix d `prefix_of` k)) /\
  (forall k v, pend b' k v -> pend b k v) /\
  (forall k v d' e, cur b' k v -> valid_dest d' = true -> event_row d' e k v -> d' <> d -> cur b k v) /\
  (forall (P P' : Destination -> SendingEvent -> Prop), covers P n id b w0 -> (forall d' e, P d' e -> P' d' e) ->
     (success = true -> forall e, e ∈ evs -> P' d e) -> covers P' n id b' w').

Section Ok.
Context (b1 : Maps.Db).
(** After the active rows of [d] are deleted, those the database would not delete
    excepted. *)
Hypothesis (Hc1 : forall k v, cur b1 k v -> cur b k v).
Hypothesis (Hq1 : forall k v, que b1 k v <-> que b k v).
Hypothesis (Hp1 : forall k v, pend b k v -> pend b1 k v \/ cur b k v /\ get_prefix d `prefix_of` k).

Lemma deleted_pend k v : pend b1 k v -> pend b k v.
Proof. intros [?%Hc1|?%Hq1]; [by left|by right]. Qed.

Lemma answered_empty b' :
  (forall k v, cur b' k v <-> cur b1 k v) -> (forall k v, que b' k v <-> que b1 k v) ->
  answered true b' (set_sending (delete d (statuses w)) (futures w) w).
Proof.
  intros Hc Hq. unfold answered. split_and!; try done.
  - apply taken_update; [|by left]. intros. by rewrite lookup_delete_ne.
  - intros k v [Hk|Hk]%Hp1; [left|by right]. destruct Hk; [left; by apply Hc|right; by apply Hq].
  - intros k v Hk. apply deleted_pend. destruct Hk; [left; by apply Hc|right; by apply Hq].
  - intros k v d' e Hk%Hc%Hc1. done.
  - intros P P' HP HPP Hevs. specialize (Hevs eq_refl). apply (taken_covers P P'); try done.
    + intros. by rewrite lookup_delete_ne.
    + intros k v d' e Hk%Hc%Hc1. done.
    + intros k v e Hk%Hc%Hc1 He. unfold covered. cbn. rewrite lookup_delete_eq. by eapply taken_settled.
Qed.

Lemma answered_more b' (items : list QueueItem) :
  (forall k e, (k, e) ∈ items -> exists v, que b1 k v /\ event_row d e k v) ->
  (forall k v, pend b1 k v -> pend b' k v) -> (forall k v, que b' k v -> que b1 k v) ->
  (forall k v, cur b' k v -> cur b1 k v \/ exists e, (k, e) ∈ items /\ k <> [] /\ v = event_value e) ->
  answered true b' (set_sending (<[d := Running]> (statuses w)) (futures w ++ [(d, items.*2)]) w).
Proof.
  intros Hitems M1 M3 M4. destruct taken_dest as [Hd Hv], taken_nodup as [_ Hn].
  assert (Hrow : forall k v, cur b' k v -> cur b k v \/ exists e, (k, e) ∈ items /\ event_row d e k v).
  { intros k v [Hk%Hc1|(e & Hin & _ & ->)]%M4; [by left|]. right. exists e. split; [done|].
    destruct (Hitems _ _ Hin) as (v & _ & Hr). by rewrite <-(proj1 Hr). }
  assert (Hoth : forall k v d' e, cur b' k v -> valid_dest d' = true -> event_row d' e k v -> d' <> d -> cur b k v).
  { intros k v d' e [?|(e' & _ & Hr)]%Hrow Hv' He Hne; [done|].
    by destruct (event_row_inj d' d e e' k v Hv' Hv He Hr). }
  unfold answered. split_and!; try done.
  - apply taken_update; [intros; by rewrite lookup_insert_ne|]. right. eexists; split; [done|].
    by rewrite lookup_insert_eq.
  - intros k v [Hk|Hk]%Hp1; [left; by apply M1|by right].
  - intros k v [Hk|Hk].
    + destruct (M4 k v Hk) as [?|(e & Hin & _ & ->)]; [left; by apply Hc1|]. right. apply Hq1.
      destruct (Hitems _ _ Hin) as (v & Hq & Hr). by rewrite <-(proj1 Hr).
    + right. by apply Hq1, M3.
  - intros P P' HP HPP Hevs. specialize (Hevs eq_refl). apply (taken_covers P P'); try done.
    + intros. by rewrite lookup_insert_ne.
    + intros d' l [?|[= -> ->]%list_elem_of_singleton]%elem_of_app; done.
    + intros k v e Hk He. unfold covered. cbn. rewrite lookup_insert_eq.
      intros l [Hin|Hin]%elem_of_app; [by apply (list_elem_of_fmap_2 fst) in Hin|].
      apply list_elem_of_singleton in Hin as [= ->]. destruct (Hrow _ _ Hk) as [?|(e' & Hin & Hr)].
      * right. by eapply taken_settled.
      * left. destruct (event_row_inj d d e e' k v Hv Hv He Hr) as [_ ->].
        by apply (list_elem_of_fmap_2 snd) in Hin.
Qed.

End Ok.

Lemma response_ok_answered ios i :
  exists b' w', handle_response_ok ios i d b w = Ok (b', w') /\ answered true b' w'.
Proof.
  destruct taken_dest as [Hd Hv]. unfold handle_response_ok.
  set (b1 := delete_all_active_requests_for ios d (Maps.cork b)).
  assert (Hc1 : forall k v, cur b1 k v <-> cur b k v /\ ~ (get_prefix d `prefix_of` k /\ Maps.writes (ios k) = true))
    by exact (deleted_for ios d (Maps.cork b)).
  assert (Hq1 : forall k v, que b1 k v <-> que b k v) by exact (deleted_for_que ios d (Maps.cork b)).
  clearbody b1.
  assert (Hp1 : forall k v, pend b k v -> pend b1 k v \/ cur b k v /\ get_prefix d `prefix_of` k).
  { intros k v [Hk|Hk]; [|left; right; by apply Hq1].
    destruct (decide (get_prefix d `prefix_of` k)); [by right|].
    left. left. apply Hc1. naive_solver. }
  assert (Hc1' : forall k v, cur b1 k v -> cur b k v) by naive_solver.
  destruct (queued_for DEQUEUE_LIMIT d b1 Hv) as (items & -> & Hitems & _).
  { intros k v Hk. apply Hgood, (deleted_pend b1); try done. by right. }
  cbn [expect mbind result_bind]. destruct items as [|x items'].
  { eexists _, _. split; [done|]. by apply (answered_empty b1). }
  destruct (mark_as_active i (x :: items') b1) as [b2 r] eqn:Em. eexists _, _. split; [done|].
  destruct (mark_rows i _ b1 b2 r Em) as (M1 & M2 & M3 & M4).
  - intros k e v (v' & Hk & Hr)%Hitems Hp. rewrite <-(proj1 Hr).
    apply (Huniq k); [|by apply (deleted_pend b1)]. right. by apply Hq1.
  - intros k e e' (v & Hk & Hr)%Hitems (v' & Hk' & Hr')%Hitems. rewrite <-(proj1 Hr), <-(proj1 Hr').
    unfold que in *. congruence.
  - by apply (answered_more b1 Hc1' Hq1 Hp1).
Qed.

Lemma answered_same (success : bool) b' st :
  (forall d', d' <> d -> st !! d' = statuses w0 !! d') -> is_Some (st !! d) ->
  (forall k v, que b' k v <-> que b k v) -> (forall k v, cur b' k v -> cur b k v) ->
  (forall k v, cur b k v -> cur b' k v \/ success = true /\ get_prefix d `prefix_of` k) ->
  answered success b' (set_sending st (futures w) w).
Proof.
  intros Hst [t Ht] Hq Hc Hc'. unfold answered. split_and!; try done.
  - apply taken_update; [done|by left].
  - intros k v [Hk|Hk]; [|left; right; by apply Hq]. destruct (Hc' k v Hk) as [|[]]; [left; by left|by right].
  - intros k v [Hk|Hk]; [left; by apply Hc|right; by apply Hq].
  - intros k v d' e Hk. by apply Hc in Hk.
  - intros P P' HP HPP Hevs. apply (taken_covers P P'); try done.
    + intros k v d' e Hk. by apply Hc in Hk.
    + intros k v e Hk He. unfold covered. cbn. rewrite Ht. intros l Hin.
      apply (list_elem_of_fmap_2 fst) in Hin. by destruct taken_nodup.
Qed.

Lemma response_answered now ios i (success : bool) :
  exists b' w', handle_response now ios i success d b w = Ok (b', w') /\ answered success b' w'.
Proof.
  unfold handle_response. destruct success; [apply response_ok_answered|].
  unfold handle_response_err. cbn [statuses w set_sending].
  destruct (in_flight _ _ _ Hw0 _ _ taken_in) as (t & -> & Ht).
  destruct t as [|tries time|tries]; [|done|]; eexists _, _; (split; [done|]);
    (apply answered_same; [intros; by rewrite lookup_insert_ne|by rewrite lookup_insert_eq|naive_solver..]).
Qed.

Lemma finish_answered ios (success : bool) : answered success (finish_response ios success d b) w.
Proof.
  destruct (in_flight _ _ _ Hw0 _ _ taken_in) as (t & Ht & _).
  apply (answered_same _ _ (statuses w0)); [done|by eexists|..]; unfold finish_response; intros k v;
    destruct success; rewrite ?deleted_for, ?deleted_for_que; try tauto.
  destruct (decide (get_prefix d `prefix_of` k)); naive_solver.
Qed.

End Response.

(** ** Dispatching *)

(** Messages of [ms] were appended to the channels of their destinations' workers. *)
Definition extended (ms : list Msg) (ws ws' : list Worker) : Prop :=
  length ws' = length ws /\
  forall id w', ws' !! id = Some w' -> exists w l, ws !! id = Some w /\
    w' = set_channel (channel w ++ l) w /\
    forall m, m ∈ l -> m ∈ ms /\ shard (dest m) (length ws) = id.

Lemma extended_refl ms ws : extended ms ws ws.
Proof.
  split; [done|]. intros id w Hw. exists w, []. split_and!; [done| |by intros m ?%elem_of_nil].
  rewrite app_nil_r. by destruct w.
Qed.

Lemma extended_trans ms ms' ws ws' ws'' :
  extended ms ws ws' -> extended ms' ws' ws'' -> extended (ms ++ ms') ws ws''.
Proof.
  intros [L1 H1] [L2 H2]. split; [congruence|]. intros id w'' Hw.
  destruct (H2 id w'' Hw) as (w' & l' & Hw' & -> & Hl'). destruct (H1 id w' Hw') as (w & l & Hw0 & -> & Hl).
  exists w, (l ++ l'). split_and!; [done|cbn; by rewrite app_assoc|].
  intros m [Hm|Hm]%elem_of_app; [destruct (Hl m Hm)|destruct (Hl' m Hm)]; split; [set_solver|done|set_solver|].
  congruence.
Qed.

Lemma dispatch_spec m ws :
  ws <> [] -> exists ws' ok, dispatch hash m ws = Ok (ws', ok) /\ extended [m] ws ws'.
Proof.
  intros Hws. unfold dispatch.
  destruct (lookup_lt_is_Some_2 ws (shard (dest m) (length ws))) as [w Hw].
  { apply shard_lt. by destruct ws. }
  rewrite Hw. destruct (closed w); eexists _, _; (split; [done|]); [apply extended_refl|].
  split; [by rewrite length_insert|]. intros id w' Hw'.
  apply list_lookup_insert_Some in Hw' as [(<- & <- & _)|[_ Hw']].
  - exists w, [m]. split_and!; [done|done|]. intros m' ->%list_elem_of_singleton. split; [by left|done].
  - destruct (extended_refl [m] ws) as [_ He]. by apply He.
Qed.

Lemma extended_nonempty ms ws ws' : extended ms ws ws' -> ws <> [] -> ws' <> [].
Proof. intros [L _]. destruct ws', ws; cbn in L; done. Qed.

Lemma dispatch_all_spec ms ws :
  ws <> [] -> exists ws', dispatch_all hash ms ws = Ok ws' /\ extended ms ws ws'.
Proof.
  revert ws. induction ms as [|m ms IH]; intros ws Hws; cbn [dispatch_all].
  { eexists; split; [done|apply extended_refl]. }
  destruct (dispatch_spec m ws Hws) as (ws1 & ok & -> & H1). cbn [mbind result_bind].
  assert (Hm : forall ws', extended [m] ws ws' -> extended (m :: ms) ws ws').
  { intros ws' [L Hx]. split; [done|]. intros id w' (w & l & ? & ? & Hl)%Hx. exists w, l.
    split_and!; try done. intros m' [? ?]%Hl. set_solver. }
  destruct ok; [|by eauto]. destruct (IH ws1) as (ws2 & -> & H2); [by eapply extended_nonempty|].
  eexists; split; [done|]. by apply (extended_trans [m] ms ws ws1).
Qed.

Lemma flush_spec servers s :
  workers s <> [] -> exists ws', flush_servers hash servers s = Ok (mkSys (db s) (counter s) ws') /\
    extended ((fun server => mkMsg (Federation server) Flush [] false) <$> servers) (workers s) ws'.
Proof.
  revert s. induction servers as [|server servers IH]; intros s Hs; cbn [flush_servers].
  { exists (workers s). split; [by destruct s|apply extended_refl]. }
  destruct (dispatch_spec (mkMsg (Federation server) Flush [] false) (workers s) Hs) as (ws1 & ok & -> & H1).
  cbn [mbind result_bind]. destruct (IH (mkSys (db s) (counter s) ws1)) as (ws2 & -> & H2).
  { by eapply extended_nonempty. }
  eexists; split; [done|]. rewrite fmap_cons. by apply (extended_trans [_] _ _ ws1).
Qed.

Lemma extended_worker ms ws ws' n :
  n = length ws -> extended ms ws ws' -> (forall m, m ∈ ms -> msg_ok m) ->
  (forall id w, ws !! id = Some w -> worker_ok n id w) ->
  forall id w, ws' !! id = Some w -> worker_ok n id w.
Proof.
  intros -> [L Hx] Hms Hws id w' Hw'. destruct (Hx id w' Hw') as (w & l & Hw & -> & Hl).
  destruct (Hws id w Hw) as [? ? ? Hm ?]. split; cbn; try done.
  intros m [?|Hin]%elem_of_app; [by apply Hm|]. destruct (Hl m Hin). auto.
Qed.

(** What the channels name after a dispatch. *)
Lemma extended_fact ms s b c ws' k v :
  extended ms (workers s) ws' -> fact (mkSys b c ws') k v ->
  pend b k v \/ fact s k v \/ exists m, m ∈ ms /\ names m k v.
Proof.
  intros [L Hx] [Hp|(w' & m & Hw' & Hm & Hn)]; [by left|]. right. cbn in Hw'.
  apply list_elem_of_lookup in Hw' as [id Hw']. destruct (Hx id w' Hw') as (w & l & Hw & -> & Hl).
  cbn in Hm. apply elem_of_app in Hm as [Hm|Hm].
  - left. right. exists w, m. split; [by eapply list_elem_of_lookup_2|done].
  - right. exists m. by destruct (Hl m Hm).
Qed.

(** ** Queueing *)

Lemma puts_rows (name : string) (rs : list row) (c : gmap string column) :
  let c' := Maps.apply_batch ((fun r => Maps.Put name r.1 r.2) <$> rs) c in
  (forall k v, default ∅ (c' !! name) !! k = Some v -> (k, v) ∈ rs \/ default ∅ (c !! name) !! k = Some v) /\
  (forall k v, default ∅ (c !! name) !! k = Some v -> (forall v', (k, v') ∈ rs -> v' = v) ->
     default ∅ (c' !! name) !! k = Some v) /\
  (forall n, n <> name -> default ∅ (c' !! n) = default ∅ (c !! n)).
Proof.
  cbv zeta. revert c. induction rs as [|[k0 v0] rs IH]; intros c; [cbn; auto|].
  cbn [fmap list_fmap]. unfold Maps.apply_batch. cbn [foldl fst snd].
  destruct (IH (Maps.apply_write (Maps.Put name k0 v0) c)) as (I1 & I2 & I3).
  unfold Maps.apply_batch in *. split_and!.
  - intros k v [?|Hk]%I1; [left; by right|]. rewrite Maps.apply_write_lookup, decide_True in Hk by done.
    apply lookup_insert_Some in Hk as [[<- <-]|[_ ?]]; [left; by left|by right].
  - intros k v Hk Hv. apply I2; [|set_solver]. rewrite Maps.apply_write_lookup, decide_True by done.
    destruct (decide (k0 = k)) as [->|]; [|by rewrite lookup_insert_ne].
    rewrite lookup_insert_eq. f_equal. apply Hv. by left.
  - intros n Hn. rewrite I3 by done. by rewrite Maps.apply_write_lookup, decide_False.
Qed.

Lemma insert_rows i (rs : list row) b b' r :
  Maps.insert_batch i QUEUED rs b = (b', r) ->
  (forall k v v', pend b k v -> (k, v') ∈ rs -> v' = v) ->
  (forall k v, pend b k v -> pend b' k v) /\ (forall k v, cur b' k v <-> cur b k v) /\
  (forall k v, que b' k v -> que b k v \/ (k, v) ∈ rs).
Proof.
  intros E Hu. pose proof (Maps.insert_batch_cfs i QUEUED rs b) as Hc. rewrite E in Hc. cbn in Hc.
  unfold pend, cur, que, Maps.cf in *. rewrite Hc. destruct (Maps.writes i); [|naive_solver].
  destruct (puts_rows QUEUED rs (Maps.cfs b)) as (H1 & H2 & H3). rewrite H3 by done.
  split_and!; [|done|].
  - intros k v [?|Hk]; [by left|]. right. apply H2; [done|]. intros. eapply Hu; eauto.
  - intros k v [?|?]%H1; auto.
Qed.

(** ** Starting up *)

(** The events [gather] drops because their destination already has its fill. *)
Fixpoint dropped (id senders : nat) (active : list (Key * SendingEvent * Destination))
    (txns : gmap Destination (list SendingEvent)) : list (Destination * SendingEvent) :=
  match active with
  | [] => []
  | (key, event, d) :: active =>
      if negb (shard d senders =? id)%nat then dropped id senders active txns else
      let entry := default [] (txns !! d) in
      if (0 <=? startup_netburst_keep cfg) && (keep_limit cfg <=? Z.of_nat (length entry))
      then (d, event) :: dropped id senders active (<[d := entry]> txns)
      else dropped id senders active (<[d := entry ++ [event]]> txns)
  end.

Lemma delete_active_rows i key b k v :
  (cur (delete_active_request i key b) k v -> cur b k v) /\
  (cur b k v -> cur (delete_active_request i key b) k v \/ k = key) /\
  (que (delete_active_request i key b) k v <-> que b k v).
Proof.
  unfold cur, que, delete_active_request, Maps.cf. rewrite Maps.remove_cfs.
  destruct (Maps.writes i); [|tauto]. rewrite !Maps.apply_write_lookup.
  rewrite decide_True, decide_False by done. rewrite lookup_delete_Some.
  split_and!; [tauto| |tauto]. intros. destruct (decide (key = k)) as [->|]; [by right|by left].
Qed.

Lemma gather_spec ios id senders active txns b txns' b' :
  gather cfg hash ios id senders active txns b = (txns', b') ->
  (forall k v, cur b' k v -> cur b k v) /\ (forall k v, que b' k v <-> que b k v) /\
  (forall k v, cur b k v -> cur b' k v \/
     exists e d, (k, e, d) ∈ active /\ (d, e) ∈ dropped id senders active txns) /\
  (forall d l, txns' !! d = Some l -> is_Some (txns !! d) \/ shard d senders = id /\ d ∈ active.*2) /\
  (forall d l, txns !! d = Some l -> exists l', txns' !! d = Some (l ++ l')) /\
  (forall k e d, (k, e, d) ∈ active -> shard d senders = id ->
     (exists l, txns' !! d = Some l /\ e ∈ l) \/ (d, e) ∈ dropped id senders active txns).
Proof.
  revert txns b. induction active as [|[[key e0] d0] active IH]; intros txns b E; cbn [gather dropped] in *.
  { injection E as <- <-. split_and!; [done|done|by left|by left; eexists| |].
    - intros d l Hl. exists []. by rewrite app_nil_r.
    - by intros k e d ?%elem_of_nil. }
  destruct (Nat.eqb_spec (shard d0 senders) id) as [Hid|Hid]; cbn [negb] in *.
  2: { destruct (IH _ _ E) as (I1 & I2 & I3 & I4 & I5 & I6). split_and!; try done.
    - intros k v [?|(e & d & ? & ?)]%I3; [by left|right; exists e, d; set_solver].
    - intros d l [?|[? ?]]%I4; [by left|right; set_solver].
    - intros k e d [[= -> -> ->]|Hin]%elem_of_cons Hd; [done|by eapply I6]. }
  assert (Hins : forall l0 d, is_Some (<[d0 := l0]> txns !! d) -> is_Some (txns !! d) \/ d = d0).
  { intros l0 d [?|?]%insert_is_Some; auto. }
  case_match; destruct (IH _ _ E) as (I1 & I2 & I3 & I4 & I5 & I6); clear IH E; split_and!.
  - intros k v ?%I1. by apply (delete_active_rows (ios key) key b).
  - intros k v. rewrite I2. by apply delete_active_rows.
  - intros k v Hk. destruct (proj1 (proj2 (delete_active_rows (ios key) key b k v)) Hk) as [[?|(e & d & ? & ?)]%I3| ->].
    + by left.
    + right. exists e, d. set_solver.
    + right. exists e0, d0. set_solver.
  - intros d l [[?| ->]%Hins|[? ?]]%I4; [by left|right; set_solver|right; set_solver].
  - intros d l Hl. apply I5. destruct (decide (d0 = d)) as [->|]; [|by rewrite lookup_insert_ne].
    by rewrite lookup_insert_eq, Hl.
  - intros k e d [[= -> -> ->]|Hin]%elem_of_cons Hd; [right; by left|].
    destruct (I6 k e d Hin Hd); [by left|right; by right].
  - done.
  - done.
  - intros k v [?|(e & d & ? & ?)]%I3; [by left|]. right. exists e, d. set_solver.
  - intros d l [[?| ->]%Hins|[? ?]]%I4; [by left|right; set_solver|right; set_solver].
  - intros d l Hl. destruct (decide (d0 = d)) as [->|].
    + destruct (I5 d (l ++ [e0])) as [l' Hl']; [by rewrite lookup_insert_eq, Hl|].
      exists ([e0] ++ l'). by rewrite app_assoc.
    + apply I5. by rewrite lookup_insert_ne.
  - intros k e d [[= -> -> ->]|Hin]%elem_of_cons Hd; [|by eapply I6]. left.
    destruct (I5 d0 (default [] (txns !! d0) ++ [e0])) as [l' Hl']; [by rewrite lookup_insert_eq|].
    eexists; split; [done|]. set_solver.
Qed.

Lemma start_all_spec l st fs st' fs' :
  start_all cfg l st fs = (st', fs') ->
  let started := if startup_netburst_on cfg then filter (fun x : SendingFuture => x.2 <> []) l else [] in
  fs' = fs ++ started /\
  forall d, (d ∈ started.*1 -> st' !! d = Some Running) /\ (d ∉ started.*1 -> st' !! d = st !! d).
Proof.
  revert st fs. induction l as [|[d0 l0] l IH]; intros st fs E; cbn [start_all] in E; cbv zeta in *.
  { injection E as <- <-. split; [by destruct (startup_netburst_on cfg); rewrite app_nil_r|].
    intros d. destruct (startup_netburst_on cfg); cbn; (split; [by intros ?%elem_of_nil|done]). }
  destruct (startup_netburst_on cfg); cbn [andb] in E; [|by apply IH].
  destruct (decide (l0 = [])) as [->|Hne].
  - rewrite bool_decide_eq_true_2 in E by done. rewrite filter_cons_False by (cbn; by intros ?). by apply IH.
  - rewrite bool_decide_eq_false_2 in E by done. rewrite filter_cons_True by done.
    destruct (IH _ _ E) as [-> Hd]. split; [by rewrite <-app_assoc|]. intros d. rewrite fmap_cons. cbn.
    destruct (Hd d) as [H1 H2].
    destruct (decide (d ∈ (filter (fun x : SendingFuture => x.2 <> []) l).*1)) as [Hin|Hin].
    + split; [auto|set_solver].
    + rewrite H2 by done. destruct (decide (d = d0)) as [->|].
      * rewrite lookup_insert_eq. set_solver.
      * rewrite lookup_insert_ne by done. set_solver.
Qed.

(** ** Steps of a worker *)

(** What every step of worker [id] keeps, whatever it settles ([settled]): its
    invariant, the rows of others, and every row that it does not settle. *)
Record wstep (n id : nat) (settled : list (Destination * SendingEvent)) (b : Maps.Db) w (b' : Maps.Db)
    (w' : Worker) : Prop := {
  ws_ok : worker_ok n id w';
  ws_channel m : m ∈ channel w' -> m ∈ channel w;
  ws_rows k v : pend b' k v -> pend b k v \/ exists m, m ∈ channel w /\ names m k v;
  ws_others k v d e : cur b' k v -> valid_dest d = true -> event_row d e k v -> shard d n <> id -> cur b k v;
  ws_covers (P P' : Destination -> SendingEvent -> Prop) :
    startup_netburst_on cfg = true -> (started w = true -> covers P n id b w) ->
    (forall d e, P d e -> P' d e) -> (forall d e, (d, e) ∈ settled -> P' d e) ->
    (started w' = true -> covers P' n id b' w') /\
    forall k v d e, pend b k v -> valid_dest d = true -> event_row d e k v -> pend b' k v \/ P' d e
}.

Lemma covers_mono P (P' : Destination -> SendingEvent -> Prop) n id b w :
  (forall d e, P d e -> P' d e) -> covers P n id b w -> covers P' n id b w.
Proof.
  intros HP Hc k v d e Hk Hv He Hid. specialize (Hc k v d e Hk Hv He Hid). unfold covered in *.
  destruct (statuses w !! d); [|auto]. intros l Hl. destruct (Hc l Hl); auto.
Qed.

Lemma wstep_request n id w m ms b b' w' :
  worker_ok n id w -> started w = true -> channel w = m :: ms ->
  (forall P, kept n id (set_channel ms w) m b P b' w') ->
  wstep n id [] b w b' w'.
Proof.
  intros Hw Hs Hch Hk. destruct (own_msgs _ _ _ Hw m) as [Hshard Hm]; [rewrite Hch; by left|].
  destruct (Hk (fun _ _ => True)) as (Hok & Hc & Hst & (T1 & T2 & T3) & _). split.
  - done.
  - intros m' Hm'. rewrite Hc in Hm'. cbn in Hm'. rewrite Hch. by right.
  - intros k v [Hp|Hp]; [|left; right; by apply T2].
    destruct (T3 k v Hp) as [?|?]; [left; by left|]. right. exists m. rewrite Hch. split; [by left|done].
  - intros k v d e Hp Hv He Hne. destruct (T3 k v Hp) as [?|Hn]; [done|].
    by destruct (names_event m Hm k v d e Hn Hv He) as [-> _].
  - intros P P' _ Hcov HP _. destruct (Hk P) as (_ & _ & _ & _ & Hkc). split.
    + intros _. apply (covers_mono P P'); [done|]. by apply Hkc, Hcov.
    + intros k v d e Hp _ _. left. by apply T1.
Qed.

Lemma wstep_response n id j w d evs (success : bool) b b' w' :
  worker_ok n id w -> started w = true -> futures w !! j = Some (d, evs) ->
  answered n id w d evs b success b' w' ->
  wstep n id (if success then (fun e => (d, e)) <$> evs else []) b w b' w'.
Proof.
  intros Hw Hs Hj (Hok & Hc & Hst & A1 & A2 & A3 & A4).
  destruct (taken_dest n id j w d evs Hw Hj) as [Hd Hv]. split.
  - done.
  - intros m. by rewrite Hc.
  - intros k v Hk. left. by apply A2.
  - intros k v d' e Hk Hv' He Hne. eapply A3; eauto. intros ->. done.
  - intros P P' _ Hcov HP Hset. specialize (Hcov Hs).
    assert (Hevs : success = true -> forall e, e ∈ evs -> P' d e).
    { intros -> e He. apply Hset. by apply list_elem_of_fmap_2. }
    split; [intros _; by apply (A4 P P')|].
    intros k v d' e Hp Hv' He. destruct (A1 k v Hp) as [?|(Es & Hcur & Hpre)]; [by left|]. right.
    apply (event_row_prefix d' d e k v Hv' Hv He) in Hpre as <-.
    eapply (taken_settled n id j w d evs b); eauto.
Qed.

(** An active list that lists every active row. *)
Lemma active_all b :
  (forall k v, cur b k v -> good_row k v) ->
  exists active, active_requests b = Ok active /\
    (forall k e d, (k, e, d) ∈ active -> valid_dest d = true /\ exists v, cur b k v /\ event_row d e k v) /\
    (forall k v d e, cur b k v -> valid_dest d = true -> event_row d e k v -> (k, e, d) ∈ active).
Proof.
  intros Hg. unfold active_requests. destruct (parse_rows_good (scan (Maps.cf CURRENT b))) as (xs & -> & Hxs).
  { apply Forall_forall. intros r Hr%elem_of_scan. by apply Hg. }
  exists xs. split_and!; [done| |].
  - intros k e d Hin. apply list_elem_of_lookup in Hin as [j Hj].
    destruct (Forall2_lookup_r _ _ _ _ _ Hxs Hj) as ([k' v] & Hr & Hk & Hv & Hrow). cbn in *. subst k'.
    split; [done|]. exists v. split; [|done].
    apply list_elem_of_lookup_2, elem_of_scan in Hr. done.
  - intros k v d e Hk Hv He. assert (Hin : (k, v) ∈ scan (Maps.cf CURRENT b)) by (by apply elem_of_scan).
    apply list_elem_of_lookup in Hin as [j Hj].
    destruct (Forall2_lookup_l _ _ _ _ _ Hxs Hj) as ([[k' e'] d'] & Hx & Hk' & Hv' & Hrow). cbn in *. subst k'.
    destruct (event_row_inj d d' e e' k v Hv Hv' He Hrow) as [-> ->]. by eapply list_elem_of_lookup_2.
Qed.

Definition startup_drops (id senders : nat) (b : Maps.Db) : list (Destination * SendingEvent) :=
  match active_requests b with Ok active => dropped id senders active ∅ | Err _ => [] end.

Lemma wstep_start ios n id w b :
  worker_ok n id w -> started w = false -> (forall k v, cur b k v -> good_row k v) ->
  exists b' w', startup_netburst cfg hash ios id n b w = Ok (b', w') /\
    wstep n id (startup_drops id n b) b w b' w'.
Proof.
  intros Hw Hs Hg. unfold startup_netburst, startup_drops.
  destruct (active_all b Hg) as (active & -> & Ha & Hall). cbn [expect mbind result_bind].
  destruct (gather cfg hash ios id n active ∅ b) as [txns b'] eqn:Eg.
  destruct (start_all cfg (map_to_list txns) (statuses w) (futures w)) as [st fs] eqn:Es.
  destruct (gather_spec _ _ _ _ _ _ _ _ Eg) as (G1 & G2 & G3 & G4 & _ & G6).
  destruct (not_started _ _ _ Hw Hs) as [Hst Hfs]. rewrite Hst, Hfs in Es.
  apply start_all_spec in Es. cbv zeta in Es. destruct Es as [-> Hdst]. cbn [app] in *.
  set (live := if startup_netburst_on cfg then _ else _) in *.
  assert (Hlive : forall d l, (d, l) ∈ live -> txns !! d = Some l /\ l <> []).
  { unfold live. intros d l. destruct (startup_netburst_on cfg); [|by intros ?%elem_of_nil].
    intros [? ?]%list_elem_of_filter. by rewrite <-elem_of_map_to_list. }
  assert (Hnd : NoDup live.*1).
  { unfold live. destruct (startup_netburst_on cfg); [|constructor].
    eapply sublist_NoDup; [apply (NoDup_fst_map_to_list txns)|]. apply fmap_sublist, sublist_filter. }
  eexists _, _. split; [done|]. split; cbn [channel started statuses futures].
  - split; cbn; [|done| |by apply Hw|done].
    + intros d l Hin. exists Running. split; [|done]. apply Hdst. by apply (list_elem_of_fmap_2 fst) in Hin.
    + intros d t Ht. destruct (decide (d ∈ live.*1)) as [Hin|Hin].
      2: { rewrite (proj2 (Hdst d) Hin) in Ht. by rewrite lookup_empty in Ht. }
      apply list_elem_of_fmap in Hin as ([d' l] & -> & [Hl _]%Hlive). cbn in *.
      destruct (G4 _ _ Hl) as [[? ?]|[Hid Hin]]; [by rewrite lookup_empty in *|]. split; [done|].
      apply list_elem_of_fmap in Hin as ([[k e] d''] & -> & Hin). by apply (Ha k e d'').
  - done.
  - intros k v [?%G1|?%G2]; [left; by left|left; by right].
  - intros k v d e ?%G1. done.
  - intros P P' Hon _ _ Hset. split.
    + intros _ k v d e Hk%G1 Hv He Hid. unfold covered. cbn.
      destruct (G6 k e d (Hall k v d e Hk Hv He) Hid) as [(l & Hl & Hin)|Hdrop].
      * assert (Hin' : (d, l) ∈ live).
        { unfold live. rewrite Hon. apply list_elem_of_filter. split; [cbn; by intros ->; apply elem_of_nil in Hin|].
          by apply elem_of_map_to_list. }
        rewrite (proj1 (Hdst d)) by (by apply (list_elem_of_fmap_2 fst) in Hin').
        intros l' [Hl' _]%Hlive. left. congruence.
      * destruct (st !! d); [|by apply Hset]. intros. right. by apply Hset.
    + intros k v d e [Hk|Hk] Hv He; [|left; right; by apply G2].
      destruct (G3 k v Hk) as [?|(e' & d' & Hin & Hdrop)]; [left; by left|]. right.
      destruct (Ha _ _ _ Hin) as (Hv' & v' & Hk' & He').
      assert (v' = v) as -> by (unfold cur in *; congruence).
      destruct (event_row_inj d d' e e' k v Hv Hv' He He') as [-> ->]. by apply Hset.
Qed.

(** ** Steps of the system *)

Definition cleanup_dest (appservice_id user_id push_key : option bytes) : option Destination :=
  match appservice_id, user_id, push_key with
  | None, Some user_id, Some push_key => Some (Push user_id push_key)
  | Some appservice_id, None, None => Some (Appservice appservice_id)
  | _, _, _ => None
  end.

(** What the types of the arguments guarantee. *)
Definition valid_op (o : op) : Prop :=
  match o with
  | Queue _ _ requests => Forall (fun r => valid_request (r.2, r.1)) requests
  | FlushServers servers => Forall (fun server => server_name_parse server = true) servers
  | PeerAlive _ server => server_name_parse server = true
  | Cleanup _ _ a u p => forall d, cleanup_dest a u p = Some d -> valid_dest d = true
  | _ => True
  end.

(** The events a step delivers, or drops at startup by configuration. *)
Definition settles s (o : op) : list (Destination * SendingEvent) :=
  match o with
  | Response _ _ _ id n true | Finish _ id n true =>
      match w ← workers s !! id; futures w !! n with
      | Some (d, evs) => (fun e => (d, e)) <$> evs
      | None => []
      end
  | Start _ id => startup_drops id (length (workers s)) (db s)
  | _ => []
  end.

(** The rows a step removes because their pusher or appservice is gone. *)
Definition cleans (o : op) (d : Destination) : Prop :=
  match o with Cleanup _ _ a u p => cleanup_dest a u p = Some d | _ => False end.

Definition all_covered P s : Prop :=
  forall id w, workers s !! id = Some w -> started w = true -> covers P (length (workers s)) id (db s) w.

Definition conserves (P : Destination -> SendingEvent -> Prop) (o : op) s s' : Prop :=
  forall k v d e, pend (db s) k v -> valid_dest d = true -> event_row d e k v ->
    pend (db s') k v \/ P d e \/ cleans o d.

Definition step_keeps s (o : op) s' : Prop :=
  sys_ok s' /\
  forall (P P' : Destination -> SendingEvent -> Prop), startup_netburst_on cfg = true -> all_covered P s ->
    (forall d e, P d e -> P' d e) -> (forall d e, (d, e) ∈ settles s o -> P' d e) ->
    all_covered P' s' /\ conserves P' o s s'.

Lemma at_worker_keeps s o id w b' w' :
  sys_ok s -> workers s !! id = Some w ->
  wstep (length (workers s)) id (settles s o) (db s) w b' w' ->
  step_keeps s o (mkSys b' (counter s) (<[id := w']> (workers s))).
Proof.
  intros [Hne Hws Hrows] Hw Hstep. pose proof (lookup_lt_Some _ _ _ Hw) as Hlt. split.
  - split; cbn; [by destruct (workers s), id| |].
    + intros id' w1. rewrite length_insert. intros [(-> & <- & _)|[_ ?]]%list_lookup_insert_Some;
        [by apply Hstep|by apply Hws].
    + apply (rows_ok_shrink s); [done|done|]. intros k v [Hp|(w1 & m & Hin & Hm & Hn)].
      * destruct (ws_rows _ _ _ _ _ _ _ Hstep k v Hp) as [?|(m & Hm & Hn)]; [by left|].
        right. exists w, m. split_and!; [by eapply list_elem_of_lookup_2|done|done].
      * right. cbn in Hin. apply list_elem_of_lookup in Hin as [id' Hid'].
        apply list_lookup_insert_Some in Hid' as [(-> & <- & _)|[_ ?]].
        -- exists w, m. split_and!; [by eapply list_elem_of_lookup_2|by eapply ws_channel|done].
        -- exists w1, m. split_and!; [by eapply list_elem_of_lookup_2|done|done].
  - intros P P' Hon Hcov HP Hset.
    destruct (ws_covers _ _ _ _ _ _ _ Hstep P P' Hon (Hcov id w Hw) HP Hset) as [C1 C2]. split.
    + intros id' w1. cbn. rewrite length_insert.
      intros [(-> & <- & _)|[Hne' Hw1]]%list_lookup_insert_Some Hs1; [by apply C1|].
      intros k v d e Hk Hv He Hid.
      apply (covers_mono P P' _ _ _ _ HP (Hcov id' w1 Hw1 Hs1) k v d e); try done.
      eapply ws_others; eauto. congruence.
    + intros k v d e Hp Hv He. destruct (C2 k v d e Hp Hv He); auto.
Qed.

(** Steps that only add rows to the queue and messages to the channels. *)
Lemma extended_keeps s o ms b c ws' :
  sys_ok s -> extended ms (workers s) ws' -> (forall m, m ∈ ms -> msg_ok m) -> rows_ok (mkSys b c ws') ->
  (forall k v, cur b k v -> cur (db s) k v) -> (forall k v, pend (db s) k v -> pend b k v) ->
  step_keeps s o (mkSys b c ws').
Proof.
  intros [Hne Hws Hrows] Hx Hms Hr' Hcur Hpend. pose proof Hx as [L Hx']. split.
  - split; cbn; [by eapply extended_nonempty| |done].
    rewrite L. by apply (extended_worker ms (workers s) ws').
  - intros P P' Hon Hcov HP _. split; [|intros k v d e Hp; left; by apply Hpend].
    intros id w' Hw' Hs'. cbn in *. destruct (Hx' id w' Hw') as (w & l & Hw & -> & _). rewrite L.
    specialize (Hcov id w Hw Hs'). intros k v d e Hk%Hcur.
    by apply (covers_mono P P' _ _ _ _ HP Hcov).
Qed.

Lemma dispatched_keeps s o ms ws' :
  sys_ok s -> extended ms (workers s) ws' -> (forall m, m ∈ ms -> msg_ok m /\ queue_id m = []) ->
  step_keeps s o (mkSys (db s) (counter s) ws').
Proof.
  intros Hok Hx Hms. apply (extended_keeps _ _ ms); try done; [intros m Hm; by apply Hms|].
  apply (rows_ok_shrink s); [apply Hok|done|]. intros k v Hf.
  apply (extended_fact ms s) in Hf as [?|[?|(m & Hm & -> & Hn & _)]]; [by left|done| |done].
  by destruct (Hms m Hm).
Qed.

Lemma rows_ok_new s c' (N : list row) s' :
  rows_ok s -> counter s' = c' -> ServerCounter.wf c' ->
  ServerCounter.stored (counter s) <= ServerCounter.stored c' ->
  Forall (new_row (ServerCounter.stored (counter s)) (ServerCounter.stored c')) N -> consistent N ->
  (forall k v, fact s' k v -> fact s k v \/ (k, v) ∈ N) -> rows_ok s'.
Proof.
  intros [Hc Hg Hn Hu] Ec Hwf Hle HN Hcons Hf. rewrite Forall_forall in HN. split.
  - by rewrite Ec.
  - intros k v [?|Hin]%Hf; [by apply Hg|]. by apply HN, new_row_good in Hin.
  - rewrite Ec. intros k v [?|Hin]%Hf; [by eapply numbered_upto_mono; eauto|].
    apply HN in Hin as (d & e & _ & _ & ? & _). done.
  - intros k v v' [H1|H1]%Hf [H2|H2]%Hf.
    + by eapply Hu.
    + symmetry. eapply new_row_unique; [by apply HN|eauto..].
    + eapply new_row_unique; [by apply HN|eauto..].
    + by apply (Hcons k).
Qed.

Lemma queue_keeps okc i reqs s :
  sys_ok s -> Forall (fun r => valid_request (r.2, r.1)) reqs ->
  exists s', queue_each hash okc i reqs s = Ok s' /\ step_keeps s (Queue okc i reqs) s'.
Proof.
  intros Hok Hreqs. pose proof (sys_rows _ Hok) as Hrows. pose proof Hrows as [Hc Hg Hn Hu].
  set (rq := (fun r : Destination * SendingEvent => (r.2, r.1)) <$> reqs).
  assert (Hrq : Forall valid_request rq) by (unfold rq; by apply Forall_fmap).
  unfold queue_each, queue_requests. fold rq.
  destruct (request_keys okc 0 rq (counter s)) as [c' [keys|er]] eqn:Ek;
    destruct (request_keys_spec _ _ _ _ _ _ Ek Hrq Hc) as (Hc' & Hle & Hr).
  2: { eexists; split; [done|]. apply (extended_keeps _ _ []); try done;
         [apply extended_refl|by intros m ?%elem_of_nil|].
       apply (rows_ok_new s c' []); try done; [|by left]. by intros k v v' ?%elem_of_nil. }
  destruct (Hr keys eq_refl) as (Hf & Hnew & Hcons). clear Hr. set (N := zip keys (event_value <$> rq.*1)) in *.
  destruct (Maps.insert_batch i QUEUED N (Maps.cork (db s))) as [b r] eqn:Ei.
  destruct (insert_rows i N (Maps.cork (db s)) b r Ei) as (I1 & I2 & I3).
  { intros k v v' Hp Hin. rewrite Forall_forall in Hnew.
    eapply new_row_unique; [by apply Hnew|apply Hg; by left|eapply Hn; by left]. }
  set (ms := zip_with (fun r queue_id => mkMsg r.1 r.2 queue_id false) reqs keys).
  assert (Hms : forall m, m ∈ ms -> msg_ok m /\ forall k v, names m k v -> (k, v) ∈ N).
  { unfold ms, N, rq in *. clear -Hf Hreqs. revert keys Hf. induction Hreqs as [|[d e] reqs Hreq Hreqs IH];
      intros [|key keys] Hf; inversion Hf; subst; cbn; try (by intros m ?%elem_of_nil).
    intros m [->|Hm]%elem_of_cons.
    - split; [split; [apply Hreq|by right]|]. intros k v (-> & _ & ->). by left.
    - destruct (IH keys ltac:(done) m Hm) as [? Hn]. split; [done|]. intros k v ?. right. by apply Hn. }
  assert (Hfin : forall ms' ws', extended ms' (workers s) ws' -> (forall m, m ∈ ms' -> m ∈ ms) ->
    step_keeps s (Queue okc i reqs) (mkSys (Maps.uncork b) c' ws')).
  { intros ms' ws' Hx Hsub. apply (extended_keeps _ _ ms'); try done.
    - intros m ?%Hsub. by apply Hms.
    - apply (rows_ok_new s c' N); try done. intros k v Hfact.
      apply (extended_fact ms' s) in Hfact as [[Hp|Hp]|[?|(m & Hm%Hsub & Hn')]]; [| |by left| |done].
      + left. left. left. by apply I2.
      + destruct (I3 k v Hp); [left; left; by right|by right].
      + right. by apply (Hms m Hm).
    - intros k v. apply I2. }
  destruct r as [[]|er]; [|eexists; split; [done|]; apply (Hfin []); [apply extended_refl|by intros m ?%elem_of_nil]].
  destruct (dispatch_all_spec ms (workers s) (sys_workers _ Hok)) as (ws' & Ed & Hx).
  exists (mkSys (Maps.uncork b) c' ws'). split; [|by apply (Hfin ms)].
  cbn [mbind result_bind]. change (zip_with _ reqs keys) with ms. by rewrite Ed.
Qed.

Lemma cleanup_keeps ios ios' a u p s :
  sys_ok s -> valid_op (Cleanup ios ios' a u p) ->
  step_keeps s (Cleanup ios ios' a u p) (cleanup_events ios ios' a u p s).
Proof.
  intros Hok Hval. cbn [valid_op] in Hval.
  assert (Hsame : cleanup_events ios ios' a u p s = match cleanup_dest a u p with
    | Some d => mkSys (delete_all_requests_for ios ios' d (db s)) (counter s) (workers s) | None => s end)
    by (by destruct a, u, p).
  rewrite Hsame. clear Hsame. destruct (cleanup_dest a u p) as [d|] eqn:Ed.
  2: { split; [done|]. intros P P' _ Hcov HP _. split; [|intros k v d e ?; by left].
       intros id w Hw Hs. by eapply covers_mono, Hcov. }
  specialize (Hval d eq_refl). set (b := delete_all_requests_for ios ios' d (db s)).
  assert (Hc : forall k v, cur b k v -> cur (db s) k v).
  { unfold b, cur, delete_all_requests_for. intros k v Hk. rewrite !Maps.raw_del_prefix_cf in Hk. tauto. }
  assert (Hq : forall k v, que b k v -> que (db s) k v).
  { unfold b, que, delete_all_requests_for. intros k v Hk. rewrite !Maps.raw_del_prefix_cf in Hk. tauto. }
  assert (Hlost : forall k v, pend (db s) k v -> pend b k v \/ get_prefix d `prefix_of` k).
  { unfold b, pend, cur, que, delete_all_requests_for. intros k v. rewrite !Maps.raw_del_prefix_cf.
    destruct (decide (get_prefix d `prefix_of` k)); [by right|]. left. naive_solver. }
  clearbody b. destruct Hok as [Hne Hws Hrows]. split.
  - split; [done|done|]. apply (rows_ok_shrink s); [done|done|].
    intros k v [[?%Hc|?%Hq]|?]; [left; by left|left; by right|by right].
  - intros P P' _ Hcov HP _. split.
    + intros id w Hw Hs k v d' e Hk%Hc. cbn in *. by apply (covers_mono P P' _ _ _ _ HP (Hcov id w Hw Hs)).
    + intros k v d' e Hp Hv He. destruct (Hlost k v Hp) as [?|Hpre]; [by left|]. right. right. cbn.
      apply (event_row_prefix d' d e k v Hv Hval He) in Hpre as ->. done.
Qed.

Lemma restart_keeps s senders c :
  sys_ok s -> senders <> 0%nat -> ServerCounter.new (ServerCounter.global (counter s)) = Ok c ->
  step_keeps s (Restart senders) (mkSys (db s) c (replicate senders new_worker)).
Proof.
  intros [Hne Hws [Hc Hg Hn Hu]] Hs Ec.
  destruct (ServerCounter.handle_spec (counter s) ServerCounter.Restart Hc) as (c1 & ns & Eh & Hc1 & Hle & _).
  cbn [ServerCounter.handle] in Eh. rewrite Ec in Eh. cbn in Eh. injection Eh as <- <-.
  assert (Hin : forall id w, replicate senders new_worker !! id = Some w -> w = new_worker)
    by (intros id w; by intros [? _]%lookup_replicate).
  assert (Hf : forall k v, fact (mkSys (db s) c (replicate senders new_worker)) k v -> fact s k v).
  { intros k v [?|(w & m & Hw & Hm & _)]; [by left|]. apply list_elem_of_lookup in Hw as [id ->%Hin].
    by apply elem_of_nil in Hm. }
  split.
  - split; cbn; [by destruct senders| |].
    + intros id w ->%Hin. split; cbn; [|constructor| | |done].
      * by intros d evs ?%elem_of_nil.
      * intros d t Ht. by rewrite lookup_empty in Ht.
      * by intros m ?%elem_of_nil.
    + split; [done| | |]; eauto. intros k v Hk. eapply numbered_upto_mono; eauto.
  - intros P P' _ _ _ _. split; [|intros k v d e ?; by left]. by intros id w ->%Hin.
Qed.

Lemma interrupt_keeps s :
  sys_ok s -> exists s', exec cfg hash s Interrupt = Ok s' /\ step_keeps s Interrupt s'.
Proof.
  intros [Hne Hws Hrows]. eexists; split; [done|].
  assert (Hin : forall id w', ((fun w => mkWorker (channel w) true (started w) (statuses w) (futures w)) <$> workers s) !! id = Some w' ->
    exists w, workers s !! id = Some w /\ w' = mkWorker (channel w) true (started w) (statuses w) (futures w)).
  { intros id w'. rewrite list_lookup_fmap. intros (w & ? & ->)%fmap_Some. eauto. }
  split.
  - split; cbn; [by destruct (workers s)| |].
    + rewrite length_fmap. intros id w' (w & Hw & ->)%Hin. by destruct (Hws id w Hw).
    + apply (rows_ok_shrink s); [done|done|]. intros k v [?|(w' & m & Hw & Hm & ?)]; [by left|]. right.
      apply list_elem_of_lookup in Hw as [id (w & Hw & ->)%Hin]. exists w, m.
      split_and!; [by eapply list_elem_of_lookup_2|done|done].
  - intros P P' _ Hcov HP _. split; [|intros k v d e ?; by left].
    intros id w' (w & Hw & ->)%Hin Hs. cbn in *. rewrite length_fmap.
    apply (covers_mono P P' _ _ _ _ HP (Hcov id w Hw Hs)).
Qed.

(** A step is disabled, or it happens and keeps the invariants. *)
Definition runs s (o : op) (r : result fault Sys) : Prop :=
  r = Err Disabled \/ exists s', r = Ok s' /\ step_keeps s o s'.

Lemma request_keeps s now i i' edus id :
  sys_ok s -> runs s (Request now i i' edus id) (exec cfg hash s (Request now i i' edus id)).
Proof.
  intros Hok. pose proof (sys_rows _ Hok) as [_ Hg _ Hu]. cbn [exec]. unfold at_worker.
  destruct (workers s !! id) as [w|] eqn:Ew; [cbn [ok_or mbind result_bind]|by left].
  destruct (started w) eqn:Hst; [cbn [negb]|by left]. destruct (channel w) as [|m ms] eqn:Ech; [by left|]. right.
  pose proof (sys_worker _ Hok id w Ew) as Hw.
  destruct (own_msgs _ _ _ Hw m) as [Hshard Hm]; [rewrite Ech; by left|].
  assert (Hw' : worker_ok (length (workers s)) id (set_channel ms w)).
  { destruct Hw as [? ? ? Hmsgs ?]. split; cbn; try done. intros m' ?. apply Hmsgs. rewrite Ech. by right. }
  assert (Hnames : forall k v v', names m k v -> pend (db s) k v' -> v' = v).
  { intros k v v' Hn Hp. apply (Hu k); [by left|]. right. exists w, m.
    split_and!; [by eapply list_elem_of_lookup_2|rewrite Ech; by left|done]. }
  assert (Hcur : forall k v, cur (db s) k v -> good_row k v) by (intros; apply Hg; left; by left).
  assert (Hkept := fun P => handle_request_kept _ id (set_channel ms w) m (db s) Hw' Hst Hshard Hm Hcur Hnames P now i i' edus).
  destruct (Hkept (fun _ _ => True)) as (b' & w' & E & _). rewrite E. eexists; split; [done|].
  eapply at_worker_keeps; [done|done|]. apply (wstep_request _ id w m ms); try done.
  intros P. destruct (Hkept P) as (b1 & w1 & E1 & Hk). rewrite E in E1. by injection E1 as <- <-.
Qed.

(** The two ways a response is taken. *)
Lemma taken_keeps s o id j w d evs success b' w' :
  sys_ok s -> workers s !! id = Some w -> started w = true -> futures w !! j = Some (d, evs) ->
  settles s o = (if success : bool then (fun e => (d, e)) <$> evs else []) ->
  answered (length (workers s)) id w d evs (db s) success b' w' ->
  step_keeps s o (mkSys b' (counter s) (<[id := w']> (workers s))).
Proof.
  intros Hok Ew Hst Hj Hset Ha. eapply at_worker_keeps; [done|done|]. rewrite Hset.
  eapply wstep_response; eauto. by apply (sys_worker _ Hok).
Qed.

Lemma response_keeps s now ios i id j success :
  sys_ok s -> runs s (Response now ios i id j success) (exec cfg hash s (Response now ios i id j success)).
Proof.
  intros Hok. pose proof (sys_rows _ Hok) as [_ Hg _ Hu]. cbn [exec]. unfold at_worker.
  destruct (workers s !! id) as [w|] eqn:Ew; [cbn [ok_or mbind result_bind]|by left].
  destruct (started w) eqn:Hst; [cbn [negb]|by left].
  unfold take_future. destruct (futures w !! j) as [[d evs]|] eqn:Ej; [|by left]. right.
  cbn [ok_or mbind result_bind option_bind].
  destruct (response_answered _ id j w d evs (db s) (sys_worker _ Hok id w Ew) Hst Ej) with (now := now)
    (ios := ios) (i := i) (success := success) as (b' & w' & -> & Ha).
  { intros k v Hp. apply Hg. by left. }
  { intros k v v' Hp Hp'. apply (Hu k); by left. }
  eexists; split; [done|]. eapply taken_keeps; eauto. cbn [settles]. rewrite Ew. cbn. rewrite Ej. by destruct success.
Qed.

Lemma finish_keeps s ios id j success :
  sys_ok s -> runs s (Finish ios id j success) (exec cfg hash s (Finish ios id j success)).
Proof.
  intros Hok. cbn [exec]. unfold at_worker.
  destruct (workers s !! id) as [w|] eqn:Ew; [cbn [ok_or mbind result_bind]|by left].
  destruct (closed w); [cbn [negb]|by left].
  unfold take_future. destruct (futures w !! j) as [[d evs]|] eqn:Ej; [|by left]. right.
  pose proof (sys_worker _ Hok id w Ew) as Hw.
  assert (Hst : started w = true).
  { destruct (started w) eqn:Hst; [done|]. destruct (not_started _ _ _ Hw Hst) as [_ Hf]. by rewrite Hf in Ej. }
  eexists; split; [done|].
  apply (taken_keeps s _ id j w d evs success); try done.
  - cbn [settles]. rewrite Ew. cbn. rewrite Ej. by destruct success.
  - pose proof (sys_rows _ Hok) as [_ Hg _ Hu]. apply (finish_answered _ id j w d evs (db s) Hw Hst Ej).
    + intros k v Hp. apply Hg. by left.
    + intros k v v' Hp Hp'. apply (Hu k); by left.
Qed.

Lemma exec_keeps s o :
  sys_ok s -> valid_op o ->
  runs s o (exec cfg hash s o).
Proof.
  intros Hok Hval. pose proof (sys_workers _ Hok) as Hne. pose proof (sys_rows _ Hok) as [_ Hg _ Hu].
  assert (Hcur : forall k v, cur (db s) k v -> good_row k v) by (intros; apply Hg; left; by left).
  destruct o as [okc i reqs|servers|recovered server|ios ios' a u p| |ios id|now i i' edus id
    |now ios i id j success|ios id j success|senders]; cbn [exec].
  - right. by apply queue_keeps.
  - right. destruct (flush_spec servers s Hne) as (ws' & -> & Hx). eexists; split; [done|].
    eapply dispatched_keeps; [done|done|]. cbn in Hval. rewrite Forall_forall in Hval.
    intros m (server & -> & Hin)%list_elem_of_fmap. split; [|done]. split; [by apply Hval|by left].
  - right. unfold notify_peer_alive. destruct recovered.
    + destruct (dispatch_spec (mkMsg (Federation server) Flush [] true) (workers s) Hne) as (ws' & ok & -> & Hx).
      eexists; split; [done|]. eapply dispatched_keeps; [done|done|].
      intros m ->%list_elem_of_singleton. split; [|done]. split; [done|by left].
    + exists s. split; [done|].
      assert (Hd := dispatched_keeps s (PeerAlive false server) [] (workers s) Hok (extended_refl _ _)).
      destruct s. apply Hd. by intros m ?%elem_of_nil.
  - right. eexists; split; [done|]. by apply cleanup_keeps.
  - right. by apply interrupt_keeps.
  - unfold at_worker. destruct (workers s !! id) as [w|] eqn:Ew; [cbn|by left].
    destruct (started w) eqn:Hst; [by left|]. right.
    destruct (wstep_start ios _ id w (db s) (sys_worker _ Hok id w Ew) Hst Hcur) as (b' & w' & -> & Hstep).
    eexists; split; [done|]. by eapply at_worker_keeps.
  - by apply request_keeps.
  - by apply response_keeps.
  - by apply finish_keeps.
  - destruct senders as [|senders]; [by left|].
    destruct (ServerCounter.new (ServerCounter.global (counter s))) as [c|] eqn:Ec; [|by left].
    right. eexists; split; [done|]. by apply restart_keeps.
Qed.

(** ** Reachable systems *)

(** A server with an empty database, some workers, and any steps of its callers, its
    workers, its peers and its administrator after that. The list holds the events
    settled so far. *)
Definition empty_db : Maps.Db := Maps.mkDb ∅ ∅ ∅ 0.

Inductive reachable : Sys -> list (Destination * SendingEvent) -> Prop :=
  | reach_boot senders :
      reachable (mkSys empty_db (ServerCounter.mkCounter 0 None) (replicate (S senders) new_worker)) []
  | reach_step s A o s' :
      reachable s A -> valid_op o -> exec cfg hash s o = Ok s' -> reachable s' (settles s o ++ A).

Lemma boot_ok senders :
  sys_ok (mkSys empty_db (ServerCounter.mkCounter 0 None) (replicate (S senders) new_worker)).
Proof.
  assert (Hin : forall id w, replicate (S senders) new_worker !! id = Some w -> w = new_worker)
    by (intros id w; by intros [? _]%lookup_replicate).
  assert (Hf : forall k v, ~ fact (mkSys empty_db (ServerCounter.mkCounter 0 None) (replicate (S senders) new_worker)) k v).
  { intros k v [[Hp|Hp]|(w & m & Hw & Hm & _)]; [done|done|].
    apply list_elem_of_lookup in Hw as [id ->%Hin]. by apply elem_of_nil in Hm. }
  split; [done| |].
  - intros id w ->%Hin. split; cbn; [|constructor| | |done].
    + by intros d evs ?%elem_of_nil.
    + intros d t Ht. by rewrite lookup_empty in Ht.
    + by intros m ?%elem_of_nil.
  - split; [|by intros k v ?%Hf..|by intros k v v' ?%Hf]. by apply (ServerCounter.wf_intro 0 None 0).
Qed.

Lemma reachable_ok s A : reachable s A -> sys_ok s.
Proof.
  induction 1 as [|s A o s' _ IH Hval E]; [apply boot_ok|].
  destruct (exec_keeps s o IH Hval) as [E'|(s1 & E' & Hk & _)]; rewrite E in E'; [done|].
  by injection E' as <-.
Qed.

Lemma reachable_covered s A :
  startup_netburst_on cfg = true -> reachable s A -> all_covered (fun d e => (d, e) ∈ A) s.
Proof.
  intros Hon. induction 1 as [|s A o s' Hr IH Hval E].
  { intros id w [-> _]%lookup_replicate. done. }
  destruct (exec_keeps s o (reachable_ok _ _ Hr) Hval) as [E'|(s1 & E' & _ & Hk)]; rewrite E in E'; [done|].
  injection E' as <-. eapply Hk; [done|exact IH|set_solver|set_solver].
Qed.

(** ** Properties *)

(** Workers never panic and never send two transactions to a destination at once:
    from an empty database, after any interleaving of queueing, flushes, messages,
    responses, failed writes, cleanups, shutdowns and restarts, no step reaches an
    [expect] or [panic!] (not the parse of a stored row, not the missing channel,
    not the failure of a request that was not running), and two transactions in
    flight for one destination are the same transaction of the same worker. *)
Theorem one_transaction_each (s : Sys) (A : list (Destination * SendingEvent)) :
  reachable s A ->
  (forall o, valid_op o -> exec cfg hash s o <> Err Panics) /\
  (forall d id id' w w' j j' evs evs',
     workers s !! id = Some w -> futures w !! j = Some (d, evs) ->
     workers s !! id' = Some w' -> futures w' !! j' = Some (d, evs') -> id = id' /\ j = j').
Proof.
  intros Hr. pose proof (reachable_ok _ _ Hr) as Hok. split.
  - intros o Hval. by destruct (exec_keeps s o Hok Hval) as [->|(s' & -> & _)].
  - intros d id id' w w' j j' evs evs' Hw Hj Hw' Hj'.
    destruct (taken_dest _ id j w d evs (sys_worker _ Hok _ _ Hw) Hj) as [<- _].
    destruct (taken_dest _ id' j' w' d evs' (sys_worker _ Hok _ _ Hw') Hj') as [<- _].
    split; [done|]. rewrite Hw in Hw'. injection Hw' as <-.
    eapply (NoDup_lookup _ j j' d (one_each _ _ _ (sys_worker _ Hok _ _ Hw)));
      by rewrite list_lookup_fmap, ?Hj, ?Hj'.
Qed.

(** C19: no queued event is lost: with the startup burst on, a row leaves the tables only
    when its event was carried by a transaction that was answered with success, now
    or earlier, was dropped by the configured limit of the startup burst, or belonged
    to a pusher or appservice that was removed; in every interleaving, and across
    failed writes and restarts. The row names its destination and event. *)
Theorem queued_until_settled (s : Sys) (A : list (Destination * SendingEvent)) (o : op) (s' : Sys) (k v : bytes) :
  startup_netburst_on cfg = true -> reachable s A -> valid_op o -> exec cfg hash s o = Ok s' ->
  Maps.cf CURRENT (db s) !! k = Some v \/ Maps.cf QUEUED (db s) !! k = Some v ->
  exists d e, parse_servercurrentevent k v = Ok (d, e) /\
    (Maps.cf CURRENT (db s') !! k = Some v \/ Maps.cf QUEUED (db s') !! k = Some v \/
     (d, e) ∈ settles s o ++ A \/ cleans o d).
Proof.
  intros Hon Hr Hval E Hp. pose proof (reachable_ok _ _ Hr) as Hok.
  destruct (rows_good _ (sys_rows _ Hok) k v) as (d & e & Hd & He); [by left|].
  exists d, e. split; [by apply parse_row_ok|].
  destruct (exec_keeps s o Hok Hval) as [E'|(s1 & E' & _ & Hk)]; rewrite E in E'; [done|].
  injection E' as <-.
  destruct (Hk (fun d e => (d, e) ∈ A) (fun d e => (d, e) ∈ settles s o ++ A)) as [_ Hc];
    [done|by apply reachable_covered|set_solver|set_solver|].
  destruct (Hc k v d e Hp Hd He) as [[?|?]|[?|?]]; auto.
Qed.

Lemma puts_stored (name : string) (rs : list row) (c : gmap string column) k v :
  consistent rs -> (k, v) ∈ rs ->
  default ∅ (Maps.apply_batch ((fun r => Maps.Put name r.1 r.2) <$> rs) c !! name) !! k = Some v.
Proof.
  revert c. induction rs as [|[k0 v0] rs IH]; intros c Hc Hin; [by apply elem_of_nil in Hin|].
  cbn [fmap list_fmap]. unfold Maps.apply_batch. cbn [foldl fst snd].
  assert (Hc' : consistent rs) by (intros k' v1 v2 ? ?; eapply Hc; by right).
  destruct (decide ((k, v) ∈ rs)) as [Hrs|Hrs]; [by apply IH|].
  apply elem_of_cons in Hin as [[= -> ->]|?]; [|done].
  apply (puts_rows name rs (Maps.apply_write (Maps.Put name k0 v0) c)).
  - rewrite Maps.apply_write_lookup, decide_True by done. by rewrite lookup_insert_eq.
  - intros v' Hv'. eapply Hc; [by right|by left].
Qed.

(** A request is on disk under [k]: the row holds its value, parses back to it, and
    lies below the prefix of its destination alone. *)
Definition queued_as (b : Maps.Db) (r : SendingEvent * Destination) (k : Key) : Prop :=
  Maps.cf QUEUED b !! k = Some (event_value r.1) /\
  parse_servercurrentevent k (event_value r.1) = Ok (r.2, r.1) /\
  forall d, valid_dest d = true -> get_prefix d `prefix_of` k <-> d = r.2.

(** An active row of [d] holds [e]. *)
Definition active_for_dest (b : Maps.Db) (d : Destination) (e : SendingEvent) : Prop :=
  exists k v, Maps.cf CURRENT b !! k = Some v /\ event_row d e k v.

(** An accepted queue request is on disk and can be read back: each key returned is
    stored with the event's value, the row parses to exactly the destination and
    event it was queued for (whatever bytes the count or the id contains), and the
    key lies below the prefix of that destination and of no other; the counter the
    numbers in keys come from never goes back. *)
Theorem queue_requests_roundtrip (okc : nat -> bool) (i : Maps.io) (reqs : list (SendingEvent * Destination))
    (c c' : ServerCounter.Counter) (b b' : Maps.Db) (keys : list Key) :
  Forall valid_request reqs -> ServerCounter.wf c ->
  queue_requests okc i reqs c b = (c', b', Ok keys) ->
  ServerCounter.stored c <= ServerCounter.stored c' /\ Forall2 (queued_as b') reqs keys.
Proof.
  intros Hreqs Hc. unfold queue_requests.
  destruct (request_keys okc 0 reqs c) as [c1 [ks|er]] eqn:Ek; [|done].
  destruct (request_keys_spec _ _ _ _ _ _ Ek Hreqs Hc) as (_ & Hle & Hr).
  destruct (Hr ks eq_refl) as (Hf & _ & Hcons). set (N := zip ks (event_value <$> reqs.*1)) in *.
  destruct (Maps.insert_batch i QUEUED N b) as [b1 [[]|er]] eqn:Ei; [|done]. intros [= <- <- <-].
  split; [done|].
  assert (Hst : forall k v, (k, v) ∈ N -> Maps.cf QUEUED b1 !! k = Some v).
  { intros k v Hin. pose proof (Maps.insert_batch_cfs i QUEUED N b) as Hcf. rewrite Ei in Hcf. cbn in Hcf.
    unfold Maps.cf. rewrite Hcf. unfold Maps.insert_batch, Maps.write_opt in Ei.
    destruct (Maps.writes i); [|done]. by apply puts_stored. }
  assert (HN : forall j r k, reqs !! j = Some r -> ks !! j = Some k -> (k, event_value r.1) ∈ N).
  { intros j r k Hj Hk. apply list_elem_of_lookup. exists j. apply lookup_zip_with_Some.
    exists k, (event_value r.1). by rewrite !list_lookup_fmap, Hj. }
  rewrite Forall_forall in Hreqs. apply Forall2_same_length_lookup. split; [by eapply Forall2_length|].
  intros j r k Hj Hk. pose proof (Forall2_lookup_lr _ _ _ _ _ _ Hf Hj Hk) as Hrow.
  destruct (Hreqs r) as [Hd _]; [by eapply list_elem_of_lookup_2|]. cbv beta in Hrow.
  split_and!; [by eapply Hst, HN|by apply parse_row_ok|].
  intros d Hv. by apply (event_row_prefix r.2 d r.1 k (event_value r.1)).
Qed.

(** What a message for a destination starts, by the destination's status: nothing
    while a transaction is in flight, nothing while backoff lasts (unless the peer just
    proved alive or is an appservice), a retry carrying exactly the stored active rows
    after that, and when the destination was idle a new transaction with exactly the
    message's events followed by the EDUs selected for a server, or an error of the
    database. *)
Theorem select_events_by_status (now : Z) (i i' : Maps.io) (edus : option (list bytes * Z)) (d : Destination)
    (new_events : list QueueItem) (st : CurTransactionStatus) (rv : bool) (b : Maps.Db) :
  valid_dest d = true -> (forall k v, Maps.cf CURRENT b !! k = Some v -> good_row k v) ->
  let selected := select_events cfg now i i' edus d new_events st rv b in
  match st !! d with
  | Some Running | Some (Retrying _) => selected = Ok (b, st, Ok None)
  | Some (Failed tries time) =>
      if negb rv && Backoff.Backoff.continue_exponential_backoff_secs (sender_timeout cfg)
           (sender_retry_backoff_limit cfg) (elapsed now time) tries && negb (is_appservice d)
      then selected = Ok (b, st, Ok None)
      else exists evs, selected = Ok (b, <[d := Retrying tries]> st, Ok (Some evs)) /\
        forall e, e ∈ evs <-> active_for_dest b d e
  | None => exists b' r, selected = Ok (b', <[d := Running]> st, r) /\
      (r = Err Maps.WriteFailed \/ r = Err Maps.FlushFailed \/
       r = Ok (Some (new_events.*2 ++
             match d, edus with Federation _, Some (sel, _) => Edu <$> sel | _, _ => [] end)))
  end.
Proof.
  intros Hd Hg. cbv zeta. unfold select_events, select_events_current.
  destruct (st !! d) as [[|tries time|tries]|] eqn:Est; try done.
  - destruct (_ && _ && _); cbn [negb]; [done|].
    destruct (active_for d b Hd Hg) as (items & -> & H1 & H2). cbn [expect mbind result_bind].
    eexists; split; [done|]. intros e. split.
    + intros ([k e'] & -> & (v & Hk & He)%H1)%list_elem_of_fmap. by exists k, v.
    + intros (k & v & Hk & He). by eapply H2.
  - cbn [negb]. assert (Herr : forall e : Maps.error, @Err _ (option (list SendingEvent)) e = Err Maps.WriteFailed \/
      @Err _ (option (list SendingEvent)) e = Err Maps.FlushFailed) by (intros []; auto).
    destruct (match new_events with [] => _ | _ => _ end) as [b1 [[]|er]].
    2: { eexists _, _. split; [done|]. destruct (Herr er); auto. }
    destruct d as [a|u p|server], edus as [[sel last]|];
      try (eexists _, _; split; [done|]; right; right; by rewrite app_nil_r).
    destruct (set_latest_educount i' server last b1) as [b2 [[]|er]]; eexists _, _; (split; [done|]).
    + by right; right.
    + destruct (Herr er); auto.
Qed.

End Facts.
End SenderFacts.
