(* ===== verification/SenderSample.v ===== *)
(** Runs of the senders on concrete inputs: the hypotheses of the theorems of
    [SenderFacts] can hold, and three behaviours at the edge of them. *)
From S2P Require Import Prelude PduId Codec Cursor Maps Short SendingData Sender SenderFacts.

Module SenderSample.
Import Sending Sender SenderFacts.

(** Names that start with neither sigil. *)
#[export] Instance sample_names : Names := {
  server_name_parse s := Utf8.valid s &&
    match head s with Some b => negb (bool_decide (b = Byte.x2b \/ b = Byte.x24)) | None => false end;
  user_id_parse u := Utf8.valid u
}.

#[export] Instance sample_names_laws : NamesLaws.
Proof.
  split; cbn; intros s.
  - by intros [? _]%andb_true_iff.
  - intros [_ Hs]%andb_true_iff. destruct (head s) as [b|]; [|done].
    apply negb_true_iff, bool_decide_eq_false in Hs. split; intros [= ->]; apply Hs; auto.
  - done.
Qed.

Definition cfg : Config := mkConfig 180 86400 true 50.
(** As [--read-only] and the complement configuration set it. *)
Definition cfg_off : Config := mkConfig 180 86400 false 50.
Definition hash (_ : Destination) : Z := 7.

(** A run: the steps in order, with the events they settle. *)
Fixpoint run (c : Config) (ops : list op) (s : Sys) (A : list (Destination * SendingEvent)) :
    option (Sys * list (Destination * SendingEvent)) :=
  match ops with
  | [] => Some (s, A)
  | o :: ops =>
      match exec c hash s o with
      | Ok s' => run c ops s' (settles c hash s o ++ A)
      | Err _ => None
      end
  end.

Lemma sending_run_reachable c ops s A s' A' :
  reachable c hash s A -> Forall valid_op ops -> run c ops s A = Some (s', A') -> reachable c hash s' A'.
Proof.
  intros Hr Hops. revert s A Hr. induction Hops as [|o ops Ho Hops IH]; intros s A Hr; cbn [run].
  { by intros [= <- <-]. }
  destruct (exec c hash s o) as [s1|] eqn:E; [|done]. apply IH. by eapply reach_step.
Qed.

Definition is_Some_bool {A} (o : option A) : bool := match o with Some _ => true | None => false end.

Definition boot : Sys := mkSys empty_db (ServerCounter.mkCounter 0 None) (replicate 1 new_worker).
Definition ios : Key -> Maps.io := fun _ => Maps.io_ok.
Definition okc : nat -> bool := fun _ => true.
Definition peer : Destination := Federation [Byte.x61].
Definition pdu_x : RawId.RawId := RawId.RawNormal (be_bytes 8 1 ++ be_bytes 8 5).
Definition pdu_y : RawId.RawId := RawId.RawNormal (be_bytes 8 1 ++ be_bytes 8 6).
Definition key_x : Key := get_prefix peer ++ RawId.as_bytes pdu_x.
Definition queue (p : RawId.RawId) : op := Queue okc Maps.io_ok [(peer, Pdu p)].
Definition request : op := Request 0 Maps.io_ok Maps.io_ok None 0.

(** An event queued, taken by a transaction, and the process restarted before the
    answer came. *)
Definition crash_ops : list op := [Start ios 0; queue pdu_x; request; Restart 1; Start ios 0].

Definition after (c : Config) (ops : list op) : Sys * list (Destination * SendingEvent) :=
  match run c ops boot [] with Some r => r | None => (boot, []) end.

Lemma valid_crash : Forall valid_op crash_ops.
Proof. repeat constructor; cbn; try done; vm_compute; reflexivity. Qed.

(** Whether a run gets through is a boolean; the states themselves stay folded. *)
Lemma sending_after_reachable c ops :
  Forall valid_op ops -> is_Some_bool (run c ops boot []) = true ->
  reachable c hash (after c ops).1 (after c ops).2.
Proof.
  intros Hops E. unfold after. destruct (run c ops boot []) as [[s A]|] eqn:Ea; [|done].
  eapply (sending_run_reachable c ops boot []); [|done|done]. apply (reach_boot c hash 0).
Qed.

Definition step_to (c : Config) (s : Sys) (o : op) : Sys :=
  match exec c hash s o with Ok s' => s' | Err _ => s end.

Lemma step_to_ok c s o : is_ok (exec c hash s o) = true -> exec c hash s o = Ok (step_to c s o).
Proof. unfold step_to. by destruct (exec c hash s o). Qed.

Lemma crash_reachable : reachable cfg hash (after cfg crash_ops).1 (after cfg crash_ops).2.
Proof. apply sending_after_reachable; [apply valid_crash|vm_compute; reflexivity]. Qed.

Lemma one_transaction_each_witness :
  exec cfg hash (after cfg crash_ops).1 (Response 9 ios Maps.io_ok 0 0 false) <> Err Panics.
Proof.
  exact (proj1 (one_transaction_each cfg hash (after cfg crash_ops).1 (after cfg crash_ops).2
    crash_reachable) (Response 9 ios Maps.io_ok 0 0 false) I).
Defined.

(** The answer to the transaction of the startup burst. *)
Definition answer : op := Response 9 ios Maps.io_ok 0 0 true.

Lemma queued_until_settled_witness :
  exists d e, parse_servercurrentevent key_x [] = Ok (d, e) /\
    let s' := step_to cfg (after cfg crash_ops).1 answer in
    (Maps.cf CURRENT (db s') !! key_x = Some [] \/ Maps.cf QUEUED (db s') !! key_x = Some [] \/
     (d, e) ∈ settles cfg hash (after cfg crash_ops).1 answer ++ (after cfg crash_ops).2 \/
     cleans answer d).
Proof.
  apply (queued_until_settled cfg hash (after cfg crash_ops).1 (after cfg crash_ops).2 answer).
  - reflexivity.
  - apply crash_reachable.
  - exact I.
  - apply step_to_ok. vm_compute. reflexivity.
  - left. vm_compute. reflexivity.
Defined.

Lemma select_events_by_status_witness :
  exists evs, select_events cfg 0 Maps.io_ok Maps.io_ok None peer [([], Flush)] {[ peer := Failed 3 0 ]} true
      (db (after cfg crash_ops).1) =
    Ok (db (after cfg crash_ops).1, <[ peer := Retrying 3 ]> {[ peer := Failed 3 0 ]}, Ok (Some evs)).
Proof.
  pose proof (select_events_by_status cfg 0 Maps.io_ok Maps.io_ok None peer [([], Flush)]
    {[ peer := Failed 3 0 ]} true (db (after cfg crash_ops).1)) as H. cbv zeta in H.
  rewrite lookup_singleton_eq in H. cbn [negb andb] in H. destruct H as (evs & H & _); [reflexivity| |by exists evs].
  intros k v Hk. apply (rows_good _ (sys_rows _ _ (reachable_ok _ _ _ _ crash_reachable))). left. by left.
Defined.

Definition sample_requests : list (SendingEvent * Destination) :=
  [(Edu [Byte.x7b; Byte.x7d], peer); (Pdu pdu_x, Push [Byte.x40] [Byte.x6b])].

Lemma queue_requests_roundtrip_witness :
  Forall2 (fun r k => parse_servercurrentevent k (event_value r.1) = Ok (r.2, r.1)) sample_requests
    (match (queue_requests okc Maps.io_ok sample_requests (ServerCounter.mkCounter 254 (Some (be_bytes 8 254))) empty_db).2 with
     | Ok keys => keys | Err _ => [] end).
Proof.
  destruct (queue_requests okc Maps.io_ok sample_requests (ServerCounter.mkCounter 254 (Some (be_bytes 8 254))) empty_db)
    as [[c' b'] [keys|er]] eqn:E; [|exfalso; apply (f_equal (fun x => is_ok x.2)) in E; vm_compute in E; discriminate].
  cbn [snd].
  eapply Forall2_impl; [refine (proj2 (queue_requests_roundtrip okc Maps.io_ok sample_requests _ _ _ _ _ _ _ E))|].
  - repeat constructor; cbn; try done; vm_compute; reflexivity.
  - by apply (ServerCounter.wf_intro _ _ 254).
  - by intros r k (_ & ? & _).
Defined.

(** ** Three edges *)

(** With the startup burst off, what was in flight when the process ended stays active
    with no transaction to carry it; the first success of a later transaction deletes
    it, and nothing ever sent it. *)
Definition burst_off_ops : list op := crash_ops ++ [queue pdu_y; request; answer].

Theorem netburst_off_drops :
  reachable cfg_off hash (after cfg_off crash_ops).1 (after cfg_off crash_ops).2 /\
  Maps.cf CURRENT (db (after cfg_off crash_ops).1) !! key_x = Some [] /\
  reachable cfg_off hash (after cfg_off burst_off_ops).1 (after cfg_off burst_off_ops).2 /\
  Maps.cf CURRENT (db (after cfg_off burst_off_ops).1) !! key_x = None /\
  Maps.cf QUEUED (db (after cfg_off burst_off_ops).1) !! key_x = None /\
  (after cfg_off burst_off_ops).2 = [(peer, Pdu pdu_y)].
Proof.
  split; [apply sending_after_reachable; [apply valid_crash|vm_compute; reflexivity]|].
  split; [vm_compute; reflexivity|].
  split; [apply sending_after_reachable; [|vm_compute; reflexivity]|].
  - apply Forall_app. split; [apply valid_crash|]. repeat constructor; cbn; try done; vm_compute; reflexivity.
  - split_and!; vm_compute; reflexivity.
Qed.

(** When the write of the EDU count fails, the status entered before it stays: the
    destination is [Running] with nothing in flight, and later messages find it so. *)
Definition wedge_ops : list op :=
  [Start ios 0; queue pdu_x; Request 0 Maps.io_ok (Maps.mkIo false true) (Some ([], 5)) 0; queue pdu_y; request].

Theorem failed_write_wedges :
  reachable cfg hash (after cfg wedge_ops).1 (after cfg wedge_ops).2 /\
  (fun w => (statuses w !! peer, futures w, channel w)) <$> workers (after cfg wedge_ops).1 !! 0%nat =
    Some (Some Running, [], []) /\
  Maps.cf CURRENT (db (after cfg wedge_ops).1) !! key_x = Some [].
Proof.
  split; [apply sending_after_reachable; [|vm_compute; reflexivity]|split; vm_compute; reflexivity].
  repeat constructor; cbn; try done; vm_compute; reflexivity.
Qed.

(** EDUs selected for a transaction are not stored: when it fails, the retry carries
    the stored rows alone, while the count that says what was sent has moved on. *)
Definition edu : bytes := [Byte.x7b; Byte.x7d].
Definition retry_ops : list op :=
  [Start ios 0; queue pdu_x; Request 0 Maps.io_ok Maps.io_ok (Some ([edu], 5)) 0].
Definition retry_ops' : list op :=
  retry_ops ++ [Response 9 ios Maps.io_ok 0 0 false; PeerAlive true [Byte.x61]; request].

Definition in_flight_of (s : Sys) : option (list SendingFuture) := futures <$> workers s !! 0%nat.

Theorem retry_forgets_edus :
  in_flight_of (after cfg retry_ops).1 = Some [(peer, [Pdu pdu_x; Edu edu])] /\
  in_flight_of (after cfg retry_ops').1 = Some [(peer, [Pdu pdu_x])] /\
  get_latest_educount [Byte.x61] (db (after cfg retry_ops').1) = 5.
Proof. split_and!; vm_compute; reflexivity. Qed.

End SenderSample.
