(* ===== verification/RegTokens.v ===== *)
(** Registration tokens, [phantom-service/src/auth/registration_tokens/data.rs] and
    [mod.rs]: tokens with a use limit and an expiry time in the database, tokens from
    the configuration beside them.

    Each operation on one token holds that token's lock ([MutexMap], see [MutexMap.v])
    and is one step. The listing that cleans up takes no lock: it walks a snapshot of
    the table and removes what was invalid in it, one row per step. Times are
    nanoseconds; every write can fail ([Maps.io]). *)
From S2P Require Import Prelude Order Maps.

Module RegTokens.

(** [AlreadyExists]: [InvalidParam]. [Database]: the write failed. *)
Inductive error := AlreadyExists | NotFound | Forbidden | Database.

Record TokenExpires := mkExpires { max_uses : option Z; max_age : option Z }.
Record DatabaseTokenInfo := mkInfo { uses : Z; expires : TokenExpires }.

(** The column [registrationtoken_info]; [None] is a value that does not decode. *)
Abbreviation table := (gmap string (option DatabaseTokenInfo)).

Definition is_valid (now : Z) (info : DatabaseTokenInfo) : bool :=
  if match max_uses (expires info) with Some m => m <=? uses info | None => false end then false else
  if match max_age (expires info) with Some age => age <? now | None => false end then false else
  true.

(** [raw_put] and [remove]: a failed flush reports an error after the write. *)
Definition committed (i : Maps.io) : result error unit :=
  if Maps.writes i && Maps.flushes i then Ok () else Err Database.

Definition raw_put (i : Maps.io) (token : string) (info : DatabaseTokenInfo) (m : table) :
    table * result error unit :=
  (if Maps.writes i then <[token := Some info]> m else m, committed i).

Definition remove (i : Maps.io) (token : string) (m : table) : table * result error unit :=
  (if Maps.writes i then delete token m else m, committed i).

(** ** The data layer *)

Definition save_token (i : Maps.io) (token : string) (exp : TokenExpires) (m : table) :
    table * result error DatabaseTokenInfo :=
  match m !! token with
  | None =>
      let info := mkInfo 0 exp in
      let '(m, r) := raw_put i token info m in
      (m, _ ← r; Ok info)
  | Some _ => (m, Err AlreadyExists)
  end.

Definition revoke_token (i : Maps.io) (token : string) (m : table) : table * result error unit :=
  match m !! token with
  | Some _ => remove i token m
  | None => (m, Err NotFound)
  end.

(** [i]: the write that records a use or removes the token. *)
Definition check_token (now : Z) (i : Maps.io) (token : string) (consume : bool) (m : table) :
    table * bool :=
  match m !! token with
  | Some (Some info) =>
      if negb (is_valid now info) then ((remove i token m).1, false) else
      if negb consume then (m, true) else
      let info := mkInfo (u64_saturating_add (uses info) 1) (expires info) in
      let '(m, recorded) := if is_valid now info then raw_put i token info m else remove i token m in
      (m, is_ok recorded)
  | _ => (m, false)
  end.

Definition get_db_token_info (token : string) (m : table) : result error DatabaseTokenInfo :=
  match m !! token with
  | Some (Some info) => Ok info
  | _ => Err NotFound
  end.

Definition update_db_token (i : Maps.io) (token : string) (exp : TokenExpires) (m : table) :
    table * result error DatabaseTokenInfo :=
  match get_db_token_info token m with
  | Err e => (m, Err e)
  | Ok current =>
      let info := mkInfo (uses current) exp in
      let '(m, r) := raw_put i token info m in
      (m, _ ← r; Ok info)
  end.

(** One item of [iterate_and_clean_tokens]: the row as the stream read it. *)
Definition clean_item (now : Z) (i : Maps.io) (token : string) (info : option DatabaseTokenInfo)
    (m : table) : table * option (string * DatabaseTokenInfo) :=
  match info with
  | None => (m, None)
  | Some info =>
      if is_valid now info then (m, Some (token, info))
      else ((remove i token m).1, None)
  end.

(** ** The service *)

Inductive TokenInfo := Config | DatabaseInfo (info : DatabaseTokenInfo).

Section Service.
(** [get_config_tokens]: the inline token and those of the token file, if it reads. *)
Context (config_tokens : gset string).

Definition get_token_info (token : string) (m : table) : result error TokenInfo :=
  if decide (token ∈ config_tokens) then Ok Config
  else DatabaseInfo <$> get_db_token_info token m.

Definition update_token (i : Maps.io) (token : string) (exp : TokenExpires) (m : table) :
    table * result error DatabaseTokenInfo :=
  if decide (token ∈ config_tokens) then (m, Err Forbidden) else update_db_token i token exp m.

Definition revoke (i : Maps.io) (token : string) (m : table) : table * result error unit :=
  if decide (token ∈ config_tokens) then (m, Err Forbidden) else revoke_token i token m.

Definition check (now : Z) (i : Maps.io) (token : string) (consume : bool) (m : table) :
    table * result error unit :=
  if decide (token ∈ config_tokens) then (m, Ok ()) else
  let '(m, valid) := check_token now i token consume m in
  (m, if valid then Ok () else Err Forbidden).

Definition is_token_valid now i token m := check now i token false m.
Definition try_consume now i token m := check now i token true m.

(** The first valid row of a listing, the invalid ones before it removed. *)
Fixpoint first_valid (now : Z) (i : string -> Maps.io) (rows : list (string * option DatabaseTokenInfo))
    (m : table) : table * bool :=
  match rows with
  | [] => (m, false)
  | (token, info) :: rows =>
      let '(m, found) := clean_item now (i token) token info m in
      match found with Some _ => (m, true) | None => first_valid now i rows m end
  end.

Definition is_enabled (now : Z) (i : string -> Maps.io) (m : table) : table * bool :=
  if decide (config_tokens = ∅) then first_valid now i (sort_by_key fst (map_to_list m)) m else (m, true).

(** ** Histories *)

(** The table and the rows a listing has still to visit. *)
Record State := mkState { tokens : table; listing : list (string * option DatabaseTokenInfo) }.

Inductive op :=
  | Save (i : Maps.io) (token : string) (exp : TokenExpires)
  | Update (i : Maps.io) (token : string) (exp : TokenExpires)
  | Revoke (i : Maps.io) (token : string)
  | Validate (now : Z) (i : Maps.io) (token : string)
  | Consume (now : Z) (i : Maps.io) (token : string)
  | List
  | Next (now : Z) (i : Maps.io).

Definition exec (s : State) (o : op) : State :=
  match o with
  | Save i token exp => mkState (save_token i token exp (tokens s)).1 (listing s)
  | Update i token exp => mkState (update_token i token exp (tokens s)).1 (listing s)
  | Revoke i token => mkState (revoke i token (tokens s)).1 (listing s)
  | Validate now i token => mkState (is_token_valid now i token (tokens s)).1 (listing s)
  | Consume now i token => mkState (try_consume now i token (tokens s)).1 (listing s)
  | List => mkState (tokens s) (map_to_list (tokens s))
  | Next now i =>
      match listing s with
      | [] => s
      | (token, info) :: rest => mkState (clean_item now i token info (tokens s)).1 rest
      end
  end.

(** Whether the step admits a registration with the token. *)
Definition admits (token : string) (s : State) (o : op) : bool :=
  match o with
  | Consume now i t => bool_decide (t = token) && is_ok (try_consume now i t (tokens s)).2
  | _ => false
  end.

Fixpoint run (token : string) (s : State) (os : list op) : State * Z :=
  match os with
  | [] => (s, 0)
  | o :: os =>
      let '(s', n) := run token (exec s o) os in
      (s', (if admits token s o then 1 else 0) + n)
  end.

(** The step gives the token no policy that admits more than [n] uses, and does not
    create it again. *)
Definition within (token : string) (n : Z) (o : op) : Prop :=
  match o with
  | Save _ t _ => t <> token
  | Update _ t exp => t = token -> exists k, max_uses exp = Some k /\ k <= n
  | _ => True
  end.

(** ** Lemmas *)

(** [a] uses have been admitted, and the token, while it exists, has counted them. *)
Definition counted (token : string) (n a : Z) (m : table) : Prop :=
  0 <= a <= n /\
  forall info, m !! token = Some (Some info) ->
    a <= uses info /\ exists k, max_uses (expires info) = Some k /\ k <= n.

Lemma is_valid_uses now info k :
  is_valid now info = true -> max_uses (expires info) = Some k -> uses info < k.
Proof. unfold is_valid. intros H E. rewrite E in H. destruct (Z.leb_spec k (uses info)); [done|lia]. Qed.

Lemma counted_other token n a (m m' : table) :
  m' !! token = m !! token -> counted token n a m -> counted token n a m'.
Proof. unfold counted. by intros ->. Qed.

Lemma counted_gone token n a (m m' : table) :
  m' !! token = None -> counted token n a m -> counted token n a m'.
Proof. intros E [Ha _]. split; [done|]. intros info. by rewrite E. Qed.

Lemma counted_delete token t n a m : counted token n a m -> counted token n a (delete t m).
Proof.
  destruct (decide (t = token)) as [->|].
  - apply counted_gone, lookup_delete_eq.
  - apply counted_other. by rewrite lookup_delete_ne.
Qed.

Lemma counted_remove token i t n a m : counted token n a m -> counted token n a (remove i t m).1.
Proof. unfold remove. cbn. destruct (Maps.writes i); [apply counted_delete|done]. Qed.

Lemma counted_put token i info n a m :
  counted token n a m -> a <= uses info -> (exists k, max_uses (expires info) = Some k /\ k <= n) ->
  counted token n a (raw_put i token info m).1.
Proof.
  intros Hc Ha Hk. unfold raw_put. cbn. destruct (Maps.writes i); [|done].
  split; [apply Hc|]. intros info'. rewrite lookup_insert_eq. by intros [= <-].
Qed.

Lemma put_other token i t info m :
  t <> token -> (raw_put i t info m).1 !! token = m !! token.
Proof. intros. unfold raw_put. cbn. destruct (Maps.writes i); [by rewrite lookup_insert_ne|done]. Qed.

Lemma remove_other token i t m : t <> token -> (remove i t m).1 !! token = m !! token.
Proof. intros. unfold remove. cbn. destruct (Maps.writes i); [by rewrite lookup_delete_ne|done]. Qed.

Lemma check_token_other token now i t consume m :
  t <> token -> (check_token now i t consume m).1 !! token = m !! token.
Proof.
  intros Ht. unfold check_token. destruct (m !! t) as [[info|]|]; [|done..].
  destruct (is_valid now info); cbn [negb]; [|by apply remove_other].
  destruct consume; cbn [negb]; [|done].
  destruct (is_valid now _).
  - pose proof (put_other token i t (mkInfo (u64_saturating_add (uses info) 1) (expires info)) m Ht).
    by destruct (raw_put _ _ _ _).
  - pose proof (remove_other token i t m Ht). by destruct (remove _ _ _).
Qed.

(** The heart: a granted use is counted before it is granted. *)
Lemma check_token_counted now i token consume n a (m : table) :
  n <= u64_max -> counted token n a m ->
  counted token n (a + if consume && (check_token now i token consume m).2 then 1 else 0)
    (check_token now i token consume m).1.
Proof.
  intros Hn Hc. pose proof Hc as [Ha Hi]. unfold check_token.
  destruct (m !! token) as [[info|]|] eqn:E; [|by rewrite andb_false_r, Z.add_0_r..].
  destruct (Hi info eq_refl) as (Hu & k & Hk & Hkn).
  destruct (is_valid now info) eqn:Ev; cbn [negb];
    [|cbn [fst snd]; rewrite andb_false_r, Z.add_0_r; by apply counted_remove].
  destruct consume; cbn [negb]; [|by rewrite Z.add_0_r].
  pose proof (is_valid_uses _ _ _ Ev Hk) as Hlt.
  set (info' := mkInfo (u64_saturating_add (uses info) 1) (expires info)).
  assert (Hu' : uses info' = uses info + 1) by (unfold info'; cbn; int_solve).
  assert (Hstep : forall b : bool, 0 <= a + (if b then 1 else 0) <= n /\ a + (if b then 1 else 0) <= uses info')
    by (intros []; lia).
  destruct (is_valid now info').
  - destruct (raw_put i token info' m) as [m' r] eqn:Ep.
    assert (Hc' : counted token n a m') by (change m' with (m', r).1; rewrite <-Ep; apply counted_put;
      [done|lia|cbn; eauto]).
    cbn [fst snd andb]. split; [apply Hstep|]. intros i0 Hi0. destruct (Hstep (is_ok r)) as [_ Hle].
    unfold raw_put in Ep. injection Ep as <- <-. unfold committed in *. destruct (Maps.writes i).
    + rewrite lookup_insert_eq in Hi0. injection Hi0 as <-. split; [done|]. cbn. eauto.
    + cbn. rewrite Z.add_0_r. rewrite E in Hi0. by apply Hi.
  - destruct (remove i token m) as [m' r] eqn:Ep. cbn [fst snd andb]. split; [apply Hstep|].
    intros i0 Hi0. unfold remove in Ep. injection Ep as <- <-. unfold committed. destruct (Maps.writes i).
    + by rewrite lookup_delete_eq in Hi0.
    + cbn. rewrite Z.add_0_r. rewrite E in Hi0. by apply Hi.
Qed.

Lemma exec_counted token n a s o :
  n <= u64_max -> token ∉ config_tokens -> within token n o -> counted token n a (tokens s) ->
  counted token n (a + if admits token s o then 1 else 0) (tokens (exec s o)).
Proof.
  intros Hn Hcfg Hw Hc. destruct o as [i t exp|i t exp|i t|now i t|now i t| |now i];
    cbn [exec admits tokens]; rewrite ?Z.add_0_r; try done.
  - unfold save_token. destruct (tokens s !! t); [done|].
    pose proof (put_other token i t (mkInfo 0 exp) (tokens s) Hw). destruct (raw_put _ _ _ _). by eapply counted_other.
  - unfold update_token. case_decide; [done|]. unfold update_db_token, get_db_token_info.
    destruct (tokens s !! t) as [[info|]|] eqn:E; [|done..].
    destruct (decide (t = token)) as [->|Ht].
    + pose proof (counted_put token i (mkInfo (uses info) exp) n a (tokens s) Hc) as Hp.
      destruct (raw_put _ _ _ _). apply Hp; [|by apply Hw]. by apply Hc in E as [? _].
    + pose proof (put_other token i t (mkInfo (uses info) exp) (tokens s) Ht).
      destruct (raw_put _ _ _ _). by eapply counted_other.
  - unfold revoke. case_decide; [done|]. unfold revoke_token.
    destruct (tokens s !! t); [by apply counted_remove|done].
  - unfold is_token_valid, check. case_decide; [done|].
    destruct (decide (t = token)) as [->|Ht].
    + pose proof (check_token_counted now i token false n a _ Hn Hc) as Hcc. cbn [andb] in Hcc.
      rewrite Z.add_0_r in Hcc. by destruct (check_token _ _ _ _ _).
    + pose proof (check_token_other token now i t false (tokens s) Ht).
      destruct (check_token _ _ _ _ _). by eapply counted_other.
  - unfold try_consume, check. destruct (decide (t = token)) as [->|Ht].
    + rewrite bool_decide_eq_true_2 by done. rewrite decide_False by done.
      pose proof (check_token_counted now i token true n a _ Hn Hc) as Hcc.
      destruct (check_token _ _ _ _ _) as [m v]. cbn in *. by destruct v.
    + rewrite bool_decide_eq_false_2 by done. cbn [andb]. rewrite Z.add_0_r. case_decide; [done|].
      pose proof (check_token_other token now i t true (tokens s) Ht).
      destruct (check_token _ _ _ _ _). by eapply counted_other.
  - destruct (listing s) as [|[t info] rest]; [done|]. cbn [tokens]. unfold clean_item.
    destruct info as [info|]; [|done]. destruct (is_valid now info); [done|]. by apply counted_remove.
Qed.

Lemma run_counted token n a s os :
  n <= u64_max -> token ∉ config_tokens -> Forall (within token n) os -> counted token n a (tokens s) ->
  counted token n (a + (run token s os).2) (tokens (run token s os).1).
Proof.
  intros Hn Hcfg Hos. revert a s. induction Hos as [|o os Ho Hos IH]; intros a s Hc; cbn [run fst snd].
  { by rewrite Z.add_0_r. }
  pose proof (IH _ _ (exec_counted token n a s o Hn Hcfg Ho Hc)) as H.
  destruct (run token (exec s o) os) as [s' k]. cbn in *. by rewrite Z.add_assoc.
Qed.

(** ** Properties *)

(** C38: of a token saved with a limit of [n] uses, which is not a configured one, at most
    [n] uses are granted, in any order of saves, updates (that set no higher limit), revocations, validations,
    consumptions and listings after that, and whichever of their writes fail. *)
Theorem token_uses_bounded (token : string) (exp : TokenExpires) (n : Z) (i : Maps.io) (m m' : table)
    (info : DatabaseTokenInfo) (rows : list (string * option DatabaseTokenInfo)) (os : list op) :
  token ∉ config_tokens -> max_uses exp = Some n -> is_u64 n ->
  save_token i token exp m = (m', Ok info) -> Forall (within token n) os ->
  0 <= (run token (mkState m' rows) os).2 <= n.
Proof.
  intros Hcfg Hmax Hn Hsave Hos.
  assert (Hc : counted token n 0 m').
  { unfold save_token in Hsave. destruct (m !! token); [done|]. unfold raw_put in Hsave.
    injection Hsave as <- Hr. unfold committed in Hr. destruct (Maps.writes i); [|done].
    split; [int_solve|]. intros info'. rewrite lookup_insert_eq. intros [= <-]. cbn. split; [lia|]. eauto with lia. }
  destruct (run_counted token n 0 (mkState m' rows) os) as [H _]; [int_solve|done|done|done|]. lia.
Qed.

(** Errors of the token operations, with the table they leave: saving an existing
    token, touching a configured one and naming a missing one change nothing; a use
    is refused for unknown, undecodable and invalid tokens (the last are removed if
    the database lets them), and refused, not granted, when it cannot be recorded. *)
Theorem token_errors (token : string) (m : table) (now : Z) (i : Maps.io) (exp : TokenExpires) :
  (is_Some (m !! token) -> save_token i token exp m = (m, Err AlreadyExists)) /\
  (token ∈ config_tokens ->
     update_token i token exp m = (m, Err Forbidden) /\ revoke i token m = (m, Err Forbidden) /\
     try_consume now i token m = (m, Ok ())) /\
  (token ∉ config_tokens -> m !! token = None ->
     update_token i token exp m = (m, Err NotFound) /\ revoke i token m = (m, Err NotFound) /\
     get_token_info token m = Err NotFound /\ try_consume now i token m = (m, Err Forbidden)) /\
  (token ∉ config_tokens -> m !! token = Some None ->
     update_token i token exp m = (m, Err NotFound) /\ try_consume now i token m = (m, Err Forbidden)) /\
  (forall info, token ∉ config_tokens -> m !! token = Some (Some info) -> is_valid now info = false ->
     try_consume now i token m = (if Maps.writes i then delete token m else m, Err Forbidden)) /\
  (token ∉ config_tokens -> Maps.writes i = false -> try_consume now i token m = (m, Err Forbidden)) /\
  (token ∉ config_tokens -> Maps.flushes i = false -> (try_consume now i token m).2 = Err Forbidden).
Proof.
  split_and!.
  - intros [x Hx]. unfold save_token. by rewrite Hx.
  - intros Hc. unfold update_token, revoke, try_consume, check. by rewrite !decide_True.
  - intros Hc Hm. unfold update_token, update_db_token, revoke, revoke_token, get_token_info, get_db_token_info,
      try_consume, check, check_token. by rewrite !decide_False, Hm.
  - intros Hc Hm. unfold update_token, update_db_token, get_db_token_info, try_consume, check, check_token.
    by rewrite !decide_False, Hm.
  - intros info Hc Hm Hv. unfold try_consume, check, check_token. rewrite decide_False, Hm by done. by rewrite Hv.
  - intros Hc Hw. unfold try_consume, check, check_token. rewrite decide_False by done.
    destruct (m !! token) as [[info|]|]; [|done..]. unfold remove, raw_put, committed. rewrite Hw.
    destruct (is_valid now info); [|done]. cbn [negb]. by destruct (is_valid now _).
  - intros Hc Hf. unfold try_consume, check, check_token. rewrite decide_False by done.
    destruct (m !! token) as [[info|]|]; [|done..]. unfold remove, raw_put, committed. rewrite Hf, andb_false_r.
    destruct (is_valid now info); [|done]. cbn [negb]. by destruct (is_valid now _).
Qed.

(** Consuming [k] times in a row. *)
Definition consume_times (k : nat) (now : Z) (token : string) : list op :=
  replicate k (Consume now Maps.io_ok token).

Lemma consume_gone k now token s :
  token ∉ config_tokens -> tokens s !! token = None -> (run token s (consume_times k now token)).2 = 0.
Proof.
  intros Hc. revert s. induction k as [|k IH]; intros s Hs; [done|]. cbn [consume_times replicate run].
  assert (Hx : admits token s (Consume now Maps.io_ok token) = false /\ exec s (Consume now Maps.io_ok token) = s).
  { cbn [admits exec]. unfold try_consume, check, check_token. rewrite decide_False, Hs by done. cbn.
    rewrite andb_false_r. by destruct s. }
  destruct Hx as [-> ->]. specialize (IH s Hs). unfold consume_times in IH.
  destruct (run token s (replicate k _)) as [s' j]. cbn in *. lia.
Qed.

Lemma consume_rest k now token s u n :
  token ∉ config_tokens -> is_u64 n -> 0 <= u -> tokens s !! token = Some (Some (mkInfo u (mkExpires (Some n) None))) ->
  (run token s (consume_times k now token)).2 = Z.max 0 (Z.min (Z.of_nat k) (n - u)).
Proof.
  intros Hc Hn. revert s u. induction k as [|k IH]; intros s u Hu Hs; [cbn; lia|]. cbn [consume_times replicate run].
  assert (Hstep : try_consume now Maps.io_ok token (tokens s) =
    if n <=? u then (delete token (tokens s), Err Forbidden) else
    if n <=? u + 1 then (delete token (tokens s), Ok ())
    else (<[token := Some (mkInfo (u + 1) (mkExpires (Some n) None))]> (tokens s), Ok ())).
  { unfold try_consume, check, check_token. rewrite decide_False, Hs by done.
    unfold is_valid. cbn [max_uses max_age expires uses].
    destruct (Z.leb_spec n u); [done|]. cbn [negb].
    replace (u64_saturating_add u 1) with (u + 1) by int_solve.
    by destruct (Z.leb_spec n (u + 1)). }
  cbn [admits exec]. rewrite Hstep, bool_decide_eq_true_2 by done.
  destruct (Z.leb_spec n u); [|destruct (Z.leb_spec n (u + 1))]; cbn [fst snd andb is_ok].
  - pose proof (consume_gone k now token (mkState (delete token (tokens s)) (listing s)) Hc (lookup_delete_eq _ _)) as Hr.
    unfold consume_times in Hr. destruct (run _ _ _). cbn in *. lia.
  - pose proof (consume_gone k now token (mkState (delete token (tokens s)) (listing s)) Hc (lookup_delete_eq _ _)) as Hr.
    unfold consume_times in Hr. destruct (run _ _ _). cbn in *. lia.
  - specialize (IH (mkState (<[token := Some (mkInfo (u + 1) (mkExpires (Some n) None))]> (tokens s)) (listing s))
      (u + 1) ltac:(lia) (lookup_insert_eq _ _ _)). unfold consume_times in IH. destruct (run _ _ _). cbn in *. lia.
Qed.

(** The bound is reached: when no write fails, [k] attempts in a row on a fresh token
    without an expiry time admit exactly the smaller of [k] and its limit. *)
Theorem token_uses_exact (token : string) (n : Z) (m m' : table) (info : DatabaseTokenInfo) (now : Z) (k : nat) :
  token ∉ config_tokens -> is_u64 n ->
  save_token Maps.io_ok token (mkExpires (Some n) None) m = (m', Ok info) ->
  (run token (mkState m' []) (consume_times k now token)).2 = Z.min (Z.of_nat k) n.
Proof.
  intros Hc Hn Hsave. rewrite (consume_rest k now token (mkState m' []) 0 n); [int_solve|done|done|lia|].
  unfold save_token in Hsave. destruct (m !! token); [done|]. injection Hsave as <- <-. apply lookup_insert_eq.
Qed.

End Service.

Lemma token_uses_bounded_witness :
  0 <= (run ∅ "t" (mkState {[ "t" := Some (mkInfo 0 (mkExpires (Some 2) None)) ]} [])
    [Consume 0 Maps.io_ok "t"; Consume 0 (Maps.mkIo false true) "t"; Consume 0 Maps.io_ok "t";
     Consume 0 Maps.io_ok "t"]).2 <= 2.
Proof.
  apply (token_uses_bounded ∅ "t" (mkExpires (Some 2) None) 2 Maps.io_ok ∅ _ (mkInfo 0 (mkExpires (Some 2) None)) []).
  - set_solver.
  - reflexivity.
  - unfold is_u64, u64_max. lia.
  - vm_compute. reflexivity.
  - repeat constructor.
Defined.

(** A listing can remove a token that was renewed after the listing read it: the update
    has answered with success, and the token is gone. *)
Theorem listing_removes_renewed :
  let s := mkState {[ "t" := Some (mkInfo 0 (mkExpires None (Some 5))) ]} [] in
  let renew := mkExpires None (Some 100) in
  (update_token ∅ Maps.io_ok "t" renew (tokens s)).2 = Ok (mkInfo 0 renew) /\
  tokens (run ∅ "t" s [List; Update Maps.io_ok "t" renew; Next 10 Maps.io_ok]).1 !! "t" = None.
Proof. split; vm_compute; reflexivity. Qed.

End RegTokens.
