(* ===== verification/Rendezvous.v ===== *)
(** Rendezvous sessions, [phantom-service/src/auth/rendezvous.rs]: short-lived mailboxes
    two devices exchange sign-in data through. A session is read and replaced under an
    ETag (or its bare value, the sequence token), expires, and is evicted oldest first
    when the table is full.

    Text and data are bytes, times are nanoseconds since the epoch. SHA-256 and base64
    are parameters; random session ids are the list of draws an operation makes. The
    sessions are behind one lock: an operation is a step, except [get], which takes it
    for reading and then again for writing. *)
From S2P Require Import Prelude Order Cursor.

Module Rendezvous.

Definition NANOS_PER_SEC : Z := 1000000000.
Definition MILLIS_PER_SECOND : Z := 1000.
Definition MAX_HTTP_DATE_SECONDS : Z := 253402300799.
Definition MONOTONIC_STEP : Z := 1000000.
(** The last [SystemTime]: the seconds are an [i64]. *)
Definition SYSTEM_TIME_MAX : Z := i64_max * NANOS_PER_SEC + 999999999.

Definition checked_add (t d : Z) : option Z :=
  if t + d <=? SYSTEM_TIME_MAX then Some (t + d) else None.

Record Session := mkSession {
  data : bytes;
  etag : bytes;
  created : Z;
  last_modified : Z;
  expires_at : Z
}.

Abbreviation Sessions := (gmap bytes Session).

Record Meta := mkMeta { m_etag : bytes; m_expires_at : Z; m_last_modified : Z }.

Inductive Get := GetData (d : bytes) (m : Meta) | NotModified (m : Meta) | GetNotFound.
Inductive Put := Accepted (m : Meta) | PreconditionFailed (m : Meta) | PutNotFound.
Inductive Validator := VEtag (candidate : bytes) | VSequenceToken (candidate : bytes).

Definition meta (s : Session) : Meta := mkMeta (etag s) (expires_at s) (last_modified s).

(** ** Text *)

Definition QUOTE : byte := Byte.x22.
Definition STAR : byte := Byte.x2a.

Definition strip_prefix (c : byte) (s : bytes) : option bytes :=
  match s with b :: r => if decide (b = c) then Some r else None | [] => None end.
Definition strip_suffix (c : byte) (s : bytes) : option bytes :=
  reverse <$> strip_prefix c (reverse s).

(** [None]: the [expect] that an ETag is quoted fails. *)
Definition etag_value (e : bytes) : option bytes :=
  v ← strip_prefix QUOTE e; strip_suffix QUOTE v.

Definition etag_matches (candidate e : bytes) : bool :=
  bool_decide (candidate = [STAR] \/ candidate = e).

Definition matches (v : Validator) (stored : bytes) : bool :=
  match v with
  | VEtag candidate => etag_matches candidate stored
  | VSequenceToken candidate => bool_decide (Some candidate = etag_value stored)
  end.

Definition sequence_token (m : Meta) : option bytes := etag_value (m_etag m).

(** ** Times *)

(** [expires_at(now, ttl)] *)
Definition expiry (now ttl : Z) : Z :=
  let latest := MAX_HTTP_DATE_SECONDS * NANOS_PER_SEC in
  match checked_add now ttl with Some t => Z.min t latest | None => latest end.

Definition next_last_modified (now previous : Z) : Z :=
  match checked_add previous MONOTONIC_STEP with Some next => Z.max now next | None => now end.

Definition expires_in_at (m : Meta) (now : Z) : Z := Z.max 0 (m_expires_at m - now).

(** A put: validator, data, time and lifetime. *)
Abbreviation put := (Validator * bytes * Z * Z)%type.

Section Service.
Context (sha256 : bytes -> bytes) (b64 : bytes -> bytes).

(** Milliseconds as [etag] computes them from the time. *)
Definition millis (t : Z) : Z :=
  let elapsed := Z.max 0 t in
  u64_saturating_add (u64_saturating_mul (elapsed / NANOS_PER_SEC) MILLIS_PER_SECOND)
    (elapsed mod NANOS_PER_SEC / 1000000).

Definition etag_input (id d : bytes) (t : Z) : bytes := id ++ d ++ be_bytes 8 (millis t).

Definition make_etag (id d : bytes) (t : Z) : bytes :=
  [QUOTE] ++ b64 (sha256 (etag_input id d t)) ++ [QUOTE].

(** ** Operations *)

Fixpoint fresh_id (draws : list bytes) (s : Sessions) : option bytes :=
  match draws with
  | [] => None
  | id :: draws => if decide (is_Some (s !! id)) then fresh_id draws s else Some id
  end.

(** [min_by_key]: the first of the least. *)
Fixpoint min_by_created (l : list (bytes * Session)) : option (bytes * Session) :=
  match l with
  | [] => None
  | x :: l =>
      match min_by_created l with
      | None => Some x
      | Some y => if created x.2 <=? created y.2 then Some x else Some y
      end
  end.

(** The sessions in the order of a [BTreeMap]. *)
Definition in_order (s : Sessions) : list (bytes * Session) := sort_by_key fst (map_to_list s).

(** Each round removes a session, so as many rounds as sessions are enough. *)
Fixpoint evict (fuel capacity : nat) (s : Sessions) : Sessions :=
  match fuel with
  | O => s
  | S fuel =>
      if (capacity <=? size s)%nat then
        match min_by_created (in_order s) with
        | Some (id, _) => evict fuel capacity (delete id s)
        | None => s
        end
      else s
  end.

(** [None]: all the draws were ids in use. *)
Definition create_at (draws : list bytes) (d : bytes) (now ttl : Z) (max_sessions : nat)
    (s : Sessions) : option (Sessions * bytes * Meta) :=
  let capacity := Nat.max max_sessions 1 in
  let s := filter (fun x => now < expires_at x.2) s in
  id ← fresh_id draws s;
  let s := evict (size s) capacity s in
  let session := mkSession d (make_etag id d now) now now (expiry now ttl) in
  Some (<[id := session]> s, id, meta session).

Definition get_outcome (s : Session) (if_none_match : option bytes) : Get :=
  match if_none_match with
  | Some candidate => if etag_matches candidate (etag s) then NotModified (meta s) else GetData (data s) (meta s)
  | None => GetData (data s) (meta s)
  end.

(** The first half of [get_at]: an answer, or nothing when the session has expired. *)
Definition get_read (id : bytes) (inm : option bytes) (now : Z) (s : Sessions) : option Get :=
  match s !! id with
  | Some session => if now <? expires_at session then Some (get_outcome session inm) else None
  | None => Some GetNotFound
  end.

(** The second, under the write lock; the session may have been replaced since. *)
Definition get_write (id : bytes) (inm : option bytes) (now : Z) (s : Sessions) : Sessions * Get :=
  match s !! id with
  | Some session =>
      if expires_at session <=? now then (delete id s, GetNotFound)
      else (s, get_outcome session inm)
  | None => (s, GetNotFound)
  end.

(** [s'] is what the write lock finds. *)
Definition get_at (id : bytes) (inm : option bytes) (now : Z) (s s' : Sessions) : Sessions * Get :=
  match get_read id inm now s with
  | Some g => (s', g)
  | None => get_write id inm now s'
  end.

Definition put_with_at (id : bytes) (v : Validator) (d : bytes) (now ttl : Z) (s : Sessions) :
    Sessions * Put :=
  match s !! id with
  | None => (s, PutNotFound)
  | Some session =>
      if expires_at session <=? now then (delete id s, PutNotFound) else
      if negb (matches v (etag session)) then
        if negb (bool_decide (d = data session)) then (s, PreconditionFailed (meta session)) else
        let session := mkSession (data session) (etag session) (created session)
          (last_modified session) (expiry now ttl) in
        (<[id := session]> s, Accepted (meta session))
      else
        let lm := next_last_modified now (last_modified session) in
        let session := mkSession d (make_etag id d lm) (created session) lm (expiry now ttl) in
        (<[id := session]> s, Accepted (meta session))
  end.

Definition put_at id (if_match : bytes) := put_with_at id (VEtag if_match).
Definition put_token_at id (token : bytes) := put_with_at id (VSequenceToken token).

Definition delete_session (id : bytes) (s : Sessions) : Sessions * bool :=
  (delete id s, bool_decide (is_Some (s !! id))).

Definition delete_if_active_at (id : bytes) (now : Z) (s : Sessions) : Sessions * bool :=
  (delete id s, match s !! id with Some session => now <? expires_at session | None => false end).

(** ** Eviction *)

Lemma min_by_created_spec l :
  match min_by_created l with
  | Some x => x ∈ l /\ Forall (fun y => created x.2 <= created y.2) l
  | None => l = []
  end.
Proof.
  induction l as [|x l IH]; cbn; [done|]. destruct (min_by_created l) as [y|].
  - destruct IH as [Hy Hl]. destruct (Z.leb_spec (created x.2) (created y.2)); (split; [set_solver|]).
    + constructor; [lia|]. eapply Forall_impl; [done|]. cbn. intros. lia.
    + constructor; [lia|done].
  - subst. split; [by left|]. repeat constructor. lia.
Qed.

Lemma elem_of_in_order s x : x ∈ in_order s <-> s !! x.1 = Some x.2.
Proof. unfold in_order. rewrite sort_by_key_perm. destruct x. by rewrite elem_of_map_to_list. Qed.

(** What is left is a part of the table, below the capacity, and nothing that was
    evicted is younger than anything left. *)
Lemma evict_spec fuel capacity s :
  (0 < capacity)%nat -> (size s <= fuel)%nat ->
  let s' := evict fuel capacity s in
  s' ⊆ s /\ (size s' < capacity)%nat /\
  (forall id x id' y, s !! id = Some x -> s' !! id = None -> s' !! id' = Some y -> created x <= created y) /\
  ((size s < capacity)%nat -> s' = s).
Proof.
  intros Hcap. revert s. induction fuel as [|fuel IH]; intros s Hf; cbn [evict]; cbv zeta.
  { assert (s = ∅) as -> by (apply map_size_empty_inv; lia).
    rewrite map_size_empty. split_and!; [done|lia| |done]. intros ? ? ? ? Hx. by rewrite lookup_empty in Hx. }
  destruct (Nat.leb_spec capacity (size s)) as [Hle|Hlt].
  2: { split_and!; [done|done| |done]. intros. simplify_eq. }
  pose proof (min_by_created_spec (in_order s)) as Hmin. destruct (min_by_created (in_order s)) as [[id0 x0]|].
  2: { assert (map_to_list s = []) as Hs.
       { symmetry. apply Permutation_nil_l. rewrite <-Hmin. apply sort_by_key_perm. }
       apply map_to_list_empty_iff in Hs as ->. rewrite map_size_empty in Hle. lia. }
  destruct Hmin as [Hin Hall]. apply elem_of_in_order in Hin. cbn in Hin.
  assert (Hsz : size (delete id0 s) = pred (size s)) by (by apply map_size_delete_Some).
  destruct (IH (delete id0 s)) as (H1 & H2 & H3 & H4); [lia|].
  split_and!; [by etrans; [done|apply delete_subseteq]|done| |lia].
  intros id x id' y Hx Hx' Hy. destruct (decide (id = id0)) as [->|Hne].
  - simplify_eq. eapply lookup_weaken in Hy; [|done]. apply lookup_delete_Some in Hy as [_ Hy].
    rewrite Forall_forall in Hall. apply (Hall (id', y)). by apply elem_of_in_order.
  - eapply (H3 id x id' y); [by rewrite lookup_delete_ne|done|done].
Qed.

Lemma fresh_id_spec draws s :
  match fresh_id draws s with
  | Some id => id ∈ draws /\ s !! id = None
  | None => forall id, id ∈ draws -> is_Some (s !! id)
  end.
Proof.
  induction draws as [|id draws IH]; cbn; [by intros id ?%elem_of_nil|].
  case_decide as Hid; [|split; [by left|by apply eq_None_not_Some]].
  destruct (fresh_id draws s); [set_solver|]. intros id' [->|?]%elem_of_cons; auto.
Qed.

(** More distinct draws than sessions cannot all be in use. *)
Lemma fresh_id_total draws s :
  NoDup draws -> (size s < length draws)%nat -> is_Some (fresh_id draws s).
Proof.
  intros Hnd Hlen. pose proof (fresh_id_spec draws s) as Hs. destruct (fresh_id draws s); [by eexists|].
  exfalso. assert (Hsub : list_to_set draws ⊆@{gset bytes} dom s).
  { intros id Hid. apply elem_of_list_to_set in Hid. by apply elem_of_dom, Hs. }
  apply subseteq_size in Hsub. rewrite size_list_to_set, size_dom in Hsub by done. lia.
Qed.

(** ** Versions *)

(** Times whose milliseconds fit: thirty million years. *)
Definition TIME_LIMIT : Z := 1000000000000000 * NANOS_PER_SEC.

Lemma millis_eq t : 0 <= t <= TIME_LIMIT -> millis t = t / 1000000.
Proof.
  intros Ht. unfold millis, TIME_LIMIT, NANOS_PER_SEC, MILLIS_PER_SECOND in *.
  rewrite Z.max_r by lia.
  assert (E : t / 1000000 = t / 1000000000 * 1000 + t mod 1000000000 / 1000000).
  { rewrite (Z.div_mod t 1000000000) at 1 by lia.
    replace (1000000000 * (t / 1000000000)) with (t / 1000000000 * 1000 * 1000000) by ring.
    by rewrite Z.div_add_l by lia. }
  pose proof (Z.div_pos t 1000000000 ltac:(lia) ltac:(lia)).
  assert (t / 1000000000 <= 1000000000000000) by (apply Z.div_le_upper_bound; lia).
  pose proof (Z.mod_pos_bound t 1000000000 ltac:(lia)).
  assert (0 <= t mod 1000000000 / 1000000 < 1000)
    by (split; [apply Z.div_pos; lia|apply Z.div_lt_upper_bound; lia]).
  rewrite E. unfold u64_saturating_mul, u64_saturating_add, clamp_range. rewrite (Z.min_r u64_max (_ * 1000)) by int_solve.
  int_solve.
Qed.

Lemma millis_step t t' :
  0 <= t -> t + MONOTONIC_STEP <= t' -> t' <= TIME_LIMIT -> millis t < millis t' <= u64_max.
Proof.
  intros H0 Ht Hl. unfold MONOTONIC_STEP in *. rewrite !millis_eq by lia. split.
  - assert ((t + 1000000) / 1000000 <= t' / 1000000) by (apply Z.div_le_mono; lia).
    replace (t + 1000000) with (1 * 1000000 + t) in * by ring. rewrite Z.div_add_l in * by lia. lia.
  - apply Z.div_le_upper_bound; [lia|]. unfold TIME_LIMIT, NANOS_PER_SEC in *. int_solve.
Qed.

Lemma millis_nonneg t : 0 <= millis t.
Proof. unfold millis. unfold u64_saturating_add, clamp_range. lia. Qed.

(** The time is part of what is hashed, so another time is another input. *)
Lemma etag_input_inj id d d' t t' :
  millis t <= u64_max -> millis t' <= u64_max ->
  etag_input id d t = etag_input id d' t' -> millis t = millis t'.
Proof.
  intros Ht Ht' E. unfold etag_input in E. apply app_inv_head in E.
  assert (El : length d = length d').
  { apply (f_equal length) in E. rewrite !length_app, !length_be_bytes in E. lia. }
  apply app_inj_1 in E as [_ E]; [|done]. apply (f_equal from_be) in E.
  rewrite !from_be_be_bytes in E. pose proof (millis_nonneg t). pose proof (millis_nonneg t').
  rewrite !Z.mod_small in E by int_solve. done.
Qed.

Lemma etag_value_make id d t :
  etag_value (make_etag id d t) = Some (b64 (sha256 (etag_input id d t))).
Proof.
  unfold etag_value, make_etag, strip_suffix. cbn [app strip_prefix]. rewrite decide_True by done.
  cbn [mbind option_bind]. rewrite reverse_snoc. cbn [strip_prefix]. rewrite decide_True by done.
  cbn [fmap option_fmap option_map]. by rewrite reverse_involutive.
Qed.

(** A session's ETag is that of its data and time. *)
Definition versioned (id : bytes) (x : Session) : Prop :=
  etag x = make_etag id (data x) (last_modified x) /\ 0 <= last_modified x.

Lemma put_spec id v d now ttl s s' r :
  put_with_at id v d now ttl s = (s', r) ->
  match r with
  | PutNotFound => s' !! id = None /\ forall x, s !! id = Some x -> expires_at x <= now
  | PreconditionFailed m => s' = s /\ exists x, s !! id = Some x /\ now < expires_at x /\ m = meta x /\
      matches v (etag x) = false /\ d <> data x
  | Accepted m => exists x y, s !! id = Some x /\ now < expires_at x /\ s' !! id = Some y /\ m = meta y /\
      data y = d /\ created y = created x /\ expires_at y = expiry now ttl /\
      (if matches v (etag x) then
         last_modified y = next_last_modified now (last_modified x) /\ etag y = make_etag id d (last_modified y)
       else etag y = etag x /\ d = data x /\ last_modified y = last_modified x)
  end /\ forall id', id' <> id -> s' !! id' = s !! id'.
Proof.
  unfold put_with_at. destruct (s !! id) as [x|] eqn:Ex; [|by intros [= <- <-]].
  destruct (Z.leb_spec (expires_at x) now).
  { intros [= <- <-]. split; [|by intros; rewrite lookup_delete_ne]. rewrite lookup_delete_eq.
    split; [done|]. by intros ? [= <-]. }
  destruct (matches v (etag x)) eqn:Ev; cbn [negb].
  - intros [= <- <-]. split; [|by intros; rewrite lookup_insert_ne]. eexists x, _. rewrite lookup_insert_eq, Ev. done.
  - destruct (bool_decide (d = data x)) eqn:Ed; cbn [negb]; intros [= <- <-].
    + apply bool_decide_eq_true in Ed as ->. split; [|by intros; rewrite lookup_insert_ne].
      eexists x, _. rewrite lookup_insert_eq, Ev. done.
    + apply bool_decide_eq_false in Ed. split; [|done]. split; [done|]. eauto 10.
Qed.

Lemma next_last_modified_range now t :
  t + MONOTONIC_STEP <= SYSTEM_TIME_MAX ->
  t + MONOTONIC_STEP <= next_last_modified now t <= Z.max now (t + MONOTONIC_STEP).
Proof. intros Ht. unfold next_last_modified, checked_add. destruct (Z.leb_spec (t + MONOTONIC_STEP) SYSTEM_TIME_MAX); lia. Qed.

(** ** Histories *)

Definition apply_put (id : bytes) (s : Sessions) (p : put) : Sessions :=
  let '(v, d, now, ttl) := p in (put_with_at id v d now ttl s).1.

Definition put_time (p : put) : Z := let '(_, _, now, _) := p in now.

Lemma puts_versioned id T ps s x s' y :
  versioned id x -> s !! id = Some x -> last_modified x <= T -> Forall (fun p => put_time p <= T) ps ->
  T + Z.of_nat (length ps) * MONOTONIC_STEP <= TIME_LIMIT ->
  s' = foldl (apply_put id) s ps -> s' !! id = Some y ->
  versioned id y /\ created y = created x /\
  last_modified x <= last_modified y <= T + Z.of_nat (length ps) * MONOTONIC_STEP /\
  (last_modified y = last_modified x \/ last_modified x + MONOTONIC_STEP <= last_modified y).
Proof.
  intros Hx Hs HT Hps Hlim -> Hy. revert T s x Hx Hs HT Hps Hlim Hy.
  induction ps as [|[[[v d] now] ttl] ps IH]; intros T s x Hx Hs HT Hps Hlim Hy; cbn [foldl length] in *.
  { rewrite Hs in Hy. injection Hy as <-. split_and!; [done|done|lia|lia|by left]. }
  apply Forall_cons in Hps as [Hnow Hps]. cbn [put_time] in Hnow.
  destruct (put_with_at id v d now ttl s) as [s1 r] eqn:Ep.
  assert (Ea : apply_put id s (v, d, now, ttl) = s1) by (unfold apply_put; by rewrite Ep). rewrite Ea in Hy. clear Ea.
  pose proof (put_spec _ _ _ _ _ _ _ _ Ep) as [Hr _].
  assert (Hgone : forall l (s1 : Sessions), s1 !! id = None -> foldl (apply_put id) s1 l !! id = None).
  { intros l. induction l as [|[[[v' d'] n'] t'] l IHl]; intros s2 Hs2; cbn [foldl]; [done|].
    apply IHl. unfold apply_put, put_with_at. by rewrite Hs2. }
  assert (Hx1 : exists x1, s1 !! id = Some x1 /\ versioned id x1 /\ created x1 = created x /\
    (last_modified x1 = last_modified x \/
     last_modified x + MONOTONIC_STEP <= last_modified x1 <= T + MONOTONIC_STEP)).
  { destruct r as [m|m|].
    - destruct Hr as (x0 & y0 & E0 & _ & E1 & _ & Ed & Ec & _ & Hm). rewrite Hs in E0. injection E0 as <-.
      exists y0. split; [done|]. destruct (matches v (etag x)).
      + destruct Hm as [Hlm He]. unfold MONOTONIC_STEP, TIME_LIMIT, NANOS_PER_SEC, SYSTEM_TIME_MAX in *.
        pose proof (next_last_modified_range now (last_modified x)) as Hn.
        unfold MONOTONIC_STEP, SYSTEM_TIME_MAX, NANOS_PER_SEC in Hn. specialize (Hn ltac:(int_solve)).
        destruct Hx as [_ Hx0]. split_and!; [split; [by rewrite He, Ed|lia]|done|right; lia].
      + destruct Hm as (He & -> & Hlm). destruct Hx as [Hx1 Hx0].
        split_and!; [split; [by rewrite He, Hlm, Hx1, Ed|lia]|done|by left].
    - destruct Hr as [-> _]. exists x. split_and!; try done. by left.
    - destruct Hr as [Hnone _]. rewrite Hgone in Hy by done. done. }
  destruct Hx1 as (x1 & E1 & Hv1 & Hc1 & Hlm1). unfold MONOTONIC_STEP in *.
  destruct (IH (T + 1000000) s1 x1 Hv1 E1) as (Hvy & Hcy & Hly & Hly'); try done; try lia.
  { eapply Forall_impl; [done|]. cbn. lia. }
  split_and!; [done|congruence|lia|lia|lia].
Qed.

(** ** Properties *)

(** Creating a session succeeds once a drawn id is unused, keeps the table within
    its capacity, drops expired sessions, evicts only when the table is full and then
    no session younger than one it keeps, and leaves the others as they were. *)
Theorem create_bounded (draws : list bytes) (d : bytes) (now ttl : Z) (max_sessions : nat) (s : Sessions) :
  NoDup draws -> (size s < length draws)%nat ->
  exists s' id m, create_at draws d now ttl max_sessions s = Some (s', id, m) /\
    (size s' <= Nat.max max_sessions 1)%nat /\
    (forall x, s !! id = Some x -> expires_at x <= now) /\
    (exists x, s' !! id = Some x /\ data x = d /\ created x = now /\ m = meta x) /\
    (forall id' x, id' <> id -> s' !! id' = Some x -> s !! id' = Some x /\ now < expires_at x) /\
    (forall id1 x id2 y, s !! id1 = Some x -> now < expires_at x -> s' !! id1 = None ->
       s' !! id2 = Some y -> id2 <> id -> created x <= created y) /\
    ((size s < Nat.max max_sessions 1)%nat ->
       forall id' x, s !! id' = Some x -> now < expires_at x -> s' !! id' = Some x).
Proof.
  intros Hnd Hlen. unfold create_at. set (live := filter (fun x => now < expires_at x.2) s).
  assert (Hlive : forall id x, live !! id = Some x <-> s !! id = Some x /\ now < expires_at x)
    by (intros; unfold live; by rewrite map_lookup_filter_Some).
  assert (Hsize : (size live <= size s)%nat) by (apply map_subseteq_size, map_filter_subseteq).
  clearbody live. destruct (fresh_id_total draws live Hnd ltac:(lia)) as [id Hid].
  pose proof (fresh_id_spec draws live) as Hf. rewrite Hid in Hf |- *. destruct Hf as [_ Hfresh]. cbn [mbind option_bind].
  set (cap := Nat.max max_sessions 1). assert (Hcap : (0 < cap)%nat) by lia. clearbody cap.
  destruct (evict_spec (size live) cap live Hcap ltac:(lia)) as (E1 & E2 & E3 & E4).
  set (kept := evict (size live) cap live) in *. clearbody kept.
  assert (Hk : kept !! id = None).
  { apply eq_None_not_Some. intros [x Hx]. eapply lookup_weaken in Hx; [|done]. congruence. }
  eexists _, id, _. split; [done|]. split_and!.
  - rewrite map_size_insert_None by done. lia.
  - intros x Hx. destruct (decide (now < expires_at x)); [|lia].
    assert (live !! id = Some x) by (by apply Hlive). congruence.
  - eexists. by rewrite lookup_insert_eq.
  - intros id' x Hne. rewrite lookup_insert_ne by done. intros Hx. apply Hlive. by eapply lookup_weaken.
  - intros id1 x id2 y Hx Hexp Hgone Hy Hne. rewrite lookup_insert_ne in Hy by done.
    apply lookup_insert_None in Hgone as [Hgone _]. eapply (E3 id1 x id2 y); [by apply Hlive|done|done].
  - intros Hroom id' x Hx Hexp. rewrite lookup_insert_ne; [|intros ->].
    + rewrite E4 by lia. by apply Hlive.
    + assert (live !! id' = Some x) by (by apply Hlive). congruence.
Qed.

(** No update is lost: once a write has replaced a version of a session, a client
    that still holds the ETag of that version (or its sequence token) cannot overwrite
    what came after it: its write is refused and the session stays as it is. This
    holds however the clock moves between the writes, as long as SHA-256 does not
    collide on the two versions. *)
Theorem stale_writer_refused (id : bytes) (T : Z) (ps : list put) (s : Sessions) (x y : Session)
    (d : bytes) (now ttl : Z) (token : bytes) :
  versioned id x -> s !! id = Some x -> last_modified x <= T -> Forall (fun p => put_time p <= T) ps ->
  T + Z.of_nat (length ps) * MONOTONIC_STEP <= TIME_LIMIT ->
  foldl (apply_put id) s ps !! id = Some y -> last_modified y <> last_modified x ->
  (b64 (sha256 (etag_input id (data x) (last_modified x))) = b64 (sha256 (etag_input id (data y) (last_modified y))) ->
   etag_input id (data x) (last_modified x) = etag_input id (data y) (last_modified y)) ->
  etag_value (etag x) = Some token -> now < expires_at y -> d <> data y ->
  put_with_at id (VEtag (etag x)) d now ttl (foldl (apply_put id) s ps) =
    (foldl (apply_put id) s ps, PreconditionFailed (meta y)) /\
  put_with_at id (VSequenceToken token) d now ttl (foldl (apply_put id) s ps) =
    (foldl (apply_put id) s ps, PreconditionFailed (meta y)).
Proof.
  intros Hx Hs HT Hps Hlim Hy Hne Hcol Htok Hexp Hd.
  destruct (puts_versioned id T ps s x _ y Hx Hs HT Hps Hlim eq_refl Hy) as (Hvy & _ & Hrange & [?|Hstep]); [done|].
  destruct Hx as [Ex Hx0], Hvy as [Ey Hy0].
  assert (Hetag : etag x <> etag y).
  { intros E. rewrite Ex, Ey in E. unfold make_etag in E. cbn [app] in E. injection E as E.
    apply app_inj_2 in E as [E _]; [|done]. specialize (Hcol E).
    destruct (millis_step (last_modified x) (last_modified y) Hx0 Hstep ltac:(lia)) as [Hlt Hmax].
    apply etag_input_inj in Hcol; lia. }
  assert (Htokens : forall v, etag_value (etag y) = Some v -> v <> token).
  { intros v Hv ->. apply Hetag. rewrite Ex, Ey, etag_value_make in *. unfold make_etag. congruence. }
  unfold put_with_at. rewrite Hy. destruct (Z.leb_spec (expires_at y) now); [lia|].
  rewrite (bool_decide_eq_false_2 (d = data y)) by done.
  assert (Hstar : etag x <> [STAR]) by (rewrite Ex; done).
  cbn [matches]. unfold etag_matches. rewrite !bool_decide_eq_false_2; [done| |].
  - intros E. by apply (Htokens token).
  - intros [?|?]; done.
Qed.

(** What is read was live: an answer with data or metadata is that of a session that
    had not expired, as one of the two looks found it. *)
Theorem expired_never_served (id : bytes) (inm : option bytes) (now : Z) (s s' : Sessions) :
  match (get_at id inm now s s').2 with
  | GetData d m => exists x, (s !! id = Some x \/ s' !! id = Some x) /\ now < expires_at x /\
      d = data x /\ m = meta x
  | NotModified m => exists x, (s !! id = Some x \/ s' !! id = Some x) /\ now < expires_at x /\
      m = meta x /\ exists c, inm = Some c /\ etag_matches c (etag x) = true
  | GetNotFound => True
  end.
Proof.
  assert (Hout : forall x, match get_outcome x inm with
    | GetData d m => d = data x /\ m = meta x
    | NotModified m => m = meta x /\ exists c, inm = Some c /\ etag_matches c (etag x) = true
    | GetNotFound => False end).
  { intros x. unfold get_outcome. destruct inm as [c|]; [|done]. destruct (etag_matches c (etag x)) eqn:E; eauto. }
  unfold get_at, get_read, get_write. destruct (s !! id) as [x|]; [|done].
  destruct (Z.ltb_spec now (expires_at x)).
  { specialize (Hout x). cbn [snd]. destruct (get_outcome x inm); naive_solver. }
  destruct (s' !! id) as [y|]; [|done]. destruct (Z.leb_spec (expires_at y) now); [done|].
  specialize (Hout y). cbn [snd]. destruct (get_outcome y inm); naive_solver.
Qed.

End Service.

Lemma create_bounded_witness :
  exists s' i m, create_at id id [[Byte.x61]; [Byte.x62]] [] 5 10 1
      {[ [Byte.x61] := mkSession [] [] 1 1 9 ]} = Some (s', i, m) /\ (size s' <= 1)%nat.
Proof.
  destruct (create_bounded id id [[Byte.x61]; [Byte.x62]] [] 5 10 1 {[ [Byte.x61] := mkSession [] [] 1 1 9 ]})
    as (s' & i & m & E & Hs & _).
  - apply (bool_decide_unpack _). vm_compute. exact I.
  - vm_compute. lia.
  - exists s', i, m. split; [exact E|exact Hs].
Defined.

(** Two writes of the same data within one tick of the clock. *)
Definition sample_session : Session := mkSession [Byte.x01] (make_etag id id [Byte.x61] [Byte.x01] 7) 7 7 1000.
Definition sample_puts : list put := [(VEtag [STAR], [Byte.x01], 7, 900)].
Definition sample_sessions : Sessions := {[ [Byte.x61] := sample_session ]}.

Lemma stale_writer_refused_witness :
  exists y, put_with_at id id [Byte.x61] (VEtag (etag sample_session)) [Byte.x02] 8 900
      (foldl (apply_put id id [Byte.x61]) sample_sessions sample_puts) =
    (foldl (apply_put id id [Byte.x61]) sample_sessions sample_puts, PreconditionFailed (meta y)).
Proof.
  eexists.
  refine (proj1 (stale_writer_refused id id [Byte.x61] 7 sample_puts sample_sessions sample_session _
    [Byte.x02] 8 900 (etag_input [Byte.x61] [Byte.x01] 7) _ _ _ _ _ _ _ _ _ _ _)).
  - split; [reflexivity|vm_compute; discriminate].
  - vm_compute; reflexivity.
  - vm_compute; discriminate.
  - repeat constructor; vm_compute; discriminate.
  - vm_compute; discriminate.
  - vm_compute; reflexivity.
  - vm_compute; discriminate.
  - intros E; exact E.
  - vm_compute; reflexivity.
  - vm_compute; reflexivity.
  - vm_compute; discriminate.
Defined.

End Rendezvous.
