(* ===== verification/PduJson.v ===== *)
(** The JSON of a PDU before it is an event: canonical objects, the derived event and
    room ids of [phantom-core/src/matrix/pdu/event_id.rs], [Pdu::from_id_val] of
    [matrix/pdu/mod.rs], [redacts_id] of [matrix/pdu/redact.rs] and [auth_event_ids] of
    [phantom-service/src/rooms/event_handler/outliers.rs].

    Parsing, hashing, signatures and redaction are [serde_json]'s and [ruma]'s: the
    class [PduFormat]. *)
From S2P Require Import Prelude Event.
From Stdlib Require Import Ascii.
Export Event.

Module PduJson.

(** [CanonicalJsonObject], a map from field names. *)
Abbreviation Object := (gmap string CanonicalJsonValue) (only parsing).

(** [ruma::signatures::Verified] *)
Inductive Verified := All | SignaturesOnly.

Class PduFormat := {
  (** [RoomVersionId::rules().is_some()] *)
  has_rules : RoomVersionId -> bool;
  (** [rules.event_format.require_room_create_room_id] *)
  require_room_create_room_id : RoomVersionId -> bool;
  (** [ruma::signatures::reference_hash] *)
  reference_hash : Object -> RoomVersionId -> option string;
  (** [RoomId::parse] accepts the text. *)
  valid_room_id : string -> bool;
  (** [serde_json::from_value::<Pdu>] *)
  pdu_of_json : Object -> option Event;
  (** [ruma::canonical_json::redact] under the rules of the version *)
  redact_json : Object -> RoomVersionId -> option Object;
  (** [redact_content_in_place]; [None]: the stored content is not an object. *)
  redact_content : RoomVersionId -> Event -> option string;
  (** [RoomRedactionEventContent]'s [redacts] *)
  json_redacts : string -> option (option string);
  (** [RoomCreateEventContent]'s [room_version] and [additional_creators] *)
  json_create_version : string -> option (RoomVersionId * list string)
}.

(** What [serde] reads from the fields of a PDU. *)
Class PduFormatLaws `{PduFormat} : Prop := {
  pdu_event_id o e : pdu_of_json o = Some e -> o !! "event_id" = Some (CString (event_id e));
  pdu_room_id o e : pdu_of_json o = Some e -> o !! "room_id" = Some (CString (room_id e))
}.

Definition as_str (v : CanonicalJsonValue) : option string :=
  match v with CString s => Some s | _ => None end.

(** [value.get(field).and_then(CanonicalJsonValue::as_str)] *)
Definition get_str (field : string) (value : Object) : option string := value !! field ≫= as_str.

Section Format.
Context `{Identifiers, PduFormat}.

Definition gen_event_id (value : Object) (room_version_id : RoomVersionId) : option string :=
  if negb (has_rules room_version_id) then None else
  hash ← reference_hash value room_version_id;
  let id := String "$"%char hash in
  if valid_event_id id then Some id else None.

(** The room id a create event's id implies. *)
Definition room_id_of_create_event_id (id : string) : option string :=
  match id with
  | String "$"%char opaque =>
      let room := String "!"%char opaque in
      if valid_room_id room then Some room else None
  | _ => None
  end.

Definition room_id_of_pdu_json (value : Object) : option string :=
  match value !! "room_id" with
  | Some v => room ← as_str v; if valid_room_id room then Some room else None
  | None =>
      if bool_decide (get_str "type" value = Some RoomCreate) then
        id ← (match get_str "event_id" value with
              | Some id => if valid_event_id id then Some id else None
              | None => gen_event_id value IdV12
              end);
        room_id_of_create_event_id id
      else None
  end.

Definition insert_derived_room_id (value : Object) (id : string) : Object :=
  if bool_decide (is_Some (value !! "room_id"))
     || negb (bool_decide (get_str "type" value = Some RoomCreate)) then value
  else match room_id_of_create_event_id id with
       | Some room => <["room_id" := CString room]> value
       | None => value
       end.

(** [Pdu::from_id_val] *)
Definition from_id_val (id : string) (json : Object) : option Event :=
  pdu_of_json (<["event_id" := CString id]> (insert_derived_room_id json id)).

(** The versions that name a redacted event outside the content. *)
Definition redacts_at_top (v : RoomVersionId) : bool :=
  match v with
  | IdV1 | IdV2 | IdV3 | IdV4 | IdV5 | IdV6 | IdV7 | IdV8 | IdV9 | IdV10 => true
  | _ => false
  end.

Definition redacts_id (pdu : Event) (room_version : RoomVersionId) : option string :=
  if negb (bool_decide (event_type pdu = RoomRedaction)) then None else
  if redacts_at_top room_version then redacts pdu
  else mjoin (json_redacts (content pdu)).

Definition auth_event_ids (value : Object) : list string :=
  match value !! "auth_events" with
  | Some (CArray array) => filter (fun id => valid_event_id id = true) (omap as_str array)
  | _ => []
  end.

End Format.

Section Facts.
Context `{Identifiers, PduFormatLaws}.

Lemma from_id_val_id id json e : from_id_val id json = Some e -> event_id e = id.
Proof.
  unfold from_id_val. intros He. apply pdu_event_id in He.
  rewrite lookup_insert_eq in He. by simplify_eq.
Qed.

End Facts.
End PduJson.
