(* ===== verification/FetchGraph.v ===== *)
(** The walk of [fetch_auth_graph] in
    [phantom-service/src/rooms/event_handler/outliers.rs]: an explicit stack that
    fetches missing auth events depth first and emits an event after everything it
    names. What one round asks of the server and of the network ([visit]) and the ids
    an answer names ([auths]) are arguments, given in Handler.v. *)
From S2P Require Import Prelude.

Module FetchGraph.

(** The stack's entries. *)
Inductive Step := Fetch (id : string) | Emit (id : string).

Definition step_id (x : Step) : string := match x with Fetch id | Emit id => id end.

Section Walk.
Context {State Value : Type}.
Context (visit : State -> string -> State * option Value).
Context (auths : Value -> list string).

Record Walk := mkWalk {
  order : list (string * Value);
  fetched : gmap string Value;
  seen : gset string;
  stack : list Step
}.

Definition start (events : list string) : Walk := mkWalk [] ∅ ∅ (Fetch <$> events).

(** One round of the loop. [None]: the stack is empty. *)
Definition round (s : State) (w : Walk) : option (State * Walk) :=
  match stack w with
  | [] => None
  | Emit id :: rest =>
      Some (s, match fetched w !! id with
               | Some value =>
                   mkWalk (order w ++ [(id, value)]) (delete id (fetched w)) (seen w) rest
               | None => mkWalk (order w) (fetched w) (seen w) rest
               end)
  | Fetch id :: rest =>
      if bool_decide (id ∈ seen w) then Some (s, mkWalk (order w) (fetched w) (seen w) rest) else
      let '(s, answer) := visit s id in
      Some (s, match answer with
               | None => mkWalk (order w) (fetched w) ({[id]} ∪ seen w) rest
               | Some value =>
                   mkWalk (order w) (<[id := value]> (fetched w)) ({[id]} ∪ seen w)
                     ((Fetch <$> auths value) ++ Emit id :: rest)
               end)
  end.

(** [None]: the loop did not end within [fuel] rounds. *)
Fixpoint walk (fuel : nat) (s : State) (w : Walk) : option (State * list (string * Value)) :=
  match fuel with
  | O => None
  | S fuel =>
      match round s w with
      | None => Some (s, order w)
      | Some (s, w) => walk fuel s w
      end
  end.

(** What every visit keeps, the walk keeps. *)
Lemma walk_moves (R : State -> State -> Prop) `{!Reflexive R, !Transitive R} fuel s w s' l :
  (forall s id, R s (visit s id).1) -> walk fuel s w = Some (s', l) -> R s s'.
Proof.
  intros Hv. revert s w. induction fuel as [|fuel IH]; intros s w E; [done|]. cbn in E.
  destruct (round s w) as [[s1 w1]|] eqn:Er; [|by injection E as <- <-].
  transitivity s1; [|by eapply IH]. unfold round in Er. specialize (Hv s).
  destruct (stack w) as [|[id|id] rest]; [done| |by injection Er as <- _].
  destruct (bool_decide _); [by injection Er as <- _|]. specialize (Hv id).
  destruct (visit s id) as [s2 answer]. by injection Er as <- _.
Qed.

(** What every visit's answer satisfies, the emitted events satisfy. *)
Lemma walk_values (P : State -> Prop) (Q : string -> Value -> Prop) fuel s w s' l :
  (forall s id, P s -> P (visit s id).1) ->
  (forall s id s' v, P s -> visit s id = (s', Some v) -> Q id v) ->
  P s -> map_Forall Q (fetched w) -> Forall (fun p => Q p.1 p.2) (order w) ->
  walk fuel s w = Some (s', l) -> Forall (fun p => Q p.1 p.2) l.
Proof.
  intros HP HQ. revert s w. induction fuel as [|fuel IH]; intros s w Hs Hf Ho E; [done|]. cbn in E.
  destruct (round s w) as [[s1 w1]|] eqn:Er; [|by injection E as <- <-].
  unfold round in Er. destruct (stack w) as [|[id|id] rest]; [done| |].
  - destruct (bool_decide _); [injection Er as <- <-; by eapply (fun w' => IH s w' Hs); [..|exact E]|].
    pose proof (HP s id Hs) as Hs1. pose proof (HQ s id) as HQ1.
    destruct (visit s id) as [s2 [v|]]; injection Er as <- <-; [|by eapply (fun w' => IH _ w' Hs1); [..|exact E]].
    eapply IH; [done| | |done]; [|done]. cbn. apply map_Forall_insert_2; [by eapply HQ1|done].
  - injection Er as <- <-. destruct (fetched w !! id) as [v|] eqn:Ev; [|by eapply (fun w' => IH _ w' Hs); [..|exact E]].
    eapply IH; [done| | |done]; cbn; [by apply map_Forall_delete|].
    apply Forall_app. split; [done|]. constructor; [|constructor]. by apply (Hf id v).
Qed.

(** ** The walk ends *)

(** Every answer names only events of a lower rank. *)
Context (rank : string -> nat).
Hypothesis visit_rank : forall s id s' v,
  visit s id = (s', Some v) -> forall a, a ∈ auths v -> (rank a < rank id)%nat.

Definition ends_from (rest : list Step) : Prop :=
  forall s o f n, exists fuel, is_Some (walk fuel s (mkWalk o f n rest)).

Lemma ends_nil : ends_from [].
Proof. intros s o f n. exists 1%nat. by eexists. Qed.

(** A round whose walks all end from the rest of the stack. *)
Lemma ends_round s w s' w' :
  round s w = Some (s', w') ->
  (exists fuel, is_Some (walk fuel s' w')) -> exists fuel, is_Some (walk fuel s w).
Proof. intros E [fuel Hf]. exists (S fuel). cbn [walk]. by rewrite E. Qed.

Lemma ends_emit id rest : ends_from rest -> ends_from (Emit id :: rest).
Proof.
  intros Hr s o f n. eapply ends_round; [reflexivity|]. cbn [stack fetched order seen].
  destruct (f !! id); apply Hr.
Qed.

Lemma ends_fetches ids rest :
  (forall id r, id ∈ ids -> ends_from r -> ends_from (Fetch id :: r)) ->
  ends_from rest -> ends_from ((Fetch <$> ids) ++ rest).
Proof.
  induction ids as [|id ids IH]; intros Hall Hr; [done|]. cbn. apply Hall; [by left|].
  apply IH; [|done]. intros id' r Hin. apply Hall. by right.
Qed.

Lemma ends_fetch k id rest :
  (rank id < k)%nat -> ends_from rest -> ends_from (Fetch id :: rest).
Proof.
  revert id rest. induction k as [|k IH]; intros id rest Hk Hr s o f n; [lia|].
  destruct (decide (id ∈ n)) as [Hin|Hin].
  { eapply ends_round; [cbn; by rewrite bool_decide_true|]. apply Hr. }
  destruct (visit s id) as [s' [v|]] eqn:Ev.
  - eapply ends_round; [cbn; rewrite bool_decide_false by done; by rewrite Ev|]. cbn.
    apply ends_fetches; [|by apply ends_emit].
    intros a r Ha. apply IH. pose proof (visit_rank _ _ _ _ Ev a Ha). lia.
  - eapply ends_round; [cbn; rewrite bool_decide_false by done; by rewrite Ev|]. apply Hr.
Qed.

Lemma walk_ends s events : exists fuel, is_Some (walk fuel s (start events)).
Proof.
  unfold start. rewrite <-(app_nil_r (Fetch <$> events)).
  apply ends_fetches; [|apply ends_nil].
  intros id r _. apply (ends_fetch (S (rank id))). lia.
Qed.

(** ** The order it emits *)

(** The ids of the pending [Emit]s. *)
Definition emits (l : list Step) : list string :=
  omap (fun x => match x with Emit id => Some id | Fetch _ => None end) l.

(** Entries above a pending [Emit] are of a lower rank. *)
Definition nested (l : list Step) : Prop :=
  forall l1 id l2, l = l1 ++ Emit id :: l2 ->
  forall x, x ∈ l1 -> (rank (step_id x) < rank id)%nat.

Record Inv (w : Walk) : Prop := mkInv {
  inv_nested : nested (stack w);
  inv_emits : NoDup (emits (stack w));
  inv_fetched : forall id, id ∈ emits (stack w) <-> is_Some (fetched w !! id);
  inv_seen : forall id, is_Some (fetched w !! id) \/ id ∈ (order w).*1 -> id ∈ seen w;
  inv_apart : forall id, is_Some (fetched w !! id) -> id ∉ (order w).*1;
  inv_order : NoDup (order w).*1;
  inv_pending : forall l1 id l2 v, stack w = l1 ++ Emit id :: l2 -> fetched w !! id = Some v ->
    forall a, a ∈ auths v -> a ∈ seen w \/ Fetch a ∈ l1;
  inv_ranks : forall id v, fetched w !! id = Some v -> forall a, a ∈ auths v -> (rank a < rank id)%nat;
  inv_before : forall l1 id v l2, order w = l1 ++ (id, v) :: l2 ->
    forall a, a ∈ auths v -> a ∈ l1.*1 \/ (a ∈ seen w /\ fetched w !! a = None /\ a ∉ (order w).*1)
}.

Lemma nested_tail x l : nested (x :: l) -> nested l.
Proof. intros Hn l1 id l2 -> y Hy. apply (Hn (x :: l1) id l2); [done|by right]. Qed.

Lemma emits_app l1 l2 : emits (l1 ++ l2) = emits l1 ++ emits l2.
Proof. apply omap_app. Qed.

Lemma emits_fetch ids : emits (Fetch <$> ids) = [].
Proof. by induction ids. Qed.

Lemma emits_elem id l : id ∈ emits l <-> Emit id ∈ l.
Proof.
  unfold emits. rewrite list_elem_of_omap. split.
  - intros ([x|x] & Hx & [=]). by subst.
  - intros Hx. by exists (Emit id).
Qed.

(** A split of a stack that starts with a block of fetches lies past the block. *)
Lemma split_fetches ids rest l1 id l2 :
  (Fetch <$> ids) ++ rest = l1 ++ Emit id :: l2 ->
  exists l1', l1 = (Fetch <$> ids) ++ l1' /\ rest = l1' ++ Emit id :: l2.
Proof.
  revert l1. induction ids as [|a ids IH]; intros l1 E; [by exists l1|].
  destruct l1 as [|x l1]; [done|]. cbn in E. injection E as <- E.
  destruct (IH l1 E) as (l1' & -> & ->). by exists l1'.
Qed.

Lemma inv_start events : Inv (start events).
Proof.
  unfold start. split; cbn [order fetched seen stack fmap list_fmap].
  - intros l1 id l2 E. rewrite <-(app_nil_r (Fetch <$> events)) in E.
    by destruct (split_fetches _ _ _ _ _ E) as ([|] & _ & [=]).
  - rewrite emits_fetch. constructor.
  - intros id. rewrite emits_fetch, lookup_empty. split; [intros []%elem_of_nil|by intros [? [=]]].
  - intros id [[? [=]]|[]%elem_of_nil].
  - intros id _ []%elem_of_nil.
  - constructor.
  - done.
  - done.
  - intros l1 id v l2 E. by destruct l1.
Qed.

(** Popping a fetch of an id that is seen now, and was not fetched. *)
Lemma inv_skip o f n id rest n' :
  Inv (mkWalk o f n (Fetch id :: rest)) -> n ⊆ n' -> id ∈ n' ->
  Inv (mkWalk o f n' rest).
Proof.
  intros [H1 H2 H3 H4 H5 H6 H7 H8 H9] Hn Hid. cbn in *.
  split; cbn; try done.
  - by eapply nested_tail.
  - intros x Hx. apply Hn, H4, Hx.
  - intros l1 x l2 v -> Hv a Ha. destruct (H7 (Fetch id :: l1) x l2 v eq_refl Hv a Ha) as [|Hin]; [auto|].
    apply elem_of_cons in Hin as [[= ->]|]; auto.
  - intros l1 x v l2 E a Ha. destruct (H9 l1 x v l2 E a Ha) as [|(? & ? & ?)]; [auto|]. right. auto.
Qed.

Lemma inv_visit o f n id rest v :
  Inv (mkWalk o f n (Fetch id :: rest)) -> id ∉ n ->
  (forall a, a ∈ auths v -> (rank a < rank id)%nat) ->
  Inv (mkWalk o (<[id := v]> f) ({[id]} ∪ n) ((Fetch <$> auths v) ++ Emit id :: rest)).
Proof.
  intros [H1 H2 H3 H4 H5 H6 H7 H8 H9] Hid Hrank. cbn in *.
  assert (Hf : f !! id = None).
  { destruct (f !! id) eqn:E; [|done]. destruct Hid. apply H4. left. by rewrite E. }
  assert (Ho : id ∉ o.*1) by (intros ?; apply Hid, H4; by right).
  split; cbn.
  - intros l1 x l2 E y Hy. destruct (split_fetches _ _ _ _ _ E) as ([|z l1'] & -> & E').
    + injection E' as <- <-. rewrite app_nil_r in Hy.
      apply list_elem_of_fmap in Hy as (a & -> & Ha). by apply Hrank.
    + injection E' as <- ->. assert (Hx : (rank id < rank x)%nat).
      { apply (H1 (Fetch id :: l1') x l2 eq_refl (Fetch id)). by left. }
      apply elem_of_app in Hy as [(a & -> & Ha)%list_elem_of_fmap|Hy].
      * cbn. pose proof (Hrank a Ha). lia.
      * apply elem_of_cons in Hy as [->|Hy]; [done|]. apply (H1 (Fetch id :: l1') x l2 eq_refl). by right.
  - rewrite emits_app, emits_fetch. cbn. constructor; [|done]. intros Hin%H3. rewrite Hf in Hin. by destruct Hin.
  - intros x. rewrite emits_app, emits_fetch. cbn. rewrite elem_of_cons, H3, lookup_insert_is_Some. naive_solver.
  - intros x [Hx|Hx]; [|set_solver]. apply lookup_insert_is_Some in Hx as [<-|[_ Hx]]; set_solver.
  - intros x Hx. apply lookup_insert_is_Some in Hx as [<-|[_ Hx]]; [done|by apply H5].
  - done.
  - intros l1 x l2 w E Hw a Ha. destruct (split_fetches _ _ _ _ _ E) as ([|z l1'] & -> & E').
    + injection E' as <- <-. rewrite lookup_insert_eq in Hw. injection Hw as <-.
      right. rewrite app_nil_r. by apply list_elem_of_fmap_2.
    + injection E' as <- ->. rewrite lookup_insert_ne in Hw.
      2:{ intros <-. assert (is_Some (f !! id)) as [? ?]; [|congruence].
          apply H3. cbn. rewrite emits_app. cbn. set_solver. }
      destruct (H7 (Fetch id :: l1') x l2 w eq_refl Hw a Ha) as [|Hin]; [set_solver|].
      apply elem_of_cons in Hin as [[= ->]|]; [set_solver|]. right.
      apply elem_of_app. right. by right.
  - intros x w Hw a Ha. destruct (decide (x = id)) as [->|].
    + rewrite lookup_insert_eq in Hw. injection Hw as <-. by apply Hrank.
    + rewrite lookup_insert_ne in Hw by done. by eapply H8.
  - intros l1 x w l2 E a Ha. destruct (H9 l1 x w l2 E a Ha) as [|(Hs & ? & ?)]; [auto|]. right.
    split_and!; [set_solver| |done]. rewrite lookup_insert_ne; [done|]. by intros ->.
Qed.

Lemma inv_emit o f n id rest v :
  Inv (mkWalk o f n (Emit id :: rest)) -> f !! id = Some v ->
  Inv (mkWalk (o ++ [(id, v)]) (delete id f) n rest).
Proof.
  intros [H1 H2 H3 H4 H5 H6 H7 H8 H9] Hv. cbn in *.
  apply NoDup_cons in H2 as [Hnd H2].
  assert (Ho : id ∉ o.*1) by (apply H5; by rewrite Hv).
  assert (Hauth : forall a, a ∈ auths v -> a ∈ n /\ (a ∈ o.*1 \/ (f !! a = None /\ a ∉ o.*1)) /\ a <> id).
  { intros a Ha. pose proof (H8 id v Hv a Ha) as Hra.
    split; [|split]; [|destruct (decide (a ∈ o.*1)); [by left|right; split; [|done]]|intros ->; lia].
    - destruct (H7 [] id rest v eq_refl Hv a Ha) as [|[]%elem_of_nil]; done.
    - destruct (f !! a) as [w|] eqn:E; [|done]. assert (Hin : a ∈ id :: emits rest) by (apply H3; by rewrite E).
      apply elem_of_cons in Hin as [->|Hin]; [lia|]. apply emits_elem, list_elem_of_split in Hin as (l1 & l2 & ->).
      pose proof (H1 (Emit id :: l1) a l2 eq_refl (Emit id) ltac:(by left)). cbn in *. lia. }
  split; cbn.
  - by eapply nested_tail.
  - done.
  - intros x. rewrite lookup_delete_is_Some, <-H3. set_solver.
  - intros x. rewrite fmap_app. cbn. intros [[_ Hx]%lookup_delete_is_Some|Hx]; [apply H4; by left|].
    apply elem_of_app in Hx as [Hx|Hx]; [apply H4; by right|].
    apply list_elem_of_singleton in Hx as ->. apply H4. left. by rewrite Hv.
  - intros x [Hne Hx]%lookup_delete_is_Some. rewrite fmap_app. cbn.
    intros [Hin|Hin%list_elem_of_singleton]%elem_of_app; [by apply (H5 x)|done].
  - rewrite fmap_app. cbn. apply NoDup_app. split_and!; [done|set_solver|apply NoDup_singleton].
  - intros l1 x l2 w -> Hw a Ha. apply lookup_delete_Some in Hw as [Hne Hw].
    destruct (H7 (Emit id :: l1) x l2 w eq_refl Hw a Ha) as [|Hin]; [auto|].
    apply elem_of_cons in Hin as [[=]|]; auto.
  - intros x w [_ Hw]%lookup_delete_Some a Ha. by eapply H8.
  - intros l1 x w l2 E a Ha. rewrite fmap_app. cbn.
    destruct l2 as [|y l2 _] using rev_ind.
    + apply app_inj_tail in E as [<- [= <- <-]]. destruct (Hauth a Ha) as (Hn & [?|[? ?]] & ?); [by left|right].
      split_and!; [done|by rewrite lookup_delete_ne by done|set_solver].
    + rewrite app_comm_cons, app_assoc in E. apply app_inj_tail in E as [-> _].
      destruct (H9 l1 x w l2 eq_refl a Ha) as [|(? & ? & ?)]; [by left|right].
      assert (a <> id) by congruence.
      split_and!; [done|by rewrite lookup_delete_ne by done|set_solver].
Qed.

Lemma inv_round s w s' w' : Inv w -> round s w = Some (s', w') -> Inv w'.
Proof.
  destruct w as [o f n st]. unfold round. cbn [stack order fetched seen].
  destruct st as [|[id|id] rest]; [done| |].
  - intros HI. case_bool_decide as Hin.
    { intros [= <- <-]. by eapply inv_skip. }
    destruct (visit s id) as [s1 [v|]] eqn:Ev; intros [= <- <-].
    + apply inv_visit; [done|done|]. by eapply visit_rank.
    + eapply inv_skip; [done|set_solver|set_solver].
  - intros HI. pose proof (inv_fetched _ HI id) as Hf. cbn in Hf.
    destruct (f !! id) as [v|] eqn:Ev; intros [= <- <-]; [by apply inv_emit|].
    exfalso. destruct Hf as [[? [=]] _]. by left.
Qed.

Lemma walk_inv fuel s w s' l :
  Inv w -> walk fuel s w = Some (s', l) ->
  NoDup l.*1 /\
  forall l1 id v l2, l = l1 ++ (id, v) :: l2 -> forall a, a ∈ auths v -> a ∈ l1.*1 \/ a ∉ l.*1.
Proof.
  revert s w. induction fuel as [|fuel IH]; intros s w HI E; [done|]. cbn in E.
  destruct (round s w) as [[s1 w1]|] eqn:Er; [eapply IH; [|done]; by eapply inv_round|].
  injection E as <- <-. split; [apply HI|].
  intros l1 id v l2 E a Ha. destruct (inv_before _ HI l1 id v l2 E a Ha) as [|(_ & _ & ?)]; auto.
Qed.

End Walk.
Arguments walk {State Value} visit auths fuel s w.

End FetchGraph.
