(* ===== verification/Timeline.v ===== *)
(** The tables an event ends up in: the timeline, the outliers, the state at each
    event, and each room's current state and forward extremities, with the
    operations that read and change them. They are
    [phantom-service/src/rooms/timeline/append.rs], [timeline/data.rs] and
    [timeline/mod.rs], [rooms/state/mod.rs], [rooms/outlier.rs], [rooms/metadata.rs],
    [rooms/pdu_metadata/data.rs] and [rooms/state_accessor].

    A PDU id is its room and its count, which is what the short room id and the key of
    PduId.v stand for; a state is the map from state keys to event ids that the
    compressed state of StateCompressor.v, under the short ids of Short.v, stands for:
    those files prove that storing and loading gives it back. The network, the clock
    and the outcome of writes whose errors are propagated are the environment [Env];
    every question to it is numbered by [tick], so its answers may change between
    questions. Writes whose errors the code drops ([.ok()]: the rows of
    [db_append_pdu], outliers, soft failures, references and forward extremities) are
    taken to succeed. *)
From S2P Require Import Prelude Order Event PduJson Membership EventAuth StateRes.

Module Timeline.
Import PduJson.

Abbreviation StateMap := (gmap TypeStateKey string) (only parsing).
(** A raw PDU id, by room and count. *)
Abbreviation RawPduId := (string * Z)%type (only parsing).

Inductive error :=
  | WrongLock | NotFound | Forbidden | InvalidParam | UnsupportedRoomVersion | Database
  | AuthError (e : Membership.Error) | Unending.

(** [RoomServerAclEventContent] *)
Record ServerAcl := mkAcl { allow : list string; deny : list string; allow_ip_literals : bool }.

(** [ruma]'s decoders and rules the room services ask beyond those of Event.v. *)
Class RoomFormat := {
  json_server_acl : string -> option ServerAcl;
  (** [RoomServerAclEventContent::is_allowed] *)
  is_allowed : ServerAcl -> string -> bool;
  (** [RoomPowerLevels::user_can_redact_event_of_other] and [_own_event], from the
      content, the version whose rules apply and the creators *)
  user_can_redact_event_of_other : PowerLevels -> RoomVersionId -> list string -> string -> bool;
  user_can_redact_own_event : PowerLevels -> RoomVersionId -> list string -> string -> bool;
  (** The two reads [get_pdu] races: whether the outlier's is the first to answer, at a
      time and for an id. *)
  outlier_first : nat -> string -> bool
}.

(** ** State *)

Record Server := mkServer {
  rooms : gset string;
  pduid_pdu : gmap RawPduId Event;
  eventid_pduid : gmap string RawPduId;
  outliers : gmap string Object;
  purged : gset string;
  softfailed : gset string;
  disabled : gset string;
  bad_events : gmap string (Z * Z);
  event_states : gmap string StateMap;
  room_states : gmap string StateMap;
  leaves : gmap string (gset string);
  referenced : gset (string * string);
  count : Z;
  tick : nat
}.

Record Env := mkEnv {
  (** [Instant::now] *)
  now : nat -> Z;
  (** Whether a write or load whose error is propagated succeeds. *)
  works : nat -> bool;
  (** [get_event], [get_missing_events] and [get_room_state_ids] of a server; the
      bodies as the JSON objects they parse to. *)
  get_event : nat -> string -> string -> option Object;
  get_missing_events : nat -> string -> gset string -> string -> option (list Object);
  get_room_state_ids : nat -> string -> string -> option (list string * list string);
  (** [server_keys::verify_event] *)
  verify_event : nat -> Object -> RoomVersionId -> option Verified;
  (** [server_is_ours], [moderation::forbids] *)
  server_is_ours : string -> bool;
  forbids : string -> bool
}.

(** ** Computations *)

(** A computation on the server that may fail; what it has done stays done. *)
Definition M (A : Type) : Type := Server -> Server * result error A.

#[export] Instance M_ret : MRet M := fun A a s => (s, Ok a).
#[export] Instance M_bind : MBind M := fun A B f m s =>
  match m s with (s, Ok a) => f a s | (s, Err e) => (s, Err e) end.

Definition raise {A} (e : error) : M A := fun s => (s, Err e).
Definition gets {A} (f : Server -> A) : M A := fun s => (s, Ok (f s)).
Definition lift {A} (f : Server -> result error A) : M A := fun s => (s, f s).
Definition modify (f : Server -> Server) : M unit := fun s => (f s, Ok ()).
(** [.ok()] *)
Definition attempt {A} (m : M A) : M (option A) := fun s =>
  match m s with (s, Ok a) => (s, Ok (Some a)) | (s, Err _) => (s, Ok None) end.
Definition require {A} (o : option A) (e : error) : M A := fun s => (s, ok_or o e).

(** Setters. *)
Definition set_timeline p i (s : Server) : Server :=
  mkServer (rooms s) p i (outliers s) (purged s) (softfailed s) (disabled s) (bad_events s)
    (event_states s) (room_states s) (leaves s) (referenced s) (count s) (tick s).
Definition set_outliers o (s : Server) : Server :=
  mkServer (rooms s) (pduid_pdu s) (eventid_pduid s) o (purged s) (softfailed s) (disabled s)
    (bad_events s) (event_states s) (room_states s) (leaves s) (referenced s) (count s) (tick s).
Definition set_softfailed x (s : Server) : Server :=
  mkServer (rooms s) (pduid_pdu s) (eventid_pduid s) (outliers s) (purged s) x (disabled s)
    (bad_events s) (event_states s) (room_states s) (leaves s) (referenced s) (count s) (tick s).
Definition set_bad_events x (s : Server) : Server :=
  mkServer (rooms s) (pduid_pdu s) (eventid_pduid s) (outliers s) (purged s) (softfailed s)
    (disabled s) x (event_states s) (room_states s) (leaves s) (referenced s) (count s) (tick s).
Definition set_event_states x (s : Server) : Server :=
  mkServer (rooms s) (pduid_pdu s) (eventid_pduid s) (outliers s) (purged s) (softfailed s)
    (disabled s) (bad_events s) x (room_states s) (leaves s) (referenced s) (count s) (tick s).
Definition set_room_states x (s : Server) : Server :=
  mkServer (rooms s) (pduid_pdu s) (eventid_pduid s) (outliers s) (purged s) (softfailed s)
    (disabled s) (bad_events s) (event_states s) x (leaves s) (referenced s) (count s) (tick s).
Definition set_leaves x (s : Server) : Server :=
  mkServer (rooms s) (pduid_pdu s) (eventid_pduid s) (outliers s) (purged s) (softfailed s)
    (disabled s) (bad_events s) (event_states s) (room_states s) x (referenced s) (count s) (tick s).
Definition set_referenced x (s : Server) : Server :=
  mkServer (rooms s) (pduid_pdu s) (eventid_pduid s) (outliers s) (purged s) (softfailed s)
    (disabled s) (bad_events s) (event_states s) (room_states s) (leaves s) x (count s) (tick s).
Definition set_count x (s : Server) : Server :=
  mkServer (rooms s) (pduid_pdu s) (eventid_pduid s) (outliers s) (purged s) (softfailed s)
    (disabled s) (bad_events s) (event_states s) (room_states s) (leaves s) (referenced s) x (tick s).
Definition set_tick x (s : Server) : Server :=
  mkServer (rooms s) (pduid_pdu s) (eventid_pduid s) (outliers s) (purged s) (softfailed s)
    (disabled s) (bad_events s) (event_states s) (room_states s) (leaves s) (referenced s) (count s) x.

(** A question to the environment. *)
Definition ask {A} (f : nat -> A) : M A := fun s => (set_tick (S (tick s)) s, Ok (f (tick s))).

(** ** Reads *)

Section Reads.
Context `{Identifiers, Json, PduFormat, RoomFormat}.

Definition get_non_outlier_pdu (s : Server) (id : string) : option Event :=
  pdu_id ← eventid_pduid s !! id; pduid_pdu s !! pdu_id.

Definition get_pdu_outlier (s : Server) (id : string) : option Event :=
  outliers s !! id ≫= pdu_of_json.

(** [select_ok]: the accepted copy or the outlier, whichever read succeeds first. *)
Definition get_pdu (s : Server) (id : string) : option Event :=
  match get_non_outlier_pdu s id, get_pdu_outlier s id with
  | Some pdu, Some outlier => Some (if outlier_first (tick s) id then outlier else pdu)
  | Some pdu, None => Some pdu
  | None, outlier => outlier
  end.

Definition pdu_exists (s : Server) (id : string) : bool :=
  bool_decide (is_Some (get_non_outlier_pdu s id)) || bool_decide (is_Some (outliers s !! id)).

(** What [get_pdu] returns, as one map. *)
Definition store_of (s : Server) : gmap string Event :=
  let accepted := omap (fun pdu_id => pduid_pdu s !! pdu_id) (eventid_pduid s) in
  let outlier := omap pdu_of_json (outliers s) in
  filter (fun e : string * Event => outlier_first (tick s) e.1 = true) outlier ∪ (accepted ∪ outlier).

Lemma store_of_get_pdu s id : store_of s !! id = get_pdu s id.
Proof.
  unfold store_of, get_pdu, get_non_outlier_pdu, get_pdu_outlier.
  set (a := omap _ (eventid_pduid s)). set (o := omap _ (outliers s)).
  assert (Ha : a !! id = eventid_pduid s !! id ≫= fun pid => pduid_pdu s !! pid) by apply lookup_omap.
  assert (Ho : o !! id = outliers s !! id ≫= pdu_of_json) by apply lookup_omap.
  rewrite <-Ha, <-Ho, !lookup_union, map_lookup_filter.
  destruct (a !! id), (o !! id); cbn; try done; by case_guard; destruct (outlier_first (tick s) id).
Qed.

(** The PDU ids of a room, oldest first. *)
Definition room_counts (s : Server) (room : string) : list Z :=
  sort_by_key id ((map_to_list (pduid_pdu s)).*1 ≫=
    fun k : RawPduId => if bool_decide (k.1 = room) then [k.2] else []).

(** [metadata::exists] *)
Definition room_exists (s : Server) (room : string) : bool :=
  bool_decide (room ∈ rooms s) && bool_decide (room_counts s room <> []).

Definition first_pdu_in_room (s : Server) (room : string) : result error Event :=
  match room_counts s room with
  | [] => Err NotFound
  | n :: _ => ok_or (pduid_pdu s !! (room, n)) NotFound
  end.

Definition room_state_get (s : Server) (room ty key : string) : option Event :=
  state ← room_states s !! room; id ← state !! (ty, key); get_pdu s id.

Definition get_room_version (s : Server) (room : string) : result error RoomVersionId :=
  ok_or (create ← room_state_get s room RoomCreate ""; fst <$> json_create_version (content create))
    NotFound.

(** Answers the version whose rules apply and the creators. *)
Definition power_level_context (s : Server) (room : string) : RoomVersionId * list string :=
  match room_state_get s room RoomCreate "" with
  | None => (IdV1, [])
  | Some create =>
      match json_create_version (content create) with
      | None => (IdV1, [])
      | Some (version, additional) =>
          (if has_rules version then version else IdV1, sender create :: additional)
      end
  end.

Definition RoomServerAcl : string := "m.room.server_acl".

Definition user_can_redact (s : Server) (redacted user room : string) (federation : bool) :
    result error bool :=
  let target := get_pdu s redacted in
  let target_is f := match target with Some pdu => f pdu | None => false end in
  if target_is (fun pdu => negb (bool_decide (room_id pdu = room))) then Ok false else
  if target_is (fun pdu => bool_decide (event_type pdu = RoomCreate)) then Err Forbidden else
  if target_is (fun pdu => bool_decide (event_type pdu = RoomServerAcl)) then Err Forbidden else
  match room_state_get s room RoomPowerLevels "" ≫= (fun pl => json_power_levels (content pl)) with
  | Some levels =>
      let '(version, creators) := power_level_context s room in
      Ok (user_can_redact_event_of_other levels version creators user
          || user_can_redact_own_event levels version creators user
             && target_is (fun pdu =>
                  if federation
                  then bool_decide (user_server_name (sender pdu) = user_server_name user)
                  else bool_decide (sender pdu = user)))
  | None =>
      match room_state_get s room RoomCreate "" with
      | Some create =>
          Ok (bool_decide (sender create = user)
              || target_is (fun pdu => bool_decide (sender pdu = user)))
      | None => Err Database
      end
  end.

End Reads.

(** ** Writes *)

Section Writes.
Context `{Identifiers, Json, Signatures, PduFormat, RoomFormat}.
Context (env : Env).

(** A step whose failure the caller propagates. *)
Definition fallible : M unit := ok ← ask (works env); if ok : bool then mret () else raise Database.

Definition add_pdu_outlier (id : string) (pdu : Object) : M unit :=
  modify (fun s => set_outliers (<[id := pdu]> (outliers s)) s).

Definition mark_as_referenced (room : string) (ids : list string) : M unit :=
  modify (fun s => set_referenced (list_to_set (pair room <$> ids) ∪ referenced s) s).

Definition set_forward_extremities (room : string) (ids : gset string) : M unit :=
  modify (fun s => set_leaves (<[room := ids]> (leaves s)) s).

Definition set_event_state (id : string) (state : StateMap) : M unit :=
  fallible ;; modify (fun s => set_event_states (<[id := state]> (event_states s)) s).

(** [server_state::next_count]; like the counter of Short.v it fails at the last number
    and when the number is not stored. *)
Definition next_count : M Z :=
  c ← gets count;
  n ← require (u64_checked_add c 1) Database;
  fallible ;; modify (fun s => set_count n s) ;; mret n.

(** [Data::append_pdu] *)
Definition db_append_pdu (pdu_id : RawPduId) (pdu : Event) : M unit :=
  modify (fun s => set_timeline (<[pdu_id := pdu]> (pduid_pdu s))
                     (<[event_id pdu := pdu_id]> (eventid_pduid s)) s) ;;
  modify (fun s => set_outliers (delete (event_id pdu) (outliers s)) s).

(** [Service::insert]; the read receipt's write is the second fallible step. *)
Definition insert_pdu (pdu : Event) : M RawPduId :=
  next_count ;; fallible ;;
  n ← next_count;
  let pdu_id := (room_id pdu, n) in
  db_append_pdu pdu_id pdu ;; mret pdu_id.

(** What can fail of [add_prev_content]; it changes [unsigned] only. *)
Definition add_prev_content (pdu : Event) (pdu_json : Object) : M unit :=
  match state_key pdu with
  | None => mret ()
  | Some key =>
      match default (CObject []) (pdu_json !! "unsigned") with
      | CObject _ =>
          s ← gets id;
          match (state ← event_states s !! event_id pdu;
                 prev ← (state : StateMap) !! (event_type pdu, key); get_pdu s prev) with
          | None => mret ()
          | Some prev => require (json_canonical_object (content prev)) Database ;; mret ()
          end
      | _ => raise Database
      end
  end.

(** [PduEvent::redact] and [Data::replace_pdu], for an event that is in the timeline;
    the fallible step is its removal from the search index. *)
Definition redact_pdu (target : string) (reason : Event) : M unit :=
  s ← gets id;
  match eventid_pduid s !! target with
  | None => mret ()
  | Some pdu_id =>
      pdu ← require (pduid_pdu s !! pdu_id) Database;
      if negb (bool_decide (room_id pdu = room_id reason)) then mret () else
      fallible ;;
      version ← lift (fun s => get_room_version s (room_id pdu));
      if negb (has_rules version) then raise UnsupportedRoomVersion else
      body ← require (redact_content version pdu) Database;
      modify (fun s => set_timeline
        (<[pdu_id := mkEvent (event_id pdu) (room_id pdu) (sender pdu) (origin_server_ts pdu)
             (event_type pdu) body (state_key pdu) (prev_events pdu) (auth_events pdu)
             (redacts pdu)]> (pduid_pdu s)) (eventid_pduid s) s)
  end.

Definition act_on_redaction (pdu : Event) : M unit :=
  version ← lift (fun s => get_room_version s (room_id pdu));
  target ← (if redacts_at_top version then mret (redacts pdu)
            else require (json_redacts (content pdu)) Database);
  match target with
  | None => mret ()
  | Some target =>
      permitted ← lift (fun s => user_can_redact s target (sender pdu) (room_id pdu) false);
      if permitted : bool then redact_pdu target pdu else mret ()
  end.

(** [act_on_kind], as far as it changes the tables here. *)
Definition act_on_kind (pdu : Event) : M unit :=
  if bool_decide (event_type pdu = RoomRedaction) then act_on_redaction pdu else mret ().

Definition append_pdu (pdu : Event) (pdu_json : Object) (leafs : gset string) : M RawPduId :=
  s ← gets id;
  if negb (bool_decide (room_id pdu ∈ rooms s)) then raise Database else
  (if bool_decide (is_Some (state_key pdu)) then add_prev_content pdu pdu_json else mret ()) ;;
  mark_as_referenced (room_id pdu) (prev_events pdu) ;;
  set_forward_extremities (room_id pdu) leafs ;;
  pdu_id ← insert_pdu pdu;
  attempt (act_on_kind pdu) ;;
  mret pdu_id.

Definition append_incoming_pdu (pdu : Event) (pdu_json : Object) (leafs : gset string)
    (state : StateMap) (soft_fail : bool) : M (option RawPduId) :=
  set_event_state (event_id pdu) state ;;
  if soft_fail then mark_as_referenced (room_id pdu) (prev_events pdu) ;; mret None
  else pdu_id ← append_pdu pdu pdu_json leafs; mret (Some pdu_id).

(** [save_state] and [force_state]: the state is saved and the membership cache
    updated before the room's state is replaced. *)
Definition install_state (room : string) (resolved : StateMap) : M unit :=
  fallible ;; fallible ;;
  modify (fun s => set_room_states (<[room := resolved]> (room_states s)) s).

End Writes.
End Timeline.
