(* ===== verification/Handler.v ===== *)
(** The event handler, [phantom-service/src/rooms/event_handler]: an event from another
    server is verified, authorized against its own auth events and kept as an outlier;
    the gap before it is filled; it is authorized against the state at it and against the
    current state, and then placed in the timeline or soft-failed ([mod.rs],
    [outliers.rs], [prev.rs], [state.rs], [upgrade.rs], [acl.rs], [parse.rs]).

    The handler runs under the room's federation lock, one event at a time; the steps
    of other writers are not interleaved here, except in [late_ban] of
    HandlerSample.v. Other servers are the environment of Timeline.v and may answer
    anything. *)
From S2P Require Import Prelude Order Event Backoff PduJson Membership EventAuth StateRes FetchGraph Timeline.

Module Handler.
Import PduJson Timeline FetchGraph.

(** Seconds. *)
Definition MIN_BACKOFF : Z := 60.
Definition MAX_BACKOFF : Z := 60 * 60.

Section Handler.
Context `{Identifiers, Json, Signatures, PduFormat, RoomFormat}.
Context (env : Env).
(** Rounds of the walk over missing auth events. *)
Context (fuel : nat).
(** [federation_prev_event_budget_s], as a duration *)
Context (prev_event_budget : Z).
(** What [get_auth_chain] of AuthChain.v answers, spelled out; empty when it fails. *)
Context (auth_chain_of : gmap string Event -> string -> list string -> gset string).
(** The iteration order of state resolution's hash tables. *)
Context (iter : gset string -> list string) (unordered : list Event -> list Event).

(** ** Bad events *)

Definition elapsed (now last : Z) : Z := Z.max 0 (now - last).

Definition is_backed_off (id : string) : M bool :=
  s ← gets (fun s => s);
  match bad_events s !! id with
  | None => mret false
  | Some (last, tries) =>
      now ← ask (now env);
      mret (Backoff.continue_exponential_backoff_secs MIN_BACKOFF MAX_BACKOFF
              (elapsed now last) tries)
  end.

Definition bad_entry (now : Z) (old : option (Z * Z)) : Z * Z :=
  match old with
  | Some (_, tries) => (now, clamp_range 0 u32_max (tries + 1))
  | None => (now, 1)
  end.

Definition mark_bad (id : string) : M unit :=
  now ← ask (now env);
  modify (fun s => set_bad_events (<[id := bad_entry now (bad_events s !! id)]> (bad_events s)) s).

Definition mark_good (id : string) : M unit :=
  modify (fun s => set_bad_events (delete id (bad_events s)) s).

Definition is_soft_failed (s : Server) (id : string) : bool := bool_decide (id ∈ softfailed s).

Definition mark_soft_failed (id : string) : M unit :=
  modify (fun s => set_softfailed ({[id]} ∪ softfailed s) s).

(** ** Access control lists *)

Definition acl_allows (acl : ServerAcl) (server : string) : bool :=
  bool_decide (allow acl = []) || is_allowed acl server.

Definition acl_check (origin room : string) (s : Server) : result error unit :=
  if server_is_ours env origin then Ok () else
  match room_state_get s room RoomServerAcl "" ≫= (fun acl => json_server_acl (content acl)) with
  | None => Ok ()
  | Some acl => if acl_allows acl origin then Ok () else Err Forbidden
  end.

(** ** Outliers *)

Definition verified (id : string) (value : Object) (version : RoomVersionId) : M Object :=
  if negb (has_rules version) then raise UnsupportedRoomVersion else
  if negb (require_room_create_room_id version)
     && bool_decide (get_str "type" value = Some RoomCreate)
     && bool_decide (is_Some (value !! "room_id"))
  then mark_bad id ;; raise InvalidParam else
  answer ← ask (fun n => verify_event env n value version);
  value ← (match answer with
           | Some All => mret value
           | Some SignaturesOnly => require (redact_json value version) InvalidParam
           | None => mark_bad id ;; raise InvalidParam
           end : M Object);
  mret (insert_derived_room_id (<["event_id" := CString id]> value) id).

(** The loop of [auth_state_of] over the auth events that are known here. *)
Fixpoint auth_state_loop (s : Server) (incoming : Event) (ids : list string)
    (auth_state : gmap TypeStateKey Event) : result error (gmap TypeStateKey Event) :=
  match ids with
  | [] => Ok auth_state
  | id :: ids =>
      match get_pdu s id with
      | None => auth_state_loop s incoming ids auth_state
      | Some auth_event =>
          if negb (bool_decide (room_id auth_event = room_id incoming)) then Err InvalidParam else
          match state_key auth_event with
          | None => Err InvalidParam
          | Some key =>
              let k := with_state_key (event_type auth_event) key in
              if bool_decide (is_Some (auth_state !! k)) then Err InvalidParam
              else auth_state_loop s incoming ids (<[k := auth_event]> auth_state)
          end
      end
  end.

Definition auth_state_of (incoming create_event : Event) (s : Server) :
    result error (gmap TypeStateKey Event) :=
  auth_state ← auth_state_loop s incoming (auth_events incoming) ∅;
  let k := with_state_key RoomCreate "" in
  Ok (match auth_state !! k with
      | Some _ => auth_state
      | None => <[k := create_event]> auth_state
      end).

(** [state_res::auth_check] with its errors as the service's. *)
Definition authorized (rv : RoomVersion) (pdu : Event) (fetch : string -> string -> option Event) :
    result error bool :=
  match EventAuth.auth_check fetch rv pdu with Ok b => Ok b | Err e => Err (AuthError e) end.

(** The gates of [handle_outlier_pdu] for an event that is not held; [fetch_auth] is what
    it does about auth events it may lack. *)
Definition outlier_gates (fetch_auth : Event -> RoomVersionId -> M unit)
    (create_event : Event) (id room : string) (value : Object) : M (Event * Object) :=
  version ← lift (fun s => get_room_version s room);
  rv ← require (new version) UnsupportedRoomVersion;
  value ← verified id value version;
  incoming ← require (from_id_val id value) InvalidParam;
  if negb (bool_decide (room_id incoming = room)) then raise InvalidParam else
  fetch_auth incoming version ;;
  auth_state ← lift (auth_state_of incoming create_event);
  allowed ← lift (fun _ => authorized rv incoming (fun ty key => auth_state !! (ty, key)));
  if negb (allowed : bool) then raise Forbidden else
  add_pdu_outlier id value ;;
  mret (incoming, value).

Definition handle_outlier_with (fetch_auth : Event -> RoomVersionId -> M unit)
    (create_event : Event) (id room : string) (value : Object) : M (Event * Object) :=
  s ← gets (fun s => s);
  match get_pdu_outlier s id, outliers s !! id with
  | Some pdu, Some json => mret (pdu, json)
  | _, _ => outlier_gates fetch_auth create_event id room value
  end.

Definition fetch_event (origin id room : string) (version : RoomVersionId) : M (option Object) :=
  response ← ask (fun n => get_event env n origin id);
  mret (value ← response;
        fetched_id ← gen_event_id value version;
        if negb (bool_decide (fetched_id = id)) then None else
        if negb (bool_decide (room_id_of_pdu_json value = Some room)) then None else
        Some value).

(** What one round of [fetch_auth_graph] does with an id it has not seen. *)
Definition try_fetch (origin room : string) (version : RoomVersionId) (id : string) :
    M (option Object) :=
  s ← gets (fun s => s);
  if pdu_exists s id then mret None else
  backed_off ← is_backed_off id;
  if backed_off : bool then mret None else
  value ← fetch_event origin id room version;
  match value with
  | None => mark_bad id ;; mret None
  | Some value => mret (Some value)
  end.

(** [try_fetch] never fails, so it is a step of the walk. *)
Definition graph_visit (origin room : string) (version : RoomVersionId) (s : Server) (id : string) :
    Server * option Object :=
  match try_fetch origin room version id s with
  | (s, Ok value) => (s, value)
  | (s, Err _) => (s, None)
  end.

Definition fetch_auth_graph (origin : string) (events : list string) (room : string)
    (version : RoomVersionId) : M (list (string * Object)) := fun s =>
  match walk (graph_visit origin room version) auth_event_ids fuel s (start events) with
  | Some (s, order) => (s, Ok order)
  | None => (s, Err Unending)
  end.

(** The loop that handles what was fetched: auth events first. *)
Fixpoint handle_fetched (create_event : Event) (room : string) (fetched : list (string * Object)) :
    M unit :=
  match fetched with
  | [] => mret ()
  | (id, value) :: fetched =>
      handled ← attempt (handle_outlier_with (fun _ _ => mret ()) create_event id room value);
      (match handled with Some _ => mark_good id | None => mark_bad id end) ;;
      handle_fetched create_event room fetched
  end.

Definition fetch_and_handle_outliers (origin : string) (events : list string) (create_event : Event)
    (room : string) (version : RoomVersionId) : M (list Event) :=
  fetched ← fetch_auth_graph origin events room version;
  handle_fetched create_event room fetched ;;
  gets (fun s => omap (get_pdu s) events).

(** [handle_outlier_pdu(.., auth_events_known = false)] *)
Definition handle_outlier_pdu (origin : string) (create_event : Event) (id room : string)
    (value : Object) : M (Event * Object) :=
  handle_outlier_with
    (fun incoming version =>
       fetch_and_handle_outliers origin (auth_events incoming) create_event room version ;; mret ())
    create_event id room value.

(** ** The state at an event *)

(** [state.insert(shortstatekey(pdu), pdu.event_id)], for a state event *)
Definition apply_state (pdu : Event) (id : string) (state : StateMap) : StateMap :=
  match state_key pdu with
  | Some key => <[with_state_key (event_type pdu) key := id]> state
  | None => state
  end.

Definition state_at_incoming_degree_one (prev : string) (s : Server) : option StateMap :=
  state ← event_states s !! prev;
  prev_pdu ← get_pdu s prev;
  Some (apply_state prev_pdu prev state).

(** The state and auth chain after each previous event. [None]: one is missing. *)
Fixpoint fork_states (s : Server) (room : string) (prevs : list string) :
    option (list StateMap * list (gset string)) :=
  match prevs with
  | [] => Some ([], [])
  | prev :: prevs =>
      prev_pdu ← get_pdu s prev;
      state ← event_states s !! prev;
      let leaf_state := apply_state prev_pdu prev state in
      let chain := auth_chain_of (store_of s) room (map_to_list leaf_state).*2 in
      '(states, chains) ← fork_states s room prevs;
      Some (leaf_state :: states, chain :: chains)
  end.

Definition resolve_with (s : Server) (version : RoomVersionId) (states : list StateMap)
    (chains : list (gset string)) : result error StateMap :=
  match StateRes.resolve (store_of s) (pdu_exists s) iter unordered version states chains with
  | Ok state => Ok state
  | Err _ => Err Database
  end.

Definition state_at_incoming_resolved (incoming : Event) (room : string) (version : RoomVersionId)
    (s : Server) : result error (option StateMap) :=
  match fork_states s room (prev_events incoming) with
  | None => Ok None
  | Some (states, chains) => Some <$> resolve_with s version states chains
  end.

(** The state another server answers, from the events it named. [None]: two events for
    one key. *)
Fixpoint collect_state (events : list Event) (state : StateMap) : option StateMap :=
  match events with
  | [] => Some state
  | pdu :: events =>
      match state_key pdu with
      | None => collect_state events state
      | Some key =>
          let k := with_state_key (event_type pdu) key in
          match state !! k with
          | Some previous =>
              if bool_decide (previous = event_id pdu) then collect_state events state else None
          | None => collect_state events (<[k := event_id pdu]> state)
          end
      end
  end.

Definition fetch_state (origin : string) (create_event : Event) (room : string)
    (version : RoomVersionId) (id : string) : M (option StateMap) :=
  response ← ask (fun n => get_room_state_ids env n origin id);
  match response with
  | None => mret None
  | Some (auth_chain_ids, pdu_ids) =>
      fetch_and_handle_outliers origin auth_chain_ids create_event room version ;;
      events ← fetch_and_handle_outliers origin pdu_ids create_event room version;
      mret (state ← collect_state events ∅;
            if bool_decide (is_Some ((state : StateMap) !! with_state_key RoomCreate ""))
            then Some state else None)
  end.

Definition state_at_event (incoming create_event : Event) (origin room : string)
    (version : RoomVersionId) : M StateMap :=
  s ← gets (fun s => s);
  local ← (match prev_events incoming with
           | [prev] => mret (state_at_incoming_degree_one prev s)
           | _ => lift (state_at_incoming_resolved incoming room version)
           end : M (option StateMap));
  match local with
  | Some state => mret state
  | None =>
      fetched ← fetch_state origin create_event room version (event_id incoming);
      require fetched NotFound
  end.

Definition resolve_state (room : string) (version : RoomVersionId) (incoming_state : StateMap)
    (s : Server) : result error StateMap :=
  current_state ← ok_or (room_states s !! room) Database;
  let states := [current_state; incoming_state] in
  let chains := (fun state : StateMap =>
    auth_chain_of (store_of s) room (map_to_list state).*2) <$> states in
  resolve_with s version states chains.

(** ** Into the timeline *)

Definition state_fetch (s : Server) (state : StateMap) (ty key : string) : option Event :=
  id ← state !! (ty, key); get_pdu s id.

(** The forward extremities the event leaves: it supersedes its previous events. *)
Definition extremities (room : string) (incoming : Event) (s : Server) : gset string :=
  filter (fun id => pdu_exists s id = true)
    (default ∅ (leaves s !! room) ∖ list_to_set (prev_events incoming)).

(** The half of [upgrade_outlier_to_timeline_pdu] before the room's state lock: the
    state at the event and whether it is soft-failed. *)
Definition upgrade_check (incoming create_event : Event) (origin room : string)
    (version : RoomVersionId) (rv : RoomVersion) : M (StateMap * bool) :=
  state ← state_at_event incoming create_event origin room version;
  allowed ← lift (fun s => authorized rv incoming (state_fetch s state));
  if negb (allowed : bool) then raise Forbidden else
  allowed_now ← lift (fun s => authorized rv incoming (room_state_get s room));
  soft_fail ← (match allowed_now : bool, redacts_id incoming version with
               | false, _ => mret true
               | true, None => mret false
               | true, Some redacted =>
                   permitted ← lift (fun s => user_can_redact s redacted (sender incoming) room true);
                   mret (negb permitted)
               end : M bool);
  mret (state, soft_fail).

(** The half under the lock. *)
Definition upgrade_commit (incoming : Event) (value : Object) (room : string)
    (version : RoomVersionId) (state : StateMap) (soft_fail : bool) : M (option RawPduId) :=
  if soft_fail then
    append_incoming_pdu env incoming value ∅ state true ;;
    mark_soft_failed (event_id incoming) ;;
    mret None
  else
    kept ← gets (extremities room incoming);
    (if bool_decide (is_Some (state_key incoming)) then
       resolved ← lift (resolve_state room version (apply_state incoming (event_id incoming) state));
       install_state env room resolved
     else mret ()) ;;
    append_incoming_pdu env incoming value ({[event_id incoming]} ∪ kept) state false.

Definition upgrade_outlier_to_timeline_pdu (incoming : Event) (value : Object) (create_event : Event)
    (origin room : string) : M (option RawPduId) :=
  s ← gets (fun s => s);
  match eventid_pduid s !! event_id incoming with
  | Some pdu_id => mret (Some pdu_id)
  | None =>
      if is_soft_failed s (event_id incoming) then mret None else
      version ← lift (fun s => get_room_version s room);
      rv ← require (new version) UnsupportedRoomVersion;
      '(state, soft_fail) ← upgrade_check incoming create_event origin room version rv;
      upgrade_commit incoming value room version state soft_fail
  end.

(** ** The gap before an event *)

(** One previous event: in the timeline or purged, an outlier, or missing. *)
Definition gap_step (s : Server) (acc : gmap string Event * list string) (id : string) :
    gmap string Event * list string :=
  let '(held, missing) := acc in
  if bool_decide (is_Some (eventid_pduid s !! id)) || bool_decide (id ∈ purged s) then (held, missing)
  else match get_pdu_outlier s id with
       | Some pdu => (<[id := pdu]> held, missing)
       | None => (held, missing ++ [id])
       end.

(** The previous events that are not in the timeline, split into outliers and missing. *)
Definition gap_before (incoming : Event) (s : Server) : gmap string Event * list string :=
  foldl (gap_step s) (∅, []) (prev_events incoming).

Definition accept_gap_event (origin room id : string) (value : Object) : M (option Event) :=
  s ← gets (fun s => s);
  match room_state_get s room RoomCreate "" with
  | None => mret None
  | Some create_event =>
      handled ← attempt (handle_outlier_pdu origin create_event id room value);
      match handled with
      | Some (pdu, _) => mret (Some pdu)
      | None => mark_bad id ;; mret None
      end
  end.

(** The loop over the events of a [get_missing_events] response. *)
Fixpoint accept_gap_events (origin room : string) (version : RoomVersionId) (events : list Object)
    (wanted : gset string) (found : gmap string Event) : M (gset string * gmap string Event) :=
  match events with
  | [] => mret (wanted, found)
  | value :: events =>
      match gen_event_id value version with
      | None => accept_gap_events origin room version events wanted found
      | Some id =>
          accepted ← accept_gap_event origin room id value;
          match accepted with
          | Some pdu => accept_gap_events origin room version events (wanted ∖ {[id]}) (<[id := pdu]> found)
          | None => accept_gap_events origin room version events wanted found
          end
      end
  end.

Definition fetch_missing_events (origin room : string) (version : RoomVersionId) (incoming : Event)
    (missing : list string) : M (gmap string Event) :=
  s ← gets (fun s => s);
  let earliest := default ∅ (leaves s !! room) in
  response ← ask (fun n => get_missing_events env n origin earliest (event_id incoming));
  '(wanted, found) ← accept_gap_events origin room version (default [] response)
                       (list_to_set missing) ∅;
  gets (fun s => foldr (fun id found =>
      match get_pdu s id with Some pdu => <[id := pdu]> found | None => found end)
    found (elements wanted)).

Definition sorted_oldest_first (events : gmap string Event) : list (string * Event) :=
  sort_by_key (fun e : string * Event => (origin_server_ts e.2, e.1)) (map_to_list events).

(** The loop of [fill_gap]. *)
Fixpoint place_gap (origin : string) (create_event : Event) (room : string) (first_ts started : Z)
    (events : list (string * Event)) : M unit :=
  match events with
  | [] => mret ()
  | (id, pdu) :: events =>
      now ← ask (now env);
      if prev_event_budget <? elapsed now started then mret () else
      if origin_server_ts pdu <? first_ts then place_gap origin create_event room first_ts started events else
      s ← gets (fun s => s);
      if bool_decide (is_Some (eventid_pduid s !! id)) || bool_decide (id ∈ purged s)
      then place_gap origin create_event room first_ts started events else
      match outliers s !! id with
      | None => place_gap origin create_event room first_ts started events
      | Some value =>
          attempt (upgrade_outlier_to_timeline_pdu pdu value create_event origin room) ;;
          place_gap origin create_event room first_ts started events
      end
  end.

Definition fill_gap (origin : string) (create_event : Event) (room : string) (version : RoomVersionId)
    (incoming : Event) (first_ts : Z) : M unit :=
  started ← ask (now env);
  '(held, missing) ← gets (gap_before incoming);
  if bool_decide (missing = []) && bool_decide (held = ∅) then mret () else
  events ← (match missing with
            | [] => mret ∅
            | _ => fetch_missing_events origin room version incoming missing
            end : M (gmap string Event));
  place_gap origin create_event room first_ts started
    (sorted_oldest_first (events ∪ held)).

(** ** Taking an event in *)

(** [parse_incoming_pdu], of a body that is a JSON object *)
Definition parse_incoming_pdu (value : Object) (s : Server) : result error (string * Object * string) :=
  room ← ok_or (room_id_of_pdu_json value) InvalidParam;
  version ← get_room_version s room;
  id ← ok_or (gen_event_id value version) InvalidParam;
  Ok (id, value, room).

(** The guards of [handle_incoming_pdu] on the room and the servers involved. *)
Definition admission (origin room : string) (value : Object) (s : Server) : result error unit :=
  if negb (room_exists s room) then Err NotFound else
  if bool_decide (room ∈ disabled s) then Err Forbidden else
  acl_check origin room s ≫= fun _ =>
  (match get_str "sender" value with
   | Some user =>
       if valid_user_id user && negb (bool_decide (user_server_name user = origin))
       then acl_check (user_server_name user) room s else Ok ()
   | None => Ok ()
   end) ≫= fun _ =>
  if forbids env origin then Err Forbidden else Ok ().

(** [lock_room]: the room whose federation lock the caller holds. *)
Definition handle_incoming_pdu (lock_room origin room id : string) (value : Object)
    (is_timeline_event : bool) : M (option RawPduId) :=
  if negb (bool_decide (lock_room = room)) then raise WrongLock else
  s ← gets (fun s => s);
  match eventid_pduid s !! id with
  | Some pdu_id => mret (Some pdu_id)
  | None =>
      if bool_decide (id ∈ purged s) then mret None else
      lift (admission origin room value) ;;
      create_event ← require (room_state_get s room RoomCreate "") Database;
      version ← lift (fun s => get_room_version s room);
      first ← lift (fun s => first_pdu_in_room s room);
      let first_ts := origin_server_ts first in
      '(incoming, value) ← handle_outlier_pdu origin create_event id room value;
      if is_timeline_event && (origin_server_ts incoming <? first_ts) then mret None else
      fill_gap origin create_event room version incoming first_ts ;;
      upgrade_outlier_to_timeline_pdu incoming value create_event origin room
  end.

End Handler.
End Handler.
