(* ===== verification/HandlerFacts.v ===== *)
(** What the event handler guarantees, whatever other servers answer and wherever a write
    whose error is propagated fails: handling an event is a run of deeds (an outlier kept,
    an event placed or soft-failed), each checked in the state the run had reached; the
    tables stay well-formed, refused events leave no trace and events are taken in once. *)
From S2P Require Import Prelude Order Event Backoff PduJson Membership EventAuth StateRes FetchGraph Timeline Handler.

Module HandlerFacts.
Import PduJson Timeline FetchGraph Handler.

(** ** Reasoning about computations *)

(** [m] moves the server along [R], from states where [P] holds. *)
Definition moves {A} (P : Server -> Prop) (R : Server -> Server -> Prop) (m : M A) : Prop :=
  forall s, P s -> R s (m s).1.

Lemma bind_fst {A B} (m : M A) (f : A -> M B) s :
  (m ≫= f) s = match m s with (s', Ok a) => f a s' | (s', Err e) => (s', Err e) end.
Proof. done. Qed.

(** A successful computation, step by step. *)
Lemma bind_inv {A B} (m : M A) (f : A -> M B) s s' b :
  (m ≫= f) s = (s', Ok b) -> exists s1 a, m s = (s1, Ok a) /\ f a s1 = (s', Ok b).
Proof. rewrite bind_fst. destruct (m s) as [s1 [a|e]]; [eauto|done]. Qed.

Section Moves.
Context (P : Server -> Prop) (R : Server -> Server -> Prop).
Context `{!Reflexive R, !Transitive R}.
Hypothesis P_R : forall s s', P s -> R s s' -> P s'.

Lemma moves_refl {A} (m : M A) : (forall s, (m s).1 = s) -> moves P R m.
Proof. intros Hm s _. by rewrite Hm. Qed.

Lemma moves_bind {A B} (m : M A) (f : A -> M B) :
  moves P R m -> (forall a, moves P R (f a)) -> moves P R (m ≫= f).
Proof.
  intros Hm Hf s Hs. rewrite bind_fst. specialize (Hm s Hs).
  destruct (m s) as [s1 [a|e]]; [|done]. cbn in Hm. transitivity s1; [done|].
  apply Hf. by eapply P_R.
Qed.

(** With what the first step returned. *)
Lemma moves_bind_with {A B} (m : M A) (f : A -> M B) s :
  R s (m s).1 -> (forall a s1, m s = (s1, Ok a) -> R s1 (f a s1).1) -> R s ((m ≫= f) s).1.
Proof.
  intros Hm Hf. rewrite bind_fst. destruct (m s) as [s1 [a|e]] eqn:E; [|done]. cbn in *.
  transitivity s1; [done|by apply Hf].
Qed.

Lemma moves_attempt {A} (m : M A) : moves P R m -> moves P R (attempt m).
Proof. intros Hm s Hs. specialize (Hm s Hs). unfold attempt. by destruct (m s) as [s1 [a|e]]. Qed.

End Moves.

(** With a property of the state reached so far. *)
Lemma bind_along {A B} (Q : Server -> Prop) (m : M A) (f : A -> M B) s :
  Q (m s).1 -> (forall a s1, m s = (s1, Ok a) -> Q s1 -> Q (f a s1).1) -> Q ((m ≫= f) s).1.
Proof.
  intros Hm Hf. rewrite bind_fst. destruct (m s) as [s1 [a|e]] eqn:E; [|done]. by apply Hf.
Qed.

(** ** What handling an event may do *)

Section Handling.
Context `{Identifiers, Json, Signatures, PduFormat, !PduFormatLaws, RoomFormat}.
Context (env : Env) (fuel : nat) (budget : Z).
Context (auth_chain_of : gmap string Event -> string -> list string -> gset string).
Context (iter : gset string -> list string) (unordered : list Event -> list Event).
(** The server the event came from, and its room. *)
Context (origin room : string).

(** [v] is the JSON of event [x] as it is stored once its signatures were verified, at
    time [n]: the received object, or its redaction when only the signatures held. *)
Definition signed (version : RoomVersionId) (n : nat) (x : string) (v : Object) : Prop :=
  exists received base,
    (verify_event env n received version = Some All /\ base = received \/
     verify_event env n received version = Some SignaturesOnly /\
       redact_json received version = Some base) /\
    v = insert_derived_room_id (<["event_id" := CString x]> base) x.

(** [a] is an auth event that [e] names and [s] knows, for the state key [k]. *)
Definition names (s : Server) (e : Event) (k : TypeStateKey) (a : Event) : Prop :=
  exists i, i ∈ auth_events e /\ get_pdu s i = Some a /\ event_type a = k.1 /\ state_key a = Some k.2.

(** [m] is the state the auth events of [e] known in [s] make up, with [create] as the
    create event when they have none; all of them are state events of its room. *)
Definition named_state (s : Server) (e create : Event) (m : gmap TypeStateKey Event) : Prop :=
  (forall i a, i ∈ auth_events e -> get_pdu s i = Some a ->
     room_id a = room_id e /\ is_Some (state_key a)) /\
  forall k a, m !! k = Some a <->
    names s e k a \/ (k = (RoomCreate, "") /\ a = create /\ forall a', ~ names s e k a').

(** The object [v] passed the gates for outlier [x], which began in [s0] and ended in [s1]:
    it is signed under the version the room has in [s0], an event of the room, and
    authorized in [s1] by its own auth events and the create event the room has in [t]. *)
Definition vetted (t s0 s1 : Server) (x : string) (v : Object) : Prop :=
  exists version rv e create auth_state,
    get_room_version s0 room = Ok version /\ new version = Some rv /\
    signed version (tick s0) x v /\ from_id_val x v = Some e /\ event_id e = x /\ room_id e = room /\
    room_state_get t room RoomCreate "" = Some create /\ named_state s1 e create auth_state /\
    EventAuth.auth_check (fun ty key => auth_state !! (ty, key)) rv e = Ok true.

(** The state after [e], from the state at it. *)
Definition state_with (e : Event) (state : StateMap) : StateMap :=
  match state_key e with
  | Some key => <[(event_type e, key) := event_id e]> state
  | None => state
  end.

(** [st] is the state after event [p], as [s] knows it. *)
Definition state_after (s : Server) (p : string) (st : StateMap) : Prop :=
  exists e at_p, get_pdu s p = Some e /\ event_states s !! p = Some at_p /\
    st = match state_key e with Some key => <[(event_type e, key) := p]> at_p | None => at_p end.

(** State resolution over what [s] stores. *)
Definition resolves (version : RoomVersionId) (s : Server) (states : list StateMap) (st : StateMap) : Prop :=
  StateRes.resolve (store_of s) (pdu_exists s) iter unordered version states
    ((fun state : StateMap => auth_chain_of (store_of s) room (map_to_list state).*2) <$> states) = Ok st.

(** [state] is what the events [ids] that [s] has make up, one event for a key. *)
Definition listed (s : Server) (ids : list string) (state : StateMap) : Prop :=
  is_Some (state !! (RoomCreate, "")) /\
  forall k x, state !! k = Some x <-> exists i e, i ∈ ids /\ get_pdu s i = Some e /\ event_id e = x /\
    event_type e = k.1 /\ state_key e = Some k.2.

(** [state] is the state at [e] that was determined from [s0] on, in [s1]: that after its
    one previous event, the resolution of those after its several, or, when [s0] lacks
    one, the state events [origin] listed. *)
Definition state_before (version : RoomVersionId) (s0 s1 : Server) (e : Event) (state : StateMap) : Prop :=
  (exists p, prev_events e = [p] /\ state_after s0 p state) \/
  (exists states, (forall p, prev_events e <> [p]) /\
     Forall2 (state_after s0) (prev_events e) states /\ resolves version s0 states state) \/
  ((forall states, ~ Forall2 (state_after s0) (prev_events e) states) /\
     exists chain ids, get_room_state_ids env (tick s0) origin (event_id e) = Some (chain, ids) /\
       listed s1 ids state).

(** [e] is held, and was not decided on before. *)
Definition pending (s : Server) (e : Event) : Prop :=
  is_Some (outliers s !! event_id e) /\ (event_id e ∉ purged s) /\ (event_id e ∉ softfailed s) /\
  eventid_pduid s !! event_id e = None.

(** Checked from [s0] to [s1], [e] with the state [state] at it may enter the timeline: in
    [s1] it passed the auth check against that state and against the room's current
    state, and may make the redaction it makes. *)
Definition admissible (version : RoomVersionId) (s0 s1 : Server) (e : Event) (state : StateMap) : Prop :=
  pending s1 e /\ state_before version s0 s1 e state /\ exists rv,
    new version = Some rv /\
    EventAuth.auth_check (state_fetch s1 state) rv e = Ok true /\
    EventAuth.auth_check (room_state_get s1 room) rv e = Ok true /\
    (forall r, redacts_id e version = Some r -> user_can_redact s1 r (sender e) room true = Ok true).

(** It passed the first check, but not one of the other two. *)
Definition refused_now (version : RoomVersionId) (s0 s1 : Server) (e : Event) (state : StateMap) : Prop :=
  pending s1 e /\ state_before version s0 s1 e state /\ exists rv,
    new version = Some rv /\
    EventAuth.auth_check (state_fetch s1 state) rv e = Ok true /\
    (EventAuth.auth_check (room_state_get s1 room) rv e = Ok false \/
     exists r, redacts_id e version = Some r /\ user_can_redact s1 r (sender e) room true = Ok false).

(** [st] is the room's current state in [s] resolved with the state after [e]. *)
Definition advanced (version : RoomVersionId) (s : Server) (e : Event) (state st : StateMap) : Prop :=
  exists current, room_states s !! room = Some current /\
    resolves version s [current; state_with e state] st.

(** Stored events are the same up to their contents. *)
Definition similar (m m' : gmap RawPduId Event) : Prop := forall pid,
  option_Forall2 (fun e e' => event_id e = event_id e' /\ room_id e = room_id e') (m !! pid) (m' !! pid).

(** Everything but states at events, extremities, references and contents of stored
    events is as before. *)
Record core_same (s s' : Server) : Prop := mkCore {
  c_pdus : similar (pduid_pdu s) (pduid_pdu s');
  c_ids : eventid_pduid s' = eventid_pduid s;
  c_outliers : outliers s' = outliers s;
  c_purged : purged s' = purged s;
  c_soft : softfailed s' = softfailed s;
  c_states : room_states s' = room_states s;
  c_count : count s <= count s'
}.

(** The room's state is advanced by [e] if that is a state event. *)
Definition installed (version : RoomVersionId) (e : Event) (state : StateMap) (s s' : Server) : Prop :=
  (state_key e = None /\ s' = s) \/
  (is_Some (state_key e) /\ exists st, advanced version s e state st /\
     s' = set_room_states (<[room := st]> (room_states s)) s).

(** [e] is in the timeline at [n], and no longer an outlier. *)
Definition placed (n : Z) (e : Event) (s : Server) : Server :=
  set_count n (set_outliers (delete (event_id e) (outliers s))
    (set_timeline (<[(room_id e, n) := e]> (pduid_pdu s))
       (<[event_id e := (room_id e, n)]> (eventid_pduid s)) s)).

(** [e] is placed at a new number, or not at all. *)
Definition ends (e : Event) (s s' : Server) : Prop :=
  core_same s s' \/ exists n, count s < n /\ core_same (placed n e s) s'.

(** Taking an admissible [e] in: its state first, then the event; a failed write ends it. *)
Definition settles (version : RoomVersionId) (e : Event) (state : StateMap) (s s' : Server) : Prop :=
  core_same s s' \/ exists s1, installed version e state s s1 /\ ends e s1 s'.

(** Setting a refused [e] aside; a failed write ends it. *)
Definition set_aside (e : Event) (s s' : Server) : Prop :=
  core_same s s' \/ core_same (set_softfailed ({[event_id e]} ∪ softfailed s) s) s'.

(** What handling does: an object is kept as an outlier; an event is placed; an event is
    soft-failed. Each with the states in which its checks began and ended. *)
Inductive deed :=
  | Keep (t s0 s1 : Server) (x : string) (v : Object)
  | Settle (s0 s1 s2 : Server) (e : Event) (state : StateMap)
  | SoftFail (s0 s1 s2 : Server) (e : Event) (state : StateMap).

Definition legit (d : deed) : Prop :=
  match d with
  | Keep t s0 s1 x v => vetted t s0 s1 x v
  | Settle s0 s1 s2 e state => exists version, get_room_version s0 room = Ok version /\
      admissible version s0 s1 e state /\ settles version e state s1 s2
  | SoftFail s0 s1 s2 e state => exists version, get_room_version s0 room = Ok version /\
      refused_now version s0 s1 e state /\ set_aside e s1 s2
  end.

Definition is_keep (d : deed) : Prop := match d with Keep _ _ _ _ _ => True | _ => False end.

(** [run t s l s']: the server goes from [s] to [s'] by the deeds [l] alone; [t] is the
    state in which the room's create event was last read. What an event's checks gather
    lies between the states in which they begin and end; nothing but outliers is kept
    while an event is checked for the timeline. *)
Inductive run : Server -> Server -> list deed -> Server -> Prop :=
  | run_idle t s n bad : run t s [] (set_tick n (set_bad_events bad s))
  | run_then t s1 s2 s3 l1 l2 : run t s1 l1 s2 -> run t s2 l2 s3 -> run t s1 (l1 ++ l2) s3
  | run_reread t s l s' : run s s l s' -> run t s l s'
  | run_keep t s0 l s1 x v :
      run t s0 l s1 -> legit (Keep t s0 s1 x v) ->
      run t s0 (l ++ [Keep t s0 s1 x v]) (set_outliers (<[x := v]> (outliers s1)) s1)
  | run_settle t s0 l s1 s2 e state :
      run t s0 l s1 -> Forall is_keep l -> legit (Settle s0 s1 s2 e state) ->
      run t s0 (l ++ [Settle s0 s1 s2 e state]) s2
  | run_soft_fail t s0 l s1 s2 e state :
      run t s0 l s1 -> Forall is_keep l -> legit (SoftFail s0 s1 s2 e state) ->
      run t s0 (l ++ [SoftFail s0 s1 s2 e state]) s2.

(** Some deeds that only keep outliers; some deeds. *)
Definition gathers (t s s' : Server) : Prop := exists l, Forall is_keep l /\ run t s l s'.
Definition handles (t s s' : Server) : Prop := exists l, run t s l s'.

Lemma run_refl t s : run t s [] s.
Proof.
  replace s with (set_tick (tick s) (set_bad_events (bad_events s) s)) at 2 by (by destruct s). constructor.
Qed.

#[local] Instance gathers_refl t : Reflexive (gathers t).
Proof. intros s. exists []. split; [done|apply run_refl]. Qed.

#[local] Instance gathers_trans t : Transitive (gathers t).
Proof.
  intros s1 s2 s3 (l1 & K1 & R1) (l2 & K2 & R2). exists (l1 ++ l2).
  split; [by apply Forall_app|by econstructor].
Qed.

#[local] Instance handles_refl t : Reflexive (handles t).
Proof. intros s. exists []. apply run_refl. Qed.

#[local] Instance handles_trans t : Transitive (handles t).
Proof. intros s1 s2 s3 [l1 R1] [l2 R2]. exists (l1 ++ l2). by econstructor. Qed.

Lemma gathers_handles t s s' : gathers t s s' -> handles t s s'.
Proof. intros (l & _ & R). by exists l. Qed.

(** ** Gathering outliers *)

(** Steps that touch only the clock and the bad events. *)
Lemma gathers_idle t s n bad : gathers t s (set_tick n (set_bad_events bad s)).
Proof. exists []. split; [done|constructor]. Qed.

Lemma gathers_ask {A} t (f : nat -> A) s : gathers t s (ask f s).1.
Proof.
  cbn. replace (set_tick (S (tick s)) s) with (set_tick (S (tick s)) (set_bad_events (bad_events s) s))
    by (by destruct s). apply gathers_idle.
Qed.

Lemma gathers_bad t x s : gathers t s (set_bad_events x s).
Proof.
  replace (set_bad_events x s) with (set_tick (tick s) (set_bad_events x s)) by (by destruct s). apply gathers_idle.
Qed.

Definition anyway (s : Server) : Prop := True.

Ltac gather_step :=
  match goal with
  | |- moves _ (gathers _) (_ ≫= _) => eapply moves_bind; [apply _|done| |intros ?]
  | |- moves _ (gathers _) (ask _) => intros ? _; apply gathers_ask
  | |- moves _ (gathers _) (modify (fun s => set_bad_events _ s)) => intros ? _; apply gathers_bad
  | |- moves _ (gathers _) (if ?b then _ else _) => destruct b
  | |- moves _ (gathers _) (match ?x with _ => _ end) => destruct x
  | |- moves _ (gathers _) _ => apply moves_refl; [apply _|done]
  end.
Ltac gather_tac := repeat gather_step.
Ltac gather_all lemmas := repeat first [lemmas | gather_step].

Lemma mark_bad_gathers t x : moves anyway (gathers t) (mark_bad env x).
Proof. unfold mark_bad. gather_tac. Qed.

Lemma mark_good_gathers t x : moves anyway (gathers t) (mark_good x).
Proof. unfold mark_good. gather_tac. Qed.

Lemma verified_gathers t x v version : moves anyway (gathers t) (verified env x v version).
Proof. unfold verified. gather_all ltac:(apply mark_bad_gathers). Qed.

Lemma verified_signed x v version s s' v' :
  verified env x v version s = (s', Ok v') -> signed version (tick s) x v'.
Proof.
  unfold verified. destruct (negb (has_rules _)); [done|].
  destruct (_ && _ && _); [by rewrite bind_fst; destruct (mark_bad _ _ _) as [? []]|].
  intros (s1 & answer & E1 & (s2 & base & E2 & [= <- <-])%bind_inv)%bind_inv.
  injection E1 as <- <-. unfold signed. exists v, base. split; [|done].
  destruct (verify_event env (tick s) v version) as [[]|].
  - injection E2 as _ ->. by left.
  - right. split; [done|]. unfold require in E2. injection E2 as _ E2. by apply ok_or_ok in E2.
  - rewrite bind_fst in E2. by destruct (mark_bad _ _ _) as [? []].
Qed.

(** The loop over the auth events collects exactly those that are known. *)
Lemma auth_loop_spec s e ids m m' :
  auth_state_loop s e ids m = Ok m' ->
  (forall i a, i ∈ ids -> get_pdu s i = Some a -> room_id a = room_id e /\ is_Some (state_key a)) /\
  forall k a, m' !! k = Some a <-> m !! k = Some a \/
    exists i, i ∈ ids /\ get_pdu s i = Some a /\ event_type a = k.1 /\ state_key a = Some k.2.
Proof.
  revert m. induction ids as [|i ids IH]; intros m; cbn.
  { intros [= <-]. split; [set_solver|]. set_solver. }
  destruct (get_pdu s i) as [a|] eqn:Ea.
  2:{ intros E. destruct (IH m E) as [L1 L2]. split.
      - intros j b [->|Hj]%elem_of_cons Hb; [congruence|by eapply L1].
      - intros k b. rewrite L2. setoid_rewrite elem_of_cons. naive_solver congruence. }
  case_bool_decide as Hr; [|done]. cbn [negb]. destruct (state_key a) as [key|] eqn:Ek; [|done].
  case_bool_decide as Hnew; [done|]. intros E. destruct (IH _ E) as [L1 L2]. split.
  - intros j b [->|Hj]%elem_of_cons Hb; [|by eapply L1].
    rewrite Ea in Hb. injection Hb as <-. split; [done|by rewrite Ek].
  - intros [ty key'] b. rewrite L2. unfold with_state_key in *. setoid_rewrite elem_of_cons. cbn.
    destruct (decide ((event_type a, key) = (ty, key'))) as [[= <- <-]|Hne].
    + rewrite lookup_insert_eq. rewrite <-eq_None_not_Some in Hnew. rewrite Hnew. split.
      * intros [[= <-]|(j & Hj & Hb)]; right; [exists i; naive_solver|exists j; naive_solver].
      * intros [|(j & [->|Hj] & Hb & Hty & Hkey)]; [done|left; congruence|right; by exists j].
    + rewrite lookup_insert_ne by done. split.
      * intros [|(j & Hj & Hb)]; [by left|right; exists j; naive_solver].
      * intros [|(j & [->|Hj] & Hb & Hty & Hkey)]; [by left| |right; by exists j].
        destruct Hne. congruence.
Qed.

Lemma auth_state_named s e create m : auth_state_of e create s = Ok m -> named_state s e create m.
Proof.
  unfold auth_state_of. destruct (auth_state_loop s e (auth_events e) ∅) as [m0|] eqn:E; [|done].
  destruct (auth_loop_spec _ _ _ _ _ E) as [L1 L2]. cbn [mbind result_bind].
  assert (Hn : forall k a, m0 !! k = Some a <-> names s e k a).
  { intros k a. rewrite L2, lookup_empty. unfold names. naive_solver. }
  unfold with_state_key. intros [= <-]. split; [done|]. intros k a.
  destruct (m0 !! (RoomCreate, "")) as [c|] eqn:Ec.
  - rewrite Hn. split; [by left|]. intros [|(-> & _ & Hno)]; [done|]. by apply Hn in Ec as ?%Hno.
  - assert (Hno : forall a', ~ names s e (RoomCreate, "") a') by (intros a' Ha'%Hn; congruence).
    destruct (decide (k = (RoomCreate, ""))) as [->|Hne].
    + rewrite lookup_insert_eq. split; [intros [= <-]; by right|]. intros [Ha%Hno|(_ & -> & _)]; done.
    + rewrite lookup_insert_ne by done. rewrite Hn. split; [by left|]. by intros [|(-> & _)].
Qed.

(** Vetting one outlier: the gates, in order. *)
Lemma outlier_gathers t fetch_auth create x v :
  room_state_get t room RoomCreate "" = Some create ->
  (forall e version, moves anyway (gathers t) (fetch_auth e version)) ->
  moves anyway (gathers t) (handle_outlier_with env fetch_auth create x room v).
Proof.
  intros Hc Hfetch s _. unfold handle_outlier_with. rewrite bind_fst. cbn [gets fst].
  enough (Hnew : gathers t s (outlier_gates env fetch_auth create x room v s).1).
  { by destruct (get_pdu_outlier s x), (outliers s !! x). }
  unfold outlier_gates.
  apply (bind_along (gathers t s)); [done|intros version s1 [= <- Ev] _].
  apply (bind_along (gathers t s)); [done|intros rv s1 [= <- Erv] _].
  apply (bind_along (gathers t s)); [by apply verified_gathers|intros v' s1 Es G1].
  apply (bind_along (gathers t s)); [done|intros e s2 [= <- Ee] _].
  case_bool_decide as Hroom; [|done]; cbn [negb].
  apply (bind_along (gathers t s)); [etransitivity; [done|by apply Hfetch]|intros [] s2 _ G2].
  apply (bind_along (gathers t s)); [done|intros auth_state s3 [= <- Eas] _].
  apply (bind_along (gathers t s)); [done|intros allowed s3 [= <- Eal] _].
  destruct allowed; [|done]; cbn [negb].
  apply (bind_along (gathers t s)); [ |done]. destruct G2 as (l & Hl & R).
  exists (l ++ [Keep t s s2 x v']). split; [by apply Forall_app; split; [|repeat constructor]|].
  apply run_keep; [done|]. apply ok_or_ok in Ee, Erv. apply verified_signed in Es.
  unfold authorized in Eal. destruct (EventAuth.auth_check _ rv e) as [b|] eqn:Ea; [|done].
  injection Eal as ->. exists version, rv, e, create, auth_state.
  split_and!; try done; [by eapply from_id_val_id|by apply auth_state_named].
Qed.

Lemma backed_off_gathers t x : moves anyway (gathers t) (is_backed_off env x).
Proof. unfold is_backed_off. gather_tac. Qed.

Lemma try_fetch_gathers t version x : moves anyway (gathers t) (try_fetch env origin room version x).
Proof.
  unfold try_fetch, fetch_event.
  gather_all ltac:(first [apply backed_off_gathers | apply mark_bad_gathers]).
Qed.

Lemma graph_gathers t events version :
  moves anyway (gathers t) (fetch_auth_graph env fuel origin events room version).
Proof.
  intros s _. unfold fetch_auth_graph. destruct (walk _ _ _ _ _) as [[s' l]|] eqn:E; [|done].
  eapply (walk_moves _ _ (gathers t)); [|done]. intros s1 x.
  pose proof (try_fetch_gathers t version x s1 ltac:(done)) as Hq.
  unfold graph_visit. by destruct (try_fetch _ _ _ _ _ _) as [? []].
Qed.

(** With the create event read in [t]. *)
Section Created.
Context (t : Server) (create : Event).
Context (Hcreate : room_state_get t room RoomCreate "" = Some create).

Lemma fetched_gathers l : moves anyway (gathers t) (handle_fetched env create room l).
Proof.
  induction l as [|[x v] l IH]; [by apply moves_refl; [apply _|]|]. cbn [handle_fetched].
  eapply moves_bind; [apply _|done| |intros handled].
  - apply moves_attempt. apply outlier_gathers; [done|]. intros e version. gather_tac.
  - eapply moves_bind; [apply _|done| |intros _; apply IH].
    destruct handled; [apply mark_good_gathers|apply mark_bad_gathers].
Qed.

Lemma fetch_and_handle_gathers events version :
  moves anyway (gathers t) (fetch_and_handle_outliers env fuel origin events create room version).
Proof.
  unfold fetch_and_handle_outliers. gather_all ltac:(first [apply graph_gathers | apply fetched_gathers]).
Qed.

Lemma outlier_pdu_gathers x v :
  moves anyway (gathers t) (handle_outlier_pdu env fuel origin create x room v).
Proof.
  apply outlier_gathers; [done|]. intros e version. gather_all ltac:(apply fetch_and_handle_gathers).
Qed.

Lemma fetch_state_gathers version x :
  moves anyway (gathers t) (fetch_state env fuel origin create room version x).
Proof. unfold fetch_state. gather_all ltac:(apply fetch_and_handle_gathers). Qed.

Lemma state_at_gathers e version :
  moves anyway (gathers t) (state_at_event env fuel auth_chain_of iter unordered e create origin room version).
Proof. unfold state_at_event. gather_all ltac:(apply fetch_state_gathers). Qed.

Lemma upgrade_check_gathers e version rv :
  moves anyway (gathers t)
    (upgrade_check env fuel auth_chain_of iter unordered e create origin room version rv).
Proof. unfold upgrade_check. gather_all ltac:(apply state_at_gathers). Qed.

End Created.

(** The gap reads the create event again. *)
Lemma accept_gap_gathers t x v : moves anyway (gathers t) (accept_gap_event env fuel origin room x v).
Proof.
  intros s _. unfold accept_gap_event. rewrite bind_fst. cbn [gets].
  destruct (room_state_get s room RoomCreate "") as [create|] eqn:Hc; [|done].
  match goal with |- context [(?m s).1] => assert (G : moves anyway (gathers s) m) end.
  { gather_all ltac:(first [apply mark_bad_gathers | apply moves_attempt, outlier_pdu_gathers, Hc]). }
  destruct (G s I) as (l & Hl & R). exists l. split; [done|by apply run_reread].
Qed.

Lemma accept_gaps_gathers t version events wanted found :
  moves anyway (gathers t) (accept_gap_events env fuel origin room version events wanted found).
Proof.
  revert wanted found. induction events as [|v events IH]; intros wanted found; [gather_tac|].
  cbn [accept_gap_events]. destruct (gen_event_id v version); [|apply IH].
  gather_all ltac:(first [apply IH | apply accept_gap_gathers]).
Qed.

Lemma fetch_missing_gathers t version e missing :
  moves anyway (gathers t) (fetch_missing_events env fuel origin room version e missing).
Proof. unfold fetch_missing_events. gather_all ltac:(apply accept_gaps_gathers). Qed.

(** Gathering leaves the tables alone, but for more outliers. *)
Record quiet (s s' : Server) : Prop := mkQuiet {
  q_same : set_tick 0 (set_bad_events ∅ (set_outliers ∅ s)) =
           set_tick 0 (set_bad_events ∅ (set_outliers ∅ s'));
  q_kept : forall x, is_Some (outliers s !! x) -> is_Some (outliers s' !! x)
}.

Lemma run_quiet t s l s' : run t s l s' -> Forall is_keep l -> quiet s s'.
Proof.
  induction 1 as [t s n bad|t s1 s2 s3 l1 l2 _ IH1 _ IH2| |t s0 l s1 x v _ IH _|t s0 l s1 s2 e st|t s0 l s1 s2 e st].
  - by split.
  - intros [[E1 K1]%IH1 [E2 K2]%IH2]%Forall_app. split; [congruence|auto].
  - done.
  - intros [[E K]%IH _]%Forall_app. split; [done|]. intros y Hy. cbn.
    destruct (decide (x = y)) as [->|]; [rewrite lookup_insert_eq; by eexists|].
    rewrite lookup_insert_ne by done. by apply K.
  - intros [_ F]%Forall_app. by apply Forall_inv in F.
  - intros [_ F]%Forall_app. by apply Forall_inv in F.
Qed.

Lemma gathers_quiet t s s' : gathers t s s' -> quiet s s'.
Proof. intros (l & Hl & R). by eapply run_quiet. Qed.

Lemma quiet_fields s s' : quiet s s' ->
  rooms s' = rooms s /\ pduid_pdu s' = pduid_pdu s /\ eventid_pduid s' = eventid_pduid s /\
  purged s' = purged s /\ softfailed s' = softfailed s /\ event_states s' = event_states s /\
  room_states s' = room_states s /\ leaves s' = leaves s /\ count s' = count s.
Proof. intros [E _]. destruct s, s'. cbn in *. by injection E. Qed.

(** ** The state at an event *)

Lemma degree_one_after s p st : state_at_incoming_degree_one p s = Some st <-> state_after s p st.
Proof.
  unfold state_at_incoming_degree_one, state_after, apply_state, with_state_key.
  rewrite bind_Some. setoid_rewrite bind_Some. naive_solver.
Qed.

Lemma fork_after s ps states chains :
  fork_states auth_chain_of s room ps = Some (states, chains) ->
  Forall2 (state_after s) ps states /\
  chains = (fun state : StateMap => auth_chain_of (store_of s) room (map_to_list state).*2) <$> states.
Proof.
  revert states chains. induction ps as [|p ps IH]; intros states chains; cbn [fork_states]; [by intros [= <- <-]|].
  intros (e & He & E)%bind_Some. apply bind_Some in E as (at_p & Hat & E).
  apply bind_Some in E as ([states' chains'] & Hr & [= <- <-]). destruct (IH _ _ Hr) as [HF ->].
  split; [|done]. constructor; [|done]. by exists e, at_p.
Qed.

Lemma fork_missing s ps states :
  fork_states auth_chain_of s room ps = None -> ~ Forall2 (state_after s) ps states.
Proof.
  intros E HF. revert E. induction HF as [|p st ps states (e & at_p & He & Hat & _) _ IH]; cbn [fork_states]; [done|].
  rewrite He. cbn. rewrite Hat. cbn. by destruct (fork_states auth_chain_of s room ps) as [[]|]; [|intros _; apply IH].
Qed.

Lemma collect_spec events m m' :
  collect_state events m = Some m' ->
  forall k x, m' !! k = Some x <-> m !! k = Some x \/
    exists e, e ∈ events /\ event_id e = x /\ event_type e = k.1 /\ state_key e = Some k.2.
Proof.
  revert m. induction events as [|e events IH]; intros m; cbn; [intros [= <-]; set_solver|].
  destruct (state_key e) as [key|] eqn:Ek.
  2:{ intros E k x. rewrite (IH m E). setoid_rewrite elem_of_cons. naive_solver congruence. }
  unfold with_state_key. destruct (m !! (event_type e, key)) as [y|] eqn:Ey.
  - case_bool_decide as Hy; [|done]. intros E [ty key'] x. rewrite (IH m E). setoid_rewrite elem_of_cons. cbn.
    split; [naive_solver|]. intros [|(e' & [->|Hin] & <- & <- & Hk)]; [by left| |right; by exists e'].
    left. rewrite Ek in Hk. injection Hk as <-. by subst.
  - intros E [ty key'] x. rewrite (IH _ E), lookup_insert_Some. setoid_rewrite elem_of_cons. cbn. split.
    + intros [[[[= <- <-] <-]|[_ ?]]|(e' & ? & ?)]; [right; exists e; naive_solver|by left|right; exists e'; naive_solver].
    + intros [Hx|(e' & [->|Hin] & <- & <- & Hk)]; [|left; left; by simplify_eq|right; by exists e'].
      left. right. split; [|done]. intros [= <- <-]. congruence.
Qed.

Lemma fetch_state_listed create version x s s' state :
  fetch_state env fuel origin create room version x s = (s', Ok (Some state)) ->
  exists chain ids, get_room_state_ids env (tick s) origin x = Some (chain, ids) /\ listed s' ids state.
Proof.
  unfold fetch_state. intros (s1 & response & [= <- <-] & E)%bind_inv.
  destruct (get_room_state_ids env (tick s) origin x) as [[chain ids]|]; [|done].
  exists chain, ids. split; [done|]. apply bind_inv in E as (s2 & l & _ & E).
  apply bind_inv in E as (s3 & events & Ef & [= <- E]).
  unfold fetch_and_handle_outliers in Ef. apply bind_inv in Ef as (s4 & fetched & _ & Ef).
  apply bind_inv in Ef as (s5 & [] & _ & [= <- <-]).
  apply bind_Some in E as (st & Hst & E). case_bool_decide as Hc; [|done]. injection E as ->.
  split; [done|]. intros k y. rewrite (collect_spec _ _ _ Hst), lookup_empty.
  setoid_rewrite list_elem_of_omap. naive_solver.
Qed.

Lemma state_at_before create version e s s' state :
  state_at_event env fuel auth_chain_of iter unordered e create origin room version s = (s', Ok state) ->
  state_before version s s' e state.
Proof.
  unfold state_at_event. intros (s1 & s0 & [= <- <-] & E)%bind_inv.
  apply bind_inv in E as (s1 & local & El & E).
  assert (Hs1 : s1 = s) by (destruct (prev_events e) as [|p [|]]; by injection El). subst s1.
  destruct local as [st|].
  - injection E as <- ->. destruct (prev_events e) as [|p [|q ps]] eqn:Ep.
    2:{ injection El as El%degree_one_after. left. by exists p. }
    all: right; left; injection El as El; unfold state_at_incoming_resolved in El; rewrite Ep in El;
      destruct (fork_states _ _ _ _) as [[states chains]|] eqn:Ef; [|done];
      apply fork_after in Ef as [HF ->]; exists states; rewrite Ep;
      unfold resolve_with in El; unfold resolves;
      destruct (StateRes.resolve _ _ _ _ _ _ _) as [st|] eqn:Er in El; [|done];
      injection El as ->; split_and!; done.
  - apply bind_inv in E as (s1 & fetched & Ef & [= <- ->%ok_or_ok]).
    right; right. split; [|by eapply fetch_state_listed].
    intros states HF. destruct (prev_events e) as [|p [|q ps]] eqn:Ep.
    2:{ injection El as El. inversion HF as [|? ? ? ? Hp _]; simplify_eq.
        apply degree_one_after in Hp. congruence. }
    all: injection El as El; unfold state_at_incoming_resolved in El; rewrite Ep in El;
      destruct (fork_states _ _ _ _) as [[sts chains]|] eqn:Ef'; [|by eapply fork_missing];
      unfold resolve_with in El; by destruct (StateRes.resolve _ _ _ _ _ _ _).
Qed.

(** The checks of an upgrade: what they let through, and what they set aside. *)
Lemma upgrade_check_spec create version rv e s s1 state soft :
  new version = Some rv -> pending s1 e ->
  upgrade_check env fuel auth_chain_of iter unordered e create origin room version rv s = (s1, Ok (state, soft)) ->
  if soft then refused_now version s s1 e state else admissible version s s1 e state.
Proof.
  intros Hrv Hp. unfold upgrade_check.
  intros (s2 & st & Est & E)%bind_inv. apply bind_inv in E as (s3 & allowed & [= <- Ea] & E).
  destruct allowed; [|done]. cbn [negb] in E.
  apply bind_inv in E as (s3 & allowed_now & [= <- En] & E).
  apply bind_inv in E as (s3 & soft' & Es & [= <- <- ->]).
  unfold authorized in Ea, En.
  destruct (EventAuth.auth_check (state_fetch s2 st) rv e) as [b|] eqn:E1; [|done].
  destruct (EventAuth.auth_check (room_state_get s2 room) rv e) as [b'|] eqn:E2; [|done].
  injection Ea as ->. injection En as ->.
  assert (Hs : s3 = s2 /\ if soft then allowed_now = false \/ (exists r, redacts_id e version = Some r /\
      user_can_redact s2 r (sender e) room true = Ok false)
    else allowed_now = true /\ forall r, redacts_id e version = Some r -> user_can_redact s2 r (sender e) room true = Ok true).
  { destruct allowed_now; [|injection Es as <- <-; auto].
    destruct (redacts_id e version) as [r|]; [|by injection Es as <- <-].
    apply bind_inv in Es as (s4 & permitted & [= <- Hperm] & [= <- <-]). split; [done|].
    destruct permitted; cbn; [split; [done|]; by intros ? [= <-]|right; by exists r]. }
  destruct Hs as [-> Hs]. apply state_at_before in Est. destruct soft.
  - split_and!; [done..|]. exists rv. split_and!; [done..|]. destruct Hs as [->|]; auto.
  - destruct Hs as [-> Hs]. split_and!; [done..|]. by exists rv.
Qed.

(** ** Placing an event *)

#[local] Instance similar_refl : Reflexive similar.
Proof. intros m pid. by destruct (m !! pid); constructor. Qed.

#[local] Instance similar_trans : Transitive similar.
Proof.
  intros m1 m2 m3 A B pid. specialize (A pid). specialize (B pid).
  destruct A as [e1 e2 [? ?]|]; inversion B as [? e3 [? ?]|]; simplify_eq; constructor. split; congruence.
Qed.

Lemma similar_insert m m' pid e : similar m m' -> similar (<[pid := e]> m) (<[pid := e]> m').
Proof.
  intros Hs q. destruct (decide (q = pid)) as [->|]; [rewrite !lookup_insert_eq; by constructor|].
  rewrite !lookup_insert_ne by done. apply Hs.
Qed.

#[local] Instance core_refl : Reflexive core_same.
Proof. intros s. by split. Qed.

#[local] Instance core_trans : Transitive core_same.
Proof.
  intros s1 s2 s3 [A1 A2 A3 A4 A5 A7 A6] [B1 B2 B3 B4 B5 B7 B6]. split; [by etransitivity|congruence..|lia].
Qed.

Ltac core_step :=
  match goal with
  | |- moves _ core_same (_ ≫= _) => eapply moves_bind; [apply _|done| |intros ?]
  | |- moves _ core_same (if ?b then _ else _) => destruct b
  | |- moves _ core_same (match ?x with _ => _ end) => destruct x
  | |- moves _ core_same (ask _) => intros ? _; split; cbn; try done
  | |- moves _ core_same (modify _) => intros ? _; split; cbn; try lia; try done
  | |- moves _ core_same _ => apply moves_refl; [apply _|done]
  end.
Ltac core_tac := repeat core_step.

Lemma fallible_core : moves anyway core_same (fallible env).
Proof. unfold fallible. core_tac. Qed.

Lemma fallible_count s s' : fallible env s = (s', Ok ()) -> count s' = count s.
Proof.
  unfold fallible. intros (s1 & b & [= <- <-] & E)%bind_inv.
  destruct (works env (tick s)); [|done]. by injection E as <-.
Qed.

Lemma next_count_draw s : core_same s (next_count env s).1 /\
  forall s' n, next_count env s = (s', Ok n) -> n = count s' /\ count s < n.
Proof.
  unfold next_count. rewrite bind_fst. cbn [gets]. rewrite bind_fst. cbn [require].
  destruct (u64_checked_add (count s) 1) as [n|] eqn:En; cbn [ok_or]; [|done].
  assert (Hn : n = count s + 1) by (revert En; unfold u64_checked_add, in_range; case_match; congruence).
  rewrite bind_fst. pose proof (fallible_core s I) as C. destruct (fallible env s) as [s1 [[]|]] eqn:E; [|done].
  apply fallible_count in E. split.
  - etransitivity; [exact C|]. split; try done. change (count s1 <= n). lia.
  - intros s' m [= <- <-]. cbn -[Z.add]. lia.
Qed.

Lemma next_count_core : moves anyway core_same (next_count env).
Proof. intros s _. apply next_count_draw. Qed.

Lemma add_prev_core e v : moves anyway core_same (add_prev_content e v).
Proof. unfold add_prev_content. core_tac. Qed.

Lemma redact_core target reason : moves anyway core_same (redact_pdu env target reason).
Proof.
  intros s _. unfold redact_pdu. apply (moves_bind_with core_same); [done|intros s0 s1 [= <- <-]].
  destruct (eventid_pduid s !! target) as [pid|]; [|done].
  apply (moves_bind_with core_same); [done|intros pdu s1 [= <- E%ok_or_ok]].
  case_bool_decide; [|done]; cbn [negb].
  apply (moves_bind_with core_same); [by apply fallible_core|intros [] s1 E1].
  assert (Ep : pduid_pdu s1 = pduid_pdu s).
  { unfold fallible in E1. apply bind_inv in E1 as (s2 & b & [= <- <-] & E1).
    by destruct (works env (tick s)); injection E1 as <-. }
  apply (moves_bind_with core_same); [done|intros version s2 [= <- _]].
  destruct (negb _); [done|].
  apply (moves_bind_with core_same); [done|intros body s2 [= <- _]].
  split; cbn; try done. intros q. rewrite Ep. destruct (decide (q = pid)) as [->|].
  - rewrite E, lookup_insert_eq. by constructor.
  - rewrite lookup_insert_ne by done. destruct (pduid_pdu s !! q); by constructor.
Qed.

Lemma act_core e : moves anyway core_same (act_on_kind env e).
Proof.
  unfold act_on_kind, act_on_redaction. repeat first [apply redact_core | core_step].
Qed.

(** A core step, then the rest. *)
Lemma core_then {A B} (Q : Server -> Prop) s0 (m : M A) (f : A -> M B) s :
  (forall s', core_same s0 s' -> Q s') -> moves anyway core_same m -> core_same s0 s ->
  (forall a s1, core_same s0 s1 -> Q (f a s1).1) -> Q ((m ≫= f) s).1.
Proof.
  intros HQ Hm Hs Hf. specialize (Hm s I). rewrite bind_fst.
  destruct (m s) as [s1 [a|er]]; [apply Hf|apply HQ]; by transitivity s.
Qed.

Lemma insert_ends e s0 s : core_same s0 s -> ends e s0 (insert_pdu env e s).1.
Proof.
  intros C. assert (HQ : forall s', core_same s0 s' -> ends e s0 s') by (by left). unfold insert_pdu.
  apply (core_then _ s0); [done|apply next_count_core|done|clear s C; intros _ s C].
  apply (core_then _ s0); [done|apply fallible_core|done|clear s C; intros [] s C].
  rewrite bind_fst. destruct (next_count_draw s) as [C' Hn].
  destruct (next_count env s) as [s1 [n|]]; [|left; by transitivity s].
  destruct (Hn s1 n eq_refl) as [-> Hlt]. assert (C1 : core_same s0 s1) by (by transitivity s).
  right. exists (count s1). split; [pose proof (c_count _ _ C); lia|].
  match goal with |- core_same _ ?t => change t with (set_outliers (delete (event_id e) (outliers s1))
    (set_timeline (<[(room_id e, count s1) := e]> (pduid_pdu s1))
       (<[event_id e := (room_id e, count s1)]> (eventid_pduid s1)) s1)) end.
  destruct C1 as [D1 D2 D3 D4 D5 D6 D7]. split; cbn; try done; [by apply similar_insert|congruence..].
Qed.

Lemma ends_core e s0 s s' : ends e s0 s -> core_same s s' -> ends e s0 s'.
Proof. intros [C|(n & Hn & C)] C'; [left|right; exists n; split; [done|]]; by transitivity s. Qed.

Lemma append_pdu_ends e v leafs s0 s : core_same s0 s -> ends e s0 (append_pdu env e v leafs s).1.
Proof.
  intros C. assert (HQ : forall s', core_same s0 s' -> ends e s0 s') by (by left). unfold append_pdu.
  rewrite bind_fst. cbn [gets]. destruct (negb _); [by left|].
  apply (core_then _ s0); [done| |done|clear s C; intros _ s C].
  { destruct (bool_decide _); [apply add_prev_core|core_tac]. }
  apply (core_then _ s0); [done|unfold mark_as_referenced; core_tac|done|clear s C; intros _ s C].
  apply (core_then _ s0); [done|unfold set_forward_extremities; core_tac|done|clear s C; intros _ s C].
  apply (bind_along (ends e s0)); [by apply insert_ends|intros pid s1 _ He].
  apply (bind_along (ends e s0)); [|done]. eapply ends_core; [done|].
  by apply (moves_attempt anyway core_same _ (act_core e)).
Qed.

Lemma set_event_state_core x state : moves anyway core_same (set_event_state env x state).
Proof. unfold set_event_state. repeat first [apply fallible_core | core_step]. Qed.

Lemma append_incoming_ends e v leafs state s0 s :
  core_same s0 s -> ends e s0 (append_incoming_pdu env e v leafs state false s).1.
Proof.
  intros C. unfold append_incoming_pdu.
  apply (core_then _ s0); [by left|apply set_event_state_core|done|clear s C; intros _ s C].
  apply (bind_along (ends e s0)); [by apply append_pdu_ends|done].
Qed.

Lemma resolve_advanced version e state s st :
  resolve_state auth_chain_of iter unordered room version (apply_state e (event_id e) state) s = Ok st ->
  advanced version s e state st.
Proof.
  unfold resolve_state. destruct (room_states s !! room) as [current|] eqn:Ec; [|done]. cbn [mbind result_bind ok_or].
  unfold resolve_with. destruct (StateRes.resolve _ _ _ _ _ _ _) as [st'|] eqn:E; [|done]. intros [= ->].
  by exists current.
Qed.

Lemma commit_settles version e v state s :
  settles version e state s
    (upgrade_commit env auth_chain_of iter unordered e v room version state false s).1.
Proof.
  unfold upgrade_commit. rewrite bind_fst. cbn [gets]. set (kept := extremities room e s). clearbody kept.
  case_bool_decide as Hk.
  - rewrite bind_fst, bind_fst. cbn [lift].
    destruct (resolve_state _ _ _ _ _ _ s) as [st|] eqn:Est; [|by left]. apply resolve_advanced in Est.
    unfold install_state. rewrite bind_fst. pose proof (fallible_core s I) as C1.
    destruct (fallible env s) as [s1 [[]|]]; [|by left]. rewrite bind_fst. pose proof (fallible_core s1 I) as C2.
    destruct (fallible env s1) as [s2 [[]|]]; [|left; by transitivity s1]. cbn [modify fst] in *.
    right. exists (set_room_states (<[room := st]> (room_states s)) s). split.
    { right. split; [done|]. by exists st. }
    apply append_incoming_ends. assert (C : core_same s s2) by (by transitivity s1).
    destruct C as [D1 D2 D3 D4 D5 D6 D7]. split; cbn; try done. by rewrite D6.
  - right. exists s. split; [|by apply append_incoming_ends]. left. split; [|done].
    by apply eq_None_not_Some.
Qed.

Lemma soft_fail_aside version e v state s :
  set_aside e s (upgrade_commit env auth_chain_of iter unordered e v room version state true s).1.
Proof.
  unfold upgrade_commit.
  assert (Hc : moves anyway core_same (append_incoming_pdu env e v ∅ state true)).
  { unfold append_incoming_pdu, mark_as_referenced. repeat first [apply set_event_state_core | core_step]. }
  apply (core_then _ s); [by left|done|done|]. intros _ s1 [D1 D2 D3 D4 D5 D6 D7].
  right. change (core_same (set_softfailed ({[event_id e]} ∪ softfailed s) s)
    (set_softfailed ({[event_id e]} ∪ softfailed s1) s1)). split; cbn; try done. by rewrite D5.
Qed.

(** An event that is held and not purged goes through its checks and its commit. *)
Lemma upgrade_handles t create e v s :
  room_state_get t room RoomCreate "" = Some create ->
  is_Some (outliers s !! event_id e) \/ is_Some (eventid_pduid s !! event_id e) ->
  event_id e ∉ purged s ->
  handles t s
    (upgrade_outlier_to_timeline_pdu env fuel auth_chain_of iter unordered e v create origin room s).1.
Proof.
  intros Hc Ho Hp. unfold upgrade_outlier_to_timeline_pdu. rewrite bind_fst. cbn [gets].
  destruct (eventid_pduid s !! event_id e) eqn:Ei; [done|].
  unfold is_soft_failed. case_bool_decide as Hs; [done|]. rewrite bind_fst. cbn [lift].
  destruct (get_room_version s room) as [version|] eqn:Ev; [|done]. rewrite bind_fst. unfold require.
  destruct (new version) as [rv|] eqn:Hrv; [|done]. cbn [ok_or]. rewrite bind_fst.
  pose proof (upgrade_check_gathers t create Hc e version rv s I) as G.
  destruct (upgrade_check _ _ _ _ _ _ _ _ _ _ _ s) as [s1 [[state soft]|]] eqn:E; [|by apply gathers_handles].
  cbn [fst] in G. destruct (gathers_quiet _ _ _ G) as [Hsame Hkept].
  destruct (quiet_fields s s1 (mkQuiet _ _ Hsame Hkept)) as (_ & _ & Eid & Epu & Eso & _).
  assert (Hpend : pending s1 e).
  { unfold pending. rewrite Eid, Epu, Eso. split_and!; [|done..]. apply Hkept. destruct Ho as [|[]]; congruence. }
  pose proof (upgrade_check_spec _ _ _ _ _ _ _ _ Hrv Hpend E) as Hspec.
  destruct G as (l & Hl & R). destruct soft; eexists.
  - eapply run_soft_fail; [done..|]. exists version. split_and!; [done..|]. apply soft_fail_aside.
  - eapply run_settle; [done..|]. exists version. split_and!; [done..|]. apply commit_settles.
Qed.

(** ** The well-formed server *)

(** The timeline's two tables are inverse to each other, rows lie below their room and
    within the counter, outliers are stored under their own id, and no soft-failed event
    is in the timeline. *)
Record wf (s : Server) : Prop := mkWf {
  wf_ids : forall x pid, eventid_pduid s !! x = Some pid ->
    exists e, pduid_pdu s !! pid = Some e /\ event_id e = x;
  wf_back : forall pid e, pduid_pdu s !! pid = Some e ->
    eventid_pduid s !! event_id e = Some pid /\ pid.1 = room_id e /\ pid.2 <= count s;
  wf_outliers : forall x v e, outliers s !! x = Some v -> pdu_of_json v = Some e -> event_id e = x;
  wf_soft : forall x, x ∈ softfailed s -> eventid_pduid s !! x = None
}.

(** What handling events keeps. *)
Record evolves (s s' : Server) : Prop := mkEvolves {
  ev_held : forall x, is_Some (outliers s !! x) ->
    is_Some (outliers s' !! x) \/ is_Some (eventid_pduid s' !! x);
  ev_kept : forall x pid, eventid_pduid s !! x = Some pid -> eventid_pduid s' !! x = Some pid;
  ev_new : forall x pid, eventid_pduid s' !! x = Some pid -> eventid_pduid s !! x = Some pid \/ x ∉ purged s;
  ev_purged : purged s' = purged s
}.

Definition safe (s s' : Server) : Prop := wf s -> wf s' /\ evolves s s'.

#[local] Instance safe_refl : Reflexive safe.
Proof. intros s Hs. split; [done|]. split; auto. Qed.

#[local] Instance safe_trans : Transitive safe.
Proof.
  intros s1 s2 s3 H12 H23 W1. destruct (H12 W1) as [W2 [L1 K1 N1 P1]].
  destruct (H23 W2) as [W3 [L2 K2 N2 P2]]. split; [done|]. split.
  - intros x Hx. destruct (L1 x Hx) as [|[pid Hpid]]; [by apply L2|right; eexists; by apply K2].
  - intros x pid Hx. by apply K2, K1.
  - intros x pid Hx. destruct (N2 x pid Hx) as [Hx2|Hx2]; [by apply N1|]. right. by rewrite <-P1.
  - congruence.
Qed.

Lemma idle_safe s n bad : safe s (set_tick n (set_bad_events bad s)).
Proof. intros [W1 W2 W3 W4]. split; split; cbn; auto. Qed.

Lemma states_safe s x : safe s (set_room_states x s).
Proof. intros [W1 W2 W3 W4]. split; split; cbn; auto. Qed.

Lemma core_safe s s' : core_same s s' -> safe s s'.
Proof.
  intros [C1 C2 C3 C4 C5 C7 C6] [W1 W2 W3 W4]. split; split; rewrite ?C2, ?C3, ?C4, ?C5; auto.
  - intros x pid Hx. destruct (W1 x pid Hx) as (e & He & <-). specialize (C1 pid). rewrite He in C1.
    inversion C1 as [? e' [? ?]|]; simplify_eq. by exists e'.
  - intros pid e' He'. specialize (C1 pid). rewrite He' in C1. inversion C1 as [e ? [E1 E2] He|]; simplify_eq.
    destruct (W2 pid e) as (? & ? & ?); [done|]. rewrite <-E1, <-E2. split_and!; [done|done|lia].
Qed.

(** Vetted objects are stored under the id they parse to. *)
Lemma vetted_id t s0 s1 x v e : vetted t s0 s1 x v -> pdu_of_json v = Some e -> event_id e = x.
Proof.
  intros (version & rv & e' & create & st & _ & _ & (rec & base & _ & ->) & _) He.
  apply pdu_event_id in He. unfold insert_derived_room_id in He.
  destruct (_ || _); [|destruct (room_id_of_create_event_id x)].
  - rewrite lookup_insert_eq in He. by simplify_eq.
  - rewrite lookup_insert_ne, lookup_insert_eq in He by done. by simplify_eq.
  - rewrite lookup_insert_eq in He. by simplify_eq.
Qed.

Lemma keep_safe t s0 s x v :
  vetted t s0 s x v -> safe s (set_outliers (<[x := v]> (outliers s)) s).
Proof.
  intros Hv [W1 W2 W3 W4]. split; split; cbn; auto.
  - intros y w e [[<- <-]|[_ Hy]]%lookup_insert_Some; [by eapply vetted_id|by apply W3].
  - intros y Hy. left. destruct (decide (x = y)) as [->|]; [rewrite lookup_insert_eq; by eexists|].
    by rewrite lookup_insert_ne.
Qed.

Lemma placed_safe n e s : pending s e -> count s < n -> safe s (placed n e s).
Proof.
  intros (Ho & Hp & Hs & Hi) Hn [W1 W2 W3 W4].
  assert (Hnew : pduid_pdu s !! (room_id e, n) = None).
  { destruct (pduid_pdu s !! (room_id e, n)) eqn:E; [|done]. apply W2 in E as (_ & _ & E). cbn in E. lia. }
  split; split; cbn [placed set_count set_outliers set_timeline outliers pduid_pdu eventid_pduid purged softfailed count].
  - intros x pid. destruct (decide (x = event_id e)) as [->|Hne].
    + rewrite lookup_insert_eq. intros [= <-]. exists e. by rewrite lookup_insert_eq.
    + rewrite lookup_insert_ne by done. intros Hx. destruct (W1 x pid Hx) as (e' & He' & <-).
      exists e'. split; [|done]. rewrite lookup_insert_ne; [done|]. intros <-. congruence.
  - intros pid e'. destruct (decide (pid = (room_id e, n))) as [->|Hne].
    + rewrite lookup_insert_eq. intros [= <-]. by rewrite lookup_insert_eq.
    + rewrite lookup_insert_ne by done. intros He'. destruct (W2 pid e' He') as (Hid & ? & ?).
      rewrite lookup_insert_ne; [split_and!; [done|done|lia]|]. intros E. rewrite <-E in Hid. congruence.
  - intros x v e' [_ Hx]%lookup_delete_Some. by apply W3.
  - intros x Hx. rewrite lookup_insert_ne; [by apply W4|]. by intros <-.
  - intros x Hx. destruct (decide (x = event_id e)) as [->|].
    + right. rewrite lookup_insert_eq. by eexists.
    + left. by rewrite lookup_delete_ne by done.
  - intros x pid Hx. rewrite lookup_insert_ne; [done|]. intros <-. congruence.
  - intros x pid [[<- _]|[_ Hx]]%lookup_insert_Some; [by right|by left].
  - done.
Qed.

Lemma installed_cases version e state s s1 :
  installed version e state s s1 ->
  s1 = s \/ exists st, advanced version s e state st /\ s1 = set_room_states (<[room := st]> (room_states s)) s.
Proof. intros [[_ ->]|(_ & st & Ha & ->)]; [by left|right; by exists st]. Qed.

Lemma settle_safe version e state s s' : pending s e -> settles version e state s s' -> safe s s'.
Proof.
  intros Hp [C|(s1 & Hi & He)]; [by apply core_safe|].
  assert (Hs : safe s s1 /\ pending s1 e).
  { destruct (installed_cases _ _ _ _ _ Hi) as [->|(st & _ & ->)]; [done|]. split; [apply states_safe|exact Hp]. }
  destruct Hs as [Hs Hp1]. transitivity s1; [done|].
  destruct He as [C|(n & Hn & C)]; [by apply core_safe|]. transitivity (placed n e s1); [|by apply core_safe].
  by apply placed_safe.
Qed.

Lemma aside_safe e s s' : pending s e -> set_aside e s s' -> safe s s'.
Proof.
  intros (_ & _ & _ & Hi) [C|C]; [by apply core_safe|].
  etransitivity; [|by apply core_safe]. intros [W1 W2 W3 W4]. split; split; cbn; auto.
  intros x [->%elem_of_singleton|Hx]%elem_of_union; [done|by apply W4].
Qed.

(** Every run is safe. *)
Lemma run_safe t s l s' : run t s l s' -> safe s s'.
Proof.
  induction 1 as [t s n bad|t s1 s2 s3 l1 l2 _ IH1 _ IH2|t s l s' _ IH|t s0 l s1 x v _ IH Hv
    |t s0 l s1 s2 e st _ IH _ (version & _ & (Hp & _) & Hs)|t s0 l s1 s2 e st _ IH _ (version & _ & (Hp & _) & Hs)].
  - apply idle_safe.
  - by transitivity s2.
  - done.
  - transitivity s1; [done|by eapply keep_safe].
  - transitivity s1; [done|by eapply settle_safe].
  - transitivity s1; [done|by eapply aside_safe].
Qed.

Lemma handles_safe t s s' : handles t s s' -> safe s s'.
Proof. intros [l R]. by eapply run_safe. Qed.

Lemma gathers_wf t s s' : gathers t s s' -> wf s -> wf s'.
Proof. intros G W. by destruct (handles_safe _ _ _ (gathers_handles _ _ _ G) W). Qed.

(** ** What a run changes *)

Lemma run_legit t s l s' : run t s l s' -> Forall legit l.
Proof.
  induction 1; rewrite ?Forall_app, ?Forall_singleton; by try constructor.
Qed.

Lemma core_lookups s s' : core_same s s' ->
  outliers s' = outliers s /\ eventid_pduid s' = eventid_pduid s /\ room_states s' = room_states s /\ softfailed s' = softfailed s.
Proof. by intros []. Qed.

(** Every difference between the first state and the last has its deed. *)
Record accounted (l : list deed) (s s' : Server) : Prop := mkAccounted {
  acc_outliers : forall y w, outliers s' !! y = Some w ->
    outliers s !! y = Some w \/ exists t s0 s1, Keep t s0 s1 y w ∈ l;
  acc_ids : forall y pid, eventid_pduid s' !! y = Some pid ->
    eventid_pduid s !! y = Some pid \/ exists s0 s1 s2 e state, Settle s0 s1 s2 e state ∈ l /\ event_id e = y;
  acc_states : forall q st, room_states s' !! q = Some st ->
    room_states s !! q = Some st \/ (q = room /\ exists s0 s1 s2 e state version,
      Settle s0 s1 s2 e state ∈ l /\ get_room_version s0 room = Ok version /\ advanced version s1 e state st);
  acc_soft : forall y, y ∈ softfailed s' ->
    y ∈ softfailed s \/ exists s0 s1 s2 e state, SoftFail s0 s1 s2 e state ∈ l /\ event_id e = y
}.

Lemma core_accounted l s s' : core_same s s' -> accounted l s s'.
Proof. intros (Eo & Ei & Er & Es)%core_lookups. split; rewrite ?Eo, ?Ei, ?Er, ?Es; by left. Qed.

Lemma accounted_app l1 l2 s1 s2 s3 :
  accounted l1 s1 s2 -> accounted l2 s2 s3 -> accounted (l1 ++ l2) s1 s3.
Proof.
  intros [A1 A2 A3 A4] [B1 B2 B3 B4]. split.
  - intros y w Hy. destruct (B1 y w Hy) as [Hy'|(t & t0 & t1 & Hin)]; [|set_solver].
    destruct (A1 y w Hy') as [|(t & t0 & t1 & Hin)]; set_solver.
  - intros y pid Hy. destruct (B2 y pid Hy) as [Hy'|(t0 & t1 & t2 & e & st & Hin & He)]; [|set_solver].
    destruct (A2 y pid Hy') as [|(t0 & t1 & t2 & e & st & Hin & He)]; set_solver.
  - intros q st Hq. destruct (B3 q st Hq) as [Hq'|(-> & t0 & t1 & t2 & e & st' & version & Hin & Hv & Ha)].
    + destruct (A3 q st Hq') as [|(-> & t0 & t1 & t2 & e & st' & version & Hin & Hv & Ha)]; [by left|].
      right. split; [done|]. exists t0, t1, t2, e, st', version. split_and!; [set_solver|done..].
    + right. split; [done|]. exists t0, t1, t2, e, st', version. split_and!; [set_solver|done..].
  - intros y Hy. destruct (B4 y Hy) as [Hy'|(t0 & t1 & t2 & e & st & Hin & He)]; [|set_solver].
    destruct (A4 y Hy') as [|(t0 & t1 & t2 & e & st & Hin & He)]; set_solver.
Qed.

Lemma settle_accounted version s0 s s' e state :
  get_room_version s0 room = Ok version -> settles version e state s s' ->
  accounted [Settle s0 s s' e state] s s'.
Proof.
  intros Hv [C|(s1 & Hi & He)]; [by apply core_accounted|].
  assert (Hs1 : outliers s1 = outliers s /\ eventid_pduid s1 = eventid_pduid s /\ softfailed s1 = softfailed s /\
    forall q st, room_states s1 !! q = Some st -> room_states s !! q = Some st \/ q = room /\ advanced version s e state st).
  { destruct (installed_cases _ _ _ _ _ Hi) as [->|(st & Ha & ->)]; [by auto|]. split_and!; try done.
    intros q st'. cbn. intros [[<- <-]|[_ Hq]]%lookup_insert_Some; auto. }
  destruct Hs1 as (Eo & Ei & Es & Hst).
  assert (Hst' : forall q st, room_states s1 !! q = Some st -> room_states s !! q = Some st \/
    (q = room /\ exists t0 t1 t2 e' state' version', Settle t0 t1 t2 e' state' ∈ [Settle s0 s s' e state] /\
       get_room_version t0 room = Ok version' /\ advanced version' t1 e' state' st)).
  { intros q st [|[-> Ha]]%Hst; [by left|]. right. split; [done|].
    exists s0, s, s', e, state, version. split_and!; [by apply list_elem_of_singleton|done..]. }
  destruct He as [(Eo' & Ei' & Er' & Es')%core_lookups|(n & _ & (Eo' & Ei' & Er' & Es')%core_lookups)];
    split; rewrite ?Eo', ?Ei', ?Er', ?Es'; cbn; rewrite ?Eo, ?Ei, ?Es; auto.
  - intros y w [_ Hy]%lookup_delete_Some. by left.
  - intros y pid [[<- _]|[_ Hy]]%lookup_insert_Some; [|by left]. right.
    exists s0, s, s', e, state. split; [by apply list_elem_of_singleton|done].
Qed.

Lemma run_accounted t s l s' : run t s l s' -> accounted l s s'.
Proof.
  induction 1 as [t s n bad|t s1 s2 s3 l1 l2 _ IH1 _ IH2|t s l s' _ IH|t s0 l s1 x v _ IH _
    |t s0 l s1 s2 e st _ IH _ (version & Hv & _ & Hs)|t s0 l s1 s2 e st _ IH _ (version & _ & _ & Hs)].
  - split; cbn; by left.
  - by eapply accounted_app.
  - done.
  - eapply accounted_app; [done|]. split; cbn; auto.
    intros y w [[<- <-]|[_ Hy]]%lookup_insert_Some; [|by left]. right.
    exists t, s0, s1. by apply list_elem_of_singleton.
  - eapply accounted_app; [done|]. by eapply settle_accounted.
  - eapply accounted_app; [done|]. destruct Hs as [C|(Eo & Ei & Er & Es)%core_lookups]; [by apply core_accounted|].
    split; rewrite ?Eo, ?Ei, ?Er, ?Es; cbn; auto.
    intros y [->%elem_of_singleton|Hy]%elem_of_union; [|by left]. right.
    exists s0, s1, s2, e, st. split; [by apply list_elem_of_singleton|done].
Qed.

(** ** The gap and the event *)

Lemma get_pdu_id s x e : wf s -> get_pdu s x = Some e -> event_id e = x.
Proof.
  intros W.
  assert (Ha : forall e', get_non_outlier_pdu s x = Some e' -> event_id e' = x).
  { intros e' (pid & Hpid & He)%bind_Some. destruct (wf_ids _ W x pid Hpid) as (e'' & He'' & <-). congruence. }
  assert (Ho : forall e', get_pdu_outlier s x = Some e' -> event_id e' = x).
  { intros e' (v & Hv & He)%bind_Some. by eapply wf_outliers. }
  unfold get_pdu. destruct (get_non_outlier_pdu s x), (get_pdu_outlier s x); [|by auto..].
  destruct (outlier_first _ _); intros [= <-]; auto.
Qed.

(** The event an outlier call returns is the one asked for, and is held now. *)
Lemma outlier_returns fetch_auth create x v s s' e w :
  wf s -> handle_outlier_with env fetch_auth create x room v s = (s', Ok (e, w)) ->
  event_id e = x /\ is_Some (outliers s' !! x).
Proof.
  intros W. unfold handle_outlier_with. rewrite bind_fst. cbn [gets].
  destruct (get_pdu_outlier s x) as [pdu|] eqn:Eg, (outliers s !! x) as [json|] eqn:Eo.
  1:{ intros [= <- <- <-]. split; [|by eexists]. unfold get_pdu_outlier in Eg. rewrite Eo in Eg.
      by eapply wf_outliers. }
  all: unfold outlier_gates; intros (s1 & version & _ & E)%bind_inv;
    apply bind_inv in E as (s2 & rv & _ & E); apply bind_inv in E as (s3 & v' & _ & E);
    apply bind_inv in E as (s4 & e' & [= _ He'%ok_or_ok] & E); destruct (negb _); [done|];
    apply bind_inv in E as (s5 & [] & _ & E); apply bind_inv in E as (s6 & st & _ & E);
    apply bind_inv in E as (s7 & [] & _ & E); [|done];
    apply bind_inv in E as (s8 & [] & [= <-] & [= <- -> ->]);
    (split; [by eapply from_id_val_id|]); cbn; rewrite lookup_insert_eq; by eexists.
Qed.

(** Events are listed under their own id. *)
Definition keyed_events (m : gmap string Event) : Prop :=
  forall x e, m !! x = Some e -> event_id e = x.

Lemma keyed_insert m x e : keyed_events m -> event_id e = x -> keyed_events (<[x := e]> m).
Proof.
  intros Hm Hx y e'. destruct (decide (x = y)) as [->|].
  - rewrite lookup_insert_eq. by intros [= <-].
  - rewrite lookup_insert_ne by done. apply Hm.
Qed.

Lemma gap_keyed e s held missing : wf s -> gap_before e s = (held, missing) -> keyed_events held.
Proof.
  intros W. unfold gap_before. assert (Hemp : keyed_events ∅) by done. revert Hemp.
  generalize (∅ : gmap string Event) as m, ([] : list string) as l.
  induction (prev_events e) as [|x xs IH]; intros m l Hm; cbn; [by intros [= <- _]|].
  destruct (_ || _); [by apply IH|]. destruct (get_pdu_outlier s x) as [pdu|] eqn:E; [|by apply IH].
  apply IH, keyed_insert; [done|]. unfold get_pdu_outlier in E. apply bind_Some in E as (v & Hv & E).
  by eapply wf_outliers.
Qed.

Lemma accept_gaps_keyed version events wanted found s s' wanted' found' :
  wf s -> keyed_events found ->
  accept_gap_events env fuel origin room version events wanted found s = (s', Ok (wanted', found')) ->
  keyed_events found'.
Proof.
  revert wanted found s. induction events as [|v events IH]; intros wanted found s W Hk; cbn.
  { by intros [= _ _ <-]. }
  destruct (gen_event_id v version) as [x|]; [|by apply IH].
  intros (s1 & accepted & E1 & E2)%bind_inv.
  pose proof (accept_gap_gathers s x v s I) as Hq. rewrite E1 in Hq.
  apply (gathers_wf _ _ _ Hq) in W as W1. destruct accepted as [pdu|]; [|by eapply IH].
  eapply IH; [done| |done]. apply keyed_insert; [done|].
  unfold accept_gap_event in E1. rewrite bind_fst in E1. cbn [gets] in E1.
  destruct (room_state_get s room RoomCreate "") as [create|]; [|done].
  apply bind_inv in E1 as (s2 & handled & Eh & E1). unfold attempt in Eh.
  destruct (handle_outlier_pdu _ _ _ _ _ _ _ s) as [s3 [[pdu' w]|]] eqn:Eo; injection Eh as <- <-.
  - injection E1 as _ ->. by apply (outlier_returns _ _ _ _ _ _ _ _ W Eo).
  - rewrite bind_fst in E1. by destruct (mark_bad _ _ _) as [? []].
Qed.

Lemma fetch_missing_keyed version e missing s s' found :
  wf s -> fetch_missing_events env fuel origin room version e missing s = (s', Ok found) ->
  keyed_events found.
Proof.
  intros W. unfold fetch_missing_events.
  intros (s1 & s0 & [= <- <-] & E)%bind_inv. apply bind_inv in E as (s2 & response & [= <- <-] & E).
  apply bind_inv in E as (s3 & [wanted found0] & E1 & [= <- <-]).
  pose proof (accept_gaps_gathers s version (default [] (get_missing_events env (tick s) origin
    (default ∅ (leaves s !! room)) (event_id e))) (list_to_set missing) ∅ (set_tick (S (tick s)) s) I) as Hq.
  rewrite E1 in Hq. assert (W2 : wf (set_tick (S (tick s)) s)) by (by destruct W; split).
  apply (gathers_wf _ _ _ Hq) in W2 as W3. cbn in W3.
  assert (Hk : keyed_events found0) by (eapply accept_gaps_keyed; [exact W2| |exact E1]; done).
  induction (elements wanted) as [|x xs IH]; cbn; [done|].
  destruct (get_pdu s3 x) as [pdu|] eqn:Ex; [|done]. apply keyed_insert; [done|]. by eapply get_pdu_id.
Qed.

Lemma place_gap_handles t create first_ts started events :
  room_state_get t room RoomCreate "" = Some create ->
  Forall (fun xe : string * Event => event_id xe.2 = xe.1) events ->
  moves anyway (handles t)
    (place_gap env fuel budget auth_chain_of iter unordered origin create room first_ts started events).
Proof.
  intros Hc. induction 1 as [|[x e] events Hx Hev IH]; [by apply moves_refl; [apply _|]|].
  cbn [fst snd] in Hx. intros s _. cbn [place_gap].
  apply (moves_bind_with (handles t)); [by apply gathers_handles, gathers_ask|intros now s1 _].
  destruct (_ <? _); [done|]. destruct (_ <? _); [by apply IH|].
  apply (moves_bind_with (handles t)); [done|intros s0 s2 [= <- <-]].
  destruct (_ || bool_decide (x ∈ purged s1)) eqn:Eg; [by apply IH|].
  apply orb_false_iff in Eg as [_ Hp%bool_decide_eq_false].
  destruct (outliers s1 !! x) as [v|] eqn:Eo; [|by apply IH].
  apply (moves_bind_with (handles t)); [|intros o s2 _; by apply IH].
  pose proof (upgrade_handles t create e v s1 Hc) as Hu. rewrite Hx, Eo in Hu.
  specialize (Hu ltac:(left; by eexists) Hp). unfold attempt.
  by destruct (upgrade_outlier_to_timeline_pdu _ _ _ _ _ _ _ _ _ _ _) as [? []].
Qed.

Lemma fill_gap_handles t create version e first_ts s :
  room_state_get t room RoomCreate "" = Some create -> wf s -> handles t s
    (fill_gap env fuel budget auth_chain_of iter unordered origin create room version e first_ts s).1.
Proof.
  intros Hc W. unfold fill_gap.
  apply (moves_bind_with (handles t)); [by apply gathers_handles, gathers_ask|intros started s1 [= <- _]].
  apply (moves_bind_with (handles t)); [done|intros [held missing] s2 [= <- Eg]].
  assert (W1 : wf (set_tick (S (tick s)) s)) by (by destruct W; split).
  assert (Hheld : keyed_events held) by (by eapply gap_keyed).
  destruct (_ && _); [done|].
  apply (moves_bind_with (handles t)); [|intros events s2 Ee].
  { destruct missing; [done|]. by apply gathers_handles, fetch_missing_gathers. }
  assert (Hev : keyed_events events).
  { destruct missing; [by injection Ee as _ <-|]. by eapply fetch_missing_keyed. }
  apply place_gap_handles; [done| |done]. apply Forall_forall. intros [x pdu] Hin.
  unfold sorted_oldest_first in Hin. rewrite sort_by_key_perm in Hin.
  apply elem_of_map_to_list, lookup_union_Some_raw in Hin as [Hin|[_ Hin]]; [by apply Hev|by apply Hheld].
Qed.

(** Handling an event is a run that reads the create event first. *)
Lemma handle_run lock x v tl s :
  wf s -> handles s s
    (handle_incoming_pdu env fuel budget auth_chain_of iter unordered lock origin room x v tl s).1.
Proof.
  intros W. unfold handle_incoming_pdu. destruct (negb _); [done|].
  apply (moves_bind_with (handles s)); [done|intros s0 s1 [= <- <-]].
  destruct (eventid_pduid s !! x) eqn:Ei; [done|]. case_bool_decide as Hp; [done|].
  apply (moves_bind_with (handles s)); [done|intros [] s1 [= <- _]].
  apply (moves_bind_with (handles s)); [done|intros create s1 [= <- Hc%ok_or_ok]].
  apply (moves_bind_with (handles s)); [done|intros version s1 [= <- _]].
  apply (moves_bind_with (handles s)); [done|intros first s1 [= <- _]].
  pose proof (outlier_pdu_gathers s create Hc x v s I) as G.
  apply (moves_bind_with (handles s)); [by apply gathers_handles|intros [e w] s1 Eo]. rewrite Eo in G. cbn in G.
  destruct (outlier_returns _ _ _ _ _ _ _ _ W Eo) as [<- Ho].
  destruct (_ && _); [done|]. pose proof (gathers_wf _ _ _ G W) as W1.
  pose proof (fill_gap_handles s create version e (origin_server_ts first) s1 Hc W1) as Hf.
  apply (moves_bind_with (handles s)); [done|intros [] s2 E2]. rewrite E2 in Hf. cbn in Hf.
  destruct (handles_safe _ _ _ Hf W1) as [W2 Hev].
  apply upgrade_handles; [done|by apply (ev_held _ _ Hev)|]. rewrite (ev_purged _ _ Hev).
  by rewrite (proj1 (proj2 (proj2 (proj2 (quiet_fields _ _ (gathers_quiet _ _ _ G)))))).
Qed.

Lemma handle_safe lock x v tl s :
  wf s -> let s' := (handle_incoming_pdu env fuel budget auth_chain_of iter unordered lock origin room x v tl s).1 in
  wf s' /\ evolves s s'.
Proof. intros W. by apply (handles_safe s); [apply handle_run|]. Qed.

(** ** What an upgrade returns *)

Lemma db_append_ids pid e s s' : db_append_pdu pid e s = (s', Ok ()) -> eventid_pduid s' !! event_id e = Some pid.
Proof. intros [= <-]. cbn. by rewrite lookup_insert_eq. Qed.

Lemma append_returns e v leafs s s' pid :
  append_pdu env e v leafs s = (s', Ok pid) -> eventid_pduid s' !! event_id e = Some pid.
Proof.
  unfold append_pdu. intros (s1 & s0 & _ & E)%bind_inv. destruct (negb _); [done|].
  apply bind_inv in E as (s2 & [] & _ & E). apply bind_inv in E as (s3 & [] & _ & E).
  apply bind_inv in E as (s4 & [] & _ & E). apply bind_inv in E as (s5 & pid' & Ei & E).
  apply bind_inv in E as (s6 & o & Ea & [= <- ->]).
  unfold insert_pdu in Ei. apply bind_inv in Ei as (t1 & n1 & _ & Ei).
  apply bind_inv in Ei as (t2 & [] & _ & Ei). apply bind_inv in Ei as (t3 & n & _ & Ei).
  apply bind_inv in Ei as (t4 & [] & Ed & [= <- <-]).
  pose proof (moves_attempt anyway core_same _ (act_core e) t4 I) as Hc. rewrite Ea in Hc. cbn in Hc.
  rewrite (c_ids _ _ Hc). by eapply db_append_ids.
Qed.

Lemma commit_returns e v version state soft_fail s s' pid :
  upgrade_commit env auth_chain_of iter unordered e v room version state soft_fail s = (s', Ok (Some pid)) ->
  eventid_pduid s' !! event_id e = Some pid.
Proof.
  destruct soft_fail; unfold upgrade_commit.
  { intros (s1 & o & _ & E)%bind_inv. by apply bind_inv in E as (s2 & [] & _ & [= ]). }
  intros (s1 & kept & _ & E)%bind_inv. apply bind_inv in E as (s2 & [] & _ & E).
  unfold append_incoming_pdu in E. apply bind_inv in E as (s3 & [] & _ & E).
  apply bind_inv in E as (s4 & pid' & E & [= <- <-]). by eapply append_returns.
Qed.

Lemma upgrade_returns e v create s s' pid :
  upgrade_outlier_to_timeline_pdu env fuel auth_chain_of iter unordered e v create origin room s
    = (s', Ok (Some pid)) ->
  eventid_pduid s' !! event_id e = Some pid.
Proof.
  unfold upgrade_outlier_to_timeline_pdu. intros (s1 & s0 & [= <- <-] & E)%bind_inv.
  destruct (eventid_pduid s !! event_id e) as [pid'|] eqn:Ei; [by injection E as <- <-|].
  destruct (is_soft_failed _ _); [done|].
  apply bind_inv in E as (s2 & version & _ & E). apply bind_inv in E as (s3 & rv & _ & E).
  apply bind_inv in E as (s4 & [state soft] & _ & E). by eapply commit_returns.
Qed.

Lemma handle_returns lock x v tl s s' pid :
  wf s -> handle_incoming_pdu env fuel budget auth_chain_of iter unordered lock origin room x v tl s
    = (s', Ok (Some pid)) ->
  lock = room /\ eventid_pduid s' !! x = Some pid.
Proof.
  intros W. unfold handle_incoming_pdu. case_bool_decide as Hl; [|done]. cbn [negb].
  intros (s1 & s0 & [= <- <-] & E)%bind_inv. split; [done|].
  destruct (eventid_pduid s !! x) as [pid'|] eqn:Ei; [by injection E as <- <-|].
  case_bool_decide; [done|]. apply bind_inv in E as (s2 & [] & [= <- _] & E).
  apply bind_inv in E as (s2 & create & [= <- _] & E). apply bind_inv in E as (s2 & version & [= <- _] & E).
  apply bind_inv in E as (s2 & first & [= <- _] & E). apply bind_inv in E as (s2 & [e w] & Eo & E).
  destruct (outlier_returns _ _ _ _ _ _ _ _ W Eo) as [<- _]. destruct (_ && _); [done|].
  apply bind_inv in E as (s3 & [] & _ & E). by eapply upgrade_returns.
Qed.

(** ** Errors of a commit *)

(** [m] fails with [Database] only. *)
Definition database_only {A} (m : M A) : Prop := forall s s' er, m s = (s', Err er) -> er = Database.

Lemma database_bind {A B} (m : M A) (f : A -> M B) :
  database_only m -> (forall a, database_only (f a)) -> database_only (m ≫= f).
Proof.
  intros Hm Hf s s' er. rewrite bind_fst. destruct (m s) as [s1 [a|er']] eqn:E; [apply Hf|].
  intros [= _ <-]. by eapply Hm.
Qed.

Ltac database_step :=
  match goal with
  | |- database_only (_ ≫= _) => apply database_bind; [|intros ?]
  | |- database_only (if ?b then _ else _) => destruct b
  | |- database_only (match ?x with _ => _ end) => destruct x
  | |- database_only (require ?o _) => intros ? ? ?; unfold require; destruct o; cbn; congruence
  | |- database_only (attempt ?m) => intros s ? ?; unfold attempt; destruct (m s) as [? []]; congruence
  | |- database_only _ =>
      let E := fresh in intros ? ? ? E;
      unfold ask, modify, gets, raise, mret, M_ret in E; congruence
  end.

Lemma commit_errors e v version state soft_fail :
  database_only (upgrade_commit env auth_chain_of iter unordered e v room version state soft_fail).
Proof.
  unfold upgrade_commit, append_incoming_pdu, set_event_state, install_state, append_pdu, insert_pdu,
    next_count, fallible, add_prev_content, db_append_pdu, mark_as_referenced, mark_soft_failed, set_forward_extremities.
  repeat database_step. intros s s' er E. unfold lift in E. injection E as _ E. unfold resolve_state in E.
  destruct (room_states s !! room) as [current|]; cbn in E; [|congruence].
  unfold resolve_with in E. destruct (StateRes.resolve _ _ _ _ _ _ _); congruence.
Qed.

(** ** Properties *)

(** C12: complete mediation of incoming events. Whatever other servers answer, however
    the two copies of an event race, wherever a write whose error is propagated fails (those
    whose error the code drops are taken to succeed) and however the call ends, handling
    an event for a room is a run of legitimate deeds, each checked in the state the run
    had reached. An outlier is kept only when the object, verified under the version the
    room has, is an event of the room that its own auth events, as known when it is kept,
    and the create event authorize. An event is placed, and the room's state advanced by it, only
    when it was held, neither purged, soft-failed nor placed, and in the state from which it is placed
    passes the auth check against the state at it and against the room's current state and
    may make its redaction; the state installed is the room's current state resolved with the
    state after the event. An event is soft-failed only when it passes the first check and
    not the others. Every new outlier, timeline entry, soft failure and room state is that
    of a deed of the run, no other room's state changes, and what was in the timeline stays
    at its place. *)
Theorem handler_admits (lock x : string) (v : Object) (tl : bool) (s s' : Server)
    (r : result error (option RawPduId)) :
  wf s ->
  handle_incoming_pdu env fuel budget auth_chain_of iter unordered lock origin room x v tl s = (s', r) ->
  exists deeds,
    run s s deeds s' /\ Forall legit deeds /\
    (forall y w, outliers s' !! y = Some w ->
       outliers s !! y = Some w \/ exists t s0 s1, Keep t s0 s1 y w ∈ deeds) /\
    (forall y pid, eventid_pduid s' !! y = Some pid -> eventid_pduid s !! y = Some pid \/
       exists s0 s1 s2 e state, Settle s0 s1 s2 e state ∈ deeds /\ event_id e = y) /\
    (forall q st, room_states s' !! q = Some st -> room_states s !! q = Some st \/
       (q = room /\ exists s0 s1 s2 e state version, Settle s0 s1 s2 e state ∈ deeds /\
          get_room_version s0 room = Ok version /\ advanced version s1 e state st)) /\
    (forall y, y ∈ softfailed s' -> y ∈ softfailed s \/
       exists s0 s1 s2 e state, SoftFail s0 s1 s2 e state ∈ deeds /\ event_id e = y) /\
    (forall y pid, eventid_pduid s !! y = Some pid -> eventid_pduid s' !! y = Some pid).
Proof.
  intros W E. destruct (handle_run lock x v tl s W) as [deeds R]. rewrite E in R. cbn [fst] in R.
  exists deeds. destruct (run_accounted _ _ _ _ R) as [A1 A2 A3 A4].
  destruct (run_safe _ _ _ _ R W) as [_ Hev].
  split_and!; [done|by eapply run_legit|done..|]. apply (ev_kept _ _ Hev).
Qed.

(** C16: the tables stay well-formed: after handling an event, the two tables of the
    timeline are inverse to each other, every row lies in its event's room and within the
    counter, outliers are stored under their own id, no soft-failed event is in the
    timeline, and no purged event has come back. *)
Theorem handler_keeps_wf (lock x : string) (v : Object) (tl : bool) (s : Server) :
  wf s ->
  let s' := (handle_incoming_pdu env fuel budget auth_chain_of iter unordered lock origin room x v tl s).1 in
  wf s' /\ (forall y, y ∈ purged s -> eventid_pduid s' !! y = eventid_pduid s !! y).
Proof.
  intros W s'. destruct (handle_safe lock x v tl s W) as [W' Hev].
  split; [done|]. intros y Hy. subst s'.
  set (s' := (handle_incoming_pdu _ _ _ _ _ _ _ _ _ _ _ _ s).1) in *.
  destruct (eventid_pduid s' !! y) as [pid|] eqn:E.
  - by destruct (ev_new _ _ Hev y pid E).
  - destruct (eventid_pduid s !! y) as [pid|] eqn:E'; [|done].
    apply (ev_kept _ _ Hev) in E'. congruence.
Qed.

(** C14: an event is taken in once. When the handler answers with a PDU id, that row of the
    timeline is the event's, in its room; and whoever offers the event again, with whatever
    body, gets the same id and nothing changes. *)
Theorem handled_once (lock x : string) (v : Object) (tl : bool) (s s' : Server) (pid : RawPduId) :
  wf s ->
  handle_incoming_pdu env fuel budget auth_chain_of iter unordered lock origin room x v tl s
    = (s', Ok (Some pid)) ->
  (exists e, pduid_pdu s' !! pid = Some e /\ event_id e = x /\ room_id e = pid.1) /\
  (forall env' fuel' budget' chain' iter' unordered' origin' v' tl',
     handle_incoming_pdu env' fuel' budget' chain' iter' unordered' room origin' room x v' tl' s'
       = (s', Ok (Some pid))).
Proof.
  intros W E. destruct (handle_returns _ _ _ _ _ _ _ W E) as [_ Hid].
  pose proof (handle_safe lock x v tl s W) as [W' _]. rewrite E in W'. cbn in W'. split.
  - destruct (wf_ids _ W' x pid Hid) as (e & He & Hx). destruct (wf_back _ W' pid e He) as (_ & Hr & _).
    by exists e.
  - intros. unfold handle_incoming_pdu. rewrite bool_decide_true by done. cbn [negb].
    rewrite bind_fst. cbn [gets]. by rewrite Hid.
Qed.

(** Any event is the create event of a room in some state. *)
Lemma created_somewhere create : exists t, room_state_get t room RoomCreate "" = Some create.
Proof.
  exists (mkServer ∅ {[ (room, 0) := create ]} {[ "" := (room, 0) ]} ∅ ∅ ∅ ∅ ∅ ∅
    {[ room := {[ (RoomCreate, "") := "" ]} ]} ∅ ∅ 0 0).
  unfold room_state_get, get_pdu, get_non_outlier_pdu, get_pdu_outlier. cbn.
  rewrite lookup_singleton_eq. cbn. rewrite lookup_singleton_eq. cbn. rewrite lookup_singleton_eq, lookup_empty. cbn.
  by rewrite lookup_singleton_eq.
Qed.

(** C13: a refused or soft-failed event is inert. When an upgrade answers without a PDU id,
    or with any error but the database's, the timeline, the state of every room and all
    forward extremities are as before. *)
Theorem rejected_inert (e : Event) (v : Object) (create : Event) (s s' : Server)
    (r : result error (option RawPduId)) :
  upgrade_outlier_to_timeline_pdu env fuel auth_chain_of iter unordered e v create origin room s = (s', r) ->
  (r = Ok None \/ exists er, r = Err er /\ er <> Database) ->
  pduid_pdu s' = pduid_pdu s /\ eventid_pduid s' = eventid_pduid s /\
  room_states s' = room_states s /\ leaves s' = leaves s.
Proof.
  unfold upgrade_outlier_to_timeline_pdu. rewrite bind_fst. cbn [gets].
  destruct (eventid_pduid s !! event_id e) eqn:Ei; [by intros [= <- <-]|].
  destruct (is_soft_failed _ _); [by intros [= <- <-]|]. rewrite bind_fst. cbn [lift].
  destruct (get_room_version s room) as [version|]; [|by intros [= <- <-]].
  rewrite bind_fst. unfold require. destruct (ok_or (new version) UnsupportedRoomVersion) as [rv|]; [|by intros [= <- <-]].
  rewrite bind_fst. destruct (created_somewhere create) as [t Ht].
  pose proof (gathers_quiet _ _ _ (upgrade_check_gathers t create Ht e version rv s I)) as Hq.
  destruct (upgrade_check _ _ _ _ _ _ _ _ _ _ _ s) as [s1 [[state soft]|er]]; cbn in Hq;
    destruct (quiet_fields _ _ Hq) as (_ & Hp & Hi & _ & _ & _ & Hr & Hl & _); [|by intros [= <- <-]].
  rewrite <-Hp, <-Hi, <-Hr, <-Hl. intros E Hres. destruct soft.
  - unfold upgrade_commit, append_incoming_pdu, set_event_state, fallible in E.
    rewrite !bind_fst in E. cbn [ask] in E. by destruct (works env (tick s1)); injection E as <- <-.
  - destruct Hres as [->|(er & -> & Hne)]; [|by destruct Hne; eapply commit_errors].
    unfold upgrade_commit in E. apply bind_inv in E as (s2 & kept & _ & E).
    apply bind_inv in E as (s3 & [] & _ & E). unfold append_incoming_pdu in E.
    apply bind_inv in E as (s4 & [] & _ & E). by apply bind_inv in E as (s5 & pid & _ & [= ]).
Qed.

(** The room has an ACL that names servers to allow and does not let [server] in. *)
Definition acl_denies (s : Server) (server : string) : Prop :=
  server_is_ours env server = false /\ exists acl a,
    room_state_get s room RoomServerAcl "" = Some a /\ json_server_acl (content a) = Some acl /\
    allow acl <> [] /\ is_allowed acl server = false.

Lemma acl_check_denied s server :
  acl_denies s server -> acl_check env server room s = Err Forbidden.
Proof.
  intros (Ho & acl & a & Ha & Hj & Hne & Hal). unfold acl_check, acl_allows. rewrite Ho, Ha. cbn.
  by rewrite Hj, bool_decide_false, Hal.
Qed.

Lemma acl_check_cases s server :
  acl_check env server room s = Ok () \/ acl_check env server room s = Err Forbidden.
Proof.
  unfold acl_check. destruct (server_is_ours env server); [by left|].
  destruct (room_state_get s room RoomServerAcl "" ≫= _); [|by left]. destruct (acl_allows _ _); auto.
Qed.

(** C17: the order of refusals. An event offered under another room's lock, for an unknown
    or disabled room, from a server or by a user of a server the room's ACL denies, or
    from a server this one does not federate with is refused with that error, and nothing
    at all changes; an event already in the timeline or purged is answered before any of
    these checks. *)
Theorem admission_errors (lock x : string) (v : Object) (tl : bool) (s : Server) :
  let handled := handle_incoming_pdu env fuel budget auth_chain_of iter unordered lock origin room x v tl s in
  (lock <> room -> handled = (s, Err WrongLock)) /\
  (lock = room -> forall pid, eventid_pduid s !! x = Some pid -> handled = (s, Ok (Some pid))) /\
  (lock = room -> eventid_pduid s !! x = None -> x ∈ purged s -> handled = (s, Ok None)) /\
  (lock = room -> eventid_pduid s !! x = None -> x ∉ purged s ->
     (room_exists s room = false -> handled = (s, Err NotFound)) /\
     (room_exists s room = true ->
        (room ∈ disabled s \/ acl_denies s origin \/ forbids env origin = true \/
         (exists user, get_str "sender" v = Some user /\ valid_user_id user = true /\
            user_server_name user <> origin /\ acl_denies s (user_server_name user))) ->
        handled = (s, Err Forbidden))).
Proof.
  cbv zeta. unfold handle_incoming_pdu. split_and!.
  - intros Hl. by rewrite bool_decide_false by done.
  - intros -> pid Hx. rewrite bool_decide_true by done. cbn [negb]. rewrite bind_fst. cbn [gets]. by rewrite Hx.
  - intros -> Hx Hp. rewrite bool_decide_true by done. cbn [negb]. rewrite bind_fst. cbn [gets].
    by rewrite Hx, bool_decide_true.
  - intros -> Hx Hp. rewrite bool_decide_true by done. cbn [negb]. rewrite bind_fst. cbn [gets].
    rewrite Hx, bool_decide_false by done. rewrite bind_fst. cbn [lift]. unfold admission.
    split; [by intros ->|intros ->]. cbn [negb]. intros Hd.
    case_bool_decide as Hdis; [done|]. destruct Hd as [|Hd]; [done|].
    destruct (acl_check_cases s origin) as [Hor|Hor]; rewrite Hor; [|done]. cbn [mbind result_bind].
    destruct Hd as [Hd%acl_check_denied|[Hf|(user & Hu & Hv & Hne & Hd%acl_check_denied)]]; [congruence| |].
    + rewrite Hf. destruct (get_str "sender" v) as [user|]; [|done]. destruct (_ && _); [|done].
      by destruct (acl_check_cases s (user_server_name user)) as [->| ->].
    + rewrite Hu, Hv, bool_decide_false by done. cbn [negb andb]. by rewrite Hd.
Qed.

(** The tables [pdu_exists] reads. *)
Definition same_store (s s' : Server) : Prop :=
  pduid_pdu s' = pduid_pdu s /\ eventid_pduid s' = eventid_pduid s /\ outliers s' = outliers s.

Lemma backed_off_store x s : exists s1 b, is_backed_off env x s = (s1, Ok b) /\ same_store s s1.
Proof.
  unfold is_backed_off. rewrite bind_fst. cbn [gets].
  destruct (bad_events s !! x) as [[last tries]|]; by eexists _, _.
Qed.

Lemma fetch_event_spec x version s s' o :
  fetch_event env origin x room version s = (s', Ok o) ->
  same_store s s' /\ forall v, o = Some v ->
    gen_event_id v version = Some x /\ room_id_of_pdu_json v = Some room.
Proof.
  unfold fetch_event. intros (s1 & response & [= <- <-] & [= <- <-])%bind_inv. split; [done|].
  intros v (v0 & _ & Ev)%bind_Some. apply bind_Some in Ev as (y & Hy & Ev).
  case_bool_decide as Hxy; [|done]. cbn [negb] in Ev. case_bool_decide as Hroom; [|done]. cbn [negb] in Ev.
  injection Ev as <-. by subst.
Qed.

Lemma try_fetch_spec version x s s' o :
  try_fetch env origin room version x s = (s', Ok o) ->
  same_store s s' /\
  forall v, o = Some v ->
    pdu_exists s x = false /\ gen_event_id v version = Some x /\ room_id_of_pdu_json v = Some room.
Proof.
  unfold try_fetch. intros (s1 & s0 & [= <- <-] & E)%bind_inv.
  destruct (pdu_exists s x); [by injection E as <- <-|].
  apply bind_inv in E as (s1 & b & Eb & E). destruct (backed_off_store x s) as (s2 & b' & Eb' & Hs).
  rewrite Eb in Eb'. injection Eb' as <- <-. destruct b; [by injection E as <- <-|].
  apply bind_inv in E as (s2 & value & Ef & E). apply fetch_event_spec in Ef as [(Hp & Hi & Ho) Hv].
  assert (Hs2 : same_store s s2) by (destruct Hs as (? & ? & ?); split_and!; congruence).
  destruct value as [v|].
  - injection E as <- <-. split; [done|]. intros v' [= <-]. split; [done|by apply Hv].
  - apply bind_inv in E as (s3 & [] & [= <-] & [= <- <-]). split; [exact Hs2|done].
Qed.

Lemma same_store_exists s s' x : same_store s s' -> pdu_exists s' x = pdu_exists s x.
Proof. intros (Hp & Hi & Ho). unfold pdu_exists, get_non_outlier_pdu. by rewrite Hp, Hi, Ho. Qed.

Lemma graph_store version s s1 x :
  same_store s s1 -> same_store s (graph_visit env origin room version s1 x).1.
Proof.
  intros Hs. unfold graph_visit. destruct (try_fetch _ _ _ _ _ s1) as [s2 [o|er]] eqn:Et; cbn.
  - apply try_fetch_spec in Et as [(? & ? & ?) _]. destruct Hs as (? & ? & ?). split_and!; congruence.
  - exfalso. unfold try_fetch in Et. rewrite bind_fst in Et. cbn [gets] in Et.
    destruct (pdu_exists s1 x); [done|]. rewrite bind_fst in Et.
    destruct (backed_off_store x s1) as (s3 & b & Eb & _). rewrite Eb in Et. destruct b; [done|].
    rewrite bind_fst in Et. unfold fetch_event in Et. rewrite bind_fst in Et. cbn [ask] in Et.
    cbn [mret M_ret] in Et. by destruct (value ← get_event env (tick s3) origin x; _).
Qed.

(** C15: auth events come before the events they authorize. An event id is a hash over the
    ids of its auth events, so ids have a rank; then the walk over missing auth events
    ends, whatever the other server answers, and yields each event at most once, only
    events this server did not hold, with the id and room they were asked for, and after
    every auth event of theirs that it yields at all. *)
Theorem fetch_auth_graph_order (events : list string)
    (version : RoomVersionId) (rank : string -> nat) (s : Server) :
  (forall v x, gen_event_id v version = Some x -> forall a, a ∈ auth_event_ids v -> (rank a < rank x)%nat) ->
  (exists n s' order, fetch_auth_graph env n origin events room version s = (s', Ok order)) /\
  (forall n s' order, fetch_auth_graph env n origin events room version s = (s', Ok order) ->
     NoDup order.*1 /\
     Forall (fun xv : string * Object => pdu_exists s xv.1 = false /\ gen_event_id xv.2 version = Some xv.1 /\
       room_id_of_pdu_json xv.2 = Some room) order /\
     forall l1 x v l2, order = l1 ++ (x, v) :: l2 ->
       forall a, a ∈ auth_event_ids v -> a ∈ l1.*1 \/ a ∉ order.*1).
Proof.
  intros Hrank.
  assert (Hvisit : forall s1 x s2 v, graph_visit env origin room version s1 x = (s2, Some v) ->
    pdu_exists s1 x = false /\ gen_event_id v version = Some x /\ room_id_of_pdu_json v = Some room).
  { intros s1 x s2 v. unfold graph_visit. destruct (try_fetch _ _ _ _ _ _) as [s3 [o|]] eqn:Et; [|done].
    intros [= <- ->]. apply try_fetch_spec in Et as [_ Ht]. by apply Ht. }
  assert (Hr : forall s1 x s2 v, graph_visit env origin room version s1 x = (s2, Some v) ->
    forall a, a ∈ auth_event_ids v -> (rank a < rank x)%nat).
  { intros s1 x s2 v E. apply Hrank. by apply Hvisit in E as (_ & ? & _). }
  unfold fetch_auth_graph. split.
  - destruct (walk_ends _ auth_event_ids rank Hr s events) as [n [[s' order] E]].
    exists n, s', order. by rewrite E.
  - intros n s' order. destruct (walk _ _ _ _ _) as [[s1 l]|] eqn:E; [|done]. intros [= <- <-].
    destruct (walk_inv _ auth_event_ids rank Hr _ _ _ _ _ (inv_start _ _ _) E) as [Hnd Hord].
    split_and!; [done| |done].
    eapply (walk_values _ _ (same_store s) (fun x v => pdu_exists s x = false /\
      gen_event_id v version = Some x /\ room_id_of_pdu_json v = Some room)); [| | | | |exact E]; try done.
    + intros s2 x. apply graph_store.
    + intros s2 x s3 v Hs2 Ev. rewrite <-(same_store_exists _ _ x Hs2). by apply Hvisit in Ev.
Qed.

End Handling.
End HandlerFacts.
