(* ===== verification/HandlerSample.v ===== *)
(** A room and a peer on which the event handler is evaluated: the witnesses of its
    theorems, and what its source allows that its comments rule out. *)
From S2P Require Import Prelude Order Event Sample Backoff PduJson Membership EventAuth StateRes FetchGraph Timeline Handler HandlerFacts.
From Stdlib Require Import Ascii.

Module HandlerSample.
Import PduJson Timeline FetchGraph Handler HandlerFacts Sample.

(** ** Events *)

Definition alice_join : Event :=
  mkEvent "$alice:a" room alice 1 RoomMember "join" (Some alice) ["$create:a"] ["$create:a"] None.
Definition rules : Event :=
  mkEvent "$rules:a" room alice 2 RoomJoinRules "public" (Some "") ["$alice:a"]
    ["$create:a"; "$alice:a"] None.
Definition bob_join : Event :=
  mkEvent "$bob:b" room bob 3 RoomMember "join" (Some bob) ["$rules:a"] ["$create:a"; "$rules:a"] None.
(** A message of [bob], who has joined. *)
Definition hello : Event :=
  mkEvent "$hello:b" room bob 4 "m.room.message" "hello" None ["$bob:b"] ["$create:a"; "$bob:b"] None.
(** A message of [carol], who has not. *)
Definition intruder : Event :=
  mkEvent "$intruder:c" room carol 4 "m.room.message" "hello" None ["$rules:a"] ["$create:a"] None.
(** [alice] bans [bob]. *)
Definition bob_ban : Event :=
  mkEvent "$ban:a" room alice 5 RoomMember "ban" (Some bob) ["$bob:b"]
    ["$create:a"; "$alice:a"; "$bob:b"] None.

(** Two messages of [alice], the second after the first. *)
Definition first_message : Event :=
  mkEvent "$first:a" room alice 6 "m.room.message" "1" None ["$rules:a"] ["$create:a"; "$alice:a"] None.
Definition second_message : Event :=
  mkEvent "$second:a" room alice 7 "m.room.message" "2" None ["$first:a"] ["$create:a"; "$alice:a"] None.
(** An event of another room, which names events of this one. *)
Definition other : string := "!other:a".
Definition stray : Event :=
  mkEvent "$stray:a" other alice 8 "m.room.message" "?" None ["$rules:a"] ["$create:a"; "$alice:a"] None.
Definition after_stray : Event :=
  mkEvent "$after:a" room alice 9 "m.room.message" "!" None ["$stray:a"] ["$create:a"; "$alice:a"] None.

Definition all_events : list Event :=
  [create; alice_join; rules; bob_join; hello; intruder; bob_ban; first_message; second_message; stray; after_stray].

Definition event_named (x : string) : option Event :=
  List.find (fun e => bool_decide (event_id e = x)) all_events.

(** An event as JSON names itself; its hash is its id without the sigil. *)
Definition json_of (e : Event) : Object :=
  {[ "hash" := CString (match event_id e with String _ h => h | _ => "" end);
     "room_id" := CString (room_id e);
     "sender" := CString (sender e);
     "auth_events" := CArray (CString <$> auth_events e) ]}.

(** The hash covers the auth events: an object is the event its hash names only with
    those. *)
Definition auth_strings (o : Object) : list string :=
  match o !! "auth_events" with Some (CArray l) => omap as_str l | _ => [] end.

#[export] Instance sample_pdu_format : PduFormat := {|
  has_rules v := true;
  require_room_create_room_id v := true;
  reference_hash o v :=
    h ← get_str "hash" o; e ← event_named (String "$"%char h);
    if bool_decide (auth_strings o = auth_events e) then Some h else None;
  valid_room_id r := String.prefix "!" r;
  pdu_of_json o :=
    id ← get_str "event_id" o; r ← get_str "room_id" o; e ← event_named id;
    if bool_decide (event_id e = id) && bool_decide (room_id e = r) then Some e else None;
  redact_json o v := Some o;
  redact_content v e := Some "";
  json_redacts c := Some None;
  json_create_version c := Some (IdV6, [])
|}.

#[export] Instance sample_room_format : RoomFormat := {|
  json_server_acl c := None;
  is_allowed acl server := true;
  user_can_redact_event_of_other l v c u := false;
  user_can_redact_own_event l v c u := true;
  outlier_first n x := false
|}.

Lemma get_str_lookup field o x : get_str field o = Some x -> o !! field = Some (CString x).
Proof. unfold get_str. by intros ([] & Hv & [= ->])%bind_Some. Qed.

#[export] Instance sample_pdu_laws : PduFormatLaws.
Proof.
  split; cbn -[event_named]; intros o e (x & Hx%get_str_lookup & E)%bind_Some;
    apply bind_Some in E as (r & Hr%get_str_lookup & E); apply bind_Some in E as (e' & _ & E);
    do 2 case_bool_decide; by simplify_eq/=.
Qed.

(** ** The server and its peer *)

Definition base_state : gmap TypeStateKey string :=
  {[ (RoomCreate, "") := "$create:a"; (RoomMember, alice) := "$alice:a" ]}.
Definition rules_state : gmap TypeStateKey string := <[(RoomJoinRules, "") := "$rules:a"]> base_state.

Definition server : Server :=
  mkServer {[room]}
    {[ (room, 1) := create; (room, 2) := alice_join; (room, 3) := rules ]}
    {[ "$create:a" := (room, 1); "$alice:a" := (room, 2); "$rules:a" := (room, 3) ]}
    ∅ ∅ ∅ ∅ ∅ {[ "$rules:a" := base_state ]} {[ room := rules_state ]}
    {[ room := {["$rules:a"]} ]} ∅ 3 0.

(** A peer that answers with the sample's events, and signatures that verify. *)
Definition env : Env :=
  mkEnv (fun _ => 0) (fun _ => true) (fun _ _ x => json_of <$> event_named x)
    (fun _ _ _ _ => None) (fun _ _ _ => None) (fun _ _ _ => Some All) (fun _ => false) (fun _ => false).

Definition no_chain (store : gmap string Event) (r : string) (ids : list string) : gset string := ∅.

Definition handle (e : Event) (s : Server) : Server * result error (option RawPduId) :=
  handle_incoming_pdu env 100 1000 no_chain elements id room "b" room (event_id e) (json_of e) true s.

Definition is_placed (r : result error (option RawPduId)) : bool :=
  match r with Ok (Some _) => true | _ => false end.

Example bob_joins : is_placed (handle bob_join server).2 = true.
Proof. vm_compute. reflexivity. Qed.

Example intruder_refused : (handle intruder server).2 = Err Forbidden.
Proof. vm_compute. reflexivity. Qed.

(** ** Witnesses *)

Ltac lookups H :=
  repeat first [apply lookup_insert_Some in H as [[<- <-]|[_ H]] | apply lookup_singleton_Some in H as [<- <-]].

Lemma server_wf : wf server.
Proof.
  split; unfold server; cbn [eventid_pduid pduid_pdu outliers softfailed count].
  - intros x pid Hx. lookups Hx; eexists; (split; [vm_compute; reflexivity|reflexivity]).
  - intros pid e He. lookups He; (split_and!; [vm_compute; reflexivity|reflexivity|cbn; lia]).
  - intros x v e Hx. by rewrite lookup_empty in Hx.
  - intros x Hx. by apply elem_of_empty in Hx.
Qed.

(** The server after [bob] has joined. *)
Definition joined : Server := (handle bob_join server).1.

(** [bob]'s join was placed, and the room's state advanced, by deeds of a run. *)
Lemma handler_admits_witness :
  is_placed (handle bob_join server).2 = true /\
  exists deeds, run env no_chain elements id "b" room server server deeds joined /\
    Forall (legit env no_chain elements id "b" room) deeds /\
    exists s0 s1 s2 e state, Settle s0 s1 s2 e state ∈ deeds /\ event_id e = "$bob:b".
Proof.
  split; [vm_compute; reflexivity|].
  destruct (handler_admits env 100 1000 no_chain elements id "b" room room "$bob:b" (json_of bob_join)
    true server joined (handle bob_join server).2 server_wf) as (deeds & R & L & _ & Hids & _).
  { unfold joined, handle. by destruct (handle_incoming_pdu _ _ _ _ _ _ _ _ _ _ _ _ _). }
  exists deeds. split; [exact R|]. split; [exact L|].
  destruct (Hids "$bob:b" (room, 5)) as [E|D]; [vm_compute; reflexivity|vm_compute in E; discriminate E|exact D].
Defined.

Lemma handler_keeps_wf_witness : wf joined.
Proof.
  exact (proj1 (handler_keeps_wf env 100 1000 no_chain elements id "b" room room "$bob:b" (json_of bob_join)
    true server server_wf)).
Defined.

(** The id a placed event got. *)
Definition placed_at (r : result error (option RawPduId)) : RawPduId :=
  match r with Ok (Some pid) => pid | _ => ("", 0) end.

Lemma handled_once_witness :
  placed_at (handle bob_join server).2 = (room, 5) /\ handle bob_join joined = (joined, Ok (Some (room, 5))).
Proof.
  split; [vm_compute; reflexivity|].
  refine (proj2 (handled_once env 100 1000 no_chain elements id "b" room room "$bob:b" (json_of bob_join)
    true server joined (room, 5) server_wf _) env 100%nat 1000 no_chain elements id "b" (json_of bob_join) true).
  assert (E : (handle bob_join server).2 = Ok (Some (room, 5))) by (vm_compute; reflexivity).
  unfold joined, handle in *. destruct (handle_incoming_pdu _ _ _ _ _ _ _ _ _ _ _ _ _) as [s r].
  cbn in *. by rewrite E.
Defined.

(** [carol]'s message, offered straight to the upgrade. *)
Definition intrusion : Server * result error (option RawPduId) :=
  upgrade_outlier_to_timeline_pdu env 100 no_chain elements id intruder (json_of intruder) create "b" room server.

Lemma rejected_inert_witness :
  intrusion.2 = Err Forbidden /\ eventid_pduid intrusion.1 = eventid_pduid server.
Proof.
  assert (E : intrusion.2 = Err Forbidden) by (vm_compute; reflexivity). split; [exact E|].
  refine (proj1 (proj2 (rejected_inert env 100 no_chain elements id "b" room intruder (json_of intruder) create
    server intrusion.1 intrusion.2 _ _))).
  - unfold intrusion. by destruct (upgrade_outlier_to_timeline_pdu _ _ _ _ _ _ _ _ _ _ _).
  - right. exists Forbidden. split; [exact E|discriminate].
Defined.

(** Events after those they name. *)
Definition sample_rank (x : string) : nat :=
  if bool_decide (x = "$create:a") then 0 else if bool_decide (x = "$alice:a") then 1
  else if bool_decide (x = "$rules:a") then 2 else if bool_decide (x = "$bob:b") then 3 else 4.

Definition ranks_hold (e : Event) : bool :=
  forallb (fun a => bool_decide (sample_rank a < sample_rank (event_id e))%nat) (auth_events e).

Lemma handler_sample_ranked (v : Object) (x : string) :
  gen_event_id v IdV6 = Some x -> forall a, a ∈ auth_event_ids v -> (sample_rank a < sample_rank x)%nat.
Proof.
  unfold gen_event_id. cbn -[event_named String.prefix]. intros (h & E & Hx)%bind_Some a Ha.
  apply bind_Some in E as (h' & _ & E). apply bind_Some in E as (e & He & E).
  case_bool_decide as Hauth; [|done]. injection E as ->. destruct (String.prefix _ _); [|done]. injection Hx as <-.
  apply List.find_some in He as [Hin Hid]. apply bool_decide_eq_true in Hid.
  assert (Hall : forallb ranks_hold all_events = true) by (vm_compute; reflexivity).
  rewrite forallb_forall in Hall. apply Hall in Hin. unfold ranks_hold in Hin. rewrite forallb_forall, Hid in Hin.
  specialize (Hin a). rewrite bool_decide_eq_true in Hin. apply Hin. rewrite <-Hauth. apply list_elem_of_In.
  unfold auth_event_ids in Ha. unfold auth_strings. destruct (v !! "auth_events") as [[]|]; try by apply elem_of_nil in Ha.
  by apply list_elem_of_filter in Ha as [_ Ha].
Qed.

(** A server that knows nothing asks for [hello] and is given what it builds on first. *)
Definition fresh : Server := mkServer ∅ ∅ ∅ ∅ ∅ ∅ ∅ ∅ ∅ ∅ ∅ ∅ 0 0.

Lemma fetch_auth_graph_order_witness :
  match fetch_auth_graph env 100 "b" ["$hello:b"] room IdV6 fresh with
  | (_, Ok order) => order.*1 = ["$create:a"; "$alice:a"; "$rules:a"; "$bob:b"; "$hello:b"] /\ NoDup order.*1
  | _ => False
  end.
Proof.
  pose proof (proj2 (fetch_auth_graph_order env "b" room ["$hello:b"] IdV6 sample_rank fresh handler_sample_ranked) 100%nat) as H.
  assert (E : (match (fetch_auth_graph env 100 "b" ["$hello:b"] room IdV6 fresh).2 with
     | Ok order => Some order.*1 | Err _ => None end) =
     Some ["$create:a"; "$alice:a"; "$rules:a"; "$bob:b"; "$hello:b"]) by (vm_compute; reflexivity).
  destruct (fetch_auth_graph env 100 "b" ["$hello:b"] room IdV6 fresh) as [s' [order|er]]; [|discriminate E].
  cbn in E. injection E as E. split; [exact E|]. exact (proj1 (H s' order eq_refl)).
Defined.

(** ** What the source allows *)

(** The peer of [env], which also answers for missing events and states. *)
Definition helpful (missing : list Event) : Env :=
  mkEnv (fun _ => 0) (fun _ => true) (fun _ _ x => json_of <$> event_named x)
    (fun _ _ _ _ => Some (json_of <$> missing))
    (fun _ _ _ => Some ([], ["$create:a"; "$alice:a"; "$rules:a"]))
    (fun _ _ _ => Some All) (fun _ => false) (fun _ => false).

Definition handle_with (env : Env) (e : Event) (s : Server) : Server * result error (option RawPduId) :=
  handle_incoming_pdu env 100 1000 no_chain elements id room "b" room (event_id e) (json_of e) true s.

Definition leaf (r x : string) (s : Server) : bool := bool_decide (x ∈ default ∅ (leaves s !! r)).

(** An event that arrives after the one that follows it becomes a forward extremity,
    although it is known to be referenced. *)
Theorem late_event_becomes_leaf :
  let s := (handle_with (helpful []) first_message (handle_with (helpful []) second_message server).1).1 in
  leaf room "$first:a" s = true /\ leaf room "$second:a" s = true /\
  bool_decide ((room, "$first:a") ∈ referenced s) = true.
Proof. vm_compute. done. Qed.

(** A peer that lists an accepted event among the missing ones has it stored a second
    time, as an outlier with the body the peer sent. *)
Theorem accepted_event_stored_again :
  let s := (handle_with (helpful [rules]) second_message server).1 in
  bool_decide (is_Some (eventid_pduid s !! "$rules:a")) = true /\
  bool_decide (is_Some (outliers s !! "$rules:a")) = true.
Proof. vm_compute. done. Qed.

(** An outlier of another room named as a previous event is placed in that other room's
    timeline on this room's authority, and that room's extremities become this room's. *)
Theorem stray_placed_in_other_room :
  let s0 := set_outliers {[ "$stray:a" := <["event_id" := CString "$stray:a"]> (json_of stray) ]}
              (mkServer {[room; other]} (pduid_pdu server) (eventid_pduid server) ∅ ∅ ∅ ∅ ∅
                 (event_states server) (room_states server) (leaves server) ∅ 3 0) in
  let s := (handle_with env after_stray s0).1 in
  bool_decide ((fst <$> eventid_pduid s !! "$stray:a") = Some other) = true /\
  leaf other "$stray:a" s = true.
Proof. vm_compute. done. Qed.

(** The checks run before the room's state lock is taken: a ban that lands in between
    does not stop the event. *)
Theorem late_ban :
  let checked := upgrade_check env 100 no_chain elements id hello create "b" room IdV6 V6 joined in
  let banned := set_room_states {[ room := <[(RoomMember, bob) := "$ban:a"]> rules_state ]}
                  (set_timeline (<[(room, 6) := bob_ban]> (pduid_pdu joined))
                     (<["$ban:a" := (room, 6)]> (eventid_pduid joined)) (set_count 6 joined)) in
  match checked with
  | (_, Ok (state, soft_fail)) =>
      soft_fail = false /\
      EventAuth.auth_check (room_state_get banned room) V6 hello = Ok false /\
      is_placed (upgrade_commit env no_chain elements id hello (json_of hello) room IdV6 state soft_fail banned).2 = true
  | _ => False
  end.
Proof. vm_compute. done. Qed.

(** When the counter fails after the room's state was installed, the room's state and
    extremities name an event that is not in its timeline. *)
Theorem half_committed :
  let failing := mkEnv (fun _ => 0) (fun n => bool_decide (n < 5)%nat) (fun _ _ x => json_of <$> event_named x)
    (fun _ _ _ _ => None) (fun _ _ _ => None) (fun _ _ _ => Some All) (fun _ => false) (fun _ => false) in
  let '(s, r) := handle_with failing bob_join server in
  is_ok r = false /\ leaf room "$bob:b" s = true /\
  bool_decide ((room_states s !! room ≫= fun st : gmap TypeStateKey string => st !! (RoomMember, bob)) = Some "$bob:b") = true /\
  bool_decide (eventid_pduid s !! "$bob:b" = None) = true.
Proof. vm_compute. done. Qed.

End HandlerSample.
