(* ===== verification/StateCache.v ===== *)
(** The membership cache, [phantom-service/src/rooms/state_cache]: who is joined to,
    invited to, knocking on or out of which room, by user and by room, which servers
    are in a room, and which application services are.

    The columns are those of Maps.v, at the level of bytes, with the keys of Codec.v;
    whether RocksDB takes a write is an argument ([ios]), since every error is dropped
    ([.ok()]). Identifiers are their bytes; what [ruma] says about them is the class
    [Ids]. Answers of other services (accounts, configuration, the counter) are the
    record [Answers]. *)
From S2P Require Import Prelude Order Event Codec Cursor Maps SetOps.

Module StateCache.
#[local] Abbreviation MembershipState := Event.MembershipState.

(** [<&UserId>::try_from], [<&RoomId>::try_from], [<&ServerName>::try_from] and
    [UserId::server_name]. *)
Class Ids := {
  is_user : bytes -> bool;
  is_room : bytes -> bool;
  is_server : bytes -> bool;
  server_name : bytes -> bytes
}.

(** Identifiers are text, and the server of a user has a server's name. *)
Class IdsLaws `{Ids} : Prop := {
  user_utf8 u : is_user u = true -> Utf8.valid u = true;
  room_utf8 r : is_room r = true -> Utf8.valid r = true;
  server_utf8 s : is_server s = true -> Utf8.valid s = true;
  server_name_ok u : is_user u = true -> is_server (server_name u) = true
}.

(** [Panic]: an [expect] failed. The others come from the services asked. *)
Inductive error := Panic | Create | AccountData.

(** ** Columns *)

Definition ROOMID_INVITEDCOUNT : string := "roomid_invitedcount".
Definition ROOMID_INVITEVIASERVERS : string := "roomid_inviteviaservers".
Definition ROOMID_JOINEDCOUNT : string := "roomid_joinedcount".
Definition ROOMSERVERIDS : string := "roomserverids".
Definition ROOMUSERID_INVITECOUNT : string := "roomuserid_invitecount".
Definition ROOMUSERID_JOINED : string := "roomuserid_joined".
Definition ROOMUSERID_KNOCKEDCOUNT : string := "roomuserid_knockedcount".
Definition ROOMUSERID_LEFTCOUNT : string := "roomuserid_leftcount".
Definition ROOMUSERONCEJOINEDIDS : string := "roomuseroncejoinedids".
Definition SERVERROOMIDS : string := "serverroomids".
Definition USERROOMID_INVITESTATE : string := "userroomid_invitestate".
Definition USERROOMID_JOINED : string := "userroomid_joined".
Definition USERROOMID_KNOCKEDSTATE : string := "userroomid_knockedstate".
Definition USERROOMID_LEFTSTATE : string := "userroomid_leftstate".

Inductive Membership := Joined | Invited | Knocked | Left.
#[export] Instance Membership_eq_dec : EqDecision Membership.
Proof. solve_decision. Defined.

(** The column by user and the column by room of each membership. *)
Definition user_column (m : Membership) : string :=
  match m with
  | Joined => USERROOMID_JOINED | Invited => USERROOMID_INVITESTATE
  | Knocked => USERROOMID_KNOCKEDSTATE | Left => USERROOMID_LEFTSTATE
  end.
Definition room_column (m : Membership) : string :=
  match m with
  | Joined => ROOMUSERID_JOINED | Invited => ROOMUSERID_INVITECOUNT
  | Knocked => ROOMUSERID_KNOCKEDCOUNT | Left => ROOMUSERID_LEFTCOUNT
  end.

(** [serialize_key((a, b))] and the prefix [(a, Interfix)], as the codec writes them. *)
Definition key2 (a b : bytes) : bytes :=
  Codec.key_bytes [Codec.VStr (payload := unit) a; Codec.VStr b].
Definition interfix (a : bytes) : bytes := Codec.frame [a].

(** Rows of other crates' JSON: the stripped state of an invite or a knock. *)
Class Stripped (stripped : Type) := {
  to_json : list stripped -> bytes;
  of_json : bytes -> option (list stripped)
}.

(** [HashSet] iteration order. *)
Definition enumerates (iter : gset bytes -> list bytes) : Prop := forall X, iter X ≡ₚ elements X.

(** [RegistrationInfo]: its id, its sender, if that parses, and [users.is_match]. *)
Record Appservice := mkAppservice {
  registration_id : string;
  sender_user : option bytes;
  users_match : bytes -> bool
}.

Record State := mkState {
  db : Maps.Db;
  appservice_in_room_cache : gmap bytes (gmap string bool)
}.

(** What other services answer while a membership is updated: whether the user is
    local, exists, and can be created; the outcome of copying the settings of the
    room's predecessor, if it has one; whether the user ignores the sender; whether
    leaving forgets; the next count, if the counter is available. *)
Record Answers := mkAnswers {
  user_is_local : bool;
  user_exists : bool;
  create : result error unit;
  predecessor : option (result error unit);
  user_is_ignored : bool;
  forget_forced_upon_leave : bool;
  is_banned : bool;
  is_disabled : bool;
  next_count : option Z
}.

(** ** Reading *)

Section Reads.
Context `{Ids} {stripped : Type} `{Stripped stripped}.

Definition contains (name : string) (key : bytes) (d : Maps.Db) : bool :=
  bool_decide (is_Some (Maps.cf name d !! key)).

Definition expect (p : bytes -> bool) (x : bytes) : result error bytes :=
  if p x then Ok x else Err Panic.

(** [(Ignore, &str)]: the second record of a key, or a decoding error. *)
Definition second (key : bytes) : option bytes :=
  match Codec.from_slice (payload := unit) (fun _ => None) (fun _ => None) false
          (Codec.STuple [Codec.SIgnore; Codec.SStr]) key with
  | Ok (Codec.VTuple [_; Codec.VStr b]) => Some b
  | _ => None
  end.

(** [keys_prefix(&(a, Interfix)).ignore_err()] *)
Definition seconds (name : string) (a : bytes) (d : Maps.Db) : list bytes :=
  omap second (scan_prefix (interfix a) (Maps.cf name d)).*1.

(** The streams of users below a room, of rooms below a user and of servers; a row
    that does not parse makes the stream panic. *)
Definition room_users (name : string) (room_id : bytes) (d : Maps.Db) : result error (list bytes) :=
  mapM (expect is_user) (seconds name room_id d).

Definition room_members (room_id : bytes) (d : Maps.Db) := room_users ROOMUSERID_JOINED room_id d.
Definition room_members_invited (room_id : bytes) (d : Maps.Db) :=
  room_users ROOMUSERID_INVITECOUNT room_id d.
Definition room_members_knocked (room_id : bytes) (d : Maps.Db) :=
  room_users ROOMUSERID_KNOCKEDCOUNT room_id d.
Definition room_useroncejoined (room_id : bytes) (d : Maps.Db) :=
  room_users ROOMUSERONCEJOINEDIDS room_id d.
Definition local_users_in_room (is_local : bytes -> bool) (room_id : bytes) (d : Maps.Db) :
    result error (list bytes) :=
  filter (fun u => is_local u = true) <$> room_members room_id d.

Definition rooms_joined (user_id : bytes) (d : Maps.Db) : result error (list bytes) :=
  mapM (expect is_room) (seconds USERROOMID_JOINED user_id d).
Definition room_servers (room_id : bytes) (d : Maps.Db) : result error (list bytes) :=
  mapM (expect is_server) (seconds ROOMSERVERIDS room_id d).
Definition server_rooms (server : bytes) (d : Maps.Db) : result error (list bytes) :=
  mapM (expect is_room) (seconds SERVERROOMIDS server d).

#[local] Instance bytes_lt_dec : RelDecision (fun a b : bytes => cmp a b = Lt).
Proof. intros a b. apply _. Defined.

Definition get_shared_rooms (user_a user_b : bytes) (d : Maps.Db) : result error (list bytes) :=
  a ← rooms_joined user_a d;
  b ← rooms_joined user_b d;
  Ok (SetOps.intersection_sorted_stream2 (fun a b : bytes => cmp a b = Lt) a b).

Definition user_sees_user (user_a user_b : bytes) (d : Maps.Db) : result error bool :=
  rooms ← get_shared_rooms user_a user_b d;
  Ok (bool_decide (is_Some (head rooms))).

Definition heroes_limit : nat := 5.
Definition heroes (room_id excluding : bytes) (d : Maps.Db) : result error (list bytes) :=
  members ← mapM (expect is_user) (take (S heroes_limit)
    (seconds ROOMUSERID_JOINED room_id d ++ seconds ROOMUSERID_INVITECOUNT room_id d));
  Ok (take heroes_limit (filter (fun user_id => user_id <> excluding) members)).

Definition once_joined (user_id room_id : bytes) (d : Maps.Db) : bool :=
  contains ROOMUSERONCEJOINEDIDS (key2 room_id user_id) d.
Definition is_joined (user_id room_id : bytes) (d : Maps.Db) : bool :=
  contains USERROOMID_JOINED (key2 user_id room_id) d.
Definition is_knocked (user_id room_id : bytes) (d : Maps.Db) : bool :=
  contains USERROOMID_KNOCKEDSTATE (key2 user_id room_id) d.
Definition is_invited (user_id room_id : bytes) (d : Maps.Db) : bool :=
  contains USERROOMID_INVITESTATE (key2 user_id room_id) d.
Definition is_left (user_id room_id : bytes) (d : Maps.Db) : bool :=
  contains USERROOMID_LEFTSTATE (key2 user_id room_id) d.

Definition user_membership (user_id room_id : bytes) (d : Maps.Db) : option MembershipState :=
  match is_joined user_id room_id d, is_left user_id room_id d, is_knocked user_id room_id d,
        is_invited user_id room_id d, once_joined user_id room_id d with
  | true, _, _, _, _ => Some Event.Join
  | _, true, _, _, _ => Some Event.Leave
  | _, _, true, _, _ => Some Event.Knock
  | _, _, _, true, _ => Some Event.Invite
  | false, false, false, false, true => Some Event.Ban
  | _, _, _, _, _ => None
  end.

(** [stripped_state], for the three columns; an absent row and one that does not
    parse are both errors. *)
Definition stripped_state (name : string) (user_id room_id : bytes) (d : Maps.Db) :
    option (list stripped) :=
  v ← Maps.cf name d !! key2 user_id room_id; of_json v.
Definition invite_state := stripped_state USERROOMID_INVITESTATE.
Definition knock_state := stripped_state USERROOMID_KNOCKEDSTATE.
Definition left_state := stripped_state USERROOMID_LEFTSTATE.

Definition server_in_room (server room_id : bytes) (d : Maps.Db) : bool :=
  contains SERVERROOMIDS (key2 server room_id) d.

Definition server_sees_user (server user_id : bytes) (d : Maps.Db) : result error bool :=
  rooms ← server_rooms server d;
  Ok (existsb (fun room_id => is_joined user_id room_id d) rooms).

(** [room_joined_count] and [room_invited_count]; [get_invite_count], [get_knock_count]
    and [get_left_count]: a number at a key. *)
Definition number (name : string) (key : bytes) (d : Maps.Db) : option Z :=
  v ← Maps.cf name d !! key;
  match Codec.from_slice (payload := unit) (fun _ => None) (fun _ => None) false Codec.SU64 v with
  | Ok (Codec.VU64 z) => Some z
  | _ => None
  end.
Definition room_joined_count := number ROOMID_JOINEDCOUNT.
Definition room_invited_count := number ROOMID_INVITEDCOUNT.
Definition get_invite_count (room_id user_id : bytes) := number ROOMUSERID_INVITECOUNT (key2 room_id user_id).
Definition get_knock_count (room_id user_id : bytes) := number ROOMUSERID_KNOCKEDCOUNT (key2 room_id user_id).
Definition get_left_count (room_id user_id : bytes) := number ROOMUSERID_LEFTCOUNT (key2 room_id user_id).

(** The rows are those whose key starts with the bytes of the room id: no separator
    ends the prefix. *)
Definition servers_invite_via (room_id : bytes) (d : Maps.Db) : result error (list bytes) :=
  let servers (v : bytes) :=
    match Codec.from_slice (payload := unit) (fun _ => None) (fun _ => None) false
            (Codec.SSeq Codec.SStr) v with
    | Ok (Codec.VSeq vs) => omap (fun v => match v with Codec.VStr s => Some s | _ => None end) vs
    | _ => []
    end in
  mapM (expect is_server)
    (concat (servers <$> (scan_prefix room_id (Maps.cf ROOMID_INVITEVIASERVERS d)).*2)).

(** The closure of [known_servers] on the streamed keys [(&str, Ignore)]. *)
Definition known_server (servers : list (bytes * Z)) (server : bytes) : list (bytes * Z) :=
  match last servers with
  | Some (l, rooms) =>
      if decide (l = server)
      then take (length servers - 1) servers ++ [(l, clamp_range 0 usize_max (rooms + 1))]
      else if is_server server then servers ++ [(server, 1)] else servers
  | None => if is_server server then servers ++ [(server, 1)] else servers
  end.

Definition first (key : bytes) : option bytes :=
  match Codec.from_slice (payload := unit) (fun _ => None) (fun _ => None) false
          (Codec.STuple [Codec.SStr; Codec.SIgnore]) key with
  | Ok (Codec.VTuple [Codec.VStr a; _]) => Some a
  | _ => None
  end.

Definition known_servers (d : Maps.Db) : list (bytes * Z) :=
  foldl known_server [] (omap first (scan (Maps.cf SERVERROOMIDS d)).*1).

End Reads.

(** ** Writing *)

Section Writes.
Context `{Ids} {stripped : Type} `{Stripped stripped}.
(** How RocksDB answers each write. *)
Context (ios : Maps.write -> Maps.io).
(** The order in which the set of joined servers is walked. *)
Context (iter : gset bytes -> list bytes).

Definition put (name : string) (key val : bytes) (d : Maps.Db) : Maps.Db :=
  (Maps.insert (ios (Maps.Put name key val)) name key val d).1.
Definition del (name : string) (key : bytes) (d : Maps.Db) : Maps.Db :=
  (Maps.remove (ios (Maps.Del name key)) name key d).1.

Definition clear_other_memberships (userroom_id roomuser_id : bytes) (keep : Membership)
    (d : Maps.Db) : Maps.Db :=
  let d := if decide (keep <> Joined)
    then del ROOMUSERID_JOINED roomuser_id (del USERROOMID_JOINED userroom_id d) else d in
  let d := if decide (keep <> Invited)
    then del ROOMUSERID_INVITECOUNT roomuser_id (del USERROOMID_INVITESTATE userroom_id d) else d in
  let d := if decide (keep <> Left)
    then del ROOMUSERID_LEFTCOUNT roomuser_id (del USERROOMID_LEFTSTATE userroom_id d) else d in
  if decide (keep <> Knocked)
  then del ROOMUSERID_KNOCKEDCOUNT roomuser_id (del USERROOMID_KNOCKEDSTATE userroom_id d) else d.

Definition mark_as_joined (user_id room_id : bytes) (d : Maps.Db) : Maps.Db :=
  let userroom_id := key2 user_id room_id in
  let roomuser_id := key2 room_id user_id in
  let d := put USERROOMID_JOINED userroom_id [] d in
  let d := put ROOMUSERID_JOINED roomuser_id [] d in
  let d := clear_other_memberships userroom_id roomuser_id Joined d in
  del ROOMID_INVITEVIASERVERS room_id d.

(** An unavailable counter panics after the first write. *)
Definition mark_as_left (count : option Z) (user_id room_id : bytes) (d : Maps.Db) :
    Maps.Db * result error unit :=
  let userroom_id := key2 user_id room_id in
  let roomuser_id := key2 room_id user_id in
  let d := put USERROOMID_LEFTSTATE userroom_id (to_json (stripped := stripped) []) d in
  match count with
  | None => (d, Err Panic)
  | Some count =>
      let d := put ROOMUSERID_LEFTCOUNT roomuser_id (be_bytes 8 count) d in
      let d := clear_other_memberships userroom_id roomuser_id Left d in
      (del ROOMID_INVITEVIASERVERS room_id d, Ok ())
  end.

Definition mark_as_knocked (count : option Z) (user_id room_id : bytes)
    (knocked_state : option (list stripped)) (d : Maps.Db) : Maps.Db * result error unit :=
  let userroom_id := key2 user_id room_id in
  let roomuser_id := key2 room_id user_id in
  let d := put USERROOMID_KNOCKEDSTATE userroom_id (to_json (default [] knocked_state)) d in
  match count with
  | None => (d, Err Panic)
  | Some count =>
      let d := put ROOMUSERID_KNOCKEDCOUNT roomuser_id (be_bytes 8 count) d in
      let d := clear_other_memberships userroom_id roomuser_id Knocked d in
      (del ROOMID_INVITEVIASERVERS room_id d, Ok ())
  end.

(** [Vec::dedup] *)
Fixpoint dedup (l : list bytes) : list bytes :=
  match l with
  | x :: (y :: _) as l' => if decide (x = y) then dedup l' else x :: dedup l'
  | _ => l
  end.

Definition join (sep : byte) (l : list bytes) : bytes :=
  match l with [] => [] | x :: l => x ++ concat ((fun y => sep :: y) <$> l) end.

Definition add_servers_invite_via (room_id : bytes) (servers : list bytes) (d : Maps.Db) :
    Maps.Db * result error unit :=
  match servers_invite_via room_id d with
  | Err e => (d, Err e)
  | Ok known =>
      let servers := dedup (sort_by_key (fun s => s) (known ++ servers)) in
      (put ROOMID_INVITEVIASERVERS room_id (join Byte.xff servers) d, Ok ())
  end.

Definition mark_as_invited (count : option Z) (user_id room_id : bytes)
    (last_state : option (list stripped)) (invite_via : option (list bytes)) (d : Maps.Db) :
    Maps.Db * result error unit :=
  let userroom_id := key2 user_id room_id in
  let roomuser_id := key2 room_id user_id in
  let d := put USERROOMID_INVITESTATE userroom_id (to_json (default [] last_state)) d in
  match count with
  | None => (d, Err Panic)
  | Some count =>
      let d := put ROOMUSERID_INVITECOUNT roomuser_id (be_bytes 8 count) d in
      let d := clear_other_memberships userroom_id roomuser_id Invited d in
      match invite_via with
      | Some ((_ :: _) as servers) => add_servers_invite_via room_id servers d
      | _ => (d, Ok ())
      end
  end.

Definition mark_as_once_joined (user_id room_id : bytes) (d : Maps.Db) : Maps.Db :=
  put ROOMUSERONCEJOINEDIDS (key2 room_id user_id) [] d.

Definition forget (room_id user_id : bytes) (d : Maps.Db) : Maps.Db :=
  del ROOMUSERID_LEFTCOUNT (key2 room_id user_id) (del USERROOMID_LEFTSTATE (key2 user_id room_id) d).

(** The walk over the servers on record: the servers that are to be added stay in
    the set. A name that does not parse panics when the walk gets to it. *)
Fixpoint drop_servers (room_id : bytes) (old : list bytes) (joined_servers : gset bytes)
    (d : Maps.Db) : Maps.Db * result error (gset bytes) :=
  match old with
  | [] => (d, Ok joined_servers)
  | server :: old =>
      if negb (is_server server) then (d, Err Panic) else
      if decide (server ∈ joined_servers)
      then drop_servers room_id old (joined_servers ∖ {[server]}) d
      else drop_servers room_id old joined_servers
             (del SERVERROOMIDS (key2 server room_id) (del ROOMSERVERIDS (key2 room_id server) d))
  end.

Definition add_server (room_id : bytes) (d : Maps.Db) (server : bytes) : Maps.Db :=
  put SERVERROOMIDS (key2 server room_id) [] (put ROOMSERVERIDS (key2 room_id server) [] d).

Definition update_joined_count (room_id : bytes) (s : State) : State * result error unit :=
  match
    joined ← room_members room_id (db s);
    invited ← room_members_invited room_id (db s);
    Ok (joined, invited)
  with
  | Err e => (s, Err e)
  | Ok (joined, invited) =>
      let joined_servers : gset bytes := list_to_set (server_name <$> joined) in
      let joinedcount := foldl (fun n _ => u64_saturating_add n 1) 0 joined in
      let invitedcount := default 0 (in_range 0 u64_max (Z.of_nat (length invited))) in
      let d := put ROOMID_JOINEDCOUNT room_id (be_bytes 8 joinedcount) (db s) in
      let d := put ROOMID_INVITEDCOUNT room_id (be_bytes 8 invitedcount) d in
      match drop_servers room_id (seconds ROOMSERVERIDS room_id d) joined_servers d with
      | (d, Err e) => (mkState d (appservice_in_room_cache s), Err e)
      | (d, Ok new) =>
          (mkState (foldl (add_server room_id) d (iter new))
             (delete room_id (appservice_in_room_cache s)), Ok ())
      end
  end.

Definition on_db (s : State) (r : Maps.Db * result error unit) : State * result error unit :=
  (mkState r.1 (appservice_in_room_cache s), r.2).
Definition and_then (r : State * result error unit) (k : State -> State * result error unit) :
    State * result error unit :=
  match r with (s, Ok _) => k s | (s, Err e) => (s, Err e) end.

(** The arms of [update_membership]; [None] when it returns from within one. *)
Definition membership_arm (a : Answers) (room_id user_id : bytes) (membership : MembershipState)
    (last_state : option (list stripped)) (invite_via : option (list bytes)) (d : Maps.Db) :
    option (Maps.Db * result error unit) :=
  match membership with
  | Event.Join =>
      Some (if once_joined user_id room_id d
        then (mark_as_joined user_id room_id d, Ok ())
        else
          let d := mark_as_once_joined user_id room_id d in
          match predecessor a with
          | Some (Err e) => (d, Err e)
          | _ => (mark_as_joined user_id room_id d, Ok ())
          end)
  | Event.Invite =>
      if user_is_ignored a then None else
      Some (mark_as_invited (next_count a) user_id room_id last_state invite_via d)
  | Event.Leave | Event.Ban =>
      Some (match mark_as_left (next_count a) user_id room_id d with
      | (d, Err e) => (d, Err e)
      | (d, Ok _) =>
          if user_is_local a && (forget_forced_upon_leave a || is_banned a || is_disabled a)
          then (forget room_id user_id d, Ok ()) else (d, Ok ())
      end)
  | Event.Knock => Some (mark_as_knocked (next_count a) user_id room_id last_state d)
  | Event.CustomMembership _ => Some (d, Ok ())
  end.

Definition update_membership (a : Answers) (room_id user_id : bytes)
    (membership : MembershipState) (last_state : option (list stripped))
    (invite_via : option (list bytes)) (recount : bool) (s : State) : State * result error unit :=
  match if negb (user_is_local a) && negb (user_exists a) then create a else Ok () with
  | Err e => (s, Err e)
  | Ok _ =>
      match membership_arm a room_id user_id membership last_state invite_via (db s) with
      | None => (s, Ok ())
      | Some r => and_then (on_db s r) (fun s =>
          if recount then update_joined_count room_id s else (s, Ok ()))
      end
  end.

(** [appservice_in_room]: the answer is cached until the room is recounted. *)
Definition appservice_in_room (room_id : bytes) (appservice : Appservice) (s : State) :
    State * result error bool :=
  match appservice_in_room_cache s !! room_id ≫= (.!! registration_id appservice) with
  | Some cached => (s, Ok cached)
  | None =>
      match sender_user appservice with
      | None => (s, Ok false)
      | Some bridge_user_id =>
          match
            if is_joined bridge_user_id room_id (db s) then Ok true
            else existsb (users_match appservice) <$> room_members room_id (db s)
          with
          | Err e => (s, Err e)
          | Ok in_room =>
              let cache := appservice_in_room_cache s in
              (mkState (db s) (<[room_id := <[registration_id appservice := in_room]>
                 (default ∅ (cache !! room_id))]> cache), Ok in_room)
          end
      end
  end.

Definition clear_appservice_in_room_cache (s : State) : State := mkState (db s) ∅.

(** ** Deleting a room *)

Definition del_pair (by_room by_user : string) (room_id : bytes) (d : Maps.Db) (x : bytes) : Maps.Db :=
  del by_user (key2 x room_id) (del by_room (key2 room_id x) d).

(** One round of the loop over the three membership columns. *)
Definition delete_memberships (room_id : bytes) (r : Maps.Db * result error unit) (m : Membership) :
    Maps.Db * result error unit :=
  match r with
  | (d, Err e) => (d, Err e)
  | (d, Ok _) =>
      match room_users (room_column m) room_id d with
      | Err e => (d, Err e)
      | Ok users => (foldl (del_pair (room_column m) (user_column m) room_id) d users, Ok ())
      end
  end.

Definition delete_room_memberships (is_local : bytes -> bool) (room_id : bytes) (force : bool)
    (s : State) : State * result error unit :=
  match room_servers room_id (db s) with
  | Err e => (s, Err e)
  | Ok servers =>
      let d := foldl (del_pair ROOMSERVERIDS SERVERROOMIDS room_id) (db s) servers in
      match foldl (delete_memberships room_id) (d, Ok ()) [Joined; Invited; Knocked] with
      | (d, Err e) => (mkState d (appservice_in_room_cache s), Err e)
      | (d, Ok _) =>
          match room_users ROOMUSERID_LEFTCOUNT room_id d with
          | Err e => (mkState d (appservice_in_room_cache s), Err e)
          | Ok left_users =>
              let d := foldl (del_pair ROOMUSERID_LEFTCOUNT USERROOMID_LEFTSTATE room_id) d
                (filter (fun u => negb force && is_local u = false) left_users) in
              let d := Maps.raw_del_prefix (fun k => ios (Maps.Del ROOMUSERONCEJOINEDIDS k))
                ROOMUSERONCEJOINEDIDS (interfix room_id) d in
              let d := del ROOMID_JOINEDCOUNT room_id d in
              let d := del ROOMID_INVITEDCOUNT room_id d in
              let d := del ROOMID_INVITEVIASERVERS room_id d in
              (mkState d (delete room_id (appservice_in_room_cache s)), Ok ())
          end
      end
  end.

End Writes.
End StateCache.
