(* ===== verification/StateCacheFacts.v ===== *)
(** The columns of the membership cache as relations: keys of two records, scans below
    the first, what writes and deletions do to the relation, and lists of servers
    kept in one value. *)
From S2P Require Import Prelude Order Event Codec Cursor Maps SetOps StateCache.

Module StateCacheFacts.
Import StateCache.

(** ** Keys of two records *)

Lemma key2_eq a b : key2 a b = a ++ Codec.SEP :: b.
Proof. unfold key2, Codec.key_bytes, Codec.tail_bytes. cbn. by rewrite app_nil_r. Qed.

(** The key is what the codec writes for the pair. *)
Lemma key2_serialized debug a b :
  Codec.serialize_to_vec (payload := unit) (fun _ => None) (fun _ => None) debug
    (Codec.VTuple [Codec.VStr a; Codec.VStr b]) = Ok (key2 a b) /\
  Codec.serialize_to_vec (payload := unit) (fun _ => None) (fun _ => None) debug
    (Codec.VTuple [Codec.VStr a; Codec.VInterfix]) = Ok (interfix a).
Proof.
  split; [apply Codec.serialize_key; [done|repeat constructor]|].
  pose proof (Codec.serialize_prefix (payload := unit) (fun _ => None) (fun _ => None) debug
    [Codec.VStr a]) as Hp. cbn [app] in Hp. rewrite Hp by (try done; repeat constructor).
  unfold interfix. rewrite <-(Codec.key_bytes_frame_sep (payload := unit)) by done. done.
Qed.

Lemma key2_inj a b a' b' :
  Codec.SEP ∉ a -> Codec.SEP ∉ a' -> key2 a b = key2 a' b' -> a = a' /\ b = b'.
Proof.
  rewrite !key2_eq. intros Ha Ha' E.
  destruct (Codec.sep_split a a' b b') as [-> _]; [done|done|by rewrite E|].
  by apply app_inv_head in E as [= ->].
Qed.

Lemma interfix_key2 a a' b :
  Codec.SEP ∉ a -> Codec.SEP ∉ a' -> interfix a `prefix_of` key2 a' b <-> a = a'.
Proof.
  intros Ha Ha'.
  assert (key2 a' b = Codec.frame [a'] ++ b) as ->.
  { rewrite key2_eq, Codec.frame_cons, <-app_assoc. done. }
  unfold interfix. rewrite Codec.frame_prefix by (try done; by repeat constructor). naive_solver.
Qed.

Lemma debug_off b : Codec.debug_assert false b = Ok tt.
Proof. done. Qed.

Lemma record_start_first l sq :
  Codec.record_start_de false (Codec.mkDe l 0 0 sq) = Ok (Codec.mkDe l 0 1 sq).
Proof. done. Qed.

Lemma second_key2 a b : Codec.SEP ∉ a -> Utf8.valid b = true -> second (key2 a b) = Some b.
Proof.
  intros Ha Hb. pose proof (Utf8.valid_no_ff _ Hb) as Hb'. rewrite key2_eq. unfold second.
  assert (E : Codec.deserialize_value (payload := unit) (fun _ => None) (fun _ => None) false
    (Codec.STuple [Codec.SIgnore; Codec.SStr]) (Codec.mkDe (a ++ Codec.SEP :: b) 0 0 false) =
    Ok (Codec.mkDe (a ++ Codec.SEP :: b) (length (a ++ Codec.SEP :: b)) 2 true,
        Codec.VTuple [Codec.VIgnored; Codec.VStr b])).
  { rewrite Codec.de_tuple_eq. unfold Codec.sequence_start_de. rewrite debug_off.
    cbn [mbind result_bind Codec.deserialize_elements Codec.buf Codec.pos].
    rewrite (proj2 (Nat.leb_gt _ _)) by (rewrite length_app; cbn; lia).
    rewrite record_start_first. cbn [mbind result_bind].
    cbn [Codec.deserialize_value]. unfold Codec.record_ignore. cbn [Codec.seq].
    change (a ++ Codec.SEP :: b) with ([] ++ a ++ Codec.SEP :: b) at 1.
    change 0%nat with (length (@nil byte)) at 1.
    rewrite Codec.record_next_at by (try done; right; eauto).
    cbn [mbind result_bind app length Nat.add Codec.buf Codec.pos].
    rewrite (proj2 (Nat.leb_gt _ _)) by (rewrite length_app; cbn; lia).
    rewrite Codec.record_start_at. cbn [mbind result_bind Codec.deserialize_value].
    pose proof (Codec.record_next_at false (a ++ [Codec.SEP]) b [] 2 true Hb' (or_introl eq_refl)) as R.
    rewrite app_nil_r in R. rewrite R. cbn [mbind result_bind]. rewrite Hb.
    cbn [mbind result_bind]. rewrite <-app_assoc, !length_app. cbn [app length].
    do 3 f_equal. lia. }
  unfold Codec.from_slice. rewrite E. done.
Qed.

(** ** Columns as relations *)

(** The keys of a column are those of the pairs in [P]. *)
Definition holds (P : bytes -> bytes -> Prop) (c : column) : Prop :=
  forall k, is_Some (c !! k) <-> exists a b, k = key2 a b /\ (Codec.SEP ∉ a) /\ P a b.

Lemma holds_ext P Q c : (forall a b, P a b <-> Q a b) -> holds P c -> holds Q c.
Proof. intros E Hc k. rewrite (Hc k). by setoid_rewrite E. Qed.

Lemma holds_key P c a b : holds P c -> Codec.SEP ∉ a -> is_Some (c !! key2 a b) <-> P a b.
Proof.
  intros Hc Ha. rewrite (Hc _). split; [|eauto].
  intros (a' & b' & E & Ha' & HP). apply key2_inj in E as [-> ->]; done.
Qed.

Lemma holds_insert P c x y v :
  Codec.SEP ∉ x -> holds P c ->
  holds (fun a b => P a b \/ a = x /\ b = y) (<[key2 x y := v]> c).
Proof.
  intros Hx Hc k. rewrite lookup_insert_is_Some', (Hc k). split.
  - intros [<-|(a & b & -> & Ha & HP)]; eauto 8.
  - intros (a & b & -> & Ha & [HP|[-> ->]]); [right; eauto|by left].
Qed.

Lemma holds_delete P c x y :
  Codec.SEP ∉ x -> holds P c ->
  holds (fun a b => P a b /\ ~ (a = x /\ b = y)) (delete (key2 x y) c).
Proof.
  intros Hx Hc k. rewrite lookup_delete_is_Some, (Hc k). split.
  - intros [Hne (a & b & -> & Ha & HP)]. exists a, b. split_and!; try done. by intros [-> ->].
  - intros (a & b & -> & Ha & HP & Hne). split; [|eauto].
    intros [<- <-]%key2_inj; [by apply Hne|done|done].
Qed.

Lemma cmp_app (p a b : bytes) : cmp (p ++ a) (p ++ b) = cmp a b.
Proof.
  unfold cmp, ord_bytes. induction p as [|x p IH]; [done|]. cbn. by rewrite Z.compare_refl.
Qed.

(** Scanning below a record gives its partners, in byte order. *)
Lemma seconds_spec P name a d :
  holds P (Maps.cf name d) -> Codec.SEP ∉ a -> (forall a b, P a b -> Utf8.valid b = true) ->
  StronglySorted (fun b c => cmp b c = Lt) (seconds name a d) /\
  forall b, b ∈ seconds name a d <-> P a b.
Proof.
  intros Hc Ha Hv. unfold seconds.
  set (rows := scan_prefix (interfix a) (Maps.cf name d)).
  assert (Hk : forall r, r ∈ rows -> exists b, r.1 = key2 a b /\ P a b).
  { intros r [Hr Hp]%CursorFacts.elem_of_scan_prefix.
    destruct (proj1 (Hc r.1)) as (a' & b & E & Ha' & HP); [by eexists|].
    rewrite E in Hp. apply interfix_key2 in Hp as <-; [|done..]. eauto. }
  assert (Hkeys : rows.*1 = key2 a <$> omap second rows.*1).
  { clear -Hk Ha Hv. induction rows as [|r rows IH]; [done|]. rewrite fmap_cons.
    destruct (Hk r) as (b & E & HP); [left|]. cbn. rewrite E, second_key2 by eauto. cbn.
    f_equal. apply IH. intros r' Hr'. apply Hk. by right. }
  split.
  - assert (Hs : StronglySorted (fun k l => cmp k l = Lt) (key2 a <$> omap second rows.*1)).
    { rewrite <-Hkeys. pose proof (CursorFacts.scan_prefix_sorted (interfix a) (Maps.cf name d)) as Hs.
      fold rows in Hs. clear -Hs. induction Hs as [|r rows Hs IH Hr]; cbn; constructor; [done|].
      by apply Forall_fmap. }
    clear -Hs. induction (omap second rows.*1) as [|b l IH]; [constructor|].
    rewrite fmap_cons in Hs. inversion Hs as [|? ? Hl Hb]; subst. constructor; [auto|].
    apply Forall_fmap in Hb. eapply Forall_impl; [done|]. intros c Hlt.
    unfold compose in Hlt. rewrite !key2_eq, cmp_app in Hlt.
    exact (eq_trans (eq_sym (cmp_app [Codec.SEP] b c)) Hlt).
  - intros b. split.
    + intros (k & Hkin & Hs)%list_elem_of_omap. apply list_elem_of_fmap in Hkin as (r & -> & Hr).
      destruct (Hk r Hr) as (b' & E & HP). rewrite E, second_key2 in Hs by eauto. by simplify_eq.
    + intros HP. destruct (proj2 (holds_key P _ a b Hc Ha) HP) as [v Hv'].
      apply list_elem_of_omap. exists (key2 a b). split; [|by apply second_key2; eauto].
      apply list_elem_of_fmap. exists (key2 a b, v). split; [done|].
      apply CursorFacts.elem_of_scan_prefix. split; [done|]. by apply interfix_key2.
Qed.

Lemma sorted_lt_NoDup (l : list bytes) : StronglySorted (fun b c => cmp b c = Lt) l -> NoDup l.
Proof.
  induction 1 as [|x l Hl IH Hx]; constructor; [|done].
  intros Hin. rewrite Forall_forall in Hx. specialize (Hx x Hin). cbn in Hx.
  by rewrite (proj2 (cmp_eq x x) eq_refl) in Hx.
Qed.

Lemma expect_all (p : bytes -> bool) l :
  Forall (fun x => p x = true) l -> mapM (expect p) l = Ok l.
Proof.
  induction 1 as [|x l Hx Hl IH]; [done|].
  assert (expect p x = Ok x) as E by (unfold expect; by rewrite Hx).
  cbn [mapM]. rewrite E. cbn [mbind result_bind]. by rewrite IH.
Qed.

(** ** Writes that succeed *)

Section Writes.
Context (ios : Maps.write -> Maps.io) (works : forall w, Maps.writes (ios w) = true).
#[local] Abbreviation put := (StateCache.put ios).
#[local] Abbreviation del := (StateCache.del ios).
#[local] Abbreviation del_pair := (StateCache.del_pair ios).
#[local] Abbreviation add_server := (StateCache.add_server ios).

Lemma cf_put n name k v d :
  Maps.cf n (put name k v d) =
    if decide (name = n) then <[k := v]> (Maps.cf n d) else Maps.cf n d.
Proof.
  unfold StateCache.put, Maps.insert, Maps.write_opt. rewrite works.
  assert (E : Maps.cf n (Maps.set_cfs (Maps.apply_batch [Maps.Put name k v] (Maps.cfs d)) d) =
    if decide (name = n) then <[k := v]> (Maps.cf n d) else Maps.cf n d).
  { unfold Maps.cf. exact (Maps.apply_write_lookup (Maps.Put name k v) (Maps.cfs d) n). }
  destruct (Maps.flush_if_uncorked _ _); [|exact E]. cbn [fst].
  unfold Maps.cf at 1. rewrite Maps.wake_cfs. exact E.
Qed.

Lemma cf_del n name k d :
  Maps.cf n (del name k d) = if decide (name = n) then delete k (Maps.cf n d) else Maps.cf n d.
Proof.
  unfold StateCache.del, Maps.remove, Maps.write_opt. rewrite works. cbn [fst].
  unfold Maps.cf. exact (Maps.apply_write_lookup (Maps.Del name k) (Maps.cfs d) n).
Qed.

Lemma cf_put_eq n k v d : Maps.cf n (put n k v d) = <[k := v]> (Maps.cf n d).
Proof. by rewrite cf_put, decide_True. Qed.
Lemma cf_put_ne n name k v d : name <> n -> Maps.cf n (put name k v d) = Maps.cf n d.
Proof. intros. by rewrite cf_put, decide_False. Qed.
Lemma cf_del_eq n k d : Maps.cf n (del n k d) = delete k (Maps.cf n d).
Proof. by rewrite cf_del, decide_True. Qed.
Lemma cf_del_ne n name k d : name <> n -> Maps.cf n (del name k d) = Maps.cf n d.
Proof. intros. by rewrite cf_del, decide_False. Qed.

Lemma del_pairs_other c1 c2 r l d n :
  n <> c1 -> n <> c2 -> Maps.cf n (foldl (del_pair c1 c2 r) d l) = Maps.cf n d.
Proof.
  intros H1 H2. revert d. induction l as [|x l IH]; intros d; [done|]. cbn [foldl].
  rewrite IH. unfold StateCache.del_pair. rewrite !cf_del, !decide_False by done. done.
Qed.

Lemma del_pairs_room P c1 c2 r l d :
  c1 <> c2 -> Codec.SEP ∉ r -> holds P (Maps.cf c1 d) ->
  holds (fun a b => P a b /\ ~ (a = r /\ b ∈ l)) (Maps.cf c1 (foldl (del_pair c1 c2 r) d l)).
Proof.
  intros Hne Hr. revert P d. induction l as [|x l IH]; intros P d Hd; cbn [foldl].
  { eapply holds_ext; [|exact Hd]. set_solver. }
  eapply holds_ext; [|apply IH].
  2:{ unfold StateCache.del_pair. rewrite !cf_del, decide_False, decide_True by done.
      by apply holds_delete. }
  set_solver.
Qed.

Lemma del_pairs_user P c1 c2 r l d :
  c1 <> c2 -> Forall (fun x => Codec.SEP ∉ x) l -> holds P (Maps.cf c2 d) ->
  holds (fun a b => P a b /\ ~ (b = r /\ a ∈ l)) (Maps.cf c2 (foldl (del_pair c1 c2 r) d l)).
Proof.
  intros Hne Hl. revert P d. induction Hl as [|x l Hx Hl IH]; intros P d Hd; cbn [foldl].
  { eapply holds_ext; [|exact Hd]. set_solver. }
  eapply holds_ext; [|apply IH].
  2:{ unfold StateCache.del_pair. rewrite !cf_del, decide_True, decide_False by done.
      by apply holds_delete. }
  set_solver.
Qed.

Lemma add_servers_other r l d n :
  n <> ROOMSERVERIDS -> n <> SERVERROOMIDS ->
  Maps.cf n (foldl (add_server r) d l) = Maps.cf n d.
Proof.
  intros H1 H2. revert d. induction l as [|x l IH]; intros d; [done|]. cbn [foldl].
  rewrite IH. unfold StateCache.add_server. rewrite !cf_put, !decide_False by done. done.
Qed.

Lemma add_servers_room P r l d :
  Codec.SEP ∉ r -> holds P (Maps.cf ROOMSERVERIDS d) ->
  holds (fun a b => P a b \/ a = r /\ b ∈ l) (Maps.cf ROOMSERVERIDS (foldl (add_server r) d l)).
Proof.
  intros Hr. revert P d. induction l as [|x l IH]; intros P d Hd; cbn [foldl].
  { eapply holds_ext; [|exact Hd]. set_solver. }
  eapply holds_ext; [|apply IH].
  2:{ unfold StateCache.add_server. rewrite !cf_put, decide_False, decide_True by done.
      by apply holds_insert. }
  set_solver.
Qed.

Lemma add_servers_server P r l d :
  Forall (fun x => Codec.SEP ∉ x) l -> holds P (Maps.cf SERVERROOMIDS d) ->
  holds (fun a b => P a b \/ b = r /\ a ∈ l) (Maps.cf SERVERROOMIDS (foldl (add_server r) d l)).
Proof.
  intros Hl. revert P d. induction Hl as [|x l Hx Hl IH]; intros P d Hd; cbn [foldl].
  { eapply holds_ext; [|exact Hd]. set_solver. }
  eapply holds_ext; [|apply IH].
  2:{ unfold StateCache.add_server. rewrite !cf_put, decide_True, decide_False by done.
      by apply holds_insert. }
  set_solver.
Qed.

(** The walk over the servers on record drops those without a member and returns
    those still to be added. *)
Lemma drop_servers_eq `{Ids} r old J d :
  Forall (fun x => is_server x = true) old -> NoDup old ->
  drop_servers ios r old J d =
    (foldl (del_pair ROOMSERVERIDS SERVERROOMIDS r) d (filter (fun x => x ∉ J) old),
     Ok (J ∖ list_to_set old)).
Proof.
  intros Hs. revert J d. induction Hs as [|x old Hx Hs IH]; intros J d Hn; cbn [drop_servers].
  { do 2 f_equal. set_solver. }
  apply NoDup_cons in Hn as [Hxn Hn]. rewrite Hx. cbn [negb]. rewrite filter_cons.
  case_decide as Hin; rewrite IH by done.
  - rewrite decide_False by (by intros ?). apply (f_equal2 pair); [|f_equal; set_solver].
    f_equal. apply filter_ext_Forall, Forall_forall. intros y Hy. set_solver.
  - rewrite decide_True by done. cbn [foldl]. apply (f_equal2 pair); [done|f_equal; set_solver].
Qed.

End Writes.
(** ** Lists of servers in a value *)

(** The loop that reads a sequence of strings, by name. *)
Fixpoint seq_strs (fuel : nat) (d : Codec.Deserializer) :
    result Codec.error (Codec.Deserializer * list (Codec.value unit)) :=
  if (length (Codec.buf d) <=? Codec.pos d)%nat then Ok (d, []) else
  match fuel with
  | O => Ok (d, [])
  | S fuel =>
      d ← Codec.record_start_de false d;
      '(d, v) ← Codec.deserialize_value (fun _ => None) (fun _ => None) false Codec.SStr d;
      '(d, vs) ← seq_strs fuel d;
      Ok (d, v :: vs)
  end.

Lemma de_seq_eq d :
  Codec.deserialize_value (payload := unit) (fun _ => None) (fun _ => None) false
    (Codec.SSeq Codec.SStr) d =
  (d ← Codec.sequence_start_de false d;
   '(d, vs) ← seq_strs (S (length (Codec.buf d))) d;
   Ok (d, Codec.VSeq vs)).
Proof. done. Qed.

#[local] Abbreviation text := (fmap (Codec.VStr (payload := unit))).

Lemma seq_strs_tail ss pre r fuel :
  Forall (fun s => Utf8.valid s = true) ss -> (length ss <= fuel)%nat ->
  seq_strs fuel (Codec.mkDe (pre ++ Codec.tail_bytes (text ss)) (length pre) (S r) true) =
    Ok (Codec.mkDe (pre ++ Codec.tail_bytes (text ss)) (length (pre ++ Codec.tail_bytes (text ss)))
          (S r + length ss) true, text ss).
Proof.
  intros Hs. revert pre r fuel. induction Hs as [|s ss Hs Hss IH]; intros pre r fuel Hf.
  { unfold Codec.tail_bytes. cbn [fmap list_fmap concat]. rewrite app_nil_r, Nat.add_0_r.
    destruct fuel; cbn [seq_strs Codec.buf Codec.pos]; by rewrite Nat.leb_refl. }
  destruct fuel as [|fuel]; [cbn in Hf; lia|].
  rewrite fmap_cons, Codec.tail_cons. cbn [seq_strs Codec.buf Codec.pos].
  rewrite (proj2 (Nat.leb_gt _ _)) by (rewrite length_app; cbn; lia).
  rewrite Codec.record_start_at. cbn [mbind result_bind].
  rewrite (Codec.deserialize_field (fun _ => None) (fun _ => None) false Codec.SStr (Codec.VStr s))
    by (try done; apply Codec.ends_tail).
  cbn [mbind result_bind]. rewrite app_assoc, <-length_app, IH by (cbn in Hf; lia).
  cbn [mbind result_bind length]. rewrite <-!app_assoc. cbn [app].
  by replace (S (S r) + length ss)%nat with (S r + S (length ss))%nat by lia.
Qed.

(** Reading a joined list gives it back; a list of one empty string reads as empty. *)
Lemma join_decode ss :
  Forall (fun s => Utf8.valid s = true) ss ->
  exists ts, Codec.from_slice (payload := unit) (fun _ => None) (fun _ => None) false
    (Codec.SSeq Codec.SStr) (join Byte.xff ss) = Ok (Codec.VSeq (text ts)) /\ ts ⊆ ss.
Proof.
  intros Hs. destruct Hs as [|s ss Hs Hss]; [by exists []|].
  assert (Hj : join Byte.xff (s :: ss) = s ++ Codec.tail_bytes (text ss)).
  { unfold join, Codec.tail_bytes. by rewrite <-list_fmap_compose. }
  rewrite Hj. unfold Codec.from_slice. rewrite de_seq_eq. unfold Codec.sequence_start_de.
  rewrite debug_off. cbn [mbind result_bind Codec.buf Codec.pos Codec.rec].
  destruct (decide (s ++ Codec.tail_bytes (text ss) = [])) as [->|Hne].
  { exists []. split; [done|apply list_subseteq_nil]. }
  exists (s :: ss). split; [|done].
  assert (Hlen : (length ss <= length (s ++ Codec.tail_bytes (text ss)))%nat).
  { enough (length ss <= length (Codec.tail_bytes (text ss)))%nat by (rewrite length_app; lia).
    clear. induction ss as [|x ss IH]; [cbn; lia|].
    rewrite fmap_cons, Codec.tail_cons. cbn [length]. rewrite length_app. lia. }
  set (v := s ++ Codec.tail_bytes (text ss)) in *. cbn [seq_strs Codec.buf Codec.pos].
  rewrite (proj2 (Nat.leb_gt _ _)) by (destruct v; [done|cbn; lia]).
  rewrite record_start_first. cbn [mbind result_bind]. unfold v.
  pose proof (Codec.deserialize_field (fun _ => None) (fun _ => None) false Codec.SStr
    (Codec.VStr (payload := unit) s) [] (Codec.tail_bytes (text ss)) 1 true Hs (Codec.ends_tail _)) as E.
  cbn [app length Nat.add Codec.field_bytes] in E. rewrite E. cbn [mbind result_bind].
  rewrite seq_strs_tail by done. cbn [mbind result_bind]. done.
Qed.

Lemma dedup_subseteq l : dedup l ⊆ l.
Proof.
  induction l as [|x l IH]; [done|]. cbn. destruct l as [|y l]; [done|].
  case_decide; [set_solver|]. intros z [->|Hz%IH]%elem_of_cons; [by left|by right].
Qed.

(** Every row of the column of invite servers is a joined list of server names. *)
Definition via_ok `{Ids} (c : column) : Prop :=
  forall k v, c !! k = Some v ->
    exists ss, v = join Byte.xff ss /\ Forall (fun s => is_server s = true) ss.

Lemma servers_invite_via_ok `{IdsLaws} r d :
  via_ok (Maps.cf ROOMID_INVITEVIASERVERS d) ->
  exists l, servers_invite_via r d = Ok l /\ Forall (fun s => is_server s = true) l.
Proof.
  intros Hv. unfold servers_invite_via.
  match goal with |- context [concat ?ls] => assert (Hall : Forall (fun s => is_server s = true) (concat ls)) end.
  { apply Forall_concat, Forall_fmap, Forall_forall. intros v Hin. cbn beta.
    apply list_elem_of_fmap in Hin as ([k v'] & -> & [Hk _]%CursorFacts.elem_of_scan_prefix).
    destruct (Hv k v' Hk) as (ss & -> & Hss).
    destruct (join_decode ss) as (ts & E & Hts).
    { eapply Forall_impl; [exact Hss|]. apply server_utf8. }
    cbn [compose snd]. unfold compose. cbn [snd]. rewrite E. apply Forall_forall. intros s Hs.
    apply list_elem_of_omap in Hs as (w & Hw & Ew).
    apply list_elem_of_fmap in Hw as (t & -> & Ht). simplify_eq.
    rewrite Forall_forall in Hss. apply Hss, Hts, Ht. }
  eexists. split; [by apply expect_all|done].
Qed.

End StateCacheFacts.
