(* ===== verification/StateCacheSpec.v ===== *)
(** The membership cache of StateCache.v as an abstract state: one map from user and
    room to a membership, the rooms once joined, the servers of each room, the counts,
    and the answers cached for application services. Every operation on the columns
    refines its operation on that state. *)
From S2P Require Import Prelude Order Event Codec Cursor Maps SetOps StateCache StateCacheFacts.

Module StateCacheSpec.
Import StateCache StateCacheFacts.
#[local] Abbreviation MembershipState := Event.MembershipState.

(** ** The abstract state *)

(** [members] by user and room, [once] by user and room, [placed] by room and server. *)
Record Spec := mkSpec {
  members : gmap (bytes * bytes) Membership;
  once : gset (bytes * bytes);
  placed : gset (bytes * bytes);
  tallies : gmap bytes (Z * Z);
  asked : gmap bytes (gmap string bool)
}.

Definition who (m : Membership) (r : bytes) (c : Spec) : gset bytes :=
  list_to_set ((fun p => p.1.1) <$> filter (fun p => p.1.2 = r /\ p.2 = m) (map_to_list (members c))).

Definition set_members (f : gmap (bytes * bytes) Membership) (c : Spec) : Spec :=
  mkSpec f (once c) (placed c) (tallies c) (asked c).
Definition assign (u r : bytes) (m : Membership) (c : Spec) : Spec :=
  set_members (<[(u, r) := m]> (members c)) c.
Definition unassign (u r : bytes) (c : Spec) : Spec :=
  if decide (members c !! (u, r) = Some Left) then set_members (delete (u, r) (members c)) c else c.
Definition enter (u r : bytes) (c : Spec) : Spec :=
  mkSpec (members c) ({[(u, r)]} ∪ once c) (placed c) (tallies c) (asked c).

Section Steps.
Context `{Ids} {stripped : Type} `{Stripped stripped}.

Definition recounted (r : bytes) (c : Spec) : Spec :=
  mkSpec (members c) (once c)
    (filter (fun p => p.1 <> r) (placed c) ∪ set_map (fun u => (r, server_name u)) (who Joined r c))
    (<[r := (Z.min u64_max (Z.of_nat (size (who Joined r c))),
             default 0 (in_range 0 u64_max (Z.of_nat (size (who Invited r c)))))]> (tallies c))
    (delete r (asked c)).

Definition deleted (is_local : bytes -> bool) (r : bytes) (force : bool) (c : Spec) : Spec :=
  mkSpec
    (filter (fun p => p.1.2 <> r \/ p.2 = Left /\ negb force && is_local p.1.1 = true) (members c))
    (filter (fun p => p.2 <> r) (once c))
    (filter (fun p => p.1 <> r) (placed c))
    (delete r (tallies c)) (delete r (asked c)).

(** Whether an application service is in a room. *)
Definition present (r : bytes) (app : Appservice) (c : Spec) : bool :=
  match sender_user app with
  | None => false
  | Some bridge =>
      bool_decide (members c !! (bridge, r) = Some Joined) ||
      existsb (users_match app) (elements (who Joined r c))
  end.

Inductive op :=
  | Update (a : Answers) (room_id user_id : bytes) (membership : MembershipState)
      (last_state : option (list stripped)) (invite_via : option (list bytes)) (recount : bool)
  | Recount (room_id : bytes)
  | Forget (room_id user_id : bytes)
  | DeleteRoom (is_local : bytes -> bool) (room_id : bytes) (force : bool)
  | Ask (room_id : bytes) (app : Appservice)
  | ClearCache.

(** What an operation does to the columns, and to the abstract state. *)
Definition exec (ios : Maps.write -> Maps.io) (iter : gset bytes -> list bytes) (s : State) (o : op) :
    State * result error bool :=
  let done (r : State * result error unit) := (r.1, (fun _ => true) <$> r.2) in
  match o with
  | Update a r u m last via recount => done (update_membership ios iter a r u m last via recount s)
  | Recount r => done (update_joined_count ios iter r s)
  | Forget r u => (mkState (forget ios r u (db s)) (appservice_in_room_cache s), Ok true)
  | DeleteRoom is_local r force => done (delete_room_memberships ios is_local r force s)
  | Ask r app => appservice_in_room r app s
  | ClearCache => (clear_appservice_in_room_cache s, Ok true)
  end.

Definition arm (a : Answers) (r u : bytes) (m : MembershipState) (c : Spec) :
    option (Spec * result error unit) :=
  match m with
  | Event.Join =>
      Some (if decide ((u, r) ∈ once c) then (assign u r Joined c, Ok ()) else
        match predecessor a with
        | Some (Err e) => (enter u r c, Err e)
        | _ => (assign u r Joined (enter u r c), Ok ())
        end)
  | Event.Invite => if user_is_ignored a then None else Some (assign u r Invited c, Ok ())
  | Event.Leave | Event.Ban =>
      let c := assign u r Left c in
      Some (if user_is_local a && (forget_forced_upon_leave a || is_banned a || is_disabled a)
        then (unassign u r c, Ok ()) else (c, Ok ()))
  | Event.Knock => Some (assign u r Knocked c, Ok ())
  | Event.CustomMembership _ => Some (c, Ok ())
  end.

Definition step (c : Spec) (o : op) : Spec * result error bool :=
  match o with
  | Update a r u m _ _ recount =>
      match if negb (user_is_local a) && negb (user_exists a) then create a else Ok () with
      | Err e => (c, Err e)
      | Ok _ =>
          match arm a r u m c with
          | None => (c, Ok true)
          | Some (c, Err e) => (c, Err e)
          | Some (c, Ok _) => (if recount then recounted r c else c, Ok true)
          end
      end
  | Recount r => (recounted r c, Ok true)
  | Forget r u => (unassign u r c, Ok true)
  | DeleteRoom is_local r force => (deleted is_local r force c, Ok true)
  | Ask r app =>
      match asked c !! r ≫= (.!! registration_id app) with
      | Some cached => (c, Ok cached)
      | None =>
          match sender_user app with
          | None => (c, Ok false)
          | Some _ =>
              let b := present r app c in
              (mkSpec (members c) (once c) (placed c) (tallies c)
                (<[r := <[registration_id app := b]> (default ∅ (asked c !! r))]> (asked c)), Ok b)
          end
      end
  | ClearCache => (mkSpec (members c) (once c) (placed c) (tallies c) ∅, Ok true)
  end.

(** The arguments are identifiers, and the counter is available. *)
Definition op_ok (o : op) : Prop :=
  match o with
  | Update a r u _ _ via _ =>
      is_room r = true /\ is_user u = true /\ is_Some (next_count a) /\
      Forall (fun s => is_server s = true) (default [] via)
  | Recount r | DeleteRoom _ r _ => is_room r = true
  | Forget r u => is_room r = true /\ is_user u = true
  | Ask r app => is_room r = true /\ forall u, sender_user app = Some u -> is_user u = true
  | ClearCache => True
  end.

(** ** Representation *)

Record Rep (d : Maps.Db) (c : Spec) : Prop := {
  rep_user m : holds (fun u r => members c !! (u, r) = Some m) (Maps.cf (user_column m) d);
  rep_room m : holds (fun r u => members c !! (u, r) = Some m) (Maps.cf (room_column m) d);
  rep_once : holds (fun r u => (u, r) ∈ once c) (Maps.cf ROOMUSERONCEJOINEDIDS d);
  rep_servers : holds (fun r s => (r, s) ∈ placed c) (Maps.cf ROOMSERVERIDS d);
  rep_rooms : holds (fun s r => (r, s) ∈ placed c) (Maps.cf SERVERROOMIDS d);
  rep_joined r : Maps.cf ROOMID_JOINEDCOUNT d !! r = be_bytes 8 ∘ fst <$> tallies c !! r;
  rep_invited r : Maps.cf ROOMID_INVITEDCOUNT d !! r = be_bytes 8 ∘ snd <$> tallies c !! r;
  rep_via : via_ok (Maps.cf ROOMID_INVITEVIASERVERS d);
  rep_members u r : is_Some (members c !! (u, r)) -> is_user u = true /\ is_room r = true;
  rep_once_ids u r : (u, r) ∈ once c -> is_user u = true /\ is_room r = true;
  rep_placed r s : (r, s) ∈ placed c -> is_room r = true /\ is_server s = true
}.

Definition represents (s : State) (c : Spec) : Prop :=
  Rep (db s) c /\ appservice_in_room_cache s = asked c.

End Steps.
Arguments op : clear implicits.

(** ** Refinement *)

Module Refines.
Import StateCache StateCacheFacts.

Lemma elem_of_who m r c u : u ∈ who m r c <-> members c !! (u, r) = Some m.
Proof.
  unfold who. rewrite elem_of_list_to_set, list_elem_of_fmap. split.
  - intros ([[u' r'] m'] & -> & [[Hr Hm] Hin]%list_elem_of_filter). cbn in Hr, Hm. subst.
    by apply elem_of_map_to_list in Hin.
  - intros Hu. exists ((u, r), m). split; [done|]. apply list_elem_of_filter. split; [done|].
    by apply elem_of_map_to_list.
Qed.

Lemma existsb_perm {A} (f : A -> bool) l k : l ≡ₚ k -> existsb f l = existsb f k.
Proof.
  induction 1 as [|x l l' _ IH|x y l|l1 l2 l3 _ IH1 _ IH2]; cbn; [done|by rewrite IH| |by rewrite IH1].
  by rewrite !orb_assoc, (orb_comm (f x)).
Qed.

Section Refines.
Context `{IdsLaws} {stripped : Type} `{Stripped stripped}.
Context (ios : Maps.write -> Maps.io) (works : forall w, Maps.writes (ios w) = true).
Context (iter : gset bytes -> list bytes) (Hiter : enumerates iter).

Lemma user_no_sep u : is_user u = true -> Codec.SEP ∉ u.
Proof. intros. by apply Utf8.valid_no_ff, user_utf8. Qed.
Lemma room_no_sep r : is_room r = true -> Codec.SEP ∉ r.
Proof. intros. by apply Utf8.valid_no_ff, room_utf8. Qed.
Lemma server_no_sep s : is_server s = true -> Codec.SEP ∉ s.
Proof. intros. by apply Utf8.valid_no_ff, server_utf8. Qed.
#[local] Hint Resolve user_no_sep room_no_sep server_no_sep user_utf8 room_utf8 server_utf8 : core.

(** Decides which column a write went to. *)
#[local] Ltac cols :=
  repeat first
    [rewrite (cf_put_ne ios works) by done|rewrite (cf_del_ne ios works) by done
    |rewrite (cf_put_eq ios works)|rewrite (cf_del_eq ios works)].

(** A membership was written: the user's row in its two columns, none in the others. *)
Record marked (m : Membership) (u r : bytes) (d d' : Maps.Db) : Prop := {
  marked_in : exists v w, Maps.cf (user_column m) d' = <[key2 u r := v]> (Maps.cf (user_column m) d) /\
    Maps.cf (room_column m) d' = <[key2 r u := w]> (Maps.cf (room_column m) d);
  marked_out m' : m' <> m -> Maps.cf (user_column m') d' = delete (key2 u r) (Maps.cf (user_column m') d) /\
    Maps.cf (room_column m') d' = delete (key2 r u) (Maps.cf (room_column m') d);
  marked_else n : n ∈ [ROOMUSERONCEJOINEDIDS; ROOMSERVERIDS; SERVERROOMIDS; ROOMID_JOINEDCOUNT;
    ROOMID_INVITEDCOUNT] -> Maps.cf n d' = Maps.cf n d;
  marked_via : via_ok (Maps.cf ROOMID_INVITEVIASERVERS d) -> via_ok (Maps.cf ROOMID_INVITEVIASERVERS d')
}.

Lemma via_ok_delete c k : via_ok c -> via_ok (delete k c).
Proof. intros Hc k' v [_ Hv]%lookup_delete_Some. eauto. Qed.

#[local] Ltac columns :=
  cbv zeta; unfold clear_other_memberships; cbn [decide]; 
  repeat match goal with |- context [decide (?a <> ?b)] =>
    first [rewrite (decide_True (P := a <> b)) by done
          |rewrite (decide_False (P := a <> b)) by (let H := fresh in intros H; by apply H)] end.

(** Solves [marked] for a sequence of writes. *)
#[local] Ltac marks :=
  columns; split;
  [do 2 eexists; cbn [user_column room_column]; by cols
  |intros [] Hm; try done; cbn [user_column room_column]; by cols
  |let x := fresh in let Hn := fresh in intros x Hn;
   repeat (apply elem_of_cons in Hn as [->|Hn]; [by cols|]); by apply not_elem_of_nil in Hn
  |cols; auto using via_ok_delete].

Lemma marked_joined u r d : marked Joined u r d (mark_as_joined ios u r d).
Proof. unfold mark_as_joined. marks. Qed.

Lemma marked_left n u r d :
  exists d', mark_as_left (stripped := stripped) ios (Some n) u r d = (d', Ok ()) /\ marked Left u r d d'.
Proof. eexists. split; [reflexivity|]. marks. Qed.

Lemma marked_knocked n u r (st : option (list stripped)) d :
  exists d', mark_as_knocked ios (Some n) u r st d = (d', Ok ()) /\ marked Knocked u r d d'.
Proof. eexists. split; [reflexivity|]. marks. Qed.

Lemma add_via_ok r ss d :
  via_ok (Maps.cf ROOMID_INVITEVIASERVERS d) -> Forall (fun s => is_server s = true) ss ->
  exists v, add_servers_invite_via ios r ss d = (put ios ROOMID_INVITEVIASERVERS r v d, Ok ()) /\
    via_ok (<[r := v]> (Maps.cf ROOMID_INVITEVIASERVERS d)).
Proof.
  intros Hv Hss. unfold add_servers_invite_via.
  destruct (servers_invite_via_ok r d Hv) as (l & -> & Hl). eexists. split; [reflexivity|].
  intros k v [[<- <-]|[_ Hk]]%lookup_insert_Some; [|eauto].
  eexists. split; [done|]. apply Forall_forall. intros s Hs%dedup_subseteq.
  rewrite sort_by_key_perm in Hs. rewrite Forall_forall in Hl, Hss. set_solver.
Qed.

Lemma marked_invited n u r (st : option (list stripped)) via d :
  via_ok (Maps.cf ROOMID_INVITEVIASERVERS d) ->
  Forall (fun s => is_server s = true) (default [] via) ->
  exists d', mark_as_invited ios (Some n) u r st via d = (d', Ok ()) /\ marked Invited u r d d'.
Proof.
  intros Hv Hvia. unfold mark_as_invited. cbv zeta.
  set (d1 := clear_other_memberships ios _ _ _ _).
  assert (Hd1 : marked Invited u r d d1) by (unfold d1; marks).
  destruct via as [[|s via]|]; [by eauto| |by eauto]. cbn in Hvia.
  destruct (add_via_ok r (s :: via) d1) as (v & E & Hv'); [by apply (marked_via _ _ _ _ _ Hd1)|done|].
  eexists. split; [exact E|]. destruct Hd1 as [Hin Hout Helse _]. split.
  - destruct Hin as (x & y & Hx & Hy). exists x, y. cbn [user_column room_column] in *. by cols.
  - intros [] Hm; try done; specialize (Hout _ Hm); cbn [user_column room_column] in *; by cols.
  - intros n' Hn'. rewrite <-(Helse n' Hn').
    repeat (apply elem_of_cons in Hn' as [->|Hn']; [by cols|]). by apply not_elem_of_nil in Hn'.
  - intros _. by cols.
Qed.

Lemma lookup_assigned (M : gmap (bytes * bytes) Membership) u r m a b :
  <[(u, r) := m]> M !! (a, b) = Some m <-> M !! (a, b) = Some m \/ a = u /\ b = r.
Proof.
  destruct (decide ((u, r) = (a, b))) as [[= -> ->]|Hne].
  - rewrite lookup_insert_eq. tauto.
  - rewrite lookup_insert_ne by done. split; [auto|]. intros [?|[-> ->]]; done.
Qed.

Lemma lookup_unassigned (M : gmap (bytes * bytes) Membership) u r m m' a b :
  m' <> m ->
  <[(u, r) := m]> M !! (a, b) = Some m' <-> M !! (a, b) = Some m' /\ ~ (a = u /\ b = r).
Proof.
  intros Hm. destruct (decide ((u, r) = (a, b))) as [[= -> ->]|Hne].
  - rewrite lookup_insert_eq. split; [by intros [=]|]. tauto.
  - rewrite lookup_insert_ne by done. split; [|tauto]. intros ?. split; [done|]. by intros [-> ->].
Qed.

(** Writing a membership is assigning it. *)
Lemma assign_rep m u r d d' c :
  is_user u = true -> is_room r = true -> marked m u r d d' -> Rep d c -> Rep d' (assign u r m c).
Proof.
  intros Hu Hr [(v & w & Hv & Hw) Hout Helse Hvia] [Ruser Rroom]. split; cbn [members assign set_members once placed tallies].
  - intros m'. destruct (decide (m' = m)) as [->|Hne].
    + rewrite Hv. eapply holds_ext; [|apply holds_insert; [auto|apply Ruser]]. intros a b. cbn beta.
      symmetry. apply lookup_assigned.
    + rewrite (proj1 (Hout m' Hne)). eapply holds_ext; [|apply holds_delete; [auto|apply Ruser]].
      intros a b. cbn beta. symmetry. by apply lookup_unassigned.
  - intros m'. destruct (decide (m' = m)) as [->|Hne].
    + rewrite Hw. eapply holds_ext; [|apply holds_insert; [auto|apply Rroom]]. intros a b. cbn beta.
      rewrite lookup_assigned. tauto.
    + rewrite (proj2 (Hout m' Hne)). eapply holds_ext; [|apply holds_delete; [auto|apply Rroom]].
      intros a b. cbn beta. rewrite lookup_unassigned by done. tauto.
  - rewrite Helse by set_solver. done.
  - rewrite Helse by set_solver. done.
  - rewrite Helse by set_solver. done.
  - rewrite Helse by set_solver. done.
  - rewrite Helse by set_solver. done.
  - auto.
  - intros u' r'. rewrite lookup_insert_is_Some'. intros [[= <- <-]|?]; eauto.
  - done.
  - done.
Qed.

Lemma lookup_forgotten c u r a b :
  members (unassign u r c) !! (a, b) = Some Left <->
  members c !! (a, b) = Some Left /\ ~ (a = u /\ b = r).
Proof.
  unfold unassign. case_decide as E; cbn.
  - rewrite lookup_delete_Some. split; intros [Hx Hy].
    + split; [done|]. by intros [-> ->].
    + split; [|done]. intros [= -> ->]. by apply Hy.
  - split; [|tauto]. intros Hl. split; [done|]. by intros [-> ->].
Qed.

Lemma forget_rep u r d c :
  is_user u = true -> is_room r = true -> Rep d c -> Rep (forget ios r u d) (unassign u r c).
Proof.
  intros Hu Hr [Ruser Rroom].
  assert (Huser : holds (fun a b => members (unassign u r c) !! (a, b) = Some Left)
    (delete (key2 u r) (Maps.cf USERROOMID_LEFTSTATE d))).
  { eapply holds_ext; [|apply holds_delete; [auto|apply (Ruser Left)]]. intros a b. cbn beta.
    by rewrite lookup_forgotten. }
  assert (Hroom : holds (fun b a => members (unassign u r c) !! (a, b) = Some Left)
    (delete (key2 r u) (Maps.cf ROOMUSERID_LEFTCOUNT d))).
  { eapply holds_ext; [|apply holds_delete; [auto|apply (Rroom Left)]]. intros a b. cbn beta.
    rewrite lookup_forgotten. tauto. }
  assert (Hother : forall m a b, m <> Left ->
    members (unassign u r c) !! (a, b) = Some m <-> members c !! (a, b) = Some m).
  { intros m a b Hm. unfold unassign. case_decide as E; cbn; [|done].
    rewrite lookup_delete_Some. split; [tauto|]. intros Hab. split; [|done]. intros [= -> ->].
    rewrite E in Hab. by simplify_eq. }
  assert (Hsub : forall x, is_Some (members (unassign u r c) !! x) -> is_Some (members c !! x)).
  { intros x. unfold unassign. case_decide; cbn; [|done]. rewrite lookup_delete_is_Some. tauto. }
  assert (Hrest : once (unassign u r c) = once c /\ placed (unassign u r c) = placed c /\
    tallies (unassign u r c) = tallies c) by (unfold unassign; by case_decide).
  destruct Hrest as (Ho & Hp & Ht). unfold forget. split; rewrite ?Ho, ?Hp, ?Ht; try (by cols); eauto.
  - intros m. destruct (decide (m = Left)) as [->|Hm]; [cbn [user_column]; by cols|].
    eapply holds_ext; [|replace (Maps.cf _ _) with (Maps.cf (user_column m) d); [apply (Ruser m)|]].
    { intros a b. cbn beta. by rewrite Hother. } destruct m; try done; cbn [user_column]; by cols.
  - intros m. destruct (decide (m = Left)) as [->|Hm]; [cbn [room_column]; by cols|].
    eapply holds_ext; [|replace (Maps.cf _ _) with (Maps.cf (room_column m) d); [apply (Rroom m)|]].
    { intros a b. cbn beta. by rewrite Hother. } destruct m; try done; cbn [room_column]; by cols.
Qed.

Lemma enter_rep u r d c :
  is_user u = true -> is_room r = true -> Rep d c -> Rep (mark_as_once_joined ios u r d) (enter u r c).
Proof.
  intros Hu Hr []. unfold mark_as_once_joined. split; cbn [members once placed tallies enter]; try (by cols); eauto.
  - intros []; cbn [user_column]; by cols.
  - intros []; cbn [room_column]; by cols.
  - cols. eapply holds_ext; [|apply holds_insert; [auto|done]]. intros a b. set_solver.
  - intros u' r'. rewrite elem_of_union, elem_of_singleton. intros [[= -> ->]|?]; eauto.
Qed.

(** The users below a room in one membership's column. *)
Lemma room_users_rep m r d c :
  is_room r = true -> Rep d c ->
  exists l, room_users (room_column m) r d = Ok l /\ NoDup l /\ l ≡ₚ elements (who m r c) /\
    (forall u, u ∈ l <-> members c !! (u, r) = Some m).
Proof.
  intros Hr R. exists (seconds (room_column m) r d).
  destruct (seconds_spec _ _ r d (rep_room d c R m)) as [Hs Hm]; [auto| |].
  { intros a b Hab. apply user_utf8, (rep_members d c R b a). by eexists. }
  apply sorted_lt_NoDup in Hs. split_and!; [|done| |done].
  - unfold room_users. apply expect_all, Forall_forall. intros u Hu%Hm.
    apply (rep_members d c R u r). by eexists.
  - apply NoDup_Permutation; [done|apply NoDup_elements|]. intros u.
    by rewrite Hm, elem_of_elements, elem_of_who.
Qed.

Lemma seconds_servers r d c :
  is_room r = true -> Rep d c ->
  Forall (fun x => is_server x = true) (seconds ROOMSERVERIDS r d) /\
  NoDup (seconds ROOMSERVERIDS r d) /\
  forall x, x ∈ seconds ROOMSERVERIDS r d <-> (r, x) ∈ placed c.
Proof.
  intros Hr R.
  destruct (seconds_spec _ _ r d (rep_servers d c R)) as [Hs Hm]; [auto| |].
  { intros a b Hab. apply server_utf8. by apply (rep_placed d c R a b). }
  split_and!; [|by apply sorted_lt_NoDup|done].
  apply Forall_forall. intros x Hx%Hm. by apply (rep_placed d c R r x).
Qed.

Lemma saturating_length {A} (l : list A) k :
  is_u64 k -> foldl (fun n _ => u64_saturating_add n 1) k l = Z.min u64_max (k + Z.of_nat (length l)).
Proof.
  revert k. induction l as [|x l IH]; intros k Hk; cbn [foldl length]; [int_solve|].
  rewrite IH; [|int_solve]. int_solve.
Qed.

(** Dropping the servers outside [J] and adding those of [J] that are missing leaves
    exactly [J] in the room, and the other rooms as they were. *)
Lemma replace_servers (P : bytes -> bytes -> Prop) r J old d :
  Codec.SEP ∉ r -> Forall (fun x => Codec.SEP ∉ x) old -> (forall x, x ∈ J -> Codec.SEP ∉ x) ->
  (forall x, x ∈ old <-> P r x) ->
  holds P (Maps.cf ROOMSERVERIDS d) -> holds (fun x a => P a x) (Maps.cf SERVERROOMIDS d) ->
  let d' := foldl (add_server ios r)
    (foldl (del_pair ios ROOMSERVERIDS SERVERROOMIDS r) d (filter (fun x => x ∉ J) old))
    (iter (J ∖ list_to_set old)) in
  holds (fun a x => a <> r /\ P a x \/ a = r /\ x ∈ J) (Maps.cf ROOMSERVERIDS d') /\
  holds (fun x a => a <> r /\ P a x \/ a = r /\ x ∈ J) (Maps.cf SERVERROOMIDS d') /\
  (forall n, n <> ROOMSERVERIDS -> n <> SERVERROOMIDS -> Maps.cf n d' = Maps.cf n d).
Proof.
  intros Hr Hold HJ Hx H1' H2' d'.
  assert (E : forall a x, (P a x /\ ~ (a = r /\ x ∈ filter (fun x => x ∉ J) old)) \/
      a = r /\ x ∈ iter (J ∖ list_to_set old) <-> a <> r /\ P a x \/ a = r /\ x ∈ J).
  { intros a x. rewrite (Hiter _), elem_of_elements, list_elem_of_filter, elem_of_difference.
    rewrite elem_of_list_to_set, Hx. destruct (decide (a = r)) as [->|]; [|naive_solver].
    destruct (decide (x ∈ old)) as [Ho|Ho], (decide (x ∈ J)); rewrite Hx in Ho; naive_solver. }
  split_and!.
  - eapply holds_ext; [apply E|]. apply add_servers_room, del_pairs_room; done.
  - eapply holds_ext; [intros x a; apply E|].
    assert (Hl : Forall (fun x => Codec.SEP ∉ x) (filter (fun x => x ∉ J) old)).
    { apply Forall_forall. intros x [_ Hin]%list_elem_of_filter. rewrite Forall_forall in Hold. auto. }
    eapply holds_ext; [|apply add_servers_server; [done| |apply del_pairs_user; [done|done|exact Hl|exact H2']]].
    { intros x a. cbn beta. tauto. }
    apply Forall_forall. intros x. rewrite (Hiter _), elem_of_elements. set_solver.
  - intros n Hn1 Hn2. unfold d'. rewrite add_servers_other, del_pairs_other by done. done.
Qed.

Lemma recounted_placed (r : bytes) (c : Spec) (J : gset bytes) (a x : bytes) :
  (forall x, x ∈ J <-> exists u, members c !! (u, r) = Some Joined /\ x = server_name u) ->
  a <> r /\ (a, x) ∈ placed c \/ a = r /\ x ∈ J <-> (a, x) ∈ placed (recounted r c).
Proof.
  intros HJ. cbn [placed recounted]. rewrite elem_of_union, elem_of_filter, elem_of_map, HJ. cbn [fst].
  setoid_rewrite elem_of_who. destruct (decide (a = r)) as [->|]; naive_solver.
Qed.

Lemma recounted_rep r d d' c :
  is_room r = true -> Rep d c ->
  holds (fun a x => (a, x) ∈ placed (recounted r c)) (Maps.cf ROOMSERVERIDS d') ->
  holds (fun x a => (a, x) ∈ placed (recounted r c)) (Maps.cf SERVERROOMIDS d') ->
  (forall n, n ∉ [ROOMSERVERIDS; SERVERROOMIDS; ROOMID_JOINEDCOUNT; ROOMID_INVITEDCOUNT] ->
    Maps.cf n d' = Maps.cf n d) ->
  Maps.cf ROOMID_JOINEDCOUNT d' = <[r := be_bytes 8 (Z.min u64_max (Z.of_nat (size (who Joined r c))))]>
    (Maps.cf ROOMID_JOINEDCOUNT d) ->
  Maps.cf ROOMID_INVITEDCOUNT d' = <[r := be_bytes 8 (default 0 (in_range 0 u64_max
    (Z.of_nat (size (who Invited r c)))))]> (Maps.cf ROOMID_INVITEDCOUNT d) ->
  Rep d' (recounted r c).
Proof.
  intros Hr R Hs1 Hs2 Helse Hj Hi.
  split; try assumption; cbn [members once tallies recounted].
  - intros m. rewrite Helse; [apply R|]. destruct m; cbn [user_column]; set_solver.
  - intros m. rewrite Helse; [apply R|]. destruct m; cbn [room_column]; set_solver.
  - rewrite Helse by set_solver. apply R.
  - intros a. rewrite Hj, !lookup_insert. case_decide; [done|apply R].
  - intros a. rewrite Hi, !lookup_insert. case_decide; [done|apply R].
  - rewrite Helse by set_solver. apply R.
  - apply R.
  - apply R.
  - intros a x. cbn [placed recounted]. rewrite elem_of_union, elem_of_filter, elem_of_map.
    intros [[_ ?]|(u & [= -> ->] & Hu%elem_of_who)]; [by apply R|].
    split; [done|]. apply server_name_ok, (rep_members d c R u r). by eexists.
Qed.

Lemma recount_rep r s c :
  is_room r = true -> represents s c ->
  exists s', update_joined_count ios iter r s = (s', Ok ()) /\ represents s' (recounted r c).
Proof.
  intros Hr [R Hc]. unfold update_joined_count.
  destruct (room_users_rep Joined r (db s) c Hr R) as (lj & Ej & Nj & Pj & Mj).
  destruct (room_users_rep Invited r (db s) c Hr R) as (li & Ei & Ni & Pi & Mi).
  unfold room_members, room_members_invited.
  change (room_column Joined) with ROOMUSERID_JOINED in Ej.
  change (room_column Invited) with ROOMUSERID_INVITECOUNT in Ei.
  rewrite Ej, Ei. cbn [mbind result_bind]. rewrite saturating_length, Z.add_0_l by int_solve.
  assert (Lj : length lj = size (who Joined r c)) by by rewrite Pj.
  assert (Li : length li = size (who Invited r c)) by by rewrite Pi.
  rewrite Lj, Li.
  set (J := list_to_set (server_name <$> lj) : gset bytes).
  assert (HJ : forall x, x ∈ J <-> exists u, members c !! (u, r) = Some Joined /\ x = server_name u).
  { intros x. unfold J. rewrite elem_of_list_to_set, list_elem_of_fmap. setoid_rewrite Mj. naive_solver. }
  assert (HJs : forall x, x ∈ J -> is_server x = true).
  { intros x (u & Hu & ->)%HJ. apply server_name_ok, (rep_members _ _ R u r). by eexists. }
  set (d2 := put ios ROOMID_INVITEDCOUNT r _ _).
  assert (Hsec : seconds ROOMSERVERIDS r d2 = seconds ROOMSERVERIDS r (db s)).
  { unfold seconds, d2. by cols. }
  destruct (seconds_servers r (db s) c Hr R) as (Fo & No & Mo).
  rewrite Hsec, (drop_servers_eq ios) by done. eexists. split; [reflexivity|].
  destruct (replace_servers (fun a x => (a, x) ∈ placed c) r J (seconds ROOMSERVERIDS r (db s)) d2)
    as (Hs1 & Hs2 & Hs3); auto.
  { eapply Forall_impl; [exact Fo|]. auto. }
  { unfold d2. cols. apply R. } { unfold d2. cols. apply R. }
  split; [|by cbn; rewrite Hc]. cbn [db]. apply (recounted_rep r (db s)); [done|done|..].
  - eapply holds_ext; [|exact Hs1]. intros a x. by apply recounted_placed.
  - eapply holds_ext; [|exact Hs2]. intros x a. by apply recounted_placed.
  - intros n Hn. rewrite Hs3 by set_solver. unfold d2. by rewrite !(cf_put_ne ios works) by set_solver.
  - rewrite Hs3 by done. unfold d2. by cols.
  - rewrite Hs3 by done. unfold d2. by cols.
Qed.

(** ** Deleting a room *)

Definition dropped (m : Membership) (r : bytes) (q : bytes -> bool) (c : Spec) : Spec :=
  set_members (filter (fun p => ~ (p.1.2 = r /\ p.2 = m /\ q p.1.1 = true)) (members c)) c.

Lemma lookup_dropped m r q c u a m' :
  members (dropped m r q c) !! (u, a) = Some m' <->
  members c !! (u, a) = Some m' /\ ~ (a = r /\ m' = m /\ q u = true).
Proof. cbn. by rewrite map_lookup_filter_Some. Qed.

Lemma columns_differ m m' : room_column m <> user_column m'.
Proof. by destruct m, m'. Qed.

Lemma drop_rep m r q l d c :
  is_room r = true -> Rep d c ->
  (forall u, u ∈ l <-> members c !! (u, r) = Some m /\ q u = true) ->
  Rep (foldl (del_pair ios (room_column m) (user_column m) r) d l) (dropped m r q c).
Proof.
  intros Hr R Hl.
  assert (Hls : Forall (fun x => Codec.SEP ∉ x) l).
  { apply Forall_forall. intros u [Hu _]%Hl. apply user_no_sep, (rep_members d c R u r). by eexists. }
  assert (Helse : forall n, n <> room_column m -> n <> user_column m ->
    Maps.cf n (foldl (del_pair ios (room_column m) (user_column m) r) d l) = Maps.cf n d).
  { intros. by apply del_pairs_other. }
  assert (Hkeep : forall m' u a, m' <> m ->
    members (dropped m r q c) !! (u, a) = Some m' <-> members c !! (u, a) = Some m').
  { intros m' u a Hne. rewrite lookup_dropped. naive_solver. }
  assert (Hgone : forall u a, members (dropped m r q c) !! (u, a) = Some m <->
    members c !! (u, a) = Some m /\ ~ (a = r /\ u ∈ l)).
  { intros u a. rewrite lookup_dropped, Hl. destruct (decide (a = r)) as [->|]; naive_solver. }
  split; try (rewrite Helse by (by destruct m); apply R).
  - intros m'. destruct (decide (m' = m)) as [->|Hne].
    + eapply holds_ext; [|apply del_pairs_user; [done|apply columns_differ|done|apply (rep_user _ _ R m)]].
      intros u a. cbn beta. by rewrite Hgone.
    + rewrite Helse by (by destruct m, m').
      eapply holds_ext; [|apply (rep_user _ _ R m')]. intros u a. cbn beta. by rewrite Hkeep.
  - intros m'. destruct (decide (m' = m)) as [->|Hne].
    + eapply holds_ext; [|apply del_pairs_room; [done|apply columns_differ|auto|apply (rep_room _ _ R m)]].
      intros a u. cbn beta. by rewrite Hgone.
    + rewrite Helse by (by destruct m, m').
      eapply holds_ext; [|apply (rep_room _ _ R m')]. intros a u. cbn beta. by rewrite Hkeep.
  - intros u a [m' [Hm _]%lookup_dropped]. apply (rep_members d c R u a). by eexists.
  - apply R.
  - apply R.
Qed.

Lemma delete_memberships_rep m r d c :
  is_room r = true -> Rep d c ->
  exists d', delete_memberships ios r (d, Ok ()) m = (d', Ok ()) /\ Rep d' (dropped m r (fun _ => true) c).
Proof.
  intros Hr R. destruct (room_users_rep m r d c Hr R) as (l & E & _ & _ & Hl).
  cbn [delete_memberships]. rewrite E. eexists. split; [reflexivity|].
  apply drop_rep; [done|done|]. intros u. rewrite Hl. naive_solver.
Qed.

(** The rest of the deletion: once joined, counts and servers. *)
Definition cleared (r : bytes) (c : Spec) : Spec :=
  mkSpec (members c) (filter (fun p => p.2 <> r) (once c)) (placed c) (delete r (tallies c)) (delete r (asked c)).
Definition vacated (r : bytes) (c : Spec) : Spec :=
  mkSpec (members c) (once c) (filter (fun p => p.1 <> r) (placed c)) (tallies c) (asked c).

Lemma vacate_rep r d c :
  is_room r = true -> Rep d c ->
  exists l, room_servers r d = Ok l /\
    Rep (foldl (del_pair ios ROOMSERVERIDS SERVERROOMIDS r) d l) (vacated r c).
Proof.
  intros Hr R. destruct (seconds_servers r d c Hr R) as (Fs & _ & Hs).
  exists (seconds ROOMSERVERIDS r d). split; [by apply expect_all|].
  assert (Helse : forall n, n <> ROOMSERVERIDS -> n <> SERVERROOMIDS ->
    Maps.cf n (foldl (del_pair ios ROOMSERVERIDS SERVERROOMIDS r) d (seconds ROOMSERVERIDS r d)) =
    Maps.cf n d) by (intros; by apply del_pairs_other).
  assert (Hp : forall a x, (a, x) ∈ placed (vacated r c) <->
    (a, x) ∈ placed c /\ ~ (a = r /\ x ∈ seconds ROOMSERVERIDS r d)).
  { intros a x. cbn [placed vacated]. rewrite elem_of_filter, Hs. cbn [fst].
    destruct (decide (a = r)) as [->|]; naive_solver. }
  split; try (rewrite Helse by done; apply R); try apply R.
  - intros m. rewrite Helse by (by destruct m). apply R.
  - intros m. rewrite Helse by (by destruct m). apply R.
  - eapply holds_ext; [|apply del_pairs_room; [done|done|auto|apply R]].
    intros a x. cbn beta. by rewrite Hp.
  - eapply holds_ext; [|apply del_pairs_user; [done|done| |apply R]].
    + intros a x. cbn beta. by rewrite Hp.
    + eapply Forall_impl; [exact Fs|auto].
  - intros a x [Hin _]%Hp. by apply R.
Qed.

Lemma clear_rep r d c :
  is_room r = true -> Rep d c ->
  Rep (del ios ROOMID_INVITEVIASERVERS r (del ios ROOMID_INVITEDCOUNT r (del ios ROOMID_JOINEDCOUNT r
    (Maps.raw_del_prefix (fun k => ios (Maps.Del ROOMUSERONCEJOINEDIDS k)) ROOMUSERONCEJOINEDIDS
      (interfix r) d)))) (cleared r c).
Proof.
  intros Hr R. set (d1 := Maps.raw_del_prefix _ _ _ _).
  assert (Helse : forall n, n <> ROOMUSERONCEJOINEDIDS -> Maps.cf n d1 = Maps.cf n d).
  { intros n Hn. apply map_eq. intros k. apply option_eq. intros v. unfold d1.
    rewrite Maps.raw_del_prefix_cf. naive_solver. }
  split; try (cols; rewrite Helse by done; apply R); try apply R; cbn [tallies cleared].
  - intros m. destruct m; cbn [user_column]; cols; rewrite Helse by done; apply (rep_user d c R).
  - intros m. destruct m; cbn [room_column]; cols; rewrite Helse by done; apply (rep_room d c R).
  - cols. intros k. cbn [once cleared]. setoid_rewrite elem_of_filter. cbn [snd].
    assert (E : is_Some (Maps.cf ROOMUSERONCEJOINEDIDS d1 !! k) <->
      is_Some (Maps.cf ROOMUSERONCEJOINEDIDS d !! k) /\ ~ (interfix r `prefix_of` k)).
    { unfold is_Some, d1. setoid_rewrite Maps.raw_del_prefix_cf. setoid_rewrite works. naive_solver. }
    rewrite E, (rep_once d c R k). split.
    + intros [(a & b & -> & Ha & Hin) Hp]. exists a, b. split_and!; try done. intros <-.
      by apply Hp, interfix_key2.
    + intros (a & b & -> & Ha & Hne & Hin). split; [by eauto|].
      rewrite interfix_key2 by auto. congruence.
  - intros a. cols. rewrite Helse by done. destruct (decide (a = r)) as [->|].
    + by rewrite !lookup_delete_eq.
    + rewrite !lookup_delete_ne by done. apply R.
  - intros a. cols. rewrite Helse by done. destruct (decide (a = r)) as [->|].
    + by rewrite !lookup_delete_eq.
    + rewrite !lookup_delete_ne by done. apply R.
  - cols. rewrite Helse by done. apply via_ok_delete, R.
  - intros u a Hin%elem_of_filter. by apply (rep_once_ids d c R), Hin.
Qed.

Lemma delete_rep is_local r force s c :
  is_room r = true -> represents s c ->
  exists s', delete_room_memberships ios is_local r force s = (s', Ok ()) /\
    represents s' (deleted is_local r force c).
Proof.
  intros Hr [R Hc]. unfold delete_room_memberships.
  destruct (vacate_rep r (db s) c Hr R) as (l & -> & R1).
  destruct (delete_memberships_rep Joined r _ _ Hr R1) as (d1 & E1 & R2).
  destruct (delete_memberships_rep Invited r _ _ Hr R2) as (d2 & E2 & R3).
  destruct (delete_memberships_rep Knocked r _ _ Hr R3) as (d3 & E3 & R4).
  cbn [foldl]. rewrite E1, E2, E3.
  destruct (room_users_rep Left r _ _ Hr R4) as (ll & E4 & _ & _ & Hl).
  change (room_column Left) with ROOMUSERID_LEFTCOUNT in E4. rewrite E4.
  eexists. split; [reflexivity|]. split; [|by cbn; rewrite Hc]. cbn [db].
  pose proof (drop_rep Left r (fun u => negb (negb force && is_local u))
    (filter (fun u => negb force && is_local u = false) ll) d3 _ Hr R4) as R5.
  cbn [room_column user_column] in R5.
  match goal with |- Rep _ ?c' => match type of R5 with _ -> Rep _ ?c5 =>
    assert (Ec : cleared r c5 = c') end end; [|rewrite <-Ec; apply clear_rep, R5; [done|]].
  - unfold cleared, deleted. f_equal. apply map_eq. intros [u a]. apply option_eq. intros m.
    rewrite !lookup_dropped, map_lookup_filter_Some. cbn [fst snd members vacated].
    destruct (decide (a = r)) as [->|], m, (negb force && is_local u); cbn; naive_solver.
  - intros u. rewrite list_elem_of_filter, Hl, negb_true_iff. tauto.
Qed.

Lemma asked_rep d c x :
  Rep d c -> Rep d (mkSpec (members c) (once c) (placed c) (tallies c) x).
Proof. by intros []. Qed.

Lemma ask_rep r app s c :
  is_room r = true -> (forall u, sender_user app = Some u -> is_user u = true) -> represents s c ->
  represents (appservice_in_room r app s).1 (step (stripped := stripped) c (Ask r app)).1 /\
  (appservice_in_room r app s).2 = (step (stripped := stripped) c (Ask r app)).2.
Proof.
  intros Hr Happ [R Hc]. unfold appservice_in_room. cbn [step]. rewrite Hc.
  destruct (asked c !! r ≫= _) as [b|]; [done|].
  destruct (sender_user app) as [u|] eqn:Eu; [|done].
  destruct (room_users_rep Joined r (db s) c Hr R) as (l & E & _ & Pl & Hl).
  change (room_column Joined) with ROOMUSERID_JOINED in E.
  assert (Hj : is_joined u r (db s) = bool_decide (members c !! (u, r) = Some Joined)).
  { unfold is_joined, contains. apply bool_decide_ext.
    apply (holds_key (fun u r => members c !! (u, r) = Some Joined)); [apply (rep_user _ _ R)|auto]. }
  assert (Hb : existsb (users_match app) l = existsb (users_match app) (elements (who Joined r c))).
  { by apply existsb_perm. }
  unfold present. rewrite Eu, Hj. unfold room_members. rewrite E. cbn [fmap result_fmap]. rewrite Hb.
  destruct (bool_decide _); (split; [split; [by apply asked_rep|]|]; cbn; by rewrite ?Hc).
Qed.

Lemma arm_rep a r u m last via d c :
  is_room r = true -> is_user u = true -> is_Some (next_count a) ->
  Forall (fun s => is_server s = true) (default [] via) -> Rep d c ->
  match membership_arm (stripped := stripped) ios a r u m last via d, arm a r u m c with
  | None, None => True
  | Some (d', x), Some (c', y) => Rep d' c' /\ x = y /\ asked c' = asked c
  | _, _ => False
  end.
Proof.
  intros Hr Hu [n Hn] Hvia R. pose proof (rep_via d c R) as Hv.
  unfold membership_arm, arm. rewrite Hn. destruct m.
  1,5: destruct (marked_left n u r d) as (d' & E & Hd'); rewrite E;
    destruct (_ && _); (split; [|split; [done|]]);
    [apply forget_rep; [done|done|by eapply assign_rep]|unfold unassign; by case_decide
    |by eapply assign_rep|done].
  - destruct (user_is_ignored a); [done|].
    destruct (marked_invited n u r last via d Hv Hvia) as (d' & E & Hd'). rewrite E.
    split; [by eapply assign_rep|done].
  - assert (Ho : once_joined u r d = bool_decide ((u, r) ∈ once c)).
    { unfold once_joined, contains. apply bool_decide_ext.
      apply (holds_key (fun r u => (u, r) ∈ once c)); [apply R|auto]. }
    rewrite Ho. pose proof (enter_rep u r d c Hu Hr R) as Re. case_decide as Hin.
    + rewrite bool_decide_eq_true_2 by done. split; [|done].
      eapply assign_rep; [done|done|apply marked_joined|done].
    + rewrite bool_decide_eq_false_2 by done.
      destruct (predecessor a) as [[|e]|]; (split; [|done]); try done;
        (eapply assign_rep; [done|done|apply marked_joined|done]).
  - destruct (marked_knocked n u r last d) as (d' & E & Hd'). rewrite E.
    split; [by eapply assign_rep|done].
  - done.
Qed.

(** Every operation on the columns answers as its operation on the abstract state
    and leaves columns that represent the new one. *)
Lemma exec_refines s c o :
  represents s c -> op_ok o ->
  represents (exec (stripped := stripped) ios iter s o).1 (step c o).1 /\
  (exec (stripped := stripped) ios iter s o).2 = (step c o).2.
Proof.
  intros [R Hc] Ho. destruct o as [a r u m last via recount|r|r u|is_local r force|r app|]; cbn [exec op_ok] in *.
  - destruct Ho as (Hr & Hu & Hn & Hvia). unfold update_membership. cbn [step].
    destruct (if _ && _ then _ else _); [|done].
    pose proof (arm_rep a r u m last via (db s) c Hr Hu Hn Hvia R) as Ha.
    destruct (membership_arm _ _ _ _ _ _ _ _) as [[d' x]|], (arm _ _ _ _ _) as [[c' y]|]; try done.
    destruct Ha as (R' & -> & Hasked). destruct y as [[]|e]; cbn [and_then on_db fst snd].
    + destruct recount; cbn [fst snd]; [|split; [split; [done|by cbn; rewrite Hasked]|done]].
      destruct (recount_rep r (mkState d' (appservice_in_room_cache s)) c' Hr) as (s' & E & R2).
      { split; [done|]. cbn. by rewrite Hasked. }
      rewrite E. done.
    + split; [split; [done|by cbn; rewrite Hasked]|done].
  - destruct (recount_rep r s c Ho) as (s' & E & R2); [done|]. by rewrite E.
  - destruct Ho as [Hr Hu]. split; [|done]. split; [by apply forget_rep|].
    cbn. unfold unassign. by case_decide.
  - destruct (delete_rep is_local r force s c Ho) as (s' & E & R2); [done|]. by rewrite E.
  - destruct Ho. by apply ask_rep.
  - split; [|done]. split; [by apply asked_rep|done].
Qed.

End Refines.
End Refines.
End StateCacheSpec.
