(* ===== verification/StateCacheLaws.v ===== *)
(** What the membership cache promises over any history of operations: it answers as
    its abstract state, the servers of a room are those of its joined users once the
    room is recounted, and shared rooms are found exactly. *)
From S2P Require Import Prelude Order Event Codec Cursor Maps SetOps StateCache StateCacheFacts StateCacheSpec.

Module StateCacheLaws.
Import StateCache StateCacheFacts StateCacheSpec StateCacheSpec.Refines.

#[local] Instance bytes_lt_strict : StrictOrder (fun a b : bytes => cmp a b = Lt).
Proof.
  split.
  - intros x. unfold complement. by rewrite (proj2 (cmp_eq x x) eq_refl).
  - intros x y z. apply cmp_trans.
Qed.

Section Laws.
Context `{IdsLaws} {stripped : Type} `{Stripped stripped}.
Context (iter : gset bytes -> list bytes).

(** ** Histories *)

(** Operations one after another, each with how the database answers its writes. *)
Fixpoint run (s : State) (os : list ((Maps.write -> Maps.io) * op stripped)) :
    State * list (result error bool) :=
  match os with
  | [] => (s, [])
  | (ios, o) :: os =>
      let '(s, x) := exec ios iter s o in
      let '(s, xs) := run s os in (s, x :: xs)
  end.

Fixpoint srun (c : Spec) (os : list (op stripped)) : Spec * list (result error bool) :=
  match os with
  | [] => (c, [])
  | o :: os =>
      let '(c, x) := step c o in
      let '(c, xs) := srun c os in (c, x :: xs)
  end.

Definition empty_spec : Spec := mkSpec ∅ ∅ ∅ ∅ ∅.
Definition empty_state : State := mkState (Maps.mkDb ∅ ∅ ∅ 0) ∅.

(** What [user_membership] makes of the abstract state. *)
Definition seen_as (c : Spec) (u r : bytes) : option Event.MembershipState :=
  match members c !! (u, r) with
  | Some Joined => Some Event.Join
  | Some Left => Some Event.Leave
  | Some Knocked => Some Event.Knock
  | Some Invited => Some Event.Invite
  | None => if decide ((u, r) ∈ once c) then Some Event.Ban else None
  end.

Definition history_ok (os : list ((Maps.write -> Maps.io) * op stripped)) : Prop :=
  Forall (fun io => (forall w, Maps.writes (io.1 w) = true) /\ op_ok io.2) os.

Lemma empty_represents : represents empty_state empty_spec.
Proof.
  assert (E : forall P, (forall a b, ~ P a b) -> holds P (∅ : column)).
  { intros P HP k. rewrite lookup_empty. split; [by intros []|]. intros (a & b & _ & _ & Hab). by destruct (HP a b). }
  split; [|done]. split; try done; try (apply E; set_solver).
  - intros m. apply E. intros a b. cbn [members empty_spec]. by rewrite lookup_empty.
  - intros m. apply E. intros a b. cbn [members empty_spec]. by rewrite lookup_empty.
  - intros u r. cbn [members empty_spec]. rewrite lookup_empty. by intros [].
Qed.

Lemma run_refines s c os :
  enumerates iter -> represents s c -> history_ok os ->
  represents (run s os).1 (srun c os.*2).1 /\ (run s os).2 = (srun c os.*2).2.
Proof.
  intros Hi. revert s c. induction os as [|[ios o] os IH]; intros s c Hr Hok; [done|].
  apply Forall_cons in Hok as [[Hw Ho] Hok]. cbn [run srun fmap list_fmap].
  destruct (exec_refines ios Hw iter Hi s c o Hr Ho) as [Hr' Hx]. cbn [snd].
  destruct (exec ios iter s o) as [s1 x], (step c o) as [c1 y]. cbn [fst snd] in *.
  destruct (IH s1 c1 Hr' Hok) as [Hr2 Hxs].
  destruct (run s1 os) as [s2 xs], (srun c1 os.*2) as [c2 ys]. cbn [fst snd] in *. by subst.
Qed.

Lemma seen_rep d c u r :
  Rep d c -> is_user u = true -> is_room r = true -> user_membership u r d = seen_as c u r.
Proof.
  intros R Hu Hr.
  assert (E : forall m, contains (user_column m) (key2 u r) d = bool_decide (members c !! (u, r) = Some m)).
  { intros m. unfold contains. apply bool_decide_ext.
    apply (holds_key (fun u r => members c !! (u, r) = Some m)); [apply R|by apply user_no_sep]. }
  assert (Eo : once_joined u r d = bool_decide ((u, r) ∈ once c)).
  { unfold once_joined, contains. apply bool_decide_ext.
    apply (holds_key (fun r u => (u, r) ∈ once c)); [apply R|by apply room_no_sep]. }
  unfold user_membership, is_joined, is_left, is_knocked, is_invited, seen_as. rewrite Eo.
  pose proof (E Joined) as Ej. pose proof (E Left) as El. pose proof (E Knocked) as Ek.
  pose proof (E Invited) as Ei. cbn [user_column] in *. rewrite Ej, El, Ek, Ei.
  destruct (members c !! (u, r)) as [[]|]; repeat case_bool_decide; simplify_eq; try done;
    repeat case_decide; done.
Qed.

(** The members of a room as the stream gives them: in byte order, each once. *)
Lemma room_members_sorted r d c :
  is_room r = true -> Rep d c ->
  exists l, room_members r d = Ok l /\ StronglySorted (fun a b => cmp a b = Lt) l /\
    forall u, u ∈ l <-> members c !! (u, r) = Some Joined.
Proof.
  intros Hr R. destruct (seconds_spec _ _ r d (rep_room d c R Joined)) as [Hs Hm];
    [by apply room_no_sep| |].
  { intros a b Hab. apply user_utf8, (rep_members d c R b a). by eexists. }
  eexists. split_and!; [|exact Hs|exact Hm]. apply expect_all, Forall_forall. intros u Hu%Hm.
  apply (rep_members d c R u r). by eexists.
Qed.

(** The rooms a user has joined, likewise. *)
Lemma rooms_joined_sorted u d c :
  is_user u = true -> Rep d c ->
  exists l, rooms_joined u d = Ok l /\ StronglySorted (fun a b => cmp a b = Lt) l /\
    forall r, r ∈ l <-> members c !! (u, r) = Some Joined.
Proof.
  intros Hu R. destruct (seconds_spec _ _ u d (rep_user d c R Joined)) as [Hs Hm];
    [by apply user_no_sep| |].
  { intros a b Hab. apply room_utf8, (rep_members d c R a b). by eexists. }
  eexists. split_and!; [|exact Hs|exact Hm]. apply expect_all, Forall_forall. intros r Hr%Hm.
  apply (rep_members d c R u r). by eexists.
Qed.

Lemma number_stored name k d z :
  is_u64 z -> Maps.cf name d !! k = Some (be_bytes 8 z) -> number name k d = Some z.
Proof.
  intros Hz Hk. unfold number. rewrite Hk. cbn [mbind option_bind].
  pose proof (Codec.deserialize_field (fun _ => None) (fun _ => None) false Codec.SU64
    (Codec.VU64 (payload := unit) z) [] [] 0 false Hz (or_introl eq_refl)) as E.
  cbn [app length Codec.field_bytes] in E. rewrite app_nil_r in E.
  unfold Codec.from_slice. rewrite E. done.
Qed.

(** ** Rooms that have been recounted *)

(** The servers on record are those of the joined users, the counts are right, and
    what is cached for an application service ([reg] by registration) is so. *)
Record settled (reg : string -> option Appservice) (c : Spec) (r : bytes) : Prop := {
  settled_servers x : (r, x) ∈ placed c <-> exists u, members c !! (u, r) = Some Joined /\ x = server_name u;
  settled_tallies n k : tallies c !! r = Some (n, k) ->
    n = Z.min u64_max (Z.of_nat (size (who Joined r c))) /\
    k = default 0 (in_range 0 u64_max (Z.of_nat (size (who Invited r c))));
  settled_asked id b : asked c !! r ≫= (.!! id) = Some b ->
    exists app, reg id = Some app /\ present r app c = b
}.

(** The rooms a history leaves without a recount after a change. *)
Definition stale (D : gset bytes) (o : op stripped) : gset bytes :=
  match o with
  | Update _ r _ _ _ _ false => {[r]} ∪ D
  | Recount r | DeleteRoom _ r _ => D ∖ {[r]}
  | _ => D
  end.

Definition registered (reg : string -> option Appservice) (o : op stripped) : Prop :=
  match o with Ask _ app => reg (registration_id app) = Some app | _ => True end.

Lemma settled_ext reg c c' r :
  (forall u m, m = Joined \/ m = Invited -> members c' !! (u, r) = Some m <-> members c !! (u, r) = Some m) ->
  (forall x, (r, x) ∈ placed c' <-> (r, x) ∈ placed c) ->
  tallies c' !! r = tallies c !! r -> asked c' !! r = asked c !! r ->
  settled reg c r -> settled reg c' r.
Proof.
  intros Hm Hp Ht Ha [S1 S2 S3].
  assert (Hw : forall m, m = Joined \/ m = Invited -> who m r c' = who m r c).
  { intros m Hj. apply leibniz_equiv, set_equiv. intros u. by rewrite !elem_of_who, Hm. }
  split.
  - intros x. rewrite Hp, S1. by setoid_rewrite Hm; [|by left].
  - intros n k. rewrite Ht, !Hw by auto. apply S2.
  - intros id b. rewrite Ha. intros (app & Hr & <-)%S3. exists app. split; [done|].
    unfold present. destruct (sender_user app) as [u|]; [|done]. rewrite Hw by auto. f_equal.
    apply bool_decide_ext. by apply Hm; left.
Qed.

Lemma settled_recounted reg c r : settled reg (recounted r c) r.
Proof.
  split.
  - intros x. cbn. rewrite elem_of_union, elem_of_filter, elem_of_map. setoid_rewrite elem_of_who. naive_solver.
  - intros n k. cbn. rewrite lookup_insert_eq. by intros [= <- <-].
  - intros id b. cbn. by rewrite lookup_delete_eq.
Qed.

Lemma settled_recounted_other reg c r r' : r <> r' -> settled reg c r -> settled reg (recounted r' c) r.
Proof.
  intros Hne. apply settled_ext; cbn; try done.
  - intros x. rewrite elem_of_union, elem_of_filter, elem_of_map. naive_solver.
  - by rewrite lookup_insert_ne.
  - by rewrite lookup_delete_ne.
Qed.

Lemma settled_assign_other reg c r r' u m : r <> r' -> settled reg c r -> settled reg (assign u r' m c) r.
Proof.
  intros Hne. apply settled_ext; cbn; try done. intros u' m' _. rewrite lookup_insert_ne; [done|congruence].
Qed.

Lemma settled_unassign reg c r r' u : settled reg c r -> settled reg (unassign u r' c) r.
Proof.
  unfold unassign. case_decide as E; [|done]. apply settled_ext; cbn; try done. intros u' m' Hm'.
  rewrite lookup_delete_Some. split; [tauto|]. intros Hl. split; [|done]. intros [= -> ->].
  rewrite E in Hl. destruct Hm'; by simplify_eq.
Qed.

Lemma settled_enter reg c r r' u : settled reg c r -> settled reg (enter u r' c) r.
Proof. by apply settled_ext. Qed.

Lemma settled_deleted reg is_local c r r' force :
  (r <> r' -> settled reg c r) -> settled reg (deleted is_local r' force c) r.
Proof.
  destruct (decide (r = r')) as [->|Hne]; intros Hs.
  - split; cbn.
    + intros x. rewrite elem_of_filter. cbn. split; [by intros []|].
      intros (u & [_ Hu]%map_lookup_filter_Some & _). cbn in Hu. naive_solver.
    + intros n k. by rewrite lookup_delete_eq.
    + intros id b. by rewrite lookup_delete_eq.
  - eapply settled_ext; [..|by apply Hs]; cbn.
    + intros u m Hm. rewrite map_lookup_filter_Some. cbn. naive_solver.
    + intros x. rewrite elem_of_filter. cbn. naive_solver.
    + by rewrite lookup_delete_ne.
    + by rewrite lookup_delete_ne.
Qed.

(** A membership changes its own room, and only when the update goes through. *)
Lemma settled_arm reg a c c' y r r' u m :
  arm a r' u m c = Some (c', y) -> r <> r' \/ y <> Ok () -> settled reg c r -> settled reg c' r.
Proof.
  intros Ha Hne Hs. unfold arm in Ha. destruct m; repeat case_match; simplify_eq;
    try (destruct Hne as [Hne|[]]; [|done]); auto using settled_assign_other, settled_unassign, settled_enter.
Qed.

Lemma settled_asking reg c r r' app :
  reg (registration_id app) = Some app -> settled reg c r ->
  settled reg (step (stripped := stripped) c (Ask r' app)).1 r.
Proof.
  intros Hreg Hs. cbn [step]. destruct (asked c !! r' ≫= _) as [b|] eqn:Ea; [done|].
  destruct (sender_user app) as [u|] eqn:Eu; [|done]. cbn [fst].
  destruct (decide (r = r')) as [->|Hne].
  2:{ eapply settled_ext; [..|exact Hs]; cbn; try done. by rewrite lookup_insert_ne. }
  destruct Hs as [S1 S2 S3]. split; [exact S1|exact S2|]. intros id b. cbn [asked].
  rewrite lookup_insert_eq. cbn [mbind option_bind].
  destruct (decide (registration_id app = id)) as [<-|Hid].
  - rewrite lookup_insert_eq. intros [= <-]. by exists app.
  - rewrite lookup_insert_ne by done. intros Hb. apply (S3 id b).
    destruct (asked c !! r'); [exact Hb|]. cbn in Hb. by rewrite lookup_empty in Hb.
Qed.

(** In a settled room the cached answer is the present one. *)
Lemma asked_now reg c r app :
  settled reg c r -> reg (registration_id app) = Some app ->
  (step (stripped := stripped) c (Ask r app)).2 = Ok (present r app c).
Proof.
  intros Hs Hreg. cbn [step]. destruct (asked c !! r ≫= _) as [b|] eqn:Ea.
  - destruct (settled_asked _ _ _ Hs _ _ Ea) as (app' & E & <-). cbn. congruence.
  - unfold present. by destruct (sender_user app).
Qed.

Lemma step_settled reg c o D r :
  registered reg o -> (r ∉ D -> settled reg c r) -> r ∉ stale D o -> settled reg (step c o).1 r.
Proof.
  intros Hreg Hs Hr. destruct o as [a r' u m last via recount|r'|r' u|is_local r' force|r' app|]; cbn [stale registered] in *.
  - cbn [step]. destruct (if _ && _ then _ else _).
    2:{ apply Hs. destruct recount; set_solver. }
    destruct (arm a r' u m c) as [[c' y]|] eqn:Ea; [|apply Hs; destruct recount; set_solver].
    destruct (decide (r = r')) as [->|Hne].
    + destruct recount; [|set_solver]. destruct y as [[]|e]; cbn [fst]; [apply settled_recounted|].
      eapply settled_arm; [exact Ea|by right|auto].
    + assert (Hs' : settled reg c' r).
      { eapply settled_arm; [exact Ea|by left|apply Hs; destruct recount; set_solver]. }
      destruct y as [[]|e]; cbn [fst]; [|done]. destruct recount; [|done]. by apply settled_recounted_other.
  - cbn [step fst]. destruct (decide (r = r')) as [->|]; [apply settled_recounted|].
    apply settled_recounted_other; [done|]. apply Hs. set_solver.
  - cbn [step fst]. by apply settled_unassign, Hs.
  - cbn [step fst]. apply settled_deleted. intros ?. apply Hs. set_solver.
  - by apply settled_asking, Hs.
  - destruct (Hs Hr) as [S1 S2 S3]. split; cbn; [exact S1|exact S2|].
    intros id b. by rewrite lookup_empty.
Qed.

Lemma srun_settled reg c os D r :
  Forall (registered reg) os -> (r ∉ D -> settled reg c r) -> r ∉ foldl stale D os ->
  settled reg (srun c os).1 r.
Proof.
  intros Hos. revert c D. induction Hos as [|o os Ho Hos IH]; intros c D Hs Hr; cbn [srun foldl] in *; [auto|].
  pose proof (fun Hd => step_settled reg c o D r Ho Hs Hd) as Hs'.
  destruct (step c o) as [c1 x]. pose proof (IH c1 _ Hs' Hr) as Hf.
  by destruct (srun c1 os).
Qed.

Lemma settled_empty reg r : settled reg empty_spec r.
Proof.
  split; cbn [placed members tallies asked empty_spec].
  - intros x. split; [set_solver|]. intros (u & Hu & _). by rewrite lookup_empty in Hu.
  - intros n k. by rewrite lookup_empty.
  - intros id b. by rewrite lookup_empty.
Qed.

(** ** Properties *)

(** C18: over any history of membership updates, recounts, forgets, room deletions and
    questions of application services, on any database whose writes succeed, the
    fourteen columns represent one abstract state, in which a user has at most one
    membership in a room and both of its columns agree; every operation answers as
    the abstract one does without panicking, and [user_membership] and the members of
    a room are read off that state, whatever order hash sets are walked in. *)
Theorem state_cache_refines os u r :
  enumerates iter -> history_ok os -> is_user u = true -> is_room r = true ->
  let '(s, xs) := run empty_state os in
  let '(c, ys) := srun empty_spec os.*2 in
  represents s c /\ xs = ys /\
  user_membership u r (db s) = seen_as c u r /\
  exists l, room_members r (db s) = Ok l /\ StronglySorted (fun a b => cmp a b = Lt) l /\
    forall v, v ∈ l <-> members c !! (v, r) = Some Joined.
Proof.
  intros Hi Hok Hu Hr. destruct (run_refines _ _ os Hi empty_represents Hok) as [Hrep Hx].
  destruct (run empty_state os) as [s xs], (srun empty_spec os.*2) as [c ys]. cbn [fst snd] in *.
  destruct Hrep as [R Hc]. split_and!; [by split|done|by apply seen_rep|].
  destruct (room_members_sorted r (db s) c Hr R) as (l & ? & ? & ?). eauto.
Qed.

(** In every room that was recounted after its last unrecounted change (and every
    update that asks for a recount, and every deletion, keeps it so), the servers on
    record, in both columns, are exactly the servers of the joined users, a stored
    count is the number of joined users, and an application service is told whether it
    is in the room as of now, though the answer comes from a cache. *)
Theorem recounted_rooms_exact reg os r x app :
  enumerates iter -> history_ok os -> Forall (registered reg) os.*2 ->
  is_room r = true -> is_server x = true -> r ∉ foldl stale ∅ os.*2 ->
  reg (registration_id app) = Some app -> (forall u, sender_user app = Some u -> is_user u = true) ->
  let s := (run empty_state os).1 in
  exists l, room_members r (db s) = Ok l /\
    (server_in_room x r (db s) = true <-> exists u, u ∈ l /\ x = server_name u) /\
    (exists xs, room_servers r (db s) = Ok xs /\ (x ∈ xs <-> exists u, u ∈ l /\ x = server_name u)) /\
    (forall v, Maps.cf ROOMID_JOINEDCOUNT (db s) !! r = Some v ->
      room_joined_count r (db s) = Some (Z.min u64_max (Z.of_nat (length l)))) /\
    (appservice_in_room r app s).2 =
      Ok (match sender_user app with
          | None => false
          | Some u => bool_decide (u ∈ l) || existsb (users_match app) l
          end).
Proof.
  intros Hi Hok Hregs Hr Hx Hd Hreg Happ s.
  destruct (run_refines _ _ os Hi empty_represents Hok) as [[R Hc] _].
  pose proof (srun_settled reg empty_spec os.*2 ∅ r Hregs (fun _ => settled_empty reg r) Hd) as Hs.
  fold s in R, Hc. set (c := (srun empty_spec os.*2).1) in *.
  destruct (room_members_sorted r (db s) c Hr R) as (l & El & Hl & Ml).
  assert (Pl : l ≡ₚ elements (who Joined r c)).
  { apply NoDup_Permutation; [by apply sorted_lt_NoDup|apply NoDup_elements|].
    intros u. by rewrite elem_of_elements, elem_of_who. }
  exists l. split_and!; [done|..].
  - setoid_rewrite Ml. rewrite <-(settled_servers _ _ _ Hs x).
    unfold server_in_room, contains. rewrite bool_decide_eq_true.
    apply (holds_key (fun x r => (r, x) ∈ placed c)); [apply R|by apply server_no_sep].
  - destruct (seconds_servers r (db s) c Hr R) as (Fs & _ & Ms). eexists.
    split; [by apply expect_all|]. rewrite Ms, (settled_servers _ _ _ Hs). by setoid_rewrite Ml.
  - intros v Hv. pose proof (rep_joined _ _ R r) as Hj. rewrite Hv in Hj.
    destruct (tallies c !! r) as [[n k]|] eqn:Et; [|done].
    destruct (settled_tallies _ _ _ Hs n k Et) as [-> _]. cbn in Hj. injection Hj as ->.
    rewrite Pl. apply number_stored; [|exact Hv]. int_solve.
  - destruct (ask_rep (stripped := stripped) r app s c Hr Happ (conj R Hc)) as [_ ->].
    rewrite (asked_now reg c r app Hs Hreg). f_equal. unfold present.
    destruct (sender_user app) as [u|]; [|done]. f_equal; [by apply bool_decide_ext; rewrite Ml|].
    by rewrite (existsb_perm _ _ _ Pl).
Qed.

(** The rooms two users share are found by one pass over two sorted scans, and
    found exactly, in byte order; two users see each other when there is one. *)
Theorem shared_rooms_exact os a b :
  enumerates iter -> history_ok os -> is_user a = true -> is_user b = true ->
  let d := db (run empty_state os).1 in
  let c := (srun empty_spec os.*2).1 in
  exists l, get_shared_rooms a b d = Ok l /\ StronglySorted (fun x y => cmp x y = Lt) l /\
    (forall r, r ∈ l <-> members c !! (a, r) = Some Joined /\ members c !! (b, r) = Some Joined) /\
    exists seen, user_sees_user a b d = Ok seen /\
      (seen = true <-> exists r, members c !! (a, r) = Some Joined /\ members c !! (b, r) = Some Joined).
Proof.
  intros Hi Hok Ha Hb d c. destruct (run_refines _ _ os Hi empty_represents Hok) as [[R _] _].
  fold d c in R. destruct (rooms_joined_sorted a d c Ha R) as (la & Ea & Sa & Ma).
  destruct (rooms_joined_sorted b d c Hb R) as (lb & Eb & Sb & Mb).
  assert (Hl : get_shared_rooms a b d = Ok (SetOps.intersection [la; lb])).
  { unfold get_shared_rooms. rewrite Ea, Eb. cbn [mbind result_bind]. f_equal.
    by apply (SetOps.intersection_sorted_stream2_correct _). }
  assert (Hm : forall r, r ∈ SetOps.intersection [la; lb] <->
    members c !! (a, r) = Some Joined /\ members c !! (b, r) = Some Joined).
  { intros r. cbn [SetOps.intersection]. rewrite list_elem_of_filter, <-Ma, <-Mb. cbn [forallb].
    rewrite andb_true_r. unfold SetOps.mem. rewrite bool_decide_eq_true. tauto. }
  exists (SetOps.intersection [la; lb]). split_and!; [done| |done|].
  - eapply StronglySorted_sublist; [exact Sa|apply sublist_filter].
  - unfold user_sees_user. rewrite Hl. cbn [mbind result_bind]. eexists. split; [reflexivity|].
    setoid_rewrite <-Hm. rewrite bool_decide_eq_true.
    destruct (SetOps.intersection [la; lb]) as [|r l]; cbn; [|split; intros _; [exists r; by left|by eexists]].
    split; [by intros []|]. intros (r & Hr). by apply not_elem_of_nil in Hr.
Qed.

End Laws.
End StateCacheLaws.
