(* ===== verification/StateCacheSample.v ===== *)
(** A concrete reading of identifiers, on which the theorems of StateCacheLaws.v are
    applied, and what the cache does at its edges. *)
From S2P Require Import Prelude Order Event Codec Cursor Maps StateCache StateCacheSpec StateCacheLaws.

Module StateCacheSample.
Import StateCache StateCacheSpec StateCacheLaws.

Definition b (s : string) : bytes := String.list_byte_of_string s.

(** What follows the first colon. *)
Fixpoint after_colon (l : bytes) : bytes :=
  match l with [] => [] | x :: l => if decide (x = Byte.x3a) then l else after_colon l end.

#[export] Instance sample_ids : Ids := {
  is_user u := bool_decide (head u = Some Byte.x40) && Utf8.valid u && Utf8.valid (after_colon u);
  is_room r := bool_decide (head r = Some Byte.x21) && Utf8.valid r;
  is_server s := Utf8.valid s;
  server_name := after_colon
}.

#[export] Instance sample_ids_laws : IdsLaws.
Proof. split; cbn; intros x; rewrite ?andb_true_iff; tauto. Qed.

#[export] Instance sample_stripped : Stripped unit := {
  to_json l := repeat Byte.x7b (length l);
  of_json v := Some (repeat () (length v))
}.

Definition all_ok : Maps.write -> Maps.io := fun _ => Maps.io_ok.
Definition in_order : gset bytes -> list bytes := elements.
Lemma in_order_ok : enumerates in_order.
Proof. by intros X. Qed.

Definition alice := b "@alice:one.org".
Definition bob := b "@bob:two.org".
Definition den := b "!den:one.org".
Definition hall := b "!hall:two.org".

(** A local user, a counter at [n], nothing forced. *)
Definition plain (n : Z) : Answers := mkAnswers true true (Ok ()) None false false false false (Some n).

Definition bridge : Appservice := mkAppservice "irc" (Some bob) (fun _ => false).
Definition registry (id : string) : option Appservice :=
  if decide (id = "irc") then Some bridge else None.

Definition story : list ((Maps.write -> Maps.io) * op unit) :=
  pair all_ok <$>
  [Update (plain 1) den alice Event.Join None None true;
   Update (plain 2) den bob Event.Invite (Some [()]) (Some [b "one.org"; b "two.org"]) true;
   Ask den bridge;
   Update (plain 3) den bob Event.Join None None true;
   Update (plain 4) hall alice Event.Join None None false;
   Update (plain 5) hall bob Event.Join None None false;
   Update (plain 6) hall bob Event.Leave None None true;
   Recount hall].

Lemma story_ok : history_ok story.
Proof.
  apply Forall_fmap. repeat (apply Forall_cons_2; [|]); try apply Forall_nil_2.
  all: unfold compose; (split; [by intros w|]); cbn [compose op_ok snd]; split_and?; try (by vm_compute);
    try (by eexists); try (by repeat constructor).
  intros u [= <-]. by vm_compute.
Qed.

Lemma state_cache_refines_witness :
  user_membership bob hall (db (run in_order empty_state story).1) = Some Event.Leave.
Proof.
  pose proof (state_cache_refines in_order story bob hall in_order_ok story_ok eq_refl eq_refl) as Hw.
  destruct (run in_order empty_state story) as [s xs] eqn:Er.
  destruct (srun empty_spec story.*2) as [c ys] eqn:Es.
  destruct Hw as (_ & _ & Hm & _). cbn [fst]. rewrite Hm.
  assert (Hc : c = (srun empty_spec story.*2).1) by (by rewrite Es). rewrite Hc. by vm_compute.
Defined.

Lemma recounted_rooms_exact_witness :
  (appservice_in_room den bridge (run in_order empty_state story).1).2 = Ok true.
Proof.
  destruct (recounted_rooms_exact in_order registry story den (b "two.org") bridge in_order_ok story_ok)
    as (l & Hl & _ & _ & _ & Hask); [by repeat (first [apply Forall_nil_2|apply Forall_cons_2; [done|]])|done|done|by refine (bool_decide_unpack _ _); vm_compute|done|by intros u [= <-]|].
  rewrite Hask. f_equal. revert Hl. vm_compute. by intros [= <-].
Defined.

Lemma shared_rooms_exact_witness :
  exists l, get_shared_rooms alice bob (db (run in_order empty_state story).1) = Ok l /\ den ∈ l /\ (hall ∉ l).
Proof.
  pose proof (shared_rooms_exact in_order story alice bob in_order_ok story_ok eq_refl eq_refl) as Hw.
  cbv zeta in Hw. destruct Hw as (l & Hl & _ & Hm & _). exists l. split; [exact Hl|clear Hl].
  set (c := (srun empty_spec story.*2).1) in Hm.
  assert (Ea : members c !! (alice, den) = Some Joined) by (vm_compute; reflexivity).
  assert (Eb : members c !! (bob, den) = Some Joined) by (vm_compute; reflexivity).
  assert (Eh : members c !! (bob, hall) = Some Left) by (vm_compute; reflexivity).
  clearbody c. split; [exact (proj2 (Hm den) (conj Ea Eb))|]. intros [_ Hin]%Hm. congruence.
Defined.

(** ** At the edges *)

Definition after (os : list (op unit)) : State := (run in_order empty_state (pair all_ok <$> os)).1.

(** A banned user reads as one who left; a user who left and forgot the room reads as
    banned. *)
Theorem forgotten_reads_as_banned :
  user_membership bob den (db (after
    [Update (plain 1) den bob Event.Join None None true;
     Update (plain 2) den bob Event.Ban None None true])) = Some Event.Leave /\
  user_membership bob den (db (after
    [Update (plain 1) den bob Event.Join None None true;
     Update (plain 2) den bob Event.Leave None None true; Forget den bob])) = Some Event.Ban.
Proof. split; by vm_compute. Qed.

(** The servers an invite came through are looked up by a prefix of the room's bytes:
    those of a room whose id extends it are returned too. *)
Theorem invite_servers_of_another_room :
  let s := after [Update (plain 1) (b "!den:one.organic") bob Event.Invite None (Some [b "three.org"]) true] in
  servers_invite_via den (db s) = Ok [b "three.org"].
Proof. by vm_compute. Qed.

(** A counter that is not available panics between the writes of a leave: the user is
    then joined and left at once. *)
Theorem leave_half_written :
  let s := after [Update (plain 1) den bob Event.Join None None true] in
  let no_count := mkAnswers true true (Ok ()) None false false false false None in
  let '(s, x) := update_membership (stripped := unit) all_ok in_order no_count den bob Event.Leave None None true s in
  x = Err Panic /\ is_joined bob den (db s) = true /\ is_left bob den (db s) = true.
Proof. by vm_compute. Qed.

End StateCacheSample.
