(* ===== verification/Peer.v ===== *)
(** Backing off from servers that fail, [phantom-service/src/net/federation/peer.rs],
    with the outcome of a request ([execute.rs]) and the ranking of servers to ask
    ([rank.rs]).

    A failure is a row of the column [servername_status] under the server and the
    window of time it fell in; a success removes the server's rows. Whether and when
    to try again is computed from the rows. The clock is an argument, in seconds (or
    milliseconds for [PeerHealth]); a server name is its bytes. *)
From S2P Require Import Prelude Order Backoff Codec Cursor Maps.

Module Peer.

Inductive Classification := Transient | Permanent.
#[export] Instance Classification_eq_dec : EqDecision Classification.
Proof. solve_decision. Defined.

Definition from_byte (byte : Z) : Classification :=
  if byte =? 1 then Permanent else Transient.
Definition u8_from (class : Classification) : Z :=
  match class with Transient => 0 | Permanent => 1 end.

(** [earliest_retry] in seconds since the epoch. *)
Inductive ShouldAttempt := Yes | No (earliest_retry : Z) | Deprioritize.
#[export] Instance ShouldAttempt_eq_dec : EqDecision ShouldAttempt.
Proof. solve_decision. Defined.

Record Backoff := mkBackoff {
  b_class : Classification;
  b_anchor_secs : Z;
  b_streak : Z;
  b_now : Z;
  b_window_secs : Z;
  b_grace_secs : Z;
  b_max_backoff_secs : Z
}.

Record Streak := mkStreak {
  class : Classification;
  anchor_secs : Z;
  oldest_bucket : Z;
  latest_bucket : Z
}.

Record PeerBackoff := mkPeerBackoff {
  p_class : Classification;
  p_anchor_secs : Z;
  p_oldest_secs : Z;
  p_delay_secs : Z
}.

Record PeerHealth := mkHealth {
  last_failure_ms : option Z;
  last_error : option string;
  consecutive_failures : Z;
  last_inbound_ms : option Z
}.
Definition default_health : PeerHealth := mkHealth None None 0 None.

(** The service: its settings, its column and what it keeps in memory. *)
Record Config := mkConfig { window_secs : Z; n_max : Z; grace_secs : Z; max_backoff_secs : Z }.

Definition build (sender_timeout sender_retry_backoff_limit sender_retry_grace : Z) : Config :=
  let window_secs := Z.max sender_timeout 1 in
  mkConfig window_secs
    (Backoff.exponential_backoff_streak_cap (Backoff.from_secs window_secs)
       (Backoff.from_secs sender_retry_backoff_limit))
    sender_retry_grace sender_retry_backoff_limit.

Record State := mkState {
  db : Maps.Db;
  last_contact : gmap bytes Z;
  health : gmap bytes PeerHealth
}.
Definition set_db (d : Maps.Db) (s : State) : State := mkState d (last_contact s) (health s).

Definition SERVERNAME_STATUS : string := "servername_status".

(** ** Rows *)

Definition prefix_of (server : bytes) : bytes := server ++ [Codec.SEP].

(** [(server, bucket)] and [(server, Interfix)], as the codec writes them. *)
Definition status_key (server : bytes) (bucket : Z) : bytes :=
  Codec.key_bytes [Codec.VStr (payload := unit) server; Codec.VU64 bucket].
Definition interfix (server : bytes) : bytes := Codec.frame [server].

Definition decode (key : bytes) : option (bytes * Z) :=
  match Codec.from_slice (payload := unit) (fun _ => None) (fun _ => None) false
          (Codec.STuple [Codec.SStr; Codec.SU64]) key with
  | Ok (Codec.VTuple [Codec.VStr server; Codec.VU64 bucket]) => Some (server, bucket)
  | _ => None
  end.

Definition classify (b : bytes) : Classification :=
  match head b with Some byte => from_byte (b2z byte) | None => Transient end.

(** [bytes.get(1..9)], read as a number. *)
Definition failure_secs (b : bytes) : option Z :=
  if (9 <=? length b)%nat then Some (from_be (take 8 (drop 1 b))) else None.

Definition fold_streak (window_secs : Z) (state : option Streak) (bucket : Z) (value : bytes) : Streak :=
  mkStreak (classify value)
    (default (u64_saturating_mul bucket window_secs) (failure_secs value))
    (match state with Some streak => oldest_bucket streak | None => bucket end)
    bucket.

(** ** Verdicts *)

Definition delay_secs (b : Backoff) : Z :=
  let max := b_max_backoff_secs b in
  match b_class b with
  | Permanent => max
  | Transient =>
      if (b_streak b <=? 1) && negb (b_grace_secs b =? 0) then Z.min (b_grace_secs b) max
      else Z.min (u64_saturating_mul (u64_saturating_mul (b_window_secs b) (b_streak b)) (b_streak b)) max
  end.

(** [UNIX_EPOCH.checked_add(Duration::from_secs(_))]: the seconds fit in 64 signed bits. *)
Definition epoch_add (secs : Z) : option Z := in_range 0 i64_max secs.

Definition attempt_verdict (b : Backoff) : ShouldAttempt :=
  let earliest_secs := u64_saturating_add (b_anchor_secs b) (delay_secs b) in
  if b_now b <? earliest_secs then No (default (b_now b) (epoch_add earliest_secs))
  else Deprioritize.

Section Service.
Context (cfg : Config).

Definition current_bucket (now : Z) : Z := now / Z.max (window_secs cfg) 1.

Definition bucket_start (bucket : Z) : Z :=
  default 0 (epoch_add (u64_saturating_mul bucket (window_secs cfg))).

Definition streak (latest oldest : Z) : Z :=
  let span := u64_saturating_add (u64_saturating_sub latest oldest) 1 in
  Z.min (if span <=? u32_max then span else u32_max) (n_max cfg).

Definition backoff (now : Z) (k : Streak) : Backoff :=
  mkBackoff (class k) (anchor_secs k) (streak (latest_bucket k) (oldest_bucket k)) now
    (window_secs cfg) (grace_secs cfg) (max_backoff_secs cfg).

(** The rows of one server, in the order of their keys; one that does not decode is
    passed over. *)
Definition fold_row (state : option Streak) (r : row) : option Streak :=
  match decode r.1 with
  | Some (_, bucket) => Some (fold_streak (window_secs cfg) state bucket r.2)
  | None => state
  end.

Definition peer_streak (server : bytes) (d : Maps.Db) : option Streak :=
  foldl fold_row None (scan_prefix (interfix server) (Maps.cf SERVERNAME_STATUS d)).

Definition should_attempt (now : Z) (server : bytes) (d : Maps.Db) : ShouldAttempt :=
  match peer_streak server d with
  | None => Yes
  | Some k => attempt_verdict (backoff now k)
  end.

Definition peer_backoff_from (now : Z) (k : Streak) : PeerBackoff :=
  mkPeerBackoff (class k) (anchor_secs k)
    (u64_saturating_mul (oldest_bucket k) (window_secs cfg)) (delay_secs (backoff now k)).

Definition peer_backoff (now : Z) (server : bytes) (d : Maps.Db) : option PeerBackoff :=
  peer_backoff_from now <$> peer_streak server d.

Definition peer_has_failures (server : bytes) (d : Maps.Db) : bool :=
  bool_decide (is_Some (head (scan_prefix (prefix_of server) (Maps.cf SERVERNAME_STATUS d)))).

(** The closure of [peer_backoffs]: a row extends the last run or opens one. *)
Definition extend_runs (runs : list (bytes * Streak)) (r : row) : list (bytes * Streak) :=
  match decode r.1 with
  | None => runs
  | Some (server, bucket) =>
      match last runs with
      | Some (l, k) =>
          if decide (l = server)
          then take (length runs - 1) runs ++ [(l, fold_streak (window_secs cfg) (Some k) bucket r.2)]
          else runs ++ [(server, fold_streak (window_secs cfg) None bucket r.2)]
      | None => runs ++ [(server, fold_streak (window_secs cfg) None bucket r.2)]
      end
  end.

(** [is_server]: [OwnedServerName::try_from]. *)
Definition peer_backoffs (is_server : bytes -> bool) (now : Z) (d : Maps.Db) : gmap bytes PeerBackoff :=
  list_to_map (reverse (omap (fun '(server, k) =>
    if is_server server then Some (server, peer_backoff_from now k) else None)
    (foldl extend_runs [] (scan (Maps.cf SERVERNAME_STATUS d))))).

Definition peer_snapshot (is_server : bytes -> bool) (d : Maps.Db) : list (bytes * Z * Classification) :=
  omap (fun r : row => '(server, bucket) ← decode r.1;
    if is_server server then Some (server, bucket_start bucket, classify r.2) else None)
    (scan (Maps.cf SERVERNAME_STATUS d)).

(** ** Recording *)

Definition record_failure (i : Maps.io) (now : Z) (server : bytes) (c : Classification) (s : State) : State :=
  set_db (Maps.insert i SERVERNAME_STATUS (status_key server (current_bucket now))
    (z2b (u8_from c) :: be_bytes 8 now) (db s)).1 s.

Definition record_success (ios : bytes -> Maps.io) (now : Z) (server : bytes) (s : State) : State :=
  mkState (Maps.raw_del_prefix ios SERVERNAME_STATUS (interfix server) (db s))
    (<[server := now]> (last_contact s))
    (alter (fun h => mkHealth (last_failure_ms h) (last_error h) 0 (last_inbound_ms h)) server (health s)).

Definition note_failure (now_ms : Z) (server : bytes) (error : string) (s : State) : State :=
  let h := default default_health (health s !! server) in
  mkState (db s) (last_contact s) (<[server := mkHealth (Some now_ms) (Some error)
    (clamp_range 0 u32_max (consecutive_failures h + 1)) (last_inbound_ms h)]> (health s)).

Definition note_inbound (now_ms : Z) (server : bytes) (s : State) : State :=
  let h := default default_health (health s !! server) in
  mkState (db s) (last_contact s) (<[server := mkHealth (last_failure_ms h) (last_error h)
    (consecutive_failures h) (Some now_ms)]> (health s)).

Definition note_peer_alive (ios : bytes -> Maps.io) (server : bytes) (s : State) : State * bool :=
  let sad := peer_has_failures server (db s) in
  (if sad then set_db (Maps.raw_del_prefix ios SERVERNAME_STATUS (interfix server) (db s)) s else s, sad).

(** ** Outcomes *)

(** [Error::Federation] by its status and whether the body is JSON; every other error. *)
Inductive Error := Federation (status : Z) (json : bool) | OtherError.

Definition classify_error (e : Error) : option Classification :=
  match e with
  | OtherError => Some Transient
  | Federation status json =>
      if status =? 410 then Some Permanent else
      if (500 <=? status) && (status <? 600) || (status =? 429) then Some Transient else
      if negb json then Some Transient else None
  end.

Definition verdict {A} (r : result Error A) : option (option Classification) :=
  match r with Ok _ => None | Err e => Some (classify_error e) end.

Definition note_outcome {A} (show : Error -> string) (now_ms : Z) (dest : bytes) (r : result Error A)
    (s : State) : State :=
  match r with Ok _ => s | Err e => note_failure now_ms dest (show e) s end.

Definition record_outcome (i : Maps.io) (ios : bytes -> Maps.io) (now : Z) (dest : bytes)
    (v : option (option Classification)) (s : State) : State :=
  match v with
  | None => record_success ios now dest s
  | Some (Some c) => record_failure i now dest c s
  | Some None => s
  end.

(** What [execute_with] does with the answer [r] of the server. *)
Definition execute_with {A} (show : Error -> string) (i : Maps.io) (ios : bytes -> Maps.io)
    (now now_ms : Z) (dest : bytes) (r : result Error A) (s : State) : State * result Error A :=
  (record_outcome i ios now dest (verdict r) (note_outcome show now_ms dest r s), r).

(** ** Ranking *)

Inductive WhenAllBackedOff := Attempt | Fail.

Definition rank (v : ShouldAttempt) : Z :=
  match v with Yes => 0 | Deprioritize => 1 | No _ => 2 end.
Definition backed_off (v : ShouldAttempt) : bool := match v with No _ => true | _ => false end.

Definition rank_from_verdicts (verdicts : list (bytes * ShouldAttempt)) (when_all : WhenAllBackedOff) :
    list bytes :=
  let all_backed_off := forallb (fun sv => backed_off sv.2) verdicts in
  let keep_backed_off := all_backed_off && match when_all with Attempt => true | Fail => false end in
  (filter (fun sv => keep_backed_off || negb (backed_off sv.2) = true)
     (sort_by_key (fun sv => rank sv.2) verdicts)).*1.

(** [nows]: the clock when each server is asked about. *)
Definition rank_candidates (nows : bytes -> Z) (eligible : list bytes) (when_all : WhenAllBackedOff)
    (d : Maps.Db) : list bytes :=
  rank_from_verdicts ((fun server => (server, should_attempt (nows server) server d)) <$> eligible) when_all.

End Service.
End Peer.
