(* ===== verification/PeerFacts.v ===== *)
(** Failures and verdicts of Peer.v: the column represents, for each server, the
    failures since it last answered; the streak, the verdict and the ranking follow
    from those alone. *)
From S2P Require Import Prelude Order Backoff Codec Cursor Maps Peer.

Module PeerFacts.
Import Peer.

(** Failures by server and window: the class and the time of the last one in it. *)
Abbreviation failures := (gmap (bytes * Z) (Classification * Z)).

Definition row_value (c : Classification) (t : Z) : bytes := z2b (u8_from c) :: be_bytes 8 t.

(** ** Keys and values *)

Lemma interfix_eq s : interfix s = prefix_of s.
Proof. unfold interfix, prefix_of. by rewrite Codec.frame_cons. Qed.

Lemma status_key_eq s b : status_key s b = interfix s ++ be_bytes 8 b.
Proof.
  rewrite interfix_eq. unfold status_key, prefix_of, Codec.key_bytes, Codec.tail_bytes.
  cbn [fmap list_fmap concat Codec.field_bytes app]. by rewrite app_nil_r, <-app_assoc.
Qed.

Lemma status_key_serialized debug s b :
  Codec.serialize_to_vec (payload := unit) (fun _ => None) (fun _ => None) debug
    (Codec.VTuple [Codec.VStr s; Codec.VU64 b]) = Ok (status_key s b).
Proof. apply Codec.serialize_key; [done|repeat constructor]. Qed.

Lemma interfix_status_key s s' b :
  Utf8.valid s = true -> Utf8.valid s' = true ->
  interfix s `prefix_of` status_key s' b <-> s = s'.
Proof.
  intros Hs Hs'. rewrite status_key_eq. unfold interfix.
  rewrite Codec.frame_prefix by (try done; repeat constructor; by apply Utf8.valid_no_ff).
  naive_solver.
Qed.

Lemma status_key_inj s b s' b' :
  Utf8.valid s = true -> Utf8.valid s' = true -> is_u64 b -> is_u64 b' ->
  status_key s b = status_key s' b' -> s = s' /\ b = b'.
Proof.
  intros Hs Hs' Hb Hb' E.
  assert (s = s') as <-.
  { apply (interfix_status_key s s' b'); [done..|]. rewrite <-E, status_key_eq. by apply prefix_app_r. }
  rewrite !status_key_eq in E. apply app_inv_head, (f_equal from_be) in E.
  rewrite !from_be_be_bytes, !Z.mod_small in E by int_solve. done.
Qed.

Lemma decode_status_key s b : Utf8.valid s = true -> is_u64 b -> decode (status_key s b) = Some (s, b).
Proof.
  intros Hs Hb. unfold decode, status_key. rewrite Codec.from_slice_key; [done|constructor; [done|constructor; [done|constructor]]|].
  cbn. by intros [_ ?]%app_nil.
Qed.

Lemma classify_row c t : classify (row_value c t) = c.
Proof. by destruct c. Qed.

Lemma failure_secs_row c t : is_u64 t -> failure_secs (row_value c t) = Some t.
Proof.
  intros Ht. unfold failure_secs, row_value.
  assert (E : length (z2b (u8_from c) :: be_bytes 8 t) = 9%nat)
    by (cbn [length]; by rewrite length_be_bytes).
  rewrite E. change (drop 1 (?x :: ?l)) with l. cbn [Nat.leb].
  rewrite (take_ge (be_bytes 8 t) 8) by (rewrite length_be_bytes; lia). f_equal.
  rewrite from_be_be_bytes, Z.mod_small by int_solve. done.
Qed.

(** ** The column *)

Record represents (d : Maps.Db) (M : failures) : Prop := {
  rep_rows k v : Maps.cf SERVERNAME_STATUS d !! k = Some v <->
    exists s b c t, k = status_key s b /\ v = row_value c t /\ M !! (s, b) = Some (c, t);
  rep_ok s b c t : M !! (s, b) = Some (c, t) -> Utf8.valid s = true /\ is_u64 b /\ is_u64 t
}.

Lemma rep_lookup d M s b c t :
  represents d M -> Utf8.valid s = true -> is_u64 b -> is_u64 t ->
  Maps.cf SERVERNAME_STATUS d !! status_key s b = Some (row_value c t) <-> M !! (s, b) = Some (c, t).
Proof.
  intros [R O] Hs Hb Ht. rewrite R. split; [|by eauto 10].
  intros (s' & b' & c' & t' & E & Ev & Hm). destruct (O _ _ _ _ Hm) as (Hs' & Hb' & Ht').
  apply status_key_inj in E as [-> ->]; [|done..].
  assert (c = c') as -> by (rewrite <-(classify_row c t), Ev; apply classify_row).
  assert (t = t') as ->; [|done].
  apply (inj Some). rewrite <-(failure_secs_row c' t), Ev, failure_secs_row; done.
Qed.

Lemma failure_rep i cfg now s c st M :
  Maps.writes i = true -> 0 <= window_secs cfg -> Utf8.valid s = true -> is_u64 now ->
  represents (db st) M ->
  represents (db (record_failure cfg i now s c st)) (<[(s, current_bucket cfg now) := (c, now)]> M).
Proof.
  intros Hi Hw Hs Hn [R O].
  assert (Hb : is_u64 (current_bucket cfg now)).
  { unfold current_bucket. pose proof (Z.div_le_upper_bound now (Z.max (window_secs cfg) 1) now).
    pose proof (Z.div_pos now (Z.max (window_secs cfg) 1)). unfold is_u64 in *. nia. }
  set (b := current_bucket cfg now) in *.
  assert (E : Maps.cf SERVERNAME_STATUS (db (record_failure cfg i now s c st)) =
    <[status_key s b := row_value c now]> (Maps.cf SERVERNAME_STATUS (db st))).
  { unfold record_failure. cbn [db set_db]. fold b (row_value c now).
    unfold Maps.insert, Maps.write_opt. rewrite Hi.
    pose proof (Maps.apply_write_lookup (Maps.Put SERVERNAME_STATUS (status_key s b) (row_value c now))
      (Maps.cfs (db st)) SERVERNAME_STATUS) as E.
    cbv beta iota in E. rewrite decide_True in E by done.
    destruct (Maps.flush_if_uncorked _ _); [|exact E]. cbn [fst]. unfold Maps.cf at 1.
    rewrite Maps.wake_cfs. exact E. }
  split.
  - intros k v. rewrite E, lookup_insert_Some, (R k v). split.
    + intros [[<- <-]|(Hne & s' & b' & c' & t' & -> & -> & Hm)].
      * exists s, b, c, now. by rewrite lookup_insert_eq.
      * exists s', b', c', t'. rewrite lookup_insert_ne by (intros [= -> ->]; done). done.
    + intros (s' & b' & c' & t' & -> & -> & [[[= <- <-] [= <- <-]]|[Hne Hm]]%lookup_insert_Some); [by left|].
      right. split; [|by eauto 10]. destruct (O _ _ _ _ Hm) as (? & ? & ?).
      by intros [-> ->]%status_key_inj.
  - intros s' b' c' t' [[[= <- <-] [= <- <-]]|[_ Hm]]%lookup_insert_Some; [done|eauto].
Qed.

Lemma clear_status_rep ios s d M :
  (forall k, Maps.writes (ios k) = true) -> Utf8.valid s = true -> represents d M ->
  represents (Maps.raw_del_prefix ios SERVERNAME_STATUS (interfix s) d) (filter (fun p => p.1.1 <> s) M).
Proof.
  intros Hw Hs [R O]. split.
  - intros k v. rewrite Maps.raw_del_prefix_cf, (R k v). setoid_rewrite map_lookup_filter_Some. cbn [fst].
    split.
    + intros [(s' & b & c & t & -> & -> & Hm) Hp]. exists s', b, c, t. split_and!; try done.
      intros ->. apply Hp. split_and!; [done| |done]. destruct (O _ _ _ _ Hm) as (? & _).
      by apply interfix_status_key.
    + intros (s' & b & c & t & -> & -> & Hm & Hne). split; [by eauto 10|].
      intros (_ & Hp & _). destruct (O _ _ _ _ Hm) as (? & _).
      by apply Hne; symmetry; apply interfix_status_key in Hp.
  - intros s' b c t [Hm _]%map_lookup_filter_Some. eauto.
Qed.

(** ** The streak *)

(** What the streak of a server says of its failures. *)
Definition is_streak (M : failures) (s : bytes) (st : option Streak) : Prop :=
  match st with
  | None => forall b, M !! (s, b) = None
  | Some k =>
      M !! (s, latest_bucket k) = Some (class k, anchor_secs k) /\
      is_Some (M !! (s, oldest_bucket k)) /\
      forall b, is_Some (M !! (s, b)) -> oldest_bucket k <= b <= latest_bucket k
  end.

Definition row_of (s : bytes) (f : Z * (Classification * Z)) : row :=
  (status_key s f.1, row_value f.2.1 f.2.2).

(** The rows of a server are its failures, by time. *)
Lemma server_rows d M s :
  represents d M -> Utf8.valid s = true ->
  exists fs, scan_prefix (interfix s) (Maps.cf SERVERNAME_STATUS d) = row_of s <$> fs /\
    StronglySorted (fun f g => f.1 < g.1) fs /\
    (forall b c t, (b, (c, t)) ∈ fs <-> M !! (s, b) = Some (c, t)).
Proof.
  intros R Hs. set (rows := scan_prefix _ _).
  assert (Hrow : forall r, r ∈ rows <-> exists f, r = row_of s f /\ M !! (s, f.1) = Some f.2).
  { intros [k v]. unfold rows. rewrite CursorFacts.elem_of_scan_prefix, (rep_rows _ _ R). cbn [fst snd]. split.
    - intros [(s' & b & c & t & -> & -> & Hm) Hp]. destruct (rep_ok _ _ R _ _ _ _ Hm) as (? & _).
      apply interfix_status_key in Hp as <-; [|done..]. by exists (b, (c, t)).
    - intros ([b [c t]] & [= -> ->] & Hm). split; [by eauto 10|]. by apply interfix_status_key. }
  assert (Hfs : exists fs, rows = row_of s <$> fs /\ Forall (fun f => M !! (s, f.1) = Some f.2) fs).
  { assert (Hr : forall r, r ∈ rows -> exists f, r = row_of s f /\ M !! (s, f.1) = Some f.2)
      by (by intros r Hin%Hrow).
    clear -Hr. induction rows as [|r rows IH]; [by exists []|].
    destruct (Hr r) as (f & -> & Hf); [left|].
    destruct IH as (fs & -> & Hfs); [intros; apply Hr; by right|]. exists (f :: fs).
    split; [done|by constructor]. }
  destruct Hfs as (fs & Hfs & Hin). exists fs. split; [done|].
  assert (Hok : forall f, f ∈ fs -> is_u64 f.1).
  { intros [b [c t]] Hf. rewrite Forall_forall in Hin. by apply (rep_ok _ _ R s b c t), (Hin _ Hf). }
  split.
  - pose proof (CursorFacts.scan_prefix_sorted (interfix s) (Maps.cf SERVERNAME_STATUS d)) as Hst.
    fold rows in Hst. rewrite Hfs in Hst. clear -Hst Hok.
    induction fs as [|f fs IH]; [constructor|]. rewrite fmap_cons in Hst.
    inversion Hst as [|? ? Hst' Hf]; subst. constructor; [apply IH; [set_solver|done]|].
    apply Forall_fmap in Hf. rewrite Forall_forall in Hf |- *. intros g Hg. specialize (Hf g Hg).
    unfold compose, row_of, cmp, ord_bytes in Hf. cbn [fst] in Hf.
    rewrite !status_key_eq, bytes_cmp_app, bytes_cmp_be_bytes in Hf.
    pose proof (Hok f (list_elem_of_here _ _)). pose proof (Hok g (list_elem_of_further _ _ _ Hg)).
    rewrite !Z.mod_small in Hf by int_solve. by apply Z.compare_lt_iff in Hf.
  - intros b c t. rewrite Forall_forall in Hin. split; [apply (Hin (b, (c, t)))|]. intros Hm.
    assert (Hr : row_of s (b, (c, t)) ∈ rows) by (apply Hrow; by exists (b, (c, t))).
    rewrite Hfs in Hr. apply list_elem_of_fmap in Hr as ([b' f] & [= E _] & Hf).
    apply status_key_inj in E as [_ ->]; [|done|done|by apply (rep_ok _ _ R s b c t)|by apply (Hok _ Hf)].
    pose proof (Hin _ Hf) as Hm'. cbn in Hm'. rewrite Hm in Hm'. by injection Hm' as <-.
Qed.

(** Folding the rows of a server. *)
Lemma fold_rows cfg s fs f :
  Utf8.valid s = true -> Forall (fun f => is_u64 f.1 /\ is_u64 f.2.2) (fs ++ [f]) ->
  foldl (fold_row cfg) None (row_of s <$> fs ++ [f]) =
    Some (mkStreak f.2.1 f.2.2 (default f.1 (fst <$> head fs)) f.1).
Proof.
  intros Hs. revert f. induction fs as [|g fs IH] using rev_ind; intros [b [c t]] [Hfs [Hb Ht]%Forall_singleton]%Forall_app.
  - cbn [app fmap list_fmap foldl]. unfold fold_row, row_of. cbn [fst snd].
    rewrite decode_status_key by done. unfold fold_streak. by rewrite classify_row, failure_secs_row.
  - rewrite fmap_app, foldl_app, IH by done. cbn [fmap list_fmap foldl]. unfold fold_row, row_of. cbn [fst snd].
    rewrite decode_status_key by done. unfold fold_streak. rewrite classify_row, failure_secs_row by done.
    cbn [default oldest_bucket]. by destruct fs.
Qed.

Lemma sorted_times (ts : list Z) t x :
  StronglySorted Z.le (ts ++ [t]) -> x ∈ ts ++ [t] -> default t (head ts) <= x <= t.
Proof.
  intros Hs Hx. assert (Hup : forall y, y ∈ ts ++ [t] -> y <= t).
  { clear -Hs. induction ts as [|g ts IH]; intros y Hy; [by apply list_elem_of_singleton in Hy as ->|].
    inversion Hs as [|? ? Hs' Hg]; subst. rewrite Forall_forall in Hg.
    apply elem_of_cons in Hy as [->|Hy]; [|auto]. apply Hg. set_solver. }
  split; [|auto]. destruct ts as [|g ts]; cbn.
  - apply list_elem_of_singleton in Hx as ->. done.
  - inversion Hs as [|? ? _ Hg]; subst. rewrite Forall_forall in Hg.
    apply elem_of_cons in Hx as [->|Hx]; [done|auto].
Qed.

Lemma head_fmap' {A B} (g : A -> B) l : head (g <$> l) = g <$> head l.
Proof. by destruct l. Qed.

Lemma peer_streak_rep cfg d M s :
  represents d M -> Utf8.valid s = true -> is_streak M s (peer_streak cfg s d).
Proof.
  intros R Hs. destruct (server_rows d M s R Hs) as (fs & E & Hsort & Hin).
  unfold peer_streak. rewrite E. destruct fs as [|f fs _] using rev_ind.
  { intros b. destruct (M !! (s, b)) as [[c t]|] eqn:Em; [|done]. apply Hin in Em. by apply not_elem_of_nil in Em. }
  assert (Hm : forall g, g ∈ fs ++ [f] -> M !! (s, g.1) = Some g.2).
  { intros [b [c t]] Hg. by apply Hin. }
  rewrite fold_rows; [|done|].
  2:{ apply Forall_forall. intros [b [c t]] Hg%Hin.
      apply (rep_ok _ _ R) in Hg as (_ & ? & ?). done. }
  cbn [is_streak latest_bucket class anchor_secs oldest_bucket]. split_and!.
  - rewrite (Hm f) by set_solver. by destruct f as [b [c t]].
  - destruct fs as [|g fs]; cbn [head fmap option_fmap option_map default].
    + rewrite (Hm f) by set_solver. by eexists.
    + change (is_Some (M !! (s, g.1))). rewrite (Hm g) by (by left). by eexists.
  - intros b [[c t] Hb%Hin]. pose proof (sorted_times (fst <$> fs) f.1 b) as Ht. rewrite head_fmap' in Ht.
    change [f.1] with (fst <$> [f]) in Ht. rewrite <- fmap_app in Ht.
    apply Ht; [|by apply (list_elem_of_fmap_2 fst _ (b, (c, t)))].
    clear -Hsort. induction Hsort as [|g gs _ IH Hg]; [constructor|]. rewrite fmap_cons. constructor; [done|].
    apply Forall_fmap. eapply Forall_impl; [exact Hg|]. cbn. lia.
Qed.

(** ** Histories *)

Inductive op :=
  | Failed (i : Maps.io) (now : Z) (server : bytes) (c : Classification)
  | Answered (ios : bytes -> Maps.io) (now : Z) (server : bytes)
  | Alive (ios : bytes -> Maps.io) (server : bytes)
  | Noted (now_ms : Z) (server : bytes) (error : string)
  | Inbound (now_ms : Z) (server : bytes).

Section Histories.
Context (cfg : Config).

Definition exec (st : State) (o : op) : State :=
  match o with
  | Failed i now s c => record_failure cfg i now s c st
  | Answered ios now s => record_success ios now s st
  | Alive ios s => (note_peer_alive ios s st).1
  | Noted now s e => note_failure now s e st
  | Inbound now s => note_inbound now s st
  end.

(** The failures of a server since it last answered or was seen alive, as they came. *)
Definition since (server : bytes) (fs : list (Z * Classification)) (o : op) : list (Z * Classification) :=
  match o with
  | Failed _ now s c => if decide (s = server) then fs ++ [(now, c)] else fs
  | Answered _ _ s | Alive _ s => if decide (s = server) then [] else fs
  | _ => fs
  end.

(** Names are text, times fit, and the database takes the writes. *)
Definition op_ok (o : op) : Prop :=
  match o with
  | Failed i now s _ => Maps.writes i = true /\ is_u64 now /\ Utf8.valid s = true
  | Answered ios _ s | Alive ios s => (forall k, Maps.writes (ios k) = true) /\ Utf8.valid s = true
  | _ => True
  end.

Definition table (fs : list (Z * Classification)) : gmap Z (Classification * Z) :=
  foldl (fun m f => <[current_bucket cfg f.1 := (f.2, f.1)]> m) ∅ fs.

Lemma table_snoc fs f : table (fs ++ [f]) = <[current_bucket cfg f.1 := (f.2, f.1)]> (table fs).
Proof. unfold table. by rewrite foldl_app. Qed.

Lemma table_Some fs b : is_Some (table fs !! b) <-> exists f, f ∈ fs /\ b = current_bucket cfg f.1.
Proof.
  induction fs as [|f fs IH] using rev_ind.
  - unfold table. cbn. rewrite lookup_empty. split; [by intros []|]. intros (f & Hf & _). by apply not_elem_of_nil in Hf.
  - rewrite table_snoc, lookup_insert_is_Some', IH. setoid_rewrite elem_of_app.
    setoid_rewrite list_elem_of_singleton. naive_solver.
Qed.

(** What the column says of each server after an operation. *)
Lemma exec_rep st M o :
  0 <= window_secs cfg -> op_ok o -> represents (db st) M ->
  exists M', represents (db (exec st o)) M' /\
    forall s fs, Utf8.valid s = true -> (forall b, M !! (s, b) = table fs !! b) ->
      forall b, M' !! (s, b) = table (since s fs o) !! b.
Proof.
  intros Hw Ho R.
  assert (Hclear : forall ios s0, (forall k, Maps.writes (ios k) = true) -> Utf8.valid s0 = true ->
    exists M', represents (Maps.raw_del_prefix ios SERVERNAME_STATUS (interfix s0) (db st)) M' /\
    forall s fs, Utf8.valid s = true -> (forall b, M !! (s, b) = table fs !! b) ->
      forall b, M' !! (s, b) = table (if decide (s0 = s) then [] else fs) !! b).
  { intros ios s0 Hi Hs0. eexists. split; [by apply clear_status_rep|]. intros s fs Hs HM b. case_decide as E.
    - subst. unfold table. cbn. rewrite lookup_empty. apply map_lookup_filter_None. right. naive_solver.
    - rewrite <-HM. apply option_eq. intros v. rewrite map_lookup_filter_Some. cbn. naive_solver. }
  destruct o as [i now s c|ios now s|ios s|now s e|now s]; cbn [exec op_ok since] in *.
  - destruct Ho as (Hi & Hn & Hs). eexists. split; [by apply failure_rep|]. intros s' fs Hs' HM b.
    case_decide as E; [subst; rewrite table_snoc; cbn [fst snd]|].
    + destruct (decide (current_bucket cfg now = b)) as [->|Hb]; [by rewrite !lookup_insert_eq|].
      rewrite !lookup_insert_ne by congruence. apply HM.
    + rewrite lookup_insert_ne by congruence. apply HM.
  - destruct Ho. by apply Hclear.
  - destruct Ho as [Hi Hs]. unfold note_peer_alive, peer_has_failures. rewrite <-interfix_eq.
    destruct (Hclear ios s Hi Hs) as (M' & R' & HM'). case_bool_decide as Hsad; cbn [fst]; [by exists M'|].
    exists M. split; [done|]. intros s' fs Hs' HM b. case_decide as E; [subst|done].
    destruct (server_rows (db st) M s' R Hs') as (rows & Er & _ & Hin). rewrite Er in Hsad.
    destruct rows as [|r rows]; [|by destruct Hsad; eexists]. unfold table. cbn. rewrite lookup_empty.
    destruct (M !! (s', b)) as [[c t]|] eqn:Em; [|done]. apply Hin in Em. by apply not_elem_of_nil in Em.
  - by exists M.
  - by exists M.
Qed.

Definition no_servers : State := mkState (Maps.mkDb ∅ ∅ ∅ 0) ∅ ∅.

Lemma run_rep os :
  0 <= window_secs cfg -> Forall op_ok os ->
  exists M, represents (db (foldl exec no_servers os)) M /\
    forall s, Utf8.valid s = true -> forall b, M !! (s, b) = table (foldl (since s) [] os) !! b.
Proof.
  intros Hw. induction os as [|o os IH] using rev_ind; intros Hok.
  - exists ∅. split.
    + split; [|intros s b c t; by rewrite lookup_empty]. intros k v. cbn.
      setoid_rewrite lookup_empty. naive_solver.
    + intros s _ b. unfold table. cbn. by rewrite !lookup_empty.
  - apply Forall_app in Hok as [Hok [Ho _]%Forall_cons]. destruct (IH Hok) as (M & R & HM).
    rewrite foldl_app. cbn [foldl]. destruct (exec_rep _ M o Hw Ho R) as (M' & R' & HM').
    exists M'. split; [done|]. intros s Hs b. rewrite foldl_app. cbn [foldl]. by apply HM'; [|apply HM].
Qed.

(** With a clock that does not run backwards, the streak runs from the first failure
    to the last. *)
Lemma streak_of (M : failures) s fs f st :
  (forall b, M !! (s, b) = table (fs ++ [f]) !! b) -> StronglySorted Z.le (fs ++ [f]).*1 ->
  is_streak M s st ->
  st = Some (mkStreak f.2 f.1 (current_bucket cfg (default f.1 (fst <$> head fs))) (current_bucket cfg f.1)).
Proof.
  intros HM Hs Hst.
  assert (Hmono : forall a b, a <= b -> current_bucket cfg a <= current_bucket cfg b).
  { intros a b Hab. unfold current_bucket. apply Z.div_le_mono; lia. }
  set (t0 := default f.1 (fst <$> head fs)) in *.
  assert (Hup : forall g, g ∈ fs ++ [f] -> t0 <= g.1 <= f.1).
  { intros g Hg. rewrite fmap_app in Hs. unfold t0.
    replace (fst <$> head fs) with (head fs.*1) by by destruct fs.
    apply (sorted_times fs.*1 f.1); [exact Hs|]. change [f.1] with [f].*1.
    rewrite <-fmap_app. by apply list_elem_of_fmap_2. }
  assert (Hfirst : is_Some (M !! (s, current_bucket cfg t0))).
  { rewrite HM. apply table_Some. unfold t0. destruct fs as [|g fs]; [exists f|exists g]; set_solver. }
  assert (Hlast : M !! (s, current_bucket cfg f.1) = Some (f.2, f.1)).
  { by rewrite HM, table_snoc, lookup_insert_eq. }
  destruct st as [[c t lo hi]|]; cbn in Hst; [|by rewrite Hst in Hlast].
  destruct Hst as (Hhi & Hlo & Hall).
  assert (Hwin : forall b, is_Some (M !! (s, b)) -> current_bucket cfg t0 <= b <= current_bucket cfg f.1).
  { intros b. rewrite HM, table_Some. intros (g & Hg & ->). specialize (Hup g Hg). split; apply Hmono; lia. }
  assert (hi = current_bucket cfg f.1) as ->.
  { apply Z.le_antisymm; [by apply Hwin; eexists|by apply Hall; eexists]. }
  assert (lo = current_bucket cfg t0) as ->.
  { apply Z.le_antisymm; [by apply Hall|by apply Hwin]. }
  rewrite Hlast in Hhi. by injection Hhi as <- <-.
Qed.

Lemma delay_bounded b : 0 <= b_max_backoff_secs b -> delay_secs b <= b_max_backoff_secs b.
Proof. intros H. unfold delay_secs. destruct (b_class b); [destruct (_ && _)|]; lia. Qed.

Lemma sat_mul_mono a b c d :
  0 <= a <= b -> 0 <= c <= d -> 0 <= u64_saturating_mul a c <= u64_saturating_mul b d.
Proof. intros. assert (0 <= a * c <= b * d) by nia. int_solve. Qed.

Lemma streak_mono hi lo lo' :
  0 <= n_max cfg -> 0 <= lo' <= lo -> lo <= hi <= u64_max ->
  0 <= streak cfg hi lo <= streak cfg hi lo'.
Proof.
  intros Hn Hlo Hhi. unfold streak.
  assert (E : forall x, 0 <= x <= hi -> u64_saturating_add (u64_saturating_sub hi x) 1 = Z.min u64_max (hi - x + 1)).
  { intros x Hx. int_solve. }
  rewrite !E by lia.
  destruct (Z.leb_spec (Z.min u64_max (hi - lo + 1)) u32_max),
    (Z.leb_spec (Z.min u64_max (hi - lo' + 1)) u32_max); int_solve.
Qed.

(** A longer span of failures never shortens the wait. *)
Lemma delay_grows c t now lo lo' hi :
  is_u64 (window_secs cfg) -> grace_secs cfg <= window_secs cfg -> 0 <= n_max cfg ->
  0 <= lo' <= lo -> lo <= hi <= u64_max ->
  delay_secs (backoff cfg now (mkStreak c t lo hi)) <= delay_secs (backoff cfg now (mkStreak c t lo' hi)).
Proof.
  intros Hw Hg Hn Hlo Hhi. unfold delay_secs, backoff.
  cbn [b_class b_streak b_window_secs b_grace_secs b_max_backoff_secs class latest_bucket oldest_bucket].
  destruct c; [|done]. pose proof (streak_mono hi lo lo' Hn Hlo Hhi) as Hk.
  set (k := streak cfg hi lo) in *. set (k' := streak cfg hi lo') in *. clearbody k k'.
  assert (Hq : u64_saturating_mul (u64_saturating_mul (window_secs cfg) k) k <=
    u64_saturating_mul (u64_saturating_mul (window_secs cfg) k') k').
  { apply sat_mul_mono; [apply sat_mul_mono|]; unfold is_u64 in *; lia. }
  destruct (Z.leb_spec k 1), (Z.leb_spec k' 1), (grace_secs cfg =? 0); cbn [andb negb]; try lia.
  assert (Hone : u64_saturating_mul (u64_saturating_mul (window_secs cfg) 1) 1 <=
    u64_saturating_mul (u64_saturating_mul (window_secs cfg) k') k').
  { apply sat_mul_mono; [apply sat_mul_mono|]; unfold is_u64 in *; lia. }
  unfold is_u64 in Hw. unfold u64_saturating_mul at 1 2, clamp_range in Hone.
  rewrite !Z.mul_1_r in Hone. unfold u64_max in *. lia.
Qed.

(** ** Properties *)

(** Whatever happened to other servers, even ones whose names extend this one's, a
    server without a failure since it last answered is tried; otherwise the verdict is
    that of its first and last failure since then: it is refused until the delay for
    that span has passed since the last failure, the delay is at most the configured
    limit, so that it is tried again no later than that, and until it answers it ranks
    behind servers without failures. *)
Theorem should_attempt_exact os s now :
  is_u64 now -> 0 <= window_secs cfg -> 0 <= max_backoff_secs cfg -> Forall op_ok os -> Utf8.valid s = true ->
  let fs := foldl (since s) [] os in
  StronglySorted Z.le fs.*1 ->
  let d := db (foldl exec no_servers os) in
  match last fs with
  | None => should_attempt cfg now s d = Yes
  | Some (t, c) =>
      let b := backoff cfg now (mkStreak c t (current_bucket cfg (default t (fst <$> head fs)))
                 (current_bucket cfg t)) in
      should_attempt cfg now s d = attempt_verdict b /\
      should_attempt cfg now s d <> Yes /\
      delay_secs b <= max_backoff_secs cfg /\
      (backed_off (should_attempt cfg now s d) = true <-> now < u64_saturating_add t (delay_secs b)) /\
      (t + max_backoff_secs cfg <= now -> should_attempt cfg now s d = Deprioritize)
  end.
Proof.
  intros Hn Hw Hm Hok Hs fs Hsort d. destruct (run_rep os Hw Hok) as (M & R & HM). fold d in R.
  pose proof (HM s Hs) as HMs. fold fs in HMs. pose proof (peer_streak_rep cfg d M s R Hs) as Hst.
  destruct fs as [|f fs' _] eqn:Efs using rev_ind.
  - cbn. unfold should_attempt. destruct (peer_streak cfg s d) as [k|]; [|done].
    destruct Hst as [Hk _]. rewrite HMs in Hk. unfold table in Hk. cbn in Hk. by rewrite lookup_empty in Hk.
  - rewrite last_snoc. destruct f as [t c]. cbv zeta.
    pose proof (streak_of M s fs' (t, c) _ HMs Hsort Hst) as Ek. cbn [fst snd] in Ek.
    replace (fst <$> head (fs' ++ [(t, c)])) with (Some (default t (fst <$> head fs'))) by by destruct fs'.
    cbn [default]. unfold should_attempt. rewrite Ek. set (b := backoff _ _ _).
    assert (Hd : delay_secs b <= max_backoff_secs cfg) by by apply (delay_bounded b).
    unfold attempt_verdict. change (b_now b) with now. change (b_anchor_secs b) with t.
    split_and!; try done.
    + by destruct (_ <? _).
    + destruct (Z.ltb_spec now (u64_saturating_add t (delay_secs b))); cbn; split; done || lia.
    + intros Hnow. destruct (Z.ltb_spec now (u64_saturating_add t (delay_secs b))) as [Hlt|]; [|done].
      exfalso. unfold u64_saturating_add, clamp_range, is_u64 in *. lia.
Qed.

End Histories.

(** ** Ranking *)

Definition at_rank (k : Z) (vs : list (bytes * ShouldAttempt)) : list (bytes * ShouldAttempt) :=
  filter (fun sv => rank sv.2 = k) vs.

Lemma at_rank_Forall (P : Z -> Prop) k vs : P k -> Forall (fun sv => P (rank sv.2)) (at_rank k vs).
Proof. intros Hk. apply Forall_forall. intros x [<- _]%list_elem_of_filter. done. Qed.

(** Sorting by three ranks is taking each rank in turn, in the order given. *)
Lemma sort_by_rank vs :
  sort_by_key (fun sv => rank sv.2) vs = at_rank 0 vs ++ at_rank 1 vs ++ at_rank 2 vs.
Proof.
  induction vs as [|[s v] vs IH]; [done|].
  change (sort_by_key _ ((s, v) :: vs)) with (insert_by_key (fun sv : bytes * ShouldAttempt => rank sv.2)
    (s, v) (sort_by_key (fun sv => rank sv.2) vs)).
  rewrite IH. unfold at_rank at 4 5 6. rewrite !filter_cons. fold (at_rank 0 vs) (at_rank 1 vs) (at_rank 2 vs).
  assert (Hlt : forall j k, j < k -> Forall (fun sv => cmp (rank sv.2) k = Lt) (at_rank j vs)).
  { intros j k Hjk. apply (at_rank_Forall (fun j => cmp j k = Lt)). by apply Z.compare_lt_iff. }
  assert (Hle : forall j k, k <= j -> Forall (fun sv => ord_le k (rank sv.2)) (at_rank j vs)).
  { intros j k Hjk. apply (at_rank_Forall (fun j => ord_le k j)). intros E%Z.compare_gt_iff. lia. }
  destruct v; cbn [rank snd]; rewrite ?decide_True, ?decide_False by done.
  - rewrite insert_by_key_front; [done|]. rewrite !Forall_app. split_and!; cbn [rank snd]; apply Hle; lia.
  - rewrite !insert_by_key_app by (cbn [rank snd]; apply Hlt; lia). f_equal. f_equal.
    rewrite insert_by_key_front; [done|]. cbn [rank snd]; apply Hle; lia.
  - rewrite insert_by_key_app by (cbn [rank snd]; apply Hlt; lia). f_equal.
    rewrite insert_by_key_front; [done|]. rewrite !Forall_app. split_and!; cbn [rank snd]; apply Hle; lia.
Qed.

Lemma at_rank_verdicts (v : bytes -> ShouldAttempt) k l :
  (at_rank k ((fun s => (s, v s)) <$> l)).*1 = filter (fun s => rank (v s) = k) l.
Proof.
  induction l as [|s l IH]; [done|]. unfold at_rank in *. rewrite fmap_cons, !filter_cons. cbn [snd].
  case_decide; cbn; by rewrite IH.
Qed.

Lemma filter_nothing {A} (P : A -> Prop) `{!forall x, Decision (P x)} l :
  Forall (fun x => ~ P x) l -> filter P l = [].
Proof. induction 1 as [|x l Hx Hl IH]; [done|]. by rewrite filter_cons, decide_False. Qed.

Lemma rank_verdicts vs when_all :
  rank_from_verdicts vs when_all =
    if forallb (fun sv => backed_off sv.2) vs
    then match when_all with Attempt => vs.*1 | Fail => [] end
    else (at_rank 0 vs).*1 ++ (at_rank 1 vs).*1.
Proof.
  unfold rank_from_verdicts. rewrite sort_by_rank. destruct (forallb _ vs) eqn:Hall; cbn [andb].
  - assert (H2 : Forall (fun sv => rank sv.2 = 2) vs).
    { apply Forall_forall. intros [s v] Hin. rewrite forallb_forall in Hall.
      specialize (Hall (s, v) (proj1 (list_elem_of_In _ _) Hin)). by destruct v. }
    assert (Hk : forall k, k <> 2 -> at_rank k vs = []).
    { intros k Hk. apply filter_nothing. eapply Forall_impl; [exact H2|]. cbn. intros. lia. }
    rewrite (Hk 0), (Hk 1) by done. cbn [app].
    assert (E2 : at_rank 2 vs = vs) by (by apply filter_all). rewrite E2. destruct when_all.
    + f_equal. apply filter_all. by apply Forall_forall.
    + rewrite filter_nothing; [done|]. eapply Forall_impl; [exact H2|]. intros [s []]; cbn; done.
  - rewrite !filter_app, !fmap_app, (filter_nothing _ (at_rank 2 vs)), !filter_all; [by rewrite app_nil_r|..].
    all: apply Forall_forall; intros [s v] [Hr _]%list_elem_of_filter; by destruct v.
Qed.

(** The servers to try: those without failures first, then those whose delay has
    passed, each in the order given; a server that is backed off only when all are and
    the caller asks for them anyway. *)
Theorem rank_candidates_correct cfg nows eligible when_all d :
  let v s := should_attempt cfg (nows s) s d in
  rank_candidates cfg nows eligible when_all d =
    if forallb (fun s => backed_off (v s)) eligible
    then match when_all with Attempt => eligible | Fail => [] end
    else filter (fun s => v s = Yes) eligible ++ filter (fun s => v s = Deprioritize) eligible.
Proof.
  intros v. unfold rank_candidates.
  change (fun server => (server, should_attempt cfg (nows server) server d)) with (fun s => (s, v s)).
  clearbody v. rewrite rank_verdicts, !at_rank_verdicts.
  assert (E : forall l, forallb (fun sv => backed_off sv.2) ((fun s => (s, v s)) <$> l) =
    forallb (fun s => backed_off (v s)) l).
  { induction l as [|s l IH]; cbn; [done|]. by rewrite IH. }
  rewrite E, <-list_fmap_compose. destruct (forallb _ eligible).
  - destruct when_all; [|done]. apply list_fmap_id.
  - f_equal; apply list_filter_iff; intros s; destruct (v s); cbn; by split.
Qed.

(** ** A sample *)

Definition sample_config : Config := build 180 86400 30.
Definition peer (s : string) : bytes := String.list_byte_of_string s.

(** Two failures in neighbouring windows, beside a server whose name extends the
    first one's and one that answered. *)
Definition sample_history : list op :=
  [Failed Maps.io_ok 1000 (peer "a.co") Transient;
   Failed Maps.io_ok 1010 (peer "a.com") Permanent;
   Failed Maps.io_ok 1190 (peer "a.co") Transient;
   Failed Maps.io_ok 1200 (peer "b.org") Transient;
   Answered (fun _ => Maps.io_ok) 1201 (peer "b.org")].

Lemma should_attempt_exact_witness :
  let d := db (foldl (exec sample_config) no_servers sample_history) in
  should_attempt sample_config 1900 (peer "a.co") d = No 1910 /\
  should_attempt sample_config 1910 (peer "a.co") d = Deprioritize /\
  should_attempt sample_config 1910 (peer "b.org") d = Yes.
Proof.
  assert (Hok : Forall op_ok sample_history).
  { repeat (apply Forall_cons_2; [cbn; split_and?; try done; by vm_compute|]). apply Forall_nil_2. }
  assert (H1 := should_attempt_exact sample_config sample_history (peer "a.co") 1900).
  assert (H2 := should_attempt_exact sample_config sample_history (peer "a.co") 1910).
  assert (H3 := should_attempt_exact sample_config sample_history (peer "b.org") 1910).
  cbv zeta in H1, H2, H3 |- *.
  assert (Hw : 0 <= window_secs sample_config) by by vm_compute.
  assert (Hm : 0 <= max_backoff_secs sample_config) by by vm_compute.
  assert (Ea : foldl (since (peer "a.co")) [] sample_history = [(1000, Transient); (1190, Transient)])
    by (vm_compute; reflexivity).
  assert (Eb : foldl (since (peer "b.org")) [] sample_history = []) by (vm_compute; reflexivity).
  rewrite Ea in H1, H2. rewrite Eb in H3. cbn [fmap list_fmap fst last head default] in H1, H2, H3.
  assert (Hs : StronglySorted Z.le [1000; 1190]).
  { constructor; [constructor; constructor|]. constructor; [lia|constructor]. }
  specialize (H1 ltac:(int_solve) Hw Hm Hok eq_refl Hs).
  specialize (H2 ltac:(int_solve) Hw Hm Hok eq_refl Hs).
  specialize (H3 ltac:(int_solve) Hw Hm Hok eq_refl (SSorted_nil _)).
  split; [exact (eq_trans (proj1 H1) eq_refl)|].
  split; [exact (eq_trans (proj1 H2) eq_refl)|exact H3].
Defined.

End PeerFacts.
