(* ===== verification/Time.v ===== *)
(** Points in time and lengths of time, [phantom-core/src/time/mod.rs]. A [Duration] is
    a number of nanoseconds, a [SystemTime] one since the epoch; [now] is the clock.
    What [chrono] and [cyborgtime] format and parse is not modelled, nor is [pretty],
    which prints a floating-point fraction. *)
From S2P Require Import Prelude.

Module Time.

Definition NANOS_PER_SEC : Z := 1000000000.
Definition from_secs (s : Z) : Z := s * NANOS_PER_SEC.
Definition as_secs (d : Z) : Z := d / NANOS_PER_SEC.

(** A [SystemTime] has 64 signed bits of seconds. *)
Definition system_time (t : Z) : option Z :=
  in_range (i64_min * NANOS_PER_SEC) (i64_max * NANOS_PER_SEC + (NANOS_PER_SEC - 1)) t.

Definition now_millis (now : Z) : Z := as_u64 (now / 1000000).
Definition now_secs (now : Z) : Z := as_secs now.

Definition timepoint_ago (now d : Z) : option Z := system_time (now - d).
Definition timepoint_from_now (now d : Z) : option Z := system_time (now + d).
Definition timepoint_has_passed (now t : Z) : bool := t <=? now.
Definition duration_since_epoch (t : Z) : Z := Z.max t 0.

Inductive Unit_ :=
  | Days (n : Z) | Hours (n : Z) | Mins (n : Z) | Secs (n : Z)
  | Millis (n : Z) | Micros (n : Z) | Nanos (n : Z).

Definition whole_unit (d : Z) : Unit_ :=
  let secs := as_secs d in
  let subsec := d mod NANOS_PER_SEC in
  if 86400 <=? secs then Days (secs / 86400)
  else if 3600 <=? secs then Hours (secs / 3600)
  else if 60 <=? secs then Mins (secs / 60)
  else if 1000000 <=? d / 1000 then Secs secs
  else if 1000 <=? d / 1000 then Millis (subsec / 1000000)
  else if 1000 <=? d then Micros (subsec / 1000)
  else Nanos subsec.

(** The count of a unit, its length, and the length of the unit above it. *)
Definition unit_parts (u : Unit_) : Z * Z * option Z :=
  match u with
  | Days n => (n, from_secs 86400, None)
  | Hours n => (n, from_secs 3600, Some (from_secs 86400))
  | Mins n => (n, from_secs 60, Some (from_secs 3600))
  | Secs n => (n, from_secs 1, Some (from_secs 60))
  | Millis n => (n, 1000000, Some (from_secs 1))
  | Micros n => (n, 1000, Some 1000000)
  | Nanos n => (n, 1, Some 1000)
  end.

(** The unit is the largest that is not zero, and its count is rounded down. *)
Theorem whole_unit_exact d :
  0 <= d ->
  let '(n, len, above) := unit_parts (whole_unit d) in
  n * len <= d < (n + 1) * len /\ (1 <= n \/ d = 0) /\
  match above with Some a => d < a | None => True end.
Proof.
  intros Hd. unfold whole_unit, as_secs, NANOS_PER_SEC.
  repeat match goal with |- context [?a <=? ?b] => destruct (Z.leb_spec a b) end;
    cbn [unit_parts]; unfold from_secs, NANOS_PER_SEC; repeat split; try lia;
    Z.to_euclidean_division_equations; lia.
Qed.

(** A deadline set from now is ahead unless nothing was added, and the sum overflows
    only at the end of the representable time. *)
Lemma timepoint_from_now_ahead now d t :
  0 < d -> timepoint_from_now now d = Some t -> timepoint_has_passed now t = false.
Proof. unfold timepoint_from_now, system_time, timepoint_has_passed. intros Hd [-> _]%in_range_Some. lia. Qed.

End Time.
