(* ===== verification/Pending.v ===== *)
(** Proofs of ownership of an address, [phantom-service/src/auth/threepid/pending.rs]:
    a token is sent to an address, submitting it validates the session, and a validated
    session is spent once, directly or through the one interactive-auth session that
    claimed it.

    Every operation holds the lock of its session id and, where it touches the index
    of claims, the lock of the claim (MutexMap.v): it is one step. [refresh_claim] and
    [redeem_claim] look the session id up before they lock it; what that look-up gave
    is an argument. Rows are at the type of their values; random tokens, the clock
    (nanoseconds) and the answers of the database are arguments too. *)
From S2P Require Import Prelude Maps Time.

Module Pending.

(** [NotFound]: no row. [Storage]: the database failed to read or write. *)
Inductive error :=
  | NotFound | Storage | Expired | AlreadyUsed | AlreadyValidated | InvalidToken
  | SecretMismatch | NotValidated | ClaimChanged | NotOwned | Arithmetic.

Definition MAX_VERIFY_ATTEMPTS : Z := 5.
Definition UIAA_SESSION_TTL : Z := Time.from_secs (24 * 3600).

(** The user, device and session of an interactive-auth transaction. *)
Abbreviation UiaaKey := (string * string * string)%type.

Inductive PendingUse := Available | Claimed (owner : UiaaKey) | Spent.
#[export] Instance PendingUse_eq_dec : EqDecision PendingUse.
Proof. solve_decision. Defined.

Record Pending := mkPending {
  client_secret : string;
  medium : string;
  address : string;
  token : string;
  send_attempt : Z;
  attempts : Z;
  validated_at : option Z;
  expires_at : option Z;
  use_state : PendingUse
}.

Definition with_attempts (n : Z) (p : Pending) : Pending :=
  mkPending (client_secret p) (medium p) (address p) (token p) (send_attempt p) n
    (validated_at p) (expires_at p) (use_state p).
Definition with_validated_at (t : Z) (p : Pending) : Pending :=
  mkPending (client_secret p) (medium p) (address p) (token p) (send_attempt p) (attempts p)
    (Some t) (expires_at p) (use_state p).
Definition with_use (e : option Z) (u : PendingUse) (p : Pending) : Pending :=
  mkPending (client_secret p) (medium p) (address p) (token p) (send_attempt p) (attempts p)
    (validated_at p) e u.

(** [Association] *)
Record Association := mkAssociation { a_medium : string; a_address : string }.

(** [threepidsid_pending] and [userdevicesessionid_threepid]. *)
Record State := mkState {
  pendings : gmap string Pending;
  claims : gmap UiaaKey string
}.

(** The clock, whether reads work, and how the database answers the first and the
    second write of an operation. *)
Record Env := mkEnv { now : Z; reads : bool; io1 : Maps.io; io2 : Maps.io }.

(** A write or transaction: it happens or not, and an error may come after it. *)
Definition write (i : Maps.io) (s s' : State) : State * result error unit :=
  if Maps.writes i then (s', if Maps.flushes i then Ok () else Err Storage) else (s, Err Storage).

(** Runs [k] after a step that succeeded. *)
Definition and_then {A} (r : State * result error unit) (k : State -> State * result error A) :
    State * result error A :=
  match r with (s, Ok _) => k s | (s, Err e) => (s, Err e) end.

Section Ops.
(** [derive_sid]: SHA-256 of the delimited parts, in base 64. *)
Context (derive_sid : string -> string -> string -> string).

Definition timepoint_from_now (now d : Z) : result error Z :=
  ok_or (Time.timepoint_from_now now d) Arithmetic.

Definition expired (now : Z) (p : Pending) : bool :=
  match expires_at p with Some t => Time.timepoint_has_passed now t | None => false end.

(** [Option::max]: [None] is least. *)
Definition option_max (a b : option Z) : option Z :=
  match a, b with Some x, Some y => Some (Z.max x y) | None, b => b | a, None => a end.

Definition get_pending (e : Env) (sid : string) (s : State) : result error Pending :=
  if reads e then ok_or (pendings s !! sid) NotFound else Err Storage.
Definition claim_sid (e : Env) (claim : UiaaKey) (s : State) : result error (option string) :=
  if reads e then Ok (claims s !! claim) else Err Storage.

Definition persist_pending (i : Maps.io) (sid : string) (p : Pending) (s : State) : State * result error unit :=
  write i s (mkState (<[sid := p]> (pendings s)) (claims s)).

Definition delete_pending_rows (i : Maps.io) (sid : string) (claim : option UiaaKey) (s : State) :
    State * result error unit :=
  write i s (mkState (delete sid (pendings s))
    (match claim with Some c => delete c (claims s) | None => claims s end)).

Definition delete_claim_index (i : Maps.io) (claim : UiaaKey) (s : State) : State * result error unit :=
  write i s (mkState (pendings s) (delete claim (claims s))).

Definition delete_pending_state (e : Env) (i : Maps.io) (sid : string) (p : Pending) (s : State) :
    State * result error unit :=
  match use_state p with
  | Claimed claim =>
      match claim_sid e claim s with
      | Err err => (s, Err err)
      | Ok claimed_sid =>
          delete_pending_rows i sid (if decide (claimed_sid = Some sid) then Some claim else None) s
      end
  | _ => delete_pending_rows i sid None s
  end.

(** [PendingOutcome]: the session id and the token to deliver, if a new one. *)
Definition create_or_reuse_pending (e : Env) (secret medium address : string) (attempt ttl : Z)
    (fresh : string) (s : State) : State * result error (string * option string) :=
  let sid := derive_sid medium address secret in
  let mint (s : State) :=
    match timepoint_from_now (now e) ttl with
    | Err err => (s, Err err)
    | Ok expires =>
        and_then (persist_pending (io2 e) sid
          (mkPending secret medium address fresh attempt 0 None (Some expires) Available) s)
          (fun s => (s, Ok (sid, Some fresh)))
    end in
  match get_pending e sid s with
  | Err NotFound => mint s
  | Err err => (s, Err err)
  | Ok existing =>
      if expired (now e) existing then and_then (delete_pending_state e (io1 e) sid existing s) mint else
      match use_state existing with
      | Available => if attempt <=? send_attempt existing then (s, Ok (sid, None)) else mint s
      | _ => (s, Err AlreadyUsed)
      end
  end.

Definition validate_pending_token (e : Env) (sid secret tok : string) (s : State) : State * result error unit :=
  match get_pending e sid s with
  | Err err => (s, Err err)
  | Ok p =>
      if expired (now e) p then and_then (delete_pending_state e (io1 e) sid p s) (fun s => (s, Err Expired)) else
      match use_state p, validated_at p with
      | Available, None =>
          if negb (bool_decide (client_secret p = secret)) || negb (bool_decide (token p = tok)) then
            let n := clamp_range 0 u32_max (attempts p + 1) in
            and_then
              (if MAX_VERIFY_ATTEMPTS <=? n then delete_pending_state e (io1 e) sid p s
               else persist_pending (io1 e) sid (with_attempts n p) s)
              (fun s => (s, Err InvalidToken))
          else persist_pending (io1 e) sid (with_validated_at (now e) p) s
      | Available, Some _ => (s, Err AlreadyValidated)
      | _, _ => (s, Err AlreadyUsed)
      end
  end.

(** Both rows of a claim, in one transaction. *)
Definition put_claim (i : Maps.io) (sid : string) (claim : UiaaKey) (p : Pending) (s : State) :
    State * result error unit :=
  write i s (mkState (<[sid := p]> (pendings s)) (<[claim := sid]> (claims s))).

Definition claim_validated (e : Env) (sid secret : string) (claim : UiaaKey) (s : State) :
    State * result error bool :=
  match get_pending e sid s with
  | Err NotFound => (s, Ok false)
  | Err err => (s, Err err)
  | Ok p =>
      if expired (now e) p then and_then (delete_pending_state e (io1 e) sid p s) (fun s => (s, Ok false)) else
      if negb (bool_decide (client_secret p = secret)) then (s, Ok false) else
      match validated_at p with
      | None => (s, Ok false)
      | Some _ =>
          if match use_state p with
             | Available => false
             | Claimed owner => negb (bool_decide (owner = claim))
             | Spent => true
             end then (s, Ok false) else
          match claim_sid e claim s with
          | Err err => (s, Err err)
          | Ok claimed =>
              if match claimed with Some c => negb (bool_decide (c = sid)) | None => false end
              then (s, Ok false) else
              match timepoint_from_now (now e) UIAA_SESSION_TTL with
              | Err err => (s, Err err)
              | Ok t =>
                  and_then (put_claim (io1 e) sid claim
                    (with_use (option_max (Some t) (expires_at p)) (Claimed claim) p) s)
                    (fun s => (s, Ok true))
              end
          end
      end
  end.

(** [sid]: the session the claim was seen to hold before the locks were taken. *)
Definition refresh_claim (e : Env) (claim : UiaaKey) (sid : string) (s : State) : State * result error bool :=
  match claim_sid e claim s with
  | Err err => (s, Err err)
  | Ok current =>
      if negb (bool_decide (current = Some sid)) then (s, Ok false) else
      match get_pending e sid s with
      | Err NotFound => and_then (delete_claim_index (io1 e) claim s) (fun s => (s, Ok false))
      | Err err => (s, Err err)
      | Ok p =>
          if expired (now e) p
          then and_then (delete_pending_rows (io1 e) sid (Some claim) s) (fun s => (s, Ok false)) else
          if negb (bool_decide (use_state p = Claimed claim))
          then and_then (delete_claim_index (io1 e) claim s) (fun s => (s, Ok false)) else
          match timepoint_from_now (now e) UIAA_SESSION_TTL with
          | Err err => (s, Err err)
          | Ok t =>
              and_then (put_claim (io1 e) sid claim
                (with_use (option_max (Some t) (expires_at p)) (Claimed claim) p) s)
                (fun s => (s, Ok true))
          end
      end
  end.

Definition association (p : Pending) : Association := mkAssociation (medium p) (address p).

Definition redeem_claim (e : Env) (claim : UiaaKey) (sid : string) (s : State) :
    State * result error Association :=
  match claim_sid e claim s with
  | Err err => (s, Err err)
  | Ok None => (s, Err NotFound)
  | Ok (Some current_sid) =>
      if negb (bool_decide (current_sid = sid)) then (s, Err ClaimChanged) else
      match get_pending e sid s with
      | Err NotFound => and_then (delete_claim_index (io1 e) claim s) (fun s => (s, Err NotFound))
      | Err err => (s, Err err)
      | Ok p =>
          if expired (now e) p
          then and_then (delete_pending_rows (io1 e) sid (Some claim) s) (fun s => (s, Err Expired)) else
          if negb (bool_decide (use_state p = Claimed claim))
          then and_then (delete_claim_index (io1 e) claim s) (fun s => (s, Err NotOwned)) else
          and_then (write (io1 e) s (mkState (<[sid := with_use (expires_at p) Spent p]> (pendings s))
            (delete claim (claims s)))) (fun s => (s, Ok (association p)))
      end
  end.

Definition redeem_validated (e : Env) (sid secret : string) (s : State) : State * result error Association :=
  match get_pending e sid s with
  | Err err => (s, Err err)
  | Ok p =>
      if expired (now e) p then and_then (delete_pending_state e (io1 e) sid p s) (fun s => (s, Err Expired)) else
      if negb (bool_decide (client_secret p = secret)) then (s, Err SecretMismatch) else
      match validated_at p with
      | None => (s, Err NotValidated)
      | Some _ =>
          match use_state p with
          | Available =>
              and_then (persist_pending (io1 e) sid (with_use (expires_at p) Spent p) s)
                (fun s => (s, Ok (association p)))
          | _ => (s, Err AlreadyUsed)
          end
      end
  end.

Definition session_validated (e : Env) (sid secret : string) (s : State) : bool :=
  match get_pending e sid s with
  | Err _ => false
  | Ok p =>
      negb (expired (now e) p) && bool_decide (client_secret p = secret) &&
      bool_decide (is_Some (validated_at p)) && bool_decide (use_state p = Available)
  end.

(** ** Histories *)

Inductive op :=
  | Create (e : Env) (secret medium address : string) (attempt ttl : Z) (fresh : string)
  | Validate (e : Env) (sid secret tok : string)
  | Claim (e : Env) (sid secret : string) (claim : UiaaKey)
  | Refresh (e : Env) (claim : UiaaKey) (sid : string)
  | RedeemClaim (e : Env) (claim : UiaaKey) (sid : string)
  | RedeemValidated (e : Env) (sid secret : string).

Inductive outcome :=
  | Created (sid : string) (minted : option string)
  | Done | Answer (b : bool) | Redeemed (a : Association) | Failed (err : error).

Definition report {A} (f : A -> outcome) (r : State * result error A) : State * outcome :=
  (r.1, match r.2 with Ok a => f a | Err err => Failed err end).

Definition exec (s : State) (o : op) : State * outcome :=
  match o with
  | Create e secret m a n ttl fresh =>
      report (fun '(sid, t) => Created sid t) (create_or_reuse_pending e secret m a n ttl fresh s)
  | Validate e sid secret tok => report (fun _ => Done) (validate_pending_token e sid secret tok s)
  | Claim e sid secret claim => report Answer (claim_validated e sid secret claim s)
  | Refresh e claim sid => report Answer (refresh_claim e claim sid s)
  | RedeemClaim e claim sid => report Redeemed (redeem_claim e claim sid s)
  | RedeemValidated e sid secret => report Redeemed (redeem_validated e sid secret s)
  end.

(** The session id an operation is about. *)
Definition about (o : op) : string :=
  match o with
  | Create _ secret m a _ _ _ => derive_sid m a secret
  | Validate _ sid _ _ | Claim _ sid _ _ | Refresh _ _ sid | RedeemClaim _ _ sid
  | RedeemValidated _ sid _ => sid
  end.

(** A run and its trace, the last step first. *)
Fixpoint run (s : State) (os : list op) (tr : list (op * outcome)) : State * list (op * outcome) :=
  match os with
  | [] => (s, tr)
  | o :: os => let '(s, x) := exec s o in run s os ((o, x) :: tr)
  end.

End Ops.
End Pending.
