(* ===== verification/PendingFacts.v ===== *)
(** What the address proofs of Pending.v guarantee over any history of operations and
    database failures: an address is redeemed only after the token sent to it was
    submitted, once per token; wrong submissions are bounded; claims are exclusive. *)
From S2P Require Import Prelude Maps Time Pending.

Module PendingFacts.
Import Pending.

(** The tables of a new server. *)
Definition empty_tables : State := mkState ∅ ∅.

Section Facts.
Context (derive_sid : string -> string -> string -> string).
#[local] Abbreviation exec := (Pending.exec derive_sid).
#[local] Abbreviation about := (Pending.about derive_sid).
#[local] Abbreviation run := (Pending.run derive_sid).

(** ** Traces *)

Definition is_redeemed (x : outcome) : Prop := match x with Redeemed _ => True | _ => False end.
#[local] Instance is_redeemed_dec x : Decision (is_redeemed x).
Proof. destruct x; apply _. Defined.

(** The row of a session has a history: its token was minted for its address, was
    submitted since if the row is validated, and nothing was redeemed since unless the
    row is spent. Traces have the last step first. *)
Definition proven (tr : list (op * outcome)) (sid : string) (p : Pending) : Prop :=
  exists newer older e ttl x,
    tr = newer ++ (Create e (client_secret p) (medium p) (address p) (send_attempt p) ttl (token p), x) :: older /\
    derive_sid (medium p) (address p) (client_secret p) = sid /\
    (is_Some (validated_at p) -> exists e' y, (Validate e' sid (client_secret p) (token p), y) ∈ newer) /\
    (use_state p <> Spent -> forall o y, (o, y) ∈ newer -> is_redeemed y -> about o <> sid).

(** Wrong submissions answered since a token was last minted for the session. *)
Fixpoint guesses (sid : string) (tr : list (op * outcome)) : Z :=
  match tr with
  | [] => 0
  | (o, x) :: tr =>
      if decide (about o = sid) then
        match o, x with
        | Create _ _ _ _ _ _ _, Created _ (Some _) => 0
        | Create e _ _ _ _ _ _, Failed Storage => if Maps.writes (io2 e) then 0 else guesses sid tr
        | Validate _ _ _ _, Failed InvalidToken => 1 + guesses sid tr
        | _, _ => guesses sid tr
        end
      else guesses sid tr
  end.

Lemma guesses_nonneg sid tr : 0 <= guesses sid tr.
Proof.
  induction tr as [|[o x] tr IH]; cbn [guesses]; [lia|]. case_decide; [|done].
  destruct o, x as [? []| | | |[]]; try done; try lia. by destruct (Maps.writes _).
Qed.

(** The transaction that claimed a row. *)
Definition owner (p : option Pending) : option UiaaKey :=
  match p with
  | Some p => match use_state p with Claimed c => Some c | _ => None end
  | None => None
  end.

Record Inv (s : State) (tr : list (op * outcome)) : Prop := {
  inv_proven sid p : pendings s !! sid = Some p -> proven tr sid p;
  inv_guesses sid p : pendings s !! sid = Some p -> guesses sid tr <= attempts p < MAX_VERIFY_ATTEMPTS;
  inv_bound sid : guesses sid tr <= MAX_VERIFY_ATTEMPTS;
  inv_used sid p : pendings s !! sid = Some p -> use_state p <> Available -> is_Some (validated_at p);
  inv_claims c sid : claims s !! c = Some sid <-> owner (pendings s !! sid) = Some c
}.

Lemma proven_cons tr sid p o x :
  proven tr sid p -> ~ (is_redeemed x /\ about o = sid /\ use_state p <> Spent) -> proven ((o, x) :: tr) sid p.
Proof.
  intros (newer & older & e & ttl & y & -> & Hsid & Hv & Hr) Hx.
  exists ((o, x) :: newer), older, e, ttl, y. split_and!; try done.
  - intros (e' & z & Hin)%Hv. exists e', z. by right.
  - intros Hu o' z [[= -> ->]|Hin]%elem_of_cons Hz; [|by eapply Hr]. intros Ha. by apply Hx.
Qed.

(** A row keeps its history when its token stays and its use only moves on. *)
Lemma proven_same tr sid p q :
  proven tr sid p ->
  client_secret q = client_secret p -> medium q = medium p -> address q = address p ->
  token q = token p -> send_attempt q = send_attempt p ->
  (is_Some (validated_at q) -> is_Some (validated_at p)) -> (use_state q <> Spent -> use_state p <> Spent) ->
  proven tr sid q.
Proof.
  intros (newer & older & e & ttl & y & -> & Hsid & Hv & Hr) E1 E2 E3 E4 E5 Hval Huse.
  exists newer, older, e, ttl, y. rewrite E1, E2, E3, E4, E5. split_and!; eauto.
Qed.

(** ** One step *)

(** The claims when the owner of [sid] changes. *)
Definition move (sid : string) (old new : option UiaaKey) (cl : gmap UiaaKey string) : gmap UiaaKey string :=
  let cl := match old with Some c => delete c cl | None => cl end in
  match new with Some c => <[c := sid]> cl | None => cl end.

Lemma move_lookup s tr sid np c sid' :
  Inv s tr ->
  (forall c, owner np = Some c -> claims s !! c = None \/ claims s !! c = Some sid) ->
  move sid (owner (pendings s !! sid)) (owner np) (claims s) !! c = Some sid' <->
  owner (partial_alter (fun _ => np) sid (pendings s) !! sid') = Some c.
Proof.
  intros I Hnew. pose proof (inv_claims s tr I) as Hc.
  destruct (decide (sid' = sid)) as [->|Hne].
  - rewrite lookup_partial_alter_eq. unfold move. destruct (owner np) as [c'|] eqn:En.
    + rewrite lookup_insert_Some. destruct (owner (pendings s !! sid)) as [d|] eqn:Eo.
      * rewrite lookup_delete_Some, Hc, Eo. naive_solver.
      * rewrite Hc, Eo. naive_solver.
    + destruct (owner (pendings s !! sid)) as [d|] eqn:Eo; [rewrite lookup_delete_Some|]; rewrite Hc, Eo; naive_solver.
  - rewrite lookup_partial_alter_ne, <- Hc by done. unfold move.
    assert (Hold : match owner (pendings s !! sid) with Some c => delete c (claims s) | None => claims s end !! c
      = Some sid' <-> claims s !! c = Some sid').
    { destruct (owner (pendings s !! sid)) as [d|] eqn:Eo; [|done]. rewrite lookup_delete_Some.
      apply Hc in Eo. naive_solver. }
    destruct (owner np) as [c'|]; [|done]. rewrite lookup_insert_Some, Hold. destruct (Hnew c' eq_refl); naive_solver.
Qed.

(** ** One step *)

(** A trace goes on with steps about [sid] only. *)
Definition later (sid : string) (tr tr' : list (op * outcome)) : Prop :=
  forall sid', sid' <> sid ->
    guesses sid' tr' = guesses sid' tr /\ forall p, proven tr sid' p -> proven tr' sid' p.

Lemma later_refl sid tr : later sid tr tr.
Proof. done. Qed.

Lemma later_step tr o x : later (about o) tr ((o, x) :: tr).
Proof.
  intros sid' Hne. split.
  - cbn [guesses]. by rewrite decide_False by congruence.
  - intros p Hp. apply proven_cons; [done|]. naive_solver.
Qed.

(** The row of [sid] became [np]. *)
Lemma inv_move s tr tr' sid np :
  Inv s tr -> later sid tr tr' ->
  (forall p, np = Some p -> proven tr' sid p /\ guesses sid tr' <= attempts p < MAX_VERIFY_ATTEMPTS /\
    (use_state p <> Available -> is_Some (validated_at p))) ->
  guesses sid tr' <= MAX_VERIFY_ATTEMPTS ->
  (forall c, owner np = Some c -> claims s !! c = None \/ claims s !! c = Some sid) ->
  Inv (mkState (partial_alter (fun _ => np) sid (pendings s))
    (move sid (owner (pendings s !! sid)) (owner np) (claims s))) tr'.
Proof.
  intros I Hl Hp Hg Hc.
  assert (Hcase : forall sid' q, partial_alter (fun _ => np) sid (pendings s) !! sid' = Some q ->
    (sid' = sid /\ np = Some q) \/ (sid' <> sid /\ pendings s !! sid' = Some q)).
  { intros sid' q. destruct (decide (sid' = sid)) as [->|]; [rewrite lookup_partial_alter_eq|
      rewrite lookup_partial_alter_ne by done]; auto. }
  split; cbn [pendings claims].
  - intros sid' q [[-> Hq]|[Hne Hq]]%Hcase; [by apply Hp|]. apply Hl; [done|]. by eapply inv_proven.
  - intros sid' q [[-> Hq]|[Hne Hq]]%Hcase; [by apply Hp|]. destruct (Hl sid' Hne) as [-> _].
    by eapply inv_guesses.
  - intros sid'. destruct (decide (sid' = sid)) as [->|Hne]; [done|]. destruct (Hl sid' Hne) as [-> _].
    by eapply inv_bound.
  - intros sid' q [[-> Hq]|[Hne Hq]]%Hcase; [by apply Hp|]. by eapply inv_used.
  - intros c sid'. by eapply move_lookup.
Qed.

(** The tables did not change. *)
Lemma inv_keep s tr o x :
  Inv s tr -> ~ is_redeemed x -> x <> Failed InvalidToken -> Inv s ((o, x) :: tr).
Proof.
  intros [I1 I2 I3 I4 I5] Hr Hx.
  assert (Hg : forall sid, guesses sid ((o, x) :: tr) <= guesses sid tr).
  { intros sid. cbn [guesses]. pose proof (guesses_nonneg sid tr). case_decide; [|lia].
    destruct o, x as [? []| | | |[]]; try lia; try done. by destruct (Maps.writes _). }
  split; try done.
  - intros sid p Hp. apply proven_cons; [auto|tauto].
  - intros sid p Hp. specialize (Hg sid). specialize (I2 sid p Hp). lia.
  - intros sid. specialize (Hg sid). specialize (I3 sid). lia.
Qed.

Lemma inv_fail s tr o err : Inv s tr -> err <> InvalidToken -> Inv s ((o, Failed err) :: tr).
Proof. intros I Hne. apply inv_keep; [done|cbn; tauto|congruence]. Qed.

(** The row of [sid] goes, with its claim. *)
Lemma inv_gone s tr sid :
  Inv s tr -> Inv (mkState (delete sid (pendings s)) (move sid (owner (pendings s !! sid)) None (claims s))) tr.
Proof.
  intros I. apply (inv_move s tr tr sid None I (later_refl sid tr)); try done. by eapply inv_bound.
Qed.

(** A wrong submission removed the row. *)
Lemma inv_guessed s tr o :
  Inv s tr -> pendings s !! about o = None -> guesses (about o) tr < MAX_VERIFY_ATTEMPTS ->
  Inv s ((o, Failed InvalidToken) :: tr).
Proof.
  intros I Hn Hg. pose proof (inv_move s tr ((o, Failed InvalidToken) :: tr) (about o) None I (later_step _ _ _)) as J.
  cbn [owner] in J. rewrite Hn in J. cbn [owner move] in J.
  replace (partial_alter (fun _ => None) (about o) (pendings s)) with (pendings s) in J
    by (symmetry; exact (delete_id _ _ Hn)).
  destruct s as [rows cl]; apply J; try done. cbn [guesses]. rewrite decide_True by done. destruct o; lia.
Qed.

Lemma write_cases i (s0 s1 s' : State) r :
  write i s0 s1 = (s', r) -> (s' = s1 /\ (r = Ok () \/ r = Err Storage)) \/ (s' = s0 /\ r = Err Storage).
Proof. unfold write. destruct (Maps.writes i), (Maps.flushes i); intros [= <- <-]; auto. Qed.

(** [delete_pending_state] removes the row and its claim together, or neither. *)
Lemma deleted s tr e i sid p s' r :
  Inv s tr -> pendings s !! sid = Some p -> delete_pending_state e i sid p s = (s', r) ->
  Inv s' tr /\ (r = Ok () /\ pendings s' !! sid = None \/ r = Err Storage).
Proof.
  intros I Hp. pose proof (inv_gone s tr sid I) as J. rewrite Hp in J. cbn [owner] in J.
  unfold delete_pending_state, claim_sid, delete_pending_rows.
  assert (Hgo : forall s1, Inv s1 tr -> pendings s1 = delete sid (pendings s) -> write i s s1 = (s', r) ->
    Inv s' tr /\ (r = Ok () /\ pendings s' !! sid = None \/ r = Err Storage)).
  { intros s1 I1 E1 [[-> Hr]|[-> ->]]%write_cases; [|by auto]. split; [done|].
    rewrite E1, lookup_delete_eq. destruct Hr; auto. }
  destruct (use_state p) as [|c|] eqn:Hu; cbn [move] in J; try (by apply Hgo).
  destruct (reads e); [|by intros [= <- <-]; auto].
  assert (Hc : claims s !! c = Some sid) by (apply (inv_claims s tr I); by rewrite Hp; cbn [owner]; rewrite Hu).
  rewrite Hc, decide_True by done. by apply Hgo.
Qed.

(** A step that deletes an expired row and then gives up. *)
Lemma deleted_then {A} s tr e i sid p (y : result error A) f o s' x :
  Inv s tr -> pendings s !! sid = Some p ->
  report f (and_then (delete_pending_state e i sid p s) (fun s => (s, y))) = (s', x) ->
  (forall a, y = Ok a -> ~ is_redeemed (f a) /\ f a <> Failed InvalidToken) -> y <> Err InvalidToken ->
  Inv s' ((o, x) :: tr).
Proof.
  intros I Hp Hrun Hy Hi. destruct (delete_pending_state e i sid p s) as [s1 r1] eqn:Ed.
  destruct (deleted s tr e i sid p s1 r1 I Hp Ed) as [I1 [[-> _]| ->]]; cbn in Hrun; injection Hrun as <- <-.
  - destruct y as [a|err]; [|by apply inv_fail; congruence]. by apply inv_keep; [|apply Hy..].
  - by apply inv_fail.
Qed.

(** [with_*] updates keep the proof of a row. *)
Lemma proven_kept tr sid p q o x :
  proven tr sid p ->
  client_secret q = client_secret p -> medium q = medium p -> address q = address p ->
  token q = token p -> send_attempt q = send_attempt p -> validated_at q = validated_at p ->
  (use_state q <> Spent -> use_state p <> Spent) ->
  ~ (is_redeemed x /\ use_state q <> Spent) -> proven ((o, x) :: tr) sid q.
Proof.
  intros Hp E1 E2 E3 E4 E5 E6 Hu Hx. apply proven_cons; [|tauto].
  apply (proven_same tr sid p); try done. by rewrite E6.
Qed.

Lemma timepoint_err t d err : timepoint_from_now t d = Err err -> err = Arithmetic.
Proof. unfold timepoint_from_now. destruct (Time.timepoint_from_now t d); [done|]. by intros [= <-]. Qed.

(** A new token: the row starts over. *)
Lemma minted s tr e secret m a n ttl fresh s' x :
  let sid := derive_sid m a secret in
  Inv s tr -> owner (pendings s !! sid) = None ->
  report (fun '(sid, t) => Created sid t)
    (match timepoint_from_now (now e) ttl with
     | Err err => (s, Err err)
     | Ok expires =>
         and_then (persist_pending (io2 e) sid (mkPending secret m a fresh n 0 None (Some expires) Available) s)
           (fun s => (s, Ok (sid, Some fresh)))
     end) = (s', x) ->
  Inv s' ((Create e secret m a n ttl fresh, x) :: tr).
Proof.
  intros sid I Ho. unfold persist_pending. destruct (timepoint_from_now _ _) eqn:Et.
  2: { intros [= <- <-]. apply inv_fail; [done|by apply timepoint_err in Et as ->]. }
  set (p := mkPending _ _ _ _ _ _ _ _ _). set (s1 := mkState _ _).
  assert (Hnew : forall y, guesses sid ((Create e secret m a n ttl fresh, y) :: tr) = 0 -> ~ is_redeemed y ->
    Inv s1 ((Create e secret m a n ttl fresh, y) :: tr)).
  { intros y Hg Hy. pose proof (inv_move s tr _ sid (Some p) I (later_step tr (Create e secret m a n ttl fresh) y)) as J.
    rewrite Ho in J. apply J; clear J; [|by cbn [Pending.about]; fold sid; rewrite Hg|done].
    intros q [= <-]. cbn [Pending.about]. fold sid. rewrite Hg. split_and!; try done.
    exists [], tr, e, ttl, y. split_and!; try done; [by intros []|]. intros _ o z Hin. inversion Hin. }
  unfold write. destruct (Maps.writes (io2 e)) eqn:Ew; [|by intros [= <- <-]; apply inv_fail].
  destruct (Maps.flushes (io2 e)); intros [= <- <-]; apply Hnew; cbn [guesses Pending.about is_redeemed]; try tauto;
    rewrite decide_True by done; [done|]. by rewrite Ew.
Qed.

Lemma step_create s tr e secret m a n ttl fresh s' x :
  Inv s tr -> exec s (Create e secret m a n ttl fresh) = (s', x) ->
  Inv s' ((Create e secret m a n ttl fresh, x) :: tr).
Proof.
  intros I. unfold Pending.exec, create_or_reuse_pending, get_pending.
  set (sid := derive_sid m a secret). cbn zeta.
  destruct (reads e); [|by intros [= <- <-]; apply inv_fail].
  destruct (pendings s !! sid) as [p|] eqn:Hp; cbn [ok_or].
  2: { apply minted; [done|]. fold sid. by rewrite Hp. }
  destruct (expired (now e) p).
  - destruct (delete_pending_state e (io1 e) sid p s) as [s1 r1] eqn:Ed.
    destruct (deleted s tr e (io1 e) sid p s1 r1 I Hp Ed) as [I1 [[-> Hn]| ->]]; cbn [and_then].
    + apply minted; [done|]. fold sid. by rewrite Hn.
    + intros [= <- <-]. by apply inv_fail.
  - destruct (use_state p) eqn:Hu; [|by intros [= <- <-]; apply inv_fail..].
    destruct (_ <=? _); [intros [= <- <-]; apply inv_keep; cbn; tauto || done|].
    apply minted; [done|]. fold sid. rewrite Hp. cbn [owner]. by rewrite Hu.
Qed.

(** The row stays as it was but for its owner's part. *)
Lemma inv_put s tr o x p q :
  Inv s tr -> pendings s !! about o = Some p -> owner (Some q) = owner (Some p) ->
  proven ((o, x) :: tr) (about o) q -> guesses (about o) ((o, x) :: tr) <= attempts q < MAX_VERIFY_ATTEMPTS ->
  (use_state q <> Available -> is_Some (validated_at q)) ->
  Inv (mkState (<[about o := q]> (pendings s)) (claims s)) ((o, x) :: tr).
Proof.
  intros I Hp Ho Hq Hg Hu.
  pose proof (inv_move s tr _ (about o) (Some q) I (later_step tr o x)) as J. rewrite Hp, Ho in J.
  assert (Hc : forall c, owner (Some p) = Some c -> claims s !! c = Some (about o)).
  { intros c Hc. apply (inv_claims s tr I). by rewrite Hp. }
  replace (move _ _ _ _) with (claims s) in J.
  2: { unfold move. destruct (owner (Some p)) as [c|]; [|done]. rewrite insert_delete_eq.
    symmetry. apply insert_id. auto. }
  apply J; [by intros ? [= <-]|lia|auto].
Qed.

Lemma step_wrong s tr e sid secret tok p s' x :
  Inv s tr -> pendings s !! sid = Some p -> use_state p = Available -> validated_at p = None ->
  report (fun _ => Done)
    (and_then
      (if MAX_VERIFY_ATTEMPTS <=? clamp_range 0 u32_max (attempts p + 1) then delete_pending_state e (io1 e) sid p s
       else persist_pending (io1 e) sid (with_attempts (clamp_range 0 u32_max (attempts p + 1)) p) s)
      (fun s => (s, @Err error unit InvalidToken))) = (s', x) ->
  Inv s' ((Validate e sid secret tok, x) :: tr).
Proof.
  intros I Hp Hu Hv. pose proof (inv_guesses s tr I sid p Hp) as Hg. pose proof (guesses_nonneg sid tr) as Hg0.
  replace (clamp_range 0 u32_max (attempts p + 1)) with (attempts p + 1)
    by (unfold clamp_range, MAX_VERIFY_ATTEMPTS, u32_max in *; lia).
  destruct (Z.leb_spec MAX_VERIFY_ATTEMPTS (attempts p + 1)).
  - destruct (delete_pending_state e (io1 e) sid p s) as [s1 r1] eqn:Ed.
    destruct (deleted s tr e (io1 e) sid p s1 r1 I Hp Ed) as [I1 [[-> Hn]| ->]]; intros [= <- <-].
    + apply inv_guessed; cbn [Pending.about]; [done|done|lia].
    + by apply inv_fail.
  - destruct (persist_pending _ _ _ _) as [s1 r] eqn:Ew. apply write_cases in Ew as [[-> Hr]|[-> ->]].
    2: { intros [= <- <-]. by apply inv_fail. }
    intros Hx. assert (s' = mkState (<[sid := with_attempts (attempts p + 1) p]> (pendings s)) (claims s) /\
      (x = Failed InvalidToken \/ x = Failed Storage)) as [-> Hx']
      by (destruct Hr as [-> | ->]; injection Hx as <- <-; auto).
    apply (inv_put s tr (Validate e sid secret tok) x p); [done|done|done|..].
    + apply (proven_kept tr sid p); try done; [by eapply inv_proven|]. by destruct Hx' as [-> | ->]; intros [].
    + cbn [guesses Pending.about with_attempts attempts]. rewrite decide_True by done.
      destruct Hx' as [-> | ->]; lia.
    + cbn [with_attempts use_state]. congruence.
Qed.

Lemma step_validate s tr e sid secret tok s' x :
  Inv s tr -> exec s (Validate e sid secret tok) = (s', x) -> Inv s' ((Validate e sid secret tok, x) :: tr).
Proof.
  intros I. unfold Pending.exec, validate_pending_token, get_pending.
  destruct (reads e); [|by intros [= <- <-]; apply inv_fail].
  destruct (pendings s !! sid) as [p|] eqn:Hp; cbn [ok_or]; [|by intros [= <- <-]; apply inv_fail].
  destruct (expired (now e) p); [intros Hx; by eapply deleted_then; [..|exact Hx| |]|].
  destruct (use_state p) eqn:Hu; [|by intros [= <- <-]; apply inv_fail..].
  destruct (validated_at p) eqn:Hv; [by intros [= <- <-]; apply inv_fail|].
  pose proof (inv_guesses s tr I sid p Hp) as Hg. pose proof (guesses_nonneg sid tr) as Hg0.
  case_bool_decide as Hsec; cbn [negb orb].
  case_bool_decide as Htok; cbn [negb].
  2-3: intros Hx; by eapply step_wrong.
  destruct (persist_pending _ _ _ _) as [s1 r] eqn:Ew. apply write_cases in Ew as [[-> Hr]|[-> ->]].
  2: { intros [= <- <-]. by apply inv_fail. }
  intros Hx. assert (s' = mkState (<[sid := with_validated_at (now e) p]> (pendings s)) (claims s) /\
    (x = Done \/ x = Failed Storage)) as [-> Hx'] by (destruct Hr as [-> | ->]; injection Hx as <- <-; auto).
  apply (inv_put s tr (Validate e sid secret tok) x p); [done|done|by cbn; rewrite Hu|..].
  - destruct (inv_proven s tr I sid p Hp) as (newer & older & e' & ttl & y & -> & Hs & Hval & Hred).
    exists ((Validate e sid secret tok, x) :: newer), older, e', ttl, y. split_and!; try done.
    + intros _. exists e, x. subst. left.
    + cbn [with_validated_at use_state]. intros Hne o z [[= -> ->]|Hin]%elem_of_cons Hz; [by destruct Hx' as [-> | ->]|].
      by eapply Hred.
  - cbn [guesses Pending.about with_validated_at attempts]. rewrite decide_True by done.
    by destruct Hx' as [-> | ->].
  - by intros.
Qed.

(** Both rows of a claim are written. *)
Lemma claimed s tr o e sid c p t s' x :
  Inv s tr -> about o = sid -> pendings s !! sid = Some p -> is_Some (validated_at p) ->
  use_state p = Available \/ use_state p = Claimed c ->
  claims s !! c = None \/ claims s !! c = Some sid ->
  (match o with Validate _ _ _ _ | Create _ _ _ _ _ _ _ => False | _ => True end) ->
  report Answer (and_then (put_claim (io1 e) sid c (with_use t (Claimed c) p) s) (fun s => (s, Ok true))) = (s', x) ->
  Inv s' ((o, x) :: tr).
Proof.
  intros I Ho Hp Hv Hu Hc Hop. destruct (put_claim _ _ _ _ _) as [s1 r] eqn:Ew.
  apply write_cases in Ew as [[-> Hr]|[-> ->]]; [|intros [= <- <-]; by apply inv_fail].
  intros Hx. assert (s' = mkState (<[sid := with_use t (Claimed c) p]> (pendings s)) (<[c := sid]> (claims s)) /\
    (x = Answer true \/ x = Failed Storage)) as [-> Hx'] by (destruct Hr as [-> | ->]; injection Hx as <- <-; auto).
  pose proof (inv_guesses s tr I sid p Hp) as Hg.
  assert (Hg' : guesses sid ((o, x) :: tr) = guesses sid tr).
  { cbn [guesses]. rewrite decide_True by done. destruct o; try done; by destruct Hx' as [-> | ->]. }
  pose proof (later_step tr o x) as Hl. rewrite Ho in Hl.
  pose proof (inv_move s tr _ sid (Some (with_use t (Claimed c) p)) I Hl) as J. rewrite Hp in J.
  replace (move _ _ _ _) with (<[c := sid]> (claims s)) in J.
  2: { unfold move. cbn [owner with_use use_state]. destruct Hu as [-> | ->]; [done|]. by rewrite insert_delete_eq. }
  apply J; clear J.
  - intros q [= <-]. rewrite Hg'. split; [|split; [exact Hg|done]]. apply (proven_kept tr sid p); try done.
    + by eapply inv_proven.
    + intros _. by destruct Hu as [-> | ->].
    + by destruct Hx' as [-> | ->]; intros [].
  - rewrite Hg'. by eapply inv_bound.
  - intros d. cbn. by intros [= <-].
Qed.

Lemma step_claim s tr e sid secret c s' x :
  Inv s tr -> exec s (Claim e sid secret c) = (s', x) -> Inv s' ((Claim e sid secret c, x) :: tr).
Proof.
  intros I. unfold Pending.exec, claim_validated, get_pending, claim_sid.
  destruct (reads e); [|by intros [= <- <-]; apply inv_fail].
  assert (Hno : Inv s ((Claim e sid secret c, Answer false) :: tr)) by (apply inv_keep; cbn; tauto || done).
  destruct (pendings s !! sid) as [p|] eqn:Hp; cbn [ok_or]; [|by intros [= <- <-]].
  destruct (expired (now e) p).
  { intros Hx. eapply deleted_then; [done..|exact Hx| |done]. intros a _. split; [cbn; tauto|done]. }
  destruct (negb (bool_decide (client_secret p = secret))); [by intros [= <- <-]|].
  destruct (validated_at p) eqn:Hv; [|by intros [= <- <-]].
  destruct (match use_state p with Available => _ | _ => _ end) eqn:Eu; [by intros [= <- <-]|].
  destruct (match claims s !! c with Some _ => _ | None => _ end) eqn:Ec; [by intros [= <- <-]|].
  destruct (timepoint_from_now _ _) eqn:Et; [|intros [= <- <-]; apply inv_fail; [done|by apply timepoint_err in Et as ->]].
  apply claimed; [done|done|done|by rewrite Hv| | |done].
  - destruct (use_state p) as [|d|]; [by left| |done]. right. by apply negb_false_iff, bool_decide_eq_true in Eu as ->.
  - destruct (claims s !! c) as [d|]; [|by left]. right. by apply negb_false_iff, bool_decide_eq_true in Ec as ->.
Qed.

(** A claim the index holds is the claim of its row. *)
Lemma claim_row s tr c sid :
  Inv s tr -> claims s !! c = Some sid -> exists p, pendings s !! sid = Some p /\ use_state p = Claimed c.
Proof.
  intros I Hc. apply (inv_claims s tr I) in Hc. destruct (pendings s !! sid) as [p|]; [|done]. exists p.
  cbn in Hc. split; [done|]. destruct (use_state p); congruence.
Qed.

(** The row of a claim goes, with the claim. *)
Lemma claim_gone s tr c sid p :
  Inv s tr -> pendings s !! sid = Some p -> use_state p = Claimed c ->
  Inv (mkState (delete sid (pendings s)) (delete c (claims s))) tr.
Proof.
  intros I Hp Hu. pose proof (inv_gone s tr sid I) as J. rewrite Hp in J. cbn [owner] in J. by rewrite Hu in J.
Qed.

Lemma step_refresh s tr e c sid s' x :
  Inv s tr -> exec s (Refresh e c sid) = (s', x) -> Inv s' ((Refresh e c sid, x) :: tr).
Proof.
  intros I. unfold Pending.exec, refresh_claim, get_pending, claim_sid.
  destruct (reads e); [|by intros [= <- <-]; apply inv_fail].
  assert (Hno : forall s, Inv s tr -> Inv s ((Refresh e c sid, Answer false) :: tr))
    by (intros; apply inv_keep; cbn; tauto || done).
  case_bool_decide as Hc; cbn [negb]; [|by intros [= <- <-]; apply Hno].
  destruct (claim_row s tr c sid I Hc) as (p & Hp & Hu). rewrite Hp. cbn [ok_or].
  destruct (expired (now e) p).
  - destruct (delete_pending_rows _ _ _ _) as [s1 r] eqn:Ew. pose proof (claim_gone s tr c sid p I Hp Hu) as J.
    apply write_cases in Ew as [[-> [-> | ->]]|[-> ->]]; intros [= <- <-]; solve [by apply Hno|by apply inv_fail].
  - rewrite bool_decide_eq_true_2 by done. cbn [negb].
    destruct (timepoint_from_now _ _) eqn:Et; [|intros [= <- <-]; apply inv_fail; [done|by apply timepoint_err in Et as ->]].
    apply claimed; [done|done|done| |by right|by right|done]. eapply inv_used; [done..|]. by rewrite Hu.
Qed.

(** The row is spent. *)
Lemma inv_spent s tr o x sid p cl :
  Inv s tr -> about o = sid -> pendings s !! sid = Some p -> is_Some (validated_at p) ->
  (match o with Validate _ _ _ _ | Create _ _ _ _ _ _ _ => False | _ => True end) ->
  cl = move sid (owner (Some p)) None (claims s) ->
  Inv (mkState (<[sid := with_use (expires_at p) Spent p]> (pendings s)) cl) ((o, x) :: tr).
Proof.
  intros I Ho Hp Hv Hop ->. pose proof (inv_guesses s tr I sid p Hp) as Hg.
  assert (Hg' : guesses sid ((o, x) :: tr) = guesses sid tr).
  { cbn [guesses]. rewrite decide_True by done. by destruct o. }
  pose proof (later_step tr o x) as Hl. rewrite Ho in Hl.
  pose proof (inv_move s tr _ sid (Some (with_use (expires_at p) Spent p)) I Hl) as J. rewrite Hp in J.
  apply J; clear J; [|rewrite Hg'; by eapply inv_bound|done].
  intros q [= <-]. rewrite Hg'. split; [|split; [exact Hg|done]].
  apply (proven_kept tr sid p); try done; [by eapply inv_proven|]. by intros [_ []].
Qed.

Lemma step_redeem_claim s tr e c sid s' x :
  Inv s tr -> exec s (RedeemClaim e c sid) = (s', x) -> Inv s' ((RedeemClaim e c sid, x) :: tr).
Proof.
  intros I. unfold Pending.exec, redeem_claim, get_pending, claim_sid.
  destruct (reads e); [|by intros [= <- <-]; apply inv_fail].
  destruct (claims s !! c) as [sid'|] eqn:Hc; [|by intros [= <- <-]; apply inv_fail].
  case_bool_decide as Hs; cbn [negb]; [|by intros [= <- <-]; apply inv_fail]. subst sid'.
  destruct (claim_row s tr c sid I Hc) as (p & Hp & Hu). rewrite Hp. cbn [ok_or].
  destruct (expired (now e) p).
  - destruct (delete_pending_rows _ _ _ _) as [s1 r] eqn:Ew. pose proof (claim_gone s tr c sid p I Hp Hu) as J.
    apply write_cases in Ew as [[-> [-> | ->]]|[-> ->]]; intros [= <- <-]; by apply inv_fail.
  - rewrite bool_decide_eq_true_2 by done. cbn [negb]. destruct (write _ _ _) as [s1 r] eqn:Ew.
    assert (Hv : is_Some (validated_at p)) by (eapply inv_used; [done..|]; by rewrite Hu).
    apply write_cases in Ew as [[-> [-> | ->]]|[-> ->]]; intros [= <- <-]; [| |by apply inv_fail];
      apply inv_spent; try done; cbn [owner]; by rewrite Hu.
Qed.

Lemma step_redeem s tr e sid secret s' x :
  Inv s tr -> exec s (RedeemValidated e sid secret) = (s', x) -> Inv s' ((RedeemValidated e sid secret, x) :: tr).
Proof.
  intros I. unfold Pending.exec, redeem_validated, get_pending.
  destruct (reads e); [|by intros [= <- <-]; apply inv_fail].
  destruct (pendings s !! sid) as [p|] eqn:Hp; cbn [ok_or]; [|by intros [= <- <-]; apply inv_fail].
  destruct (expired (now e) p); [intros Hx; by eapply deleted_then; [..|exact Hx| |]|].
  case_bool_decide as Hs; cbn [negb]; [|by intros [= <- <-]; apply inv_fail].
  destruct (validated_at p) eqn:Hv; [|by intros [= <- <-]; apply inv_fail].
  destruct (use_state p) eqn:Hu; [|by intros [= <- <-]; apply inv_fail..].
  destruct (persist_pending _ _ _ _) as [s1 r] eqn:Ew.
  apply write_cases in Ew as [[-> [-> | ->]]|[-> ->]]; intros [= <- <-]; [| |by apply inv_fail];
    apply inv_spent; try done; try (by rewrite Hv); cbn [owner]; by rewrite Hu.
Qed.

Lemma exec_inv s tr o s' x : Inv s tr -> exec s o = (s', x) -> Inv s' ((o, x) :: tr).
Proof.
  destruct o; [apply step_create|apply step_validate|apply step_claim|apply step_refresh|
    apply step_redeem_claim|apply step_redeem].
Qed.

Lemma inv_run os s tr s' tr' : Inv s tr -> run s os tr = (s', tr') -> Inv s' tr'.
Proof.
  revert s tr. induction os as [|o os IH]; intros s tr I; cbn; [by intros [= <- <-]|].
  fold exec. destruct (exec s o) as [s1 x] eqn:Eo. apply IH. by eapply exec_inv.
Qed.

Lemma inv_empty : Inv empty_tables [].
Proof. unfold empty_tables. by split; intros; rewrite ?lookup_empty in *. Qed.

Lemma run_app os os' s tr : run s (os ++ os') tr = let '(s, tr) := run s os tr in run s os' tr.
Proof.
  revert s tr. induction os as [|o os IH]; intros s tr; cbn; [done|]. by destruct (Pending.exec derive_sid s o).
Qed.

(** The last step of a run starts in a state that has the invariant. *)
Lemma run_last os s o x tr :
  run empty_tables os [] = (s, (o, x) :: tr) -> exists s0, Inv s0 tr /\ exec s0 o = (s, x).
Proof.
  destruct os as [|o' os' _] using rev_ind; [done|]. rewrite run_app.
  destruct (run empty_tables os' []) as [s0 tr0] eqn:Er. cbn. fold exec.
  destruct (exec s0 o') as [s1 y] eqn:Ee. intros [= <- <- <- <-]. exists s0. split; [|done].
  by eapply inv_run; [apply inv_empty|].
Qed.

(** What a step that redeems found. *)
Lemma redeemed_row s tr o s' a :
  Inv s tr -> exec s o = (s', Redeemed a) ->
  exists p, pendings s !! about o = Some p /\ is_Some (validated_at p) /\ use_state p <> Spent /\ a = association p.
Proof.
  intros I. unfold Pending.exec, report.
  destruct o as [| | | |e c sid|e sid secret]; cbn [Pending.about];
    [by destruct (create_or_reuse_pending _ _ _ _ _ _ _ _ _) as [? [[]|]]|
     by destruct (validate_pending_token _ _ _ _ _) as [? []]|
     by destruct (claim_validated _ _ _ _ _) as [? []]|
     by destruct (refresh_claim _ _ _ _) as [? []]|..].
  - unfold redeem_claim, get_pending, claim_sid. destruct (reads e); [|done].
    destruct (claims s !! c) as [sid'|] eqn:Hc; [|done]. case_bool_decide; cbn [negb]; [|done]. subst sid'.
    destruct (claim_row s tr c sid I Hc) as (p & Hp & Hu). rewrite Hp. cbn [ok_or].
    destruct (expired (now e) p); [by destruct (delete_pending_rows _ _ _ _) as [? []]|].
    rewrite bool_decide_eq_true_2 by done. destruct (write _ _ _) as [? []]; [|done].
    intros [= <- <-]. exists p. rewrite Hu. split_and!; try done. eapply inv_used; [done..|]. by rewrite Hu.
  - unfold redeem_validated, get_pending. destruct (reads e); [|done].
    destruct (pendings s !! sid) as [p|]; [|done]. cbn [ok_or].
    destruct (expired (now e) p); [by destruct (delete_pending_state _ _ _ _ _) as [? []]|].
    case_bool_decide; cbn [negb]; [|done]. destruct (validated_at p) eqn:Hv; [|done].
    destruct (use_state p) eqn:Hu; [|done..]. destruct (persist_pending _ _ _ _) as [? []]; [|done].
    intros [= <- <-]. exists p. rewrite Hv, Hu. by eauto.
Qed.

(** A token was minted for the address, that very token was submitted afterwards with the
    secret of the session, and nothing was redeemed on the session since. *)
Definition address_proven (tr : list (op * outcome)) (o : op) (a : Association) : Prop :=
  exists newer older e secret n ttl fresh x e' y,
    tr = newer ++ (Create e secret (a_medium a) (a_address a) n ttl fresh, x) :: older /\
    derive_sid (a_medium a) (a_address a) secret = about o /\
    (Validate e' (about o) secret fresh, y) ∈ newer /\
    forall o' a', (o', Redeemed a') ∈ newer -> about o' <> about o.

Lemma redeemed_proven s tr o s' a : Inv s tr -> exec s o = (s', Redeemed a) -> address_proven tr o a.
Proof.
  intros I Ho. destruct (redeemed_row s tr o s' a I Ho) as (p & Hp & Hv & Hu & ->).
  destruct (inv_proven s tr I _ p Hp) as (newer & older & e & ttl & x & -> & Hs & Hval & Hred).
  destruct (Hval Hv) as (e' & y & Hin).
  exists newer, older, e, (client_secret p), (send_attempt p), ttl, (token p), x, e', y.
  split_and!; try done. intros o' a' Hin'. by eapply Hred.
Qed.

(** C22: Whatever operations and database failures came before, an address is redeemed
    only if a token was minted for it, that very token was submitted afterwards with
    the secret of the session, and nothing was redeemed on the session since the token
    was minted: one proof is spent once, directly or by the transaction that claimed it. *)
Theorem proof_redeemed_once os s o a tr :
  run empty_tables os [] = (s, (o, Redeemed a) :: tr) ->
  exists newer older e secret n ttl fresh x e' y,
    tr = newer ++ (Create e secret (a_medium a) (a_address a) n ttl fresh, x) :: older /\
    derive_sid (a_medium a) (a_address a) secret = about o /\
    (Validate e' (about o) secret fresh, y) ∈ newer /\
    forall o' a', (o', Redeemed a') ∈ newer -> about o' <> about o.
Proof. intros (s0 & I & Ho)%run_last. by apply (redeemed_proven s0 tr o s). Qed.

(** At most five wrong submissions are answered for one token: with the fifth the
    session is gone, and while it exists fewer were made. *)
Theorem guesses_bounded os s tr sid :
  run empty_tables os [] = (s, tr) ->
  0 <= guesses sid tr <= MAX_VERIFY_ATTEMPTS /\
  (is_Some (pendings s !! sid) -> guesses sid tr < MAX_VERIFY_ATTEMPTS).
Proof.
  intros Hrun. pose proof (inv_run os _ _ _ _ inv_empty Hrun) as I. split.
  - split; [apply guesses_nonneg|by eapply inv_bound].
  - intros [p Hp]. pose proof (inv_guesses s tr I sid p Hp). lia.
Qed.

(** The index of claims and the rows agree in every state a run reaches: a transaction
    holds the session whose row names it, so a session has one claimant and a claimant
    one session. *)
Theorem claims_exclusive os s tr :
  run empty_tables os [] = (s, tr) ->
  (forall c sid, claims s !! c = Some sid <-> exists p, pendings s !! sid = Some p /\ use_state p = Claimed c) /\
  (forall c c' sid, claims s !! c = Some sid -> claims s !! c' = Some sid -> c = c').
Proof.
  intros Hrun. pose proof (inv_run os _ _ _ _ inv_empty Hrun) as I. split.
  - intros c sid. split; [by apply (claim_row s tr)|]. intros (p & Hp & Hu). apply (inv_claims s tr I).
    rewrite Hp. cbn. by rewrite Hu.
  - intros c c' sid (p & Hp & Hu)%(claim_row s tr _ _ I) (q & Hq & Hu')%(claim_row s tr _ _ I). congruence.
Qed.

(** [session_validated] answers yes exactly when redeeming directly at the same
    moment would succeed. *)
Theorem session_validated_exact e sid secret s :
  reads e = true -> io1 e = Maps.io_ok ->
  session_validated e sid secret s = true <-> exists s' a, redeem_validated e sid secret s = (s', Ok a).
Proof.
  intros Hr Hio. unfold session_validated, redeem_validated, get_pending. rewrite Hr.
  destruct (pendings s !! sid) as [p|]; cbn [ok_or]; [|naive_solver].
  destruct (expired (now e) p); cbn [negb andb].
  { destruct (delete_pending_state e (io1 e) sid p s) as [s1 [[]|]]; cbn; naive_solver. }
  case_bool_decide; cbn [negb andb]; [|naive_solver].
  destruct (validated_at p); cbn; [|naive_solver].
  unfold persist_pending, write. rewrite Hio. cbn.
  case_bool_decide as Hu; destruct (use_state p); naive_solver.
Qed.

End Facts.

(** ** A history *)

Definition sid_of (m a secret : string) : string := (m ++ a ++ secret)%string.
Definition at_ (t : Z) : Env := mkEnv t true Maps.io_ok Maps.io_ok.
Definition uiaa : UiaaKey := ("@a:x", "D", "s1")%string.
Definition history : list op :=
  [Create (at_ 0) "k" "email" "a@b" 1 100 "T1"; Validate (at_ 1) "emaila@bk" "k" "T0";
   Validate (mkEnv 2 true (Maps.mkIo true false) Maps.io_ok) "emaila@bk" "k" "T1";
   Claim (at_ 3) "emaila@bk" "k" uiaa; RedeemValidated (at_ 4) "emaila@bk" "k";
   Refresh (at_ 5) uiaa "emaila@bk"; RedeemClaim (at_ 6) uiaa "emaila@bk"]%string.

Lemma proof_redeemed_once_witness :
  exists tr, (run sid_of empty_tables history []).2 =
    (RedeemClaim (at_ 6) uiaa "emaila@bk", Redeemed (mkAssociation "email" "a@b")) :: tr /\
    exists newer older e secret n ttl fresh x,
      tr = newer ++ (Create e secret "email" "a@b" n ttl fresh, x) :: older /\
      sid_of "email" "a@b" secret = "emaila@bk"%string.
Proof.
  destruct (run sid_of empty_tables history []) as [s tr0] eqn:E.
  assert (tr0 = (RedeemClaim (at_ 6) uiaa "emaila@bk", Redeemed (mkAssociation "email" "a@b")) :: tail tr0) as Ht.
  { revert E. vm_compute. by intros [= <- <-]. }
  exists (tail tr0). split; [exact Ht|]. rewrite Ht in E.
  destruct (proof_redeemed_once sid_of history s _ _ _ E)
    as (newer & older & e & secret & n & ttl & fresh & x & _ & _ & Htr & Hs & _).
  exists newer, older, e, secret, n, ttl, fresh, x. split; [exact Htr|exact Hs].
Defined.

Lemma guesses_bounded_witness :
  guesses sid_of "emaila@bk" (run sid_of empty_tables history []).2 = 1 /\ 1 < MAX_VERIFY_ATTEMPTS.
Proof.
  split; [by vm_compute|].
  destruct (run sid_of empty_tables history []) as [s tr0] eqn:E.
  assert (guesses sid_of "emaila@bk" tr0 = 1) as <- by (revert E; vm_compute; by intros [= <- <-]).
  apply (guesses_bounded sid_of history s tr0 "emaila@bk" E).
  revert E. vm_compute. intros [= <- <-]. by eexists.
Defined.

End PendingFacts.
