(* ===== verification/Tokens.v ===== *)
(** The credentials of devices, [phantom-service/src/accounts/users/token.rs]: access
    tokens, refresh tokens with the one each device spent last, login tokens and OpenID
    tokens.

    Rows are at the type of their keys and values (a token row written before expiry was
    recorded reads as one that does not expire). An operation is one step: those on
    access tokens hold the lock of the user, and what races the others allow is shown
    apart, in Devices.v. Times are nanoseconds; the clock, the tokens drawn and the
    answers of the database to writes are arguments; reads do not fail. *)
From S2P Require Import Prelude Maps Time.

Module Tokens.

Inductive error :=
  | NotFound | Database | Storage | Arithmetic | Unauthorized | Forbidden | InvalidParam
  | UnknownToken (soft_logout : bool) | UserDeactivated | Unknown | Panicked
  | MissingToken | InvalidRequest | UnsupportedTokenType.

(** A user and one of their devices. *)
Abbreviation Owner := (string * string)%type.

(** The columns, by their names in [Data]. *)
Record State := mkState {
  token_userdeviceid : gmap string (Owner * option Z);
  userdeviceid_token : gmap Owner string;
  userdeviceid_refresh : gmap Owner string;
  spentrefresh_userdeviceid : gmap string (Owner * string * Z);
  userdeviceid_spentrefresh : gmap Owner string
}.

(** [config.auth] *)
Record Config := mkConfig {
  access_token_ttl : Z;
  refresh_token_ttl : Z;
  refresh_token_idle_only : bool;
  refresh_token_reuse_grace : Z;
  refresh_token_hard_logout : bool;
  refresh_token_reuse_revoke : bool;
  openid_token_ttl : Z;
  login_token_ttl : Z
}.

(** The clock and how the database answers the transactions of an operation, in order. *)
Record Env := mkEnv { now : Z; io : nat -> Maps.io }.

(** A write or transaction: it happens or not, and an error may come after it. *)
Definition write {S} (i : Maps.io) (s s' : S) : S * result error unit :=
  if Maps.writes i then (s', if Maps.flushes i then Ok () else Err Storage) else (s, Err Storage).

Definition and_then {S A} (r : S * result error unit) (k : S -> S * result error A) : S * result error A :=
  match r with (s, Ok _) => k s | (s, Err e) => (s, Err e) end.

(** [HashMap::remove] of a row that may not be known. *)
Definition delete_opt `{Countable K} {V} (k : option K) (m : gmap K V) : gmap K V :=
  match k with Some k => delete k m | None => m end.

Definition REFRESH_TOKEN_PREFIX : string := "refresh_".
Definition generate_refresh_token (random : string) : string := (REFRESH_TOKEN_PREFIX ++ random)%string.
Definition is_refresh_token (token : string) : bool := String.prefix REFRESH_TOKEN_PREFIX token.

Section Ops.
Context (cfg : Config).

Definition find_from_token (token : string) (s : State) : result error (Owner * option Z) :=
  match token_userdeviceid s !! token with
  | Some (o, expires_at) => Ok (o, Time.from_secs <$> expires_at)
  | None => Err NotFound
  end.

Definition generate_access_token (random : string) (expires : bool) : string * option Z :=
  (random, if expires then Some (Time.from_secs (access_token_ttl cfg)) else None).

Definition remove_access_token (e : Env) (k : nat) (o : Owner) (s : State) : State * result error unit :=
  write (io e k) s
    (mkState (delete_opt (userdeviceid_token s !! o) (token_userdeviceid s)) (delete o (userdeviceid_token s))
       (userdeviceid_refresh s) (spentrefresh_userdeviceid s) (userdeviceid_spentrefresh s)).

Definition remove_refresh_token (e : Env) (k : nat) (o : Owner) (s : State) : State * result error unit :=
  write (io e k) s
    (mkState (delete_opt (userdeviceid_refresh s !! o) (token_userdeviceid s)) (userdeviceid_token s)
       (delete o (userdeviceid_refresh s))
       (delete_opt (userdeviceid_spentrefresh s !! o) (spentrefresh_userdeviceid s))
       (delete o (userdeviceid_spentrefresh s))).

Definition remove_tokens (e : Env) (o : Owner) (s : State) : State :=
  (remove_refresh_token e 1 o (remove_access_token e 0 o s).1).1.

(** The deadline of the refresh token, a point in time. *)
Definition find_refresh_token_expires_at (o : Owner) (s : State) : option Z :=
  token ← userdeviceid_refresh s !! o;
  match find_from_token token s with Ok (_, t) => t | Err _ => None end.

(** A deadline as it is stored: whole seconds since the epoch. *)
Definition epoch_secs (t : Z) : Z := Time.as_secs (Time.duration_since_epoch t).

(** [time::timepoint_from_now(ttl).transpose()] *)
Definition deadline (e : Env) (ttl : option Z) : result error (option Z) :=
  match ttl with
  | None => Ok None
  | Some d => match Time.timepoint_from_now (now e) d with Some t => Ok (Some t) | None => Err Arithmetic end
  end.

Definition set_refresh_token (e : Env) (o : Owner) (refresh_token : string) (s : State) :
    State * result error unit :=
  let ttl := refresh_token_ttl cfg in
  let prior_expires_at :=
    if negb (ttl =? 0) && negb (refresh_token_idle_only cfg) then find_refresh_token_expires_at o s else None in
  let spent := userdeviceid_refresh s !! o in
  and_then (remove_refresh_token e 0 o s) (fun s =>
  match
    if ttl =? 0 then Ok None else
    match prior_expires_at with Some prior => Ok (Some prior) | None => deadline e (Some (Time.from_secs ttl)) end
  with
  | Err err => (s, Err err)
  | Ok expires_at =>
      write (io e 1) s
        (mkState (<[refresh_token := (o, epoch_secs <$> expires_at)]> (token_userdeviceid s)) (userdeviceid_token s)
           (<[o := refresh_token]> (userdeviceid_refresh s))
           (match spent with
            | Some spent => <[spent := (o, refresh_token, Time.now_secs (now e))]> (spentrefresh_userdeviceid s)
            | None => spentrefresh_userdeviceid s
            end)
           (match spent with
            | Some spent => <[o := spent]> (userdeviceid_spentrefresh s)
            | None => userdeviceid_spentrefresh s
            end))
  end).

(** [has_metadata]: the device has a row in [userdeviceid_metadata]. *)
Definition set_access_token (e : Env) (has_metadata : bool) (o : Owner) (access_token : string)
    (expires_in : option Z) (refresh_token : option string) (s : State) : State * result error unit :=
  if negb has_metadata then (s, Err Database) else
  and_then (match refresh_token with Some r => set_refresh_token e o r s | None => (s, Ok ()) end) (fun s =>
  match deadline e expires_in with
  | Err err => (s, Err err)
  | Ok expires_at =>
      write (io e 2) s
        (mkState
           (<[access_token := (o, epoch_secs <$> expires_at)]>
              (delete_opt (userdeviceid_token s !! o) (token_userdeviceid s)))
           (<[o := access_token]> (userdeviceid_token s)) (userdeviceid_refresh s)
           (spentrefresh_userdeviceid s) (userdeviceid_spentrefresh s))
  end).

Inductive RefreshToken :=
  | Current (o : Owner) (expires_at : option Z)
  | Replayed (o : Owner) (current : string) (grace : bool)
  | Unrecognised.

Definition classify_refresh_token (e : Env) (presented : string) (s : State) : RefreshToken :=
  let otherwise :=
    match spentrefresh_userdeviceid s !! presented with
    | None => Unrecognised
    | Some (o, successor, spent_at) =>
        let grace_window := refresh_token_reuse_grace cfg in
        let elapsed := u64_saturating_sub (Time.now_secs (now e)) spent_at in
        Replayed o successor
          (negb (grace_window =? 0) && (elapsed <=? grace_window) &&
           bool_decide (userdeviceid_refresh s !! o = Some successor))
    end in
  if negb (is_refresh_token presented) then Unrecognised else
  match find_from_token presented s with
  | Ok (o, expires_at) =>
      if bool_decide (userdeviceid_refresh s !! o = Some presented) then Current o expires_at else otherwise
  | Err _ => otherwise
  end.

(** ** Login and OpenID tokens: expiry in milliseconds, and the user *)

Abbreviation Short := (gmap string (Z * string)) (only parsing).

Definition create_openid_token (e : Env) (user_id token : string) (m : Short) : Short * Z :=
  let expires_in := openid_token_ttl cfg in
  let expires_at := u64_saturating_add (Time.now_millis (now e)) (u64_saturating_mul expires_in 1000) in
  ((write (io e 0) m (<[token := (expires_at, user_id)]> m)).1, expires_in).

(** [active]: [is_active] of the user. *)
Definition find_from_openid_token (e : Env) (active : string -> bool) (token : string) (m : Short) :
    Short * result error string :=
  match m !! token with
  | None => (m, Err Unauthorized)
  | Some (expires_at, user_id) =>
      if expires_at <? Time.now_millis (now e) then ((write (io e 0) m (delete token m)).1, Err Unauthorized) else
      if active user_id then (m, Ok user_id) else (m, Err Unauthorized)
  end.

Definition create_login_token (e : Env) (user_id token : string) (m : Short) : Short * Z :=
  let expires_in := login_token_ttl cfg in
  let expires_at := u64_saturating_add (Time.now_millis (now e)) expires_in in
  ((write (io e 0) m (<[token := (expires_at, user_id)]> m)).1, expires_in).

Definition peek_login_token (e : Env) (token : string) (m : Short) : Short * result error string :=
  match m !! token with
  | None => (m, Err Forbidden)
  | Some (expires_at, user_id) =>
      if expires_at <? Time.now_millis (now e) then ((write (io e 0) m (delete token m)).1, Err Forbidden)
      else (m, Ok user_id)
  end.

Definition find_from_login_token (e : Env) (token : string) (m : Short) : Short * result error string :=
  match m !! token with
  | None => (m, Err Forbidden)
  | Some (expires_at, user_id) =>
      let m' := (write (io e 0) m (delete token m)).1 in
      if expires_at <? Time.now_millis (now e) then (m', Err Forbidden) else (m', Ok user_id)
  end.

End Ops.
End Tokens.
