(* ===== verification/TokensFacts.v ===== *)
(** The token columns of Tokens.v implement one session per device: at most one access
    token, one refresh token and the refresh token it replaced. Over any history of
    operations and failing writes the columns say no more and no less, a token resolves
    exactly to the session that holds it, and a refresh token that was replaced or
    revoked is never current again. *)
From stdpp Require Import functions.
From S2P Require Import Prelude Maps Time Tokens.

Module TokensFacts.
Import Tokens.

(** ** The specification *)

(** Tokens with the second they expire at; the spent one with when it was replaced. *)
Record Session := mkSession {
  s_access : option (string * option Z);
  s_refresh : option (string * option Z);
  s_spent : option (string * Z)
}.
#[export] Instance Session_eq_dec : EqDecision Session.
Proof. solve_decision. Defined.
Abbreviation Sessions := (Owner -> Session).
Definition no_session : Session := mkSession None None None.

Section Facts.
Context (cfg : Config).

Definition session_remove_access (e : Env) (k : nat) (x : Session) : Session * result error unit :=
  write (io e k) x (mkSession None (s_refresh x) (s_spent x)).

Definition session_remove_refresh (e : Env) (k : nat) (x : Session) : Session * result error unit :=
  write (io e k) x (mkSession (s_access x) None None).

(** A new refresh token has the deadline of the one it replaces, if deadlines are
    absolute, or one of its own; the replaced one is spent. *)
Definition session_set_refresh (e : Env) (r : string) (x : Session) : Session * result error unit :=
  let ttl := refresh_token_ttl cfg in
  let prior := if negb (ttl =? 0) && negb (refresh_token_idle_only cfg)
    then '(_, t) ← s_refresh x; Time.from_secs <$> t else None in
  let spent := (fun '(t, _) => (t, Time.now_secs (now e))) <$> s_refresh x in
  and_then (session_remove_refresh e 0 x) (fun x =>
  match
    if ttl =? 0 then Ok None else
    match prior with Some t => Ok (Some t) | None => deadline e (Some (Time.from_secs ttl)) end
  with
  | Err err => (x, Err err)
  | Ok t => write (io e 1) x (mkSession (s_access x) (Some (r, epoch_secs <$> t)) spent)
  end).

Definition session_set_access (e : Env) (has_metadata : bool) (t : string) (expires_in : option Z)
    (r : option string) (x : Session) : Session * result error unit :=
  if negb has_metadata then (x, Err Database) else
  and_then (match r with Some r => session_set_refresh e r x | None => (x, Ok ()) end) (fun x =>
  match deadline e expires_in with
  | Err err => (x, Err err)
  | Ok expires_at => write (io e 2) x (mkSession (Some (t, epoch_secs <$> expires_at)) (s_refresh x) (s_spent x))
  end).

Inductive op :=
  | SetAccess (e : Env) (has_metadata : bool) (o : Owner) (t : string) (expires_in : option Z) (r : option string)
  | RemoveAccess (e : Env) (o : Owner)
  | RemoveRefresh (e : Env) (o : Owner).

Definition exec (s : State) (a : op) : State * result error unit :=
  match a with
  | SetAccess e m o t x r => set_access_token cfg e m o t x r s
  | RemoveAccess e o => remove_access_token e 0 o s
  | RemoveRefresh e o => remove_refresh_token e 0 o s
  end.

Definition op_owner (a : op) : Owner :=
  match a with SetAccess _ _ o _ _ _ | RemoveAccess _ o | RemoveRefresh _ o => o end.

(** What the operation means for the session of its device. *)
Definition spec (a : op) (x : Session) : Session * result error unit :=
  match a with
  | SetAccess e m _ t d r => session_set_access e m t d r x
  | RemoveAccess e _ => session_remove_access e 0 x
  | RemoveRefresh e _ => session_remove_refresh e 0 x
  end.

Definition spec_exec (A : Sessions) (a : op) : Sessions * result error unit :=
  let '(x, r) := spec a (A (op_owner a)) in (<[op_owner a := x]> A, r).

Fixpoint run (s : State) (os : list op) : State * list (result error unit) :=
  match os with
  | [] => (s, [])
  | a :: os => let '(s, r) := exec s a in let '(s, rs) := run s os in (s, r :: rs)
  end.

Fixpoint spec_run (A : Sessions) (os : list op) : Sessions * list (result error unit) :=
  match os with
  | [] => (A, [])
  | a :: os => let '(A, r) := spec_exec A a in let '(A, rs) := spec_run A os in (A, r :: rs)
  end.

Definition empty_tables : State := mkState ∅ ∅ ∅ ∅ ∅.

(** ** Representation *)

(** The device an access token was drawn for. *)
Context (names : string -> Owner).

Record rep (s : State) (A : Sessions) : Prop := {
  rep_token t o x : token_userdeviceid s !! t = Some (o, x) <->
    s_access (A o) = Some (t, x) \/ s_refresh (A o) = Some (t, x);
  rep_access o : userdeviceid_token s !! o = fst <$> s_access (A o);
  rep_refresh o : userdeviceid_refresh s !! o = fst <$> s_refresh (A o);
  rep_spent t o r n : spentrefresh_userdeviceid s !! t = Some (o, r, n) <->
    s_spent (A o) = Some (t, n) /\ fst <$> s_refresh (A o) = Some r;
  rep_spent_of o : userdeviceid_spentrefresh s !! o = fst <$> s_spent (A o)
}.

(** Access tokens are not refresh tokens and name one device; refresh tokens, current or
    spent, were issued. *)
Record kinds (issued : list string) (A : Sessions) : Prop := {
  k_access o t x : s_access (A o) = Some (t, x) -> is_refresh_token t = false /\ names t = o;
  k_refresh o t x : s_refresh (A o) = Some (t, x) -> is_refresh_token t = true /\ t ∈ issued;
  k_spent o t n : s_spent (A o) = Some (t, n) -> is_refresh_token t = true /\ t ∈ issued;
  k_unspent o o' t n x : s_spent (A o) = Some (t, n) -> s_refresh (A o') <> Some (t, x);
  k_spent_once o o' t n n' : s_spent (A o) = Some (t, n) -> s_spent (A o') = Some (t, n') -> o = o';
  k_pair o : s_refresh (A o) = None -> s_spent (A o) = None
}.

(** A token of a session resolves to it. *)
Lemma rep_own s A o t x :
  rep s A -> s_access (A o) = Some (t, x) \/ s_refresh (A o) = Some (t, x) ->
  token_userdeviceid s !! t = Some (o, x).
Proof. intros R H. by apply (rep_token s A R). Qed.

(** Two sessions do not share a token. *)
Lemma token_once s A o o' t x x' :
  rep s A ->
  s_access (A o) = Some (t, x) \/ s_refresh (A o) = Some (t, x) ->
  s_access (A o') = Some (t, x') \/ s_refresh (A o') = Some (t, x') -> o = o'.
Proof.
  intros R H%(rep_own s A o t x R) H'%(rep_own s A o' t x' R). congruence.
Qed.

Lemma access_not_refresh issued A o o' t x x' :
  kinds issued A -> s_access (A o) = Some (t, x) -> s_refresh (A o') <> Some (t, x').
Proof. intros K [Ha _]%(k_access issued A K) [Hr _]%(k_refresh issued A K). congruence. Qed.

#[local] Ltac session o o' :=
  destruct (decide (o' = o)) as [->|Hoo];
  rewrite ?fn_lookup_insert, ?fn_lookup_insert_ne by congruence; cbn [s_access s_refresh s_spent fmap option_fmap option_map].

Lemma remove_access_rep issued s A o :
  rep s A -> kinds issued A ->
  rep (mkState (delete_opt (userdeviceid_token s !! o) (token_userdeviceid s)) (delete o (userdeviceid_token s))
        (userdeviceid_refresh s) (spentrefresh_userdeviceid s) (userdeviceid_spentrefresh s))
      (<[o := mkSession None (s_refresh (A o)) (s_spent (A o))]> A).
Proof.
  intros R K. split; cbn [token_userdeviceid userdeviceid_token userdeviceid_refresh
    spentrefresh_userdeviceid userdeviceid_spentrefresh].
  - intros t o' x. rewrite (rep_access s A R). destruct (s_access (A o)) as [[a y]|] eqn:Ea; cbn [delete_opt fmap option_fmap option_map fst].
    + rewrite lookup_delete_Some, (rep_token s A R). session o o'.
      * rewrite Ea. split; [by intros [Hne [[= ? ?]|Hr]]; [|right]|]. intros [[=]|Hr]. split; [|by right].
        intros <-. by apply (access_not_refresh issued A o o a y x).
      * split; [tauto|]. intros H'. split; [|done]. intros <-. apply Hoo. symmetry.
        by eapply (token_once s A); [|left|].
    + rewrite (rep_token s A R). session o o'; [|done]. rewrite Ea. naive_solver.
  - intros o'. session o o'; [by rewrite lookup_delete_eq|]. rewrite lookup_delete_ne by done. apply R.
  - intros o'. session o o'; apply R.
  - intros t o' r n. rewrite (rep_spent s A R). by session o o'.
  - intros o'. session o o'; apply R.
Qed.

Lemma remove_refresh_rep issued s A o :
  rep s A -> kinds issued A ->
  rep (mkState (delete_opt (userdeviceid_refresh s !! o) (token_userdeviceid s)) (userdeviceid_token s)
        (delete o (userdeviceid_refresh s))
        (delete_opt (userdeviceid_spentrefresh s !! o) (spentrefresh_userdeviceid s))
        (delete o (userdeviceid_spentrefresh s)))
      (<[o := mkSession (s_access (A o)) None None]> A).
Proof.
  intros R K. split; cbn [token_userdeviceid userdeviceid_token userdeviceid_refresh
    spentrefresh_userdeviceid userdeviceid_spentrefresh].
  - intros t o' x. rewrite (rep_refresh s A R). destruct (s_refresh (A o)) as [[a y]|] eqn:Ea; cbn [delete_opt fmap option_fmap option_map fst].
    + rewrite lookup_delete_Some, (rep_token s A R). session o o'.
      * rewrite Ea. split; [by intros [Hne [Hr|[= ? ?]]]; [left|]|]. intros [Hr|[=]]. split; [|by left].
        intros <-. by apply (access_not_refresh issued A o o a x y).
      * split; [tauto|]. intros H'. split; [|done]. intros <-. apply Hoo. symmetry.
        by eapply (token_once s A); [|right|].
    + rewrite (rep_token s A R). session o o'; [|done]. rewrite Ea. naive_solver.
  - intros o'. session o o'; apply R.
  - intros o'. session o o'; [by rewrite lookup_delete_eq|]. rewrite lookup_delete_ne by done. apply R.
  - intros t o' r n. rewrite (rep_spent_of s A R).
    destruct (s_spent (A o)) as [[a y]|] eqn:Ea; cbn [delete_opt fmap option_fmap option_map fst].
    + rewrite lookup_delete_Some, (rep_spent s A R). session o o'; [rewrite Ea; naive_solver|].
      split; [tauto|]. intros [Hs Hr]. split; [|done]. intros <-. by pose proof (k_spent_once _ _ K _ _ _ _ _ Ea Hs).
    + rewrite (rep_spent s A R). session o o'; [|done]. rewrite Ea. naive_solver.
  - intros o'. session o o'; [by rewrite lookup_delete_eq|]. rewrite lookup_delete_ne by done. apply R.
Qed.

(** A new refresh token for a device that has none. *)
Lemma put_refresh_rep issued s A o r x spent n :
  rep s A -> kinds issued A -> s_refresh (A o) = None -> s_spent (A o) = None -> is_refresh_token r = true ->
  (r ∉ issued) -> (forall o', fst <$> s_spent (A o') <> spent \/ spent = None) ->
  rep (mkState (<[r := (o, x)]> (token_userdeviceid s)) (userdeviceid_token s) (<[o := r]> (userdeviceid_refresh s))
        (match spent with Some t => <[t := (o, r, n)]> (spentrefresh_userdeviceid s) | None => spentrefresh_userdeviceid s end)
        (match spent with Some t => <[o := t]> (userdeviceid_spentrefresh s) | None => userdeviceid_spentrefresh s end))
      (<[o := mkSession (s_access (A o)) (Some (r, x)) ((fun t => (t, n)) <$> spent)]> A).
Proof.
  intros R K Hr Hs Hk Hnew Hsp. split; cbn [token_userdeviceid userdeviceid_token userdeviceid_refresh
    spentrefresh_userdeviceid userdeviceid_spentrefresh].
  - intros t o' y. rewrite lookup_insert_Some, (rep_token s A R).
    assert (Hfree : forall o' y, ~ (s_access (A o') = Some (r, y) \/ s_refresh (A o') = Some (r, y))).
    { intros o1 y1 [[? _]%(k_access _ _ K)|[_ ?]%(k_refresh _ _ K)]; congruence || done. }
    session o o'; [rewrite Hr|]; naive_solver.
  - intros o'. session o o'; apply R.
  - intros o'. session o o'; [by rewrite lookup_insert_eq|]. rewrite lookup_insert_ne by done. apply R.
  - intros t o' r' n'. destruct spent as [sp|]; cbn [fmap option_fmap option_map].
    + rewrite lookup_insert_Some, (rep_spent s A R). session o o'; [rewrite Hs; naive_solver|].
      split; [naive_solver|]. intros [Hs' Hr']. right. split; [|done]. intros ->.
      destruct (Hsp o') as [Hn|[=]]. by rewrite Hs' in Hn.
    + rewrite (rep_spent s A R). session o o'; [rewrite Hs; naive_solver|done].
  - intros o'. destruct spent as [sp|]; cbn [fmap option_fmap option_map]; session o o'.
    + by rewrite lookup_insert_eq.
    + rewrite lookup_insert_ne by done. apply R.
    + rewrite (rep_spent_of s A R). by rewrite Hs.
    + apply R.
Qed.

(** A new access token. *)
Lemma put_access_rep issued s A o t x :
  rep s A -> kinds issued A -> is_refresh_token t = false -> names t = o ->
  rep (mkState (<[t := (o, x)]> (delete_opt (userdeviceid_token s !! o) (token_userdeviceid s)))
        (<[o := t]> (userdeviceid_token s)) (userdeviceid_refresh s) (spentrefresh_userdeviceid s)
        (userdeviceid_spentrefresh s))
      (<[o := mkSession (Some (t, x)) (s_refresh (A o)) (s_spent (A o))]> A).
Proof.
  intros R K Hk Hn. pose proof (remove_access_rep issued s A o R K) as R'.
  split; cbn [token_userdeviceid userdeviceid_token userdeviceid_refresh spentrefresh_userdeviceid userdeviceid_spentrefresh].
  - intros t' o' y. rewrite lookup_insert_Some, (rep_token _ _ R').
    assert (Hfree : forall o' y, o' <> o -> ~ (s_access (A o') = Some (t, y) \/ s_refresh (A o') = Some (t, y))).
    { intros o1 y1 Ho [[? ?]%(k_access _ _ K)|[? _]%(k_refresh _ _ K)]; congruence. }
    session o o'.
    + split; [naive_solver|]. intros [[= <- <-]|Hr]; [by left|]. right. split; [|by right].
      intros <-. apply (k_refresh _ _ K) in Hr as [? _]. congruence.
    + naive_solver.
  - intros o'. session o o'; [by rewrite lookup_insert_eq|]. rewrite lookup_insert_ne by done. apply R.
  - intros o'. session o o'; apply R.
  - intros t' o' r n. rewrite (rep_spent s A R). by session o o'.
  - intros o'. session o o'; apply R.
Qed.

(** ** Refinement *)

Lemma rep_ext s A B : (forall o, A o = B o) -> rep s A -> rep s B.
Proof. intros E [R1 R2 R3 R4 R5]. split; intros; rewrite <- !E; auto. Qed.

Lemma kinds_ext issued A B : (forall o, A o = B o) -> kinds issued A -> kinds issued B.
Proof. intros E [K1 K2 K3 K4 K5 K6]. split; intros *; rewrite <- !E; eauto. Qed.

(** The columns while the session of [o] is [x] and those of the others are in [A]. *)
Definition holds (issued : list string) (A : Sessions) (o : Owner) (s : State) (x : Session) : Prop :=
  rep s (<[o := x]> A) /\ kinds issued (<[o := x]> A).

Lemma insert_twice (A : Sessions) o x y : forall o', <[o := y]> (<[o := x]> A) o' = <[o := y]> A o'.
Proof. intros o'. by session o o'. Qed.

Lemma holds_put issued issued' A o s s' x x' :
  holds issued A o s x -> rep s' (<[o := x']> (<[o := x]> A)) ->
  (forall t, t ∈ issued -> t ∈ issued') ->
  (forall t d, s_access x' = Some (t, d) -> is_refresh_token t = false /\ names t = o) ->
  (forall t d, s_refresh x' = Some (t, d) -> s_refresh x = Some (t, d) \/
    is_refresh_token t = true /\ t ∈ issued' /\ (t ∉ issued)) ->
  (forall t n, s_spent x' = Some (t, n) -> is_refresh_token t = true /\ t ∈ issued /\
    forall o' d, o' <> o -> s_refresh (A o') <> Some (t, d) /\ forall n', s_spent (A o') <> Some (t, n')) ->
  (forall t n d, s_spent x' = Some (t, n) -> s_refresh x' <> Some (t, d)) ->
  (s_refresh x' = None -> s_spent x' = None) ->
  holds issued' A o s' x'.
Proof.
  intros [R K] R' Hi Ha Hr Hs Hd Hp. split; [by eapply rep_ext, R'; apply insert_twice|].
  assert (K0 : forall o', o' <> o -> <[o := x]> A o' = A o') by (intros; by apply fn_lookup_insert_ne).
  pose proof (k_refresh _ _ K) as Kr. pose proof (k_spent _ _ K) as Ks.
  split.
  - intros o' t d. session o o'; [apply Ha|]. intros H. apply (k_access _ _ K o' t d). by rewrite K0.
  - intros o' t d. session o o'.
    + intros [Hx|(? & ? & _)]%Hr; [|done]. destruct (Kr o t d) as [? ?]; [by rewrite fn_lookup_insert|]. auto.
    + intros H. destruct (Kr o' t d) as [? ?]; [by rewrite K0|]. auto.
  - intros o' t n. session o o'; [intros (? & ? & _)%Hs; auto|]. intros H.
    destruct (Ks o' t n) as [? ?]; [by rewrite K0|]. auto.
  - intros o1 o2 t n d. destruct (decide (o1 = o)) as [->|H1], (decide (o2 = o)) as [->|H2];
      rewrite ?fn_lookup_insert, ?fn_lookup_insert_ne by congruence.
    + apply Hd.
    + intros (_ & _ & H)%Hs. by apply H.
    + intros Hsp [Hx|(_ & _ & Hn)]%Hr.
      * apply (k_unspent _ _ K o1 o t n d); [by rewrite K0|by rewrite fn_lookup_insert].
      * apply Hn. by destruct (Ks o1 t n) as [_ ?]; [rewrite K0|].
    + intros Hsp Hx. by apply (k_unspent _ _ K o1 o2 t n d); rewrite K0.
  - intros o1 o2 t n n'. destruct (decide (o1 = o)) as [->|H1], (decide (o2 = o)) as [->|H2];
      rewrite ?fn_lookup_insert, ?fn_lookup_insert_ne by congruence; try done.
    + intros (_ & _ & H)%Hs Hx. by destruct (H o2 None H2) as [_ []%(fun f => f n')].
    + intros Hx (_ & _ & H)%Hs. by destruct (H o1 None H1) as [_ []%(fun f => f n)].
    + intros Hx Hy. apply (k_spent_once _ _ K o1 o2 t n n'); by rewrite K0.
  - intros o'. session o o'; [done|]. rewrite <- (K0 o' Hoo). apply (k_pair _ _ K).
Qed.

(** Writing to the columns and to the session. *)
Lemma write_both (P : State -> Session -> Prop) i s s1 x x1 :
  P s x -> P s1 x1 ->
  let '(s', r) := write i s s1 in let '(x', r') := write i x x1 in r = r' /\ P s' x'.
Proof. unfold write. by destruct (Maps.writes i), (Maps.flushes i). Qed.

(** What the session says of itself. *)
Lemma holds_kinds issued A o s x :
  holds issued A o s x ->
  (forall t d, s_access x = Some (t, d) -> is_refresh_token t = false /\ names t = o) /\
  (forall t d, s_refresh x = Some (t, d) -> is_refresh_token t = true /\ t ∈ issued /\
    forall o' d', o' <> o -> s_refresh (A o') <> Some (t, d') /\ forall n', s_spent (A o') <> Some (t, n')) /\
  (forall t n, s_spent x = Some (t, n) -> is_refresh_token t = true /\ t ∈ issued /\
    forall o' d, o' <> o -> s_refresh (A o') <> Some (t, d) /\ forall n', s_spent (A o') <> Some (t, n')) /\
  (forall t n d, s_spent x = Some (t, n) -> s_refresh x <> Some (t, d)) /\
  (s_refresh x = None -> s_spent x = None).
Proof.
  intros [R K].
  assert (E : <[o := x]> A o = x) by apply fn_lookup_insert.
  assert (Eo : forall o', o' <> o -> <[o := x]> A o' = A o') by (intros; by apply fn_lookup_insert_ne).
  split_and!.
  - intros t d H. apply (k_access _ _ K o t d). by rewrite E.
  - intros t d H. rewrite <- E in H. destruct (k_refresh _ _ K o t d H) as [? ?]. split_and!; try done.
    intros o' d' Ho. rewrite <- (Eo o' Ho). split.
    + intros H'. apply Ho. symmetry. by eapply (token_once s); [exact R|right|right].
    + intros n' H'. by apply (k_unspent _ _ K o' o t n' d).
  - intros t n H. rewrite <- E in H. destruct (k_spent _ _ K o t n H) as [? ?]. split_and!; try done.
    intros o' d' Ho. rewrite <- (Eo o' Ho). split; [by apply (k_unspent _ _ K o o' t n d')|].
    intros n' H'. apply Ho. symmetry. by eapply (k_spent_once _ _ K).
  - intros t n d. rewrite <- E. by apply (k_unspent _ _ K).
  - rewrite <- E. apply (k_pair _ _ K).
Qed.

Lemma remove_access_holds issued A e k o s x :
  holds issued A o s x ->
  let '(s', r) := remove_access_token e k o s in
  let '(x', r') := session_remove_access e k x in r = r' /\ holds issued A o s' x'.
Proof.
  intros H. apply (write_both (holds issued A o)); [done|]. destruct (holds_kinds _ _ _ _ _ H) as (Ha & Hr & Hs & Hd & Hp).
  pose proof (remove_access_rep issued s _ o (proj1 H) (proj2 H)) as R. rewrite fn_lookup_insert in R.
  eapply holds_put; [exact H|exact R|..]; cbn [s_access s_refresh s_spent]; auto; done.
Qed.

Lemma remove_refresh_holds issued A e k o s x :
  holds issued A o s x ->
  let '(s', r) := remove_refresh_token e k o s in
  let '(x', r') := session_remove_refresh e k x in r = r' /\ holds issued A o s' x'.
Proof.
  intros H. apply (write_both (holds issued A o)); [done|]. destruct (holds_kinds _ _ _ _ _ H) as (Ha & Hr & Hs & Hd & Hp).
  pose proof (remove_refresh_rep issued s _ o (proj1 H) (proj2 H)) as R. rewrite fn_lookup_insert in R.
  eapply holds_put; [exact H|exact R|..]; cbn [s_access s_refresh s_spent]; auto; done.
Qed.

Lemma holds_mono issued issued' A o s x :
  (forall t, t ∈ issued -> t ∈ issued') -> holds issued A o s x -> holds issued' A o s x.
Proof.
  intros Hi [R [K1 K2 K3 K4 K5 K6]]. split; [done|]. split; try done; naive_solver.
Qed.

Lemma expires_at_session issued A o s x :
  holds issued A o s x ->
  find_refresh_token_expires_at o s = ('(_, t) ← s_refresh x; Time.from_secs <$> t).
Proof.
  intros [R K]. unfold find_refresh_token_expires_at, find_from_token.
  rewrite (rep_refresh _ _ R), fn_lookup_insert. destruct (s_refresh x) as [[t d]|] eqn:E; [|done]. cbn.
  rewrite (proj2 (rep_token _ _ R t o d)); [done|]. right. by rewrite fn_lookup_insert.
Qed.

Lemma set_refresh_holds issued A e o s x r :
  holds issued A o s x -> is_refresh_token r = true -> (r ∉ issued) ->
  let '(s', res) := set_refresh_token cfg e o r s in
  let '(x', res') := session_set_refresh e r x in res = res' /\ holds (r :: issued) A o s' x'.
Proof.
  intros H Hk Hnew. unfold set_refresh_token, session_set_refresh.
  rewrite (expires_at_session _ _ _ _ _ H), (rep_refresh _ _ (proj1 H)), fn_lookup_insert.
  set (prior := if negb _ && _ then _ else _). destruct (holds_kinds _ _ _ _ _ H) as (Ha & Hr & _ & _ & _).
  pose proof (remove_refresh_holds issued A e 0 o s x H) as H1.
  assert (Hx1 : forall x1, session_remove_refresh e 0 x = (x1, Ok ()) -> x1 = mkSession (s_access x) None None).
  { unfold session_remove_refresh, write. intros x1. by destruct (Maps.writes (io e 0)), (Maps.flushes (io e 0)); intros [= <-]. }
  destruct (remove_refresh_token e 0 o s) as [s1 r1], (session_remove_refresh e 0 x) as [x1 r1'].
  destruct H1 as [<- H1]. destruct r1 as [[]|err]; cbn [and_then]; [|split; [done|]; eapply holds_mono, H1; by right].
  specialize (Hx1 x1 eq_refl). subst x1. destruct (if refresh_token_ttl cfg =? 0 then _ else _) as [t|err].
  2: { split; [done|]. eapply holds_mono, H1. by right. }
  apply (write_both (holds (r :: issued) A o)); [eapply holds_mono, H1; by right|]. cbn [s_access s_refresh s_spent].
  pose proof (put_refresh_rep issued s1 _ o r (epoch_secs <$> t) (fst <$> s_refresh x) (Time.now_secs (now e))
    (proj1 H1) (proj2 H1)) as R. rewrite fn_lookup_insert in R. cbn [s_access s_refresh s_spent] in R.
  assert (Esp : (fun '(t, _) => (t, Time.now_secs (now e))) <$> s_refresh x =
    (fun t => (t, Time.now_secs (now e))) <$> (fst <$> s_refresh x)) by (by destruct (s_refresh x) as [[]|]).
  rewrite Esp. eapply holds_put; [exact H1|apply R; try done| | | | | |done]; cbn [s_access s_refresh s_spent].
  - intros o'. destruct (s_refresh x) as [[c d]|]; [|by right]. left. session o o'; [done|].
    destruct (s_spent (A o')) as [[c' n']|] eqn:Es; [|done]. intros [= ->].
    by apply (proj2 (proj2 (proj2 (Hr c d eq_refl)) o' None Hoo) n').
  - by right.
  - exact Ha.
  - intros t' d [= <- <-]. right. split_and!; try done. left.
  - intros t' n. destruct (s_refresh x) as [[c d]|]; cbn; [|done]. intros [= <- <-]. by apply Hr with d.
  - intros t' n d. destruct (s_refresh x) as [[c d']|]; cbn; [|done]. intros [= <- <-] [= -> _].
    by destruct (Hr c d' eq_refl) as (_ & ? & _).
Qed.

(** ** Histories *)

(** The refresh token an operation issues. *)
Definition issues (a : op) : list string :=
  match a with SetAccess _ _ _ _ _ (Some r) => [r] | _ => [] end.

(** Access tokens lack the prefix of refresh tokens and are drawn for one device;
    refresh tokens have it and are drawn once. *)
Definition fresh_op (issued : list string) (a : op) : Prop :=
  match a with
  | SetAccess _ _ o t _ r =>
      is_refresh_token t = false /\ names t = o /\
      match r with Some r => is_refresh_token r = true /\ (r ∉ issued) | None => True end
  | _ => True
  end.

Fixpoint fresh (issued : list string) (os : list op) : Prop :=
  match os with [] => True | a :: os => fresh_op issued a /\ fresh (issues a ++ issued) os end.

Definition issued_by (os : list op) (issued : list string) : list string :=
  foldl (fun l a => issues a ++ l) issued os.

Lemma set_access_holds issued A e m o s x t d r :
  holds issued A o s x -> fresh_op issued (SetAccess e m o t d r) ->
  let '(s', res) := set_access_token cfg e m o t d r s in
  let '(x', res') := session_set_access e m t d r x in
  res = res' /\ holds (issues (SetAccess e m o t d r) ++ issued) A o s' x'.
Proof.
  intros H (Ht & Hn & Hr). unfold set_access_token, session_set_access. set (issued' := issues _ ++ issued).
  assert (Hi : forall t, t ∈ issued -> t ∈ issued') by (intros; apply elem_of_app; by right).
  destruct m; cbn [negb]; [|by split; [|apply (holds_mono issued)]].
  assert (H1 : let '(s', res) := match r with Some r => set_refresh_token cfg e o r s | None => (s, Ok ()) end in
    let '(x', res') := match r with Some r => session_set_refresh e r x | None => (x, Ok ()) end in
    res = res' /\ holds issued' A o s' x').
  { destruct r as [r|]; [by destruct Hr; apply set_refresh_holds|]. by split; [|apply (holds_mono issued)]. }
  destruct (match r with Some r => set_refresh_token cfg e o r s | None => _ end) as [s1 r1],
    (match r with Some r => session_set_refresh e r x | None => _ end) as [x1 r1'].
  destruct H1 as [<- H1]. destruct r1 as [[]|err]; cbn [and_then]; [|done].
  destruct (deadline e d) as [t1|err]; [|done].
  apply (write_both (holds issued' A o)); [done|]. destruct (holds_kinds _ _ _ _ _ H1) as (Ha & Hr1 & Hs & Hd & Hp).
  pose proof (put_access_rep issued' s1 _ o t (epoch_secs <$> t1) (proj1 H1) (proj2 H1) Ht Hn) as R.
  rewrite fn_lookup_insert in R.
  eapply holds_put; [exact H1|exact R|..]; cbn [s_access s_refresh s_spent]; auto. by intros ? ? [= <- <-].
Qed.

Lemma token_exec_refines issued s A a :
  rep s A -> kinds issued A -> fresh_op issued a ->
  let '(s', r) := exec s a in let '(A', r') := spec_exec A a in
  r = r' /\ rep s' A' /\ kinds (issues a ++ issued) A'.
Proof.
  intros R K Hf. unfold spec_exec. set (o := op_owner a).
  assert (H : holds issued A o s (A o)).
  { assert (E : forall o', A o' = <[o := A o]> A o') by (intros o'; by session o o').
    split; [by eapply rep_ext|by eapply kinds_ext]. }
  destruct a as [e m o' t d r|e o'|e o']; subst o; cbn [exec spec op_owner] in *.
  - pose proof (set_access_holds issued A e m o' s (A o') t d r H Hf) as Hx.
    destruct (set_access_token cfg e m o' t d r s), (session_set_access e m t d r (A o')); exact Hx.
  - pose proof (remove_access_holds issued A e 0 o' s (A o') H) as Hx.
    destruct (remove_access_token e 0 o' s), (session_remove_access e 0 (A o')); exact Hx.
  - pose proof (remove_refresh_holds issued A e 0 o' s (A o') H) as Hx.
    destruct (remove_refresh_token e 0 o' s), (session_remove_refresh e 0 (A o')); exact Hx.
Qed.

Lemma token_run_refines os issued s A :
  rep s A -> kinds issued A -> fresh issued os ->
  (run s os).2 = (spec_run A os).2 /\ rep (run s os).1 (spec_run A os).1 /\
  kinds (issued_by os issued) (spec_run A os).1.
Proof.
  revert issued s A. induction os as [|a os IH]; intros issued s A R K Hf; [done|]. destruct Hf as [Ha Hf].
  cbn [run spec_run issued_by foldl]. pose proof (token_exec_refines issued s A a R K Ha) as Hx.
  destruct (exec s a) as [s1 r1], (spec_exec A a) as [A1 r1']. destruct Hx as (<- & R1 & K1).
  destruct (IH _ s1 A1 R1 K1 Hf) as (E & R2 & K2).
  destruct (run s1 os) as [s2 rs], (spec_run A1 os) as [A2 rs']. cbn in *. by subst.
Qed.

Lemma empty_rep : rep empty_tables (fun _ => no_session).
Proof. clear names. split; intros; cbn; rewrite ?lookup_empty; naive_solver. Qed.

Lemma empty_kinds : kinds [] (fun _ => no_session).
Proof. by split. Qed.

(** What reads of the columns say of the sessions. *)
Lemma find_session s A t o x :
  rep s A -> find_from_token t s = Ok (o, x) <->
  exists d, x = Time.from_secs <$> d /\ (s_access (A o) = Some (t, d) \/ s_refresh (A o) = Some (t, d)).
Proof.
  intros R. unfold find_from_token. pose proof (rep_token s A R t) as Hr. split.
  - destruct (token_userdeviceid s !! t) as [[o' d]|]; [|done]. intros [= -> <-]. exists d. split; [done|]. by apply Hr.
  - intros (d & -> & H%Hr). by rewrite H.
Qed.

Lemma classify_session issued s A e t :
  rep s A -> kinds issued A ->
  match classify_refresh_token cfg e t s with
  | Current o x => exists d, x = Time.from_secs <$> d /\ s_refresh (A o) = Some (t, d)
  | Replayed o r grace => exists n, s_spent (A o) = Some (t, n) /\ fst <$> s_refresh (A o) = Some r /\
      grace = negb (refresh_token_reuse_grace cfg =? 0) &&
        (u64_saturating_sub (Time.now_secs (now e)) n <=? refresh_token_reuse_grace cfg)
  | Unrecognised => forall o, fst <$> s_refresh (A o) <> Some t /\ fst <$> s_spent (A o) <> Some t
  end.
Proof.
  intros R K. unfold classify_refresh_token.
  pose proof (fun o x => find_session s A t o x R) as Hf. pose proof (rep_refresh s A R) as Hr. pose proof (rep_spent s A R t) as Hs.
  destruct (is_refresh_token t) eqn:Ek; cbn [negb].
  2: { intros o. split.
    - destruct (s_refresh (A o)) as [[r d]|] eqn:E; [|done]. apply (k_refresh _ _ K) in E as [? _]. intros [= ->]. congruence.
    - destruct (s_spent (A o)) as [[r d]|] eqn:E; [|done]. apply (k_spent _ _ K) in E as [? _]. intros [= ->]. congruence. }
  set (otherwise := match spentrefresh_userdeviceid s !! t with Some _ => _ | None => _ end).
  assert (Hother : (forall o, fst <$> s_refresh (A o) <> Some t) -> match otherwise with
    | Current o x => False
    | Replayed o r grace => exists n, s_spent (A o) = Some (t, n) /\ fst <$> s_refresh (A o) = Some r /\
        grace = negb (refresh_token_reuse_grace cfg =? 0) &&
          (u64_saturating_sub (Time.now_secs (now e)) n <=? refresh_token_reuse_grace cfg)
    | Unrecognised => forall o, fst <$> s_refresh (A o) <> Some t /\ fst <$> s_spent (A o) <> Some t
    end).
  { intros Hno. unfold otherwise. destruct (spentrefresh_userdeviceid s !! t) as [[[o r] n]|] eqn:E.
    - destruct (proj1 (Hs o r n) eq_refl) as [Hsp Hre]. exists n. split_and!; try done.
      rewrite Hr, Hre, bool_decide_eq_true_2 by done. by rewrite andb_true_r.
    - intros o. split; [done|]. destruct (s_spent (A o)) as [[t' n]|] eqn:Es; [|done]. intros [= ->].
      destruct (s_refresh (A o)) as [[r d]|] eqn:Er; [|by rewrite (k_pair _ _ K o Er) in Es].
      pose proof (proj2 (Hs o r n)) as H. rewrite Es, Er in H. by discriminate H. }
  destruct (find_from_token t s) as [[o x]|err] eqn:Ef.
  - case_bool_decide as Hb.
    + destruct (proj1 (Hf o x) eq_refl) as (d & -> & [Ha|Hd]); [|by exists d].
      apply (k_access _ _ K) in Ha as [? _]. congruence.
    + assert (Hno : forall o', fst <$> s_refresh (A o') <> Some t).
      { intros o' Ho'. destruct (s_refresh (A o')) as [[t' d']|] eqn:Er; [|done]. injection Ho' as ->.
        assert (Hx : @Ok error _ (o, x) = Ok (o', Time.from_secs <$> d')) by (apply Hf; eauto).
        injection Hx as -> ->. apply Hb. by rewrite Hr, Er. }
      specialize (Hother Hno). by destruct otherwise.
  - assert (Hno : forall o', fst <$> s_refresh (A o') <> Some t).
    { intros o' Ho'. destruct (s_refresh (A o')) as [[t' d']|] eqn:Er; [|done]. injection Ho' as ->.
      assert (Hx : Err err = Ok (o', Time.from_secs <$> d')) by (apply Hf; eauto). done. }
    specialize (Hother Hno). by destruct otherwise.
Qed.

(** ** What holds of every history *)

Lemma token_run_app os os' s : (run s (os ++ os')).1 = (run (run s os).1 os').1.
Proof.
  revert s. induction os as [|a os IH]; intros s; [done|]. cbn [app run]. destruct (exec s a) as [s1 r1].
  specialize (IH s1). destruct (run s1 (os ++ os')), (run s1 os). done.
Qed.

Lemma fresh_app issued os os' : fresh issued (os ++ os') <-> fresh issued os /\ fresh (issued_by os issued) os'.
Proof.
  revert issued. induction os as [|a os IH]; intros issued; cbn; [tauto|]. rewrite IH. cbn. tauto.
Qed.

Lemma spec_refresh_new a x t d :
  s_refresh (spec a x).1 = Some (t, d) ->
  s_refresh x = Some (t, d) \/ t ∈ issues a /\ exists t', d = epoch_secs <$> t'.
Proof.
  assert (Hset : forall e r x t d, s_refresh (session_set_refresh e r x).1 = Some (t, d) ->
    s_refresh x = Some (t, d) \/ t = r /\ exists t', d = epoch_secs <$> t').
  { clear. intros e r x t d. unfold session_set_refresh, session_remove_refresh, write.
    destruct (Maps.writes (io e 0)), (Maps.flushes (io e 0)); cbn [and_then fst s_refresh]; auto; try done.
    destruct (if refresh_token_ttl cfg =? 0 then _ else _) as [t1|]; cbn [fst s_refresh]; [|done].
    destruct (Maps.writes (io e 1)); cbn [fst s_refresh]; [|done]. intros [= -> <-]. eauto. }
  destruct a as [e m o t0 d0 r|e o|e o]; cbn [spec issues].
  - unfold session_set_access. destruct m; cbn [negb fst]; [|auto].
    assert (Hr : forall x1 res, (match r with Some r => session_set_refresh e r x | None => (x, Ok ()) end) = (x1, res) ->
      s_refresh x1 = Some (t, d) ->
      s_refresh x = Some (t, d) \/ t ∈ issues (SetAccess e true o t0 d0 r) /\ exists t', d = epoch_secs <$> t').
    { intros x1 res E H. destruct r as [r|]; [|injection E as <- <-; auto]. specialize (Hset e r x t d).
      rewrite E in Hset. destruct (Hset H) as [?|[-> ?]]; [by left|]. right. split; [left|done]. }
    destruct (match r with Some r => session_set_refresh e r x | None => _ end) as [x1 [[]|err]]; cbn [and_then fst].
    + specialize (Hr x1 _ eq_refl). destruct (deadline e d0); [|exact Hr]. unfold write.
      destruct (Maps.writes (io e 2)); exact Hr.
    + exact (Hr x1 _ eq_refl).
  - unfold session_remove_access, write. destruct (Maps.writes (io e 0)); auto.
  - unfold session_remove_refresh, write. destruct (Maps.writes (io e 0)); cbn; auto; done.
Qed.

(** A refresh token no session has is not current again. *)
Lemma lost_stays_lost os issued A r :
  fresh issued os -> r ∈ issued -> (forall o d, s_refresh (A o) <> Some (r, d)) ->
  forall o d, s_refresh ((spec_run A os).1 o) <> Some (r, d).
Proof.
  revert issued A. induction os as [|a os IH]; intros issued A Hf Hi Hno; [done|]. destruct Hf as [Ha Hf].
  cbn [spec_run]. destruct (spec_exec A a) as [A1 r1] eqn:E.
  assert (Hno1 : forall o d, s_refresh (A1 o) <> Some (r, d)).
  { unfold spec_exec in E. destruct (spec a (A (op_owner a))) as [x1 r2] eqn:Es. injection E as <- <-.
    intros o d. destruct (decide (o = op_owner a)) as [->|Hoo]; rewrite ?fn_lookup_insert, ?fn_lookup_insert_ne by congruence; [|done].
    intros H. pose proof (spec_refresh_new a (A (op_owner a)) r d) as Hn. rewrite Es in Hn.
    destruct (Hn H) as [?|[Hin _]]; [by eapply Hno|]. destruct a as [e m o t0 d0 [r0|]|e o|e o]; cbn in Hin;
      try by apply not_elem_of_nil in Hin. apply list_elem_of_singleton in Hin as ->.
    by destruct Ha as (_ & _ & _ & ?). }
  specialize (IH (issues a ++ issued) A1 Hf (ltac:(apply elem_of_app; by right)) Hno1).
  by destruct (spec_run A1 os).
Qed.

(** The deadline of a new refresh token, given that of the one it replaces: none
    without a time to live, the same when deadlines are absolute, or counted from now. *)
Definition next_deadline (e : Env) (prior : option Z) : option Z :=
  let ttl := refresh_token_ttl cfg in
  if ttl =? 0 then None else
  match prior with
  | Some t => if refresh_token_idle_only cfg then Some (now e + Time.from_secs ttl) else Some t
  | None => Some (now e + Time.from_secs ttl)
  end.

Lemma set_access_done e m t d r x x' :
  session_set_access e m t d (Some r) x = (x', Ok ()) ->
  s_refresh x' = Some (r, epoch_secs <$> next_deadline e ('(_, t) ← s_refresh x; Time.from_secs <$> t)) /\
  s_spent x' = (fun '(t, _) => (t, Time.now_secs (now e))) <$> s_refresh x.
Proof.
  unfold session_set_access, session_set_refresh, session_remove_refresh, write. destruct m; cbn [negb]; [|done].
  destruct (Maps.writes (io e 0)), (Maps.flushes (io e 0)); cbn [and_then]; try done.
  set (prior := if negb _ && _ then _ else _).
  destruct (if refresh_token_ttl cfg =? 0 then _ else _) as [t1|] eqn:Et; cbn [and_then]; [|done].
  assert (t1 = next_deadline e ('(_, t) ← s_refresh x; Time.from_secs <$> t)) as ->.
  { revert Et. unfold prior, next_deadline, deadline, Time.timepoint_from_now, Time.system_time.
    set (old := '(_, t) ← s_refresh x; _).
    assert (Hin : forall z z', match in_range (i64_min * Time.NANOS_PER_SEC)
      (i64_max * Time.NANOS_PER_SEC + (Time.NANOS_PER_SEC - 1)) z with Some t => @Ok error _ (Some t) | None => Err Arithmetic end
      = Ok z' -> z' = Some z).
    { intros z z'. destruct (in_range _ _ z) eqn:E; [|done]. apply in_range_Some in E as [-> _]. by intros [= <-]. }
    destruct (refresh_token_ttl cfg =? 0); cbn [negb andb]; [by intros [= <-]|].
    destruct (refresh_token_idle_only cfg); cbn [negb andb].
    - intros H%Hin. rewrite H. by destruct old.
    - destruct old; [by intros [= <-]|apply Hin]. }
  destruct (Maps.writes (io e 1)), (Maps.flushes (io e 1)); cbn [and_then]; try done.
  destruct (deadline e d); [|done].
  destruct (Maps.writes (io e 2)), (Maps.flushes (io e 2)); try done. by intros [= <-].
Qed.

(** Deadlines are stored in seconds since the epoch, never negative. *)
Definition secs_ok (A : Sessions) : Prop := forall o t d, s_refresh (A o) = Some (t, Some d) -> 0 <= d.

Lemma epoch_secs_range t : 0 <= epoch_secs t.
Proof. unfold epoch_secs, Time.as_secs, Time.duration_since_epoch. apply Z.div_pos; [lia|done]. Qed.

Lemma epoch_secs_from d : 0 <= d -> epoch_secs (Time.from_secs d) = d.
Proof.
  intros Hd. unfold epoch_secs, Time.as_secs, Time.duration_since_epoch, Time.from_secs, Time.NANOS_PER_SEC in *.
  rewrite Z.max_l by lia. by apply Z.div_mul.
Qed.

Lemma spec_secs A a : secs_ok A -> secs_ok (spec_exec A a).1.
Proof.
  intros H o t d. unfold spec_exec. destruct (spec a (A (op_owner a))) as [x r] eqn:E. cbn [fst].
  destruct (decide (o = op_owner a)) as [->|Hoo]; rewrite ?fn_lookup_insert, ?fn_lookup_insert_ne by congruence; [|apply H].
  pose proof (spec_refresh_new a (A (op_owner a)) t (Some d)) as Hn. rewrite E in Hn. cbn [fst] in Hn.
  intros [Hx|[_ [[t'|] Ht]]]%Hn; [by eapply H|injection Ht as ->; apply epoch_secs_range|done].
Qed.

Lemma run_secs os A : secs_ok A -> secs_ok (spec_run A os).1.
Proof.
  revert A. induction os as [|a os IH]; intros A H; [done|]. cbn [spec_run].
  pose proof (spec_secs A a H) as H1. destruct (spec_exec A a) as [A1 r1]. specialize (IH A1 H1).
  by destruct (spec_run A1 os).
Qed.

(** A history of fresh tokens, and the sessions it leaves. *)
Definition sessions (os : list op) : Sessions := (spec_run (fun _ => no_session) os).1.

Lemma history os :
  fresh [] os ->
  (run empty_tables os).2 = (spec_run (fun _ => no_session) os).2 /\
  rep (run empty_tables os).1 (sessions os) /\ kinds (issued_by os []) (sessions os).
Proof. apply token_run_refines; [apply empty_rep|apply empty_kinds]. Qed.

(** C20: Over any history of operations and failing writes the five token columns answer as
    one session per device does: every operation reports what its counterpart on the
    session reports, a token resolves to the device whose session holds it and to no
    other, and a presented refresh token is current, spent or unknown as the sessions
    say, within grace exactly in the configured window. *)
Theorem tokens_refine os e t :
  fresh [] os ->
  (run empty_tables os).2 = (spec_run (fun _ => no_session) os).2 /\
  (forall o x, find_from_token t (run empty_tables os).1 = Ok (o, x) <->
    exists d, x = Time.from_secs <$> d /\
      (s_access (sessions os o) = Some (t, d) \/ s_refresh (sessions os o) = Some (t, d))) /\
  match classify_refresh_token cfg e t (run empty_tables os).1 with
  | Current o x => exists d, x = Time.from_secs <$> d /\ s_refresh (sessions os o) = Some (t, d)
  | Replayed o r grace => exists n, s_spent (sessions os o) = Some (t, n) /\
      fst <$> s_refresh (sessions os o) = Some r /\
      grace = negb (refresh_token_reuse_grace cfg =? 0) &&
        (u64_saturating_sub (Time.now_secs (now e)) n <=? refresh_token_reuse_grace cfg)
  | Unrecognised => forall o, fst <$> s_refresh (sessions os o) <> Some t /\ fst <$> s_spent (sessions os o) <> Some t
  end.
Proof.
  intros Hf. destruct (history os Hf) as (E & R & K). split_and!; [done|by intros; apply find_session|].
  by eapply classify_session.
Qed.

(** Whether a refresh token is current is whether a session has it. *)
Lemma current_session os e t o x :
  fresh [] os -> classify_refresh_token cfg e t (run empty_tables os).1 = Current o x ->
  exists d, x = Time.from_secs <$> d /\ s_refresh (sessions os o) = Some (t, d).
Proof.
  intros Hf Hc. destruct (history os Hf) as (_ & R & K). pose proof (classify_session _ _ _ e t R K) as H.
  by rewrite Hc in H.
Qed.

Lemma sessions_snoc os a os' :
  sessions (os ++ a :: os') = (spec_run (spec_exec (sessions os) a).1 os').1.
Proof.
  unfold sessions. generalize (fun _ : Owner => no_session). intros A. revert A.
  induction os as [|b os IH]; intros A; cbn [app spec_run fst].
  - destruct (spec_exec A a) as [A1 r1]. cbn [fst]. by destruct (spec_run A1 os').
  - destruct (spec_exec A b) as [A1 r1]. specialize (IH A1). revert IH.
    by destruct (spec_run A1 (os ++ a :: os')), (spec_run A1 os).
Qed.

(** The session a successful rotation leaves. *)
Lemma rotated os e m o t d r s' :
  fresh [] (os ++ [SetAccess e m o t d (Some r)]) ->
  exec (run empty_tables os).1 (SetAccess e m o t d (Some r)) = (s', Ok ()) ->
  s_refresh (sessions (os ++ [SetAccess e m o t d (Some r)]) o) =
    Some (r, epoch_secs <$> next_deadline e ('(_, t) ← s_refresh (sessions os o); Time.from_secs <$> t)) /\
  s_spent (sessions (os ++ [SetAccess e m o t d (Some r)]) o) =
    (fun '(t, _) => (t, Time.now_secs (now e))) <$> s_refresh (sessions os o) /\
  rep s' (sessions (os ++ [SetAccess e m o t d (Some r)])).
Proof.
  intros [Hf [Ha _]]%fresh_app Hx. destruct (history os Hf) as (_ & R & K).
  pose proof (token_exec_refines _ _ _ _ R K Ha) as Hr. rewrite Hx in Hr. rewrite sessions_snoc. cbn [spec_run fst].
  unfold spec_exec in *. cbn [op_owner spec] in *.
  destruct (session_set_access e m t d (Some r) (sessions os o)) as [x' res] eqn:E. destruct Hr as (<- & R' & _).
  cbn [fst]. rewrite fn_lookup_insert. destruct (set_access_done _ _ _ _ _ _ _ E). done.
Qed.

(** Once a device's refresh token was exchanged for another, it is only ever seen as
    spent: right after the exchange it is recognised as the predecessor of the new token,
    and whatever follows it is never current again, for that device or another. *)
Theorem exchanged_never_current os e0 r o x0 e m t d r' os' e1 s' :
  let a := SetAccess e m o t d (Some r') in
  fresh [] (os ++ a :: os') ->
  classify_refresh_token cfg e0 r (run empty_tables os).1 = Current o x0 ->
  exec (run empty_tables os).1 a = (s', Ok ()) ->
  (exists grace, classify_refresh_token cfg e1 r s' = Replayed o r' grace) /\
  forall o' x', classify_refresh_token cfg e1 r (run empty_tables (os ++ a :: os')).1 <> Current o' x'.
Proof.
  intros a Hf Hc Hx. pose proof Hf as Hf'. rewrite (cons_middle a os os'), app_assoc in Hf'.
  apply fresh_app in Hf' as [Hfa Hf']. pose proof Hfa as [Hf0 [(_ & _ & _ & Hnew) _]]%fresh_app.
  destruct (current_session _ _ _ _ _ Hf0 Hc) as (d0 & _ & Hr0).
  destruct (history os Hf0) as (_ & R0 & K0). pose proof (k_refresh _ _ K0 _ _ _ Hr0) as [_ Hin].
  destruct (rotated os e m o t d r' s' Hfa Hx) as (Hr1 & Hs1 & R1). fold a in Hr1, Hs1, R1.
  destruct (history _ Hfa) as (_ & _ & K1). rewrite Hr0 in Hs1. cbn in Hs1.
  split.
  - pose proof (classify_session _ s' _ e1 r R1 K1) as Hcl. destruct (classify_refresh_token cfg e1 r s') as [o1 x1|o1 r1 g|].
    + destruct Hcl as (d1 & _ & Hd1). exfalso. by apply (k_unspent _ _ K1 o o1 r _ d1 Hs1).
    + destruct Hcl as (n & Hn & Hre & _). rewrite (k_spent_once _ _ K1 _ _ _ _ _ Hn Hs1) in Hre.
      rewrite Hr1 in Hre. injection Hre as <-. exists g. by rewrite (k_spent_once _ _ K1 _ _ _ _ _ Hn Hs1).
    + destruct (Hcl o) as [_ Hno]. by rewrite Hs1 in Hno.
  - intros o' x' Hc'. destruct (current_session _ _ _ _ _ Hf Hc') as (d' & _ & Hd').
    rewrite (cons_middle a os os'), app_assoc in Hd'. revert Hd'.
    assert (E : sessions ((os ++ [a]) ++ os') = (spec_run (sessions (os ++ [a])) os').1).
    { rewrite <- app_assoc. cbn [app]. by rewrite !sessions_snoc. }
    rewrite E. eapply lost_stays_lost; [exact Hf'| |].
    + unfold issued_by. rewrite foldl_app. cbn. right. exact Hin.
    + intros o1 d1. by apply (k_unspent _ _ K1 o o1 r _ d1 Hs1).
Qed.

(** Exchanging a refresh token keeps its deadline when deadlines are absolute, so the
    chain of tokens of a login ends when the first one would have; it counts the deadline
    from now when only idle time matters or when there was none. *)
Theorem exchange_deadline os e m o t d r s' :
  let a := SetAccess e m o t d (Some r) in
  fresh [] (os ++ [a]) -> 0 < refresh_token_ttl cfg -> 0 <= now e ->
  exec (run empty_tables os).1 a = (s', Ok ()) ->
  find_refresh_token_expires_at o s' =
    match find_refresh_token_expires_at o (run empty_tables os).1 with
    | Some prior =>
        if refresh_token_idle_only cfg
        then Some (Time.from_secs (Time.as_secs (now e + Time.from_secs (refresh_token_ttl cfg)))) else Some prior
    | None => Some (Time.from_secs (Time.as_secs (now e + Time.from_secs (refresh_token_ttl cfg))))
    end.
Proof.
  intros a Hf Httl Hnow Hx. destruct (rotated os e m o t d r s' Hf Hx) as (Hr1 & _ & R1). fold a in Hr1, R1.
  pose proof Hf as [Hf0 _]%fresh_app. destruct (history os Hf0) as (_ & R0 & _).
  assert (Hex : forall s A, rep s A -> find_refresh_token_expires_at o s = '(_, t) ← s_refresh (A o); Time.from_secs <$> t).
  { intros s A R. unfold find_refresh_token_expires_at, find_from_token. rewrite (rep_refresh _ _ R).
    destruct (s_refresh (A o)) as [[t1 d1]|] eqn:E; [|done]. cbn. rewrite (proj2 (rep_token _ _ R t1 o d1)); [done|].
    by right. }
  rewrite (Hex _ _ R1), (Hex _ _ R0), Hr1. cbn.
  assert (Hpos : 0 <= now e + Time.from_secs (refresh_token_ttl cfg)) by (unfold Time.from_secs, Time.NANOS_PER_SEC; lia).
  assert (Hne : (refresh_token_ttl cfg =? 0) = false) by lia.
  assert (Hfl : epoch_secs (now e + Time.from_secs (refresh_token_ttl cfg)) =
    Time.as_secs (now e + Time.from_secs (refresh_token_ttl cfg))) by (unfold epoch_secs, Time.duration_since_epoch; by rewrite Z.max_l).
  assert (Hok : secs_ok (sessions os)) by (by apply run_secs).
  unfold next_deadline. rewrite Hne.
  destruct (s_refresh (sessions os o)) as [[t1 [d1|]]|] eqn:E; cbn; rewrite ?Hfl; try done.
  destruct (refresh_token_idle_only cfg); cbn; rewrite ?Hfl; [done|]. by rewrite epoch_secs_from by (by eapply Hok).
Qed.

(** ** Login tokens *)

Inductive login_op :=
  | CreateLogin (e : Env) (user token : string)
  | PeekLogin (e : Env) (token : string)
  | RedeemLogin (e : Env) (token : string).

Definition login_exec (m : gmap string (Z * string)) (a : login_op) : gmap string (Z * string) * bool :=
  match a with
  | CreateLogin e u t => ((create_login_token cfg e u t m).1, false)
  | PeekLogin e t => ((peek_login_token e t m).1, false)
  | RedeemLogin e t =>
      let '(m, r) := find_from_login_token e t m in (m, match r with Ok _ => true | Err _ => false end)
  end.

(** How often a login token was made, and how often redeemed. *)
Definition login_made (token : string) (a : login_op) : nat :=
  match a with CreateLogin _ _ t => if decide (t = token) then 1 else 0 | _ => 0 end.

Fixpoint login_redeemed (token : string) (m : gmap string (Z * string)) (os : list login_op) : nat :=
  match os with
  | [] => 0
  | a :: os =>
      let '(m, ok) := login_exec m a in
      ((match a with RedeemLogin _ t => if decide (t = token) then (if ok then 1 else 0) else 0 | _ => 0 end)
       + login_redeemed token m os)%nat
  end.

Definition login_writes (a : login_op) : Prop :=
  match a with RedeemLogin e _ => Maps.writes (io e 0) = true | _ => True end.

Lemma login_step m a token :
  login_writes a ->
  let '(m', ok) := login_exec m a in
  ((if decide (is_Some (m' !! token)) then 1 else 0) +
   match a with RedeemLogin _ t => if decide (t = token) then (if ok then 1 else 0) else 0 | _ => 0 end <=
   login_made token a + (if decide (is_Some (m !! token)) then 1 else 0))%nat.
Proof.
  destruct a as [e u t|e t|e t]; cbn [login_exec login_made login_writes]; intros Hw.
  - unfold create_login_token, write. destruct (Maps.writes (io e 0)); cbn [fst]; [|lia].
    destruct (decide (t = token)) as [->|Hne]; [repeat case_decide; lia|]. rewrite lookup_insert_ne by done. lia.
  - unfold peek_login_token, write. destruct (m !! t) as [[x u]|] eqn:E; cbn [fst]; [|lia].
    destruct (x <? _); cbn [fst]; [|lia]. destruct (Maps.writes (io e 0)); cbn [fst]; [|lia].
    destruct (decide (t = token)) as [->|Hne]; [rewrite lookup_delete_eq; repeat case_decide; lia || by destruct H|].
    rewrite lookup_delete_ne by done. lia.
  - unfold find_from_login_token, write. rewrite Hw. destruct (m !! t) as [[x u]|] eqn:E; cbn [fst].
    2: { repeat case_decide; lia. }
    destruct (decide (t = token)) as [->|Hne].
    + rewrite E. destruct (x <? _); rewrite lookup_delete_eq; rewrite !decide_False by (by intros []);
        rewrite decide_True by done; lia.
    + destruct (x <? _); rewrite lookup_delete_ne by done; lia.
Qed.

(** A login token is redeemed at most as often as it was made, over any interleaving
    of requests whose deletions reach the database. *)
Theorem login_token_once os token :
  Forall login_writes os ->
  (login_redeemed token ∅ os <= sum_list_with (login_made token) os)%nat.
Proof.
  intros Hw. assert (H : forall m, (login_redeemed token m os <=
    sum_list_with (login_made token) os + (if decide (is_Some (m !! token)) then 1 else 0))%nat).
  { induction Hw as [|a os Ha Hw IH]; intros m; cbn; [lia|]. pose proof (login_step m a token Ha) as Hs.
    destruct (login_exec m a) as [m' ok]. specialize (IH m'). lia. }
  specialize (H ∅). rewrite lookup_empty, decide_False in H by (by intros []). lia.
Qed.

End Facts.

(** A login token whose deletion fails is accepted again: the error is dropped. *)
Theorem login_token_spent_twice :
  exists cfg e, let m := (create_login_token cfg e "@a:x" "T" ∅).1 in
  let failing := mkEnv (now e) (fun _ => Maps.mkIo false false) in
  (find_from_login_token failing "T" m).2 = Ok "@a:x"%string /\
  (find_from_login_token failing "T" (find_from_login_token failing "T" m).1).2 = Ok "@a:x"%string.
Proof. exists (mkConfig 0 0 false 0 false false 0 1000), (mkEnv 0 (fun _ => Maps.io_ok)). by vm_compute. Qed.

(** ** A history *)

Definition config : Config := mkConfig 300 3600 false 10 true true 60 1000.
Definition at_ (t : Z) : Env := mkEnv (Time.from_secs t) (fun _ => Maps.io_ok).
Definition phone : Owner := ("@a:x", "PHONE")%string.
Definition login : op := SetAccess (at_ 100) true phone "A1" (Some (Time.from_secs 300)) (Some "refresh_1")%string.
Definition exchange : op := SetAccess (at_ 200) true phone "A2" (Some (Time.from_secs 300)) (Some "refresh_2")%string.
Definition logout : op := RemoveRefresh (at_ 300) phone.

Lemma history_fresh : fresh (fun _ => phone) [] [login; exchange; logout].
Proof. cbn. split_and!; try done; set_solver. Qed.

Lemma tokens_refine_witness :
  find_from_token "A2" (run config empty_tables [login; exchange]).1 = Ok (phone, Some (Time.from_secs 500)) /\
  exists d, Some (Time.from_secs 500) = Time.from_secs <$> d /\
    (s_access (sessions config [login; exchange] phone) = Some ("A2"%string, d) \/
     s_refresh (sessions config [login; exchange] phone) = Some ("A2"%string, d)).
Proof.
  assert (Hf : fresh (fun _ => phone) [] [login; exchange]) by (cbn; split_and!; try done; set_solver).
  split; [by vm_compute|]. apply (tokens_refine config (fun _ => phone) [login; exchange] (at_ 201) "A2" Hf). by vm_compute.
Defined.

Lemma exchanged_never_current_witness :
  classify_refresh_token config (at_ 150) "refresh_1" (run config empty_tables [login]).1 =
    Current phone (Some (Time.from_secs 3700)) /\
  (exists grace, classify_refresh_token config (at_ 205) "refresh_1" (exec config (run config empty_tables [login]).1 exchange).1 =
    Replayed phone "refresh_2" grace) /\
  forall o' x', classify_refresh_token config (at_ 205) "refresh_1" (run config empty_tables ([login] ++ exchange :: [logout])).1
    <> Current o' x'.
Proof.
  split; [by vm_compute|].
  eapply (exchanged_never_current config (fun _ => phone) [login] (at_ 150)); [exact history_fresh|by vm_compute|by vm_compute].
Defined.

Lemma exchange_deadline_witness :
  find_refresh_token_expires_at phone (exec config (run config empty_tables [login]).1 exchange).1 =
    Some (Time.from_secs 3700).
Proof.
  rewrite (exchange_deadline config (fun _ => phone) [login] (at_ 200) true phone "A2" (Some (Time.from_secs 300)) "refresh_2"
    (exec config (run config empty_tables [login]).1 exchange).1); [by vm_compute| |done|done|by vm_compute].
  cbn; split_and!; try done; set_solver.
Defined.

End TokensFacts.
