(* ===== verification/Devices.v ===== *)
(** Devices and accounts, [phantom-service/src/accounts/users/device.rs] and the account
    half of [users/mod.rs], over the token columns of Tokens.v.

    Rows are at the type of their keys and values. What other services keep for a device
    (keys, messages, sync connections, pushers) is there because removing the device
    removes it. A failed write is dropped where the code drops it; [Panicked] is a counter
    that failed where the code unwraps it. *)
From S2P Require Import Prelude Order Maps Time Tokens.

Module Devices.
Import Tokens.

(** [ruma]'s [Device], less its id. *)
Record Device := mkDevice {
  display_name : option string;
  last_seen_ip : option string;
  last_seen_ts : option Z
}.

Record Deactivation := mkDeactivation { deactivated_at : Z; by_ : option string }.

(** Rows of accounts and devices; [userid_password] is empty for no password. *)
Record Users := mkUsers {
  userid_password : gmap string string;
  userid_deactivated : gmap string Deactivation;
  userdeviceid_metadata : gmap Owner Device;
  oidcdevice_userdeviceid : gmap Owner string;
  userid_devicelistversion : gmap string Z;
  keychangeid_userid : gmap (string * Z) string
}.

(** What is kept for a device elsewhere: by count, key id, algorithm, connection. *)
Record Rows := mkRows {
  todeviceid_events : gmap (Owner * Z) string;
  onetimekeyid_onetimekeys : gmap (Owner * string) string;
  fallbackkeyid_fallbackkey : gmap (Owner * string) string;
  keyid_key : gmap Owner string;
  connections : gmap (Owner * string) string;
  slidingsync : gmap (Owner * string) string;
  senderkey_pusher : gmap (string * string) string;
  pushkey_deviceid : gmap string string
}.

Record State := mkState {
  toks : Tokens.State;
  logins : gmap string (Z * string);
  openids : gmap string (Z * string);
  users : Users;
  rows : Rows
}.

Definition with_toks (t : Tokens.State) (s : State) := mkState t (logins s) (openids s) (users s) (rows s).
Definition with_logins (m : gmap string (Z * string)) (s : State) := mkState (toks s) m (openids s) (users s) (rows s).
Definition with_openids (m : gmap string (Z * string)) (s : State) := mkState (toks s) (logins s) m (users s) (rows s).
Definition with_users (u : Users) (s : State) := mkState (toks s) (logins s) (openids s) u (rows s).
Definition with_rows (r : Rows) (s : State) := mkState (toks s) (logins s) (openids s) (users s) r.

Definition with_metadata (m : gmap Owner Device) (u : Users) :=
  mkUsers (userid_password u) (userid_deactivated u) m (oidcdevice_userdeviceid u) (userid_devicelistversion u)
    (keychangeid_userid u).

(** The rows a removal may fail to remove, one by one. *)
Inductive Row :=
  | EventRow (count : Z) | OneTimeRow (id : string) | FallbackRow (algorithm : string) | KeyRow
  | SyncRow (connection : string) | PusherRow (pushkey : string) | PushDeviceRow (pushkey : string)
  | VersionRow | MetadataRow | OidcRow | ChangeRow (room_or_user : string) | PasswordRow | DeactivatedRow | IdpRow.

(** The clock and the answers to token transactions ([tok]), to other writes and from
    the counter. *)
Record Env := mkEnv { tok : Tokens.Env; row_ok : Row -> bool; count : option Z }.

Definition now (e : Env) : Z := Tokens.now (tok e).

(** A write to another row whose failure is dropped. *)
Definition put {S} (e : Env) (r : Row) (s s' : S) : S := if row_ok e r then s' else s.

Section Ops.
Context (cfg : Config) (server_user : string) (local : string -> bool).
(** [hash::password], and the encrypted rooms a user has joined. *)
Context (hash : string -> option string) (encrypted_rooms : string -> list string).

(** ** Accounts *)

Definition exists_ (u : string) (s : State) : bool := bool_decide (is_Some (userid_password (users s) !! u)).

Definition is_deactivated (u : string) (s : State) : result error bool :=
  if bool_decide (is_Some (userid_deactivated (users s) !! u)) then Ok true else
  if negb (exists_ u s) then Err NotFound else Ok false.

Definition has_password (u : string) (s : State) : bool :=
  match userid_password (users s) !! u with Some h => negb (String.eqb h "") | None => false end.

Definition is_active (u : string) (s : State) : bool :=
  if String.eqb u server_user then has_password u s else
  match is_deactivated u s with Ok b => negb b | Err _ => false end.

Definition is_guest (u : string) (s : State) : bool :=
  if String.eqb u server_user || negb (local u) then false else
  match userid_password (users s) !! u with Some h => String.eqb h "" | None => false end &&
  match is_deactivated u s with Ok b => negb b | Err _ => false end.

Definition with_password (m : gmap string string) (u : Users) :=
  mkUsers m (userid_deactivated u) (userdeviceid_metadata u) (oidcdevice_userdeviceid u)
    (userid_devicelistversion u) (keychangeid_userid u).
Definition with_deactivated (m : gmap string Deactivation) (u : Users) :=
  mkUsers (userid_password u) m (userdeviceid_metadata u) (oidcdevice_userdeviceid u)
    (userid_devicelistversion u) (keychangeid_userid u).

Definition set_password (e : Env) (u : string) (password : option string) (s : State) : State * result error unit :=
  match match password with None => Some "" | Some p => hash p end%string with
  | None => (s, Err InvalidParam)
  | Some h =>
      if row_ok e PasswordRow
      then (with_users (with_password (<[u := h]> (userid_password (users s))) (users s)) s, Ok ())
      else (s, Err Storage)
  end.

Definition mark_deactivated (e : Env) (u : string) (by_user : option string) (s : State) : State * result error unit :=
  if row_ok e DeactivatedRow
  then (with_users (with_deactivated (<[u := mkDeactivation (Time.now_millis (now e)) by_user]>
          (userid_deactivated (users s))) (users s)) s, Ok ())
  else (s, Err Storage).

Definition reactivate_account (e : Env) (u password : string) (s : State) : State * result error unit :=
  match is_deactivated u s with
  | Err err => (s, Err err)
  | Ok false => (s, Err InvalidParam)
  | Ok true =>
      and_then (set_password e u (Some password) s) (fun s =>
      if row_ok e DeactivatedRow
      then (with_users (with_deactivated (delete u (userid_deactivated (users s))) (users s)) s, Ok ())
      else (s, Err Storage))
  end.

(** ** Devices *)

Definition with_versions (m : gmap string Z) (u : Users) :=
  mkUsers (userid_password u) (userid_deactivated u) (userdeviceid_metadata u) (oidcdevice_userdeviceid u) m
    (keychangeid_userid u).
Definition with_changes (m : gmap (string * Z) string) (u : Users) :=
  mkUsers (userid_password u) (userid_deactivated u) (userdeviceid_metadata u) (oidcdevice_userdeviceid u)
    (userid_devicelistversion u) m.
Definition with_oidc (m : gmap Owner string) (u : Users) :=
  mkUsers (userid_password u) (userid_deactivated u) (userdeviceid_metadata u) m (userid_devicelistversion u)
    (keychangeid_userid u).

(** [increment]: one more than the stored count, modulo 2^64. *)
Definition increment (e : Env) (u : string) (s : State) : State :=
  let new := as_u64 (default 0 (userid_devicelistversion (users s) !! u) + 1) in
  put e VersionRow s (with_users (with_versions (<[u := new]> (userid_devicelistversion (users s))) (users s)) s).

Definition has_metadata (o : Owner) (s : State) : bool := bool_decide (is_Some (userdeviceid_metadata (users s) !! o)).

Definition set_access_token (e : Env) (o : Owner) (t : string) (expires_in : option Z) (r : option string) (s : State) :
    State * result error unit :=
  let '(t, res) := Tokens.set_access_token cfg (tok e) (has_metadata o s) o t expires_in r (toks s) in
  (with_toks t s, res).

Definition create_device (e : Env) (o : Owner) (t : string) (name ip : option string) (s : State) :
    State * result error unit :=
  if negb (exists_ o.1 s) then (s, Err InvalidParam) else
  let s := increment e o.1 s in
  let d := mkDevice name ip (Some (Time.now_millis (now e))) in
  let s := put e MetadataRow s (with_users (with_metadata (<[o := d]> (userdeviceid_metadata (users s))) (users s)) s) in
  set_access_token e o t None None s.

Definition update_device_metadata (e : Env) (o : Owner) (d : Device) (s : State) : State :=
  let s := increment e o.1 s in
  put e MetadataRow s (with_users (with_metadata (<[o := d]> (userdeviceid_metadata (users s))) (users s)) s).

(** The device ids of a user, in key order. *)
Definition all_device_ids (u : string) (s : State) : list string :=
  sort_by_key (fun d => d) ((fun o : Owner => o.2) <$>
    filter (fun o : Owner => o.1 = u) (fst <$> map_to_list (userdeviceid_metadata (users s)))).

Definition mark_device_key_update (e : Env) (u : string) (s : State) : State * result error unit :=
  match count e with
  | None => (s, Err Panicked)
  | Some c =>
      let mark (s : State) (id : string) :=
        put e (ChangeRow id) s (with_users (with_changes (<[(id, c) := u]> (keychangeid_userid (users s))) (users s)) s) in
      (mark (foldl mark s (encrypted_rooms u)) u, Ok ())
  end.

(** [delete_pusher]: the second row goes only if the first did. *)
Definition delete_pusher (e : Env) (u pushkey : string) (r : Rows) : Rows :=
  if negb (row_ok e (PusherRow pushkey)) then r else
  let devices := pushkey_deviceid r in
  mkRows (todeviceid_events r) (onetimekeyid_onetimekeys r) (fallbackkeyid_fallbackkey r) (keyid_key r)
    (connections r) (slidingsync r) (delete (u, pushkey) (senderkey_pusher r))
    (put e (PushDeviceRow pushkey) devices (delete pushkey devices)).

Definition get_pushkeys (u : string) (r : Rows) : list string :=
  sort_by_key (fun k => k) (snd <$> filter (fun k : string * string => k.1 = u) (fst <$> map_to_list (senderkey_pusher r))).

Definition delete_pushers (e : Env) (o : Owner) (r : Rows) : Rows :=
  foldl (fun r pushkey => if bool_decide (pushkey_deviceid r !! pushkey = Some o.2) then delete_pusher e o.1 pushkey r else r)
    r (get_pushkeys o.1 r).

(** [del_prefix] of the rows of one device. *)
Definition del_device {K V} `{Countable K} (e : Env) (o : Owner) (row : K -> Row) (m : gmap (Owner * K) V) :
    gmap (Owner * K) V :=
  filter (fun kv => ~ (kv.1.1 = o /\ row_ok e (row kv.1.2) = true)) m.

(** What is left to do once the tokens are gone. *)
Definition drop_device (e : Env) (o : Owner) (s : State) : State * result error unit :=
  let r := rows s in
  let r := mkRows (del_device e o EventRow (todeviceid_events r)) (del_device e o OneTimeRow (onetimekeyid_onetimekeys r))
    (del_device e o FallbackRow (fallbackkeyid_fallbackkey r)) (put e KeyRow (keyid_key r) (delete o (keyid_key r)))
    (filter (fun kv => kv.1.1 <> o) (connections r)) (del_device e o SyncRow (slidingsync r))
    (senderkey_pusher r) (pushkey_deviceid r) in
  let s := increment e o.1 (with_rows (delete_pushers e o r) s) in
  let s := put e MetadataRow s (with_users (with_metadata (delete o (userdeviceid_metadata (users s))) (users s)) s) in
  let s := put e OidcRow s (with_users (with_oidc (delete o (oidcdevice_userdeviceid (users s))) (users s)) s) in
  mark_device_key_update e o.1 s.

Definition remove_device (e : Env) (o : Owner) (s : State) : State * result error unit :=
  drop_device e o (with_toks (remove_tokens (tok e) o (toks s)) s).

(** Each device in turn; [e] answers for it. *)
Fixpoint remove_devices (e : string -> Env) (u : string) (ds : list string) (s : State) : State * result error unit :=
  match ds with
  | [] => (s, Ok ())
  | d :: ds => and_then (remove_device (e d) (u, d) s) (remove_devices e u ds)
  end.

Definition revoke_credentials (e : Env) (es : string -> Env) (u : string) (s : State) : State * result error unit :=
  and_then (remove_devices es u (all_device_ids u s) s) (set_password e u None).

Definition deactivate_account (e : Env) (es : string -> Env) (u : string) (by_user : option string) (s : State) :
    State * result error unit :=
  and_then (mark_deactivated e u by_user s) (revoke_credentials e es u).

End Ops.
End Devices.
