(* ===== verification/Sessions.v ===== *)
(** What the token of a request stands for, [phantom-api/src/router/auth/token.rs] and
    [scheme.rs], and the requests that make, exchange and revoke sessions:
    [client/auth/session/mod.rs], [refresh.rs], [logout.rs], [token.rs],
    [client/auth/openid.rs], [server/openid.rs], [oidc/token.rs] and [oidc/revoke.rs],
    over Devices.v. *)
From S2P Require Import Prelude Order Maps Time Tokens Devices.

Module Sessions.
Import Tokens Devices.

Section Requests.
Context (cfg : Config) (server_user : string) (local : string -> bool).
Context (hash : string -> option string) (encrypted_rooms : string -> list string).
Context (appservice : string -> bool).

#[local] Abbreviation set_access_token := (Devices.set_access_token cfg).
#[local] Abbreviation remove_device := (Devices.remove_device encrypted_rooms).

(** ** The token of a request *)

Inductive Token := TokenNone | Invalid | Expired | User (o : Owner) | Appservice.

Definition lookup (e : Env) (access_token : option string) (s : State) : Token :=
  match access_token with
  | None => TokenNone
  | Some t =>
      if appservice t then Appservice else
      if is_refresh_token t then Invalid else
      match find_from_token t (toks s) with
      | Ok (o, Some expires_at) => if Time.timepoint_has_passed (now e) expires_at then Expired else User o
      | Ok (o, None) => User o
      | Err _ => Invalid
      end
  end.

(** [Auth]: nobody, a user on a device, or an application service. *)
Inductive Auth := Anonymous | AuthUser (o : Owner) | AuthAppservice.

(** The schemes of requests by users and application services. *)
Inductive Scheme := NoAuthentication | AccessToken | AccessTokenOptional | AppserviceToken.

Definition anonymous (t : Token) : Auth :=
  match t with TokenNone | Invalid | Expired => Anonymous | User o => AuthUser o | Appservice => AuthAppservice end.

(** [as_user]: what [appservice::authenticate] answers. *)
Definition authenticate (scheme : Scheme) (as_user : result error Auth) (t : Token) : result error Auth :=
  match scheme, t with
  | NoAuthentication, t => Ok (anonymous t)
  | _, Invalid => Err (UnknownToken false)
  | _, Expired => Err (UnknownToken true)
  | AccessToken, TokenNone => Err MissingToken
  | AccessToken, User o => Ok (AuthUser o)
  | AccessToken, Appservice => as_user
  | AccessTokenOptional, t => Ok (anonymous t)
  | AppserviceToken, TokenNone => Err MissingToken
  | AppserviceToken, User _ => Err Unauthorized
  | AppserviceToken, Appservice => Ok AuthAppservice
  end.

Definition optional_user (e : Env) (bearer : option string) (s : State) : result error (option string) :=
  match lookup e bearer s with
  | User o => Ok (Some o.1)
  | Invalid => Err (UnknownToken false)
  | Expired => Err (UnknownToken true)
  | TokenNone | Appservice => Ok None
  end.

(** ** Exchanging a refresh token *)

(** Random texts drawn for an access and a refresh token. *)
Record Draw := mkDraw { draw_access : string; draw_refresh : string }.

(** An access token, a refresh token, and for how long the first is good. *)
Abbreviation Reply := (string * option string * option Z)%type.

Definition map_ok {A B} (f : A -> B) (r : State * result error A) : State * result error B :=
  match r with (s, Ok a) => (s, Ok (f a)) | (s, Err err) => (s, Err err) end.

(** A new pair of tokens for a device whose refresh token was current. *)
Definition exchange_current (e : Env) (w : Draw) (o : Owner) (s : State) : State * result error Reply :=
  let refresh_token := generate_refresh_token (draw_refresh w) in
  let '(access_token, expires_in) := generate_access_token cfg (draw_access w) true in
  map_ok (fun _ => (access_token, Some refresh_token, expires_in))
    (set_access_token e o access_token expires_in (Some refresh_token) s).

(** A new access token beside an unchanged refresh token. *)
Definition reissue_access (e : Env) (w : Draw) (o : Owner) (current : string) (s : State) : State * result error Reply :=
  let '(access_token, expires_in) := generate_access_token cfg (draw_access w) true in
  map_ok (fun _ => (access_token, Some current, expires_in)) (set_access_token e o access_token expires_in None s).

(** The session of an expired refresh token is ended, or softly. *)
Definition expire_refresh (e : Env) (o : Owner) (s : State) : State * result error unit :=
  if refresh_token_hard_logout cfg then remove_device e o s
  else (with_toks (remove_refresh_token (tok e) 0 o (toks s)).1 s, Ok ()).

(** The session of a replayed refresh token is ended, if so configured. *)
Definition replayed_refresh (e : Env) (o : Owner) (s : State) : State * result error unit :=
  if refresh_token_reuse_revoke cfg then remove_device e o s else (s, Ok ()).

Definition passed (e : Env) (t : option Z) : bool :=
  match t with Some t => Time.timepoint_has_passed (now e) t | None => false end.

Definition refresh_token_route (e : Env) (w : Draw) (presented : string) (s : State) : State * result error Reply :=
  if negb (is_refresh_token presented) then (s, Err Forbidden) else
  match classify_refresh_token cfg (tok e) presented (toks s) with
  | Current o expires_at =>
      if passed e expires_at
      then and_then (expire_refresh e o s) (fun s => (s, Err (UnknownToken (negb (refresh_token_hard_logout cfg)))))
      else exchange_current e w o s
  | Replayed o current true => reissue_access e w o current s
  | Replayed o _ false =>
      and_then (replayed_refresh e o s) (fun s => (s, Err (UnknownToken (negb (refresh_token_reuse_revoke cfg)))))
  | Unrecognised => (s, Err Forbidden)
  end.

(** The token endpoint of the OIDC server. *)
Definition token_refresh (e : Env) (w : Draw) (presented : option string) (s : State) : State * result error Reply :=
  match presented with
  | None => (s, Err InvalidParam)
  | Some presented =>
      match classify_refresh_token cfg (tok e) presented (toks s) with
      | Current o expires_at =>
          if passed e expires_at then and_then (expire_refresh e o s) (fun s => (s, Err Forbidden))
          else exchange_current e w o s
      | Replayed o current true => reissue_access e w o current s
      | Replayed o _ false => and_then (replayed_refresh e o s) (fun s => (s, Err Forbidden))
      | Unrecognised => (s, Err Forbidden)
      end
  end.

(** ** Ending sessions *)

Definition revoke (e : Env) (token hint : option string) (s : State) : State * result error unit :=
  match token with
  | None | Some EmptyString => (s, Err InvalidRequest)
  | Some token =>
      if match hint with
         | Some h => negb (String.eqb h "access_token" || String.eqb h "refresh_token")
         | None => false
         end then (s, Err UnsupportedTokenType) else
      match find_from_token token (toks s) with
      | Ok (o, _) => map_ok (fun _ => ()) (remove_device e o s)
      | Err _ => (s, Ok ())
      end
  end.

Definition logout_route (e : Env) (o : Owner) (s : State) : State * result error unit := remove_device e o s.

Definition logout_all_route (es : string -> Env) (u : string) (s : State) : State * result error unit :=
  remove_devices encrypted_rooms es u (all_device_ids u s) s.

(** ** Logging in *)

(** A login token, redeemed. *)
Definition handle_login_token (e : Env) (login_via_token : bool) (token : string) (s : State) :
    State * result error string :=
  if negb login_via_token then (s, Err Unknown) else
  let '(m, r) := find_from_login_token (tok e) token (logins s) in (with_logins m s, r).

Definition login_token_route (e : Env) (enabled : bool) (u token : string) (s : State) : State * result error Z :=
  if negb enabled then (s, Err Forbidden) else
  if negb (local u && is_active server_user u s) then (s, Err UserDeactivated) else
  let '(m, expires_in) := create_login_token cfg (tok e) u token (logins s) in (with_logins m s, Ok expires_in).

(** ** OpenID tokens *)

Definition create_openid_token_route (e : Env) (sender_user user_id access_token : string) (s : State) :
    State * result error Z :=
  if negb (String.eqb sender_user user_id) then (s, Err InvalidParam) else
  let '(m, expires_in) := create_openid_token cfg (tok e) user_id access_token (openids s) in
  (with_openids m s, Ok expires_in).

Definition get_openid_userinfo_route (e : Env) (access_token : string) (s : State) : State * result error string :=
  let '(m, r) := find_from_openid_token (tok e) (fun u => is_active server_user u s) access_token (openids s) in
  (with_openids m s, r).

(** The rest of a login, once the user is known; [e'] answers for the second writes. *)
Definition login_route (e e' : Env) (w : Draw) (u : string) (device : option string) (drawn_device : string)
    (name ip : option string) (refresh : bool) (s : State) : State * result error (Owner * Reply) :=
  if match is_deactivated u s with Ok b => b | Err _ => false end then (s, Err UserDeactivated) else
  let '(access_token, expires_in) := generate_access_token cfg (draw_access w) refresh in
  let refresh_token := if bool_decide (is_Some expires_in) then Some (generate_refresh_token (draw_refresh w)) else None in
  let existing := match device with Some d => bool_decide (d ∈ all_device_ids u s) | None => false end in
  let o := (u, default drawn_device device) in
  let created := if existing then (s, Ok ()) else create_device cfg e o access_token name ip s in
  and_then created (fun s =>
  map_ok (fun _ => (o, (access_token, refresh_token, expires_in)))
    (set_access_token e' o access_token expires_in refresh_token s)).

End Requests.
End Sessions.
