(* ===== verification/ToDevice.v ===== *)
(** Messages to devices, [phantom-service/src/accounts/users/to_device.rs], and the part
    of a sync that delivers them, [phantom-api/src/client/sync/v3.rs] and
    [v5/extensions/to_device.rs].

    A message is numbered by the server's counter (Short.v) and kept until the device
    syncs from a later batch. Rows are at the type of their keys, in key order; for the
    keys of one device that is the order of their numbers. *)
From stdpp Require Import functions.
From S2P Require Import Prelude Order Cursor.

Module ToDevice.
Import Cursor.Cursor.

Abbreviation Owner := (string * string)%type.
Abbreviation Row := (Owner * Z * string)%type.

(** [todeviceid_events] and the counter's number in memory. *)
Record State := mkState { events : gmap (Owner * Z) string; count : Z }.

Definition in_order (s : State) : list Row := sort_by_key fst (map_to_list (events s)).

(** [stream_from] and [rev_keys_from] *)
Definition stream_from (k : Owner * Z) (s : State) : list Row :=
  filter (fun r => ltb r.1 k = false) (in_order s).
Definition rev_keys_from (k : Owner * Z) (s : State) : list (Owner * Z) :=
  reverse (fst <$> filter (fun r => ltb k r.1 = false) (in_order s)).

(** [next_count], which panics at the end of its range, and the write of the row. *)
Definition next_count (s : State) : option (State * Z) :=
  n ← u64_checked_add (count s) 1; Some (mkState (events s) n, n).
Definition put_event (o : Owner) (n : Z) (event : string) (s : State) : State :=
  mkState (<[(o, n) := event]> (events s)) (count s).

(** The error of the write is dropped: [ok] says whether the row reached the database. *)
Definition add_to_device_event (ok : bool) (o : Owner) (event : string) (s : State) : option State :=
  '(s, n) ← next_count s; Some (if ok then put_event o n event s else s).

Definition get_to_device_events (o : Owner) (since to : option Z) (s : State) : list string :=
  let from := match since with Some n => u64_saturating_add n 1 | None => 0 end in
  snd <$> take_while (fun r : Row => bool_decide (r.1.1 = o) &&
    match to with Some to => r.1.2 <=? to | None => true end) (stream_from (o, from) s).

(** [ok k]: the deletion of the row reaches the database. *)
Definition remove_to_device_events (ok : Z -> bool) (o : Owner) (until : option Z) (s : State) : State :=
  let until := default u64_max until in
  mkState
    (foldl (fun m k => if ok k.2 then delete k m else m) (events s)
      (take_while (fun k : Owner * Z => bool_decide (k.1 = o)) (rev_keys_from (o, until) s)))
    (count s).

(** A round of [build_sync_events] for a device. *)
Definition build_sync_events (ok : Z -> bool) (o : Owner) (since next_batch : Z) (s : State) : State * list string :=
  (remove_to_device_events ok o (Some since) s, get_to_device_events o (Some since) (Some next_batch) s).

(** The round of [sync_events_route] after it took [next_batch] from the counter:
    nothing is built when nothing was numbered since. [Some] is a response, [None] a wait
    from the batch that was taken. *)
Definition sync_round (ok : Z -> bool) (o : Owner) (since next_batch : Z) (other : bool) (s : State) :
    State * Z * option (list string) :=
  let since := Z.min since next_batch in
  if since <? next_batch then
    let '(s, evs) := build_sync_events ok o since next_batch s in
    (s, next_batch, if bool_decide (evs = []) && negb other then None else Some evs)
  else (s, next_batch, None).

(** The sliding sync extension: the request's own token, or the connection's. *)
Definition collect (ok : Z -> bool) (o : Owner) (token : option Z) (globalsince next_batch : Z) (s : State) :
    State * option (list string * Z) :=
  let since := Z.min (default globalsince token) next_batch in
  let s := remove_to_device_events ok o (Some since) s in
  let evs := get_to_device_events o (Some since) (Some next_batch) s in
  (s, if bool_decide (evs = []) then None else Some (evs, next_batch)).

(** ** Reading a range of rows *)

Lemma take_while_filter {A} (p : A -> bool) l :
  StronglySorted (fun x y => p y = true -> p x = true) l -> take_while p l = filter (fun x => p x = true) l.
Proof.
  induction 1 as [|x l _ IH Hx]; cbn [take_while]; [done|]. destruct (p x) eqn:E.
  - rewrite filter_cons_True by done. by rewrite IH.
  - rewrite filter_cons_False by (by rewrite E). symmetry. apply filter_none.
    eapply Forall_impl; [exact Hx|]. cbn. intros y Hy Hp. specialize (Hy Hp). congruence.
Qed.

Lemma in_order_elem s o n ev : (o, n, ev) ∈ in_order s <-> events s !! (o, n) = Some ev.
Proof. unfold in_order. by rewrite sort_by_key_perm, elem_of_map_to_list. Qed.

Lemma key_order (o : Owner) n m : cmp (o, n) (o, m) = Z.compare n m.
Proof. rewrite cmp_pair. by rewrite cmp_refl. Qed.

Lemma ltb_own (o : Owner) n m : ltb (o, n) (o, m) = (n <? m).
Proof. unfold ltb. rewrite key_order. unfold Z.ltb. by destruct (n ?= m). Qed.

(** What lies between two keys of a device is a key of that device. *)
Lemma cmp_own_between (o o1 : Owner) n1 n2 m :
  ltb (o1, n1) (o, m) = false -> cmp (o1, n1) (o, n2) = Lt -> o1 = o /\ n1 < n2.
Proof.
  unfold ltb. rewrite !cmp_pair. destruct (cmp o1 o) eqn:E; cbn [then_cmp]; try done.
  apply cmp_eq in E as ->. intros _ H. by apply Z.compare_lt_iff in H.
Qed.

(** Rows sort strictly by key. *)
Lemma in_order_sorted s : StronglySorted (fun x y : Row => cmp x.1 y.1 = Lt) (in_order s).
Proof.
  assert (Hs : StronglySorted (key_le (A := Row) fst) (in_order s)) by apply sort_by_key_sorted.
  assert (Hd : NoDup (fst <$> in_order s)).
  { unfold in_order. rewrite sort_by_key_perm. apply NoDup_fst_map_to_list. }
  induction Hs as [|x l _ IH Hx]; [constructor|]. rewrite fmap_cons in Hd. inversion Hd as [|? ? Hn Hd']; subst.
  constructor; [auto|]. rewrite Forall_forall in Hx |- *. intros y Hy. specialize (Hx y Hy).
  apply ord_le_cases in Hx as [?|E]; [done|]. destruct Hn. rewrite E. by apply list_elem_of_fmap_2.
Qed.

(** The messages kept for a device, by number. *)
Definition mail (o : Owner) (s : State) : list (Z * string) :=
  (fun r : Row => (r.1.2, r.2)) <$> filter (fun r : Row => r.1.1 = o) (in_order s).

Lemma mail_elem o s n ev : (n, ev) ∈ mail o s <-> events s !! (o, n) = Some ev.
Proof.
  unfold mail. rewrite list_elem_of_fmap. rewrite <- in_order_elem. split.
  - intros ([[o' n'] ev'] & [= -> ->] & [Ho Hin]%list_elem_of_filter). cbn in Ho. by subst.
  - intros Hin. exists (o, n, ev). split; [done|]. by apply list_elem_of_filter.
Qed.

Lemma StronglySorted_fmap_filter {A B} (R : A -> A -> Prop) (R' : B -> B -> Prop) (P : A -> Prop)
    `{!forall x, Decision (P x)} (f : A -> B) l :
  StronglySorted R l -> (forall x y, P x -> P y -> R x y -> R' (f x) (f y)) -> StronglySorted R' (f <$> filter P l).
Proof.
  intros Hs HR. induction Hs as [|x l _ IH Hx]; [constructor|]. rewrite filter_cons. case_decide as Hp; [|done].
  rewrite fmap_cons. constructor; [done|]. apply Forall_fmap, Forall_forall. intros y [Hy Hin]%list_elem_of_filter.
  rewrite Forall_forall in Hx. cbn. by apply HR; [..|apply Hx].
Qed.

Lemma StronglySorted_rev {A} (R : A -> A -> Prop) l :
  StronglySorted (fun x y => R y x) l -> StronglySorted R (reverse l).
Proof.
  induction 1 as [|x l _ IH Hx]; [constructor|]. rewrite reverse_cons. apply StronglySorted_snoc; [done|].
  by apply Forall_reverse.
Qed.

Lemma StronglySorted_filter_weaken {A} (R R' : A -> A -> Prop) (P : A -> Prop) `{!forall x, Decision (P x)} l :
  StronglySorted R l -> (forall x y, P x -> P y -> R x y -> R' x y) -> StronglySorted R' (filter P l).
Proof. intros Hs HR. rewrite <- (list_fmap_id (filter P l)). by eapply (StronglySorted_fmap_filter R R' P id). Qed.

Lemma mail_sorted o s : StronglySorted (fun x y => x.1 < y.1) (mail o s).
Proof.
  apply (StronglySorted_fmap_filter (fun x y : Row => cmp x.1 y.1 = Lt)); [apply in_order_sorted|].
  intros [[o1 n1] e1] [[o2 n2] e2]. cbn. intros -> -> H. rewrite key_order in H. by apply Z.compare_lt_iff in H.
Qed.

Lemma filter_fmap {A B} (f : A -> B) (P : B -> Prop) `{!forall x, Decision (P x)} (l : list A) :
  filter P (f <$> l) = f <$> filter (fun x => P (f x)) l.
Proof.
  induction l as [|x l IH]; [done|]. rewrite fmap_cons, !filter_cons. case_decide; [|done]. by rewrite fmap_cons, IH.
Qed.

(** What a range of numbers delivers. *)
Lemma get_spec o since to s :
  0 <= since < u64_max ->
  get_to_device_events o (Some since) (Some to) s =
    snd <$> filter (fun m : Z * string => since < m.1 <= to) (mail o s).
Proof.
  intros Hs. unfold get_to_device_events, stream_from, mail.
  assert (u64_saturating_add since 1 = since + 1) as -> by int_solve.
  rewrite take_while_filter.
  - rewrite filter_fmap, <- list_fmap_compose, !list_filter_filter. f_equal.
    apply list_filter_iff. intros [[o' n] ev]. cbn. rewrite andb_true_iff, bool_decide_eq_true.
    split; [intros [[-> Hn] Hlt]|intros [Hn ->]]; rewrite ltb_own in *; split_and!; done || lia.
  - eapply (StronglySorted_filter_weaken (fun x y : Row => cmp x.1 y.1 = Lt)); [apply in_order_sorted|].
    intros [[o1 n1] e1] [[o2 n2] e2] H1 H2 Hlt. cbn in *. rewrite !andb_true_iff, !bool_decide_eq_true.
    intros [-> Hn2]. apply Z.leb_le in Hn2.
    destruct (cmp_own_between o o1 n1 n2 (since + 1) H1 Hlt) as [-> Hle]. split; [done|lia].
Qed.

(** Deleting up to a number. *)
Lemma remove_spec ok o until s o' n :
  events (remove_to_device_events ok o (Some until) s) !! (o', n) =
    if decide (o' = o /\ n <= until /\ ok n = true) then None else events s !! (o', n).
Proof.
  unfold remove_to_device_events, rev_keys_from. cbn [events default].
  assert (Hfold : forall ks (m : gmap (Owner * Z) string),
    foldl (fun m k => if ok k.2 then delete k m else m) m ks !! (o', n) =
      if decide ((o', n) ∈ ks /\ ok n = true) then None else m !! (o', n)).
  { induction ks as [|k ks IH]; intros m; cbn [foldl].
    - rewrite decide_False; [done|]. intros [H _]. by apply not_elem_of_nil in H.
    - rewrite IH. destruct (decide (k = (o', n))) as [->|Hne]; cbn [snd].
      + destruct (ok n) eqn:Eok; [rewrite lookup_delete_eq; rewrite (decide_True (P := (_ ∈ _ :: _) /\ _)) by set_solver;
          by case_decide|]. apply decide_ext. naive_solver.
      + destruct (ok k.2); [rewrite lookup_delete_ne by done|]; apply decide_ext; set_solver. }
  rewrite Hfold. rewrite take_while_filter.
  - destruct (events s !! (o', n)) as [ev|] eqn:E; [|by repeat case_decide].
    apply decide_ext. rewrite list_elem_of_filter, elem_of_reverse, list_elem_of_fmap, bool_decide_eq_true. cbn [fst].
    split.
    + intros [[-> ([[o1 n1] e1] & [= <- <-] & [Hlt _]%list_elem_of_filter)] Hok]. cbn in Hlt. rewrite ltb_own in Hlt.
      split_and!; done || lia.
    + intros (-> & Hn & Hok). split_and!; try done. exists (o, n, ev). split; [done|]. apply list_elem_of_filter.
      cbn. rewrite ltb_own. split; [lia|]. by apply in_order_elem.
  - apply StronglySorted_rev.
    apply (StronglySorted_fmap_filter (fun x y : Row => cmp x.1 y.1 = Lt)); [apply in_order_sorted|].
    intros [[o1 n1] e1] [[o2 n2] e2]. cbn. rewrite !bool_decide_eq_true. intros _ H2 Hlt ->.
    unfold ltb in H2. rewrite !cmp_pair in *. destruct (cmp o o2) eqn:Ec; cbn [then_cmp] in *; try done.
    by apply cmp_eq in Ec as ->.
Qed.

Lemma sorted_same (l k : list (Z * string)) :
  StronglySorted (fun x y => x.1 < y.1) l -> StronglySorted (fun x y => x.1 < y.1) k ->
  (forall x, x ∈ l <-> x ∈ k) -> l = k.
Proof.
  intros Hl Hk H. assert (Hd : forall l : list (Z * string), StronglySorted (fun x y => x.1 < y.1) l -> NoDup l).
  { induction 1 as [|x l' _ IH Hx]; constructor; [|done]. intros Hin. rewrite Forall_forall in Hx. by apply (Z.lt_irrefl x.1), Hx. }
  eapply StronglySorted_unique_strong; [|exact Hl|exact Hk|apply NoDup_Permutation; auto]. intros x1 x2 _ _ H1 H2. cbn in *. lia.
Qed.

(** What the extension of sliding sync delivers: the messages after the token it has,
    which deleting up to the token leaves alone. *)
Theorem collect_exact ok o token globalsince next_batch s :
  let since := Z.min (default globalsince token) next_batch in
  0 <= since < u64_max ->
  (collect ok o token globalsince next_batch s).2 =
    let evs := snd <$> filter (fun m : Z * string => since < m.1 <= next_batch) (mail o s) in
    if bool_decide (evs = []) then None else Some (evs, next_batch).
Proof.
  intros since Hs. unfold collect. fold since. cbn [snd]. rewrite get_spec by done.
  assert (filter (fun m : Z * string => since < m.1 <= next_batch) (mail o (remove_to_device_events ok o (Some since) s)) =
    filter (fun m : Z * string => since < m.1 <= next_batch) (mail o s)) as ->; [|done].
  apply sorted_same; try (eapply StronglySorted_filter_weaken; [apply mail_sorted|done]).
  intros [n ev]. rewrite !list_elem_of_filter, !mail_elem, remove_spec. cbn [fst].
  split; intros [Hn Hx]; (split; [done|]); rewrite decide_False in * by lia; done.
Qed.

(** ** Senders, the server and devices that sync *)

(** A device: the batch it has, the batch its request syncs from, the batch the round of
    its request took, the response on its way, and what it has received. *)
Record Client := mkClient {
  acked : Z; since : Z; batch : option Z; reply : option (list string * Z); received : list string
}.

(** [flight]: the messages senders have drawn a number for and not yet written; [sent]:
    those whose row reached the database, by number; [late]: the numbers of those that were
    not written when a round of their device read its batch past them. *)
Record System := mkSystem {
  srv : State;
  clients : Owner -> Client;
  flight : gmap nat (Z * (Owner * string));
  sent : gmap Z (Owner * string);
  late : gset Z
}.

(** The two halves of a send by task [t], the requests of devices, the two halves of a
    round, and a response that arrives. *)
Inductive op :=
  | Draw (t : nat) (o : Owner) (event : string)
  | Write (t : nat) (ok : bool)
  | Request (o : Owner)
  | Take (o : Owner)
  | Round (ok : Z -> bool) (o : Owner) (other woken : bool)
  | Receive (o : Owner).

(** The numbers drawn for [o] up to [hi] whose rows are not written yet. *)
Definition unwritten (o : Owner) (hi : Z) (f : gmap nat (Z * (Owner * string))) : gset Z :=
  list_to_set ((fun m : nat * (Z * (Owner * string)) => m.2.1) <$>
    filter (fun m : nat * (Z * (Owner * string)) => m.2.2.1 = o /\ m.2.1 <= hi) (map_to_list f)).

Definition set_client (o : Owner) (c : Client) (y : System) : System :=
  mkSystem (srv y) (<[o := c]> (clients y)) (flight y) (sent y) (late y).

Definition exec (y : System) (a : op) : System :=
  match a with
  | Draw t o ev =>
      match flight y !! t, next_count (srv y) with
      | None, Some (s, n) =>
          mkSystem s (clients y) (<[t := (n, (o, ev))]> (flight y)) (sent y) (late y)
      | _, _ => y
      end
  | Write t ok =>
      match flight y !! t with
      | Some (n, (o, ev)) =>
          if ok then mkSystem (put_event o n ev (srv y)) (clients y) (delete t (flight y))
                       (<[n := (o, ev)]> (sent y)) (late y)
          else mkSystem (srv y) (clients y) (delete t (flight y)) (sent y) (late y)
      | None => y
      end
  | Request o =>
      let c := clients y o in set_client o (mkClient (acked c) (acked c) None None (received c)) y
  | Take o =>
      let c := clients y o in
      match reply c with
      | Some _ => y
      | None => set_client o (mkClient (acked c) (since c) (Some (count (srv y))) None (received c)) y
      end
  | Round ok o other woken =>
      let c := clients y o in
      match reply c, batch c with
      | None, Some next =>
          let '(s, next, r) := sync_round ok o (since c) next other (srv y) in
          let answer := match r with Some evs => Some (evs, next) | None => if woken then None else Some ([], next) end in
          mkSystem s (<[o := mkClient (acked c) next None answer (received c)]> (clients y))
            (flight y) (sent y) (unwritten o next (flight y) ∪ late y)
      | _, _ => y
      end
  | Receive o =>
      let c := clients y o in
      match reply c with
      | None => y
      | Some (evs, next) => set_client o (mkClient next next None None (received c ++ evs)) y
      end
  end.

Definition start : System := mkSystem (mkState ∅ 0) (fun _ => mkClient 0 0 None None []) ∅ ∅ ∅.
Definition run : list op -> System := foldl exec start.

Lemma unwritten_elem o hi f n :
  n ∈ unwritten o hi f <-> n <= hi /\ exists t ev, f !! t = Some (n, (o, ev)).
Proof.
  unfold unwritten. rewrite elem_of_list_to_set, list_elem_of_fmap. split.
  - intros ([t [n' [o' ev]]] & -> & [[Ho Hn] Hin]%list_elem_of_filter). cbn in *. subst.
    apply elem_of_map_to_list in Hin. eauto.
  - intros (Hn & t & ev & Hf). exists (t, (n, (o, ev))). split; [done|].
    apply list_elem_of_filter. split; [done|]. by apply elem_of_map_to_list.
Qed.

(** [l] is what a device gets of the messages numbered in [(lo, hi]]: sent to it, in the
    order of their numbers, and all of them but late ones. *)
Record delivery (y : System) (o : Owner) (lo hi : Z) (l : list (Z * string)) : Prop := {
  delivery_sorted : StronglySorted (fun x y => x.1 < y.1) l;
  delivery_sound n ev : (n, ev) ∈ l -> lo < n <= hi /\ sent y !! n = Some (o, ev);
  delivery_all n ev : sent y !! n = Some (o, ev) -> n ∉ late y -> lo < n <= hi -> (n, ev) ∈ l
}.

Lemma delivery_app y o lo mid hi l l' :
  lo <= mid <= hi -> delivery y o lo mid l -> delivery y o mid hi l' -> delivery y o lo hi (l ++ l').
Proof.
  intros Hm [S1 O1 A1] [S2 O2 A2]. split.
  - apply StronglySorted_app_2; [|done|done]. intros [n ev] [n' ev'] Hx%O1 Hy%O2. cbn. lia.
  - intros n ev [Hx|Hx]%elem_of_app; [apply O1 in Hx as [? ?]|apply O2 in Hx as [? ?]]; (split; [lia|done]).
  - intros n ev Hs Hl Hn. apply elem_of_app. destruct (decide (n <= mid)); [left; apply A1|right; apply A2]; done || lia.
Qed.

Lemma delivery_nil y o lo hi :
  (forall n ev, sent y !! n = Some (o, ev) -> n ∉ late y -> lo < n <= hi -> False) -> delivery y o lo hi [].
Proof.
  intros Hn. split; [constructor|intros ? ? Hx; by apply not_elem_of_nil in Hx|].
  intros n ev Hs Hl Hr. by destruct (Hn n ev).
Qed.

(** More messages are written, or more become late. *)
Lemma delivery_mono y y' o lo hi l :
  (forall n m, sent y !! n = Some m -> sent y' !! n = Some m) -> late y ⊆ late y' ->
  (forall n m, sent y' !! n = Some m -> n ∉ late y' -> n <= hi -> m.1 = o -> sent y !! n = Some m) ->
  delivery y o lo hi l -> delivery y' o lo hi l.
Proof.
  intros Hs Hl Hn [S O A]. split; [done| |].
  - intros n ev Hx. apply O in Hx as [? ?]. auto.
  - intros n ev Hx Hlate Hr. apply A; [|set_solver|done]. apply Hn; [done|done|lia|done].
Qed.

Record Inv (y : System) : Prop := {
  inv_count : 0 <= count (srv y) <= u64_max;
  inv_sent n m : sent y !! n = Some m -> 0 < n <= count (srv y);
  inv_flight t n m : flight y !! t = Some (n, m) -> 0 < n <= count (srv y) /\ sent y !! n = None;
  inv_apart t t' n m m' : flight y !! t = Some (n, m) -> flight y !! t' = Some (n, m') -> t = t';
  inv_rows o n ev : events (srv y) !! (o, n) = Some ev -> sent y !! n = Some (o, ev);
  inv_kept o n ev : sent y !! n = Some (o, ev) -> n ∉ late y -> acked (clients y o) < n ->
    events (srv y) !! (o, n) = Some ev;
  inv_batch o : 0 <= acked (clients y o) <= since (clients y o) /\ since (clients y o) <= count (srv y);
  inv_taken o next : batch (clients y o) = Some next -> since (clients y o) <= next <= count (srv y);
  inv_ahead t o n ev : flight y !! t = Some (n, (o, ev)) -> n ∈ late y \/ since (clients y o) < n;
  inv_reply o : match reply (clients y o) with
    | None => forall n ev, sent y !! n = Some (o, ev) -> n ∉ late y -> acked (clients y o) < n ->
        since (clients y o) < n
    | Some (evs, next) => since (clients y o) = next /\
        exists l, evs = snd <$> l /\ delivery y o (acked (clients y o)) next l
    end;
  inv_received o : exists l, received (clients y o) = snd <$> l /\ delivery y o 0 (acked (clients y o)) l
}.

Lemma inv_draw y t o ev : Inv y -> Inv (exec y (Draw t o ev)).
Proof.
  intros I. cbn [exec]. destruct (flight y !! t) eqn:Et; [done|]. unfold next_count.
  destruct (u64_checked_add (count (srv y)) 1) as [m|] eqn:Em; [|done]. cbn.
  apply in_range_Some in Em as [-> Hm]. pose proof (inv_count y I) as Hc.
  assert (Hnew : sent y !! (count (srv y) + 1) = None).
  { destruct (sent y !! _) eqn:E; [|done]. apply (inv_sent y I) in E. lia. }
  split; cbn [srv clients flight sent late count events]; try apply I.
  - lia.
  - intros n m' Hs%(inv_sent y I). lia.
  - intros t' n m' [[<- [= <- <-]]|[_ Hf]]%lookup_insert_Some; [split; [lia|done]|].
    apply (inv_flight y I) in Hf as [? ?]. split; [lia|done].
  - intros t1 t2 n m1 m2 [[<- [= <- <-]]|[_ H1]]%lookup_insert_Some [[<- E]|[_ H2]]%lookup_insert_Some;
      [done| | |by eapply (inv_apart y I)].
    + apply (inv_flight y I) in H2. lia.
    + injection E as <- <-. apply (inv_flight y I) in H1. lia.
  - intros o'. pose proof (inv_batch y I o'). lia.
  - intros o' next Hb%(inv_taken y I). lia.
  - intros t' o' n ev' [[<- [= <- <- <-]]|[_ Hf]]%lookup_insert_Some; [|by eapply (inv_ahead y I)].
    right. pose proof (inv_batch y I o). lia.
  - intros o'. pose proof (inv_reply y I o') as Hr. destruct (reply (clients y o')) as [[evs next]|]; [|done].
    destruct Hr as [Hs (l & -> & Hl)]. split; [done|]. exists l. split; [done|]. by eapply (delivery_mono y).
  - intros o'. destruct (inv_received y I o') as (l & Hl & Hdl). exists l. split; [done|].
    by eapply (delivery_mono y).
Qed.

(** A write adds one message, which is late or beyond what its device synced from. *)
Lemma inv_write_ok y t n o ev :
  Inv y -> flight y !! t = Some (n, (o, ev)) ->
  Inv (mkSystem (put_event o n ev (srv y)) (clients y) (delete t (flight y)) (<[n := (o, ev)]> (sent y)) (late y)).
Proof.
  intros I Hf. destruct (inv_flight y I _ _ _ Hf) as [Hn Hnew].
  pose proof (inv_ahead y I _ _ _ _ Hf) as Hahead.
  set (y' := mkSystem _ _ _ _ _).
  assert (Hd : forall o' lo hi l, hi <= since (clients y o') -> delivery y o' lo hi l -> delivery y' o' lo hi l).
  { intros o' lo hi l Hhi. apply delivery_mono; [|done|]; cbn.
    - intros n' m Hs. rewrite lookup_insert_ne; [done|]. intros ->. congruence.
    - intros n' m [[<- <-]|[_ ?]]%lookup_insert_Some Hl Hle Ho; [|done]. cbn in Ho. subst o'.
      destruct Hahead; [done|lia]. }
  split; cbn [y' srv clients flight sent late count events put_event]; try apply I.
  - intros n' m [[<- <-]|[_ Hs]]%lookup_insert_Some; [done|by apply (inv_sent y I) in Hs].
  - intros t' n' m [Hne Hf']%lookup_delete_Some. destruct (inv_flight y I _ _ _ Hf') as [? ?].
    split; [done|]. rewrite lookup_insert_ne; [done|]. intros <-. apply Hne. by eapply (inv_apart y I).
  - intros t1 t2 n' m1 m2 [_ H1]%lookup_delete_Some [_ H2]%lookup_delete_Some. by eapply (inv_apart y I).
  - intros o' n' ev' [[[= <- <-] <-]|[Hne Hx]]%lookup_insert_Some; [by rewrite lookup_insert_eq|].
    apply (inv_rows y I) in Hx. rewrite lookup_insert_ne; [done|]. intros ->. congruence.
  - intros o' n' ev' [[<- [= <- <-]]|[Hne Hs]]%lookup_insert_Some Hl Ha; [by rewrite lookup_insert_eq|].
    rewrite lookup_insert_ne; [by apply (inv_kept y I)|]. congruence.
  - intros t' o' n' ev' [_ Hf']%lookup_delete_Some. by eapply (inv_ahead y I).
  - intros o'. pose proof (inv_reply y I o') as Hr. destruct (reply (clients y o')) as [[evs next]|].
    + destruct Hr as [Hs (l & -> & Hl)]. split; [done|]. exists l. split; [done|]. apply Hd; [lia|done].
    + intros n' ev' [[<- [= <- <-]]|[_ Hs]]%lookup_insert_Some Hl Ha; [by destruct Hahead|by eapply Hr].
  - intros o'. destruct (inv_received y I o') as (l & Hl & Hdl). exists l. split; [done|].
    apply Hd; [apply (inv_batch y I)|done].
Qed.

Lemma inv_write y t ok : Inv y -> Inv (exec y (Write t ok)).
Proof.
  intros I. cbn [exec]. destruct (flight y !! t) as [[n [o ev]]|] eqn:Hf; [|done].
  destruct ok; [by apply inv_write_ok|]. destruct I as [? ? Hfl Hap ? ? ? ? Hah Hr Hrec].
  split; cbn [srv clients flight sent late]; try done.
  - intros t' n' m [_ Hf']%lookup_delete_Some. by eapply Hfl.
  - intros t1 t2 n' m1 m2 [_ H1]%lookup_delete_Some [_ H2]%lookup_delete_Some. by eapply Hap.
  - intros t' o' n' ev' [_ Hf']%lookup_delete_Some. by eapply Hah.
  - intros o'. specialize (Hr o'). destruct (reply (clients y o')) as [[evs next]|]; [|done].
    destruct Hr as [Hs (l & -> & Hl)]. split; [done|]. exists l. split; [done|].
    by eapply (delivery_mono y).
  - intros o'. destruct (Hrec o') as (l & Hl & Hdl). exists l. split; [done|]. by eapply (delivery_mono y).
Qed.

(** One device's side changed, and more of its messages may be late. *)
Lemma inv_client y s' o c late' :
  Inv y -> count s' = count (srv y) -> late y ⊆ late' ->
  (forall o' n, o' <> o -> events s' !! (o', n) = events (srv y) !! (o', n)) ->
  (forall n ev, events s' !! (o, n) = Some ev -> events (srv y) !! (o, n) = Some ev) ->
  (forall n ev, sent y !! n = Some (o, ev) -> n ∉ late' -> acked c < n -> events s' !! (o, n) = Some ev) ->
  0 <= acked c <= since c -> since c <= count s' ->
  (forall next, batch c = Some next -> since c <= next <= count s') ->
  (forall t n ev, flight y !! t = Some (n, (o, ev)) -> n ∈ late' \/ since c < n) ->
  let y' := mkSystem s' (<[o := c]> (clients y)) (flight y) (sent y) late' in
  match reply c with
  | None => forall n ev, sent y !! n = Some (o, ev) -> n ∉ late' -> acked c < n -> since c < n
  | Some (evs, next) => since c = next /\ exists l, evs = snd <$> l /\ delivery y' o (acked c) next l
  end ->
  (exists l, received c = snd <$> l /\ delivery y' o 0 (acked c) l) -> Inv y'.
Proof.
  intros I Hc Hlate Hrows Hsub Hkept Hb1 Hb2 Hbt Hah y' Hrep Hrec. pose proof (inv_count y I).
  assert (Hd : forall o' lo hi l, delivery y o' lo hi l -> delivery y' o' lo hi l).
  { intros. by eapply (delivery_mono y). }
  assert (Hown : forall o', o' = o /\ clients y' o' = c \/ o' <> o /\ clients y' o' = clients y o').
  { intros o'. cbn. destruct (decide (o' = o)) as [->|Hne]; [left; by rewrite fn_lookup_insert|right].
    by rewrite fn_lookup_insert_ne. }
  split; try (cbn; rewrite Hc; lia); try apply I.
  - cbn. intros n m. rewrite Hc. apply I.
  - cbn. intros t n m. rewrite Hc. apply I.
  - cbn. intros o' n ev Hx. apply (inv_rows y I). destruct (decide (o' = o)) as [->|Hne]; [auto|by rewrite <-Hrows].
  - intros o' n ev. destruct (Hown o') as [[-> ->]|[Hne ->]]; [apply Hkept|]. cbn. intros Hs Hl Ha.
    rewrite Hrows by done. apply (inv_kept y I); [done|set_solver|done].
  - intros o'. destruct (Hown o') as [[-> ->]|[Hne ->]]; [done|]. cbn. rewrite Hc. apply I.
  - intros o'. destruct (Hown o') as [[-> ->]|[Hne ->]]; [done|]. cbn. rewrite Hc. apply I.
  - intros t o' n ev Hf. destruct (Hown o') as [[-> ->]|[Hne ->]]; [by eapply Hah|].
    destruct (inv_ahead y I _ _ _ _ Hf); [left; set_solver|by right].
  - intros o'. destruct (Hown o') as [[-> ->]|[Hne ->]]; [done|].
    pose proof (inv_reply y I o') as Hr. destruct (reply (clients y o')) as [[evs next]|].
    + destruct Hr as [Hs (l & -> & Hl)]. split; [done|]. exists l. auto.
    + intros n ev Hs Hl. apply (Hr n ev); [done|set_solver].
  - intros o'. destruct (Hown o') as [[-> ->]|[Hne ->]]; [done|].
    destruct (inv_received y I o') as (l & Hl & Hdl). exists l. auto.
Qed.

(** What a round reads is what was sent in its range and is not late. *)
Lemma round_reads y o next :
  Inv y -> reply (clients y o) = None -> since (clients y o) < next <= count (srv y) ->
  exists l, get_to_device_events o (Some (since (clients y o))) (Some next) (srv y) = snd <$> l /\
    delivery y o (acked (clients y o)) next l.
Proof.
  intros I Hr Hlt. pose proof (inv_batch y I o). pose proof (inv_count y I). pose proof (inv_reply y I o) as Hrep.
  rewrite Hr in Hrep. rewrite get_spec by lia. eexists. split; [done|]. split.
  - eapply StronglySorted_filter_weaken; [apply mail_sorted|]. done.
  - intros n ev [Hn Hx%mail_elem%(inv_rows y I)]%list_elem_of_filter. cbn in Hn. split; [lia|done].
  - intros n ev Hs Hl Hn. apply list_elem_of_filter. cbn [fst]. split; [|apply mail_elem, (inv_kept y I); done || lia].
    specialize (Hrep n ev Hs Hl). lia.
Qed.

Lemma round_removes y o ok :
  Inv y -> reply (clients y o) = None ->
  let s' := remove_to_device_events ok o (Some (since (clients y o))) (srv y) in
  (forall o' n, o' <> o -> events s' !! (o', n) = events (srv y) !! (o', n)) /\
  (forall n ev, events s' !! (o, n) = Some ev -> events (srv y) !! (o, n) = Some ev) /\
  (forall n ev, sent y !! n = Some (o, ev) -> n ∉ late y -> acked (clients y o) < n ->
     events s' !! (o, n) = Some ev).
Proof.
  intros I Hr s'. pose proof (inv_reply y I o) as Hrep. rewrite Hr in Hrep. unfold s'. split_and!.
  - intros o' n Hne. rewrite remove_spec, decide_False; [done|]. naive_solver.
  - intros n ev. rewrite remove_spec. by case_decide.
  - intros n ev Hx Hl Ha. rewrite remove_spec, decide_False; [by apply (inv_kept y I)|].
    specialize (Hrep n ev Hx Hl Ha). lia.
Qed.

(** What is still in flight when a round has read its batch is late or beyond it. *)
Lemma round_ahead y o next t n ev :
  flight y !! t = Some (n, (o, ev)) -> n ∈ unwritten o next (flight y) ∪ late y \/ next < n.
Proof.
  intros Hf. destruct (decide (next < n)) as [|Hle]; [by right|left].
  apply elem_of_union_l, unwritten_elem. split; [lia|eauto].
Qed.

Lemma sync_round_inv y ok o other woken : Inv y -> Inv (exec y (Round ok o other woken)).
Proof.
  intros I. cbn [exec]. destruct (reply (clients y o)) as [p|] eqn:Hr; [done|].
  destruct (batch (clients y o)) as [next|] eqn:Hbt; [|done]. unfold sync_round.
  pose proof (inv_batch y I o) as Hb. pose proof (inv_taken y I o next Hbt) as Ht.
  pose proof (inv_received y I o) as Hrec. pose proof (inv_reply y I o) as Hrep.
  rewrite Hr in Hrep. rewrite Z.min_l by lia.
  set (late' := unwritten o next (flight y) ∪ late y).
  assert (Hl : late y ⊆ late') by set_solver.
  assert (Hd : forall s' c lo hi l, delivery y o lo hi l ->
    delivery (mkSystem s' (<[o := c]> (clients y)) (flight y) (sent y) late') o lo hi l)
    by (intros; by eapply (delivery_mono y)).
  destruct (Z.ltb_spec (since (clients y o)) next) as [Hlt|Hge].
  - cbn [build_sync_events]. destruct (round_reads y o next I Hr) as (l & -> & Hdl); [lia|].
    destruct (round_removes y o ok I Hr) as (H1 & H2 & H3).
    apply inv_client; cbn [acked since batch reply received]; try done; try (cbn; lia).
    + intros n ev Hs Hn. apply H3; [done|set_solver].
    + apply round_ahead.
    + assert (Hans : snd <$> l = [] -> forall n ev, sent y !! n = Some (o, ev) -> n ∉ late' ->
        acked (clients y o) < n -> next < n).
      { intros El n ev Hs Hn Ha. destruct (decide (next < n)) as [?|Hle]; [done|]. exfalso.
        assert (Hin : (n, ev) ∈ l) by (apply (delivery_all y o _ _ _ Hdl); [done|set_solver|lia]).
        apply fmap_nil_inv in El. subst. by apply not_elem_of_nil in Hin. }
      destruct (bool_decide (snd <$> l = [])) eqn:Eb; cbn [andb].
      * apply bool_decide_eq_true in Eb. destruct other; cbn [negb]; [split; [done|]; eauto|].
        destruct woken; [by apply Hans|]. split; [done|]. exists l. rewrite Eb. auto.
      * split; [done|]. eauto.
    + destruct Hrec as (k & Hk & Hdk). eauto.
  - apply inv_client; cbn [acked since batch reply received]; try done; try lia.
    + intros n ev Hs Hn. apply (inv_kept y I); [done|set_solver].
    + apply round_ahead.
    + assert (Hno : forall n ev, sent y !! n = Some (o, ev) -> n ∉ late' -> acked (clients y o) < n -> next < n).
      { intros n ev Hs Hn Ha. specialize (Hrep n ev Hs ltac:(set_solver) Ha). lia. }
      destruct woken; [done|]. split; [done|]. exists []. split; [done|]. apply delivery_nil. cbn.
      intros n ev Hs Hn Hrange. specialize (Hno n ev Hs Hn). lia.
    + destruct Hrec as (k & Hk & Hdk). eauto.
Qed.

(** A step that changes no more than the device's side. *)
Lemma inv_set_client y o c :
  Inv y -> acked c = acked (clients y o) -> acked c <= since c <= since (clients y o) ->
  (forall next, batch c = Some next -> since c <= next <= count (srv y)) -> reply c = None ->
  (since c = acked c \/ since c = since (clients y o) /\ reply (clients y o) = None) ->
  received c = received (clients y o) -> Inv (set_client o c y).
Proof.
  intros I Ha Hs Hb Hr Hor Hrec. pose proof (inv_batch y I o).
  assert (Hd : forall o lo hi l, delivery y o lo hi l -> delivery (set_client o c y) o lo hi l)
    by (intros; by eapply (delivery_mono y)).
  apply (inv_client y (srv y)); try done; try lia.
  - intros n ev Hx Hl. rewrite Ha. by apply (inv_kept y I).
  - intros t n ev Hf. destruct (inv_ahead y I _ _ _ _ Hf); [by left|right; lia].
  - rewrite Hr. intros n ev Hx Hl Hn. destruct Hor as [->|[-> Hr']]; [done|].
    pose proof (inv_reply y I o) as Hrep. rewrite Hr' in Hrep. eapply Hrep; [done|done|]. lia.
  - destruct (inv_received y I o) as (l & Hl & Hdl). exists l. rewrite Hrec, Ha. split; [done|].
    by eapply (delivery_mono y).
Qed.

Lemma inv_receive y o : Inv y -> Inv (exec y (Receive o)).
Proof.
  intros I. cbn [exec]. destruct (reply (clients y o)) as [[evs next]|] eqn:Hr; [|done].
  pose proof (inv_batch y I o) as Hb. pose proof (inv_reply y I o) as Hrep. rewrite Hr in Hrep.
  destruct Hrep as [Hs (l & -> & Hdl)]. destruct (inv_received y I o) as (k & Hk & Hdk).
  apply (inv_client y (srv y)); cbn [acked since batch reply received]; try done; try lia.
  - intros n ev Hx Hl Ha. apply (inv_kept y I); [done|done|lia].
  - intros t n ev Hf. rewrite <-Hs. by eapply (inv_ahead y I).
  - exists (k ++ l). rewrite Hk, fmap_app. split; [done|].
    eapply (delivery_mono y); [done|done|done|]. eapply delivery_app; [|done|done]. lia.
Qed.

Lemma inv_begins : Inv start.
Proof.
  split; cbn; intros; rewrite ?lookup_empty in *; try done.
  exists []. split; [done|]. by apply delivery_nil.
Qed.

Lemma system_inv os : Inv (run os).
Proof.
  unfold run. generalize inv_begins. generalize start.
  induction os as [|a os IH]; intros y I; [done|]. cbn [foldl]. apply IH.
  destruct a; [by apply inv_draw|by apply inv_write| | |by apply sync_round_inv|by apply inv_receive].
  - cbn [exec]. pose proof (inv_batch y I o). apply inv_set_client; cbn; try done; try lia.
  - cbn [exec]. destruct (reply (clients y o)) eqn:Hr; [done|]. pose proof (inv_batch y I o).
    apply inv_set_client; cbn; try done; try lia; [|by right]. intros next [= <-]. lia.
Qed.

(** The two halves of a send with nothing in between. *)
Lemma draw_write y t o ev ok s :
  flight y !! t = None -> add_to_device_event ok o ev (srv y) = Some s ->
  srv (exec (exec y (Draw t o ev)) (Write t ok)) = s.
Proof.
  intros Hf. unfold add_to_device_event. cbn [exec]. rewrite Hf.
  destruct (next_count (srv y)) as [[s1 n]|]; [|done]. cbn. rewrite lookup_insert_eq.
  destruct ok; by intros [= <-].
Qed.

(** C32: However senders and syncs interleave, whatever responses are lost, rows are not
    taken by the database and deletions fail: what a device has received are messages to it
    up to the batch it acknowledged, in the order of their numbers and none twice, and of
    those whose row was written none is missing, neither here nor, beyond that batch, among
    the stored rows, but the late ones, whose number a round of the device had passed before
    their row was written. *)
Theorem to_device_exactly_once os o :
  let y := run os in
  exists l, received (clients y o) = snd <$> l /\
    StronglySorted (fun x y => x.1 < y.1) l /\
    (forall n ev, (n, ev) ∈ l -> 0 < n <= acked (clients y o) /\ sent y !! n = Some (o, ev)) /\
    forall n ev, sent y !! n = Some (o, ev) -> n ∉ late y ->
      if decide (n <= acked (clients y o)) then (n, ev) ∈ l
      else events (srv y) !! (o, n) = Some ev.
Proof.
  intros y. pose proof (system_inv os) as I. fold y in I.
  destruct (inv_received y I o) as (l & Hl & [Hs Ho Ha]). exists l. split_and!; [done..|].
  intros n ev Hx Hlate. pose proof (inv_sent y I n _ Hx). case_decide.
  - apply Ha; [done|done|lia].
  - apply (inv_kept y I); [done|done|lia].
Qed.

Definition phone : Owner := ("@a:x", "PHONE")%string.

(** Two messages, written in the other order than numbered, arrive in the order of
    their numbers. *)
Definition two_messages : list op :=
  [Draw 0 phone "first"; Draw 1 phone "second"; Write 1 true; Write 0 true; Request phone;
   Take phone; Round (fun _ => true) phone false false; Receive phone].

Lemma two_messages_run :
  acked (clients (run two_messages) phone) = 2 /\ late (run two_messages) = ∅ /\
  sent (run two_messages) !! 1 = Some (phone, "first"%string) /\
  sent (run two_messages) !! 2 = Some (phone, "second"%string).
Proof. by vm_compute. Qed.

Lemma to_device_exactly_once_witness :
  received (clients (run two_messages) phone) = ["first"; "second"]%string.
Proof.
  destruct (to_device_exactly_once two_messages phone) as (l & Hr & Hs & Ho & Hall).
  destruct two_messages_run as (Ha & Hl & H1 & H2). rewrite Hr. rewrite Ha in Ho, Hall.
  rewrite Hl in Hall.
  assert (Hin : forall n ev, sent (run two_messages) !! n = Some (phone, ev) -> n <= 2 -> (n, ev) ∈ l).
  { intros n ev Hx Hn. specialize (Hall n ev Hx (not_elem_of_empty n)). by rewrite decide_True in Hall. }
  clear Hall Hr Hl Ha.
  assert (l = [(1, "first"); (2, "second")]%string) as ->; [|reflexivity].
  apply sorted_same; [exact Hs|repeat constructor|]. intros [n ev]. split.
  - intros Hx. destruct (Ho n ev Hx) as [Hn Hsent].
    destruct (decide (n = 1)) as [->|Hne].
    + rewrite H1 in Hsent. injection Hsent as <-. left.
    + replace n with 2 in * by lia. rewrite H2 in Hsent. injection Hsent as <-. right. left.
  - intros [[= -> ->]|[[= -> ->]|Hx]%elem_of_cons]%elem_of_cons;
      [apply Hin; [exact H1|lia]|apply Hin; [exact H2|lia]|].
    destruct (not_elem_of_nil _ Hx).
Defined.

(** The number is drawn before the row is written: a round in between passes the number
    without the row, and the next one deletes the row unread. *)
Theorem numbered_before_written :
  let y := run [Request phone; Draw 0 phone "room key"; Take phone;
    Round (fun _ => true) phone false true; Write 0 true; Draw 1 phone "next"; Write 1 true;
    Take phone; Round (fun _ => true) phone false true; Receive phone] in
  late y = {[1]} /\ sent y !! 1 = Some (phone, "room key"%string) /\
  received (clients y phone) = ["next"%string] /\ events (srv y) !! (phone, 1) = None.
Proof. by vm_compute. Qed.

End ToDevice.
