(* ===== verification/OneTimeKeys.v ===== *)
(** One-time and fallback keys of devices, [phantom-service/src/accounts/users/keys.rs]
    and [fallback_keys.rs], and the requests that upload and claim them,
    [phantom-api/src/client/accounts/keys/upload_keys.rs] and [phantom-api/src/keys.rs].

    Taking a key and setting or taking a fallback key hold the user's lock: each is one
    step. Rows are at the type of their keys; a one-time key's row is ordered by the JSON
    text of its id, as in the column. *)
From S2P Require Import Prelude Order.
From Stdlib Require Import Ascii.

Module OneTimeKeys.

Inductive error := NotFound | Database | Storage | Panicked.

Abbreviation Owner := (string * string)%type.

Record FallbackKey := mkFallback { key_id : string; key : string; used : bool }.
#[export] Instance FallbackKey_eq_dec : EqDecision FallbackKey.
Proof. solve_decision. Defined.

(** [onetimekeyid_onetimekeys] by device and key id, [fallbackkeyid_fallbackkey] by
    device and algorithm, [userid_lastonetimekeyupdate]. *)
Record State := mkState {
  onetimekeys : gmap (Owner * string) string;
  fallbacks : gmap (Owner * string) FallbackKey;
  lastupdate : gmap string Z
}.

(** Whether the first and the second write of an operation reach the database, and
    the counter's next number. *)
Record Env := mkEnv { io1 : bool; io2 : bool; count : option Z }.

Section Ops.
(** [serde_json::to_string] of a key id. *)
Context (json : string -> string).

Definition quote : string := String (ascii_of_nat 34) EmptyString.

(** The algorithm of a key id, before the colon. *)
Fixpoint algorithm (id : string) : string :=
  match id with
  | EmptyString => EmptyString
  | String c id => if Ascii.eqb c ":" then EmptyString else String c (algorithm id)
  end.

Definition touch (i : bool) (u : string) (n : Z) (s : State) : State :=
  if i then mkState (onetimekeys s) (fallbacks s) (<[u := n]> (lastupdate s)) else s.

(** A failed write of the key is dropped, a failed counter panics. *)
Definition add_one_time_key (e : Env) (has_metadata : bool) (o : Owner) (id value : string) (s : State) :
    State * result error unit :=
  if negb has_metadata then (s, Err Database) else
  let s := if io1 e then mkState (<[(o, id) := value]> (onetimekeys s)) (fallbacks s) (lastupdate s) else s in
  match count e with
  | None => (s, Err Panicked)
  | Some n => (touch (io2 e) o.1 n s, Ok ())
  end.

(** The rows of a device whose key starts with the prefix, in key order. *)
Definition prefixed (o : Owner) (alg : string) (s : State) : list (string * string) :=
  sort_by_key (fun r => json r.1)
    ((fun r : Owner * string * string => (r.1.2, r.2)) <$>
      filter (fun r : Owner * string * string => r.1.1 = o /\ String.prefix (quote ++ alg ++ ":")%string (json r.1.2) = true)
        (map_to_list (onetimekeys s))).

Definition take_one_time_key (e : Env) (o : Owner) (alg : string) (s : State) : State * result error (string * string) :=
  match count e with
  | None => (s, Err Storage)
  | Some n =>
      let s := touch (io1 e) o.1 n s in
      match prefixed o alg s with
      | [] => (s, Err NotFound)
      | (id, value) :: _ =>
          (if io2 e then mkState (delete (o, id) (onetimekeys s)) (fallbacks s) (lastupdate s) else s, Ok (id, value))
      end
  end.

(** The ids of a device's keys, in no particular order. *)
Definition key_ids (o : Owner) (s : State) : list string :=
  (fun r : Owner * string * string => r.1.2) <$>
    filter (fun r : Owner * string * string => r.1.1 = o) (map_to_list (onetimekeys s)).

Definition count_one_time_keys (o : Owner) (s : State) : gmap string Z :=
  foldl (fun m id => partial_alter (fun n => Some (Z.min (default 0 n + 1) (2 ^ 53 - 1))) (algorithm id) m) ∅ (key_ids o s).

Definition mark_one_time_key_update (e : Env) (u : string) (s : State) : State * result error unit :=
  match count e with None => (s, Err Storage) | Some n => (touch (io2 e) u n s, Ok ()) end.

Definition put_fallback (i : bool) (o : Owner) (alg : string) (k : FallbackKey) (s : State) : State :=
  if i then mkState (onetimekeys s) (<[(o, alg) := k]> (fallbacks s)) (lastupdate s) else s.

Definition set_fallback_key (e : Env) (has_metadata : bool) (o : Owner) (id value : string) (s : State) :
    State * result error unit :=
  if negb has_metadata then (s, Err Database) else
  let alg := algorithm id in
  if match fallbacks s !! (o, alg) with
     | Some k => bool_decide (key_id k = id) && bool_decide (key k = value)
     | None => false
     end then (s, Ok ()) else
  mark_one_time_key_update e o.1 (put_fallback (io1 e) o alg (mkFallback id value false) s).

Definition take_fallback_key (e : Env) (o : Owner) (alg : string) (s : State) : State * result error (string * string) :=
  match fallbacks s !! (o, alg) with
  | None => (s, Err NotFound)
  | Some k =>
      if used k then (s, Ok (key_id k, key k)) else
      match mark_one_time_key_update e o.1 (put_fallback (io1 e) o alg (mkFallback (key_id k) (key k) true) s) with
      | (s, Ok _) => (s, Ok (key_id k, key k))
      | (s, Err err) => (s, Err err)
      end
  end.

(** In key order: by algorithm. *)
Definition unused_fallback_key_types (o : Owner) (s : State) : list string :=
  (fun r : string * FallbackKey => algorithm (key_id r.2)) <$>
    sort_by_key fst ((fun r : Owner * string * FallbackKey => (r.1.2, r.2)) <$>
      filter (fun r : Owner * string * FallbackKey => r.1.1 = o /\ used r.2 = false) (map_to_list (fallbacks s))).

(** One device's claim: a one-time key, else the fallback key. *)
Definition claim (e e' : Env) (o : Owner) (alg : string) (s : State) : State * option (string * string) :=
  match take_one_time_key e o alg s with
  | (s, Ok k) => (s, Some k)
  | (s, Err _) => let '(s, r) := take_fallback_key e' o alg s in (s, ok r)
  end.

Fixpoint claim_local_one_time_keys (es : nat -> Env * Env) (claims : list (Owner * string)) (s : State) :
    State * list (Owner * (string * string)) :=
  match claims with
  | [] => (s, [])
  | (o, alg) :: claims =>
      let '(s, k) := claim (es (length claims)).1 (es (length claims)).2 o alg s in
      let '(s, ks) := claim_local_one_time_keys es claims s in
      (s, match k with Some k => (o, k) :: ks | None => ks end)
  end.

(** The keys of an upload: as many one-time keys as the limit leaves room for, then the
    fallback keys; the first refusal ends it. *)
Fixpoint add_keys (e : Env) (m : bool) (o : Owner) (ks : list (string * string)) (s : State) : State * result error unit :=
  match ks with
  | [] => (s, Ok ())
  | (id, v) :: ks =>
      match add_one_time_key e m o id v s with (s, Ok _) => add_keys e m o ks s | (s, Err err) => (s, Err err) end
  end.

Fixpoint set_fallbacks (e : Env) (m : bool) (o : Owner) (ks : list (string * string)) (s : State) : State * result error unit :=
  match ks with
  | [] => (s, Ok ())
  | (id, v) :: ks =>
      match set_fallback_key e m o id v s with (s, Ok _) => set_fallbacks e m o ks s | (s, Err err) => (s, Err err) end
  end.

Definition stored (o : Owner) (s : State) : Z := map_fold (fun _ n t => n + t) 0 (count_one_time_keys o s).

Definition upload_keys (limit : Z) (e : Env) (m : bool) (o : Owner) (ks fs : list (string * string)) (s : State) :
    State * result error (gmap string Z) :=
  let room := Z.to_nat (u64_saturating_sub limit (stored o s)) in
  match add_keys e m o (take room ks) s with
  | (s, Err err) => (s, Err err)
  | (s, Ok _) =>
      match set_fallbacks e m o fs s with
      | (s, Err err) => (s, Err err)
      | (s, Ok _) => (s, Ok (count_one_time_keys o s))
      end
  end.

(** [remove_device] drops the device's keys. *)
Definition drop_keys (o : Owner) (s : State) : State :=
  mkState (filter (fun kv => kv.1.1 <> o) (onetimekeys s)) (filter (fun kv => kv.1.1 <> o) (fallbacks s)) (lastupdate s).

(** ** Taking a key *)

Lemma touch_keys i u n s : onetimekeys (touch i u n s) = onetimekeys s.
Proof. by destruct i. Qed.
Lemma touch_fallbacks i u n s : fallbacks (touch i u n s) = fallbacks s.
Proof. by destruct i. Qed.

Lemma prefixed_elem o alg s id v :
  (id, v) ∈ prefixed o alg s <->
  onetimekeys s !! (o, id) = Some v /\ String.prefix (quote ++ alg ++ ":")%string (json id) = true.
Proof.
  unfold prefixed. rewrite sort_by_key_perm, list_elem_of_fmap. split.
  - intros ([[o' id'] v'] & [= -> ->] & [[Ho Hp] Hin]%list_elem_of_filter). cbn in Ho, Hp. subst.
    by apply elem_of_map_to_list in Hin.
  - intros [Hk Hp]. exists (o, id, v). split; [done|]. apply list_elem_of_filter. split; [done|].
    by apply elem_of_map_to_list.
Qed.

(** What a claim of a one-time key takes: the first key of the algorithm, and only it. *)
Lemma take_spec e o alg s n :
  count e = Some n -> io2 e = true ->
  match take_one_time_key e o alg s with
  | (s', Ok (id, v)) =>
      onetimekeys s !! (o, id) = Some v /\ String.prefix (quote ++ alg ++ ":")%string (json id) = true /\
      onetimekeys s' = delete (o, id) (onetimekeys s) /\ fallbacks s' = fallbacks s
  | (s', Err err) =>
      err = NotFound /\ onetimekeys s' = onetimekeys s /\ fallbacks s' = fallbacks s /\
      forall id, String.prefix (quote ++ alg ++ ":")%string (json id) = true -> onetimekeys s !! (o, id) = None
  end.
Proof.
  intros Hn Hio. unfold take_one_time_key. rewrite Hn, Hio.
  destruct (prefixed o alg (touch (io1 e) o.1 n s)) as [|[id v] l] eqn:Ep.
  - rewrite touch_keys, touch_fallbacks. split_and!; try done. intros id Hp.
    destruct (onetimekeys s !! (o, id)) as [v|] eqn:E; [|done]. exfalso.
    apply (not_elem_of_nil (id, v)). rewrite <- Ep. apply prefixed_elem. by rewrite touch_keys.
  - cbn [onetimekeys fallbacks]. rewrite touch_keys, touch_fallbacks.
    assert (Hin : (id, v) ∈ prefixed o alg (touch (io1 e) o.1 n s)) by (rewrite Ep; left).
    apply prefixed_elem in Hin. rewrite touch_keys in Hin. naive_solver.
Qed.

(** A claim is served from the one-time keys while the device has one of the algorithm,
    taking exactly that key, and from the fallback key, which stays and is marked used,
    when it has none; it fails only if there is neither. *)
Theorem claim_exact e e' o alg s n n' :
  count e = Some n -> io2 e = true -> count e' = Some n' -> io1 e' = true ->
  let '(s', r) := claim e e' o alg s in
  match r with
  | Some (id, v) =>
      (onetimekeys s !! (o, id) = Some v /\ onetimekeys s' = delete (o, id) (onetimekeys s) /\ fallbacks s' = fallbacks s) \/
      ((forall id', String.prefix (quote ++ alg ++ ":")%string (json id') = true -> onetimekeys s !! (o, id') = None) /\
       onetimekeys s' = onetimekeys s /\ (exists u, fallbacks s !! (o, alg) = Some (mkFallback id v u)) /\
       fallbacks s' = <[(o, alg) := mkFallback id v true]> (fallbacks s))
  | None =>
      (forall id', String.prefix (quote ++ alg ++ ":")%string (json id') = true -> onetimekeys s !! (o, id') = None) /\
      fallbacks s !! (o, alg) = None /\ onetimekeys s' = onetimekeys s /\ fallbacks s' = fallbacks s
  end.
Proof.
  intros Hn Hio Hn' Hio'. unfold claim. pose proof (take_spec e o alg s n Hn Hio) as Ht.
  destruct (take_one_time_key e o alg s) as [s1 [[id v]|err]]; [naive_solver|].
  destruct Ht as (_ & Hk & Hf & Hno). unfold take_fallback_key, mark_one_time_key_update. rewrite Hf.
  destruct (fallbacks s !! (o, alg)) as [[kid kv u]|] eqn:E; cbn [ok used key_id key].
  2: { by rewrite Hk, Hf. }
  destruct u; cbn [ok].
  - right. rewrite Hk, Hf. split_and!; try done; [by eexists|]. by rewrite insert_id.
  - rewrite Hn', Hio'. cbn [ok]. right. rewrite touch_keys, touch_fallbacks. cbn [put_fallback onetimekeys fallbacks].
    rewrite Hk, Hf. split_and!; try done. by eexists.
Qed.

(** ** Histories *)

Inductive op :=
  | Add (e : Env) (has_metadata : bool) (o : Owner) (id value : string)
  | Take (e : Env) (o : Owner) (alg : string)
  | SetFallback (e : Env) (has_metadata : bool) (o : Owner) (id value : string)
  | TakeFallback (e : Env) (o : Owner) (alg : string)
  | Drop (o : Owner).

(** The state after an operation and the one-time key it handed out. *)
Definition exec (s : State) (a : op) : State * option (Owner * string) :=
  match a with
  | Add e m o id v => ((add_one_time_key e m o id v s).1, None)
  | Take e o alg =>
      let '(s, r) := take_one_time_key e o alg s in (s, match r with Ok (id, _) => Some (o, id) | Err _ => None end)
  | SetFallback e m o id v => ((set_fallback_key e m o id v s).1, None)
  | TakeFallback e o alg => ((take_fallback_key e o alg s).1, None)
  | Drop o => (drop_keys o s, None)
  end.

Fixpoint handed (k : Owner * string) (s : State) (os : list op) : nat :=
  match os with
  | [] => 0
  | a :: os => let '(s, r) := exec s a in ((if decide (r = Some k) then 1 else 0) + handed k s os)%nat
  end.

Definition uploaded (k : Owner * string) (a : op) : nat :=
  match a with Add _ _ o id _ => if decide ((o, id) = k) then 1 else 0 | _ => 0 end.

(** Deletions of keys handed out reach the database. *)
Definition deletes (a : op) : Prop := match a with Take e _ _ => io2 e = true | _ => True end.

Lemma set_fallback_keys e m o id v s : onetimekeys (set_fallback_key e m o id v s).1 = onetimekeys s.
Proof.
  unfold set_fallback_key, mark_one_time_key_update. destruct (negb m); [done|].
  destruct (match fallbacks s !! _ with Some _ => _ | None => _ end); [done|].
  destruct (count e); cbn [fst]; rewrite ?touch_keys; unfold put_fallback; by destruct (io1 e).
Qed.

Lemma take_fallback_keys e o alg s : onetimekeys (take_fallback_key e o alg s).1 = onetimekeys s.
Proof.
  unfold take_fallback_key, mark_one_time_key_update. destruct (fallbacks s !! _) as [k|]; [|done].
  destruct (used k); [done|]. destruct (count e); cbn [fst]; rewrite ?touch_keys; unfold put_fallback; by destruct (io1 e).
Qed.

Lemma exec_handed s a k :
  deletes a ->
  let '(s', r) := exec s a in
  ((if decide (is_Some (onetimekeys s' !! k)) then 1 else 0) + (if decide (r = Some k) then 1 else 0) <=
   uploaded k a + (if decide (is_Some (onetimekeys s !! k)) then 1 else 0))%nat.
Proof.
  destruct a as [e m o id v|e o alg|e m o id v|e o alg|o]; cbn [exec uploaded deletes]; intros Hd.
  - rewrite (decide_False (P := None = Some k)) by done. unfold add_one_time_key. destruct m; cbn [negb fst]; [|lia].
    assert (Hk : forall s', onetimekeys s' = onetimekeys (if io1 e then mkState (<[(o, id):=v]> (onetimekeys s)) (fallbacks s) (lastupdate s) else s) ->
      ((if decide (is_Some (onetimekeys s' !! k)) then 1 else 0) + 0 <=
       (if decide ((o, id) = k) then 1 else 0) + (if decide (is_Some (onetimekeys s !! k)) then 1 else 0))%nat).
    { intros s' ->. destruct (io1 e); [cbn [onetimekeys]|lia].
      destruct (decide ((o, id) = k)) as [->|Hne]; [repeat case_decide; lia|]. rewrite lookup_insert_ne by done. lia. }
    destruct (count e); cbn [fst]; apply Hk; by rewrite ?touch_keys.
  - destruct (count e) as [n|] eqn:Hc.
    + pose proof (take_spec e o alg s n Hc Hd) as Ht. destruct (take_one_time_key e o alg s) as [s' [[id v]|err]].
      * destruct Ht as (Hk & _ & -> & _). destruct (decide ((o, id) = k)) as [<-|Hne].
        -- rewrite lookup_delete_eq, Hk, (decide_False (P := is_Some None)) by (by intros []).
           rewrite !decide_True by done. lia.
        -- rewrite lookup_delete_ne by done. rewrite (decide_False (P := Some (o, id) = Some k)) by congruence. lia.
      * destruct Ht as (_ & -> & _). rewrite (decide_False (P := None = Some k)) by done. lia.
    + unfold take_one_time_key. rewrite Hc. rewrite (decide_False (P := None = Some k)) by done. lia.
  - rewrite set_fallback_keys, (decide_False (P := None = Some k)) by done. lia.
  - rewrite take_fallback_keys, (decide_False (P := None = Some k)) by done. lia.
  - rewrite (decide_False (P := None = Some k)) by done. cbn [drop_keys onetimekeys].
    destruct (decide (is_Some (filter _ (onetimekeys s) !! k))) as [[v [Hv _]%map_lookup_filter_Some]|]; [|lia].
    rewrite Hv, decide_True by done. lia.
Qed.

(** A one-time key is handed out at most as often as it was uploaded, over any order of
    uploads, claims, fallback keys and removals of devices. *)
Theorem one_time_key_once os k :
  Forall deletes os -> (handed k (mkState ∅ ∅ ∅) os <= sum_list_with (uploaded k) os)%nat.
Proof.
  intros Hd. assert (H : forall s, (handed k s os <=
    sum_list_with (uploaded k) os + (if decide (is_Some (onetimekeys s !! k)) then 1 else 0))%nat).
  { induction Hd as [|a os Ha Hd IH]; intros s; cbn; [lia|]. pose proof (exec_handed s a k Ha) as He.
    destruct (exec s a) as [s' r]. specialize (IH s'). lia. }
  specialize (H (mkState ∅ ∅ ∅)). cbn [onetimekeys] in H. rewrite lookup_empty, decide_False in H by (by intros []). lia.
Qed.

(** What may take a used fallback key's place. *)
Definition replaces (o : Owner) (alg : string) (k : FallbackKey) (a : op) : Prop :=
  match a with
  | SetFallback _ _ o' id v => o' = o /\ algorithm id = alg /\ (id <> key_id k \/ v <> key k)
  | Drop o' => o' = o
  | _ => False
  end.

(** A fallback key that was used stays used, and is not offered as unused, until the
    device uploads a different one for its algorithm or is removed: uploading the same
    key again does not make it unused. *)
Theorem fallback_used_sticks os s o alg k :
  fallbacks s !! (o, alg) = Some k -> used k = true -> Forall (fun a => ~ replaces o alg k a) os ->
  fallbacks (foldl (fun s a => (exec s a).1) s os) !! (o, alg) = Some k.
Proof.
  intros Hk Hu Hr. revert s Hk. induction Hr as [|a os Ha Hr IH]; intros s Hk; [done|]. cbn [foldl]. apply IH. clear IH Hr.
  destruct a as [e m o' id v|e o' alg'|e m o' id v|e o' alg'|o']; cbn [exec fst replaces] in *.
  - unfold add_one_time_key. destruct (negb m); [done|]. destruct (count e), (io1 e); cbn [fst]; by rewrite ?touch_fallbacks.
  - unfold take_one_time_key. destruct (count e); [|done]. destruct (prefixed _ _ _) as [|[]]; cbn [fst]; [by rewrite touch_fallbacks|].
    destruct (io2 e); cbn [fallbacks]; by rewrite touch_fallbacks.
  - unfold set_fallback_key, mark_one_time_key_update. destruct (negb m); [done|].
    destruct (match fallbacks s !! (o', algorithm id) with Some _ => _ | None => _ end) eqn:E; [done|].
    assert (Hne : (o', algorithm id) <> (o, alg)).
    { intros [= <- <-]. rewrite Hk in E. apply andb_false_iff in E as [E%bool_decide_eq_false|E%bool_decide_eq_false]; naive_solver. }
    destruct (count e); cbn [fst]; rewrite ?touch_fallbacks; unfold put_fallback; destruct (io1 e); cbn [fallbacks]; try done;
      by rewrite lookup_insert_ne.
  - unfold take_fallback_key, mark_one_time_key_update. destruct (fallbacks s !! (o', alg')) as [k'|] eqn:E; [|done].
    destruct (used k') eqn:Eu; [done|]. assert (Hne : (o', alg') <> (o, alg)) by (intros [= -> ->]; congruence).
    destruct (count e); cbn [fst]; rewrite ?touch_fallbacks; unfold put_fallback; destruct (io1 e); cbn [fallbacks]; try done;
      by rewrite lookup_insert_ne.
  - cbn [drop_keys fallbacks]. apply map_lookup_filter_Some. split; [done|]. cbn. congruence.
Qed.

(** ** Uploads *)

Lemma sum_bump (m : gmap string Z) a :
  (forall k n, m !! k = Some n -> 0 <= n < 2 ^ 53 - 1) ->
  map_fold (fun _ n t => n + t) 0 (partial_alter (fun n => Some (Z.min (default 0 n + 1) (2 ^ 53 - 1))) a m) =
  map_fold (fun _ n t => n + t) 0 m + 1.
Proof.
  intros Hm. assert (Hcomm : forall (j1 j2 : string) (z1 z2 : Z) (y : Z), z1 + (z2 + y) = z2 + (z1 + y)) by (intros; lia).
  assert (Hins : forall (m : gmap string Z) k n, m !! k = None ->
    map_fold (fun _ n t => n + t) 0 (<[k := n]> m) = n + map_fold (fun _ n t => n + t) 0 m).
  { intros m' k n Hk. rewrite map_fold_insert_L; [done|intros; lia|done]. }
  destruct (m !! a) as [n|] eqn:E.
  - replace m with (<[a := n]> (delete a m)) at 2 by (by rewrite insert_delete_eq, insert_id).
    rewrite Hins by apply lookup_delete_eq.
    replace (partial_alter _ a m) with (<[a := n + 1]> (delete a m)).
    + rewrite Hins by apply lookup_delete_eq. lia.
    + apply map_eq. intros k. destruct (decide (k = a)) as [->|Hne].
      * rewrite lookup_insert_eq, lookup_partial_alter_eq, E. cbn. specialize (Hm a n E). by rewrite Z.min_l by lia.
      * by rewrite lookup_insert_ne, lookup_delete_ne, lookup_partial_alter_ne by done.
  - replace (partial_alter _ a m) with (<[a := 1]> m).
    + rewrite Hins by done. lia.
    + apply map_eq. intros k. destruct (decide (k = a)) as [->|Hne].
      * by rewrite lookup_insert_eq, lookup_partial_alter_eq, E.
      * by rewrite lookup_insert_ne, lookup_partial_alter_ne by done.
Qed.

Definition bump (m : gmap string Z) (a : string) : gmap string Z :=
  partial_alter (fun n => Some (Z.min (default 0 n + 1) (2 ^ 53 - 1))) a m.

Lemma bump_bound m a b : (forall k n, m !! k = Some n -> 0 <= n <= b) -> 0 <= b ->
  forall k n, bump m a !! k = Some n -> 0 <= n <= b + 1.
Proof.
  intros Hm Hb k n. unfold bump. destruct (decide (k = a)) as [->|Hne].
  - rewrite lookup_partial_alter_eq. destruct (m !! a) as [n'|] eqn:E; cbn; intros [= <-]; [specialize (Hm a n' E)|]; lia.
  - rewrite lookup_partial_alter_ne by done. intros H%Hm. lia.
Qed.

(** The sum of the counts is the number of keys. *)
Lemma stored_length o s : Z.of_nat (length (key_ids o s)) < 2 ^ 53 -> stored o s = Z.of_nat (length (key_ids o s)).
Proof.
  unfold stored, count_one_time_keys. intros Hl.
  change (foldl _ ∅ (key_ids o s)) with (foldl (fun m id => bump m (algorithm id)) ∅ (key_ids o s)).
  assert (H : forall ids m b, (forall k n, m !! k = Some n -> 0 <= n <= b) -> 0 <= b ->
    b + Z.of_nat (length ids) < 2 ^ 53 ->
    map_fold (fun _ n t => n + t) 0 (foldl (fun m id => bump m (algorithm id)) m ids) =
    map_fold (fun _ n t => n + t) 0 m + Z.of_nat (length ids)).
  { induction ids as [|id ids IH]; intros m b Hm Hb Hlen; cbn [foldl length] in *; [lia|].
    rewrite (IH _ (b + 1)); [|by apply bump_bound|lia|lia]. unfold bump. rewrite sum_bump; [lia|].
    intros k n Hk. specialize (Hm k n Hk). lia. }
  rewrite (H _ ∅ 0); [by rewrite map_fold_empty|by intros ? ?; rewrite lookup_empty|lia|lia].
Qed.

Lemma key_ids_elem o s id : id ∈ key_ids o s <-> is_Some (onetimekeys s !! (o, id)).
Proof.
  unfold key_ids. rewrite list_elem_of_fmap. split.
  - intros ([[o' id'] v] & -> & [Ho Hin]%list_elem_of_filter). cbn in *. subst. apply elem_of_map_to_list in Hin. by rewrite Hin.
  - intros [v Hv]. exists (o, id, v). split; [done|]. apply list_elem_of_filter. split; [done|]. by apply elem_of_map_to_list.
Qed.

Lemma key_ids_NoDup o s : NoDup (key_ids o s).
Proof.
  apply NoDup_fmap_2_strong; [|apply NoDup_filter, NoDup_map_to_list].
  intros [[o1 i1] v1] [[o2 i2] v2] [H1 Hin1]%list_elem_of_filter [H2 Hin2]%list_elem_of_filter. cbn in *.
  intros ->. subst. apply elem_of_map_to_list in Hin1, Hin2. congruence.
Qed.

Lemma add_keys_length e m o ks s :
  (length (key_ids o (add_keys e m o ks s).1) <= length (key_ids o s) + length ks)%nat.
Proof.
  revert s. induction ks as [|[id v] ks IH]; intros s; cbn [add_keys length]; [cbn [fst]; lia|].
  destruct (add_one_time_key e m o id v s) as [s1 r] eqn:E.
  assert (Hs : forall id', is_Some (onetimekeys s1 !! (o, id')) -> id' = id \/ is_Some (onetimekeys s !! (o, id'))).
  { intros id'. revert E. unfold add_one_time_key. destruct (negb m); [intros [= <- <-]; auto|].
    assert (H : is_Some (onetimekeys (if io1 e then mkState (<[(o, id):=v]> (onetimekeys s)) (fallbacks s) (lastupdate s) else s) !! (o, id')) ->
      id' = id \/ is_Some (onetimekeys s !! (o, id'))).
    { destruct (io1 e); cbn [onetimekeys]; [|auto]. destruct (decide (id' = id)) as [->|Hne]; [auto|].
      rewrite lookup_insert_ne by congruence. auto. }
    destruct (count e); intros [= <- <-]; by rewrite ?touch_keys. }
  assert (Hl : (length (key_ids o s1) <= S (length (key_ids o s)))%nat).
  { apply (submseteq_length _ (id :: key_ids o s)), NoDup_submseteq; [apply key_ids_NoDup|].
    intros id' [->|Hi]%key_ids_elem%Hs; [by left|]. right. by apply key_ids_elem. }
  destruct r; cbn [fst]; [|lia]. specialize (IH s1). lia.
Qed.

Lemma set_fallbacks_keys e m o fs s : onetimekeys (set_fallbacks e m o fs s).1 = onetimekeys s.
Proof.
  revert s. induction fs as [|[id v] fs IH]; intros s; cbn [set_fallbacks]; [done|].
  pose proof (set_fallback_keys e m o id v s) as H. destruct (set_fallback_key e m o id v s) as [s1 []]; cbn [fst] in *; [|done].
  by rewrite IH.
Qed.

(** An upload leaves a device with no more one-time keys than the limit, or than it
    had when it was over the limit already, however many it sends. *)
Theorem upload_bounded limit e m o ks fs s :
  0 <= limit -> Z.of_nat (length (key_ids o s)) < 2 ^ 53 ->
  Z.of_nat (length (key_ids o (upload_keys limit e m o ks fs s).1)) <= Z.max limit (Z.of_nat (length (key_ids o s))).
Proof.
  intros Hl Hn. unfold upload_keys. rewrite stored_length by done.
  set (room := Z.to_nat _). pose proof (add_keys_length e m o (take room ks) s) as H.
  assert (Hroom : (length (take room ks) <= room)%nat) by (rewrite length_take; lia).
  assert (Hr : Z.of_nat room <= Z.max 0 (limit - Z.of_nat (length (key_ids o s)))).
  { unfold room. unfold u64_saturating_sub, clamp_range. lia. }
  destruct (add_keys e m o (take room ks) s) as [s1 []]; cbn [fst] in *; [|lia].
  pose proof (set_fallbacks_keys e m o fs s1) as Hf.
  assert (Hk : key_ids o (set_fallbacks e m o fs s1).1 = key_ids o s1) by (unfold key_ids; by rewrite Hf).
  destruct (set_fallbacks e m o fs s1) as [s2 []]; cbn [fst] in *; rewrite Hk; lia.
Qed.

End Ops.

(** ** Examples *)

(** An id with no character that JSON escapes. *)
Definition plain_json (id : string) : string := (quote ++ id ++ quote)%string.
Definition env (n : Z) : Env := mkEnv true true (Some n).
Definition phone : Owner := ("@a:x", "PHONE")%string.
Definition uploads : list op :=
  [Add (env 1) true phone "signed_curve25519:AAB" "k2"; Add (env 2) true phone "signed_curve25519:AAA" "k1";
   SetFallback (env 3) true phone "signed_curve25519:FFF" "f"]%string.
Definition claims : list op :=
  [Take (env 4) phone "signed_curve25519"; Take (env 5) phone "signed_curve25519"; Take (env 6) phone "signed_curve25519"]%string.
Definition full : State := foldl (fun s a => (exec plain_json s a).1) (mkState ∅ ∅ ∅) uploads.

Lemma one_time_key_once_witness :
  (handed plain_json (phone, "signed_curve25519:AAA"%string) (mkState ∅ ∅ ∅) (uploads ++ claims) = 1)%nat /\
  (1 <= sum_list_with (uploaded (phone, "signed_curve25519:AAA"%string)) (uploads ++ claims))%nat.
Proof.
  assert (H : handed plain_json (phone, "signed_curve25519:AAA"%string) (mkState ∅ ∅ ∅) (uploads ++ claims) = 1%nat) by (by vm_compute).
  split; [exact H|]. rewrite <- H. apply one_time_key_once. repeat constructor.
Defined.

(** The key first in key order is taken first, the fallback key last. *)
Lemma claim_order :
  let '(s1, k1) := claim plain_json (env 4) (env 5) phone "signed_curve25519" full in
  let '(s2, k2) := claim plain_json (env 6) (env 7) phone "signed_curve25519" s1 in
  let '(s3, k3) := claim plain_json (env 8) (env 9) phone "signed_curve25519" s2 in
  (k1, k2, k3) = (Some ("signed_curve25519:AAA", "k1"), Some ("signed_curve25519:AAB", "k2"),
    Some ("signed_curve25519:FFF", "f"))%string /\
  unused_fallback_key_types phone s2 = ["signed_curve25519"%string] /\ unused_fallback_key_types phone s3 = [].
Proof. by vm_compute. Qed.

(** A key whose deletion fails is handed out again: the error is dropped. *)
Theorem one_time_key_handed_twice :
  let e := mkEnv true false (Some 9) in
  let '(s1, r1) := take_one_time_key plain_json e phone "signed_curve25519" full in
  r1 = Ok ("signed_curve25519:AAA", "k1")%string /\
  (take_one_time_key plain_json e phone "signed_curve25519" s1).2 = r1.
Proof. by vm_compute. Qed.

End OneTimeKeys.
