(* ===== verification/Ratelimit.v ===== *)
(** One token bucket per key, [phantom-service/src/ratelimit.rs], and the limits on
    logins, wrong passwords and registrations built on it,
    [phantom-service/src/auth/attempts.rs].

    Allowances are [f64]s: the IEEE binary64 arithmetic of the Standard Library's
    [SpecFloat], with the fused multiply-add, minimum, ceiling and conversions the code
    uses. An [Instant] is a number of nanoseconds. Every operation holds its table's
    mutex and is one step; a poisoned mutex is not modelled. *)
From Stdlib Require Import SpecFloat.
From S2P Require Import Prelude Time.

(** ** Floating point *)

Module F64.

Abbreviation f64 := spec_float.
Definition prec : Z := 53.
Definition emax : Z := 1024.

(** [f64::from] of an integer. *)
Definition of_Z (n : Z) : f64 := binary_normalize prec emax n 0 false.

Definition add : f64 -> f64 -> f64 := SFadd prec emax.
Definition sub : f64 -> f64 -> f64 := SFsub prec emax.
Definition mul : f64 -> f64 -> f64 := SFmul prec emax.
Definition div : f64 -> f64 -> f64 := SFdiv prec emax.
Definition lt : f64 -> f64 -> bool := SFltb.
Definition le : f64 -> f64 -> bool := SFleb.

(** [f64::min] and [f64::max]: a NaN gives way to the other argument. *)
Definition min (x y : f64) : f64 :=
  match SFcompare x y with
  | Some Gt => y
  | Some _ => x
  | None => match x with S754_nan => y | _ => x end
  end.
Definition max (x y : f64) : f64 :=
  match SFcompare x y with
  | Some Lt => y
  | Some _ => x
  | None => match x with S754_nan => y | _ => x end
  end.

(** [x.mul_add(y, z)]: the product is not rounded. *)
Definition mul_add (x y z : f64) : f64 :=
  match x, y, z with
  | S754_finite sx mx ex, S754_finite sy my ey, S754_finite sz mz ez =>
      let e := Z.min (ex + ey) ez in
      binary_normalize prec emax
        (cond_Zopp (xorb sx sy) (Zpos (mx * my) * 2 ^ (ex + ey - e)) + cond_Zopp sz (Zpos mz * 2 ^ (ez - e))) e false
  | S754_finite _ _ _, S754_finite _ _ _, S754_zero _ => mul x y
  | S754_finite _ _ _, S754_finite _ _ _, S754_infinity _ => z
  | _, _, _ => add (mul x y) z
  end.

(** [f64::ceil]: below a negative exponent there is a fraction to round up. *)
Definition ceil (x : f64) : f64 :=
  match x with
  | S754_finite s m e =>
      if 0 <=? e then x
      else binary_normalize prec emax (- (- cond_Zopp s (Zpos m) / 2 ^ (- e))) 0 s
  | _ => x
  end.

(** The quotient rounded to the nearest integer, ties to even. *)
Definition div_round (n d : Z) : Z :=
  let q := n / d in
  match Z.compare (2 * (n mod d)) d with
  | Lt => q
  | Eq => if Z.even q then q else q + 1
  | Gt => q + 1
  end.

(** [Duration::as_secs_f64] *)
Definition as_secs_f64 (d : Z) : f64 :=
  add (of_Z (d / Time.NANOS_PER_SEC)) (div (of_Z (d mod Time.NANOS_PER_SEC)) (of_Z Time.NANOS_PER_SEC)).

(** [Duration::try_from_secs_f64], to the nearest nanosecond. *)
Definition try_from_secs_f64 (x : f64) : option Z :=
  match x with
  | S754_zero _ => Some 0
  | S754_finite false m e =>
      let n := Zpos m * Time.NANOS_PER_SEC in
      let ns := if 0 <=? e then n * 2 ^ e else div_round n (2 ^ (- e)) in
      in_range 0 (Time.from_secs u64_max + (Time.NANOS_PER_SEC - 1)) ns
  | _ => None
  end.

End F64.

Module Ratelimit.
Import F64.

(** When a key was last debited and what is left to it. *)
Abbreviation Bucket := (Z * f64)%type.
Abbreviation Ratelimiter K := (gmap K Bucket).

Definition DEFAULT_MAP_CAP : Z := Z.shiftl 1 16.

Record Limit := mkLimit { rate : f64; burst : f64; message : string }.

(** [M_LIMIT_EXCEEDED], with the time to wait. *)
Record error := exceeded_error { e_message : string; e_retry_after : option Z }.

Definition is_disabled (l : Limit) : bool := le (rate l) (of_Z 0) || le (burst l) (of_Z 0).

(** [Instant::duration_since] is zero for a later instant. *)
Definition duration_since (now last : Z) : Z := Z.max (now - last) 0.

Definition refill (last : Z) (tokens : f64) (l : Limit) (now : Z) : f64 :=
  min (mul_add (as_secs_f64 (duration_since now last)) (rate l) tokens) (burst l).

Definition retry_after (l : Limit) (tokens : f64) : option Z :=
  if le (rate l) (of_Z 0) then None else
  let secs := max (div (sub (of_Z 1) tokens) (rate l)) (of_Z 0) in
  try_from_secs_f64 (div (ceil (mul secs (of_Z 1000))) (of_Z 1000)).

Definition exceeded (l : Limit) (tokens : f64) : error := exceeded_error (message l) (retry_after l tokens).

Definition debit (b : Bucket) (l : Limit) (now : Z) : Bucket * result error unit :=
  let new_tokens := refill b.1 b.2 l now in
  if lt new_tokens (of_Z 1) then (b, Err (exceeded l new_tokens))
  else ((now, sub new_tokens (of_Z 1)), Ok ()).

Section Table.
Context {K : Type} `{Countable K}.
(** The order in which a [HashMap] visits its entries. *)
Context (visit : Ratelimiter K -> list (K * Bucket)).

(** The sweep: what stays, and the least recently debited key that stays. *)
Definition sweep_step (l : Limit) (now : Z) (acc : Ratelimiter K * option (K * Z)) (entry : K * Bucket) :
    Ratelimiter K * option (K * Z) :=
  let '(buckets, oldest) := acc in
  let '(key, (last, tokens)) := entry in
  let refilled := mul_add (as_secs_f64 (duration_since now last)) (rate l) tokens in
  if lt refilled (burst l)
  then (buckets,
        if match oldest with None => true | Some (_, oldest_at) => last <? oldest_at end
        then Some (key, last) else oldest)
  else (delete key buckets, oldest).

Definition evict (l : Limit) (now cap : Z) (buckets : Ratelimiter K) : Ratelimiter K :=
  let '(buckets, oldest) := foldl (sweep_step l now) (buckets, None) (visit buckets) in
  match oldest with
  | Some (key, _) => if cap <=? Z.of_nat (size buckets) then delete key buckets else buckets
  | None => buckets
  end.

Definition check_at (key : K) (l : Limit) (now cap : Z) (buckets : Ratelimiter K) :
    Ratelimiter K * result error unit :=
  match buckets !! key with
  | Some bucket => let '(bucket, r) := debit bucket l now in (<[key := bucket]> buckets, r)
  | None =>
      let buckets := if cap <=? Z.of_nat (size buckets) then evict l now cap buckets else buckets in
      let '(bucket, r) := debit (now, burst l) l now in
      (<[key := bucket]> buckets, r)
  end.

Definition check (key : K) (l : Limit) (now : Z) (buckets : Ratelimiter K) : Ratelimiter K * result error unit :=
  check_at key l now DEFAULT_MAP_CAP buckets.

Definition refund (key : K) (l : Limit) (buckets : Ratelimiter K) : Ratelimiter K :=
  match buckets !! key with
  | Some (last, tokens) => <[key := (last, min (add tokens (of_Z 1)) (burst l))]> buckets
  | None => buckets
  end.

End Table.
End Ratelimit.

(** ** Attempts to prove who one is *)

Module Attempts.
Import F64 Ratelimit.

(** An address is its bits. *)
Inductive IpAddr := V4 (bits : Z) | V6 (bits : Z).
#[global] Instance IpAddr_eq_dec : EqDecision IpAddr.
Proof. solve_decision. Defined.
#[global] Instance IpAddr_countable : Countable IpAddr.
Proof.
  refine (inj_countable' (fun a => match a with V4 b => inl b | V6 b => inr b end)
    (fun x => match x with inl b => V4 b | inr b => V6 b end) _). by intros [].
Defined.

(** An IPv4-mapped IPv6 address is its IPv4 address. *)
Definition to_canonical (a : IpAddr) : IpAddr :=
  match a with
  | V4 _ => a
  | V6 b => if Z.shiftr b 32 =? 0xffff then V4 (Z.land b (Z.ones 32)) else a
  end.

Record Tables := mkTables {
  login : Ratelimiter IpAddr;
  failed : Ratelimiter string;
  session_failed : Ratelimiter (string * string);
  registration : Ratelimiter IpAddr
}.

Definition with_login m t := mkTables m (failed t) (session_failed t) (registration t).
Definition with_failed m t := mkTables (login t) m (session_failed t) (registration t).
Definition with_session_failed m t := mkTables (login t) (failed t) m (registration t).
Definition with_registration m t := mkTables (login t) (failed t) (session_failed t) m.

(** How each table visits its entries. *)
Record Visit := mkVisit {
  visit_ip : Ratelimiter IpAddr -> list (IpAddr * Bucket);
  visit_user : Ratelimiter string -> list (string * Bucket);
  visit_session : Ratelimiter (string * string) -> list ((string * string) * Bucket)
}.

(** The rates and burst counts of the configuration. *)
Record Config := mkConfig {
  login_rc : f64 * Z;
  login_rc_failed : f64 * Z;
  registration_rc : f64 * Z
}.

Definition limit (rate : f64) (burst : Z) (message : string) : Limit := mkLimit rate (of_Z burst) message.

Section Service.
Context (cfg : Config) (v : Visit).

Definition failed_limit : Limit :=
  limit (login_rc_failed cfg).1 (login_rc_failed cfg).2 "Too many failed login attempts for this account.".
Definition registration_limit : Limit :=
  limit (registration_rc cfg).1 (registration_rc cfg).2 "Too many registrations from this address.".

(** A table's answer, put back by [set]. *)
Definition spend {M} (set : M -> Tables -> Tables) (l : Limit) (t : Tables) (r : M * result error unit) :
    Tables * result error unit :=
  if is_disabled l then (t, Ok ()) else (set r.1 t, r.2).

Definition check_login (client : IpAddr) (now : Z) (t : Tables) : Tables * result error unit :=
  let l := limit (login_rc cfg).1 (login_rc cfg).2 "Too many login attempts from this address." in
  spend with_login l t (check (visit_ip v) (to_canonical client) l now (login t)).

Definition check_password (u : string) (now : Z) (t : Tables) : Tables * result error unit :=
  spend with_failed failed_limit t (check (visit_user v) u failed_limit now (failed t)).

Definition check_session_password (u d : string) (now : Z) (t : Tables) : Tables * result error unit :=
  spend with_session_failed failed_limit t (check (visit_session v) (u, d) failed_limit now (session_failed t)).

Definition reserve_registration (client : IpAddr) (now : Z) (t : Tables) : Tables * result error unit :=
  spend with_registration registration_limit t
    (check (visit_ip v) (to_canonical client) registration_limit now (registration t)).

Inductive AttemptKey := Account (u : string) | Session (u d : string).

(** The end of a [PasswordAttempt]: its token comes back unless it was marked failed. *)
Definition drop_attempt (key : AttemptKey) (marked_failed : bool) (t : Tables) : Tables :=
  if marked_failed || is_disabled failed_limit then t else
  match key with
  | Account u => with_failed (refund u failed_limit (failed t)) t
  | Session u d => with_session_failed (refund (u, d) failed_limit (session_failed t)) t
  end.

(** The end of a [RegistrationToken]. *)
Definition drop_registration (client : IpAddr) (committed : bool) (t : Tables) : Tables :=
  if committed || is_disabled registration_limit then t else
  with_registration (refund (to_canonical client) registration_limit (registration t)) t.

End Service.
End Attempts.
