(* ===== verification/RatelimitFacts.v ===== *)
(** What the token buckets of Ratelimit.v guarantee: integers below 2^53 are exact
    allowances, so that at one instant a bucket is a counter; a table keeps its bound and
    still admits a new caller; and attempts that are given back cost nothing. *)
From Stdlib Require Import SpecFloat.
From S2P Require Import Prelude Time Ratelimit.

(** ** Integers as floating point numbers *)

Module F64Facts.
Import F64.

(** The canonical form of a positive integer of at most 53 bits. *)
Definition canon (n : Z) : f64 :=
  S754_finite false (Z.to_pos (n * 2 ^ (52 - Z.log2 n))) (Z.log2 n - 52).

Lemma digits2_pos_log2 p : Zpos (digits2_pos p) = Z.log2 (Zpos p) + 1.
Proof.
  induction p as [p IH|p IH|]; cbn [digits2_pos]; [| |done];
    rewrite Pos2Z.inj_succ, IH; cbn [Z.log2]; destruct p; cbn; lia.
Qed.

Lemma iter_pos_nat {A} (f : A -> A) p x : SpecFloat.iter_pos f p x = Nat.iter (Pos.to_nat p) f x.
Proof.
  revert x. induction p; intros x; cbn [SpecFloat.iter_pos].
  - rewrite !IHp, Pos2Nat.inj_xI, <- !Nat.iter_succ_r, <- Nat.iter_add. f_equal. lia.
  - rewrite !IHp, Pos2Nat.inj_xO, <- Nat.iter_add. f_equal. lia.
  - done.
Qed.

Lemma shr_1_double m : 0 < m -> shr_1 (Build_shr_record (2 * m) false false) = Build_shr_record m false false.
Proof. by destruct m. Qed.

Lemma shr_1_iter k m :
  0 < m -> Nat.iter k shr_1 (Build_shr_record (m * 2 ^ Z.of_nat k) false false) = Build_shr_record m false false.
Proof.
  intros Hm. induction k as [|k IH]; [by rewrite Z.mul_1_r|].
  rewrite Nat.iter_succ_r. replace (m * 2 ^ Z.of_nat (S k)) with (2 * (m * 2 ^ Z.of_nat k)).
  - by rewrite shr_1_double by (apply Z.mul_pos_pos; lia).
  - rewrite Nat2Z.inj_succ, Z.pow_succ_r; lia.
Qed.

(** A shift right of a multiple loses nothing. *)
Lemma shr_exact m e k :
  0 < m -> 0 <= k -> shr (Build_shr_record (m * 2 ^ k) false false) e k = (Build_shr_record m false false, e + k).
Proof.
  intros Hm Hk. destruct k as [|p|p]; cbn [shr]; [by rewrite Z.mul_1_r, Z.add_0_r| |lia].
  rewrite iter_pos_nat, <- (positive_nat_Z p). by rewrite shr_1_iter.
Qed.

Lemma Zdigits2_log2 m : 0 < m -> Zdigits2 m = Z.log2 m + 1.
Proof. destruct m; try lia. intros _. apply digits2_pos_log2. Qed.

Lemma fexp_53 d : -1000 <= d -> fexp prec emax d = d - 53.
Proof. unfold fexp, emin, prec, emax. lia. Qed.

(** Rounding a number whose leading 53 bits hold all of it. *)
Lemma binary_round_aux_exact m k e :
  0 < m -> Z.log2 m = 52 -> 0 <= k -> -1000 <= e + k <= 971 ->
  binary_round_aux prec emax false (m * 2 ^ k) e loc_Exact = S754_finite false (Z.to_pos m) (e + k).
Proof.
  intros Hm Hl Hk He. unfold binary_round_aux, shr_fexp.
  assert (0 < m * 2 ^ k) by (apply Z.mul_pos_pos; lia).
  rewrite Zdigits2_log2, Z.log2_mul_pow2, Hl, fexp_53 by lia. cbn [shr_record_of_loc].
  replace (k + 52 + 1 + e - 53 - e) with k by lia. rewrite shr_exact by done.
  cbn [shr_m loc_of_shr_record round_nearest_even shr_record_of_loc].
  rewrite Zdigits2_log2, Hl, fexp_53 by lia. replace (52 + 1 + (e + k) - 53 - (e + k)) with 0 by lia.
  cbn [shr shr_m]. destruct m; try lia. unfold emax, prec. by rewrite (proj2 (Z.leb_le _ _)) by lia.
Qed.

Lemma iter_xO p k : Zpos (Pos.iter xO p k) = Zpos p * 2 ^ Zpos k.
Proof.
  induction k as [|k IH] using Pos.peano_ind; [cbn; lia|].
  rewrite Pos.iter_succ, Pos2Z.inj_succ, Z.pow_succ_r by lia.
  change (Zpos (Pos.iter xO p k)~0) with (2 * Zpos (Pos.iter xO p k)). lia.
Qed.

(** An integer below 2^53 in any scale is its canonical form. *)
Lemma normalize_int M E n :
  0 < n < 2 ^ 53 -> -1000 <= E <= 0 -> M = n * 2 ^ (- E) -> binary_normalize prec emax M E false = canon n.
Proof.
  intros Hn HE ->.
  assert (Hlog : 0 <= Z.log2 n <= 52) by (split; [apply Z.log2_nonneg|]; apply Z.lt_succ_r, Z.log2_lt_pow2; lia).
  assert (Hm : 0 < n * 2 ^ (52 - Z.log2 n)) by (apply Z.mul_pos_pos; lia).
  assert (Hm52 : Z.log2 (n * 2 ^ (52 - Z.log2 n)) = 52) by (rewrite Z.log2_mul_pow2; lia).
  assert (Hpos : 0 < n * 2 ^ (- E)) by (apply Z.mul_pos_pos; lia).
  destruct (n * 2 ^ (- E)) as [|p|p] eqn:Ep; try lia. cbn [binary_normalize]. unfold binary_round, shl_align.
  assert (Hd : Zpos (digits2_pos p) + E = Z.log2 n + 1).
  { rewrite digits2_pos_log2, <- Ep, Z.log2_mul_pow2; lia. }
  rewrite Hd, fexp_53 by lia.
  assert (Hcase : forall k mz, 0 <= k -> Zpos mz = n * 2 ^ (52 - Z.log2 n) * 2 ^ k -> forall e, e + k = Z.log2 n - 52 ->
    binary_round_aux prec emax false (Zpos mz) e loc_Exact = canon n).
  { intros k mz Hk -> e He. rewrite binary_round_aux_exact by (done || lia). unfold canon. by rewrite He. }
  destruct (Z.log2 n + 1 - 53 - E) as [|k|k] eqn:Ek.
  - apply (Hcase 0); [lia| |lia]. rewrite <- Ep, Z.mul_1_r. do 2 f_equal. lia.
  - apply (Hcase (Zpos k)); [lia| |lia]. rewrite <- Ep, <- Z.mul_assoc, <- Z.pow_add_r by lia. do 2 f_equal. lia.
  - apply (Hcase 0); [lia| |lia].
    rewrite iter_xO, <- Ep, <- Z.mul_assoc, <- Z.pow_add_r, Z.mul_1_r by lia. do 2 f_equal. lia.
Qed.

Lemma of_Z_canon n : 0 < n < 2 ^ 53 -> of_Z n = canon n.
Proof. intros Hn. apply normalize_int; [done|lia|]. cbn [Z.opp]. lia. Qed.

Lemma of_Z_0 : of_Z 0 = S754_zero false.
Proof. done. Qed.

(** The mantissa of an integer scaled down to a smaller exponent. *)
Lemma shl_canon n ez :
  0 < n < 2 ^ 53 -> ez <= Z.log2 n - 52 ->
  Zpos (fst (shl_align (Z.to_pos (n * 2 ^ (52 - Z.log2 n))) (Z.log2 n - 52) ez)) = n * 2 ^ (- ez).
Proof.
  intros Hn Hez.
  assert (Hlog : 0 <= Z.log2 n <= 52) by (split; [apply Z.log2_nonneg|]; apply Z.lt_succ_r, Z.log2_lt_pow2; lia).
  assert (Hm : 0 < n * 2 ^ (52 - Z.log2 n)) by (apply Z.mul_pos_pos; lia).
  unfold shl_align. destruct (ez - (Z.log2 n - 52)) as [|k|k] eqn:Ek; [|lia|]; cbn [fst].
  - rewrite Z2Pos.id by done. do 2 f_equal. lia.
  - rewrite iter_xO, Z2Pos.id, <- Z.mul_assoc, <- Z.pow_add_r by lia. do 2 f_equal. lia.
Qed.

Lemma log2_range n : 0 < n < 2 ^ 53 -> 0 <= Z.log2 n <= 52.
Proof. split; [apply Z.log2_nonneg|]. apply Z.lt_succ_r, Z.log2_lt_pow2; lia. Qed.

Lemma add_int a b : 0 <= a -> 0 <= b -> a + b < 2 ^ 53 -> add (of_Z a) (of_Z b) = of_Z (a + b).
Proof.
  intros Ha Hb Hs. destruct (decide (a = 0)) as [->|], (decide (b = 0)) as [->|]; try done.
  - rewrite Z.add_0_l, of_Z_0, of_Z_canon by lia. done.
  - rewrite Z.add_0_r, of_Z_0, of_Z_canon by lia. done.
  - rewrite !of_Z_canon by lia. unfold add, canon, SFadd, cond_Zopp.
    pose proof (log2_range a). pose proof (log2_range b).
    rewrite !shl_canon by lia. apply normalize_int; [lia|lia|]. lia.
Qed.

Lemma sub_int a b : 0 <= b <= a -> a < 2 ^ 53 -> sub (of_Z a) (of_Z b) = of_Z (a - b).
Proof.
  intros Hb Ha. destruct (decide (b = 0)) as [->|].
  - rewrite Z.sub_0_r. destruct (decide (a = 0)) as [->|]; [done|]. rewrite of_Z_0, of_Z_canon by lia. done.
  - destruct (decide (a = b)) as [->|].
    + rewrite Z.sub_diag, of_Z_canon by lia. unfold sub, canon, SFsub. by rewrite Z.sub_diag.
    + rewrite !of_Z_canon by lia. unfold sub, canon, SFsub, cond_Zopp.
      pose proof (log2_range a). pose proof (log2_range b).
      rewrite !shl_canon by lia. apply normalize_int; [lia|lia|]. lia.
Qed.

Lemma compare_int a b : 0 <= a < 2 ^ 53 -> 0 <= b < 2 ^ 53 -> SFcompare (of_Z a) (of_Z b) = Some (a ?= b).
Proof.
  intros Ha Hb. destruct (decide (a = 0)) as [->|], (decide (b = 0)) as [->|]; try done.
  - rewrite of_Z_0, of_Z_canon by lia. destruct b; try done; lia.
  - rewrite of_Z_0, of_Z_canon by lia. destruct a; try done; lia.
  - rewrite !of_Z_canon by lia. unfold canon, SFcompare.
    pose proof (log2_range a). pose proof (log2_range b). f_equal.
    destruct (Z.compare_spec (Z.log2 a - 52) (Z.log2 b - 52)) as [E|E|E].
    + rewrite <- Z2Pos.inj_compare by (apply Z.mul_pos_pos; lia).
      replace (Z.log2 b) with (Z.log2 a) by lia. symmetry. apply Zmult_compare_compat_r. lia.
    + symmetry. apply Z.compare_lt_iff, Z.log2_lt_cancel. lia.
    + symmetry. apply Z.compare_gt_iff, Z.log2_lt_cancel. lia.
Qed.

Lemma lt_int a b : 0 <= a < 2 ^ 53 -> 0 <= b < 2 ^ 53 -> lt (of_Z a) (of_Z b) = (a <? b).
Proof. intros. unfold lt, SFltb, Z.ltb. by rewrite compare_int. Qed.

Lemma min_int a b : 0 <= a < 2 ^ 53 -> 0 <= b < 2 ^ 53 -> min (of_Z a) (of_Z b) = of_Z (Z.min a b).
Proof. intros. unfold min, Z.min. rewrite compare_int by done. by destruct (a ?= b). Qed.

(** No time, nothing refilled. *)
Lemma mul_add_0 r n : (exists m e, r = S754_finite false m e) -> 0 <= n < 2 ^ 53 ->
  mul_add (of_Z 0) r (of_Z n) = of_Z n.
Proof.
  intros (m & e & ->) Hn. destruct (decide (n = 0)) as [->|]; [done|]. by rewrite (of_Z_canon n) by lia.
Qed.

Lemma as_secs_f64_0 : as_secs_f64 0 = of_Z 0.
Proof. vm_compute. done. Qed.

End F64Facts.

(** ** Tables *)

Module RatelimitFacts.
Import F64 F64Facts Ratelimit.

(** A limit whose burst is an integer and whose rate is a positive number. *)
Definition limits (l : Limit) (n : Z) : Prop :=
  is_u32 n /\ burst l = of_Z n /\ exists m e, rate l = S754_finite false m e.

Lemma limits_enabled l n : limits l n -> 1 <= n -> is_disabled l = false.
Proof.
  intros (Hn & Hb & m & e & Hr) Hpos. unfold is_disabled, le, SFleb. rewrite Hb, Hr, compare_int by int_solve.
  cbn. destruct (Z.compare_spec n 0); [lia|lia|done].
Qed.

(** At the instant of its last debit a bucket is a counter. *)
Lemma debit_int l n now k :
  limits l n -> 0 <= k <= n ->
  debit (now, of_Z k) l now =
    if 1 <=? k then ((now, of_Z (k - 1)), Ok ()) else ((now, of_Z k), Err (exceeded l (of_Z k))).
Proof.
  intros (Hn & Hb & Hr) Hk. unfold debit, refill, duration_since. cbn [fst snd].
  rewrite Z.sub_diag, Z.max_id, as_secs_f64_0, mul_add_0, Hb by (done || int_solve).
  rewrite min_int, Z.min_l, lt_int by int_solve.
  destruct (Z.ltb_spec k 1), (Z.leb_spec 1 k); try lia; [done|]. by rewrite sub_int by int_solve.
Qed.

Section Table.
Context {K : Type} `{Countable K}.
Context (visit : Ratelimiter K -> list (K * Bucket)).
#[local] Abbreviation check_at := (Ratelimit.check_at visit).
#[local] Abbreviation evict := (Ratelimit.evict visit).

Section Evict.
(** A map is iterated over entry by entry, in some order. *)
Hypothesis visit_all : forall m, visit m ≡ₚ map_to_list m.

(** The state of a sweep that has [rest] to visit. *)
Record swept (m : Ratelimiter K) (rest : list (K * Bucket)) (b : Ratelimiter K) (oldest : option (K * Z)) : Prop := {
  swept_sub : b ⊆ m;
  swept_todo x : x ∈ rest -> b !! x.1 = Some x.2;
  swept_oldest k at_ : oldest = Some (k, at_) -> is_Some (b !! k) /\ k ∉ rest.*1;
  swept_none k : oldest = None -> is_Some (b !! k) -> k ∈ rest.*1
}.

Lemma sweep_step_swept l now m rest x b oldest :
  NoDup (x :: rest).*1 -> swept m (x :: rest) b oldest ->
  let acc := sweep_step l now (b, oldest) x in swept m rest acc.1 acc.2.
Proof.
  destruct x as [key [last tokens]]. cbn [fst snd sweep_step fmap list_fmap].
  intros [Hx Hrest]%NoDup_cons [Hsub Htodo Hold Hnone].
  pose proof (Htodo (key, (last, tokens)) ltac:(left)) as Hkey. cbn in Hkey.
  destruct (lt _ _); cbn [fst snd].
  - split; [done|intros y Hy; apply Htodo; by right| |].
    + intros k t E. destruct (match oldest with None => true | Some (_, t) => last <? t end);
        [simplify_eq; eauto|]. destruct (Hold k t E). set_solver.
    + intros k E. by destruct oldest as [[]|]; [destruct (_ <? _)|].
  - split.
    + by etrans; [apply delete_subseteq|].
    + intros y Hy. rewrite lookup_delete_ne; [apply Htodo; by right|]. intros ->. apply Hx. by apply list_elem_of_fmap_2.
    + intros k t E. destruct (Hold k t E) as [Hk Hn]. rewrite lookup_delete_ne by set_solver. set_solver.
    + intros k -> [v Hv]. apply lookup_delete_Some in Hv as [Hne Hv]. specialize (Hnone k eq_refl ltac:(eauto)). set_solver.
Qed.

Lemma sweep_swept l now m rest b oldest :
  NoDup rest.*1 -> swept m rest b oldest ->
  let acc := foldl (sweep_step l now) (b, oldest) rest in swept m [] acc.1 acc.2.
Proof.
  revert b oldest. induction rest as [|x rest IH]; intros b oldest Hnd Hs; [done|].
  cbn [foldl]. apply (sweep_step_swept l now) in Hs; [|done].
  destruct (sweep_step _ _ _ _). apply NoDup_cons in Hnd as [_ Hnd]. by apply IH.
Qed.

(** A sweep of the whole table. *)
Lemma sweep_all l now m :
  let acc := foldl (sweep_step l now) (m, None) (visit m) in swept m [] acc.1 acc.2.
Proof.
  apply sweep_swept.
  - rewrite visit_all. apply NoDup_fst_map_to_list.
  - split; [done| |done|].
    + intros [k v] Hx. rewrite visit_all in Hx. by apply elem_of_map_to_list in Hx.
    + intros k _ [v Hv]. rewrite visit_all. apply list_elem_of_fmap. exists (k, v). split; [done|]. by apply elem_of_map_to_list.
Qed.

Lemma evict_subseteq l now cap m : evict l now cap m ⊆ m.
Proof.
  unfold evict. pose proof (sweep_all l now m) as [Hsub _ _ _].
  destruct (foldl _ _ _) as [b [[k t]|]]; cbn [fst] in Hsub; [|done].
  destruct (_ <=? _); [|done]. by etrans; [apply delete_subseteq|].
Qed.

(** An eviction leaves room. *)
Lemma evict_room l now cap m : 0 < cap -> Z.of_nat (size m) <= cap -> Z.of_nat (size (evict l now cap m)) < cap.
Proof.
  intros Hcap Hm. unfold evict. pose proof (sweep_all l now m) as [Hsub _ Hold Hnone].
  destruct (foldl _ _ _) as [b [[k t]|]]; cbn [fst snd] in *.
  - apply map_subseteq_size in Hsub. destruct (Hold k t eq_refl) as [[v Hk] _].
    destruct (Z.leb_spec cap (Z.of_nat (size b))); [|done].
    rewrite map_size_delete_Some by eauto. assert (size b <> 0%nat); [|lia].
    intros E%map_size_empty_inv. by rewrite E in Hk.
  - replace b with (∅ : Ratelimiter K); [done|]. symmetry. apply map_eq. intros k.
    destruct (b !! k) eqn:E; [|done]. by destruct (not_elem_of_nil k (Hnone k eq_refl ltac:(eauto))).
Qed.

Lemma check_at_size key l now cap m :
  0 < cap -> Z.of_nat (size m) <= cap -> Z.of_nat (size (check_at key l now cap m).1) <= cap.
Proof.
  intros Hcap Hm. unfold check_at. destruct (m !! key) as [b|] eqn:E.
  - destruct (debit _ _ _). cbn [fst]. by rewrite map_size_insert_Some by eauto.
  - destruct (debit _ _ _) as [b r]. cbn [fst].
    assert (forall m' : Ratelimiter K, Z.of_nat (size m') < cap -> Z.of_nat (size (<[key := b]> m')) <= cap) as Hins.
    { intros m' ?. rewrite map_size_insert. destruct (m' !! key); cbn; lia. }
    apply Hins. destruct (Z.leb_spec cap (Z.of_nat (size m))); [|done]. by apply evict_room.
Qed.

(** A caller without a bucket is admitted, however full the table, and the table stays
    within its bound. *)
Theorem full_table_admits key l n now cap m :
  limits l n -> 1 <= n -> 0 < cap -> Z.of_nat (size m) <= cap ->
  Z.of_nat (size (check_at key l now cap m).1) <= cap /\
  (m !! key = None -> (check_at key l now cap m).2 = Ok () /\
    (check_at key l now cap m).1 !! key = Some (now, of_Z (n - 1))).
Proof.
  intros Hl Hn Hcap Hm. split; [by apply check_at_size|]. intros E. unfold check_at. rewrite E.
  destruct Hl as (? & Hb & ?). rewrite Hb, (debit_int _ n) by (done || lia).
  rewrite (proj2 (Z.leb_le 1 n)) by done. cbn. by rewrite lookup_insert_eq.
Qed.

End Evict.

(** ** One instant *)

Inductive op := Check (k : K) | Refund (k : K).
Definition key_of (o : op) : K := match o with Check k | Refund k => k end.

(** The answers of a table to operations at one instant: whether each check passed. *)
Fixpoint serve (l : Limit) (now cap : Z) (m : Ratelimiter K) (os : list op) : list bool :=
  match os with
  | [] => []
  | Check k :: os => let '(m, r) := check_at k l now cap m in is_ok r :: serve l now cap m os
  | Refund k :: os => serve l now cap (refund k l m) os
  end.

(** The specification: a counter for each key, from [n] down. *)
Definition upd (c : K -> Z) (k : K) (x : Z) : K -> Z := fun k' => if decide (k' = k) then x else c k'.

Fixpoint counted (n : Z) (c : K -> Z) (os : list op) : list bool :=
  match os with
  | [] => []
  | Check k :: os => if 1 <=? c k then true :: counted n (upd c k (c k - 1)) os else false :: counted n c os
  | Refund k :: os => counted n (upd c k (Z.min (c k + 1) n)) os
  end.

(** The buckets hold what the counters say; a key without a bucket has everything left. *)
Definition holds (n now : Z) (ks : gset K) (m : Ratelimiter K) (c : K -> Z) : Prop :=
  dom m ⊆ ks /\ forall k, 0 <= c k <= n /\
    match m !! k with Some b => b = (now, of_Z (c k)) | None => c k = n end.

Lemma holds_bucket n now ks m c k x :
  holds n now ks m c -> k ∈ ks -> 0 <= x <= n -> holds n now ks (<[k := (now, of_Z x)]> m) (upd c k x).
Proof.
  intros [Hd Hc] Hk Hx. split; [set_solver|]. intros k'. unfold upd. case_decide as E.
  - subst. by rewrite lookup_insert_eq.
  - by rewrite lookup_insert_ne.
Qed.

Lemma holds_same n now ks m c k :
  holds n now ks m c -> k ∈ ks -> holds n now ks (<[k := (now, of_Z (c k))]> m) c.
Proof.
  intros [Hd Hc] Hk. split; [set_solver|]. intros k'. split; [apply Hc|].
  destruct (decide (k' = k)) as [->|]; [by rewrite lookup_insert_eq|]. rewrite lookup_insert_ne by done. apply Hc.
Qed.

Lemma holds_upd n now ks m c k x : holds n now ks m c -> x = c k -> holds n now ks m (upd c k x).
Proof. intros [Hd Hc] ->. split; [done|]. intros k'. unfold upd. case_decide; subst; apply Hc. Qed.

Lemma holds_room n now ks m c k cap :
  holds n now ks m c -> k ∈ ks -> m !! k = None -> Z.of_nat (size ks) <= cap -> Z.of_nat (size m) < cap.
Proof.
  intros [Hd _] Hk Hm Hs. assert (Hsub : {[k]} ∪ dom m ⊆ ks) by set_solver.
  apply subseteq_size in Hsub. rewrite size_union, size_singleton, size_dom in Hsub; [lia|].
  apply not_elem_of_dom in Hm. set_solver.
Qed.

(** A check at the instant of the counters. *)
Lemma check_at_int l n now cap ks m c k :
  limits l n -> holds n now ks m c -> k ∈ ks -> Z.of_nat (size ks) <= cap ->
  check_at k l now cap m =
    if 1 <=? c k then (<[k := (now, of_Z (c k - 1))]> m, Ok ())
    else (<[k := (now, of_Z (c k))]> m, Err (exceeded l (of_Z (c k)))).
Proof.
  intros Hl Hh Hk Hcap. pose proof Hh as [_ Hc]. specialize (Hc k) as [Hr Hb]. unfold check_at.
  destruct (m !! k) as [b|] eqn:E.
  - subst b. rewrite (debit_int _ n) by done. by destruct (1 <=? c k).
  - pose proof (holds_room _ _ _ _ _ _ _ Hh Hk E Hcap). rewrite (proj2 (Z.leb_gt _ _)) by done.
    destruct Hl as (? & Hbl & ?). rewrite Hbl, <- Hb, (debit_int _ n) by done. by destruct (1 <=? c k).
Qed.

Lemma refund_int l n now ks m c k :
  limits l n -> holds n now ks m c -> k ∈ ks ->
  holds n now ks (refund k l m) (upd c k (Z.min (c k + 1) n)).
Proof.
  intros Hl Hh Hk. pose proof Hh as [_ Hc]. specialize (Hc k) as [Hr Hb]. destruct Hl as (Hn & Hbl & _).
  unfold refund. destruct (m !! k) as [b|] eqn:E.
  - subst b. rewrite Hbl, add_int, min_int by int_solve. apply holds_bucket; [done..|lia].
  - apply holds_upd; [done|lia].
Qed.

(** C31: At one instant, while the table has room for its callers, every caller is admitted
    exactly as often as a counter of its own allows, given back tokens included. *)
Theorem limiter_refines_counters l n now cap (ks : gset K) os :
  limits l n -> Z.of_nat (size ks) <= cap -> Forall (fun o => key_of o ∈ ks) os ->
  serve l now cap ∅ os = counted n (fun _ => n) os.
Proof.
  intros Hl Hcap Hks.
  assert (Hh : holds n now ks ∅ (fun _ => n)) by (split; [set_solver|]; destruct Hl; split; [int_solve|done]).
  revert Hh. generalize (∅ : Ratelimiter K) (fun _ : K => n).
  induction Hks as [|o os Ho Hos IH]; intros m c Hh; [done|].
  assert (Hr : forall k, 0 <= c k <= n) by (intros; apply Hh).
  destruct o as [k|k]; cbn [serve counted key_of] in *.
  - rewrite (check_at_int l n now cap ks m c k) by done. destruct (Z.leb_spec 1 (c k)).
    + cbn. f_equal. apply IH, holds_bucket; [done..|]. specialize (Hr k). lia.
    + cbn. f_equal. by apply IH, holds_same.
  - by apply IH, refund_int.
Qed.

(** A check that is given back costs nothing, and one that is not costs one token. *)
Lemma check_holds l n now ks m c k :
  limits l n -> holds n now ks m c -> k ∈ ks -> Z.of_nat (size ks) <= DEFAULT_MAP_CAP ->
  exists m', check visit k l now m = (m', if 1 <=? c k then Ok () else Err (exceeded l (of_Z (c k)))) /\
    (1 <= c k -> holds n now ks m' (upd c k (c k - 1)) /\ holds n now ks (refund k l m') c) /\
    (c k < 1 -> holds n now ks m' c).
Proof.
  intros Hl Hh Hk Hcap. unfold check. rewrite (check_at_int l n now _ ks m c k) by done.
  pose proof Hh as [_ Hr]. specialize (Hr k) as [Hr _]. destruct (Z.leb_spec 1 (c k)).
  - eexists. split; [done|]. split; [|lia]. intros _.
    assert (Hspent : holds n now ks (<[k := (now, of_Z (c k - 1))]> m) (upd c k (c k - 1))) by (apply holds_bucket; [done..|lia]).
    split; [done|]. apply (refund_int l n now ks _ _ k Hl Hspent) in Hk.
    destruct Hk as [Hd Hc]. split; [done|]. intros k'. specialize (Hc k'). unfold upd in Hc.
    destruct (decide (k' = k)) as [->|]; [|done]. rewrite decide_True in Hc by done.
    by replace (Z.min (c k - 1 + 1) n) with (c k) in Hc by lia.
  - eexists. split; [done|]. split; [lia|]. intros _. by apply holds_same.
Qed.

End Table.

(** ** Two tokens at a tenth per second *)

Definition limit_2 : Limit := Attempts.limit (div (of_Z 1) (of_Z 10)) 2 "Too many.".

Lemma limits_2 : limits limit_2 2.
Proof. split; [done|]. split; [done|]. vm_compute. by eexists _, _. Defined.

Lemma limiter_refines_counters_witness :
  serve map_to_list limit_2 5 16 ∅
    [Check 1; Refund 1; Check 1; Check 1;
     Check 2; Check 1] = [true; true; true; true; false].
Proof.
  rewrite (limiter_refines_counters map_to_list limit_2 2 5 16 {[1; 2]}).
  - reflexivity.
  - exact limits_2.
  - vm_compute. discriminate.
  - repeat constructor; cbn; set_solver.
Defined.

(** A table of one bucket, in debt. *)
Lemma full_table_admits_witness :
  let m := {["a" := (5, of_Z 0)]} in
  Z.of_nat (size (check_at map_to_list "b" limit_2 5 1 m).1) <= 1 /\
  (m !! "b" = None -> (check_at map_to_list "b" limit_2 5 1 m).2 = Ok () /\
    (check_at map_to_list "b" limit_2 5 1 m).1 !! "b" = Some (5, of_Z 1)).
Proof.
  cbv zeta. apply (full_table_admits map_to_list (fun m => Permutation_refl (map_to_list m)) "b" limit_2 2 5 1 {["a" := (5, of_Z 0)]}).
  - exact limits_2.
  - lia.
  - lia.
  - vm_compute. discriminate.
Defined.

End RatelimitFacts.
