(* ===== verification/Uiaa.v ===== *)
(** User-interactive authentication, [phantom-service/src/auth/uiaa.rs]: a session holds
    the flows a request must go through and the stages completed so far; and its two
    uses, [phantom-api/src/router/auth/uiaa.rs] for account management and
    [client/auth/register/register.rs] for registration, with the bodies kept for a
    session and merged into the requests that continue it ([router/extractor.rs]).

    A request loads its session, proves a stage against the other services, and settles:
    three steps between which other requests run. [try_auth_inner] composes them; the
    steps of requests in flight are at the end. Rows are at the type of their values;
    the clock, random session ids and the answers of the database are arguments. *)
From S2P Require Import Prelude Order Event Maps Time RegTokens Pending Ratelimit Tokens Devices.

Module Uiaa.

(** ** Text *)

Definition bytes_string (l : list Z) : string :=
  String.string_of_list_ascii ((fun z => Ascii.ascii_of_N (Z.to_N z)) <$> l).

(** The characters [char::is_whitespace] accepts, in UTF-8. *)
Definition whitespace : list string :=
  bytes_string <$> ([[9]; [10]; [11]; [12]; [13]; [32]; [0xc2; 0x85]; [0xc2; 0xa0]; [0xe1; 0x9a; 0x80]] ++
    ((fun z => [0xe2; 0x80; z]) <$> [0x80; 0x81; 0x82; 0x83; 0x84; 0x85; 0x86; 0x87; 0x88; 0x89; 0x8a; 0xa8; 0xa9; 0xaf]) ++
    [[0xe2; 0x81; 0x9f]; [0xe3; 0x80; 0x80]]).

Fixpoint strip_prefix (p s : string) : option string :=
  match p, s with
  | EmptyString, s => Some s
  | String a p, String b s => if Ascii.eqb a b then strip_prefix p s else None
  | String _ _, EmptyString => None
  end.

Definition strip_any (ps : list string) (s : string) : option string :=
  foldr (fun p r => match strip_prefix p s with Some s' => Some s' | None => r end) None ps.

(** Removes prefixes in [ps] from the front; each step shortens the text. *)
Fixpoint strip_all (fuel : nat) (ps : list string) (s : string) : string :=
  match fuel with
  | O => s
  | S fuel => match strip_any ps s with Some s' => strip_all fuel ps s' | None => s end
  end.

Definition rev_string (s : string) : string := String.string_of_list_ascii (rev (String.list_ascii_of_string s)).

(** [str::trim] *)
Definition trim (s : string) : string :=
  let front := strip_all (String.length s) whitespace s in
  rev_string (strip_all (String.length front) (rev_string <$> whitespace) (rev_string front)).

(** ** Data *)

Inductive AuthType := Password | RegistrationToken | EmailIdentity | Terms | Dummy | OtherType (name : string).
#[export] Instance AuthType_eq_dec : EqDecision AuthType.
Proof. solve_decision. Defined.

(** The data a client proves a stage with. The identifier of a password is its Matrix
    user name, [None] for any other kind. *)
Inductive AuthData :=
  | PasswordData (identifier : option string) (password : string) (session : option string)
  | TokenData (token : string) (session : option string)
  | DummyData (session : option string)
  | TermsData (session : option string)
  | FallbackAcknowledgement (session : string)
  | EmailData (sid client_secret : string) (session : option string)
  | OtherData (session : option string).

Definition session_of (a : AuthData) : option string :=
  match a with
  | PasswordData _ _ s | TokenData _ s | DummyData s | TermsData s | EmailData _ _ s | OtherData s => s
  | FallbackAcknowledgement s => Some s
  end.

Definition is_email (a : AuthData) : bool := match a with EmailData _ _ _ => true | _ => false end.

Record UiaaInfo := mkInfo {
  flows : list (list AuthType);
  completed : list AuthType;
  session : option string;
  auth_error : option string
}.

Definition new_info (flows : list (list AuthType)) : UiaaInfo := mkInfo flows [] None None.
Definition with_session (s : string) (i : UiaaInfo) := mkInfo (flows i) (completed i) (Some s) (auth_error i).
Definition push (t : AuthType) (i : UiaaInfo) := mkInfo (flows i) (completed i ++ [t]) (session i) (auth_error i).
Definition with_completed (l : list AuthType) (i : UiaaInfo) := mkInfo (flows i) l (session i) (auth_error i).
Definition with_auth_error (message : string) (i : UiaaInfo) := mkInfo (flows i) (completed i) (session i) (Some message).

(** [UiaaResponse]: the session is sent back as an error. *)
Inductive error :=
  | Forbidden | Unrecognized | InvalidParam | MissingToken | NotJson | BadJson | Storage
  | LimitExceeded (e : Ratelimit.error)
  | Threepid (e : Pending.error)
  | Interactive (info : UiaaInfo).

Inductive EmailIdentityMode := Validate | Claim.

Abbreviation Key := Pending.UiaaKey.

(** The requests are in memory, the sessions in [userdevicesessionid_uiaainfo]; the rest
    is the state of the other services. *)
Record State := mkState {
  requests : gmap Key Event.CanonicalJsonValue;
  infos : gmap Key UiaaInfo;
  pending : Pending.State;
  tokens : RegTokens.table;
  tables : Attempts.Tables;
  accounts : Devices.State
}.

Definition with_requests m s := mkState m (infos s) (pending s) (tokens s) (tables s) (accounts s).
Definition with_infos m s := mkState (requests s) m (pending s) (tokens s) (tables s) (accounts s).
Definition with_pending p s := mkState (requests s) (infos s) p (tokens s) (tables s) (accounts s).
Definition with_tokens m s := mkState (requests s) (infos s) (pending s) m (tables s) (accounts s).
Definition with_tables t s := mkState (requests s) (infos s) (pending s) (tokens s) t (accounts s).
Definition with_accounts a s := mkState (requests s) (infos s) (pending s) (tokens s) (tables s) a.

(** The clock, and how the database answers: the address proofs, the use of a token, the
    removal of expired ones, reads and writes of sessions. *)
Record Env := mkEnv {
  proofs : Pending.Env;
  token_io : Maps.io;
  clean_io : string -> Maps.io;
  reads : bool;
  session_io : Maps.io
}.
Definition now (e : Env) : Z := Pending.now (proofs e).

Section Service.
Context (acfg : Attempts.Config) (visit : Attempts.Visit) (config_tokens : gset string).
(** [hash::verify_password] of a password and a hash. *)
Context (verify_password : string -> string -> bool).
(** [UserId::parse_with_server_name] with the name of this server. *)
Context (parse_with_server_name : string -> option string).

Definition password_hash (u : string) (s : State) : option string :=
  Devices.userid_password (Devices.users (accounts s)) !! u.

(** ** Sessions *)

Definition update_uiaa_session (i : Maps.io) (k : Key) (info : option UiaaInfo) (s : State) :
    State * result error unit :=
  (if Maps.writes i then with_infos (match info with Some x => <[k := x]> (infos s) | None => delete k (infos s) end) s
   else s,
   if Maps.writes i && Maps.flushes i then Ok () else Err Storage).

Definition get_uiaa_session (e : Env) (k : Key) (s : State) : result error UiaaInfo :=
  if reads e then ok_or (infos s !! k) Forbidden else Err Forbidden.

Definition set_uiaa_request (k : Key) (body : Event.CanonicalJsonValue) (s : State) : State :=
  with_requests (<[k := body]> (requests s)) s.

Definition get_uiaa_request (u : string) (d : option string) (session : string) (s : State) :
    option Event.CanonicalJsonValue := requests s !! (u, default EmptyString d, session).

(** [None]: the session should have been set. *)
Definition create (e : Env) (u d : string) (info : UiaaInfo) (body : Event.CanonicalJsonValue) (s : State) :
    option (State * result error unit) :=
  match session info with
  | Some session =>
      Some (update_uiaa_session (session_io e) (u, d, session) (Some info) (set_uiaa_request (u, d, session) body s))
  | None => None
  end.

(** ** Proving a stage *)

(** What the session is when the request goes on, when it is sent back at once, or why
    the request failed. *)
Inductive Staged := Went (info : UiaaInfo) | SentBack (info : UiaaInfo) | Failed (err : error).

(** The claims of address proofs, looked up and taken or refreshed in one go. *)
Definition refresh_claim (e : Env) (claim : Key) (s : State) : State * result error bool :=
  match Pending.claim_sid (proofs e) claim (pending s) with
  | Err err => (s, Err (Threepid err))
  | Ok None => (s, Ok false)
  | Ok (Some sid) =>
      let '(p, r) := Pending.refresh_claim (proofs e) claim sid (pending s) in
      (with_pending p s, match r with Ok b => Ok b | Err err => Err (Threepid err) end)
  end.

Definition authenticate_email_identity (e : Env) (k : Key) (sid secret : string) (mode : EmailIdentityMode)
    (s : State) : State * result error bool :=
  match mode with
  | Validate => (s, Ok (Pending.session_validated (proofs e) sid secret (pending s)))
  | Claim =>
      let '(p, r) := Pending.claim_validated (proofs e) sid secret k (pending s) in
      (with_pending p s, match r with Ok b => Ok b | Err err => Err (Threepid err) end)
  end.

Definition password_stage (e : Env) (u d : string) (identifier : option string) (password : string)
    (info : UiaaInfo) (s : State) : State * Staged :=
  match identifier with
  | None => (s, Failed Unrecognized)
  | Some username =>
      match parse_with_server_name username with
      | None => (s, Failed InvalidParam)
      | Some user =>
          if negb (String.eqb u user) then (s, Failed Forbidden) else
          let '(t, r) := Attempts.check_session_password acfg visit user d (now e) (tables s) in
          match r with
          | Err err => (with_tables t s, Failed (LimitExceeded err))
          | Ok _ =>
              let hash_matches :=
                match password_hash user s with Some hash => verify_password password hash | None => false end in
              let s := with_tables (Attempts.drop_attempt acfg (Attempts.Session user d) (negb hash_matches) t) s in
              (s, if hash_matches then Went (push Password info)
                  else SentBack (with_auth_error "Invalid username or password." info))
          end
      end
  end.

Definition stage (e : Env) (u d session : string) (auth : AuthData) (mode : EmailIdentityMode)
    (info : UiaaInfo) (s : State) : State * Staged :=
  match auth with
  | PasswordData identifier password _ => password_stage e u d identifier password info s
  | TokenData token _ =>
      let '(m, r) := RegTokens.try_consume config_tokens (now e) (token_io e) (trim token) (tokens s) in
      (with_tokens m s, if is_ok r then Went (push RegistrationToken info)
                        else SentBack (with_auth_error "Invalid registration token." info))
  | DummyData _ => (s, Went (push Dummy info))
  | TermsData _ => (s, Went (push Terms info))
  | FallbackAcknowledgement _ => (s, Went info)
  | EmailData sid secret _ =>
      let '(s, r) := authenticate_email_identity e (u, d, session) sid secret mode s in
      (s, match r with
          | Err err => Failed err
          | Ok true => Went (push EmailIdentity info)
          | Ok false => SentBack (with_auth_error "Email address has not been validated." info)
          end)
  | OtherData _ => (s, Went info)
  end.

(** ** A request *)

(** The session a request goes on with; [fresh] is a random id. *)
Definition load (e : Env) (u d : string) (auth : AuthData) (info : UiaaInfo) (fresh : string) (s : State) :
    result error UiaaInfo :=
  info ← match session_of auth with
         | Some session => get_uiaa_session e (u, d, session) s
         | None => Ok info
         end;
  Ok (match session info with None => with_session fresh info | Some _ => info end).

Definition is_completed (info : UiaaInfo) : bool :=
  existsb (forallb (fun stage => bool_decide (stage ∈ completed info))) (flows info).

Definition settle (e : Env) (k : Key) (auth : AuthData) (mode : EmailIdentityMode) (info : UiaaInfo) (s : State) :
    State * result error (bool * UiaaInfo) :=
  let reply (i : option UiaaInfo) (answer : bool * UiaaInfo) (s : State) :=
    match update_uiaa_session (session_io e) k i s with
    | (s, Ok _) => (s, Ok answer)
    | (s, Err err) => (s, Err err)
    end in
  let claims := match mode with Claim => bool_decide (EmailIdentity ∈ completed info) | Validate => false end in
  let finish (s : State) :=
    if negb (is_completed info) then reply (Some info) (false, info) s
    else reply (if claims then Some info else None) (true, info) s in
  if claims && negb (is_email auth) then
    match refresh_claim e k s with
    | (s, Err err) => (s, Err err)
    | (s, Ok true) => finish s
    | (s, Ok false) =>
        let info := with_auth_error "Email address has not been validated."
          (with_completed (filter (fun t => t <> EmailIdentity) (completed info)) info) in
        reply (Some info) (false, info) s
    end
  else finish s.

Definition try_auth_inner (e : Env) (u d : string) (auth : AuthData) (info : UiaaInfo) (mode : EmailIdentityMode)
    (fresh : string) (s : State) : State * result error (bool * UiaaInfo) :=
  match load e u d auth info fresh s with
  | Err err => (s, Err err)
  | Ok info =>
      let session := default EmptyString (session info) in
      match stage e u d session auth mode info s with
      | (s, Failed err) => (s, Err err)
      | (s, SentBack info) => (s, Ok (false, info))
      | (s, Went info) => settle e (u, d, session) auth mode info s
      end
  end.

Definition try_auth e u d auth info := try_auth_inner e u d auth info Validate.
Definition try_auth_registration e u d auth info := try_auth_inner e u d auth info Claim.

(** ** Account management *)

(** [serde_json::from_value::<AuthData>] *)
Context (parse_auth : Event.CanonicalJsonValue -> option AuthData).

Definition get_field (name : string) (fields : list (string * Event.CanonicalJsonValue)) :
    option Event.CanonicalJsonValue := snd <$> List.find (fun f => String.eqb f.1 name) fields.

Definition as_object (v : Event.CanonicalJsonValue) : option (list (string * Event.CanonicalJsonValue)) :=
  match v with Event.CObject fields => Some fields | _ => None end.

Definition password_flows (u : string) (s : State) : list (list AuthType) :=
  match password_hash u s with
  | Some hash => if String.eqb hash EmptyString then [] else [[Password]]
  | None => []
  end.

(** The [auth] of a body, [Err] if it does not parse. *)
Definition auth_data (body : option Event.CanonicalJsonValue) : result error (option AuthData) :=
  match (body ≫= as_object) ≫= get_field "auth" with
  | None => Ok None
  | Some auth => match parse_auth auth with Some a => Ok (Some a) | None => Err BadJson end
  end.

(** A request without [auth] opens a session, and is sent back with it. *)
Definition open_session (e : Env) (u d : string) (info : UiaaInfo) (fresh : string)
    (body : option Event.CanonicalJsonValue) (s : State) : State * error :=
  match body with
  | None => (s, NotJson)
  | Some body =>
      let info := with_session fresh info in
      match create e u d info body s with
      | Some (s, Ok _) => (s, Interactive info)
      | Some (s, Err err) => (s, err)
      | None => (s, Storage)
      end
  end.

Definition authenticate_uiaa (e : Env) (user device : option string) (body : option Event.CanonicalJsonValue)
    (fresh : string) (s : State) : State * result error string :=
  match user, device with
  | None, _ => (s, Err MissingToken)
  | Some _, None => (s, Err Forbidden)
  | Some u, Some d =>
      let info := new_info (password_flows u s) in
      match auth_data body with
      | Err err => (s, Err err)
      | Ok (Some auth) =>
          match try_auth e u d auth info fresh s with
          | (s, Ok (true, _)) => (s, Ok u)
          | (s, Ok (false, info)) => (s, Err (Interactive info))
          | (s, Err err) => (s, Err err)
          end
      | Ok None => let '(s, err) := open_session e u d info fresh body s in (s, Err err)
      end
  end.

(** The body kept for a session, under the fields of the request that continues it. *)
Definition or_insert (k : string) (v : Event.CanonicalJsonValue) (fields : list (string * Event.CanonicalJsonValue)) :
    list (string * Event.CanonicalJsonValue) :=
  if existsb (fun f => String.eqb f.1 k) fields then fields else insert_by_key fst (k, v) fields.

Definition as_str (v : Event.CanonicalJsonValue) : option string :=
  match v with Event.CString t => Some t | _ => None end.

Definition merge_uiaa_session (sender_user sender_device : option string) (body : Event.CanonicalJsonValue) (s : State) :
    option Event.CanonicalJsonValue :=
  current ← as_object body;
  session ← (((get_field "auth" current ≫= as_object) ≫= get_field "session") ≫= as_str);
  u ← match sender_user with Some u => Some u | None => parse_with_server_name EmptyString end;
  saved ← (get_uiaa_request u sender_device session s ≫= as_object);
  Some (Event.CObject (foldl (fun merged f => or_insert f.1 f.2 merged) current saved)).

(** ** Registration *)

(** [smtp]: whether mail is set up, and when registration needs an address. *)
Record Smtp := mkSmtp {
  connection_uri : bool;
  require_email_for_registration : bool;
  require_email_for_token_registration : bool
}.
Context (smtp : Smtp).

Definition email_required (token_required : bool) : bool :=
  connection_uri smtp &&
  (require_email_for_registration smtp || token_required && require_email_for_token_registration smtp).

Definition registration_flows (token_required : bool) : list (list AuthType) :=
  let stages := (if token_required then [RegistrationToken] else []) ++
    (if email_required token_required then [EmailIdentity] else []) in
  [match stages with [] => [Dummy] | _ => stages end].

Definition redeem_claim (e : Env) (claim : Key) (s : State) : State * result error Pending.Association :=
  let refused (err : Pending.error) :=
    match err with Pending.Storage => Threepid Pending.Storage | _ => Forbidden end in
  match Pending.claim_sid (proofs e) claim (pending s) with
  | Err err => (s, Err (refused err))
  | Ok None => (s, Err Forbidden)
  | Ok (Some sid) =>
      match Pending.redeem_claim (proofs e) claim sid (pending s) with
      | (p, Ok a) =>
          (with_pending p s, if String.eqb (Pending.a_medium a) "email" then Ok a else Err Forbidden)
      | (p, Err err) => (with_pending p s, Err (refused err))
      end
  end.

(** What an accepted registration does with its session; [e'] answers for the write. *)
Definition finish_registration (e e' : Env) (k : Key) (email : bool) (s : State) :
    State * result error (option Pending.Association) :=
  let close (a : option Pending.Association) (s : State) :=
    match update_uiaa_session (session_io e') k None s with
    | (s, Ok _) => (s, Ok a)
    | (s, Err err) => (s, Err err)
    end in
  if email then
    match redeem_claim e k s with
    | (s, Ok a) => close (Some a) s
    | (s, Err err) => (s, Err err)
    end
  else close None s.

Definition enforce_uiaa (e e' : Env) (appservice is_guest : bool) (auth : option AuthData)
    (body : option Event.CanonicalJsonValue) (fresh : string) (s : State) :
    State * result error (option Pending.Association) :=
  if appservice || is_guest then (s, Ok None) else
  let '(m, token_required) := RegTokens.is_enabled config_tokens (now e) (clean_io e) (tokens s) in
  let s := with_tokens m s in
  let email := email_required token_required in
  let info := new_info (registration_flows token_required) in
  match parse_with_server_name EmptyString with
  | None => (s, Err InvalidParam)
  | Some server_user =>
      match auth with
      | Some auth =>
          let mode := if email then Claim else Validate in
          match try_auth_inner e server_user EmptyString auth info mode fresh s with
          | (s, Err err) => (s, Err err)
          | (s, Ok (false, info)) => (s, Err (Interactive info))
          | (s, Ok (true, info)) =>
              finish_registration e e' (server_user, EmptyString, default EmptyString (session info)) email s
          end
      | None => let '(s, err) := open_session e server_user EmptyString info fresh body s in (s, Err err)
      end
  end.

End Service.
End Uiaa.
