(* ===== verification/UiaaFacts.v ===== *)
(** What user-interactive authentication (Uiaa.v) guarantees when any number of requests
    are in flight, their steps interleaved with each other, with the other operations on
    address proofs and with anything the other services do: an accepted request has had
    every stage of a flow proven under its own session, account management takes the
    password of the account, and a registration by address spends a proof of its own. *)
From S2P Require Import Prelude Order Event Maps Time RegTokens Pending PendingFacts Ratelimit Tokens Devices Uiaa.

Module UiaaFacts.
Import Uiaa.

Section Facts.
Context (acfg : Attempts.Config) (visit : Attempts.Visit) (config_tokens : gset string).
Context (verify_password : string -> string -> bool) (parse_with_server_name : string -> option string).
Context (smtp : Smtp) (derive_sid : string -> string -> string -> string).

#[local] Abbreviation stage := (Uiaa.stage acfg visit config_tokens verify_password parse_with_server_name).

(** ** Requests in flight *)

(** Account management, or a registration that needs an address or not. *)
Inductive Purpose := Manage | Register (email : bool).
Record Request := mkRequest { user : string; device : string; auth : AuthData; purpose : Purpose }.

Definition mode (r : Request) : EmailIdentityMode :=
  match purpose r with Register true => Claim | _ => Validate end.
Definition key (r : Request) (i : UiaaInfo) : Key := (user r, device r, default EmptyString (session i)).

(** Where a request is. [Accepted]: [try_auth] answered yes. [Spent]: the proof of a
    registration was redeemed. [Enrolled]: [enforce_uiaa] succeeded. *)
Inductive Thread :=
  | Loaded (r : Request) (i : UiaaInfo)
  | Proven (r : Request) (i : UiaaInfo)
  | Accepted (r : Request) (i : UiaaInfo)
  | Spent (r : Request) (i : UiaaInfo) (a : option Pending.Association)
  | Enrolled (r : Request) (i : UiaaInfo) (a : option Pending.Association)
  | Ended.

(** The state, the requests, and what was done to address proofs, the last first. *)
Record Sys := mkSys {
  st : State;
  threads : gmap nat Thread;
  log : list (Pending.op * Pending.outcome)
}.

Inductive op :=
  | OpenManage (e : Env) (u d fresh : string) (body : Event.CanonicalJsonValue)
  | OpenRegister (e : Env) (fresh : string) (body : Event.CanonicalJsonValue)
  | BeginManage (id : nat) (e : Env) (u d : string) (a : AuthData) (fresh : string)
  | BeginRegister (id : nat) (e : Env) (a : AuthData) (fresh : string)
  | Prove (id : nat) (e : Env)
  | Settle (id : nat) (e : Env)
  | Redeem (id : nat) (e : Env)
  | Close (id : nat) (e : Env)
  | Proofs (o : Pending.op)
  | Elsewhere (tokens : RegTokens.table) (tables : Attempts.Tables) (accounts : Devices.State).

Definition put (id : nat) (t : Thread) (s : State) (y : Sys) : Sys := mkSys s (<[id := t]> (threads y)) (log y).

(** A new request takes an id that is free. *)
Definition begin (id : nat) (e : Env) (r : Request) (info : UiaaInfo) (fresh : string) (s : State) (y : Sys) : Sys :=
  match threads y !! id with
  | Some _ => y
  | None => put id (match load e (user r) (device r) (auth r) info fresh s with Ok i => Loaded r i | Err _ => Ended end) s y
  end.

Definition step (y : Sys) (o : op) : Sys :=
  let s := st y in
  match o with
  | OpenManage e u d fresh body =>
      mkSys (open_session e u d (new_info (password_flows u s)) fresh (Some body) s).1 (threads y) (log y)
  | OpenRegister e fresh body =>
      let '(m, required) := RegTokens.is_enabled config_tokens (now e) (clean_io e) (tokens s) in
      match parse_with_server_name EmptyString with
      | Some u => mkSys (open_session e u EmptyString (new_info (registration_flows smtp required)) fresh (Some body)
                    (with_tokens m s)).1 (threads y) (log y)
      | None => mkSys (with_tokens m s) (threads y) (log y)
      end
  | BeginManage id e u d a fresh =>
      begin id e (mkRequest u d a Manage) (new_info (password_flows u s)) fresh s y
  | BeginRegister id e a fresh =>
      let '(m, required) := RegTokens.is_enabled config_tokens (now e) (clean_io e) (tokens s) in
      match parse_with_server_name EmptyString with
      | Some u => begin id e (mkRequest u EmptyString a (Register (email_required smtp required)))
                    (new_info (registration_flows smtp required)) fresh (with_tokens m s) y
      | None => y
      end
  | Prove id e =>
      match threads y !! id with
      | Some (Loaded r i) =>
          let '(s, x) := stage e (user r) (device r) (default EmptyString (session i)) (auth r) (mode r) i s in
          put id (match x with Went i => Proven r i | _ => Ended end) s y
      | _ => y
      end
  | Settle id e =>
      match threads y !! id with
      | Some (Proven r i) =>
          let '(s, x) := settle e (key r i) (auth r) (mode r) i s in
          put id (match x with Ok (true, i) => Accepted r i | _ => Ended end) s y
      | _ => y
      end
  | Redeem id e =>
      match threads y !! id with
      | Some (Accepted r i) =>
          match purpose r with
          | Manage => y
          | Register false => put id (Spent r i None) s y
          | Register true =>
              let '(s, x) := redeem_claim e (key r i) s in
              put id (match x with Ok a => Spent r i (Some a) | Err _ => Ended end) s y
          end
      | _ => y
      end
  | Close id e =>
      match threads y !! id with
      | Some (Spent r i a) =>
          let '(s, x) := update_uiaa_session (session_io e) (key r i) None s in
          put id (match x with Ok _ => Enrolled r i a | Err _ => Ended end) s y
      | _ => y
      end
  | Proofs o => mkSys (with_pending (Pending.exec derive_sid (pending s) o).1 s) (threads y) (log y)
  | Elsewhere m t a => mkSys (with_accounts a (with_tables t (with_tokens m s))) (threads y) (log y)
  end.

(** The operation on address proofs that a step performs. *)
Definition proof_op (y : Sys) (o : op) : option Pending.op :=
  let claimed e k (f : string -> Pending.op) :=
    match Pending.claim_sid (proofs e) k (pending (st y)) with Ok (Some sid) => Some (f sid) | _ => None end in
  match o with
  | Prove id e =>
      match threads y !! id with
      | Some (Loaded r i) =>
          match auth r, mode r with
          | EmailData sid secret _, Claim => Some (Pending.Claim (proofs e) sid secret (key r i))
          | _, _ => None
          end
      | _ => None
      end
  | Settle id e =>
      match threads y !! id with
      | Some (Proven r i) =>
          match mode r with
          | Claim => if bool_decide (EmailIdentity ∈ completed i) && negb (is_email (auth r))
                     then claimed e (key r i) (Pending.Refresh (proofs e) (key r i)) else None
          | Validate => None
          end
      | _ => None
      end
  | Redeem id e =>
      match threads y !! id with
      | Some (Accepted r i) =>
          match purpose r with
          | Register true => claimed e (key r i) (Pending.RedeemClaim (proofs e) (key r i))
          | _ => None
          end
      | _ => None
      end
  | Proofs o => Some o
  | _ => None
  end.

Definition exec (y : Sys) (o : op) : Sys :=
  let y' := step y o in
  match proof_op y o with
  | Some po => mkSys (st y') (threads y') ((po, (Pending.exec derive_sid (pending (st y)) po).2) :: log y)
  | None => y'
  end.

Definition run (y : Sys) (os : list op) : Sys := foldl exec y os.

(** A server without sessions, requests or proofs. *)
Definition fresh_server (y : Sys) : Prop :=
  infos (st y) = ∅ /\ pending (st y) = PendingFacts.empty_tables /\ threads y = ∅ /\ log y = [].

(** ** Single steps *)

Lemma update_infos i k x s k' x' :
  infos (update_uiaa_session i k x s).1 !! k' = Some x' -> infos s !! k' = Some x' \/ k' = k /\ x = Some x'.
Proof.
  unfold update_uiaa_session. cbn [fst]. destruct (Maps.writes i); [|by left]. cbn.
  destruct x; [rewrite lookup_insert_Some|rewrite lookup_delete_Some]; naive_solver.
Qed.

Lemma open_infos e u d info fresh body s k x :
  infos (open_session e u d info fresh body s).1 !! k = Some x ->
  infos s !! k = Some x \/ k = (u, d, fresh) /\ x = with_session fresh info.
Proof.
  unfold open_session, create. destruct body as [b|]; [|by left]. cbn [session with_session].
  pose proof (update_infos (session_io e) (u, d, fresh) (Some (with_session fresh info))
    (set_uiaa_request (u, d, fresh) b s) k x) as Hu.
  destruct (update_uiaa_session _ _ _ _) as [s' [|]]; cbn [fst] in *; intros H; apply Hu in H; naive_solver.
Qed.

(** A stage leaves the sessions alone, and completes one type at most. *)
Lemma stage_kept e u d sess a md i s :
  let s' := (stage e u d sess a md i s).1 in infos s' = infos s /\ requests s' = requests s.
Proof.
  destruct a as [[name|] pw ?|tok ?|?|?|?|sid sec ?|?]; cbn [Uiaa.stage password_stage]; try done.
  - destruct (parse_with_server_name name); [|done]. destruct (negb _); [done|].
    by destruct (Attempts.check_session_password _ _ _ _ _ _) as [? []].
  - by destruct (RegTokens.try_consume _ _ _ _ _).
  - destruct md; cbn; [done|]. by destruct (Pending.claim_validated _ _ _ _ _).
Qed.

Lemma stage_went e u d sess a md i s s' i' :
  stage e u d sess a md i s = (s', Went i') -> i' = i \/ exists t, i' = push t i.
Proof.
  destruct a as [[name|] pw ?|tok ?|?|?|?|sid sec ?|?]; cbn [Uiaa.stage password_stage]; try by naive_solver.
  - destruct (parse_with_server_name name); [|done]. destruct (negb _); [done|].
    destruct (Attempts.check_session_password _ _ _ _ _ _) as [? []]; [|done].
    destruct (match password_hash _ _ with Some _ => _ | None => _ end); naive_solver.
  - destruct (RegTokens.try_consume _ _ _ _ _) as [? []]; naive_solver.
  - destruct (authenticate_email_identity _ _ _ _ _ _) as [? [[]|]]; naive_solver.
Qed.

(** The password stage goes on only if the password is that of the account. *)
Lemma stage_password e u d sess a md i s s' i' :
  stage e u d sess a md i s = (s', Went i') -> Password ∈ completed i' -> Password ∉ completed i ->
  exists name pw session h, a = PasswordData (Some name) pw session /\ parse_with_server_name name = Some u /\
    password_hash u s = Some h /\ verify_password pw h = true.
Proof.
  intros H Hin Hnot. assert (Hpush : forall t, i' = push t i -> t = Password) by (intros t ->; set_solver).
  destruct a as [[name|] pw ?|tok ?|?|?|?|sid sec ?|?]; cbn [Uiaa.stage password_stage] in H;
    try (simplify_eq/=; first [done|by specialize (Hpush _ eq_refl)]).
  - destruct (parse_with_server_name name) as [v|] eqn:Ep; [|done].
    destruct (String.eqb_spec u v) as [->|]; [|done]. cbn [negb] in H.
    destruct (Attempts.check_session_password _ _ _ _ _ _) as [? []]; [|done].
    destruct (password_hash v s) as [h|] eqn:Eh; [|done]. destruct (verify_password pw h) eqn:Ev; [|done].
    by eexists _, _, _, h.
  - destruct (RegTokens.try_consume _ _ _ _ _) as [? []]; [|done]. simplify_eq/=. by specialize (Hpush _ eq_refl).
  - destruct (authenticate_email_identity _ _ _ _ _ _) as [? [[]|]]; try done. simplify_eq/=.
    by specialize (Hpush _ eq_refl).
Qed.

Lemma refresh_infos e k s : infos (refresh_claim e k s).1 = infos s.
Proof.
  unfold refresh_claim. destruct (Pending.claim_sid _ _ _) as [[sid|]|]; try done.
  by destruct (Pending.refresh_claim _ _ _ _).
Qed.

Lemma refresh_requests e k s : requests (refresh_claim e k s).1 = requests s.
Proof.
  unfold refresh_claim. destruct (Pending.claim_sid _ _ _) as [[sid|]|]; try done.
  by destruct (Pending.refresh_claim _ _ _ _).
Qed.

Lemma redeem_infos e k s : infos (redeem_claim e k s).1 = infos s.
Proof.
  unfold redeem_claim. destruct (Pending.claim_sid _ _ _) as [[sid|]|]; try done.
  by destruct (Pending.redeem_claim _ _ _ _) as [? []].
Qed.

(** What settling may leave as the session: the same flows, with no other stages
    completed, and not accepted unless it is retained for its address. *)
Record settled (md : EmailIdentityMode) (i x : UiaaInfo) : Prop := {
  settled_flows : flows x = flows i;
  settled_session : session x = session i;
  settled_completed t : t ∈ completed x -> t ∈ completed i;
  settled_open : md = Validate -> is_completed x = false
}.

Lemma settle_infos e k a md i s k' x :
  infos (settle e k a md i s).1 !! k' = Some x -> infos s !! k' = Some x \/ k' = k /\ settled md i x.
Proof.
  unfold settle.
  assert (Hreply : forall o (ans : bool * UiaaInfo) s0, infos s0 = infos s -> (forall y, o = Some y -> settled md i y) ->
    infos (match update_uiaa_session (session_io e) k o s0 with
           | (s, Ok _) => (s, Ok ans) | (s, Err err) => (s, Err err) end).1 !! k' = Some x ->
    infos s !! k' = Some x \/ k' = k /\ settled md i x).
  { intros o ans s0 Es Hy H. rewrite <- Es. pose proof (update_infos (session_io e) k o s0 k' x) as Hu.
    destruct (update_uiaa_session _ _ _ _) as [? []]; destruct (Hu H) as [?|[? ?]]; auto. }
  assert (Hfin : forall s0, infos s0 = infos s -> forall c, (c = true -> md = Claim) ->
    infos (if negb (is_completed i)
      then match update_uiaa_session (session_io e) k (Some i) s0 with
           | (s, Ok _) => (s, Ok (false, i)) | (s, Err err) => (s, Err err) end
      else match update_uiaa_session (session_io e) k (if c : bool then Some i else None) s0 with
           | (s, Ok _) => (s, Ok (true, i)) | (s, Err err) => (s, Err err) end).1 !! k' = Some x ->
    infos s !! k' = Some x \/ k' = k /\ settled md i x).
  { intros s0 Es c Hc. destruct (is_completed i) eqn:Ec; cbn [negb]; apply Hreply; try done.
    - intros y. destruct c; [|done]. intros [= <-]. specialize (Hc eq_refl). by subst md.
    - by intros y [= <-]. }
  destruct md; cbn [andb]; [by apply (Hfin s eq_refl false)|].
  specialize (fun s0 Es => Hfin s0 Es (bool_decide (EmailIdentity ∈ completed i)) (fun _ => eq_refl)).
  destruct (bool_decide _ && negb _); [|by apply Hfin].
  pose proof (refresh_infos e k s) as Er. destruct (refresh_claim e k s) as [s1 [[]|]]; cbn [fst] in *.
  - by apply Hfin.
  - apply Hreply; [done|]. intros y [= <-]. split; try done. intros t. cbn. rewrite list_elem_of_filter. naive_solver.
  - rewrite Er. by left.
Qed.

Lemma settle_accepts e k a md i s s' i' : settle e k a md i s = (s', Ok (true, i')) -> i' = i /\ is_completed i = true.
Proof.
  unfold settle. intros H.
  repeat match type of H with
  | context [match ?x with _ => _ end] => destruct x eqn:?; simplify_eq
  end; (split; [done|]); match goal with Hc : negb (is_completed ?j) = false |- _ => by destruct (is_completed j) end.
Qed.

(** ** Histories *)

Section History.
Context (y0 : Sys).

(** A request of the history proved the stage [t] in the session [k]. *)
Definition proved (os : list op) (k : Key) (t : AuthType) : Prop :=
  exists os1 id e os2 r i,
    os = os1 ++ Prove id e :: os2 /\ threads (run y0 os1) !! id = Some (Loaded r i) /\ key r i = k /\
    (stage e (user r) (device r) (default EmptyString (session i)) (auth r) (mode r) i (st (run y0 os1))).2 = Went (push t i).

(** The request [id] itself gave the password its account had at that moment. *)
Definition by_password (os : list op) (id : nat) (r : Request) : Prop :=
  exists os1 e os2 name pw session h,
    os = os1 ++ Prove id e :: os2 /\ auth r = PasswordData (Some name) pw session /\
    parse_with_server_name name = Some (user r) /\ password_hash (user r) (st (run y0 os1)) = Some h /\
    verify_password pw h = true.

Lemma proved_app os o k t : proved os k t -> proved (os ++ [o]) k t.
Proof. intros (os1 & id & e & os2 & r & i & -> & H). exists os1, id, e, (os2 ++ [o]), r, i. by rewrite <- app_assoc. Qed.

Lemma by_password_app os o id r : by_password os id r -> by_password (os ++ [o]) id r.
Proof.
  intros (os1 & e & os2 & n & pw & ss & h & -> & H). exists os1, e, (os2 ++ [o]), n, pw, ss, h. by rewrite <- app_assoc.
Qed.

(** The session of an account that is not the server's: its only stage is the password,
    and it is not kept once that is given. *)
Definition managed (i : UiaaInfo) : Prop := forall f, f ∈ flows i -> f = [Password].
Definition ordinary (u : string) : Prop := parse_with_server_name EmptyString <> Some u.

Record info_ok (os : list op) (k : Key) (i : UiaaInfo) : Prop := {
  info_session : session i = Some k.2;
  info_proved t : t ∈ completed i -> proved os k t;
  info_managed : ordinary k.1.1 -> managed i /\ (Password ∈ completed i -> flows i = [])
}.

(** A request with a session in hand; [id] gave the password if its flows ask for it. *)
Record holding (os : list op) (id : nat) (r : Request) (i : UiaaInfo) : Prop := {
  hold_request : match purpose r with Register _ => parse_with_server_name EmptyString = Some (user r) | Manage => True end;
  hold_session : is_Some (session i);
  hold_proved t : t ∈ completed i -> proved os (key r i) t;
  hold_managed : ordinary (user r) -> managed i /\ (Password ∈ completed i -> flows i = [] \/ by_password os id r)
}.

Definition thread_ok (os : list op) (id : nat) (t : Thread) : Prop :=
  match t with
  | Loaded r i => holding os id r i /\ info_ok os (key r i) i
  | Proven r i => holding os id r i
  | Accepted r i | Spent r i _ | Enrolled r i _ => holding os id r i /\ is_completed i = true
  | Ended => True
  end.

Record sound (os : list op) (y : Sys) : Prop := {
  sound_infos k i : infos (st y) !! k = Some i -> info_ok os k i;
  sound_threads id t : threads y !! id = Some t -> thread_ok os id t
}.

Lemma info_ok_app os o k i : info_ok os k i -> info_ok (os ++ [o]) k i.
Proof. intros [? Hp ?]. split; [done| |done]. intros t Ht. by apply proved_app, Hp. Qed.

Lemma holding_app os o id r i : holding os id r i -> holding (os ++ [o]) id r i.
Proof.
  intros [? ? Hp Hm]. split; [done|done| |].
  - intros t Ht. by apply proved_app, Hp.
  - intros Ho. destruct (Hm Ho) as [? Hb]. split; [done|]. intros Hin. destruct (Hb Hin); [by left|right]. by apply by_password_app.
Qed.

Lemma thread_ok_app os o id t : thread_ok os id t -> thread_ok (os ++ [o]) id t.
Proof. destruct t; cbn; naive_solver eauto using info_ok_app, holding_app. Qed.

Lemma sound_app os o y : sound os y -> sound (os ++ [o]) y.
Proof. intros [Hi Ht]. split; eauto using info_ok_app, thread_ok_app. Qed.

(** A step that changes one request and sessions that stay good. *)
Lemma sound_put os y id t s :
  sound os y -> (forall k i, infos s !! k = Some i -> info_ok os k i) -> thread_ok os id t -> sound os (put id t s y).
Proof.
  intros [Hi Ht] Hs Hok. split; [done|]. intros id' t'. cbn. rewrite lookup_insert_Some. naive_solver.
Qed.

Lemma info_ok_new os u d fresh fs :
  (ordinary u -> managed (new_info fs)) -> info_ok os (u, d, fresh) (with_session fresh (new_info fs)).
Proof. intros Hm. split; [done|intros t Ht; by apply elem_of_nil in Ht|]. intros Ho. split; [by apply Hm|]. intros Hin. by apply elem_of_nil in Hin. Qed.

Lemma managed_password u s : managed (new_info (password_flows u s)).
Proof.
  unfold managed, password_flows. destruct (password_hash u s) as [h|]; cbn; [destruct (String.eqb h _); cbn|];
    intros f Hf; set_solver.
Qed.

(** A session as a request first holds it. *)
Lemma sound_loaded os y e id r fs fresh s i :
  sound os y -> infos s = infos (st y) ->
  match purpose r with Register _ => parse_with_server_name EmptyString = Some (user r) | Manage => True end ->
  (ordinary (user r) -> managed (new_info fs)) ->
  load e (user r) (device r) (auth r) (new_info fs) fresh s = Ok i -> thread_ok os id (Loaded r i).
Proof.
  intros [Hi _] Es Hr Hm Hl.
  assert (Hok : info_ok os (key r i) i).
  { unfold load in Hl. destruct (session_of (auth r)) as [sess|].
    - unfold get_uiaa_session in Hl. destruct (reads e); [|done].
      destruct (infos s !! (user r, device r, sess)) as [x|] eqn:Ex; [|done]. cbn in Hl.
      rewrite Es in Ex. destruct (Hi _ _ Ex) as [Hs Hp Hg]. rewrite Hs in Hl. injection Hl as <-.
      unfold key. rewrite Hs. cbn. by split.
    - cbn in Hl. injection Hl as <-. by apply info_ok_new. }
  split; [|done]. destruct Hok as [Hs Hp Hg]. split; [done|by rewrite Hs|done|].
  intros Ho. destruct (Hg Ho) as [? Hf]. split; [done|]. intros Hin. left. by apply Hf.
Qed.

Lemma is_completed_spec i : is_completed i = true <-> exists f, f ∈ flows i /\ forall t, t ∈ f -> t ∈ completed i.
Proof.
  unfold is_completed. rewrite existsb_exists. setoid_rewrite forallb_forall.
  setoid_rewrite bool_decide_eq_true. setoid_rewrite <- list_elem_of_In. done.
Qed.

(** Proving a stage. *)
Lemma sound_prove os id e r i s' i' :
  threads (run y0 os) !! id = Some (Loaded r i) -> thread_ok os id (Loaded r i) ->
  stage e (user r) (device r) (default EmptyString (session i)) (auth r) (mode r) i (st (run y0 os)) = (s', Went i') ->
  holding (os ++ [Prove id e]) id r i'.
Proof.
  intros Hth [Hh Hok] Hst. destruct (stage_went _ _ _ _ _ _ _ _ _ _ Hst) as [->|[t ->]]; [by apply holding_app|].
  destruct (holding_app _ (Prove id e) _ _ _ Hh) as [Hr Hs Hp Hm]. split; [done|done| |].
  - intros t' Ht'. change (key r (push t i)) with (key r i).
    apply elem_of_app in Ht' as [Ht'|Ht'%list_elem_of_singleton]; [by apply Hp|subst t'].
    exists os, id, e, [], r, i. split_and!; try done. by rewrite Hst.
  - intros Ho. split; [by apply Hm|]. intros Hpw. destruct (decide (Password ∈ completed i)) as [Hin|Hnot].
    + left. by destruct (info_managed _ _ _ Hok Ho) as [_ Hf]; apply Hf.
    + right. destruct (stage_password _ _ _ _ _ _ _ _ _ _ Hst Hpw Hnot) as (name & pw & ss & h & Ha & Hn & Hh' & Hv).
      by exists os, e, [], name, pw, ss, h.
Qed.

(** Settling. *)
Lemma sound_settle os id r i x : holding os id r i -> settled (mode r) i x -> info_ok os (key r i) x.
Proof.
  intros [Hr [sess Hs] Hp Hm] [Ef Es Ec Eo]. split.
  - rewrite Es, Hs. unfold key. by rewrite Hs.
  - intros t Ht. by apply Hp, Ec.
  - cbn. intros Ho. destruct (Hm Ho) as [Hg _]. split; [intros f Hf; apply Hg; by rewrite <- Ef|].
    intros Hpw. assert (Hmode : mode r = Validate) by (unfold mode; by destruct (purpose r)).
    specialize (Eo Hmode). destruct (flows x) as [|f fs] eqn:Hfl; [done|]. exfalso.
    assert (is_completed x = true); [|congruence]. apply is_completed_spec. exists [Password].
    assert (f = [Password]) as -> by (apply Hg; rewrite <- Ef; left). rewrite Hfl. split; [left|].
    by intros t Et%list_elem_of_singleton; subst t.
Qed.

Lemma sound_step os o : sound os (run y0 os) -> sound (os ++ [o]) (step (run y0 os) o).
Proof.
  intros Hsound. set (y := run y0 os) in *. pose proof (sound_app _ o _ Hsound) as [Hi Ht].
  assert (Hopen : forall e u d fs fresh b s, infos s = infos (st y) -> (ordinary u -> managed (new_info fs)) ->
    sound (os ++ [o]) (mkSys (open_session e u d (new_info fs) fresh b s).1 (threads y) (log y))).
  { intros e u d fs fresh b s Es Hm. split; [|done]. cbn. intros k i [Hk|[-> ->]]%open_infos; [rewrite Es in Hk; eauto|].
    by apply info_ok_new. }
  assert (Hbegin : forall id e r fs fresh s, infos s = infos (st y) ->
    match purpose r with Register _ => parse_with_server_name EmptyString = Some (user r) | Manage => True end ->
    (ordinary (user r) -> managed (new_info fs)) -> sound (os ++ [o]) (begin id e r (new_info fs) fresh s y)).
  { intros id e r fs fresh s Es Hr Hm. unfold begin. destruct (threads y !! id); [done|].
    apply sound_put; [done|by rewrite Es|]. destruct (load _ _ _ _ _ _ _) as [i|] eqn:El; [|done].
    by eapply sound_loaded. }
  destruct o as [e u d fresh b|e fresh b|id e u d a fresh|id e a fresh|id e|id e|id e|id e|po|m t a]; cbn [step].
  - apply Hopen; [done|]. intros _. apply managed_password.
  - destruct (RegTokens.is_enabled _ _ _ _) as [m req]. destruct (parse_with_server_name _) as [u|] eqn:Eu; [|by split].
    apply Hopen; [done|]. intros Ho. by destruct Ho.
  - apply Hbegin; [done..|]. intros _. apply managed_password.
  - destruct (RegTokens.is_enabled _ _ _ _) as [m req]. destruct (parse_with_server_name _) as [u|] eqn:Eu; [|by split].
    apply Hbegin; [done..|]. intros Ho. by destruct Ho.
  - destruct (threads y !! id) as [[r i| | | | |]|] eqn:Eth; try by split.
    destruct (stage_kept e (user r) (device r) (default EmptyString (session i)) (auth r) (mode r) i (st y)) as [Es _].
    destruct (stage _ _ _ _ _ _ _ _) as [s' x] eqn:Est. cbn [fst] in Es. apply sound_put; [done|by rewrite Es|].
    destruct x; [|done..]. eapply sound_prove; [done| |done]. by eapply sound_threads.
  - destruct (threads y !! id) as [[|r i| | | |]|] eqn:Eth; try by split. pose proof (Ht _ _ Eth) as Hh.
    pose proof (settle_infos e (key r i) (auth r) (mode r) i (st y)) as Es.
    destruct (settle _ _ _ _ _ _) as [s' x] eqn:Est. cbn [fst] in Es. apply sound_put; [done| |].
    + intros k x' [Hk|[-> Hx]]%Es; [eauto|]. by eapply sound_settle.
    + destruct x as [[[] i']|]; try done. by apply settle_accepts in Est as [-> Hc].
  - destruct (threads y !! id) as [[| |r i| | |]|] eqn:Eth; try by split. pose proof (Ht _ _ Eth) as Hh.
    destruct (purpose r) as [|[]]; [done| |by apply sound_put].
    pose proof (redeem_infos e (key r i) (st y)) as Es. destruct (redeem_claim _ _ _) as [s' [a|]]; cbn [fst] in Es;
      apply sound_put; try done; by rewrite Es.
  - destruct (threads y !! id) as [[| | |r i a| |]|] eqn:Eth; try by split. pose proof (Ht _ _ Eth) as Hh.
    pose proof (update_infos (session_io e) (key r i) None (st y)) as Es.
    destruct (update_uiaa_session _ _ _ _) as [s' x]; cbn [fst] in Es. apply sound_put; [done| |by destruct x].
    intros k x' [Hk|[_ [=]]]%Es. eauto.
  - by split.
  - by split.
Qed.

Lemma exec_st y o : st (exec y o) = st (step y o).
Proof. unfold exec. by destruct (proof_op y o). Qed.
Lemma exec_threads y o : threads (exec y o) = threads (step y o).
Proof. unfold exec. by destruct (proof_op y o). Qed.

Lemma run_snoc os o : run y0 (os ++ [o]) = exec (run y0 os) o.
Proof. unfold run. by rewrite foldl_app. Qed.

Lemma sound_run os : fresh_server y0 -> sound os (run y0 os).
Proof.
  intros (Hi & _ & Ht & _). induction os as [|o os IH] using rev_ind.
  - split; intros ? ?; cbn; [by rewrite Hi|by rewrite Ht].
  - rewrite run_snoc. destruct (sound_step os o IH) as [Hs Hth]. split; [by rewrite exec_st|by rewrite exec_threads].
Qed.

End History.

(** ** Address proofs *)

Lemma update_pending i k x s : pending (update_uiaa_session i k x s).1 = pending s.
Proof. unfold update_uiaa_session. by destruct (Maps.writes _). Qed.

(** Settling changes the sessions, and the proof it refreshes. *)
Lemma settle_kept {A} (f : State -> A) e k a md i s :
  (forall i k x s, f (update_uiaa_session i k x s).1 = f s) ->
  f (settle e k a md i s).1 =
    if match md with Claim => bool_decide (EmailIdentity ∈ completed i) | Validate => false end && negb (is_email a)
    then f (refresh_claim e k s).1 else f s.
Proof.
  intros Hf. unfold settle.
  assert (Hreply : forall o (ans : bool * UiaaInfo) s, f (match update_uiaa_session (session_io e) k o s with
    | (s, Ok _) => (s, Ok ans) | (s, Err err) => (s, Err err) end).1 = f s).
  { intros o ans s'. pose proof (Hf (session_io e) k o s'). by destruct (update_uiaa_session _ _ _ _) as [? []]. }
  destruct (_ && negb _); [|by destruct (negb _); apply Hreply].
  destruct (refresh_claim e k s) as [s' [[]|]]; cbn [fst]; [by destruct (negb _); apply Hreply|apply Hreply|done].
Qed.

(** The step does to the address proofs what its operation on them does. *)
Lemma step_pending y o :
  pending (st (step y o)) =
    match proof_op y o with Some po => (Pending.exec derive_sid (pending (st y)) po).1 | None => pending (st y) end.
Proof.
  assert (Hopen : forall e u d i fresh b s, pending (open_session e u d i fresh b s).1 = pending s).
  { intros e u d i fresh b s. unfold open_session, create, update_uiaa_session. destruct b; [|done].
    destruct (session _); [|done]. destruct (Maps.writes _), (Maps.flushes _); done. }
  assert (Hbegin : forall id e r i fresh s, pending s = pending (st y) -> pending (st (begin id e r i fresh s y)) = pending (st y)).
  { intros id e r i fresh s Es. unfold begin. by destruct (threads y !! id). }
  destruct o as [e u d fresh b|e fresh b|id e u d a fresh|id e a fresh|id e|id e|id e|id e|po|m t a]; cbn [step proof_op].
  - apply Hopen.
  - destruct (RegTokens.is_enabled _ _ _ _). destruct (parse_with_server_name _); [|done]. cbn [st]. by rewrite Hopen.
  - by apply Hbegin.
  - destruct (RegTokens.is_enabled _ _ _ _). destruct (parse_with_server_name _); [|done]. by apply Hbegin.
  - destruct (threads y !! id) as [[r i| | | | |]|]; try done. unfold key.
    destruct (auth r) as [[n|] pw ?|tok ?|?|?|?|sid sec ?|?]; cbn [Uiaa.stage password_stage]; try done.
    + destruct (parse_with_server_name n); [|done]. destruct (negb _); [done|].
      by destruct (Attempts.check_session_password _ _ _ _ _ _) as [? []].
    + by destruct (RegTokens.try_consume _ _ _ _ _).
    + destruct (mode r); cbn; [done|]. by destruct (Pending.claim_validated _ _ _ _ _) as [? [[]|]].
  - destruct (threads y !! id) as [[|r i| | | |]|]; try done.
    pose proof (settle_kept pending e (key r i) (auth r) (mode r) i (st y) update_pending) as Hp.
    destruct (settle _ _ _ _ _ _). cbn [fst put st] in *. rewrite Hp. destruct (mode r); [done|].
    destruct (bool_decide _ && negb _); [|done]. unfold refresh_claim.
    destruct (Pending.claim_sid _ _ _) as [[sid|]|]; try done. cbn. by destruct (Pending.refresh_claim _ _ _ _).
  - destruct (threads y !! id) as [[| |r i| | |]|]; try done. destruct (purpose r) as [|[]]; try done.
    unfold redeem_claim. destruct (Pending.claim_sid _ _ _) as [[sid|]|]; try done. cbn.
    by destruct (Pending.redeem_claim _ _ _ _) as [? []]; cbn.
  - destruct (threads y !! id) as [[| | |r i a| |]|]; try done.
    pose proof (update_pending (session_io e) (key r i) None (st y)) as Hp. by destruct (update_uiaa_session _ _ _ _).
  - done.
  - done.
Qed.

Section Proofs.
Context (y0 : Sys).

Lemma log_inv os :
  fresh_server y0 -> PendingFacts.Inv derive_sid (pending (st (run y0 os))) (log (run y0 os)).
Proof.
  intros (_ & Hp & _ & Hl). induction os as [|o os IH] using rev_ind.
  - cbn. rewrite Hp, Hl. apply PendingFacts.inv_empty.
  - rewrite run_snoc, exec_st, step_pending. unfold exec. destruct (proof_op _ o) as [po|]; cbn [log].
    + eapply PendingFacts.exec_inv; [done|]. by destruct (Pending.exec _ _ _).
    + assert (Hlog : log (step (run y0 os) o) = log (run y0 os)); [|by rewrite Hlog].
      destruct o; cbn [step]; unfold begin; repeat case_match; done.
Qed.

(** The request [id] redeemed the proof of an address for its own session. *)
Definition redeemed (os : list op) (id : nat) (r : Request) (i : UiaaInfo) (a : option Pending.Association) : Prop :=
  purpose r = Register true ->
  exists os1 e os2 sid b, os = os1 ++ Redeem id e :: os2 /\ a = Some b /\ Pending.a_medium b = "email"%string /\
    (Pending.exec derive_sid (pending (st (run y0 os1))) (Pending.RedeemClaim (proofs e) (key r i) sid)).2 = Pending.Redeemed b.

Definition redeemed_ok (os : list op) (id : nat) (t : Thread) : Prop :=
  match t with Spent r i a | Enrolled r i a => redeemed os id r i a | _ => True end.

Lemma redeemed_ok_app os o id t : redeemed_ok os id t -> redeemed_ok (os ++ [o]) id t.
Proof.
  assert (Happ : forall r i a, redeemed os id r i a -> redeemed (os ++ [o]) id r i a).
  { intros r i a Hr Hp. destruct (Hr Hp) as (os1 & e & os2 & sid & b & -> & H). exists os1, e, (os2 ++ [o]), sid, b.
    by rewrite <- app_assoc. }
  destruct t; cbn; auto.
Qed.

Lemma redeem_claim_redeemed e k s s' b :
  redeem_claim e k s = (s', Ok b) ->
  exists sid, (Pending.exec derive_sid (pending s) (Pending.RedeemClaim (proofs e) k sid)).2 = Pending.Redeemed b /\
    Pending.a_medium b = "email"%string.
Proof.
  unfold redeem_claim. destruct (Pending.claim_sid _ _ _) as [[sid|]|]; try done.
  destruct (Pending.redeem_claim _ _ _ _) as [p [a|]] eqn:E; [|done].
  destruct (String.eqb_spec (Pending.a_medium a) "email"); [|done]. intros [= <- <-]. exists sid. cbn. by rewrite E.
Qed.

Lemma redeemed_step os o id t :
  (forall id t, threads (run y0 os) !! id = Some t -> redeemed_ok os id t) ->
  threads (step (run y0 os) o) !! id = Some t -> redeemed_ok (os ++ [o]) id t.
Proof.
  intros IH. set (y := run y0 os) in *.
  assert (Hkeep : threads y !! id = Some t -> redeemed_ok (os ++ [o]) id t) by (intros H; by apply redeemed_ok_app, IH).
  assert (Hput : forall id' t' s, redeemed_ok (os ++ [o]) id' t' ->
    threads (put id' t' s y) !! id = Some t -> redeemed_ok (os ++ [o]) id t).
  { intros id' t' s Hok. cbn. rewrite lookup_insert_Some. intros [[-> <-]|[_ H]]; auto. }
  assert (Hbegin : forall id' e r i fresh s, threads (begin id' e r i fresh s y) !! id = Some t -> redeemed_ok (os ++ [o]) id t).
  { intros id' e r i fresh s. unfold begin. destruct (threads y !! id'); [done|]. apply Hput. by destruct (load _ _ _ _ _ _ _). }
  destruct o as [e u d fresh b|e fresh b|id' e u d a fresh|id' e a fresh|id' e|id' e|id' e|id' e|po|m t0 a]; cbn [step]; try done.
  - destruct (RegTokens.is_enabled _ _ _ _). by destruct (parse_with_server_name _).
  - apply Hbegin.
  - destruct (RegTokens.is_enabled _ _ _ _). destruct (parse_with_server_name _); [apply Hbegin|done].
  - destruct (threads y !! id') as [[r i| | | | |]|]; try done. destruct (stage _ _ _ _ _ _ _ _) as [? []]; by apply Hput.
  - destruct (threads y !! id') as [[|r i| | | |]|]; try done. destruct (settle _ _ _ _ _ _) as [? [[[] ?]|]]; by apply Hput.
  - destruct (threads y !! id') as [[| |r i| | |]|] eqn:Eth; try done. destruct (purpose r) as [|[]] eqn:Ep; [done| |].
    + destruct (redeem_claim e (key r i) (st y)) as [s' [b|]] eqn:Er; apply Hput; [|done].
      intros _. apply redeem_claim_redeemed in Er as (sid & Hx & Hm). by exists os, e, [], sid, b.
    + apply Hput. intros Ep'. congruence.
  - destruct (threads y !! id') as [[| | |r i a| |]|] eqn:Eth; try done.
    destruct (update_uiaa_session _ _ _ _) as [s' []]; apply Hput; [|done].
    apply (redeemed_ok_app _ _ _ (Spent r i a)). by apply IH.
Qed.

Lemma redeemed_run os id t : fresh_server y0 -> threads (run y0 os) !! id = Some t -> redeemed_ok os id t.
Proof.
  intros (_ & _ & Ht & _). revert id t. induction os as [|o os IH] using rev_ind; intros id t.
  - cbn. by rewrite Ht.
  - rewrite run_snoc, exec_threads. by apply redeemed_step.
Qed.

End Proofs.

(** C28: Whatever other requests run between its steps, account management is granted only to
    a request that itself gave the password the account had when it was checked. *)
Theorem managed_by_password y0 os id r i :
  fresh_server y0 -> threads (run y0 os) !! id = Some (Accepted r i) -> ordinary (user r) -> by_password y0 os id r.
Proof.
  intros Hy Hth Ho. destruct (sound_threads _ _ _ (sound_run y0 os Hy) _ _ Hth) as [Hh Hc].
  apply is_completed_spec in Hc as (f & Hf & Hall). destruct (hold_managed _ _ _ _ _ Hh Ho) as [Hg Hb].
  rewrite (Hg f Hf) in Hall. destruct (Hb (Hall _ ltac:(left))) as [E|?]; [|done]. rewrite E in Hf. set_solver.
Qed.

(** Every stage of some flow of an accepted request's session was proven by a request
    under that very user, device and session. *)
Theorem accepted_flow_proved y0 os id r i :
  fresh_server y0 -> threads (run y0 os) !! id = Some (Accepted r i) ->
  exists f, f ∈ flows i /\ forall t, t ∈ f -> proved y0 os (key r i) t.
Proof.
  intros Hy Hth. destruct (sound_threads _ _ _ (sound_run y0 os Hy) _ _ Hth) as [Hh Hc].
  apply is_completed_spec in Hc as (f & Hf & Hall). exists f. split; [done|]. intros t Ht.
  by apply (hold_proved _ _ _ _ _ Hh), Hall.
Qed.

(** C29: A registration that needs an address is admitted only after it redeemed, itself and
    for its own session, the proof of an e-mail address to which a token was sent and
    whose token was submitted, unspent since: no two registrations share a proof. *)
Theorem registered_address_proven y0 os id r i a :
  fresh_server y0 -> threads (run y0 os) !! id = Some (Enrolled r i a) -> purpose r = Register true ->
  exists os1 e os2 sid b,
    os = os1 ++ Redeem id e :: os2 /\ a = Some b /\ Pending.a_medium b = "email"%string /\
    PendingFacts.address_proven derive_sid (log (run y0 os1)) (Pending.RedeemClaim (proofs e) (key r i) sid) b.
Proof.
  intros Hy Hth Hp. destruct (redeemed_run y0 os id _ Hy Hth Hp) as (os1 & e & os2 & sid & b & -> & -> & Hm & Hx).
  exists os1, e, os2, sid, b. split_and!; try done.
  destruct (Pending.exec derive_sid _ _) as [s' x] eqn:Ee. cbn [snd] in Hx. subst x.
  eapply PendingFacts.redeemed_proven; [by apply log_inv|done].
Qed.

(** The bodies kept for sessions are never dropped. *)
Theorem requests_kept y o : dom (requests (st y)) ⊆ dom (requests (st (exec y o))).
Proof.
  rewrite exec_st.
  assert (Hupd : forall i k x s, requests (update_uiaa_session i k x s).1 = requests s).
  { intros. unfold update_uiaa_session. by destruct (Maps.writes _). }
  assert (Hopen : forall e u d i fresh b s, dom (requests s) ⊆ dom (requests (open_session e u d i fresh b s).1)).
  { intros e u d i fresh [b|] s; [|done]. unfold open_session, create. cbn [session with_session].
    pose proof (Hupd (session_io e) (u, d, fresh) (Some (with_session fresh i)) (set_uiaa_request (u, d, fresh) b s)) as E.
    destruct (update_uiaa_session _ _ _ _) as [s' []]; cbn [fst] in *; rewrite E; cbn; set_solver. }
  assert (Hbegin : forall id e r i fresh s, requests s = requests (st y) -> requests (st (begin id e r i fresh s y)) = requests (st y)).
  { intros id e r i fresh s Es. unfold begin. by destruct (threads y !! id). }
  destruct o as [e u d fresh b|e fresh b|id e u d a fresh|id e a fresh|id e|id e|id e|id e|po|m t a]; cbn [step].
  - apply Hopen.
  - destruct (RegTokens.is_enabled _ _ _ _). destruct (parse_with_server_name _); [|done].
    etrans; [|apply Hopen]. done.
  - by rewrite Hbegin.
  - destruct (RegTokens.is_enabled _ _ _ _). destruct (parse_with_server_name _); [|done]. by rewrite Hbegin.
  - destruct (threads y !! id) as [[r i| | | | |]|]; try done.
    destruct (stage_kept e (user r) (device r) (default EmptyString (session i)) (auth r) (mode r) i (st y)) as [_ E].
    destruct (stage _ _ _ _ _ _ _ _). cbn in *. by rewrite E.
  - destruct (threads y !! id) as [[|r i| | | |]|]; try done.
    pose proof (settle_kept requests e (key r i) (auth r) (mode r) i (st y) Hupd) as E.
    rewrite refresh_requests in E. destruct (settle _ _ _ _ _ _). cbn [fst put st] in *. rewrite E. by destruct (_ && _).
  - destruct (threads y !! id) as [[| |r i| | |]|]; try done. destruct (purpose r) as [|[]]; try done.
    unfold redeem_claim. destruct (Pending.claim_sid _ _ _) as [[sid|]|]; try done.
    by destruct (Pending.redeem_claim _ _ _ _) as [? []].
  - destruct (threads y !! id) as [[| | |r i a| |]|]; try done.
    pose proof (Hupd (session_io e) (key r i) None (st y)) as E. destruct (update_uiaa_session _ _ _ _). cbn in *. by rewrite E.
  - done.
  - done.
Qed.

End Facts.
End UiaaFacts.
