(* ===== verification/UiaaSample.v ===== *)
(** Runs of user-interactive authentication (Uiaa.v, UiaaFacts.v) on a small server:
    the theorems' hypotheses hold on them, and what requests in flight at once, sessions
    that outlive a change of policy and a used-up token make possible. *)
From S2P Require Import Prelude Order Event Maps Time RegTokens Pending PendingFacts Ratelimit Tokens Devices Uiaa UiaaFacts.

Module UiaaSample.
Import Uiaa UiaaFacts.
Open Scope string_scope.
Open Scope list_scope.

Definition rate_01 : F64.f64 := F64.div (F64.of_Z 1) (F64.of_Z 10).
Definition acfg : Attempts.Config := Attempts.mkConfig (rate_01, 10) (rate_01, 5) (rate_01, 3).
Definition visit : Attempts.Visit := Attempts.mkVisit map_to_list map_to_list map_to_list.
Definition verify (password hash : string) : bool := String.eqb ("hash of " ++ password)%string hash.
Definition parse (name : string) : option string := Some ("@" ++ name ++ ":s")%string.
Definition derive (medium address secret : string) : string := (medium ++ "|" ++ address ++ "|" ++ secret)%string.

Definition no_accounts : Devices.State :=
  Devices.mkState (Tokens.mkState ∅ ∅ ∅ ∅ ∅) ∅ ∅ (Devices.mkUsers ∅ ∅ ∅ ∅ ∅ ∅) (Devices.mkRows ∅ ∅ ∅ ∅ ∅ ∅ ∅ ∅).
Definition alice : Devices.State :=
  Devices.with_users (Devices.with_password {["@alice:s" := "hash of secret"]} (Devices.users no_accounts)) no_accounts.

Definition server (tokens : RegTokens.table) : Sys :=
  mkSys (mkState ∅ ∅ PendingFacts.empty_tables tokens (Attempts.mkTables ∅ ∅ ∅ ∅) alice) ∅ [].

Lemma server_fresh tokens : fresh_server (server tokens).
Proof. done. Defined.

Definition env (now : Z) : Env :=
  mkEnv (Pending.mkEnv now true Maps.io_ok Maps.io_ok) Maps.io_ok (fun _ => Maps.io_ok) true Maps.io_ok.

Definition once : RegTokens.table := {["T" := Some (RegTokens.mkInfo 0 (RegTokens.mkExpires (Some 1) None))]}.
Definition no_mail : Smtp := mkSmtp false false false.
Definition mail : Smtp := mkSmtp true true false.

#[local] Abbreviation run_ smtp := (UiaaFacts.run acfg visit ∅ verify parse smtp derive).

(** A request from its loading to its admission. *)
Definition registers (id : nat) (a : AuthData) (fresh : string) : list op :=
  [BeginRegister id (env 0) a fresh; Prove id (env 0); Settle id (env 0); Redeem id (env 0); Close id (env 0)].

(** Whether a registration was admitted. *)
Definition admitted (id : nat) (y : Sys) : bool :=
  match threads y !! id with Some (Enrolled _ _ _) => true | _ => false end.

(** Alice changes her password. *)
Definition manage : list op :=
  [OpenManage (env 0) "@alice:s" "D" "S1" Event.CNull;
   BeginManage 0 (env 1) "@alice:s" "D" (PasswordData (Some "alice") "secret" (Some "S1")) "F";
   Prove 0 (env 1); Settle 0 (env 1)].

Definition manage_request : Request :=
  mkRequest "@alice:s" "D" (PasswordData (Some "alice") "secret" (Some "S1")) Manage.
Definition manage_info : UiaaInfo := mkInfo [[Password]] [Password] (Some "S1") None.

Lemma managed_by_password_witness :
  by_password acfg visit ∅ verify parse no_mail derive (server ∅) manage 0 manage_request.
Proof.
  apply (managed_by_password acfg visit ∅ verify parse no_mail derive (server ∅) manage 0 manage_request manage_info).
  - apply server_fresh.
  - vm_compute. reflexivity.
  - intros [=].
Defined.

Lemma accepted_flow_proved_witness :
  exists f, f ∈ flows manage_info /\
    forall t, t ∈ f -> proved acfg visit ∅ verify parse no_mail derive (server ∅) manage ("@alice:s", "D", "S1") t.
Proof.
  apply (accepted_flow_proved acfg visit ∅ verify parse no_mail derive (server ∅) manage 0 manage_request manage_info).
  - apply server_fresh.
  - vm_compute. reflexivity.
Defined.

(** An address to which a token is sent and whose token is submitted. *)
Definition prove_address (address secret : string) : list op :=
  [Proofs (Pending.Create (proofs (env 0)) secret "email" address 1 (Time.from_secs 3600) ("token " ++ address)%string);
   Proofs (Pending.Validate (proofs (env 1)) (derive "email" address secret) secret ("token " ++ address)%string)].

Definition by_address (id : nat) (address secret : string) (session : option string) : list op :=
  registers id (EmailData (derive "email" address secret) secret session) "F".

Definition by_mail : list op := prove_address "a@x" "sa" ++ by_address 0 "a@x" "sa" None.
Definition mail_request : Request :=
  mkRequest "@:s" "" (EmailData (derive "email" "a@x" "sa") "sa" None) (Register true).
Definition mail_info : UiaaInfo := mkInfo [[EmailIdentity]] [EmailIdentity] (Some "F") None.

Lemma registered_address_proven_witness :
  exists os1 e os2 sid b,
    by_mail = os1 ++ Redeem 0 e :: os2 /\ Some (Pending.mkAssociation "email" "a@x") = Some b /\
    Pending.a_medium b = "email" /\
    PendingFacts.address_proven derive (log (run_ mail (server ∅) os1))
      (Pending.RedeemClaim (proofs e) (key mail_request mail_info) sid) b.
Proof.
  apply (registered_address_proven acfg visit ∅ verify parse mail derive (server ∅) by_mail 0 mail_request mail_info).
  - apply server_fresh.
  - vm_compute. reflexivity.
  - reflexivity.
Defined.

(** ** What goes wrong *)

(** Two requests continue a session whose token was used once, each with its own address:
    both registrations are admitted. *)
Definition race : list op :=
  OpenRegister (env 0) "S" Event.CNull ::
  [BeginRegister 0 (env 0) (TokenData "T" (Some "S")) ""; Prove 0 (env 0); Settle 0 (env 0)] ++
  prove_address "a@x" "sa" ++ prove_address "b@x" "sb" ++
  BeginRegister 2 (env 0) (EmailData (derive "email" "b@x" "sb") "sb" (Some "S")) "" ::
  by_address 1 "a@x" "sa" (Some "S") ++
  [Prove 2 (env 0); Settle 2 (env 0); Redeem 2 (env 0); Close 2 (env 0)].

Theorem one_token_two_accounts :
  let y := run_ mail (server once) race in
  admitted 1 y = true /\ admitted 2 y = true /\ tokens (st y) = ∅.
Proof. vm_compute. done. Qed.

(** A token is required while one is valid: once the only one is used up, anyone may register. *)
Theorem exhausted_token_opens_registration :
  let y := run_ no_mail (server once) (registers 0 (DummyData None) "E" ++ registers 1 (TokenData " T" None) "F" ++
    registers 2 (DummyData None) "G") in
  admitted 0 y = false /\ admitted 1 y = true /\ admitted 2 y = true.
Proof. vm_compute. done. Qed.

(** A session opened before a token was required still asks for none. *)
Theorem old_session_skips_token :
  let y := run_ no_mail (server ∅) (OpenRegister (env 0) "S" Event.CNull ::
    Elsewhere once (Attempts.mkTables ∅ ∅ ∅ ∅) alice ::
    registers 0 (DummyData None) "E" ++ registers 1 (DummyData (Some "S")) "F") in
  admitted 0 y = false /\ admitted 1 y = true.
Proof. vm_compute. done. Qed.

End UiaaSample.
