(* ===== verification/Register.v ===== *)
(** The requests that end in a session of the client API: registering,
    [phantom-api/src/client/auth/register/register.rs], and logging in by password,
    [client/auth/session/password.rs], with the limits of Ratelimit.v, the interactive
    authentication of Uiaa.v and the accounts of Devices.v.

    What is announced, the profile, the e-mail binding and the grant to the first user
    come after the account exists and are not modelled. Identifiers, text cases, the
    forbidden names and the application services are parameters. *)
From S2P Require Import Prelude Order Event Maps Time RegTokens Pending Ratelimit Tokens Devices Sessions Uiaa.

Module Register.

(** [Undrawn]: the random names given all belong to users. *)
Inductive error :=
  | Uia (e : Uiaa.error) | Account (e : Tokens.error) | LimitExceeded (e : Ratelimit.error)
  | RegistrationDisabled | GuestAccessForbidden | UsernameForbidden | InvalidUsername | UserInUse
  | BadJson | Exclusive | MissingToken | Storage | Undrawn
  | Unknown | WrongPassword | UserDeactivated.

(** An access token, a refresh token, and for how long the first is good. *)
Abbreviation Reply := (string * option string * option Z)%type.

Record Config := mkConfig {
  allow_registration : bool;
  allow_guest_registration : bool;
  emergency_mode_enabled : bool
}.

(** An application service: whether it is the IRC bridge, and the users it may have. *)
Record Appservice := mkAppservice { is_irc : bool; is_user_match : string -> bool }.

Record Body := mkBody {
  is_guest : bool;
  username : option string;
  password : option string;
  device_id : option string;
  display_name : option string;
  inhibit_login : bool;
  refresh_token : bool;
  application_service : bool;
  appservice_info : option Appservice;
  auth : option Uiaa.AuthData;
  json_body : option Event.CanonicalJsonValue
}.

Definition has_appservice (b : Body) : bool := match appservice_info b with Some _ => true | None => false end.

(** How the services answer: interactive authentication, its redemption, accounts,
    the two writes of a device, the account data; and the random texts drawn. *)
Record Env := mkEnv {
  uia : Uiaa.Env;
  uia' : Uiaa.Env;
  acct : Devices.Env;
  acct' : Devices.Env;
  data_ok : bool;
  names : list string;
  session_id : string;
  drawn_device : string;
  draw : Sessions.Draw
}.

Section Routes.
Context (acfg : Attempts.Config) (visit : Attempts.Visit) (config_tokens : gset string).
Context (verify_password : string -> string -> bool) (parse_with_server_name : string -> option string).
Context (smtp : Uiaa.Smtp) (cfg : Config) (tcfg : Tokens.Config) (hash : string -> option string).
Context (forbidden_usernames : string -> bool) (to_lowercase : string -> string).
Context (validate_strict : string -> bool) (is_exclusive_user_id : string -> bool).
(** The address of the client as text, and the parts of an identifier. *)
Context (ip_string : Attempts.IpAddr -> string) (localpart : string -> string) (user_is_local : string -> bool).

#[local] Abbreviation State := Uiaa.State.

Definition exists_ (u : string) (s : State) : bool := Devices.exists_ u (Uiaa.accounts s).

(** ** Registering *)

Definition gate_registration_allowed (b : Body) : result error unit :=
  if negb (allow_registration cfg) && negb (has_appservice b) then Err RegistrationDisabled else
  if is_guest b && negb (allow_guest_registration cfg) then Err GuestAccessForbidden else Ok ().

(** The first of the names drawn that no user has. *)
Fixpoint draw_user_id (names : list string) (s : State) : result error string :=
  match names with
  | [] => Err Undrawn
  | name :: names =>
      match parse_with_server_name (to_lowercase name) with
      | None => Err InvalidUsername
      | Some u => if exists_ u s then draw_user_id names s else Ok u
      end
  end.

Definition resolve_registration_user_id (e : Env) (b : Body) (s : State) : result error string :=
  match username b, is_guest b with
  | Some name, false =>
      let irc := match appservice_info b with Some a => is_irc a | None => false end in
      if forbidden_usernames name && negb (emergency_mode_enabled cfg) then Err UsernameForbidden else
      match parse_with_server_name (if irc then name else to_lowercase name) with
      | None => Err InvalidUsername
      | Some u =>
          if negb (validate_strict u) && (negb irc && negb (emergency_mode_enabled cfg)) then Err InvalidUsername else
          if exists_ u s then Err UserInUse else Ok u
      end
  | _, _ => draw_user_id (names e) s
  end.

Definition check_appservice_namespace (b : Body) (u : string) : result error unit :=
  match appservice_info b with
  | Some a =>
      if negb (application_service b) then Err BadJson else
      if negb (is_user_match a u) && negb (emergency_mode_enabled cfg) then Err Exclusive else Ok ()
  | None =>
      if application_service b then Err MissingToken else
      if is_exclusive_user_id u && negb (emergency_mode_enabled cfg) then Err Exclusive else Ok ()
  end.

Definition full_register (e : Env) (u : string) (password : option string) (s : State) : State * result error unit :=
  if exists_ u s then (s, Err UserInUse) else
  let '(a, r) := Devices.set_password hash (acct e) u password (Uiaa.accounts s) in
  (Uiaa.with_accounts a s,
   match r with Err err => Err (Account err) | Ok _ => if data_ok e then Ok () else Err Storage end).

(** The device and the tokens of a new account. *)
Definition first_login (e : Env) (client : Attempts.IpAddr) (b : Body) (u : string) (s : State) :
    State * result error (string * option (string * Reply)) :=
  let d := match is_guest b, device_id b with false, Some d => d | _, _ => drawn_device e end in
  let '(access_token, expires_in) :=
    Tokens.generate_access_token tcfg (Sessions.draw_access (draw e)) (refresh_token b) in
  let refresh := if bool_decide (is_Some expires_in)
    then Some (Tokens.generate_refresh_token (Sessions.draw_refresh (draw e))) else None in
  match Devices.create_device tcfg (acct e) (u, d) access_token (display_name b) (Some (ip_string client)) (Uiaa.accounts s) with
  | (a, Err err) => (Uiaa.with_accounts a s, Err (Account err))
  | (a, Ok _) =>
      let '(a, r) := Devices.set_access_token tcfg (acct' e) (u, d) access_token expires_in refresh a in
      (Uiaa.with_accounts a s,
       match r with Err err => Err (Account err) | Ok _ => Ok (u, Some (d, (access_token, refresh, expires_in))) end)
  end.

(** What a registration does between reserving its token and committing it. *)
Definition register_account (e : Env) (b : Body) (s : State) : State * result error string :=
  match resolve_registration_user_id e b s with
  | Err err => (s, Err err)
  | Ok u =>
      match check_appservice_namespace b u with
      | Err err => (s, Err err)
      | Ok _ =>
          match Uiaa.enforce_uiaa acfg visit config_tokens verify_password parse_with_server_name smtp (uia e) (uia' e)
                  (has_appservice b) (is_guest b) (auth b) (json_body b) (session_id e) s with
          | (s, Err err) => (s, Err (Uia err))
          | (s, Ok _) =>
              match full_register e u (if is_guest b then None else password b) s with
              | (s, Err err) => (s, Err err)
              | (s, Ok _) => (s, Ok u)
              end
          end
      end
  end.

Definition register_route (e : Env) (client : Attempts.IpAddr) (b : Body) (s : State) :
    State * result error (string * option (string * Reply)) :=
  match gate_registration_allowed b with
  | Err err => (s, Err err)
  | Ok _ =>
      let '(t, reserved) :=
        match appservice_info b with
        | None => Attempts.reserve_registration acfg visit client (Uiaa.now (uia e)) (Uiaa.tables s)
        | Some _ => (Uiaa.tables s, Ok ())
        end in
      let s := Uiaa.with_tables t s in
      match reserved with
      | Err err => (s, Err (LimitExceeded err))
      | Ok _ =>
          let '(s, r) := register_account e b s in
          let s := match appservice_info b with
                   | None => Uiaa.with_tables (Attempts.drop_registration acfg client (is_ok r) (Uiaa.tables s)) s
                   | Some _ => s
                   end in
          match r with
          | Err err => (s, Err err)
          | Ok u => if negb (is_guest b) && inhibit_login b then (s, Ok (u, None)) else first_login e client b u s
          end
      end
  end.

(** ** Logging in *)

Definition password_login (now : Z) (u lowercased password : string) (s : State) : State * result error string :=
  match match Uiaa.password_hash u s with
        | Some h => Some (h, u)
        | None => (fun h => (h, lowercased)) <$> Uiaa.password_hash lowercased s
        end with
  | None => (s, Err WrongPassword)
  | Some (h, u) =>
      let '(t, r) := Attempts.check_password acfg visit u now (Uiaa.tables s) in
      match r with
      | Err err => (Uiaa.with_tables t s, Err (LimitExceeded err))
      | Ok _ =>
          let done (failed : bool) (r : result error string) :=
            (Uiaa.with_tables (Attempts.drop_attempt acfg (Attempts.Account u) failed t) s, r) in
          if match Devices.is_deactivated u (Uiaa.accounts s) with Ok b => b | Err _ => false end
          then done false (Err UserDeactivated) else
          if String.eqb h EmptyString then done false (Err WrongPassword) else
          if verify_password password h then done false (Ok u) else done true (Err WrongPassword)
      end
  end.

(** [identifier]: [Some] a Matrix user name, or the deprecated [user]. *)
Definition handle_login (now : Z) (identifier deprecated_user : option string) (password : string) (s : State) :
    State * result error string :=
  match match identifier with Some n => Some n | None => deprecated_user end with
  | None => (s, Err Unknown)
  | Some name =>
      match parse_with_server_name name with
      | None => (s, Err InvalidUsername)
      | Some u =>
          match parse_with_server_name (to_lowercase (localpart u)) with
          | None => (s, Err InvalidUsername)
          | Some lowercased =>
              if negb (user_is_local u) || negb (user_is_local lowercased) then (s, Err Unknown)
              else password_login now u lowercased password s
          end
      end
  end.

(** [POST /login] with a password: the address is charged, then the account. *)
Definition login_with_password (e : Env) (client : Attempts.IpAddr) (enabled : bool)
    (identifier deprecated_user : option string) (password : string) (b : Body) (s : State) :
    State * result error (Tokens.Owner * Reply) :=
  let now := Uiaa.now (uia e) in
  let '(t, r) := Attempts.check_login acfg visit client now (Uiaa.tables s) in
  let s := Uiaa.with_tables t s in
  match r with
  | Err err => (s, Err (LimitExceeded err))
  | Ok _ =>
      if negb enabled then (s, Err Unknown) else
      match handle_login now identifier deprecated_user password s with
      | (s, Err err) => (s, Err err)
      | (s, Ok u) =>
          let '(a, r) := Sessions.login_route tcfg (acct e) (acct' e) (draw e) u (device_id b) (drawn_device e)
            (display_name b) (Some (ip_string client)) (refresh_token b) (Uiaa.accounts s) in
          (Uiaa.with_accounts a s, match r with Ok x => Ok x | Err err => Err (Account err) end)
      end
  end.

End Routes.
End Register.
