(* ===== verification/RegisterFacts.v ===== *)
(** What registering and logging in (Register.v) do, request by request: a registration
    makes one new account and leaves the others alone; its address is charged if it
    succeeded; and a password is accepted exactly if it is the account's, a wrong one
    costing the account one attempt. *)
From S2P Require Import Prelude Order Event Maps Time RegTokens Pending Ratelimit RatelimitFacts Tokens Devices Sessions Uiaa Register.

Module RegisterFacts.
Import Register.

Section Facts.
Context (acfg : Attempts.Config) (visit : Attempts.Visit) (config_tokens : gset string).
Context (verify_password : string -> string -> bool) (parse_with_server_name : string -> option string).
Context (smtp : Uiaa.Smtp) (cfg : Config) (tcfg : Tokens.Config) (hash : string -> option string).
Context (forbidden_usernames : string -> bool) (to_lowercase : string -> string).
Context (validate_strict : string -> bool) (is_exclusive_user_id : string -> bool).
Context (ip_string : Attempts.IpAddr -> string).

#[local] Abbreviation try_auth_inner := (Uiaa.try_auth_inner acfg visit config_tokens verify_password parse_with_server_name).
#[local] Abbreviation enforce_uiaa := (Uiaa.enforce_uiaa acfg visit config_tokens verify_password parse_with_server_name smtp).
#[local] Abbreviation register_account := (Register.register_account acfg visit config_tokens verify_password
  parse_with_server_name smtp cfg hash forbidden_usernames to_lowercase validate_strict is_exclusive_user_id).
#[local] Abbreviation register_route := (Register.register_route acfg visit config_tokens verify_password
  parse_with_server_name smtp cfg tcfg hash forbidden_usernames to_lowercase validate_strict is_exclusive_user_id ip_string).
#[local] Abbreviation password_login := (Register.password_login acfg visit verify_password).

(** What interactive authentication of a registration leaves alone: the accounts and the
    allowances of addresses. *)
Definition kept (s s' : Uiaa.State) : Prop :=
  Uiaa.accounts s' = Uiaa.accounts s /\ Attempts.registration (Uiaa.tables s') = Attempts.registration (Uiaa.tables s).

Lemma kept_refl s : kept s s.
Proof. done. Qed.
Lemma kept_trans s1 s2 s3 : kept s1 s2 -> kept s2 s3 -> kept s1 s3.
Proof. intros [E1 E2] [E3 E4]. split; congruence. Qed.

Lemma kept_update i k x s : kept s (Uiaa.update_uiaa_session i k x s).1.
Proof. unfold Uiaa.update_uiaa_session. by destruct (Maps.writes i). Qed.

Lemma kept_open e u d i fresh b s : kept s (Uiaa.open_session e u d i fresh b s).1.
Proof.
  unfold Uiaa.open_session, Uiaa.create. destruct b as [b|]; [|done]. cbn [Uiaa.session Uiaa.with_session].
  pose proof (kept_update (Uiaa.session_io e) (u, d, fresh) (Some (Uiaa.with_session fresh i))
    (Uiaa.set_uiaa_request (u, d, fresh) b s)). by destruct (Uiaa.update_uiaa_session _ _ _ _) as [? []].
Qed.

Lemma kept_refresh e k s : kept s (Uiaa.refresh_claim e k s).1.
Proof.
  unfold Uiaa.refresh_claim. destruct (Pending.claim_sid _ _ _) as [[sid|]|]; try done.
  by destruct (Pending.refresh_claim _ _ _ _).
Qed.

Lemma kept_stage e u d ss a md i s :
  kept s (Uiaa.stage acfg visit config_tokens verify_password parse_with_server_name e u d ss a md i s).1.
Proof.
  destruct a as [[name|] pw ?|tok ?|?|?|?|sid sec ?|?]; cbn [Uiaa.stage Uiaa.password_stage]; try done.
  - destruct (parse_with_server_name name); [|done]. destruct (negb _); [done|].
    unfold Attempts.check_session_password, Attempts.spend, Attempts.drop_attempt.
    destruct (Ratelimit.is_disabled _); cbn [fst snd]; [|destruct (Ratelimit.check _ _ _ _ _).2; [|done]];
      rewrite ?orb_true_r; [done|]; by destruct (negb _ || _).
  - by destruct (RegTokens.try_consume _ _ _ _ _).
  - destruct md; cbn; [done|]. by destruct (Pending.claim_validated _ _ _ _ _).
Qed.

Lemma kept_settle e k a md i s : kept s (Uiaa.settle e k a md i s).1.
Proof.
  unfold Uiaa.settle.
  assert (Hreply : forall o (ans : bool * Uiaa.UiaaInfo) s', kept s s' ->
    kept s (match Uiaa.update_uiaa_session (Uiaa.session_io e) k o s' with
    | (s, Ok _) => (s, Ok ans) | (s, Err err) => (s, Err err) end).1).
  { intros o ans s' Hk. pose proof (kept_trans _ _ _ Hk (kept_update (Uiaa.session_io e) k o s')).
    by destruct (Uiaa.update_uiaa_session _ _ _ _) as [? []]. }
  pose proof (kept_refresh e k s) as Hr.
  destruct (_ && negb _); [|by destruct (negb _); apply Hreply].
  destruct (Uiaa.refresh_claim e k s) as [s' [[]|]]; [by destruct (negb _); apply Hreply|by apply Hreply|done].
Qed.

Lemma kept_try_auth e u d a i md fresh s : kept s (try_auth_inner e u d a i md fresh s).1.
Proof.
  unfold Uiaa.try_auth_inner. destruct (Uiaa.load _ _ _ _ _ _ _) as [i'|]; [|done].
  pose proof (kept_stage e u d (default EmptyString (Uiaa.session i')) a md i' s) as Hs.
  destruct (Uiaa.stage _ _ _ _ _ _ _ _ _ _ _ _ _) as [s' [x| |]]; try done.
  eapply kept_trans; [exact Hs|]. apply kept_settle.
Qed.

Lemma kept_finish e e' k email s : kept s (Uiaa.finish_registration e e' k email s).1.
Proof.
  unfold Uiaa.finish_registration.
  assert (Hclose : forall (a : option Pending.Association) s', kept s s' ->
    kept s (match Uiaa.update_uiaa_session (Uiaa.session_io e') k None s' with
    | (s, Ok _) => (s, Ok a) | (s, Err err) => (s, Err err) end).1).
  { intros a s' Hk. pose proof (kept_trans _ _ _ Hk (kept_update (Uiaa.session_io e') k None s')).
    by destruct (Uiaa.update_uiaa_session _ _ _ _) as [? []]. }
  destruct email; [|by apply Hclose]. unfold Uiaa.redeem_claim.
  destruct (Pending.claim_sid _ _ _) as [[sid|]|]; try done.
  destruct (Pending.redeem_claim _ _ _ _) as [p [a|]]; [|done]. destruct (String.eqb _ _); [|done]. by apply Hclose.
Qed.

Lemma kept_enforce e e' app guest a b fresh s : kept s (enforce_uiaa e e' app guest a b fresh s).1.
Proof.
  unfold Uiaa.enforce_uiaa. destruct (app || guest); [done|].
  destruct (RegTokens.is_enabled _ _ _ _) as [m required]. destruct (parse_with_server_name _) as [u|]; [|done].
  destruct a as [a|].
  - match goal with |- context [Uiaa.try_auth_inner _ _ _ _ _ ?e ?u ?d ?a ?i ?md ?f ?s0] =>
      pose proof (kept_try_auth e u d a i md f s0) as Ht end.
    destruct (Uiaa.try_auth_inner _ _ _ _ _ _ _ _ _ _ _ _ _) as [s' [[[] i]|]]; try done.
    eapply kept_trans; [exact Ht|]. apply kept_finish.
  - match goal with |- context [Uiaa.open_session ?e ?u ?d ?i ?f ?b ?s0] => pose proof (kept_open e u d i f b s0) as Ht end.
    by destruct (Uiaa.open_session _ _ _ _ _ _ _).
Qed.

(** ** New accounts *)

Definition rows (s : Uiaa.State) : gmap string string := Devices.userid_password (Devices.users (Uiaa.accounts s)).

(** Accounts that exist keep their password. *)
Definition accounts_kept (s s' : Uiaa.State) : Prop := rows s ⊆ rows s'.
(** The account of [u] was made. *)
Definition made (u : string) (s s' : Uiaa.State) : Prop := rows s !! u = None /\ is_Some (rows s' !! u).

Lemma accounts_kept_refl s s' : rows s' = rows s -> accounts_kept s s'.
Proof. unfold accounts_kept. by intros ->. Qed.
#[local] Hint Resolve accounts_kept_refl : core.

Lemma exists_rows u s : exists_ u s = true <-> is_Some (rows s !! u).
Proof. unfold exists_, Devices.exists_. by rewrite bool_decide_eq_true. Qed.

Lemma full_register_exact e u pw s s' r :
  full_register hash e u pw s = (s', r) ->
  Uiaa.tables s' = Uiaa.tables s /\ accounts_kept s s' /\ (r = Ok () -> made u s s') /\
  (data_ok e = true -> r <> Ok () -> Uiaa.accounts s' = Uiaa.accounts s).
Proof.
  unfold full_register. destruct (exists_ u s) eqn:Ex; [intros [= <- <-]; by split_and!; auto|].
  assert (Hnone : rows s !! u = None).
  { apply eq_None_not_Some. intros Hs%exists_rows. congruence. }
  unfold Devices.set_password. destruct (match pw with None => _ | Some p => hash p end) as [h|];
    [|intros [= <- <-]; by split_and!; auto].
  destruct (Devices.row_ok _ _); [|intros [= <- <-]; by split_and!; auto]. intros [= <- <-].
  split; [done|]. split; [by apply insert_subseteq|]. split; [|by destruct (data_ok e)].
  intros _. split; [done|]. cbn. by rewrite lookup_insert_eq.
Qed.

Lemma register_account_exact e b s s' r :
  register_account e b s = (s', r) ->
  Attempts.registration (Uiaa.tables s') = Attempts.registration (Uiaa.tables s) /\ accounts_kept s s' /\
  (forall u, r = Ok u -> made u s s') /\ (data_ok e = true -> is_ok r = false -> Uiaa.accounts s' = Uiaa.accounts s).
Proof.
  unfold Register.register_account. destruct (resolve_registration_user_id _ _ _ _ _ _ _ _) as [u|];
    [|intros [= <- <-]; by split_and!; auto].
  destruct (check_appservice_namespace _ _ _ _) as [|]; [|intros [= <- <-]; by split_and!; auto].
  match goal with |- context [Uiaa.enforce_uiaa _ _ _ _ _ _ ?e ?e' ?x ?g ?a ?b ?f ?s0] =>
    destruct (kept_enforce e e' x g a b f s0) as [Ea Et]; destruct (enforce_uiaa e e' x g a b f s0) as [s1 [a1|]] end;
    cbn [fst] in *; [|intros [= <- <-]; split; [done|]; split; [|done]; unfold accounts_kept, rows; by rewrite Ea].
  destruct (full_register _ _ _ _ _) as [s2 x] eqn:Ef. apply full_register_exact in Ef as (Ht & Hk & Hm & Hd).
  assert (Er : rows s1 = rows s) by (unfold rows; by rewrite Ea).
  unfold accounts_kept, made in *. rewrite Er in *.
  assert (Hres : Attempts.registration (Uiaa.tables s2) = Attempts.registration (Uiaa.tables s)) by by rewrite Ht.
  destruct x as [[]|]; intros [= <- <-]; split_and!; try done.
  - intros v [= <-]. by apply Hm.
  - intros Hok _. rewrite Hd by done. done.
Qed.

(** Devices and tokens are no accounts. *)
Lemma create_device_rows e o t name ip a :
  Devices.userid_password (Devices.users (Devices.create_device tcfg e o t name ip a).1) =
  Devices.userid_password (Devices.users a).
Proof.
  unfold Devices.create_device, Devices.set_access_token, Devices.increment, Devices.put.
  destruct (negb _); [done|]. destruct (Tokens.set_access_token _ _ _ _ _ _ _ _). cbn.
  by destruct (Devices.row_ok e Devices.VersionRow), (Devices.row_ok e Devices.MetadataRow).
Qed.

Lemma first_login_exact e client b u s s' r :
  first_login tcfg ip_string e client b u s = (s', r) ->
  rows s' = rows s /\ Uiaa.tables s' = Uiaa.tables s /\ (forall v x, r = Ok (v, x) -> v = u).
Proof.
  unfold first_login. destruct (Tokens.generate_access_token _ _ _) as [t ex].
  match goal with |- context [Devices.create_device _ ?e ?o ?t ?n ?ip ?a] =>
    pose proof (create_device_rows e o t n ip a) as Ec; destruct (Devices.create_device tcfg e o t n ip a) as [a1 [|]] end;
    cbn [fst] in Ec; [|by intros [= <- <-]].
  unfold Devices.set_access_token. destruct (Tokens.set_access_token _ _ _ _ _ _ _ _) as [t1 x]. intros [= <- <-].
  split; [done|]. split; [done|]. intros v y. destruct x; [|done]. by intros [= <- _].
Qed.

(** A registration makes an account that was not there and leaves every other account
    as it was, whatever the services answer. *)
Theorem registers_new_account e client b s s' r :
  register_route e client b s = (s', r) ->
  accounts_kept s s' /\ (forall u x, r = Ok (u, x) -> made u s s').
Proof.
  unfold Register.register_route. destruct (gate_registration_allowed _ _); [|intros [= <- <-]; by split; auto].
  destruct (match appservice_info b with None => _ | Some _ => _ end) as [t [|]]; [|intros [= <- <-]; by split; auto].
  destruct (register_account e b (Uiaa.with_tables t s)) as [s1 x] eqn:Ea.
  apply register_account_exact in Ea as (_ & Hk & Hm & _).
  set (s2 := match appservice_info b with None => _ | Some _ => _ end).
  assert (E2 : rows s2 = rows s1) by (unfold s2; by destruct (appservice_info b)).
  destruct x as [u|].
  - destruct (Hm u eq_refl) as [Hn Hs].
    destruct (negb _ && _); [intros [= <- <-]|intros (E3 & _ & Hv)%first_login_exact];
      unfold accounts_kept, made in *; rewrite ?E3, E2; (split; [done|]).
    + by intros v x [= <- _].
    + by intros v x ->%Hv.
  - intros [= <- <-]. split; [|done]. unfold accounts_kept in *. by rewrite E2.
Qed.

(** ** What an attempt costs *)

(** The allowance of each key of a table, at the instant of a request. *)
Record allows {K} `{Countable K} (l : Ratelimit.Limit) (n now : Z) (ks : gset K) (m : Ratelimit.Ratelimiter K) (c : K -> Z) : Prop := {
  allows_limit : RatelimitFacts.limits l n;
  allows_enabled : 1 <= n;
  allows_room : Z.of_nat (size ks) <= Ratelimit.DEFAULT_MAP_CAP;
  allows_holds : RatelimitFacts.holds n now ks m c
}.

Lemma allows_with {K} `{Countable K} l n now (ks : gset K) m m' c c' :
  allows l n now ks m c -> RatelimitFacts.holds n now ks m' c' -> allows l n now ks m' c'.
Proof. by intros [? ? ? _] ?. Qed.

(** A registration without tokens left is refused and changes nothing else; one with
    tokens is charged one of them exactly if it made its account. *)
Theorem registration_charged n ks c e client b s s' r :
  let k := Attempts.to_canonical client in
  let allowance := allows (Attempts.registration_limit acfg) n (Uiaa.now (uia e)) ks in
  allowance (Attempts.registration (Uiaa.tables s)) c -> k ∈ ks ->
  appservice_info b = None -> data_ok e = true -> gate_registration_allowed cfg b = Ok () ->
  register_route e client b s = (s', r) ->
  (c k < 1 -> (exists err, r = Err (LimitExceeded err)) /\ Uiaa.accounts s' = Uiaa.accounts s /\
     allowance (Attempts.registration (Uiaa.tables s')) c) /\
  (1 <= c k ->
     (exists u, made u s s') /\ allowance (Attempts.registration (Uiaa.tables s')) (RatelimitFacts.upd c k (c k - 1)) \/
     is_ok r = false /\ Uiaa.accounts s' = Uiaa.accounts s /\ allowance (Attempts.registration (Uiaa.tables s')) c).
Proof.
  intros k allowance Ha Hk Happ Hdata Hgate. unfold Register.register_route. rewrite Hgate, Happ.
  pose proof Ha as [Hl Hn Hroom Hh]. unfold Attempts.reserve_registration, Attempts.spend, Attempts.drop_registration.
  rewrite (RatelimitFacts.limits_enabled _ n) by done. fold k.
  destruct (RatelimitFacts.check_holds (Attempts.visit_ip visit) _ n (Uiaa.now (uia e)) ks _ c k Hl Hh Hk Hroom)
    as (m' & Hc & Hyes & Hno). rewrite Hc. cbn [fst snd].
  destruct (Z.leb_spec 1 (c k)) as [Hpos|Hneg].
  - destruct (Hyes Hpos) as [Hspent Hback].
    destruct (register_account e b _) as [s1 x] eqn:Ea. apply register_account_exact in Ea as (Ht & _ & Hm & Hd).
    cbn in Ht. rewrite orb_false_r. intros Hroute. split; [lia|]. intros _. destruct x as [u|]; cbn [is_ok] in *.
    + left. destruct (Hm u eq_refl) as [Hu1 Hu2].
      assert (Hend : rows s' = rows s1 /\ Uiaa.tables s' = Uiaa.tables s1).
      { destruct (negb _ && _); [by injection Hroute as <- _|].
        by apply first_login_exact in Hroute as (? & ? & _). }
      destruct Hend as [Er Et]. split; [exists u; split; [done|by rewrite Er]|]. rewrite Et, Ht. by eapply allows_with.
    + right. injection Hroute as <- <-. cbn. split_and!; [done|by rewrite Hd|]. rewrite Ht. by eapply allows_with.
  - intros [= <- <-]. split; [|lia]. intros _. split_and!; [by eexists|done|]. cbn. by eapply allows_with; eauto.
Qed.

(** The account a name and password are held against. *)
Definition account_of (u lowercased : string) (s : Uiaa.State) : option (string * string) :=
  match Uiaa.password_hash u s with
  | Some h => Some (h, u)
  | None => (fun h => (h, lowercased)) <$> Uiaa.password_hash lowercased s
  end.

Definition deactivated (u : string) (s : Uiaa.State) : bool :=
  match Devices.is_deactivated u (Uiaa.accounts s) with Ok b => b | Err _ => false end.

(** Where the limiter counts whole attempts at one instant, an attempt is charged exactly if
    the account has a password and this is not it. *)
Theorem password_login_counted n ks c now u lowercased pw s h v s' r :
  let allowance := allows (Attempts.failed_limit acfg) n now ks in
  allowance (Attempts.failed (Uiaa.tables s)) c -> account_of u lowercased s = Some (h, v) -> v ∈ ks ->
  password_login now u lowercased pw s = (s', r) ->
  let open_ := negb (deactivated v s) && negb (String.eqb h EmptyString) in
  Uiaa.accounts s' = Uiaa.accounts s /\ Uiaa.infos s' = Uiaa.infos s /\
  (r = Ok v <-> 1 <= c v /\ open_ = true /\ verify_password pw h = true) /\
  (forall w, r = Ok w -> w = v) /\
  allowance (Attempts.failed (Uiaa.tables s'))
    (if (1 <=? c v) && open_ && negb (verify_password pw h) then RatelimitFacts.upd c v (c v - 1) else c).
Proof using acfg visit verify_password.
  intros allowance Ha Hacc Hv. unfold Register.password_login. fold (account_of u lowercased s). rewrite Hacc.
  pose proof Ha as [Hl Hn Hroom Hh]. unfold Attempts.check_password, Attempts.spend, Attempts.drop_attempt.
  rewrite (RatelimitFacts.limits_enabled _ n) by done.
  destruct (RatelimitFacts.check_holds (Attempts.visit_user visit) _ n now ks _ c v Hl Hh Hv Hroom)
    as (m' & Hc & Hyes & Hno). rewrite Hc. cbn [fst snd]. fold (deactivated v s).
  destruct (Z.leb_spec 1 (c v)) as [Hpos|Hneg]; cbn [andb].
  - destruct (Hyes Hpos) as [Hspent Hback].
    destruct (deactivated v s), (String.eqb h EmptyString), (verify_password pw h); cbn;
      intros [= <- <-]; (split_and!; [done|done|clear - Hpos; naive_solver|clear; naive_solver|]); by eapply allows_with.
  - intros [= <- <-]. split_and!; [done|done|split; [done|lia]|done|]. cbn. by eapply allows_with; eauto.
Qed.

(** What is left to a key of a table at [now]: its bucket refilled, or a full one. *)
Definition tokens_left {K} `{Countable K} (l : Ratelimit.Limit) (now : Z) (k : K) (m : Ratelimit.Ratelimiter K) : F64.f64 :=
  let '(last, tokens) := default (now, Ratelimit.burst l) (m !! k) in Ratelimit.refill last tokens l now.

(** Making room only drops buckets. *)
Lemma evict_drops_only {K} `{Countable K} vis l now cap (m : Ratelimit.Ratelimiter K) k :
  Ratelimit.evict vis l now cap m !! k = m !! k \/ Ratelimit.evict vis l now cap m !! k = None.
Proof using Type.
  assert (Hsub : forall es m0 o, (foldl (Ratelimit.sweep_step l now) (m0, o) es).1 !! k = m0 !! k \/
    (foldl (Ratelimit.sweep_step l now) (m0, o) es).1 !! k = None).
  { induction es as [|[k' [last tk]] es IH]; intros m0 o; cbn [foldl]; [by left|].
    unfold Ratelimit.sweep_step at 2 4. destruct (F64.lt _ _); [apply IH|].
    destruct (IH (delete k' m0) o) as [->|]; [|by right].
    destruct (decide (k' = k)) as [->|]; [right; apply lookup_delete_eq|left; by rewrite lookup_delete_ne]. }
  unfold Ratelimit.evict. specialize (Hsub (vis m) m None).
  destruct (foldl _ _ _) as [m' oldest]. cbn [fst] in Hsub.
  destruct oldest as [[k' at_]|]; [|done]. destruct (cap <=? _); [|done].
  destruct (decide (k' = k)) as [->|]; [right; apply lookup_delete_eq|by rewrite lookup_delete_ne].
Qed.

(** What a check answers and leaves, whatever the table holds. *)
Lemma check_exact {K} `{Countable K} vis l now (k : K) (m : Ratelimit.Ratelimiter K) :
  let left := tokens_left l now k m in
  exists m', Ratelimit.check vis k l now m =
      (m', if F64.lt left (F64.of_Z 1) then Err (Ratelimit.exceeded l left) else Ok ()) /\
    m' !! k = Some (if F64.lt left (F64.of_Z 1) then default (now, Ratelimit.burst l) (m !! k)
                    else (now, F64.sub left (F64.of_Z 1))) /\
    forall w, w <> k -> m' !! w = m !! w \/
      m' !! w = None /\ m !! k = None /\ Ratelimit.DEFAULT_MAP_CAP <= Z.of_nat (size m).
Proof using Type.
  unfold tokens_left, Ratelimit.check, Ratelimit.check_at, Ratelimit.debit.
  destruct (m !! k) as [[last tk]|] eqn:Ek; cbn [default from_option id fst snd].
  - destruct (F64.lt _ _); eexists; (split; [reflexivity|]); (split; [by rewrite lookup_insert_eq|]);
      intros w Hne; left; by rewrite lookup_insert_ne.
  - set (m1 := if _ <=? _ then _ else m).
    assert (Hm1 : forall w, m1 !! w = m !! w \/
      m1 !! w = None /\ @None Ratelimit.Bucket = None /\ Ratelimit.DEFAULT_MAP_CAP <= Z.of_nat (size m)).
    { intros w. unfold m1. destruct (Z.leb_spec Ratelimit.DEFAULT_MAP_CAP (Z.of_nat (size m))); [|by left].
      destruct (evict_drops_only vis l now Ratelimit.DEFAULT_MAP_CAP m w); [by left|by right]. }
    destruct (F64.lt _ _); eexists; (split; [reflexivity|]); (split; [by rewrite lookup_insert_eq|]);
      intros w Hne; rewrite lookup_insert_ne by done; apply Hm1.
Qed.

(** C30: What a login by password does, whatever the table of failed attempts holds and at
    whatever time. Without an account of that name it is refused and changes nothing. Else it
    succeeds exactly if the limiter is off or the account's bucket, refilled, has a token, the
    account is not deactivated, has a password and this is it. A refused attempt leaves the
    account's bucket; an admitted one takes a token and gives it back unless the account has a
    password and this is not it. Other accounts' buckets stay, unless one must be dropped to
    make room; sessions and accounts are left alone. *)
Theorem password_login_exact now u lowercased pw s s' r :
  password_login now u lowercased pw s = (s', r) ->
  Uiaa.accounts s' = Uiaa.accounts s /\ Uiaa.infos s' = Uiaa.infos s /\
  match account_of u lowercased s with
  | None => s' = s /\ r = Err WrongPassword
  | Some (h, v) =>
      let l := Attempts.failed_limit acfg in
      let before := Attempts.failed (Uiaa.tables s) in
      let after := Attempts.failed (Uiaa.tables s') in
      let left := tokens_left l now v before in
      let admitted := Ratelimit.is_disabled l || negb (F64.lt left (F64.of_Z 1)) in
      let wrong := negb (deactivated v s) && negb (String.eqb h EmptyString) && negb (verify_password pw h) in
      (forall w, r = Ok w <->
         w = v /\ admitted = true /\ deactivated v s = false /\ h <> EmptyString /\ verify_password pw h = true) /\
      (admitted = false -> exists err, r = Err (LimitExceeded err)) /\
      if Ratelimit.is_disabled l then Uiaa.tables s' = Uiaa.tables s
      else
        after !! v = Some
          (if negb admitted then default (now, Ratelimit.burst l) (before !! v)
           else if wrong then (now, F64.sub left (F64.of_Z 1))
           else (now, F64.min (F64.add (F64.sub left (F64.of_Z 1)) (F64.of_Z 1)) (Ratelimit.burst l))) /\
        forall w, w <> v -> after !! w = before !! w \/
          after !! w = None /\ before !! v = None /\ Ratelimit.DEFAULT_MAP_CAP <= Z.of_nat (size before)
  end.
Proof using acfg visit verify_password.
  unfold Register.password_login. fold (account_of u lowercased s).
  destruct (account_of u lowercased s) as [[h v]|]; [|by intros [= <- <-]].
  fold (deactivated v s). unfold Attempts.check_password, Attempts.spend, Attempts.drop_attempt.
  set (l := Attempts.failed_limit acfg). set (before := Attempts.failed (Uiaa.tables s)).
  destruct (check_exact (Attempts.visit_user visit) l now v before) as (m & Hm & Hv & Hw).
  set (left_ := tokens_left l now v before) in *. rewrite Hm. cbn [fst snd].
  pose proof (String.eqb_spec h EmptyString) as Hh.
  destruct (Ratelimit.is_disabled l); cbn [orb].
  { destruct (deactivated v s), Hh as [Eh|Eh], (verify_password pw h); cbn; intros [= <- <-];
      (split; [done|]); (split; [done|]); (split; [clear -Eh; naive_solver|]); (split; [done|]); by destruct s. }
  destruct (F64.lt left_ (F64.of_Z 1)); cbn [negb].
  { intros [= <- <-]. cbn. split_and!; try done; [clear; naive_solver|eauto]. }
  assert (Hback : forall w, w <> v -> Ratelimit.refund v l m !! w = m !! w).
  { intros w Hne. unfold Ratelimit.refund. destruct (m !! v) as [[? ?]|]; [|done]. by rewrite lookup_insert_ne. }
  assert (Hbv : Ratelimit.refund v l m !! v =
    Some (now, F64.min (F64.add (F64.sub left_ (F64.of_Z 1)) (F64.of_Z 1)) (Ratelimit.burst l))).
  { unfold Ratelimit.refund. rewrite Hv. by rewrite lookup_insert_eq. }
  destruct (deactivated v s), Hh as [Eh|Eh], (verify_password pw h); cbn; rewrite ?orb_false_r; intros [= <- <-];
    (split; [done|]); (split; [done|]); (split; [clear -Eh; naive_solver|]); (split; [done|]); cbn;
    (split; [done|]); intros w Hne; rewrite ?Hback by done; by apply Hw.
Qed.

End Facts.
End RegisterFacts.
