(* ===== verification/RegisterSample.v ===== *)
(** Registering and logging in (Register.v, RegisterFacts.v) on the server of
    UiaaSample.v. *)
From S2P Require Import Prelude Order Event Maps Time RegTokens Pending PendingFacts Ratelimit RatelimitFacts Tokens Devices Sessions Uiaa UiaaFacts UiaaSample Register RegisterFacts.

Module RegisterSample.
Import UiaaSample.
Open Scope string_scope.

Definition lower_ascii (a : Ascii.ascii) : Ascii.ascii :=
  let n := Ascii.N_of_ascii a in
  if ((65 <=? n) && (n <=? 90))%N then Ascii.ascii_of_N (n + 32) else a.
Fixpoint lower (s : string) : string :=
  match s with EmptyString => EmptyString | String a s => String (lower_ascii a) (lower s) end.

Definition hash (p : string) : option string := Some ("hash of " ++ p).
Definition tcfg : Tokens.Config := Tokens.mkConfig 3600 0 true 0 false false 3600 60.
Definition answers : Devices.Env := Devices.mkEnv (Tokens.mkEnv 0 (fun _ => Maps.io_ok)) (fun _ => true) (Some 1).
Definition renv : Register.Env :=
  Register.mkEnv (env 0) (env 0) answers answers true ["abc"] "F" "DEVICE" (Sessions.mkDraw "access" "refresh").
Definition rcfg : Register.Config := Register.mkConfig true false false.
Definition client : Attempts.IpAddr := Attempts.V4 0x01010101.
Definition body (name : string) : Register.Body :=
  Register.mkBody false (Some name) (Some "pw") None None false false false None (Some (Uiaa.DummyData None)) None.
Definition forbidden (name : string) : bool := String.eqb name "admin".

Definition route (name : string) (s : Uiaa.State) :=
  Register.register_route acfg visit ∅ verify parse no_mail rcfg tcfg hash forbidden lower (fun _ => true) (fun _ => false)
    (fun _ => "1.1.1.1") renv client (body name) s.
Definition start : Uiaa.State := UiaaFacts.st (server ∅).

Lemma registers_new_account_witness :
  RegisterFacts.accounts_kept start (route "Bob" start).1 /\
  (forall u x, (route "Bob" start).2 = Ok (u, x) -> RegisterFacts.made u start (route "Bob" start).1).
Proof.
  apply (RegisterFacts.registers_new_account acfg visit ∅ verify parse no_mail rcfg tcfg hash forbidden lower
    (fun _ => true) (fun _ => false) (fun _ => "1.1.1.1") renv client (body "Bob") start).
  unfold route. by destruct (Register.register_route _ _ _ _ _ _ _ _ _ _ _ _ _ _ _ _ _ _).
Defined.

(** The account is there, and it is the lower-case one. *)
Lemma bob_registered : is_Some (RegisterFacts.rows (route "Bob" start).1 !! "@bob:s").
Proof. vm_compute. by eexists. Qed.

Lemma full_allowance {K} `{Countable K} l n now (ks : gset K) :
  RatelimitFacts.limits l n -> 1 <= n -> Z.of_nat (size ks) <= Ratelimit.DEFAULT_MAP_CAP ->
  RegisterFacts.allows l n now ks ∅ (fun _ => n).
Proof. intros Hl Hn Hk. split; try done. split; [set_solver|]. intros k. rewrite lookup_empty. split; [lia|done]. Defined.

Lemma rate_limits n m : is_u32 n -> RatelimitFacts.limits (Attempts.limit rate_01 n m) n.
Proof. intros Hn. split; [done|]. split; [done|]. vm_compute. by eexists _, _. Defined.

Lemma registration_charged_witness :
  let k := Attempts.to_canonical client in
  (exists u, RegisterFacts.made u start (route "Bob" start).1) /\
    RegisterFacts.allows (Attempts.registration_limit acfg) 3 0 {[k]}
      (Attempts.registration (Uiaa.tables (route "Bob" start).1)) (RatelimitFacts.upd (fun _ => 3) k 2) \/
  is_ok (route "Bob" start).2 = false /\ Uiaa.accounts (route "Bob" start).1 = Uiaa.accounts start /\
    RegisterFacts.allows (Attempts.registration_limit acfg) 3 0 {[k]}
      (Attempts.registration (Uiaa.tables (route "Bob" start).1)) (fun _ => 3).
Proof.
  intros k. refine (proj2 (RegisterFacts.registration_charged acfg visit ∅ verify parse no_mail rcfg tcfg hash forbidden lower
    (fun _ => true) (fun _ => false) (fun _ => "1.1.1.1") 3 {[k]} (fun _ => 3) renv client (body "Bob") start _
    (route "Bob" start).2 _ _ _ _ _ _) _).
  - apply full_allowance; [by apply rate_limits|lia|by vm_compute].
  - set_solver.
  - reflexivity.
  - reflexivity.
  - reflexivity.
  - unfold route. by destruct (Register.register_route _ _ _ _ _ _ _ _ _ _ _ _ _ _ _ _ _ _).
  - lia.
Defined.

Lemma password_login_counted_witness :
  let r := Register.password_login acfg visit verify 0 "@Alice:s" "@alice:s" "guess" start in
  r.2 <> Ok "@alice:s" /\
  RegisterFacts.allows (Attempts.failed_limit acfg) 5 0 {["@alice:s"]} (Attempts.failed (Uiaa.tables r.1))
    (RatelimitFacts.upd (fun _ => 5) "@alice:s" 4).
Proof.
  intros r.
  destruct (RegisterFacts.password_login_counted acfg visit verify 5 {["@alice:s"]} (fun _ => 5) 0 "@Alice:s" "@alice:s" "guess"
    start "hash of secret" "@alice:s" r.1 r.2) as (_ & _ & Hok & _ & Hcost).
  - apply full_allowance; [by apply rate_limits|lia|by vm_compute].
  - reflexivity.
  - set_solver.
  - apply surjective_pairing.
  - split; [|exact Hcost]. intros E. apply Hok in E as (_ & _ & E). discriminate E.
Defined.

(** Two seconds after a wrong guess, the right password. *)
Lemma password_login_exact_witness :
  let s1 := (Register.password_login acfg visit verify 0 "@Alice:s" "@alice:s" "guess" start).1 in
  let r := Register.password_login acfg visit verify (Time.from_secs 2) "@Alice:s" "@alice:s" "secret" s1 in
  Attempts.failed (Uiaa.tables s1) <> ∅ /\ r.2 = Ok "@alice:s".
Proof.
  intros s1 r. split; [vm_compute; discriminate|].
  destruct (RegisterFacts.password_login_exact acfg visit verify (Time.from_secs 2) "@Alice:s" "@alice:s" "secret"
    s1 r.1 r.2) as (_ & _ & Hok & _); [apply surjective_pairing|].
  apply (Hok "@alice:s"). split; [reflexivity|]. split; [vm_compute; reflexivity|].
  split; [vm_compute; reflexivity|]. split; [discriminate|vm_compute; reflexivity].
Defined.

(** A forbidden name is registered by writing it in another case. *)
Theorem forbidden_name_by_case :
  (route "admin" start).2 = Err Register.UsernameForbidden /\
  is_ok (route "Admin" start).2 = true /\ is_Some (RegisterFacts.rows (route "Admin" start).1 !! "@admin:s").
Proof. vm_compute. split; [done|]. split; [done|]. by eexists. Qed.


End RegisterSample.
