(* ===== verification/StateAccessor.v ===== *)
(** Reading room states, [phantom-service/src/rooms/state_accessor]: entries of a stored
    state by type and key ([state.rs], [room_state.rs]), who may see an event or the
    state ([history_visibility.rs], [user_can.rs], [server_can.rs]) and who may redact.

    A state is loaded through the compressor (StateCompressor.v), whose cache it may
    change, and its entries are resolved with the short ids (Short.v): operations take
    and return the state of the service. The membership cache answers who is in a room
    now. Contents are decoded by parameters; power levels are [ruma]'s. *)
From S2P Require Import Prelude Order Event PduId Short StateCompressor Timeline.

Module StateAccessor.
Import StateCompressor.
#[local] Existing Instance Event.MembershipState_eq_dec.

(** [NotFound], a database error, or an index or [expect] that failed. *)
Inductive error := NotFound | Database | Forbidden | Decode | Panicked.

Inductive HistoryVisibility := Invited | Joined | Shared | WorldReadable | OtherVisibility (name : string).
#[export] Instance HistoryVisibility_eq_dec : EqDecision HistoryVisibility.
Proof. solve_decision. Defined.

(** The compressor, the short ids, the stored events, the current state of each room,
    the state before each event, and the membership cache. *)
Record State := mkState {
  compressor : StateCompressor.Service;
  short : Short.Service;
  pdus : gmap string Event.Event;
  roomid_shortstatehash : gmap string Z;
  shorteventid_shortstatehash : gmap Z Z;
  joined : gset (string * string);
  invited : gset (string * string)
}.

Definition with_compressor (c : StateCompressor.Service) (s : State) : State :=
  mkState c (short s) (pdus s) (roomid_shortstatehash s) (shorteventid_shortstatehash s) (joined s) (invited s).

(** What an operation may do to the service, and its answer. *)
Definition M (A : Type) := State -> State * A.
Definition ret {A} (a : A) : M A := fun s => (s, a).
Definition bind {A B} (m : M A) (f : A -> M B) : M B := fun s => let '(s, a) := m s in f a s.
Definition asks {A} (f : State -> A) : M A := fun s => (s, f s).
#[local] Notation "'let*' x := m 'in' k" := (bind m (fun x => k)) (at level 10, x name, m at level 100, k at level 200).

(** After a step that succeeded. *)
Definition and_then {A B} (m : M (result error A)) (f : A -> M (result error B)) : M (result error B) :=
  let* r := m in match r with Ok a => f a | Err e => ret (Err e) end.

Section Service.
Context (evict : gmap Z (list ShortStateInfo) -> gmap Z (list ShortStateInfo)) (fuel : nat).
(** The order in which futures that run at once are done. *)
Context (unordered : list Event.Event -> list Event.Event).

(** ** A stored state *)

Definition load_full_state (h : Z) : M (result error (gset (list byte))) := fun s =>
  match load_shortstatehash_info evict fuel (compressor s) h with
  | Ok (c, f :: _) => (with_compressor c s, Ok (full_state f))
  | Ok (c, []) => (with_compressor c s, Err Panicked)
  | Err _ => (s, Err Database)
  end.

(** [full_state.range(start..=end).next()] for the entries of one state key. *)
Definition first_in_range (k : Z) (X : gset (list byte)) : option (list byte) :=
  let start := compress_state_event k 0 in
  let end_ := compress_state_event k u64_max in
  List.find (fun e => geb e start && negb (gtb e end_)) (btree_iter X).

Definition get_pdu (id : string) (s : State) : result error Event.Event := ok_or (pdus s !! id) NotFound.

Definition state_get_shortid (h : Z) (ty key : string) : M (result error Z) :=
  let* k := asks (fun s => Short.get_shortstatekey (short s) ty key) in
  match k with
  | None => ret (Err NotFound)
  | Some k =>
      and_then (load_full_state h) (fun X =>
      ret (match first_in_range k X with
           | None => Err NotFound
           | Some e => ok_or (snd <$> parse_compressed_state_event e) Panicked
           end))
  end.

Definition state_get_id (h : Z) (ty key : string) : M (result error string) :=
  and_then (state_get_shortid h ty key) (fun n =>
  asks (fun s => ok_or (Short.get_eventid_from_short (short s) n) NotFound)).

Definition state_get (h : Z) (ty key : string) : M (result error Event.Event) :=
  and_then (state_get_id h ty key) (fun id => asks (get_pdu id)).

(** [decode]: [serde_json::from_str] to the type asked for. *)
Definition state_get_content {T} (decode : string -> option T) (h : Z) (ty key : string) : M (result error T) :=
  and_then (state_get h ty key) (fun ev => ret (ok_or (decode (Event.content ev)) Decode)).

Definition state_contains_shortstatekey (h k : Z) : M bool :=
  let* r := load_full_state h in
  ret (match r with Ok X => bool_decide (is_Some (first_in_range k X)) | Err _ => false end).

Definition state_contains (h : Z) (ty key : string) : M bool :=
  let* k := asks (fun s => Short.get_shortstatekey (short s) ty key) in
  match k with None => ret false | Some k => state_contains_shortstatekey h k end.

(** ** All of a state *)

(** [parse_compressed_state_event] of every entry; [None] is a panic. *)
Definition parse_all (es : list (list byte)) : result error (list (Z * Z)) :=
  ok_or (mapM parse_compressed_state_event es) Panicked.

Definition state_full_shortids (h : Z) : M (result error (list (Z * Z))) :=
  and_then (load_full_state h) (fun X => ret (parse_all (btree_iter X))).

(** [ignore_err]: a state that does not load is empty. *)
Definition ignore_err {A} (m : M (result error (list A))) : M (list A) :=
  let* r := m in ret (match r with Ok l => l | Err _ => [] end).

Definition state_full_ids (h : Z) : M (list (Z * string)) :=
  let* l := ignore_err (state_full_shortids h) in
  asks (fun s => omap (fun kv => (fun id => (kv.1, id)) <$> Short.get_eventid_from_short (short s) kv.2) l).

Definition state_full_pdus (h : Z) : M (list Event.Event) :=
  let* l := ignore_err (state_full_shortids h) in
  asks (fun s => unordered (omap (fun kv =>
    Short.get_eventid_from_short (short s) kv.2 ≫= fun id => pdus s !! id) l)).

Definition state_full (h : Z) : M (list (string * string * Event.Event)) :=
  let* l := state_full_pdus h in
  ret (omap (fun ev => (fun key => (Event.event_type ev, key, ev)) <$> Event.state_key ev) l).

Definition state_keys_with_shortids (h : Z) (ty : string) : M (list (string * Z)) :=
  let* l := ignore_err (state_full_shortids h) in
  asks (fun s => omap (fun kv =>
    match Short.get_statekey_from_short (short s) kv.1 with
    | Some (ty', key) => if String.eqb ty' ty then Some (key, kv.2) else None
    | None => None
    end) l).

Definition state_keys_with_ids (h : Z) (ty : string) : M (list (string * string)) :=
  let* l := state_keys_with_shortids h ty in
  asks (fun s => omap (fun kv => (fun id => (kv.1, id)) <$> Short.get_eventid_from_short (short s) kv.2) l).

Definition state_keys (h : Z) (ty : string) : M (list string) :=
  let* l := state_keys_with_shortids h ty in ret (fst <$> l).

Definition state_contains_type (h : Z) (ty : string) : M bool :=
  let* l := state_keys h ty in ret (match l with [] => false | _ => true end).

Definition state_added (h h' : Z) : M (list (Z * Z)) :=
  ignore_err (and_then (load_full_state h) (fun A => and_then (load_full_state h') (fun B =>
  ret (parse_all (btree_iter (B ∖ A)))))).
Definition state_removed (h h' : Z) : M (list (Z * Z)) := state_added h' h.

(** ** The current state of a room *)

Definition get_room_shortstatehash (room : string) (s : State) : result error Z :=
  ok_or (roomid_shortstatehash s !! room) NotFound.

Definition room_state_get_id (room ty key : string) : M (result error string) :=
  and_then (asks (get_room_shortstatehash room)) (fun h => state_get_id h ty key).
Definition room_state_get (room ty key : string) : M (result error Event.Event) :=
  and_then (asks (get_room_shortstatehash room)) (fun h => state_get h ty key).
Definition room_state_get_content {T} (decode : string -> option T) (room ty key : string) : M (result error T) :=
  and_then (room_state_get room ty key) (fun ev => ret (ok_or (decode (Event.content ev)) Decode)).
Definition room_state_full (room : string) : M (result error (list (string * string * Event.Event))) :=
  let* r := asks (get_room_shortstatehash room) in
  match r with Ok h => let* l := state_full h in ret (Ok l) | Err _ => ret (Err Database) end.
Definition room_state_full_pdus (room : string) : M (result error (list Event.Event)) :=
  let* r := asks (get_room_shortstatehash room) in
  match r with Ok h => let* l := state_full_pdus h in ret (Ok l) | Err _ => ret (Err Database) end.

(** The state before an event. *)
Definition pdu_shortstatehash (event_id : string) (s : State) : result error Z :=
  n ← ok_or (Short.get_shorteventid (short s) event_id) NotFound;
  ok_or (shorteventid_shortstatehash s !! n) NotFound.

(** ** Memberships and visibility *)

Definition RoomHistoryVisibility : string := "m.room.history_visibility".
Definition RoomEncryption : string := "m.room.encryption".
Context (decode_membership : string -> option Event.MembershipState).
Context (decode_visibility : string -> option HistoryVisibility).

Definition or_default {T} (d : T) (m : M (result error T)) : M T :=
  let* r := m in ret (match r with Ok t => t | Err _ => d end).

Definition user_membership (h : Z) (u : string) : M Event.MembershipState :=
  or_default Event.Leave (state_get_content decode_membership h Event.RoomMember u).
Definition user_was_joined (h : Z) (u : string) : M bool :=
  let* m := user_membership h u in ret (bool_decide (m = Event.Join)).
Definition user_was_invited (h : Z) (u : string) : M bool :=
  let* m := user_membership h u in ret (bool_decide (m = Event.Join) || bool_decide (m = Event.Invite)).

Definition history_visibility_at (h : Z) : M HistoryVisibility :=
  or_default Shared (state_get_content decode_visibility h RoomHistoryVisibility "").
Definition history_visibility_of (room : string) : M HistoryVisibility :=
  or_default Shared (room_state_get_content decode_visibility room RoomHistoryVisibility "").

Definition is_world_readable (room : string) : M bool :=
  let* r := room_state_get_content decode_visibility room RoomHistoryVisibility "" in
  ret (match r with Ok v => bool_decide (v = WorldReadable) | Err _ => false end).
Definition is_encrypted_room (room : string) : M bool :=
  let* r := room_state_get room RoomEncryption "" in ret (is_ok r).
Definition get_member (room u : string) : M (result error Event.MembershipState) :=
  room_state_get_content decode_membership room Event.RoomMember u.

Definition visibility_shortstatehash (room event_id : string) (s : State) : option Z :=
  match pdu_shortstatehash event_id s with
  | Ok h => Some h
  | Err _ => ok (get_room_shortstatehash room s)
  end.

Definition is_joined (u room : string) (s : State) : bool := bool_decide ((u, room) ∈ joined s).
Definition is_invited (u room : string) (s : State) : bool := bool_decide ((u, room) ∈ invited s).

Definition user_can_see_event (u room event_id : string) : M bool :=
  let* h := asks (visibility_shortstatehash room event_id) in
  match h with
  | None => ret false
  | Some h =>
      let* currently_member := asks (is_joined u room) in
      let* v := history_visibility_at h in
      match v with
      | Invited => user_was_invited h u
      | Joined => user_was_joined h u
      | WorldReadable => ret true
      | Shared => ret currently_member
      | OtherVisibility _ => ret false
      end
  end.

Definition user_can_see_state_events (u room : string) : M bool :=
  let* here := asks (is_joined u room) in
  if here : bool then ret true else
  let* v := history_visibility_of room in
  match v with
  | Invited => asks (is_invited u room)
  | WorldReadable => ret true
  | _ => ret false
  end.

(** [any] over the members, one after another. *)
Fixpoint any_member (f : string -> M bool) (us : list string) : M bool :=
  match us with
  | [] => ret false
  | u :: us => let* b := f u in if b : bool then ret true else any_member f us
  end.

(** The server part of a user id. *)
Context (server_name : string -> string).

Definition room_members (room : string) (s : State) : list string :=
  fst <$> filter (fun ur : string * string => ur.2 = room) (elements (joined s)).

Definition server_can_see_event (origin room event_id : string) : M bool :=
  let* h := asks (visibility_shortstatehash room event_id) in
  match h with
  | None => ret false
  | Some h =>
      let* v := history_visibility_at h in
      let* members := asks (fun s => filter (fun u => server_name u = origin) (room_members room s)) in
      match v with
      | Invited => any_member (user_was_invited h) members
      | Joined => any_member (user_was_joined h) members
      | WorldReadable | Shared => ret true
      | OtherVisibility _ => ret false
      end
  end.

(** ** Details of a room *)

Inductive GuestAccess := CanJoin | GuestForbidden | OtherAccess (name : string).
Section Details.
Context {JoinRule : Type} (rule_invite : JoinRule).
Context (decode_name decode_topic decode_algorithm : string -> option string).
Context (decode_alias decode_room_type : string -> option (option string)).
Context (decode_join_rule : string -> option JoinRule) (decode_guest_access : string -> option GuestAccess).

(** A field the content may leave out. *)
Definition required {T} (m : M (result error (option T))) : M (result error T) :=
  and_then m (fun o => ret (ok_or o NotFound)).

Definition get_name (room : string) : M (result error string) := room_state_get_content decode_name room "m.room.name" "".
Definition get_room_topic (room : string) : M (result error string) := room_state_get_content decode_topic room "m.room.topic" "".
Definition get_canonical_alias (room : string) : M (result error string) :=
  required (room_state_get_content decode_alias room "m.room.canonical_alias" "").
Definition get_room_type (room : string) : M (result error string) :=
  required (room_state_get_content decode_room_type room Event.RoomCreate "").
Definition get_room_encryption (room : string) : M (result error string) := room_state_get_content decode_algorithm room RoomEncryption "".
Definition get_join_rules (room : string) : M JoinRule :=
  or_default rule_invite (room_state_get_content decode_join_rule room Event.RoomJoinRules "").
Definition guest_can_join (room : string) : M bool :=
  let* r := room_state_get_content decode_guest_access room "m.room.guest_access" "" in
  ret (match r with Ok CanJoin => true | _ => false end).
End Details.

(** ** Redactions *)

(** [RoomPowerLevels] of [ruma], built from a decoded content or none, the rules of the
    room version and the creators; what it says of a user's redactions. *)
Context {Content Rules : Type} (decode_power_levels : string -> option Content).
Context (decode_create : string -> option (string * list string)) (version_rules : string -> option Rules) (rules_v1 : Rules).
Context (can_redact_other can_redact_own : Content -> Rules -> list string -> string -> bool).

(** The rules of the version in the create event, and the creators. *)
Definition power_level_context (room : string) : M (Rules * list string) :=
  let* r := room_state_get room Event.RoomCreate "" in
  ret (match r with
       | Err _ => (rules_v1, [])
       | Ok create =>
           match decode_create (Event.content create) with
           | None => (rules_v1, [])
           | Some (room_version, additional_creators) =>
               (default rules_v1 (version_rules room_version), Event.sender create :: additional_creators)
           end
       end).

Definition user_can_redact (redacts sender room : string) (federation : bool) : M (result error bool) :=
  let* target := asks (fun s => ok (get_pdu redacts s)) in
  let known (f : Event.Event -> bool) := match target with Some ev => f ev | None => false end in
  if known (fun ev => negb (String.eqb (Event.room_id ev) room)) then ret (Ok false) else
  if known (fun ev => String.eqb (Event.event_type ev) Event.RoomCreate) then ret (Err Forbidden) else
  if known (fun ev => String.eqb (Event.event_type ev) Timeline.RoomServerAcl) then ret (Err Forbidden) else
  let* levels := room_state_get_content decode_power_levels room Event.RoomPowerLevels "" in
  match levels with
  | Ok content =>
      let* context := power_level_context room in
      let '(rules, creators) := context in
      ret (Ok (can_redact_other content rules creators sender ||
        can_redact_own content rules creators sender &&
        known (fun ev => if federation then String.eqb (server_name (Event.sender ev)) (server_name sender)
                         else String.eqb (Event.sender ev) sender)))
  | Err _ =>
      let* create := room_state_get room Event.RoomCreate "" in
      ret (match create with
           | Ok create => Ok (String.eqb (Event.sender create) sender || known (fun ev => String.eqb (Event.sender ev) sender))
           | Err _ => Err Database
           end)
  end.

End Service.
End StateAccessor.
