(* ===== verification/StateAccessorFacts.v ===== *)
(** What reading a room state (StateAccessor.v) returns: on a service whose compressed
    states and short ids encode a map of states by type and key, every look-up answers
    as that map, whatever the cache holds and drops, and so do the rules on who sees an
    event. *)
From S2P Require Import Prelude Order Event PduId Short StateCompressor Timeline StateAccessor.

Module StateAccessorFacts.
Import StateCompressor StateAccessor.

(** ** Entries of one key *)

Lemma be_compare a b : is_u64 a -> is_u64 b -> bytes_cmp (be_bytes 8 a) (be_bytes 8 b) = (a ?= b).
Proof. intros Ha Hb. rewrite bytes_cmp_be_bytes, !Z.mod_small by int_solve. done. Qed.

(** The entries between the first and the last of a key are the entries of the key. *)
Lemma in_range_key k k' v :
  is_u64 k -> is_u64 k' -> is_u64 v ->
  geb (compress_state_event k' v) (compress_state_event k 0) &&
    negb (gtb (compress_state_event k' v) (compress_state_event k u64_max)) = bool_decide (k' = k).
Proof.
  intros Hk Hk' Hv. unfold geb, gtb, ltb, cmp, ord_bytes, compress_state_event.
  rewrite !bytes_cmp_app_len, !be_compare by (by rewrite ?length_be_bytes || int_solve).
  rewrite (Z.compare_antisym k' k).
  destruct (Z.compare_spec k' k) as [->|H|H]; cbn [CompOpp]; rewrite ?Z.compare_refl.
  - rewrite bool_decide_eq_true_2 by done.
    destruct (Z.compare_spec v 0), (Z.compare_spec u64_max v); try done; int_solve.
  - by rewrite bool_decide_eq_false_2 by lia.
  - by rewrite bool_decide_eq_false_2 by lia.
Qed.

(** The short ids are numbers, one for each state key, and lead back to it. *)
Record shorts_ok (sh : Short.Service) : Prop := {
  key_u64 ty key k : Short.get_shortstatekey sh ty key = Some k -> is_u64 k;
  key_back ty key k : Short.get_shortstatekey sh ty key = Some k -> Short.get_statekey_from_short sh k = Some (ty, key)
}.

Abbreviation RoomState := (gmap (string * string) string) (only parsing).

(** The set [X] of entries stands for the state [A], with the short ids of [sh]. *)
Record encodes (sh : Short.Service) (A : RoomState) (X : gset (list byte)) : Prop := {
  enc_entry e : e ∈ X -> exists ty key id k v, e = compress_state_event k v /\ is_u64 v /\
    Short.get_shortstatekey sh ty key = Some k /\ Short.get_eventid_from_short sh v = Some id /\ A !! (ty, key) = Some id;
  enc_has ty key id : A !! (ty, key) = Some id -> exists k v, Short.get_shortstatekey sh ty key = Some k /\
    is_u64 v /\ compress_state_event k v ∈ X
}.

Section Encoded.
Context (sh : Short.Service) (A : RoomState) (X : gset (list byte)).
Context (Hsh : shorts_ok sh) (HX : encodes sh A X).

Lemma first_in_range_elem k e :
  first_in_range k X = Some e -> e ∈ X /\ geb e (compress_state_event k 0) && negb (gtb e (compress_state_event k u64_max)) = true.
Proof. intros [H ?]%find_some. split; [|done]. by apply btree_iter_elem, list_elem_of_In. Qed.

(** The look-up by range finds an entry of the key if the state has the key. *)
Lemma first_in_range_exact ty key k :
  Short.get_shortstatekey sh ty key = Some k ->
  match first_in_range k X with
  | Some e => exists v id, parse_compressed_state_event e = Some (k, v) /\
      Short.get_eventid_from_short sh v = Some id /\ A !! (ty, key) = Some id
  | None => A !! (ty, key) = None
  end.
Proof.
  intros Hk. pose proof (key_u64 _ Hsh _ _ _ Hk) as Uk. destruct (first_in_range k X) as [e|] eqn:E.
  - apply first_in_range_elem in E as [(ty' & key' & id & k' & v & -> & Hv & Hk' & Hid & HA)%(enc_entry _ _ _ HX) R].
    pose proof (key_u64 _ Hsh _ _ _ Hk') as Uk'. rewrite in_range_key, bool_decide_eq_true in R by done. subst k'.
    pose proof (key_back _ Hsh _ _ _ Hk). pose proof (key_back _ Hsh _ _ _ Hk'). simplify_eq.
    exists v, id. split_and!; [by apply compress_parse|done..].
  - destruct (A !! (ty, key)) as [id|] eqn:HA; [|done].
    destruct (enc_has _ _ _ HX _ _ _ HA) as (k' & v & Hk' & Hv & Hin). simplify_eq.
    eapply find_none in E; [|by apply list_elem_of_In, btree_iter_elem].
    rewrite in_range_key, bool_decide_eq_false in E by done. done.
Qed.

(** Every entry parses, to a key and an event of the state. *)
Lemma parse_entry e :
  e ∈ X -> exists ty key id k v, parse_compressed_state_event e = Some (k, v) /\
    Short.get_statekey_from_short sh k = Some (ty, key) /\ Short.get_eventid_from_short sh v = Some id /\ A !! (ty, key) = Some id.
Proof.
  intros (ty & key & id & k & v & -> & Hv & Hk & Hid & HA)%(enc_entry _ _ _ HX).
  exists ty, key, id, k, v. split_and!; try done; [|by apply (key_back _ Hsh)].
  apply compress_parse; [by apply (key_u64 _ Hsh) in Hk|done].
Qed.

Lemma parse_all_entries es :
  (forall e, e ∈ es -> e ∈ X) -> exists l, parse_all es = Ok l /\
    forall k v, (k, v) ∈ l <-> exists e, e ∈ es /\ parse_compressed_state_event e = Some (k, v).
Proof.
  unfold parse_all. induction es as [|e es IH]; intros Hes.
  { exists []. split; [done|]. intros k v. split; [by intros ?%not_elem_of_nil|by intros (e & ?%not_elem_of_nil & _)]. }
  destruct (parse_entry e) as (_ & _ & _ & k & v & Hp & _); [by apply Hes, list_elem_of_here|].
  destruct IH as (l & Hl & Heq); [intros; by apply Hes, list_elem_of_further|].
  cbn [mapM]. unfold mbind, option_bind. rewrite Hp. destruct (mapM _ es) as [l'|]; [|done].
  cbn in Hl |- *. injection Hl as ->. exists ((k, v) :: l). split; [done|]. intros k' v'.
  rewrite elem_of_cons, Heq. split.
  - intros [[= -> ->]|(e' & He & Hp')]; [exists e|exists e']; (split; [set_solver|done]).
  - intros (e' & [->|He]%elem_of_cons & Hp'); [left; congruence|right; by exists e'].
Qed.
End Encoded.

(** ** The service and the states it stores *)

(** The stored states are [states]: each by its short hash, with every key it sets. *)
Definition reads (states : gmap Z RoomState) (s : State) : Prop :=
  shorts_ok (short s) /\ exists M, represents (compressor s) M /\
    forall h, match states !! h, M !! h with
              | Some A, Some X => encodes (short s) A X
              | None, None => True
              | _, _ => False
              end.

Section Reading.
Context (evict : gmap Z (list ShortStateInfo) -> gmap Z (list ShortStateInfo)) `{!Evicts evict}.
Context (fuel : nat) (Hfuel : (4 <= fuel)%nat) (states : gmap Z RoomState).

(** [m] answers what [P] says, and leaves a service with the same states. *)
Definition answers {A} (m : M A) (s : State) (P : A -> Prop) : Prop :=
  reads states s -> exists c a, m s = (with_compressor c s, a) /\ reads states (with_compressor c s) /\ P a.

Lemma with_compressor_twice c c' s : with_compressor c (with_compressor c' s) = with_compressor c s.
Proof. done. Qed.
Lemma with_compressor_self s : with_compressor (compressor s) s = s.
Proof. by destruct s. Qed.

Lemma answers_ret {A} (a : A) s (P : A -> Prop) : P a -> answers (ret a) s P.
Proof. intros HP Hs. exists (compressor s), a. by rewrite with_compressor_self. Qed.

Lemma answers_asks {A} (f : State -> A) s (P : A -> Prop) : P (f s) -> answers (asks f) s P.
Proof. intros HP Hs. exists (compressor s), (f s). by rewrite with_compressor_self. Qed.

Lemma answers_bind {A B} (m : M A) (f : A -> M B) s (P : A -> Prop) (Q : B -> Prop) :
  answers m s P -> (forall c a, P a -> answers (f a) (with_compressor c s) Q) -> answers (bind m f) s Q.
Proof.
  intros Hm Hf Hs. destruct (Hm Hs) as (c & a & E & Hc & HP).
  destruct (Hf c a HP Hc) as (c' & b & E' & Hc' & HQ). exists c', b. split; [|done].
  unfold bind. by rewrite E, E'.
Qed.

Lemma answers_asks_bind {A B} (g : State -> A) (f : A -> M B) s (Q : B -> Prop) :
  answers (f (g s)) s Q -> answers (bind (asks g) f) s Q.
Proof. done. Qed.

Lemma answers_and_then {A B} (m : M (result error A)) (f : A -> M (result error B)) s P Q :
  answers m s P -> (forall c a, P (Ok a) -> answers (f a) (with_compressor c s) Q) -> (forall e, P (Err e) -> Q (Err e)) ->
  answers (and_then m f) s Q.
Proof. intros Hm Hok Herr. eapply answers_bind; [done|]. intros c [a|e] Ha; [by apply Hok|]. apply answers_ret; auto. Qed.

Lemma answers_impl {A} (m : M A) s (P Q : A -> Prop) : answers m s P -> (forall a, P a -> Q a) -> answers m s Q.
Proof. intros Hm HPQ Hs. destruct (Hm Hs) as (c & a & ? & ? & ?). eauto 10. Qed.

(** A state that is stored loads, one that is not does not. *)
Lemma load_full_state_exact h s :
  answers (load_full_state evict fuel h) s (fun r =>
    match states !! h with
    | Some A => exists X, r = Ok X /\ shorts_ok (short s) /\ encodes (short s) A X
    | None => r = Err Database
    end).
Proof.
  intros (Hsh & W & HW & Hall). pose proof (Hall h) as Hh. unfold load_full_state.
  destruct (states !! h) as [A|], (W !! h) as [X|] eqn:EM; try done.
  - destruct (load_represents evict fuel _ _ _ _ HW EM Hfuel) as (c & f & rest & -> & HX & _ & _ & HW').
    exists c, (Ok (full_state f)). split; [done|]. rewrite HX. split; [|by eauto]. split; [done|]. by exists W.
  - destruct (represents_absent _ _ _ HW EM) as [Hdb Hca]. exists (compressor s), (Err Database).
    rewrite with_compressor_self. split; [|split; [by split; [|exists W]|done]].
    destruct fuel; cbn [load_shortstatehash_info]; rewrite Hca; [done|]. unfold get_statediff. by rewrite Hdb.
Qed.

(** ** Single entries *)

(** The event id of a key in a stored state. *)
Definition id_at (h : Z) (ty key : string) : option string := states !! h ≫= fun A => A !! (ty, key).

Lemma state_get_id_exact h ty key s :
  answers (state_get_id evict fuel h ty key) s (fun r => ok r = id_at h ty key).
Proof.
  intros Hs. revert Hs. unfold state_get_id, state_get_shortid.
  apply (answers_and_then _ _ _ (fun r => match r with
    | Ok v => exists id, Short.get_eventid_from_short (short s) v = Some id /\ id_at h ty key = Some id
    | Err _ => id_at h ty key = None end)).
  - intros Hs. assert (Hs' := Hs). revert Hs. apply answers_asks_bind. destruct (Short.get_shortstatekey _ _ _) as [k|] eqn:Hk.
    + eapply answers_and_then; [apply load_full_state_exact| |].
      * intros c' X HX. apply answers_ret. unfold id_at. destruct (states !! h) as [A|]; [|done].
        destruct HX as (? & [= <-] & Hsh & HX). pose proof (first_in_range_exact _ _ _ Hsh HX _ _ _ Hk) as He.
        destruct (first_in_range k X); [|done]. destruct He as (v & id & -> & Hid & HA). by exists id.
      * intros e He. unfold id_at. destruct (states !! h) as [A|]; [|done]. by destruct He as (? & ? & _).
    + apply answers_ret. destruct Hs' as (_ & W & _ & Hall). specialize (Hall h). unfold id_at.
      destruct (states !! h) as [A|], (W !! h); try done. cbn [mbind option_bind].
      destruct (A !! (ty, key)) eqn:HA; [|done]. apply (enc_has _ _ _ Hall) in HA as (? & ? & ? & _).
      cbn [short with_compressor] in Hk. congruence.
  - intros c v (id & Hid & ->). apply answers_asks. cbn [short with_compressor]. by rewrite Hid.
  - done.
Qed.

(** The event of a key in a stored state, and its content decoded. *)
Definition event_at (s : State) (h : Z) (ty key : string) : option Event.Event := id_at h ty key ≫= (pdus s !!.).
Definition content_at {T} (decode : string -> option T) (s : State) (h : Z) (ty key : string) : option T :=
  event_at s h ty key ≫= fun ev => decode (Event.content ev).

Lemma state_get_exact h ty key s :
  answers (state_get evict fuel h ty key) s (fun r => ok r = event_at s h ty key).
Proof.
  eapply answers_and_then; [apply state_get_id_exact| |]; unfold event_at; cbn [ok].
  - intros c id <-. apply answers_asks. cbn. unfold get_pdu. by destruct (pdus _ !! id).
  - by intros e <-.
Qed.

Lemma state_get_content_exact {T} (decode : string -> option T) h ty key s :
  answers (state_get_content evict fuel decode h ty key) s (fun r => ok r = content_at decode s h ty key).
Proof.
  eapply answers_and_then; [apply state_get_exact| |]; unfold content_at; cbn [ok].
  - intros c ev <-. apply answers_ret. cbn. by destruct (decode _).
  - by intros e <-.
Qed.

Lemma or_default_exact {T} (d : T) (m : M (result error T)) s o :
  answers m s (fun r => ok r = o) -> answers (or_default d m) s (fun t => t = default d o).
Proof. intros Hm. eapply answers_bind; [done|]. intros c [t|e] <-; by apply answers_ret. Qed.

(** The current state of a room. *)
Definition current_at {T} (decode : string -> option T) (s : State) (room ty key : string) : option T :=
  roomid_shortstatehash s !! room ≫= fun h => content_at decode s h ty key.

Lemma room_state_get_content_exact {T} (decode : string -> option T) room ty key s :
  answers (room_state_get_content evict fuel decode room ty key) s (fun r => ok r = current_at decode s room ty key).
Proof.
  unfold room_state_get_content, room_state_get, current_at, get_room_shortstatehash.
  eapply (answers_and_then _ _ _ (fun r => ok r = roomid_shortstatehash s !! room ≫= fun h => event_at s h ty key)).
  - apply answers_asks_bind. destruct (roomid_shortstatehash s !! room) as [h|]; cbn [ok_or mbind option_bind]; [apply state_get_exact|by apply answers_ret].
  - intros c ev He. apply answers_ret. destruct (roomid_shortstatehash s !! room); [|done]. cbn in He |- *. unfold content_at.
    rewrite <-He. cbn. by destruct (decode _).
  - intros e He. destruct (roomid_shortstatehash s !! room); [|done]. cbn in He |- *. unfold content_at. by rewrite <-He.
Qed.

(** A room is world readable exactly if its state says so: no default applies. *)
Lemma is_world_readable_exact decode_visibility room s :
  answers (is_world_readable evict fuel decode_visibility room) s (fun b =>
    b = true <-> current_at decode_visibility s room RoomHistoryVisibility "" = Some WorldReadable).
Proof.
  eapply answers_bind; [apply room_state_get_content_exact|]. intros c [v|e] <-; apply answers_ret; cbn [ok]; [|done].
  rewrite bool_decide_eq_true. split; [by intros ->|by intros [= ->]].
Qed.

(** Whoever is not in the room sees its state only if history is world readable, or is for
    the invited and they are invited now. *)
Lemma user_can_see_state_events_spec decode_visibility u room s :
  answers (user_can_see_state_events evict fuel decode_visibility u room) s (fun b =>
    b = true <-> (u, room) ∈ joined s \/
      match current_at decode_visibility s room RoomHistoryVisibility "" with
      | Some WorldReadable => True
      | Some Invited => (u, room) ∈ invited s
      | _ => False
      end).
Proof.
  apply answers_asks_bind. unfold is_joined. destruct (decide ((u, room) ∈ joined s)) as [Hj|Hj].
  { rewrite bool_decide_eq_true_2 by done. apply answers_ret. by split; [left|]. }
  rewrite bool_decide_eq_false_2 by done.
  eapply answers_bind; [apply or_default_exact, room_state_get_content_exact|]. intros c v ->.
  destruct (current_at _ _ _ _ _) as [[]|]; cbn [default from_option id]; (apply answers_ret || apply answers_asks);
    unfold is_invited; rewrite ?bool_decide_eq_true; cbn [invited with_compressor]; tauto || (split; [done|tauto]).
Qed.

(** ** All the keys of a type *)

Lemma state_full_shortids_exact h s :
  answers (state_full_shortids evict fuel h) s (fun r =>
    match states !! h with
    | Some A => exists X l, encodes (short s) A X /\ r = Ok l /\
        forall k v, (k, v) ∈ l <-> exists e, e ∈ X /\ parse_compressed_state_event e = Some (k, v)
    | None => r = Err Database
    end).
Proof.
  eapply answers_and_then; [apply load_full_state_exact| |].
  - intros c X HX. apply answers_ret. destruct (states !! h) as [A|]; [|done]. destruct HX as (? & [= <-] & Hsh & HX).
    destruct (parse_all_entries _ _ _ Hsh HX (btree_iter X)) as (l & Hl & Heq); [by intros e ?%btree_iter_elem|].
    exists X, l. split_and!; try done. intros k v. rewrite Heq. by setoid_rewrite btree_iter_elem.
  - intros e He. destruct (states !! h); [|by simplify_eq]. by destruct He as (? & ? & _).
Qed.

Lemma state_keys_with_shortids_exact h ty s :
  answers (state_keys_with_shortids evict fuel h ty) s (fun l =>
    forall key, (exists v, (key, v) ∈ l) <-> is_Some (id_at h ty key)).
Proof.
  intros Hs. assert (Hsh := proj1 Hs). revert Hs. apply (answers_bind _ _ _ (fun l =>
    match states !! h with
    | Some A => exists X, encodes (short s) A X /\
        forall k v, (k, v) ∈ l <-> exists e, e ∈ X /\ parse_compressed_state_event e = Some (k, v)
    | None => l = []
    end)).
  - eapply answers_bind; [apply state_full_shortids_exact|]. intros c r Hr. apply answers_ret.
    destruct (states !! h) as [A|]; [|by subst]. destruct Hr as (X & l & HX & -> & Hl). eauto.
  - intros c l Hl. apply answers_asks. intros key. cbn [short with_compressor]. unfold id_at.
    destruct (states !! h) as [A|]; cbn [mbind option_bind]; [|subst l; cbn; split; [by intros (? & ?%not_elem_of_nil)|by intros []]].
    destruct Hl as (X & HX & Hl). split.
    + intros (v & ([k v'] & Hkv & E)%list_elem_of_omap). apply Hl in Hkv as (e & He & Hp). cbn [fst snd] in E.
      destruct (parse_entry _ _ _ Hsh HX _ He) as (ty' & key' & id & k' & v2 & Hp' & Hk & _ & HA).
      rewrite Hp in Hp'. injection Hp' as <- <-. rewrite Hk in E. destruct (String.eqb_spec ty' ty); [|done].
      simplify_eq. by exists id.
    + intros [id HA]. destruct (enc_has _ _ _ HX _ _ _ HA) as (k & v & Hk & Hv & Hin). exists v.
      apply list_elem_of_omap. exists (k, v). split.
      * apply Hl. exists (compress_state_event k v). split; [done|]. apply compress_parse; [by apply (key_u64 _ Hsh) in Hk|done].
      * cbn [fst snd]. rewrite (key_back _ Hsh _ _ _ Hk), String.eqb_refl. done.
Qed.

(** The keys listed for a type are the keys the state sets for it. *)
Theorem state_keys_exact h ty s :
  answers (state_keys evict fuel h ty) s (fun l => forall key, key ∈ l <-> is_Some (id_at h ty key)).
Proof.
  eapply answers_bind; [apply state_keys_with_shortids_exact|]. intros c l Hl. apply answers_ret. intros key.
  rewrite <-(Hl key), list_elem_of_fmap. split; [intros ([? v] & -> & ?); by exists v|intros [v ?]; by exists (key, v)].
Qed.

(** ** Who sees an event *)

Section Visibility.
Context (decode_membership : string -> option Event.MembershipState).
Context (decode_visibility : string -> option HistoryVisibility).

(** The membership of a user and the visibility of history in a stored state. *)
Definition membership_at (s : State) (h : Z) (u : string) : Event.MembershipState :=
  default Event.Leave (content_at decode_membership s h Event.RoomMember u).
Definition visibility_at (s : State) (h : Z) : HistoryVisibility :=
  default Shared (content_at decode_visibility s h RoomHistoryVisibility "").

Lemma user_membership_exact h u s :
  answers (user_membership evict fuel decode_membership h u) s (fun m => m = membership_at s h u).
Proof. apply or_default_exact, state_get_content_exact. Qed.

Lemma user_was_joined_exact h u s :
  answers (user_was_joined evict fuel decode_membership h u) s (fun b => b = true <-> membership_at s h u = Event.Join).
Proof.
  eapply answers_bind; [apply user_membership_exact|]. intros c m ->. apply answers_ret. apply bool_decide_eq_true.
Qed.

Lemma user_was_invited_exact h u s :
  answers (user_was_invited evict fuel decode_membership h u) s (fun b =>
    b = true <-> membership_at s h u = Event.Join \/ membership_at s h u = Event.Invite).
Proof.
  eapply answers_bind; [apply user_membership_exact|]. intros c m ->. apply answers_ret.
  by rewrite orb_true_iff, !bool_decide_eq_true.
Qed.

Lemma history_visibility_at_exact h s :
  answers (history_visibility_at evict fuel decode_visibility h) s (fun v => v = visibility_at s h).
Proof. apply or_default_exact, state_get_content_exact. Qed.

Lemma exists_some {A} (a : A) (P : A -> Prop) : (exists x, Some a = Some x /\ P x) <-> P a.
Proof. split; [by intros (? & [= <-] & ?)|eauto]. Qed.

(** The user [u] may see events with the state [h] before them. *)
Definition may_see (s : State) (u room : string) (h : Z) : Prop :=
  match visibility_at s h with
  | WorldReadable => True
  | Shared => (u, room) ∈ joined s
  | Invited => membership_at s h u = Event.Join \/ membership_at s h u = Event.Invite
  | Joined => membership_at s h u = Event.Join
  | OtherVisibility _ => False
  end.

Lemma user_can_see_event_spec u room e s :
  answers (user_can_see_event evict fuel decode_membership decode_visibility u room e) s (fun b =>
    b = true <-> exists h, visibility_shortstatehash room e s = Some h /\ may_see s u room h).
Proof.
  apply answers_asks_bind. destruct (visibility_shortstatehash room e s) as [h|].
  2: { apply answers_ret. split; [done|by intros (? & ? & _)]. }
  apply (answers_impl _ _ (fun b => b = true <-> may_see s u room h)); [|by intros b; rewrite exists_some].
  apply answers_asks_bind. eapply answers_bind; [apply history_visibility_at_exact|]. intros c v ->.
  unfold may_see. destruct (visibility_at s h) eqn:Ev.
  1: eapply answers_impl; [apply user_was_invited_exact|]. 2: eapply answers_impl; [apply user_was_joined_exact|].
  3-5: apply answers_ret; unfold is_joined; by rewrite ?bool_decide_eq_true.
  all: by intros a ->.
Qed.

(** ** Who sees it from another server *)

Lemma any_member_exact (f : string -> M bool) (P : string -> Prop) us s :
  (forall c u, answers (f u) (with_compressor c s) (fun b => b = true <-> P u)) ->
  answers (any_member f us) s (fun b => b = true <-> exists u, u ∈ us /\ P u).
Proof.
  intros Hf. assert (Hf' : forall c, answers (any_member f us) (with_compressor c s) (fun b => b = true <-> exists u, u ∈ us /\ P u)).
  - induction us as [|u us IH]; intros c; cbn [any_member].
    { apply answers_ret. split; [done|by intros (? & ?%not_elem_of_nil & _)]. }
    eapply answers_bind; [apply Hf|]. intros c' [] Hb.
    + apply answers_ret. split; [|done]. intros _. exists u. split; [by apply list_elem_of_here|by apply Hb].
    + rewrite with_compressor_twice. eapply answers_impl; [apply IH|]. intros b ->. split; intros (u' & Hu & HP);
        exists u'; (split; [|done]); [by apply list_elem_of_further|].
      apply elem_of_cons in Hu as [->|]; [|done]. by apply Hb in HP.
  - specialize (Hf' (compressor s)). by rewrite with_compressor_self in Hf'.
Qed.

Context (server_name : string -> string).

Definition server_may_see (s : State) (origin room : string) (h : Z) : Prop :=
  let member (P : string -> Prop) := exists u, (u, room) ∈ joined s /\ server_name u = origin /\ P u in
  match visibility_at s h with
  | WorldReadable | Shared => True
  | Invited => member (fun u => membership_at s h u = Event.Join \/ membership_at s h u = Event.Invite)
  | Joined => member (fun u => membership_at s h u = Event.Join)
  | OtherVisibility _ => False
  end.

Lemma room_members_elem u room s : u ∈ room_members room s <-> (u, room) ∈ joined s.
Proof.
  unfold room_members. rewrite list_elem_of_fmap. split.
  - intros ([u' r] & -> & [Hr He%elem_of_elements]%list_elem_of_filter). cbn in *. by subst.
  - intros H. exists (u, room). split; [done|]. apply list_elem_of_filter. by split; [|apply elem_of_elements].
Qed.

Lemma server_can_see_event_spec origin room e s :
  answers (server_can_see_event evict fuel decode_membership decode_visibility server_name origin room e) s (fun b =>
    b = true <-> exists h, visibility_shortstatehash room e s = Some h /\ server_may_see s origin room h).
Proof.
  apply answers_asks_bind. destruct (visibility_shortstatehash room e s) as [h|].
  2: { apply answers_ret. split; [done|by intros (? & ? & _)]. }
  apply (answers_impl _ _ (fun b => b = true <-> server_may_see s origin room h)); [|by intros b; rewrite exists_some].
  assert (Hm : forall P : string -> Prop, (exists u, u ∈ filter (fun u => server_name u = origin) (room_members room s) /\ P u) <->
    exists u, (u, room) ∈ joined s /\ server_name u = origin /\ P u).
  { intros P. apply exist_proper. intros u. rewrite list_elem_of_filter, room_members_elem. tauto. }
  eapply answers_bind; [apply history_visibility_at_exact|]. intros c v ->. apply answers_asks_bind.
  change (room_members room (with_compressor c s)) with (room_members room s).
  unfold server_may_see. destruct (visibility_at s h) eqn:Ev.
  1: eapply answers_impl; [apply (any_member_exact _ (fun u => membership_at s h u = Event.Join \/ membership_at s h u = Event.Invite));
       intros c' u; exact (user_was_invited_exact h u (with_compressor c' s))|].
  2: eapply answers_impl; [apply (any_member_exact _ (fun u => membership_at s h u = Event.Join)); 
       intros c' u; exact (user_was_joined_exact h u (with_compressor c' s))|].
  3-5: by apply answers_ret.
  all: intros a ->; apply Hm.
Qed.

(** A server is shown every event that one of its users now in the room is shown. *)
Theorem server_sees_with_members u room e s :
  reads states s -> (u, room) ∈ joined s ->
  (user_can_see_event evict fuel decode_membership decode_visibility u room e s).2 = true ->
  (server_can_see_event evict fuel decode_membership decode_visibility server_name (server_name u) room e s).2 = true.
Proof.
  intros Hs Hj. destruct (user_can_see_event_spec u room e s Hs) as (c & b & -> & _ & Hb).
  destruct (server_can_see_event_spec (server_name u) room e s Hs) as (c' & b' & -> & _ & Hb'). cbn [snd].
  intros (h & Hh & Hsee)%Hb. apply Hb'. exists h. split; [done|]. unfold may_see, server_may_see in *.
  destruct (visibility_at s h); try done; by exists u.
Qed.

End Visibility.
End Reading.

(** ** Redactions *)

Section Redactions.
Context (evict : gmap Z (list ShortStateInfo) -> gmap Z (list ShortStateInfo)) (fuel : nat) (server_name : string -> string).
Context {Content Rules : Type} (decode_power_levels : string -> option Content).
Context (decode_create : string -> option (string * list string)) (version_rules : string -> option Rules) (rules_v1 : Rules).
Context (can_redact_other can_redact_own : Content -> Rules -> list string -> string -> bool).
Abbreviation can_redact := (user_can_redact evict fuel server_name decode_power_levels decode_create version_rules rules_v1 can_redact_other can_redact_own).

(** A redaction that is allowed is of no event known to be of another room, and of no
    create or server access control event; without power over others' events it is of a
    known event, by its sender or, for a redaction received from another server, by a user
    of the sender's server, or by the creator of a room without power levels. *)
Theorem redaction_allowed_only target sender room federation s :
  (can_redact target sender room federation s).2 = Ok true ->
  (forall ev, pdus s !! target = Some ev -> Event.room_id ev = room /\
     Event.event_type ev <> Event.RoomCreate /\ Event.event_type ev <> Timeline.RoomServerAcl) /\
  ((exists levels rules creators, can_redact_other levels rules creators sender = true) \/
   (exists ev, pdus s !! target = Some ev /\
      (Event.sender ev = sender \/ federation = true /\ server_name (Event.sender ev) = server_name sender)) \/
   exists s' create, (room_state_get evict fuel room Event.RoomCreate "" s').2 = Ok create /\ Event.sender create = sender).
Proof.
  unfold user_can_redact, bind at 1, asks at 1, get_pdu.
  assert (Hown : forall ev : Event.Event, (if federation then String.eqb (server_name (Event.sender ev)) (server_name sender)
      else String.eqb (Event.sender ev) sender) = true ->
    Event.sender ev = sender \/ federation = true /\ server_name (Event.sender ev) = server_name sender)
    by (intros ev; destruct federation; intros ?%String.eqb_eq; auto).
  destruct (pdus s !! target) as [ev|] eqn:Et; cbn [ok_or ok].
  - destruct (String.eqb_spec (Event.room_id ev) room) as [Hr|]; [|done]; cbn [negb].
    destruct (String.eqb_spec (Event.event_type ev) Event.RoomCreate) as [|Hc]; [done|].
    destruct (String.eqb_spec (Event.event_type ev) Timeline.RoomServerAcl) as [|Ha]; [done|].
    intros H. split; [by intros ? [= <-]|]. revert H. unfold bind at 1.
    destruct (room_state_get_content _ _ _ _ _ _ _) as [s1 [levels|]]; unfold bind.
    + destruct (power_level_context _ _ _ _ _ _ _) as [s2 [rules creators]]. cbn [snd ret].
      intros [= [?|[_ ?]%andb_true_iff]%orb_true_iff]; [left; by eauto|right; left; eauto].
    + destruct (room_state_get _ _ _ _ _ s1) as [s2 [create|]] eqn:Ec; [|done]. cbn [snd ret].
      intros [= [H|H]%orb_true_iff]; apply String.eqb_eq in H; right; [right|left; by eauto].
      exists s1, create. by rewrite Ec.
  - intros H. split; [done|]. revert H. unfold bind at 1.
    destruct (room_state_get_content _ _ _ _ _ _ _) as [s1 [levels|]]; unfold bind.
    + destruct (power_level_context _ _ _ _ _ _ _) as [s2 [rules creators]]. cbn [snd ret].
      rewrite andb_false_r, orb_false_r. intros [= H]. left; by eauto.
    + destruct (room_state_get _ _ _ _ _ s1) as [s2 [create|]] eqn:Ec; [|done]. cbn [snd ret].
      rewrite orb_false_r. intros [= H%String.eqb_eq]. right; right. exists s1, create. by rewrite Ec.
Qed.
End Redactions.

(** ** Who sees an event *)

(** C23: On a service that stores the states [states], whatever its cache holds or drops,
    [user_can_see_event] answers, leaves the same states stored, and says yes exactly
    when there is a state to judge the event by, the one before it or else the room's
    current one, and in that state either history is world readable, or it is shared (the
    reading of a missing or malformed event) and the user is in the room now, or it is for
    the invited and the user was invited or joined then, or it is for the joined and the
    user was joined then. *)
Theorem event_visible_exact evict fuel states decode_membership decode_visibility u room e s :
  Evicts evict -> (4 <= fuel)%nat -> reads states s ->
  exists c b, user_can_see_event evict fuel decode_membership decode_visibility u room e s = (with_compressor c s, b) /\
    reads states (with_compressor c s) /\
    (b = true <-> exists h, visibility_shortstatehash room e s = Some h /\
       may_see states decode_membership decode_visibility s u room h).
Proof. intros ? Hf. by apply user_can_see_event_spec. Qed.

(** ** A room with a history for the joined *)

Definition a_event (id ty content key : string) : Event.Event :=
  Event.mkEvent id "!r:x" "@a:x" 0 ty content (Some key) [] [] None.

Definition a_state : gmap (string * string) string :=
  {[ (RoomHistoryVisibility, "") := "$v"; (Event.RoomMember, "@a:x") := "$m" ]}.

Definition a_short : Short.Service :=
  Short.mkService (ServerCounter.mkCounter 30 (Some (be_bytes 8 30)))
    {[ "$v" := 10; "$m" := 20; "$e" := 30 ]} {[ 10 := "$v"; 20 := "$m"; 30 := "$e" ]}
    {[ (RoomHistoryVisibility, "") := 1; (Event.RoomMember, "@a:x") := 2 ]}
    {[ 1 := (RoomHistoryVisibility, ""); 2 := (Event.RoomMember, "@a:x") ]} ∅ ∅.

(** [@a:x] was in the room before [$e], and has left since. *)
Definition a_service : State :=
  mkState sample_service a_short
    {[ "$v" := a_event "$v" RoomHistoryVisibility "joined" ""; "$m" := a_event "$m" Event.RoomMember "join" "@a:x" ]}
    ∅ {[ 30 := 1 ]} ∅ ∅.

Definition a_membership (c : string) : option Event.MembershipState := if String.eqb c "join" then Some Event.Join else None.
Definition a_visibility (c : string) : option HistoryVisibility := if String.eqb c "joined" then Some Joined else None.

Lemma a_shorts_ok : shorts_ok a_short.
Proof.
  split; intros ty key k; unfold Short.get_shortstatekey, Short.get_statekey_from_short; cbn [a_short Short.statekey_shortstatekey];
    intros [[[= <- <-] <-]|[_ [[= <- <-] <-]%lookup_singleton_Some]]%lookup_insert_Some; (reflexivity || int_solve).
Qed.

Lemma a_encodes : encodes a_short a_state (sample_state 10).
Proof.
  split.
  - unfold sample_state. intros e [->|[->|[]%not_elem_of_nil]%elem_of_cons]%elem_of_list_to_set%elem_of_cons.
    + exists RoomHistoryVisibility, "", "$v", 1, 10. by split_and!; [|int_solve|..].
    + exists Event.RoomMember, "@a:x", "$m", 2, 20. by split_and!; [|int_solve|..].
  - unfold a_state. intros ty key id [[[= <- <-] <-]|[_ [[= <- <-] <-]%lookup_singleton_Some]]%lookup_insert_Some; [exists 1, 10|exists 2, 20];
      (split_and!; [reflexivity|int_solve|unfold sample_state; set_solver]).
Qed.

Lemma a_reads : reads {[ 1 := a_state ]} a_service.
Proof.
  split; [apply a_shorts_ok|]. exists {[ 1 := sample_state 10 ]}. split; [apply sample_represents|].
  intros h. destruct (decide (h = 1)) as [->|Hh].
  - rewrite !lookup_singleton_eq. apply a_encodes.
  - by rewrite !lookup_singleton_ne.
Qed.

Lemma event_visible_exact_witness :
  exists c, user_can_see_event id 4 a_membership a_visibility "@a:x" "!r:x" "$e" a_service = (with_compressor c a_service, true) /\
    reads {[ 1 := a_state ]} (with_compressor c a_service).
Proof.
  destruct (event_visible_exact id 4 {[ 1 := a_state ]} a_membership a_visibility "@a:x" "!r:x" "$e" a_service) as (c & b & E & Hr & Hb).
  - apply _.
  - lia.
  - apply a_reads.
  - exists c. split; [|exact Hr]. rewrite E. f_equal. apply Hb. exists 1. split; [reflexivity|].
    vm_compute. reflexivity.
Defined.

End StateAccessorFacts.
