(* ===== verification/ClientIp.v ===== *)
(** The address a request is counted under, [phantom-api/src/router/client_ip.rs]: from a
    configured header, from any forwarding header when the peer could be a local proxy, or
    the peer itself. Text is a list of ASCII characters; addresses are parsed as by [core::net].

    Headers are a list in the order received, names in lower case as in [http]'s
    [HeaderMap]; whether a value is text ([HeaderValue::to_str]) and whether a subnet
    contains an address ([ipnet]) are parameters. *)
From S2P Require Import Prelude.
From Stdlib Require Import Ascii.

Module ClientIp.

Abbreviation text := (list ascii).
Definition txt (s : string) : text := String.list_ascii_of_string s.

(** ** [str] *)

Section Splitting.
Context (c : ascii).

Fixpoint split (s : text) : list text :=
  match s with
  | [] => [[]]
  | x :: s =>
      if Ascii.eqb x c then [] :: split s
      else match split s with h :: t => (x :: h) :: t | [] => [[x]] end
  end.

Fixpoint split_once (s : text) : option (text * text) :=
  match s with
  | [] => None
  | x :: s =>
      if Ascii.eqb x c then Some ([], s)
      else '(h, t) ← split_once s; Some (x :: h, t)
  end.

Definition rsplit_once (s : text) : option (text * text) :=
  '(h, t) ← split_once (rev s); Some (rev t, rev h).
End Splitting.

(** [trim_start_matches] *)
Fixpoint drop_while (p : ascii -> bool) (s : text) : text :=
  match s with
  | x :: s' => if p x then drop_while p s' else s
  | [] => []
  end.
Definition trim_by (p : ascii -> bool) (s : text) : text := rev (drop_while p (rev (drop_while p s))).

(** [char::is_whitespace] for ASCII. *)
Definition is_whitespace (c : ascii) : bool :=
  let n := nat_of_ascii c in (n =? 32)%nat || (9 <=? n)%nat && (n <=? 13)%nat.
Definition trim : text -> text := trim_by is_whitespace.
Definition trim_matches (c : ascii) : text -> text := trim_by (Ascii.eqb c).

Definition to_ascii_lowercase (c : ascii) : ascii :=
  let n := nat_of_ascii c in if (65 <=? n)%nat && (n <=? 90)%nat then ascii_of_nat (n + 32) else c.
Definition eq_ignore_ascii_case (a b : text) : bool :=
  bool_decide (to_ascii_lowercase <$> a = to_ascii_lowercase <$> b).

Definition strip_prefix (c : ascii) (s : text) : option text :=
  match s with x :: s => if Ascii.eqb x c then Some s else None | [] => None end.

(** ** Addresses *)

Inductive IpAddr := V4 (octets : list Z) | V6 (segments : list Z).
#[export] Instance IpAddr_eq_dec : EqDecision IpAddr.
Proof. solve_decision. Defined.

Definition to_digit (radix : Z) (c : ascii) : option Z :=
  let n := Z.of_nat (nat_of_ascii c) in
  let d := if (48 <=? n) && (n <=? 57) then n - 48
           else if (97 <=? n) && (n <=? 122) then n - 87
           else if (65 <=? n) && (n <=? 90) then n - 55 else 36 in
  if d <? radix then Some d else None.

(** A parser that fails leaves its input where it was: [read_atomically]. *)
Definition parser (A : Type) := text -> option (A * text).

Definition read_given_char (c : ascii) : parser () := fun s => s ← strip_prefix c s; Some ((), s).
(** [read_separator]: the separator comes before every item but the first. *)
Definition read_separator {A} (sep : ascii) (index : nat) (inner : parser A) : parser A := fun s =>
  if (0 <? index)%nat then '(_, s) ← read_given_char sep s; inner s else inner s.

(** The digits of a number, all that there are. *)
Fixpoint read_digits (radix result : Z) (count : nat) (s : text) : Z * nat * text :=
  match s with
  | [] => (result, count, [])
  | c :: s' =>
      match to_digit radix c with
      | Some d => read_digits radix (result * radix + d) (S count) s'
      | None => (result, count, s)
      end
  end.

(** [read_number] into a type with the largest value [max]. *)
Definition read_number (radix : Z) (max_digits : nat) (allow_zero_prefix : bool) (max : Z) : parser Z := fun s =>
  let has_leading_zero := match s with c :: _ => Ascii.eqb c "0" | [] => false end in
  let '(result, digit_count, s) := read_digits radix 0 0 s in
  if (max_digits <? digit_count)%nat then None
  else if max <? result then None
  else if (digit_count =? 0)%nat then None
  else if negb allow_zero_prefix && has_leading_zero && (1 <? digit_count)%nat then None
  else Some (result, s).

(** [n] items from index [i], each behind its separator. *)
Fixpoint read_octets (i n : nat) (s : text) : option (list Z * text) :=
  match n with
  | 0%nat => Some ([], s)
  | S n =>
      '(o, s) ← read_separator "." i (read_number 10 3 false 255) s;
      '(os, s) ← read_octets (S i) n s;
      Some (o :: os, s)
  end.
Definition read_ipv4_addr : parser (list Z) := read_octets 0 4.

(** [read_groups]: up to [n] groups from index [i]; whether the last two are an IPv4 address. *)
Fixpoint read_groups (i n : nat) (s : text) : list Z * bool * text :=
  match n with
  | 0%nat => ([], false, s)
  | S n' =>
      match (if (1 <? n)%nat then read_separator ":" i read_ipv4_addr s else None) with
      | Some ([a; b; c; d], s) => ([a * 256 + b; c * 256 + d], true, s)
      | _ =>
          match read_separator ":" i (read_number 16 4 true 65535) s with
          | Some (g, s) => let '(gs, v4, s) := read_groups (S i) n' s in (g :: gs, v4, s)
          | None => ([], false, s)
          end
      end
  end.

Definition read_ipv6_addr : parser (list Z) := fun s =>
  let '(head, head_ipv4, s) := read_groups 0 8 s in
  if (length head =? 8)%nat then Some (head, s)
  else if head_ipv4 : bool then None
  else
    '(_, s) ← read_given_char ":" s;
    '(_, s) ← read_given_char ":" s;
    let '(tail, _, s) := read_groups 0 (8 - (length head + 1)) s in
    Some (head ++ replicate (8 - length head - length tail) 0 ++ tail, s).

Definition read_ip_addr : parser IpAddr := fun s =>
  match read_ipv4_addr s with
  | Some (a, s) => Some (V4 a, s)
  | None => '(a, s) ← read_ipv6_addr s; Some (V6 a, s)
  end.

(** [str::parse::<IpAddr>]: all of the text. *)
Definition parse_ip (s : text) : option IpAddr :=
  match read_ip_addr s with Some (a, []) => Some a | _ => None end.

Definition to_canonical (a : IpAddr) : IpAddr :=
  match a with
  | V6 [0; 0; 0; 0; 0; 65535; ab; cd] => V4 [ab / 256; ab `mod` 256; cd / 256; cd `mod` 256]
  | _ => a
  end.

Definition is_loopback (a : IpAddr) : bool :=
  match a with
  | V4 (o :: _) => o =? 127
  | V4 [] => false
  | V6 g => bool_decide (g = [0; 0; 0; 0; 0; 0; 0; 1])
  end.

(** ** Requests *)

Inductive IpSource := ConnectInfo | RightmostXForwardedFor | RightmostForwarded | XRealIp
  | CfConnectingIp | TrueClientIp | FlyClientIp | CloudFrontViewerAddress.

Section Requests.
Context (to_str : text -> option text) {IpNet : Type} (contains : IpNet -> IpAddr -> bool).

(** The headers and the extensions read here. *)
Record Parts := mkParts {
  headers : list (string * text);
  connect_info : option IpAddr;
  configured_ip_source : option IpSource;
  trusted_peer_subnets : option (list IpNet)
}.

(** [HeaderMap::get_all] and [HeaderMap::get] *)
Definition get_all (name : string) (hs : list (string * text)) : list text :=
  snd <$> filter (fun h => h.1 = name) hs.
Definition get (name : string) (hs : list (string * text)) : option text := head (get_all name hs).

Definition peer_ip (p : Parts) : option IpAddr := connect_info p.

Definition peer_is_trusted (p : Parts) : bool :=
  match to_canonical <$> peer_ip p with
  | None => false
  | Some peer =>
      is_loopback peer ||
      match trusted_peer_subnets p with Some nets => existsb (fun net => contains net peer) nets | None => false end
  end.

Definition header_entries (hs : list (string * text)) (name : string) : list text :=
  omap to_str (get_all name hs) ≫= split ",".

Definition parse_forwarded_for (stanza : text) : option IpAddr :=
  let part p :=
    '(k, v) ← split_once "=" p;
    if eq_ignore_ascii_case (trim k) (txt "for") then Some (trim v) else None in
  value ← head (omap part (split ";" stanza));
  let for_value := trim_matches "034" value in
  let bracketed := s ← strip_prefix "[" for_value; fst <$> split_once "]" s in
  let candidate :=
    match bracketed with
    | Some ip => ip
    | None => match rsplit_once ":" for_value with Some (ip, _) => ip | None => for_value end
    end in
  parse_ip (trim candidate).

Definition rightmost_x_forwarded_for (hs : list (string * text)) : option IpAddr :=
  last (header_entries hs "x-forwarded-for") ≫= fun s => parse_ip (trim s).
Definition rightmost_forwarded (hs : list (string * text)) : option IpAddr :=
  last (header_entries hs "forwarded") ≫= parse_forwarded_for.

Definition leftmost_x_forwarded_for (hs : list (string * text)) : option IpAddr :=
  head (omap (fun s => parse_ip (trim s)) (header_entries hs "x-forwarded-for")).
Definition leftmost_forwarded (hs : list (string * text)) : option IpAddr :=
  head (omap parse_forwarded_for (header_entries hs "forwarded")).

Definition single_ip_header (hs : list (string * text)) (name : string) : option IpAddr :=
  v ← get name hs; s ← to_str v; parse_ip (trim s).
Definition cloudfront_viewer_address (hs : list (string * text)) : option IpAddr :=
  v ← get "cloudfront-viewer-address" hs; s ← to_str v; '(ip, _) ← rsplit_once ":" s; parse_ip (trim ip).

Definition secure_extract (source : IpSource) (p : Parts) : option IpAddr :=
  match source with
  | ConnectInfo => peer_ip p
  | RightmostXForwardedFor => rightmost_x_forwarded_for (headers p)
  | RightmostForwarded => rightmost_forwarded (headers p)
  | XRealIp => single_ip_header (headers p) "x-real-ip"
  | CfConnectingIp => single_ip_header (headers p) "cf-connecting-ip"
  | TrueClientIp => single_ip_header (headers p) "true-client-ip"
  | FlyClientIp => single_ip_header (headers p) "fly-client-ip"
  | CloudFrontViewerAddress => cloudfront_viewer_address (headers p)
  end.

Definition insecure_fallback (p : Parts) : option IpAddr :=
  head (omap id
    [ leftmost_x_forwarded_for (headers p); leftmost_forwarded (headers p);
      single_ip_header (headers p) "x-real-ip"; single_ip_header (headers p) "fly-client-ip";
      single_ip_header (headers p) "true-client-ip"; single_ip_header (headers p) "cf-connecting-ip";
      cloudfront_viewer_address (headers p); peer_ip p ]).

(** Both errors are an internal server error. *)
Inductive error := NoConfiguredSource | NoClientIp.

Definition from_request_parts (p : Parts) : result error IpAddr :=
  match configured_ip_source p with
  | Some source =>
      match secure_extract source p with
      | Some ip => Ok ip
      | None => ok_or (if peer_is_trusted p then peer_ip p else None) NoConfiguredSource
      end
  | None =>
      match peer_ip p with
      | Some peer => if negb (peer_is_trusted p) then Ok peer else ok_or (insecure_fallback p) NoClientIp
      | None => ok_or (insecure_fallback p) NoClientIp
      end
  end.

End Requests.
End ClientIp.
