(* ===== verification/ClientIpFacts.v ===== *)
(** What address a request is counted under (ClientIp.v): an untrusted peer's own, whatever
    its headers say; the address its proxy appended, where that is configured, whatever
    the client sent in lines that are text; and how a line that is not text gives the
    choice back to the client. *)
From S2P Require Import Prelude ClientIp.
From Stdlib Require Import Ascii.

Module ClientIpFacts.
Import ClientIp.

(** ** Splitting *)

Lemma split_not_nil c s : split c s <> [].
Proof. destruct s as [|x s]; [done|]. cbn. destruct (Ascii.eqb x c); [done|]. by destruct (split c s). Qed.

Lemma split_free c s : c ∉ s -> split c s = [s].
Proof.
  induction s as [|x s IH]; [done|]. intros [Hx Hs]%not_elem_of_cons. cbn [split].
  destruct (Ascii.eqb_spec x c); [congruence|]. by rewrite IH.
Qed.

Lemma split_app c s t : split c (s ++ c :: t) = split c s ++ split c t.
Proof.
  induction s as [|x s IH]; cbn [app split]; [by rewrite Ascii.eqb_refl|]. rewrite IH.
  destruct (Ascii.eqb x c); [done|]. pose proof (split_not_nil c s). by destruct (split c s).
Qed.

(** The last entry is what comes after the last separator. *)
Lemma split_last c s t : c ∉ t -> last (split c (s ++ c :: t)) = Some t.
Proof. intros Ht. by rewrite split_app, (split_free c t), last_snoc. Qed.

(** ** Dotted addresses *)

Definition digit (d : Z) : ascii := ascii_of_nat (Z.to_nat (48 + d)).

(** [Display] of an octet, without leading zeros. *)
Definition display_octet (o : Z) : text :=
  if o <? 10 then [digit o]
  else if o <? 100 then [digit (o / 10); digit (o `mod` 10)]
  else [digit (o / 100); digit ((o / 10) `mod` 10); digit (o `mod` 10)].
Definition display_v4 (a b c d : Z) : text :=
  display_octet a ++ "."%char :: display_octet b ++ "."%char :: display_octet c ++ "."%char :: display_octet d.

Definition is_octet (o : Z) : Prop := 0 <= o < 256.

(** What follows a number. *)
Definition stops (s : text) : Prop := match s with [] => True | c :: _ => to_digit 10 c = None end.

Definition octet_reads (o : Z) : bool :=
  bool_decide (read_number 10 3 false 255 (display_octet o) = Some (o, []) /\
    Forall (fun c => is_Some (to_digit 10 c)) (display_octet o) /\
    Forall (fun c => is_whitespace c = false /\ c <> ","%char) (display_octet o)).

Lemma octets_read : forallb octet_reads (Z.of_nat <$> seq 0 256) = true.
Proof. vm_compute. reflexivity. Qed.

Lemma octet_ok o : is_octet o -> octet_reads o = true.
Proof.
  intros Ho. pose proof octets_read as H. rewrite forallb_forall in H. apply H, list_elem_of_In, list_elem_of_fmap.
  exists (Z.to_nat o). unfold is_octet in Ho. split; [lia|]. apply elem_of_seq. lia.
Qed.

Lemma octet_plain o : is_octet o -> Forall (fun c => is_whitespace c = false /\ c <> ","%char) (display_octet o).
Proof. intros Ho%octet_ok. unfold octet_reads in Ho. by apply bool_decide_eq_true in Ho as (_ & _ & ?). Qed.

Lemma read_digits_stop s t r n :
  Forall (fun c => is_Some (to_digit 10 c)) s -> stops t ->
  read_digits 10 r n (s ++ t) = let '(r, n, _) := read_digits 10 r n s in (r, n, t).
Proof.
  intros Hs Ht. revert r n. induction Hs as [|c s [d Hd] Hs IH]; intros r n; cbn [app read_digits].
  - destruct t as [|c t]; cbn [read_digits]; [done|]. cbn in Ht. by rewrite Ht.
  - by rewrite Hd, IH.
Qed.

Lemma read_octet o t : is_octet o -> stops t -> read_number 10 3 false 255 (display_octet o ++ t) = Some (o, t).
Proof.
  intros Ho%octet_ok Ht. unfold octet_reads in Ho. apply bool_decide_eq_true in Ho as (Hr & Hd & _).
  unfold read_number in *. rewrite (read_digits_stop _ _ _ _ Hd Ht).
  destruct (display_octet o) as [|c s]; [done|]. cbn [app].
  destruct (read_digits 10 0 0 (c :: s)) as [[r n] l]. by repeat case_match; simplify_eq.
Qed.

Lemma read_octet_sep i o t :
  is_octet o -> stops t -> (0 < i)%nat ->
  read_separator "." i (read_number 10 3 false 255) ("."%char :: display_octet o ++ t) = Some (o, t).
Proof. intros Ho Ht Hi. unfold read_separator. destruct (Nat.ltb_spec 0 i); [|lia]. cbn. by apply read_octet. Qed.

(** An IPv4 address is parsed back from its text. *)
Theorem parse_display_v4 a b c d :
  is_octet a -> is_octet b -> is_octet c -> is_octet d -> parse_ip (display_v4 a b c d) = Some (V4 [a; b; c; d]).
Proof.
  intros Ha Hb Hc Hd. unfold parse_ip, read_ip_addr, read_ipv4_addr, display_v4. cbn [read_octets].
  change (read_separator "." 0 ?p ?t) with (p t). rewrite read_octet by done. cbn [mbind option_bind].
  rewrite read_octet_sep by (done || lia). cbn [mbind option_bind].
  rewrite read_octet_sep by (done || lia). cbn [mbind option_bind].
  rewrite <-(app_nil_r (display_octet d)), read_octet_sep by (done || lia). done.
Qed.

(** ** Requests *)

Section Requests.
Context (to_str : text -> option text) {IpNet : Type} (contains : IpNet -> IpAddr -> bool).
Abbreviation extract := (from_request_parts to_str contains).

(** Without a configured source, a peer that is not trusted is counted under its own
    address, whatever its headers say. *)
Theorem untrusted_peer_own_address p peer :
  configured_ip_source p = None -> peer_ip p = Some peer -> peer_is_trusted contains p = false ->
  extract p = Ok peer.
Proof. intros Hc Hp Ht. unfold from_request_parts. by rewrite Hc, Hp, Ht. Qed.

(** With a configured source, an address that is neither what the source says nor the
    address of a trusted peer is not made up: the request is refused. *)
Theorem configured_source_only p source ip :
  configured_ip_source p = Some source -> extract p = Ok ip ->
  secure_extract to_str source p = Some ip \/
  secure_extract to_str source p = None /\ peer_is_trusted contains p = true /\ peer_ip p = Some ip.
Proof.
  intros Hc. unfold from_request_parts. rewrite Hc. destruct (secure_extract to_str source p) as [ip'|]; [by intros [= <-]; left|].
  destruct (peer_is_trusted contains p); [|done]. intros H%ok_or_ok. by right.
Qed.

Lemma other_lines name (hs : list (string * text)) : Forall (fun h => h.1 <> name) hs -> filter (fun h => h.1 = name) hs = [].
Proof. induction 1; [done|]. by rewrite filter_cons_False. Qed.

(** The last entry of the last line of a header, where that line is text. *)
Lemma last_entry hs1 hs2 name v t :
  to_str v = Some t -> Forall (fun h => h.1 <> name) hs2 ->
  last (header_entries to_str (hs1 ++ (name, v) :: hs2) name) = last (split "," t).
Proof.
  intros Hv H2. unfold header_entries, get_all.
  rewrite filter_app, filter_cons_True by done. rewrite (other_lines name hs2) by done.
  rewrite fmap_app, omap_app, bind_app. cbn. rewrite Hv. cbn. rewrite app_nil_r.
  destruct (exists_last (split_not_nil "," t)) as (l & x & ->). by rewrite app_assoc, !last_snoc.
Qed.

(** What a proxy appends: to the last line of the header or, on a line of its own,
    after nothing. *)
Definition appended (before entry : text) : text :=
  match before with [] => entry | _ => before ++ txt ", " ++ entry end.

Lemma drop_while_none p s : Forall (fun c => p c = false) s -> drop_while p s = s.
Proof. intros [|c s' Hc _]; [done|]. cbn. by rewrite Hc. Qed.

Lemma trim_by_none p s : Forall (fun c => p c = false) s -> trim_by p s = s.
Proof.
  intros Hs. unfold trim_by. rewrite (drop_while_none p s) by done.
  by rewrite drop_while_none, rev_involutive by (by apply Forall_rev).
Qed.

Lemma trim_dotted a b c d :
  is_octet a -> is_octet b -> is_octet c -> is_octet d ->
  trim (display_v4 a b c d) = display_v4 a b c d /\ trim (" "%char :: display_v4 a b c d) = display_v4 a b c d /\
  ","%char ∉ display_v4 a b c d.
Proof.
  intros Ha Hb Hc Hd.
  assert (Hp : Forall (fun x => is_whitespace x = false /\ x <> ","%char) (display_v4 a b c d)).
  { unfold display_v4. repeat (apply Forall_app; split; [by apply octet_plain|apply Forall_cons; split; [by split|]]). by apply octet_plain. }
  assert (Hw : Forall (fun x => is_whitespace x = false) (display_v4 a b c d)) by (eapply Forall_impl; [done|by intros ? []]).
  split_and!; [by apply trim_by_none|change (trim (display_v4 a b c d) = display_v4 a b c d); by apply trim_by_none|].
  intros Hin. rewrite Forall_forall in Hp. by destruct (Hp _ Hin).
Qed.

(** Behind a proxy that appends the address of its peer, that address is the one counted,
    whatever the client sent before it and on other lines. *)
Theorem forwarded_peer_counted p hs1 hs2 before a b c d :
  is_octet a -> is_octet b -> is_octet c -> is_octet d ->
  configured_ip_source p = Some RightmostXForwardedFor ->
  headers p = hs1 ++ ("x-forwarded-for"%string, appended before (display_v4 a b c d)) :: hs2 ->
  Forall (fun h => h.1 <> "x-forwarded-for"%string) hs2 ->
  to_str (appended before (display_v4 a b c d)) = Some (appended before (display_v4 a b c d)) ->
  extract p = Ok (V4 [a; b; c; d]).
Proof.
  intros Ha Hb Hc Hd Hs Hh H2 Ht. destruct (trim_dotted a b c d Ha Hb Hc Hd) as (T1 & T2 & Hcomma).
  unfold from_request_parts. rewrite Hs. cbn [secure_extract]. unfold rightmost_x_forwarded_for.
  rewrite Hh, (last_entry _ _ _ _ _ Ht H2). unfold appended. destruct before as [|x before].
  - rewrite split_free by done. cbn [last mbind option_bind]. by rewrite T1, parse_display_v4.
  - change (txt ", " ++ ?t) with (","%char :: " "%char :: t). rewrite split_last.
    + cbn [mbind option_bind]. by rewrite T2, parse_display_v4.
    + apply not_elem_of_cons. by split.
Qed.
End Requests.

(** ** A line that is not text *)

(** [HeaderValue::to_str]: visible ASCII and tabs. *)
Definition visible (v : text) : option text :=
  if forallb (fun c => let n := nat_of_ascii c in (32 <=? n)%nat && (n <? 127)%nat || (n =? 9)%nat) v then Some v else None.

Definition no_net (net : ()) (ip : IpAddr) : bool := false.
Definition through_proxy (peer : IpAddr) (lines : list text) : @Parts () :=
  mkParts ((fun v => ("x-forwarded-for"%string, v)) <$> lines) (Some peer) (Some RightmostXForwardedFor) None.

(** A client that sends two lines, the second with a byte that is not ASCII, chooses the
    address it is counted under: the line to which the proxy appended is skipped as a
    whole, although its last entry is the address of the client. *)
Theorem opaque_line_chooses :
  from_request_parts visible no_net
    (through_proxy (V4 [10; 0; 0; 1]) [display_v4 6 6 6 6; appended [ascii_of_nat 255] (display_v4 203 0 113 7)])
  = Ok (V4 [6; 6; 6; 6]).
Proof. vm_compute. reflexivity. Qed.

(** Behind a proxy on the same host, one such line puts the client in the proxy's place. *)
Theorem opaque_line_is_proxy :
  from_request_parts visible no_net
    (through_proxy (V4 [127; 0; 0; 1]) [appended [ascii_of_nat 255] (display_v4 203 0 113 7)])
  = Ok (V4 [127; 0; 0; 1]).
Proof. vm_compute. reflexivity. Qed.

(** Of two plain lines the last entry of the last is counted. *)
Lemma forwarded_peer_counted_witness :
  from_request_parts visible no_net
    (through_proxy (V4 [127; 0; 0; 1]) [display_v4 6 6 6 6; appended (display_v4 9 9 9 9) (display_v4 203 0 113 7)])
  = Ok (V4 [203; 0; 113; 7]).
Proof.
  apply (forwarded_peer_counted visible no_net _ [("x-forwarded-for"%string, display_v4 6 6 6 6)] [] (display_v4 9 9 9 9));
    try (unfold is_octet; lia); try reflexivity. constructor.
Defined.

End ClientIpFacts.
