(* ===== verification/Typing.v ===== *)
(** Typing notices, [phantom-service/src/rooms/typing/mod.rs]: who is typing in each room
    and the number of its last change; the requests that change it, from clients
    ([client/rooms/typing.rs]) and other servers ([server/transaction/edus.rs]); and what
    the two sync endpoints show of it.

    Every change holds the lock of the table while it draws its number from the counter
    of the server (Short.v), so a change is one step; [typings_maintain] looks first and
    takes the lock after. What is sent to application services and other servers comes
    out as a list, with the answers of the sender as an argument. *)
From S2P Require Import Prelude Order Short.

Module Typing.
Import ServerCounter.

Record RoomTyping := mkRoom { users : gmap string Z; update : Z }.
Definition default_room : RoomTyping := mkRoom ∅ 0.

Record State := mkState {
  typing : gmap string RoomTyping;
  counter : Counter
}.

Inductive error := Count | Sending | Forbidden | Arithmetic | Panicked.

(** What leaves the service. *)
Inductive output :=
  | Announce (room : string)
  | ToAppservices (room : string) (typing : list string)
  | ToServers (room user : string) (typing : bool).

(** [BTreeMap::keys] *)
Definition keys (m : gmap string Z) : list string := (sort_by_key fst (map_to_list m)).*1.

Definition typing_users (room : string) (s : State) : list string :=
  match typing s !! room with Some r => keys (users r) | None => [] end.

(** The number of the change is drawn under the lock; without one nothing is written. *)
Definition change (writes : bool) (room : string) (f : gmap string Z -> gmap string Z) (s : State) : State * result error () :=
  let '(c, n) := next writes (counter s) in
  match n with
  | Err _ => (mkState (typing s) c, Err Count)
  | Ok n =>
      let r := default default_room (typing s !! room) in
      (mkState (<[room := mkRoom (f (users r)) n]> (typing s)) c, Ok ())
  end.

Section Service.
Context (user_is_local : string -> bool) (allow_outgoing_typing : bool).
(** Whether the sender took a message. *)
Context (sent : output -> bool).

Definition send (o : output) : list output * result error () :=
  if sent o then ([o], Ok ()) else ([], Err Sending).
Definition then_send (a b : list output * result error ()) : list output * result error () :=
  match a with (o, Ok _) => (o ++ b.1, b.2) | (o, Err e) => (o, Err e) end.

Definition appservice_send (room : string) (s : State) : list output * result error () :=
  send (ToAppservices room (typing_users room s)).
Definition federation_send (room u : string) (typing : bool) : list output * result error () :=
  if negb allow_outgoing_typing then ([], Ok ()) else send (ToServers room u typing).

(** [try_join]: both, and the first error of either ends it; here one after the other. *)
Definition broadcast (room u : string) (typing : bool) (s : State) : list output * result error () :=
  then_send (appservice_send room s)
    (if user_is_local u then federation_send room u typing else ([], Ok ())).

Definition changed (room u : string) (typing : bool) (r : State * result error ()) : State * list output * result error () :=
  match r with
  | (s, Ok _) => let '(o, r) := broadcast room u typing s in (s, Announce room :: o, r)
  | (s, Err e) => (s, [], Err e)
  end.

Definition typing_add (writes : bool) (u room : string) (timeout : Z) (s : State) : State * list output * result error () :=
  changed room u true (change writes room (<[u := timeout]>) s).
Definition typing_remove (writes : bool) (u room : string) (s : State) : State * list output * result error () :=
  changed room u false (change writes room (delete u) s).

(** ** Users whose time is over *)

Definition expired (now : Z) (room : string) (s : State) : bool :=
  match typing s !! room with
  | Some r => existsb (fun ut => ut.2 <? now) (map_to_list (users r))
  | None => false
  end.

(** The part of [typings_maintain] under the write lock: who was removed. *)
Definition sweep (writes : bool) (now : Z) (room : string) (s : State) : State * result error (list string) :=
  match typing s !! room with
  | None => (s, Ok [])
  | Some r =>
      let live := filter (fun ut => now <= ut.2) (users r) in
      let removed := keys (filter (fun ut => ~ now <= ut.2) (users r)) in
      match removed with
      | [] => (mkState (<[room := mkRoom live (update r)]> (typing s)) (counter s), Ok [])
      | _ =>
          let '(c, n) := next writes (counter s) in
          match n with
          | Ok n => (mkState (<[room := mkRoom live n]> (typing s)) c, Ok removed)
          | Err _ => (mkState (<[room := mkRoom live (update r)]> (typing s)) c, Err Count)
          end
      end
  end.

Fixpoint send_removed (room : string) (us : list string) : list output * result error () :=
  match us with
  | [] => ([], Ok ())
  | u :: us => then_send (if user_is_local u then federation_send room u false else ([], Ok ())) (send_removed room us)
  end.

Definition typings_maintain (writes : bool) (now : Z) (room : string) (s : State) : State * list output * result error () :=
  if negb (expired now room s) then (s, [], Ok ()) else
  match sweep writes now room s with
  | (s, Ok []) => (s, [], Ok ())
  | (s, Ok removed) =>
      let '(o, r) := then_send (appservice_send room s) (send_removed room removed) in
      (s, Announce room :: o, r)
  | (s, Err e) => (s, [], Err e)
  end.

(** ** Reading *)

(** The list of a user's ignored users, if it is set and decodes. *)
Context (ignored_users : string -> option (gset string)).

Definition filter_ignored (us : list string) (sender : string) : list string :=
  match us with
  | [] => us
  | _ => match ignored_users sender with
         | None => us
         | Some ignored => filter (fun u => u ∉ ignored) us
         end
  end.

Definition last_update (room : string) (s : State) : Z :=
  match typing s !! room with Some r => update r | None => 0 end.

Definition last_typing_update (writes : bool) (now : Z) (room : string) (s : State) : State * list output * result error Z :=
  let '(s, o, r) := typings_maintain writes now room s in
  (s, o, match r with Ok _ => Ok (last_update room s) | Err e => Err e end).

Definition typing_users_for_user (room sender : string) (s : State) : list string :=
  filter_ignored (typing_users room s) sender.

Definition typing_snapshot_for_user (writes : bool) (now : Z) (room sender : string) (select : Z -> bool) (s : State) :
    State * list output * result error (option (Z * list string)) :=
  let '(s, o, r) := typings_maintain writes now room s in
  (s, o, match r with
         | Err e => Err e
         | Ok _ =>
             let update := last_update room s in
             if negb (select update) then Ok None
             else Ok (Some (update, filter_ignored (typing_users room s) sender))
         end).

(** ** Requests *)

Context (is_joined : string -> string -> bool).

(** [Ord::clamp] panics if its bounds are crossed. *)
Definition clamp (x lo hi : Z) : option Z :=
  if negb (lo <=? hi) then None else Some (if x <? lo then lo else if hi <? x then hi else x).

(** [timeout] is [None] for a notice that the user stopped. *)
Definition create_typing_event (writes : bool) (now min_s max_s : Z) (sender user_id room : string) (appservice : bool)
    (timeout : option Z) (s : State) : State * list output * result error () :=
  if negb (String.eqb sender user_id) && negb appservice then (s, [], Err Forbidden)
  else if negb (is_joined sender room) then (s, [], Err Forbidden)
  else match timeout with
       | Some t =>
           match u64_checked_mul min_s 1000, u64_checked_mul max_s 1000 with
           | Some lo, Some hi =>
               match clamp (Z.min t u64_max) lo hi with
               | None => (s, [], Err Panicked)
               | Some duration =>
                   match u64_checked_add now duration with
                   | None => (s, [], Err Panicked)
                   | Some timeout => typing_add writes sender room timeout s
                   end
               end
           | _, _ => (s, [], Err Arithmetic)
           end
       | None => typing_remove writes sender room s
       end.

(** From another server; what goes wrong is logged. *)
Context (server_name : string -> string) (acl_allows : string -> string -> bool).

Definition typing_update (writes : bool) (now timeout_s : Z) (origin room u : string) (is_typing : bool) (s : State) : State * list output :=
  if negb (String.eqb (server_name u) origin) then (s, [])
  else if negb (acl_allows origin room) then (s, [])
  else if negb (is_joined u room) then (s, [])
  else
    let '(s, o, _) :=
      if is_typing then typing_add writes u room (Z.min (now + Z.min (timeout_s * 1000) u64_max) u64_max) s
      else typing_remove writes u room s in
    (s, o).

(** ** Sync *)

(** The typing event of a room in [v3/joined.rs], if there is one. *)
Definition typing_events (writes : bool) (now since : Z) (room sender : string) (s : State) : State * list output * list (list string) :=
  let '(s, o, r) := last_typing_update writes now room s in
  (s, o, match r with
         | Ok count => if count <=? since then [] else [typing_users_for_user room sender s]
         | Err _ => []
         end).

(** [None]: not shown; [Some false]: shown; [Some true]: shown with an initial payload. *)
Definition eligibility (update_token globalsince next_batch roomsince : Z) (has_users : bool) : option bool :=
  if next_batch <? update_token then None
  else if globalsince <? update_token then Some false
  else if (roomsince =? 0) && has_users then Some true else None.

(** One room of [v5/extensions/typing.rs]: its users, and whether only with a payload. *)
Definition collect_room (writes : bool) (now globalsince next_batch roomsince : Z) (room sender : string) (s : State) :
    State * list output * option (list string * bool) :=
  let eligible := fun token has => eligibility token globalsince next_batch roomsince has in
  let '(s, o, r) := typing_snapshot_for_user writes now room sender (fun t => bool_decide (is_Some (eligible t true))) s in
  (s, o, match r with
         | Ok (Some (update, us)) =>
             (fun initial_only => (us, initial_only)) <$>
               eligible update (match us with [] => false | _ => true end)
         | _ => None
         end).

(** Its part of the response, given whether the room's payload is an initial one. *)
Definition into_response (initial : bool) (room : list string * bool) : option (list string) :=
  if room.2 && negb initial then None else Some room.1.

End Service.
End Typing.
