(* ===== verification/TypingFacts.v ===== *)
(** What clients see of typing notices (Typing.v): a client that is shown nothing missed
    nothing, and what it is shown are the users typing then, except those it ignores;
    how long a notice stays; and the change that is not shown when a write fails. *)
From S2P Require Import Prelude Order Short Typing.

Module TypingFacts.
Import ServerCounter Typing.

Definition users_in (room : string) (s : State) : gmap string Z :=
  match typing s !! room with Some r => users r | None => ∅ end.

Lemma elem_of_keys m u : u ∈ keys m <-> is_Some (m !! u).
Proof.
  unfold keys. rewrite list_elem_of_fmap. setoid_rewrite sort_by_key_perm. split.
  - intros ([u' t] & -> & H%elem_of_map_to_list). by exists t.
  - intros [t H]. exists (u, t). by rewrite elem_of_map_to_list.
Qed.

Lemma typing_users_elem room s u : u ∈ typing_users room s <-> is_Some (users_in room s !! u).
Proof.
  unfold typing_users, users_in. destruct (typing s !! room); [apply elem_of_keys|].
  rewrite lookup_empty. split; [by intros ?%not_elem_of_nil|by intros []].
Qed.

(** ** Numbers of changes *)

Record wf (s : State) : Prop := {
  wf_counter : ServerCounter.wf (counter s);
  wf_update room : 0 <= last_update room s <= count (counter s)
}.

Lemma next_ok w c c' n : ServerCounter.wf c -> next w c = (c', Ok n) -> n = count c + 1 /\ count c' = n /\ ServerCounter.wf c'.
Proof.
  intros Hc E. pose proof (handle_spec c (Next w) Hc) as (c2 & ns & Hh & Hwf & _). cbn [handle] in Hh. rewrite E in Hh.
  injection Hh as <- <-. unfold next in E. destruct (u64_checked_add (count c) 1) as [k|] eqn:Ek; [|done].
  apply in_range_Some in Ek as [-> _]. destruct w; simplify_eq. done.
Qed.

Lemma next_err w c c' e : ServerCounter.wf c -> next w c = (c', Err e) -> count c <= count c' /\ ServerCounter.wf c'.
Proof.
  intros Hc E. pose proof (handle_spec c (Next w) Hc) as (c2 & ns & Hh & Hwf & _). cbn [handle] in Hh. rewrite E in Hh.
  injection Hh as <- <-. unfold next in E. destruct (u64_checked_add (count c) 1) as [k|] eqn:Ek; [|by simplify_eq].
  apply in_range_Some in Ek as [-> _]. destruct w; simplify_eq. cbn. split; [lia|done].
Qed.

(** What a client that saw [s] can tell in [s']: a room is as it was, or its number is
    one that [s] had not given out. *)
Definition told (s s' : State) : Prop :=
  count (counter s) <= count (counter s') /\
  forall room, users_in room s' = users_in room s /\ last_update room s' = last_update room s \/
    count (counter s) < last_update room s'.

Lemma told_refl s : told s s.
Proof. split; [done|]. by left. Qed.

Lemma told_trans s1 s2 s3 : told s1 s2 -> told s2 s3 -> told s1 s3.
Proof.
  intros [C12 H12] [C23 H23]. split; [lia|]. intros room.
  destruct (H23 room) as [[-> ->]|]; [apply H12|right; lia].
Qed.

(** Writing a room with a new number. *)
Lemma told_insert s room us n c :
  wf s -> count (counter s) < n -> count c = n -> ServerCounter.wf c ->
  let s' := mkState (<[room := mkRoom us n]> (typing s)) c in wf s' /\ told s s'.
Proof.
  intros [Hc Hu] Hn Hcn Hwf s'. split; split; cbn [counter s']; try lia; try done; intros r; subst s';
    unfold last_update, users_in; cbn [typing counter]; pose proof (Hu r) as Hr; unfold last_update in Hr;
    (destruct (decide (r = room)) as [->|Hne]; [rewrite lookup_insert_eq; cbn|rewrite lookup_insert_ne by done]).
  - pose proof (Hu room). lia.
  - lia.
  - right. lia.
  - by left.
Qed.

(** Keeping the rooms as they are. *)
Lemma told_counter s c :
  wf s -> count (counter s) <= count c -> ServerCounter.wf c -> let s' := mkState (typing s) c in wf s' /\ told s s'.
Proof.
  intros [Hc Hu] Hn Hwf s'. split; split; cbn; try done; intros room; [|by left].
  specialize (Hu room). change (last_update room s') with (last_update room s). lia.
Qed.

Lemma change_told w room f s s' r : wf s -> change w room f s = (s', r) -> wf s' /\ told s s'.
Proof.
  intros Hs. unfold change. destruct (next w (counter s)) as [c [n|e]] eqn:E; intros [= <- <-].
  - destruct (next_ok _ _ _ _ (wf_counter _ Hs) E) as (Hn & Hc & Hwf). apply told_insert; try done; lia.
  - destruct (next_err _ _ _ _ (wf_counter _ Hs) E) as [Hc Hwf]. by apply told_counter.
Qed.

Lemma filter_all_live now (m : gmap string Z) :
  keys (filter (fun ut => ~ now <= ut.2) m) = [] -> filter (fun ut => now <= ut.2) m = m.
Proof.
  intros H. apply map_filter_id. intros u t Hut. destruct (decide (now <= t)) as [|Hlt]; [done|].
  exfalso. assert (u ∈ keys (filter (fun ut => ~ now <= ut.2) m)) as Hin; [|by rewrite H in Hin; apply not_elem_of_nil in Hin].
  apply elem_of_keys. exists t. by apply map_lookup_filter_Some.
Qed.

Lemma insert_same_room room r s : typing s !! room = Some r -> mkState (<[room := mkRoom (users r) (update r)]> (typing s)) (counter s) = s.
Proof. destruct s as [ty c], r. intros H. cbn in *. by rewrite insert_id. Qed.

Lemma sweep_told w now room s s' removed : wf s -> sweep w now room s = (s', Ok removed) -> wf s' /\ told s s'.
Proof.
  intros Hs. unfold sweep. destruct (typing s !! room) as [r|] eqn:E; [|intros [= <- <-]; by split; [|apply told_refl]].
  destruct (keys (filter (fun ut => ~ now <= ut.2) (users r))) as [|u us] eqn:Er.
  - rewrite (filter_all_live _ _ Er), insert_same_room by done. intros [= <- <-]. by split; [|apply told_refl].
  - destruct (next w (counter s)) as [c [n|e]] eqn:En; [|done]. intros [= <- <-].
    destruct (next_ok _ _ _ _ (wf_counter _ Hs) En) as (Hn & Hc & Hwf). apply told_insert; try done; lia.
Qed.

(** ** Steps of any tasks *)

Inductive op :=
  | Add (writes : bool) (user room : string) (timeout : Z)
  | Remove (writes : bool) (user room : string)
  | Sweep (writes : bool) (now : Z) (room : string).

(** A section under the write lock. [None]: users were removed and no number drawn. *)
Definition exec (s : State) (o : op) : option State :=
  match o with
  | Add w u room t => Some (change w room (<[u := t]>) s).1
  | Remove w u room => Some (change w room (delete u) s).1
  | Sweep w now room => match sweep w now room s with (s, Ok _) => Some s | (_, Err _) => None end
  end.

Fixpoint run (s : State) (ops : list op) : option State :=
  match ops with [] => Some s | o :: ops => s ← exec s o; run s ops end.

Lemma run_told s ops s' : wf s -> run s ops = Some s' -> wf s' /\ told s s'.
Proof.
  revert s. induction ops as [|o ops IH]; intros s Hs; cbn [run]; [intros [= <-]; by split; [|apply told_refl]|].
  destruct (exec s o) as [s1|] eqn:E; [|done]. cbn [mbind option_bind]. intros Hr.
  assert (wf s1 /\ told s s1) as [H1 T1].
  { destruct o as [w u room t|w u room|w now room]; cbn [exec] in E.
    - destruct (change _ _ _ s) as [? ?] eqn:Ec. injection E as <-. eapply change_told; [exact Hs|exact Ec].
    - destruct (change _ _ _ s) as [? ?] eqn:Ec. injection E as <-. eapply change_told; [exact Hs|exact Ec].
    - destruct (sweep w now room s) as [s2 [us|e]] eqn:Es; [|done]. injection E as <-. by eapply sweep_told. }
  destruct (IH _ H1 Hr) as [H2 T2]. split; [done|]. by eapply told_trans.
Qed.

(** ** What is live *)

Lemma expired_false now room s u t :
  expired now room s = false -> users_in room s !! u = Some t -> now <= t.
Proof.
  unfold expired, users_in. destruct (typing s !! room) as [r|]; [|by rewrite lookup_empty]. intros He Hu.
  destruct (Z.le_gt_cases now t) as [|Hlt]; [done|]. exfalso.
  assert (existsb (fun ut => ut.2 <? now) (map_to_list (users r)) = true) as H; [|congruence].
  apply existsb_exists. exists (u, t). split; [by apply list_elem_of_In, elem_of_map_to_list|]. cbn. lia.
Qed.

Section Sync.
Context (user_is_local : string -> bool) (allow_outgoing_typing : bool) (sent : output -> bool).
Context (ignored_users : string -> option (gset string)).
Abbreviation maintain := (typings_maintain user_is_local allow_outgoing_typing sent).

(** Afterwards those whose time is not over are left, and the change has its number. *)
Lemma maintain_live w now room s s' o :
  wf s -> maintain w now room s = (s', o, Ok ()) ->
  wf s' /\ told s s' /\ forall u t, users_in room s' !! u = Some t <-> users_in room s !! u = Some t /\ now <= t.
Proof.
  intros Hs. unfold typings_maintain. destruct (expired now room s) eqn:He; cbn [negb].
  2: { intros [= <- <-]. split_and!; [done|apply told_refl|]. intros u t. split; [|tauto]. intros Hu. split; [done|]. by eapply expired_false. }
  destruct (sweep w now room s) as [s1 [us|e]] eqn:Es; [|done]. intros H.
  assert (s1 = s') as ->.
  { destruct us; [by simplify_eq|]. destruct (then_send _ _) as [? ?]. by simplify_eq. }
  destruct (sweep_told _ _ _ _ _ _ Hs Es) as [Hs' Ht]. split_and!; [done..|]. intros u t. clear H Ht.
  unfold sweep in Es. unfold users_in. destruct (typing s !! room) as [r|] eqn:E; [|by unfold expired in He; rewrite E in He].
  assert (Hl : forall n c, match typing (mkState (<[room := mkRoom (filter (fun ut => now <= ut.2) (users r)) n]> (typing s)) c) !! room with
    Some r => users r | None => ∅ end = filter (fun ut => now <= ut.2) (users r)) by (intros; cbn; by rewrite lookup_insert_eq).
  destruct (keys _) as [|u0 us0]; [|destruct (next w (counter s)) as [c [n|]]; [|done]]; injection Es as <- _;
    rewrite Hl, map_lookup_filter_Some; done.
Qed.

Lemma filter_ignored_elem us me u :
  u ∈ filter_ignored ignored_users us me <-> u ∈ us /\ forall ig, ignored_users me = Some ig -> u ∉ ig.
Proof.
  unfold filter_ignored. destruct us as [|u0 us]; [split; [by intros ?%not_elem_of_nil|by intros [? _]]|].
  destruct (ignored_users me) as [ig|]; [|split; [by split|by intros [? _]]].
  rewrite list_elem_of_filter. split; [by intros [? ?]; split; [|intros ? [= <-]]|intros [? H]; split; [by apply H|done]].
Qed.

(** Typing notices are exact for a client that syncs: let any tasks add, remove and time
    out users since the client's last sync, which gave it a number the server had reached.
    If a sync that could do its maintenance shows no typing event, the users typing in the
    room are those of that last sync; if it shows one, it lists exactly the users added and
    not removed since whose time is not over, except those the client ignores. *)
Theorem typing_sync_exact s ops s' s'' o w now since room me :
  wf s -> since <= count (counter s) -> run s ops = Some s' -> maintain w now room s' = (s'', o, Ok ()) ->
  exists shown, typing_events user_is_local allow_outgoing_typing sent ignored_users w now since room me s' = (s'', o, shown) /\
    (shown = [] -> users_in room s'' = users_in room s) /\
    (forall us, us ∈ shown -> forall u, u ∈ us <->
       (exists t, users_in room s' !! u = Some t /\ now <= t) /\ forall ig, ignored_users me = Some ig -> u ∉ ig).
Proof.
  intros Hs Hsince Hr Hm. destruct (run_told _ _ _ Hs Hr) as [Hs' T1].
  destruct (maintain_live _ _ _ _ _ _ Hs' Hm) as (Hs'' & T2 & Hlive). pose proof (told_trans _ _ _ T1 T2) as [_ T].
  unfold typing_events, last_typing_update. rewrite Hm. eexists. split; [done|]. split.
  - destruct (Z.leb_spec (last_update room s'') since); [|done]. intros _. destruct (T room) as [[H1 _]|]; [done|lia].
  - intros us. destruct (Z.leb_spec (last_update room s'') since); [by intros ?%not_elem_of_nil|].
    intros ->%list_elem_of_singleton u. unfold typing_users_for_user. rewrite filter_ignored_elem, typing_users_elem.
    apply and_iff_compat_r. split; [intros [t Ht%Hlive]; by exists t|intros (t & Ht); exists t; by apply Hlive].
Qed.

End Sync.

(** ** Requests *)

Lemma typing_add_state user_is_local allow sent w u room t s s' o r :
  typing_add user_is_local allow sent w u room t s = (s', o, r) -> s' = (change w room (<[u := t]>) s).1.
Proof.
  unfold typing_add, changed. destruct (change _ _ _ s) as [s1 [[]|e]]; [|by intros [= <- _ _]].
  destruct (broadcast _ _ _ _ _ _ _). by intros [= <- _ _].
Qed.

(** A notice of a client is for its own account or by an application service, in a room
    the user is in, and stays as long as the configuration allows, whatever was asked. *)
Theorem typing_request_bounded user_is_local allow sent is_joined w now min_s max_s sender user_id room appservice t s s' o r :
  0 <= now -> 0 <= min_s -> 0 <= t ->
  create_typing_event user_is_local allow sent is_joined w now min_s max_s sender user_id room appservice (Some t) s = (s', o, r) ->
  s' <> s \/ o <> [] ->
  (sender = user_id \/ appservice = true) /\ is_joined sender room = true /\ exists t',
    now + min_s * 1000 <= t' <= now + max_s * 1000 /\ s' = (change w room (<[sender := t']>) s).1.
Proof.
  intros Hnow Hmin Ht. unfold create_typing_event.
  assert (Hno : forall e : error, (s, @nil output, Err e) = (s', o, r) -> s' <> s \/ o <> [] -> False)
    by (intros e [= -> -> _] [|]; done).
  destruct (String.eqb_spec sender user_id) as [He|He], appservice eqn:Ea; cbn [negb andb]; try (by intros ? ?; exfalso; eapply Hno).
  all: destruct (is_joined sender room) eqn:Hj; cbn [negb]; try (by intros ? ?; exfalso; eapply Hno).
  all: destruct (u64_checked_mul min_s 1000) as [lo|] eqn:El, (u64_checked_mul max_s 1000) as [hi|] eqn:Eh;
    try (by intros ? ?; exfalso; eapply Hno).
  all: apply in_range_Some in El as [-> _], Eh as [-> _]; unfold clamp.
  all: destruct (Z.leb_spec (min_s * 1000) (max_s * 1000)) as [Hlh|]; cbn [negb]; try (by intros ? ?; exfalso; eapply Hno).
  all: destruct (u64_checked_add now _) as [t'|] eqn:Et; try (by intros ? ?; exfalso; eapply Hno).
  all: apply in_range_Some in Et as [-> _]; intros H%typing_add_state _; (split; [tauto|]); (split; [done|]).
  all: eexists; split; [|exact H].
  all: destruct (Z.ltb_spec (Z.min t u64_max) (min_s * 1000)), (Z.ltb_spec (max_s * 1000) (Z.min t u64_max)); lia.
Qed.

(** A configuration whose least time is above its greatest ends every such request in a panic. *)
Theorem crossed_bounds_panic user_is_local allow sent is_joined w now u room t s :
  is_joined u room = true ->
  (create_typing_event user_is_local allow sent is_joined w now 45 15 u u room false (Some t) s).2 = Err Panicked.
Proof. intros Hj. unfold create_typing_event. by rewrite String.eqb_refl, Hj. Qed.

(** Another server changes nothing but the notices of its own users who are in the room. *)
Theorem typing_update_own user_is_local allow sent is_joined server_name acl_allows w now timeout_s origin room u b s s' o :
  typing_update user_is_local allow sent is_joined server_name acl_allows w now timeout_s origin room u b s = (s', o) ->
  s' <> s -> server_name u = origin /\ acl_allows origin room = true /\ is_joined u room = true.
Proof.
  unfold typing_update. destruct (String.eqb_spec (server_name u) origin); cbn [negb]; [|by intros [= <- _]].
  destruct (acl_allows origin room); cbn [negb]; [|by intros [= <- _]].
  destruct (is_joined u room); cbn [negb]; [done|by intros [= <- _]].
Qed.

(** ** Examples *)

Definition start : State := mkState ∅ (mkCounter 5 (Some (be_bytes 8 5))).
Definition everywhere (o : output) : bool := true.
Definition ignores (u : string) : option (gset string) := if String.eqb u "@me:x" then Some {[ "@c:x" ]} else None.
Definition some_ops : list op := [Add true "@a:x" "!r" 100; Add true "@b:x" "!r" 10; Add true "@c:x" "!r" 100; Remove true "@d:x" "!r"].

Lemma start_wf : wf start.
Proof. split; [split; [cbn; int_solve|exists 5; split; [reflexivity|cbn; lia]]|]. intros room. unfold last_update. cbn [typing start]. rewrite lookup_empty. cbn. lia. Qed.

Lemma typing_sync_exact_witness :
  exists s' s'' o shown, run start some_ops = Some s' /\
    typing_events (fun _ => true) true everywhere ignores true 50 5 "!r" "@me:x" s' = (s'', o, shown) /\
    (shown = [] -> users_in "!r" s'' = users_in "!r" start) /\ shown = [["@a:x"]].
Proof.
  destruct (run start some_ops) as [s'|] eqn:Er; [|by vm_compute in Er].
  assert (Hm : snd <$> (typings_maintain (fun _ => true) true everywhere true 50 "!r" <$> run start some_ops) = Some (Ok ())) by (vm_compute; reflexivity).
  assert (Hs : snd <$> (typing_events (fun _ => true) true everywhere ignores true 50 5 "!r" "@me:x" <$> run start some_ops) = Some [["@a:x"]])
    by (vm_compute; reflexivity).
  rewrite Er in Hm, Hs. cbn [fmap option_fmap option_map] in Hm, Hs.
  destruct (typings_maintain (fun _ => true) true everywhere true 50 "!r" s') as [[s'' o] r] eqn:Em.
  injection Hm as ->.
  destruct (typing_sync_exact (fun _ => true) true everywhere ignores start some_ops s' s'' o true 50 5 "!r" "@me:x")
    as (shown & E & H1 & _); [apply start_wf|cbn; lia|done..|].
  exists s', s'', o, shown. split_and!; [done..|]. rewrite E in Hs. by injection Hs.
Defined.

(** When the number of a timeout is not written, the users are gone and the room keeps its
    number: a client that synced before is shown nothing. *)
Theorem timeout_unseen :
  exists s s1, run start [Add true "@a:x" "!r" 10] = Some s /\
    typings_maintain (fun _ => true) true everywhere false 50 "!r" s = (s1, [], Err Count) /\
    users_in "!r" s1 <> users_in "!r" s /\
    (typing_events (fun _ => true) true everywhere ignores true 60 (count (counter s)) "!r" "@me:x" s1).2 = [].
Proof. eexists _, _. split_and!; [reflexivity..| |reflexivity]. vm_compute. discriminate. Qed.

End TypingFacts.
