(* ===== verification/Oauth.v ===== *)
(** The authorization server for next-generation sign-in: authorization requests and codes
    ([phantom-service/src/auth/oauth/server/auth.rs]), device grants ([device.rs]), scopes
    ([mod.rs]), and the endpoints over them ([phantom-api/src/oidc]: [complete.rs],
    [token.rs], [device/mod.rs]).

    Every read-and-write of a request, a code or a grant holds the lock of its key, so each
    is one step; a user code is resolved before the lock of the grant it names is taken, and
    may name another grant by then. Rows are at the type of their keys and values; texts
    drawn at random, the clock and the answers of the database are arguments. SHA-256 and
    base64 are parameters. *)
From S2P Require Import Prelude Order Maps Time Tokens Devices Sessions.
From Stdlib Require Import Ascii.

Module Oauth.
Import Tokens.

Record AuthRequest := mkRequest {
  r_client_id : string;
  r_redirect_uri : string;
  r_scope : string;
  r_state : option string;
  r_nonce : option string;
  r_code_challenge : option string;
  r_code_challenge_method : option string;
  r_idp_id : option string;
  r_local_auth_selected : bool;
  r_response_mode : option string;
  r_created_at : Z;
  r_expires_at : Z
}.
#[export] Instance AuthRequest_eq_dec : EqDecision AuthRequest.
Proof. solve_decision. Defined.

Record AuthCodeSession := mkSession {
  c_code : string;
  c_client_id : string;
  c_redirect_uri : string;
  c_scope : string;
  c_state : option string;
  c_nonce : option string;
  c_code_challenge : option string;
  c_code_challenge_method : option string;
  c_user_id : string;
  c_idp_id : option string;
  c_created_at : Z;
  c_expires_at : Z
}.

Inductive DeviceGrantStatus := Pending | Approved (user_id : string) (idp_id : option string) | Denied.

Record DeviceGrant := mkGrant {
  g_device_code : string;
  g_user_code : string;
  g_client_id : string;
  g_scope : string;
  g_status : DeviceGrantStatus;
  g_attempts : Z;
  g_created_at : Z;
  g_expires_at : Z
}.

Record ApprovedDeviceGrant := mkApproved { a_client_id : string; a_scope : string; a_user_id : string; a_idp_id : option string }.
Inductive DeviceGrantPoll := PollPending | PollApproved (g : ApprovedDeviceGrant) | PollDenied | PollExpired.

(** The columns, by their names in [Data]. Of a client's registration what is read here. *)
Record Client := mkClient { client_name : option string; application_type : option string; redirect_uris : list string }.
Record Server := mkServer {
  oidcclientid_registration : gmap string Client;
  oidccode_authsession : gmap string AuthCodeSession;
  oidcreqid_authrequest : gmap string AuthRequest;
  oidcdevicecode_devicegrant : gmap string DeviceGrant;
  oidcusercode_devicecode : gmap string string
}.
Definition empty_server : Server := mkServer ∅ ∅ ∅ ∅ ∅.

Definition with_codes m (s : Server) := mkServer (oidcclientid_registration s) m (oidcreqid_authrequest s) (oidcdevicecode_devicegrant s) (oidcusercode_devicecode s).
Definition with_requests m (s : Server) := mkServer (oidcclientid_registration s) (oidccode_authsession s) m (oidcdevicecode_devicegrant s) (oidcusercode_devicecode s).
Definition with_grants m (s : Server) := mkServer (oidcclientid_registration s) (oidccode_authsession s) (oidcreqid_authrequest s) m (oidcusercode_devicecode s).
Definition with_user_codes m (s : Server) := mkServer (oidcclientid_registration s) (oidccode_authsession s) (oidcreqid_authrequest s) (oidcdevicecode_devicegrant s) m.

Definition AUTH_REQUEST_LIFETIME : Z := Time.from_secs (10 * 60).
Definition AUTH_CODE_LIFETIME : Z := Time.from_secs (10 * 60).
Definition DEVICE_GRANT_LIFETIME : Z := Time.from_secs (30 * 60).
Definition MAX_VERIFY_ATTEMPTS : Z := 10.
(** [now.checked_add(lifetime).unwrap_or(now)] *)
Definition expiry (now lifetime : Z) : Z := default now (Time.system_time (now + lifetime)).

Section Service.
(** [b64.encode(sha256::hash(verifier))] *)
Context (challenge_of : string -> string).

(** ** Authorization requests *)

Definition store_auth_request (i : Maps.io) (req_id : string) (r : AuthRequest) (s : Server) : Server * result error unit :=
  write i s (with_requests (<[req_id := r]> (oidcreqid_authrequest s)) s).
Definition remove_auth_request (i : Maps.io) (req_id : string) (s : Server) : Server * result error unit :=
  write i s (with_requests (delete req_id (oidcreqid_authrequest s)) s).

Definition peek_auth_request (e : Env) (req_id : string) (s : Server) : Server * result error AuthRequest :=
  match oidcreqid_authrequest s !! req_id with
  | None => (s, Err NotFound)
  | Some r =>
      if r_expires_at r <? now e
      then and_then (remove_auth_request (io e 0) req_id s) (fun s => (s, Err NotFound))
      else (s, Ok r)
  end.

(** A different provider, or any for the local branch, is refused. *)
Definition no_other_provider (provider : option string) (r : AuthRequest) : result error AuthRequest :=
  match r_idp_id r with
  | Some bound => if bool_decide (Some bound = provider) then Ok r else Err Forbidden
  | None => Ok r
  end.
Definition local_unclaimed (r : AuthRequest) : result error AuthRequest :=
  if r_local_auth_selected r then Err Forbidden else Ok r.

Definition with_branch (idp : option string) (local : bool) (r : AuthRequest) : AuthRequest :=
  mkRequest (r_client_id r) (r_redirect_uri r) (r_scope r) (r_state r) (r_nonce r) (r_code_challenge r)
    (r_code_challenge_method r) idp local (r_response_mode r) (r_created_at r) (r_expires_at r).

Definition update_auth_request (e : Env) (req_id : string) (update : AuthRequest -> result error AuthRequest) (s : Server) :
    Server * result error unit :=
  let '(s, r) := peek_auth_request e req_id s in
  match r ≫= update with
  | Ok r => store_auth_request (io e 1) req_id r s
  | Err err => (s, Err err)
  end.

Definition bind_auth_request_to_provider (e : Env) (req_id provider : string) : Server -> Server * result error unit :=
  update_auth_request e req_id (fun r =>
    r ← no_other_provider (Some provider) r ≫= local_unclaimed;
    Ok (with_branch (Some provider) (r_local_auth_selected r) r)).
Definition bind_auth_request_to_local (e : Env) (req_id : string) : Server -> Server * result error unit :=
  update_auth_request e req_id (fun r => r ← no_other_provider None r; Ok (with_branch (r_idp_id r) true r)).
Definition check_local_auth_request (e : Env) (req_id : string) (s : Server) : Server * result error unit :=
  let '(s, r) := peek_auth_request e req_id s in
  (s, match r ≫= no_other_provider None with Ok _ => Ok () | Err err => Err err end).

Definition take_auth_request (e : Env) (req_id : string) (expected : AuthRequest) (s : Server) : Server * result error AuthRequest :=
  let '(s, r) := peek_auth_request e req_id s in
  match r with
  | Err err => (s, Err err)
  | Ok r =>
      if negb (bool_decide (r = expected)) then (s, Err Forbidden)
      else and_then (remove_auth_request (io e 1) req_id s) (fun s => (s, Ok r))
  end.

Definition retire_auth_request (e : Env) (req_id : string) (s : Server) : Server :=
  (remove_auth_request (io e 0) req_id s).1.

(** ** Authorization codes *)

Definition session_of (now : Z) (code : string) (r : AuthRequest) (user_id : string) : AuthCodeSession :=
  mkSession code (r_client_id r) (r_redirect_uri r) (r_scope r) (r_state r) (r_nonce r) (r_code_challenge r)
    (r_code_challenge_method r) user_id (r_idp_id r) now (expiry now AUTH_CODE_LIFETIME).

Definition create_auth_code (e : Env) (drawn : string) (r : AuthRequest) (user_id : string) (s : Server) :
    Server * result error string :=
  and_then (write (io e 0) s (with_codes (<[drawn := session_of (now e) drawn r user_id]> (oidccode_authsession s)) s))
    (fun s => (s, Ok drawn)).

Definition verifier_char (c : ascii) : bool :=
  let n := nat_of_ascii c in
  ((48 <=? n) && (n <=? 57) || (65 <=? n) && (n <=? 90) || (97 <=? n) && (n <=? 122) ||
   (n =? 45) || (n =? 46) || (n =? 95) || (n =? 126))%nat.
Definition validate_code_verifier (v : string) : result error unit :=
  let n := String.length v in
  if negb ((43 <=? n) && (n <=? 128))%nat then Err InvalidParam
  else if negb (forallb verifier_char (String.list_ascii_of_string v)) then Err InvalidParam
  else Ok ().

(** What is checked of a session once its row is removed. *)
Definition redeem (e : Env) (client_id redirect_uri : string) (code_verifier : option string) (require_pkce : bool)
    (session : AuthCodeSession) : result error AuthCodeSession :=
  if c_expires_at session <? now e then Err Forbidden
  else if negb (String.eqb (c_client_id session) client_id) then Err Forbidden
  else if negb (String.eqb (c_redirect_uri session) redirect_uri) then Err Forbidden
  else match c_code_challenge session with
       | None => if require_pkce then Err Forbidden else Ok session
       | Some challenge =>
           match code_verifier with
           | None => Err Forbidden
           | Some verifier =>
               _ ← validate_code_verifier verifier;
               if negb (String.eqb (default "S256" (c_code_challenge_method session)) "S256") then Err InvalidParam
               else if negb (String.eqb (challenge_of verifier) challenge) then Err Forbidden
               else Ok session
           end
       end.

Definition exchange_auth_code (e : Env) (code client_id redirect_uri : string) (code_verifier : option string)
    (require_pkce : bool) (s : Server) : Server * result error AuthCodeSession :=
  match oidccode_authsession s !! code with
  | None => (s, Err Forbidden)
  | Some session =>
      and_then (write (io e 0) s (with_codes (delete code (oidccode_authsession s)) s)) (fun s =>
      (s, redeem e client_id redirect_uri code_verifier require_pkce session))
  end.

(** ** Asking for authorization *)

Record AuthorizeParams := mkParams {
  p_client_id : string;
  p_redirect_uri : string;
  p_response_type : string;
  p_response_mode : option string;
  p_scope : string;
  p_state : option string;
  p_nonce : option string;
  p_code_challenge : option string;
  p_code_challenge_method : option string;
  p_idp_id : option string
}.

(** [redirect_uri_matches], which compares parsed URLs of loopback targets, and what the
    list of providers says: the id of a provider asked for, and of the default. *)
Context (redirect_uri_matches : string -> string -> bool).
Context (find_provider : string -> option string) (default_provider : option string) (oidc_native_auth : bool).

Definition pkce_ok (require_pkce : bool) (p : AuthorizeParams) : bool :=
  match p_code_challenge p with
  | None => negb require_pkce
  | Some _ => bool_decide (p_code_challenge_method p = Some "S256"%string)
  end.

Definition choose_provider (p : AuthorizeParams) : result error (option string) :=
  match p_idp_id p with
  | None => if oidc_native_auth then Ok None else match default_provider with Some id => Ok (Some id) | None => Err Unknown end
  | Some requested => match find_provider requested with Some id => Ok (Some id) | None => Err InvalidParam end
  end.

(** [authorize_route] past the rate limit: the request stored, whose branch the redirect follows. *)
Definition authorize (e : Env) (drawn : string) (require_pkce : bool) (p : AuthorizeParams) (s : Server) : Server * result error AuthRequest :=
  if negb (String.eqb (p_response_type p) "code") then (s, Err InvalidParam)
  else if negb (let m := default "query" (p_response_mode p) in String.eqb m "query" || String.eqb m "fragment") then (s, Err InvalidParam)
  else if negb (pkce_ok require_pkce p) then (s, Err InvalidParam)
  else match oidcclientid_registration s !! p_client_id p with
       | None => (s, Err NotFound)
       | Some client =>
           if negb (existsb (fun uri => redirect_uri_matches uri (p_redirect_uri p)) (redirect_uris client)) then (s, Err InvalidParam)
           else match choose_provider p with
                | Err err => (s, Err err)
                | Ok idp_id =>
                    let r := mkRequest (p_client_id p) (p_redirect_uri p) (p_scope p) (p_state p) (p_nonce p) (p_code_challenge p)
                      (p_code_challenge_method p) idp_id false (p_response_mode p) (now e) (expiry (now e) AUTH_REQUEST_LIFETIME) in
                    and_then (store_auth_request (io e 0) drawn r s) (fun s => (s, Ok r))
                end
       end.

(** ** Device grants *)

Definition create_device_grant (e : Env) (device_code user_code client_id scope : string) (s : Server) :
    Server * result error DeviceGrant :=
  let grant := mkGrant device_code user_code client_id scope Pending 0 (now e) (expiry (now e) DEVICE_GRANT_LIFETIME) in
  and_then (write (io e 0) s (with_grants (<[device_code := grant]> (oidcdevicecode_devicegrant s)) s)) (fun s =>
  and_then (write (io e 1) s (with_user_codes (<[user_code := device_code]> (oidcusercode_devicecode s)) s)) (fun s =>
  (s, Ok grant))).

Definition USER_CODE_CHARSET : list ascii := String.list_ascii_of_string "BCDFGHJKLMNPQRSTVWXZ".
Definition to_ascii_uppercase (c : ascii) : ascii :=
  let n := nat_of_ascii c in if (97 <=? n)%nat && (n <=? 122)%nat then ascii_of_nat (n - 32) else c.
Definition normalize_user_code (input : string) : string :=
  String.string_of_list_ascii (filter (fun c => c ∈ USER_CODE_CHARSET) (to_ascii_uppercase <$> String.list_ascii_of_string input)).
(** [split_at_checked] of ASCII text at half its length. *)
Definition format_user_code (code : string) : string :=
  let l := String.list_ascii_of_string code in
  let half := (length l / 2)%nat in
  match take half l, drop half l with
  | (_ :: _) as head, (_ :: _) as tail => String.string_of_list_ascii (head ++ "-"%char :: tail)
  | _, _ => code
  end.

Definition resolve_device_code (user_code : string) (s : Server) : result error string :=
  ok_or (oidcusercode_devicecode s !! normalize_user_code user_code) NotFound.
Definition get_device_grant (device_code : string) (s : Server) : result error DeviceGrant :=
  ok_or (oidcdevicecode_devicegrant s !! device_code) Forbidden.

Definition remove_device_grant (e : Env) (g : DeviceGrant) (s : Server) : Server * result error unit :=
  and_then (write (io e 0) s (with_grants (delete (g_device_code g) (oidcdevicecode_devicegrant s)) s)) (fun s =>
  write (io e 1) s (with_user_codes (delete (g_user_code g) (oidcusercode_devicecode s)) s)).

Definition put_grant (i : Maps.io) (g : DeviceGrant) (s : Server) : Server * result error unit :=
  write i s (with_grants (<[g_device_code g := g]> (oidcdevicecode_devicegrant s)) s).

Definition with_status (st : DeviceGrantStatus) (g : DeviceGrant) : DeviceGrant :=
  mkGrant (g_device_code g) (g_user_code g) (g_client_id g) (g_scope g) st (g_attempts g) (g_created_at g) (g_expires_at g).
Definition with_attempts (n : Z) (g : DeviceGrant) : DeviceGrant :=
  mkGrant (g_device_code g) (g_user_code g) (g_client_id g) (g_scope g) (g_status g) n (g_created_at g) (g_expires_at g).

Definition is_pending (g : DeviceGrant) : bool := match g_status g with Pending => true | _ => false end.
Definition u32_saturating_add (a b : Z) : Z := Z.min (a + b) (2 ^ 32 - 1).

(** [verify_device_grant] under the lock of the grant the user code named. *)
Definition verify_grant (e : Env) (device_code : string) (s : Server) : Server * result error DeviceGrant :=
  match get_device_grant device_code s with
  | Err err => (s, Err err)
  | Ok grant =>
      if g_expires_at grant <? now e then and_then (remove_device_grant e grant s) (fun s => (s, Err NotFound))
      else if negb (is_pending grant) then (s, Err Forbidden)
      else
        let grant := with_attempts (u32_saturating_add (g_attempts grant) 1) grant in
        if MAX_VERIFY_ATTEMPTS <? g_attempts grant then and_then (remove_device_grant e grant s) (fun s => (s, Err Forbidden))
        else and_then (put_grant (io e 0) grant s) (fun s => (s, Ok grant))
  end.

(** [set_device_grant_status] likewise. *)
Definition set_grant_status (e : Env) (device_code : string) (st : DeviceGrantStatus) (s : Server) : Server * result error unit :=
  match get_device_grant device_code s with
  | Err err => (s, Err err)
  | Ok grant =>
      if g_expires_at grant <? now e then and_then (remove_device_grant e grant s) (fun s => (s, Err NotFound))
      else if negb (is_pending grant) then (s, Err Forbidden)
      else put_grant (io e 0) (with_status st grant) s
  end.

Definition resolved {A} (user_code : string) (k : string -> Server -> Server * result error A) (s : Server) : Server * result error A :=
  match resolve_device_code user_code s with Ok dc => k dc s | Err err => (s, Err err) end.
Definition verify_device_grant (e : Env) (user_code : string) := resolved user_code (verify_grant e).
Definition set_device_grant_status (e : Env) (user_code : string) (st : DeviceGrantStatus) :=
  resolved user_code (fun dc => set_grant_status e dc st).
Definition approve_device_grant (e : Env) (user_code user_id : string) (idp_id : option string) :=
  set_device_grant_status e user_code (Approved user_id idp_id).
Definition deny_device_grant (e : Env) (user_code : string) := set_device_grant_status e user_code Denied.

Definition poll_device_grant (e : Env) (device_code client_id : string) (s : Server) : Server * result error DeviceGrantPoll :=
  match get_device_grant device_code s with
  | Err err => (s, Err err)
  | Ok grant =>
      if negb (String.eqb (g_client_id grant) client_id) then (s, Err Forbidden)
      else if g_expires_at grant <? now e then and_then (remove_device_grant e grant s) (fun s => (s, Ok PollExpired))
      else match g_status grant with
           | Pending => (s, Ok PollPending)
           | Denied => and_then (remove_device_grant e grant s) (fun s => (s, Ok PollDenied))
           | Approved user_id idp_id =>
               and_then (remove_device_grant e grant s) (fun s =>
               (s, Ok (PollApproved (mkApproved (g_client_id grant) (g_scope grant) user_id idp_id))))
           end
  end.

(** ** Scopes *)

Definition strip_prefix (p s : string) : option string :=
  if String.prefix p s then Some (String.substring (String.length p) (String.length s - String.length p) s) else None.

(** [split_whitespace] of ASCII text. *)
Definition is_space (c : ascii) : bool :=
  let n := nat_of_ascii c in (n =? 32)%nat || (9 <=? n)%nat && (n <=? 13)%nat.
Fixpoint words (l : list ascii) (word : list ascii) : list (list ascii) :=
  let done_ := match word with [] => [] | _ => [rev word] end in
  match l with
  | [] => done_
  | c :: l => if is_space c then done_ ++ words l [] else words l (c :: word)
  end.
Definition split_whitespace (s : string) : list string :=
  String.string_of_list_ascii <$> words (String.list_ascii_of_string s) [].

Definition DEVICE_SCOPE_PREFIXES : list string := ["urn:matrix:client:device:"; "urn:matrix:org.matrix.msc2967.client:device:"]%string.
Definition API_SCOPE_PREFIXES : list string := ["urn:matrix:client:api:"; "urn:matrix:org.matrix.msc2967.client:api:"]%string.

Definition is_scope_char (c : ascii) : bool :=
  let n := nat_of_ascii c in ((33 <=? n) && (n <=? 126) && negb ((n =? 34) || (n =? 92)))%nat.

Fixpoint narrow (strict : bool) (tokens : list string) (granted : string) (device_id : option string) :
    result error (string * option string) :=
  match tokens with
  | [] => Ok (granted, device_id)
  | token :: tokens =>
      let keep device_id :=
        narrow strict tokens (if String.eqb granted "" then token else granted ++ " " ++ token)%string device_id in
      match head (omap (fun p => strip_prefix p token) DEVICE_SCOPE_PREFIXES) with
      | Some id =>
          if bool_decide (is_Some device_id) then Err InvalidParam
          else if String.eqb id "" || negb (forallb is_scope_char (String.list_ascii_of_string id)) then Err InvalidParam
          else keep (Some id)
      | None =>
          if String.eqb token "openid" || existsb (fun p => String.prefix p token) API_SCOPE_PREFIXES then keep device_id
          else if strict then Err InvalidParam
          else narrow strict tokens granted device_id
      end
  end.
Definition narrow_scope (requested : string) (strict : bool) : result error (string * option string) :=
  narrow strict (split_whitespace requested) "" None.

(** ** Endpoints *)

(** The authorization server beside the accounts, and the options of [config.oidc]. *)
Record State := mkState { server : Server; accounts : Devices.State }.
Definition with_server (v : Server) (s : State) := mkState v (accounts s).
Definition with_accounts (d : Devices.State) (s : State) := mkState (server s) d.
Record OidcConfig := mkOidc {
  oidc_require_pkce : bool;
  oidc_strict_scope : bool;
  oidc_require_device_scope : bool
}.
Context (cfg : Config) (oidc : OidcConfig).

(** What an endpoint draws, and how the database answers it, by the calls it makes. *)
Record Call := mkCall {
  call : Env;
  create : Devices.Env;
  set : Devices.Env;
  draws : Sessions.Draw;
  drawn_device : string
}.

(** [str::contains] *)
Definition contains (needle s : string) : bool := bool_decide (is_Some (String.index 0 needle s)).

(** What the token endpoint answers, the tokens apart from their text. *)
Record TokenReply := mkReply {
  t_access : string; t_refresh : string; t_scope : string; t_expires_in : option Z;
  (** The claims an id token would be signed over: subject, audience, nonce. *)
  t_id_token : option (string * string * option string)
}.

(** [mark_oidc_device] *)
Definition mark_oidc_device (e : Devices.Env) (o : Owner) (idp : string) (d : Devices.State) : Devices.State :=
  Devices.put e Devices.OidcRow d (Devices.with_users (Devices.with_oidc (<[o := idp]> (Devices.oidcdevice_userdeviceid (Devices.users d))) (Devices.users d)) d).

(** The URL of the issuer is set and signing succeeds. *)
Definition issue_tokens (c : Call) (client_id scope user_id : string) (nonce idp_id : option string) (s : State) :
    State * result error TokenReply :=
  match narrow_scope scope (oidc_strict_scope oidc) with
  | Err err => (s, Err err)
  | Ok (granted_scope, requested_device) =>
      if negb (bool_decide (is_Some requested_device)) && oidc_require_device_scope oidc then (s, Err InvalidParam) else
      let '(access_token, expires_in) := generate_access_token cfg (Sessions.draw_access (draws c)) true in
      let refresh_token := generate_refresh_token (Sessions.draw_refresh (draws c)) in
      let name := default "OIDC Client" (oidcclientid_registration (server s) !! client_id ≫= client_name) in
      let id_token := if contains "openid" granted_scope then Some (user_id, client_id, nonce) else None in
      let device_id := match requested_device with Some d => if String.eqb d "" then drawn_device c else d | None => drawn_device c end in
      let o := (user_id, device_id) in
      let '(d, r) :=
        and_then (Devices.create_device cfg (create c) o access_token (Some name) None (accounts s)) (fun d =>
        and_then (Devices.set_access_token cfg (set c) o access_token expires_in (Some refresh_token) d) (fun d =>
        (mark_oidc_device (set c) o (default "" idp_id) d, Ok ()))) in
      (with_accounts d s,
       match r with
       | Err err => Err err
       | Ok _ =>
           let scope := match requested_device with
                        | Some _ => granted_scope
                        | None => granted_scope ++ (if String.eqb granted_scope "" then "" else " ") ++ "urn:matrix:client:device:" ++ device_id
                        end%string in
           Ok (mkReply access_token refresh_token scope expires_in id_token)
       end)
  end.

Definition token_authorization_code (c : Call) (code redirect_uri client_id code_verifier : option string) (s : State) :
    State * result error TokenReply :=
  match code, redirect_uri, client_id with
  | Some code, Some redirect_uri, Some client_id =>
      let '(v, r) := exchange_auth_code (call c) code client_id redirect_uri code_verifier (oidc_require_pkce oidc) (server s) in
      let s := with_server v s in
      match r with
      | Err err => (s, Err err)
      | Ok session => issue_tokens c (c_client_id session) (c_scope session) (c_user_id session) (c_nonce session) (c_idp_id session) s
      end
  | _, _, _ => (s, Err InvalidParam)
  end.

(** The other outcomes of a poll have error codes of their own. *)
Inductive DeviceReply := Issued (r : TokenReply) | AuthorizationPending | AccessDenied | ExpiredToken.
Definition token_device_code (c : Call) (device_code client_id : option string) (s : State) : State * result error DeviceReply :=
  match device_code, client_id with
  | Some device_code, Some client_id =>
      let '(v, r) := poll_device_grant (call c) device_code client_id (server s) in
      let s := with_server v s in
      match r with
      | Err err => (s, Err err)
      | Ok PollPending => (s, Ok AuthorizationPending)
      | Ok PollDenied => (s, Ok AccessDenied)
      | Ok PollExpired => (s, Ok ExpiredToken)
      | Ok (PollApproved g) =>
          let '(s, r) := issue_tokens c (a_client_id g) (a_scope g) (a_user_id g) None (a_idp_id g) s in
          (s, match r with Ok r => Ok (Issued r) | Err err => Err err end)
      end
  | _, _ => (s, Err InvalidParam)
  end.

Definition consume_login_token (e : Env) (token : option string) (s : State) : State * result error string :=
  match token with
  | None => (s, Err Forbidden)
  | Some t =>
      let '(m, r) := find_from_login_token e t (Devices.logins (accounts s)) in
      (with_accounts (Devices.with_logins m (accounts s)) s, match r with Ok u => Ok u | Err _ => Err Forbidden end)
  end.

Definition peek_login (e : Env) (token : option string) (s : State) : State * result error string :=
  match token with
  | None => (s, Err Forbidden)
  | Some t =>
      let '(m, r) := peek_login_token e t (Devices.logins (accounts s)) in
      (with_accounts (Devices.with_logins m (accounts s)) s, match r with Ok u => Ok u | Err _ => Err Forbidden end)
  end.

(** [release_code]; [scheme_ok] and [https]: what [url] says of the redirect
    target, that its scheme is allowed and that it is [https]. *)
Definition release_code (take_ token_ mint : Env) (drawn req_id login_token : string) (r : AuthRequest)
    (scheme_ok https : bool) (s : State) : State * result error string :=
  if negb scheme_ok then (s, Err InvalidParam) else
  if https && negb (bool_decide (is_Some (oidcclientid_registration (server s) !! r_client_id r))) then (s, Err NotFound) else
  let '(v, r) := take_auth_request take_ req_id r (server s) in
  let s := with_server v s in
  match r with
  | Err err => (s, Err err)
  | Ok r =>
      let '(s, u) := consume_login_token token_ (Some login_token) s in
      match u with
      | Err err => (s, Err err)
      | Ok u => let '(v, c) := create_auth_code mint drawn r u (server s) in (with_server v s, c)
      end
  end.

Definition accept_code (peek take_ token_ mint : Env) (drawn req_id login_token : string)
    (scheme_ok https : AuthRequest -> bool) (s : State) : State * result error string :=
  let '(v, r) := peek_auth_request peek req_id (server s) in
  let s := with_server v s in
  match r with
  | Err err => (s, Err err)
  | Ok r => release_code take_ token_ mint drawn req_id login_token r (scheme_ok r) (https r) s
  end.

Definition refuse_code (retire token_ : Env) (req_id login_token : string) (s : State) : State :=
  (consume_login_token token_ (Some login_token) (with_server (retire_auth_request retire req_id (server s)) s)).1.

(** Past the rate limit, the approval form; only [approve] approves. *)
Definition handle_approval (peek take_ token_ mint : Env) (drawn req_id login_token : string) (action : option string)
    (scheme_ok https : AuthRequest -> bool) (s : State) : State * result error (option string) :=
  if bool_decide (action = Some "approve"%string) then
    let '(s, r) := accept_code peek take_ token_ mint drawn req_id login_token scheme_ok https s in
    (s, match r with Ok c => Ok (Some c) | Err err => Err err end)
  else (refuse_code peek token_ req_id login_token s, Ok None).

Definition handle_device_callback_post (token_ set_ : Env) (user_code login_token action : option string)
    (default_idp : option string) (s : State) : State * result error unit :=
  let user_code := default "" user_code in
  let action := default "" action in
  let '(s, u) := consume_login_token token_ login_token s in
  match u with
  | Err err => (s, Err err)
  | Ok u =>
      if String.eqb action "approve" then
        let '(v, r) := approve_device_grant set_ user_code u default_idp (server s) in (with_server v s, r)
      else if String.eqb action "deny" then
        let '(v, r) := deny_device_grant set_ user_code (server s) in (with_server v s, r)
      else (s, Err InvalidParam)
  end.

Definition handle_device_callback_get (peek_ verify_ burn : Env) (user_code login_token : option string) (s : State) :
    State * result error (string * DeviceGrant) :=
  let '(s, u) := peek_login peek_ login_token s in
  match u with
  | Err err => (s, Err err)
  | Ok u =>
      let '(v, r) := verify_device_grant verify_ (default "" user_code) (server s) in
      let s := with_server v s in
      match r with
      | Ok g => (s, Ok (u, g))
      | Err err => ((consume_login_token burn login_token s).1, Err err)
      end
  end.

End Service.
End Oauth.
