(* ===== verification/SessionsFacts.v ===== *)
(** What ends a session ends all of it: removing a device leaves nothing of the device
    and takes nothing of another, and no token of a deactivated account is accepted.
    The races that removing a device and exchanging a refresh token allow are shown as
    histories of their steps. *)
From stdpp Require Import functions.
From S2P Require Import Prelude Order Maps Time Tokens TokensFacts Devices Sessions Oauth.

Module SessionsFacts.
Import Tokens TokensFacts Devices Sessions.

(** Every write of an operation reaches the database and the counter works. *)
Definition works (e : Env) : Prop :=
  (forall k, Maps.writes (io (tok e) k) = true) /\ (forall r, row_ok e r = true) /\ is_Some (count e).

Section Facts.
Context (encrypted_rooms : string -> list string) (names : string -> Owner).

#[local] Abbreviation remove_device := (Devices.remove_device encrypted_rooms).

(** ** Removing a device *)

Lemma put_ok {S} e r (s s' : S) : works e -> put e r s s' = s'.
Proof. intros (_ & H & _). unfold put. by rewrite H. Qed.

Lemma holds_own issued s A o : rep s A -> kinds names issued A -> holds names issued A o s (A o).
Proof.
  intros R K. assert (E : forall o', A o' = <[o := A o]> A o').
  { intros o'. destruct (decide (o' = o)) as [->|]; rewrite ?fn_lookup_insert, ?fn_lookup_insert_ne by congruence; done. }
  split; [by eapply rep_ext|by eapply kinds_ext].
Qed.

Lemma remove_tokens_rep e issued s A o :
  works e -> rep s A -> kinds names issued A ->
  rep (remove_tokens (tok e) o s) (<[o := no_session]> A) /\ kinds names issued (<[o := no_session]> A).
Proof.
  intros (Hw & _) R K. unfold remove_tokens.
  pose proof (remove_access_holds names issued A (tok e) 0 o s (A o) (holds_own _ _ _ o R K)) as H1.
  destruct (remove_access_token (tok e) 0 o s) as [s1 r1]. unfold session_remove_access, write in H1. rewrite Hw in H1.
  destruct H1 as [_ H1]. cbn [fst].
  pose proof (remove_refresh_holds names issued A (tok e) 1 o s1 _ H1) as H2.
  destruct (remove_refresh_token (tok e) 1 o s1) as [s2 r2]. unfold session_remove_refresh, write in H2. rewrite Hw in H2.
  by destruct H2 as [_ H2].
Qed.

(** What stays of the rows kept elsewhere. *)
Lemma del_device_spec {K V} `{Countable K} (e : Env) (o : Owner) (row : K -> Row) (m : gmap (Owner * K) V) (o' : Owner) (k : K) :
  works e -> del_device e o row m !! (o', k) = if decide (o' = o) then None else m !! (o', k).
Proof.
  intros (_ & Hw & _). unfold del_device. destruct (decide (o' = o)) as [->|Hne].
  - apply map_lookup_filter_None. right. intros v _ Hx. apply Hx. cbn. by rewrite Hw.
  - destruct (m !! (o', k)) as [v|] eqn:E; [apply map_lookup_filter_Some; split; [done|]; cbn; naive_solver|].
    apply map_lookup_filter_None. by left.
Qed.

Lemma delete_pusher_spec e u k r :
  works e -> delete_pusher e u k r =
    mkRows (todeviceid_events r) (onetimekeyid_onetimekeys r) (fallbackkeyid_fallbackkey r) (keyid_key r)
      (connections r) (slidingsync r) (delete (u, k) (senderkey_pusher r)) (delete k (pushkey_deviceid r)).
Proof. intros W. unfold delete_pusher. rewrite put_ok by done. by rewrite (proj1 (proj2 W)). Qed.

Lemma delete_pushers_keeps e o r :
  works e ->
  let r' := delete_pushers e o r in
  todeviceid_events r' = todeviceid_events r /\ onetimekeyid_onetimekeys r' = onetimekeyid_onetimekeys r /\
  fallbackkeyid_fallbackkey r' = fallbackkeyid_fallbackkey r /\ keyid_key r' = keyid_key r /\
  connections r' = connections r /\ slidingsync r' = slidingsync r.
Proof.
  intros W. unfold delete_pushers. generalize (get_pushkeys o.1 r). intros ks. revert r.
  induction ks as [|k ks IH]; intros r; [done|]. cbn [foldl]. case_bool_decide; [|apply IH].
  specialize (IH (delete_pusher e o.1 k r)). rewrite (delete_pusher_spec e o.1 k r W) in IH |- *. exact IH.
Qed.

Lemma elem_of_pushkeys u r k : k ∈ get_pushkeys u r <-> is_Some (senderkey_pusher r !! (u, k)).
Proof.
  unfold get_pushkeys. rewrite sort_by_key_perm, list_elem_of_fmap. split.
  - intros ([u' k'] & -> & [Hu ([[u2 k2] v] & [= <- <-] & H)%list_elem_of_fmap]%list_elem_of_filter).
    apply elem_of_map_to_list in H. cbn in *. subst. by rewrite H.
  - intros [v Hv]. exists (u, k). split; [done|]. apply list_elem_of_filter. split; [done|].
    apply list_elem_of_fmap. exists (u, k, v). split; [done|]. by apply elem_of_map_to_list.
Qed.

(** The pushers the device set up go, and no other. *)
Lemma delete_pushers_spec e o r u k :
  works e ->
  senderkey_pusher (delete_pushers e o r) !! (u, k) =
    if decide (u = o.1 /\ pushkey_deviceid r !! k = Some o.2) then None else senderkey_pusher r !! (u, k).
Proof.
  intros W. unfold delete_pushers.
  assert (H : forall ks r, senderkey_pusher (foldl (fun r pushkey => if bool_decide (pushkey_deviceid r !! pushkey = Some o.2)
      then delete_pusher e o.1 pushkey r else r) r ks) !! (u, k) =
    if decide (u = o.1 /\ k ∈ ks /\ pushkey_deviceid r !! k = Some o.2) then None else senderkey_pusher r !! (u, k)).
  { clear r. induction ks as [|k' ks IH]; intros r; cbn [foldl].
    - rewrite decide_False; [done|]. intros (_ & H & _). by apply not_elem_of_nil in H.
    - case_bool_decide as Hb; rewrite IH; [rewrite delete_pusher_spec by done; cbn [senderkey_pusher pushkey_deviceid]|].
      + destruct (decide (k = k')) as [->|Hne].
        * rewrite lookup_delete_eq. rewrite decide_False by naive_solver.
          destruct (decide (u = o.1)) as [->|Hu]; [rewrite lookup_delete_eq, decide_True; [done|set_solver]|].
          rewrite lookup_delete_ne, decide_False by naive_solver. done.
        * rewrite (lookup_delete_ne (pushkey_deviceid r)), (lookup_delete_ne (senderkey_pusher r)) by congruence.
          apply decide_ext. set_solver.
      + apply decide_ext. set_solver. }
  rewrite H. destruct (senderkey_pusher r !! (u, k)) as [v|] eqn:Ev; [|by repeat case_decide].
  apply decide_ext. split; [naive_solver|]. intros [-> Hk]. split_and!; try done. apply elem_of_pushkeys. by rewrite Ev.
Qed.

Lemma mark_spec e u s :
  works e -> exists m, mark_device_key_update encrypted_rooms e u s = (with_users (with_changes m (users s)) s, Ok ()).
Proof.
  intros W. pose proof W as (_ & Hw & [c Hc]). unfold mark_device_key_update. rewrite Hc.
  assert (H : forall ids s m, s = with_users (with_changes m (users s)) s -> exists m',
    foldl (fun s id => put e (ChangeRow id) s
      (with_users (with_changes (<[(id, c) := u]> (keychangeid_userid (users s))) (users s)) s)) s ids
    = with_users (with_changes m' (users s)) s).
  { induction ids as [|id ids IH]; intros s0 m Hs; [by exists m|]. cbn [foldl]. rewrite put_ok by done.
    destruct (IH (with_users (with_changes (<[(id, c):=u]> (keychangeid_userid (users s0))) (users s0)) s0)
      (<[(id, c) := u]> (keychangeid_userid (users s0))) eq_refl) as [m' ->]. by exists m'. }
  destruct (H (encrypted_rooms u) s (keychangeid_userid (users s))) as [m' ->]; [by destruct s as [? ? ? [] ?]|].
  rewrite put_ok by done. by eexists.
Qed.

(** The rows kept elsewhere, the pushers aside. *)
Definition dropped_rows (e : Env) (o : Owner) (r : Rows) : Rows :=
  mkRows (del_device e o EventRow (todeviceid_events r)) (del_device e o OneTimeRow (onetimekeyid_onetimekeys r))
    (del_device e o FallbackRow (fallbackkeyid_fallbackkey r)) (delete o (keyid_key r))
    (filter (fun kv => kv.1.1 <> o) (connections r)) (del_device e o SyncRow (slidingsync r))
    (senderkey_pusher r) (pushkey_deviceid r).

Lemma drop_device_spec e o s :
  works e -> exists s', drop_device encrypted_rooms e o s = (s', Ok ()) /\
    toks s' = toks s /\ logins s' = logins s /\ openids s' = openids s /\
    userid_password (users s') = userid_password (users s) /\
    userid_deactivated (users s') = userid_deactivated (users s) /\
    userdeviceid_metadata (users s') = delete o (userdeviceid_metadata (users s)) /\
    oidcdevice_userdeviceid (users s') = delete o (oidcdevice_userdeviceid (users s)) /\
    rows s' = delete_pushers e o (dropped_rows e o (rows s)).
Proof.
  intros W. unfold drop_device, increment. rewrite !put_ok by done. cbn [users with_users with_rows rows].
  match goal with |- context [mark_device_key_update _ e o.1 ?s1] => destruct (mark_spec e o.1 s1 W) as [m Hm] end.
  eexists. split; [exact Hm|]. done.
Qed.

(** Removing a device with a working database leaves nothing of it and takes nothing of
    another: no token resolves to it, no key, message, connection, pusher or metadata of
    it stays, and every other device has what it had. *)
Theorem removed_device_gone issued A e o s :
  works e -> rep (toks s) A -> kinds names issued A ->
  exists s', remove_device e o s = (s', Ok ()) /\
    (forall t o' x, find_from_token t (toks s') = Ok (o', x) <-> o' <> o /\ find_from_token t (toks s) = Ok (o', x)) /\
    userdeviceid_metadata (users s') = delete o (userdeviceid_metadata (users s)) /\
    oidcdevice_userdeviceid (users s') = delete o (oidcdevice_userdeviceid (users s)) /\
    keyid_key (rows s') = delete o (keyid_key (rows s)) /\
    (forall o' n, todeviceid_events (rows s') !! (o', n) =
      if decide (o' = o) then None else todeviceid_events (rows s) !! (o', n)) /\
    (forall o' k, onetimekeyid_onetimekeys (rows s') !! (o', k) =
      if decide (o' = o) then None else onetimekeyid_onetimekeys (rows s) !! (o', k)) /\
    (forall o' k, fallbackkeyid_fallbackkey (rows s') !! (o', k) =
      if decide (o' = o) then None else fallbackkeyid_fallbackkey (rows s) !! (o', k)) /\
    (forall o' k, connections (rows s') !! (o', k) =
      if decide (o' = o) then None else connections (rows s) !! (o', k)) /\
    (forall o' k, slidingsync (rows s') !! (o', k) =
      if decide (o' = o) then None else slidingsync (rows s) !! (o', k)) /\
    (forall u k, senderkey_pusher (rows s') !! (u, k) =
      if decide (u = o.1 /\ pushkey_deviceid (rows s) !! k = Some o.2) then None
      else senderkey_pusher (rows s) !! (u, k)).
Proof.
  intros W R K. destruct (remove_tokens_rep e issued (toks s) A o W R K) as [R' _].
  destruct (drop_device_spec e o (with_toks (remove_tokens (tok e) o (toks s)) s) W)
    as (s' & Hd & Ht & _ & _ & _ & _ & Hm & Ho & Hr).
  exists s'. split; [exact Hd|]. rewrite Ht, Hm, Ho, Hr. clear Hd Ht Hm Ho Hr. cbn [toks users rows with_toks].
  destruct (delete_pushers_keeps e o (dropped_rows e o (rows s)) W) as (-> & -> & -> & -> & -> & ->).
  cbn [dropped_rows todeviceid_events onetimekeyid_onetimekeys fallbackkeyid_fallbackkey keyid_key connections slidingsync].
  split_and!; try done; try (intros; by apply del_device_spec).
  - intros t o' x. rewrite (find_session _ _ t o' x R'), (find_session _ _ t o' x R).
    destruct (decide (o' = o)) as [->|Hne]; [rewrite fn_lookup_insert; cbn; naive_solver|].
    rewrite fn_lookup_insert_ne by done. naive_solver.
  - intros o' k. destruct (decide (o' = o)) as [->|Hne].
    + apply map_lookup_filter_None. right. by intros v _ [].
    + destruct (connections (rows s) !! (o', k)) as [v|] eqn:E; [by apply map_lookup_filter_Some|].
      apply map_lookup_filter_None. by left.
  - intros u k. by apply (delete_pushers_spec e o (dropped_rows e o (rows s))).
Qed.

(** ** Sessions belong to devices *)

Lemma elem_of_all_device_ids u d s :
  d ∈ all_device_ids u s <-> is_Some (userdeviceid_metadata (users s) !! (u, d)).
Proof.
  unfold all_device_ids. rewrite sort_by_key_perm, list_elem_of_fmap. split.
  - intros ([u' d'] & -> & [Hu ([[u2 d2] v] & [= <- <-] & H)%list_elem_of_fmap]%list_elem_of_filter).
    apply elem_of_map_to_list in H. cbn in *. subst. by rewrite H.
  - intros [v Hv]. exists (u, d). split; [done|]. apply list_elem_of_filter. split; [done|].
    apply list_elem_of_fmap. exists (u, d, v). split; [done|]. by apply elem_of_map_to_list.
Qed.

(** What removing a device does to tokens and accounts. *)
Lemma remove_device_rep issued A e o s :
  works e -> rep (toks s) A -> kinds names issued A ->
  exists s', remove_device e o s = (s', Ok ()) /\ rep (toks s') (<[o := no_session]> A) /\
    kinds names issued (<[o := no_session]> A) /\
    userdeviceid_metadata (users s') = delete o (userdeviceid_metadata (users s)) /\
    logins s' = logins s /\ openids s' = openids s /\ userid_password (users s') = userid_password (users s) /\
    userid_deactivated (users s') = userid_deactivated (users s).
Proof.
  intros W R K. destruct (remove_tokens_rep e issued (toks s) A o W R K) as [R' K'].
  destruct (drop_device_spec e o (with_toks (remove_tokens (tok e) o (toks s)) s) W)
    as (s' & Hd & Ht & Hl & Ho & Hp & Hde & Hm & _).
  exists s'. split; [exact Hd|]. rewrite Ht. done.
Qed.

Lemma remove_devices_rep issued es u ds s A :
  (forall d, works (es d)) -> rep (toks s) A -> kinds names issued A ->
  exists s' A', remove_devices encrypted_rooms es u ds s = (s', Ok ()) /\ rep (toks s') A' /\ kinds names issued A' /\
    (forall o, A' o = if decide (o.1 = u /\ o.2 ∈ ds) then no_session else A o) /\
    (forall o, userdeviceid_metadata (users s') !! o =
      if decide (o.1 = u /\ o.2 ∈ ds) then None else userdeviceid_metadata (users s) !! o) /\
    logins s' = logins s /\ openids s' = openids s /\ userid_password (users s') = userid_password (users s) /\
    userid_deactivated (users s') = userid_deactivated (users s).
Proof.
  intros W. revert s A. induction ds as [|d ds IH]; intros s A R K; cbn [remove_devices].
  - exists s, A. split_and!; try done; intros o; rewrite decide_False; try done; intros [_ H]; by apply not_elem_of_nil in H.
  - destruct (remove_device_rep issued A (es d) (u, d) s (W d) R K) as (s1 & -> & R1 & K1 & Hm & Hl & Ho & Hp & Hd).
    cbn [and_then]. destruct (IH s1 _ R1 K1) as (s2 & A2 & -> & R2 & K2 & HA & Hm2 & Hl2 & Ho2 & Hp2 & Hd2).
    exists s2, A2. split_and!; try done; try congruence.
    + intros [u' d']. rewrite HA. cbn [fst snd]. destruct (decide ((u', d') = (u, d))) as [[= -> ->]|Hne].
      * rewrite fn_lookup_insert. rewrite (decide_True (P := u = u /\ d ∈ d :: ds)) by set_solver. by case_decide.
      * rewrite fn_lookup_insert_ne by done. apply decide_ext. set_solver.
    + intros [u' d']. rewrite Hm2, Hm. cbn [fst snd]. destruct (decide ((u', d') = (u, d))) as [[= -> ->]|Hne].
      * rewrite lookup_delete_eq. rewrite (decide_True (P := u = u /\ d ∈ d :: ds)) by set_solver. by case_decide.
      * rewrite lookup_delete_ne by done. apply decide_ext. set_solver.
Qed.

(** Accounts that stay deactivated. *)
Context (cfg : Config) (oidc : Oauth.OidcConfig) (server_user : string) (local : string -> bool).
Context (hash : string -> option string) (locked : string -> Prop).

(** The columns represent sessions; only devices with metadata have one, and no device of
    a locked account does. *)
Definition live (issued : list string) (s : State) : Prop :=
  exists A, rep (toks s) A /\ kinds names issued A /\
    (forall o, A o <> no_session -> is_Some (userdeviceid_metadata (users s) !! o)) /\
    (forall u, locked u -> is_Some (userid_deactivated (users s) !! u) /\ forall d, A (u, d) = no_session).

Lemma live_remove issued e o s :
  works e -> live issued s -> exists s', remove_device e o s = (s', Ok ()) /\ live issued s'.
Proof.
  intros W (A & R & K & C & D).
  destruct (remove_device_rep issued A e o s W R K) as (s' & Hs & R' & K' & Hm & _ & _ & _ & Hd).
  exists s'. split; [done|]. eexists. split_and!; [exact R'|exact K'| |].
  - intros o'. rewrite Hm. destruct (decide (o' = o)) as [->|Hne]; [by rewrite fn_lookup_insert|].
    rewrite fn_lookup_insert_ne, lookup_delete_ne by done. apply C.
  - intros u Hu. rewrite Hd. split; [by apply D|]. intros d.
    destruct (decide ((u, d) = o)) as [<-|Hne]; [by rewrite fn_lookup_insert|].
    rewrite fn_lookup_insert_ne by done. by apply D.
Qed.

Lemma live_remove_devices issued es u ds s :
  (forall d, works (es d)) -> live issued s ->
  exists s', remove_devices encrypted_rooms es u ds s = (s', Ok ()) /\ live issued s'.
Proof.
  intros W (A & R & K & C & D).
  destruct (remove_devices_rep issued es u ds s A W R K) as (s' & A' & Hs & R' & K' & HA & Hm & _ & _ & _ & Hd).
  exists s'. split; [done|]. exists A'. split_and!; try done.
  - intros o. rewrite HA, Hm. case_decide; [done|apply C].
  - intros u' Hu. rewrite Hd. split; [by apply D|]. intros d. rewrite HA. case_decide; [done|by apply D].
Qed.

(** Metadata that only grows keeps the invariant. *)
Lemma live_grow issued s s' :
  live issued s -> toks s' = toks s ->
  (forall o, is_Some (userdeviceid_metadata (users s) !! o) -> is_Some (userdeviceid_metadata (users s') !! o)) ->
  (forall u, is_Some (userid_deactivated (users s) !! u) -> locked u -> is_Some (userid_deactivated (users s') !! u)) ->
  live issued s'.
Proof.
  intros (A & R & K & C & D) Ht Hm Hd. exists A. rewrite Ht. split_and!; try done; [auto|].
  intros u Hu. split; [apply Hd; [by apply D|done]|by apply D].
Qed.

Lemma live_set issued e o t d r s :
  live issued s -> ~ locked o.1 -> fresh_op names issued (SetAccess (tok e) (has_metadata o s) o t d r) ->
  live (issues (SetAccess (tok e) (has_metadata o s) o t d r) ++ issued) (Devices.set_access_token cfg e o t d r s).1.
Proof.
  intros (A & R & K & C & D) Hl Hf. pose proof (token_exec_refines cfg names issued _ _ _ R K Hf) as H.
  unfold Devices.set_access_token. cbn [exec] in H. unfold spec_exec in H. cbn [op_owner spec] in H.
  destruct (Tokens.set_access_token _ _ _ _ _ _ _ _) as [t1 r1].
  destruct (session_set_access cfg (tok e) (has_metadata o s) t d r (A o)) as [x1 r2] eqn:E.
  destruct H as (_ & R' & K'). eexists. split_and!; [exact R'|exact K'| |]; cbn [fst users with_toks].
  - intros o'. destruct (decide (o' = o)) as [->|Hne]; [|rewrite fn_lookup_insert_ne by done; apply C].
    rewrite fn_lookup_insert. destruct (has_metadata o s) eqn:Em.
    + intros _. by apply bool_decide_eq_true in Em.
    + injection E as <- _. apply C.
  - intros u Hu. split; [by apply D|]. intros d'. rewrite fn_lookup_insert_ne by (by intros ->). by apply D.
Qed.

(** ** Requests *)

Inductive request :=
  | Register (e : Env) (u : string) (password : option string)
  | Login (e e' : Env) (w : Draw) (u : string) (device : option string) (drawn : string)
      (name ip : option string) (refresh : bool)
  | Refresh (e : Env) (w : Draw) (presented : string)
  | TokenRefresh (e : Env) (w : Draw) (presented : option string)
  | Revoke (e : Env) (token hint : option string)
  | Logout (e : Env) (o : Owner)
  | LogoutAll (es : string -> Env) (u : string)
  | Deactivate (e : Env) (es : string -> Env) (u : string) (by_user : option string)
  | Reactivate (e : Env) (u password : string)
  | LoginToken (e : Env) (enabled : bool) (u token : string)
  | RedeemLoginToken (e : Env) (enabled : bool) (token : string)
  | OpenIdToken (e : Env) (sender u token : string)
  | OpenIdUserinfo (e : Env) (token : string)
  (** A code or device grant redeemed at the OIDC token endpoint, for user [u]. *)
  | Redeem (c : Oauth.Call) (server : Oauth.Server) (client scope u : string) (nonce idp : option string).

Definition serve (s : State) (r : request) : State :=
  match r with
  | Register e u p => (set_password hash e u p s).1
  | Login e e' w u d drawn name ip refresh => (login_route cfg e e' w u d drawn name ip refresh s).1
  | Refresh e w t => (refresh_token_route cfg encrypted_rooms e w t s).1
  | TokenRefresh e w t => (token_refresh cfg encrypted_rooms e w t s).1
  | Revoke e t h => (revoke encrypted_rooms e t h s).1
  | Logout e o => (logout_route encrypted_rooms e o s).1
  | LogoutAll es u => (logout_all_route encrypted_rooms es u s).1
  | Deactivate e es u b => (deactivate_account hash encrypted_rooms e es u b s).1
  | Reactivate e u p => (reactivate_account hash e u p s).1
  | LoginToken e on u t => (login_token_route cfg server_user local e on u t s).1
  | RedeemLoginToken e on t => (handle_login_token e on t s).1
  | OpenIdToken e sender u t => (create_openid_token_route cfg e sender u t s).1
  | OpenIdUserinfo e t => (get_openid_userinfo_route server_user e t s).1
  | Redeem c v client scope u nonce idp =>
      Oauth.accounts (Oauth.issue_tokens cfg oidc c client scope u nonce idp (Oauth.mkState v s)).1
  end.

(** The random texts a request draws. *)
Definition drawn (r : request) : option Draw :=
  match r with
  | Login _ _ w _ _ _ _ _ _ | Refresh _ w _ | TokenRefresh _ w _ => Some w
  | Redeem c _ _ _ _ _ _ => Some (Oauth.draws c)
  | _ => None
  end.

(** The device the OIDC token endpoint signs in: the one the scope names, or a new one. *)
Definition redeemed_device (c : Oauth.Call) (scope : string) : option string :=
  match Oauth.narrow_scope scope (Oauth.oidc_strict_scope oidc) with
  | Ok (_, Some d) => Some (if String.eqb d "" then Oauth.drawn_device c else d)
  | Ok (_, None) => Some (Oauth.drawn_device c)
  | Err _ => None
  end.

(** The device a request makes tokens for. *)
Definition subject (r : request) (s : State) (o : Owner) : Prop :=
  match r with
  | Login _ _ _ u d drawn _ _ _ => o = (u, default drawn d)
  | Refresh e _ t | TokenRefresh e _ (Some t) =>
      match classify_refresh_token cfg (tok e) t (toks s) with
      | Current o' _ | Replayed o' _ _ => o = o'
      | Unrecognised => False
      end
  | Redeem c _ _ scope u _ _ => Some o.2 = redeemed_device c scope /\ o.1 = u
  | _ => False
  end.

(** Random texts are fresh. *)
Definition fresh_draw (issued : list string) (r : request) (s : State) : Prop :=
  match drawn r with
  | None => True
  | Some w => is_refresh_token (draw_access w) = false /\ (generate_refresh_token (draw_refresh w) ∉ issued) /\
      forall o, subject r s o -> names (draw_access w) = o
  end.

(** The writes that end sessions reach the database. *)
Definition ends (r : request) : Prop :=
  match r with
  | Refresh e _ _ | TokenRefresh e _ _ | Revoke e _ _ | Logout e _ => works e
  | LogoutAll es _ | Deactivate _ es _ _ => forall d, works (es d)
  | _ => True
  end.

Definition keeps_locked (r : request) : Prop :=
  match r with Reactivate _ u _ | Redeem _ _ _ _ u _ _ => ~ locked u | _ => True end.

Definition draws (r : request) : list string :=
  match drawn r with Some w => [generate_refresh_token (draw_refresh w)] | None => [] end.

Fixpoint served (issued : list string) (s : State) (rs : list request) (s' : State) : Prop :=
  match rs with
  | [] => s' = s
  | r :: rs => fresh_draw issued r s /\ ends r /\ served (draws r ++ issued) (serve s r) rs s'
  end.

Lemma generate_is_refresh w : is_refresh_token (generate_refresh_token w) = true.
Proof.
  unfold is_refresh_token, generate_refresh_token, REFRESH_TOKEN_PREFIX. cbn. by destruct w.
Qed.

Lemma live_mono issued issued' s : (forall t, t ∈ issued -> t ∈ issued') -> live issued s -> live issued' s.
Proof.
  intros Hi (A & R & [K1 K2 K3 K4 K5 K6] & C & D). exists A. split_and!; try done. split; try done; naive_solver.
Qed.

Lemma live_exchange issued e w o s :
  live issued s -> ~ locked o.1 -> is_refresh_token (draw_access w) = false -> names (draw_access w) = o ->
  (generate_refresh_token (draw_refresh w) ∉ issued) ->
  live (generate_refresh_token (draw_refresh w) :: issued) (exchange_current cfg e w o s).1.
Proof.
  intros L Hl Ha Hn Hr. unfold exchange_current, generate_access_token.
  pose proof (live_set issued e o (draw_access w) (Some (Time.from_secs (access_token_ttl cfg)))
    (Some (generate_refresh_token (draw_refresh w))) s L Hl) as H.
  destruct (Devices.set_access_token _ _ _ _ _ _ _) as [s1 [[]|]]; apply H; split_and!; auto using generate_is_refresh.
Qed.

Lemma live_reissue issued e w o c s :
  live issued s -> ~ locked o.1 -> is_refresh_token (draw_access w) = false -> names (draw_access w) = o ->
  live (generate_refresh_token (draw_refresh w) :: issued) (reissue_access cfg e w o c s).1.
Proof.
  intros L Hl Ha Hn. unfold reissue_access, generate_access_token.
  pose proof (live_set issued e o (draw_access w) (Some (Time.from_secs (access_token_ttl cfg))) None s L Hl) as H.
  eapply live_mono; [intros t Ht; right; exact Ht|].
  destruct (Devices.set_access_token _ _ _ _ _ _ _) as [s1 [[]|]]; by apply H.
Qed.

Lemma live_expire issued e o s : works e -> live issued s -> live issued (expire_refresh cfg encrypted_rooms e o s).1.
Proof.
  intros W L. unfold expire_refresh. destruct (refresh_token_hard_logout cfg).
  - by destruct (live_remove issued e o s W L) as (s' & -> & L').
  - destruct L as (A & R & K & C & D). cbn [fst].
    pose proof (remove_refresh_holds names issued A (tok e) 0 o (toks s) (A o) (holds_own _ _ _ o R K)) as H.
    destruct (remove_refresh_token (tok e) 0 o (toks s)) as [t1 r1]. unfold session_remove_refresh, write in H.
    rewrite (proj1 W) in H. destruct H as [_ [R' K']].
    eexists. split_and!; [exact R'|exact K'| |]; cbn [users with_toks].
    + intros o'. destruct (decide (o' = o)) as [->|Hne]; [|rewrite fn_lookup_insert_ne by done; apply C].
      rewrite fn_lookup_insert. intros Hx. apply C. intros E. rewrite E in Hx. by apply Hx.
    + intros u Hu. split; [by apply D|]. intros d. destruct (decide ((u, d) = o)) as [<-|Hne].
      * rewrite fn_lookup_insert. by rewrite (proj2 (D u Hu)).
      * rewrite fn_lookup_insert_ne by done. by apply D.
Qed.

Lemma live_replayed issued e o s : works e -> live issued s -> live issued (replayed_refresh cfg encrypted_rooms e o s).1.
Proof.
  intros W L. unfold replayed_refresh. destruct (refresh_token_reuse_revoke cfg); [|done].
  by destruct (live_remove issued e o s W L) as (s' & -> & L').
Qed.

Lemma and_then_fst {A} (r : State * result error unit) (y : result error A) : (and_then r (fun s => (s, y))).1 = r.1.
Proof. by destruct r as [? []]. Qed.

Lemma live_refresh issued e w t s :
  live issued s -> works e -> fresh_draw issued (Refresh e w t) s ->
  live (generate_refresh_token (draw_refresh w) :: issued) (refresh_token_route cfg encrypted_rooms e w t s).1 /\
  live (generate_refresh_token (draw_refresh w) :: issued) (token_refresh cfg encrypted_rooms e w (Some t) s).1.
Proof.
  intros L W (Ha & Hr & Hn). cbn [subject] in Hn. unfold refresh_token_route, token_refresh.
  assert (Hkeep : forall s, live issued s -> live (generate_refresh_token (draw_refresh w) :: issued) s).
  { intros s0. apply live_mono. intros; by right. }
  assert (Hbad : classify_refresh_token cfg (tok e) t (toks s) = Unrecognised \/ is_refresh_token t = true).
  { unfold classify_refresh_token. destruct (is_refresh_token t); auto. }
  assert (Hown : match classify_refresh_token cfg (tok e) t (toks s) with
    | Current o _ | Replayed o _ _ => ~ locked o.1 | Unrecognised => True end).
  { destruct L as (A & R & K & _ & D). pose proof (classify_session cfg names _ _ _ (tok e) t R K) as Hc.
    destruct (classify_refresh_token cfg (tok e) t (toks s)) as [[u d] x|[u d] c g|]; [..|done]; intros [_ Hu]%D;
      rewrite Hu in Hc; naive_solver. }
  destruct (classify_refresh_token cfg (tok e) t (toks s)) as [o x|o c g|].
  - destruct Hbad as [|Hb]; [done|]. rewrite Hb. cbn [negb].
    destruct (passed e x); [rewrite !and_then_fst; auto using live_expire|auto using live_exchange].
  - destruct Hbad as [|Hb]; [done|]. rewrite Hb. cbn [negb].
    destruct g; [auto using live_reissue|rewrite !and_then_fst; auto using live_replayed].
  - destruct (is_refresh_token t); cbn [negb fst]; auto.
Qed.

Lemma live_create issued e o t name ip s :
  live issued s -> ~ locked o.1 -> is_refresh_token t = false -> names t = o -> live issued (create_device cfg e o t name ip s).1.
Proof.
  intros L Hl Ha Hn. unfold create_device. destruct (negb (exists_ o.1 s)); [done|]. cbn zeta.
  set (s1 := put e MetadataRow _ _).
  assert (L1 : live issued s1).
  { apply (live_grow issued s); [done|..]; unfold s1, put, increment, put;
      destruct (row_ok e MetadataRow), (row_ok e VersionRow); try done; cbn; intros o' Ho';
      destruct (decide (o' = o)) as [->|]; rewrite ?lookup_insert_eq, ?lookup_insert_ne by done; auto. }
  pose proof (live_set issued e o t None None s1 L1 Hl) as H. apply H. by split_and!.
Qed.

Lemma live_login issued e e' w u d drawn_ name ip refresh s :
  live issued s -> fresh_draw issued (Login e e' w u d drawn_ name ip refresh) s ->
  live (generate_refresh_token (draw_refresh w) :: issued) (login_route cfg e e' w u d drawn_ name ip refresh s).1.
Proof.
  intros L (Ha & Hr & Hn). specialize (Hn _ eq_refl). unfold login_route, generate_access_token.
  assert (Hkeep : forall s, live issued s -> live (generate_refresh_token (draw_refresh w) :: issued) s).
  { intros s0. apply live_mono. intros; by right. }
  destruct (match is_deactivated u s with Ok b => b | Err _ => false end) eqn:Ed; [by apply Hkeep|].
  assert (Hl : ~ locked u).
  { destruct L as (A & _ & _ & _ & D). intros [Hu _]%D. unfold is_deactivated in Ed.
    by rewrite bool_decide_eq_true_2 in Ed. }
  set (o := (u, default drawn_ d)) in *. set (existing := match d with Some _ => _ | None => _ end).
  assert (L1 : live issued (if existing then (s, Ok ()) else create_device cfg e o (draw_access w) name ip s).1).
  { destruct existing; [done|by apply live_create]. }
  destruct (if existing then _ else _) as [s1 [[]|]]; cbn [and_then]; [|by apply Hkeep]. cbn [fst] in L1.
  destruct refresh; cbn [bool_decide].
  - rewrite bool_decide_eq_true_2 by done.
    pose proof (live_set issued e' o (draw_access w) (Some (Time.from_secs (access_token_ttl cfg)))
      (Some (generate_refresh_token (draw_refresh w))) s1 L1 Hl) as H.
    destruct (Devices.set_access_token _ _ _ _ _ _ _) as [s2 [[]|]]; apply H; split_and!; auto using generate_is_refresh.
  - rewrite bool_decide_eq_false_2 by (by intros []).
    pose proof (live_set issued e' o (draw_access w) None None s1 L1 Hl) as H.
    destruct (Devices.set_access_token _ _ _ _ _ _ _) as [s2 [[]|]]; by apply Hkeep, H.
Qed.

(** Changes to accounts. *)
Lemma live_account issued s u : live issued s -> userdeviceid_metadata u = userdeviceid_metadata (users s) ->
  (forall v, is_Some (userid_deactivated (users s) !! v) -> locked v -> is_Some (userid_deactivated u !! v)) ->
  live issued (with_users u s).
Proof. intros L Hu Hd. apply (live_grow issued s); [done|done| |exact Hd]. cbn [users with_users]. by rewrite Hu. Qed.

Lemma live_password issued e u p s : live issued s -> live issued (set_password hash e u p s).1.
Proof.
  intros L. unfold set_password. destruct (match p with None => _ | Some _ => _ end) as [h|]; [|done].
  destruct (row_ok e PasswordRow); [|done]. by apply live_account.
Qed.

Lemma live_deactivate issued e es u b s :
  (forall d, works (es d)) -> live issued s -> live issued (deactivate_account hash encrypted_rooms e es u b s).1.
Proof.
  intros W L. unfold deactivate_account, mark_deactivated. destruct (row_ok e DeactivatedRow); [|done].
  cbn [and_then]. unfold revoke_credentials. set (s1 := with_users _ s).
  assert (L1 : live issued s1).
  { apply live_account; [done|done|]. intros v Hv _. cbn. destruct (decide (v = u)) as [->|];
      rewrite ?lookup_insert_eq, ?lookup_insert_ne by done; auto. }
  destruct (live_remove_devices issued es u (all_device_ids u s1) s1 W L1) as (s2 & -> & L2). by apply live_password.
Qed.

Lemma live_reactivate issued e u p s : live issued s -> ~ locked u -> live issued (reactivate_account hash e u p s).1.
Proof.
  intros L Hl. unfold reactivate_account. destruct (is_deactivated u s) as [[]|]; [|done..].
  pose proof (live_password issued e u (Some p) s L) as H.
  destruct (set_password hash e u (Some p) s) as [s1 [[]|]]; cbn [and_then]; [|done].
  destruct (row_ok e DeactivatedRow); [|done]. apply live_account; [done|done|].
  intros v Hv Hlv. cbn. rewrite lookup_delete_ne; [done|by intros ->].
Qed.

(** Login and OpenID tokens are not sessions. *)
Lemma live_other issued s logins_ openids_ :
  live issued s -> live issued (mkState (toks s) logins_ openids_ (users s) (rows s)).
Proof. intros L. by apply (live_grow issued s). Qed.

Lemma live_redeem issued c v client scope u nonce idp s :
  live issued s -> ~ locked u -> fresh_draw issued (Redeem c v client scope u nonce idp) s ->
  live (generate_refresh_token (draw_refresh (Oauth.draws c)) :: issued)
    (Oauth.accounts (Oauth.issue_tokens cfg oidc c client scope u nonce idp (Oauth.mkState v s)).1).
Proof.
  intros L Hl (Ha & Hr & Hn). cbn [subject] in Hn. unfold Oauth.issue_tokens, generate_access_token.
  assert (Hkeep : forall s, live issued s -> live (generate_refresh_token (draw_refresh (Oauth.draws c)) :: issued) s).
  { intros s0. apply live_mono. intros; by right. }
  unfold redeemed_device in Hn.
  destruct (Oauth.narrow_scope scope _) as [[granted d]|err]; [|by apply Hkeep].
  destruct (negb _ && _); [by apply Hkeep|]. cbn [Oauth.accounts Oauth.server].
  set (device := match d with Some _ => _ | None => _ end). set (o := (u, device)).
  assert (Hno : names (draw_access (Oauth.draws c)) = o) by (apply Hn; split; [by destruct d|done]).
  pose proof (live_create issued (Oauth.create c) o (draw_access (Oauth.draws c))
    (Some (default "OIDC Client" (Oauth.oidcclientid_registration v !! client ≫= Oauth.client_name))) None s
    L Hl Ha Hno) as L1.
  cbn [Oauth.server].
  destruct (create_device _ _ _ _ _ _ s) as [s1 [[]|]]; cbn [and_then fst] in *; [|by apply Hkeep].
  pose proof (live_set issued (Oauth.set c) o (draw_access (Oauth.draws c))
    (Some (Time.from_secs (access_token_ttl cfg))) (Some (generate_refresh_token (draw_refresh (Oauth.draws c)))) s1 L1 Hl) as L2.
  destruct (Devices.set_access_token _ _ _ _ _ _ _) as [s2 [[]|]]; cbn [and_then fst Oauth.accounts Oauth.with_accounts] in *;
    (assert (L3 : live (generate_refresh_token (draw_refresh (Oauth.draws c)) :: issued) s2)
      by (apply L2; split_and!; auto using generate_is_refresh)); [|done].
  unfold Oauth.mark_oidc_device, put. destruct (row_ok _ _); [|done]. by apply live_account.
Qed.

Lemma serve_live issued s r :
  live issued s -> fresh_draw issued r s -> ends r -> keeps_locked r -> live (draws r ++ issued) (serve s r).
Proof.
  intros L Hf He Hk. destruct r as [e u p|e e' w u d dr n ip rf|e w t|e w t|e t h|e o|es u|e es u b|e u p
    |e on u t|e on t|e u0 u t|e t|c v cl sc u no idp];
    cbn [serve ends keeps_locked draws drawn app] in *.
  - by apply live_password.
  - by apply live_login.
  - by apply live_refresh.
  - destruct t as [t|]; [by apply live_refresh|]. eapply live_mono, L. intros; by right.
  - unfold revoke. destruct t as [t|]; [|done]. destruct t as [|c t]; [done|].
    destruct (match h with Some _ => _ | None => _ end); [done|].
    destruct (find_from_token _ _) as [[o x]|]; [|done].
    destruct (live_remove issued e o s He L) as (s' & -> & L'). done.
  - unfold logout_route. by destruct (live_remove issued e o s He L) as (s' & -> & L').
  - unfold logout_all_route. by destruct (live_remove_devices issued es u (all_device_ids u s) s He L) as (s' & -> & L').
  - by apply live_deactivate.
  - by apply live_reactivate.
  - unfold login_token_route. destruct (negb on); [done|]. destruct (negb _); [done|].
    by apply live_other.
  - unfold handle_login_token. destruct (negb on); [done|].
    destruct (find_from_login_token _ _ _) as [m r]. by apply live_other.
  - unfold create_openid_token_route. destruct (negb _); [done|]. by apply live_other.
  - unfold get_openid_userinfo_route. destruct (find_from_openid_token _ _ _ _) as [m r]. by apply live_other.
  - by apply live_redeem.
Qed.

Lemma served_live issued s rs s' :
  live issued s -> served issued s rs s' -> Forall keeps_locked rs -> live (foldl (fun l r => draws r ++ l) issued rs) s'.
Proof.
  revert issued s. induction rs as [|r rs IH]; intros issued s L; cbn [served foldl]; [by intros ->|].
  intros (Hf & He & Hs) [Hk Hks]%Forall_cons. eapply IH; [|exact Hs|exact Hks]. by apply serve_live.
Qed.

Lemma served_app issued s rs rs' s' :
  served issued s (rs ++ rs') s' <->
  exists s1, served issued s rs s1 /\ served (foldl (fun l r => draws r ++ l) issued rs) s1 rs' s'.
Proof.
  clear locked. revert issued s. induction rs as [|r rs IH]; intros issued s; cbn [app served foldl].
  - split; [by exists s|]. by intros (s1 & -> & H).
  - rewrite IH. naive_solver.
Qed.

End Facts.

Definition empty_server : State :=
  mkState empty_tables ∅ ∅ (mkUsers ∅ ∅ ∅ ∅ ∅ ∅) (mkRows ∅ ∅ ∅ ∅ ∅ ∅ ∅ ∅).

Lemma empty_live names : live names (fun _ => False) [] empty_server.
Proof. exists (fun _ => no_session). split_and!; [exact empty_rep|exact (empty_kinds names)|done|done]. Qed.

Section Deactivation.
Context (cfg : Config) (oidc : Oauth.OidcConfig) (server_user : string) (local : string -> bool).
Context (hash : string -> option string) (encrypted_rooms : string -> list string).
Context (appservice : string -> bool) (names : string -> Owner).

(** Deactivating ends every session of the account. *)
Lemma deactivate_locks issued e es u b s :
  (forall d, works (es d)) -> works e -> live names (fun _ => False) issued s ->
  live names (eq u) issued (deactivate_account hash encrypted_rooms e es u b s).1.
Proof.
  intros W We L. pose proof L as (A & R & K & C & _).
  unfold deactivate_account, mark_deactivated. rewrite (proj1 (proj2 We)). cbn [and_then]. unfold revoke_credentials.
  set (s1 := with_users _ s).
  destruct (remove_devices_rep encrypted_rooms names issued es u (all_device_ids u s1) s1 A W R K)
    as (s2 & A2 & -> & R2 & K2 & HA & Hm & _ & _ & _ & Hd).
  cbn [and_then]. unfold set_password. rewrite (proj1 (proj2 We)). cbn [fst].
  exists A2. split_and!; [done|done| |]; cbn [users with_users with_password userdeviceid_metadata userid_deactivated].
  - intros o. rewrite HA, Hm. case_decide; [done|apply C].
  - intros u' <-. rewrite Hd. split; [cbn; by rewrite lookup_insert_eq|]. intros d. rewrite HA. case_decide as Hx; [done|].
    apply dec_stable. intros Hne. apply Hx. split; [done|]. apply elem_of_all_device_ids. cbn. by apply C.
Qed.

(** A request that gives [u] back to somebody: its reactivation, or the redemption of an
    OIDC code or device grant that names it. *)
Definition readmits (u : string) (r : request) : Prop :=
  match r with Reactivate _ v _ | Redeem _ _ _ _ v _ _ => u = v | _ => False end.

(** C21: After an account was deactivated, and until it is reactivated or a code or grant
    of the OIDC server that names it is redeemed, no token it held is accepted: none
    authenticates a request as the user, no refresh token is exchanged or seen as replayed
    for it, logging in is refused, and, unless it is the server's own account, no OpenID
    token identifies it and no login token is made for it. Requests run one after another;
    the writes of those that end sessions reach the database. *)
Theorem deactivated_locked_out rs e es u b rs' s' :
  served encrypted_rooms names cfg oidc server_user local hash [] empty_server (rs ++ Deactivate e es u b :: rs') s' ->
  works e -> Forall (fun r => ~ readmits u r) rs' ->
  (forall e' t d, lookup appservice e' (Some t) s' <> User (u, d)) /\
  (forall e' t d x, classify_refresh_token cfg (tok e') t (toks s') <> Current (u, d) x) /\
  (forall e' t d c g, classify_refresh_token cfg (tok e') t (toks s') <> Replayed (u, d) c g) /\
  (forall e1 e2 w d drawn name ip refresh,
    (login_route cfg e1 e2 w u d drawn name ip refresh s').2 = Err UserDeactivated) /\
  (u <> server_user ->
    (forall e' t, (get_openid_userinfo_route server_user e' t s').2 <> Ok u) /\
    (forall e' t, (login_token_route cfg server_user local e' true u t s').2 = Err UserDeactivated)).
Proof.
  intros Hs We Hre. apply served_app in Hs as (s0 & H0 & Hf & Hes & Hs). cbn [ends] in Hes.
  pose proof (served_live encrypted_rooms names cfg oidc server_user local hash (fun _ => False) [] empty_server rs s0 (empty_live names) H0) as L0.
  assert (L1 := deactivate_locks _ e es u b s0 Hes We (L0 ltac:(apply Forall_forall; intros []; cbn; tauto))).
  pose proof (served_live encrypted_rooms names cfg oidc server_user local hash (eq u) _ _ rs' s' L1 Hs) as L2.
  destruct L2 as (A & R & K & _ & D).
  { eapply Forall_impl; [exact Hre|]. intros []; cbn; tauto. }
  destruct (D u eq_refl) as [Hd HA]. clear -Hd HA R K.
  assert (Hdeact : is_deactivated u s' = Ok true) by (unfold is_deactivated; by rewrite bool_decide_eq_true_2).
  assert (Hact : u <> server_user -> is_active server_user u s' = false).
  { intros Hne. unfold is_active. apply String.eqb_neq in Hne. by rewrite Hne, Hdeact. }
  split_and!.
  - intros e' t d. unfold lookup. destruct (appservice t), (is_refresh_token t); try done.
    pose proof (fun o x => find_session (toks s') A t o x R) as Hf.
    destruct (find_from_token t (toks s')) as [[o [x|]]|]; [destruct (Time.timepoint_has_passed _ _); [done|]| |done];
      intros [= ->]; destruct (proj1 (Hf (u, d) _) eq_refl) as (y & _ & Hy); rewrite HA in Hy; by destruct Hy.
  - intros e' t d x Hc. pose proof (classify_session cfg names _ _ _ (tok e') t R K) as H. rewrite Hc, HA in H. naive_solver.
  - intros e' t d c g Hc. pose proof (classify_session cfg names _ _ _ (tok e') t R K) as H. rewrite Hc, HA in H. naive_solver.
  - intros *. unfold login_route. by rewrite Hdeact.
  - intros Hne. split.
    + intros e' t. unfold get_openid_userinfo_route, find_from_openid_token. destruct (openids s' !! t) as [[x v]|]; [|done].
      destruct (_ <? _); [done|]. destruct (is_active server_user v s') eqn:Ev; cbn [snd]; [|done]. intros [= ->].
      by rewrite Hact in Ev.
    + intros e' t. unfold login_token_route. cbn [negb]. rewrite (Hact Hne), andb_false_r. done.
Qed.

End Deactivation.

(** ** A server with one account *)

Definition ok_env (secs : Z) : Env := mkEnv (Tokens.mkEnv (Time.from_secs secs) (fun _ => Maps.io_ok)) (fun _ => true) (Some secs).
Definition alice : string := "@a:x".
Definition no_rooms (_ : string) : list string := [].
Definition no_appservice (_ : string) : bool := false.
Definition signed_in : list request :=
  [Register (ok_env 1) alice (Some "secret");
   Login (ok_env 2) (ok_env 3) (mkDraw "A1" "1") alice (Some "PHONE") "X" None None true]%string.
Definition signed_out : request := Deactivate (ok_env 9) (fun _ => ok_env 10) alice None.
Definition retry : request := Refresh (ok_env 11) (mkDraw "A2" "2") "refresh_1".
Definition no_oidc : Oauth.OidcConfig := Oauth.mkOidc true false false.
Definition serve_all : State -> list request -> State :=
  foldl (serve no_rooms config no_oidc "@server:x" (fun _ => true) Some).

Lemma ok_works secs : works (ok_env secs).
Proof. by split_and!. Qed.

Definition with_openid : list request :=
  signed_in ++ [OpenIdToken (ok_env 4) alice alice "O1"]%string.

(** The access and the OpenID token are good, and neither is after the deactivation. *)
Lemma deactivated_locked_out_witness :
  lookup no_appservice (ok_env 5) (Some "A1"%string) (serve_all empty_server with_openid) = User phone /\
  (get_openid_userinfo_route "@server:x" (ok_env 5) "O1" (serve_all empty_server with_openid)).2 = Ok alice /\
  let s := serve_all empty_server (with_openid ++ signed_out :: [retry]) in
  (forall e' t d, lookup no_appservice e' (Some t) s <> User (alice, d)) /\
  (forall e' t, (get_openid_userinfo_route "@server:x" e' t s).2 <> Ok alice).
Proof.
  split; [vm_compute; reflexivity|]. split; [vm_compute; reflexivity|].
  destruct (deactivated_locked_out config no_oidc "@server:x" (fun _ => true) Some no_rooms no_appservice
    (fun _ => phone) with_openid (ok_env 9) (fun _ => ok_env 10) alice None [retry]
    (serve_all empty_server (with_openid ++ signed_out :: [retry]))) as (Hl & _ & _ & _ & Ho).
  - refine (conj I (conj I (conj _ (conj I (conj I (conj I (conj I (conj _ (conj _ (conj _ eq_refl)))))))))).
    + split; [reflexivity|]. split; [apply not_elem_of_nil|]. intros o Ho. by rewrite Ho.
    + intros d. apply ok_works.
    + split; [reflexivity|]. split; [apply not_elem_of_cons; split; [discriminate|apply not_elem_of_nil]|].
      intros o Ho. exfalso. revert Ho. vm_compute. exact id.
    + apply ok_works.
  - apply ok_works.
  - repeat constructor; cbn; tauto.
  - split; [exact Hl|]. exact (proj1 (Ho ltac:(discriminate))).
Defined.

Lemma removed_device_gone_witness :
  exists s', remove_device no_rooms (ok_env 5) phone (serve_all empty_server signed_in) = (s', Ok ()) /\
    userdeviceid_metadata (users s') = delete phone (userdeviceid_metadata (users (serve_all empty_server signed_in))).
Proof.
  destruct (serve_live no_rooms (fun _ => phone) config no_oidc "@server:x" (fun _ => true) Some (fun _ => False) [] (serve_all empty_server [Register (ok_env 1) alice (Some "secret")]%string)
    (Login (ok_env 2) (ok_env 3) (mkDraw "A1" "1") alice (Some "PHONE") "X" None None true)%string) as (A & R & K & _).
  - by apply live_password, empty_live.
  - split; [reflexivity|]. split; [apply not_elem_of_nil|]. intros o Ho. by rewrite Ho.
  - exact I.
  - exact I.
  - destruct (removed_device_gone no_rooms (fun _ => phone) _ A (ok_env 5) phone (serve_all empty_server signed_in)
      (ok_works 5) R K) as (s' & Hs & _ & Hm & _).
    by exists s'.
Defined.

(** ** Races *)

(** Two requests that present the same refresh token and both look it up before either
    exchanges it both succeed: the token is exchanged twice, and the first reply's
    refresh token is already spent. *)
Theorem refresh_token_exchanged_twice :
  let s := serve_all empty_server signed_in in
  let e := ok_env 20 in
  let '(s1, r1) := exchange_current config e (mkDraw "A2" "2") phone s in
  let '(s2, r2) := exchange_current config e (mkDraw "A3" "3") phone s1 in
  classify_refresh_token config (tok e) "refresh_1" (toks s) = Current phone (Some (Time.from_secs 3603)) /\
  r1 = Ok ("A2", Some "refresh_2", Some (Time.from_secs 300))%string /\
  r2 = Ok ("A3", Some "refresh_3", Some (Time.from_secs 300))%string /\
  classify_refresh_token config (tok e) "refresh_2" (toks s2) = Replayed phone "refresh_3" true.
Proof. by vm_compute. Qed.

(** A device that is removed while its refresh token is exchanged keeps a live access
    token: the tokens go first and the metadata, which the exchange looks for, last. *)
Theorem removed_device_keeps_token :
  let s := serve_all empty_server signed_in in
  let e := ok_env 20 in
  let s1 := with_toks (remove_tokens (tok e) phone (toks s)) s in
  let '(s2, r) := exchange_current config e (mkDraw "A2" "2") phone s1 in
  let '(s3, done_) := drop_device no_rooms e phone s2 in
  classify_refresh_token config (tok e) "refresh_1" (toks s) = Current phone (Some (Time.from_secs 3603)) /\
  done_ = Ok () /\ all_device_ids alice s3 = [] /\ lookup no_appservice e (Some "A2"%string) s3 = User phone.
Proof. by vm_compute. Qed.

(** Which device a pushkey belongs to is recorded per pushkey, not per user: when two
    users share one, removing the first user's device leaves its pusher. *)
Theorem shared_pushkey_survives :
  exists r : Rows, senderkey_pusher r !! (alice, "K")%string = Some "{}"%string /\
    pushkey_deviceid r = {[ "K" := "TABLET" ]}%string /\
    senderkey_pusher (delete_pushers (ok_env 1) phone r) !! (alice, "K")%string = Some "{}"%string.
Proof.
  exists (mkRows ∅ ∅ ∅ ∅ ∅ ∅ {[ (alice, "K")%string := "{}"%string; ("@b:x", "K")%string := "{}"%string ]} {[ "K" := "TABLET" ]}%string).
  by vm_compute.
Qed.

End SessionsFacts.
