(* ===== verification/OauthFacts.v ===== *)
(** What the authorization server (Oauth.v) promises, over every history of its operations
    with any answers of the database: an authorization code is redeemed once, by the client,
    target and verifier it was made for; a device grant is collected once, by its client,
    after a user approved it and nobody denied it; an authorization request is taken once
    and through one branch. And a code that outlives its account. *)
From S2P Require Import Prelude Order Maps Time Tokens Devices Sessions Oauth.
From Stdlib Require Import Ascii.

Module OauthFacts.
Import Tokens Oauth.

(** ** Histories *)

Section History.
Context (challenge_of : string -> string) (redirect_uri_matches : string -> string -> bool).
Context (find_provider : string -> option string) (default_provider : option string) (oidc_native_auth : bool).

(** One locked section each, by any task. *)
Inductive op :=
  | Authorize (e : Env) (drawn : string) (require_pkce : bool) (p : AuthorizeParams)
  | Peek (e : Env) (req_id : string)
  | BindProvider (e : Env) (req_id provider : string)
  | BindLocal (e : Env) (req_id : string)
  | Take (e : Env) (req_id : string) (expected : AuthRequest)
  | Retire (e : Env) (req_id : string)
  | CreateCode (e : Env) (drawn : string) (r : AuthRequest) (user_id : string)
  | Exchange (e : Env) (code client_id redirect_uri : string) (code_verifier : option string) (require_pkce : bool)
  | CreateGrant (e : Env) (device_code user_code client_id scope : string)
  | Verify (e : Env) (device_code : string)
  | SetStatus (e : Env) (device_code : string) (st : DeviceGrantStatus)
  | Poll (e : Env) (device_code client_id : string).

Inductive outcome :=
  | Done
  | Taken (r : AuthRequest)
  | Redeemed (session : AuthCodeSession)
  | Polled (p : DeviceGrantPoll)
  | Failed (err : error).

Definition out {A} (f : A -> outcome) (r : Server * result error A) : Server * outcome :=
  (r.1, match r.2 with Ok a => f a | Err err => Failed err end).
Definition quiet {A} (_ : A) : outcome := Done.

Definition exec (s : Server) (o : op) : Server * outcome :=
  match o with
  | Authorize e drawn pkce p => out quiet (authorize redirect_uri_matches find_provider default_provider oidc_native_auth e drawn pkce p s)
  | Peek e id => out quiet (peek_auth_request e id s)
  | BindProvider e id p => out quiet (bind_auth_request_to_provider e id p s)
  | BindLocal e id => out quiet (bind_auth_request_to_local e id s)
  | Take e id r => out Taken (take_auth_request e id r s)
  | Retire e id => (retire_auth_request e id s, Done)
  | CreateCode e drawn r u => out quiet (create_auth_code e drawn r u s)
  | Exchange e code client uri v pkce => out Redeemed (exchange_auth_code challenge_of e code client uri v pkce s)
  | CreateGrant e dc uc client scope => out quiet (create_device_grant e dc uc client scope s)
  | Verify e dc => out quiet (verify_grant e dc s)
  | SetStatus e dc st => out quiet (set_grant_status e dc st s)
  | Poll e dc client => out Polled (poll_device_grant e dc client s)
  end.

(** Random texts are drawn for one code, request or grant only. *)
Definition draws_fresh (h : list (op * outcome)) (o : op) : Prop :=
  match o with
  | Authorize _ d _ _ => forall e pkce p x, (Authorize e d pkce p, x) ∉ h
  | CreateCode _ d _ _ => forall e r u x, (CreateCode e d r u, x) ∉ h
  | CreateGrant _ d _ _ _ => forall e uc cl sc x, (CreateGrant e d uc cl sc, x) ∉ h
  | _ => True
  end.

Inductive reach (clients : gmap string Client) : list (op * outcome) -> Server -> Prop :=
  | reach_start : reach clients [] (mkServer clients ∅ ∅ ∅ ∅)
  | reach_step h s o s' x : reach clients h s -> draws_fresh h o -> exec s o = (s', x) -> reach clients (h ++ [(o, x)]) s'.

(** ** Codes *)

Definition created_code (h : list (op * outcome)) (code : string) (r : AuthRequest) (u : string) (t : Z) : Prop :=
  exists e x, now e = t /\ (CreateCode e code r u, x) ∈ h.
Definition redeemed (h : list (op * outcome)) (code : string) : Prop :=
  exists e client uri v pkce session, (Exchange e code client uri v pkce, Redeemed session) ∈ h.

Definition codes_ok (h : list (op * outcome)) (s : Server) : Prop :=
  (forall c session, oidccode_authsession s !! c = Some session ->
     ~ redeemed h c /\ exists r u t, created_code h c r u t /\ session = session_of t c r u) /\
  forall c, redeemed h c -> exists r u t, created_code h c r u t.

Lemma write_either {S} i (s s' : S) : (write i s s').1 = s \/ (write i s s').1 = s'.
Proof. unfold write. destruct (Maps.writes i); auto. Qed.

Lemma write_ok {S} i (s s' t : S) a : write i s s' = (t, Ok a) -> t = s'.
Proof. unfold write. destruct (Maps.writes i); [|done]. by destruct (Maps.flushes i); intros [= <- _]. Qed.

Lemma elem_of_snoc {A} (l : list A) a b : a ∈ l ++ [b] <-> a ∈ l \/ a = b.
Proof. by rewrite elem_of_app, list_elem_of_singleton. Qed.

#[local] Ltac unfold_ops :=
  unfold exec, out, quiet, authorize, bind_auth_request_to_provider, bind_auth_request_to_local, update_auth_request,
    take_auth_request, retire_auth_request, peek_auth_request, store_auth_request, remove_auth_request, create_auth_code,
    exchange_auth_code, create_device_grant, verify_grant, set_grant_status, poll_device_grant, remove_device_grant,
    put_grant, and_then, write in *.
#[local] Ltac run_op := unfold_ops; repeat (case_match; simplify_eq/=); try done.

(** Operations on other tables leave a table alone. *)
Lemma codes_frame s o :
  match o with CreateCode _ _ _ _ | Exchange _ _ _ _ _ _ => True | _ => oidccode_authsession (exec s o).1 = oidccode_authsession s end.
Proof. destruct o; try done; run_op. Qed.

Lemma redeemed_snoc h o x c :
  redeemed (h ++ [(o, x)]) c <-> redeemed h c \/ exists e client uri v pkce session, o = Exchange e c client uri v pkce /\ x = Redeemed session.
Proof.
  unfold redeemed. setoid_rewrite elem_of_snoc. split.
  - intros (e & cl & uri & v & pk & ss & [H|[= <- <-]]); [left|right]; eauto 10.
  - intros [(e & cl & uri & v & pk & ss & H)|(e & cl & uri & v & pk & ss & -> & ->)]; eauto 15.
Qed.

Lemma created_snoc h o x c r u t : created_code h c r u t -> created_code (h ++ [(o, x)]) c r u t.
Proof. intros (e & y & Ht & H). exists e, y. split; [done|]. apply elem_of_snoc. by left. Qed.

Lemma codes_same h s s' o x :
  codes_ok h s -> oidccode_authsession s' = oidccode_authsession s ->
  (forall e c client uri v pkce session, o = Exchange e c client uri v pkce -> x <> Redeemed session) ->
  codes_ok (h ++ [(o, x)]) s'.
Proof.
  intros [H1 H2] E Hx.
  assert (Hr : forall c, redeemed (h ++ [(o, x)]) c -> redeemed h c).
  { intros c [?|(e & cl & uri & v & pk & ss & -> & ->)]%redeemed_snoc; [done|]. by exfalso; eapply Hx. }
  split; rewrite ?E.
  - intros c session Hc. destruct (H1 _ _ Hc) as (Hn & r & u & t & Hcr & ->). split; [by intros ?%Hr|].
    exists r, u, t. by split; [apply created_snoc|].
  - intros c (r & u & t & Hcr)%Hr%H2. exists r, u, t. by apply created_snoc.
Qed.

Lemma codes_step h s o s' x : codes_ok h s -> draws_fresh h o -> exec s o = (s', x) -> codes_ok (h ++ [(o, x)]) s'.
Proof.
  intros Hok Hfresh Hx. pose proof (codes_frame s o) as Hf. rewrite Hx in Hf. cbn [fst] in Hf.
  destruct o; try (by eapply codes_same).
  - cbn [exec] in Hx. unfold create_auth_code, out, quiet in Hx.
    destruct (write_either (io e 0) s (with_codes (<[drawn := session_of (now e) drawn r user_id]> (oidccode_authsession s)) s)) as [E|E];
      destruct (write _ _ _) as [s1 [[]|err]]; cbn in E, Hx; simplify_eq; try (by eapply codes_same).
    all: destruct Hok as [H1 H2]; split; cbn [oidccode_authsession with_codes].
    all: try (intros c [Hr|(? & ? & ? & ? & ? & ? & ? & ?)]%redeemed_snoc; [|done];
      destruct (H2 _ Hr) as (r' & u' & t' & ?); exists r', u', t'; by apply created_snoc).
    all: intros c session [[<- <-]|[Hne Hc]]%lookup_insert_Some.
    2, 4: destruct (H1 _ _ Hc) as (Hn & r' & u' & t' & Hcr & ->); (split; [by intros [?|(? & ? & ? & ? & ? & ? & ? & ?)]%redeemed_snoc|]);
      exists r', u', t'; (split; [by apply created_snoc|done]).
    all: (split; [|exists r, user_id, (now e); split; [|done]; eexists e, _; split; [done|]; apply elem_of_snoc; by right]).
    all: intros [Hr|(? & ? & ? & ? & ? & ? & ? & ?)]%redeemed_snoc; [|done].
    all: destruct (H2 _ Hr) as (r' & u' & t' & e' & y & _ & Hin); by eapply Hfresh.
  - cbn [exec] in Hx. unfold exchange_auth_code, out in Hx.
    destruct (oidccode_authsession s !! code) as [session|] eqn:Ec; [|simplify_eq/=; by eapply codes_same].
    destruct (write_either (io e 0) s (with_codes (delete code (oidccode_authsession s)) s)) as [E|E];
      destruct (write _ _ _) as [s1 r1] eqn:Ew; cbn in E; subst s1.
    { destruct r1 as [[]|err]; [|cbn in Hx; simplify_eq; by eapply codes_same].
      apply write_ok in Ew. exfalso. apply (f_equal (fun v => oidccode_authsession v !! code)) in Ew. cbn in Ew.
      by rewrite Ec, lookup_delete_eq in Ew. }
    assert (s' = with_codes (delete code (oidccode_authsession s)) s) as -> by (destruct r1; by simplify_eq/=).
    destruct Hok as [H1 H2]. destruct (H1 _ _ Ec) as (_ & r & u & t & Hcr & _). split; cbn [oidccode_authsession with_codes].
    + intros c ss [Hne Hc]%lookup_delete_Some. destruct (H1 _ _ Hc) as (Hn & r' & u' & t' & Hcr' & ->). split.
      * intros [?|(? & ? & ? & ? & ? & ? & ? & ?)]%redeemed_snoc; by simplify_eq.
      * exists r', u', t'. by split; [apply created_snoc|].
    + intros c [Hr|(? & ? & ? & ? & ? & ? & [= <- <- <- <- <- <-] & _)]%redeemed_snoc.
      * destruct (H2 _ Hr) as (r' & u' & t' & ?). exists r', u', t'. by apply created_snoc.
      * exists r, u, t. by apply created_snoc.
Qed.

Lemma reach_codes clients h s : reach clients h s -> codes_ok h s.
Proof.
  induction 1 as [|h s o s' x Hr IH Hf Hx]; [|by eapply codes_step].
  split; [intros c ? H; cbn in H; by rewrite lookup_empty in H|]. by intros c (? & ? & ? & ? & ? & ? & ?%not_elem_of_nil).
Qed.

Lemma redeem_ok e client uri v pkce session session' :
  redeem challenge_of e client uri v pkce session = Ok session' ->
  session' = session /\ now e <= c_expires_at session /\ c_client_id session = client /\ c_redirect_uri session = uri /\
  match c_code_challenge session with
  | None => pkce = false
  | Some ch => exists w, v = Some w /\ validate_code_verifier w = Ok () /\ challenge_of w = ch
  end.
Proof.
  unfold redeem. destruct (Z.ltb_spec (c_expires_at session) (now e)) as [|He]; [done|].
  destruct (String.eqb_spec (c_client_id session) client) as [Hc|]; [|done].
  destruct (String.eqb_spec (c_redirect_uri session) uri) as [Hu|]; [|done]. cbn [negb].
  destruct (c_code_challenge session) as [ch|]; [|destruct pkce; [done|by intros [= <-]]].
  destruct v as [w|]; [|done]. destruct (validate_code_verifier w) as [[]|] eqn:Ev; [|done]. cbn [mbind result_bind].
  destruct (String.eqb (default _ _) _); [|done]. cbn [negb].
  destruct (String.eqb_spec (challenge_of w) ch) as [Hch|]; [|done]. intros [= <-]. split_and!; try done. by exists w.
Qed.

(** ** Grants *)

Definition collected (h : list (op * outcome)) (dc : string) : Prop :=
  exists e client g, (Poll e dc client, Polled (PollApproved g)) ∈ h.
Definition approved (h : list (op * outcome)) (dc u : string) (idp : option string) : Prop :=
  exists e x, (SetStatus e dc (Approved u idp), x) ∈ h /\ (x = Done \/ x = Failed Storage).
Definition denied (h : list (op * outcome)) (dc : string) : Prop := exists e, (SetStatus e dc Denied, Done) ∈ h.
Definition granted (h : list (op * outcome)) (dc client scope : string) (t : Z) : Prop :=
  exists e uc x, now e = t /\ (CreateGrant e dc uc client scope, x) ∈ h.

Record grant_ok (h : list (op * outcome)) (dc : string) (g : DeviceGrant) : Prop := {
  ok_code : g_device_code g = dc;
  ok_fresh : ~ collected h dc;
  ok_made : exists t, granted h dc (g_client_id g) (g_scope g) t /\ g_expires_at g = expiry t DEVICE_GRANT_LIFETIME;
  ok_approved u idp : g_status g = Approved u idp -> approved h dc u idp;
  ok_denied : denied h dc -> g_status g = Denied
}.

Definition grants_ok (h : list (op * outcome)) (s : Server) : Prop :=
  (forall dc g, oidcdevicecode_devicegrant s !! dc = Some g -> grant_ok h dc g) /\
  (forall dc, collected h dc \/ denied h dc -> exists client scope t, granted h dc client scope t).

(** What an operation and its outcome add to the history of a grant. *)
Definition adds (o : op) (x : outcome) (dc : string) : Prop :=
  (exists e client g, o = Poll e dc client /\ x = Polled (PollApproved g)) \/ (exists e, o = SetStatus e dc Denied /\ x = Done).

Lemma granted_snoc h o x dc client scope t : granted h dc client scope t -> granted (h ++ [(o, x)]) dc client scope t.
Proof. intros (e & uc & y & Ht & H). exists e, uc, y. split; [done|]. apply elem_of_snoc. by left. Qed.
Lemma approved_snoc h o x dc u idp : approved h dc u idp -> approved (h ++ [(o, x)]) dc u idp.
Proof. intros (e & y & H & Hy). exists e, y. split; [|done]. apply elem_of_snoc. by left. Qed.

Lemma ends_snoc h o x dc :
  collected (h ++ [(o, x)]) dc \/ denied (h ++ [(o, x)]) dc -> (collected h dc \/ denied h dc) \/ adds o x dc.
Proof.
  unfold collected, denied, adds. setoid_rewrite elem_of_snoc.
  intros [(e & cl & g & [H|[= <- <-]])|(e & [H|[= <- <-]])]; eauto 10.
Qed.

Lemma grant_ok_snoc h o x dc g : grant_ok h dc g -> ~ adds o x dc -> grant_ok (h ++ [(o, x)]) dc g.
Proof.
  intros [C F (t & Hg & Ht) A D] Hn. split; [done| | | |].
  - intros (e & cl & g' & [H|[= <- <-]]%elem_of_snoc); [apply F; by exists e, cl, g'|]. apply Hn. left. eauto.
  - exists t. by split; [apply granted_snoc|].
  - intros u idp Hs. by apply approved_snoc, A.
  - intros (e & [H|[= <- <-]]%elem_of_snoc); [apply D; by exists e|]. exfalso. apply Hn. right. eauto.
Qed.

(** Grants that stay or go, with nothing new said of those that stay. *)
Lemma grants_shrink h s s' o x :
  grants_ok h s -> (forall dc g, oidcdevicecode_devicegrant s' !! dc = Some g -> oidcdevicecode_devicegrant s !! dc = Some g /\ ~ adds o x dc) ->
  (forall dc, adds o x dc -> is_Some (oidcdevicecode_devicegrant s !! dc)) ->
  grants_ok (h ++ [(o, x)]) s'.
Proof.
  intros [H1 H2] Hsub Hadd. split.
  - intros dc g [Hg Hn]%Hsub. by apply grant_ok_snoc; [apply H1|].
  - intros dc [(cl & sc & t & H)%H2|Ha]%ends_snoc; [exists cl, sc, t; by apply granted_snoc|].
    destruct (Hadd _ Ha) as [g Hg]. destruct (ok_made _ _ _ (H1 _ _ Hg)) as (t & H & _). eexists _, _, t. by apply granted_snoc.
Qed.

(** One grant written, the others as they were. *)
Lemma grants_put h s s' o x dc g :
  grants_ok h s -> oidcdevicecode_devicegrant s' = <[dc := g]> (oidcdevicecode_devicegrant s) ->
  grant_ok (h ++ [(o, x)]) dc g -> (forall dc', adds o x dc' -> dc' = dc) -> grants_ok (h ++ [(o, x)]) s'.
Proof.
  intros [H1 H2] E Hg Hadd. split.
  - intros dc' g'. rewrite E. intros [[<- <-]|[Hne Hg']]%lookup_insert_Some; [done|].
    apply grant_ok_snoc; [by apply H1|]. intros Ha%Hadd. congruence.
  - intros dc' [(cl & sc & t & H)%H2|Ha%Hadd]%ends_snoc; [exists cl, sc, t; by apply granted_snoc|]. subst dc'.
    destruct (ok_made _ _ _ Hg) as (t & H & _). by eexists _, _, t.
Qed.

Lemma grants_frame s o :
  match o with
  | CreateGrant _ _ _ _ _ | Verify _ _ | SetStatus _ _ _ | Poll _ _ _ => True
  | _ => oidcdevicecode_devicegrant (exec s o).1 = oidcdevicecode_devicegrant s
  end.
Proof. destruct o; try done; run_op. Qed.

Lemma remove_grant_cases e g s :
  oidcdevicecode_devicegrant (remove_device_grant e g s).1 = oidcdevicecode_devicegrant s /\ is_ok (remove_device_grant e g s).2 = false \/
  oidcdevicecode_devicegrant (remove_device_grant e g s).1 = delete (g_device_code g) (oidcdevicecode_devicegrant s).
Proof. unfold remove_device_grant, and_then, write. repeat case_match; simplify_eq/=; auto. Qed.

Lemma grants_same h s s' o x :
  grants_ok h s -> oidcdevicecode_devicegrant s' = oidcdevicecode_devicegrant s -> (forall dc, ~ adds o x dc) ->
  grants_ok (h ++ [(o, x)]) s'.
Proof. intros Hok E Hn. eapply grants_shrink; [done| |]; [intros dc g; by rewrite E|intros dc Ha; by destruct (Hn dc)]. Qed.

(** A grant removed, and nothing new said unless it really was. *)
Lemma grants_removed h s e g dc o x :
  grants_ok h s -> oidcdevicecode_devicegrant s !! dc = Some g ->
  (forall dc', adds o x dc' -> dc' = dc /\ is_ok (remove_device_grant e g s).2 = true) ->
  grants_ok (h ++ [(o, x)]) (remove_device_grant e g s).1.
Proof.
  intros Hok Hg Ha. pose proof (ok_code _ _ _ (proj1 Hok _ _ Hg)) as Hc.
  destruct (remove_grant_cases e g s) as [[E Hr]|E].
  - eapply grants_same; [done..|]. intros dc' [_ H]%Ha. congruence.
  - eapply grants_shrink; [done| |].
    + intros dc' g'. rewrite E, Hc. intros [Hne H]%lookup_delete_Some. split; [done|]. intros [-> _]%Ha. done.
    + intros dc' [-> _]%Ha. by eexists.
Qed.

(** The history says nothing of a grant that is still pending but that it was made. *)
Lemma grant_ok_update h o x dc g g' :
  grant_ok h dc g -> is_pending g = true -> g_device_code g' = dc -> g_client_id g' = g_client_id g -> g_scope g' = g_scope g ->
  g_expires_at g' = g_expires_at g ->
  (forall u idp, g_status g' = Approved u idp -> exists e, o = SetStatus e dc (Approved u idp) /\ (x = Done \/ x = Failed Storage)) ->
  (forall e, o = SetStatus e dc Denied -> x = Done -> g_status g' = Denied) ->
  (forall e client a, o = Poll e dc client -> x <> Polled (PollApproved a)) ->
  grant_ok (h ++ [(o, x)]) dc g'.
Proof.
  intros [C F (t & Hg & Ht) A D] Hp E1 E2 E3 E4 Ha Hd Hc. split; [done| | | |].
  - intros (e & cl & a & [H|[= <- <-]]%elem_of_snoc); [apply F; by exists e, cl, a|]. by eapply Hc.
  - exists t. rewrite E2, E3, E4. by split; [apply granted_snoc|].
  - intros u idp (e & -> & Hx)%Ha. exists e, x. split; [|done]. apply elem_of_snoc. by right.
  - intros (e & [H|[= <- <-]]%elem_of_snoc); [|by eapply Hd].
    assert (g_status g = Denied) as E by (apply D; by exists e). unfold is_pending in Hp; by rewrite E in Hp.
Qed.

Lemma no_adds_verify e dc x dc' : ~ adds (Verify e dc) x dc'.
Proof. by intros [(? & ? & ? & ? & ?)|(? & ? & ?)]. Qed.

Lemma verify_step h s e dc s' x : grants_ok h s -> exec s (Verify e dc) = (s', x) -> grants_ok (h ++ [(Verify e dc, x)]) s'.
Proof.
  intros Hok. cbn [exec]. unfold out, quiet, verify_grant, get_device_grant.
  destruct (oidcdevicecode_devicegrant s !! dc) as [g|] eqn:Eg; cbn [ok_or]; [|intros [= <- <-]; eapply grants_same; eauto using no_adds_verify].
  assert (Hrem : forall g' (err : error), g_device_code g' = g_device_code g -> g_user_code g' = g_user_code g ->
    (and_then (remove_device_grant e g' s) (fun s => (s, Err err : result error DeviceGrant))).1 = (remove_device_grant e g s).1).
  { intros g' err E1 E2. unfold remove_device_grant. rewrite E1, E2. unfold and_then, write. by repeat case_match; simplify_eq/=. }
  destruct (g_expires_at g <? now e).
  { intros [= <- <-]. rewrite Hrem by done. eapply grants_removed; [done..|]. by intros dc' ?%no_adds_verify. }
  destruct (is_pending g) eqn:Hp; cbn [negb]; [|intros [= <- <-]; eapply grants_same; eauto using no_adds_verify].
  case_match.
  { intros [= <- <-]. rewrite Hrem by done. eapply grants_removed; [done..|]. by intros dc' ?%no_adds_verify. }
  unfold put_grant, and_then, write. pose proof (ok_code _ _ _ (proj1 Hok _ _ Eg)) as Hc.
  assert (Hput : forall x, grants_ok (h ++ [(Verify e dc, x)])
    (with_grants (<[g_device_code g := with_attempts (u32_saturating_add (g_attempts g) 1) g]> (oidcdevicecode_devicegrant s)) s)).
  { intros y. rewrite Hc. eapply grants_put; [done|reflexivity| |by intros dc' ?%no_adds_verify].
    eapply grant_ok_update; [by apply Hok|done..| | |]; cbn; try done.
    intros u idp E. unfold is_pending in Hp; by rewrite E in Hp. }
  destruct (Maps.writes (io e 0)); [destruct (Maps.flushes (io e 0))|]; cbn; intros [= <- <-]; try apply Hput.
  eapply grants_same; eauto using no_adds_verify.
Qed.

Lemma set_status_step h s e dc st s' x : grants_ok h s -> exec s (SetStatus e dc st) = (s', x) -> grants_ok (h ++ [(SetStatus e dc st, x)]) s'.
Proof.
  intros Hok. cbn [exec]. unfold out, quiet, set_grant_status, get_device_grant.
  assert (Hn : forall err dc', ~ adds (SetStatus e dc st) (Failed err) dc') by (by intros err dc' [(? & ? & ? & ? & ?)|(? & ? & ?)]).
  destruct (oidcdevicecode_devicegrant s !! dc) as [g|] eqn:Eg; cbn [ok_or]; [|intros [= <- <-]; by eapply grants_same].
  pose proof (ok_code _ _ _ (proj1 Hok _ _ Eg)) as Hc.
  destruct (g_expires_at g <? now e).
  { unfold and_then. destruct (remove_device_grant e g s) as [s1 r1] eqn:Er. intros Hx.
    assert (s' = (remove_device_grant e g s).1 /\ exists err, x = Failed err) as (-> & err & ->)
      by (rewrite Er; destruct r1; simplify_eq/=; eauto).
    eapply grants_removed; [done..|]. by intros dc' ?%Hn. }
  destruct (is_pending g) eqn:Hp; cbn [negb]; [|intros [= <- <-]; by eapply grants_same].
  assert (Hput : forall y, y = Done \/ y = Failed Storage ->
    grants_ok (h ++ [(SetStatus e dc st, y)]) (with_grants (<[g_device_code g := with_status st g]> (oidcdevicecode_devicegrant s)) s)).
  { intros y Hy. rewrite Hc. eapply grants_put; [done|reflexivity| |].
    - eapply grant_ok_update; [by apply Hok|done..| | |]; cbn; [intros u idp ->; by exists e|by intros ? [= ]|done].
    - by intros dc' [(? & ? & ? & ? & ?)|(? & [= ] & ?)]. }
  unfold put_grant, write.
  destruct (Maps.writes (io e 0)); [destruct (Maps.flushes (io e 0))|]; cbn; intros [= <- <-]; [by apply Hput; left|by apply Hput; right|by eapply grants_same].
Qed.

Lemma poll_step h s e dc client s' x : grants_ok h s -> exec s (Poll e dc client) = (s', x) -> grants_ok (h ++ [(Poll e dc client, x)]) s'.
Proof.
  intros Hok. cbn [exec]. unfold out, poll_device_grant, get_device_grant.
  assert (Hn : forall y, (forall a, y <> Polled (PollApproved a)) -> forall dc', ~ adds (Poll e dc client) y dc').
  { intros y Hy dc' [(? & ? & ? & _ & E)|(? & ? & _)]; [by eapply Hy|done]. }
  assert (Ha : forall y dc', adds (Poll e dc client) y dc' -> dc' = dc) by (by intros y dc' [(? & ? & ? & [= ] & _)|(? & ? & _)]).
  destruct (oidcdevicecode_devicegrant s !! dc) as [g|] eqn:Eg; cbn [ok_or]; [|intros [= <- <-]; eapply grants_same; [done..|by apply Hn]].
  destruct (String.eqb _ _); cbn [negb]; [|intros [= <- <-]; eapply grants_same; [done..|by apply Hn]].
  assert (Hrem : forall p : DeviceGrantPoll, out Polled (and_then (remove_device_grant e g s) (fun s => (s, Ok p))) = (s', x) ->
    grants_ok (h ++ [(Poll e dc client, x)]) s').
  { intros p. unfold out, and_then. destruct (remove_device_grant e g s) as [s1 r1] eqn:Er. intros Hx.
    replace s' with (remove_device_grant e g s).1 by (rewrite Er; destruct r1; by simplify_eq/=).
    eapply grants_removed; [done..|]. intros dc' H. split; [by eapply Ha|]. rewrite Er. destruct r1; simplify_eq/=; [done|].
    by apply Hn in H. }
  destruct (g_expires_at g <? now e); [apply (Hrem PollExpired)|]. destruct (g_status g); [|eapply Hrem..].
  intros [= <- <-]. eapply grants_same; [done..|by apply Hn].
Qed.

Lemma create_grant_step h s e dc uc client scope s' x :
  grants_ok h s -> draws_fresh h (CreateGrant e dc uc client scope) -> exec s (CreateGrant e dc uc client scope) = (s', x) ->
  grants_ok (h ++ [(CreateGrant e dc uc client scope, x)]) s'.
Proof.
  intros Hok Hfresh Hx. set (o := CreateGrant e dc uc client scope) in *.
  assert (Hn : forall y dc', ~ adds o y dc') by (by intros y dc' [(? & ? & ? & ? & ?)|(? & ? & ?)]).
  set (g := mkGrant dc uc client scope Pending 0 (now e) (expiry (now e) DEVICE_GRANT_LIFETIME)).
  assert (oidcdevicecode_devicegrant s' = oidcdevicecode_devicegrant s \/ oidcdevicecode_devicegrant s' = <[dc := g]> (oidcdevicecode_devicegrant s))
    as [E|E] by (subst o g; run_op; auto); [by eapply grants_same|].
  assert (Hno : ~ (collected h dc \/ denied h dc)).
  { intros (cl & sc & t & e' & uc' & y & _ & Hin)%(proj2 Hok). by eapply Hfresh. }
  eapply grants_put; [done|exact E| |by intros dc' ?%Hn]. split; cbn; try done.
  - intros Hc. destruct (ends_snoc h o x dc) as [|]; [by left|done|by eapply Hn].
  - exists (now e). split; [|done]. exists e, uc, x. split; [done|]. apply elem_of_snoc. by right.
  - intros Hd. destruct (ends_snoc h o x dc) as [|]; [by right|done|by exfalso; eapply Hn].
Qed.

Lemma reach_grants clients h s : reach clients h s -> grants_ok h s.
Proof.
  induction 1 as [|h s o s' x Hr IH Hf Hx].
  { split; [intros dc ? H; cbn in H; by rewrite lookup_empty in H|]. by intros dc [(? & ? & ? & ?%not_elem_of_nil)|(? & ?%not_elem_of_nil)]. }
  pose proof (grants_frame s o) as E. rewrite Hx in E. cbn [fst] in E.
  destruct o; try (eapply grants_same; [done..|by intros dc [(? & ? & ? & ? & ?)|(? & ? & ?)]]);
    eauto using verify_step, set_status_step, poll_step, create_grant_step.
Qed.

(** ** Requests *)

Definition stored (h : list (op * outcome)) (id : string) : Prop := exists e pkce p x, (Authorize e id pkce p, x) ∈ h.
Definition taken (h : list (op * outcome)) (id : string) : Prop := exists e r, (Take e id r, Taken r) ∈ h.
Definition bound (h : list (op * outcome)) (id p : string) : Prop := exists e, (BindProvider e id p, Done) ∈ h.
Definition claimed (h : list (op * outcome)) (id : string) : Prop := exists e, (BindLocal e id, Done) ∈ h.

(** A request is for one branch, the one that was chosen first. *)
Record request_ok (h : list (op * outcome)) (id : string) (r : AuthRequest) : Prop := {
  ok_exclusive : r_local_auth_selected r = true -> r_idp_id r = None;
  ok_untaken : ~ taken h id;
  ok_bound p : bound h id p -> r_idp_id r = Some p;
  ok_claimed : claimed h id -> r_local_auth_selected r = true
}.

Definition requests_ok (h : list (op * outcome)) (s : Server) : Prop :=
  (forall id r, oidcreqid_authrequest s !! id = Some r -> request_ok h id r /\ stored h id) /\
  (forall id, taken h id \/ (exists p, bound h id p) \/ claimed h id -> stored h id).

(** What an operation and its outcome add to the history of a request. *)
Definition decides (o : op) (x : outcome) (id : string) : Prop :=
  (exists e r, o = Take e id r /\ x = Taken r) \/ (exists e p, o = BindProvider e id p /\ x = Done) \/ (exists e, o = BindLocal e id /\ x = Done).

Lemma stored_snoc h o x id : stored h id -> stored (h ++ [(o, x)]) id.
Proof. intros (e & pk & p & y & H). exists e, pk, p, y. apply elem_of_snoc. by left. Qed.

Lemma decided_snoc h o x id :
  taken (h ++ [(o, x)]) id \/ (exists p, bound (h ++ [(o, x)]) id p) \/ claimed (h ++ [(o, x)]) id ->
  (taken h id \/ (exists p, bound h id p) \/ claimed h id) \/ decides o x id.
Proof.
  unfold taken, bound, claimed, decides. setoid_rewrite elem_of_snoc.
  intros [(e & r & [H|[= <- <-]])|[(p & e & [H|[= <- <-]])|(e & [H|[= <- <-]])]]; eauto 10.
Qed.

Lemma request_ok_snoc h o x id r : request_ok h id r -> ~ decides o x id -> request_ok (h ++ [(o, x)]) id r.
Proof.
  intros [E T B C] Hn. split; [done|..].
  - intros (e & r' & [H|[= <- <-]]%elem_of_snoc); [apply T; by exists e, r'|]. apply Hn. left. eauto.
  - intros p (e & [H|[= <- <-]]%elem_of_snoc); [apply B; by exists e|]. exfalso. apply Hn. right. left. eauto.
  - intros (e & [H|[= <- <-]]%elem_of_snoc); [apply C; by exists e|]. exfalso. apply Hn. right. right. eauto.
Qed.

Lemma requests_shrink h s s' o x :
  requests_ok h s ->
  (forall id r, oidcreqid_authrequest s' !! id = Some r -> oidcreqid_authrequest s !! id = Some r /\ ~ decides o x id) ->
  (forall id, decides o x id -> is_Some (oidcreqid_authrequest s !! id)) -> requests_ok (h ++ [(o, x)]) s'.
Proof.
  intros [H1 H2] Hsub Hd. split.
  - intros id r [Hr Hn]%Hsub. destruct (H1 _ _ Hr). split; [by apply request_ok_snoc|by apply stored_snoc].
  - intros id [H|Ha]%decided_snoc; [by apply stored_snoc, H2|]. destruct (Hd _ Ha) as [r Hr]. by apply stored_snoc, (H1 _ _ Hr).
Qed.

Lemma requests_same h s s' o x :
  requests_ok h s -> oidcreqid_authrequest s' = oidcreqid_authrequest s -> (forall id, ~ decides o x id) -> requests_ok (h ++ [(o, x)]) s'.
Proof. intros Hok E Hn. eapply requests_shrink; [done|..]; [intros id r; by rewrite E|intros id Ha; by destruct (Hn id)]. Qed.

Lemma requests_deleted h s s' o x id :
  requests_ok h s -> oidcreqid_authrequest s' = delete id (oidcreqid_authrequest s) ->
  (forall id', decides o x id' -> id' = id /\ is_Some (oidcreqid_authrequest s !! id)) -> requests_ok (h ++ [(o, x)]) s'.
Proof.
  intros Hok E Hd. eapply requests_shrink; [done|..].
  - intros id' r. rewrite E. intros [Hne H]%lookup_delete_Some. split; [done|]. by intros [-> _]%Hd.
  - by intros id' [-> ?]%Hd.
Qed.

Lemma requests_put h s s' o x id r :
  requests_ok h s -> oidcreqid_authrequest s' = <[id := r]> (oidcreqid_authrequest s) ->
  request_ok (h ++ [(o, x)]) id r -> stored (h ++ [(o, x)]) id -> (forall id', decides o x id' -> id' = id) -> requests_ok (h ++ [(o, x)]) s'.
Proof.
  intros [H1 H2] E Hr Hs Hd. split.
  - intros id' r'. rewrite E. intros [[<- <-]|[Hne H]]%lookup_insert_Some; [done|]. destruct (H1 _ _ H).
    split; [apply request_ok_snoc; [done|]; intros ?%Hd; congruence|by apply stored_snoc].
  - intros id' [H|Ha%Hd]%decided_snoc; [by apply stored_snoc, H2|by subst].
Qed.

Lemma requests_frame s o :
  match o with
  | Authorize _ _ _ _ | Peek _ _ | BindProvider _ _ _ | BindLocal _ _ | Take _ _ _ | Retire _ _ => True
  | _ => oidcreqid_authrequest (exec s o).1 = oidcreqid_authrequest s
  end.
Proof. destruct o; try done; run_op. Qed.

(** What a rewrite of a request can do to its row. *)
Lemma update_cases e id f s s' res :
  update_auth_request e id f s = (s', res) ->
  (oidcreqid_authrequest s' = oidcreqid_authrequest s /\ is_ok res = false) \/
  (oidcreqid_authrequest s' = delete id (oidcreqid_authrequest s) /\ is_ok res = false) \/
  exists r r', oidcreqid_authrequest s !! id = Some r /\ f r = Ok r' /\ oidcreqid_authrequest s' = <[id := r']> (oidcreqid_authrequest s).
Proof.
  unfold update_auth_request, peek_auth_request. destruct (oidcreqid_authrequest s !! id) as [r|] eqn:Er; [|intros [= <- <-]; by left].
  destruct (_ <? _).
  - unfold remove_auth_request, and_then, write. repeat case_match; intros; simplify_eq/=; auto.
  - cbn [mbind result_bind]. destruct (f r) as [r'|err] eqn:Ef; [|intros [= <- <-]; by left].
    unfold store_auth_request, write. repeat case_match; intros; simplify_eq/=; eauto 10.
Qed.

(** A rewrite that keeps to the branch that was chosen. *)
Lemma update_step h s s' res e id f o :
  requests_ok h s -> update_auth_request e id f s = (s', res) ->
  let x := match res with Ok _ => Done | Err err => Failed err end in
  (forall y id', decides o y id' -> id' = id /\ y = Done) ->
  (forall r r', f r = Ok r' -> request_ok h id r -> request_ok (h ++ [(o, x)]) id r') -> requests_ok (h ++ [(o, x)]) s'.
Proof.
  intros Hok Hu x Hd Hf.
  assert (Hn : is_ok res = false -> forall id', ~ decides o x id').
  { intros Hres id' [_ Hx]%Hd. subst x. by destruct res. }
  destruct (update_cases _ _ _ _ _ _ Hu) as [[E Hr]|[[E Hr]|(r & r' & Hr & Hfr & E)]].
  - eapply requests_same; [done..|by apply Hn].
  - eapply requests_deleted; [done..|]. intros id' H. by apply (Hn Hr) in H.
  - destruct (proj1 Hok _ _ Hr) as [Hro Hst]. eapply requests_put; [done|exact E|by eapply Hf|by apply stored_snoc|]. by intros id' [-> _]%Hd.
Qed.

Lemma bind_provider_step h s s' e id p x :
  requests_ok h s -> exec s (BindProvider e id p) = (s', x) -> requests_ok (h ++ [(BindProvider e id p, x)]) s'.
Proof.
  intros Hok. cbn [exec]. unfold out, quiet, bind_auth_request_to_provider.
  destruct (update_auth_request _ _ _ s) as [s1 res] eqn:Eu. intros [= <- <-]. eapply update_step; [exact Hok|exact Eu|..].
  - intros y id' [(? & ? & ? & _)|[(? & ? & [= ] & ?)|(? & ? & _)]]; by subst.
  - intros r r' Hf [E T B C]. unfold no_other_provider, local_unclaimed in Hf.
    assert (Hr : (r_idp_id r = None \/ r_idp_id r = Some p) /\ r_local_auth_selected r = false /\ r' = with_branch (Some p) false r).
    { destruct (r_idp_id r) as [b|]; [case_bool_decide as Hb; [|done]|]; cbn [mbind result_bind] in Hf;
        destruct (r_local_auth_selected r) eqn:El; cbn [mbind result_bind] in Hf; try done; injection Hf as <-; rewrite El; auto. }
    destruct Hr as (Hi & Hl & ->). split; cbn; [done|..].
    + intros (? & ? & [H|[= ]]%elem_of_snoc). apply T. by eexists _, _.
    + intros q (? & [H|[= ]]%elem_of_snoc); [|congruence].
      assert (r_idp_id r = Some q) as Hq by (apply B; by eexists). destruct Hi; congruence.
    + intros (? & [H|[= ]]%elem_of_snoc). rewrite C in Hl; [done|by eexists].
Qed.

Lemma bind_local_step h s s' e id x :
  requests_ok h s -> exec s (BindLocal e id) = (s', x) -> requests_ok (h ++ [(BindLocal e id, x)]) s'.
Proof.
  intros Hok. cbn [exec]. unfold out, quiet, bind_auth_request_to_local.
  destruct (update_auth_request _ _ _ s) as [s1 res] eqn:Eu. intros [= <- <-]. eapply update_step; [exact Hok|exact Eu|..].
  - intros y id' [(? & ? & ? & _)|[(? & ? & ? & _)|(? & [= ] & ?)]]; by subst.
  - intros r r' Hf [E T B C]. unfold no_other_provider in Hf. destruct (r_idp_id r) as [b|] eqn:Ei; [by case_bool_decide|].
    injection Hf as <-. split; cbn; [by rewrite Ei|..|done].
    + intros (? & ? & [H|[= ]]%elem_of_snoc). apply T. by eexists _, _.
    + intros q (? & [H|[= ]]%elem_of_snoc). rewrite Ei. apply B. by eexists.
Qed.

Lemma peek_cases e id s s' res :
  peek_auth_request e id s = (s', res) ->
  (s' = s /\ forall r, res = Ok r -> oidcreqid_authrequest s !! id = Some r /\ now e <= r_expires_at r) \/
  (s' = with_requests (delete id (oidcreqid_authrequest s)) s /\ is_ok res = false).
Proof.
  unfold peek_auth_request. destruct (oidcreqid_authrequest s !! id) as [r|]; [|intros [= <- <-]; by left].
  destruct (Z.ltb_spec (r_expires_at r) (now e)); [|intros [= <- <-]; left; split; [done|]; by intros ? [= <-]].
  unfold remove_auth_request, and_then, write. repeat case_match; intros; simplify_eq/=; auto.
  left. by split.
Qed.

Lemma take_step h s s' e id r x :
  requests_ok h s -> exec s (Take e id r) = (s', x) -> requests_ok (h ++ [(Take e id r, x)]) s'.
Proof.
  intros Hok. cbn [exec]. unfold out, take_auth_request. destruct (peek_auth_request e id s) as [s1 res] eqn:Ep.
  assert (Hn : forall err id', ~ decides (Take e id r) (Failed err) id') by (by intros err id' [(? & ? & ? & ?)|[(? & ? & ? & _)|(? & ? & _)]]).
  destruct (peek_cases _ _ _ _ _ Ep) as [[-> Hr]|[-> Hres]].
  2: { destruct res; [done|]. intros [= <- <-]. eapply requests_deleted; [done|reflexivity|]. by intros id' ?%Hn. }
  destruct res as [r'|err]; [|intros [= <- <-]; by eapply requests_same]. destruct (Hr _ eq_refl) as [Hid _].
  case_bool_decide as Heq; cbn [negb]; [|intros [= <- <-]; by eapply requests_same]. subst r'.
  unfold remove_auth_request, and_then, write. destruct (Maps.writes (io e 1)); [|intros [= <- <-]; by eapply requests_same].
  destruct (Maps.flushes (io e 1)); intros [= <- <-]; (eapply requests_deleted; [done|reflexivity|]); [|by intros id' ?%Hn].
  intros id' [(? & ? & [= ] & _)|[(? & ? & ? & _)|(? & ? & _)]]; subst; try done.
Qed.

Lemma authorize_step h s s' e d pkce p x :
  requests_ok h s -> draws_fresh h (Authorize e d pkce p) -> exec s (Authorize e d pkce p) = (s', x) -> requests_ok (h ++ [(Authorize e d pkce p, x)]) s'.
Proof.
  intros Hok Hfresh Hx. set (o := Authorize e d pkce p) in *.
  assert (Hn : forall y id', ~ decides o y id') by (by intros y id' [(? & ? & ? & ?)|[(? & ? & ? & _)|(? & ? & _)]]).
  assert (oidcreqid_authrequest s' = oidcreqid_authrequest s \/
    exists r, oidcreqid_authrequest s' = <[d := r]> (oidcreqid_authrequest s) /\ r_local_auth_selected r = false) as [E|(r & E & Hl)];
    [|by eapply requests_same|].
  { subst o. cbn [exec] in Hx. unfold out, quiet, authorize, store_auth_request, and_then, write in Hx.
    repeat (case_match; simplify_eq/=); auto; right; eauto. }
  assert (Hno : ~ (taken h d \/ (exists p, bound h d p) \/ claimed h d)).
  { intros (e' & pk & q & y & Hin)%(proj2 Hok). by eapply Hfresh. }
  assert (Hno' : ~ (taken (h ++ [(o, x)]) d \/ (exists p, bound (h ++ [(o, x)]) d p) \/ claimed (h ++ [(o, x)]) d)).
  { intros [|]%decided_snoc; [done|by eapply Hn]. }
  eapply requests_put; [done|exact E| |exists e, pkce, p, x; apply elem_of_snoc; by right|by intros id' ?%Hn].
  split; [by rewrite Hl|tauto| |]; [intros q Hq|intros Hc]; exfalso; apply Hno'; eauto.
Qed.

Lemma reach_requests clients h s : reach clients h s -> requests_ok h s.
Proof.
  induction 1 as [|h s o s' x Hr IH Hf Hx].
  { split; [intros id ? H; cbn in H; by rewrite lookup_empty in H|].
    by intros id [(? & ? & ?%not_elem_of_nil)|[(? & ? & ?%not_elem_of_nil)|(? & ?%not_elem_of_nil)]]. }
  pose proof (requests_frame s o) as E. rewrite Hx in E. cbn [fst] in E.
  assert (Hn : match o with BindProvider _ _ _ | BindLocal _ _ | Take _ _ _ => True | _ => forall id, ~ decides o x id end)
    by (destruct o; try done; by intros id' [(? & ? & ? & ?)|[(? & ? & ? & _)|(? & ? & _)]]).
  destruct o; eauto using requests_same, authorize_step, bind_provider_step, bind_local_step, take_step.
  - cbn [exec] in Hx. unfold out, quiet in Hx. destruct (peek_auth_request e req_id s) as [s1 res] eqn:Ep. injection Hx as <- Hx.
    destruct (peek_cases _ _ _ _ _ Ep) as [[-> _]|[-> _]]; [by eapply requests_same|].
    eapply requests_deleted; [done|reflexivity|]. by intros id' ?%Hn.
  - cbn [exec] in Hx. unfold retire_auth_request, remove_auth_request, write in Hx. injection Hx as <- _.
    destruct (Maps.writes _); [|by eapply requests_same].
    eapply requests_deleted; [done|reflexivity|]. by intros id' ?%Hn.
Qed.

(** ** What is promised *)

(** C24: An authorization code is redeemed once, and for what it was made for. Whenever an
    exchange succeeds, after any history of requests, codes and grants in which random
    texts are drawn once: no exchange of the code succeeded before, its row is gone, the
    session is that of the request and user the code was made for, in the time given; the
    client and the redirect target are those of the request; and the request had a PKCE
    challenge that the verifier meets, or none and none was required. *)
Theorem code_redeemed_once clients h s s' e code client uri v pkce session :
  reach clients h s -> exec s (Exchange e code client uri v pkce) = (s', Redeemed session) ->
  ~ redeemed h code /\ oidccode_authsession s' !! code = None /\
  exists r u t, created_code h code r u t /\ session = session_of t code r u /\
    r_client_id r = client /\ r_redirect_uri r = uri /\ now e <= expiry t AUTH_CODE_LIFETIME /\
    match r_code_challenge r with
    | None => pkce = false
    | Some ch => exists w, v = Some w /\ validate_code_verifier w = Ok () /\ challenge_of w = ch
    end.
Proof.
  intros Hr%reach_codes. cbn [exec]. unfold out, exchange_auth_code.
  destruct (oidccode_authsession s !! code) as [ss|] eqn:Ec; [|done]. destruct (proj1 Hr _ _ Ec) as (Hn & r & u & t & Hc & ->).
  destruct (write _ _ _) as [s1 [[]|err]] eqn:Ew; [|done]. apply write_ok in Ew as ->. cbn [and_then fst snd].
  destruct (redeem _ _ _ _ _ _ _) as [ss|err] eqn:Er; [|done]. intros [= <- <-].
  destruct (redeem_ok _ _ _ _ _ _ _ Er) as (-> & He & Hcl & Hu & Hch). split; [done|]. split; [apply lookup_delete_eq|].
  by exists r, u, t.
Qed.

(** C25: A device collects a grant once, and only what a user approved. Whenever a poll
    hands out an approved grant: no poll collected it before and nobody had denied it, it
    was made for the same client with the scope handed out and is still in its time, and
    the user it signs in was named by an approval of that grant. *)
Theorem grant_collected_once clients h s s' e dc client a :
  reach clients h s -> exec s (Poll e dc client) = (s', Polled (PollApproved a)) ->
  ~ collected h dc /\ ~ denied h dc /\ oidcdevicecode_devicegrant s' !! dc = None /\
  a_client_id a = client /\ approved h dc (a_user_id a) (a_idp_id a) /\
  exists t, granted h dc client (a_scope a) t /\ now e <= expiry t DEVICE_GRANT_LIFETIME.
Proof.
  intros Hr%reach_grants. cbn [exec]. unfold out, poll_device_grant, get_device_grant.
  destruct (oidcdevicecode_devicegrant s !! dc) as [g|] eqn:Eg; [|done]. cbn [ok_or].
  destruct (proj1 Hr _ _ Eg) as [C F (t & Hg & Ht) A D].
  destruct (String.eqb_spec (g_client_id g) client) as [Hcl|]; [|done]. cbn [negb].
  destruct (remove_device_grant e g s) as [s1 r1] eqn:Erm. pose proof (remove_grant_cases e g s) as Hrm. rewrite Erm in Hrm. cbn in Hrm.
  destruct (Z.ltb_spec (g_expires_at g) (now e)) as [|He]; [by destruct r1|].
  destruct (g_status g) as [|u idp|] eqn:Es; [done| |by destruct r1].
  destruct r1 as [[]|err]; [|done]. cbn. intros [= <- <-]. cbn. destruct Hrm as [[_ ?]|Hrm]; [done|]. split_and!; try done.
  - intros Hd%D. done.
  - rewrite Hrm, C. apply lookup_delete_eq.
  - by apply A.
  - exists t. rewrite <-Hcl, <-Ht. done.
Qed.

(** An authorization request is completed once and through the branch that was chosen
    first: whenever a request is taken it was not taken before, it is the one the caller
    read, it is not for a provider and the local branch at once, and it is for every
    provider it was bound to and for the local branch if that had claimed it. *)
Theorem request_taken_once clients h s s' e id expected r :
  reach clients h s -> exec s (Take e id expected) = (s', Taken r) ->
  r = expected /\ ~ taken h id /\ oidcreqid_authrequest s' !! id = None /\ now e <= r_expires_at r /\
  (r_local_auth_selected r = true -> r_idp_id r = None) /\
  (forall p, bound h id p -> r_idp_id r = Some p) /\ (claimed h id -> r_local_auth_selected r = true).
Proof.
  intros Hr%reach_requests. cbn [exec]. unfold out, take_auth_request. destruct (peek_auth_request e id s) as [s1 res] eqn:Ep.
  destruct (peek_cases _ _ _ _ _ Ep) as [[-> Hp]|[-> Hres]]; [|by destruct res].
  destruct res as [r'|]; [|done]. destruct (Hp _ eq_refl) as [Hid He]. destruct (proj1 Hr _ _ Hid) as [[E T B C] _].
  case_bool_decide as Heq; [|done]. cbn [negb]. unfold remove_auth_request.
  destruct (write _ _ _) as [s2 [[]|err]] eqn:Ew; [|done]. apply write_ok in Ew as ->. cbn. intros [= <- <-].
  split_and!; try done. apply lookup_delete_eq.
Qed.

End History.
End OauthFacts.
