(* ===== verification/OauthSample.v ===== *)
(** Witnesses for what the authorization server promises (OauthFacts.v), and histories on
    which it does not do what it should: a code redeemed after its account was deactivated,
    and an id token nobody asked for. *)
From S2P Require Import Prelude Order Maps Time Tokens Devices Sessions Oauth OauthFacts.
From Stdlib Require Import Ascii.

Module OauthSample.
Import Tokens Oauth OauthFacts.

Definition at_ (t : Z) : Env := Tokens.mkEnv (Time.from_secs t) (fun _ => Maps.io_ok).

(** In place of the hash, the first characters of the verifier. *)
Definition challenge_of (v : string) : string := String.substring 0 8 v.
Definition same_uri (a b : string) : bool := String.eqb a b.
Definition no_provider (p : string) : option string := None.

Definition verifier : string := "abcdefghijklmnopqrstuvwxyzabcdefghijklmnopqrstuvwxyz".
Definition request : AuthRequest :=
  mkRequest "client" "https://app/cb" "openid urn:matrix:client:device:DEVICE0001" None None (Some "abcdefgh")%string (Some "S256")%string
    None true None (Time.from_secs 100) (Time.from_secs 700).

Abbreviation step := (exec challenge_of same_uri no_provider None true).
Abbreviation reached := (reach challenge_of same_uri no_provider None true ∅).

Definition code_made : Server := (step empty_server (CreateCode (at_ 110) "code" request "@u:x")).1.

Lemma code_made_reached : reached [(CreateCode (at_ 110) "code" request "@u:x", Done)] code_made.
Proof.
  apply (reach_step _ _ _ _ _ _ [] empty_server); [apply reach_start| |reflexivity].
  intros e r u x. apply not_elem_of_nil.
Qed.

Lemma code_redeemed_once_witness :
  exists s', step code_made (Exchange (at_ 120) "code" "client" "https://app/cb" (Some verifier) true)
      = (s', Redeemed (session_of (Time.from_secs 110) "code" request "@u:x")) /\
    oidccode_authsession s' !! "code"%string = None.
Proof.
  eexists. split; [reflexivity|].
  apply (code_redeemed_once challenge_of same_uri no_provider None true ∅ [(CreateCode (at_ 110) "code" request "@u:x", Done)] code_made _ (at_ 120) "code" "client" "https://app/cb"
    (Some verifier) true (session_of (Time.from_secs 110) "code" request "@u:x")); [apply code_made_reached|reflexivity].
Defined.

Definition grant_ops : list op :=
  [CreateGrant (at_ 100) "device" "BCDFGHJKLM" "client" "openid"; Verify (at_ 110) "device";
   SetStatus (at_ 120) "device" (Approved "@u:x" None)].
Definition grant_approved : Server := foldl (fun s o => (step s o).1) empty_server grant_ops.

Lemma grant_approved_reached : reached ((fun o => (o, Done)) <$> grant_ops) grant_approved.
Proof.
  apply (reach_step _ _ _ _ _ _ [_; _] (foldl (fun s o => (step s o).1) empty_server (take 2 grant_ops))); [|done|reflexivity].
  apply (reach_step _ _ _ _ _ _ [_] (foldl (fun s o => (step s o).1) empty_server (take 1 grant_ops))); [|done|reflexivity].
  apply (reach_step _ _ _ _ _ _ [] empty_server); [apply reach_start| |reflexivity].
  intros e uc cl sc x. apply not_elem_of_nil.
Qed.

Lemma grant_collected_once_witness :
  exists s', step grant_approved (Poll (at_ 130) "device" "client") = (s', Polled (PollApproved (mkApproved "client" "openid" "@u:x" None))) /\
    oidcdevicecode_devicegrant s' !! "device"%string = None.
Proof.
  eexists. split; [reflexivity|].
  apply (grant_collected_once challenge_of same_uri no_provider None true ∅ ((fun o => (o, Done)) <$> grant_ops) grant_approved _ (at_ 130) "device" "client"
    (mkApproved "client" "openid" "@u:x" None)); [apply grant_approved_reached|reflexivity].
Defined.

(** ** User codes *)

(** Shown with a separator and typed back in, a code names the same grant. *)
Theorem user_code_roundtrip code :
  Forall (fun c => c ∈ USER_CODE_CHARSET) (String.list_ascii_of_string code) -> normalize_user_code (format_user_code code) = code.
Proof.
  intros Hc. unfold normalize_user_code, format_user_code.
  assert (Hup : forall l, Forall (fun c => c ∈ USER_CODE_CHARSET) l -> filter (fun c => c ∈ USER_CODE_CHARSET) (to_ascii_uppercase <$> l) = l).
  { induction 1 as [|c l Hin Hl IH]; [done|]. cbn [fmap list_fmap].
    assert (to_ascii_uppercase c = c) as ->
      by (unfold USER_CODE_CHARSET in Hin; cbn in Hin; repeat (apply elem_of_cons in Hin as [->|Hin]; [done|]); by apply not_elem_of_nil in Hin).
    rewrite filter_cons_True by done. by rewrite IH. }
  set (l := String.list_ascii_of_string code) in *. set (n := (length l / 2)%nat).
  assert (Hcode : String.string_of_list_ascii l = code) by apply String.string_of_list_ascii_of_string.
  destruct (take n l) as [|a t] eqn:Et; [fold l; by rewrite Hup|].
  destruct (drop n l) as [|b d] eqn:Ed; [fold l; by rewrite Hup|].
  rewrite String.list_ascii_of_string_of_list_ascii, fmap_app, filter_app.
  rewrite <-(take_drop n l) in Hc. apply Forall_app in Hc as [H1 H2]. rewrite Et in H1. rewrite Ed in H2.
  rewrite (Hup (a :: t)) by done. rewrite (fmap_cons _ "-"%char), filter_cons_False by (by apply (bool_decide_unpack _)).
  rewrite (Hup (b :: d)) by done. by rewrite <-Et, <-Ed, take_drop.
Qed.

(** ** After deactivation *)

Definition config : Config := Tokens.mkConfig 300 0 false 0 false false 3600 60000.
Definition options : OidcConfig := mkOidc true false false.
Definition answers (t : Z) : Devices.Env := Devices.mkEnv (at_ t) (fun _ => true) (Some t).
Definition call_at (t : Z) : Call := mkCall (at_ t) (answers t) (answers t) (Sessions.mkDraw "ACCESS" "REFRESH") "DRAWN".

(** An account and a code made for it; then the account is deactivated. *)
Definition accounts_before : Devices.State :=
  (Devices.set_password Some (answers 100) "@u:x" (Some "secret"%string)
    (Devices.mkState (Tokens.mkState ∅ ∅ ∅ ∅ ∅) ∅ ∅ (Devices.mkUsers ∅ ∅ ∅ ∅ ∅ ∅) (Devices.mkRows ∅ ∅ ∅ ∅ ∅ ∅ ∅ ∅))).1.
Definition accounts_after : Devices.State * result error unit :=
  Devices.deactivate_account Some (fun _ => []) (answers 115) (fun _ => answers 115) "@u:x" None accounts_before.

(** A code outlives the account: it is redeemed after the account was deactivated, with
    everything it held revoked, and the access token issued signs in as the user. *)
Theorem code_outlives_account :
  accounts_after.2 = Ok () /\ Devices.is_deactivated "@u:x" accounts_after.1 = Ok true /\
  let '(s, r) := token_authorization_code challenge_of config options (call_at 120) (Some "code") (Some "https://app/cb") (Some "client")
      (Some verifier) (mkState code_made accounts_after.1) in
  is_ok r = true /\ Sessions.lookup (fun _ => false) (answers 121) (Some "ACCESS"%string) (accounts s) = Sessions.User ("@u:x", "DEVICE0001")%string.
Proof. vm_compute. done. Qed.

(** The id token is asked for by a part of the text of a scope: a device of that name is enough. *)
Theorem id_token_by_device_name :
  let '(_, r) := issue_tokens config options (call_at 120) "client" "urn:matrix:client:device:openid" "@u:x" None None
      (mkState empty_server accounts_before) in
  match r with Ok reply => t_id_token reply = Some ("@u:x", "client", None)%string | Err _ => False end.
Proof. vm_compute. done. Qed.

End OauthSample.
