(* ===== verification/ServerKeys.v ===== *)
(** The signing keys of other servers, [phantom-service/src/net/server_keys]: what is stored
    of them, which are needed to verify an event, and how they are acquired, one by one
    ([get.rs]) or for a batch of events ([acquire.rs]), from the servers themselves and from
    notaries ([request.rs]).

    Keys and key ids are text. What servers and notaries answer, and whether the database
    takes a write, are arguments; requests that run at once are made one after another,
    each for a server of its own. Signatures are verified by [ruma], a parameter. *)
From S2P Require Import Prelude Order.

Module ServerKeys.

(** [ServerSigningKeys] of [ruma]: the keys in use, and retired ones with the time. *)
Record ServerSigningKeys := mkKeys {
  server_name : string;
  verify_keys : gmap string string;
  old_verify_keys : gmap string (Z * string);
  valid_until_ts : Z
}.

(** The column, this server's name and its own keys. *)
Record State := mkState {
  server_signingkeys : gmap string ServerSigningKeys;
  our_name : string;
  our_keys : gmap string string
}.
Definition with_stored (m : gmap string ServerSigningKeys) (s : State) : State := mkState m (our_name s) (our_keys s).

Inductive error := BadServerResponse | NotFound | Storage | UnsupportedRoomVersion | Diverges.

(** [config.federation] *)
Record Config := mkConfig {
  query_trusted_key_servers_first : bool;
  query_trusted_key_servers_first_on_join : bool;
  only_query_trusted_key_servers : bool;
  trusted_servers : list string;
  trusted_server_batch_size : nat
}.

(** ** What is stored *)

(** [BTreeMap::extend]: what is added replaces what was there. *)
Definition extend {V} (m new : gmap string V) : gmap string V := new ∪ m.

Definition merge_old_keys (k : ServerSigningKeys) : ServerSigningKeys :=
  mkKeys (server_name k) (extend (verify_keys k) (snd <$> old_verify_keys k)) (old_verify_keys k) (valid_until_ts k).

Definition extract_key (k : ServerSigningKeys) (key_id : string) : option string :=
  match verify_keys k !! key_id with
  | Some key => Some key
  | None => snd <$> old_verify_keys k !! key_id
  end.

Definition key_exists (k : ServerSigningKeys) (key_id : string) : bool :=
  bool_decide (is_Some (verify_keys k !! key_id)) || bool_decide (is_Some (old_verify_keys k !! key_id)).

Definition signing_keys_for (origin : string) (s : State) : option ServerSigningKeys := server_signingkeys s !! origin.
Definition server_is_ours (origin : string) (s : State) : bool := String.eqb origin (our_name s).

Definition verify_keys_for (origin : string) (s : State) : gmap string string :=
  let keys := match signing_keys_for origin s with Some k => verify_keys (merge_old_keys k) | None => ∅ end in
  if server_is_ours origin s then extend keys (our_keys s) else keys.

Definition verify_key_exists (origin key_id : string) (s : State) : bool :=
  if server_is_ours origin s && bool_decide (is_Some (our_keys s !! key_id)) then true
  else match signing_keys_for origin s with Some k => key_exists k key_id | None => false end.

Section Service.
Context (cfg : Config).
(** Whether the database takes a write of keys, and the clock. *)
Context (stores : ServerSigningKeys -> bool) (now : Z).
(** What a server answers of itself and a notary of another server, decoded. *)
Context (ask_server : string -> option ServerSigningKeys) (ask_notary : string -> string -> option (list ServerSigningKeys)).

Definition add_signing_keys (new : ServerSigningKeys) (s : State) : State * result error unit :=
  let origin := server_name new in
  let keys := default (mkKeys origin ∅ ∅ now) (server_signingkeys s !! origin) in
  let keys := mkKeys (server_name keys) (extend (verify_keys keys) (verify_keys new))
    (extend (old_verify_keys keys) (old_verify_keys new)) (valid_until_ts keys) in
  if stores new then (with_stored (<[origin := keys]> (server_signingkeys s)) s, Ok ()) else (s, Err Storage).

(** ** What is asked *)

(** A server may only answer for itself. *)
Definition server_request (target : string) : result error ServerSigningKeys :=
  match ask_server target with
  | None => Err BadServerResponse
  | Some k => if negb (String.eqb (server_name k) target) then Err BadServerResponse else Ok k
  end.

Definition notary_request (notary target : string) : result error (list ServerSigningKeys) :=
  ok_or (ask_notary notary target) BadServerResponse.

(** Servers and the key ids wanted of them, in order of the servers. *)
Abbreviation Batch := (list (string * list string)).
Context (ask_batch : string -> Batch -> option (list ServerSigningKeys)).

(** One round splits the last [trusted_server_batch_size] servers off. *)
Definition split_off (n : nat) (l : Batch) : Batch * Batch :=
  let k := (length l - n)%nat in (take k l, drop k l).

Fixpoint batch_rounds (fuel : nat) (notary : string) (l : Batch) : result error (list ServerSigningKeys) :=
  match l, trusted_server_batch_size cfg with
  | [], _ | _, 0%nat => Ok []
  | _, n =>
      match fuel with
      | 0%nat => Err Diverges
      | S fuel =>
          let '(rest, batch) := split_off n l in
          match ask_batch notary batch with
          | None => Err BadServerResponse
          | Some answers => results ← batch_rounds fuel notary rest; Ok (answers ++ results)
          end
      end
  end.
Definition batch_notary_request (notary : string) (l : Batch) : result error (list ServerSigningKeys) :=
  batch_rounds (length l) notary l.

(** ** One key *)

Fixpoint add_all (ks : list ServerSigningKeys) (s : State) : State * result error unit :=
  match ks with
  | [] => (s, Ok ())
  | k :: ks => match add_signing_keys k s with (s, Ok _) => add_all ks s | (s, Err e) => (s, Err e) end
  end.

Fixpoint from_notaries (notaries : list string) (origin key_id : string) (s : State) : State * result error string :=
  match notaries with
  | [] => (s, Err NotFound)
  | notary :: notaries =>
      match notary_request notary origin with
      | Err _ => from_notaries notaries origin key_id s
      | Ok server_keys =>
          match add_all server_keys s with
          | (s, Err e) => (s, Err e)
          | (s, Ok _) =>
              match head (omap (fun k => extract_key k key_id) server_keys) with
              | Some key => (s, Ok key)
              | None => from_notaries notaries origin key_id s
              end
          end
      end
  end.
Definition get_verify_key_from_notaries (origin key_id : string) : State -> State * result error string :=
  from_notaries (trusted_servers cfg) origin key_id.

Definition get_verify_key_from_origin (origin key_id : string) (s : State) : State * result error string :=
  match server_request origin with
  | Err _ => (s, Err NotFound)
  | Ok k =>
      match add_signing_keys k s with
      | (s, Err e) => (s, Err e)
      | (s, Ok _) => (s, ok_or (extract_key k key_id) NotFound)
      end
  end.

(** [if cond && let Ok(result) = attempt { return Ok(result) }] *)
Definition try_ (cond : bool) (attempt : State -> State * result error string) (otherwise : State -> State * result error string) (s : State) :
    State * result error string :=
  if cond then match attempt s with (s, Ok k) => (s, Ok k) | (s, Err _) => otherwise s end else otherwise s.

Definition get_verify_key (origin key_id : string) (s : State) : State * result error string :=
  let notary_first := query_trusted_key_servers_first cfg in
  let notary_only := only_query_trusted_key_servers cfg in
  match verify_keys_for origin s !! key_id with
  | Some key => (s, Ok key)
  | None =>
      try_ notary_first (get_verify_key_from_notaries origin key_id)
        (try_ (negb notary_only) (get_verify_key_from_origin origin key_id)
          (try_ (negb notary_first) (get_verify_key_from_notaries origin key_id) (fun s => (s, Err BadServerResponse)))) s
  end.

Fixpoint get_pubkeys_for (origin : string) (key_ids : list string) (keys : gmap string string) (s : State) : State * gmap string string :=
  match key_ids with
  | [] => (s, keys)
  | key_id :: key_ids =>
      match get_verify_key origin key_id s with
      | (s, Ok key) => get_pubkeys_for origin key_ids (<[key_id := key]> keys) s
      | (s, Err _) => get_pubkeys_for origin key_ids keys s
      end
  end.

Fixpoint get_pubkeys (batch : Batch) (keys : gmap string (gmap string string)) (s : State) : State * gmap string (gmap string string) :=
  match batch with
  | [] => (s, keys)
  | (server, key_ids) :: batch =>
      let '(s, pubkeys) := get_pubkeys_for server key_ids ∅ s in
      get_pubkeys batch (<[server := pubkeys]> keys) s
  end.

(** ** The keys of an event *)

(** An event's signatures by server and key id, and the servers that must have signed
    ([required_server_signatures_to_verify_event]); [valid_id]: a key id that parses. *)
Context {Event Version : Type} (signatures : Event -> option (gmap string (list string))).
Context (required_servers : Version -> Event -> option (list string)) (valid_id : string -> bool).
Context (supported : Version -> bool) (ruma_verify : Version -> gmap string (gmap string string) -> Event -> option bool).

Definition required_keys (v : Version) (object : Event) : result error Batch :=
  servers ← ok_or (required_servers v object) BadServerResponse;
  signed ← ok_or (signatures object) BadServerResponse;
  ok_or (mapM (fun server =>
    key_ids ← (signed : gmap string (list string)) !! server;
    if forallb valid_id key_ids then Some (server, key_ids) else None) servers) BadServerResponse.

Definition required_keys_exist (v : Version) (object : Event) (s : State) : bool :=
  if negb (supported v) then false
  else match required_keys v object with
       | Err _ => false
       | Ok required => forallb (fun sk => forallb (fun key_id => verify_key_exists sk.1 key_id s) sk.2) required
       end.

Definition get_event_keys (v : Version) (object : Event) (s : State) : State * result error (gmap string (gmap string string)) :=
  if negb (supported v) then (s, Err UnsupportedRoomVersion)
  else match required_keys v object with
       | Err _ => (s, Err BadServerResponse)
       | Ok required => let '(s, keys) := get_pubkeys required ∅ s in (s, Ok keys)
       end.

(** [Some true]: signatures and content hash; [Some false]: signatures only. *)
Definition verify_event (v : Version) (object : Event) (s : State) : State * result error bool :=
  if negb (supported v) then (s, Err UnsupportedRoomVersion)
  else let '(s, keys) := get_event_keys v object s in
       (s, keys ← keys; ok_or (ruma_verify v keys object) BadServerResponse).

(** [validate_and_add_event_id_no_fetch], less the id. *)
Definition validate_no_fetch (v : Version) (object : Event) (s : State) : State * result error bool :=
  if negb (required_keys_exist v object s) then (s, Err BadServerResponse)
  else let '(s, r) := verify_event v object s in (s, match r with Ok b => Ok b | Err _ => Err BadServerResponse end).

(** ** The keys of many events *)

(** What is missing is a map from servers to key ids. *)
Abbreviation Missing := (gmap string (list string)).

Definition acquire_locals (batch : Batch) (s : State) : Missing :=
  foldl (fun missing sk =>
    foldl (fun (missing : Missing) key_id =>
      if verify_key_exists sk.1 key_id s then missing
      else <[sk.1 := default [] (missing !! sk.1) ++ [key_id]]> missing) missing sk.2) ∅ batch.

Definition in_order (m : Missing) : Batch := sort_by_key fst (map_to_list m).

(** What a server's own answer leaves missing of it; [None] is a timeout or an error. *)
Definition acquire_origin (origin : string) (key_ids : list string) (s : State) : State * list string :=
  match server_request origin with
  | Err _ => (s, key_ids)
  | Ok k =>
      match add_signing_keys k s with
      | (s, Ok _) => (s, List.filter (fun id => negb (key_exists k id)) key_ids)
      | (s, Err _) => (s, key_ids)
      end
  end.

Fixpoint acquire_origins (batch : Batch) (s : State) : State * Missing :=
  match batch with
  | [] => (s, ∅)
  | (origin, key_ids) :: batch =>
      let '(s, left_) := acquire_origin origin key_ids s in
      let '(s, missing) := acquire_origins batch s in
      (s, match left_ with [] => missing | _ => <[origin := left_]> missing end)
  end.

Definition acquire_notary_result (missing : Missing) (k : ServerSigningKeys) (s : State) : State * Missing :=
  match add_signing_keys k s with
  | (s, Err _) => (s, missing)
  | (s, Ok _) =>
      match missing !! server_name k with
      | None => (s, missing)
      | Some key_ids =>
          match List.filter (fun id => negb (key_exists k id)) key_ids with
          | [] => (s, delete (server_name k) missing)
          | key_ids => (s, <[server_name k := key_ids]> missing)
          end
      end
  end.

Fixpoint notary_results (missing : Missing) (ks : list ServerSigningKeys) (s : State) : State * Missing :=
  match ks with
  | [] => (s, missing)
  | k :: ks => let '(s, missing) := acquire_notary_result missing k s in notary_results missing ks s
  end.

Fixpoint acquire_notary (notaries : list string) (missing : Missing) (s : State) : State * Missing :=
  match notaries with
  | [] => (s, missing)
  | notary :: notaries =>
      if bool_decide (missing = ∅) then (s, missing) else
      match batch_notary_request notary (in_order missing) with
      | Err _ => acquire_notary notaries missing s
      | Ok results => let '(s, missing) := notary_results missing results s in acquire_notary notaries missing s
      end
  end.

Definition keys_count (batch : Missing) : nat := length (concat (snd <$> map_to_list batch)).

(** The keys still missing at the end, which the code logs. *)
Definition acquire_pubkeys (batch : Batch) (s : State) : State * Missing :=
  let notary_first := query_trusted_key_servers_first cfg || query_trusted_key_servers_first_on_join cfg in
  let missing := acquire_locals batch s in
  if bool_decide (missing = ∅) then (s, missing) else
  let '(s, missing) := if notary_first then acquire_notary (trusted_servers cfg) missing s else (s, missing) in
  if notary_first && Nat.eqb (keys_count missing) 0 then (s, missing) else
  let '(s, missing) := if negb (only_query_trusted_key_servers cfg) then acquire_origins (in_order missing) s else (s, missing) in
  if negb (only_query_trusted_key_servers cfg) && Nat.eqb (keys_count missing) 0 then (s, missing) else
  if negb notary_first then acquire_notary (trusted_servers cfg) missing s else (s, missing).

(** The batch of [acquire_events_pubkeys]: the key ids of every signature, by server. *)
Definition events_batch (events : list Event) : Batch :=
  let add (m : gmap string (gset string)) (sk : string * list string) := <[sk.1 := default ∅ (m !! sk.1) ∪ list_to_set sk.2]> m in
  (fun sk : string * gset string => (sk.1, sort_by_key (fun k => k) (elements sk.2))) <$>
    sort_by_key fst (map_to_list (foldl add ∅ (omap signatures events ≫= map_to_list))).
Definition acquire_events_pubkeys (events : list Event) : State -> State * Missing := acquire_pubkeys (events_batch events).

End Service.
End ServerKeys.
