(* ===== verification/ServerKeysFacts.v ===== *)
(** What is known of the keys of other servers (ServerKeys.v): a key that counts as known is
    found without asking anyone; whatever is asked and answered, every key of a batch is
    known afterwards or reported missing; a notary is asked for every server once, so many
    at a time; and where a key may come from, another server's included. *)
From S2P Require Import Prelude Order ServerKeys.

Module ServerKeysFacts.
Import ServerKeys.

(** ** Known keys *)

Lemma extend_is_Some {V} (m new : gmap string V) k : is_Some (extend m new !! k) <-> is_Some (new !! k) \/ is_Some (m !! k).
Proof. unfold extend. rewrite lookup_union_is_Some. done. Qed.

Lemma key_exists_iff k id : key_exists k id = true <-> is_Some (verify_keys k !! id) \/ is_Some (old_verify_keys k !! id).
Proof. unfold key_exists. by rewrite orb_true_iff, !bool_decide_eq_true. Qed.

Lemma extract_exists k id : is_Some (extract_key k id) <-> key_exists k id = true.
Proof.
  rewrite key_exists_iff. unfold extract_key. destruct (verify_keys k !! id); [split; [by left|done]|].
  rewrite fmap_is_Some. split; [by right|by intros [[]|]].
Qed.

(** The two ways to ask for a key agree. *)
Lemma verify_keys_for_exists origin id s : is_Some (verify_keys_for origin s !! id) <-> verify_key_exists origin id s = true.
Proof.
  unfold verify_keys_for, verify_key_exists. set (ks := match signing_keys_for origin s with Some k => _ | None => _ end).
  assert (Hks : is_Some (ks !! id) <-> match signing_keys_for origin s with Some k => key_exists k id | None => false end = true).
  { subst ks. destruct (signing_keys_for origin s) as [k|]; [|rewrite lookup_empty; split; [by intros []|done]].
    unfold merge_old_keys. cbn [verify_keys]. rewrite extend_is_Some, lookup_fmap, fmap_is_Some, key_exists_iff. tauto. }
  destruct (server_is_ours origin s); cbn [andb]; [|done]. rewrite extend_is_Some, Hks.
  case_bool_decide; [by split; [|left]|tauto].
Qed.

Section Facts.
Context (cfg : Config) (stores : ServerSigningKeys -> bool) (now : Z).
Context (ask_server : string -> option ServerSigningKeys) (ask_notary : string -> string -> option (list ServerSigningKeys)).
Context (ask_batch : string -> list (string * list string) -> option (list ServerSigningKeys)).
Abbreviation add := (add_signing_keys stores now).

Lemma add_keeps k s origin id : verify_key_exists origin id s = true -> verify_key_exists origin id (add k s).1 = true.
Proof.
  unfold verify_key_exists, add_signing_keys, signing_keys_for, server_is_ours. destruct (stores k); [|done]. cbn [fst with_stored our_name our_keys server_signingkeys].
  destruct (_ && _); [done|]. destruct (decide (origin = server_name k)) as [->|Hne]; [|by rewrite lookup_insert_ne].
  rewrite lookup_insert_eq, key_exists_iff. destruct (server_signingkeys s !! server_name k) as [k0|]; [|done].
  change (default ?x (Some k0)) with k0. cbn [verify_keys old_verify_keys]. rewrite key_exists_iff, !extend_is_Some. tauto.
Qed.

Lemma add_known k s s' id : add k s = (s', Ok ()) -> key_exists k id = true -> verify_key_exists (server_name k) id s' = true.
Proof.
  unfold add_signing_keys. destruct (stores k); [|done]. intros [= <-]. unfold verify_key_exists, signing_keys_for, server_is_ours.
  cbn [with_stored our_name our_keys server_signingkeys]. destruct (_ && _); [done|].
  rewrite lookup_insert_eq, !key_exists_iff. cbn [verify_keys old_verify_keys]. rewrite !extend_is_Some. tauto.
Qed.

(** ** One key *)

Lemma from_notaries_sound ns origin id s s' key :
  from_notaries stores now ask_notary ns origin id s = (s', Ok key) ->
  exists notary ks k, notary ∈ ns /\ ask_notary notary origin = Some ks /\ k ∈ ks /\ extract_key k id = Some key.
Proof.
  revert s. induction ns as [|n ns IH]; intros s; cbn [from_notaries]; [done|]. unfold notary_request.
  assert (Hrec : forall s, from_notaries stores now ask_notary ns origin id s = (s', Ok key) ->
    exists notary ks k, notary ∈ n :: ns /\ ask_notary notary origin = Some ks /\ k ∈ ks /\ extract_key k id = Some key).
  { intros s1 (notary & ks & k & Hn & ?)%IH. exists notary, ks, k. split; [by apply list_elem_of_further|done]. }
  destruct (ask_notary n origin) as [ks|] eqn:Ea; cbn [ok_or]; [|apply Hrec].
  destruct (add_all _ _ ks s) as [s1 [[]|e]]; [|done].
  destruct (head _) as [key'|] eqn:Eh; [|apply Hrec]. intros [= <- <-].
  apply head_Some_elem_of, list_elem_of_omap in Eh as (k & Hk & He). exists n, ks, k. split_and!; [apply list_elem_of_here|done..].
Qed.

(** Where a key comes from: it was known, or the server itself answered it, for itself, or
    a trusted notary answered it when asked about the server. *)
Theorem verify_key_provenance origin id s s' key :
  get_verify_key cfg stores now ask_server ask_notary origin id s = (s', Ok key) ->
  verify_keys_for origin s !! id = Some key \/
  (exists k, ask_server origin = Some k /\ server_name k = origin /\ extract_key k id = Some key) \/
  (exists notary ks k, notary ∈ trusted_servers cfg /\ ask_notary notary origin = Some ks /\ k ∈ ks /\ extract_key k id = Some key).
Proof.
  unfold get_verify_key. destruct (verify_keys_for origin s !! id) as [key'|]; [intros [= <- <-]; by left|]. intros H. right.
  assert (Hn : forall s s', get_verify_key_from_notaries cfg stores now ask_notary origin id s = (s', Ok key) ->
    exists notary ks k, notary ∈ trusted_servers cfg /\ ask_notary notary origin = Some ks /\ k ∈ ks /\ extract_key k id = Some key)
    by (intros ? ?; apply from_notaries_sound).
  assert (Ho : forall s s', get_verify_key_from_origin stores now ask_server origin id s = (s', Ok key) ->
    exists k, ask_server origin = Some k /\ server_name k = origin /\ extract_key k id = Some key).
  { intros s1 s2. unfold get_verify_key_from_origin, server_request. destruct (ask_server origin) as [k|]; [|done].
    destruct (String.eqb_spec (server_name k) origin) as [He|]; [|done]. cbn [negb]. destruct (add k s1) as [? [[]|]]; [|done].
    intros [= <- Hk]. exists k. split_and!; [done..|]. by apply ok_or_ok in Hk. }
  unfold try_ in H. repeat (case_match; simplify_eq/=); eauto 10.
Qed.

(** ** A batch *)

(** Everything wanted is known or listed as missing. *)
Definition covered (want : string -> string -> Prop) (s : State) (missing : gmap string (list string)) : Prop :=
  forall server id, want server id -> verify_key_exists server id s = true \/ exists ids, missing !! server = Some ids /\ id ∈ ids.

Lemma locals_covered batch s :
  covered (fun server id => exists ids, (server, ids) ∈ batch /\ id ∈ ids) s (acquire_locals batch s).
Proof.
  unfold acquire_locals. generalize (∅ : gmap string (list string)) as m0.
  set (push := fun (server : string) (m : gmap string (list string)) (id : string) =>
    if verify_key_exists server id s then m else <[server := default [] (m !! server) ++ [id]]> m).
  assert (Hkeep1 : forall server id m sv ids x, m !! sv = Some ids -> x ∈ ids -> exists ids', push server m id !! sv = Some ids' /\ x ∈ ids').
  { intros server id m sv ids x Hm Hx. unfold push. destruct (verify_key_exists server id s); [by exists ids|].
    destruct (decide (sv = server)) as [->|Hne]; [|rewrite lookup_insert_ne by done; by exists ids].
    rewrite lookup_insert_eq, Hm. cbn. eexists. split; [done|]. apply elem_of_app. by left. }
  assert (Hkeep : forall server ids0 m sv ids x, m !! sv = Some ids -> x ∈ ids -> exists ids', foldl (push server) m ids0 !! sv = Some ids' /\ x ∈ ids').
  { intros server ids0. induction ids0 as [|i ids0 IH]; intros m sv ids x Hm Hx; cbn [foldl]; [by exists ids|].
    destruct (Hkeep1 server i m sv ids x Hm Hx) as (ids' & Hm' & Hx'). by eapply IH. }
  assert (Hadd : forall server ids0 m id, id ∈ ids0 -> verify_key_exists server id s = true \/ exists ids', foldl (push server) m ids0 !! server = Some ids' /\ id ∈ ids').
  { intros server ids0. induction ids0 as [|i ids0 IH]; intros m id Hin; [by apply not_elem_of_nil in Hin|]. cbn [foldl].
    apply elem_of_cons in Hin as [->|Hin]; [|by apply IH]. destruct (verify_key_exists server i s) eqn:Ev; [by left|right].
    apply (Hkeep server ids0 _ server (default [] (m !! server) ++ [i])); [|apply elem_of_app; right; apply list_elem_of_here].
    unfold push. by rewrite Ev, lookup_insert_eq. }
  assert (Hall : forall batch m sv ids x, m !! sv = Some ids -> x ∈ ids ->
    exists ids', foldl (fun m sk => foldl (push sk.1) m sk.2) m batch !! sv = Some ids' /\ x ∈ ids').
  { intros b. induction b as [|[sv0 ids0] b IH]; intros m sv ids x Hm Hx; cbn [foldl]; [by exists ids|].
    destruct (Hkeep sv0 ids0 m sv ids x Hm Hx) as (ids' & ? & ?). by eapply IH. }
  induction batch as [|[sv0 ids0] batch IH]; intros m0 server id (ids & Hb & Hid); [by apply not_elem_of_nil in Hb|].
  cbn [foldl fst snd]. apply elem_of_cons in Hb as [[= <- <-]|Hb]; [|apply IH; by exists ids].
  destruct (Hadd server ids m0 id Hid) as [|(ids' & Hm & Hx)]; [by left|right]. by eapply Hall.
Qed.

Lemma covered_known want s s' missing :
  (forall server id, verify_key_exists server id s = true -> verify_key_exists server id s' = true) ->
  covered want s missing -> covered want s' missing.
Proof. intros Hk Hc server id [?|?]%Hc; [left; auto|by right]. Qed.

Lemma elem_of_keep (p : string -> bool) ids x : x ∈ List.filter p ids <-> x ∈ ids /\ p x = true.
Proof. rewrite !list_elem_of_In. apply filter_In. Qed.

Lemma notary_result_covered want missing k s s' missing' :
  acquire_notary_result stores now missing k s = (s', missing') -> covered want s missing -> covered want s' missing'.
Proof.
  unfold acquire_notary_result. intros H Hc. pose proof (fun o i => add_keeps k s o i) as Hk.
  destruct (add k s) as [s1 [[]|e]] eqn:Ea; cbn [fst] in Hk; [|injection H as <- <-; by eapply covered_known].
  destruct (missing !! server_name k) as [ids|] eqn:Em; [|injection H as <- <-; by eapply covered_known].
  set (rest := List.filter (fun id => negb (key_exists k id)) ids) in *.
  assert (s' = s1 /\ missing' = match rest with [] => delete (server_name k) missing | _ => <[server_name k := rest]> missing end) as [-> ->]
    by (destruct rest; by injection H as <- <-).
  intros server id [Hv|(ids' & Hm & Hid)]%Hc; [left; auto|].
  destruct (decide (server = server_name k)) as [->|Hne].
  2: { right. exists ids'. split; [|done]. destruct rest; [by rewrite lookup_delete_ne|by rewrite lookup_insert_ne]. }
  rewrite Em in Hm. injection Hm as <-. destruct (key_exists k id) eqn:Ek; [left; by eapply add_known|].
  assert (id ∈ rest) as Hr by (apply elem_of_keep; by rewrite Ek).
  right. exists rest. split; [|done]. destruct rest; [by apply not_elem_of_nil in Hr|by rewrite lookup_insert_eq].
Qed.

Lemma notary_results_covered want ks missing s s' missing' :
  notary_results stores now missing ks s = (s', missing') -> covered want s missing -> covered want s' missing'.
Proof.
  revert missing s. induction ks as [|k ks IH]; intros missing s; cbn [notary_results]; [by intros [= <- <-]|].
  destruct (acquire_notary_result _ _ missing k s) as [s1 m1] eqn:E. intros H Hc. eapply IH; [done|]. by eapply notary_result_covered.
Qed.

Lemma notary_covered want ns missing s s' missing' :
  acquire_notary cfg stores now ask_batch ns missing s = (s', missing') -> covered want s missing -> covered want s' missing'.
Proof.
  revert missing s. induction ns as [|n ns IH]; intros missing s; cbn [acquire_notary]; [by intros [= <- <-]|].
  case_bool_decide; [by intros [= <- <-]|]. destruct (batch_notary_request _ _ _ _) as [ks|]; [|apply IH].
  destruct (notary_results _ _ missing ks s) as [s1 m1] eqn:E. intros H' Hc. eapply IH; [done|]. by eapply notary_results_covered.
Qed.

Lemma origin_covered origin ids s s' rest :
  acquire_origin stores now ask_server origin ids s = (s', rest) ->
  (forall o i, verify_key_exists o i s = true -> verify_key_exists o i s' = true) /\
  forall id, id ∈ ids -> verify_key_exists origin id s' = true \/ id ∈ rest.
Proof.
  unfold acquire_origin, server_request. destruct (ask_server origin) as [k|]; [|intros [= <- <-]; auto].
  destruct (String.eqb_spec (server_name k) origin) as [He|]; cbn [negb]; [|intros [= <- <-]; auto].
  pose proof (fun o i => add_keeps k s o i) as Hk. destruct (add k s) as [s1 [[]|e]] eqn:Ea; cbn [fst] in Hk; intros [= <- <-]; (split; [done|]); [|auto].
  intros id Hid. destruct (key_exists k id) eqn:Ek; [left; rewrite <-He; by eapply add_known|right]. apply elem_of_keep. by rewrite Ek.
Qed.

Lemma origins_covered batch s s' missing :
  acquire_origins stores now ask_server batch s = (s', missing) -> NoDup batch.*1 ->
  (forall o i, verify_key_exists o i s = true -> verify_key_exists o i s' = true) /\
  forall origin ids id, (origin, ids) ∈ batch -> id ∈ ids -> verify_key_exists origin id s' = true \/ exists ids', missing !! origin = Some ids' /\ id ∈ ids'.
Proof.
  revert s missing. induction batch as [|[o ids0] batch IH]; intros s missing; cbn [acquire_origins].
  { intros [= <- <-] _. split; [done|]. by intros ? ? ? ?%not_elem_of_nil. }
  destruct (acquire_origin _ _ _ o ids0 s) as [s1 rest] eqn:Eo. destruct (acquire_origins _ _ _ batch s1) as [s2 m2] eqn:Eb.
  intros [= <- <-] [Hnew Hd]%NoDup_cons. destruct (origin_covered _ _ _ _ _ Eo) as [K1 H1]. destruct (IH _ _ Eb Hd) as [K2 H2].
  split; [auto|]. intros origin ids id [[= -> ->]|Hin]%elem_of_cons Hid.
  - destruct (H1 _ Hid) as [|Hr]; [left; auto|right]. exists rest. split; [|done].
    destruct rest; [by apply not_elem_of_nil in Hr|apply lookup_insert_eq].
  - destruct (H2 _ _ _ Hin Hid) as [|(ids' & Hm & ?)]; [by left|right]. exists ids'. split; [|done].
    assert (origin <> o) by (intros ->; apply Hnew, list_elem_of_fmap; by exists (o, ids)).
    destruct rest; [done|by rewrite lookup_insert_ne].
Qed.

Lemma missing_in_order (m : gmap string (list string)) sv ids : (sv, ids) ∈ in_order m <-> m !! sv = Some ids.
Proof. unfold in_order. rewrite sort_by_key_perm, elem_of_map_to_list. done. Qed.

Lemma NoDup_in_order (m : gmap string (list string)) : NoDup (in_order m).*1.
Proof. unfold in_order. rewrite sort_by_key_perm. apply NoDup_fst_map_to_list. Qed.

Lemma origins_step_covered want missing s s' missing' :
  acquire_origins stores now ask_server (in_order missing) s = (s', missing') -> covered want s missing -> covered want s' missing'.
Proof.
  intros H Hc. destruct (origins_covered _ _ _ _ H (NoDup_in_order _)) as [Hk Ho].
  intros server id [Hv|(ids & Hm & Hid)]%Hc; [left; auto|]. eapply Ho; [by apply missing_in_order|done].
Qed.

(** Whatever servers and notaries answer and whichever writes fail, every key wanted of a
    batch is known afterwards or is among those reported missing; keys known before stay so. *)
Theorem acquire_complete batch s s' missing :
  acquire_pubkeys cfg stores now ask_server ask_batch batch s = (s', missing) ->
  forall server ids id, (server, ids) ∈ batch -> id ∈ ids ->
    verify_key_exists server id s' = true \/ exists left_, missing !! server = Some left_ /\ id ∈ left_.
Proof.
  intros H server ids id Hb Hid. pose proof (locals_covered batch s) as Hc. revert Hc.
  set (want := fun server id => exists ids, (server, ids) ∈ batch /\ id ∈ ids).
  intros Hc. enough (covered want s' missing) as Hm by (apply Hm; by exists ids). clear server ids id Hb Hid.
  assert (HN : forall s m s' m', covered want s m -> acquire_notary cfg stores now ask_batch (trusted_servers cfg) m s = (s', m') -> covered want s' m')
    by (intros ? ? ? ? ? ?; by eapply notary_covered).
  assert (HO : forall s m s' m', covered want s m -> acquire_origins stores now ask_server (in_order m) s = (s', m') -> covered want s' m')
    by (intros ? ? ? ? ? ?; by eapply origins_step_covered).
  unfold acquire_pubkeys in H. repeat (case_match; simplify_eq/=); eauto 10.
Qed.

(** ** Requests to a notary *)

(** With a batch size there is, the rounds end; they ask for every server once, the last
    servers first, at most so many at a time, and either answer all there is or fail with
    the round that failed. *)
Theorem rounds_split notary n fuel l :
  trusted_server_batch_size cfg = S n -> (length l <= fuel)%nat ->
  exists parts, concat (rev parts) = l /\ Forall (fun part => part <> [] /\ (length part <= S n)%nat) parts /\
    batch_rounds cfg ask_batch fuel notary l =
      match mapM (ask_batch notary) parts with Some answers => Ok (concat answers) | None => Err BadServerResponse end.
Proof.
  intros Hn. revert l. induction fuel as [|fuel IH]; intros l Hl.
  { destruct l; [|cbn in Hl; lia]. exists []. by split_and!. }
  destruct l as [|x l']; [exists []; by split_and!|]. set (l := x :: l') in *.
  assert (Hne : (length l <> 0)%nat) by (subst l; cbn; lia). cbn [batch_rounds]. rewrite Hn.
  replace (match l with [] => Ok [] | _ :: _ => _ end) with
    (let '(rest, batch) := split_off (S n) l in
     match ask_batch notary batch with
     | None => Err BadServerResponse
     | Some answers => results ← batch_rounds cfg ask_batch fuel notary rest; Ok (answers ++ results)
     end) by done.
  unfold split_off. set (k := (length l - S n)%nat).
  destruct (IH (take k l)) as (parts & Hc & Hp & Hr); [rewrite length_take; lia|].
  exists (drop k l :: parts). split_and!.
  - cbn [rev]. rewrite concat_app, Hc. cbn [concat]. by rewrite app_nil_r, take_drop.
  - constructor; [|done]. split; [|rewrite length_drop; lia].
    intros He%(f_equal length). rewrite length_drop in He. cbn in He. lia.
  - rewrite Hr. cbn [mapM]. destruct (ask_batch notary (drop k l)); cbn; [|done]. by destruct (mapM _ parts).
Qed.

(** Without one nothing is asked, and nothing found. *)
Lemma no_batch_size notary l : trusted_server_batch_size cfg = 0%nat -> batch_notary_request cfg ask_batch notary l = Ok [].
Proof. intros H. unfold batch_notary_request. destruct l; cbn; by rewrite ?H. Qed.

(** ** Verification without a fetch *)

Lemma known_key origin id s : verify_key_exists origin id s = true ->
  exists key, verify_keys_for origin s !! id = Some key /\ get_verify_key cfg stores now ask_server ask_notary origin id s = (s, Ok key).
Proof. intros [key Hk]%verify_keys_for_exists. exists key. split; [done|]. unfold get_verify_key. by rewrite Hk. Qed.

(** The keys read, where all are known. *)
Definition known_for (origin : string) (key_ids : list string) (keys : gmap string string) (s : State) : gmap string string :=
  foldl (fun keys id => match verify_keys_for origin s !! id with Some key => <[id := key]> keys | None => keys end) keys key_ids.

Lemma known_pubkeys_for origin ids keys s : forallb (fun id => verify_key_exists origin id s) ids = true ->
  get_pubkeys_for cfg stores now ask_server ask_notary origin ids keys s = (s, known_for origin ids keys s).
Proof.
  revert keys. induction ids as [|id ids IH]; intros keys; [done|]. cbn [forallb]. intros [Hid Hids]%andb_prop.
  destruct (known_key _ _ _ Hid) as (key & Hk & Hg). cbn [get_pubkeys_for known_for foldl]. rewrite Hg, IH by done.
  unfold known_for. by rewrite Hk.
Qed.

Lemma known_pubkeys batch keys s :
  forallb (fun sk : string * list string => forallb (fun id => verify_key_exists sk.1 id s) sk.2) batch = true ->
  get_pubkeys cfg stores now ask_server ask_notary batch keys s =
    (s, foldl (fun keys (sk : string * list string) => <[sk.1 := known_for sk.1 sk.2 ∅ s]> keys) keys batch).
Proof.
  revert keys. induction batch as [|[o ids] batch IH]; intros keys; [done|]. cbn [forallb fst snd]. intros [Ho Hb]%andb_prop.
  cbn [get_pubkeys foldl fst snd]. rewrite known_pubkeys_for by done. by apply IH.
Qed.

End Facts.

(** An event taken without a fetch is judged on the keys stored alone: nothing is asked or
    stored, and what the network would answer does not matter. *)
Theorem no_fetch_local {Event Version : Type} (signatures : Event -> option (gmap string (list string)))
    (required_servers : Version -> Event -> option (list string)) valid_id supported ruma_verify
    cfg stores now ask_server ask_notary (v : Version) (object : Event) s :
  validate_no_fetch cfg stores now ask_server ask_notary signatures required_servers valid_id supported ruma_verify v object s =
  (s, match required_keys signatures required_servers valid_id v object with
      | Ok required =>
          if supported v && forallb (fun sk : string * list string => forallb (fun id => verify_key_exists sk.1 id s) sk.2) required
          then ok_or (ruma_verify v (foldl (fun keys (sk : string * list string) => <[sk.1 := known_for sk.1 sk.2 ∅ s]> keys) ∅ required) object) BadServerResponse
          else Err BadServerResponse
      | Err _ => Err BadServerResponse
      end).
Proof.
  unfold validate_no_fetch, required_keys_exist, verify_event, get_event_keys.
  destruct (supported v); cbn [negb andb]; [|by destruct (required_keys _ _ _ v object)].
  destruct (required_keys _ _ _ v object) as [required|e] eqn:Er; cbn [negb]; [|done].
  destruct (forallb _ required) eqn:Ef; cbn [negb]; [|done].
  rewrite known_pubkeys by done. cbn. by destruct (ruma_verify _ _ _).
Qed.

(** ** Two things the code lets through *)

Section Sample.
Let cfg := mkConfig true false false ["notary"] 1.
Let s0 := mkState ∅ "here" ∅.
Let forged := mkKeys "elsewhere" {["ed25519:1" := "another key"]} ∅ 0.

(** A notary's answer about one server is taken as the key of another: only the answer of
    a server about itself is compared with the server asked for. *)
Theorem notary_names_another :
  ((get_verify_key cfg (fun _ => true) 0 (fun _ => None) (fun _ _ => Some [forged]) "origin" "ed25519:1" s0).2 = Ok "another key") /\
  (verify_key_exists "origin" "ed25519:1" (get_verify_key cfg (fun _ => true) 0 (fun _ => None) (fun _ _ => Some [forged]) "origin" "ed25519:1" s0).1 = false) /\
  server_request (fun _ => Some forged) "origin" = Err BadServerResponse.
Proof. by vm_compute. Qed.

Let both := mkKeys "origin" {["ed25519:1" := "new"]} {["ed25519:1" := (0%Z, "old")]} 0.

(** Of a key id that is both in use and retired, a first request gets the key in use and
    every later one, from the store, the retired one. *)
Theorem retired_key_wins :
  let r := get_verify_key cfg (fun _ => true) 0 (fun _ => Some both) (fun _ _ => None) "origin" "ed25519:1" s0 in
  r.2 = Ok "new" /\ (get_verify_key cfg (fun _ => true) 0 (fun _ => None) (fun _ _ => None) "origin" "ed25519:1" r.1).2 = Ok "old".
Proof. by vm_compute. Qed.

End Sample.
End ServerKeysFacts.
