(* ===== verification/Spaces.v ===== *)
(** The hierarchy of a space, [phantom-service/src/rooms/spaces]: the summaries of rooms, held
    or asked of other servers, who may see them, the answer to another server
    ([federation_hierarchy]) and the walk that answers a client page by page
    ([hierarchy.rs], [token.rs]), with both endpoints.

    Room and server names are text. The state of held rooms, memberships, what other servers
    answer and how [ruma] orders and decodes children are arguments; so is the number
    of a room ([Short.v]). An LRU cache may drop anything when a summary is put there. *)
From S2P Require Import Prelude Order.

Module Spaces.

(** ** Summaries *)

Inductive JoinRuleSummary :=
  | Public | Knock | Invite | Private
  | Restricted (allowed_room_ids : list string)
  | KnockRestricted (allowed_room_ids : list string)
  | Custom (rule : string).

(** What the service reads of a [RoomSummary]. *)
Record RoomSummary := mkSummary {
  room_id : string;
  world_readable : bool;
  join_rule : JoinRuleSummary
}.

(** What it reads of a [HierarchySpaceChildEvent]. *)
Record ChildEvent := mkChild {
  state_key : string;
  via : list string;
  suggested : bool
}.

Inductive Asker := User (user_id : string) | Server (server : string).

Inductive error := InvalidParam | Forbidden | NotFound | Diverges.

(** Children in the order of a space: a room and the servers that know it. *)
Abbreviation Children := (list (string * list string)).

Record PaginationToken := mkToken {
  path : list Z;
  limit : Z;
  max_depth : Z;
  suggested_only : bool
}.

Definition same_parameters (a b : PaginationToken) : bool :=
  (limit a =? limit b) && (max_depth a =? max_depth b) && eqb (suggested_only a) (suggested_only b).

(** A room as it is listed; events are kept as they were received. *)
Record Chunk {Raw : Type} := mkChunk {
  summary_of : RoomSummary;
  children_of_room : list Raw
}.
Arguments Chunk : clear implicits.
Arguments mkChunk {Raw}.

(** Summaries of other servers' rooms, by room and whether only suggested children count. *)
Abbreviation Cache := (fun Raw => gmap (string * bool) (Chunk Raw)).

(** What the service uses of other components. *)
Record World (Raw K : Type) := mkWorld {
  (** [ruma]: decoding a child and the key [cmp_space_child] compares; the server of a room's id *)
  deserialize : Raw -> option ChildEvent;
  child_key : ChildEvent -> K;
  server_name : string -> option string;
  (** [state_cache]: memberships *)
  is_joined : string -> string -> bool;
  is_invited : string -> string -> bool;
  server_in_room : string -> string -> bool;
  (** [metadata], [state_accessor], [timeline]: rooms held, their summaries and children *)
  room_exists : string -> bool;
  room_summary : string -> RoomSummary;
  space_children : string -> option (list string);
  get_pdu : string -> option Raw;
  (** [server_state], [moderation], [federation] *)
  server_is_ours : string -> bool;
  forbids : string -> bool;
  execute : string -> string -> bool -> option (Chunk Raw);
  (** [short]: the number of a room; the cache; a token as text, JSON in base64 *)
  get_or_create_shortroomid : string -> Z;
  evict : Cache Raw -> Cache Raw;
  to_string : PaginationToken -> string;
  decode : string -> option PaginationToken
}.
Arguments deserialize {Raw K}.
Arguments child_key {Raw K}.
Arguments server_name {Raw K}.
Arguments is_joined {Raw K}.
Arguments is_invited {Raw K}.
Arguments server_in_room {Raw K}.
Arguments room_exists {Raw K}.
Arguments room_summary {Raw K}.
Arguments space_children {Raw K}.
Arguments get_pdu {Raw K}.
Arguments server_is_ours {Raw K}.
Arguments forbids {Raw K}.
Arguments execute {Raw K}.
Arguments get_or_create_shortroomid {Raw K}.
Arguments evict {Raw K}.
Arguments to_string {Raw K}.
Arguments decode {Raw K}.

Section Service.
Context {Raw K : Type} `{OrdLaws K} (W : World Raw K).
Abbreviation Chunk := (Chunk Raw).
Abbreviation Cache := (Cache Raw).

Inductive SummaryAccessibility := Accessible (chunk : Chunk) | Inaccessible.

Definition is_in_room (room : string) (asker : Asker) : bool :=
  match asker with
  | User user_id => is_joined W user_id room || is_invited W user_id room
  | Server server => server_in_room W server room
  end.

Definition accessible_to (room : string) (summary : RoomSummary) (asker : Asker) : bool :=
  if is_in_room room asker then true
  else if world_readable summary then true
  else match join_rule summary with
       | Public | Knock => true
       | Restricted allowed => existsb (fun allowed => is_in_room allowed asker) allowed
       | KnockRestricted allowed => existsb (fun allowed => is_in_room allowed asker) allowed || true
       | _ => false
       end.

Definition accessibility (room : string) (summary : Chunk) (asker : Asker) : SummaryAccessibility :=
  if accessible_to room (summary_of summary) asker then Accessible summary else Inaccessible.

Definition children_of (summary : Chunk) (suggested_only : bool) : Children :=
  (fun child => (state_key child, via child)) <$>
    List.filter (fun child => negb suggested_only || suggested child) (omap (deserialize W) (children_of_room summary)).

(** ** Held rooms *)

Definition children_state (room : string) : list Raw :=
  match space_children W room with
  | None => []
  | Some event_ids =>
      let children := omap (fun raw =>
        event ← deserialize W raw;
        match via event with [] => None | _ => Some (event, raw) end) (omap (get_pdu W) event_ids) in
      snd <$> sort_by_key (fun child => child_key W child.1) children
  end.

Definition local_summary (room : string) : Chunk := mkChunk (room_summary W room) (children_state room).

Definition held_summary (room : string) (asker : Asker) : option SummaryAccessibility :=
  if negb (room_exists W room) then None else Some (accessibility room (local_summary room) asker).

(** ** Rooms of other servers *)

Definition forget (room : string) (cache : Cache) : Cache := delete (room, false) (delete (room, true) cache).
Definition clear_cache (cache : Cache) : Cache := ∅.
Definition cached (room : string) (suggested_only : bool) (cache : Cache) : option Chunk := cache !! (room, suggested_only).
Definition cache_summary (room : string) (suggested_only : bool) (summary : Chunk) (cache : Cache) : Cache :=
  evict W (<[(room, suggested_only) := summary]> cache).

Definition candidates (room : string) (via : list string) : list string :=
  foldl (fun servers server => if bool_decide (server ∈ servers) then servers else servers ++ [server]) []
    (List.filter (fun server => negb (server_is_ours W server)) (via ++ option_list (server_name W room))).

Fixpoint ask (servers : list string) (room : string) (suggested_only : bool) (cache : Cache) : Cache * option Chunk :=
  match servers with
  | [] => (cache, None)
  | server :: servers =>
      if forbids W server then ask servers room suggested_only cache
      else match execute W server room suggested_only with
           | None => ask servers room suggested_only cache
           | Some chunk => (cache_summary room suggested_only chunk cache, Some chunk)
           end
  end.

Definition remote_summary (room : string) (via : list string) (suggested_only : bool) (cache : Cache) : Cache * option Chunk :=
  match cached room suggested_only cache with
  | Some chunk => (cache, Some chunk)
  | None => ask (candidates room via) room suggested_only cache
  end.

Definition summary (room : string) (asker : Asker) (via : list string) (suggested_only : bool) (cache : Cache) :
    Cache * option SummaryAccessibility :=
  if room_exists W room then (cache, Some (accessibility room (local_summary room) asker))
  else let '(cache, summary) := remote_summary room via suggested_only cache in
       (cache, (fun summary => accessibility room summary asker) <$> summary).

(** ** The answer to a server *)

Record Response := mkResponse {
  parent : Chunk;
  children : list RoomSummary;
  inaccessible_children : list string
}.

Fixpoint held_children (cs : Children) (asker : Asker) : list RoomSummary * list string :=
  match cs with
  | [] => ([], [])
  | (child, _) :: cs =>
      let '(children, inaccessible) := held_children cs asker in
      match held_summary child asker with
      | Some (Accessible chunk) => (summary_of chunk :: children, inaccessible)
      | Some Inaccessible => (children, child :: inaccessible)
      | None => (children, inaccessible)
      end
  end.

Definition federation_hierarchy (room server : string) (suggested_only : bool) : result error Response :=
  match held_summary room (Server server) with
  | Some (Accessible parent) =>
      let '(children, inaccessible) := held_children (children_of parent suggested_only) (Server server) in
      Ok (mkResponse parent children inaccessible)
  | _ => Err NotFound
  end.

(** [server/directory/hierarchy.rs] *)
Definition federation_route (room origin : string) (suggested_only : bool) : result error Response :=
  if negb (room_exists W room) then Err NotFound else federation_hierarchy room origin suggested_only.

(** ** The walk *)

Record Visit := mkVisit {
  short : Z;
  todo : Children
}.

(** The stack has its top first. *)
Fixpoint next_child (stack : list Visit) : option (string * list string * list Visit) :=
  match stack with
  | [] => None
  | visit :: stack =>
      match todo visit with
      | child :: todo => Some (child, mkVisit (short visit) todo :: stack)
      | [] => next_child stack
      end
  end.

Record Walk := mkWalk {
  emitting : bool;
  visited : gset Z;
  stack : list Visit;
  rooms : list Chunk
}.

Record PagedHierarchy := mkPage {
  page_rooms : list Chunk;
  next_batch : option string
}.

Section Walk.
Context (asker : Asker) (parameters : PaginationToken) (target : option (list Z)).

(** The second half of the loop; [Some path] leaves it. *)
Definition enter (k : Z) (summary : Chunk) (above : list Z) (w : Walk) : Walk * option (list Z) :=
  let path := above ++ [k] in
  let emitting := emitting w || bool_decide (target = Some path) in
  if emitting && (limit parameters <=? Z.of_nat (length (rooms w))) then (w, Some path)
  else
    let rooms := if emitting then rooms w ++ [summary] else rooms w in
    let stack :=
      if Z.of_nat (length (stack w)) <? max_depth parameters
      then mkVisit k (children_of summary (suggested_only parameters)) :: stack w else stack w in
    (mkWalk emitting (visited w) stack rooms, None).

Definition next_token (path : list Z) : PaginationToken :=
  mkToken path (limit parameters) (max_depth parameters) (suggested_only parameters).

Fixpoint walk (fuel : nat) (cache : Cache) (w : Walk) : Cache * result error PagedHierarchy :=
  match fuel with
  | 0%nat => (cache, Err Diverges)
  | S fuel =>
      match next_child (stack w) with
      | None => (cache, Ok (mkPage (rooms w) None))
      | Some ((room, via), stack) =>
          let k := get_or_create_shortroomid W room in
          if decide (k ∈ visited w) then walk fuel cache (mkWalk (emitting w) (visited w) stack (rooms w))
          else
            let w := mkWalk (emitting w) ({[k]} ∪ visited w) stack (rooms w) in
            match summary room asker via (suggested_only parameters) cache with
            | (cache, Some (Accessible chunk)) =>
                match enter k chunk (rev (short <$> stack)) w with
                | (w, Some path) => (cache, Ok (mkPage (rooms w) (Some (to_string W (next_token path)))))
                | (w, None) => walk fuel cache w
                end
            | (cache, _) => walk fuel cache w
            end
      end
  end.

End Walk.

Definition client_hierarchy (fuel : nat) (asker : Asker) (room : string) (limit max_depth : Z) (suggested_only : bool)
    (from : option string) (cache : Cache) : Cache * result error PagedHierarchy :=
  match (match from with None => Ok None | Some token => Some <$> ok_or (decode W token) InvalidParam end) with
  | Err e => (cache, Err e)
  | Ok resume =>
      let parameters := mkToken [] limit max_depth suggested_only in
      if (match resume with Some resume => negb (same_parameters resume parameters) | None => false end) then (cache, Err InvalidParam)
      else
        let target := path <$> resume in
        match summary room asker (option_list (server_name W room)) suggested_only cache with
        | (cache, None) => (cache, Err NotFound)
        | (cache, Some Inaccessible) => (cache, Err Forbidden)
        | (cache, Some (Accessible root)) =>
            let k := get_or_create_shortroomid W room in
            match enter parameters target k root [] (mkWalk (bool_decide (target = None)) {[k]} [] []) with
            | (w, Some path) => (cache, Ok (mkPage (rooms w) (Some (to_string W (next_token parameters path)))))
            | (w, None) => walk asker parameters target fuel cache w
            end
        end
  end.

(** [client/rooms/space.rs] *)
Definition client_route (fuel : nat) (user room : string) (limit max_depth : option Z) (suggested_only : bool)
    (from : option string) (cache : Cache) : Cache * result error PagedHierarchy :=
  client_hierarchy fuel (User user) room (Z.min (default 10 limit) 100) (Z.min (default 3 max_depth) 10) suggested_only from cache.

End Service.
End Spaces.
