(* ===== verification/SpacesFacts.v ===== *)
(** What the hierarchy of a space shows (Spaces.v): the walk with its stack is the recursive
    preorder of the rooms, cut at the depth asked for, each room once; a page is exactly the
    part of it that its token and limit say, so that following the tokens gives all of it;
    and what is looked at on the way is visible to who asks. *)
From S2P Require Import Prelude Order Spaces.

Module SpacesFacts.
Import Spaces.

Section Facts.
Context {Raw K : Type} `{OrdLaws K} (W : World Raw K).
Abbreviation Cache := (gmap (string * bool) (Chunk Raw)).

(** ** Summaries *)

(** Who may see a room. *)
Lemma accessible_to_iff room s asker : accessible_to W room s asker = true <->
  is_in_room W room asker = true \/ world_readable s = true \/
  match join_rule s with
  | Public | Knock | KnockRestricted _ => True
  | Restricted allowed => exists r, r ∈ allowed /\ is_in_room W r asker = true
  | _ => False
  end.
Proof.
  unfold accessible_to. destruct (is_in_room W room asker); [tauto|]. destruct (world_readable s); [tauto|].
  destruct (join_rule s) as [| | | |l|l|]; rewrite ?orb_true_r; try (split; [tauto|intros [|[|]]; done]).
  rewrite existsb_exists. split.
  - intros (r & ? & ?). right; right. exists r. by rewrite list_elem_of_In.
  - intros [|[|(r & Hr & ?)]]; [done..|]. exists r. by rewrite <-list_elem_of_In.
Qed.

(** The servers asked about a room: those named and the room's own, never this one, each once. *)
Lemma candidates_spec room via :
  NoDup (candidates W room via) /\
  forall sv, sv ∈ candidates W room via <-> (sv ∈ via \/ server_name W room = Some sv) /\ server_is_ours W sv = false.
Proof.
  unfold candidates. set (l := List.filter _ _).
  assert (Hl : forall sv, sv ∈ l <-> (sv ∈ via \/ server_name W room = Some sv) /\ server_is_ours W sv = false).
  { intros sv. unfold l. rewrite list_elem_of_In, filter_In, <-list_elem_of_In, elem_of_app, negb_true_iff.
    destruct (server_name W room); cbn; rewrite ?elem_of_nil, ?list_elem_of_singleton; naive_solver. }
  enough (forall acc, NoDup acc -> NoDup (foldl (fun ss s => if bool_decide (s ∈ ss) then ss else ss ++ [s]) acc l) /\
    forall sv, sv ∈ foldl (fun ss s => if bool_decide (s ∈ ss) then ss else ss ++ [s]) acc l <-> sv ∈ acc \/ sv ∈ l) as Hf.
  { destruct (Hf [] (NoDup_nil_2)) as [? Hm]. split; [done|]. intros sv. rewrite Hm, elem_of_nil, Hl. tauto. }
  clear Hl. induction l as [|x l IH]; intros acc Hacc; cbn [foldl].
  { split; [done|]. intros sv. rewrite elem_of_nil. tauto. }
  case_bool_decide as Hx; [destruct (IH acc Hacc) as [? Hm]|destruct (IH (acc ++ [x])) as [? Hm]].
  - split; [done|]. intros sv. rewrite Hm, elem_of_cons. naive_solver.
  - apply NoDup_app. split_and!; [done| |apply NoDup_singleton]. intros y Hy ->%list_elem_of_singleton. done.
  - split; [done|]. intros sv. rewrite Hm, elem_of_app, list_elem_of_singleton, elem_of_cons. tauto.
Qed.

(** The first answer among servers that may be asked. *)
Definition first_answer (servers : list string) (room : string) (suggested_only : bool) : option (Chunk Raw) :=
  head (omap (fun sv => if forbids W sv then None else execute W sv room suggested_only) servers).

Lemma ask_first servers room so cache :
  (ask W servers room so cache).2 = first_answer servers room so /\
  (ask W servers room so cache).1 = match first_answer servers room so with Some c => cache_summary W room so c cache | None => cache end.
Proof.
  unfold first_answer. induction servers as [|sv servers IH]; [done|]. cbn [ask omap list_omap].
  destruct (forbids W sv); [done|]. by destruct (execute W sv room so).
Qed.

(** ** What a walk may rely on *)

(** Within a walk, and from one page to the next, a room has one summary. *)
Class Stable (asker : Asker) (suggested_only : bool) (sm : string -> list string -> option SummaryAccessibility) (inv : Cache -> Prop) :=
  summary_stable room via cache : inv cache ->
    exists cache', summary W room asker via suggested_only cache = (cache', sm room via) /\ inv cache'.

(** So it is where every room is held. *)
Lemma held_stable asker so : (forall room, room_exists W room = true) ->
  Stable asker so (fun room _ => Some (accessibility W room (local_summary W room) asker)) (fun _ => True).
Proof. intros He room via cache _. exists cache. unfold summary. by rewrite He. Qed.

(** And where the servers that may be asked about a room agree, whatever the cache drops. *)
Lemma agreed_stable asker so (truth : string -> option (Chunk Raw)) `{!Evicts (evict W)} :
  (forall room via, first_answer (candidates W room via) room so = truth room) ->
  Stable asker so
    (fun room _ => if room_exists W room then Some (accessibility W room (local_summary W room) asker)
                   else (fun c => accessibility W room c asker) <$> truth room)
    (fun cache => forall room c, cache !! (room, so) = Some c -> truth room = Some c).
Proof.
  intros Ht room via cache Hc. unfold summary. destruct (room_exists W room); [by exists cache|].
  unfold remote_summary, cached. destruct (cache !! (room, so)) as [c|] eqn:Ec.
  { exists cache. by rewrite (Hc _ _ Ec). }
  destruct (ask_first (candidates W room via) room so cache) as [H2 H1].
  destruct (ask _ _ _ _ _) as [cache' r] eqn:Ea. cbn [fst snd] in *. subst r. rewrite Ht in *. exists cache'. split; [done|].
  rewrite H1. destruct (truth room) as [c|] eqn:Er; [|done].
  intros room' c' [[[= <-] <-]|Hin]%evict_insert_Some; eauto.
Qed.

(** ** The walk is a preorder *)

Section Walk.
Context (asker : Asker) (so : bool) (sm : string -> list string -> option (@SummaryAccessibility Raw)) (inv : Cache -> Prop).
Context {Hstable : Stable asker so sm inv}.
Abbreviation num := (get_or_create_shortroomid W).

(** Rooms not seen yet below [above], [d] levels of spaces more, each with its path. *)
Fixpoint below (d : nat) : gset Z -> list Z -> list (string * list string) -> gset Z * list (list Z * Chunk Raw) :=
  fix go (seen : gset Z) (above : list Z) (cs : list (string * list string)) :=
    match cs with
    | [] => (seen, [])
    | (room, via) :: cs =>
        if decide (num room ∈ seen) then go seen above cs
        else
          let seen := {[num room]} ∪ seen in
          match sm room via with
          | Some (Accessible chunk) =>
              let '(seen, sub) := match d with 0%nat => (seen, []) | S d => below d seen (above ++ [num room]) (children_of W chunk so) end in
              let '(seen, rest) := go seen above cs in
              (seen, (above ++ [num room], chunk) :: sub ++ rest)
          | _ => go seen above cs
          end
    end.

Lemma below_nil d seen above : below d seen above [] = (seen, []).
Proof. by destruct d. Qed.

Lemma below_cons d seen above room via cs :
  below d seen above ((room, via) :: cs) =
  (if decide (num room ∈ seen) then below d seen above cs
   else
     match sm room via with
     | Some (Accessible chunk) =>
         let '(seen1, sub) := match d with 0%nat => ({[num room]} ∪ seen, []) | S d => below d ({[num room]} ∪ seen) (above ++ [num room]) (children_of W chunk so) end in
         let '(seen2, rest) := below d seen1 above cs in
         (seen2, (above ++ [num room], chunk) :: sub ++ rest)
     | _ => below d ({[num room]} ∪ seen) above cs
     end).
Proof. by destruct d. Qed.

(** The whole of it. *)
Definition hierarchy (max_depth : Z) (room : string) (root : Chunk Raw) : list (list Z * Chunk Raw) :=
  ([num room], root) ::
    match Z.to_nat max_depth with
    | 0%nat => []
    | S d => (below d {[num room]} [num room] (children_of W root so)).2
    end.

(** A page of a list of rooms: what is gathered until it is full. *)
Section Page.
Context (target : option (list Z)) (limit : Z).

Fixpoint gather (emitting : bool) (rooms : list (Chunk Raw)) (l : list (list Z * Chunk Raw)) :
    (bool * list (Chunk Raw)) + (list (Chunk Raw) * list Z) :=
  match l with
  | [] => inl (emitting, rooms)
  | (path, chunk) :: l =>
      let emitting := emitting || bool_decide (target = Some path) in
      if emitting && (limit <=? Z.of_nat (length rooms)) then inr (rooms, path)
      else gather emitting (if emitting then rooms ++ [chunk] else rooms) l
  end.

Lemma gather_app e rs l k :
  gather e rs (l ++ k) = match gather e rs l with inl (e, rs) => gather e rs k | inr r => inr r end.
Proof.
  revert e rs. induction l as [|[path chunk] l IH]; intros e rs; [done|]. cbn [app gather].
  destruct (_ && _); [done|]. apply IH.
Qed.

Context (max_depth : Z).
Abbreviation parameters := (mkToken [] limit max_depth so).
Abbreviation go := (walk W asker parameters target).

(** What the walk answers where gathering stops. *)
Definition stopped (r : list (Chunk Raw) * list Z) : result error (@PagedHierarchy Raw) :=
  Ok (mkPage r.1 (Some (to_string W (next_token parameters r.2)))).

(** A space that has no child left is as good as none. *)
Lemma walk_exhausted fuel cache e seen k stk rs :
  go fuel cache (mkWalk e seen (mkVisit k [] :: stk) rs) = go fuel cache (mkWalk e seen stk rs).
Proof. by destruct fuel. Qed.

Lemma walk_seen fuel cache e seen k room via cs stk rs : num room ∈ seen ->
  go (S fuel) cache (mkWalk e seen (mkVisit k ((room, via) :: cs) :: stk) rs) = go fuel cache (mkWalk e seen (mkVisit k cs :: stk) rs).
Proof. intros Hin. cbn [walk next_child stack todo short]. cbn [visited]. by rewrite decide_True. Qed.

Lemma walk_hidden fuel cache cache1 e seen k room via cs stk rs : num room ∉ seen ->
  summary W room asker via so cache = (cache1, sm room via) -> match sm room via with Some (Accessible _) => False | _ => True end ->
  go (S fuel) cache (mkWalk e seen (mkVisit k ((room, via) :: cs) :: stk) rs) =
  go fuel cache1 (mkWalk e ({[num room]} ∪ seen) (mkVisit k cs :: stk) rs).
Proof.
  intros Hnew Hs Hno. cbn [walk next_child stack todo short]. cbn [visited]. rewrite decide_False by done.
  cbn [suggested_only]. rewrite Hs. by destruct (sm room via) as [[]|].
Qed.

(** The stack once a room is shown, [d] levels from the last. *)
Definition pushed (d : nat) (k : Z) (chunk : Chunk Raw) (stk : list Visit) : list Visit :=
  match d with 0%nat => stk | S _ => mkVisit k (children_of W chunk so) :: stk end.

Lemma walk_shown d fuel cache cache1 e seen k room via cs stk rs chunk : num room ∉ seen ->
  summary W room asker via so cache = (cache1, Some (Accessible chunk)) -> Z.of_nat d = max_depth - Z.of_nat (length stk) - 1 ->
  go (S fuel) cache (mkWalk e seen (mkVisit k ((room, via) :: cs) :: stk) rs) =
  let path := rev (k :: (short <$> stk)) ++ [num room] in
  let e1 := e || bool_decide (target = Some path) in
  if e1 && (limit <=? Z.of_nat (length rs)) then (cache1, stopped (rs, path))
  else go fuel cache1 (mkWalk e1 ({[num room]} ∪ seen) (pushed d (num room) chunk (mkVisit k cs :: stk)) (if e1 then rs ++ [chunk] else rs)).
Proof.
  intros Hnew Hs Hd. cbn [walk next_child stack todo short]. cbn [visited]. rewrite decide_False by done.
  cbn [suggested_only]. rewrite Hs. unfold enter. cbn [emitting Spaces.limit Spaces.max_depth Spaces.rooms stack visited].
  change (rev (short <$> mkVisit k cs :: stk)) with (rev (k :: (short <$> stk))). cbv zeta. destruct (_ && _); [done|].
  do 2 f_equal. unfold pushed. cbn [length]. destruct d; [rewrite (proj2 (Z.ltb_ge _ _)) by lia|rewrite (proj2 (Z.ltb_lt _ _)) by lia]; done.
Qed.

(** The walk through the children left of a space. *)
Definition walks (cache : Cache) (w : Walk) (l : list (list Z * Chunk Raw)) (seen' : gset Z) (stk' : list Visit) : Prop :=
  exists n cache', inv cache' /\ forall fuel, go (n + fuel) cache w =
    match gather (emitting w) (rooms w) l with
    | inl (e', rs') => go fuel cache' (mkWalk e' seen' stk' rs')
    | inr r => (cache', stopped r)
    end.

Lemma walk_below d : forall cs k stk e seen rs cache,
  inv cache -> Z.of_nat d = max_depth - Z.of_nat (length stk) - 1 ->
  let '(seen', l) := below d seen (rev (k :: (short <$> stk))) cs in
  walks cache (mkWalk e seen (mkVisit k cs :: stk) rs) l seen' (mkVisit k [] :: stk).
Proof.
  induction d as [d IHd] using lt_wf_ind. intros cs. induction cs as [|[room via] cs IHcs]; intros k stk e seen rs cache Hc Hd.
  { rewrite below_nil. exists 0%nat, cache. by split. }
  rewrite below_cons. destruct (decide (num room ∈ seen)) as [Hin|Hnew].
  { specialize (IHcs k stk e seen rs cache Hc Hd). destruct (below d seen _ cs) as [seen' l].
    destruct IHcs as (n & cache' & Hc' & Hw). exists (S n), cache'. split; [done|]. intros fuel. cbn [Nat.add]. rewrite walk_seen by done. apply Hw. }
  destruct (Hstable room via cache Hc) as (cache1 & Hs & Hc1). destruct (sm room via) as [[chunk|]|] eqn:Esm.
  2,3: specialize (IHcs k stk e ({[num room]} ∪ seen) rs cache1 Hc1 Hd); destruct (below d _ _ cs) as [seen' l];
    destruct IHcs as (n & cache' & Hc' & Hw); exists (S n), cache'; split; [done|]; intros fuel; cbn [Nat.add];
    rewrite (walk_hidden _ _ cache1) by (by rewrite ?Esm); apply Hw.
  pose proof (fun fuel => walk_shown d fuel cache cache1 e seen k room via cs stk rs chunk Hnew Hs Hd) as Hstep. cbv zeta in Hstep.
  set (above := rev (k :: (short <$> stk))) in *. set (e1 := e || _) in *. set (rs1 := if e1 then _ else _) in *.
  set (sub0 := match d with 0%nat => _ | S d => _ end).
  assert (Hsub : walks cache1 (mkWalk e1 ({[num room]} ∪ seen) (pushed d (num room) chunk (mkVisit k cs :: stk)) rs1) sub0.2 sub0.1 (mkVisit k cs :: stk)).
  { subst sub0. destruct d as [|d]; [exists 0%nat, cache1; by split|].
    specialize (IHd d ltac:(lia) (children_of W chunk so) (num room) (mkVisit k cs :: stk) e1 ({[num room]} ∪ seen) rs1 cache1 Hc1 ltac:(cbn; lia)).
    change (rev (num room :: (short <$> mkVisit k cs :: stk))) with (above ++ [num room]) in IHd.
    destruct (below d _ (above ++ [num room]) _) as [seen1 sub]. destruct IHd as (n & cache2 & Hc2 & Hw). exists n, cache2. split; [done|].
    intros fuel. rewrite Hw. cbn [fst snd]. destruct (gather _ _ sub) as [[e' rs']|]; [|done]. apply walk_exhausted. }
  clearbody sub0. destruct sub0 as [seen1 sub]. destruct Hsub as (n1 & cache2 & Hc2 & Hw1). cbn [fst snd emitting Spaces.rooms] in Hw1.
  pose proof (fun e' rs' => IHcs k stk e' seen1 rs' cache2 Hc2 Hd) as Hrest. fold above in Hrest.
  destruct (below d seen1 above cs) as [seen2 rest]. unfold walks. cbn [gather emitting Spaces.rooms]. fold e1. fold rs1.
  destruct (e1 && _); [exists 1%nat, cache1; split; [done|]; intros fuel; apply Hstep|]. rewrite gather_app.
  destruct (gather e1 rs1 sub) as [[e2 rs2]|r].
  - destruct (Hrest e2 rs2) as (n2 & cache3 & Hc3 & Hw2). exists (S (n1 + n2)), cache3. split; [done|]. intros fuel.
    cbn [Nat.add]. rewrite Hstep, <-Nat.add_assoc, Hw1. apply Hw2.
  - exists (S n1), cache2. split; [done|]. intros fuel. cbn [Nat.add]. by rewrite Hstep, Hw1.
Qed.

(** The answer to a request, once its token is read. *)
Definition paged (g : (bool * list (Chunk Raw)) + (list (Chunk Raw) * list Z)) : result error (@PagedHierarchy Raw) :=
  match g with inl (_, rs) => Ok (mkPage rs None) | inr r => stopped r end.

(** A request with or without a token, and the path it resumes at. *)
Definition resumes (from : option string) : Prop :=
  match from, target with
  | None, None => True
  | Some token, Some p => decode W token = Some (mkToken p limit max_depth so)
  | _, _ => False
  end.

Lemma client_gather room root from cache :
  inv cache -> sm room (option_list (server_name W room)) = Some (Accessible root) -> resumes from ->
  exists n cache', inv cache' /\ forall fuel, (n <= fuel)%nat ->
    client_hierarchy W fuel asker room limit max_depth so from cache =
    (cache', paged (gather (bool_decide (target = None)) [] (hierarchy max_depth room root))).
Proof.
  intros Hc Hroot Hfrom. destruct (Hstable room (option_list (server_name W room)) cache Hc) as (cache1 & Hs & Hc1). rewrite Hroot in Hs.
  set (k := num room). set (e0 := bool_decide (target = None)).
  assert (Hstart : forall fuel, client_hierarchy W fuel asker room limit max_depth so from cache =
    match enter W parameters target k root [] (mkWalk e0 {[k]} [] []) with
    | (w, Some path) => (cache1, stopped (rooms w, path))
    | (w, None) => go fuel cache1 w
    end).
  { intros fuel. unfold client_hierarchy, resumes in *. destruct from as [token|], target as [p|]; try done; cbn [path fmap option_fmap option_map].
    - rewrite Hfrom. cbn. unfold same_parameters. cbn. rewrite !Z.eqb_refl, eqb_reflx. cbn. by rewrite Hs.
    - cbn. by rewrite Hs. }
  unfold enter in Hstart. cbn [app emitting rooms Spaces.limit Spaces.max_depth stack visited suggested_only length] in Hstart.
  unfold hierarchy. cbn [gather length]. fold k. set (e1 := e0 || _) in *.
  destruct (e1 && _); [exists 0%nat, cache1; split; [done|]; intros fuel _; apply Hstart|].
  set (rs1 := if e1 then [] ++ [root] else []) in *.
  destruct (Z.to_nat max_depth) as [|d] eqn:Ed.
  { exists 1%nat, cache1. split; [done|]. intros [|fuel] Hf; [lia|]. rewrite Hstart, (proj2 (Z.ltb_ge _ _)) by lia. done. }
  pose proof (walk_below d (children_of W root so) k [] e1 {[k]} rs1 cache1 Hc1 ltac:(cbn; lia)) as Hw. cbn [rev fmap list_fmap app] in Hw.
  destruct (below d {[k]} [k] _) as [seen l]. destruct Hw as (n & cache2 & Hc2 & Hw). exists (S n), cache2. split; [done|].
  intros fuel Hf. replace fuel with (n + S (fuel - n - 1))%nat by lia. rewrite Hstart, (proj2 (Z.ltb_lt _ _)) by lia.
  change (if e1 then [root] else []) with rs1. rewrite Hw. cbn [emitting rooms snd].
  destruct (gather e1 rs1 l) as [[e' rs']|r]; [|done]. by rewrite walk_exhausted.
Qed.

(** ** Pages *)

Lemma gather_all (l : list (list Z * Chunk Raw)) rs : Z.of_nat (length rs) <= limit ->
  gather true rs l = match l !! (Z.to_nat limit - length rs)%nat with
                     | Some (p, _) => inr (rs ++ take (Z.to_nat limit - length rs) l.*2, p)
                     | None => inl (true, rs ++ l.*2)
                     end.
Proof.
  revert rs. induction l as [|[p c] l IH]; intros rs Hr; cbn [gather fmap list_fmap snd]; [by rewrite app_nil_r|].
  cbn [orb andb]. destruct (Z.leb_spec limit (Z.of_nat (length rs))).
  { replace (Z.to_nat limit - length rs)%nat with 0%nat by lia. cbn. by rewrite app_nil_r. }
  rewrite IH by (rewrite length_app; cbn; lia). rewrite length_app. cbn [length].
  replace (Z.to_nat limit - length rs)%nat with (S (Z.to_nat limit - (length rs + 1)))%nat by lia. cbn [lookup list_lookup take].
  change (?l !! ?i) with (lookup i l). rewrite <-!app_assoc. done.
Qed.

Lemma gather_skip (l : list (list Z * Chunk Raw)) i p c : target = Some p -> NoDup l.*1 -> l !! i = Some (p, c) ->
  gather false [] l = gather true [] (drop i l).
Proof.
  intros Ht. revert i. induction l as [|[q c'] l IH]; intros i Hd Hi; [done|].
  apply NoDup_cons in Hd as [Hq Hd]. destruct i as [|i]; cbn in Hi.
  - injection Hi as -> ->. cbn [drop gather]. by rewrite bool_decide_eq_true_2.
  - cbn [drop gather]. rewrite bool_decide_eq_false_2; [by apply IH|]. rewrite Ht. intros [= <-].
    apply Hq, list_elem_of_fmap. exists (p, c). split; [done|]. by eapply list_elem_of_lookup_2.
Qed.

Lemma gather_missed (l : list (list Z * Chunk Raw)) p : target = Some p -> p ∉ l.*1 -> gather false [] l = inl (false, []).
Proof.
  intros ->. induction l as [|[q c] l IH]; [done|]. cbn [fmap list_fmap fst]. intros [Hne Hl]%not_elem_of_cons. cbn [gather orb].
  rewrite bool_decide_eq_false_2 by congruence. by apply IH.
Qed.

End Page.

(** Every room is shown once. *)
Definition fresh (seen : gset Z) (r : gset Z * list (list Z * Chunk Raw)) : Prop :=
  seen ⊆ r.1 /\ NoDup (last <$> r.2.*1) /\ forall p c, (p, c) ∈ r.2 -> exists q k, p = q ++ [k] /\ (k ∉ seen) /\ k ∈ r.1.

Lemma below_fresh d : forall cs seen above, fresh seen (below d seen above cs).
Proof.
  induction d as [d IHd] using lt_wf_ind. intros cs. induction cs as [|[room via] cs IHcs]; intros seen above.
  { rewrite below_nil. split_and!; [done|constructor|]. by intros p c ?%not_elem_of_nil. }
  rewrite below_cons. destruct (decide (num room ∈ seen)) as [Hin|Hnew]; [apply IHcs|].
  assert (Hskip : fresh seen (below d ({[num room]} ∪ seen) above cs)).
  { destruct (IHcs ({[num room]} ∪ seen) above) as (? & ? & Hl).
    split_and!; [set_solver|done|]. intros p c (q & k & ? & ? & ?)%Hl. exists q, k. split_and!; [done|set_solver..]. }
  destruct (sm room via) as [[chunk|]|]; [|apply Hskip..]. clear Hskip.
  set (sub0 := match d with 0%nat => _ | S d => _ end).
  assert (Hsub : fresh ({[num room]} ∪ seen) sub0).
  { subst sub0. destruct d as [|d]; [split_and!; [done|constructor|by intros ? ? ?%not_elem_of_nil]|]. apply IHd. lia. }
  clearbody sub0. destruct sub0 as [seen1 sub]. destruct Hsub as (Hs1 & Hd1 & Hl1). specialize (IHcs seen1 above).
  destruct (below d seen1 above cs) as [seen2 rest]. destruct IHcs as (Hs2 & Hd2 & Hl2). cbn [fst snd] in *. split_and!; cbn [fst snd].
  - set_solver.
  - cbn [fmap list_fmap fst]. rewrite last_snoc, fmap_app, fmap_app. apply NoDup_cons. split.
    + intros [Hl|Hl]%elem_of_app; apply list_elem_of_fmap in Hl as (p & Hp & ([? c] & -> & Hl)%list_elem_of_fmap); cbn in Hp.
      * apply Hl1 in Hl as (q & k & -> & Hk & _). rewrite last_snoc in Hp. injection Hp as <-. set_solver.
      * apply Hl2 in Hl as (q & k & -> & Hk & _). rewrite last_snoc in Hp. injection Hp as <-. set_solver.
    + apply NoDup_app. split_and!; [done| |done]. intros x Hx1 Hx2.
      apply list_elem_of_fmap in Hx1 as (p1 & -> & ([? c1] & -> & Hp1)%list_elem_of_fmap).
      apply list_elem_of_fmap in Hx2 as (p2 & Hp & ([? c2] & -> & Hp2)%list_elem_of_fmap). cbn in Hp.
      apply Hl1 in Hp1 as (q & k & -> & _ & Hk). apply Hl2 in Hp2 as (q2 & k2 & -> & Hk2 & _).
      rewrite !last_snoc in Hp. injection Hp as ->. done.
  - intros p c [[= -> ->]|[Hp|Hp]%elem_of_app]%elem_of_cons.
    + exists above, (num room). split_and!; [done|done|set_solver].
    + apply Hl1 in Hp as (q & k & ? & ? & ?). exists q, k. split_and!; [done|set_solver..].
    + apply Hl2 in Hp as (q & k & ? & ? & ?). exists q, k. split_and!; [done|set_solver..].
Qed.

Lemma hierarchy_once max_depth room root : NoDup (last <$> (hierarchy max_depth room root).*1).
Proof.
  unfold hierarchy. cbn [fmap list_fmap fst]. destruct (Z.to_nat max_depth) as [|d]; [apply NoDup_singleton|].
  destruct (below_fresh d (children_of W root so) {[num room]} [num room]) as (_ & Hd & Hl). apply NoDup_cons. split; [|done].
  intros (p & Hp & ([? c] & -> & (q & k & -> & Hk & _)%Hl)%list_elem_of_fmap)%list_elem_of_fmap.
  cbn in Hp. rewrite last_snoc in Hp. injection Hp as <-. set_solver.
Qed.

Lemma hierarchy_paths max_depth room root : NoDup (hierarchy max_depth room root).*1.
Proof. apply (NoDup_fmap_1 last), hierarchy_once. Qed.

(** A room that is shown may be seen, and is a child of the space its path names before
    it, which is shown or is where the walk began. *)
Definition linked (above : list Z) (cs : list (string * list string)) (l : list (list Z * Chunk Raw)) (p : list Z) (c : Chunk Raw) : Prop :=
  exists q room via, p = q ++ [num room] /\ sm room via = Some (Accessible c) /\
    ((q = above /\ (room, via) ∈ cs) \/ exists c', (q, c') ∈ l /\ (room, via) ∈ children_of W c' so).

Lemma linked_weaken above cs cs' l l' p c : linked above cs l p c -> cs ⊆ cs' -> l ⊆ l' -> linked above cs' l' p c.
Proof.
  intros (q & room & via & Hp & Hs & Hq) Hcs Hl. exists q, room, via. split_and!; [done..|].
  destruct Hq as [[-> Hr]|(c' & Hc & Hr)]; [left; auto|right; exists c'; auto].
Qed.

Lemma below_sound d : forall cs seen above p c, (p, c) ∈ (below d seen above cs).2 ->
  (length p <= length above + S d)%nat /\ linked above cs (below d seen above cs).2 p c.
Proof.
  induction d as [d IHd] using lt_wf_ind. intros cs. induction cs as [|[room via] cs IHcs]; intros seen above p c.
  { rewrite below_nil. by intros ?%not_elem_of_nil. }
  assert (Hlater : forall seen, (p, c) ∈ (below d seen above cs).2 ->
    (length p <= length above + S d)%nat /\ linked above ((room, via) :: cs) (below d seen above cs).2 p c).
  { intros seen' [? Hl]%IHcs. split; [done|]. eapply linked_weaken; [done|set_solver|done]. }
  rewrite below_cons. destruct (decide (num room ∈ seen)); [apply Hlater|].
  destruct (sm room via) as [[chunk|]|] eqn:Esm; [|apply Hlater..].
  set (sub0 := match d with 0%nat => _ | S d => _ end).
  assert (Hsub : (p, c) ∈ sub0.2 -> (length p <= length above + S d)%nat /\
    linked (above ++ [num room]) (children_of W chunk so) sub0.2 p c).
  { subst sub0. destruct d as [|d]; [by intros ?%not_elem_of_nil|]. intros [Hlen ?]%IHd; [|lia]. rewrite length_app in Hlen. cbn in Hlen. split; [lia|done]. }
  clearbody sub0. destruct sub0 as [seen1 sub]. cbn [fst snd] in Hsub. specialize (Hlater seen1).
  destruct (below d seen1 above cs) as [seen2 rest]. cbn [fst snd] in *. intros [[= -> ->]|[Hp|Hp]%elem_of_app]%elem_of_cons.
  - split; [rewrite length_app; cbn; lia|]. exists above, room, via. split_and!; [done..|]. left. split; [done|by left].
  - destruct (Hsub Hp) as [? (q & r & v & ? & ? & Hq)]. split; [done|]. exists q, r, v. split_and!; [done..|]. right.
    destruct Hq as [[-> ?]|(c' & ? & ?)]; [exists chunk; split; [by left|done]|exists c'; split; [set_solver|done]].
  - destruct (Hlater Hp) as [? Hl]. split; [done|]. eapply linked_weaken; [done|done|set_solver].
Qed.

(** Everything a space above the last level has was looked at, and is shown unless it may
    not be seen or no server answered. *)
Definition closed (d : nat) (above : list Z) (cs : list (string * list string)) (seen : gset Z) (r : gset Z * list (list Z * Chunk Raw)) : Prop :=
  (forall room via, (room, via) ∈ cs -> num room ∈ r.1) /\
  (forall p c, (p, c) ∈ r.2 -> (length p < length above + S d)%nat -> forall room via, (room, via) ∈ children_of W c so -> num room ∈ r.1) /\
  (forall k, k ∈ r.1 -> k ∈ seen \/ (exists p c, (p, c) ∈ r.2 /\ last p = Some k) \/
    exists room via, k = num room /\ forall c, sm room via <> Some (Accessible c)).

Lemma below_closed d : forall cs seen above, closed d above cs seen (below d seen above cs).
Proof.
  induction d as [d IHd] using lt_wf_ind. intros cs. induction cs as [|[room via] cs IHcs]; intros seen above.
  { rewrite below_nil. split_and!; [by intros ? ? ?%not_elem_of_nil|by intros ? ? ?%not_elem_of_nil|by left]. }
  rewrite below_cons. pose proof (fun s => proj1 (below_fresh d cs s above)) as Hmono. destruct (decide (num room ∈ seen)) as [Hin|Hnew].
  { destruct (IHcs seen above) as (H1 & H2 & H3). split_and!; [|done..]. intros r v [[= -> ->]|]%elem_of_cons; [by apply Hmono|eauto]. }
  assert (Hskip : (forall c, sm room via <> Some (Accessible c)) -> closed d above ((room, via) :: cs) seen (below d ({[num room]} ∪ seen) above cs)).
  { intros Hno. destruct (IHcs ({[num room]} ∪ seen) above) as (H1 & H2 & H3). split_and!; [|done|].
    - intros r v [[= -> ->]|]%elem_of_cons; [apply Hmono; set_solver|eauto].
    - intros k [[->%elem_of_singleton|]%elem_of_union|]%H3; eauto 6. }
  destruct (sm room via) as [[chunk|]|] eqn:Esm; [|by apply Hskip..]. clear Hskip.
  set (sub0 := match d with 0%nat => _ | S d => _ end).
  assert (Hsub : {[num room]} ∪ seen ⊆ sub0.1 /\
    (d <> 0%nat -> forall r v, (r, v) ∈ children_of W chunk so -> num r ∈ sub0.1) /\
    (forall p c, (p, c) ∈ sub0.2 -> (length p < length above + S d)%nat -> forall r v, (r, v) ∈ children_of W c so -> num r ∈ sub0.1) /\
    (forall k, k ∈ sub0.1 -> k ∈ {[num room]} ∪ seen \/ (exists p c, (p, c) ∈ sub0.2 /\ last p = Some k) \/
      exists r v, k = num r /\ forall c, sm r v <> Some (Accessible c))).
  { subst sub0. destruct d as [|d]; [split_and!; [done|done|by intros ? ? ?%not_elem_of_nil|by left]|].
    destruct (IHd d ltac:(lia) (children_of W chunk so) ({[num room]} ∪ seen) (above ++ [num room])) as (H1 & H2 & H3).
    rewrite length_app in H2. cbn [length] in H2. split_and!; [apply below_fresh|done| |done]. intros; eapply H2; [done|lia|done]. }
  clearbody sub0. destruct sub0 as [seen1 sub]. cbn [fst snd] in Hsub. destruct Hsub as (S0 & S1 & S2 & S3).
  destruct (IHcs seen1 above) as (H1 & H2 & H3). specialize (Hmono seen1). destruct (below d seen1 above cs) as [seen2 rest]. cbn [fst snd] in *.
  split_and!; cbn [fst snd].
  - intros r v [[= -> ->]|]%elem_of_cons; [set_solver|eauto].
  - intros p c [[= -> ->]|[Hp|Hp]%elem_of_app]%elem_of_cons Hlen r v Hr; [|apply Hmono; eauto|eauto].
    rewrite length_app in Hlen. cbn in Hlen. apply Hmono. apply (S1 ltac:(lia) _ _ Hr).
  - intros k [[[->%elem_of_singleton|?]%elem_of_union|[(p & c & ? & ?)|?]]%S3|[(p & c & ? & ?)|?]]%H3; [right; left|by left|right; left|by right; right|right; left|by right; right].
    + exists (above ++ [num room]), chunk. split; [by left|apply last_snoc].
    + exists p, c. split; [set_solver|done].
    + exists p, c. split; [set_solver|done].
Qed.

Lemma hierarchy_sound max_depth room root p c : (p, c) ∈ hierarchy max_depth room root -> 0 <= max_depth ->
  Z.of_nat (length p) <= max_depth + 1 /\
  ((p = [num room] /\ c = root) \/
   exists q r via, p = q ++ [num r] /\ sm r via = Some (Accessible c) /\ exists c', (q, c') ∈ hierarchy max_depth room root /\ (r, via) ∈ children_of W c' so).
Proof.
  intros Hp Hd. unfold hierarchy in *. apply elem_of_cons in Hp as [[= -> ->]|Hp]; [split; [cbn; lia|by left]|].
  destruct (Z.to_nat max_depth) as [|d] eqn:Ed; [by apply not_elem_of_nil in Hp|].
  destruct (below_sound _ _ _ _ _ _ Hp) as [Hlen (q & r & v & -> & Hs & Hq)]. cbn [length] in Hlen. split; [lia|right].
  exists q, r, v. split_and!; [done..|]. destruct Hq as [[-> ?]|(c' & ? & ?)]; [exists root; split; [by left|done]|exists c'; split; [by right|done]].
Qed.

Lemma hierarchy_complete max_depth room root p c r via `{!Inj (=) (=) num} :
  (p, c) ∈ hierarchy max_depth room root -> Z.of_nat (length p) <= max_depth -> (r, via) ∈ children_of W c so ->
  (exists p' c', (p', c') ∈ hierarchy max_depth room root /\ last p' = Some (num r)) \/ exists via', forall c', sm r via' <> Some (Accessible c').
Proof.
  unfold hierarchy. intros Hp Hlen Hr.
  assert (Hne : (0 < length p)%nat).
  { apply elem_of_cons in Hp as [[= -> ->]|Hp]; [cbn; lia|]. destruct (Z.to_nat max_depth); [by apply not_elem_of_nil in Hp|].
    apply below_fresh in Hp as (q & k & -> & _). rewrite length_app. cbn. lia. }
  destruct (Z.to_nat max_depth) as [|d] eqn:Ed; [lia|].
  destruct (below_closed d (children_of W root so) {[num room]} [num room]) as (H1 & H2 & H3).
  assert (Hk : num r ∈ (below d {[num room]} [num room] (children_of W root so)).1).
  { apply elem_of_cons in Hp as [[= -> ->]|Hp]; [eauto|]. eapply H2; [done|cbn; lia|done]. }
  destruct (H3 _ Hk) as [->%elem_of_singleton|[(p' & c' & ? & ?)|(r' & v' & ->%(inj _) & ?)]].
  - left. exists [num room], root. split; [by left|done].
  - left. exists p', c'. split; [by right|done].
  - right. by exists v'.
Qed.

(** The page that begins with the room at place [i]. *)
Definition page_at (limit max_depth : Z) (h : list (list Z * Chunk Raw)) (i : nat) : @PagedHierarchy Raw :=
  mkPage (take (Z.to_nat limit) (drop i h)).*2 ((fun e => to_string W (mkToken e.1 limit max_depth so)) <$> h !! (i + Z.to_nat limit)%nat).

(** A request begins at the place its token names. *)
Definition begins (limit max_depth : Z) (h : list (list Z * Chunk Raw)) (from : option string) (i : nat) : Prop :=
  match from with
  | None => i = 0%nat
  | Some token => exists p c, h !! i = Some (p, c) /\ decode W token = Some (mkToken p limit max_depth so)
  end.

Lemma gather_page limit max_depth target h i : 0 <= limit ->
  (if target is Some p then exists c, h !! i = Some (p, c) else i = 0%nat) -> NoDup h.*1 ->
  paged limit max_depth (gather target limit (bool_decide (target = None)) [] h) = Ok (page_at limit max_depth h i).
Proof.
  intros Hl Ht Hd.
  assert (gather target limit (bool_decide (target = None)) [] h = gather target limit true [] (drop i h)) as ->.
  { destruct target as [p|]; [|by subst i]. destruct Ht as [c Hi]. rewrite bool_decide_eq_false_2 by done. by eapply gather_skip. }
  rewrite gather_all by (cbn; lia). cbn [length app]. rewrite Nat.sub_0_r, lookup_drop. unfold page_at.
  destruct (h !! (i + Z.to_nat limit)%nat) as [[p c]|] eqn:Ei; cbn [paged fmap option_fmap option_map].
  - unfold stopped, next_token. cbn. by rewrite fmap_take.
  - rewrite take_ge; [done|]. rewrite length_drop. apply lookup_ge_None in Ei. lia.
Qed.

Lemma hierarchy_page_at room root limit max_depth from i cache :
  inv cache -> sm room (option_list (server_name W room)) = Some (Accessible root) -> 0 <= limit ->
  begins limit max_depth (hierarchy max_depth room root) from i ->
  exists n cache', inv cache' /\ forall fuel, (n <= fuel)%nat ->
    client_hierarchy W fuel asker room limit max_depth so from cache = (cache', Ok (page_at limit max_depth (hierarchy max_depth room root) i)).
Proof.
  intros Hc Hr Hl Hb. set (target := token ← from; path <$> decode W token).
  destruct (client_gather target limit max_depth room root from cache Hc Hr) as (n & cache' & Hc' & Hw).
  { unfold begins, resumes in *. destruct from as [token|]; [|done]. destruct Hb as (p & c & _ & Hdec). subst target. cbn. by rewrite Hdec. }
  exists n, cache'. split; [done|]. intros fuel Hf. rewrite Hw by done. f_equal. apply gather_page; [done| |apply hierarchy_paths].
  unfold begins in Hb. destruct from as [token|]; [|done]. destruct Hb as (p & c & Hi & Hdec). subst target. cbn. rewrite Hdec. cbn. by exists c.
Qed.

(** A client that follows the tokens. *)
Fixpoint browse (rounds fuel : nat) (room : string) (limit max_depth : Z) (from : option string) (cache : Cache) : option (list (Chunk Raw)) :=
  match rounds with
  | 0%nat => None
  | S rounds =>
      match client_hierarchy W fuel asker room limit max_depth so from cache with
      | (cache, Ok page) =>
          match next_batch page with
          | None => Some (page_rooms page)
          | Some token => app (page_rooms page) <$> browse rounds fuel room limit max_depth (Some token) cache
          end
      | (_, Err _) => None
      end
  end.

Lemma browse_from room root limit max_depth rounds : forall from i cache,
  inv cache -> sm room (option_list (server_name W room)) = Some (Accessible root) -> 0 < limit ->
  (forall t, decode W (to_string W t) = Some t) ->
  begins limit max_depth (hierarchy max_depth room root) from i ->
  (length (hierarchy max_depth room root) < i + rounds)%nat ->
  exists n, forall fuel, (n <= fuel)%nat -> browse rounds fuel room limit max_depth from cache = Some (drop i (hierarchy max_depth room root)).*2.
Proof.
  set (h := hierarchy max_depth room root). induction rounds as [|rounds IH]; intros from i cache Hc Hr Hl Ht Hb Hlen.
  { assert (i < length h)%nat; [|lia]. unfold begins in Hb. destruct from as [token|]; [|subst i; cbn; lia].
    destruct Hb as (p & c & Hi & _). by eapply lookup_lt_Some. }
  destruct (hierarchy_page_at room root limit max_depth from i cache Hc Hr ltac:(lia) Hb) as (n1 & cache1 & Hc1 & Hw1). fold h in Hw1.
  unfold page_at in Hw1. destruct (h !! (i + Z.to_nat limit)%nat) as [[p c]|] eqn:Ei; cbn [fmap option_fmap option_map fst] in Hw1.
  - destruct (IH (Some (to_string W (mkToken p limit max_depth so))) (i + Z.to_nat limit)%nat cache1 Hc1 Hr Hl Ht) as (n2 & Hw2); [by exists p, c|lia|].
    exists (n1 `max` n2)%nat. intros fuel Hf. cbn [browse]. rewrite Hw1 by lia. cbn [next_batch page_rooms]. rewrite Hw2 by lia. cbn.
    f_equal. rewrite <-fmap_app, <-drop_drop. by rewrite take_drop.
  - exists n1. intros fuel Hf. cbn [browse]. rewrite Hw1 by lia. cbn [next_batch page_rooms]. rewrite take_ge; [done|].
    rewrite length_drop. apply lookup_ge_None in Ei. lia.
Qed.

(** C27: The hierarchy of a space, listed page by page, is the recursive preorder of its rooms
    down to the depth asked for. A request with the token of a room is answered, with
    enough steps, exactly the rooms from that room on, as many as the limit allows, and the
    token of the next one; so a client that follows the tokens is given all of it, in order
    and each room once. Summaries are taken to stay as they are meanwhile, and tokens to
    read back as they were written. *)
Theorem hierarchy_pages room root limit max_depth cache :
  inv cache -> sm room (option_list (server_name W room)) = Some (Accessible root) -> 0 < limit ->
  (forall t, decode W (to_string W t) = Some t) ->
  let h := hierarchy max_depth room root in
  NoDup (last <$> h.*1) /\
  (forall from i, begins limit max_depth h from i -> exists n cache', inv cache' /\ forall fuel, (n <= fuel)%nat ->
    client_hierarchy W fuel asker room limit max_depth so from cache = (cache', Ok (page_at limit max_depth h i))) /\
  exists n, forall fuel, (n <= fuel)%nat -> browse (S (length h)) fuel room limit max_depth None cache = Some h.*2.
Proof.
  intros Hc Hr Hl Ht h. split_and!; [apply hierarchy_once|intros; apply hierarchy_page_at; auto with lia|].
  apply (browse_from room root limit max_depth (S (length h)) None 0 cache); auto with lia. done.
Qed.

(** A token whose room is no longer shown ends the listing. *)
Theorem lost_token_ends room root limit max_depth token p cache :
  inv cache -> sm room (option_list (server_name W room)) = Some (Accessible root) ->
  decode W token = Some (mkToken p limit max_depth so) -> p ∉ (hierarchy max_depth room root).*1 ->
  exists n cache', inv cache' /\ forall fuel, (n <= fuel)%nat ->
    client_hierarchy W fuel asker room limit max_depth so (Some token) cache = (cache', Ok (mkPage [] None)).
Proof.
  intros Hc Hr Hdec Hp. destruct (client_gather (Some p) limit max_depth room root (Some token) cache Hc Hr Hdec) as (n & cache' & Hc' & Hw).
  exists n, cache'. split; [done|]. intros fuel Hf. rewrite Hw by done. by rewrite bool_decide_eq_false_2, (gather_missed _ _ _ p) by done.
Qed.

End Walk.

(** ** The answer to a server *)

(** A server is told of the room, and of the children held here: summaries of those it may
    see, the names of the others. *)
Theorem federation_exact room server so :
  federation_hierarchy W room server so =
  match held_summary W room (Server server) with
  | Some (Accessible parent) =>
      let held := omap (fun child : string * list string => pair child.1 <$> held_summary W child.1 (Server server)) (children_of W parent so) in
      Ok (mkResponse parent
        (omap (fun ca => match ca.2 with Accessible chunk => Some (summary_of chunk) | Inaccessible => None end) held)
        (omap (fun ca => match ca.2 with Accessible _ => None | Inaccessible => Some ca.1 end) held))
  | _ => Err NotFound
  end.
Proof.
  unfold federation_hierarchy. destruct (held_summary W room (Server server)) as [[parent|]|]; [|done..]. cbv zeta.
  enough (forall cs, held_children W cs (Server server) =
    let held := omap (fun child : string * list string => pair child.1 <$> held_summary W child.1 (Server server)) cs in
    (omap (fun ca => match ca.2 with Accessible chunk => Some (summary_of chunk) | Inaccessible => None end) held,
     omap (fun ca => match ca.2 with Accessible _ => None | Inaccessible => Some ca.1 end) held)) as -> by done.
  intros cs. induction cs as [|[child via] cs IH]; [done|]. cbn [held_children]. rewrite IH. cbv zeta. cbn [omap list_omap fst].
  by destruct (held_summary W child (Server server)) as [[]|].
Qed.

(** The children of a held space are its child events that name a server, in their order. *)
Theorem children_state_exact room event_ids : space_children W room = Some event_ids ->
  (forall raw, raw ∈ children_state W room <->
    exists id event, id ∈ event_ids /\ get_pdu W id = Some raw /\ deserialize W raw = Some event /\ via event <> []) /\
  exists events, children_state W room = events.*2 /\ Forall (fun e => deserialize W e.2 = Some e.1) events /\
    StronglySorted (fun a b => ord_le (child_key W a) (child_key W b)) events.*1.
Proof.
  intros He. unfold children_state. rewrite He. cbv zeta. set (l := omap _ (omap (get_pdu W) event_ids)).
  assert (Hl : forall event raw, (event, raw) ∈ l <-> exists id, id ∈ event_ids /\ get_pdu W id = Some raw /\ deserialize W raw = Some event /\ via event <> []).
  { intros event raw. unfold l. rewrite list_elem_of_omap. setoid_rewrite list_elem_of_omap. split.
    - intros (raw' & (id & Hid & Hget) & Hd). destruct (deserialize W raw') as [ev|] eqn:Ed; [|done]. cbn in Hd.
      destruct (via ev) eqn:Ev; [done|]. injection Hd as -> ->. exists id. by rewrite Ev.
    - intros (id & Hid & Hget & Hd & Hv). exists raw. split; [by exists id|]. rewrite Hd. cbn. by destruct (via event). }
  split.
  - intros raw. rewrite list_elem_of_fmap. split.
    + intros ([event raw'] & -> & Hin). rewrite sort_by_key_perm in Hin. apply Hl in Hin as (id & ?). by exists id, event.
    + intros (id & event & ?). exists (event, raw). split; [done|]. rewrite sort_by_key_perm. apply Hl. by exists id.
  - exists (sort_by_key (fun child => child_key W child.1) l). split_and!; [done| |].
    + apply Forall_forall. intros [event raw] Hin. rewrite sort_by_key_perm in Hin. by apply Hl in Hin as (id & _ & _ & ? & _).
    + pose proof (sort_by_key_sorted (fun child : ChildEvent * Raw => child_key W child.1) l) as Hs. revert Hs. generalize (sort_by_key (fun child => child_key W child.1) l).
      intros k Hk. induction Hk as [|x k _ IH Hx]; [constructor|]. constructor; [done|]. apply Forall_fmap. done.
Qed.

End Facts.
End SpacesFacts.
