(* ===== verification/SpacesSample.v ===== *)
(** A space on which the listing of Spaces.v is run: what its pages are, and three cases in
    which rooms are not listed that a client might expect. *)
From Stdlib Require Import Ascii.
From S2P Require Import Prelude Order Spaces SpacesFacts.

Module SpacesSample.
Import Spaces SpacesFacts.

(** ** Tokens as text *)

Fixpoint pos_text (p : positive) : string :=
  match p with xH => EmptyString | xO p => String "0"%char (pos_text p) | xI p => String "1"%char (pos_text p) end.
Fixpoint text_pos (t : string) : positive :=
  match t with
  | EmptyString => xH
  | String c t => if Ascii.eqb c "0"%char then xO (text_pos t) else xI (text_pos t)
  end.
Lemma text_pos_text p : text_pos (pos_text p) = p.
Proof. induction p; cbn; by f_equal. Qed.

Definition token_text (t : PaginationToken) : string := pos_text (countable.encode (path t, limit t, max_depth t, suggested_only t)).
Definition text_token (t : string) : option PaginationToken :=
  (fun '(p, l, d, s) => mkToken p l d s) <$> (countable.decode (text_pos t) : option (list Z * Z * Z * bool)).
Lemma token_text_reads t : text_token (token_text t) = Some t.
Proof. unfold text_token, token_text. rewrite text_pos_text, decode_encode. by destruct t. Qed.

(** ** A space *)

(** Four public rooms on this server; the space has rooms A and B, A has B, B has C. *)
Definition child (name : string) : ChildEvent := mkChild name ["here"] false.
Definition number (room : string) : Z := Zpos (countable.encode room).
Definition links (room : string) : option (list string) :=
  Some (if String.eqb room "space" then ["A"; "B"] else if String.eqb room "A" then ["B"] else if String.eqb room "B" then ["C"] else []).
Definition W : World ChildEvent string :=
  mkWorld ChildEvent string Some state_key (fun _ => None) (fun _ _ => false) (fun _ _ => false) (fun _ _ => false)
    (fun _ => true) (fun room => mkSummary room false Public) links (fun id => Some (child id))
    (fun server => String.eqb server "here") (fun _ => false) (fun _ _ _ => None) number id token_text text_token.

Lemma hierarchy_pages_witness :
  exists n, forall fuel, (n <= fuel)%nat ->
    option_map (map (fun c => room_id (summary_of c))) (browse W (User "u") false 5 fuel "space" 2 3 None ∅) = Some ["space"; "A"; "B"; "C"].
Proof.
  destruct (hierarchy_pages W (User "u") false _ _ (Hstable := held_stable W (User "u") false ltac:(done))
    "space" (local_summary W "space") 2 3 ∅ I ltac:(reflexivity) ltac:(lia) token_text_reads) as (_ & _ & n & Hn).
  exists n. intros fuel Hf. specialize (Hn fuel Hf).
  replace (S (length _)) with 5%nat in Hn by (vm_compute; reflexivity). rewrite Hn. vm_compute. reflexivity.
Defined.

(** The ids listed and whether there is more. *)
Definition listed (limit max_depth : Z) (from : option string) : option (list string * option string) :=
  match (client_hierarchy W 20 (User "u") "space" limit max_depth false from ∅).2 with
  | Ok page => Some ((fun c => room_id (summary_of c)) <$> page_rooms page, next_batch page)
  | Err _ => None
  end.

(** ** What is not listed *)

(** A room first met at the last level is not met again: with a depth of two C, a child of
    a child of the space, is left out, because B was met below A before. *)
Theorem shallow_room_missed :
  listed 10 2 None = Some (["space"; "A"; "B"], None) /\
  ("B", ["here"]) ∈ children_of W (local_summary W "space") false /\ ("C", ["here"]) ∈ children_of W (local_summary W "B") false /\
  listed 10 3 None = Some (["space"; "A"; "B"; "C"], None).
Proof. split_and!; [by vm_compute|by vm_compute; do 2 constructor..|by vm_compute]. Qed.

(** A limit of zero is taken: there is always more, and it begins where the page began. *)
Theorem zero_limit_stays : exists token, listed 0 3 None = Some ([], Some token) /\ listed 0 3 (Some token) = Some ([], Some token).
Proof. exists (token_text (mkToken [number "space"] 0 3 false)). split; vm_compute; reflexivity. Qed.

End SpacesSample.
