(* ===== verification/CrossSigning.v ===== *)
(** Device keys, cross-signing keys and signatures, [phantom-service/src/accounts/users/keys.rs]
    less its one-time keys; the requests that upload and read them,
    [phantom-api/src/client/accounts/keys], [phantom-api/src/keys.rs] and
    [server/directory/user.rs]; the notice of another server in [server/transaction/edus.rs];
    and who is told of changes, [get_key_changes.rs] and the selection of device list
    updates in [net/sending/sender/edus.rs].

    A key is JSON, of which the code reads the signatures; the rest is opaque. Whether a
    write happens and what the counter draws are part of the environment of a step. *)
From S2P Require Import Prelude Order.

Module CrossSigning.

(** ** Keys *)

Inductive SigValue := Text (signature : string) | NotText (json : string).
Inductive UserSigs := SigMap (m : gmap string SigValue) | NotAMap (json : string).
Inductive Signatures := SigsOf (m : gmap string UserSigs) | NotAnObject (json : string).

(** A JSON value: its field [signatures], and everything else of it. *)
Record Key := mkKey {
  rest : string;
  signatures : option Signatures
}.

#[export] Instance SigValue_eq_dec : EqDecision SigValue.
Proof. solve_decision. Defined.
#[export] Instance UserSigs_eq_dec : EqDecision UserSigs.
Proof. solve_decision. Defined.
#[export] Instance Signatures_eq_dec : EqDecision Signatures.
Proof. solve_decision. Defined.
#[export] Instance Key_eq_dec : EqDecision Key.
Proof. solve_decision. Defined.

(** A row of [keyid_key]: a user, and a device or a public key. *)
Abbreviation KeyId := (string * string)%type.

(** The columns, and the approvals to replace keys with the time they end. *)
Record State := mkState {
  keyid_key : gmap KeyId Key;
  userid_masterkeyid : gmap string KeyId;
  userid_selfsigningkeyid : gmap string KeyId;
  userid_usersigningkeyid : gmap string KeyId;
  keychangeid_userid : gmap (string * Z) string;
  replacement_allowed : gmap string Z
}.

Definition with_keys (m : gmap KeyId Key) (s : State) : State :=
  mkState m (userid_masterkeyid s) (userid_selfsigningkeyid s) (userid_usersigningkeyid s) (keychangeid_userid s) (replacement_allowed s).
Definition with_changes (m : gmap (string * Z) string) (s : State) : State :=
  mkState (keyid_key s) (userid_masterkeyid s) (userid_selfsigningkeyid s) (userid_usersigningkeyid s) m (replacement_allowed s).
Definition with_allowed (m : gmap string Z) (s : State) : State :=
  mkState (keyid_key s) (userid_masterkeyid s) (userid_selfsigningkeyid s) (userid_usersigningkeyid s) (keychangeid_userid s) m.

Inductive Slot := Master | SelfSigning | UserSigning.
#[export] Instance Slot_eq_dec : EqDecision Slot.
Proof. solve_decision. Defined.

Definition index (slot : Slot) (s : State) : gmap string KeyId :=
  match slot with Master => userid_masterkeyid s | SelfSigning => userid_selfsigningkeyid s | UserSigning => userid_usersigningkeyid s end.
Definition set_index (slot : Slot) (user : string) (id : KeyId) (s : State) : State :=
  match slot with
  | Master => mkState (keyid_key s) (<[user := id]> (userid_masterkeyid s)) (userid_selfsigningkeyid s) (userid_usersigningkeyid s) (keychangeid_userid s) (replacement_allowed s)
  | SelfSigning => mkState (keyid_key s) (userid_masterkeyid s) (<[user := id]> (userid_selfsigningkeyid s)) (userid_usersigningkeyid s) (keychangeid_userid s) (replacement_allowed s)
  | UserSigning => mkState (keyid_key s) (userid_masterkeyid s) (userid_selfsigningkeyid s) (<[user := id]> (userid_usersigningkeyid s)) (keychangeid_userid s) (replacement_allowed s)
  end.

Inductive error := InvalidParam | MissingParam | Database | NotFound | Uiaa | Unknown | Panicked.

(** [ruma]: whether JSON is a cross-signing key and the public keys it names; which text
    is a user id, and of which server. *)
Record World := mkWorld {
  deserializes : Key -> bool;
  public_keys : string -> list string;
  valid_user : string -> bool;
  server_of : string -> string;
  server_name : string
}.

(** A step's environment: which rows are written, the number drawn, the clock, and the
    rooms of users, encrypted or not. *)
Record Env := mkEnv {
  key_io : KeyId -> bool;
  index_io : Slot -> bool;
  change_io : string -> bool;
  count : option Z;
  now : Z;
  rooms_joined : string -> list string;
  is_encrypted_room : string -> bool
}.

Section Ops.
Context (W : World).

(** ** Approvals *)

(** [CROSS_SIGNING_REPLACEMENT_TTL], in milliseconds. *)
Definition replacement_ttl : Z := 10 * 60 * 1000.

Definition allow_cross_signing_replacement (e : Env) (user : string) (s : State) : State :=
  with_allowed (<[user := now e + replacement_ttl]> (filter (fun kv => now e < kv.2) (replacement_allowed s))) s.

Definition can_replace_cross_signing_keys (e : Env) (user : string) (s : State) : bool :=
  match replacement_allowed s !! user with Some expires_at => now e <? expires_at | None => false end.

(** ** Writing keys *)

Definition change (e : Env) (n : Z) (user id : string) (s : State) : State :=
  if change_io e id then with_changes (<[(id, n) := user]> (keychangeid_userid s)) s else s.

Definition mark_device_key_update (e : Env) (user : string) (s : State) : State * result error unit :=
  match count e with
  | None => (s, Err Panicked)
  | Some n =>
      let s := foldl (fun s room => change e n user room s) s (List.filter (is_encrypted_room e) (rooms_joined e user)) in
      (change e n user user s, Ok ())
  end.

Definition put_key (e : Env) (id : KeyId) (key : Key) (s : State) : State :=
  if key_io e id then with_keys (<[id := key]> (keyid_key s)) s else s.

Definition add_device_keys (e : Env) (user device : string) (key : Key) (s : State) : State * result error unit :=
  mark_device_key_update e user (put_key e (user, device) key s).

Definition parse_cross_signing_key (key : Key) : result error string :=
  if negb (deserializes W key) then Err InvalidParam
  else match public_keys W (rest key) with [public_key] => Ok public_key | _ => Err InvalidParam end.

Definition add_slot (e : Env) (user : string) (slot : Slot) (key : option Key) (s : State) : State * result error unit :=
  match key with
  | None => (s, Ok ())
  | Some key =>
      match parse_cross_signing_key key with
      | Err err => (s, Err err)
      | Ok public_key =>
          let s := put_key e (user, public_key) key s in
          (if index_io e slot then set_index slot user (user, public_key) s else s, Ok ())
      end
  end.

Definition and_then {A} (r : State * result error A) (k : State -> State * result error A) : State * result error A :=
  match r with (s, Ok _) => k s | (s, Err err) => (s, Err err) end.

Definition add_cross_signing_keys (e : Env) (user : string) (master self_signing user_signing : option Key) (notify : bool) (s : State) :
    State * result error unit :=
  and_then (add_slot e user Master master s) (fun s =>
  and_then (add_slot e user SelfSigning self_signing s) (fun s =>
  and_then (add_slot e user UserSigning user_signing s) (fun s =>
  if notify then mark_device_key_update e user s else (s, Ok ())))).

Definition sign_key (e : Env) (target key_id : string) (signature : string * string) (sender : string) (s : State) : State * result error unit :=
  match keyid_key s !! (target, key_id) with
  | None => (s, Err InvalidParam)
  | Some key =>
      match signatures key with
      | None | Some (NotAnObject _) => (s, Err Database)
      | Some (SigsOf m) =>
          match default (SigMap ∅) (m !! sender) with
          | NotAMap _ => (s, Err Database)
          | SigMap own =>
              let key := mkKey (rest key) (Some (SigsOf (<[sender := SigMap (<[signature.1 := Text signature.2]> own)]> m))) in
              mark_device_key_update e target (put_key e (target, key_id) key s)
          end
      end
  end.

(** [remove_device], as far as keys go. *)
Definition remove_device_keys (e : Env) (user device : string) (s : State) : State * result error unit :=
  mark_device_key_update e user (if key_io e (user, device) then with_keys (delete (user, device) (keyid_key s)) s else s).

(** ** Reading keys *)

Definition clean_signatures (key : Key) (sender : option string) (user : string) (allowed : string -> bool) : result error Key :=
  match signatures key with
  | Some (SigsOf m) =>
      if negb (forallb (fun kv => valid_user W kv.1) (map_to_list m)) then Err Database
      else Ok (mkKey (rest key) (Some (SigsOf
        (filter (fun kv => bool_decide (sender = Some user) || String.eqb kv.1 user || allowed kv.1 = true) m))))
  | _ => Ok key
  end.

Definition get_device_keys (user device : string) (s : State) : result error Key := ok_or (keyid_key s !! (user, device)) NotFound.

Definition get_key (id : KeyId) (sender : option string) (user : string) (allowed : string -> bool) (s : State) : result error Key :=
  key ← ok_or (keyid_key s !! id) NotFound; clean_signatures key sender user allowed.

Definition get_slot_key (slot : Slot) (sender : option string) (user : string) (allowed : string -> bool) (s : State) : result error Key :=
  id ← ok_or (index slot s !! user) NotFound; get_key id sender user allowed s.
Definition get_master_key := get_slot_key Master.
Definition get_self_signing_key := get_slot_key SelfSigning.

Definition get_user_signing_key (user : string) (s : State) : result error Key :=
  id ← ok_or (userid_usersigningkeyid s !! user) NotFound; ok_or (keyid_key s !! id) NotFound.

(** ** Requests *)

Definition is_replaced (existing new : option Key) : bool :=
  match new with
  | None => false
  | Some new => match existing with None => true | Some existing => negb (bool_decide (existing = new)) end
  end.

(** [uiaa]: whether interactive authentication, where it is asked for, is passed. *)
Definition upload_signing_keys (e : Env) (uiaa : bool) (sender : string) (master self_signing user_signing : option Key) (s : State) :
    State * result error unit :=
  let existing_master := ok (get_master_key None sender (fun _ => true) s) in
  let existing_self_signing := ok (get_self_signing_key None sender (fun _ => true) s) in
  let existing_user_signing := ok (get_user_signing_key sender s) in
  let replaces_keys := is_replaced existing_master master || is_replaced existing_self_signing self_signing || is_replaced existing_user_signing user_signing in
  if bool_decide (is_Some existing_master) && replaces_keys && negb (can_replace_cross_signing_keys e sender s) && negb uiaa then (s, Err Uiaa)
  else if bool_decide (master = None) && bool_decide (existing_master = None) then (s, Err MissingParam)
  else add_cross_signing_keys e sender master self_signing user_signing true s.

(** The signatures of the sender among those of an uploaded key, and what storing them, one by one, refuses. *)
Definition own_signatures (sender : string) (key : Key) : list (string * SigValue) :=
  match signatures key with
  | Some (SigsOf m) => match m !! sender with Some (SigMap own) => sort_by_key fst (map_to_list own) | _ => [] end
  | _ => []
  end.

Fixpoint sign_all (es : nat -> Env) (sender target key_id : string) (sigs : list (string * SigValue)) (s : State) : State * list KeyId * bool :=
  match sigs with
  | [] => (s, [], false)
  | (id, NotText _) :: sigs => sign_all es sender target key_id sigs s
  | (id, Text signature) :: sigs =>
      match sign_key (es (length sigs)) target key_id (id, signature) sender s with
      | (s, Err Panicked) => (s, [], true)
      | (s, r) =>
          let '(s, failures, panicked) := sign_all es sender target key_id sigs s in
          (s, (if is_ok r then [] else [(target, key_id)]) ++ failures, panicked)
      end
  end.

(** [signed_keys], flattened, in order; [true] at the end for a panic. *)
Fixpoint upload_signatures (es : nat -> nat -> Env) (sender : string) (signed_keys : list (KeyId * Key)) (s : State) : State * list KeyId * bool :=
  match signed_keys with
  | [] => (s, [], false)
  | ((target, key_id), key) :: signed_keys =>
      match sign_all (es (length signed_keys)) sender target key_id (own_signatures sender key) s with
      | (s, failures, true) => (s, failures, true)
      | (s, failures, false) =>
          let '(s, more, panicked) := upload_signatures es sender signed_keys s in (s, failures ++ more, panicked)
      end
  end.

(** Device keys of [upload_keys]; [owner]: the user and device they name, if they are any;
    [same]: whether the text of the stored keys is that of the request. *)
Definition upload_device_keys (e : Env) (same : Key -> bool) (sender device : string) (owner : option KeyId) (key : Key) (s : State) : State * result error unit :=
  match owner with
  | None => (s, Err InvalidParam)
  | Some (u, d) =>
      if negb (String.eqb u sender) || negb (String.eqb d device) then (s, Err Unknown)
      else if match get_device_keys sender device s with Ok existing => same existing | Err _ => false end then (s, Ok ())
      else add_device_keys e sender device key s
  end.

(** An EDU of another server. *)
Definition signing_key_update (e : Env) (origin user : string) (master self_signing : option Key) (s : State) : State * result error unit :=
  if negb (String.eqb (server_of W user) origin) then (s, Ok ())
  else match add_cross_signing_keys e user master self_signing None true s with
       | (s, Err Panicked) => (s, Err Panicked)
       | (s, _) => (s, Ok ())
       end.

(** ** Querying keys *)

(** Devices: their ids, their names, and the JSON with a name put in. *)
Record Devices := mkDevices {
  all_device_ids : string -> list string;
  display_name : KeyId -> option (option string);
  insert_name : Key -> string -> option Key
}.

Record LocalKeys := mkLocal {
  device_keys : gmap string (gmap string Key);
  master_keys : gmap string Key;
  self_signing_keys : gmap string Key;
  user_signing_keys : gmap string Key
}.
Definition merge (a b : LocalKeys) : LocalKeys :=
  mkLocal (device_keys b ∪ device_keys a) (master_keys b ∪ master_keys a) (self_signing_keys b ∪ self_signing_keys a) (user_signing_keys b ∪ user_signing_keys a).

Definition with_display_name (D : Devices) (key : Key) (device : string) (name : option string) (include : bool) : option Key :=
  match name with
  | None => Some key
  | Some name => insert_name D key (if include then name else device)
  end.

Definition device_keys_with_display_name (D : Devices) (user device : string) (include : bool) (s : State) : option Key :=
  key ← ok (get_device_keys user device s);
  name ← display_name D (user, device);
  with_display_name D key device name include.

Definition device_keys_of (D : Devices) (user : string) (ids : list string) (include : bool) (s : State) : gmap string Key :=
  let ids := match ids with [] => all_device_ids D user | _ => ids end in
  foldl (fun m d => match device_keys_with_display_name D user d include s with Some k => <[d := k]> m | None => m end) ∅ ids.

Definition keyed (user : string) (key : option Key) : gmap string Key :=
  match key with Some key => {[user := key]} | None => ∅ end.

Definition user_keys (D : Devices) (user : string) (ids : list string) (sender : option string) (allowed : string -> bool) (include : bool) (s : State) : LocalKeys :=
  mkLocal {[user := device_keys_of D user ids include s]}
    (keyed user (ok (get_master_key sender user allowed s)))
    (keyed user (ok (get_self_signing_key sender user allowed s)))
    (keyed user (if bool_decide (sender = Some user) then ok (get_user_signing_key user s) else None)).

Definition local_keys (D : Devices) (users : list (string * list string)) (sender : option string) (allowed : string -> bool) (include : bool) (s : State) : LocalKeys :=
  foldl (fun keys ud => merge keys (user_keys D ud.1 ud.2 sender allowed include s)) (mkLocal ∅ ∅ ∅ ∅) users.

Definition user_is_local (user : string) : bool := String.eqb (server_of W user) (server_name W).

(** What a client is told of the users of this server. *)
Definition get_keys_local (D : Devices) (sender : string) (users : list (string * list string)) (s : State) : LocalKeys :=
  local_keys D (List.filter (fun ud => user_is_local ud.1) users) (Some sender) (fun user => String.eqb user sender) true s.

(** What another server is told; it is not given user-signing keys. *)
Definition federation_get_keys (D : Devices) (names : bool) (origin : string) (users : list (string * list string)) (s : State) :
    result error (gmap string (gmap string Key) * gmap string Key * gmap string Key) :=
  if existsb (fun ud => negb (user_is_local ud.1)) users then Err InvalidParam
  else let keys := local_keys D users None (fun user => String.eqb (server_of W user) origin) names s in
       Ok (device_keys keys, master_keys keys, self_signing_keys keys).

(** ** Who is told of changes *)

(** The rows of a user or room after [from] and up to [to], in order. *)
Definition keys_changed_user_or_room (id : string) (from : Z) (to : option Z) (s : State) : list (string * Z) :=
  let to := default u64_max to in
  (fun r : string * Z * string => (r.2, r.1.2)) <$>
    sort_by_key (fun r => r.1.2)
      (filter (fun r : string * Z * string => r.1.1 = id /\ u64_saturating_add from 1 <= r.1.2 <= to) (map_to_list (keychangeid_userid s))).
Definition keys_changed (user : string) (from : Z) (to : option Z) (s : State) : list string := fst <$> keys_changed_user_or_room user from to s.
Definition room_keys_changed (room : string) (from : Z) (to : option Z) (s : State) : list (string * Z) := keys_changed_user_or_room room from to s.

(** [from] and [to] as the text parses. *)
Definition get_key_changes (e : Env) (sender : string) (from to : option Z) (s : State) : result error (gset string) :=
  from ← ok_or from InvalidParam;
  to ← ok_or to InvalidParam;
  Ok (foldl (fun changed room => changed ∪ list_to_set (room_keys_changed room from (Some to) s).*1)
        (list_to_set (keys_changed sender from (Some to) s)) (rooms_joined e sender)).

(** [SELECT_EDU_LIMIT] *)
Definition select_edu_limit : nat := 100 - 2.

(** The users to tell a server of, the highest number met, and whether the limit ended it. *)
Record Selected := mkSelected {
  events : list string;
  max_edu_count : Z;
  full : bool
}.

Fixpoint select_room (upper : Z) (changes : list (string * Z)) (sel : Selected) : Selected :=
  match changes with
  | [] => sel
  | (user, n) :: changes =>
      if upper <? n then sel
      else
        let sel := mkSelected (events sel) (Z.max (max_edu_count sel) n) false in
        if bool_decide (user ∈ events sel) then select_room upper changes sel
        else
          let sel' := mkSelected (events sel ++ [user]) (max_edu_count sel) false in
          if Nat.leb (select_edu_limit - 1) (length (events sel)) then mkSelected (events sel') (max_edu_count sel') true
          else select_room upper changes sel'
  end.

Definition select_edus_device_changes (server_rooms : list string) (since upper : Z) (s : State) : Selected :=
  foldl (fun sel room =>
    if full sel then sel
    else select_room upper (List.filter (fun un => user_is_local un.1) (room_keys_changed room since None s)) sel)
    (mkSelected [] since false) server_rooms.

End Ops.
End CrossSigning.
