(* ===== verification/CrossSigningFacts.v ===== *)
(** What is known of device and cross-signing keys (CrossSigning.v): over any history the
    cross-signing keys of a user with a master key stay what they are but for signatures,
    unless the user authenticates or approved it; who signs adds signatures of their own
    only; others see the signatures they may; and whoever shares a room with a user is told
    exactly of the user's changes. At the end, cases: a user whose keys stay as they are, and
    four in which the code does not do what it means to. *)
From Stdlib Require Import Ascii.
From S2P Require Import Prelude Order CrossSigning.

Module CrossSigningFacts.
Import CrossSigning.

Section Facts.
Context (W : World).

(** ** What an update leaves alone *)

(** States that differ in their changes only. *)
Definition same_keys (s t : State) : Prop :=
  keyid_key t = keyid_key s /\ (forall slot, index slot t = index slot s) /\ replacement_allowed t = replacement_allowed s.

Lemma same_keys_refl s : same_keys s s.
Proof. by split_and!. Qed.
Lemma same_keys_trans s t u : same_keys s t -> same_keys t u -> same_keys s u.
Proof. intros (? & H1 & ?) (? & H2 & ?). split_and!; [congruence|intros slot; by rewrite H2|congruence]. Qed.

Lemma change_same e n user id s : same_keys s (change e n user id s).
Proof. unfold change. destruct (change_io e id); [|apply same_keys_refl]. split_and!; [done|by intros []|done]. Qed.

Lemma mark_same e user s : same_keys s (mark_device_key_update e user s).1.
Proof.
  unfold mark_device_key_update. destruct (count e) as [n|]; [|apply same_keys_refl]. cbn [fst].
  eapply same_keys_trans; [|apply change_same]. generalize (List.filter (is_encrypted_room e) (rooms_joined e user)). intros l.
  revert s. induction l as [|r l IH]; intros s; [apply same_keys_refl|]. eapply same_keys_trans; [apply change_same|apply IH].
Qed.

(** ** A user's cross-signing keys *)

Definition sigs_valid (key : Key) : Prop :=
  match signatures key with Some (SigsOf m) => map_Forall (fun user _ => valid_user W user = true) m | _ => True end.

(** The row an index names holds a key of the user with that public key. *)
Definition wf (u : string) (s : State) : Prop :=
  forall slot id, index slot s !! u = Some id -> id.1 = u /\
    exists key, keyid_key s !! id = Some key /\ public_keys W (rest key) = [id.2] /\ sigs_valid key.

(** A cross-signing key but for its signatures. *)
Definition identity (slot : Slot) (u : string) (s : State) : option string := id ← index slot s !! u; rest <$> keyid_key s !! id.

Definition has_master (u : string) (s : State) : Prop := exists key, get_master_key W None u (fun _ => true) s = Ok key.

Lemma index_set slot slot' u u' id s :
  index slot (set_index slot' u' id s) !! u = if decide (slot = slot' /\ u = u') then Some id else index slot s !! u.
Proof.
  destruct (decide (slot = slot' /\ u = u')) as [[-> ->]|Hne]; [destruct slot'; apply lookup_insert_eq|].
  destruct slot, slot'; cbn; try done; (apply lookup_insert_ne; intros ->; by apply Hne).
Qed.
Lemma keys_set slot u id s : keyid_key (set_index slot u id s) = keyid_key s.
Proof. by destruct slot. Qed.

Lemma wf_same u s t : same_keys s t -> wf u s -> wf u t.
Proof. intros (Hk & Hi & _) Hw slot id. rewrite Hi, Hk. apply Hw. Qed.
Lemma identity_same slot u s t : same_keys s t -> identity slot u t = identity slot u s.
Proof. intros (Hk & Hi & _). unfold identity. by rewrite Hi, Hk. Qed.

(** A row that no index of the user names does not matter. *)
Definition names (u : string) (id : KeyId) (s : State) : Prop := exists slot, index slot s !! u = Some id.

Lemma wf_row u id m' s : (forall i, i <> id -> m' !! i = keyid_key s !! i) -> ~ names u id s -> wf u s -> wf u (with_keys m' s).
Proof.
  intros Hm Hn Hw slot i Hi. assert (Hi' : index slot s !! u = Some i) by (by destruct slot). destruct (Hw _ _ Hi') as (? & key & ? & ?).
  split; [done|]. exists key. cbn. rewrite Hm; [done|]. intros ->. apply Hn. by exists slot.
Qed.
Lemma identity_row slot u id m' s : (forall i, i <> id -> m' !! i = keyid_key s !! i) -> ~ names u id s ->
  identity slot u (with_keys m' s) = identity slot u s.
Proof.
  intros Hm Hn. unfold identity. replace (index slot (with_keys m' s)) with (index slot s) by (by destruct slot).
  destruct (index slot s !! u) as [i|] eqn:Ei; [|done]. cbn. rewrite Hm; [done|]. intros ->. apply Hn. by exists slot.
Qed.

Lemma clean_all key u : sigs_valid key -> clean_signatures W key None u (fun _ => true) = Ok key.
Proof.
  unfold sigs_valid, clean_signatures. destruct key as [r [[m|]|]]; cbn; [|done..]. intros Hm.
  rewrite (proj2 (forallb_forall _ _)) by (intros [i x] Hin; apply (Hm i x), elem_of_map_to_list; by apply list_elem_of_In).
  cbn. do 4 f_equal.
  apply map_filter_id. intros i x _. cbn. apply orb_true_r.
Qed.

(** Reading a slot gives the key stored. *)
Lemma get_slot_wf slot u s : wf u s ->
  ok (get_slot_key W slot None u (fun _ => true) s) = (id ← index slot s !! u; keyid_key s !! id).
Proof.
  intros Hw. unfold get_slot_key, get_key. destruct (index slot s !! u) as [id|] eqn:Ei; [|done]. cbn.
  destruct (Hw _ _ Ei) as (_ & key & -> & _ & Hs). cbn. by rewrite clean_all.
Qed.

Lemma has_master_iff u s : wf u s -> has_master u s <-> is_Some (identity Master u s).
Proof.
  intros Hw. pose proof (get_slot_wf Master u s Hw) as Hg. unfold has_master, get_master_key, identity.
  destruct (get_slot_key W Master None u (fun _ => true) s) as [key|e]; cbn [ok] in Hg.
  - destruct (index Master s !! u) as [id|]; [|done]. cbn in *. rewrite <-Hg. split; [by eexists|by exists key].
  - split; [by intros []|]. destruct (index Master s !! u) as [id|]; cbn in *; [rewrite <-Hg|]; by intros [].
Qed.

(** Every step but for failing writes. *)
Definition writes (e : Env) : Prop := (forall id, key_io e id = true) /\ (forall slot, index_io e slot = true).

(** [ruma] reads signatures as a map by user ids. *)
Context (Hvalid : forall key, deserializes W key = true -> sigs_valid key).

Lemma parse_ok key pk : parse_cross_signing_key W key = Ok pk -> public_keys W (rest key) = [pk] /\ sigs_valid key.
Proof.
  unfold parse_cross_signing_key. destruct (deserializes W key) eqn:Ed; [|done]. cbn.
  destruct (public_keys W (rest key)) as [|pk' [|]]; [done| |done]. intros [= <-]. split; [done|]. by apply Hvalid.
Qed.

Lemma not_names u u' x s : wf u s -> u' <> u -> ~ names u (u', x) s.
Proof. intros Hw Hne [slot Hi]. apply Hw in Hi as [He _]. by cbn in He. Qed.

Lemma put_key_keys e id key s : writes e -> put_key e id key s = with_keys (<[id := key]> (keyid_key s)) s.
Proof. intros [Hw _]. unfold put_key. by rewrite Hw. Qed.

Lemma add_slot_wf e u u' slot key s : writes e -> wf u s -> wf u (add_slot W e u' slot key s).1.
Proof.
  intros Hwr Hw. destruct key as [key|]; [|done]. cbn [add_slot]. destruct (parse_cross_signing_key W key) as [pk|] eqn:Ep; [|done].
  apply parse_ok in Ep as [Hpk Hs]. rewrite put_key_keys by done. destruct Hwr as [_ ->]. cbn [fst].
  intros slot' id Hi. rewrite keys_set. rewrite index_set in Hi. cbn [with_keys keyid_key].
  replace (index slot' (with_keys _ s)) with (index slot' s) in Hi by (by destruct slot').
  assert (Hid : id = (u', pk) /\ u = u' \/ index slot' s !! u = Some id) by (destruct (decide _) as [[_ ->]|]; [left; by injection Hi|by right]).
  destruct Hid as [[-> ->]|Hid]; [split; [done|]; exists key; by rewrite lookup_insert_eq|].
  destruct (Hw _ _ Hid) as (Hu & key' & Hk & Hp & Hs'). split; [done|].
  destruct (decide (id = (u', pk))) as [->|]; [exists key; by rewrite lookup_insert_eq|exists key'; by rewrite lookup_insert_ne].
Qed.

Lemma add_slot_other e u u' slot' key s slot : writes e -> wf u s -> u' <> u ->
  identity slot u (add_slot W e u' slot' key s).1 = identity slot u s.
Proof.
  intros Hwr Hw Hne. destruct key as [key|]; [|done]. cbn [add_slot]. destruct (parse_cross_signing_key W key) as [pk|]; [|done].
  rewrite put_key_keys by done. destruct Hwr as [_ ->]. cbn [fst]. unfold identity. rewrite index_set, keys_set.
  rewrite decide_False by naive_solver. apply (identity_row slot u (u', pk)); [by intros; apply lookup_insert_ne|by apply not_names].
Qed.

(** What a user's slot holds. *)
Definition held (slot : Slot) (u : string) (s : State) : option Key := id ← index slot s !! u; keyid_key s !! id.

Lemma held_identity slot u s : identity slot u s = rest <$> held slot u s.
Proof. unfold identity, held. by destruct (index slot s !! u). Qed.

(** Storing what is there changes nothing. *)
Lemma add_slot_again e u slot key s : writes e -> wf u s -> (forall k, key = Some k -> held slot u s = Some k) ->
  same_keys s (add_slot W e u slot key s).1.
Proof.
  intros Hwr Hw Hk. destruct key as [key|]; [|apply same_keys_refl]. cbn [add_slot].
  destruct (parse_cross_signing_key W key) as [pk|] eqn:Ep; [|apply same_keys_refl]. apply parse_ok in Ep as [Hpk _].
  specialize (Hk _ eq_refl). unfold held in Hk. destruct (index slot s !! u) as [id|] eqn:Ei; [|done]. cbn in Hk.
  destruct (Hw _ _ Ei) as (Hu & key' & Hk' & Hp & _). rewrite Hk in Hk'. injection Hk' as <-. rewrite Hpk in Hp. injection Hp as Hp.
  assert (id = (u, pk)) as -> by (destruct id; cbn in *; by subst). rewrite put_key_keys by done. destruct Hwr as [_ ->]. cbn [fst].
  split_and!; [rewrite keys_set; cbn; by apply insert_id| |by destruct slot].
  intros slot'. apply map_eq. intros v. rewrite index_set. replace (index slot' (with_keys _ s)) with (index slot' s) by (by destruct slot').
  destruct (decide _) as [[-> ->]|]; [by rewrite Ei|done].
Qed.

Lemma add_all_invariant (P : State -> Prop) e user m ss us notify s :
  (forall slot key s, P s -> P (add_slot W e user slot key s).1) -> (forall s, P s -> P (mark_device_key_update e user s).1) ->
  P s -> P (add_cross_signing_keys W e user m ss us notify s).1.
Proof.
  intros Hslot Hmark Hs. unfold add_cross_signing_keys, and_then.
  pose proof (Hslot Master m s Hs) as H1. destruct (add_slot W e user Master m s) as [s1 [[]|]]; [|done]. cbn [fst] in H1.
  pose proof (Hslot SelfSigning ss s1 H1) as H2. destruct (add_slot W e user SelfSigning ss s1) as [s2 [[]|]]; [|done]. cbn [fst] in H2.
  pose proof (Hslot UserSigning us s2 H2) as H3. destruct (add_slot W e user UserSigning us s2) as [s3 [[]|]]; [|done]. cbn [fst] in H3.
  destruct notify; [by apply Hmark|done].
Qed.

Lemma add_all_wf e u user m ss us notify s : writes e -> wf u s -> wf u (add_cross_signing_keys W e user m ss us notify s).1.
Proof. intros Hwr. apply add_all_invariant; [intros; by apply add_slot_wf|]. intros s' Hs'. eapply wf_same; [apply mark_same|done]. Qed.

Lemma add_all_other e u user m ss us notify s : writes e -> wf u s -> user <> u ->
  forall slot, identity slot u (add_cross_signing_keys W e user m ss us notify s).1 = identity slot u s.
Proof.
  intros Hwr Hw Hne. set (P := fun t => wf u t /\ forall slot, identity slot u t = identity slot u s).
  enough (P (add_cross_signing_keys W e user m ss us notify s).1) by apply H. apply add_all_invariant; [| |by split].
  - intros slot' key t [Ht Hi]. split; [by apply add_slot_wf|]. intros slot. rewrite add_slot_other by done. apply Hi.
  - intros t [Ht Hi]. split; [eapply wf_same; [apply mark_same|done]|]. intros slot. rewrite (identity_same _ _ _ _ (mark_same e user t)). apply Hi.
Qed.

Lemma held_same slot u s t : same_keys s t -> held slot u t = held slot u s.
Proof. intros (Hk & Hi & _). unfold held. by rewrite Hi, Hk. Qed.

Lemma add_all_again e u m ss us notify s : writes e -> wf u s ->
  (forall k, m = Some k -> held Master u s = Some k) -> (forall k, ss = Some k -> held SelfSigning u s = Some k) ->
  (forall k, us = Some k -> held UserSigning u s = Some k) ->
  same_keys s (add_cross_signing_keys W e u m ss us notify s).1.
Proof.
  intros Hwr Hw Hm Hss Hus. unfold add_cross_signing_keys, and_then.
  pose proof (add_slot_again e u Master m s Hwr Hw Hm) as H1. destruct (add_slot W e u Master m s) as [s1 [[]|]]; [|done]. cbn [fst] in H1.
  pose proof (add_slot_again e u SelfSigning ss s1 Hwr (wf_same _ _ _ H1 Hw)) as H2. rewrite (held_same _ _ _ _ H1) in H2. specialize (H2 Hss).
  destruct (add_slot W e u SelfSigning ss s1) as [s2 [[]|]]; [|by eapply same_keys_trans]. cbn [fst] in H2.
  pose proof (same_keys_trans _ _ _ H1 H2) as H12.
  pose proof (add_slot_again e u UserSigning us s2 Hwr (wf_same _ _ _ H12 Hw)) as H3. rewrite (held_same _ _ _ _ H12) in H3. specialize (H3 Hus).
  destruct (add_slot W e u UserSigning us s2) as [s3 [[]|]]; [|by eapply same_keys_trans]. cbn [fst] in H3.
  destruct notify; [|by eapply same_keys_trans]. eapply same_keys_trans; [by eapply same_keys_trans|apply mark_same].
Qed.

(** ** Signing *)

Lemma sign_key_spec e target key_id sg sender s : writes e ->
  let '(s', r) := sign_key e target key_id sg sender s in
  same_keys s s' \/
  exists key m own, keyid_key s !! (target, key_id) = Some key /\ signatures key = Some (SigsOf m) /\ default (SigMap ∅) (m !! sender) = SigMap own /\
    same_keys (with_keys (<[(target, key_id) := mkKey (rest key) (Some (SigsOf (<[sender := SigMap (<[sg.1 := Text sg.2]> own)]> m)))]> (keyid_key s)) s) s'.
Proof.
  intros Hwr. unfold sign_key. destruct (keyid_key s !! (target, key_id)) as [key|] eqn:Ek; [|left; apply same_keys_refl].
  destruct (signatures key) as [[m|]|] eqn:Es; [|left; apply same_keys_refl..].
  destruct (default (SigMap ∅) (m !! sender)) as [own|] eqn:Eo; [|left; apply same_keys_refl].
  rewrite put_key_keys by done. match goal with |- context [mark_device_key_update e target ?t] => pose proof (mark_same e target t) as Hm end.
  destruct (mark_device_key_update e target _) as [s' r]. right. by exists key, m, own.
Qed.

Lemma sign_keeps e u target key_id sg sender s : writes e -> valid_user W sender = true -> wf u s ->
  wf u (sign_key e target key_id sg sender s).1 /\ forall slot, identity slot u (sign_key e target key_id sg sender s).1 = identity slot u s.
Proof.
  intros Hwr Hsd Hw. pose proof (sign_key_spec e target key_id sg sender s Hwr) as Hs. destruct (sign_key e target key_id sg sender s) as [s' r]. cbn [fst].
  destruct Hs as [Hs|(key & m & own & Hk & Hsig & _ & Hs)]; [split; [by eapply wf_same|intros slot; by apply identity_same]|].
  set (key' := mkKey (rest key) _) in Hs.
  assert (Hi : forall slot, index slot (with_keys (<[(target, key_id) := key']> (keyid_key s)) s) = index slot s) by (by intros []).
  split.
  - eapply wf_same; [done|]. intros slot id. rewrite Hi. intros (Hu & k & Hk' & Hp & Hv)%Hw. split; [done|]. cbn.
    destruct (decide (id = (target, key_id))) as [->|]; [|exists k; by rewrite lookup_insert_ne].
    exists key'. rewrite lookup_insert_eq. rewrite Hk in Hk'. injection Hk' as <-. split_and!; [done..|].
    unfold sigs_valid in *. rewrite Hsig in Hv. cbn. by apply map_Forall_insert_2.
  - intros slot. rewrite (identity_same _ _ _ _ Hs). unfold identity. rewrite Hi. destruct (index slot s !! u) as [id|]; [|done]. cbn.
    destruct (decide (id = (target, key_id))) as [->|]; [by rewrite lookup_insert_eq, Hk|by rewrite lookup_insert_ne].
Qed.

(** ** Histories *)

Inductive Op :=
  | UploadDevice (same : Key -> bool) (sender device : string) (owner : option KeyId) (key : Key)
  | RemoveDevice (user device : string)
  | UploadSigning (uiaa : bool) (sender : string) (master self_signing user_signing : option Key)
  | Sign (target key_id : string) (signature : string * string) (sender : string)
  | Update (origin user : string) (master self_signing : option Key)
  | Approve (user : string).

Definition exec (e : Env) (op : Op) (s : State) : State :=
  match op with
  | UploadDevice same sender device owner key => (upload_device_keys e same sender device owner key s).1
  | RemoveDevice user device => (remove_device_keys e user device s).1
  | UploadSigning uiaa sender m ss us => (upload_signing_keys W e uiaa sender m ss us s).1
  | Sign target key_id sg sender => (sign_key e target key_id sg sender s).1
  | Update origin user m ss => (signing_key_update W e origin user m ss s).1
  | Approve user => allow_cross_signing_replacement e user s
  end.

Fixpoint run (steps : list (Env * Op)) (s : State) : State :=
  match steps with [] => s | (e, op) :: steps => run steps (exec e op s) end.

(** Who signs is a user, and notices come from other servers. *)
Definition admissible (op : Op) : Prop :=
  match op with
  | Sign _ _ _ sender => valid_user W sender = true
  | Update origin _ _ _ => origin <> server_name W
  | _ => True
  end.

(** A device of the user with the name of one of the user's public keys. *)
Definition collides (u : string) (op : Op) (s : State) : Prop :=
  match op with
  | UploadDevice _ user device _ _ | RemoveDevice user device => user = u /\ names u (u, device) s
  | _ => False
  end.

(** The user authenticates interactively, or approved it in the last ten minutes. *)
Definition consents (e : Env) (u : string) (op : Op) (s : State) : Prop :=
  match op with
  | UploadSigning uiaa sender _ _ _ => sender = u /\ (uiaa = true \/ can_replace_cross_signing_keys e u s = true)
  | _ => False
  end.

Fixpoint orderly (u : string) (steps : list (Env * Op)) (s : State) : Prop :=
  match steps with
  | [] => True
  | (e, op) :: steps => writes e /\ admissible op /\ ~ collides u op s /\ orderly u steps (exec e op s)
  end.
Fixpoint unasked (u : string) (steps : list (Env * Op)) (s : State) : Prop :=
  match steps with [] => True | (e, op) :: steps => ~ consents e u op s /\ unasked u steps (exec e op s) end.

Lemma device_row_keeps e u user device (f : option Key -> option Key) s :
  ~ (user = u /\ names u (u, device) s) -> wf u s ->
  let s' := (mark_device_key_update e user (with_keys (partial_alter f (user, device) (keyid_key s)) s)).1 in
  wf u s' /\ forall slot, identity slot u s' = identity slot u s.
Proof.
  intros Hn Hw s'. assert (Hn' : ~ names u (user, device) s).
  { destruct (decide (user = u)) as [->|]; [|by apply not_names]. intros ?. by apply Hn. }
  assert (Hrow : forall i, i <> (user, device) -> partial_alter f (user, device) (keyid_key s) !! i = keyid_key s !! i) by (intros; by apply lookup_partial_alter_ne).
  split; [eapply wf_same; [apply mark_same|by eapply wf_row]|]. intros slot. unfold s'. rewrite (identity_same _ _ _ _ (mark_same _ _ _)). by eapply identity_row.
Qed.

Lemma upload_signing_unasked e u uiaa m ss us s : writes e -> wf u s -> has_master u s ->
  ~ (uiaa = true \/ can_replace_cross_signing_keys e u s = true) -> same_keys s (upload_signing_keys W e uiaa u m ss us s).1.
Proof.
  intros Hwr Hw [key0 Hm] Hno. unfold upload_signing_keys. cbv zeta.
  assert (H1 : ok (get_master_key W None u (fun _ => true) s) = held Master u s) by (by apply get_slot_wf).
  assert (H2 : ok (get_self_signing_key W None u (fun _ => true) s) = held SelfSigning u s) by (by apply get_slot_wf).
  assert (H3 : ok (get_user_signing_key u s) = held UserSigning u s).
  { unfold get_user_signing_key, held. cbn [index]. destruct (userid_usersigningkeyid s !! u) as [id|]; [|done]. cbn. by destruct (keyid_key s !! id). }
  assert (Hsome : is_Some (held Master u s)) by (rewrite <-H1, Hm; by eexists). rewrite H1, H2, H3.
  assert (uiaa = false) as -> by (destruct uiaa; [|done]; exfalso; apply Hno; by left).
  destruct (can_replace_cross_signing_keys e u s); [exfalso; apply Hno; by right|]. rewrite bool_decide_eq_true_2 by done. cbn [andb negb].
  assert (Hsame : forall slot key, is_replaced (held slot u s) key = false -> forall k, key = Some k -> held slot u s = Some k).
  { intros slot key Hr k ->. cbn in Hr. destruct (held slot u s) as [k'|]; [|done]. apply negb_false_iff, bool_decide_eq_true in Hr. by subst. }
  destruct (is_replaced (held Master u s) m) eqn:E1; [apply same_keys_refl|]. destruct (is_replaced (held SelfSigning u s) ss) eqn:E2; [apply same_keys_refl|].
  destruct (is_replaced (held UserSigning u s) us) eqn:E3; [apply same_keys_refl|]. cbn [orb andb].
  destruct (_ && _); [apply same_keys_refl|]. apply add_all_again; eauto.
Qed.

Lemma exec_wf e u op s : writes e -> admissible op -> ~ collides u op s -> wf u s -> wf u (exec e op s).
Proof.
  intros Hwr Ha Hc Hw. destruct op as [same sender device owner key|user device|uiaa sender m ss us|target kid sg sender|origin user m ss|user]; cbn in Ha, Hc |- *.
  - unfold upload_device_keys. destruct owner as [[u' d']|]; [|done]. destruct (_ || _); [done|]. destruct (match get_device_keys _ _ _ with Ok _ => _ | Err _ => _ end); [done|].
    unfold add_device_keys. rewrite put_key_keys by done. by apply (device_row_keeps e u sender device (fun _ => Some key) s).
  - unfold remove_device_keys. destruct Hwr as [Hk _]. rewrite Hk. by apply (device_row_keeps e u user device (fun _ => None) s).
  - unfold upload_signing_keys. cbv zeta. destruct (_ && _ && _ && _); [done|]. destruct (_ && _); [done|]. by apply add_all_wf.
  - by apply sign_keeps.
  - unfold signing_key_update. destruct (String.eqb _ _); [|done]. cbn [negb]. pose proof (add_all_wf e u user m ss None true s Hwr Hw) as H.
    destruct (add_cross_signing_keys _ _ _ _ _ _ _ _) as [s' [[]|[]]]; done.
  - exact Hw.
Qed.

Lemma exec_keeps_identity e u op s : writes e -> admissible op -> ~ collides u op s -> ~ consents e u op s -> wf u s -> has_master u s ->
  server_of W u = server_name W -> forall slot, identity slot u (exec e op s) = identity slot u s.
Proof.
  intros Hwr Ha Hc Hno Hw Hm Hl slot. destruct op as [same sender device owner key|user device|uiaa sender m ss us|target kid sg sender|origin user m ss|user]; cbn in Ha, Hc, Hno |- *.
  - unfold upload_device_keys. destruct owner as [[u' d']|]; [|done]. destruct (_ || _); [done|]. destruct (match get_device_keys _ _ _ with Ok _ => _ | Err _ => _ end); [done|].
    unfold add_device_keys. rewrite put_key_keys by done. by apply (device_row_keeps e u sender device (fun _ => Some key) s).
  - unfold remove_device_keys. destruct Hwr as [Hk _]. rewrite Hk. by apply (device_row_keeps e u user device (fun _ => None) s).
  - destruct (decide (sender = u)) as [->|Hne].
    + apply identity_same, upload_signing_unasked; [done..|]. intros Hyes. by apply Hno.
    + unfold upload_signing_keys. cbv zeta. destruct (_ && _ && _ && _); [done|]. destruct (_ && _); [done|]. by apply add_all_other.
  - by apply sign_keeps.
  - unfold signing_key_update. destruct (String.eqb_spec (server_of W user) origin) as [He|]; [|done]. cbn [negb].
    assert (user <> u) as Hne by (intros ->; congruence). pose proof (add_all_other e u user m ss None true s Hwr Hw Hne slot) as H.
    destruct (add_cross_signing_keys _ _ _ _ _ _ _ _) as [s' [[]|[]]]; done.
  - done.
Qed.

Lemma run_wf u steps : forall s, orderly u steps s -> wf u s -> wf u (run steps s).
Proof. induction steps as [|[e op] steps IH]; intros s; [done|]. cbn. intros (? & ? & ? & ?) Hw. apply IH; [done|]. by apply exec_wf. Qed.

Lemma run_keeps u steps : server_of W u = server_name W -> forall s, orderly u steps s -> unasked u steps s -> wf u s -> has_master u s ->
  forall slot, identity slot u (run steps s) = identity slot u s.
Proof.
  intros Hl. induction steps as [|[e op] steps IH]; intros s; [done|]. cbn. intros (Hwr & Ha & Hc & Ho) (Hno & Hu) Hw Hm slot.
  pose proof (exec_keeps_identity e u op s Hwr Ha Hc Hno Hw Hm Hl) as Hk. pose proof (exec_wf e u op s Hwr Ha Hc Hw) as Hw'.
  rewrite IH; [apply Hk|done..|]. apply has_master_iff; [done|]. rewrite Hk. by apply has_master_iff.
Qed.

(** C26: Whatever devices upload, whoever signs what and whatever other servers announce, the
    cross-signing keys of a user of this server who has a master key stay as they are but
    for signatures, and none is added, until the user uploads others and authenticates
    interactively or approved it less than ten minutes ago. Writes are taken to succeed,
    and no device of the user to be named like one of the user's public keys. *)
Theorem identity_by_consent u before after s0 :
  server_of W u = server_name W -> (forall slot, index slot s0 !! u = None) -> orderly u before s0 ->
  let s := run before s0 in
  has_master u s -> orderly u after s -> unasked u after s -> forall slot, identity slot u (run after s) = identity slot u s.
Proof.
  intros Hl H0 Hb s Hm Ha Hu. apply run_keeps; [done..| |done]. apply run_wf; [done|]. intros slot id. by rewrite H0.
Qed.

(** ** Whose signatures change *)

Definition signed_by (user : string) (key : Key) : option UserSigs :=
  match signatures key with Some (SigsOf m) => m !! user | _ => None end.

(** Between two states only signatures of one user differ. *)
Definition only_signed (sender : string) (s t : State) : Prop :=
  (forall slot, index slot t = index slot s) /\
  forall id, match keyid_key s !! id, keyid_key t !! id with
             | Some k, Some k' => rest k' = rest k /\ forall user, user <> sender -> signed_by user k' = signed_by user k
             | None, None => True
             | _, _ => False
             end.

Lemma only_signed_same sender s t : same_keys s t -> only_signed sender s t.
Proof. intros (Hk & Hi & _). split; [done|]. intros id. rewrite Hk. by destruct (keyid_key s !! id). Qed.
Lemma only_signed_trans sender s t u : only_signed sender s t -> only_signed sender t u -> only_signed sender s u.
Proof.
  intros [I1 K1] [I2 K2]. split; [intros slot; by rewrite I2|]. intros id. specialize (K1 id). specialize (K2 id).
  destruct (keyid_key s !! id), (keyid_key t !! id), (keyid_key u !! id); try done. destruct K1 as [? H1], K2 as [? H2].
  split; [congruence|]. intros user Hu. rewrite H2, H1; done.
Qed.

Lemma sign_key_only e target key_id sg sender s : only_signed sender s (sign_key e target key_id sg sender s).1.
Proof.
  unfold sign_key. destruct (keyid_key s !! (target, key_id)) as [key|] eqn:Ek; [|apply only_signed_same, same_keys_refl].
  destruct (signatures key) as [[m|]|] eqn:Es; [|apply only_signed_same, same_keys_refl..].
  destruct (default (SigMap ∅) (m !! sender)) as [own|]; [|apply only_signed_same, same_keys_refl].
  eapply only_signed_trans; [|apply only_signed_same, mark_same]. unfold put_key. destruct (key_io e (target, key_id)); [|apply only_signed_same, same_keys_refl].
  split; [by intros []|]. intros id. cbn. destruct (decide (id = (target, key_id))) as [->|]; [|rewrite lookup_insert_ne by done; by destruct (keyid_key s !! id)].
  rewrite Ek, lookup_insert_eq. split; [done|]. intros user Hu. unfold signed_by. cbn. rewrite Es. by apply lookup_insert_ne.
Qed.

Lemma sign_all_only es target key_id sender sigs : forall s, only_signed sender s (sign_all es sender target key_id sigs s).1.1.
Proof.
  induction sigs as [|[id [sg|]] sigs IH]; intros s; cbn [sign_all]; [apply only_signed_same, same_keys_refl| |apply IH].
  pose proof (sign_key_only (es (length sigs)) target key_id (id, sg) sender s) as H1.
  destruct (sign_key _ _ _ _ _ _) as [s1 r]. cbn [fst] in H1. specialize (IH s1). destruct (sign_all _ _ _ _ _ _) as [[s2 f] p]. cbn [fst] in IH.
  destruct r as [[]|[]]; cbn [fst]; try done; by eapply only_signed_trans.
Qed.

(** A request with signatures changes the signatures of its sender only, on whichever keys,
    also where writes fail or it panics. *)
Theorem signatures_own es sender signed : forall s, only_signed sender s (upload_signatures es sender signed s).1.1.
Proof.
  induction signed as [|[[target key_id] key] signed IH]; intros s; cbn [upload_signatures]; [apply only_signed_same, same_keys_refl|].
  pose proof (sign_all_only (es (length signed)) target key_id sender (own_signatures sender key) s) as H1.
  destruct (sign_all _ _ _ _ _ _) as [[s1 f] [|]]; cbn [fst] in *; [done|]. specialize (IH s1).
  destruct (upload_signatures _ _ _ _) as [[s2 f2] p]. cbn [fst] in *. by eapply only_signed_trans.
Qed.

(** ** What others are shown *)

Lemma slot_key_shown slot sender user allowed s k : get_slot_key W slot sender user allowed s = Ok k ->
  exists k0, held slot user s = Some k0 /\ rest k = rest k0 /\
    forall v, signed_by v k = if bool_decide (sender = Some user) || String.eqb v user || allowed v then signed_by v k0 else None.
Proof.
  unfold get_slot_key, get_key, held. destruct (index slot s !! user) as [id|]; [|done]. cbn. destruct (keyid_key s !! id) as [k0|]; [|done]. cbn.
  intros H. exists k0. split; [done|]. revert H. unfold clean_signatures, signed_by. destruct (signatures k0) as [[m|j]|] eqn:Es.
  - destruct (forallb _ _); [|done]. intros [= <-]. split; [done|]. intros v. cbn. rewrite map_lookup_filter. cbn.
    destruct (m !! v); [|by destruct (_ || _)]. cbn. by destruct (_ || _).
  - intros [= <-]. split; [done|]. intros v. rewrite Es. by destruct (_ || _).
  - intros [= <-]. split; [done|]. intros v. rewrite Es. by destruct (_ || _).
Qed.

Lemma keyed_Some user u key k : keyed user key !! u = Some k -> u = user /\ key = Some k.
Proof. unfold keyed. destruct key as [key|]; [|done]. intros [-> ->]%lookup_singleton_Some. done. Qed.

Lemma local_keys_shown D users sender allowed include s u :
  let keys := local_keys W D users sender allowed include s in
  (forall k, master_keys keys !! u = Some k -> get_master_key W sender u allowed s = Ok k) /\
  (forall k, self_signing_keys keys !! u = Some k -> get_self_signing_key W sender u allowed s = Ok k) /\
  (forall k, user_signing_keys keys !! u = Some k -> sender = Some u).
Proof.
  cbv zeta. unfold local_keys. set (P := fun keys =>
    (forall k, master_keys keys !! u = Some k -> get_master_key W sender u allowed s = Ok k) /\
    (forall k, self_signing_keys keys !! u = Some k -> get_self_signing_key W sender u allowed s = Ok k) /\
    (forall k, user_signing_keys keys !! u = Some k -> sender = Some u)).
  enough (forall k0, P k0 -> P (foldl (fun keys ud => merge keys (user_keys W D ud.1 ud.2 sender allowed include s)) k0 users)) as H
    by (apply H; split_and!; intros k; cbn; by rewrite lookup_empty).
  induction users as [|[v ds] users IH]; intros k0 HP; [done|]. cbn [foldl]. apply IH. destruct HP as (P1 & P2 & P3).
  assert (Hok : forall r k, ok r = Some k -> r = Ok k :> result error Key) by (intros [] ?; cbn; congruence).
  split_and!; intros k; cbn; rewrite lookup_union_Some_raw; (intros [[-> Hk]%keyed_Some|[_ Hk]]; [|by eauto]); [by apply Hok..|].
  revert Hk. case_bool_decide; done.
Qed.

(** A client sees, of the master and self-signing keys of others, the signatures of their
    owner and its own; a server, those of the owner and of its users. User-signing keys are
    shown to their owner only. *)
Theorem signatures_shown D sender users s u :
  let keys := get_keys_local W D sender users s in
  (forall k v, (master_keys keys !! u = Some k \/ self_signing_keys keys !! u = Some k) -> is_Some (signed_by v k) -> sender = u \/ v = u \/ v = sender) /\
  (forall k, user_signing_keys keys !! u = Some k -> sender = u) /\
  (forall names_ origin devices masters selfs, federation_get_keys W D names_ origin users s = Ok (devices, masters, selfs) ->
    forall k v, (masters !! u = Some k \/ selfs !! u = Some k) -> is_Some (signed_by v k) -> v = u \/ server_of W v = origin).
Proof.
  assert (Hsee : forall slot snd_ allowed k v, get_slot_key W slot snd_ u allowed s = Ok k -> is_Some (signed_by v k) ->
    snd_ = Some u \/ v = u \/ allowed v = true).
  { intros slot snd_ allowed k v (k0 & _ & _ & ->)%slot_key_shown. case_bool_decide; [by left|]. destruct (String.eqb_spec v u); [by right; left|].
    cbn. destruct (allowed v); [by right; right|by intros []]. }
  cbv zeta. unfold get_keys_local. split_and!.
  - destruct (local_keys_shown D (List.filter (fun ud => user_is_local W ud.1) users) (Some sender) (fun x => String.eqb x sender) true s u) as (H1 & H2 & _).
    intros k v [Hk%H1|Hk%H2] Hv; destruct (Hsee _ _ _ _ _ Hk Hv) as [[= ->]|[->|?%String.eqb_eq]]; auto.
  - intros k Hk. apply local_keys_shown in Hk. by injection Hk.
  - intros names_ origin devices masters selfs. unfold federation_get_keys. destruct (existsb _ _); [done|]. intros [= <- <- <-].
    destruct (local_keys_shown D users None (fun x => String.eqb (server_of W x) origin) names_ s u) as (H1 & H2 & _).
    intros k v [Hk%H1|Hk%H2] Hv; destruct (Hsee _ _ _ _ _ Hk Hv) as [|[->|?%String.eqb_eq]]; auto; done.
Qed.

(** ** Who is told of changes *)

Definition told (e : Env) (user : string) : list string := List.filter (is_encrypted_room e) (rooms_joined e user).

Lemma elem_of_told e user room : room ∈ told e user <-> room ∈ rooms_joined e user /\ is_encrypted_room e room = true.
Proof. unfold told. rewrite !list_elem_of_In. apply filter_In. Qed.

(** The rows of an update, where they are written. *)
Lemma update_rows e user n s id c : count e = Some n -> (forall i, change_io e i = true) ->
  keychangeid_userid (mark_device_key_update e user s).1 !! (id, c) =
  if decide (c = n /\ (id = user \/ id ∈ told e user)) then Some user else keychangeid_userid s !! (id, c).
Proof.
  intros Hn Hio. unfold mark_device_key_update. rewrite Hn. cbn [fst]. fold (told e user). unfold change at 1. rewrite Hio. cbn [with_changes keychangeid_userid].
  assert (Hf : forall l s, keychangeid_userid (foldl (fun s room => change e n user room s) s l) !! (id, c) =
    if decide (c = n /\ id ∈ l) then Some user else keychangeid_userid s !! (id, c)).
  { intros l. induction l as [|r l IH]; intros s'; cbn [foldl]; [rewrite decide_False; [done|]; by intros [_ ?%not_elem_of_nil]|].
    rewrite IH. unfold change. rewrite Hio. cbn [with_changes keychangeid_userid].
    destruct (decide (c = n /\ id ∈ l)) as [[-> Hl]|Hl]; [rewrite decide_True; [done|]; split; [done|by right]|].
    destruct (decide ((id, c) = (r, n))) as [[= -> ->]|Hne]; [rewrite lookup_insert_eq, decide_True; [done|]; split; [done|by left]|].
    rewrite lookup_insert_ne by done. rewrite decide_False; [done|]. intros [-> [->|?]%elem_of_cons]; [done|]. by apply Hl. }
  destruct (decide ((id, c) = (user, n))) as [[= -> ->]|Hne]; [rewrite lookup_insert_eq, decide_True; [done|]; split; [done|by left]|].
  rewrite lookup_insert_ne by done. rewrite Hf. destruct (decide (c = n /\ id ∈ told e user)) as [[-> ?]|Hl]; [rewrite decide_True; [done|]; split; [done|by right]|].
  rewrite decide_False; [done|]. intros [-> [->|?]]; [done|]. by apply Hl.
Qed.

(** Updates in the order of their numbers. *)
Fixpoint marks (l : list (Env * string)) (s : State) : State :=
  match l with [] => s | (e, user) :: l => marks l (mark_device_key_update e user s).1 end.

Definition numbered (l : list (Env * string)) : Prop :=
  NoDup ((fun eu : Env * string => count eu.1) <$> l) /\ Forall (fun eu => is_Some (count eu.1) /\ forall i, change_io eu.1 i = true) l.

Lemma marks_rows l : forall s, numbered l -> forall id c v, keychangeid_userid (marks l s) !! (id, c) = Some v <->
  (exists e, (e, v) ∈ l /\ count e = Some c /\ (id = v \/ id ∈ told e v)) \/
  (keychangeid_userid s !! (id, c) = Some v /\ forall e u, (e, u) ∈ l -> count e = Some c -> ~ (id = u \/ id ∈ told e u)).
Proof.
  induction l as [|[e u] l IH]; intros s [Hd Hf] id c v; cbn [marks].
  { split; [intros ?; right; split; [done|]; by intros ? ? ?%not_elem_of_nil|]. intros [(? & ?%not_elem_of_nil & _)|[? _]]; done. }
  apply NoDup_cons in Hd as [Hn Hd]. apply Forall_cons in Hf as [[[n He] Hio] Hf]. cbn in He, Hn.
  assert (Hfresh : forall e' v', (e', v') ∈ l -> count e' <> Some n).
  { intros e' v' Hin Hc. apply Hn. rewrite He, <-Hc. apply list_elem_of_fmap. by exists (e', v'). }
  rewrite IH by done. rewrite (update_rows e u n) by done. split.
  - intros [(e' & Hin & ?)|[Hk Hno]]; [left; exists e'; split; [by right|done]|].
    destruct (decide (c = n /\ (id = u \/ id ∈ told e u))) as [[-> Hid]|Hc]; [injection Hk as <-; left; exists e; split_and!; [by left|done..]|].
    right. split; [done|]. intros e' u' [[= -> ->]|Hin]%elem_of_cons He' Hid; [apply Hc; split; [congruence|done]|by eapply Hno].
  - intros [(e' & [[= -> ->]|Hin]%elem_of_cons & Hc & Hid)|[Hk Hno]].
    + right. rewrite He in Hc. injection Hc as <-. rewrite decide_True by done. split; [done|]. intros e'' u'' Hin Hc. by destruct (Hfresh _ _ Hin).
    + left. by exists e'.
    + right. rewrite decide_False; [split; [done|]|].
      * intros e' u' Hin. apply Hno. by right.
      * intros [-> Hid]. apply (Hno e u); [by left|done..].
Qed.

Lemma changed_elem id from to s v c : (v, c) ∈ keys_changed_user_or_room id from to s <->
  keychangeid_userid s !! (id, c) = Some v /\ u64_saturating_add from 1 <= c <= default u64_max to.
Proof.
  unfold keys_changed_user_or_room. cbv zeta. rewrite list_elem_of_fmap. split.
  - intros ([[i c'] v'] & [= -> ->] & Hin). rewrite sort_by_key_perm in Hin. apply list_elem_of_filter in Hin as [[Hi Hc] Hin]. cbn in Hi, Hc. subst.
    by apply elem_of_map_to_list in Hin.
  - intros [Hk Hc]. exists (id, c, v). split; [done|]. rewrite sort_by_key_perm. apply list_elem_of_filter. split; [done|]. by apply elem_of_map_to_list.
Qed.

(** A user who asks for changes between two numbers is told exactly of the users who
    updated their keys then, of whom the user shares a room now that was encrypted and
    theirs at the time; and of the user's own updates. *)
Theorem key_changes_exact e u from to l s0 v :
  keychangeid_userid s0 = ∅ -> numbered l -> 0 <= from < u64_max ->
  (forall e' w, (e', w) ∈ l -> u ∉ rooms_joined e' w) -> (forall e' w, (e', w) ∈ l -> w ∉ rooms_joined e u) ->
  exists changed, get_key_changes e u (Some from) (Some to) (marks l s0) = Ok changed /\
    (v ∈ changed <-> exists e' n, (e', v) ∈ l /\ count e' = Some n /\ from < n <= to /\
      (v = u \/ exists room, room ∈ rooms_joined e u /\ room ∈ rooms_joined e' v /\ is_encrypted_room e' room = true)).
Proof.
  intros H0 Hl Hfrom Hu Hw. unfold get_key_changes. cbn [ok_or mbind result_bind]. eexists. split; [done|].
  assert (Hfold : forall (rooms : list string) (acc : gset string), v ∈ foldl (fun (changed : gset string) room => changed ∪ list_to_set (room_keys_changed room from (Some to) (marks l s0)).*1) acc rooms <->
    v ∈ acc \/ exists room c, room ∈ rooms /\ (v, c) ∈ room_keys_changed room from (Some to) (marks l s0)).
  { intros rooms. induction rooms as [|r rooms IH]; intros acc; cbn [foldl]; [split; [by left|intros [|(? & ? & ?%not_elem_of_nil & _)]; done]|].
    rewrite IH, elem_of_union, elem_of_list_to_set, list_elem_of_fmap. split.
    - intros [[|([v' c] & -> & ?)]|(r' & c & ? & ?)]; [by left|right; exists r, c; split; [by left|done]|right; exists r', c; split; [by right|done]].
    - intros [|(r' & c & [->|]%elem_of_cons & ?)]; [by left; left|left; right; by exists (v, c)|right; by exists r', c]. }
  rewrite Hfold. unfold keys_changed. rewrite elem_of_list_to_set, list_elem_of_fmap.
  assert (Hrow : forall id c, (v, c) ∈ keys_changed_user_or_room id from (Some to) (marks l s0) <->
    (exists e', (e', v) ∈ l /\ count e' = Some c /\ (id = v \/ id ∈ told e' v)) /\ from < c <= to).
  { intros id c. rewrite changed_elem, (marks_rows l s0 Hl), H0, lookup_empty. replace (u64_saturating_add from 1) with (from + 1) by int_solve. change (default u64_max (Some to)) with to.
    split; [intros [[He|[? _]] ?]; [split; [done|lia]|done]|intros [He ?]; split; [by left|lia]]. }
  unfold room_keys_changed. split.
  - intros [([v' c] & -> & Hin)|(room & c & Hr & Hin)]; apply Hrow in Hin as [(e' & Hin & Hc & Hid) ?]; exists e', c; split_and!; try done; try lia.
    + left. destruct Hid as [->|[Hj _]%elem_of_told]; [done|]. by destruct (Hu _ _ Hin).
    + right. exists room. split; [done|]. destruct Hid as [->|Hid]; [by destruct (Hw _ _ Hin)|]. by apply elem_of_told.
  - intros (e' & n & Hin & Hc & Hr & [->|(room & H1 & H2 & H3)]).
    + left. exists (u, n). split; [done|]. apply Hrow. split; [|done]. exists e'. split_and!; [done..|by left].
    + right. exists room, n. split; [done|]. apply Hrow. split; [|done]. exists e'. split_and!; [done..|]. right. by apply elem_of_told.
Qed.

(** ** Device list updates for a server *)

Lemma select_room_spec upper changes : forall sel, full sel = false -> (length (events sel) < select_edu_limit)%nat ->
  let sel' := select_room upper changes sel in
  (length (events sel') <= select_edu_limit)%nat /\ events sel ⊆ events sel' /\
  (full sel' = false -> (length (events sel') < select_edu_limit)%nat /\
    (StronglySorted (fun a b : string * Z => a.2 <= b.2) changes -> forall v n, (v, n) ∈ changes -> n <= upper -> v ∈ events sel')).
Proof.
  induction changes as [|[v n] changes IH]; intros sel Hf Hlen; cbn [select_room].
  { split_and!; [lia|done|]. intros _. split; [done|]. by intros _ ? ? ?%not_elem_of_nil. }
  destruct (Z.ltb_spec upper n) as [Hn|Hn].
  { split_and!; [lia|done|]. intros _. split; [done|]. intros Hs v' n' Hin Hle. exfalso. apply StronglySorted_inv in Hs as [_ Hs].
    apply elem_of_cons in Hin as [[= -> ->]|Hin]; [lia|]. rewrite Forall_forall in Hs. specialize (Hs _ Hin). cbn in Hs. lia. }
  cbn [events max_edu_count full]. case_bool_decide as Hv.
  - destruct (IH (mkSelected (events sel) (Z.max (max_edu_count sel) n) false) eq_refl Hlen) as (H1 & H2 & H3). split_and!; [done|done|].
    intros Hd. destruct (H3 Hd) as [H4 H5]. split; [done|]. intros [Hs _]%StronglySorted_inv v' n' [[= -> ->]|Hin]%elem_of_cons Hle; [by apply H2|by eapply H5].
  - destruct (Nat.leb_spec (select_edu_limit - 1) (length (events sel))) as [Hfull|Hroom].
    + cbn [events full]. rewrite length_app. cbn [length]. split_and!; [lia|set_solver|done].
    + destruct (IH (mkSelected (events sel ++ [v]) (Z.max (max_edu_count sel) n) false) eq_refl) as (H1 & H2 & H3); [cbn [events]; rewrite length_app; cbn [length]; lia|].
      cbn [events] in H2. split_and!; [done|set_solver|]. intros Hd. destruct (H3 Hd) as [H4 H5]. split; [done|].
      intros [Hs _]%StronglySorted_inv v' n' [[= -> ->]|Hin]%elem_of_cons Hle; [apply H2; set_solver|by eapply H5].
Qed.

Lemma changed_sorted p id from to s :
  StronglySorted (fun a b : string * Z => a.2 <= b.2) (List.filter p (keys_changed_user_or_room id from to s)).
Proof.
  unfold keys_changed_user_or_room. cbv zeta. set (l := filter _ _).
  pose proof (sort_by_key_sorted (fun r : string * Z * string => r.1.2) l) as Hs. revert Hs. generalize (sort_by_key (fun r : string * Z * string => r.1.2) l).
  intros k Hk. induction Hk as [|[[i c] v] k _ IH Hx]; [constructor|]. cbn [fmap list_fmap List.filter]. destruct (p _); [|done]. constructor; [done|].
  apply Forall_forall. intros [v' c'] Hin. apply list_elem_of_In, filter_In in Hin as [Hin _]. apply list_elem_of_In, list_elem_of_fmap in Hin as ([[i2 c2] v2] & [= -> ->] & Hin).
  rewrite Forall_forall in Hx. specialize (Hx _ Hin). unfold key_le in Hx. cbn in Hx |- *. apply ord_le_cases in Hx as [Hx|Hx]; [|lia].
  apply Z.lt_le_incl. exact Hx.
Qed.

(** At most so many users are told of at once; short of that everyone of this server who
    updated keys in the range, in a room the server is in. *)
Theorem device_changes_selected rooms since upper s :
  let sel := select_edus_device_changes W rooms since upper s in
  (length (events sel) <= select_edu_limit)%nat /\
  (full sel = false -> 0 <= since < u64_max -> upper <= u64_max -> forall room v n,
    room ∈ rooms -> keychangeid_userid s !! (room, n) = Some v -> user_is_local W v = true -> since < n <= upper -> v ∈ events sel).
Proof.
  cbv zeta. unfold select_edus_device_changes. set (step := fun sel room => if full sel then sel else _).
  set (P := fun sel => (length (events sel) <= select_edu_limit)%nat /\ (full sel = false -> (length (events sel) < select_edu_limit)%nat)).
  assert (Hstep : forall sel room, P sel -> P (step sel room) /\ events sel ⊆ events (step sel room) /\ (full (step sel room) = false -> full sel = false)).
  { intros sel room [P1 P2]. unfold step. destruct (full sel) eqn:Ef; [split_and!; [by split; [|rewrite Ef]|cbn; set_solver|cbn; congruence]|]. destruct (select_room_spec upper (List.filter (fun un => user_is_local W un.1) (room_keys_changed room since None s)) sel Ef (P2 eq_refl)) as (H1 & H2 & H3).
    split_and!; [|done|done]. split; [done|]. intros Hf. by apply H3. }
  assert (Hfold : forall rooms sel, P sel -> P (foldl step sel rooms) /\ events sel ⊆ events (foldl step sel rooms) /\ (full (foldl step sel rooms) = false -> full sel = false)).
  { intros l. induction l as [|r l IH]; intros sel HP; [done|]. destruct (Hstep sel r HP) as (H1 & H2 & H3). destruct (IH _ H1) as (H4 & H5 & H6).
    cbn [foldl]. split_and!; [done|by etrans|auto]. }
  assert (HP0 : P (mkSelected [] since false)) by (split; cbn; unfold select_edu_limit; lia).
  split; [apply (Hfold rooms _ HP0)|]. intros Hf Hs Hup room v n Hin Hk Hloc Hn. revert Hf.
  generalize (mkSelected [] since false) HP0. clear HP0. induction rooms as [|r rooms IH]; intros sel HP Hf; [by apply not_elem_of_nil in Hin|].
  cbn [foldl] in *. destruct (Hstep sel r HP) as (H1 & H2 & H3). apply elem_of_cons in Hin as [<-|Hin]; [|by apply IH].
  destruct (Hfold rooms _ H1) as (_ & H5 & H6). apply H5. specialize (H6 Hf). specialize (H3 H6). destruct HP as [_ HP]. specialize (HP H3).
  unfold step in H6 |- *. rewrite H3 in H6 |- *.
  destruct (select_room_spec upper (List.filter (fun un => user_is_local W un.1) (room_keys_changed room since None s)) sel H3 HP) as (_ & _ & Hall).
  destruct (Hall H6) as [_ Hv]. eapply (Hv (changed_sorted _ _ _ _ _)); [|apply Hn]. apply list_elem_of_In, filter_In. split; [|done].
  apply list_elem_of_In. unfold room_keys_changed. apply changed_elem. split; [done|]. change (default u64_max None) with u64_max. int_solve.
Qed.

End Facts.
End CrossSigningFacts.

(** ** Cases *)

Module CrossSigningSample.
Import CrossSigning CrossSigningFacts.

(** Every key is its own public key, but for one that has none. *)
Definition W : World :=
  mkWorld (fun _ => true) (fun r => if String.eqb r "none" then [] else [r]) (fun _ => true) (fun _ => "here") "here".
Definition e : Env := mkEnv (fun _ => true) (fun _ => true) (fun _ => true) (Some 1) 0 (fun _ => ["room"]) (fun _ => true).
Definition s0 : State := mkState ∅ ∅ ∅ ∅ ∅ ∅.
Definition key (name : string) : Key := mkKey name (Some (SigsOf ∅)).

(** A first upload; then a signature of the own device, an upload that is refused and the
    keys of the device. *)
Definition before : list (Env * Op) := [(e, UploadSigning false "u" (Some (key "M")) (Some (key "S")) None)].
Definition after : list (Env * Op) :=
  [(e, Sign "u" "M" ("ed25519:D", "signature") "u"); (e, UploadSigning false "u" (Some (key "other")) None None);
   (e, UploadDevice (fun _ => false) "u" "D" (Some ("u", "D")) (key "device"))].

Lemma sample_valid : forall k, deserializes W k = true -> sigs_valid W k.
Proof. intros k _. unfold sigs_valid. destruct (signatures k) as [[m|]|]; [|done..]. by intros ? ? _. Qed.

Lemma identity_by_consent_witness :
  identity Master "u" (run W after (run W before s0)) = Some "M" /\ identity SelfSigning "u" (run W after (run W before s0)) = Some "S".
Proof.
  assert (H : forall slot, identity slot "u" (run W after (run W before s0)) = identity slot "u" (run W before s0)).
  { apply (identity_by_consent W sample_valid "u" before after s0).
    - reflexivity.
    - by intros [].
    - repeat split. by intros [].
    - exists (key "M"). vm_compute. reflexivity.
    - repeat split; try (by intros []). intros [_ [[] Hi]]; vm_compute in Hi; discriminate.
    - repeat split; try (by intros []). intros [_ [Hi|Hi]]; vm_compute in Hi; discriminate. }
  rewrite !H. split; vm_compute; reflexivity.
Defined.

(** ** Keys in one table *)

(** Device keys and cross-signing keys share their rows: the keys of a device named like
    the public master key take the place of the master key, with no authentication. *)
Theorem device_replaces_master :
  let s := run W before s0 in
  let s' := exec W e (UploadDevice (fun _ => false) "u" "M" (Some ("u", "M")) (key "device")) s in
  identity Master "u" s = Some "M" /\ identity Master "u" s' = Some "device" /\
  ok (get_master_key W None "u" (fun _ => true) s') = Some (key "device").
Proof. split_and!; vm_compute; reflexivity. Qed.

(** ** Uploading the same keys again *)

(** Once the user has signed the master key, the same upload counts as a replacement. *)
Theorem same_keys_asked_again :
  let s := run W before s0 in
  let s' := exec W e (Sign "u" "M" ("ed25519:D", "signature") "u") s in
  (upload_signing_keys W e false "u" (Some (key "M")) (Some (key "S")) None s).2 = Ok () /\
  (upload_signing_keys W e false "u" (Some (key "M")) (Some (key "S")) None s').2 = Err Uiaa.
Proof. split; vm_compute; reflexivity. Qed.

(** ** An upload that fails half-way *)

(** A self-signing key that is none fails the upload after the master key was replaced,
    and nobody is told. *)
Theorem half_uploaded :
  let s := run W before s0 in
  let '(s', r) := upload_signing_keys W e true "u" (Some (key "N")) (Some (key "none")) None s in
  r = Err InvalidParam /\ identity Master "u" s' = Some "N" /\ keychangeid_userid s' = keychangeid_userid s.
Proof. vm_compute. split_and!; reflexivity. Qed.

(** ** More changes than a transaction takes *)

Fixpoint name (n : nat) : string := match n with 0%nat => "u" | S n => String "a"%char (name n) end.

(** As many users of one room as are told of at once, at even numbers, and one of another
    room at an odd number between. *)
Definition many : State :=
  mkState ∅ ∅ ∅ ∅ (<[("other", 3) := "w"]> (list_to_map ((fun n => (("room", 2 * Z.of_nat n), name n)) <$> seq 1 select_edu_limit))) ∅.

(** The selection ends before the second room, with a number beyond the change there: the
    next one, which begins after that number, does not have it either. *)
Theorem change_skipped :
  let sel := select_edus_device_changes W ["room"; "other"] 0 1000 many in
  max_edu_count sel = 196 /\ bool_decide ("w" ∈ events sel) = false /\
  events (select_edus_device_changes W ["room"; "other"] (max_edu_count sel) 1000 many) = [].
Proof. vm_compute. split_and!; reflexivity. Qed.

End CrossSigningSample.
